(* ===== verification/_CoqProject ===== *)
-Q . S2P
Prelude.v
Buffers.v
NodeDep.v
NodeDepConc.v
Types.v
WorkerRange.v
Sliced.v
SlicedConc.v
Float.v
Timing.v
Report.v
Controller.v
TimingSpec.v
ReportSpec.v
GraphStruct.v
Graph.v
NodeCache.v
Tables.v
DepCounter.v
Counting.v
Arena.v
Successor.v
ResultMap.v
ArgRes.v
Populate.v
Unchecked.v
Reads.v
Values.v
ObjGen.v
GraphGen.v
GraphGenSpec.v
CriticalPath.v
Compile.v
Gather.v
Slots.v
SlotInv.v
Completion.v
Exec.v
ExecSpec.v
Task.v
Arrivals.v
Frame.v
FrameRun.v
FrameFlaws.v
Packets.v
Resolution.v
Receivers.v
Build.v
CoreAlloc.v
Affinity.v
Sched.v
SchedSpec.v
SchedBuild.v
SchedImpl.v
ResolutionSpec.v
Eviction.v
Admission.v
NextFrame.v
Frames.v
Program.v
Text.v
Exports.v
RustWrapper.v
CWrapper.v
Render.v
WrapSem.v
WrapSpec.v
Signature.v
Companion.v
SignatureSpec.v
TwinSound.v
CHeader.v
CHeaderSpec.v
CCall.v
Generate.v
DynReg.v
DynRegSpec.v
ReceiverSpec.v
Held.v
HeldSpec.v
