(* ===== verification/Prelude.v ===== *)
(** * Tomii: a verified model of the runtime

    Tomii runs a graph of tasks over a stream of frames. A node of the graph has a number
    of instances (its factor) and arguments, some of which are results of other nodes. A
    frame is given a slot; in every slot a counter per node says how many completions the
    node still waits for; workers run the instances that become ready, store their
    results, and decrement the counters of the successors; when nothing of the frame is
    left, a resolution thread claims the slot and gives it to another frame. The functions that nodes run are
    called through wrappers on dynamic values; two more crates generate them when a plugin
    is built. This library models that core, the crate [tomii-core] under
    [src/tomii-core/src] with the value type of [src/tomii-types], and the generation of
    wrappers, [src/tomii-converter/src] and [src/tomii-macro/src], and proves what makes
    them correct.

    ** Files

    - [Prelude]: outcomes that may panic ([run]), errors ([result]), Rust vectors,
      machine words and their casts, ranges, sums.
    - [Buffers] ([buffers/mod.rs], [buffers/node_info.rs]): a generation and a value packed
      in a word; the task descriptor [NodeInfo].
    - [NodeDep], [NodeDepConc] ([buffers/node_dep.rs]): the dependency entry of a node;
      [NodeDep] runs its operations alone and shows that the generational words refine
      plain counters and flags, [NodeDepConc] gives the atomic operations of concurrent
      calls as a step relation and shows that every interleaving hands out each due
      instance once.
    - [Types], [Values] ([tomii-types/src/lib.rs]): dynamic values, and their text form.
      [WorkerRange] ([worker_range.rs]): worker specifications.
    - [Held], [HeldSpec] ([Any], [AnyHeld], [VecAny] of [tomii-types/src/lib.rs]): the objects
      that tasks share and the calls that borrow them; [HeldSpec] shows that concurrent
      borrows are serial where no object that is read without its lock is written.
    - [Sliced], [SlicedConc] ([SlicedContainer] of [tomii-types/src/lib.rs]): the borrow bits
      of arrays that tasks share; [Sliced] runs its calls alone, [SlicedConc] in any
      interleaving of their atomic operations, where writers exclude each other.
    - [GraphStruct], [Graph] ([graph_struct.rs], [graph.rs]): nodes, arguments, index
      filters; construction of the graph; the dependency count.
    - [ObjGen], [GraphGen] ([json_structs.rs], [obj_gen.rs], [graph_gen.rs]): the records of
      a graph file, the objects of its initializations, the graph it describes, and the
      compilation of that graph.
    - [NodeCache], [Tables], [Arena] ([runtime/node_cache.rs], [runtime/init.rs],
      [runtime/successor_arena.rs]): what is computed once per graph: argument templates,
      routing tables, counters, the flattened edges.
    - [DepCounter] ([dependency_counter.rs] and [NodeDepMap]): the counters of all slots
      behind the class [DependencyCounter], with the laws [CompletionLaws] its clients use.
    - [Successor] ([runtime/successor.rs]): one completion on one edge; cutting ready
      instances into tasks.
    - [ResultMap] ([buffers/result_map.rs]): the result store.
    - [ArgRes] ([runtime/arg_resolution.rs]): which cells a task reads, the wait for a cell,
      the filling of the argument buffer.
    - [Slots] ([runtime/slot_management.rs], [runtime/slot_lifecycle.rs]): admission of
      frames, routing of packets, reset, release, promotion and restart of slots.
    - [Exec] ([runtime/task_execution.rs], [runtime/batch_resolution.rs],
      [runtime/resolution_loop.rs]): resolving completed tasks, fan-outs, conditions.
    - [Task] ([runtime/scheduling.rs], the rest of [runtime/task_execution.rs] and of
      [runtime/resolution_loop.rs]): the execution of single and bulk tasks, what goes to
      the scheduler, the trampoline, the queue of completions, post-nodes.
    - [Completion] ([detect_and_claim_slot_completion] against the calls that count
      tasks): a step relation over the shared counters of a slot.

    - [Packets] ([runtime/packet_processing.rs]): parking, dropping and coalescing of
      packets. [CoreAlloc] ([core_alloc.rs]): the cores of the threads.
    - [Resolution] (the rest of [runtime/packet_processing.rs] and of
      [runtime/slot_lifecycle.rs], [runtime/resolution_loop.rs]): what a resolution thread
      does in one iteration: the poll of its packets, the completed tasks, the check of
      the slots with the eviction of stalled frames, release and restart.

    - [Receivers], [ReceiverSpec] ([network.rs], [runtime/threading.rs],
      [runtime/network_init.rs], [handover.rs]): the threads that read the sockets and the
      one that hands them over; [ReceiverSpec] steps them in any order and shows that each
      datagram is taken once and accounted for, and that an acknowledged handover is
      exclusive, and that the other process gets the descriptors as they were sent.

    - [Build] ([runtime/mod.rs], the configuration of [runtime/shared_data.rs]): the
      builder with its checks, the sockets it binds or panics over, the state a new runtime begins with, and the loop in which
      [run] waits for the deadline, the last frame, the caller's predicate or the end of a
      handover.

    - [Affinity], [Sched], [SchedImpl] ([scheduler.rs], [custom_scheduler]): the groups of
      workers that ranges make; the custom scheduler with its channels, its spawns, its
      builder and the loop of a worker; the choice of a scheduler and what the runtime
      asks of it. [SchedSpec] steps spawning threads and workers in any order and shows
      that jobs are run once and channels are drained; [SchedBuild], which workers serve
      which group of a scheduler that was built, and which groups nobody serves.

    - [Float], [Timing], [Controller], [Report] ([time_buffer/mod.rs], [time_buffer/buffer.rs],
      [time_buffer/report.rs]): [f64] arithmetic; the measurement of frames and tasks; the
      thread that collects it with its requests, its reports and the lock it holds; the
      figures of the reports. [TimingSpec] shows that the statistics are the log of the
      calls, that the thread serves them in order, and what becomes of them when a report
      cannot be written; [ReportSpec] which frames are reported and that the figures add up,
      [CriticalPath] that the critical path is the longest one, and that the graph of a file
      that parses has one.

    The wrappers of the functions of a plugin have their own part of the library.

    - [Text]: strings and templates. [Exports] ([tomii-converter/src/lib.rs]): the exported
      functions, what a wrapper asks of its arguments, the types of the symbols.
    - [Signature], [CHeader] ([tomii-converter/src/lib.rs], [c_header.rs]): the exported
      functions of a Rust file with its modules, and of an annotated C header.
      [Companion] ([tomii-macro/src/lib.rs]): what the macro [tomii_export] makes of a
      function.
    - [RustWrapper], [CWrapper], [Render], [Generate] ([tomii-converter/src/lib.rs]): the
      texts of the wrappers, of [wrappers.rs], [func_reg.rs] and the self-contained
      module, and the generator from its input to its output.
    - [WrapSem], [WrapSpec]: the generated wrappers as programs with a printer and a
      meaning (a value, a panic, undefined behaviour, or rejected by the compiler).
      [WrapSpec] shows that the texts are those of the programs, and what these do.
      [SignatureSpec]: the converter and the macro agree on an exported function; the walk
      through the modules. [CHeaderSpec]: a printed header is read back. [CCall]: the call
      of a C function against its declaration. [TwinSound] closes the circle to the runtime:
      the unchecked wrapper of a node that [Tables] selects has no undefined behaviour.
    - [DynReg], [DynRegSpec] ([dynamic_registry.rs], the table of [tomii-types/src/lib.rs]):
      a plugin that brings its kernels along: the reading of its table, and that the
      registry loaded from a generated module answers like the generated one.

    The remaining files hold theorems across components.

    - [Counting]: the dependency count of the graph is the number of completions that the
      routing tables deliver. [Reads]: when a counter is down, every cell the node then
      reads has been written. [Populate]: the buffer a task is called with holds the
      values its arguments ask for. [SlotInv]: the state machine of the slots keeps the
      registry of running frames consistent, runs one frame at a time under slot
      priority, and never panics. [ExecSpec]: the worker path and the batch path start
      exactly the instances whose counters come down, and a fan-out is started once.
    - [GraphGenSpec], [Gather]: the parser. [GraphGenSpec] shows what the graph of a file that
      parses is, and what index expressions mean; [Gather] follows the check of the argument
      layout to the buffer of a task whose last argument gathers several results.
    - [Compile], [Unchecked]: [Compile] shows that a graph whose functions, objects and
      predecessors exist compiles, and what each entry of the cache then holds;
      [Unchecked], that the twin of a kernel without checks is taken only where each
      buffer has the declared variants.
    - [Arrivals], [Frame], [FrameRun]: a whole frame. [Arrivals] counts the completions
      that reach a counter, [Frame] steps workers that take tasks in any order and keeps an
      invariant over the tasks taken and waiting, [FrameRun] shows that compiled graphs
      satisfy what [Frame] asks for, so that a frame runs each instance once and ends.
      [FrameFlaws]: a frame that does not end, and the post-nodes.
    - [NextFrame], [Frames], [Program]: frame after frame on one slot without a network. [NextFrame]
      resets, releases and restarts the slot, [Frames] runs workers and resolution threads
      to the last frame. [Program] is the program as a whole, from the graph file to the
      end of the loop, with all the parts it sets up.
    - [ResolutionSpec], [Admission], [Eviction]: the whole runtime. [ResolutionSpec] steps
      resolution threads and workers in any order and shows that the shared state moves by
      the steps of [SlotInv] only; [Admission] follows the packets of a frame into an
      active slot; [Eviction] has runs in which an evicted frame disturbs others, and
      one whose loop never ends.

    ** Conventions

    Instance numbers, factors and identifiers ([usize], [u16]) are [nat]; words whose width
    matters ([u32], [u64], the packed words, counters that wrap) are [Z] with the cast
    written out, in the wrapping arithmetic of a release build. An index out of range, a
    division by zero and an [unwrap] of nothing are [Panic]. Hash sets are lists without
    repetition; where the order could matter the file says so. The state of the runtime
    is passed explicitly. Operations under a lock are one transition; lock-free
    operations are split into their atomic accesses where a theorem is about
    interleavings ([NodeDepConc], [Completion], the stores of [ResultMap]), under
    sequential consistency.

    ** Fuel

    Two kinds of functions wait: the spin of a task on a missing result with the calls
    built on it, and the trampoline, which runs one continuation after another. [ArgRes.spin_wait] takes fuel and a stream of observed states; its theorem shows
    that as many rounds as it takes for the result, the shutdown or the recycling to be
    observed are enough. The two loops of the critical path take a turn per node, which its
    theorem shows to be enough, and the parser of headers takes a turn per line.
    [Signature.collect_entries_recursive] takes fuel for the modules of a file: their height
    is enough when no module leads back to itself ([SignatureSpec.scan_terminates]), and
    none is when one does ([SignatureSpec.scan_cycle]). Everywhere else the results are there and the fuel is not used.

    ** Not modelled

    The calls of the operating system on sockets: whether an address can be bound is a
    parameter of [Build.build], whether an output can be written one of [Controller];
    connecting and options are left out, and so are the pinning of threads, the queues of Rayon, tracing, the calls of the time
    measurement in the runtime, the reading of clocks and the text of reports. The functions of a plugin
    are the parameter [FuncReg] of the node cache, arbitrary functions on values, and
    [TwinSound] takes for it the tables that the converter generates. Of the converter and
    the macro, the Rust parser ([syn]), the printing of tokens ([quote]), which the types
    [Ty], [ItemFn] and [Companion] stand for, the command line, and the reading and writing
    of files; the meaning of a C function. Also the JSON text of the graph description, which a third-party
    package turns into the records of [ObjGen]; the text of the debug and serde
    forms of values; freeing of boxed results. Benchmarks, examples and the bindings for
    other languages are applications of the runtime.

    ** What the model showed

    Some theorems state behaviour the code does not mean to have:
    [Completion.stale_task_hides_completion], [SlotInv.restart_duplicates_frame],
    [ExecSpec.failed_condition_discharged_again], [ExecSpec.batch_skips_overlapping_run],
    [Counting.mixed_groups_released_early], [Counting.indivisible_groups_mismatch],
    [Reads.mixed_offsets_read_beyond], [Reads.permuted_offsets_read_trigger],
    [Populate.bulk_gather_accumulates], [WorkerRange.range_parse_overflow],
    [FrameFlaws.chunked_groups_lose_instance], [FrameFlaws.chain_loses_instance], [FrameFlaws.post_node_outside_results_waits],
    [FrameFlaws.post_node_completion_panics], [FrameFlaws.post_node_recording_panics],
    [Eviction.eviction_activates_second_slot], [Eviction.evicted_packet_completes_other_frame],
    [Eviction.late_packet_counts_frame_twice], [ObjGen.workers_factor_is_one],
    [GraphGenSpec.single_negative_offset_rejected], [Gather.grouped_dependency_overruns],
    [Values.complex64_comma_rejected], [Build.new_rejects_network],
    [Eviction.overshot_run_never_ends], [Sliced.reader_release_frees_other],
    [SlicedConc.readers_unprotected], [ReportSpec.idle_worker_above_average],
    [TimingSpec.unwritable_report_stops_measuring],
    [SignatureSpec.qualified_string_mismatch], [SignatureSpec.word_in_identifier_mismatch],
    [SignatureSpec.scan_cycle], [SignatureSpec.bulk_index_first_shifts],
    [WrapSpec.wide_parameter_rejected], [WrapSpec.temporary_hides_parameter],
    [WrapSpec.args_parameter_rejected], [WrapSpec.parameter_after_variadic_rejected],
    [DynRegSpec.same_name_mixed], [DynRegSpec.unknown_name_panics], [ReceiverSpec.lost_thread_unacknowledged],
    [ReceiverSpec.idle_poll_loses_buffer], [ReceiverSpec.oversize_taken], [HeldSpec.held_reader_races],
    [HeldSpec.same_object_twice], [HeldSpec.opposite_orders_wait], [HeldSpec.held_bytes_unreadable],
    [CHeaderSpec.reversed_parentheses_panic], the last section of [CCall], the last part of [SchedBuild.ranges_served], and that of
    [Build.run_wait_ends], by which a run without a deadline leaves out its post-nodes. *)
From Stdlib Require Export ZArith Lia Bool.
From stdpp Require Export base list numbers option tactics relations.

Declare Scope tomii_scope.
Delimit Scope tomii_scope with tomii.
Open Scope tomii_scope.

(** ** Outcomes: a value, or a panic *)

(** A Rust expression either yields a value or panics (an out-of-range index,
    a division by zero, an [assert!], an [unwrap] on [None]). *)
Inductive run (A : Type) : Type :=
  | Ret (a : A)
  | Panic.
Arguments Ret {A} a.
Arguments Panic {A}.

(** Rust's [Result<A, E>]. *)
Inductive result (A E : Type) : Type :=
  | ROk (a : A)
  | RErr (e : E).
Arguments ROk {A E} a.
Arguments RErr {A E} e.

Definition run_bind {A B} (m : run A) (k : A → run B) : run B :=
  match m with Ret a => k a | Panic => Panic end.

Notation "'let!' x ':=' m 'in' k" := (run_bind m (λ x, k))
  (at level 10, x pattern, m at level 100, k at level 200) : tomii_scope.

Definition run_map {A B} (f : A → B) (m : run A) : run B := let! x := m in Ret (f x).

(** [l[i]]: panics out of range. *)
Definition vec_get {A} (l : list A) (i : nat) : run A :=
  match l !! i with Some x => Ret x | None => Panic end.

(** [l[i] = x]: panics out of range. *)
Definition vec_set {A} (l : list A) (i : nat) (x : A) : run (list A) :=
  if decide (i < length l) then Ret (<[i := x]> l) else Panic.

(** [unwrap]. *)
Definition unwrap {A} (o : option A) : run A :=
  match o with Some x => Ret x | None => Panic end.

(** A [for] loop whose body threads a state and may panic. *)
Fixpoint foldM {S A} (f : S → A → run S) (s : S) (l : list A) : run S :=
  match l with
  | [] => Ret s
  | x :: l => let! s' := f s x in foldM f s' l
  end.

(** Building a vector element by element, with the index at hand. *)
Fixpoint run_imap {A B} (f : nat → A → run B) (i : nat) (l : list A) : run (list B) :=
  match l with
  | [] => Ret []
  | x :: l => let! y := f i x in let! ys := run_imap f (S i) l in Ret (y :: ys)
  end.

(** [iter().all(f)] and [iter().any(f)], which stop at the first answer. *)
Fixpoint allM {A} (f : A → run bool) (l : list A) : run bool :=
  match l with
  | [] => Ret true
  | x :: l => let! b := f x in if b : bool then allM f l else Ret false
  end.

Fixpoint anyM {A} (f : A → run bool) (l : list A) : run bool :=
  match l with
  | [] => Ret false
  | x :: l => let! b := f x in if b : bool then Ret true else anyM f l
  end.

(** ** Machine integers *)

Definition two32 : Z := 4294967296.
Definition two64 : Z := 18446744073709551616.
Definition u32_max : Z := 4294967295.
Definition u64_max : Z := 18446744073709551615.

(** [x as u32], [x as u64] (also [as usize] on a 64-bit target). *)
Definition as_u32 (z : Z) : Z := (z mod two32)%Z.
Definition as_u64 (z : Z) : Z := (z mod two64)%Z.

(** [x as isize] of a 64-bit pattern. *)
Definition as_i64 (z : Z) : Z :=
  let w := (z mod two64)%Z in if decide (w < 2 ^ 63)%Z then w else (w - two64)%Z.

(** [a.saturating_sub(b)] on an unsigned type and [a.saturating_add(b)] on [u32]. *)
Definition sat_sub (a b : Z) : Z := Z.max 0 (a - b).
Definition sat_add32 (a b : Z) : Z := Z.min u32_max (a + b).

(** [start..end_]. *)
Definition range (start end_ : nat) : list nat := seq start (end_ - start).

(** [n.div_ceil(d)]. *)
Definition div_ceil (n d : nat) : nat := (n + d - 1) / d.

(** [iter().sum()]. *)
Definition nat_sum (l : list nat) : nat := foldr Nat.add 0 l.

(** ** Automation *)

Create HintDb tomii.
Create Rewrite HintDb tomii.

(** Case analysis on the scrutinee of the first [if decide]/[match] of the goal. *)
Ltac case_goal :=
  match goal with
  | |- context [if decide ?P then _ else _] => destruct (decide P)
  | |- context [if ?b then _ else _] => destruct b eqn:?
  | |- context [match ?x with _ => _ end] => destruct x eqn:?
  end.

(** Reads the success of a monadic computation off a hypothesis. *)
Ltac run_inv H :=
  repeat (simpl in H;
    match type of H with
    | run_bind ?m _ = Ret _ => destruct m eqn:?; simpl in H; [| discriminate H]
    | Ret _ = Ret _ => injection H; clear H; intros
    | Panic = Ret _ => discriminate H
    end); subst.

Lemma run_bind_Ret {A B} (m : run A) (k : A → run B) b :
  run_bind m k = Ret b ↔ ∃ a, m = Ret a ∧ k a = Ret b.
Proof. destruct m as [a|]; simpl; [split; [by exists a | intros (? & [=->] & ?); done] | split; [done | intros (? & [=] & _)]]. Qed.

Lemma vec_get_Ret {A} (l : list A) i x : vec_get l i = Ret x ↔ l !! i = Some x.
Proof. unfold vec_get. destruct (l !! i); naive_solver. Qed.

Lemma vec_get_lookup {A} (l : list A) i x : l !! i = Some x → vec_get l i = Ret x.
Proof. apply vec_get_Ret. Qed.

Lemma vec_get_lt {A} (l : list A) i : i < length l → ∃ x, vec_get l i = Ret x ∧ l !! i = Some x.
Proof. intros [x Hx]%lookup_lt_is_Some_2. exists x. split; [by apply vec_get_Ret | done]. Qed.

Lemma vec_get_ge {A} (l : list A) i : length l ≤ i → vec_get l i = Panic.
Proof. intros Hi. unfold vec_get. by rewrite lookup_ge_None_2. Qed.

Lemma vec_set_lt {A} (l : list A) i x : i < length l → vec_set l i x = Ret (<[i := x]> l).
Proof. intros ?. unfold vec_set. by rewrite decide_True. Qed.

Lemma vec_set_Ret {A} (l l' : list A) i x :
  vec_set l i x = Ret l' ↔ i < length l ∧ l' = <[i := x]> l.
Proof. unfold vec_set. case_decide; split; [intros [=<-]; done | intros [_ ->]; done | done | intros [? _]; done]. Qed.

Lemma foldM_app {S A} (f : S → A → run S) s l1 l2 :
  foldM f s (l1 ++ l2) = let! s' := foldM f s l1 in foldM f s' l2.
Proof. revert s. induction l1 as [|x l1 IH]; intros s; simpl; [done|]. destruct (f s x); simpl; auto. Qed.

(** A [for] loop keeps an invariant its body keeps, and does not panic when its body does not. *)
Lemma foldM_inv {S A} (I : S → Prop) (f : S → A → run S) l :
  (∀ s x, x ∈ l → I s → ∃ s', f s x = Ret s' ∧ I s') →
  ∀ s, I s → ∃ s', foldM f s l = Ret s' ∧ I s'.
Proof.
  induction l as [|x l IH]; intros Hf s Hs; simpl; [by exists s|].
  destruct (Hf s x) as (s1 & -> & H1); [left|done|]. simpl. apply IH; [|done].
  intros s2 y Hy. apply Hf. by right.
Qed.

Lemma foldM_ext {S A} (f g : S → A → run S) s l :
  (∀ s x, x ∈ l → f s x = g s x) → foldM f s l = foldM g s l.
Proof.
  revert s. induction l as [|x l IH]; intros s Hfg; simpl; [done|].
  rewrite Hfg by left. destruct (g s x); simpl; [|done]. apply IH. intros. apply Hfg. by right.
Qed.

Lemma run_imap_Ret {A B} (f : nat → A → run B) k l ys :
  run_imap f k l = Ret ys ↔
  length ys = length l ∧ ∀ i x, l !! i = Some x → ∃ y, ys !! i = Some y ∧ f (k + i) x = Ret y.
Proof.
  revert k ys. induction l as [|x l IH]; intros k ys; cbn [run_imap length].
  - split; [by intros [= <-]|]. intros [Hl _]. by apply nil_length_inv in Hl as ->.
  - split.
    + intros (y & Hy & (ys' & Hys & [= <-])%run_bind_Ret)%run_bind_Ret.
      apply IH in Hys as [Hl Hp]. split; [cbn; lia|]. intros [|i] x'; cbn.
      * intros [= <-]. exists y. by rewrite Nat.add_0_r.
      * intros Hi. destruct (Hp i x' Hi) as (z & ? & ?). exists z. by rewrite Nat.add_succ_r.
    + intros [Hl Hp]. destruct ys as [|y ys]; [done|]. cbn in Hl.
      destruct (Hp 0 x) as (? & [= <-] & Hf); [done|]. rewrite Nat.add_0_r in Hf. rewrite Hf. cbn [run_bind].
      rewrite (proj2 (IH (S k) ys)); [done|]. split; [lia|]. intros i x' Hi.
      destruct (Hp (S i) x' Hi) as (z & ? & ?). exists z. by rewrite Nat.add_succ_l, <- Nat.add_succ_r.
Qed.

Lemma run_imap_total {A B} (f : nat → A → run B) k l :
  (∀ i x, l !! i = Some x → ∃ y, f (k + i) x = Ret y) → ∃ ys, run_imap f k l = Ret ys.
Proof.
  revert k. induction l as [|x l IH]; intros k Hf; cbn [run_imap]; [by eexists|].
  destruct (Hf 0 x) as [y Hy]; [done|]. rewrite Nat.add_0_r in Hy. rewrite Hy. cbn [run_bind].
  destruct (IH (S k)) as [ys ->]; [|by eexists]. intros i x' Hi. rewrite Nat.add_succ_l, <- Nat.add_succ_r.
  by apply (Hf (S i)).
Qed.

Lemma allM_Ret {A} (f : A → run bool) l : (∀ x, x ∈ l → ∃ b, f x = Ret b) →
  ∃ b, allM f l = Ret b ∧ (b = true ↔ ∀ x, x ∈ l → f x = Ret true).
Proof.
  induction l as [|x l IH]; intros Hf; cbn [allM].
  - exists true. split; [done|]. split; [by intros _ ? ?%not_elem_of_nil|done].
  - destruct (Hf x) as [b Hb]; [left|]. rewrite Hb. cbn [run_bind]. destruct b.
    + destruct IH as (b & -> & Hiff); [intros; apply Hf; by right|]. exists b. split; [done|].
      rewrite Hiff. split; [intros H y [->|?]%elem_of_cons; auto|intros H y ?; apply H; by right].
    + exists false. split; [done|]. split; [done|]. intros H. rewrite H in Hb by left. congruence.
Qed.

Lemma nat_sum_app l1 l2 : nat_sum (l1 ++ l2) = nat_sum l1 + nat_sum l2.
Proof. unfold nat_sum. induction l1 as [|x l1 IH]; cbn; [done|]. rewrite IH. lia. Qed.

Lemma nat_sum_perm l1 l2 : l1 ≡ₚ l2 → nat_sum l1 = nat_sum l2.
Proof. induction 1; cbn in *; unfold nat_sum in *; lia. Qed.

Lemma elem_of_range x a b : x ∈ range a b ↔ a ≤ x < b.
Proof. unfold range. rewrite elem_of_seq. lia. Qed.

Lemma length_range a b : length (range a b) = b - a.
Proof. apply length_seq. Qed.

Lemma NoDup_range a b : NoDup (range a b).
Proof. apply NoDup_seq. Qed.

Lemma range_empty a b : b ≤ a → range a b = [].
Proof. intros ?. unfold range. by replace (b - a) with 0 by lia. Qed.

Lemma range_cons a b : a < b → range a b = a :: range (S a) b.
Proof. intros ?. unfold range. replace (b - a) with (S (b - S a)) by lia. done. Qed.

Lemma range_app a b c : a ≤ b → b ≤ c → range a c = range a b ++ range b c.
Proof.
  intros ??. unfold range. replace (c - a) with ((b - a) + (c - b)) by lia.
  rewrite seq_app. by replace (a + (b - a)) with b by lia.
Qed.

Lemma range_snoc a b : a ≤ b → range a (S b) = range a b ++ [b].
Proof. intros ?. rewrite (range_app a b) by lia. by rewrite (range_cons b), (range_empty (S b)) by lia. Qed.

Lemma as_u32_small z : (0 ≤ z < two32)%Z → as_u32 z = z.
Proof. intros ?. unfold as_u32. by apply Z.mod_small. Qed.

Lemma as_u32_range z : (0 ≤ as_u32 z < two32)%Z.
Proof. unfold as_u32, two32. apply Z.mod_pos_bound. lia. Qed.

Lemma as_u64_small z : (0 ≤ z < two64)%Z → as_u64 z = z.
Proof. intros ?. unfold as_u64. by apply Z.mod_small. Qed.

Lemma as_u64_range z : (0 ≤ as_u64 z < two64)%Z.
Proof. unfold as_u64, two64. apply Z.mod_pos_bound. lia. Qed.

#[export] Hint Resolve NoDup_range as_u32_range as_u64_range : tomii.
#[export] Hint Rewrite @length_range @length_insert @length_replicate @length_app : tomii.
