(* ===== verification/Buffers.v ===== *)
(** The packed generational words of [buffers/mod.rs] and the task descriptor
    of [buffers/node_info.rs].

    A packed word is a [u64] whose upper 32 bits hold a slot generation and whose
    lower 32 bits hold a value; it is a [Z] here, as are generations and values. *)
From S2P Require Import Prelude.

(** ** Packed words *)

Definition gen_pack (gen val : Z) : Z := Z.lor (Z.shiftl gen 32) val.
Definition gen_unpack_gen (packed : Z) : Z := as_u32 (Z.shiftr packed 32).
Definition gen_unpack_val (packed : Z) : Z := as_u32 packed.

Definition is_u32 (z : Z) : Prop := (0 ≤ z < two32)%Z.
Definition is_u64 (z : Z) : Prop := (0 ≤ z < two64)%Z.

(** The value a packed word stands for at generation [gen]: a word tagged with
    another generation stands for [init] (the lazy reinitialisation that every
    reader of such a word performs before using it). *)
Definition gen_read (gen init packed : Z) : Z :=
  if decide (gen_unpack_gen packed = gen) then gen_unpack_val packed else init.

(** ** Task descriptors *)

Record NodeInfo := mkNodeInfo {
  ni_id : nat;
  ni_gen : Z;
  ni_slot : nat;
  ni_index : nat;
  ni_bulk_count : nat;
  ni_pred_index : nat;
  ni_post_node : bool;
}.

Definition NodeInfo_new (id slot index pred_index : nat) : NodeInfo :=
  mkNodeInfo id 0 slot index 1 pred_index false.

Definition set_post_node (post_node : bool) (ni : NodeInfo) : NodeInfo :=
  mkNodeInfo (ni_id ni) (ni_gen ni) (ni_slot ni) (ni_index ni) (ni_bulk_count ni)
    (ni_pred_index ni) post_node.

Definition with_bulk_count (count : nat) (ni : NodeInfo) : NodeInfo :=
  mkNodeInfo (ni_id ni) (ni_gen ni) (ni_slot ni) (ni_index ni) count
    (ni_pred_index ni) (ni_post_node ni).

Definition with_gen (gen : Z) (ni : NodeInfo) : NodeInfo :=
  mkNodeInfo (ni_id ni) gen (ni_slot ni) (ni_index ni) (ni_bulk_count ni)
    (ni_pred_index ni) (ni_post_node ni).

Definition with_index (index : nat) (ni : NodeInfo) : NodeInfo :=
  mkNodeInfo (ni_id ni) (ni_gen ni) (ni_slot ni) index (ni_bulk_count ni)
    (ni_pred_index ni) (ni_post_node ni).

(** [PartialEq]: generation and bulk count are scheduling metadata, not identity. *)
Definition NodeInfo_eqb (a b : NodeInfo) : bool :=
  (ni_id a =? ni_id b) && (ni_slot a =? ni_slot b) && (ni_index a =? ni_index b)
  && (ni_pred_index a =? ni_pred_index b) && Bool.eqb (ni_post_node a) (ni_post_node b).

(** The fields [Hash] feeds to the hasher, in order. *)
Definition NodeInfo_hash_fields (a : NodeInfo) : list nat * bool :=
  ([ni_id a; ni_slot a; ni_index a; ni_pred_index a], ni_post_node a).

(** The instances a task covers: [index .. index + bulk_count]. *)
Definition covered (ni : NodeInfo) : list nat :=
  range (ni_index ni) (ni_index ni + ni_bulk_count ni).

(** ** Lemmas *)

(** The low half of a packed word does not meet the shifted high half. *)
Lemma land_high_low gen val : is_u32 val → Z.land (gen * 2 ^ 32) val = 0%Z.
Proof.
  intros [Hv0 Hv]. apply Z.bits_inj'. intros n Hn. rewrite Z.land_spec, Z.bits_0.
  destruct (decide (n < 32)%Z) as [?|Hge].
  - by rewrite Z.mul_pow2_bits_low by lia.
  - rewrite (Z.bits_above_log2 val); [apply andb_false_r|done|].
    destruct (decide (val = 0)%Z) as [->|]; [simpl; lia|].
    apply Z.lt_le_trans with 32%Z; [|lia]. apply Z.log2_lt_pow2; unfold two32 in *; lia.
Qed.

Lemma gen_pack_arith gen val : is_u32 val → gen_pack gen val = (gen * two32 + val)%Z.
Proof.
  intros Hv. unfold gen_pack. rewrite Z.shiftl_mul_pow2 by lia.
  change two32 with (2 ^ 32)%Z.
  by rewrite Z.add_nocarry_lxor, <- Z.lxor_lor by (by apply land_high_low).
Qed.

Lemma gen_unpack_gen_pack gen val :
  is_u32 gen → is_u32 val → gen_unpack_gen (gen_pack gen val) = gen.
Proof.
  intros Hg Hv. unfold gen_unpack_gen. rewrite gen_pack_arith by done.
  rewrite Z.shiftr_div_pow2 by lia. change (2 ^ 32)%Z with two32.
  rewrite Z.div_add_l by (unfold two32; lia).
  rewrite Z.div_small, Z.add_0_r by done. by apply as_u32_small.
Qed.

Lemma gen_unpack_val_pack gen val :
  is_u32 val → gen_unpack_val (gen_pack gen val) = val.
Proof.
  intros Hv. unfold gen_unpack_val, as_u32. rewrite gen_pack_arith by done.
  rewrite Z.add_comm, Z.mod_add by (unfold two32; lia). by apply Z.mod_small.
Qed.

Lemma gen_pack_u64 gen val : is_u32 gen → is_u32 val → is_u64 (gen_pack gen val).
Proof.
  intros [? ?] [? ?]. rewrite gen_pack_arith by done.
  unfold is_u64, two64, two32 in *. lia.
Qed.

Lemma gen_unpack_gen_u32 p : is_u32 (gen_unpack_gen p).
Proof. apply as_u32_range. Qed.

Lemma gen_unpack_val_u32 p : is_u32 (gen_unpack_val p).
Proof. apply as_u32_range. Qed.

Lemma gen_read_pack gen init val :
  is_u32 gen → is_u32 val → gen_read gen init (gen_pack gen val) = val.
Proof.
  intros. unfold gen_read. rewrite gen_unpack_gen_pack by done.
  rewrite decide_True by done. by apply gen_unpack_val_pack.
Qed.

Lemma gen_read_stale gen init packed : gen_unpack_gen packed ≠ gen → gen_read gen init packed = init.
Proof. intros. unfold gen_read. by rewrite decide_False. Qed.

Lemma gen_read_u32 gen init packed : is_u32 init → is_u32 (gen_read gen init packed).
Proof. intros. unfold gen_read. case_decide; [apply gen_unpack_val_u32 | done]. Qed.

#[export] Hint Resolve gen_pack_u64 gen_unpack_gen_u32 gen_unpack_val_u32 gen_read_u32 : tomii.
#[export] Hint Rewrite gen_read_pack gen_read_stale using done : tomii.

Lemma NodeInfo_eqb_hash a b :
  NodeInfo_eqb a b = true ↔ NodeInfo_hash_fields a = NodeInfo_hash_fields b.
Proof.
  unfold NodeInfo_eqb, NodeInfo_hash_fields.
  rewrite !andb_true_iff, !Nat.eqb_eq, Bool.eqb_true_iff.
  split; [intros [[[[-> ->] ->] ->] ->]; done | intros [=]; done].
Qed.

(** Packing a 32-bit generation with a 32-bit value yields a 64-bit word from
    which both are recovered, and the packing is the only word with these halves. *)
Theorem gen_pack_roundtrip gen val packed (Hg : is_u32 gen) (Hv : is_u32 val) (Hp : is_u64 packed) :
  is_u64 (gen_pack gen val)
  ∧ (packed = gen_pack gen val ↔ gen_unpack_gen packed = gen ∧ gen_unpack_val packed = val).
Proof.
  split; [by apply gen_pack_u64|]. split.
  - intros ->. split; [by apply gen_unpack_gen_pack | by apply gen_unpack_val_pack].
  - intros [Hgen Hval]. rewrite gen_pack_arith by done. subst gen val.
    unfold gen_unpack_gen, gen_unpack_val, as_u32. rewrite Z.shiftr_div_pow2 by lia.
    change (2 ^ 32)%Z with two32.
    rewrite (Z.mod_small (packed / two32)).
    + rewrite Z.mul_comm. apply Z.div_mod. unfold two32. lia.
    + unfold is_u64, two64, two32 in *. split; [apply Z.div_pos; lia | apply Z.div_lt_upper_bound; lia].
Qed.

Lemma gen_pack_roundtrip_witness :
  is_u64 (gen_pack 7 42)
  ∧ (30064771114%Z = gen_pack 7 42
     ↔ gen_unpack_gen 30064771114 = 7%Z ∧ gen_unpack_val 30064771114 = 42%Z).
Proof.
  apply (gen_pack_roundtrip 7 42 30064771114); unfold is_u32, is_u64, two32, two64; lia.
Defined.
