(* ===== verification/NodeDep.v ===== *)
(** The per-node dependency entry of [buffers/node_dep.rs].

    [NodeDependencyEntry] carries one packed counter per dependency group and one
    packed sent flag per instance. This file models its operations as one thread
    executes them alone, gives the entry an abstract meaning ([view]: plain counters
    and plain flags, no generations), and shows that the generational representation
    implements the abstract one. The interleavings of several threads on one entry
    are in [NodeDepConc]. *)
From S2P Require Import Prelude Buffers.

Record NodeDependencyEntry := mkEntry {
  remaining_deps : list Z;
  instances_sent : list Z;
  factor : nat;
  group_size : nat;
  num_groups : nat;
  deps_per_group : Z;
  deps_per_instance : nat;
  has_barrier : bool;
  is_condition : bool;
}.

Definition set_remaining (l : list Z) (e : NodeDependencyEntry) : NodeDependencyEntry :=
  mkEntry l (instances_sent e) (factor e) (group_size e) (num_groups e) (deps_per_group e)
    (deps_per_instance e) (has_barrier e) (is_condition e).

Definition set_sent (l : list Z) (e : NodeDependencyEntry) : NodeDependencyEntry :=
  mkEntry (remaining_deps e) l (factor e) (group_size e) (num_groups e) (deps_per_group e)
    (deps_per_instance e) (has_barrier e) (is_condition e).

(** [NodeDependencyEntry::new]. [checked_div(..).unwrap_or(0)] is [Nat.div], which
    is 0 when the divisor is. *)
Definition NodeDependencyEntry_new (factor total_deps : nat) (has_barrier : bool)
    (group_size_opt : option nat) (is_condition : bool) : NodeDependencyEntry :=
  let '(group_size, num_groups) :=
    match group_size_opt with
    | Some gs => if (0 <? gs) && (gs <? factor) then (gs, factor / gs) else (factor, 1)
    | None => (factor, 1)
    end in
  let dpg := total_deps / num_groups in
  let deps_per_group := as_u32 (Z.of_nat dpg) in
  mkEntry (replicate num_groups (gen_pack 0 deps_per_group))
    (replicate factor (gen_pack 0 0))
    factor group_size num_groups deps_per_group (dpg / group_size) has_barrier is_condition.

(** The result is a [usize]; [usize::MAX] stands for "never". *)
Definition threshold_for_instance_in_group (e : NodeDependencyEntry) (idx_in_group : nat) : Z :=
  if group_size e <=? idx_in_group then u64_max
  else Z.of_nat ((group_size e - idx_in_group - 1) * deps_per_instance e).

(** The groups a call decrements; [None]: an invalid group, the call returns. *)
Definition call_groups (e : NodeDependencyEntry) (group : option nat) : option (list nat) :=
  match group with
  | Some g => if g <? num_groups e then Some [g] else None
  | None => Some (range 0 (num_groups e))
  end.

(** The closure of the [fetch_update] on a group counter. *)
Definition decrement_word (e : NodeDependencyEntry) (slot_gen count packed : Z) : Z :=
  gen_pack slot_gen (sat_sub (gen_read slot_gen (deps_per_group e) packed) (as_u32 count)).

Definition group_start (e : NodeDependencyEntry) (g : nat) : nat := g * group_size e.
Definition group_end (e : NodeDependencyEntry) (g : nat) : nat :=
  Nat.min (group_start e g + group_size e) (factor e).

(** What follows the decrement of group [g] from [old_] to [new_]: the instances
    published at once (the barrier fast path) and those to claim one by one. *)
Definition publish_plan (e : NodeDependencyEntry) (specific_succ_idx : option nat)
    (g : nat) (old_ new_ : Z) : list nat * list nat :=
  let instances := range (group_start e g) (group_end e g) in
  if has_barrier e then
    if (0 <? old_)%Z && (new_ =? 0)%Z then
      if is_condition e then ([], instances) else (instances, [])
    else ([], [])
  else
    match specific_succ_idx with
    | Some specific_idx => if specific_idx <? factor e then ([], [specific_idx]) else ([], [])
    | None =>
        let max_threshold := Z.of_nat (group_size e * deps_per_instance e) in
        if (new_ <=? max_threshold)%Z then
          ([], filter (λ idx, (new_ <= threshold_for_instance_in_group e (idx - group_start e g))%Z)
                 instances)
        else ([], [])
    end.

(** "Already sent in this generation": the test of the claiming loop. *)
Definition sent_in (slot_gen cur : Z) : bool :=
  (gen_unpack_gen cur =? slot_gen)%Z && negb (gen_unpack_val cur =? 0)%Z.

(** The claiming loop on one instance, alone: the first compare-exchange succeeds. *)
Definition claim_instance (slot_gen : Z) (s : list Z * list nat) (idx : nat) : run (list Z * list nat) :=
  let '(sent, ready) := s in
  let! cur := vec_get sent idx in
  if sent_in slot_gen cur then Ret (sent, ready)
  else
    let! sent' := vec_set sent idx (gen_pack slot_gen 1) in
    Ret (sent', ready ++ [idx]).

(** One iteration of the loop over groups. *)
Definition decrease_group (slot_gen count : Z) (specific_succ_idx : option nat)
    (s : NodeDependencyEntry * list nat) (g : nat) : run (NodeDependencyEntry * list nat) :=
  let '(e, ready) := s in
  let! prev := vec_get (remaining_deps e) g in
  let! remaining' := vec_set (remaining_deps e) g (decrement_word e slot_gen count prev) in
  let old_remaining := gen_read slot_gen (deps_per_group e) prev in
  let new_remaining := sat_sub old_remaining (as_u32 count) in
  let '(direct, claims) := publish_plan e specific_succ_idx g old_remaining new_remaining in
  let! (sent', ready') := foldM (claim_instance slot_gen) (instances_sent e, ready ++ direct) claims in
  Ret (set_sent sent' (set_remaining remaining' e), ready').

(** [decrease_and_get_ready_into]: the entry afterwards and the contents of [ready]. *)
Definition decrease_and_get_ready_into (e : NodeDependencyEntry) (slot_gen : Z)
    (group : option nat) (count : nat) (specific_succ_idx : option nat)
    : run (NodeDependencyEntry * list nat) :=
  match call_groups e group with
  | None => Ret (e, [])
  | Some groups => foldM (decrease_group slot_gen (Z.of_nat count) specific_succ_idx) (e, []) groups
  end.

(** [increment_dependency]: a division by a zero [group_size] panics; the returned
    [old_val + 1] is a [u32] addition. *)
Definition increment_dependency (e : NodeDependencyEntry) (slot_gen : Z) (instance_idx : option nat)
    : run (NodeDependencyEntry * Z) :=
  let! g := match instance_idx with
            | Some idx =>
                if group_size e =? 0 then Panic
                else Ret (Nat.min (idx / group_size e) (num_groups e - 1))
            | None => Ret 0
            end in
  let! prev := vec_get (remaining_deps e) g in
  let old_val := gen_read slot_gen (deps_per_group e) prev in
  let! remaining' := vec_set (remaining_deps e) g (gen_pack slot_gen (sat_add32 old_val 1)) in
  Ret (set_remaining remaining' e, as_u32 (old_val + 1)).

(** [reset_sent_flag] ignores an instance out of range. *)
Definition reset_sent_flag (e : NodeDependencyEntry) (slot_gen : Z) (instance_idx : nat)
    : NodeDependencyEntry :=
  if instance_idx <? length (instances_sent e) then
    set_sent (<[instance_idx := gen_pack slot_gen 0]> (instances_sent e)) e
  else e.

Definition reset_epoch (e : NodeDependencyEntry) (new_gen : Z) : NodeDependencyEntry :=
  set_sent ((λ _, gen_pack new_gen 0) <$> instances_sent e)
    (set_remaining ((λ _, gen_pack new_gen (deps_per_group e)) <$> remaining_deps e) e).

(** ** The abstract entry: plain counters, plain flags *)

Record dep_state := mkDep { ds_remaining : list Z; ds_sent : list bool }.

(** The abstract state an entry represents at generation [gen]. *)
Definition view (gen : Z) (e : NodeDependencyEntry) : dep_state :=
  mkDep (gen_read gen (deps_per_group e) <$> remaining_deps e)
    (sent_in gen <$> instances_sent e).

(** The state of a frame in which no predecessor has completed. *)
Definition fresh (e : NodeDependencyEntry) : dep_state :=
  mkDep (replicate (num_groups e) (deps_per_group e)) (replicate (factor e) false).

Definition spec_claim (s : list bool * list nat) (idx : nat) : list bool * list nat :=
  let '(sent, ready) := s in
  if default false (sent !! idx) then (sent, ready) else (<[idx := true]> sent, ready ++ [idx]).

Definition spec_decrease_group (e : NodeDependencyEntry) (count : Z) (specific_succ_idx : option nat)
    (s : dep_state * list nat) (g : nat) : dep_state * list nat :=
  let '(ds, ready) := s in
  let old_ := default 0%Z (ds_remaining ds !! g) in
  let new_ := sat_sub old_ (as_u32 count) in
  let '(direct, claims) := publish_plan e specific_succ_idx g old_ new_ in
  let '(sent', ready') := fold_left spec_claim claims (ds_sent ds, ready ++ direct) in
  (mkDep (<[g := new_]> (ds_remaining ds)) sent', ready').

Definition spec_decrease (e : NodeDependencyEntry) (group : option nat) (count : nat)
    (specific_succ_idx : option nat) (ds : dep_state) : dep_state * list nat :=
  match call_groups e group with
  | None => (ds, [])
  | Some groups => fold_left (spec_decrease_group e (Z.of_nat count) specific_succ_idx) groups (ds, [])
  end.

(** ** Well-formedness *)

Record entry_wf (e : NodeDependencyEntry) : Prop := {
  wf_remaining : length (remaining_deps e) = num_groups e;
  wf_sent : length (instances_sent e) = factor e;
  wf_groups : 0 < num_groups e;
  wf_cover : num_groups e * group_size e <= factor e;
  wf_dpg : is_u32 (deps_per_group e);
  wf_remaining_words : Forall is_u64 (remaining_deps e);
  wf_sent_words : Forall is_u64 (instances_sent e);
}.

(** The fields no operation writes. *)
Definition same_shape (e e' : NodeDependencyEntry) : Prop :=
  factor e' = factor e ∧ group_size e' = group_size e ∧ num_groups e' = num_groups e
  ∧ deps_per_group e' = deps_per_group e ∧ deps_per_instance e' = deps_per_instance e
  ∧ has_barrier e' = has_barrier e ∧ is_condition e' = is_condition e.

(** No word of the entry carries the tag [gen]. *)
Definition stale_at (gen : Z) (e : NodeDependencyEntry) : Prop :=
  Forall (λ w, gen_unpack_gen w ≠ gen) (remaining_deps e)
  ∧ Forall (λ w, gen_unpack_gen w ≠ gen) (instances_sent e).

(** Instances of [0 .. factor] that belong to a group. *)
Definition in_group (e : NodeDependencyEntry) (g idx : nat) : Prop :=
  group_start e g <= idx < group_end e g.

(** ** Shape and plan *)

Lemma same_shape_refl e : same_shape e e.
Proof. repeat split. Qed.

Lemma same_shape_trans e1 e2 e3 : same_shape e1 e2 → same_shape e2 e3 → same_shape e1 e3.
Proof. unfold same_shape. intuition congruence. Qed.

Lemma same_shape_set_remaining l e : same_shape e (set_remaining l e).
Proof. repeat split. Qed.

Lemma same_shape_set_sent l e : same_shape e (set_sent l e).
Proof. repeat split. Qed.

#[export] Hint Resolve same_shape_refl same_shape_set_remaining same_shape_set_sent : tomii.
#[export] Hint Resolve same_shape_trans : tomii.

Lemma publish_plan_shape e e' spec g old_ new_ :
  same_shape e e' → publish_plan e' spec g old_ new_ = publish_plan e spec g old_ new_.
Proof.
  destruct e, e'. unfold same_shape. simpl. intros (-> & -> & -> & -> & -> & -> & ->). done.
Qed.

Lemma call_groups_shape e e' group : same_shape e e' → call_groups e' group = call_groups e group.
Proof. intros (_ & _ & Hn & _). unfold call_groups. by rewrite Hn. Qed.

Lemma call_groups_lt e group gs g : call_groups e group = Some gs → g ∈ gs → g < num_groups e.
Proof.
  unfold call_groups. destruct group as [g'|].
  - destruct (g' <? num_groups e) eqn:Hlt; [|done]. apply Nat.ltb_lt in Hlt.
    intros [= <-] ->%list_elem_of_singleton. done.
  - intros [= <-]. rewrite elem_of_range. lia.
Qed.

Lemma call_groups_NoDup e group gs : call_groups e group = Some gs → NoDup gs.
Proof.
  unfold call_groups. destruct group as [g'|].
  - destruct (g' <? num_groups e); [|done]. intros [= <-]. apply NoDup_singleton.
  - intros [= <-]. apply NoDup_range.
Qed.

(** Everything a plan publishes is an instance of the node. *)
Lemma publish_plan_bound e spec g old_ new_ idx :
  idx ∈ (publish_plan e spec g old_ new_).1 ++ (publish_plan e spec g old_ new_).2 → idx < factor e.
Proof.
  unfold publish_plan. rewrite elem_of_app.
  assert (Hr : ∀ i, i ∈ range (group_start e g) (group_end e g) → i < factor e).
  { intros i. rewrite elem_of_range. unfold group_end. lia. }
  repeat case_goal; simpl; rewrite ?elem_of_nil; intros [Hi|Hi]; try done; auto.
  all: first [ apply list_elem_of_singleton in Hi as ->; by apply Nat.ltb_lt
             | apply list_elem_of_filter in Hi as [_ ?]; auto ].
Qed.

Lemma publish_plan_NoDup e spec g old_ new_ :
  NoDup ((publish_plan e spec g old_ new_).1 ++ (publish_plan e spec g old_ new_).2).
Proof.
  unfold publish_plan.
  repeat case_goal; simpl; rewrite ?app_nil_r; auto using NoDup_range, NoDup_nil_2, NoDup_singleton.
  apply list.NoDup_filter, NoDup_range.
Qed.

(** ** The claiming loop *)

Lemma sent_in_pack gen v : is_u32 gen → is_u32 v → sent_in gen (gen_pack gen v) = negb (v =? 0)%Z.
Proof.
  intros. unfold sent_in. by rewrite gen_unpack_gen_pack, gen_unpack_val_pack, Z.eqb_refl by done.
Qed.

Lemma is_u32_0 : is_u32 0.
Proof. unfold is_u32, two32. lia. Qed.

Lemma is_u32_1 : is_u32 1.
Proof. unfold is_u32, two32. lia. Qed.

Lemma is_u32_sat_sub a b : is_u32 a → (0 <= b)%Z → is_u32 (sat_sub a b).
Proof. unfold is_u32, sat_sub. lia. Qed.

Lemma is_u32_sat_add a b : is_u32 a → (0 <= b)%Z → is_u32 (sat_add32 a b).
Proof. unfold is_u32, sat_add32, u32_max, two32. lia. Qed.

#[export] Hint Resolve is_u32_0 is_u32_1 is_u32_sat_sub is_u32_sat_add : tomii.

Lemma sent_in_stale gen w : gen_unpack_gen w ≠ gen → sent_in gen w = false.
Proof. intros. unfold sent_in. by rewrite (proj2 (Z.eqb_neq _ _)). Qed.

(** One claim in range does not panic and does what the abstract claim does. *)
Lemma claim_instance_spec gen sent ready idx :
  is_u32 gen → Forall is_u64 sent → idx < length sent →
  ∃ sent' ready', claim_instance gen (sent, ready) idx = Ret (sent', ready')
    ∧ spec_claim (sent_in gen <$> sent, ready) idx = (sent_in gen <$> sent', ready')
    ∧ length sent' = length sent ∧ Forall is_u64 sent'.
Proof.
  intros Hg Hw Hi. unfold claim_instance, spec_claim.
  destruct (vec_get_lt sent idx Hi) as (cur & -> & Hcur). cbn [run_bind].
  rewrite list_lookup_fmap, Hcur. cbn. destruct (sent_in gen cur) eqn:Hs.
  - exists sent, ready. done.
  - rewrite vec_set_lt by done. cbn [run_bind]. eexists _, _. split; [done|].
    rewrite list_fmap_insert, sent_in_pack, length_insert by auto with tomii. split; [done|].
    split; [done|]. apply Forall_insert; auto with tomii.
Qed.

Lemma claim_loop_spec gen claims sent ready :
  is_u32 gen → Forall is_u64 sent → (∀ i, i ∈ claims → i < length sent) →
  ∃ sent' ready', foldM (claim_instance gen) (sent, ready) claims = Ret (sent', ready')
    ∧ fold_left spec_claim claims (sent_in gen <$> sent, ready) = (sent_in gen <$> sent', ready')
    ∧ length sent' = length sent ∧ Forall is_u64 sent'.
Proof.
  intros Hg. revert sent ready. induction claims as [|i claims IH]; intros sent ready Hw Hc.
  - by exists sent, ready.
  - destruct (claim_instance_spec gen sent ready i) as (s1 & r1 & H1 & H2 & H3 & H4);
      [done|done|apply Hc; left|].
    cbn [foldM fold_left]. rewrite H1, H2. cbn [run_bind].
    destruct (IH s1 r1) as (s2 & r2 & ? & ? & ? & ?); [done| |].
    + intros j Hj. rewrite H3. apply Hc. by right.
    + exists s2, r2. rewrite H3 in *. done.
Qed.

(** ** Refinement of the abstract entry *)

Lemma view_set_remaining gen g w e :
  is_u32 gen → is_u32 w →
  view gen (set_remaining (<[g := gen_pack gen w]> (remaining_deps e)) e)
  = mkDep (<[g := w]> (ds_remaining (view gen e))) (ds_sent (view gen e)).
Proof.
  intros. unfold view. simpl. by rewrite list_fmap_insert, gen_read_pack by done.
Qed.

Lemma view_remaining_lookup gen e g prev :
  remaining_deps e !! g = Some prev →
  ds_remaining (view gen e) !! g = Some (gen_read gen (deps_per_group e) prev).
Proof. intros Hp. unfold view. cbn [ds_remaining]. by rewrite list_lookup_fmap, Hp. Qed.

Lemma entry_wf_update e rem sent :
  entry_wf e → length rem = num_groups e → length sent = factor e →
  Forall is_u64 rem → Forall is_u64 sent → entry_wf (set_sent sent (set_remaining rem e)).
Proof. intros [] ????. by constructor. Qed.

Lemma decrease_group_spec gen count spec e ready g :
  is_u32 gen → entry_wf e → g < num_groups e →
  ∃ e' ready', decrease_group gen count spec (e, ready) g = Ret (e', ready')
    ∧ entry_wf e' ∧ same_shape e e'
    ∧ spec_decrease_group e count spec (view gen e, ready) g = (view gen e', ready').
Proof.
  intros Hgen Hwf Hg. pose proof Hwf as []. unfold decrease_group, spec_decrease_group.
  destruct (vec_get_lt (remaining_deps e) g) as (prev & -> & Hprev); [lia|]. cbn [run_bind].
  rewrite vec_set_lt by lia. cbn [run_bind].
  rewrite (view_remaining_lookup gen e g prev Hprev). cbn [default id].
  change (ds_sent (view gen e)) with (sent_in gen <$> instances_sent e).
  set (old_ := gen_read gen (deps_per_group e) prev).
  pose proof (publish_plan_bound e spec g old_ (sat_sub old_ (as_u32 count))) as Hb.
  destruct (publish_plan e spec g old_ _) as [direct claims]. cbn [fst snd] in Hb.
  destruct (claim_loop_spec gen claims (instances_sent e) (ready ++ direct))
    as (sent' & ready' & H1 & H2 & H3 & H4); [done|done| |].
  { intros i Hi. rewrite wf_sent0. apply Hb, elem_of_app. by right. }
  assert (Hnew : is_u32 (sat_sub old_ (as_u32 count))).
  { pose proof (as_u32_range count). apply is_u32_sat_sub; [|lia]. by apply gen_read_u32. }
  rewrite H1, H2. cbn [run_bind]. eexists _, _. split; [done|].
  unfold decrement_word. fold old_. split; [|split].
  - apply entry_wf_update; rewrite ?length_insert; try done; [congruence|].
    apply Forall_insert; auto with tomii.
  - repeat split.
  - f_equal. unfold view. simpl. by rewrite list_fmap_insert, gen_read_pack by done.
Qed.

Lemma spec_decrease_group_shape e e' count spec s g :
  same_shape e e' → spec_decrease_group e' count spec s g = spec_decrease_group e count spec s g.
Proof.
  intros Hs. unfold spec_decrease_group. destruct s as [ds ready]. by rewrite (publish_plan_shape e e') by done.
Qed.

Lemma decrease_groups_spec gen count spec groups e ready :
  is_u32 gen → entry_wf e → (∀ g, g ∈ groups → g < num_groups e) →
  ∃ e' ready', foldM (decrease_group gen count spec) (e, ready) groups = Ret (e', ready')
    ∧ entry_wf e' ∧ same_shape e e'
    ∧ fold_left (spec_decrease_group e count spec) groups (view gen e, ready) = (view gen e', ready').
Proof.
  intros Hgen. revert e ready. induction groups as [|g groups IH]; intros e ready Hwf Hg.
  - exists e, ready. cbn. auto with tomii.
  - destruct (decrease_group_spec gen count spec e ready g) as (e1 & r1 & H1 & Hw1 & Hs1 & H2);
      [done|done|apply Hg; left|].
    cbn [foldM fold_left]. rewrite H1, H2. cbn [run_bind].
    destruct (IH e1 r1) as (e2 & r2 & H3 & Hw2 & Hs2 & H4); [done| |].
    + intros g' ?. pose proof Hs1 as (_ & _ & -> & _). apply Hg. by right.
    + exists e2, r2. split; [done|]. split; [done|]. split; [by eapply same_shape_trans|].
      rewrite <- H4. clear -Hs1. generalize (view gen e1, r1).
      induction groups as [|g' groups IH]; intros s; [done|]. cbn [fold_left].
      by rewrite (spec_decrease_group_shape e e1), IH by done.
Qed.

(** What the abstract entry says of the other operations. *)
Definition spec_increment (ds : dep_state) (g : nat) : dep_state :=
  mkDep (<[g := sat_add32 (default 0%Z (ds_remaining ds !! g)) 1]> (ds_remaining ds)) (ds_sent ds).

Definition spec_reset_sent (ds : dep_state) (idx : nat) : dep_state :=
  mkDep (ds_remaining ds) (<[idx := false]> (ds_sent ds)).

Lemma decrease_refines gen e group count spec :
  is_u32 gen → entry_wf e →
  ∃ e' ready,
    decrease_and_get_ready_into e gen group count spec = Ret (e', ready)
    ∧ entry_wf e' ∧ same_shape e e'
    ∧ spec_decrease e group count spec (view gen e) = (view gen e', ready).
Proof.
  intros Hgen Hwf. unfold decrease_and_get_ready_into, spec_decrease.
  destruct (call_groups e group) as [groups|] eqn:Hcg.
  - apply decrease_groups_spec; [done|done|]. intros g. by apply call_groups_lt with group.
  - exists e, []. auto with tomii.
Qed.

Lemma increment_refines gen e idx :
  is_u32 gen → entry_wf e → 0 < group_size e →
  ∃ e' n,
    increment_dependency e gen (Some idx) = Ret (e', n)
    ∧ entry_wf e' ∧ same_shape e e'
    ∧ view gen e' = spec_increment (view gen e) (Nat.min (idx / group_size e) (num_groups e - 1)).
Proof.
  intros Hgen Hwf Hgs. pose proof Hwf as []. unfold increment_dependency.
  rewrite (proj2 (Nat.eqb_neq _ _)) by lia. cbn [run_bind].
  set (g := Nat.min _ _).
  destruct (vec_get_lt (remaining_deps e) g) as (prev & -> & Hprev); [lia|]. cbn [run_bind].
  rewrite vec_set_lt by lia. cbn [run_bind]. eexists _, _. split; [done|].
  assert (is_u32 (sat_add32 (gen_read gen (deps_per_group e) prev) 1)) by auto with tomii lia.
  split; [|split].
  - destruct e. simpl in *. constructor; simpl; rewrite ?length_insert; try done.
    apply Forall_insert; auto with tomii.
  - apply same_shape_set_remaining.
  - rewrite view_set_remaining by done. unfold spec_increment.
    by rewrite (view_remaining_lookup gen e g prev Hprev).
Qed.

Lemma reset_sent_refines gen e idx :
  is_u32 gen → entry_wf e →
  entry_wf (reset_sent_flag e gen idx) ∧ same_shape e (reset_sent_flag e gen idx)
  ∧ view gen (reset_sent_flag e gen idx) = spec_reset_sent (view gen e) idx.
Proof.
  intros Hgen Hwf. pose proof Hwf as [].
  unfold reset_sent_flag. destruct (idx <? length (instances_sent e)) eqn:Hlt.
  - apply Nat.ltb_lt in Hlt. split; [|split].
    + destruct e. simpl in *. constructor; simpl; rewrite ?length_insert; try done.
      apply Forall_insert; auto with tomii.
    + apply same_shape_set_sent.
    + unfold view, spec_reset_sent. simpl. by rewrite list_fmap_insert, sent_in_pack by auto with tomii.
  - apply Nat.ltb_ge in Hlt. split; [done|]. split; [auto with tomii|].
    unfold spec_reset_sent, view. simpl. f_equal. symmetry. apply list_insert_ge. by rewrite length_fmap.
Qed.

Lemma reset_epoch_refines gen e :
  is_u32 gen → entry_wf e →
  entry_wf (reset_epoch e gen) ∧ same_shape e (reset_epoch e gen)
  ∧ view gen (reset_epoch e gen) = fresh e.
Proof.
  intros Hgen Hwf. pose proof Hwf as []. split; [|split].
  - destruct e. simpl in *. constructor; simpl; rewrite ?length_fmap; try done.
    + apply Forall_fmap, Forall_true. intros. simpl. auto with tomii.
    + apply Forall_fmap, Forall_true. intros. simpl. auto with tomii.
  - repeat split.
  - unfold view, fresh, reset_epoch. cbn [set_sent set_remaining remaining_deps instances_sent deps_per_group].
    rewrite (const_fmap _ (remaining_deps e) (gen_pack gen (deps_per_group e))) by done.
    rewrite (const_fmap _ (instances_sent e) (gen_pack gen 0)) by done.
    rewrite !fmap_replicate, gen_read_pack, sent_in_pack by auto with tomii.
    by rewrite wf_remaining0, wf_sent0.
Qed.

(** C30. Every operation of a well-formed entry returns (no index of the code's vectors
    is out of range), keeps the entry well formed, leaves its configuration alone, and
    does to the plain counters and flags that the entry represents at the caller's
    generation exactly what the abstract operation does; in particular the returned
    [ready] list is the abstract one. *)
Theorem entry_refines_spec gen e (Hgen : is_u32 gen) (Hwf : entry_wf e) :
  (∀ group count spec, ∃ e' ready,
     decrease_and_get_ready_into e gen group count spec = Ret (e', ready)
     ∧ entry_wf e' ∧ same_shape e e'
     ∧ spec_decrease e group count spec (view gen e) = (view gen e', ready))
  ∧ (∀ idx, 0 < group_size e → ∃ e' n,
     increment_dependency e gen (Some idx) = Ret (e', n)
     ∧ entry_wf e' ∧ same_shape e e'
     ∧ view gen e' = spec_increment (view gen e) (Nat.min (idx / group_size e) (num_groups e - 1)))
  ∧ (∀ idx, entry_wf (reset_sent_flag e gen idx) ∧ same_shape e (reset_sent_flag e gen idx)
     ∧ view gen (reset_sent_flag e gen idx) = spec_reset_sent (view gen e) idx)
  ∧ entry_wf (reset_epoch e gen) ∧ same_shape e (reset_epoch e gen)
  ∧ view gen (reset_epoch e gen) = fresh e.
Proof.
  split; [|split; [|split]]; auto using decrease_refines, increment_refines, reset_sent_refines, reset_epoch_refines.
Qed.

(** ** Creation and lazy reinitialisation *)

Lemma new_wf factor total_deps hb gs cond : entry_wf (NodeDependencyEntry_new factor total_deps hb gs cond).
Proof.
  unfold NodeDependencyEntry_new.
  assert (Hd : ∀ n, is_u32 (as_u32 n)) by apply as_u32_range.
  assert (∀ n v, is_u32 v → Forall is_u64 (replicate n (gen_pack 0 v))).
  { intros. apply Forall_replicate. auto with tomii. }
  destruct gs as [gs|]; [destruct ((0 <? gs) && (gs <? factor)) eqn:Hgs|];
    constructor; cbn; rewrite ?length_replicate; auto with tomii; try lia.
  - apply andb_true_iff in Hgs as [H1%Nat.ltb_lt H2%Nat.ltb_lt]. apply Nat.div_str_pos. lia.
  - apply andb_true_iff in Hgs as [H1%Nat.ltb_lt H2%Nat.ltb_lt].
    rewrite Nat.mul_comm. apply Nat.Div0.mul_div_le.
Qed.

Lemma map_stale {B} (f : Z → B) (P : Z → Prop) (y : B) (l : list Z) :
  (∀ w, P w → f w = y) → Forall P l → f <$> l = replicate (length l) y.
Proof. intros Hf. induction 1; simpl; f_equal; auto. Qed.

Lemma view_stale gen e : entry_wf e → stale_at gen e → view gen e = fresh e.
Proof.
  intros [] [Hr Hs]. unfold view, fresh. rewrite <- wf_remaining0, <- wf_sent0. f_equal.
  - eapply map_stale, Hr. intros. by apply gen_read_stale.
  - eapply map_stale, Hs. intros. by apply sent_in_stale.
Qed.

Lemma view_new factor total_deps hb gs cond :
  view 0 (NodeDependencyEntry_new factor total_deps hb gs cond)
  = fresh (NodeDependencyEntry_new factor total_deps hb gs cond).
Proof.
  unfold NodeDependencyEntry_new.
  destruct gs as [gs|]; [destruct ((0 <? gs) && (gs <? factor))|];
    unfold view, fresh; cbn; rewrite !fmap_replicate; unfold default;
    rewrite gen_read_pack, sent_in_pack by (auto with tomii; apply as_u32_range); done.
Qed.

(** A generation bump resets an entry without touching it: if no word of a
    well-formed entry carries the new generation, every operation behaves as on the
    entry that [reset_epoch] would have rewritten eagerly, from the state in which no
    predecessor has completed. *)
Theorem lazy_reinit_is_reset gen e group count spec
    (Hgen : is_u32 gen) (Hwf : entry_wf e) (Hstale : stale_at gen e) :
  view gen e = fresh e ∧ view gen (reset_epoch e gen) = fresh e
  ∧ ∃ e1 e2 ready,
      decrease_and_get_ready_into e gen group count spec = Ret (e1, ready)
      ∧ decrease_and_get_ready_into (reset_epoch e gen) gen group count spec = Ret (e2, ready)
      ∧ view gen e1 = view gen e2.
Proof.
  pose proof (view_stale gen e Hwf Hstale) as Hv.
  pose proof (reset_epoch_refines gen e Hgen Hwf) as (Hw2 & Hs2 & Hv2).
  split; [done|]. split; [done|].
  destruct (decrease_refines gen e group count spec Hgen Hwf) as (e1 & r1 & H1 & _ & _ & Hspec1).
  destruct (decrease_refines gen (reset_epoch e gen) group count spec Hgen Hw2)
    as (e2 & r2 & H2 & _ & _ & Hspec2).
  assert (Heq : spec_decrease (reset_epoch e gen) group count spec (fresh e)
                = spec_decrease e group count spec (fresh e)).
  { unfold spec_decrease. rewrite (call_groups_shape e) by done. destruct (call_groups e group); [|done].
    generalize (fresh e, @nil nat). induction l as [|g l IH]; intros s; [done|]. cbn [fold_left].
    by rewrite (spec_decrease_group_shape e), IH by done. }
  rewrite Hv in Hspec1. rewrite Hv2, Heq in Hspec2. rewrite Hspec1 in Hspec2.
  apply pair_equal_spec in Hspec2 as [Hveq ->]. by exists e1, e2, r2.
Qed.

Lemma lazy_reinit_is_reset_witness :
  let e := mkEntry [gen_pack 3 1] [gen_pack 3 1; gen_pack 2 0] 2 2 1 4 2 true false in
  view 5 e = fresh e ∧ view 5 (reset_epoch e 5) = fresh e
  ∧ ∃ e1 e2 ready,
      decrease_and_get_ready_into e 5 None 4 None = Ret (e1, ready)
      ∧ decrease_and_get_ready_into (reset_epoch e 5) 5 None 4 None = Ret (e2, ready)
      ∧ view 5 e1 = view 5 e2.
Proof.
  apply (lazy_reinit_is_reset 5
           (mkEntry [gen_pack 3 1] [gen_pack 3 1; gen_pack 2 0] 2 2 1 4 2 true false)).
  - unfold is_u32, two32. lia.
  - constructor; cbn; try lia; repeat constructor; vm_compute; congruence.
  - split; repeat constructor; vm_compute; congruence.
Defined.

Lemma entry_refines_spec_witness :
  let e := NodeDependencyEntry_new 4 8 false None false in
  ∃ e' ready,
    decrease_and_get_ready_into e 7 None 6 None = Ret (e', ready)
    ∧ entry_wf e' ∧ same_shape e e'
    ∧ spec_decrease e None 6 None (view 7 e) = (view 7 e', ready).
Proof.
  destruct (entry_refines_spec 7 (NodeDependencyEntry_new 4 8 false None false)) as [H _];
    [| |apply (H None 6 None)].
  - unfold is_u32, two32. lia.
  - apply new_wf.
Defined.
