(* ===== verification/NodeDepConc.v ===== *)
(** Several threads on one dependency entry.

    [decrease_and_get_ready_into] is called on the same entry by every worker and
    resolution thread. Each call is a sequence of atomic operations: one
    [fetch_update] per group, then for every instance to claim a load and a
    compare-exchange that is retried when another thread got in between. This file
    gives those operations as a step relation over any number of threads, in any
    interleaving (all of them are [SeqCst]/[Acquire]-[Release] operations on single
    words, so an execution is a sequence of them), and shows that whatever the
    interleaving no instance is handed out twice, and that when all threads have
    returned exactly the instances whose threshold was reached have been handed out. *)
From S2P Require Import Prelude Buffers NodeDep.

(** One thread inside one call: the groups whose counter it has still to decrement,
    the instances it has still to claim, the word it loaded for the first of them
    (between the load and the compare-exchange), and its [ready] vector. *)
Record thread := mkThread {
  th_count : nat;
  th_spec : option nat;
  th_groups : list nat;
  th_claims : list nat;
  th_cas : option Z;
  th_ready : list nat;
}.

(** A call about to start: [ready.clear()] and the match on [group]. *)
Definition start_call (e : NodeDependencyEntry) (group : option nat) (count : nat)
    (specific_succ_idx : option nat) : thread :=
  mkThread count specific_succ_idx (default [] (call_groups e group)) [] None [].

Definition th_done (t : thread) : bool :=
  match th_groups t, th_claims t with [], [] => true | _, _ => false end.

(** The next atomic operation of a thread; [None] when its call has returned, or
    when the operation would panic. *)
Definition thread_step (slot_gen : Z) (e : NodeDependencyEntry) (t : thread)
    : option (NodeDependencyEntry * thread) :=
  match th_claims t, th_cas t with
  | idx :: claims, Some cur =>
      (* compare_exchange *)
      w ← instances_sent e !! idx;
      if (w =? cur)%Z then
        Some (set_sent (<[idx := gen_pack slot_gen 1]> (instances_sent e)) e,
              mkThread (th_count t) (th_spec t) (th_groups t) claims None (th_ready t ++ [idx]))
      else Some (e, mkThread (th_count t) (th_spec t) (th_groups t) (idx :: claims) None (th_ready t))
  | idx :: claims, None =>
      (* load *)
      cur ← instances_sent e !! idx;
      if sent_in slot_gen cur then
        Some (e, mkThread (th_count t) (th_spec t) (th_groups t) claims None (th_ready t))
      else Some (e, mkThread (th_count t) (th_spec t) (th_groups t) (idx :: claims) (Some cur) (th_ready t))
  | [], _ =>
      match th_groups t with
      | [] => None
      | g :: groups =>
          (* fetch_update *)
          prev ← remaining_deps e !! g;
          let count := Z.of_nat (th_count t) in
          let old_remaining := gen_read slot_gen (deps_per_group e) prev in
          let new_remaining := sat_sub old_remaining (as_u32 count) in
          let '(direct, claims) := publish_plan e (th_spec t) g old_remaining new_remaining in
          Some (set_remaining (<[g := decrement_word e slot_gen count prev]> (remaining_deps e)) e,
                mkThread (th_count t) (th_spec t) groups claims None (th_ready t ++ direct))
      end
  end.

Definition sys : Type := NodeDependencyEntry * list thread.

(** Some thread performs its next atomic operation. *)
Inductive sys_step (slot_gen : Z) : sys → sys → Prop :=
  | sys_step_at e ts i t e' t' :
      ts !! i = Some t →
      thread_step slot_gen e t = Some (e', t') →
      sys_step slot_gen (e, ts) (e', <[i := t']> ts).

(** Every [ready] vector of the system. *)
Definition all_ready (ts : list thread) : list nat := ts ≫= th_ready.

(** The number of arrivals the calls have for group [g], as [u32] values. *)
Definition hits (g : nat) (ts : list thread) : Z :=
  foldr (λ t acc, if decide (g ∈ th_groups t) then as_u32 (Z.of_nat (th_count t)) + acc else acc)%Z 0%Z ts.

(** An instance of group [g] is due once the group's counter has gone down to [rem]. *)
Definition due (e : NodeDependencyEntry) (rem : Z) (g idx : nat) : Prop :=
  if has_barrier e then rem = 0%Z
  else (rem <= threshold_for_instance_in_group e (idx - group_start e g))%Z.

(** A solo run of a thread: [n] atomic operations with nobody else on the entry. *)
Fixpoint solo (n : nat) (slot_gen : Z) (e : NodeDependencyEntry) (t : thread)
    : option (NodeDependencyEntry * thread) :=
  match n with
  | 0 => Some (e, t)
  | S n => et ← thread_step slot_gen e t; solo n slot_gen et.1 et.2
  end.

(** The instances some thread has still to claim. *)
Definition all_claims (ts : list thread) : list nat := ts ≫= th_claims.

(** The barrier fast path: no claiming loop, one thread publishes the whole range. *)
Definition direct_mode (e : NodeDependencyEntry) : bool := has_barrier e && negb (is_condition e).

(** What holds of one thread at any point of its call. *)
Record thread_ok (slot_gen : Z) (e : NodeDependencyEntry) (t : thread) : Prop := {
  tok_groups : ∀ g, g ∈ th_groups t → g < num_groups e;
  tok_groups_nodup : NoDup (th_groups t);
  tok_claims : ∀ i, i ∈ th_claims t → i < factor e;
  tok_cas : ∀ w, th_cas t = Some w → sent_in slot_gen w = false;
  tok_direct : direct_mode e = true → th_claims t = [];
}.

(** The invariant of an execution, from its initial state with the hits [H] to come. *)
Record sys_inv (slot_gen : Z) (e0 : NodeDependencyEntry) (H : nat → Z) (s : sys) : Prop := {
  si_wf : entry_wf s.1;
  si_shape : same_shape e0 s.1;
  si_rem : ∀ g, g < num_groups e0 → ∃ r, ds_remaining (view slot_gen s.1) !! g = Some r
             ∧ (0 <= r)%Z ∧ sat_sub r (hits g s.2) = sat_sub (deps_per_group e0) (H g);
  si_threads : Forall (thread_ok slot_gen e0) s.2;
  si_nodup : NoDup (all_ready s.2);
  si_flag : direct_mode e0 = false →
              ∀ i, i ∈ all_ready s.2 ↔ ds_sent (view slot_gen s.1) !! i = Some true;
  si_direct : direct_mode e0 = true → ∀ i, i ∈ all_ready s.2 →
              ∃ g, g < num_groups e0 ∧ in_group e0 g i
                   ∧ ds_remaining (view slot_gen s.1) !! g = Some 0%Z;
}.

(** For calls that do not name a specific instance: what has been handed out or is
    about to be claimed is exactly what is due. *)
Definition due_inv (slot_gen : Z) (e0 : NodeDependencyEntry) (s : sys) : Prop :=
  (∀ i, i ∈ all_ready s.2 ++ all_claims s.2 → ∃ g, g < num_groups e0 ∧ in_group e0 g i)
  ∧ ∀ g i r, g < num_groups e0 → in_group e0 g i →
      ds_remaining (view slot_gen s.1) !! g = Some r →
      (i ∈ all_ready s.2 ++ all_claims s.2 ↔ due e0 r g i).

(** ** Permuting threads *)

Lemma insert_perm {A} (l : list A) i x y :
  l !! i = Some x → ∃ rest, l ≡ₚ x :: rest ∧ <[i := y]> l ≡ₚ y :: rest.
Proof.
  intros Hi. exists (take i l ++ drop (S i) l). split.
  - rewrite <- (take_drop_middle l i x Hi) at 1. by rewrite Permutation_middle.
  - rewrite insert_take_drop by (by eapply lookup_lt_Some). by rewrite Permutation_middle.
Qed.

#[export] Instance all_ready_perm : Proper ((≡ₚ) ==> (≡ₚ)) all_ready.
Proof. intros ts ts' Hp. unfold all_ready. by rewrite Hp. Qed.

#[export] Instance all_claims_perm : Proper ((≡ₚ) ==> (≡ₚ)) all_claims.
Proof. intros ts ts' Hp. unfold all_claims. by rewrite Hp. Qed.

#[export] Instance hits_perm g : Proper ((≡ₚ) ==> (=)) (hits g).
Proof. intros ts ts' Hp. unfold hits. induction Hp; simpl; repeat case_decide; lia. Qed.

Lemma all_ready_cons t ts : all_ready (t :: ts) = th_ready t ++ all_ready ts.
Proof. done. Qed.

Lemma all_claims_cons t ts : all_claims (t :: ts) = th_claims t ++ all_claims ts.
Proof. done. Qed.

(** What one thread's step makes of the system-wide quantities. *)
Lemma sys_update ts i t t' l :
  ts !! i = Some t → th_ready t' = th_ready t ++ l →
  ∃ rest, ts ≡ₚ t :: rest ∧ <[i := t']> ts ≡ₚ t' :: rest
    ∧ all_ready (<[i := t']> ts) ≡ₚ l ++ all_ready ts.
Proof.
  intros Hi Hr. destruct (insert_perm ts i t t' Hi) as (rest & H1 & H2).
  exists rest. split; [done|]. split; [done|].
  rewrite H2, H1, !all_ready_cons, Hr, !(assoc_L (++)). f_equiv. apply Permutation_app_comm.
Qed.

Lemma hits_nonneg g ts : (0 <= hits g ts)%Z.
Proof.
  induction ts as [|t ts IH]; simpl; [lia|].
  pose proof (as_u32_range (Z.of_nat (th_count t))). case_decide; lia.
Qed.

Lemma sat_sub_sat_sub a b c : (0 <= b)%Z → (0 <= c)%Z → sat_sub (sat_sub a b) c = sat_sub a (b + c).
Proof. unfold sat_sub. lia. Qed.

(** The instances of two groups are disjoint. *)
Lemma in_group_inj e g g' i : in_group e g i → in_group e g' i → g = g'.
Proof.
  unfold in_group, group_end, group_start. intros [? ?] [? ?].
  destruct (Nat.lt_trichotomy g g') as [Hlt|[->|Hlt]]; [exfalso|done|exfalso].
  - pose proof (Nat.mul_le_mono_r (S g) g' (group_size e) Hlt) as Hm. rewrite Nat.mul_succ_l in Hm. lia.
  - pose proof (Nat.mul_le_mono_r (S g') g (group_size e) Hlt) as Hm. rewrite Nat.mul_succ_l in Hm. lia.
Qed.

Lemma in_group_shape e e' g i : same_shape e e' → in_group e' g i ↔ in_group e g i.
Proof. intros (Hf & Hg & _). unfold in_group, group_end, group_start. by rewrite Hf, Hg. Qed.

Lemma in_group_range e g i : i ∈ range (group_start e g) (group_end e g) ↔ in_group e g i.
Proof. apply elem_of_range. Qed.

(** ** One step *)

Lemma Forall_perm_cons {A} (P : A → Prop) l x y rest l' :
  l ≡ₚ x :: rest → l' ≡ₚ y :: rest → Forall P l → P y → Forall P l'.
Proof. intros H1 H2 Hl Hy. rewrite H1 in Hl. rewrite H2. inversion Hl; subst. by constructor. Qed.

Lemma plan_direct e spec g old_ new_ : direct_mode e = true → (publish_plan e spec g old_ new_).2 = [].
Proof.
  unfold direct_mode, publish_plan. intros [-> Hc]%andb_true_iff.
  destruct (is_condition e); [done|]. by destruct ((0 <? old_)%Z && (new_ =? 0)%Z).
Qed.

Lemma plan_claiming e spec g old_ new_ : direct_mode e = false → (publish_plan e spec g old_ new_).1 = [].
Proof.
  unfold direct_mode, publish_plan. destruct (has_barrier e); simpl.
  - destruct (is_condition e); [|done]. intros _. by destruct ((0 <? old_)%Z && (new_ =? 0)%Z).
  - intros _. by repeat case_goal.
Qed.

(** A direct publication of group [g] happens at the counter's step from a positive
    value to zero, and publishes the group's instances. *)
Lemma plan_direct_elem e spec g old_ new_ i :
  direct_mode e = true → i ∈ (publish_plan e spec g old_ new_).1 →
  (0 < old_)%Z ∧ new_ = 0%Z ∧ in_group e g i.
Proof.
  unfold direct_mode, publish_plan. intros [-> Hc]%andb_true_iff.
  destruct (is_condition e); [done|]. destruct ((0 <? old_)%Z && (new_ =? 0)%Z) eqn:Hz; simpl.
  - apply andb_true_iff in Hz as [?%Z.ltb_lt ?%Z.eqb_eq]. by rewrite in_group_range.
  - by intros ?%not_elem_of_nil.
Qed.

(** Without a named instance, a plan is the due instances of the group: all of them
    when they are not published already. *)
Lemma plan_due e spec g old_ new_ i :
  (has_barrier e = true ∨ spec = None) → (0 <= new_ <= old_)%Z → in_group e g i →
  let p := publish_plan e spec g old_ new_ in
  (due e old_ g i ∨ i ∈ p.1 ++ p.2) ↔ due e new_ g i.
Proof.
  intros Hs Hle Hi p. subst p. unfold due, publish_plan.
  destruct (has_barrier e) eqn:Hb.
  - destruct ((0 <? old_)%Z && (new_ =? 0)%Z) eqn:Hz.
    + apply andb_true_iff in Hz as [?%Z.ltb_lt ?%Z.eqb_eq]. split; [done|]. intros _. right.
      destruct (is_condition e); simpl; rewrite ?app_nil_r; by apply in_group_range.
    + apply andb_false_iff in Hz. rewrite Z.ltb_ge, Z.eqb_neq in Hz. simpl.
      split; [intros [? | []%not_elem_of_nil] | intros ?; left]; lia.
  - destruct Hs as [?| ->]; [done|].
    destruct (new_ <=? Z.of_nat (group_size e * deps_per_instance e))%Z eqn:Hz; simpl.
    + rewrite list_elem_of_filter, in_group_range. intuition lia.
    + apply Z.leb_gt in Hz. split; [intros [? | []%not_elem_of_nil]; lia|]. intros Hdue. exfalso.
      unfold threshold_for_instance_in_group in Hdue.
      destruct Hi as [? Hi]. unfold group_end in Hi.
      rewrite (proj2 (Nat.leb_gt _ _)) in Hdue by lia.
      assert ((group_size e - (i - group_start e g) - 1) * deps_per_instance e
              <= group_size e * deps_per_instance e) by (apply Nat.mul_le_mono_r; lia). lia.
Qed.

Lemma plan_in_group e spec g old_ new_ i :
  (has_barrier e = true ∨ spec = None) →
  i ∈ (publish_plan e spec g old_ new_).1 ++ (publish_plan e spec g old_ new_).2 → in_group e g i.
Proof.
  intros Hs. rewrite <- in_group_range. unfold publish_plan.
  destruct (has_barrier e); [|destruct Hs as [ | -> ]; [done|]].
  - repeat case_goal; simpl; rewrite ?app_nil_r; auto; by intros ?%not_elem_of_nil.
  - repeat case_goal; simpl; [by intros [_ ?]%list_elem_of_filter | by intros ?%not_elem_of_nil].
Qed.

Lemma hits_cons g t ts :
  hits g (t :: ts) = ((if decide (g ∈ th_groups t) then as_u32 (Z.of_nat (th_count t)) else 0) + hits g ts)%Z.
Proof. simpl. case_decide; lia. Qed.

(** A step that touches neither the entry nor [ready] (a load, a failed exchange). *)
Lemma inv_quiet gen e0 H e ts i t t' :
  sys_inv gen e0 H (e, ts) → ts !! i = Some t →
  th_ready t' = th_ready t → th_groups t' = th_groups t → th_count t' = th_count t →
  thread_ok gen e0 t' → sys_inv gen e0 H (e, <[i := t']> ts).
Proof.
  intros Hinv Hi Hr Hg Hc Hok.
  destruct (sys_update ts i t t' [] Hi) as (rest & H1 & H2 & H3); [by rewrite Hr, app_nil_r|].
  assert (Hh : ∀ g, hits g (<[i := t']> ts) = hits g ts).
  { intros g. by rewrite H2, H1, !hits_cons, Hg, Hc. }
  destruct Hinv as [Hwf Hsh Hrem Hth Hnd Hfl Hdir]. cbn [fst snd] in *. simpl in H3.
  constructor; cbn [fst snd]; try done.
  - intros g. rewrite Hh. apply Hrem.
  - by apply (Forall_perm_cons _ _ _ _ _ _ H1 H2).
  - by rewrite H3.
  - intros Hm j. rewrite H3. by apply Hfl.
  - intros Hm j. rewrite H3. by apply Hdir.
Qed.

(** A successful compare-exchange: the claimed instance was not flagged, so nobody
    has it, and it is flagged afterwards. *)
Lemma inv_claim gen e0 H e ts i t idx claims w :
  is_u32 gen → sys_inv gen e0 H (e, ts) → ts !! i = Some t →
  th_claims t = idx :: claims → th_cas t = Some w → instances_sent e !! idx = Some w →
  sys_inv gen e0 H
    (set_sent (<[idx := gen_pack gen 1]> (instances_sent e)) e,
     <[i := mkThread (th_count t) (th_spec t) (th_groups t) claims None (th_ready t ++ [idx])]> ts).
Proof.
  intros Hgen Hinv Hi Hcl Hcas Hw. set (t' := mkThread _ _ _ _ _ _).
  destruct (sys_update ts i t t' [idx] Hi) as (rest & H1 & H2 & H3); [done|].
  assert (Hh : ∀ g, hits g (<[i := t']> ts) = hits g ts).
  { intros g. by rewrite H2, H1, !hits_cons. }
  destruct Hinv as [Hwf Hsh Hrem Hth Hnd Hfl Hdir]. cbn [fst snd] in *.
  assert (Hok : thread_ok gen e0 t) by (eapply Forall_lookup_1; eauto).
  destruct Hok as [Hg1 Hg2 Hc1 Hc2 Hd].
  assert (Hmode : direct_mode e0 = false).
  { destruct (direct_mode e0); [|done]. by rewrite Hd in Hcl. }
  assert (Hfree : idx ∉ all_ready ts).
  { rewrite Hfl by done. unfold view. cbn [ds_sent]. rewrite list_lookup_fmap, Hw. simpl.
    by rewrite (Hc2 w Hcas). }
  assert (Hsent : ds_sent (view gen (set_sent (<[idx := gen_pack gen 1]> (instances_sent e)) e))
                  = <[idx := true]> (ds_sent (view gen e))).
  { unfold view. cbn. by rewrite list_fmap_insert, sent_in_pack by auto with tomii. }
  constructor; cbn [fst snd].
  - destruct Hwf. constructor; cbn; rewrite ?length_insert; try done.
    apply Forall_insert; auto with tomii.
  - eapply same_shape_trans; [done|apply same_shape_set_sent].
  - intros g. rewrite Hh. apply Hrem.
  - apply (Forall_perm_cons _ _ _ _ _ _ H1 H2); [done|]. constructor; cbn; auto; [|done|by rewrite Hmode].
    intros j Hj. apply Hc1. rewrite Hcl. by right.
  - rewrite H3. simpl. by constructor.
  - intros _ j. rewrite H3, Hsent. simpl. rewrite elem_of_cons, Hfl by done.
    destruct (decide (j = idx)) as [->|Hne].
    + rewrite list_lookup_insert_eq; [split; auto|]. unfold view. cbn. rewrite length_fmap.
      by eapply lookup_lt_Some.
    + rewrite list_lookup_insert_ne by done. intuition.
  - by rewrite Hmode.
Qed.

(** The decrement of a group counter. *)
Lemma inv_fetch gen e0 H e ts i t g groups prev :
  is_u32 gen → sys_inv gen e0 H (e, ts) → ts !! i = Some t →
  th_claims t = [] → th_groups t = g :: groups → remaining_deps e !! g = Some prev →
  let count := Z.of_nat (th_count t) in
  let old_ := gen_read gen (deps_per_group e) prev in
  let p := publish_plan e (th_spec t) g old_ (sat_sub old_ (as_u32 count)) in
  sys_inv gen e0 H
    (set_remaining (<[g := decrement_word e gen count prev]> (remaining_deps e)) e,
     <[i := mkThread (th_count t) (th_spec t) groups p.2 None (th_ready t ++ p.1)]> ts).
Proof.
  intros Hgen Hinv Hi Hcl Hgr Hprev count old_ p. set (t' := mkThread _ _ _ _ _ _).
  destruct (sys_update ts i t t' p.1 Hi) as (rest & H1 & H2 & H3); [done|].
  destruct Hinv as [Hwf Hsh Hrem Hth Hnd Hfl Hdir]. cbn [fst snd] in *.
  assert (Hok : thread_ok gen e0 t) by (eapply Forall_lookup_1; eauto).
  destruct Hok as [Hg1 Hg2 Hc1 Hc2 Hd]. rewrite Hgr in Hg1, Hg2.
  assert (Hglt : g < num_groups e0) by (apply Hg1; left).
  apply NoDup_cons in Hg2 as [Hgn Hg2].
  pose proof (view_remaining_lookup gen e g prev Hprev) as Hold. fold old_ in Hold.
  destruct (Hrem g Hglt) as (r & Hr & Hr0 & Hr1). rewrite Hold in Hr. injection Hr as <-.
  set (new_ := sat_sub old_ (as_u32 count)) in *.
  pose proof (as_u32_range count) as Hcnt.
  assert (Hnew : is_u32 new_).
  { apply is_u32_sat_sub; [|lia]. destruct Hwf. by apply gen_read_u32. }
  assert (Hv : view gen (set_remaining (<[g := decrement_word e gen count prev]> (remaining_deps e)) e)
               = mkDep (<[g := new_]> (ds_remaining (view gen e))) (ds_sent (view gen e))).
  { by apply view_set_remaining. }
  assert (Hpb : ∀ j, j ∈ p.1 ++ p.2 → j < factor e0).
  { pose proof Hsh as (Hf & _). rewrite <- Hf. apply publish_plan_bound. }
  assert (Hdp : direct_mode e0 = direct_mode e).
  { pose proof Hsh as (_ & _ & _ & _ & _ & Hb1 & Hb2). unfold direct_mode. by rewrite Hb1, Hb2. }
  assert (Hlen : g < length (ds_remaining (view gen e))) by (by eapply lookup_lt_Some).
  constructor; cbn [fst snd].
  - destruct Hwf. constructor; cbn; rewrite ?length_insert; try done.
    apply Forall_insert; [done|]. unfold decrement_word. auto with tomii.
  - eapply same_shape_trans; [done|apply same_shape_set_remaining].
  - intros g' Hg'. rewrite Hv. cbn [ds_remaining].
    destruct (Hrem g' Hg') as (r & Hr & Hr' & Hr''). rewrite H1, hits_cons, Hgr in Hr''.
    assert (Hh : hits g' (<[i := t']> ts)
                 = ((if decide (g' ∈ groups) then as_u32 count else 0) + hits g' rest)%Z)
      by (by rewrite H2, hits_cons).
    destruct (decide (g' = g)) as [->|Hne].
    + rewrite Hold in Hr. injection Hr as <-. exists new_.
      rewrite list_lookup_insert_eq by done. rewrite decide_True in Hr'' by left.
      rewrite decide_False in Hh by done. split; [done|]. split; [unfold is_u32 in Hnew; lia|].
      pose proof (hits_nonneg g rest). rewrite Hh. unfold new_. rewrite sat_sub_sat_sub by lia.
      by rewrite <- Hr''.
    + exists r. rewrite list_lookup_insert_ne by done. split; [done|]. split; [done|].
      rewrite <- Hr'', Hh. do 2 f_equal. apply decide_ext. rewrite elem_of_cons. intuition.
  - apply (Forall_perm_cons _ _ _ _ _ _ H1 H2); [done|]. constructor; cbn.
    + intros g' ?. apply Hg1. by right.
    + done.
    + intros j Hj. apply Hpb, elem_of_app. by right.
    + done.
    + intros Hm. apply plan_direct. by rewrite <- Hdp.
  - rewrite H3. destruct (direct_mode e0) eqn:Hm.
    + apply NoDup_app. split; [|split; [|done]].
      * pose proof (publish_plan_NoDup e (th_spec t) g old_ new_) as Hp. by apply NoDup_app in Hp as [? _].
      * intros j Hj Hj'. apply plan_direct_elem in Hj as (Hpos & _ & Hin); [|by rewrite <- Hdp].
        destruct (Hdir eq_refl j Hj') as (g' & Hg' & Hin' & Hz).
        rewrite <- (in_group_shape e0 e) in Hin' by done. rewrite (in_group_inj e g' g j) in Hz by done.
        rewrite Hold in Hz. injection Hz as Hz. lia.
    + subst p. rewrite plan_claiming by (by rewrite <- Hdp). done.
  - intros Hm j. rewrite H3, Hv. subst p. rewrite plan_claiming by (by rewrite <- Hdp). by apply Hfl.
  - intros Hm j. rewrite H3, elem_of_app, Hv. cbn [ds_remaining]. intros [Hj|Hj].
    + apply plan_direct_elem in Hj as (_ & Hz & Hin); [|by rewrite <- Hdp]. exists g.
      split; [done|]. split; [by rewrite <- (in_group_shape e0 e)|]. fold new_ in Hz. rewrite <- Hz.
      by apply list_lookup_insert_eq.
    + destruct (Hdir Hm j Hj) as (g' & Hg' & Hin' & Hz). exists g'. split; [done|]. split; [done|].
      destruct (decide (g' = g)) as [->|Hne]; [|by rewrite list_lookup_insert_ne].
      rewrite Hold in Hz. injection Hz as Hz. rewrite list_lookup_insert_eq by done.
      unfold new_. rewrite Hz. unfold sat_sub. f_equal. lia.
Qed.

Lemma sys_inv_step gen e0 H s s' :
  is_u32 gen → sys_inv gen e0 H s → sys_step gen s s' → sys_inv gen e0 H s'.
Proof.
  intros Hgen Hinv Hstep. destruct Hstep as [e ts i t e' t' Hi Ht].
  assert (Hok : thread_ok gen e0 t).
  { eapply Forall_lookup_1; [apply (si_threads _ _ _ _ Hinv)|done]. }
  unfold thread_step in Ht. destruct (th_claims t) as [|idx claims] eqn:Hcl.
  - destruct (th_groups t) as [|g groups] eqn:Hgr; [done|].
    destruct (remaining_deps e !! g) as [prev|] eqn:Hprev; [|done]. cbn [mbind option_bind] in Ht.
    rewrite (surjective_pairing (publish_plan _ _ _ _ _)) in Ht. injection Ht as <- <-.
    by apply inv_fetch.
  - destruct Hok as [Hg1 Hg2 Hc1 Hc2 Hd]. rewrite Hcl in Hc1, Hd.
    destruct (th_cas t) as [w|] eqn:Hcas;
      (destruct (instances_sent e !! idx) as [cur|] eqn:Hcur; [|done]; cbn [mbind option_bind] in Ht).
    + destruct (cur =? w)%Z eqn:Hw.
      * apply Z.eqb_eq in Hw as ->. injection Ht as <- <-. by apply (inv_claim _ _ _ _ _ _ _ _ _ w).
      * injection Ht as <- <-. by eapply inv_quiet.
    + destruct (sent_in gen cur) eqn:Hs; injection Ht as <- <-; eapply inv_quiet; try done.
      * constructor; cbn; [done|done| |done|].
        -- intros j ?. apply Hc1. by right.
        -- intros Hm. by specialize (Hd Hm).
      * constructor; cbn; [done|done|done| |done]. by intros ? [= <-].
Qed.

Lemma sys_inv_reach gen e0 H s s' :
  is_u32 gen → sys_inv gen e0 H s → rtc (sys_step gen) s s' → sys_inv gen e0 H s'.
Proof. intros Hgen Hinv Hr. induction Hr; [done|]. eauto using sys_inv_step. Qed.

(** ** What is due *)

Definition no_spec (e : NodeDependencyEntry) (ts : list thread) : Prop :=
  ∀ t, t ∈ ts → has_barrier e = true ∨ th_spec t = None.

Lemma due_inv_same gen e0 s s' :
  (∀ i, i ∈ all_ready s'.2 ++ all_claims s'.2 ↔ i ∈ all_ready s.2 ++ all_claims s.2) →
  ds_remaining (view gen s'.1) = ds_remaining (view gen s.1) →
  due_inv gen e0 s → due_inv gen e0 s'.
Proof.
  intros Hs Hr [H1 H2]. split.
  - intros i Hi. by apply H1, Hs.
  - intros g i r. rewrite Hs, Hr. apply H2.
Qed.

Lemma due_inv_fetch gen e0 e ts g old_ e' ts' t :
  same_shape e0 e →
  (has_barrier e0 = true ∨ th_spec t = None) →
  ds_remaining (view gen e) !! g = Some old_ → (0 <= old_)%Z →
  let count := Z.of_nat (th_count t) in
  let new_ := sat_sub old_ (as_u32 count) in
  let p := publish_plan e (th_spec t) g old_ new_ in
  g < num_groups e0 →
  ds_remaining (view gen e') = <[g := new_]> (ds_remaining (view gen e)) →
  (∀ i, i ∈ all_ready ts' ++ all_claims ts' ↔ i ∈ p.1 ++ p.2 ∨ i ∈ all_ready ts ++ all_claims ts) →
  due_inv gen e0 (e, ts) → due_inv gen e0 (e', ts').
Proof.
  intros Hsh Hs Hold Hpos count new_ p Hg Hrem Hh [H1 H2]. cbn [fst snd] in *.
  pose proof (as_u32_range count) as Hc.
  assert (Hp : publish_plan e0 (th_spec t) g old_ new_ = p) by (symmetry; by apply publish_plan_shape).
  split; cbn [fst snd].
  - intros i. rewrite Hh. intros [Hi|Hi]; [|by apply H1]. exists g. split; [done|].
    rewrite <- Hp in Hi. by apply plan_in_group in Hi.
  - intros g' i r Hg' Hin. rewrite Hrem, Hh. destruct (decide (g' = g)) as [->|Hne].
    + rewrite list_lookup_insert_eq by (by eapply lookup_lt_Some). intros [= <-].
      rewrite (H2 g i old_) by done. rewrite <- Hp.
      rewrite <- (plan_due e0 (th_spec t) g old_ new_ i Hs) by (try done; unfold new_, sat_sub; lia).
      tauto.
    + rewrite list_lookup_insert_ne by done. intros Hr. rewrite <- (H2 g' i r) by done.
      split; [|by right]. intros [Hi|Hi]; [|done]. rewrite <- Hp in Hi.
      apply plan_in_group in Hi; [|done]. by rewrite (in_group_inj e0 g' g i) in Hne.
Qed.

(** Splits the thread list of a goal about [<[i := t']> ts] at thread [i]. *)
Ltac update_thread ts i t l :=
  match goal with
  | |- context [<[i := ?t']> ts] =>
      destruct (sys_update ts i t t' l) as (rest & P1 & P2 & P3);
        [done | cbn [th_ready]; rewrite ?app_nil_r; try done |]
  end.

Lemma due_inv_step gen e0 H s s' :
  is_u32 gen → sys_inv gen e0 H s → no_spec e0 s.2 → sys_step gen s s' →
  due_inv gen e0 s → due_inv gen e0 s'.
Proof.
  intros Hgen Hinv Hns Hstep Hdue. destruct Hstep as [e ts i t e' t' Hi Ht].
  pose proof Hinv as [Hwf Hsh Hrem Hth Hnd Hfl Hdir]. cbn [fst snd] in *.
  assert (Hok : thread_ok gen e0 t) by (by eapply Forall_lookup_1).
  destruct Hok as [Hg1 Hg2 Hc1 Hc2 Hd].
  unfold thread_step in Ht. destruct (th_claims t) as [|idx claims] eqn:Hcl.
  - destruct (th_groups t) as [|g groups] eqn:Hgr; [done|].
    destruct (remaining_deps e !! g) as [prev|] eqn:Hprev; [|done]. cbn [mbind option_bind] in Ht.
    rewrite (surjective_pairing (publish_plan _ _ _ _ _)) in Ht. injection Ht as <- <-.
    assert (Hglt : g < num_groups e0) by (apply Hg1; left).
    pose proof (view_remaining_lookup gen e g prev Hprev) as Hold.
    destruct (Hrem g Hglt) as (r & Hr & Hr0 & _). rewrite Hold in Hr. injection Hr as <-.
    eapply (due_inv_fetch gen e0 e ts g _ _ _ t); try done.
    + apply Hns. by eapply list_elem_of_lookup_2.
    + unfold decrement_word. rewrite view_set_remaining; [done|done|].
      pose proof (as_u32_range (Z.of_nat (th_count t))). apply is_u32_sat_sub; [|lia].
      destruct Hwf. by apply gen_read_u32.
    + intros j. set (p := publish_plan _ _ _ _ _). update_thread ts i t p.1.
      rewrite P3, P2, P1, !all_claims_cons, Hcl. cbn [th_claims]. rewrite !elem_of_app, elem_of_nil. tauto.
  - assert (Hcons : ∀ t'', th_ready t'' = th_ready t → th_claims t'' = idx :: claims →
                     due_inv gen e0 (e, <[i := t'']> ts)).
    { intros t'' Hr'' Hc''. apply (due_inv_same gen e0 (e, ts)); [|done|done]. intros j. cbn [fst snd].
      update_thread ts i t (@nil nat).
      rewrite P3, P2, P1, !all_claims_cons, Hcl, Hc''. by rewrite app_nil_l. }
    destruct (th_cas t) as [w|] eqn:Hcas;
      (destruct (instances_sent e !! idx) as [cur|] eqn:Hcur; [|done]; cbn [mbind option_bind] in Ht).
    + destruct (cur =? w)%Z eqn:Hw; injection Ht as <- <-; [|by apply Hcons].
      apply (due_inv_same gen e0 (e, ts)); [|done|done]. intros j. cbn [fst snd].
      update_thread ts i t [idx].
      rewrite P3, P2, P1, !all_claims_cons, Hcl. cbn [th_claims].
      rewrite !elem_of_app, !elem_of_cons, elem_of_nil. tauto.
    + destruct (sent_in gen cur) eqn:Hs; injection Ht as <- <-; [|by apply Hcons].
      assert (Hidx : idx ∈ all_ready ts).
      { apply Hfl.
        - destruct (direct_mode e0); [by specialize (Hd eq_refl)|done].
        - unfold view. cbn. by rewrite list_lookup_fmap, Hcur, <- Hs. }
      apply (due_inv_same gen e0 (e, ts)); [|done|done]. intros j. cbn [fst snd].
      update_thread ts i t (@nil nat).
      rewrite P3, P2. rewrite P1 in Hidx |- *. rewrite !all_claims_cons, Hcl. cbn [th_claims].
      rewrite !elem_of_app, elem_of_cons, elem_of_nil in *. set_solver.
Qed.

(** ** Executions from a fresh entry *)

(** The arguments of a call. *)
Record call := mkCall { c_group : option nat; c_count : nat; c_spec : option nat }.

Definition start_all (e : NodeDependencyEntry) (calls : list call) : list thread :=
  (λ c, start_call e (c_group c) (c_count c) (c_spec c)) <$> calls.

(** Completions of predecessors that the calls report to group [g]. *)
Definition arrivals (e : NodeDependencyEntry) (calls : list call) (g : nat) : Z :=
  hits g (start_all e calls).

(** No instance is due before the first arrival. *)
Definition armed (e : NodeDependencyEntry) : Prop :=
  (0 < deps_per_group e)%Z
  ∧ (has_barrier e = false → (Z.of_nat ((group_size e - 1) * deps_per_instance e) < deps_per_group e)%Z).

Lemma new_armed factor total_deps hb gs cond :
  let e := NodeDependencyEntry_new factor total_deps hb gs cond in
  0 < total_deps / num_groups e → (Z.of_nat total_deps < two32)%Z → 0 < factor → armed e.
Proof.
  intros e Hpos Hsmall Hf.
  assert (Hdpg : deps_per_group e = Z.of_nat (total_deps / num_groups e)
                 ∧ deps_per_instance e = total_deps / num_groups e / group_size e
                 ∧ 0 < group_size e).
  { assert (∀ n, as_u32 (Z.of_nat (total_deps / n)) = Z.of_nat (total_deps / n)).
    { intros n. apply as_u32_small. split; [lia|].
      destruct n as [|n]; [simpl; lia|]. pose proof (Nat.Div0.div_le_upper_bound total_deps (S n) total_deps). lia. }
    subst e. unfold NodeDependencyEntry_new in *.
    destruct gs as [gs|]; [destruct ((0 <? gs) && (gs <? factor)) eqn:Hgs|]; cbn [deps_per_group deps_per_instance num_groups group_size]; auto.
    apply andb_true_iff in Hgs as [?%Nat.ltb_lt _]. auto. }
  destruct Hdpg as (H1 & H2 & H3). split; [lia|]. intros _. rewrite H1, H2.
  set (d := total_deps / num_groups e) in *.
  pose proof (Nat.Div0.mul_div_le d (group_size e)). nia.
Qed.

Lemma ready_start e calls : all_ready (start_all e calls) = [] ∧ all_claims (start_all e calls) = [].
Proof. induction calls as [|c calls [IH1 IH2]]; [done|]. unfold start_all. rewrite fmap_cons. done. Qed.

Lemma start_inv gen e calls :
  is_u32 gen → entry_wf e → view gen e = fresh e →
  sys_inv gen e (arrivals e calls) (e, start_all e calls).
Proof.
  intros Hgen Hwf Hv. destruct (ready_start e calls) as [Hr Hc].
  constructor; cbn [fst snd]; rewrite ?Hv, ?Hr.
  - done.
  - apply same_shape_refl.
  - intros g Hg. exists (deps_per_group e). unfold fresh. cbn [ds_remaining].
    split; [by apply lookup_replicate_2|]. split; [|done]. by destruct Hwf as [_ _ _ _ [] _ _].
  - apply Forall_fmap, Forall_true. intros c. unfold compose, start_call.
    constructor; cbn; auto; try by intros ? ?%not_elem_of_nil.
    + intros g. destruct (call_groups e (c_group c)) eqn:Hcg; cbn; [|by intros ?%not_elem_of_nil].
      by apply (call_groups_lt e (c_group c)).
    + destruct (call_groups e (c_group c)) eqn:Hcg; cbn; [|constructor].
      by apply (call_groups_NoDup e (c_group c)).
    + done.
  - constructor.
  - intros _ i. unfold fresh. cbn [ds_sent]. split; [by intros ?%not_elem_of_nil|].
    by intros [? _]%lookup_replicate.
  - intros _ i ?%not_elem_of_nil. done.
Qed.

Lemma armed_not_due e g i : armed e → in_group e g i → ¬ due e (deps_per_group e) g i.
Proof.
  intros [Hpos Hlt] [Hi1 Hi2]. unfold due. destruct (has_barrier e); [lia|].
  unfold threshold_for_instance_in_group. unfold group_end in Hi2.
  rewrite (proj2 (Nat.leb_gt _ _)) by lia. specialize (Hlt eq_refl).
  assert ((group_size e - (i - group_start e g) - 1) * deps_per_instance e
          <= (group_size e - 1) * deps_per_instance e) by (apply Nat.mul_le_mono_r; lia). lia.
Qed.

Lemma start_due gen e calls :
  armed e → view gen e = fresh e → due_inv gen e (e, start_all e calls).
Proof.
  intros Ha Hv. destruct (ready_start e calls) as [Hr Hc].
  split; cbn [fst snd]; rewrite Hr, Hc.
  - intros i ?%not_elem_of_nil. done.
  - intros g i r Hg Hin. rewrite Hv. unfold fresh. cbn [ds_remaining].
    intros [-> _]%lookup_replicate. split; [by intros ?%not_elem_of_nil|].
    intros Hdue. by destruct (armed_not_due e g i Ha Hin).
Qed.

(** The threads keep the arguments of their calls. *)
Lemma thread_step_spec gen e t e' t' : thread_step gen e t = Some (e', t') → th_spec t' = th_spec t.
Proof.
  unfold thread_step. intros Ht.
  destruct (th_claims t); [destruct (th_groups t)|destruct (th_cas t)]; try done;
    match type of Ht with (?l !! ?i ≫= _) = _ => destruct (l !! i); [|done] end; cbn in Ht.
  - rewrite (surjective_pairing (publish_plan _ _ _ _ _)) in Ht. by injection Ht as <- <-.
  - destruct (_ =? _)%Z; by injection Ht as <- <-.
  - destruct (sent_in _ _); by injection Ht as <- <-.
Qed.

Lemma no_spec_step gen e0 s s' : sys_step gen s s' → no_spec e0 s.2 → no_spec e0 s'.2.
Proof.
  intros [e ts i t e' t' Hi Ht] Hns u. cbn [snd] in *.
  intros Hu. apply list_elem_of_lookup in Hu as [j Hj].
  destruct (decide (i = j)) as [<-|Hne].
  - rewrite list_lookup_insert_eq in Hj by (by eapply lookup_lt_Some). injection Hj as <-.
    rewrite (thread_step_spec _ _ _ _ _ Ht). apply Hns. by eapply list_elem_of_lookup_2.
  - rewrite list_lookup_insert_ne in Hj by done. apply Hns. by eapply list_elem_of_lookup_2.
Qed.

Lemma due_inv_reach gen e0 H s s' :
  is_u32 gen → sys_inv gen e0 H s → no_spec e0 s.2 → due_inv gen e0 s →
  rtc (sys_step gen) s s' → due_inv gen e0 s'.
Proof.
  intros Hgen Hinv Hns Hdue Hr. induction Hr; [done|].
  apply IHHr; eauto using sys_inv_step, due_inv_step, no_spec_step.
Qed.

Lemma hits_done g ts : Forall (λ t, th_done t = true) ts → hits g ts = 0%Z.
Proof.
  induction 1 as [|t ts Ht _ IH]; [done|]. rewrite hits_cons, IH. unfold th_done in Ht.
  destruct (th_groups t); [|done]. by rewrite decide_False by apply not_elem_of_nil.
Qed.

Lemma claims_done ts : Forall (λ t, th_done t = true) ts → all_claims ts = [].
Proof.
  induction 1 as [|t ts Ht _ IH]; [done|]. rewrite all_claims_cons, IH. unfold th_done in Ht.
  destruct (th_groups t), (th_claims t); done.
Qed.

(** ** No instance is handed out twice *)

(** Whatever calls are running on an entry of the current frame generation, and
    however their atomic operations interleave, no instance of the node appears twice
    in the [ready] vectors: a successor task is queued at most once. This covers the
    lock-free claim of a named instance as well as the barrier paths. *)
Theorem no_double_release gen e calls e' ts'
    (Hgen : is_u32 gen) (Hwf : entry_wf e) (Hfresh : view gen e = fresh e)
    (Hrun : rtc (sys_step gen) (e, start_all e calls) (e', ts')) :
  NoDup (all_ready ts') ∧ ∀ i, i ∈ all_claims ts' → i < factor e.
Proof.
  pose proof (sys_inv_reach _ _ _ _ _ Hgen (start_inv gen e calls Hgen Hwf Hfresh) Hrun) as Hinv.
  split; [apply (si_nodup _ _ _ _ Hinv)|].
  intros i (t & Hi & Ht)%list_elem_of_bind.
  pose proof (si_threads _ _ _ _ Hinv) as Hth. rewrite Forall_forall in Hth. by apply (tok_claims _ _ _ (Hth t Ht)).
Qed.

(** C29. Any interleaving of the atomic steps of concurrent calls that report completions to one
    well-formed entry, fresh in its generation and with no instance due before the first
    completion, where no call names a specific instance, or the entry has a barrier, which
    ignores the name. When every call has returned, the instances handed out are exactly those
    due at the final counters, each of them once: with a barrier, all instances of the groups
    whose arrivals reached [deps_per_group]; without one, the instances whose threshold the
    group's counter went down to. The outcome therefore does not depend on the interleaving. *)
Theorem released_exactly_due gen e calls e' ts'
    (Hgen : is_u32 gen) (Hwf : entry_wf e) (Hfresh : view gen e = fresh e) (Harmed : armed e)
    (Hcalls : ∀ c, c ∈ calls → has_barrier e = true ∨ c_spec c = None)
    (Hrun : rtc (sys_step gen) (e, start_all e calls) (e', ts'))
    (Hdone : Forall (λ t, th_done t = true) ts') :
  NoDup (all_ready ts')
  ∧ (∀ i, i ∈ all_ready ts' ↔
        ∃ g, g < num_groups e ∧ in_group e g i
           ∧ due e (sat_sub (deps_per_group e) (arrivals e calls g)) g i)
  ∧ ∀ g, g < num_groups e →
      ds_remaining (view gen e') !! g = Some (sat_sub (deps_per_group e) (arrivals e calls g)).
Proof.
  pose proof (start_inv gen e calls Hgen Hwf Hfresh) as Hinv0.
  pose proof (sys_inv_reach _ _ _ _ _ Hgen Hinv0 Hrun) as Hinv.
  assert (Hdue : due_inv gen e (e', ts')).
  { eapply due_inv_reach; [done|exact Hinv0| |by apply start_due|done].
    intros t (c & -> & Hc)%list_elem_of_fmap. destruct (Hcalls c Hc); [by left|by right]. }
  destruct Hinv as [_ _ Hrem _ Hnd _ _]. destruct Hdue as [Hd1 Hd2]. cbn [fst snd] in *.
  rewrite claims_done, app_nil_r in Hd1, Hd2 by done.
  assert (Hfin : ∀ g, g < num_groups e →
            ds_remaining (view gen e') !! g = Some (sat_sub (deps_per_group e) (arrivals e calls g))).
  { intros g Hg. destruct (Hrem g Hg) as (r & Hr & Hr0 & Hr1). rewrite Hr, <- Hr1.
    rewrite hits_done by done. unfold sat_sub. f_equal. lia. }
  split; [done|]. split; [|done]. intros i. split.
  - intros Hi. destruct (Hd1 i Hi) as (g & Hg & Hin). exists g. split; [done|]. split; [done|].
    by apply (Hd2 g i _ Hg Hin (Hfin g Hg)).
  - intros (g & Hg & Hin & Hi). by apply (Hd2 g i _ Hg Hin (Hfin g Hg)).
Qed.

(** ** One call alone *)

Lemma solo_app n m gen e t e1 t1 :
  solo n gen e t = Some (e1, t1) → solo (n + m) gen e t = solo m gen e1 t1.
Proof.
  revert e t. induction n as [|n IH]; intros e t; cbn [solo Nat.add].
  - by intros [= <- <-].
  - destruct (thread_step gen e t) as [[e2 t2]|]; [|done]. cbn. apply IH.
Qed.

Lemma step_load gen e count spec groups i claims ready cur :
  instances_sent e !! i = Some cur →
  thread_step gen e (mkThread count spec groups (i :: claims) None ready)
  = Some (e, if sent_in gen cur then mkThread count spec groups claims None ready
             else mkThread count spec groups (i :: claims) (Some cur) ready).
Proof. intros Hi. unfold thread_step. cbn. rewrite Hi. cbn. by destruct (sent_in gen cur). Qed.

Lemma step_exchange gen e count spec groups i claims ready cur :
  instances_sent e !! i = Some cur →
  thread_step gen e (mkThread count spec groups (i :: claims) (Some cur) ready)
  = Some (set_sent (<[i := gen_pack gen 1]> (instances_sent e)) e,
          mkThread count spec groups claims None (ready ++ [i])).
Proof. intros Hi. unfold thread_step. cbn. rewrite Hi. cbn. by rewrite Z.eqb_refl. Qed.

(** The claiming loop: two operations per instance to claim, one per instance found sent. *)
Lemma solo_claims gen claims e count spec groups ready sent' ready' :
  foldM (claim_instance gen) (instances_sent e, ready) claims = Ret (sent', ready') →
  ∃ n, solo n gen e (mkThread count spec groups claims None ready)
       = Some (set_sent sent' e, mkThread count spec groups [] None ready').
Proof.
  revert e ready. induction claims as [|i claims IH]; intros e ready; cbn [foldM].
  - intros [= <- <-]. exists 0. by destruct e.
  - intros Hf. destruct (claim_instance gen (instances_sent e, ready) i) as [[s1 r1]|] eqn:Hc; [|done].
    cbn [run_bind] in Hf. unfold claim_instance in Hc.
    destruct (vec_get (instances_sent e) i) as [cur|] eqn:Hg; [|done]. apply vec_get_Ret in Hg.
    cbn [run_bind] in Hc. destruct (sent_in gen cur) eqn:Hs.
    + injection Hc as <- <-. destruct (IH e ready Hf) as [n Hn]. exists (S n).
      cbn [solo]. by rewrite (step_load _ _ _ _ _ _ _ _ _ Hg), Hs.
    + destruct (vec_set (instances_sent e) i (gen_pack gen 1)) as [s2|] eqn:Hset; [|done].
      apply vec_set_Ret in Hset as [_ ->]. cbn [run_bind] in Hc. injection Hc as <- <-.
      destruct (IH (set_sent (<[i := gen_pack gen 1]> (instances_sent e)) e) (ready ++ [i]) Hf) as [n Hn].
      exists (S (S n)). cbn [solo]. rewrite (step_load _ _ _ _ _ _ _ _ _ Hg), Hs.
      cbn [mbind option_bind fst snd]. rewrite (step_exchange _ _ _ _ _ _ _ _ _ Hg).
      cbn [mbind option_bind fst snd]. by rewrite Hn.
Qed.

Lemma solo_groups gen count spec groups e ready e' ready' :
  foldM (decrease_group gen (Z.of_nat count) spec) (e, ready) groups = Ret (e', ready') →
  ∃ n, solo n gen e (mkThread count spec groups [] None ready)
       = Some (e', mkThread count spec [] [] None ready').
Proof.
  revert e ready. induction groups as [|g groups IH]; intros e ready; cbn [foldM].
  - intros [= <- <-]. by exists 0.
  - intros Hf. destruct (decrease_group gen (Z.of_nat count) spec (e, ready) g) as [[e1 r1]|] eqn:Hd; [|done].
    cbn [run_bind] in Hf. unfold decrease_group in Hd.
    destruct (vec_get (remaining_deps e) g) as [prev|] eqn:Hg; [|done]. apply vec_get_Ret in Hg.
    cbn [run_bind] in Hd.
    destruct (vec_set (remaining_deps e) g (decrement_word e gen (Z.of_nat count) prev)) as [rem'|] eqn:Hset;
      [|done]. apply vec_set_Ret in Hset as [_ ->]. cbn [run_bind] in Hd.
    destruct (publish_plan e spec g _ _) as [direct claims] eqn:Hp.
    destruct (foldM (claim_instance gen) _ claims) as [[s2 r2]|] eqn:Hcl; [|done].
    cbn [run_bind] in Hd. injection Hd as <- <-.
    set (e1 := set_remaining (<[g:=decrement_word e gen (Z.of_nat count) prev]> (remaining_deps e)) e) in *.
    destruct (solo_claims gen claims e1 count spec groups (ready ++ direct) s2 r2 Hcl) as [n1 Hn1].
    destruct (IH _ _ Hf) as [n2 Hn2]. exists (S (n1 + n2)).
    cbn [solo]. unfold thread_step at 1. cbn -[solo decrement_word gen_read sat_sub publish_plan].
    rewrite Hg. cbn -[solo decrement_word gen_read sat_sub publish_plan]. rewrite Hp.
    cbn -[solo decrement_word]. by rewrite (solo_app _ _ _ _ _ _ _ Hn1).
Qed.

(** A call that nobody interferes with returns after finitely many atomic
    operations, with the entry and the [ready] vector that
    [decrease_and_get_ready_into] computes: the step relation and the function are the
    same code. *)
Theorem solo_run_is_decrease gen e group count spec (Hgen : is_u32 gen) (Hwf : entry_wf e) :
  ∃ n e' t', solo n gen e (start_call e group count spec) = Some (e', t')
    ∧ th_done t' = true
    ∧ decrease_and_get_ready_into e gen group count spec = Ret (e', th_ready t').
Proof.
  destruct (decrease_refines gen e group count spec Hgen Hwf) as (e' & ready & Hd & _).
  rewrite Hd. unfold decrease_and_get_ready_into in Hd. unfold start_call.
  destruct (call_groups e group) as [groups|]; cbn [default].
  - destruct (solo_groups _ _ _ _ _ _ _ _ Hd) as [n Hn].
    by exists n, e', (mkThread count spec [] [] None ready).
  - injection Hd as <- <-. by exists 0, e, (mkThread count spec [] [] None []).
Qed.

(** ** Witnesses *)

(** Two groups of two instances, two arrivals each; two threads race. *)
Definition demo_entry : NodeDependencyEntry := NodeDependencyEntry_new 4 4 true (Some 2) false.
Definition demo_calls : list call := [mkCall (Some 0) 1 None; mkCall None 1 None].

Lemma demo_run : rtc (sys_step 3) (demo_entry, start_all demo_entry demo_calls)
  (mkEntry [gen_pack 3 0; gen_pack 3 1] (replicate 4 (gen_pack 0 0)) 4 2 2 2 1 true false,
   [mkThread 1 None [] [] None []; mkThread 1 None [] [] None [0; 1]]).
Proof.
  eapply rtc_l; [eapply (sys_step_at 3 _ _ 0); reflexivity|].
  eapply rtc_l; [eapply (sys_step_at 3 _ _ 1); reflexivity|].
  eapply rtc_l; [eapply (sys_step_at 3 _ _ 1); reflexivity|].
  apply rtc_refl.
Qed.

Lemma demo_view : view 3 demo_entry = fresh demo_entry.
Proof. reflexivity. Qed.

Lemma demo_gen : is_u32 3.
Proof. unfold is_u32, two32. lia. Qed.

Lemma demo_wf : entry_wf demo_entry.
Proof. apply new_wf. Qed.

Lemma no_double_release_witness :
  NoDup [0; 1] ∧ ∀ i, i ∈ @nil nat → i < 4.
Proof.
  apply (no_double_release 3 demo_entry demo_calls _ _ demo_gen demo_wf demo_view demo_run).
Defined.

Lemma released_exactly_due_witness :
  ∃ e' ts', NoDup (all_ready ts')
  ∧ (∀ i, i ∈ all_ready ts' ↔
        ∃ g, g < num_groups demo_entry ∧ in_group demo_entry g i
           ∧ due demo_entry (sat_sub (deps_per_group demo_entry) (arrivals demo_entry demo_calls g)) g i)
  ∧ ∀ g, g < num_groups demo_entry →
      ds_remaining (view 3 e') !! g
      = Some (sat_sub (deps_per_group demo_entry) (arrivals demo_entry demo_calls g)).
Proof.
  eexists _, _. apply (released_exactly_due 3 demo_entry demo_calls).
  - apply demo_gen.
  - apply demo_wf.
  - apply demo_view.
  - split; [reflexivity|]. intros [=].
  - intros c Hc. by left.
  - apply demo_run.
  - repeat constructor.
Defined.

Lemma solo_run_is_decrease_witness :
  ∃ n e' t', solo n 3 demo_entry (start_call demo_entry (Some 1) 2 None) = Some (e', t')
    ∧ th_done t' = true
    ∧ decrease_and_get_ready_into demo_entry 3 (Some 1) 2 None = Ret (e', th_ready t').
Proof. apply (solo_run_is_decrease 3 demo_entry (Some 1) 2 None demo_gen demo_wf). Defined.
