(* ===== verification/Types.v ===== *)
(** The value type of [tomii-types]: the tagged union [CmTypes], its equality, and the
    conversions the runtime uses on it. *)
From S2P Require Import Prelude.
From stdpp Require Import strings.

(** [CmTypes]. An [f32]/[f64] is its bit pattern; a [char] its code point. The
    variants that hold an arbitrary Rust object behind an [Arc] ([Any], [AnySliced],
    [VecAny], [AnyHeld]) are represented by the identity of that allocation: no
    operation of this file looks inside; those that do are in [Held]. *)
Inductive CmTypes : Type :=
  | CmBool (b : bool)
  | CmI8 (z : Z) | CmI16 (z : Z) | CmI32 (z : Z) | CmI64 (z : Z)
  | CmU8 (z : Z) | CmU16 (z : Z) | CmU32 (z : Z) | CmU64 (z : Z)
  | CmF32 (bits : Z) | CmF64 (bits : Z)
  | CmChar (c : Z)
  | CmUsize (n : nat)
  | CmIsize (z : Z)
  | CmI128 (z : Z) | CmU128 (z : Z)
  | CmString (s : string)
  | CmComplex32 (re im : Z)
  | CmComplex64 (re im : Z)
  | CmVecCmt (l : list CmTypes)
  | CmRef (n : nat)
  | CmRes (n : nat)
  | CmDep (n : nat)
  | CmBarrier (s : string)
  | CmNone
  | CmInit
  | CmAny (addr : nat)
  | CmAnySliced (addr : nat)
  | CmVecAny (addr : nat)
  | CmBytes (l : list Z)
  | CmAnyHeld (addr : nat).

(** IEEE comparison of two bit patterns with [mant] mantissa bits and [expo] exponent
    bits: a NaN equals nothing, and the two zeros are equal. *)
Definition float_nan (expo mant bits : Z) : bool :=
  (Z.land (Z.shiftr bits mant) (Z.ones expo) =? Z.ones expo)%Z
  && negb (Z.land bits (Z.ones mant) =? 0)%Z.
Definition float_zero (expo mant bits : Z) : bool := (Z.land bits (Z.ones (expo + mant)) =? 0)%Z.
Definition float_eqb (expo mant a b : Z) : bool :=
  negb (float_nan expo mant a) && negb (float_nan expo mant b)
  && ((a =? b)%Z || (float_zero expo mant a && float_zero expo mant b)).
Definition f32_eqb : Z → Z → bool := float_eqb 8 23.
Definition f64_eqb : Z → Z → bool := float_eqb 11 52.

Fixpoint list_eqb {A} (eqb : A → A → bool) (l1 l2 : list A) : bool :=
  match l1, l2 with
  | [], [] => true
  | x :: l1, y :: l2 => eqb x y && list_eqb eqb l1 l2
  | _, _ => false
  end.

(** [PartialEq for CmTypes]: variants that do not match, and the opaque ones, differ. *)
Fixpoint CmTypes_eqb (a b : CmTypes) {struct a} : bool :=
  match a, b with
  | CmBool a, CmBool b => Bool.eqb a b
  | CmI8 a, CmI8 b | CmI16 a, CmI16 b | CmI32 a, CmI32 b | CmI64 a, CmI64 b => (a =? b)%Z
  | CmI128 a, CmI128 b => (a =? b)%Z
  | CmU8 a, CmU8 b | CmU16 a, CmU16 b | CmU32 a, CmU32 b | CmU64 a, CmU64 b => (a =? b)%Z
  | CmU128 a, CmU128 b => (a =? b)%Z
  | CmF32 a, CmF32 b => f32_eqb a b
  | CmF64 a, CmF64 b => f64_eqb a b
  | CmChar a, CmChar b => (a =? b)%Z
  | CmUsize a, CmUsize b => a =? b
  | CmIsize a, CmIsize b => (a =? b)%Z
  | CmString a, CmString b => String.eqb a b
  | CmVecCmt a, CmVecCmt b =>
      (fix go (l1 l2 : list CmTypes) {struct l1} : bool :=
         match l1, l2 with
         | [], [] => true
         | x :: l1, y :: l2 => CmTypes_eqb x y && go l1 l2
         | _, _ => false
         end) a b
  | CmRef a, CmRef b | CmRes a, CmRes b | CmDep a, CmDep b => a =? b
  | CmBarrier a, CmBarrier b => String.eqb a b
  | CmComplex32 r i, CmComplex32 r' i' => f32_eqb r r' && f32_eqb i i'
  | CmComplex64 r i, CmComplex64 r' i' => f64_eqb r r' && f64_eqb i i'
  | CmNone, CmNone | CmInit, CmInit => true
  | CmBytes a, CmBytes b => list_eqb Z.eqb a b
  | _, _ => false
  end.

Definition new_barrier (s : string) : CmTypes := CmBarrier s.
Definition new_string (s : string) : CmTypes := CmString s.

Definition as_string (t : CmTypes) : option string :=
  match t with CmString s => Some s | _ => None end.

Definition as_str (t : CmTypes) : option string :=
  match t with CmString s | CmBarrier s => Some s | _ => None end.

Definition as_i128 (t : CmTypes) : option Z := match t with CmI128 v => Some v | _ => None end.
Definition as_u128 (t : CmTypes) : option Z := match t with CmU128 v => Some v | _ => None end.
Definition as_vec (t : CmTypes) : option (list CmTypes) :=
  match t with CmVecCmt v => Some v | _ => None end.
Definition as_complex32 (t : CmTypes) : option (Z * Z) :=
  match t with CmComplex32 re im => Some (re, im) | _ => None end.
Definition as_complex64 (t : CmTypes) : option (Z * Z) :=
  match t with CmComplex64 re im => Some (re, im) | _ => None end.

(** [x as usize] on a 64-bit target. *)
Definition as_usize (z : Z) : nat := Z.to_nat (as_u64 z).

(** [valid_number_to_usize]: [U128] and non-negative [I128] values are cut to 64 bits. *)
Definition valid_number_to_usize (t : CmTypes) : option nat :=
  match t with
  | CmUsize x => Some x
  | CmU8 x | CmU16 x | CmU32 x | CmU64 x | CmU128 x => Some (as_usize x)
  | CmI8 x | CmI16 x | CmI32 x | CmI64 x | CmI128 x =>
      if (0 <=? x)%Z then Some (as_usize x) else None
  | _ => None
  end.

Definition is_result (t : CmTypes) : bool := match t with CmRes _ => true | _ => false end.
Definition is_dep (t : CmTypes) : bool := match t with CmDep _ => true | _ => false end.
Definition is_reference (t : CmTypes) : bool := match t with CmRef _ => true | _ => false end.
Definition ty_is_barrier (t : CmTypes) : bool := match t with CmBarrier _ => true | _ => false end.

(** A plugin function, and a bulk kernel over an instance range. *)
Definition CmPtr : Type := list CmTypes → CmTypes.
Definition CmBulkPtr : Type := nat → nat → list CmTypes → CmTypes.

(** [CmTypes::default_pointer]. *)
Definition default_pointer : CmPtr := λ _, CmNone.

(** The widths of the integer variants. *)
Fixpoint cm_wf (t : CmTypes) : Prop :=
  match t with
  | CmI8 z => (- 2 ^ 7 ≤ z < 2 ^ 7)%Z
  | CmI16 z => (- 2 ^ 15 ≤ z < 2 ^ 15)%Z
  | CmI32 z => (- 2 ^ 31 ≤ z < 2 ^ 31)%Z
  | CmI64 z | CmIsize z => (- 2 ^ 63 ≤ z < 2 ^ 63)%Z
  | CmU8 z => (0 ≤ z < 2 ^ 8)%Z
  | CmU16 z => (0 ≤ z < 2 ^ 16)%Z
  | CmU32 z | CmF32 z => (0 ≤ z < 2 ^ 32)%Z
  | CmU64 z | CmF64 z => (0 ≤ z < 2 ^ 64)%Z
  | CmI128 z => (- 2 ^ 127 ≤ z < 2 ^ 127)%Z
  | CmU128 z => (0 ≤ z < 2 ^ 128)%Z
  | CmUsize n => (Z.of_nat n < 2 ^ 64)%Z
  | CmVecCmt l => (fix go l := match l with [] => True | x :: l => cm_wf x ∧ go l end) l
  | _ => True
  end.

(** The integer a value stands for. *)
Definition cm_number (t : CmTypes) : option Z :=
  match t with
  | CmUsize x => Some (Z.of_nat x)
  | CmU8 x | CmU16 x | CmU32 x | CmU64 x | CmU128 x
  | CmI8 x | CmI16 x | CmI32 x | CmI64 x | CmI128 x => Some x
  | _ => None
  end.

(** ** Induction through [VecCmt] *)

Section cm_ind.
Context (P : CmTypes → Prop).
Hypothesis Hvec : ∀ l, Forall P l → P (CmVecCmt l).
Hypothesis Hleaf : ∀ t, (∀ l, t ≠ CmVecCmt l) → P t.

Fixpoint CmTypes_induction (t : CmTypes) : P t.
Proof.
  destruct t; try (apply Hleaf; intros ?; discriminate).
  apply Hvec. induction l as [|x l IH]; constructor; [apply CmTypes_induction|apply IH].
Defined.
End cm_ind.

Lemma CmTypes_eqb_vec l1 l2 : CmTypes_eqb (CmVecCmt l1) (CmVecCmt l2) = list_eqb CmTypes_eqb l1 l2.
Proof. revert l2. induction l1 as [|x l1 IH]; intros [|y l2]; simpl; try done. f_equal. apply IH. Qed.

Lemma float_eqb_sym e m a b : float_eqb e m a b = float_eqb e m b a.
Proof.
  unfold float_eqb. rewrite (Z.eqb_sym a b), (andb_comm (float_zero e m a)).
  by rewrite (andb_comm (negb (float_nan e m a))).
Qed.

Lemma float_eqb_trans e m a b c :
  float_eqb e m a b = true → float_eqb e m b c = true → float_eqb e m a c = true.
Proof.
  unfold float_eqb. rewrite !andb_true_iff, !orb_true_iff, !andb_true_iff, !Z.eqb_eq.
  intros [[Ha Hb] [-> | [Hza Hzb]]] [[_ Hc] [-> | [Hzb' Hzc]]]; intuition.
Qed.

Lemma list_eqb_sym {A} (eqb : A → A → bool) l1 :
  Forall (λ x, ∀ y, eqb x y = eqb y x) l1 → ∀ l2, list_eqb eqb l1 l2 = list_eqb eqb l2 l1.
Proof. induction 1 as [|x l1 Hx _ IH]; intros [|y l2]; simpl; try done. by rewrite Hx, IH. Qed.

Lemma list_eqb_trans {A} (eqb : A → A → bool) l1 :
  Forall (λ x, ∀ y z, eqb x y = true → eqb y z = true → eqb x z = true) l1 →
  ∀ l2 l3, list_eqb eqb l1 l2 = true → list_eqb eqb l2 l3 = true → list_eqb eqb l1 l3 = true.
Proof.
  induction 1 as [|x l1 Hx _ IH]; intros [|y l2] [|z l3]; simpl; try done.
  rewrite !andb_true_iff. intros [? ?] [? ?]. eauto.
Qed.

Lemma bool_eqb_sym a b : Bool.eqb a b = Bool.eqb b a.
Proof. by destruct a, b. Qed.

Lemma CmTypes_eqb_sym a : ∀ b, CmTypes_eqb a b = CmTypes_eqb b a.
Proof.
  induction a as [l IH|t Hne] using CmTypes_induction; intros b.
  - destruct b; try done. rewrite !CmTypes_eqb_vec. by apply list_eqb_sym.
  - destruct t; destruct b; try reflexivity; cbn [CmTypes_eqb];
      try first [ apply Z.eqb_sym | apply Nat.eqb_sym | apply String.eqb_sym | apply float_eqb_sym
                | apply bool_eqb_sym ].
    + unfold f32_eqb, f64_eqb. by rewrite (float_eqb_sym _ _ re), (float_eqb_sym _ _ im).
    + unfold f32_eqb, f64_eqb. by rewrite (float_eqb_sym _ _ re), (float_eqb_sym _ _ im).
    + by destruct (Hne l).
    + apply list_eqb_sym, Forall_forall. intros. apply Z.eqb_sym.
Qed.

Lemma CmTypes_eqb_trans a : ∀ b c,
  CmTypes_eqb a b = true → CmTypes_eqb b c = true → CmTypes_eqb a c = true.
Proof.
  induction a as [l IH|t Hne] using CmTypes_induction; intros b c.
  - intros H1 H2. destruct b; try discriminate H1. destruct c; try discriminate H2.
    rewrite !CmTypes_eqb_vec in *. by eapply list_eqb_trans.
  - intros H1 H2. destruct t; destruct b; try discriminate H1; destruct c; try discriminate H2;
      cbn [CmTypes_eqb] in *; try reflexivity;
      rewrite ?Z.eqb_eq, ?Nat.eqb_eq, ?String.eqb_eq, ?Bool.eqb_true_iff in *; try congruence;
      try (by eapply float_eqb_trans).
    + apply andb_true_iff in H1 as [? ?], H2 as [? ?].
      apply andb_true_iff. split; by eapply float_eqb_trans.
    + apply andb_true_iff in H1 as [? ?], H2 as [? ?].
      apply andb_true_iff. split; by eapply float_eqb_trans.
    + by destruct (Hne l).
    + revert H1 H2. apply list_eqb_trans, Forall_forall. intros x _ y z. rewrite !Z.eqb_eq. congruence.
Qed.

(** Equality of values is symmetric and transitive, but not reflexive: a value
    differs from itself exactly when it is or contains a NaN or an opaque object
    ([Any], [AnySliced], [VecAny], [AnyHeld]), so a condition [Eq] on such a result
    never holds. *)
Theorem CmTypes_eqb_per :
  (∀ a b, CmTypes_eqb a b = CmTypes_eqb b a)
  ∧ (∀ a b c, CmTypes_eqb a b = true → CmTypes_eqb b c = true → CmTypes_eqb a c = true)
  ∧ (∀ n, CmTypes_eqb (CmAny n) (CmAny n) = false)
  ∧ CmTypes_eqb (CmF64 (Z.shiftl 2047 52 + 1)) (CmF64 (Z.shiftl 2047 52 + 1)) = false
  ∧ CmTypes_eqb (CmF32 0) (CmF32 (Z.shiftl 1 31)) = true.
Proof.
  split; [apply CmTypes_eqb_sym|]. split; [apply CmTypes_eqb_trans|].
  split; [done|]. by split.
Qed.

(** Converting a number to [usize] returns the number itself when it is
    non-negative and below 2^64, and never returns a value for a negative number. *)
Theorem valid_number_to_usize_spec t (Hwf : cm_wf t) :
  (∀ n, valid_number_to_usize t = Some n →
     ∃ z, cm_number t = Some z ∧ (0 ≤ z)%Z ∧ Z.of_nat n = (z mod two64)%Z)
  ∧ (∀ z, cm_number t = Some z → (0 ≤ z < two64)%Z → valid_number_to_usize t = Some (Z.to_nat z)).
Proof.
  assert (Hof : ∀ z, Z.of_nat (as_usize z) = (z mod two64)%Z).
  { intros z. unfold as_usize. rewrite Z2Nat.id; [done|]. apply as_u64_range. }
  assert (Hto : ∀ z, (0 ≤ z < two64)%Z → as_usize z = Z.to_nat z).
  { intros z Hz. unfold as_usize. by rewrite as_u64_small. }
  split.
  - intros n. unfold valid_number_to_usize.
    destruct t; cbn [cm_number cm_wf] in *; try discriminate;
      try (destruct (0 <=? z)%Z eqn:Hz; [apply Z.leb_le in Hz|discriminate]);
      intros [= <-]; eexists; (split; [done|]); split; try lia; auto.
    symmetry. apply Z.mod_small. change two64 with (2 ^ 64)%Z. lia.
  - intros z. unfold valid_number_to_usize.
    destruct t; cbn [cm_number]; try discriminate; intros [= <-] Hz;
      rewrite ?(proj2 (Z.leb_le _ _)) by lia; rewrite ?Hto by done; try done.
    f_equal. lia.
Qed.

Lemma valid_number_to_usize_spec_witness :
  (∀ n, valid_number_to_usize (CmI32 7) = Some n →
     ∃ z, cm_number (CmI32 7) = Some z ∧ (0 ≤ z)%Z ∧ Z.of_nat n = (z mod two64)%Z)
  ∧ (∀ z, cm_number (CmI32 7) = Some z → (0 ≤ z < two64)%Z →
       valid_number_to_usize (CmI32 7) = Some (Z.to_nat z)).
Proof. apply (valid_number_to_usize_spec (CmI32 7)). simpl. lia. Defined.
