(* ===== verification/WorkerRange.v ===== *)
(** Worker ranges and the [use_workers] specification ([worker_range.rs]): parsing,
    printing, membership. Worker indices are [usize] values kept as [Z], since the
    parser accepts any 64-bit number; strings are byte strings, and [trim] removes the
    ASCII white space. *)
From S2P Require Import Prelude.
From stdpp Require Import strings pretty.
From Stdlib Require Import Ascii String.
Open Scope string_scope.
Open Scope list_scope.
Open Scope nat_scope.

(** ** Strings *)

Definition is_space (c : ascii) : bool :=
  let n := Ascii.nat_of_ascii c in (n =? 32) || ((9 <=? n) && (n <=? 13)).

Fixpoint trim_start (s : string) : string :=
  match s with
  | String c s' => if is_space c then trim_start s' else s
  | EmptyString => s
  end.

Fixpoint trim_end (s : string) : string :=
  match s with
  | EmptyString => EmptyString
  | String c s' =>
      match trim_end s' with
      | EmptyString => if is_space c then EmptyString else String c EmptyString
      | s'' => String c s''
      end
  end.

Definition trim (s : string) : string := trim_end (trim_start s).

(** [s.split(c)]: never empty. *)
Fixpoint split (c : ascii) (s : string) : list string :=
  match s with
  | EmptyString => [EmptyString]
  | String d s' =>
      if Ascii.eqb c d then EmptyString :: split c s'
      else match split c s' with
           | p :: ps => String d p :: ps
           | [] => [String d EmptyString]
           end
  end.

Fixpoint contains_char (c : ascii) (s : string) : bool :=
  match s with EmptyString => false | String d s' => Ascii.eqb c d || contains_char c s' end.

Definition digit (c : ascii) : option Z :=
  let n := Ascii.nat_of_ascii c in
  if (48 <=? n) && (n <=? 57) then Some (Z.of_nat (n - 48)) else None.

(** The digits of a [usize], from the value [acc] read so far; overflow is an error. *)
Fixpoint parse_digits (acc : Z) (s : string) : option Z :=
  match s with
  | EmptyString => Some acc
  | String c s' =>
      match digit c with
      | None => None
      | Some d =>
          let v := (acc * 10 + d)%Z in
          if (v <=? u64_max)%Z then parse_digits v s' else None
      end
  end.

(** [str::parse::<usize>]: an optional [+], then at least one digit. *)
Definition parse_usize (s : string) : option Z :=
  match s with
  | EmptyString => None
  | String "+" EmptyString => None
  | String "+" s' => parse_digits 0 s'
  | _ => parse_digits 0 s
  end.

(** ** Worker ranges *)

(** [start] inclusive, [end] exclusive. *)
Record WorkerRange := mkWorkerRange { wr_start : Z; wr_end : Z }.

Inductive range_error := InvalidRangeFormat | InvalidStartValue | InvalidEndValue | StartAboveEnd
  | ZeroCount | InvalidUseWorkers.

(** [WorkerRange::parse]; the [+ 1] that makes the end exclusive wraps. *)
Definition WorkerRange_parse (s : string) : result WorkerRange range_error :=
  match split "-" s with
  | [p0; p1] =>
      match parse_usize (trim p0) with
      | None => RErr InvalidStartValue
      | Some start =>
          match parse_usize (trim p1) with
          | None => RErr InvalidEndValue
          | Some end_inclusive =>
              if (end_inclusive <? start)%Z then RErr StartAboveEnd
              else ROk (mkWorkerRange start (as_u64 (end_inclusive + 1)))
          end
      end
  | _ => RErr InvalidRangeFormat
  end.

Definition wr_contains (r : WorkerRange) (worker_idx : Z) : bool :=
  (wr_start r <=? worker_idx)%Z && (worker_idx <? wr_end r)%Z.
Definition wr_len (r : WorkerRange) : Z := sat_sub (wr_end r) (wr_start r).
Definition wr_is_empty (r : WorkerRange) : bool := (wr_end r <=? wr_start r)%Z.

(** [Display for WorkerRange]. *)
Definition wr_display (r : WorkerRange) : string :=
  if wr_is_empty r then "[empty]"
  else (pretty (Z.to_N (wr_start r)) +:+ "-" +:+ pretty (Z.to_N (wr_end r - 1)))%string.

Inductive WorkerRangeSpec :=
  | WCount (n : Z)
  | WRange (r : WorkerRange).

Definition map_range (x : result WorkerRange range_error) : result WorkerRangeSpec range_error :=
  match x with ROk r => ROk (WRange r) | RErr e => RErr e end.

(** "This is a range": two parts, the first not empty. *)
Definition looks_like_range (s : string) : bool :=
  contains_char "-" s
  && match split "-" s with [EmptyString; _] => false | [_; _] => true | _ => false end.

(** [WorkerRangeSpec::parse]. *)
Definition WorkerRangeSpec_parse (s0 : string) : result WorkerRangeSpec range_error :=
  let s := trim s0 in
  if looks_like_range s then map_range (WorkerRange_parse s)
  else
    match parse_usize s with
    | Some count => if (count =? 0)%Z then RErr ZeroCount else ROk (WCount count)
    | None =>
        if contains_char "-" s then map_range (WorkerRange_parse s) else RErr InvalidUseWorkers
    end.

Definition to_range (spec : WorkerRangeSpec) (start_idx : Z) : WorkerRange :=
  match spec with
  | WCount count => mkWorkerRange start_idx (as_u64 (start_idx + count))
  | WRange r => r
  end.

Definition spec_count (spec : WorkerRangeSpec) : Z :=
  match spec with WCount n => n | WRange r => wr_len r end.

Definition is_count_based (spec : WorkerRangeSpec) : bool :=
  match spec with WCount _ => true | WRange _ => false end.

Definition spec_display (spec : WorkerRangeSpec) : string :=
  match spec with
  | WCount n => (pretty (Z.to_N n) +:+ " workers")%string
  | WRange r => ("workers " +:+ wr_display r)%string
  end.

(** ** Printing and parsing numbers *)

(** Characters that printed numbers consist of. *)
Definition is_digit_char (c : ascii) : bool := match digit c with Some _ => true | None => false end.

Fixpoint all_digits (s : string) : bool :=
  match s with EmptyString => true | String c s' => is_digit_char c && all_digits s' end.

Lemma digit_pretty_char d : (d < 10)%N → digit (pretty_N_char d) = Some (Z.of_N d).
Proof.
  intros Hd. assert (H : d ∈ [0; 1; 2; 3; 4; 5; 6; 7; 8; 9]%N).
  { rewrite !elem_of_cons. lia. }
  rewrite !elem_of_cons in H. destruct_or!; subst; try done. by apply not_elem_of_nil in H.
Qed.

Lemma pretty_go_ind (P : N → Prop) :
  P 0%N → (∀ x, (0 < x)%N → P (x `div` 10)%N → P x) → ∀ x, P x.
Proof.
  intros H0 Hs x. induction (N.lt_wf_0 x) as [x _ IH].
  destruct (decide (x = 0%N)) as [->|Hx]; [done|]. apply Hs; [lia|]. apply IH, N.div_lt; lia.
Qed.

Lemma parse_pretty_go x s : (Z.of_N x ≤ u64_max)%Z →
  parse_digits 0 (pretty_N_go x s) = parse_digits (Z.of_N x) s.
Proof.
  revert s. induction x as [|x Hx IH] using pretty_go_ind; intros s Hle.
  - by rewrite pretty_N_go_0.
  - rewrite pretty_N_go_step by done.
    pose proof (N.div_mod x 10 ltac:(lia)) as Hdm. pose proof (N.mod_lt x 10 ltac:(lia)) as Hm.
    set (q := (x `div` 10)%N) in *. set (r := (x `mod` 10)%N) in *. clearbody q r.
    rewrite IH by lia. cbn [parse_digits]. rewrite digit_pretty_char by lia.
    replace (Z.of_N q * 10 + Z.of_N r)%Z with (Z.of_N x) by lia.
    by rewrite (proj2 (Z.leb_le _ _)).
Qed.

Lemma all_digits_go x s : all_digits s = true → all_digits (pretty_N_go x s) = true.
Proof.
  revert s. induction x as [|x Hx IH] using pretty_go_ind; intros s Hs.
  - by rewrite pretty_N_go_0.
  - rewrite pretty_N_go_step by done. apply IH. cbn [all_digits]. unfold is_digit_char.
    rewrite digit_pretty_char by (apply N.mod_lt; lia). done.
Qed.

Lemma pretty_digits (n : N) : all_digits (pretty n) = true.
Proof. unfold pretty, pretty_N. case_decide; [done|]. by apply all_digits_go. Qed.

Lemma pretty_nonempty (n : N) : pretty n ≠ ""%string.
Proof.
  unfold pretty, pretty_N. case_decide as Hn; [done|].
  assert (H : ∀ x s, s ≠ ""%string → pretty_N_go x s ≠ ""%string).
  { intros x. induction x as [|x Hx IH] using pretty_go_ind; intros s Hs.
    - by rewrite pretty_N_go_0.
    - rewrite pretty_N_go_step by done. by apply IH. }
  rewrite pretty_N_go_step by lia. by apply H.
Qed.

Lemma parse_digits_pretty (n : N) : (Z.of_N n ≤ u64_max)%Z → parse_digits 0 (pretty n) = Some (Z.of_N n).
Proof.
  intros Hle. unfold pretty, pretty_N. case_decide as Hn; [by subst|]. by rewrite parse_pretty_go.
Qed.

Lemma parse_usize_digits s : s ≠ ""%string → all_digits s = true → parse_usize s = parse_digits 0 s.
Proof.
  destruct s as [|c s]; [done|]. intros _ Hd. unfold parse_usize.
  destruct c as [[] [] [] [] [] [] [] []]; done.
Qed.

Lemma digit_char_facts c : is_digit_char c = true → is_space c = false ∧ Ascii.eqb "-" c = false.
Proof. destruct c as [[] [] [] [] [] [] [] []]; vm_compute; (done || (intros [=])). Qed.

Lemma trim_digits s : all_digits s = true → trim s = s.
Proof.
  intros Hs. assert (He : trim_end s = s).
  { induction s as [|c s IH]; [done|]. cbn [all_digits] in Hs.
    apply andb_true_iff in Hs as [Hc Hs]. cbn [trim_end]. rewrite IH by done.
    destruct (digit_char_facts c Hc) as [-> _]. by destruct s. }
  unfold trim. destruct s as [|c s]; [done|]. cbn [trim_start]. cbn [all_digits] in Hs.
  apply andb_true_iff in Hs as [Hc Hs]. by destruct (digit_char_facts c Hc) as [-> _].
Qed.

Lemma split_digits s : all_digits s = true → split "-" s = [s].
Proof.
  induction s as [|c s IH]; [done|]. cbn [all_digits]. intros [Hc Hs]%andb_true_iff.
  cbn [split]. destruct (digit_char_facts c Hc) as [_ ->]. by rewrite IH.
Qed.

Lemma split_digits_app s t : all_digits s = true →
  split "-" (s +:+ String "-" t)%string = s :: split "-" t.
Proof.
  induction s as [|c s IH].
  - intros _. done.
  - cbn [all_digits]. intros [Hc Hs]%andb_true_iff.
    change (String c s +:+ String "-" t)%string with (String c (s +:+ String "-" t)%string).
    cbn [split]. destruct (digit_char_facts c Hc) as [_ ->]. by rewrite IH.
Qed.

Lemma parse_usize_pretty n : (Z.of_N n ≤ u64_max)%Z → parse_usize (trim (pretty n)) = Some (Z.of_N n).
Proof.
  intros Hn. pose proof (pretty_digits n) as Hd. rewrite trim_digits by done.
  rewrite parse_usize_digits by (auto using pretty_nonempty). by apply parse_digits_pretty.
Qed.

(** ** Theorems *)

(** Printing a non-empty worker range and parsing the text gives the range back. *)
Theorem worker_range_roundtrip r
    (Hstart : (0 ≤ wr_start r < wr_end r)%Z) (Hend : (wr_end r ≤ u64_max)%Z) :
  WorkerRange_parse (wr_display r) = ROk r.
Proof.
  destruct r as [a b]. cbn [wr_start wr_end] in *. unfold WorkerRange_parse, wr_display, wr_is_empty.
  cbn [wr_start wr_end]. rewrite (proj2 (Z.leb_gt _ _)) by lia.
  change ("-" +:+ pretty (Z.to_N (b - 1)))%string with (String "-" (pretty (Z.to_N (b - 1)))).
  rewrite split_digits_app, split_digits by apply pretty_digits.
  unfold u64_max in Hend. rewrite !parse_usize_pretty by (rewrite Z2N.id; unfold u64_max; lia).
  rewrite !Z2N.id by lia. rewrite (proj2 (Z.ltb_ge _ _)) by lia.
  do 2 f_equal. rewrite as_u64_small by (unfold two64; lia). lia.
Qed.

Lemma worker_range_roundtrip_witness :
  WorkerRange_parse (wr_display (mkWorkerRange 0 8)) = ROk (mkWorkerRange 0 8).
Proof. apply (worker_range_roundtrip (mkWorkerRange 0 8)); unfold u64_max; simpl; lia. Defined.

Lemma parse_digits_bound acc s v :
  (0 ≤ acc ≤ u64_max)%Z → parse_digits acc s = Some v → (0 ≤ v ≤ u64_max)%Z.
Proof.
  revert acc. induction s as [|c s IH]; intros acc Ha; cbn [parse_digits].
  - by intros [= <-].
  - destruct (digit c) as [d|] eqn:Hd; [|done].
    assert (0 ≤ d)%Z.
    { unfold digit in Hd. destruct (_ && _); [|done]. injection Hd as <-. lia. }
    destruct (acc * 10 + d <=? u64_max)%Z eqn:Hle; [|done]. apply Z.leb_le in Hle.
    apply IH. lia.
Qed.

Lemma parse_usize_bound s v : parse_usize s = Some v → (0 ≤ v ≤ u64_max)%Z.
Proof.
  assert (H0 : (0 ≤ 0 ≤ u64_max)%Z) by (unfold u64_max; lia).
  unfold parse_usize. intros Hp.
  repeat (match type of Hp with context [match ?x with _ => _ end] => destruct x end; try done);
    by apply parse_digits_bound in Hp.
Qed.

(** A specification that parses names at least one worker, with one exception: the
    range whose inclusive end is the largest [usize] wraps to an empty range instead of
    being rejected. *)
Theorem spec_parse_nonempty s spec (Hparse : WorkerRangeSpec_parse s = ROk spec) :
  (0 < spec_count spec)%Z
  ∨ ∃ start, spec = WRange (mkWorkerRange start 0).
Proof.
  assert (Hr : ∀ s r, WorkerRange_parse s = ROk r → (0 < wr_len r)%Z ∨ ∃ start, r = mkWorkerRange start 0).
  { clear. intros s r. unfold WorkerRange_parse.
    destruct (split "-" s) as [|p0 [|p1 [|]]]; try done.
    destruct (parse_usize (trim p0)) as [a|] eqn:Ha; [|done].
    destruct (parse_usize (trim p1)) as [b|] eqn:Hb; [|done].
    apply parse_usize_bound in Ha, Hb.
    destruct (b <? a)%Z eqn:Hlt; [done|]. apply Z.ltb_ge in Hlt. intros [= <-].
    destruct (decide (b = u64_max)) as [->|Hne].
    - right. by exists a.
    - left. unfold wr_len, sat_sub. cbn [wr_start wr_end].
      rewrite as_u64_small by (unfold two64; unfold u64_max in *; lia). lia. }
  assert (Hm : ∀ s, map_range (WorkerRange_parse s) = ROk spec →
                (0 < spec_count spec)%Z ∨ ∃ start, spec = WRange (mkWorkerRange start 0)).
  { intros s'. destruct (WorkerRange_parse s') as [r|] eqn:Hp; [|done]. intros [= <-].
    destruct (Hr s' r Hp) as [?|[start ->]]; [by left|right; by exists start]. }
  unfold WorkerRangeSpec_parse in Hparse. destruct (looks_like_range _); [by eapply Hm|].
  destruct (parse_usize (trim s)) as [n|] eqn:Hn.
  - apply parse_usize_bound in Hn. destruct (n =? 0)%Z eqn:Hz; [done|]. apply Z.eqb_neq in Hz.
    injection Hparse as <-. left. cbn. lia.
  - destruct (contains_char "-" _); [|done]. by eapply Hm.
Qed.

Lemma spec_parse_nonempty_witness :
  (0 < spec_count (WRange (mkWorkerRange 2 6)))%Z
  ∨ ∃ start, WRange (mkWorkerRange 2 6) = WRange (mkWorkerRange start 0).
Proof. apply (spec_parse_nonempty " 2 - 5 "). reflexivity. Defined.

(** The largest [usize] as the inclusive end of a range: the parser accepts the text
    and returns a range that contains no worker. *)
Theorem range_parse_overflow :
  WorkerRange_parse "0-18446744073709551615" = ROk (mkWorkerRange 0 0)
  ∧ wr_is_empty (mkWorkerRange 0 0) = true
  ∧ ∀ w, wr_contains (mkWorkerRange 0 0) w = false.
Proof.
  split; [reflexivity|]. split; [done|]. intros w. unfold wr_contains. cbn. lia.
Qed.
