(* ===== verification/Sliced.v ===== *)
(** The borrow bitmap of a sliced container ([SlicedContainer] and the sliced values of
    [tomii-types/src/lib.rs]): one write bit and one read bit per element, in words of 64
    bits. A caller that gets a range has its bits set until its guard is dropped.

    The calls are given by their atomic operations, one step each; [solo] runs a call
    alone. Pointers are left out: a call that is granted names the range it may use. *)
From S2P Require Import Prelude.

Record SlicedContainer := mkSliced {
  sl_total_length : nat;
  sl_write_chunks : list Z;
  sl_read_chunks : list Z;
}.

Definition CHUNK_BITS : nat := 64.

Definition SlicedContainer_new (total_length : nat) : SlicedContainer :=
  let chunk_count := div_ceil total_length CHUNK_BITS in
  mkSliced total_length (replicate chunk_count 0%Z) (replicate chunk_count 0%Z).

(** [range_end]; the sum is checked. *)
Definition range_end (c : SlicedContainer) (start len : nat) : option nat :=
  if sl_total_length c <? start then None
  else if (two64 <=? Z.of_nat (len + start))%Z then None
  else if len + start <=? sl_total_length c then Some (len + start) else None.

Definition mask_for_chunk (range_start range_end chunk_idx : nat) : Z :=
  let chunk_start := chunk_idx * CHUNK_BITS in
  let chunk_end := chunk_start + CHUNK_BITS in
  let from := Nat.max range_start chunk_start in
  let to := Nat.min range_end chunk_end in
  if to <=? from then 0%Z
  else
    let bit_start := from - chunk_start in
    let bit_len := to - from in
    if CHUNK_BITS <=? bit_len then u64_max
    else
      let base := Z.shiftr u64_max (Z.of_nat (CHUNK_BITS - bit_len)) in
      as_u64 (Z.shiftl base (Z.of_nat bit_start)).

(** [first_chunk..=last_chunk] of a range that is not empty. *)
Definition chunks_of (start range_end : nat) : list nat :=
  range (start / CHUNK_BITS) (S ((range_end - 1) / CHUNK_BITS)).

(** [!m] of a word. *)
Definition lnot64 (m : Z) : Z := Z.lxor u64_max m.

(** ** The calls, step by step *)

Inductive kind := Write | Read.

(** Where a call is. Chunks that remain come first, then the chunks with their masks that
    it has set already. [WCas] holds the value of the last load. *)
Inductive call :=
  | WCheck (todo : list nat) (acquired : list (nat * Z))
  | WLoad (todo : list nat) (acquired : list (nat * Z))
  | WCas (todo : list nat) (acquired : list (nat * Z)) (current : Z)
  | RCheck (todo : list nat) (acquired : list (nat * Z))
  | ROr (todo : list nat) (acquired : list (nat * Z))
  | Undo (k : kind) (acquired : list (nat * Z))
  | Granted (k : kind)
  | Refused
  | Clear (k : kind) (todo : list nat)
  | Released.

Definition words (k : kind) (c : SlicedContainer) : list Z :=
  match k with Write => sl_write_chunks c | Read => sl_read_chunks c end.
Definition set_words (k : kind) (ws : list Z) (c : SlicedContainer) : SlicedContainer :=
  match k with
  | Write => mkSliced (sl_total_length c) ws (sl_read_chunks c)
  | Read => mkSliced (sl_total_length c) (sl_write_chunks c) ws
  end.

(** [fetch_and(!mask)] and [fetch_or(mask)] on a word. *)
Definition fetch_clear (k : kind) (c : SlicedContainer) (idx : nat) (mask : Z) : run SlicedContainer :=
  let! w := vec_get (words k c) idx in
  Ret (set_words k (<[idx := Z.land w (lnot64 mask)]> (words k c)) c).
Definition fetch_set (k : kind) (c : SlicedContainer) (idx : nat) (mask : Z) : run SlicedContainer :=
  let! w := vec_get (words k c) idx in
  Ret (set_words k (<[idx := Z.lor w mask]> (words k c)) c).

(** One step of [sliced_data_mut] on the range from [start] to [range_end]. *)
Definition write_step (start range_end : nat) (c : SlicedContainer) (p : call) : run (SlicedContainer * call) :=
  match p with
  | WCheck [] _ => Ret (c, Granted Write)
  | WCheck (i :: todo) acquired =>
      let mask := mask_for_chunk start range_end i in
      if (mask =? 0)%Z then Ret (c, WCheck todo acquired)
      else
        let! w := vec_get (sl_read_chunks c) i in
        if negb (Z.land w mask =? 0)%Z then Ret (c, Undo Write acquired) else Ret (c, WLoad (i :: todo) acquired)
  | WLoad (i :: todo) acquired =>
      let! current := vec_get (sl_write_chunks c) i in Ret (c, WCas (i :: todo) acquired current)
  | WCas (i :: todo) acquired current =>
      let mask := mask_for_chunk start range_end i in
      if negb (Z.land current mask =? 0)%Z then Ret (c, Undo Write acquired)
      else
        let! actual := vec_get (sl_write_chunks c) i in
        if (actual =? current)%Z
        then let! c' := fetch_set Write c i mask in Ret (c', WCheck todo (acquired ++ [(i, mask)]))
        else Ret (c, WCas (i :: todo) acquired actual)
  | _ => Panic
  end.

(** One step of [acquire_read_range]. *)
Definition read_step (start range_end : nat) (c : SlicedContainer) (p : call) : run (SlicedContainer * call) :=
  match p with
  | RCheck [] _ => Ret (c, Granted Read)
  | RCheck (i :: todo) acquired =>
      let mask := mask_for_chunk start range_end i in
      if (mask =? 0)%Z then Ret (c, RCheck todo acquired)
      else
        let! w := vec_get (sl_write_chunks c) i in
        if negb (Z.land w mask =? 0)%Z then Ret (c, Undo Read acquired) else Ret (c, ROr (i :: todo) acquired)
  | ROr (i :: todo) acquired =>
      let mask := mask_for_chunk start range_end i in
      let! c' := fetch_set Read c i mask in Ret (c', RCheck todo (acquired ++ [(i, mask)]))
  | _ => Panic
  end.

(** One step of [unset_range] and [release_read_range]. *)
Definition clear_step (start range_end : nat) (c : SlicedContainer) (p : call) : run (SlicedContainer * call) :=
  match p with
  | Clear _ [] => Ret (c, Released)
  | Clear k (i :: todo) =>
      let mask := mask_for_chunk start range_end i in
      if (mask =? 0)%Z then Ret (c, Clear k todo)
      else let! c' := fetch_clear k c i mask in Ret (c', Clear k todo)
  | _ => Panic
  end.

(** One step of any call; the bits of a refused call are taken back. *)
Definition call_step (start range_end : nat) (c : SlicedContainer) (p : call) : run (SlicedContainer * call) :=
  match p with
  | WCheck _ _ | WLoad _ _ | WCas _ _ _ => write_step start range_end c p
  | RCheck _ _ | ROr _ _ => read_step start range_end c p
  | Undo _ [] => Ret (c, Refused)
  | Undo k ((i, mask) :: acquired) => let! c' := fetch_clear k c i mask in Ret (c', Undo k acquired)
  | Clear _ _ => clear_step start range_end c p
  | Granted _ | Refused | Released => Ret (c, p)
  end.

(** The begin of a call for [len] elements from [start], with the end of its range. *)
Definition begin_call (k : kind) (c : SlicedContainer) (start len : nat) : nat * call :=
  match range_end c start len with
  | None => (start, Refused)
  | Some e => (e, if len =? 0 then Granted k
                  else match k with Write => WCheck (chunks_of start e) [] | Read => RCheck (chunks_of start e) [] end)
  end.

Definition begin_release (k : kind) (c : SlicedContainer) (start len : nat) : nat * call :=
  match range_end c start len with
  | None => (start, Released)
  | Some e => (e, if len =? 0 then Released else Clear k (chunks_of start e))
  end.

Definition finished (p : call) : bool := match p with Granted _ | Refused | Released => true | _ => false end.

(** A call alone, for at most [n] steps; [None] if that is not enough. *)
Fixpoint solo (n start range_end : nat) (c : SlicedContainer) (p : call) : run (option (SlicedContainer * call)) :=
  if finished p then Ret (Some (c, p))
  else match n with
       | O => Ret None
       | S n => let! (c', p') := call_step start range_end c p in solo n start range_end c' p'
       end.

(** Enough steps for any call: three or four per chunk, twice. *)
Definition enough (c : SlicedContainer) : nat := 6 * length (sl_write_chunks c) + 8.

(** [sliced_data_mut], [sliced_get_range] and [get_range_raw]: whether the range is granted. *)
Definition acquire (k : kind) (c : SlicedContainer) (start len : nat) : run (option (SlicedContainer * bool)) :=
  let (e, p) := begin_call k c start len in
  let! r := solo (enough c) start e c p in
  Ret ((λ cp, (cp.1, match cp.2 with Granted _ => true | _ => false end)) <$> r).

(** [unset_range], [release_read_range], [unset_read_range], and the drop of a guard. *)
Definition release (k : kind) (c : SlicedContainer) (start len : nat) : run (option SlicedContainer) :=
  let (e, p) := begin_release k c start len in
  let! r := solo (enough c) start e c p in
  Ret (fst <$> r).

(** ** Questions *)

Definition range_written (c : SlicedContainer) (start e : nat) : run bool :=
  anyM (λ i, let mask := mask_for_chunk start e i in
             if (mask =? 0)%Z then Ret false
             else let! w := vec_get (sl_write_chunks c) i in Ret (negb (Z.land w mask =? 0)%Z)) (chunks_of start e).

Definition is_range_borrowed (c : SlicedContainer) (start len : nat) : run bool :=
  match range_end c start len with
  | None => Ret false
  | Some e => if len =? 0 then Ret false else range_written c start e
  end.

Definition can_read_range (c : SlicedContainer) (start len : nat) : run bool :=
  match range_end c start len with
  | None => Ret false
  | Some e => if len =? 0 then Ret true else run_map negb (range_written c start e)
  end.

(** ** The calls of the values *)

(** [sliced_get_mut_range] and [sliced_get_range] at elements of [size_t] bytes, where the
    container has elements of [size_u] bytes: the number of elements of the slice. The types
    are not compared, only whether the bytes make whole elements. *)
Definition sliced_get (k : kind) (size_u size_t : nat) (c : SlicedContainer) (start len : nat) : run (option (SlicedContainer * option nat)) :=
  let! r := acquire k c start len in
  match r with
  | None => Ret None
  | Some (c', false) => Ret (Some (c', None))
  | Some (c', true) =>
      let byte_len := len * size_u in
      if (size_t =? 0) || negb (byte_len mod size_t =? 0) then
        let! r' := release k c' start len in Ret ((λ c2, (c2, None)) <$> r')
      else Ret (Some (c', Some (byte_len / size_t)))
  end.

(** [sliced_data_mut_timeout], [sliced_get_range_timeout] and [get_range_raw_timeout]: attempts
    until the range is granted or the time is over; each attempt finds the container as it is then, and
    the time elapsed after it. [None] while the caller still waits. *)
Fixpoint acquire_timeout (k : kind) (start len : nat) (timeout : Z) (attempts : list (SlicedContainer * Z)) : run (option (SlicedContainer * bool)) :=
  match attempts with
  | [] => Ret None
  | (c, elapsed) :: attempts =>
      let! r := acquire k c start len in
      match r with
      | Some (c', false) => if match range_end c start len with None => true | Some _ => (timeout <=? elapsed)%Z end then Ret (Some (c', false))
                            else acquire_timeout k start len timeout attempts
      | _ => Ret r
      end
  end.

(** ** Bits *)

(** The bit of an element. *)
Definition bit (ws : list Z) (p : nat) : bool := Z.testbit (default 0%Z (ws !! (p / CHUNK_BITS))) (Z.of_nat (p mod CHUNK_BITS)).

(** Whether [p] is an element of the range in one of the chunks. *)
Definition covers (start e : nat) (idxs : list nat) (p : nat) : bool := bool_decide (start ≤ p < e ∧ p / CHUNK_BITS ∈ idxs).

Definition is_word (w : Z) : Prop := (0 ≤ w < two64)%Z.

Lemma two64_pow : two64 = (2 ^ 64)%Z. Proof. done. Qed.
Lemma u64_max_ones : u64_max = Z.ones 64. Proof. done. Qed.

Lemma word_high w i : is_word w → (64 ≤ i)%Z → Z.testbit w i = false.
Proof.
  intros [H0 H1] Hi. rewrite two64_pow in H1. destruct (decide (w = 0)%Z) as [->|]; [apply Z.testbit_0_l|].
  apply Z.bits_above_log2; [done|]. apply Z.log2_lt_pow2; [lia|]. eapply Z.lt_le_trans; [exact H1|]. apply Z.pow_le_mono_r; lia.
Qed.

Lemma word_of_bits w : (0 ≤ w)%Z → (∀ i, (64 ≤ i)%Z → Z.testbit w i = false) → is_word w.
Proof.
  intros H0 Hb. split; [done|]. rewrite two64_pow. destruct (decide (w = 0)%Z) as [->|]; [done|].
  apply Z.log2_lt_pow2; [lia|]. destruct (Z.lt_ge_cases (Z.log2 w) 64) as [|Hge]; [done|].
  specialize (Hb _ Hge). rewrite Z.bit_log2 in Hb by lia. done.
Qed.

Lemma mask_bit s e i b : b < 64 → Z.testbit (mask_for_chunk s e i) (Z.of_nat b) = bool_decide (s ≤ i * CHUNK_BITS + b < e).
Proof.
  intros Hb. unfold mask_for_chunk, CHUNK_BITS.
  destruct (Nat.min e (i * 64 + 64) <=? Nat.max s (i * 64)) eqn:Hle.
  { apply Nat.leb_le in Hle. rewrite Z.testbit_0_l. symmetry. apply bool_decide_false. lia. }
  apply Nat.leb_gt in Hle. destruct (64 <=? _) eqn:Hfull.
  { apply Nat.leb_le in Hfull. rewrite u64_max_ones, Z.testbit_ones_nonneg, (proj2 (Z.ltb_lt _ _)) by lia. symmetry. apply bool_decide_true. lia. }
  apply Nat.leb_gt in Hfull. unfold as_u64. rewrite two64_pow, Z.mod_pow2_bits_low by lia.
  set (from := Nat.max s (i * 64)) in *. set (to := Nat.min e (i * 64 + 64)) in *.
  destruct (decide (b < from - i * 64)).
  { rewrite Z.shiftl_spec_low by lia. symmetry. apply bool_decide_false. lia. }
  rewrite Z.shiftl_spec_high, Z.shiftr_spec, u64_max_ones, Z.testbit_ones_nonneg by lia.
  destruct (decide (i * 64 + b < to)); [rewrite (proj2 (Z.ltb_lt _ _)) by lia; symmetry; apply bool_decide_true; lia|].
  rewrite (proj2 (Z.ltb_ge _ _)) by lia. symmetry. apply bool_decide_false. lia.
Qed.

Lemma mask_word s e i : is_word (mask_for_chunk s e i).
Proof.
  unfold mask_for_chunk. destruct (_ <=? _); [done|]. destruct (_ <=? _); [done|]. apply Z.mod_pos_bound. done.
Qed.

(** The bits of a word and a mask meet. *)
Lemma land_zero w m : is_word w → (Z.land w m =? 0)%Z = true ↔ ∀ b, b < 64 → Z.testbit w (Z.of_nat b) && Z.testbit m (Z.of_nat b) = false.
Proof.
  intros Hw. rewrite Z.eqb_eq. split.
  - intros H0 b _. by rewrite <- Z.land_spec, H0, Z.testbit_0_l.
  - intros Hb. apply Z.bits_inj'. intros n Hn. rewrite Z.land_spec, Z.testbit_0_l. destruct (decide (n < 64)%Z).
    + specialize (Hb (Z.to_nat n) ltac:(lia)). by rewrite Z2Nat.id in Hb by lia.
    + by rewrite (word_high w n Hw) by lia.
Qed.

(** An element by its chunk and its bit. *)
Lemma element p : p = p / CHUNK_BITS * CHUNK_BITS + p mod CHUNK_BITS ∧ p mod CHUNK_BITS < 64.
Proof. unfold CHUNK_BITS. pose proof (Nat.div_mod_eq p 64). pose proof (Nat.mod_upper_bound p 64 ltac:(lia)). lia. Qed.

Lemma element_of i b : b < 64 → (i * CHUNK_BITS + b) / CHUNK_BITS = i ∧ (i * CHUNK_BITS + b) mod CHUNK_BITS = b.
Proof.
  unfold CHUNK_BITS. intros Hb. split.
  - rewrite Nat.div_add_l, Nat.div_small by lia. lia.
  - by rewrite Nat.add_comm, Nat.Div0.mod_add, Nat.mod_small.
Qed.

(** A test of a word against the mask of a range asks whether an element of the range in
    that chunk has its bit set. *)
Lemma test_word ws s e i w : ws !! i = Some w → is_word w →
  negb (Z.land w (mask_for_chunk s e i) =? 0)%Z = true ↔ ∃ p, covers s e [i] p = true ∧ bit ws p = true.
Proof.
  intros Hw Hword. rewrite negb_true_iff, <- not_true_iff_false, land_zero by done. unfold covers, bit. split.
  - intros Hn. destruct (existsb (λ b, Z.testbit w (Z.of_nat b) && Z.testbit (mask_for_chunk s e i) (Z.of_nat b)) (range 0 64)) eqn:Hex.
    + apply existsb_exists in Hex as (b & Hb%list_elem_of_In & Hbit). apply elem_of_range in Hb. apply andb_true_iff in Hbit as [H1 H2].
      rewrite mask_bit in H2 by lia. apply bool_decide_eq_true in H2. destruct (element_of i b ltac:(lia)) as [E1 E2].
      exists (i * CHUNK_BITS + b). rewrite E1, E2, Hw. split; [|done]. apply bool_decide_true. split; [done|left].
    + destruct Hn. intros b Hb. destruct (_ && _) eqn:Hbit; [|done]. exfalso. apply not_true_iff_false in Hex. apply Hex, existsb_exists.
      exists b. split; [|done]. apply list_elem_of_In, elem_of_range. lia.
  - intros (p & [Hp Hi]%bool_decide_eq_true & Hbit) Hall. apply list_elem_of_singleton in Hi. destruct (element p) as [E Hlt].
    specialize (Hall _ Hlt). rewrite Hi, Hw in Hbit. cbn [default from_option id] in Hbit. rewrite Hbit, mask_bit in Hall by done.
    rewrite bool_decide_true in Hall; [done|]. rewrite <- Hi. lia.
Qed.

(** The mask of a chunk of the range is not empty. *)
Lemma mask_nonzero s e i : s < e → i ∈ chunks_of s e → (mask_for_chunk s e i =? 0)%Z = false.
Proof.
  intros Hse Hi. unfold chunks_of in Hi. apply elem_of_range in Hi. apply not_true_iff_false. intros H0%Z.eqb_eq.
  assert (Hex : ∃ b, b < 64 ∧ s ≤ i * CHUNK_BITS + b < e).
  { destruct (element s) as [E1 L1], (element (e - 1)) as [E2 L2]. unfold CHUNK_BITS in *.
    destruct (decide (i = s / 64)) as [->|]; [exists (s mod 64); lia|]. exists 0. split; [lia|].
    assert (s / 64 * 64 + 64 ≤ i * 64) by nia. assert (i * 64 ≤ (e - 1) / 64 * 64) by nia. lia. }
  destruct Hex as (b & Hb & Hin). pose proof (mask_bit s e i b Hb) as Hm. rewrite H0, Z.testbit_0_l, bool_decide_true in Hm by lia. done.
Qed.

(** ** The words of a container *)

Record sl_wf (c : SlicedContainer) : Prop := {
  wf_length : ∀ k, length (words k c) = div_ceil (sl_total_length c) CHUNK_BITS;
  wf_words : ∀ k, Forall is_word (words k c);
}.

(** [c'] is [c] but for the words of [k], whose bits are [f]. *)
Record updated (k : kind) (c c' : SlicedContainer) (f : nat → bool) : Prop := {
  up_wf : sl_wf c';
  up_total : sl_total_length c' = sl_total_length c;
  up_other : ∀ k', k' ≠ k → words k' c' = words k' c;
  up_bits : ∀ p, bit (words k c') p = f p;
}.

#[export] Instance kind_eq_dec : EqDecision kind.
Proof. solve_decision. Defined.

Lemma words_set k ws c k' : words k' (set_words k ws c) = if decide (k' = k) then ws else words k' c.
Proof. by destruct k, k'. Qed.

Lemma bit_insert ws i w p : i < length ws → bit (<[i := w]> ws) p = if decide (p / CHUNK_BITS = i) then Z.testbit w (Z.of_nat (p mod CHUNK_BITS)) else bit ws p.
Proof.
  intros Hi. unfold bit. destruct (decide (p / CHUNK_BITS = i)) as [->|]; [by rewrite list_lookup_insert_eq|by rewrite list_lookup_insert_ne].
Qed.

Lemma set_updated k c i w f : sl_wf c → i < length (words k c) → is_word w →
  (∀ p, (if decide (p / CHUNK_BITS = i) then Z.testbit w (Z.of_nat (p mod CHUNK_BITS)) else bit (words k c) p) = f p) →
  updated k c (set_words k (<[i := w]> (words k c)) c) f.
Proof.
  intros [Hl Hw] Hi Hword Hf. split.
  - split; intros k'; rewrite words_set; destruct (decide (k' = k)) as [->|]; rewrite ?length_insert; try (by destruct k; apply Hl).
    + by apply Forall_insert.
    + apply Hw.
  - by destruct k.
  - intros k' Hne. by rewrite words_set, decide_False.
  - intros p. rewrite words_set, decide_True, bit_insert by done. apply Hf.
Qed.

Lemma mask_covers s e i p : p / CHUNK_BITS = i → Z.testbit (mask_for_chunk s e i) (Z.of_nat (p mod CHUNK_BITS)) = covers s e [i] p.
Proof.
  intros Hi. destruct (element p) as [E Hlt]. rewrite mask_bit by done. unfold covers. apply bool_decide_ext. rewrite <- Hi, <- E.
  split; [intros; split; [done|left]|tauto].
Qed.

Lemma covers_other s e i p : p / CHUNK_BITS ≠ i → covers s e [i] p = false.
Proof. intros Hi. apply bool_decide_false. by intros [_ ?%list_elem_of_singleton]. Qed.

Lemma fetch_set_spec k c i s e : sl_wf c → i < length (words k c) →
  ∃ c', fetch_set k c i (mask_for_chunk s e i) = Ret c' ∧ updated k c c' (λ p, bit (words k c) p || covers s e [i] p).
Proof.
  intros Hwf Hi. unfold fetch_set. destruct (vec_get_lt _ _ Hi) as (w & -> & Hw). cbn [run_bind]. eexists. split; [done|].
  pose proof (Forall_lookup_1 _ _ _ _ (wf_words c Hwf k) Hw) as Hword. apply set_updated; try done.
  - apply word_of_bits.
    + apply Z.lor_nonneg. split; [apply Hword|apply mask_word].
    + intros b Hb. by rewrite Z.lor_spec, (word_high w b Hword Hb), (word_high _ b (mask_word s e i) Hb).
  - intros p. destruct (decide (p / CHUNK_BITS = i)) as [Hp|Hp]; [|by rewrite covers_other, orb_false_r].
    rewrite Z.lor_spec, (mask_covers s e i p Hp). unfold bit. by rewrite Hp, Hw.
Qed.

Lemma fetch_clear_spec k c i s e : sl_wf c → i < length (words k c) →
  ∃ c', fetch_clear k c i (mask_for_chunk s e i) = Ret c' ∧ updated k c c' (λ p, bit (words k c) p && negb (covers s e [i] p)).
Proof.
  intros Hwf Hi. unfold fetch_clear. destruct (vec_get_lt _ _ Hi) as (w & -> & Hw). cbn [run_bind]. eexists. split; [done|].
  pose proof (Forall_lookup_1 _ _ _ _ (wf_words c Hwf k) Hw) as Hword. apply set_updated; try done.
  - apply word_of_bits.
    + apply Z.land_nonneg. left. apply Hword.
    + intros b Hb. by rewrite Z.land_spec, (word_high w b Hword Hb).
  - intros p. destruct (decide (p / CHUNK_BITS = i)) as [Hp|Hp]; [|by rewrite covers_other, andb_true_r].
    rewrite Z.land_spec. unfold lnot64. rewrite Z.lxor_spec, u64_max_ones, Z.testbit_ones_nonneg by lia.
    destruct (element p) as [_ Hlt]. rewrite (proj2 (Z.ltb_lt _ _)) by lia. rewrite (mask_covers s e i p Hp).
    unfold bit. rewrite Hp, Hw. by destruct (covers s e [i] p).
Qed.

Lemma updated_ext k c c' f g : (∀ p, f p = g p) → updated k c c' f → updated k c c' g.
Proof. intros Hfg []. split; try done. intros p. by rewrite <- Hfg. Qed.

Lemma updated_trans k c c1 c2 f g : updated k c c1 f → updated k c1 c2 g → updated k c c2 g.
Proof.
  intros [_ H2 H3 _] [G1 G2 G3 G4]. split; [done|congruence| |done]. intros k' Hk. by rewrite G3, H3.
Qed.

Lemma updated_refl k c : sl_wf c → updated k c c (bit (words k c)).
Proof. done. Qed.

(** ** A call alone *)

Lemma covers_cons s e i idxs p : covers s e (i :: idxs) p = covers s e [i] p || covers s e idxs p.
Proof. unfold covers. rewrite <- bool_decide_or. apply bool_decide_ext. rewrite elem_of_cons, list_elem_of_singleton. tauto. Qed.

Lemma cleared_cons s e i idxs p b : b && negb (covers s e [i] p) && negb (covers s e idxs p) = b && negb (covers s e (i :: idxs) p).
Proof. by rewrite (covers_cons s e i idxs p), negb_orb, andb_assoc. Qed.

Lemma covers_app s e l1 l2 p : covers s e (l1 ++ l2) p = covers s e l1 p || covers s e l2 p.
Proof. unfold covers. rewrite <- bool_decide_or. apply bool_decide_ext. rewrite elem_of_app. tauto. Qed.

Lemma covers_nil s e p : covers s e [] p = false.
Proof. apply bool_decide_false. by intros [_ ?%not_elem_of_nil]. Qed.

Section alone.
Context (s e : nat) (Hse : s < e).

(** The chunks of the range, with their masks. *)
Definition masked (acquired : list (nat * Z)) : Prop := ∀ i m, (i, m) ∈ acquired → m = mask_for_chunk s e i ∧ i ∈ chunks_of s e.

(** The container has the words of the range. *)
Definition has_chunks (c : SlicedContainer) : Prop := ∀ k i, i ∈ chunks_of s e → i < length (words k c).

Lemma has_chunks_updated k c c' f : updated k c c' f → sl_wf c → has_chunks c → has_chunks c'.
Proof.
  intros [Hwf' Ht _ _] Hwf Hc k' i Hi. rewrite (wf_length c' Hwf'), Ht, <- (wf_length c Hwf k'). by apply Hc.
Qed.

Lemma masked_app acquired i : masked acquired → i ∈ chunks_of s e → masked (acquired ++ [(i, mask_for_chunk s e i)]).
Proof. intros Hm Hi j m [Hj|[= -> ->]%list_elem_of_singleton]%elem_of_app; [by apply Hm|done]. Qed.

Lemma solo_undo k : ∀ acquired c n, sl_wf c → has_chunks c → masked acquired → length acquired < n →
  ∃ c', solo n s e c (Undo k acquired) = Ret (Some (c', Refused))
    ∧ updated k c c' (λ p, bit (words k c) p && negb (covers s e acquired.*1 p)).
Proof.
  induction acquired as [|[i m] acquired IH]; intros c n Hwf Hc Hm Hn; (destruct n as [|n]; [cbn in Hn; lia|]); cbn [solo finished call_step write_step read_step clear_step].
  - cbn [run_bind]. exists c. split; [by destruct n|]. eapply updated_ext; [|by apply updated_refl]. intros p. by rewrite covers_nil, andb_true_r.
  - destruct (Hm i m) as [-> Hi]; [left|]. destruct (fetch_clear_spec k c i s e Hwf) as (c1 & -> & Hu); [by apply Hc|]. cbn [run_bind].
    destruct (IH c1 n) as (c' & -> & Hu'); [apply Hu|by eapply has_chunks_updated|intros j m Hj; apply Hm; by right|cbn in Hn; lia|].
    exists c'. split; [done|]. eapply updated_trans; [exact Hu|]. eapply updated_ext; [|exact Hu']. intros p.
    cbn beta. rewrite (up_bits _ _ _ _ Hu). apply cleared_cons.
Qed.

Lemma solo_clear k : ∀ todo c n, sl_wf c → has_chunks c → (∀ i, i ∈ todo → i ∈ chunks_of s e) → length todo < n →
  ∃ c', solo n s e c (Clear k todo) = Ret (Some (c', Released))
    ∧ updated k c c' (λ p, bit (words k c) p && negb (covers s e todo p)).
Proof.
  induction todo as [|i todo IH]; intros c n Hwf Hc Hm Hn; (destruct n as [|n]; [cbn in Hn; lia|]); cbn [solo finished call_step write_step read_step clear_step].
  - cbn [run_bind]. exists c. split; [by destruct n|]. eapply updated_ext; [|by apply updated_refl]. intros p. by rewrite covers_nil, andb_true_r.
  - rewrite mask_nonzero by (done || apply Hm; left).
    destruct (fetch_clear_spec k c i s e Hwf) as (c1 & -> & Hu); [apply Hc, Hm; left|]. cbn [run_bind].
    destruct (IH c1 n) as (c' & -> & Hu'); [apply Hu|by eapply has_chunks_updated|intros j Hj; apply Hm; by right|cbn in Hn; lia|].
    exists c'. split; [done|]. eapply updated_trans; [exact Hu|]. eapply updated_ext; [|exact Hu']. intros p.
    cbn beta. rewrite (up_bits _ _ _ _ Hu). apply cleared_cons.
Qed.

(** The bits of an element that the chunks cover. *)
Definition some_bit (k : kind) (c : SlicedContainer) (idxs : list nat) : Prop := ∃ p, covers s e idxs p = true ∧ bit (words k c) p = true.

(** A test of the word of a chunk, as the calls make it. *)
Lemma tested k c i : sl_wf c → has_chunks c → i ∈ chunks_of s e →
  ∃ w, vec_get (words k c) i = Ret w ∧ is_word w ∧ (negb (Z.land w (mask_for_chunk s e i) =? 0)%Z = true ↔ some_bit k c [i]).
Proof.
  intros Hwf Hc Hi. destruct (vec_get_lt _ _ (Hc k i Hi)) as (w & Hg & Hw). exists w.
  pose proof (Forall_lookup_1 _ _ _ _ (wf_words c Hwf k) Hw) as Hword. split; [done|]. split; [done|]. by apply test_word.
Qed.

Lemma some_bit_cons k c i todo : some_bit k c (i :: todo) ↔ some_bit k c [i] ∨ some_bit k c todo.
Proof.
  unfold some_bit. split.
  - intros (p & Hp & Hb). rewrite covers_cons in Hp. apply orb_true_iff in Hp as [Hp|Hp]; [left|right]; by exists p.
  - intros [(p & Hp & Hb)|(p & Hp & Hb)]; exists p; (split; [|done]); rewrite covers_cons, Hp; by rewrite ?orb_true_r.
Qed.

Lemma no_bit_nil k c : ¬ some_bit k c [].
Proof. intros (p & Hp & _). by rewrite covers_nil in Hp. Qed.

(** Setting the bits of one chunk leaves those of the others. *)
Lemma some_bit_other k c c' i todo : updated k c c' (λ p, bit (words k c) p || covers s e [i] p) → i ∉ todo →
  ∀ k', some_bit k' c' todo ↔ some_bit k' c todo.
Proof.
  intros Hu Hi k'. unfold some_bit. f_equiv. intros p. destruct (covers s e todo p) eqn:Hp; [|split; by intros [? _]].
  destruct (decide (k' = k)) as [->|Hne]; [|by rewrite (up_other _ _ _ _ Hu k' Hne)]. rewrite (up_bits _ _ _ _ Hu).
  rewrite covers_other; [by rewrite orb_false_r|]. apply bool_decide_eq_true in Hp as [_ Hp]. by intros <-.
Qed.

(** [sliced_data_mut] alone. *)
Lemma solo_write : ∀ todo acquired c n, sl_wf c → has_chunks c → masked acquired → (∀ i, i ∈ todo → i ∈ chunks_of s e) → NoDup todo →
  4 * length todo + length acquired + 1 < n →
  ∃ c' b, solo n s e c (WCheck todo acquired) = Ret (Some (c', if b : bool then Granted Write else Refused))
    ∧ (b = true ↔ ¬ some_bit Read c todo ∧ ¬ some_bit Write c todo)
    ∧ updated Write c c' (λ p, if b then bit (words Write c) p || covers s e todo p else bit (words Write c) p && negb (covers s e acquired.*1 p)).
Proof.
  induction todo as [|i todo IH]; intros acquired c n Hwf Hc Hm Htodo Hnd Hn; (destruct n as [|n]; [cbn in Hn; lia|]); cbn [solo finished call_step write_step read_step clear_step].
  { exists c, true. split; [by destruct n|]. split; [split; [by split; apply no_bit_nil|done]|].
    eapply updated_ext; [|by apply updated_refl]. intros p. by rewrite covers_nil, orb_false_r. }
  assert (Hi : i ∈ chunks_of s e) by (apply Htodo; left). apply NoDup_cons in Hnd as [Hni Hnd]. cbn [length] in Hn.
  rewrite mask_nonzero by done. destruct (tested Read c i Hwf Hc Hi) as (r & Hr & _ & Htr). cbn [words] in Hr. rewrite Hr. cbn [run_bind].
  assert (Hback : ∀ m, length acquired < m → (some_bit Read c [i] ∨ some_bit Write c [i]) →
    ∃ c' b, solo m s e c (Undo Write acquired) = Ret (Some (c', if b : bool then Granted Write else Refused))
    ∧ (b = true ↔ ¬ some_bit Read c (i :: todo) ∧ ¬ some_bit Write c (i :: todo))
    ∧ updated Write c c' (λ p, if b then bit (words Write c) p || covers s e (i :: todo) p else bit (words Write c) p && negb (covers s e acquired.*1 p))).
  { intros m Hlen Hsome. destruct (solo_undo Write acquired c m Hwf Hc Hm Hlen) as (c' & Hs & Hu). exists c', false. split; [done|].
    split; [|done]. rewrite !(some_bit_cons _ _ i todo). split; [done|]. intros [H1 H2]. tauto. }
  destruct (negb _) eqn:Hread; [cbn [run_bind]; apply Hback; [lia|left; by apply Htr]|]. cbn [run_bind].
  destruct n as [|n]; [lia|]. cbn [solo finished call_step write_step read_step clear_step].
  destruct (tested Write c i Hwf Hc Hi) as (w & Hw & Hword & Htw). cbn [words] in Hw. rewrite Hw. cbn [run_bind].
  destruct n as [|n]; [lia|]. cbn [solo finished call_step write_step read_step clear_step].
  destruct (negb (Z.land w _ =? 0)%Z) eqn:Hwrite; [cbn [run_bind]; apply Hback; [lia|right; by apply Htw]|].
  rewrite Hw. cbn [run_bind]. rewrite Z.eqb_refl.
  destruct (fetch_set_spec Write c i s e Hwf) as (c1 & -> & Hu); [by apply Hc|]. cbn [run_bind].
  destruct (IH (acquired ++ [(i, mask_for_chunk s e i)]) c1 n) as (c' & b & -> & Hb & Hu').
  { apply Hu. } { by eapply has_chunks_updated. } { by apply masked_app. } { intros j Hj. apply Htodo. by right. } { done. } { rewrite length_app. cbn. lia. }
  exists c', b. split; [done|].
  assert (H1 : ¬ some_bit Read c [i] ∧ ¬ some_bit Write c [i]) by (split; [intros Hx%Htr|intros Hx%Htw]; congruence).
  split.
  - rewrite Hb, !(some_bit_other _ _ _ _ _ Hu Hni), !(some_bit_cons _ _ i todo). tauto.
  - eapply updated_trans; [exact Hu|]. eapply updated_ext; [|exact Hu']. intros p. cbn beta. rewrite (up_bits _ _ _ _ Hu). destruct b.
    + by rewrite (covers_cons s e i todo), orb_assoc.
    + rewrite fmap_app, covers_app. cbn [fmap list_fmap fst]. destruct (covers s e [i] p) eqn:Hcov; [|by rewrite !orb_false_r].
      assert (bit (words Write c) p = false) as ->; [|by rewrite !orb_true_r].
      apply not_true_iff_false. intros Hbit. apply (proj2 H1). by exists p.
Qed.
(** [acquire_read_range] alone. A call that is refused takes back the bits of the chunks
    before the one where it was refused, whoever set them. *)
Lemma solo_read : ∀ todo acquired c n, sl_wf c → has_chunks c → masked acquired → (∀ i, i ∈ todo → i ∈ chunks_of s e) → NoDup todo →
  3 * length todo + length acquired + 1 < n →
  ∃ c' b, solo n s e c (RCheck todo acquired) = Ret (Some (c', if b : bool then Granted Read else Refused))
    ∧ if b then ¬ some_bit Write c todo ∧ updated Read c c' (λ p, bit (words Read c) p || covers s e todo p)
      else ∃ pre i post, todo = pre ++ i :: post ∧ some_bit Write c [i] ∧ ¬ some_bit Write c pre
           ∧ updated Read c c' (λ p, bit (words Read c) p && negb (covers s e (acquired.*1 ++ pre) p)).
Proof.
  induction todo as [|i todo IH]; intros acquired c n Hwf Hc Hm Htodo Hnd Hn; (destruct n as [|n]; [cbn in Hn; lia|]); cbn [solo finished call_step write_step read_step clear_step].
  { exists c, true. split; [by destruct n|]. split; [apply no_bit_nil|].
    eapply updated_ext; [|by apply updated_refl]. intros p. by rewrite covers_nil, orb_false_r. }
  assert (Hi : i ∈ chunks_of s e) by (apply Htodo; left). apply NoDup_cons in Hnd as [Hni Hnd]. cbn [length] in Hn.
  rewrite mask_nonzero by done. destruct (tested Write c i Hwf Hc Hi) as (w & Hw & _ & Htw). cbn [words] in Hw. rewrite Hw. cbn [run_bind].
  destruct (negb _) eqn:Hwrite.
  { cbn [run_bind]. destruct (solo_undo Read acquired c n Hwf Hc Hm) as (c' & -> & Hu); [lia|]. exists c', false. split; [done|].
    exists [], i, todo. split; [done|]. split; [by apply Htw|]. split; [apply no_bit_nil|]. by rewrite app_nil_r. }
  assert (Hno : ¬ some_bit Write c [i]) by (intros Hx%Htw; congruence). cbn [run_bind].
  destruct n as [|n]; [lia|]. cbn [solo finished call_step write_step read_step clear_step].
  destruct (fetch_set_spec Read c i s e Hwf) as (c1 & -> & Hu); [by apply Hc|]. cbn [run_bind].
  destruct (IH (acquired ++ [(i, mask_for_chunk s e i)]) c1 n) as (c' & b & -> & Hb).
  { apply Hu. } { by eapply has_chunks_updated. } { by apply masked_app. } { intros j Hj. apply Htodo. by right. } { done. } { rewrite length_app. cbn. lia. }
  exists c', b. split; [done|]. assert (Hsame : words Write c1 = words Write c) by (by apply (up_other _ _ _ _ Hu)).
  destruct b.
  - destruct Hb as [Hb Hu']. split; [rewrite (some_bit_cons _ _ i todo); unfold some_bit in Hb, Hno |- *; rewrite Hsame in Hb; tauto|].
    eapply updated_trans; [exact Hu|]. eapply updated_ext; [|exact Hu']. intros p. cbn beta. rewrite (up_bits _ _ _ _ Hu).
    by rewrite (covers_cons s e i todo), orb_assoc.
  - destruct Hb as (pre & j & post & -> & Hj & Hpre & Hu'). exists (i :: pre), j, post. split; [done|].
    unfold some_bit in Hj, Hpre. rewrite Hsame in Hj, Hpre. split; [done|]. split; [rewrite (some_bit_cons _ _ i pre); unfold some_bit in Hno |- *; tauto|].
    eapply updated_trans; [exact Hu|]. eapply updated_ext; [|exact Hu']. intros p. cbn beta. rewrite (up_bits _ _ _ _ Hu).
    rewrite fmap_app, <- app_assoc. cbn [fmap list_fmap fst app]. rewrite (covers_app s e acquired.*1 (i :: pre)), (covers_cons s e i pre).
    destruct (covers s e [i] p); [by rewrite !orb_true_r, !andb_false_r|by rewrite orb_false_r].
Qed.
End alone.

(** ** The calls of the interface *)

Lemma div_ceil_spec n d i : 0 < d → i < div_ceil n d ↔ i * d < n.
Proof.
  intros Hd. unfold div_ceil. destruct (decide (n = 0)) as [->|].
  { rewrite Nat.div_small by lia. lia. }
  split.
  - intros Hi. assert (d * S i ≤ n + d - 1) by (etrans; [|apply (Nat.Div0.mul_div_le (n + d - 1) d)]; nia). nia.
  - intros Hi. apply Nat.div_le_lower_bound; [lia|]. nia.
Qed.

Lemma sliced_new_wf n : sl_wf (SlicedContainer_new n).
Proof.
  split; intros []; cbn; rewrite ?length_replicate; try done; by apply Forall_replicate.
Qed.

Lemma new_bits n k p : bit (words k (SlicedContainer_new n)) p = false.
Proof.
  assert (Hw : words k (SlicedContainer_new n) = replicate (div_ceil n CHUNK_BITS) 0%Z) by (by destruct k).
  unfold bit. rewrite Hw. destruct (replicate _ _ !! _) eqn:Hl; cbn [default from_option id]; [|apply Z.testbit_0_l].
  apply lookup_replicate in Hl as [-> _]. apply Z.testbit_0_l.
Qed.

(** A range in bounds. *)
Definition in_bounds (c : SlicedContainer) (start len : nat) : Prop := start + len ≤ sl_total_length c.
#[export] Instance in_bounds_dec c start len : Decision (in_bounds c start len).
Proof. unfold in_bounds. apply _. Defined.

Lemma range_end_spec c start len : (Z.of_nat (sl_total_length c) < two64)%Z →
  range_end c start len = if decide (start + len ≤ sl_total_length c) then Some (start + len) else None.
Proof.
  intros Ht. unfold range_end. case_decide.
  - rewrite (proj2 (Nat.ltb_ge _ _)), (proj2 (Z.leb_gt _ _)), (proj2 (Nat.leb_le _ _)) by lia. f_equal. lia.
  - destruct (_ <? _); [done|]. destruct (_ <=? _)%Z; [done|]. by rewrite (proj2 (Nat.leb_gt _ _)) by lia.
Qed.

Lemma chunks_small c s e : sl_wf c → s < e ≤ sl_total_length c → has_chunks s e c ∧ length (chunks_of s e) ≤ length (sl_write_chunks c) ∧ NoDup (chunks_of s e).
Proof.
  intros Hwf Hse. assert (Hlt : ∀ i, i ∈ chunks_of s e → i < div_ceil (sl_total_length c) CHUNK_BITS).
  { intros i Hi%elem_of_range. apply div_ceil_spec; [unfold CHUNK_BITS; lia|]. destruct (element (e - 1)) as [E _]. nia. }
  split; [|split].
  - intros k i Hi. rewrite (wf_length c Hwf). by apply Hlt.
  - change (sl_write_chunks c) with (words Write c). rewrite (wf_length c Hwf). unfold chunks_of in *. rewrite length_range.
    destruct (decide (s / CHUNK_BITS ≤ (e - 1) / CHUNK_BITS)); [|lia].
    assert (Hl : (e - 1) / CHUNK_BITS < div_ceil (sl_total_length c) CHUNK_BITS) by (apply Hlt, elem_of_range; lia). lia.
  - apply NoDup_range.
Qed.

(** All chunks of a range cover it. *)
Lemma covers_chunks s e p : covers s e (chunks_of s e) p = bool_decide (s ≤ p < e).
Proof.
  unfold covers. apply bool_decide_ext. split; [tauto|]. intros Hp. split; [done|]. apply elem_of_range.
  split; [apply Nat.Div0.div_le_mono; lia|]. unfold CHUNK_BITS. apply Nat.lt_succ_r, Nat.Div0.div_le_mono. lia.
Qed.

(** A bit of [k] in the range. *)
Definition taken (k : kind) (c : SlicedContainer) (start len : nat) : Prop := ∃ p, start ≤ p < start + len ∧ bit (words k c) p = true.

Lemma taken_some_bit k c start len : taken k c start len ↔ some_bit start (start + len) k c (chunks_of start (start + len)).
Proof. unfold taken, some_bit. f_equiv. intros p. by rewrite covers_chunks, bool_decide_eq_true. Qed.

Lemma solo_finished n s e c p : finished p = true → solo n s e c p = Ret (Some (c, p)).
Proof. intros Hf. destruct n; cbn [solo]; by rewrite Hf. Qed.

(** A container that fits a machine. *)
Definition sl_ok (c : SlicedContainer) : Prop := sl_wf c ∧ (Z.of_nat (sl_total_length c) < two64)%Z.

(** Getting a range for writing, alone: granted exactly when the range is in bounds and no
    bit of it is set; a call that is refused changes nothing. *)
Lemma acquire_write_spec c start len : sl_ok c →
  ∃ c' b, acquire Write c start len = Ret (Some (c', b))
    ∧ (b = true ↔ in_bounds c start len ∧ ¬ taken Read c start len ∧ ¬ taken Write c start len)
    ∧ updated Write c c' (λ p, bit (words Write c) p || (b && bool_decide (start ≤ p < start + len))).
Proof.
  intros [Hwf Ht]. unfold acquire, begin_call. rewrite (range_end_spec c start len Ht). unfold in_bounds.
  assert (Hsame : ∀ b, (b = false ∨ len = 0) → updated Write c c (λ p, bit (words Write c) p || (b && bool_decide (start ≤ p < start + len)))).
  { intros b Hb. eapply updated_ext; [|by apply updated_refl]. intros p. destruct Hb as [-> | ->]; [by rewrite orb_false_r|].
    rewrite bool_decide_false by lia. by rewrite andb_false_r, orb_false_r. }
  case_decide as Hin; [|exists c, false; split; [by rewrite solo_finished|]; split; [by split; [|tauto]|apply Hsame; by left]].
  destruct (len =? 0) eqn:Hlen.
  { apply Nat.eqb_eq in Hlen. exists c, true. split; [by rewrite solo_finished|]. split; [|apply Hsame; by right].
    split; [intros _|done]. split; [done|]. split; intros (p & Hp & _); lia. }
  apply Nat.eqb_neq in Hlen. destruct (chunks_small c start (start + len) Hwf ltac:(lia)) as (Hc & Hl & Hnd).
  destruct (solo_write start (start + len) ltac:(lia) (chunks_of start (start + len)) [] c (enough c) Hwf Hc) as (c' & b & -> & Hb & Hu);
    [by intros i m ?%not_elem_of_nil|done|done|unfold enough; cbn [length]; lia|].
  exists c', b. split; [by destruct b|]. rewrite <- !taken_some_bit in Hb. split; [rewrite Hb; tauto|].
  eapply updated_ext; [|exact Hu]. intros p. cbn beta. destruct b; [by rewrite covers_chunks|]. by rewrite covers_nil, andb_true_r, orb_false_r.
Qed.

(** Getting a range for reading, alone: granted exactly when the range is in bounds and no
    element of it is written. A refused call clears the read bits of the range in all
    chunks before the first that has an element written. *)
Lemma acquire_read_spec c start len : sl_ok c →
  ∃ c' b, acquire Read c start len = Ret (Some (c', b))
    ∧ (b = true ↔ in_bounds c start len ∧ ¬ taken Write c start len)
    ∧ if b then updated Read c c' (λ p, bit (words Read c) p || bool_decide (start ≤ p < start + len))
      else ∃ l, updated Read c c' (λ p, bit (words Read c) p && negb (covers start (start + len) l p))
           ∧ (in_bounds c start len → ∃ i post, chunks_of start (start + len) = l ++ i :: post
                ∧ some_bit start (start + len) Write c [i] ∧ ¬ some_bit start (start + len) Write c l).
Proof.
  intros [Hwf Ht]. unfold acquire, begin_call. rewrite (range_end_spec c start len Ht). unfold in_bounds.
  case_decide as Hin.
  2:{ exists c, false. split; [by rewrite solo_finished|]. split; [by split; [|tauto]|]. exists []. split; [|done].
      eapply updated_ext; [|by apply updated_refl]. intros p. by rewrite covers_nil, andb_true_r. }
  destruct (len =? 0) eqn:Hlen.
  { apply Nat.eqb_eq in Hlen. exists c, true. split; [by rewrite solo_finished|]. split; [split; [intros _|done]; split; [done|]; intros (p & Hp & _); lia|].
    eapply updated_ext; [|by apply updated_refl]. intros p. rewrite bool_decide_false by lia. by rewrite orb_false_r. }
  apply Nat.eqb_neq in Hlen. destruct (chunks_small c start (start + len) Hwf ltac:(lia)) as (Hc & Hl & Hnd).
  destruct (solo_read start (start + len) ltac:(lia) (chunks_of start (start + len)) [] c (enough c) Hwf Hc) as (c' & b & -> & Hb);
    [by intros i m ?%not_elem_of_nil|done|done|unfold enough; cbn [length]; lia|].
  exists c', b. split; [by destruct b|]. destruct b.
  - destruct Hb as [Hb Hu]. split; [split; [|done]; by rewrite taken_some_bit|]. eapply updated_ext; [|exact Hu].
    intros p. cbn beta. by rewrite covers_chunks.
  - destruct Hb as (l & i & post & Heq & Hi & Hno & Hu). split.
    + split; [done|]. intros [_ Hnt]. exfalso. apply Hnt. rewrite taken_some_bit, Heq. destruct Hi as (p & Hp & Hb). exists p.
      rewrite covers_app, covers_cons, Hp. by rewrite orb_true_r.
    + exists l. split; [done|]. intros _. by exists i, post.
Qed.

(** Giving a range back clears its bits. *)
Lemma release_restores k c start len : sl_ok c →
  ∃ c', release k c start len = Ret (Some c')
    ∧ updated k c c' (λ p, bit (words k c) p && negb (bool_decide (in_bounds c start len ∧ start ≤ p < start + len))).
Proof.
  intros [Hwf Ht]. unfold release, begin_release. rewrite (range_end_spec c start len Ht). unfold in_bounds.
  assert (Hsame : (∀ p, ¬ (start + len ≤ sl_total_length c ∧ start ≤ p < start + len)) →
    updated k c c (λ p, bit (words k c) p && negb (bool_decide (start + len ≤ sl_total_length c ∧ start ≤ p < start + len)))).
  { intros Hno. eapply updated_ext; [|by apply updated_refl]. intros p. rewrite bool_decide_false by apply Hno. by rewrite andb_true_r. }
  case_decide as Hin; [|exists c; split; [by rewrite solo_finished|apply Hsame; lia]].
  destruct (len =? 0) eqn:Hlen; [apply Nat.eqb_eq in Hlen; exists c; split; [by rewrite solo_finished|apply Hsame; lia]|].
  apply Nat.eqb_neq in Hlen. destruct (chunks_small c start (start + len) Hwf ltac:(lia)) as (Hc & Hl & Hnd).
  destruct (solo_clear start (start + len) ltac:(lia) k (chunks_of start (start + len)) c (enough c) Hwf Hc) as (c' & -> & Hu);
    [done|unfold enough; lia|].
  exists c'. split; [done|]. eapply updated_ext; [|exact Hu]. intros p. cbn beta. rewrite covers_chunks. do 2 f_equal.
  apply bool_decide_ext. tauto.
Qed.

(** [is_range_borrowed] and [can_read_range] look at the write bits. *)
Lemma range_written_spec c s e : sl_wf c → s < e ≤ sl_total_length c →
  ∃ b, range_written c s e = Ret b ∧ (b = true ↔ some_bit s e Write c (chunks_of s e)).
Proof.
  intros Hwf Hse. destruct (chunks_small c s e Hwf Hse) as (Hc & _ & _). unfold range_written.
  assert (Hgen : ∀ l, (∀ i, i ∈ l → i ∈ chunks_of s e) → ∃ b, anyM (λ i, let mask := mask_for_chunk s e i in
      if (mask =? 0)%Z then Ret false else let! w := vec_get (sl_write_chunks c) i in Ret (negb (Z.land w mask =? 0)%Z)) l = Ret b
      ∧ (b = true ↔ some_bit s e Write c l)); [|by apply Hgen].
  induction l as [|i l IH]; intros Hl; cbn [anyM]; [exists false; split; [done|]; by split; [|intros ?%no_bit_nil]|].
  assert (Hi : i ∈ chunks_of s e) by (apply Hl; left). rewrite mask_nonzero by (done || apply Hse).
  destruct (tested s e Write c i Hwf Hc Hi) as (w & Hw & _ & Hb). cbn [words] in Hw. rewrite Hw. cbn [run_bind].
  destruct IH as (b & Hall & Hb'); [intros j Hj; apply Hl; by right|]. destruct (negb (Z.land w _ =? 0)%Z) eqn:Hneg.
  - exists true. split; [done|]. rewrite some_bit_cons. split; [intros _; left; by apply Hb|done].
  - exists b. split; [exact Hall|]. rewrite some_bit_cons, Hb'. split; [by right|]. intros [Hx%Hb|?]; [congruence|done].
Qed.

Lemma can_read_range_spec c start len : sl_ok c → ∃ b, can_read_range c start len = Ret b ∧ (b = true ↔ in_bounds c start len ∧ ¬ taken Write c start len).
Proof.
  intros [Hwf Ht]. unfold can_read_range. rewrite (range_end_spec c start len Ht). unfold in_bounds.
  case_decide as Hin; [|exists false; split; [done|]; by split; [|intros [? _]]]. destruct (len =? 0) eqn:Hl.
  - apply Nat.eqb_eq in Hl. exists true. split; [done|]. split; [intros _; split; [done|]; intros (p & Hp & _); lia|done].
  - apply Nat.eqb_neq in Hl. destruct (range_written_spec c start (start + len) Hwf ltac:(lia)) as (b & -> & Hb).
    exists (negb b). split; [done|]. rewrite taken_some_bit, <- Hb, negb_true_iff. destruct b; split; [done|by intros [_ []]|by split|done].
Qed.

(** The bits after a range was set and cleared again. *)
Lemma given_back c c' start len p : sl_total_length c' = sl_total_length c → in_bounds c start len ∧ ¬ taken Read c start len ∧ ¬ taken Write c start len →
  (bit (words Write c) p || bool_decide (start ≤ p < start + len)) && negb (bool_decide (in_bounds c' start len ∧ start ≤ p < start + len))
  = bit (words Write c) p.
Proof.
  intros Ht (Hin & _ & Hfree). assert (Hin' : in_bounds c' start len) by (unfold in_bounds; by rewrite Ht).
  destruct (bool_decide_reflect (start ≤ p < start + len)) as [Hp|Hp].
  - rewrite (bool_decide_true (_ ∧ _)) by done. rewrite orb_true_r. symmetry. apply not_true_iff_false. intros Hx. apply Hfree. by exists p.
  - rewrite (bool_decide_false (_ ∧ _)) by tauto. by rewrite orb_false_r, andb_true_r.
Qed.

(** A range taken at another type either makes whole elements, or is given back. *)
Lemma sliced_get_spec size_u size_t c start len : sl_ok c → 0 < size_u →
  ∃ c' o, sliced_get Write size_u size_t c start len = Ret (Some (c', o))
    ∧ match o with
      | Some n => n * size_t = len * size_u ∧ acquire Write c start len = Ret (Some (c', true))
      | None => ∀ k p, bit (words k c') p = bit (words k c) p
      end.
Proof.
  intros Hok Hu0. unfold sliced_get. destruct (acquire_write_spec c start len Hok) as (c' & b & Hacq & Hb & Hu). rewrite Hacq. cbn [run_bind].
  destruct b.
  2:{ exists c', None. split; [done|]. intros [] p; [by rewrite (up_bits _ _ _ _ Hu), orb_false_r|by rewrite (up_other _ _ _ _ Hu)]. }
  destruct (size_t =? 0) eqn:Ht; cbn [orb]; [|destruct (len * size_u mod size_t =? 0) eqn:Hmod; cbn [negb]].
  2:{ apply Nat.eqb_neq in Ht. apply Nat.eqb_eq in Hmod. eexists c', (Some _). split; [done|]. split; [|done].
      pose proof (Nat.div_mod_eq (len * size_u) size_t). lia. }
  all: assert (Hok' : sl_ok c') by (split; [apply Hu|rewrite (up_total _ _ _ _ Hu); apply Hok]);
    destruct (release_restores Write c' start len Hok') as (c3 & -> & Hu3); cbn [run_bind]; exists c3, None; (split; [done|]);
    intros [] p; [|by rewrite (up_other _ _ _ _ Hu3), (up_other _ _ _ _ Hu)];
    rewrite (up_bits _ _ _ _ Hu3), (up_bits _ _ _ _ Hu); cbn [andb];
    apply (given_back c c' start len p (up_total _ _ _ _ Hu)); by apply Hb.
Qed.

(** What a single caller finds, when no other call is under way. A range is granted for
    writing when it is in bounds and none of its elements is lent; from then on every call
    for an overlapping range, for reading or writing, is refused and leaves the write bits;
    and when the guard is dropped every bit is as it was before. *)
Theorem held_range_excludes (c : SlicedContainer) (start len : nat) (Hok : sl_ok c)
    (Hin : in_bounds c start len) (Hfree : ∀ k, ¬ taken k c start len) :
  ∃ c', acquire Write c start len = Ret (Some (c', true))
  ∧ (∀ k s l, (∃ p, start ≤ p < start + len ∧ s ≤ p < s + l) →
       ∃ c2, acquire k c' s l = Ret (Some (c2, false)) ∧ ∀ p, bit (words Write c2) p = bit (words Write c') p)
  ∧ ∃ c3, release Write c' start len = Ret (Some c3) ∧ ∀ k p, bit (words k c3) p = bit (words k c) p.
Proof.
  destruct (acquire_write_spec c start len Hok) as (c' & b & Hacq & Hb & Hu).
  assert (b = true) as -> by (apply Hb; split; [done|]; split; apply Hfree).
  assert (Hok' : sl_ok c') by (split; [apply Hu|]; rewrite (up_total _ _ _ _ Hu); apply Hok).
  assert (Hbits : ∀ p, start ≤ p < start + len → bit (words Write c') p = true).
  { intros p Hp. rewrite (up_bits _ _ _ _ Hu), bool_decide_true by done. by rewrite orb_true_r. }
  exists c'. split; [done|]. split.
  - intros k s l (p & Hp & Hq). assert (Ht : taken Write c' s l) by (exists p; auto). destruct k.
    + destruct (acquire_write_spec c' s l Hok') as (c2 & b & H2 & Hb2 & Hu2). assert (b = false) as -> by (destruct b; [|done]; by destruct (proj1 Hb2 eq_refl) as (_ & _ & ?)).
      exists c2. split; [done|]. intros q. rewrite (up_bits _ _ _ _ Hu2). apply orb_false_r.
    + destruct (acquire_read_spec c' s l Hok') as (c2 & b & H2 & Hb2 & Hu2). assert (b = false) as -> by (destruct b; [|done]; by destruct (proj1 Hb2 eq_refl) as (_ & ?)).
      exists c2. split; [done|]. destruct Hu2 as (l' & Hu2 & _). intros q. by rewrite (up_other _ _ _ _ Hu2 Write).
  - destruct (release_restores Write c' start len Hok') as (c3 & H3 & Hu3). exists c3. split; [done|]. intros [] p.
    + rewrite (up_bits _ _ _ _ Hu3), (up_bits _ _ _ _ Hu). apply (given_back c c' start len p (up_total _ _ _ _ Hu)). by split_and!.
    + by rewrite (up_other _ _ _ _ Hu3), (up_other _ _ _ _ Hu).
Qed.

Lemma held_range_excludes_witness : ∃ c', acquire Write (SlicedContainer_new 100) 60 10 = Ret (Some (c', true))
  ∧ ∃ c2, acquire Read c' 69 5 = Ret (Some (c2, false)) ∧ ∀ p, bit (words Write c2) p = bit (words Write c') p.
Proof.
  destruct (held_range_excludes (SlicedContainer_new 100) 60 10) as (c' & Hacq & Hex & _).
  - split; [apply sliced_new_wf|done].
  - cbn. unfold in_bounds. cbn. lia.
  - intros k (p & _ & Hp). by rewrite new_bits in Hp.
  - exists c'. split; [exact Hacq|]. apply Hex. exists 69. lia.
Defined.

(** Two readers of a range share its bits: when one of them gives the range back, a writer
    gets it while the other still reads. *)
Theorem reader_release_frees_other (c : SlicedContainer) (start len : nat) (Hok : sl_ok c)
    (Hin : in_bounds c start len) (Hfree : ∀ k, ¬ taken k c start len) :
  ∃ c1 c2 c3 c4, acquire Read c start len = Ret (Some (c1, true)) ∧ acquire Read c1 start len = Ret (Some (c2, true))
  ∧ release Read c2 start len = Ret (Some c3) ∧ acquire Write c3 start len = Ret (Some (c4, true)).
Proof.
  assert (Hread : ∀ c, sl_ok c → in_bounds c start len → ¬ taken Write c start len → ∃ c', acquire Read c start len = Ret (Some (c', true))
    ∧ sl_ok c' ∧ in_bounds c' start len ∧ ¬ taken Write c' start len).
  { intros d Hd Hdin Hdw. destruct (acquire_read_spec d start len Hd) as (d' & b & Hacq & Hb & Hu). assert (b = true) as -> by (by apply Hb).
    exists d'. split; [done|]. split; [split; [apply Hu|rewrite (up_total _ _ _ _ Hu); apply Hd]|].
    split; [unfold in_bounds; by rewrite (up_total _ _ _ _ Hu)|]. unfold taken. by rewrite (up_other _ _ _ _ Hu Write). }
  destruct (Hread c Hok Hin (Hfree Write)) as (c1 & H1 & Hok1 & Hin1 & Hw1). destruct (Hread c1 Hok1 Hin1 Hw1) as (c2 & H2 & Hok2 & Hin2 & Hw2).
  destruct (release_restores Read c2 start len Hok2) as (c3 & H3 & Hu3).
  assert (Hok3 : sl_ok c3) by (split; [apply Hu3|rewrite (up_total _ _ _ _ Hu3); apply Hok2]).
  destruct (acquire_write_spec c3 start len Hok3) as (c4 & b & H4 & Hb & _). assert (b = true) as ->.
  { apply Hb. split; [unfold in_bounds; by rewrite (up_total _ _ _ _ Hu3)|]. split.
    - intros (p & Hp & Hbit). rewrite (up_bits _ _ _ _ Hu3), (bool_decide_true (_ ∧ _)) in Hbit by done. by rewrite andb_false_r in Hbit.
    - unfold taken. by rewrite (up_other _ _ _ _ Hu3 Write). }
  by exists c1, c2, c3, c4.
Qed.

Lemma reader_release_frees_other_witness : ∃ c1 c2 c3 c4, acquire Read (SlicedContainer_new 8) 2 4 = Ret (Some (c1, true))
  ∧ acquire Read c1 2 4 = Ret (Some (c2, true)) ∧ release Read c2 2 4 = Ret (Some c3) ∧ acquire Write c3 2 4 = Ret (Some (c4, true)).
Proof.
  apply (reader_release_frees_other (SlicedContainer_new 8) 2 4).
  - split; [apply sliced_new_wf|done].
  - unfold in_bounds. cbn. lia.
  - intros k (p & _ & Hp). by rewrite new_bits in Hp.
Defined.
