(* ===== verification/SlicedConc.v ===== *)
(** Concurrent borrows of a sliced container.

    Any number of callers get and give back ranges, step by step in any order. Two callers
    that hold ranges for writing never share an element. The read bits give no such
    guarantee; they are neither counted nor set together with the test of the write bits. *)
From S2P Require Import Prelude Sliced.

(** A caller: its range, and where its last call is. *)
Record Holder := mkHolder { ho_start : nat; ho_end : nat; ho_call : call }.

Definition new_holder (k : kind) (c : SlicedContainer) (start len : nat) : Holder :=
  let (e, p) := begin_call k c start len in mkHolder start e p.

(** The guard of a caller is dropped. *)
Definition drop_guard (k : kind) (c : SlicedContainer) (h : Holder) : Holder :=
  let (e, p) := begin_release k c (ho_start h) (ho_end h - ho_start h) in mkHolder (ho_start h) e p.

Inductive sliced_step : SlicedContainer * list Holder → SlicedContainer * list Holder → Prop :=
  | ss_begin c hs k start len : sliced_step (c, hs) (c, hs ++ [new_holder k c start len])
  | ss_call c hs i h c' p' : hs !! i = Some h → call_step (ho_start h) (ho_end h) c (ho_call h) = Ret (c', p') →
      sliced_step (c, hs) (c', <[i := mkHolder (ho_start h) (ho_end h) p']> hs)
  | ss_drop c hs i h k : hs !! i = Some h → ho_call h = Granted k → sliced_step (c, hs) (c, <[i := drop_guard k c h]> hs).

(** ** Who has set which bit *)

(** The elements of a range in the given chunks. *)
Definition cells (s e : nat) (idxs : list nat) : list nat := filter (λ p, p / CHUNK_BITS ∈ idxs) (range s e).

Lemma elem_cells s e idxs p : p ∈ cells s e idxs ↔ covers s e idxs p = true.
Proof. unfold cells, covers. rewrite list_elem_of_filter, elem_of_range, bool_decide_eq_true. tauto. Qed.

Lemma cells_NoDup s e idxs : NoDup (cells s e idxs).
Proof. apply NoDup_filter, NoDup_range. Qed.

Lemma cells_app s e l1 l2 : (∀ i, i ∈ l1 → i ∉ l2) → cells s e (l1 ++ l2) ≡ₚ cells s e l1 ++ cells s e l2.
Proof.
  intros Hd. apply NoDup_Permutation; [apply cells_NoDup| |].
  - apply NoDup_app. split; [apply cells_NoDup|]. split; [|apply cells_NoDup].
    intros p H1%elem_cells H2%elem_cells. apply bool_decide_eq_true in H1 as [_ H1], H2 as [_ H2]. by apply (Hd _ H1).
  - intros p. by rewrite elem_of_app, !elem_cells, covers_app, orb_true_iff.
Qed.

(** The chunks whose write bits a caller has set. *)
Definition owned (h : Holder) : list nat :=
  match ho_call h with
  | WCheck _ acquired | WLoad _ acquired | WCas _ acquired _ | Undo Write acquired => acquired.*1
  | Granted Write => chunks_of (ho_start h) (ho_end h)
  | Clear Write todo => todo
  | _ => []
  end.
Definition write_cells (h : Holder) : list nat := cells (ho_start h) (ho_end h) (owned h).

(** A call in a range of the container: the chunks it has set and those it has left. *)
Definition chunks_ok (c : SlicedContainer) (h : Holder) (acquired : list (nat * Z)) (todo : list nat) : Prop :=
  ho_start h < ho_end h ≤ sl_total_length c ∧ masked (ho_start h) (ho_end h) acquired
  ∧ (∀ i, i ∈ todo → i ∈ chunks_of (ho_start h) (ho_end h)) ∧ NoDup (acquired.*1 ++ todo).

(** A call that has not been refused goes through all chunks. *)
Definition all_chunks (h : Holder) (acquired : list (nat * Z)) (todo : list nat) : Prop :=
  acquired.*1 ++ todo = chunks_of (ho_start h) (ho_end h).

Definition holder_ok (c : SlicedContainer) (h : Holder) : Prop :=
  match ho_call h with
  | WCheck todo acquired | RCheck todo acquired => chunks_ok c h acquired todo ∧ all_chunks h acquired todo
  | WLoad todo acquired | WCas todo acquired _ | ROr todo acquired => chunks_ok c h acquired todo ∧ all_chunks h acquired todo ∧ todo ≠ []
  | Undo _ acquired => chunks_ok c h acquired []
  | Clear _ todo => chunks_ok c h [] todo
  | Granted _ => ho_start h ≤ ho_end h ≤ sl_total_length c
  | Refused | Released => True
  end.

Record sliced_inv (s : SlicedContainer * list Holder) : Prop := {
  si_ok : sl_ok s.1;
  si_holders : Forall (holder_ok s.1) s.2;
  si_nodup : NoDup (s.2 ≫= write_cells);
  si_bits : ∀ p, bit (words Write s.1) p = true ↔ p ∈ s.2 ≫= write_cells;
}.

(** What a step of a caller does to the write bits. *)
Inductive effect (c c' : SlicedContainer) (h h' : Holder) : Prop :=
  | eff_none : words Write c' = words Write c → write_cells h' ≡ₚ write_cells h → effect c c' h h'
  | eff_set l : (∀ p, bit (words Write c') p = bit (words Write c) p || bool_decide (p ∈ l)) →
      (∀ p, p ∈ l → bit (words Write c) p = false) → NoDup l → write_cells h' ≡ₚ write_cells h ++ l → effect c c' h h'
  | eff_clear l : (∀ p, bit (words Write c') p = bit (words Write c) p && negb (bool_decide (p ∈ l))) →
      write_cells h ≡ₚ l ++ write_cells h' → effect c c' h h'.

Lemma covers_bool s e idxs p : bool_decide (p ∈ cells s e idxs) = covers s e idxs p.
Proof.
  destruct (covers s e idxs p) eqn:Hc; [by apply bool_decide_true, elem_cells|]. apply bool_decide_false. rewrite elem_cells. congruence.
Qed.

Section step.
Context (c : SlicedContainer) (Hok : sl_ok c).

Lemma ok_chunks h acquired todo : chunks_ok c h acquired todo → has_chunks (ho_start h) (ho_end h) c.
Proof. intros (Hse & _). by apply (chunks_small c _ _ (proj1 Hok)). Qed.

Lemma ok_snoc h acquired i todo : chunks_ok c h acquired (i :: todo) →
  chunks_ok c h (acquired ++ [(i, mask_for_chunk (ho_start h) (ho_end h) i)]) todo.
Proof.
  intros (Hse & Hm & Ht & Hnd). split; [done|]. split; [apply masked_app; [done|apply Ht; left]|].
  split; [intros j ?; apply Ht; by right|]. rewrite fmap_app. cbn. by rewrite <- app_assoc.
Qed.

Lemma ok_undo h acquired todo : chunks_ok c h acquired todo → chunks_ok c h acquired [].
Proof.
  intros (Hse & Hm & Ht & Hnd). split; [done|]. split; [done|]. split; [by intros i ?%not_elem_of_nil|].
  rewrite app_nil_r. by apply NoDup_app in Hnd as (? & _).
Qed.

(** The write bits of a chunk are set, or cleared. *)
Lemma set_effect h h' acquired i todo c' : chunks_ok c h acquired (i :: todo) → owned h = acquired.*1 →
  ho_start h' = ho_start h → ho_end h' = ho_end h → owned h' = acquired.*1 ++ [i] →
  ¬ some_bit (ho_start h) (ho_end h) Write c [i] →
  updated Write c c' (λ p, bit (words Write c) p || covers (ho_start h) (ho_end h) [i] p) → effect c c' h h'.
Proof.
  intros (_ & _ & _ & Hnd) Ho Es Ee Ho' Hno Hu. apply (eff_set _ _ _ _ (cells (ho_start h) (ho_end h) [i])).
  - intros p. rewrite (up_bits _ _ _ _ Hu). by rewrite covers_bool.
  - intros p Hp%elem_cells. apply not_true_iff_false. intros Hb. apply Hno. by exists p.
  - apply cells_NoDup.
  - unfold write_cells. rewrite Es, Ee, Ho, Ho'. apply cells_app. intros j Hj ->%list_elem_of_singleton.
    apply NoDup_app in Hnd as (_ & Hd & _). apply (Hd i Hj). left.
Qed.

Lemma clear_effect h h' i l c' : owned h = i :: l → i ∉ l → ho_start h' = ho_start h → ho_end h' = ho_end h → owned h' = l →
  updated Write c c' (λ p, bit (words Write c) p && negb (covers (ho_start h) (ho_end h) [i] p)) → effect c c' h h'.
Proof.
  intros Ho Hi Es Ee Ho' Hu. apply (eff_clear _ _ _ _ (cells (ho_start h) (ho_end h) [i])).
  - intros p. rewrite (up_bits _ _ _ _ Hu). by rewrite covers_bool.
  - unfold write_cells. rewrite Es, Ee, Ho, Ho'. apply (cells_app _ _ [i] l). by intros j ->%list_elem_of_singleton.
Qed.

Lemma all_snoc h acquired i m todo : all_chunks h acquired (i :: todo) → all_chunks h (acquired ++ [(i, m)]) todo.
Proof. unfold all_chunks. rewrite fmap_app, <- app_assoc. done. Qed.

(** What is to be shown of a step of [h] that leads to [r]. *)
Definition step_good (h : Holder) (r : run (SlicedContainer * call)) : Prop :=
  ∃ c' p', r = Ret (c', p')
  ∧ let h' := mkHolder (ho_start h) (ho_end h) p' in
    sl_wf c' ∧ sl_total_length c' = sl_total_length c ∧ holder_ok c h' ∧ effect c c' h h'.

(** A step that leaves the write bits and what the caller owns. *)
Lemma step_quiet h c' p' : sl_wf c' → sl_total_length c' = sl_total_length c → words Write c' = words Write c →
  holder_ok c (mkHolder (ho_start h) (ho_end h) p') → owned (mkHolder (ho_start h) (ho_end h) p') = owned h →
  step_good h (Ret (c', p')).
Proof.
  intros Hwf Ht Hw Hp' Ho. exists c', p'. split; [done|]. split; [done|]. split; [done|]. split; [done|]. apply eff_none; [done|].
  unfold write_cells. by rewrite Ho.
Qed.

(** A step that sets or clears the bits of [k] in one chunk. *)
Lemma step_words k h c' p' f : updated k c c' f → holder_ok c (mkHolder (ho_start h) (ho_end h) p') →
  (k = Write → effect c c' h (mkHolder (ho_start h) (ho_end h) p')) →
  (k = Read → owned (mkHolder (ho_start h) (ho_end h) p') = owned h) → step_good h (Ret (c', p')).
Proof.
  intros Hu Hp' Hw Hr. destruct k; [|apply step_quiet; [apply Hu|apply Hu|by apply (up_other _ _ _ _ Hu)|done|by apply Hr]].
  exists c', p'. split; [done|]. split; [apply Hu|]. split; [apply Hu|]. split; [done|]. by apply Hw.
Qed.

(** The steps of [sliced_data_mut]. *)
Lemma write_step_ok h todo acq cur : (ho_call h = WCheck todo acq ∨ ho_call h = WLoad todo acq ∨ ho_call h = WCas todo acq cur) →
  holder_ok c h → step_good h (call_step (ho_start h) (ho_end h) c (ho_call h)).
Proof.
  destruct Hok as [Hwf _]. intros Hcall Hh. unfold holder_ok in Hh.
  destruct Hcall as [Hp|[Hp|Hp]]; rewrite Hp in Hh |- *; cbn [call_step write_step read_step clear_step].
  - destruct Hh as [Hc Hall]. destruct todo as [|i todo].
    { apply step_quiet; [done..| |].
      - unfold holder_ok. cbn. destruct Hc as (Hse & _). lia.
      - unfold owned. cbn [ho_call ho_start ho_end]. rewrite Hp. unfold all_chunks in Hall. by rewrite app_nil_r in Hall. }
    assert (Hi : i ∈ chunks_of (ho_start h) (ho_end h)) by (apply Hc; left).
    rewrite mask_nonzero by (done || apply Hc).
    destruct (tested (ho_start h) (ho_end h) Read c i Hwf (ok_chunks h acq _ Hc) Hi) as (r & Hr & _). cbn [words] in Hr. rewrite Hr. cbn [run_bind].
    destruct (negb _); (apply step_quiet; [done..| |unfold owned; cbn; by rewrite Hp]); [exact (ok_undo h _ _ Hc)|done].
  - destruct Hh as (Hc & Hall & Hne). destruct todo as [|i todo]; [done|].
    destruct (tested (ho_start h) (ho_end h) Write c i Hwf (ok_chunks h acq _ Hc)) as (r & Hr & _); [apply Hc; left|].
    cbn [words] in Hr. rewrite Hr. cbn [run_bind]. apply step_quiet; [done..| |unfold owned; cbn; by rewrite Hp]. done.
  - destruct Hh as (Hc & Hall & Hne). destruct todo as [|i todo]; [done|].
    destruct (tested (ho_start h) (ho_end h) Write c i Hwf (ok_chunks h acq _ Hc)) as (r & Hr & _ & Hbit); [apply Hc; left|].
    destruct (negb (Z.land cur _ =? 0)%Z) eqn:Hcur; [apply step_quiet; [done..|exact (ok_undo h _ _ Hc)|unfold owned; cbn; by rewrite Hp]|].
    cbn [words] in Hr. rewrite Hr. cbn [run_bind]. destruct (r =? cur)%Z eqn:Heq.
    + apply Z.eqb_eq in Heq as ->. destruct (fetch_set_spec Write c i (ho_start h) (ho_end h) Hwf) as (c' & -> & Hu).
      { apply (ok_chunks h acq _ Hc), Hc. left. }
      cbn [run_bind]. apply (step_words _ _ _ _ _ Hu); [exact (conj (ok_snoc h _ _ _ Hc) (all_snoc h _ _ _ _ Hall))| |done]. intros _.
      eapply set_effect; [exact Hc|unfold owned; by rewrite Hp|done|done|unfold owned; cbn; by rewrite fmap_app| |exact Hu].
      intros Hx%Hbit. congruence.
    + apply step_quiet; [done..| |unfold owned; cbn; by rewrite Hp]. done.
Qed.

(** The steps of [acquire_read_range]. *)
Lemma read_step_ok h todo acq : (ho_call h = RCheck todo acq ∨ ho_call h = ROr todo acq) →
  holder_ok c h → step_good h (call_step (ho_start h) (ho_end h) c (ho_call h)).
Proof.
  destruct Hok as [Hwf _]. intros Hcall Hh. unfold holder_ok in Hh.
  destruct Hcall as [Hp|Hp]; rewrite Hp in Hh |- *; cbn [call_step write_step read_step clear_step].
  - destruct Hh as [Hc Hall]. destruct todo as [|i todo].
    { apply step_quiet; [done..| |unfold owned; cbn; by rewrite Hp]. unfold holder_ok. cbn. destruct Hc as (Hse & _). lia. }
    assert (Hi : i ∈ chunks_of (ho_start h) (ho_end h)) by (apply Hc; left).
    rewrite mask_nonzero by (done || apply Hc).
    destruct (tested (ho_start h) (ho_end h) Write c i Hwf (ok_chunks h acq _ Hc) Hi) as (r & Hr & _). cbn [words] in Hr. rewrite Hr. cbn [run_bind].
    destruct (negb _); (apply step_quiet; [done..| |unfold owned; cbn; by rewrite Hp]); [exact (ok_undo h _ _ Hc)|done].
  - destruct Hh as (Hc & Hall & Hne). destruct todo as [|i todo]; [done|].
    destruct (fetch_set_spec Read c i (ho_start h) (ho_end h) Hwf) as (c' & -> & Hu).
    { apply (ok_chunks h acq _ Hc), Hc. left. }
    cbn [run_bind]. apply (step_words _ _ _ _ _ Hu); [exact (conj (ok_snoc h _ _ _ Hc) (all_snoc h _ _ _ _ Hall))|done|].
    intros _. unfold owned. cbn. by rewrite Hp.
Qed.

(** The steps that clear bits. *)
Lemma clear_step_ok h k : (∃ acq, ho_call h = Undo k acq) ∨ (∃ todo, ho_call h = Clear k todo) →
  holder_ok c h → step_good h (call_step (ho_start h) (ho_end h) c (ho_call h)).
Proof.
  destruct Hok as [Hwf _]. intros [[acq Hp]|[todo Hp]] Hh; unfold holder_ok in Hh; rewrite Hp in Hh |- *; cbn [call_step write_step read_step clear_step].
  - destruct acq as [|[i m] acq]; [apply step_quiet; [done..|unfold owned; rewrite Hp; by destruct k]|].
    pose proof Hh as (Hse & Hm & _ & Hnd). destruct (Hm i m) as [-> Hi]; [left|].
    destruct (fetch_clear_spec k c i (ho_start h) (ho_end h) Hwf) as (c' & -> & Hu); [by apply (ok_chunks h _ _ Hh)|].
    rewrite app_nil_r in Hnd. cbn [fmap list_fmap fst] in Hnd. apply NoDup_cons in Hnd as [Hni Hnd].
    cbn [run_bind]. apply (step_words _ _ _ _ _ Hu).
    + split; [done|]. split; [intros j mj Hj; apply Hm; by right|]. split; [by intros j ?%not_elem_of_nil|by rewrite app_nil_r].
    + intros ->. eapply clear_effect; [unfold owned; by rewrite Hp|exact Hni|done..].
    + intros ->. unfold owned. cbn. by rewrite Hp.
  - destruct todo as [|i todo]; [apply step_quiet; [done..|unfold owned; rewrite Hp; by destruct k]|].
    pose proof Hh as (Hse & Hm & Ht & Hnd). assert (Hi : i ∈ chunks_of (ho_start h) (ho_end h)) by (apply Ht; left).
    rewrite mask_nonzero by (done || apply Hse).
    destruct (fetch_clear_spec k c i (ho_start h) (ho_end h) Hwf) as (c' & -> & Hu); [by apply (ok_chunks h _ _ Hh)|].
    cbn [fmap list_fmap app] in Hnd. apply NoDup_cons in Hnd as [Hni Hnd]. cbn [run_bind]. apply (step_words _ _ _ _ _ Hu).
    + split; [done|]. split; [done|]. split; [intros j Hj; apply Ht; by right|done].
    + intros ->. eapply clear_effect; [unfold owned; by rewrite Hp|exact Hni|done..].
    + intros ->. unfold owned. cbn. by rewrite Hp.
Qed.

(** A step of a caller returns, keeps what holds of it, and has one of the effects. *)
Lemma step_ok h : holder_ok c h → step_good h (call_step (ho_start h) (ho_end h) c (ho_call h)).
Proof.
  intros Hh. destruct (ho_call h) as [todo acq|todo acq|todo acq cur|todo acq|todo acq|k acq|k| |k todo|] eqn:Hp; rewrite <- Hp.
  1-2: apply (write_step_ok h todo acq 0%Z); auto.
  1: apply (write_step_ok h todo acq cur); auto.
  1-2: apply (read_step_ok h todo acq); auto.
  1, 4: eapply (clear_step_ok h k); eauto.
  all: rewrite Hp; cbn [call_step write_step read_step clear_step]; (apply step_quiet; [apply Hok|done|done| |unfold owned; cbn; by rewrite Hp]);
    unfold holder_ok in *; by rewrite Hp in Hh.
Qed.
End step.

(** ** Every reachable state *)

Lemma bind_at {A B} (f : A → list B) l i x y : l !! i = Some x →
  l ≫= f ≡ₚ f x ++ (delete i l ≫= f) ∧ <[i := y]> l ≫= f ≡ₚ f y ++ (delete i l ≫= f).
Proof.
  intros Hi. pose proof (lookup_lt_Some _ _ _ Hi) as Hlt. rewrite delete_take_drop, bind_app. split.
  - rewrite <- (take_drop_middle l i x Hi) at 1. rewrite bind_app, bind_cons. solve_Permutation.
  - rewrite insert_take_drop by done. rewrite bind_app, bind_cons. solve_Permutation.
Qed.

Lemma holder_ok_total c c' h : sl_total_length c' = sl_total_length c → holder_ok c h → holder_ok c' h.
Proof. intros Ht. unfold holder_ok, chunks_ok. by rewrite Ht. Qed.

(** A step of one caller with a good effect keeps the invariant. *)
Lemma effect_inv c c' hs i h h' : sliced_inv (c, hs) → hs !! i = Some h → sl_wf c' → sl_total_length c' = sl_total_length c →
  holder_ok c h' → effect c c' h h' → sliced_inv (c', <[i := h']> hs).
Proof.
  intros [Hok Hh Hnd Hb] Hi Hwf Ht Hh' He. cbn [fst snd] in *. destruct (bind_at write_cells hs i h h' Hi) as [P1 P2].
  setoid_rewrite P1 in Hb. rewrite P1 in Hnd. split; cbn [fst snd].
  - split; [done|]. rewrite Ht. apply Hok.
  - apply Forall_insert; [|by eapply holder_ok_total]. eapply Forall_impl; [exact Hh|]. intros. by eapply holder_ok_total.
  - rewrite P2. destruct He as [_ E|l _ Hl Hl' E|l _ E].
    + by rewrite E.
    + rewrite E, <- app_assoc, (Permutation_app_comm l), app_assoc. apply NoDup_app. split; [done|]. split; [|done].
      intros p Hp Hpl. apply Hb in Hp. by rewrite (Hl p Hpl) in Hp.
    + rewrite E, <- app_assoc in Hnd. by apply NoDup_app in Hnd as (_ & _ & ?).
  - intros p. rewrite P2. destruct He as [Hw E|l Hw Hl Hl' E|l Hw E].
    + by rewrite Hw, E, Hb.
    + rewrite Hw, E, orb_true_iff, Hb, bool_decide_eq_true, !elem_of_app. tauto.
    + rewrite Hw, andb_true_iff, Hb, negb_true_iff, bool_decide_eq_false. rewrite E, <- app_assoc in Hnd |- *. apply NoDup_app in Hnd as (_ & Hd & _).
      pose proof (Hd p). rewrite (elem_of_app l). tauto.
Qed.

(** A caller before its first step owns nothing. *)
Lemma new_holder_ok k c start len : sl_ok c → holder_ok c (new_holder k c start len) ∧ write_cells (new_holder k c start len) = [].
Proof.
  intros [Hwf Ht]. unfold new_holder, begin_call. rewrite (range_end_spec c start len Ht). case_decide as Hin.
  2:{ split; [done|]. apply elem_of_nil_inv. intros p ?%elem_cells. unfold covers, owned in *. cbn in *. case_bool_decide; [lia|done]. }
  destruct (len =? 0) eqn:Hl.
  { apply Nat.eqb_eq in Hl as ->. split; [unfold holder_ok; cbn; lia|]. apply elem_of_nil_inv. intros p Hp%elem_cells%bool_decide_eq_true. cbn in Hp. lia. }
  apply Nat.eqb_neq in Hl. destruct (chunks_small c start (start + len) Hwf ltac:(lia)) as (_ & _ & Hnd).
  assert (Hc : chunks_ok c (mkHolder start (start + len) Released) [] (chunks_of start (start + len))).
  { split; [cbn; lia|]. split; [by intros ?? ?%not_elem_of_nil|]. by split. }
  split; [destruct k; (split; [exact Hc|done])|]. apply elem_of_nil_inv. intros p Hp%elem_cells. by destruct k; rewrite covers_nil in Hp.
Qed.

Lemma drop_effect k c h : sl_ok c → holder_ok c h → ho_call h = Granted k → holder_ok c (drop_guard k c h) ∧ effect c c h (drop_guard k c h).
Proof.
  intros [Hwf Ht] Hh Hp. unfold holder_ok in Hh. rewrite Hp in Hh. unfold drop_guard, begin_release. rewrite (range_end_spec c _ _ Ht).
  rewrite decide_True by lia. replace (ho_start h + (ho_end h - ho_start h)) with (ho_end h) by lia. destruct (_ =? 0) eqn:Hl.
  - apply Nat.eqb_eq in Hl. split; [done|]. apply eff_none; [done|].
    assert (Hn : ∀ q, write_cells (mkHolder (ho_start h) (ho_end h) q) = []).
    { intros q. apply elem_of_nil_inv. intros p Hx%elem_cells%bool_decide_eq_true. cbn in Hx. lia. }
    destruct h as [s e q]. by rewrite !Hn.
  - apply Nat.eqb_neq in Hl. destruct (chunks_small c (ho_start h) (ho_end h) Hwf ltac:(lia)) as (_ & _ & Hnd).
    split; [split; [cbn [ho_start ho_end]; lia|]; split; [by intros ?? ?%not_elem_of_nil|]; by split|]. apply eff_none; [done|].
    unfold write_cells, owned. cbn [ho_call ho_start ho_end]. rewrite Hp. by destruct k.
Qed.

Lemma sliced_step_inv s s' : sliced_inv s → sliced_step s s' → sliced_inv s'.
Proof.
  intros Hinv Hstep. destruct Hstep as [c hs k start len|c hs i h c' p' Hi Hs|c hs i h k Hi Hp].
  - destruct (new_holder_ok k c start len (si_ok _ Hinv)) as [Hh Hw]. destruct Hinv as [Hok Hall Hnd Hb]. cbn [fst snd] in *.
    assert (E : (hs ++ [new_holder k c start len]) ≫= write_cells = hs ≫= write_cells).
    { rewrite bind_app, bind_cons, Hw. cbn. by rewrite !app_nil_r. }
    split; cbn [fst snd]; rewrite ?E; try done. apply Forall_app. split; [done|]. by apply Forall_singleton.
  - pose proof (Forall_lookup_1 _ _ _ _ (si_holders _ Hinv) Hi) as Hh.
    destruct (step_ok c (si_ok _ Hinv) h Hh) as (c1 & p1 & E & Hwf & Ht & Hh' & He). rewrite Hs in E. injection E as <- <-.
    by eapply effect_inv.
  - pose proof (Forall_lookup_1 _ _ _ _ (si_holders _ Hinv) Hi) as Hh.
    destruct (drop_effect k c h (si_ok _ Hinv) Hh Hp) as [Hh' He]. eapply effect_inv; try done. apply (si_ok _ Hinv).
Qed.

Lemma sliced_reach_inv n s : (Z.of_nat n < two64)%Z → rtc sliced_step (SlicedContainer_new n, []) s → sliced_inv s.
Proof.
  intros Hn Hr. assert (H0 : sliced_inv (SlicedContainer_new n, [])).
  { split; [split; [apply sliced_new_wf|done]|constructor|constructor|]. intros p. cbn [fst snd].
    rewrite new_bits. split; [done|by intros ?%not_elem_of_nil]. }
  induction Hr as [|s1 s2 s3 Hs _ IH]; [done|]. by apply IH, sliced_step_inv with s1.
Qed.

(** C36. Any number of callers that get and give back ranges of one container, in any
    interleaving of their atomic operations. No call panics. Two callers that hold ranges
    for writing at the same time never share an element; the write bits are exactly those
    of the callers that hold them or are about to set or clear them, so that when no call
    is under way and nothing is held for writing, no bit is left. *)
Theorem writers_exclusive (n : nat) (c : SlicedContainer) (hs : list Holder) (Hn : (Z.of_nat n < two64)%Z)
    (Hreach : rtc sliced_step (SlicedContainer_new n, []) (c, hs)) :
  (∀ i h, hs !! i = Some h → ∃ c' p', call_step (ho_start h) (ho_end h) c (ho_call h) = Ret (c', p'))
  ∧ (∀ i j h h' p, hs !! i = Some h → hs !! j = Some h' → i ≠ j → ho_call h = Granted Write → ho_call h' = Granted Write →
       ¬ (ho_start h ≤ p < ho_end h ∧ ho_start h' ≤ p < ho_end h'))
  ∧ (∀ i h p, hs !! i = Some h → ho_call h = Granted Write → ho_start h ≤ p < ho_end h → bit (words Write c) p = true)
  ∧ ((∀ h, h ∈ hs → ho_call h = Refused ∨ ho_call h = Released ∨ ho_call h = Granted Read) → ∀ p, bit (words Write c) p = false).
Proof.
  destruct (sliced_reach_inv n _ Hn Hreach) as [Hok Hall Hnd Hb]. cbn [fst snd] in *.
  assert (Hcells : ∀ h p, ho_call h = Granted Write → ho_start h ≤ p < ho_end h → p ∈ write_cells h).
  { intros h p Hp Hin. apply elem_cells. unfold owned. rewrite Hp, covers_chunks. by apply bool_decide_true. }
  split; [|split; [|split]].
  - intros i h Hi. destruct (step_ok c Hok h (Forall_lookup_1 _ _ _ _ Hall Hi)) as (c' & p' & E & _). by exists c', p'.
  - intros i j h h' p Hi Hj Hij Hp Hp' [H1 H2]. destruct (bind_at write_cells hs i h h Hi) as [P _]. rewrite P in Hnd.
    apply NoDup_app in Hnd as (_ & Hd & _). apply (Hd p); [by apply Hcells|]. apply list_elem_of_bind. exists h'. split; [by apply Hcells|].
    apply list_elem_of_lookup. destruct (decide (j < i)); [exists j; by rewrite list_lookup_delete_lt|].
    exists (j - 1). rewrite list_lookup_delete_ge by lia. by replace (S (j - 1)) with j by lia.
  - intros i h p Hi Hp Hin. apply Hb, list_elem_of_bind. exists h. split; [by apply Hcells|by eapply list_elem_of_lookup_2].
  - intros Hidle p. apply not_true_iff_false. rewrite Hb, list_elem_of_bind. intros (h & Hc%elem_cells & Hin).
    unfold owned in Hc. destruct (Hidle h Hin) as [Hp|[Hp|Hp]]; rewrite Hp, covers_nil in Hc; done.
Qed.

(** ** Runs *)

(** What happens next: a new caller, a step of one, or the drop of its guard. *)
Inductive sliced_event := New (k : kind) (start len : nat) | Step (i : nat) | Drop (i : nat).

Definition event_step (s : SlicedContainer * list Holder) (ev : sliced_event) : run (SlicedContainer * list Holder) :=
  let (c, hs) := s in
  match ev with
  | New k start len => Ret (c, hs ++ [new_holder k c start len])
  | Step i =>
      let! h := vec_get hs i in
      let! (c', p') := call_step (ho_start h) (ho_end h) c (ho_call h) in
      Ret (c', <[i := mkHolder (ho_start h) (ho_end h) p']> hs)
  | Drop i =>
      let! h := vec_get hs i in
      match ho_call h with Granted k => Ret (c, <[i := drop_guard k c h]> hs) | _ => Panic end
  end.
Definition sliced_run (n : nat) (evs : list sliced_event) : run (SlicedContainer * list Holder) :=
  foldM event_step (SlicedContainer_new n, []) evs.

Lemma events_reach evs : ∀ s s', foldM event_step s evs = Ret s' → rtc sliced_step s s'.
Proof.
  induction evs as [|ev evs IH]; intros [c hs] s'; cbn [foldM]; [by intros [= <-]|].
  intros ([c1 hs1] & He & Hr)%run_bind_Ret. apply IH in Hr. eapply rtc_l; [|exact Hr]. destruct ev as [k start len|i|i]; cbn [event_step] in He.
  - injection He as <- <-. apply ss_begin.
  - apply run_bind_Ret in He as (h & Hi%vec_get_Ret & He). apply run_bind_Ret in He as ([c' p'] & Hs & [= <- <-]). by eapply ss_call.
  - apply run_bind_Ret in He as (h & Hi%vec_get_Ret & He). destruct (ho_call h) as [| | | | | |k| | |] eqn:Hp; try done.
    injection He as <- <-. by eapply ss_drop.
Qed.

(** Two writers of neighbouring ranges in one word: the second loses its first
    compare-and-swap and tries again. *)
Definition neighbours : list sliced_event :=
  [New Write 0 10; New Write 10 10; Step 0; Step 1; Step 0; Step 1; Step 0; Step 1; Step 1; Step 0; Step 1].

Lemma writers_exclusive_witness : ∃ c h h', sliced_run 64 neighbours = Ret (c, [h; h'])
  ∧ ho_call h = Granted Write ∧ ho_call h' = Granted Write
  ∧ (∀ p, ho_start h ≤ p < ho_end h → bit (words Write c) p = true)
  ∧ ∀ p, ¬ (ho_start h ≤ p < ho_end h ∧ ho_start h' ≤ p < ho_end h').
Proof.
  destruct (sliced_run 64 neighbours) as [[c hs]|] eqn:Hrun; [|vm_compute in Hrun; discriminate Hrun].
  destruct (writers_exclusive 64 c hs eq_refl (events_reach _ _ _ Hrun)) as (_ & Hex & Hbit & _).
  vm_compute in Hrun. injection Hrun as <- <-. do 3 eexists. split; [reflexivity|]. split; [reflexivity|]. split; [reflexivity|]. split.
  - intros p. by apply (Hbit 0).
  - intros p. by apply (Hex 0 1).
Defined.

(** ** What the read bits do not prevent *)

(** Two callers hold a common element, and one of them may write it. *)
Definition torn (s : SlicedContainer * list Holder) : Prop :=
  ∃ i j h h' p, s.2 !! i = Some h ∧ s.2 !! j = Some h' ∧ ho_call h = Granted Write ∧ ho_call h' = Granted Read
    ∧ ho_start h ≤ p < ho_end h ∧ ho_start h' ≤ p < ho_end h'.

(** A writer looks at the read bits and a reader at the write bits before either sets its own. *)
Definition crossing : list sliced_event := [New Write 0 4; New Read 0 4; Step 0; Step 1; Step 1; Step 1; Step 0; Step 0; Step 0].

(** A reader that is refused in the second word clears the bits of another reader in the first. *)
Definition undone : list sliced_event :=
  [New Read 0 64] ++ replicate 3 (Step 0) ++ [New Write 64 64] ++ replicate 4 (Step 1)
    ++ [New Read 0 128] ++ replicate 5 (Step 2) ++ [New Write 0 64] ++ replicate 4 (Step 3).

(** The read bits do not keep writers away. A writer and a reader of the same elements can
    both be granted, when each looks for the other's bits before either has set its own. And
    without any race, a reader that is refused because of a writer further on takes back bits
    that belong to another reader, after which a writer is granted what that one still reads. *)
Theorem readers_unprotected :
  (∃ s, sliced_run 64 crossing = Ret s ∧ rtc sliced_step (SlicedContainer_new 64, []) s ∧ torn s)
  ∧ (∃ s, sliced_run 128 undone = Ret s ∧ rtc sliced_step (SlicedContainer_new 128, []) s ∧ torn s
       ∧ ho_call <$> s.2 = [Granted Read; Granted Write; Refused; Granted Write]).
Proof.
  split.
  - destruct (sliced_run 64 crossing) as [s|] eqn:Hrun; [|vm_compute in Hrun; discriminate Hrun]. exists s. split; [done|].
    split; [by apply events_reach in Hrun|]. vm_compute in Hrun. injection Hrun as <-.
    exists 0, 1. do 2 eexists. exists 0. do 4 (split; [reflexivity|]). cbn. lia.
  - destruct (sliced_run 128 undone) as [s|] eqn:Hrun; [|vm_compute in Hrun; discriminate Hrun]. exists s. split; [done|].
    split; [by apply events_reach in Hrun|]. vm_compute in Hrun. injection Hrun as <-. split; [|reflexivity].
    exists 3, 0. do 2 eexists. exists 0. do 4 (split; [reflexivity|]). cbn. lia.
Qed.
