(* ===== verification/Float.v ===== *)
(** [f64]: IEEE 754 binary64 with rounding to nearest, by the specification of floating
    point numbers of the Standard Library ([SpecFloat]), as far as the time measurement of
    [tomii-core/src/time_buffer] uses it; and the laws its proofs need. *)
From S2P Require Import Prelude.
From Stdlib Require Import SpecFloat.

Abbreviation f64 := spec_float.

Definition PREC : Z := 53.
Definition EMAX : Z := 1024.

Declare Scope f64_scope.
Delimit Scope f64_scope with f64.

Definition f64_add : f64 → f64 → f64 := SFadd PREC EMAX.
Definition f64_sub : f64 → f64 → f64 := SFsub PREC EMAX.
Definition f64_mul : f64 → f64 → f64 := SFmul PREC EMAX.
Definition f64_div : f64 → f64 → f64 := SFdiv PREC EMAX.
Definition f64_sqrt : f64 → f64 := SFsqrt PREC EMAX.

Infix "+" := f64_add : f64_scope.
Infix "-" := f64_sub : f64_scope.
Infix "*" := f64_mul : f64_scope.
Infix "/" := f64_div : f64_scope.
Infix "<?" := SFltb : f64_scope.
Infix "<=?" := SFleb : f64_scope.

(** [n as f64] of an integer. *)
Definition f64_of_Z (n : Z) : f64 := binary_normalize PREC EMAX n 0 false.
(** [n as f64] of an index. *)
Definition f64_of_nat (n : nat) : f64 := f64_of_Z (Z.of_nat n).
(** The literal [n / 10 ^ k]. *)
Definition f64_lit (n : Z) (k : nat) : f64 := f64_div (f64_of_Z n) (f64_of_Z (10 ^ Z.of_nat k)).

Definition f64_is_nan (x : f64) : bool := match x with S754_nan => true | _ => false end.

(** The integer part of the absolute value, and that of its sum with a half. *)
Definition int_part (m : positive) (e : Z) : Z := if (0 <=? e)%Z then Z.shiftl (Zpos m) e else Z.shiftr (Zpos m) (- e).
Definition int_round (m : positive) (e : Z) : Z :=
  if (0 <=? e)%Z then Z.shiftl (Zpos m) e else Z.shiftr (Zpos m + Z.shiftl 1 (- e - 1)) (- e).

(** [x as u64] ([usize]): saturating, zero for NaN. *)
Definition f64_as_u64 (x : f64) : Z :=
  match x with
  | S754_finite false m e => Z.min u64_max (int_part m e)
  | S754_infinity false => u64_max
  | _ => 0
  end.

(** [x.round()]: half away from zero. *)
Definition f64_round (x : f64) : f64 :=
  match x with
  | S754_finite s m e =>
      if (0 <=? e)%Z then x
      else match int_round m e with Z0 => S754_zero s | Zpos n => binary_normalize PREC EMAX (if s then Zneg n else Zpos n) 0 s | Zneg _ => S754_nan end
  | _ => x
  end.

(** [a.max(b)]: the other one if one is NaN. *)
Definition f64_max (a b : f64) : f64 :=
  if f64_is_nan a then b else if f64_is_nan b then a else if SFltb a b then b else a.

(** [iter().sum()], from zero on. *)
Definition f64_sum (l : list f64) : f64 := foldl f64_add (S754_zero false) l.

(** [x.partial_cmp(y).unwrap()]. *)
Definition f64_cmp (x y : f64) : run comparison := unwrap (SFcompare x y).

(** ** Values as integers *)

(** A float that is not negative, in units of the least positive one; infinity is larger than all others. *)
Definition UNIT : Z := 1074.
Definition INF : Z := 2 ^ (EMAX + UNIT).

Definition nonneg (x : f64) : Prop :=
  match x with
  | S754_zero _ | S754_infinity false => True
  | S754_finite false m e => bounded PREC EMAX m e = true
  | _ => False
  end.
Definition value (x : f64) : Z :=
  match x with
  | S754_finite _ m e => Zpos m * 2 ^ (e + UNIT)
  | S754_infinity _ => INF
  | _ => 0
  end.

(** An integer rounded to 53 bits, to the nearest, to even in the middle. *)
Definition shift (n : Z) : Z := Z.max 0 (Z.log2 n - 52).
Definition rne (n : Z) : Z :=
  let p := (2 ^ shift n)%Z in
  let q := (n / p)%Z in
  let r := (n mod p)%Z in
  if (2 * r <? p)%Z || ((2 * r =? p)%Z && Z.even q) then (q * p)%Z else ((q + 1) * p)%Z.

Lemma rne_bounds n : (0 ≤ n)%Z →
  let p := (2 ^ shift n)%Z in (0 < p ∧ n / p * p ≤ rne n ≤ (n / p + 1) * p ∧ n / p < 2 ^ 53 ∧ (0 < shift n → 2 ^ 52 ≤ n / p))%Z.
Proof.
  intros Hn p. assert (Hp : (0 < p)%Z) by (apply Z.pow_pos_nonneg; unfold shift; lia). split; [done|].
  split; [unfold rne; fold p; destruct (_ || _); nia|].
  destruct (decide (n = 0)%Z) as [->|]; [subst p; unfold shift; cbn; split; [done|lia]|].
  pose proof (Z.log2_spec n ltac:(lia)) as [H1 H2]. pose proof (Z.log2_nonneg n). split.
  - apply Z.div_lt_upper_bound; [done|]. subst p. rewrite <- Z.pow_add_r by (unfold shift; lia).
    eapply Z.lt_le_trans; [exact H2|]. apply Z.pow_le_mono_r; unfold shift; lia.
  - intros Hs. apply Z.div_le_lower_bound; [done|]. subst p. rewrite <- Z.pow_add_r by (unfold shift; lia).
    etrans; [|exact H1]. apply Z.pow_le_mono_r; unfold shift in *; lia.
Qed.

Lemma rne_mono n n' : (0 ≤ n ≤ n')%Z → (rne n ≤ rne n')%Z.
Proof.
  intros Hn. destruct (rne_bounds n) as (Hp & [Hl Hu] & Hq & _); [lia|]. destruct (rne_bounds n') as (Hp' & [Hl' Hu'] & _ & Hq'); [lia|].
  assert (Hs : (shift n ≤ shift n')%Z) by (unfold shift; pose proof (Z.log2_le_mono n n'); lia).
  destruct (decide (shift n = shift n')) as [E|Hne].
  - unfold rne in *. rewrite <- E in *. set (p := (2 ^ shift n)%Z) in *. clearbody p.
    pose proof (Z.div_le_mono n n' p Hp ltac:(lia)) as Hqq. destruct (decide (n / p = n' / p)%Z) as [Eq|Hlt]; [|nia].
    rewrite Eq. pose proof (Z.div_mod n p ltac:(lia)). pose proof (Z.div_mod n' p ltac:(lia)). set (r := (n mod p)%Z) in *. set (r' := (n' mod p)%Z) in *.
    assert (r ≤ r')%Z by nia. set (q := (n' / p)%Z). assert (q * p ≤ (q + 1) * p)%Z by nia. destruct (Z.even q); rewrite ?andb_true_r, ?andb_false_r, ?orb_false_r.
    + destruct ((2 * r <? p)%Z || (2 * r =? p)%Z) eqn:E1, ((2 * r' <? p)%Z || (2 * r' =? p)%Z) eqn:E2; lia.
    + destruct (2 * r <? p)%Z eqn:E1, (2 * r' <? p)%Z eqn:E2; lia.
  - assert (E : (2 ^ shift n' = 2 ^ shift n * (2 * 2 ^ (shift n' - shift n - 1)))%Z).
    { rewrite <- Z.pow_succ_r, <- Z.pow_add_r by (unfold shift in *; lia). f_equal. lia. }
    assert (0 < 2 ^ (shift n' - shift n - 1))%Z by (apply Z.pow_pos_nonneg; lia).
    assert (2 ^ 52 ≤ n' / 2 ^ shift n')%Z by (apply Hq'; unfold shift in *; lia).
    set (p := (2 ^ shift n)%Z) in *. set (p' := (2 ^ shift n')%Z) in *. set (k := (2 ^ (shift n' - shift n - 1))%Z) in *. clearbody k.
    transitivity ((n / p + 1) * p)%Z; [done|]. transitivity (2 ^ 53 * p)%Z; [nia|]. transitivity (2 ^ 52 * p')%Z; [|nia].
    rewrite E. change (2 ^ 53)%Z with (2 ^ 52 * 2)%Z. set (h := (2 ^ 52)%Z) in *. assert (0 < h)%Z by done. clearbody h. nia.
Qed.

(** The number of digits of a mantissa. *)
Lemma digits_log2 m : Zpos (digits2_pos m) = (Z.log2 (Zpos m) + 1)%Z.
Proof.
  induction m as [m IH|m IH|]; cbn [digits2_pos]; [..|done]; rewrite Pos2Z.inj_succ, IH.
  - rewrite (Pos2Z.inj_xI m), Z.log2_succ_double by lia. lia.
  - rewrite (Pos2Z.inj_xO m), Z.log2_double by lia. lia.
Qed.

Lemma iter_pos_nat {A} (f : A → A) n x : iter_pos f n x = Nat.iter (Pos.to_nat n) f x.
Proof.
  revert x. induction n as [n IH|n IH|]; intros x; cbn [iter_pos]; [..|done].
  - rewrite !IH, <- Nat.iter_add, Pos2Nat.inj_xI. rewrite <- Nat.iter_succ_r. f_equal. lia.
  - rewrite !IH, <- Nat.iter_add, Pos2Nat.inj_xO. f_equal. lia.
Qed.

Lemma shr_1_spec m r s : (0 ≤ m)%Z → shr_1 (Build_shr_record m r s) = Build_shr_record (m / 2) (Z.odd m) (r || s).
Proof.
  intros Hm. rewrite <- Z.div2_div. by destruct m as [|[p|p|]|p].
Qed.

Lemma shr_iter m k : (0 ≤ m)%Z → Nat.iter (S k) shr_1 (Build_shr_record m false false) =
  Build_shr_record (m / 2 ^ Z.of_nat (S k)) (Z.odd (m / 2 ^ Z.of_nat k)) (negb (m mod 2 ^ Z.of_nat k =? 0)%Z).
Proof.
  intros Hm. induction k as [|k IH].
  - cbn [Nat.iter nat_rect]. rewrite shr_1_spec by done. cbn [Z.of_nat]. rewrite Z.pow_0_r, Z.mod_1_r, Z.div_1_r. done.
  - change (Nat.iter (S (S k)) shr_1 ?x) with (shr_1 (Nat.iter (S k) shr_1 x)). rewrite IH. rewrite shr_1_spec by (apply Z.div_pos; lia).
    rewrite Z.div_div by lia. assert (E : (2 ^ Z.of_nat (S (S k)) = 2 ^ Z.of_nat (S k) * 2)%Z) by (rewrite !Nat2Z.inj_succ, !Z.pow_succ_r; lia).
    f_equal; [by rewrite E|]. assert (E2 : (2 ^ Z.of_nat (S k) = 2 ^ Z.of_nat k * 2)%Z) by (rewrite Nat2Z.inj_succ, Z.pow_succ_r; lia).
    rewrite E2, Z.rem_mul_r by lia. set (a := (2 ^ Z.of_nat k)%Z). assert (Ha : (0 < a)%Z) by (apply Z.pow_pos_nonneg; lia).
    rewrite (Zmod_odd (m / a)). pose proof (Z.mod_pos_bound m a Ha). clearbody a. destruct (Z.odd (m / a)); cbn [orb negb]; lia.
Qed.

(** What is rounded after a shift by [k]. *)
Lemma round_shift m k : (0 ≤ m)%Z → (0 ≤ k)%Z →
  let '(mrs, e) := shr (Build_shr_record m false false) 0 k in
  e = k ∧ round_nearest_even (shr_m mrs) (loc_of_shr_record mrs) =
    (let p := 2 ^ k in if (2 * (m mod p) <? p) || ((2 * (m mod p) =? p) && Z.even (m / p)) then m / p else m / p + 1)%Z.
Proof.
  intros Hm Hk. destruct k as [|k|]; [| |done]; cbn [shr].
  { split; [done|]. cbn [shr_m loc_of_shr_record round_nearest_even]. change (2 ^ 0)%Z with 1%Z. by rewrite Z.mod_1_r, Z.div_1_r. }
  rewrite iter_pos_nat. destruct (Pos2Nat.is_succ k) as [n Hn]. rewrite Hn, shr_iter by done. split; [lia|].
  assert (E : (2 ^ Zpos k = 2 ^ Z.of_nat n * 2)%Z). { rewrite <- (positive_nat_Z k), Hn, Nat2Z.inj_succ, Z.pow_succ_r; lia. }
  assert (E' : (2 ^ Z.of_nat (S n) = 2 ^ Z.of_nat n * 2)%Z) by (rewrite Nat2Z.inj_succ, Z.pow_succ_r; lia).
  rewrite E, E'. clear E E'.
  set (a := (2 ^ Z.of_nat n)%Z) in *. assert (Ha : (0 < a)%Z) by (apply Z.pow_pos_nonneg; lia). clearbody a.
  rewrite (Z.rem_mul_r m a 2), (Zmod_odd (m / a)) by lia. pose proof (Z.mod_pos_bound m a Ha).
  cbn zeta. cbn [shr_m].
  destruct (Z.odd (m / a)), (m mod a =? 0)%Z eqn:E0; cbn [negb loc_of_shr_record round_nearest_even].
  all: destruct (Z.even (m / (a * 2))); repeat case_match; lia.
Qed.

Lemma shr_at mrs e k : (0 ≤ k)%Z → shr mrs e k = ((shr mrs 0 k).1, (e + (shr mrs 0 k).2)%Z).
Proof. destruct k; cbn; intros; try done. by rewrite Z.add_0_r. Qed.

(** The exponent of a number, from its value. *)
Lemma fexp_shift m e : (- UNIT ≤ e)%Z → (fexp PREC EMAX (Zpos (digits2_pos m) + e) + UNIT = shift (Zpos m * 2 ^ (e + UNIT)))%Z.
Proof.
  intros He. unfold fexp, emin, shift, PREC, EMAX, UNIT in *. rewrite digits_log2, <- Z.shiftl_mul_pow2, Z.log2_shiftl by lia. lia.
Qed.

(** The last step of rounding. *)
Definition finish (m e : Z) : f64 :=
  let '(mrs, e) := shr_fexp PREC EMAX m e loc_Exact in
  match shr_m mrs with Z0 => S754_zero false | Zpos q => if (e <=? EMAX - PREC)%Z then S754_finite false q e else S754_infinity false | Zneg _ => S754_nan end.

(** A rounded mantissa at its exponent becomes a float of its value. *)
Lemma finish_value m s : (0 < m ≤ 2 ^ 53)%Z → (0 ≤ s)%Z → (0 < s → 2 ^ 52 ≤ m)%Z →
  let x := finish m (s - UNIT) in
  nonneg x ∧ value x = Z.min INF (m * 2 ^ s).
Proof.
  intros Hm Hs Hn. unfold finish, shr_fexp. cbn [shr_record_of_loc]. destruct m as [|m|]; [lia| |lia]. cbn [Zdigits2].
  assert (Hfin : ∀ q e, (0 < s ∨ e = - UNIT → e = s - UNIT ∨ e = s - UNIT + 1)%Z → (Zpos q < 2 ^ 53)%Z → (- UNIT ≤ e)%Z → (- UNIT < e → 2 ^ 52 ≤ Zpos q)%Z → (Zpos q * 2 ^ (e + UNIT) = Zpos m * 2 ^ s)%Z →
    let x := if (e <=? EMAX - PREC)%Z then S754_finite false q e else S754_infinity false in nonneg x ∧ value x = Z.min INF (Zpos m * 2 ^ s)).
  { intros q e _ Hq He Hqn Hval. rewrite <- Hval. unfold INF, EMAX, PREC, UNIT in *. cbn zeta. destruct (e <=? 1024 - 53)%Z eqn:Hle.
    - apply Z.leb_le in Hle. split.
      + cbn [nonneg]. unfold bounded. apply andb_true_iff. split; [|by apply Z.leb_le]. unfold canonical_mantissa. apply Z.eqb_eq.
        unfold fexp, emin, PREC, EMAX. rewrite digits_log2. pose proof (Z.log2_lt_pow2 (Zpos q) 53 ltac:(lia)) as [Hl _]. specialize (Hl Hq).
        destruct (decide (e = -1074)%Z) as [->|]; [lia|]. pose proof (Z.log2_le_pow2 (Zpos q) 52 ltac:(lia)) as [Hl2 _]. specialize (Hl2 (Hqn ltac:(lia))). lia.
      + cbn [value]. rewrite Z.min_r; [done|]. transitivity (2 ^ 53 * 2 ^ (e + 1074))%Z; [apply Z.mul_le_mono_nonneg_r; [apply Z.pow_nonneg; lia|lia]|].
        rewrite <- Z.pow_add_r by lia. apply Z.pow_le_mono_r; lia.
    - apply Z.leb_gt in Hle. split; [done|]. cbn [value]. rewrite Z.min_l; [done|].
      transitivity (2 ^ 52 * 2 ^ (e + 1074))%Z; [rewrite <- Z.pow_add_r by lia; apply Z.pow_le_mono_r; lia|].
      apply Z.mul_le_mono_nonneg_r; [apply Z.pow_nonneg; lia|]. apply Hqn. lia. }
  pose proof (digits_log2 m) as Hd. destruct (decide (Zpos m = 2 ^ 53)%Z) as [E|Hne].
  - assert (Hd' : Zpos (digits2_pos m) = 54%Z) by (rewrite Hd, E, Z.log2_pow2; lia). rewrite Hd'.
    replace (fexp PREC EMAX (54 + (s - UNIT)) - (s - UNIT))%Z with 1%Z by (unfold fexp, emin, PREC, EMAX, UNIT; lia).
    rewrite E in *. cbn [shr]. cbn [iter_pos]. rewrite shr_1_spec by lia. cbn [shr_m]. change (2 ^ 53 / 2)%Z with (Zpos 4503599627370496).
    apply Hfin; unfold UNIT; try lia. replace (s - 1074 + 1 + 1074)%Z with (Z.succ s) by lia. rewrite Z.pow_succ_r by lia. change (2 ^ 53)%Z with (2 * 4503599627370496)%Z. lia.
  - pose proof (Z.log2_lt_pow2 (Zpos m) 53 ltac:(lia)) as [Hl _]. specialize (Hl ltac:(lia)).
    replace (fexp PREC EMAX (Zpos (digits2_pos m) + (s - UNIT)) - (s - UNIT))%Z with 0%Z.
    2:{ rewrite Hd. unfold fexp, emin, PREC, EMAX, UNIT. destruct (decide (s = 0)%Z) as [->|]; [lia|].
        pose proof (Z.log2_le_pow2 (Zpos m) 52 ltac:(lia)) as [Hl2 _]. specialize (Hl2 (Hn ltac:(lia))). lia. }
    cbn [shr shr_m]. apply Hfin; unfold UNIT in *; try lia. do 2 f_equal. lia.
Qed.

Lemma round_value m e : (- UNIT ≤ e)%Z → (e ≤ fexp PREC EMAX (Zpos (digits2_pos m) + e))%Z →
  let x := binary_round_aux PREC EMAX false (Zpos m) e loc_Exact in
  nonneg x ∧ value x = Z.min INF (rne (Zpos m * 2 ^ (e + UNIT))).
Proof.
  intros He Hf. set (n := (Zpos m * 2 ^ (e + UNIT))%Z). pose proof (fexp_shift m e He) as Hsh. fold n in Hsh.
  set (k := (fexp PREC EMAX (Zpos (digits2_pos m) + e) - e)%Z) in *. assert (Hk : (0 ≤ k)%Z) by lia.
  assert (Hpow : (2 ^ shift n = 2 ^ k * 2 ^ (e + UNIT))%Z) by (rewrite <- Z.pow_add_r by lia; f_equal; lia).
  assert (Ha : (0 < 2 ^ (e + UNIT))%Z) by (apply Z.pow_pos_nonneg; lia). assert (Hb : (0 < 2 ^ k)%Z) by (apply Z.pow_pos_nonneg; lia).
  assert (Hq : (n / 2 ^ shift n = Zpos m / 2 ^ k)%Z) by (subst n; rewrite Hpow, Z.div_mul_cancel_r by lia; done).
  assert (Hr : (n mod 2 ^ shift n = Zpos m mod 2 ^ k * 2 ^ (e + UNIT))%Z) by (subst n; rewrite Hpow, Z.mul_mod_distr_r by lia; done).
  assert (Eaux : binary_round_aux PREC EMAX false (Zpos m) e loc_Exact =
    let (mrs, e') := shr (Build_shr_record (Zpos m) false false) e k in finish (round_nearest_even (shr_m mrs) (loc_of_shr_record mrs)) e') by done.
  cbn zeta. rewrite Eaux, shr_at by done. clear Eaux.
  pose proof (round_shift (Zpos m) k ltac:(lia) Hk) as Hrd. destruct (shr _ 0 k) as [mrs k']. destruct Hrd as [-> Hrd]. cbn [fst snd].
  match type of Hrd with _ = ?x => set (m' := x) in Hrd end. rewrite Hrd.
  assert (Hm' : rne n = (m' * 2 ^ shift n)%Z).
  { unfold rne. rewrite Hq, Hr. subst m'. rewrite Hpow. cbn zeta. set (a := (2 ^ (e + UNIT))%Z) in *. set (b := (2 ^ k)%Z) in *. set (r := (Zpos m mod b)%Z).
    assert (E1 : (2 * (r * a) <? b * a)%Z = (2 * r <? b)%Z) by (apply eq_true_iff_eq; rewrite !Z.ltb_lt; nia).
    assert (E2 : (2 * (r * a) =? b * a)%Z = (2 * r =? b)%Z) by (apply eq_true_iff_eq; rewrite !Z.eqb_eq; nia).
    rewrite E1, E2. by destruct (_ || _). }
  destruct (rne_bounds n) as (Hp & [Hl Hu] & H53 & H52); [subst n; lia|].
  replace (e + k)%Z with (shift n - UNIT)%Z by lia. rewrite Hm'.
  assert (Hs0 : (0 ≤ shift n)%Z) by (unfold shift; lia). rewrite Hq in *.
  assert (Hm1 : (Zpos m / 2 ^ k ≤ m' ≤ Zpos m / 2 ^ k + 1)%Z) by (subst m'; cbn zeta; destruct (_ || _); lia).
  apply finish_value; [|done|intros; lia]. split; [|lia].
  destruct (decide (shift n = 0)%Z) as [E|]; [|lia]. assert (k = 0)%Z as Ek by (unfold UNIT in *; lia). rewrite Ek in Hm1. change (2 ^ 0)%Z with 1%Z in Hm1. rewrite Z.div_1_r in Hm1. lia.
Qed.

Lemma iter_xO m d : Zpos (Pos.iter xO m d) = (Zpos m * 2 ^ Zpos d)%Z.
Proof.
  rewrite Pos2Nat.inj_iter, <- (positive_nat_Z d). induction (Pos.to_nat d) as [|n IH]; cbn [Nat.iter nat_rect]; [by rewrite Z.mul_1_r|].
  rewrite Pos2Z.inj_xO. unfold Nat.iter in IH. rewrite IH, Nat2Z.inj_succ, Z.pow_succ_r by lia. lia.
Qed.

(** Moving a mantissa to a lower exponent. *)
Lemma shl_align_spec m e e' :
  let '(m', e1) := shl_align m e e' in e1 = Z.min e e' ∧ Zpos m' = (Zpos m * 2 ^ (e - e1))%Z.
Proof.
  unfold shl_align. destruct (e' - e)%Z as [|d|d] eqn:E; [split; [lia|]..|].
  - by rewrite Z.sub_diag, Z.pow_0_r, Z.mul_1_r.
  - by rewrite Z.sub_diag, Z.pow_0_r, Z.mul_1_r.
  - split; [lia|]. rewrite iter_xO. do 2 f_equal. lia.
Qed.

Lemma normalize_value m e s : (- UNIT ≤ e)%Z →
  let x := binary_normalize PREC EMAX (Zpos m) e s in nonneg x ∧ value x = Z.min INF (rne (Zpos m * 2 ^ (e + UNIT))).
Proof.
  intros He. cbn [binary_normalize]. unfold binary_round.
  pose proof (shl_align_spec m e (fexp PREC EMAX (Zpos (digits2_pos m) + e))) as Hs. destruct (shl_align _ _ _) as [m' e1]. destruct Hs as [-> Hm'].
  set (f := fexp PREC EMAX (Zpos (digits2_pos m) + e)) in *. assert (Hf : (- UNIT ≤ f)%Z) by (subst f; unfold fexp, emin, PREC, EMAX, UNIT; lia).
  assert (Hd : (Zpos (digits2_pos m') + Z.min e f = Zpos (digits2_pos m) + e)%Z).
  { rewrite !digits_log2, Hm', <- Z.shiftl_mul_pow2, Z.log2_shiftl by lia. lia. }
  destruct (round_value m' (Z.min e f)) as [H1 H2]; [lia|rewrite Hd; fold f; lia|]. split; [done|]. rewrite H2, Hm', <- Z.mul_assoc, <- Z.pow_add_r by (unfold UNIT in *; lia).
  do 4 f_equal. lia.
Qed.

(** A bounded mantissa is its own rounding, and below infinity. *)
Lemma bounded_value m e : bounded PREC EMAX m e = true →
  (- UNIT ≤ e ∧ 0 < Zpos m * 2 ^ (e + UNIT) < INF ∧ rne (Zpos m * 2 ^ (e + UNIT)) = Zpos m * 2 ^ (e + UNIT) ∧ Zpos m < 2 ^ 53 ∧ (- UNIT < e → 2 ^ 52 ≤ Zpos m))%Z.
Proof.
  intros [Hc Hle%Z.leb_le]%andb_true_iff. unfold canonical_mantissa in Hc. apply Z.eqb_eq in Hc.
  assert (He : (- UNIT ≤ e)%Z) by (unfold fexp, emin, PREC, EMAX, UNIT in *; lia). pose proof (fexp_shift m e He) as Hsh. rewrite Hc in Hsh.
  assert (Hpos : (0 < 2 ^ (e + UNIT))%Z) by (apply Z.pow_pos_nonneg; lia).
  assert (H53 : (Zpos m < 2 ^ 53)%Z). { rewrite digits_log2 in Hc. apply Z.log2_lt_pow2; [lia|]. unfold fexp, emin, PREC, EMAX in Hc. lia. }
  split; [done|]. split; [split; [lia|]|].
  - apply Z.lt_le_trans with (2 ^ 53 * 2 ^ (e + UNIT))%Z; [nia|]. rewrite <- Z.pow_add_r by lia. apply Z.pow_le_mono_r; [lia|]. unfold EMAX, PREC, UNIT in *. lia.
  - split; [|split; [done|]].
    + unfold rne. rewrite <- Hsh, Z.mod_mul, Z.div_mul by lia. rewrite (proj2 (Z.ltb_lt _ _)) by lia. done.
    + intros Hgt. rewrite digits_log2 in Hc. apply Z.log2_le_pow2; [lia|]. unfold fexp, emin, PREC, EMAX, UNIT in *. lia.
Qed.

Lemma nonneg_value x : nonneg x → (0 ≤ value x ≤ INF)%Z ∧ Z.min INF (rne (value x)) = value x.
Proof.
  destruct x as [s|[]| |[] m e]; cbn [nonneg value]; try (intros Hb; exact (False_ind _ Hb)); [by vm_compute..|]; intros Hb.
  apply bounded_value in Hb as (_ & ? & E & _). rewrite E. lia.
Qed.

(** Addition adds the values and rounds. *)
Lemma add_value x y : nonneg x → nonneg y → nonneg (x + y)%f64 ∧ value (x + y)%f64 = Z.min INF (rne (value x + value y)).
Proof.
  intros Hx Hy. destruct (nonneg_value x Hx) as [Bx Rx], (nonneg_value y Hy) as [By Ry].
  assert (Hinf : ∀ v, (0 ≤ v)%Z → Z.min INF (rne (INF + v)) = INF).
  { intros v Hv. pose proof (rne_mono INF (INF + v)) as Hm. assert (E : rne INF = INF) by by vm_compute. assert (0 ≤ INF)%Z by by vm_compute. rewrite E in Hm. lia. }
  destruct x as [sx|[]| |[] mx ex]; try exact (False_ind _ Hx); destruct y as [sy|[]| |[] my ey]; try exact (False_ind _ Hy); unfold f64_add; cbn [SFadd].
  - by destruct sx, sy.
  - split; [exact I|]. symmetry. exact Ry.
  - split; [exact Hy|]. symmetry. exact Ry.
  - split; [exact I|]. cbn [value]. rewrite Z.add_0_r. symmetry. exact Rx.
  - split; [exact I|]. cbn [value] in *. symmetry. apply Hinf, By.
  - split; [exact I|]. cbn [value] in *. symmetry. apply Hinf, By.
  - split; [exact Hx|]. cbn [value] in *. rewrite Z.add_0_r. symmetry. exact Rx.
  - split; [exact I|]. cbn [value] in *. rewrite Z.add_comm. symmetry. apply Hinf, Bx.
  - cbn [nonneg] in Hx, Hy. pose proof (bounded_value mx ex Hx) as (Hex & _). pose proof (bounded_value my ey Hy) as (Hey & _).
    pose proof (shl_align_spec mx ex (Z.min ex ey)) as Sx. pose proof (shl_align_spec my ey (Z.min ex ey)) as Sy.
    destruct (shl_align mx _ _) as [m1 e1], (shl_align my _ _) as [m2 e2]. destruct Sx as [-> Sx], Sy as [-> Sy]. cbn [fst cond_Zopp].
    change (Zpos m1 + Zpos m2)%Z with (Zpos (m1 + m2)). destruct (normalize_value (m1 + m2) (Z.min ex ey) false) as [H1 H2]; [lia|]. split; [done|].
    rewrite H2, Pos2Z.inj_add, Sx, Sy, Z.mul_add_distr_r, <- !Z.mul_assoc, <- !Z.pow_add_r by (unfold UNIT in *; lia). cbn [value].
    do 3 f_equal; do 2 f_equal; lia.
Qed.

(** Comparison compares the values. *)
Lemma compare_value x y : nonneg x → nonneg y → SFcompare x y = Some (value x ?= value y)%Z.
Proof.
  intros Hx Hy. assert (Hpos : ∀ m e, bounded PREC EMAX m e = true → (0 ?= Zpos m * 2 ^ (e + UNIT))%Z = Lt ∧ (Zpos m * 2 ^ (e + UNIT) ?= INF)%Z = Lt).
  { intros m e (_ & ? & _)%bounded_value. split; apply Z.compare_lt_iff; lia. }
  destruct x as [sx|[]| |[] mx ex]; try exact (False_ind _ Hx); destruct y as [sy|[]| |[] my ey]; try exact (False_ind _ Hy); cbn [SFcompare value].
  - done.
  - by vm_compute.
  - destruct (Hpos my ey Hy) as [-> _]. done.
  - by vm_compute.
  - by rewrite Z.compare_refl.
  - destruct (Hpos my ey Hy) as [_ E]. rewrite Z.compare_antisym, E. done.
  - destruct (Hpos mx ex Hx) as [E _]. rewrite Z.compare_antisym, E. done.
  - destruct (Hpos mx ex Hx) as [_ ->]. done.
  - f_equal. pose proof (bounded_value mx ex Hx) as (Ex & _ & _ & Mx & Nx). pose proof (bounded_value my ey Hy) as (Ey & _ & _ & My & Ny).
    assert (Hlt : ∀ m e m' e', (- UNIT ≤ e)%Z → (Zpos m < 2 ^ 53)%Z → (- UNIT < e' → 2 ^ 52 ≤ Zpos m')%Z → (e < e')%Z → (Zpos m * 2 ^ (e + UNIT) < Zpos m' * 2 ^ (e' + UNIT))%Z).
    { intros m e m' e' He Hm Hm' Hee. apply Z.lt_le_trans with (2 ^ 53 * 2 ^ (e + UNIT))%Z; [apply Z.mul_lt_mono_pos_r; [apply Z.pow_pos_nonneg; lia|done]|].
      transitivity (2 ^ 52 * 2 ^ (e' + UNIT))%Z; [rewrite <- !Z.pow_add_r by lia; apply Z.pow_le_mono_r; lia|].
      apply Z.mul_le_mono_nonneg_r; [apply Z.pow_nonneg; lia|]. apply Hm'. lia. }
    destruct (ex ?= ey)%Z eqn:E; symmetry.
    + apply Z.compare_eq_iff in E as ->. rewrite <- Zmult_compare_compat_r by (apply Z.lt_gt, Z.pow_pos_nonneg; lia). done.
    + apply Z.compare_lt_iff in E. apply Z.compare_lt_iff. by apply Hlt.
    + apply Z.compare_gt_iff in E. apply Z.compare_gt_iff. by apply Hlt.
Qed.

Lemma ltb_value x y : nonneg x → nonneg y → (x <? y)%f64 = (value x <? value y)%Z.
Proof. intros Hx Hy. unfold SFltb. rewrite compare_value by done. unfold Z.ltb. by destruct (_ ?= _)%Z. Qed.

(** Adding is monotone and does not make a number smaller. *)
Lemma add_mono x y w : nonneg x → nonneg y → nonneg w → (value x ≤ value y)%Z → (value (x + w)%f64 ≤ value (y + w)%f64)%Z.
Proof.
  intros Hx Hy Hw Hxy. destruct (add_value x w Hx Hw) as [_ ->], (add_value y w Hy Hw) as [_ ->]. destruct (nonneg_value x Hx), (nonneg_value w Hw).
  pose proof (rne_mono (value x + value w) (value y + value w)). lia.
Qed.

Lemma add_grows x w : nonneg x → nonneg w → (value w ≤ value (x + w)%f64)%Z.
Proof.
  intros Hx Hw. destruct (add_value x w Hx Hw) as [_ ->]. destruct (nonneg_value x Hx), (nonneg_value w Hw) as [? E].
  pose proof (rne_mono (value w) (value x + value w)). lia.
Qed.
