(* ===== verification/Timing.v ===== *)
(** Time measurement ([tomii-core/src/time_buffer/mod.rs] and [buffer.rs]): the times of the
    frames and tasks of each slot. [Controller] models the thread that collects them.

    A [Duration] is its nanoseconds, an [Instant] the nanoseconds since some origin. *)
From S2P Require Import Prelude Float.
From stdpp Require Import strings gmap.

(** The largest [Duration]. *)
Definition DURATION_MAX : Z := two64 * 1000000000 - 1.

Definition duration_add (a b : Z) : run Z := if (a + b <=? DURATION_MAX)%Z then Ret (a + b)%Z else Panic.
Definition duration_sum (l : list Z) : run Z := foldM duration_add 0%Z l.
(** [d / n] for a [u32]. *)
Definition duration_div (d n : Z) : run Z := if (n =? 0)%Z then Panic else Ret (d / n)%Z.
(** [end.duration_since(start)]: zero if [end] is earlier. *)
Definition duration_since (end_ start : Z) : Z := sat_sub end_ start.

Inductive TimingMethod := TInstant (t : Z) | TRdtsc (cycles : Z).

(** A map whose values are lists: [map.entry(k).or_default().push(x)]. *)
Definition push_entry {K A} `{Countable K} (k : K) (x : A) (m : gmap K (list A)) : gmap K (list A) :=
  <[k := default [] (m !! k) ++ [x]]> m.

(** The times of the tasks: per name the workers with their durations. *)
Abbreviation Tasks := (gmap string (list (Z * Z))).

Record SlotStats := mkStats {
  st_task_times : Tasks;
  st_total_time : Z;
  st_slot_id : nat;
  st_frame_count : nat;
  st_start_offset : Z;
  st_end_offset : Z;
}.

Definition SlotStats_new (slot_id frame_count : nat) : SlotStats := mkStats ∅ 0 slot_id frame_count 0 0.

(** [SlotStats::add_task_time]. *)
Definition stats_add_task_time (s : SlotStats) (task_name : string) (worker_id duration : Z) : SlotStats :=
  mkStats (push_entry task_name (worker_id, duration) (st_task_times s)) (st_total_time s) (st_slot_id s)
    (st_frame_count s) (st_start_offset s) (st_end_offset s).

Definition get_task_total_time (s : SlotStats) (task_name : string) : run Z :=
  match st_task_times s !! task_name with Some times => duration_sum times.*2 | None => Ret 0%Z end.

Definition get_task_avg_time (s : SlotStats) (task_name : string) : run Z :=
  match st_task_times s !! task_name with
  | Some ((_ :: _) as times) =>
      let! total := duration_sum times.*2 in duration_div total (as_u32 (Z.of_nat (length times)))
  | _ => Ret 0%Z
  end.

Record TimeBuffer := mkBuffer {
  tb_slots : nat;
  tb_system_threads : nat;
  tb_slot_start_times : list (option TimingMethod);
  tb_current_slot_tasks : list Tasks;
  tb_slot_statistics : list (list SlotStats);
  tb_use_rdtsc : bool;
  tb_base_time : TimingMethod;
}.

(** [TimeBuffer::new] at the time [base]. *)
Definition TimeBuffer_new (slots system_threads : nat) (use_rdtsc : bool) (base : TimingMethod) : TimeBuffer :=
  mkBuffer slots system_threads (replicate slots None) (replicate slots ∅) (replicate slots []) use_rdtsc base.

Definition with_starts l b := mkBuffer (tb_slots b) (tb_system_threads b) l (tb_current_slot_tasks b) (tb_slot_statistics b) (tb_use_rdtsc b) (tb_base_time b).
Definition with_current l b := mkBuffer (tb_slots b) (tb_system_threads b) (tb_slot_start_times b) l (tb_slot_statistics b) (tb_use_rdtsc b) (tb_base_time b).
Definition with_stats l b := mkBuffer (tb_slots b) (tb_system_threads b) (tb_slot_start_times b) (tb_current_slot_tasks b) l (tb_use_rdtsc b) (tb_base_time b).

Section buffer.
(** The frequency of the cycle counter in GHz, which is measured. *)
Context (freq_ghz : f64).

Definition cycles_to_ns (cycles : Z) : f64 := f64_div (f64_of_Z cycles) freq_ghz.
(** [Duration::from_nanos(cycles_to_ns(cycles) as u64)]. *)
Definition cycles_duration (cycles : Z) : Z := f64_as_u64 (cycles_to_ns cycles).

Definition measure_duration (start_time end_time : TimingMethod) : run Z :=
  match start_time, end_time with
  | TInstant start, TInstant end_ => Ret (duration_since end_ start)
  | TRdtsc start_cycles, TRdtsc end_cycles => Ret (cycles_duration (sat_sub end_cycles start_cycles))
  | _, _ => Panic
  end.

(** The check of the slot that every operation begins with. *)
Definition checked {A} (b : TimeBuffer) (slot_id : nat) (k : run A) : run A := if tb_slots b <=? slot_id then Panic else k.

(** [start_slot_processing], [start_slot_processing_with_time]. *)
Definition start_slot_processing (b : TimeBuffer) (slot_id : nat) (start_time : TimingMethod) : run TimeBuffer :=
  checked b slot_id
    (let! l := vec_set (tb_slot_start_times b) slot_id (Some start_time) in Ret (with_starts l b)).

Definition add_task_time (b : TimeBuffer) (slot_id : nat) (task_name : string) (worker_id duration : Z) : run TimeBuffer :=
  checked b slot_id
    (let! m := vec_get (tb_current_slot_tasks b) slot_id in
     let! l := vec_set (tb_current_slot_tasks b) slot_id (push_entry task_name (worker_id, duration) m) in
     Ret (with_current l b)).

Definition add_task_time_cycles (b : TimeBuffer) (slot_id : nat) (task_name : string) (worker_id cycles : Z) : run TimeBuffer :=
  add_task_time b slot_id task_name worker_id (cycles_duration cycles).
Definition add_task_time_instant (b : TimeBuffer) (slot_id : nat) (task_name : string) (worker_id start end_ : Z) : run TimeBuffer :=
  add_task_time b slot_id task_name worker_id (duration_since end_ start).
Definition add_task_time_rdtsc (b : TimeBuffer) (slot_id : nat) (task_name : string) (worker_id start_cycles end_cycles : Z) : run TimeBuffer :=
  add_task_time_cycles b slot_id task_name worker_id (sat_sub end_cycles start_cycles).

(** The times of the tasks are copied one by one. *)
Definition copy_task (s : SlotStats) (entry : string * list (Z * Z)) : SlotStats :=
  foldl (λ s x, stats_add_task_time s entry.1 x.1 x.2) s entry.2.
Definition copy_tasks (tasks : Tasks) (s : SlotStats) : SlotStats := foldl copy_task s (map_to_list tasks).

(** [finish_slot_processing], [finish_slot_processing_with_time]. *)
Definition finish_slot_processing (b : TimeBuffer) (slot_id : nat) (end_time : TimingMethod) : run (TimeBuffer * SlotStats) :=
  checked b slot_id
    (let! start := vec_get (tb_slot_start_times b) slot_id in
     let! start_time := unwrap start in
     let! starts := vec_set (tb_slot_start_times b) slot_id None in
     let! total_time := measure_duration start_time end_time in
     let! start_offset := measure_duration (tb_base_time b) start_time in
     let! end_offset := measure_duration (tb_base_time b) end_time in
     let! stats := vec_get (tb_slot_statistics b) slot_id in
     let! tasks := vec_get (tb_current_slot_tasks b) slot_id in
     let slot_stats := copy_tasks tasks (mkStats ∅ total_time slot_id (length stats) start_offset end_offset) in
     let! all := vec_set (tb_slot_statistics b) slot_id (stats ++ [slot_stats]) in
     let! current := vec_set (tb_current_slot_tasks b) slot_id ∅ in
     Ret (with_starts starts (with_current current (with_stats all b)), slot_stats)).

Definition get_slot_statistics (b : TimeBuffer) (slot_id : nat) : run (list SlotStats) :=
  checked b slot_id (vec_get (tb_slot_statistics b) slot_id).
Definition get_latest_slot_stats (b : TimeBuffer) (slot_id : nat) : run (option SlotStats) :=
  run_map last (get_slot_statistics b slot_id).
Definition get_slot_frame_count (b : TimeBuffer) (slot_id : nat) : run nat :=
  run_map length (get_slot_statistics b slot_id).

Definition reset (b : TimeBuffer) : TimeBuffer :=
  with_starts (replicate (tb_slots b) None) (with_current (replicate (tb_slots b) ∅) (with_stats (replicate (tb_slots b) []) b)).

(** The number of frames, the average and the sum of their times, for the slots that have any. *)
Definition summary_of (slot_stats : list SlotStats) : run (nat * Z * Z) :=
  let! total_time := duration_sum (st_total_time <$> slot_stats) in
  let! avg_time := duration_div total_time (as_u32 (Z.of_nat (length slot_stats))) in
  Ret (length slot_stats, avg_time, total_time).
Definition get_summary (b : TimeBuffer) : run (gmap nat (nat * Z * Z)) :=
  foldM (λ summary slot_id,
    let! slot_stats := vec_get (tb_slot_statistics b) slot_id in
    match slot_stats with
    | [] => Ret summary
    | _ => let! x := summary_of slot_stats in Ret (<[slot_id := x]> summary)
    end) ∅ (range 0 (tb_slots b)).
End buffer.
