(* ===== verification/Report.v ===== *)
(** The reports on a run ([tomii-core/src/time_buffer/report.rs], [print_stats] and
    [write_json_report] of [buffer.rs]): which frames are measured, the figures of tasks
    and workers, the critical path, and what is suggested. The figures are modelled, their
    text is not. Hash maps are visited in an order nothing is known of. *)
From S2P Require Import Prelude Float Timing.
From Stdlib Require Import SpecFloat.
From stdpp Require Import strings gmap.

(** The order in which a hash map is visited. *)
Class HashOrder := {
  hash_order : ∀ {K A} `{Countable K}, gmap K A → list (K * A);
  hash_order_perm : ∀ {K A} `{Countable K} (m : gmap K A), hash_order m ≡ₚ map_to_list m;
}.

(** ** Sorting *)

(** A stable sort: [sort_by_key], [sort], [sort_by]. *)
Section sort.
Context {A : Type} (le : A → A → bool).
Fixpoint insert_sorted (x : A) (l : list A) : list A :=
  match l with
  | [] => [x]
  | y :: l => if le x y then x :: y :: l else y :: insert_sorted x l
  end.
Definition stable_sort (l : list A) : list A := foldr insert_sorted [] l.
End sort.

Definition by_key {A} (key : A → Z) (x y : A) : bool := (key x <=? key y)%Z.
Definition string_leb (a b : string) : bool := match String.compare a b with Gt => false | _ => true end.

(** [sort_by(|a, b| a.partial_cmp(b).unwrap())]: panics at a NaN unless there is nothing to compare. *)
Definition sort_f64 (l : list f64) : run (list f64) :=
  if (1 <? length l) && existsb f64_is_nan l then Panic else Ret (stable_sort SFleb l).

(** [iter().min()] and [iter().max()]. *)
Definition list_min (l : list Z) : option Z := match l with [] => None | x :: l => Some (foldl Z.min x l) end.
Definition list_max (l : list Z) : option Z := match l with [] => None | x :: l => Some (foldl Z.max x l) end.

(** [Duration::MAX] as the minimum of no durations. *)
Definition first_start (offsets : list (Z * Z)) : Z :=
  foldl (λ m x, if (x.1 <? m)%Z then x.1 else m) DURATION_MAX offsets.
Definition last_end (offsets : list (Z * Z)) : Z := foldl (λ m x, if (m <? x.2)%Z then x.2 else m) 0%Z offsets.

(** [usize::MAX]: the runtime and not a worker. *)
Definition RUNTIME_WORKER : Z := u64_max.

(** [as_nanos() as f64 / 1_000.0]. *)
Definition micros (d : Z) : f64 := f64_div (f64_of_Z d) (f64_of_Z 1000).

(** [(x * 10^k).round() / 10^k]. *)
Definition rounded (k : nat) (x : f64) : f64 :=
  let p := f64_of_Z (10 ^ Z.of_nat k) in f64_div (f64_round (f64_mul x p)) p.

(** The standard deviation of durations around a mean, in nanoseconds. *)
Definition std_dev (mean : Z) (l : list Z) : Z :=
  let squares := (λ d, let diff := f64_sub (f64_of_Z d) (f64_of_Z mean) in f64_mul diff diff) <$> l in
  f64_as_u64 (f64_sqrt (f64_div (f64_sum squares) (f64_of_nat (length l)))).

Section report.
Context `{HashOrder}.

(** A copy of the map of a frame. *)
Definition copy_map {A} (m : gmap string A) : gmap string A := foldl (λ m kv, <[kv.1 := kv.2]> m) ∅ (hash_order m).

(** ** The collection of frames *)

Definition with_index {A} (l : list A) : list (nat * A) := imap pair l.

(** The times of the tasks of a slot of the system threads. *)
Definition system_tasks (slot_stats : list SlotStats) : gmap string (list Z) :=
  foldl (λ m stats, foldl (λ m kv, <[kv.1 := default [] (m !! kv.1) ++ kv.2.*2]> m) m (hash_order (st_task_times stats))) ∅ slot_stats.

Definition worker_frame (stats : SlotStats) : Z * Z * Tasks := (st_start_offset stats, st_total_time stats, copy_map (st_task_times stats)).

Definition collect_print_stats_data (slot_statistics : list (list SlotStats)) (slots system_slots_start : nat)
  : list Z * list Tasks * gmap nat (gmap string (list Z)) * nat :=
  let visited := take slots (with_index slot_statistics) in
  let system := foldl (λ m x, match x.2 with [] => m | _ => if system_slots_start <=? x.1 then <[x.1 := system_tasks x.2]> m else m end) ∅ visited in
  let total_frames := nat_sum ((λ x, if system_slots_start <=? x.1 then 0 else length x.2) <$> visited) in
  let worker_frames := (x ← visited; if system_slots_start <=? x.1 then [] else worker_frame <$> x.2) in
  let sorted := stable_sort (by_key (λ f, f.1.1)) worker_frames in
  ((λ f, f.1.2) <$> sorted, snd <$> sorted, system, total_frames).

Definition aggregate : Type := gmap string (list Z) * gmap string (gmap Z nat) * gmap string (gmap Z Z).

Definition aggregate_one (task_name : string) (a : aggregate) (x : Z * Z) : run aggregate :=
  let '(data, counts, totals) := a in
  let worker_counts := default ∅ (counts !! task_name) in
  let worker_totals := default ∅ (totals !! task_name) in
  let! total := duration_add (default 0%Z (worker_totals !! x.1)) x.2 in
  Ret (<[task_name := default [] (data !! task_name) ++ [x.2]]> data,
       <[task_name := <[x.1 := S (default 0 (worker_counts !! x.1))]> worker_counts]> counts,
       <[task_name := <[x.1 := total]> worker_totals]> totals).

Definition aggregate_task (a : aggregate) (kv : string * list (Z * Z)) : run aggregate :=
  let '(data, counts, totals) := a in
  foldM (aggregate_one kv.1) (<[kv.1 := default [] (data !! kv.1)]> data, counts, totals) kv.2.

Definition aggregate_task_data (per_frame_task_data : list Tasks) (exclude_frames : nat) : run aggregate :=
  let excluded_count := Nat.min exclude_frames (length per_frame_task_data) in
  let frames_to_analyze := if 0 <? excluded_count then drop excluded_count per_frame_task_data else per_frame_task_data in
  foldM (λ a frame_tasks, foldM aggregate_task a (hash_order frame_tasks)) (∅, ∅, ∅) frames_to_analyze.

(** ** The printed statistics *)

(** The figures over all frames. *)
Record TimingFigures := mkFigures {
  tf_total_runtime : Z; tf_avg_frame : Z; tf_std_frame : Z; tf_min_frame : Z; tf_max_frame : Z;
  tf_total_compute : Z; tf_avg_compute : Z;
}.
Record TimingSummary := mkSummary {
  ts_total_frames : nat;
  ts_frames_per_slot : list nat;
  ts_excluded : option (nat * nat);
  ts_figures : option TimingFigures;
}.

Definition as_u32_nat (n : nat) : Z := as_u32 (Z.of_nat n).

(** The wall-clock span of the frames that are not excluded, or the sum of their times. *)
Definition total_runtime (offsets : list (Z * Z)) (excluded_count : nat) (times : list Z) : run Z :=
  let included := drop excluded_count (stable_sort (by_key fst) offsets) in
  let min_start := first_start included in
  let max_end := last_end included in
  if (min_start <? max_end)%Z then Ret (max_end - min_start)%Z else duration_sum times.

Definition timing_figures (global_total_times : list Z) (global_task_data : gmap string (list Z)) (total_frames excluded_count : nat)
    (frame_offsets : list (Z * Z)) : run TimingFigures :=
  let steady_state_count := total_frames - excluded_count in
  let! global_total := total_runtime frame_offsets excluded_count global_total_times in
  let steady := if (0 <? excluded_count) && (0 <? steady_state_count) then drop excluded_count global_total_times else global_total_times in
  let! avg := match steady with [] => Ret 0%Z | _ => let! s := duration_sum steady in duration_div s (as_u32_nat (length steady)) end in
  let std := match steady with [] => 0%Z | _ => std_dev avg steady end in
  let! min := unwrap (list_min (match steady with [] => global_total_times | _ => steady end)) in
  let! max := unwrap (list_max (match steady with [] => global_total_times | _ => steady end)) in
  let! sums := run_imap (λ _ kv, duration_sum kv.2) 0 (hash_order global_task_data) in
  let! total_compute := duration_sum sums in
  let! avg_compute := duration_div total_compute (as_u32_nat (if 0 <? steady_state_count then steady_state_count else total_frames)) in
  Ret (mkFigures global_total avg std min max total_compute avg_compute).

Definition format_timing_summary (global_total_times : list Z) (global_task_data : gmap string (list Z))
    (total_frames exclude_frames worker_slots_end : nat) (slot_statistics : list (list SlotStats)) : run TimingSummary :=
  let excluded_count := Nat.min exclude_frames total_frames in
  let per_slot := length <$> take worker_slots_end slot_statistics in
  match global_total_times with
  | [] => Ret (mkSummary total_frames per_slot None None)
  | _ =>
      let frame_offsets := (l ← take worker_slots_end slot_statistics; (λ s, (st_start_offset s, st_end_offset s)) <$> l) in
      let! figures := timing_figures global_total_times global_task_data total_frames excluded_count frame_offsets in
      Ret (mkSummary total_frames per_slot (if 0 <? excluded_count then Some (excluded_count, total_frames - excluded_count) else None) (Some figures))
  end.

(** The figures of a task, with the share and the time of each worker. *)
Record TaskFigures := mkTask {
  tk_name : string; tk_executions : nat; tk_avg_frame : Z; tk_avg_task : Z; tk_std : Z; tk_min : Z; tk_max : Z; tk_total : Z;
  tk_workers : list (Z * (nat * f64 * Z));
}.

Definition task_figures (task_name : string) (task_times : list Z) (worker_counts : gmap Z nat) (worker_totals : gmap Z Z)
    (steady_state_count : nat) : run TaskFigures :=
  let total_executions := length task_times in
  let! total_time := duration_sum task_times in
  let! avg_time := if 0 <? steady_state_count then duration_div total_time (as_u32_nat steady_state_count) else Ret 0%Z in
  let! avg_task := duration_div total_time (as_u32_nat total_executions) in
  let! min_time := unwrap (list_min task_times) in
  let! max_time := unwrap (list_max task_times) in
  let share kv := (kv.1, (kv.2, f64_mul (f64_div (f64_of_nat kv.2) (f64_of_nat total_executions)) (f64_of_Z 100), default 0%Z (worker_totals !! kv.1))) in
  Ret (mkTask task_name total_executions avg_time avg_task (std_dev avg_task task_times) min_time max_time total_time (share <$> hash_order worker_counts)).

(** [format_per_task_analysis]: the tasks in the order of their names. *)
Definition format_per_task_analysis (a : aggregate) (steady_state_count : nat) : run (list TaskFigures) :=
  let '(data, counts, totals) := a in
  let sorted_tasks := stable_sort string_leb (hash_order data).*1 in
  foldM (λ out task_name,
    match data !! task_name with
    | None | Some [] => Ret out
    | Some task_times =>
        let! worker_counts := unwrap (counts !! task_name) in
        let! worker_totals := unwrap (totals !! task_name) in
        let! f := task_figures task_name task_times worker_counts worker_totals steady_state_count in Ret (out ++ [f])
    end) [] sorted_tasks.

(** The figures of the tasks of a system thread. *)
Definition system_figures (slot_task_data : gmap string (list Z)) : run (list TaskFigures) :=
  foldM (λ out task_name,
    match slot_task_data !! task_name with
    | None | Some [] => Ret out
    | Some task_times =>
        let! min_time := unwrap (list_min task_times) in
        let! max_time := unwrap (list_max task_times) in
        let! total_time := duration_sum task_times in
        let! avg_time := duration_div total_time (as_u32_nat (length task_times)) in
        Ret (out ++ [mkTask task_name (length task_times) 0 avg_time (std_dev avg_time task_times) min_time max_time total_time []])
    end) [] (stable_sort string_leb (hash_order slot_task_data).*1).

Definition format_system_thread_stats (data : gmap nat (gmap string (list Z))) (system_slots_start slots : nat) : run (list (nat * list TaskFigures)) :=
  foldM (λ out slot_id, match data !! slot_id with
    | Some d => let! f := system_figures d in Ret (out ++ [(slot_id - system_slots_start, f)])
    | None => Ret out end) [] (range system_slots_start slots).

(** [TimeBuffer::print_stats]. *)
Definition print_stats (b : TimeBuffer) (exclude_frames : nat) : run (TimingSummary * list TaskFigures * list (nat * list TaskFigures)) :=
  let worker_slots_end := tb_slots b - tb_system_threads b in
  let '(global_total_times, per_frame_task_data, system_data, total_frames) :=
    collect_print_stats_data (tb_slot_statistics b) (tb_slots b) worker_slots_end in
  let! a := aggregate_task_data per_frame_task_data exclude_frames in
  let! summary := format_timing_summary global_total_times a.1.1 total_frames exclude_frames worker_slots_end (tb_slot_statistics b) in
  let! tasks := format_per_task_analysis a (total_frames - Nat.min exclude_frames total_frames) in
  let! system := format_system_thread_stats system_data worker_slots_end (tb_slots b) in
  Ret (summary, tasks, system).

(** ** The performance report *)

(** [collect_report_frame_data]: the times, tasks and offsets of the frames of the workers' slots,
    in the order of their begin, without the first ones. *)
Definition report_frame (stats : SlotStats) : Z * Z * Z * Tasks :=
  (st_start_offset stats, st_end_offset stats, st_total_time stats, copy_map (st_task_times stats)).
Definition collect_report_frame_data (slot_statistics : list (list SlotStats)) (worker_slots_end exclude_frames : nat)
  : option (list Z * list Tasks * list (Z * Z)) :=
  let frames := (l ← take worker_slots_end slot_statistics; report_frame <$> l) in
  let sorted := stable_sort (by_key (λ f, f.1.1.1)) frames in
  match drop (Nat.min exclude_frames (length frames)) sorted with
  | [] => None
  | included => Some ((λ f, f.1.2) <$> included, snd <$> included, fst ∘ fst <$> included)
  end.

Definition worker_id_range (worker_busy_us : gmap Z f64) : option (Z * Z) :=
  foldl (λ r kv, Some (match r with None => (kv.1, kv.1) | Some (lo, hi) => (Z.min lo kv.1, Z.max hi kv.1) end)) None (hash_order worker_busy_us).

Definition compute_wall_span_us (frame_offsets : list (Z * Z)) : f64 :=
  let min_start := first_start frame_offsets in
  let max_end := last_end frame_offsets in
  match frame_offsets with
  | [] => f64_of_Z 0
  | _ => if (max_end <=? min_start)%Z then f64_of_Z 0 else micros (max_end - min_start)
  end.

Record NodeStats := mkNodeStats {
  ns_invocations : nat; ns_mean_exec_us : f64; ns_p99_exec_us : f64; ns_total_exec_us : f64; ns_pct_of_total : f64;
}.

(** One entry of a frame: its times in microseconds, and the time its worker was busy. *)
Definition node_entry (acc : gmap string (list f64) * gmap Z f64) (kv : string * list (Z * Z)) : gmap string (list f64) * gmap Z f64 :=
  let bucket := default [] (acc.1 !! kv.1) ++ (micros <$> kv.2.*2) in
  let busy := foldl (λ m x, if negb (x.1 =? RUNTIME_WORKER)%Z then <[x.1 := f64_add (default (f64_of_Z 0) (m !! x.1)) (micros x.2)]> m else m) acc.2 kv.2 in
  (<[kv.1 := bucket]> acc.1, busy).

(** [l[(f * (len - 1)).round().min(len - 1)]] of a list that is not empty; the empty list panics. *)
Definition quantile (f : f64) (sorted : list f64) : run f64 :=
  let idx := f64_as_u64 (f64_round (f64_mul f (f64_sub (f64_of_nat (length sorted)) (f64_of_Z 1)))) in
  vec_get sorted (Z.to_nat (Z.min idx (Z.of_nat (length sorted) - 1))).

Definition node_stats (denominator_us : f64) (entries : list f64) : run NodeStats :=
  let invocations := length entries in
  let total_exec_us := f64_sum entries in
  let pct_of_total := if SFltb (f64_of_Z 0) denominator_us then f64_mul (f64_div total_exec_us denominator_us) (f64_of_Z 100) else f64_of_Z 0 in
  let! sorted_us := sort_f64 entries in
  let! p99_exec_us := quantile (f64_lit 99 2) sorted_us in
  Ret (mkNodeStats invocations (f64_div total_exec_us (f64_of_nat invocations)) p99_exec_us total_exec_us pct_of_total).

Definition compute_node_stats (included_tasks : list Tasks) (total_wall_us : f64) : run (gmap string NodeStats * gmap Z f64) :=
  let '(node_entries, worker_busy_us) := foldl (λ acc m, foldl node_entry acc (hash_order m)) (∅, ∅) included_tasks in
  let num_workers := match worker_id_range worker_busy_us with Some (lo, hi) => (hi - lo + 1)%Z | None => 0%Z end in
  let denominator_us := f64_mul total_wall_us (f64_max (f64_of_Z num_workers) (f64_of_Z 1)) in
  let! node_stats_map := foldM (λ m kv, let! s := node_stats denominator_us kv.2 in Ret (<[kv.1 := s]> m)) ∅ (hash_order node_entries) in
  Ret (node_stats_map, worker_busy_us).
End report.

(** ** The critical path *)

Record ReportCriticalPath := mkCriticalPath { cp_length_nodes : nat; cp_estimated_latency_us : f64; cp_nodes : list string }.

(** The last node with each name. *)
Definition name_to_idx (graph_edges : list (string * list string)) : gmap string nat :=
  foldl (λ m x, <[x.2.1 := x.1]> m) ∅ (with_index graph_edges).

Definition adjacency (graph_edges : list (string * list string)) : list (list nat) :=
  (λ e : string * list string, omap (λ s, name_to_idx graph_edges !! s) e.2) <$> graph_edges.

Definition in_degrees (adj : list (list nat)) : run (list nat) :=
  foldM (λ d succs, foldM (λ d j, let! x := vec_get d j in vec_set d j (S x)) d succs) (replicate (length adj) 0) adj.

(** One successor of a node taken from the queue. *)
Definition release_edge (st : list nat * list nat) (v : nat) : run (list nat * list nat) :=
  let! d := vec_get st.1 v in
  let! in_deg := vec_set st.1 v (d - 1) in
  Ret (in_deg, if d - 1 =? 0 then st.2 ++ [v] else st.2).

(** The nodes in a topological order; [None] if the fuel is not enough. *)
Fixpoint topo_loop (fuel : nat) (adj : list (list nat)) (in_deg queue topo_order : list nat) : run (option (list nat)) :=
  match queue with
  | [] => Ret (Some topo_order)
  | u :: queue =>
      match fuel with
      | O => Ret None
      | S fuel =>
          let! succs := vec_get adj u in
          let! (in_deg', queue') := foldM release_edge (in_deg, queue) succs in
          topo_loop fuel adj in_deg' queue' (topo_order ++ [u])
      end
  end.

Definition zeros (in_degree : list nat) : list nat := fst <$> filter (λ x, x.2 = 0) (with_index in_degree).

(** The longest distances along the edges of [u], with the predecessor on the way. *)
Definition relax (weights : list f64) (u : nat) (st : list f64 * list (option nat)) (v : nat) : run (list f64 * list (option nat)) :=
  let! du := vec_get st.1 u in
  let! wv := vec_get weights v in
  let! dv := vec_get st.1 v in
  let new_dist := f64_add du wv in
  if SFltb dv new_dist
  then let! dist := vec_set st.1 v new_dist in let! prev := vec_set st.2 v (Some u) in Ret (dist, prev)
  else Ret st.

Definition relax_node (adj : list (list nat)) (weights : list f64) (st : list f64 * list (option nat)) (u : nat) : run (list f64 * list (option nat)) :=
  let! succs := vec_get adj u in foldM (relax weights u) st succs.

(** The last of the greatest distances ([max_by]); panics at a NaN. *)
Definition end_of_path (dist : list f64) : run (nat * f64) :=
  match with_index dist with
  | [] => Ret (0, f64_of_Z 0)
  | x :: l => foldM (λ best x, let! c := f64_cmp best.2 x.2 in Ret (match c with Gt => best | _ => x end)) x l
  end.

(** The way back along the predecessors. *)
Fixpoint walk_back (fuel : nat) (prev : list (option nat)) (cur : nat) (path : list nat) : run (option (list nat)) :=
  match fuel with
  | O => Ret None
  | S fuel =>
      let! p := vec_get prev cur in
      match p with
      | Some p => walk_back fuel prev p (cur :: path)
      | None => Ret (Some (cur :: path))
      end
  end.

Definition weights_of (graph_edges : list (string * list string)) (node_stats_map : gmap string NodeStats) : list f64 :=
  (λ e : string * list string, match node_stats_map !! e.1 with Some s => ns_mean_exec_us s | None => f64_of_Z 0 end) <$> graph_edges.

(** [compute_critical_path_report]; a turn per node is enough for both loops. *)
Definition compute_critical_path_report (graph_edges : list (string * list string)) (node_stats_map : gmap string NodeStats)
  : run (option ReportCriticalPath) :=
  match graph_edges with
  | [] => Ret None
  | _ =>
      let n := length graph_edges in
      let adj := adjacency graph_edges in
      let! in_degree := in_degrees adj in
      let! topo := topo_loop n adj in_degree (zeros in_degree) [] in
      let! topo_order := unwrap topo in
      let weights := weights_of graph_edges node_stats_map in
      let! (dist, prev) := foldM (relax_node adj weights) (weights, replicate n None) topo_order in
      let! (end_node, max_dist) := end_of_path dist in
      let! back := walk_back n prev end_node [] in
      let! path := unwrap back in
      let! names := run_imap (λ _ i, run_map fst (vec_get graph_edges i)) 0 path in
      Ret (Some (mkCriticalPath (length path) max_dist names))
  end.

(** ** Suggestions and hints *)

(** What is suggested, with the numbers of the suggestion, in the order of the rules. *)
Inductive Suggestion :=
  | CoarsenGraph (tile : nat) (speedup_lo speedup_hi : nat)
  | RestructureGraph (nodes factor : nat)
  | RefineGraph (factor : nat)
  | UseCoalesceBarriers
  | UseBatchingSize (size : nat)
  | ReduceTileSize (tile : nat).

Definition generate_optimization_suggestions (overhead_pct : f64) (max_cp_factor total_tasks_per_frame : nat)
    (critical_path : option ReportCriticalPath) (worker_busy_pct : list f64) : list Suggestion :=
  let above n := SFltb (f64_of_Z n) overhead_pct in
  let below n := SFltb overhead_pct (f64_of_Z n) in
  (if above 60%Z && (64 <=? max_cp_factor) then
     match critical_path with Some _ => [CoarsenGraph (max_cp_factor / 8) (Nat.max (max_cp_factor / 16) 1) (max_cp_factor / 8)] | None => [] end else [])
  ++ (if above 60%Z && (max_cp_factor <? 16) && (200 <? total_tasks_per_frame) then
        match critical_path with Some cp => if 50 <? cp_length_nodes cp then [RestructureGraph (cp_length_nodes cp) max_cp_factor] else [] | None => [] end else [])
  ++ (if above 20%Z && below 60%Z && (0 <? max_cp_factor) && (max_cp_factor <? 8) then
        match critical_path with Some cp => if 4 <=? cp_length_nodes cp then [RefineGraph (Nat.max (max_cp_factor * 2) 8)] else [] | None => [] end else [])
  ++ (if above 40%Z && (8 <=? max_cp_factor) then [UseCoalesceBarriers] else [])
  ++ (if (100 * 100 <? total_tasks_per_frame) && above 40%Z then [UseBatchingSize 64] else [])
  ++ (if negb (length worker_busy_pct =? 0) && (8 <? max_cp_factor) && below 60%Z then
        let max_util := foldl f64_max (S754_infinity true) worker_busy_pct in
        if SFltb max_util (f64_of_Z 50) then
          match critical_path with Some cp => if 10 <? cp_length_nodes cp then [ReduceTileSize (Nat.max (max_cp_factor / 4) 1)] else [] | None => [] end
        else [] else []).

(** The hints on bottlenecks, with the numbers they print. *)
Inductive Hint :=
  | HeavyNode (name : string) (pct_of_total : f64)
  | IdleWorker (wid : Z) (pct below_average : f64)
  | LimitedParallelism (pct : f64).

Inductive Interpretation := PathUnavailable | Overhead (pct : f64) (advice : nat).

(** Which of the four texts explains an overhead. *)
Definition sched_interpretation (critical_path : option ReportCriticalPath) (overhead_pct : f64) : Interpretation :=
  match critical_path with
  | None => PathUnavailable
  | Some _ =>
      Overhead overhead_pct
        (if SFleb (f64_of_Z 80) overhead_pct then 0 else if SFleb (f64_of_Z 50) overhead_pct then 1
         else if SFltb overhead_pct (f64_of_Z 20) then 2 else 3)
  end.

Definition worker_hints (worker_id_first : Z) (worker_busy_pct : list f64) : list Hint :=
  match worker_busy_pct with
  | [] => []
  | _ =>
      let max_pct := foldl f64_max (S754_infinity true) worker_busy_pct in
      let avg_pct := f64_div (f64_sum worker_busy_pct) (f64_of_nat (length worker_busy_pct)) in
      omap (λ x : nat * f64, let diff := f64_sub max_pct x.2 in
        if SFltb (f64_of_Z 10) diff then Some (IdleWorker (worker_id_first + Z.of_nat x.1) x.2 (f64_sub avg_pct x.2)) else None)
        (with_index worker_busy_pct)
  end.

Record NodeReport := mkNodeReport {
  nr_name : string; nr_factor : nat; nr_invocations : nat; nr_mean : f64; nr_p99 : f64; nr_total : f64; nr_pct : f64; nr_on_critical_path : bool;
}.
Record PathReport := mkPathReport { pr_length : nat; pr_max_factor : nat; pr_latency : f64; pr_sample : list string; pr_more : nat }.
Record PerformanceReport := mkReport {
  rp_total_frames : nat; rp_avg_latency : f64; rp_p50 : f64; rp_p99 : f64; rp_p999 : f64; rp_throughput : f64;
  rp_tasks_per_frame : nat; rp_stale_drops : nat; rp_path_exec : f64; rp_overhead : f64; rp_overhead_pct : f64;
  rp_interpretation : Interpretation; rp_per_node : list NodeReport; rp_latencies : list f64;
  rp_critical_path : option PathReport; rp_worker_busy : list f64; rp_hints : list Hint; rp_suggestions : list Suggestion;
}.

Section json.
Context `{HashOrder}.

Definition on_critical_path (critical_path : option ReportCriticalPath) (name : string) : bool :=
  match critical_path with Some cp => bool_decide (name ∈ cp_nodes cp) | None => false end.

Definition node_report (num_included : nat) (on_path : string → bool) (kv : string * NodeStats) : NodeReport :=
  mkNodeReport kv.1 (ns_invocations kv.2 / num_included) (ns_invocations kv.2) (rounded 2 (ns_mean_exec_us kv.2)) (rounded 2 (ns_p99_exec_us kv.2))
    (rounded 2 (ns_total_exec_us kv.2)) (rounded 1 (ns_pct_of_total kv.2)) (on_path kv.1).

(** A number of the JSON value, where one that is not finite is [null], which is read as zero. *)
Definition json_f64 (x : f64) : f64 := match x with S754_finite _ _ _ | S754_zero _ => x | _ => f64_of_Z 0 end.

(** The nodes with the most time first. *)
Definition sort_nodes (l : list NodeReport) : list NodeReport :=
  stable_sort (λ a b, SFleb (json_f64 (nr_total b)) (json_f64 (nr_total a))) l.

Definition path_report (max_cp_factor : nat) (cp : ReportCriticalPath) : PathReport :=
  let nodes := cp_nodes cp in
  let more := 5 <? length nodes in
  mkPathReport (cp_length_nodes cp) max_cp_factor (rounded 2 (cp_estimated_latency_us cp))
    (if more then take 5 nodes else nodes) (if more then length nodes - 5 else 0).

Definition build_json_report_value (num_included : nat) (avg p50 p99 p999 : f64) (sorted_latencies : list f64) (throughput : f64)
    (total_tasks_per_frame : nat) (cp_exec_us overhead_us overhead_pct : f64) (interpretation : Interpretation)
    (node_stats_map : gmap string NodeStats) (critical_path : option ReportCriticalPath) (max_cp_factor : nat) (worker_busy_pct : list f64)
    (hints : list Hint) (suggestions : list Suggestion) (stale_drops : nat) : PerformanceReport :=
  let per_node := sort_nodes (node_report num_included (on_critical_path critical_path) <$> hash_order node_stats_map) in
  mkReport num_included (rounded 2 avg) (rounded 2 p50) (rounded 2 p99) (rounded 2 p999) (rounded 1 throughput)
    total_tasks_per_frame stale_drops cp_exec_us (rounded 2 overhead_us) (rounded 1 overhead_pct) interpretation per_node
    (rounded 2 <$> sorted_latencies) (path_report max_cp_factor <$> critical_path) (rounded 1 <$> worker_busy_pct) hints suggestions.

(** [percentile]. *)
Definition percentile (sorted : list f64) (pct : f64) : run f64 := quantile (f64_div pct (f64_of_Z 100)) sorted.

Definition positive (x : f64) : bool := SFltb (f64_of_Z 0) x.

(** The latencies: sorted, their average and percentiles, the time the frames took together and
    the throughput. *)
Record Latencies := mkLatencies {
  lt_sorted : list f64; lt_avg : f64; lt_p50 : f64; lt_p99 : f64; lt_p999 : f64; lt_wall : f64; lt_throughput : f64;
}.
Definition latencies (included_total_times : list Z) (included_offsets : list (Z * Z)) : run Latencies :=
  let num_included := length included_total_times in
  let! sorted_latencies := sort_f64 (micros <$> included_total_times) in
  let avg_latency_us := f64_div (f64_sum sorted_latencies) (f64_of_nat num_included) in
  let! p50 := percentile sorted_latencies (f64_of_Z 50) in
  let! p99 := percentile sorted_latencies (f64_of_Z 99) in
  let! p999 := percentile sorted_latencies (f64_lit 999 1) in
  let summed_latency_us := f64_sum (micros <$> included_total_times) in
  let wall_span_us := compute_wall_span_us included_offsets in
  let total_wall_us := if positive wall_span_us then wall_span_us else summed_latency_us in
  let throughput := if positive total_wall_us then f64_div (f64_of_nat num_included) (f64_div total_wall_us (f64_of_Z 1000000)) else f64_of_Z 0 in
  Ret (mkLatencies sorted_latencies avg_latency_us p50 p99 p999 total_wall_us throughput).

(** The lowest worker, and the percentage of the time for which each worker from it on was busy. *)
Definition worker_utilization (total_wall_us : f64) (worker_busy_us : gmap Z f64) : Z * list f64 :=
  let '(first_id, last_id) := default (0%Z, 0%Z) (worker_id_range worker_busy_us) in
  (first_id, (λ i, if positive total_wall_us
     then f64_mul (f64_div (default (f64_of_Z 0) (worker_busy_us !! (first_id + Z.of_nat i)%Z)) total_wall_us) (f64_of_Z 100) else f64_of_Z 0)
     <$> range 0 (Z.to_nat (last_id - first_id + 1))).

Definition node_hints (critical_path : option ReportCriticalPath) (node_stats_map : gmap string NodeStats) : list Hint :=
  omap (λ kv : string * NodeStats, if on_critical_path critical_path kv.1 && SFltb (f64_of_Z 20) (ns_pct_of_total kv.2)
    then Some (HeavyNode kv.1 (ns_pct_of_total kv.2)) else None) (hash_order node_stats_map).

Definition path_hints (critical_path : option ReportCriticalPath) (avg_latency_us : f64) : list Hint :=
  match critical_path with
  | Some cp => if positive avg_latency_us then
      let ratio := f64_div (cp_estimated_latency_us cp) avg_latency_us in
      if SFltb (f64_lit 8 1) ratio then [LimitedParallelism (f64_mul ratio (f64_of_Z 100))] else [] else []
  | None => []
  end.

(** The instances of a node in a frame, those of all nodes, and the most of a node on the critical path. *)
Definition node_factor (num_included : nat) (s : NodeStats) : nat := ns_invocations s / num_included.
Definition total_tasks_per_frame (num_included : nat) (node_stats_map : gmap string NodeStats) : nat :=
  nat_sum (node_factor num_included ∘ snd <$> hash_order node_stats_map).
Definition max_cp_factor (num_included : nat) (critical_path : option ReportCriticalPath) (node_stats_map : gmap string NodeStats) : nat :=
  foldr Nat.max 0 ((λ kv : string * NodeStats, if on_critical_path critical_path kv.1 then node_factor num_included kv.2 else 0) <$> hash_order node_stats_map).

(** The critical path's time, and what the average latency has beyond it. *)
Definition scheduling_overhead (critical_path : option ReportCriticalPath) (avg_latency_us : f64) : f64 * f64 * f64 :=
  let cp_latency := match critical_path with Some cp => cp_estimated_latency_us cp | None => f64_of_Z 0 end in
  let cp_exec_us := match critical_path with Some cp => rounded 2 (cp_estimated_latency_us cp) | None => f64_of_Z 0 end in
  let overhead_us := f64_max (f64_sub avg_latency_us cp_latency) (f64_of_Z 0) in
  (cp_exec_us, overhead_us, if positive avg_latency_us then f64_mul (f64_div overhead_us avg_latency_us) (f64_of_Z 100) else f64_of_Z 0).

(** [TimeBuffer::write_json_report]: the report that is written, if there is one. *)
Definition write_json_report (b : TimeBuffer) (graph_edges : list (string * list string)) (exclude_frames stale_drops : nat) : run (option PerformanceReport) :=
  match collect_report_frame_data (tb_slot_statistics b) (tb_slots b - tb_system_threads b) exclude_frames with
  | None => Ret None
  | Some (included_total_times, per_frame_tasks, included_offsets) =>
      let num_included := length included_total_times in
      let! lat := latencies included_total_times included_offsets in
      let! (node_stats_map, worker_busy_us) := compute_node_stats per_frame_tasks (lt_wall lat) in
      let! critical_path := compute_critical_path_report graph_edges node_stats_map in
      let '(first_id, worker_busy_pct) := worker_utilization (lt_wall lat) worker_busy_us in
      let hints := node_hints critical_path node_stats_map ++ worker_hints first_id worker_busy_pct ++ path_hints critical_path (lt_avg lat) in
      let tasks_per_frame := total_tasks_per_frame num_included node_stats_map in
      let max_factor := max_cp_factor num_included critical_path node_stats_map in
      let '(cp_exec_us, overhead_us, overhead_pct) := scheduling_overhead critical_path (lt_avg lat) in
      let suggestions := generate_optimization_suggestions overhead_pct max_factor tasks_per_frame critical_path worker_busy_pct in
      Ret (Some (build_json_report_value num_included (lt_avg lat) (lt_p50 lat) (lt_p99 lat) (lt_p999 lat) (lt_sorted lat) (lt_throughput lat)
        tasks_per_frame cp_exec_us overhead_us overhead_pct (sched_interpretation critical_path overhead_pct) node_stats_map critical_path max_factor
        worker_busy_pct hints suggestions stale_drops))
  end.
End json.
