(* ===== verification/Controller.v ===== *)
(** The thread that collects the times ([AsyncTimeBuffer] of
    [tomii-core/src/time_buffer/buffer.rs]) and the manager of both ways to measure
    ([TimeBufferManager] of [mod.rs]).

    The controller takes requests from a channel and performs each under the lock of the
    buffer; reports are written by their callers, directly under the same lock. A panic
    under the lock, of the controller or of a report, leaves it poisoned: a controller that
    lives on then takes requests without performing them. The specification is the log of
    the requests: the statistics of a slot are the frames that the log describes, and the
    controller has the same effect as performing the requests in the order of the sends.

    Whether a text can be written to a file, or to the standard output, is up to the
    operating system, [writes]. *)
From S2P Require Import Prelude Float Timing Report.
From stdpp Require Import strings gmap.

Section controller.
(** The frequency of the cycle counter, and the outputs that can be written ([None] is the standard output). *)
Context (freq_ghz : f64) `{HashOrder} (writes : option string → bool).

(** ** The requests *)

Inductive TimingRequest :=
  | AddTaskTime (slot_id : nat) (task_name : string) (worker_id duration : Z)
  | AddTaskTimeCycles (slot_id : nat) (task_name : string) (worker_id cycles : Z)
  | AddTaskTimeInstant (slot_id : nat) (task_name : string) (worker_id start end_ : Z)
  | AddTaskTimeRdtsc (slot_id : nat) (task_name : string) (worker_id start_cycles end_cycles : Z)
  | StartSlotProcessing (slot_id : nat) (start_time : TimingMethod)
  | FinishSlotProcessing (slot_id : nat) (end_time : TimingMethod)
  | GetSlotStatistics (slot_id : nat)
  | PrintStats (bench_name : string) (out_file : option string) (exclude_frames : nat)
  | Shutdown.

(** What a request answers, if anything. *)
Inductive response := NoResponse | Finished (stats : SlotStats) | Statistics (stats : list SlotStats) | Printed.

(** [TimeBuffer::print_stats]: the figures are computed and their text is written, or the thread panics. *)
Definition print_stats_to (b : TimeBuffer) (out_file : option string) (exclude_frames : nat) : run unit :=
  let! _ := print_stats b exclude_frames in
  if writes out_file then Ret () else Panic.

(** A request on the buffer. *)
Definition perform (b : TimeBuffer) (r : TimingRequest) : run (TimeBuffer * response) :=
  let quiet (m : run TimeBuffer) := run_map (λ b, (b, NoResponse)) m in
  match r with
  | AddTaskTime s name w d => quiet (add_task_time b s name w d)
  | AddTaskTimeCycles s name w c => quiet (add_task_time_cycles freq_ghz b s name w c)
  | AddTaskTimeInstant s name w t t' => quiet (add_task_time_instant b s name w t t')
  | AddTaskTimeRdtsc s name w c c' => quiet (add_task_time_rdtsc freq_ghz b s name w c c')
  | StartSlotProcessing s t => quiet (start_slot_processing b s t)
  | FinishSlotProcessing s t => let! (b', stats) := finish_slot_processing freq_ghz b s t in Ret (b', Finished stats)
  | GetSlotStatistics s => let! stats := get_slot_statistics b s in Ret (b, Statistics stats)
  | PrintStats bench_name out_file exclude_frames => let! _ := print_stats_to b out_file exclude_frames in Ret (b, Printed)
  | Shutdown => Ret (b, NoResponse)
  end.

(** ** The controller *)

(** The thread serves requests until it is told to stop, or dies in a panic. *)
Inductive controller := Serving | Stopped | Dead.

Definition controller_eqb (a b : controller) : bool := match a, b with Serving, Serving | Stopped, Stopped | Dead, Dead => true | _, _ => false end.

(** [AsyncTimeBuffer]: the channel with the numbers of the requests sent, the buffer and whether
    its lock is poisoned, the thread, and what was answered: [None] for a request that was
    dropped with its way to answer. *)
Record AsyncTimeBuffer := mkAsync {
  ab_queue : list (nat * TimingRequest);
  ab_buffer : TimeBuffer;
  ab_poisoned : bool;
  ab_controller : controller;
  ab_responses : list (nat * option response);
  ab_sent : nat;
}.

Definition AsyncTimeBuffer_new (slots system_threads : nat) (use_rdtsc : bool) (base : TimingMethod) : AsyncTimeBuffer :=
  mkAsync [] (TimeBuffer_new slots system_threads use_rdtsc base) false Serving [] 0.

(** A send fails when the thread is gone. *)
Definition send_request (a : AsyncTimeBuffer) (r : TimingRequest) : AsyncTimeBuffer * bool :=
  if controller_eqb (ab_controller a) Serving
  then (mkAsync (ab_queue a ++ [(ab_sent a, r)]) (ab_buffer a) (ab_poisoned a) Serving (ab_responses a) (S (ab_sent a)), true)
  else (a, false).

(** One round of the thread: the next request. When the lock is poisoned, nothing is done for
    it. A panic kills the thread under the lock; what is in the channel of a thread that is gone is lost. *)
Definition controller_turn (a : AsyncTimeBuffer) : AsyncTimeBuffer :=
  match ab_controller a, ab_queue a with
  | Serving, (_, Shutdown) :: _ => mkAsync [] (ab_buffer a) (ab_poisoned a) Stopped (ab_responses a) (ab_sent a)
  | Serving, (n, r) :: queue =>
      if ab_poisoned a then mkAsync queue (ab_buffer a) true Serving (ab_responses a ++ [(n, None)]) (ab_sent a)
      else match perform (ab_buffer a) r with
      | Ret (b, x) => mkAsync queue b false Serving (ab_responses a ++ [(n, Some x)]) (ab_sent a)
      | Panic => mkAsync [] (ab_buffer a) true Dead (ab_responses a) (ab_sent a)
      end
  | _, _ => a
  end.

(** The answer to a request that was sent: the response, an error when its way to answer is gone, [None] while the caller waits. *)
Definition receive (a : AsyncTimeBuffer) (n : nat) : option (result response string) :=
  match find (λ x, x.1 =? n) (ab_responses a) with
  | Some (_, Some x) => Some (ROk x)
  | Some (_, None) => Some (RErr "Failed to receive response from controller")
  | None => if controller_eqb (ab_controller a) Serving then None else Some (RErr "Failed to receive response from controller")
  end.

(** [AsyncTimeBuffer::finish_slot_processing] and [get_slot_statistics] up to the wait: the number of the request to wait for. *)
Definition ask (a : AsyncTimeBuffer) (r : TimingRequest) : AsyncTimeBuffer * result nat string :=
  let (a', ok) := send_request a r in
  (a', if ok : bool then ROk (ab_sent a) else RErr "Failed to send request - controller may have shut down").

(** What a caller does on the buffer itself: [print_stats] and [write_json_report]. A report that cannot be written is logged, and no panic. *)
Inductive direct_call :=
  | DirectPrint (bench_name : string) (out_file : option string) (exclude_frames : nat)
  | DirectReport (graph_edges : list (string * list string)) (path : string) (exclude_frames stale_drops : nat).
Definition direct_on (b : TimeBuffer) (d : direct_call) : run unit :=
  match d with
  | DirectPrint _ out_file exclude_frames => print_stats_to b out_file exclude_frames
  | DirectReport graph_edges _ exclude_frames stale_drops => run_map (λ _, ()) (write_json_report b graph_edges exclude_frames stale_drops)
  end.

(** What a call comes to: it returns, the caller waits for the response with that number, or the caller panics. *)
Inductive outcome := Returned (r : result response string) | Waits (n : nat) | CallerPanics.

(** [AsyncTimeBuffer::print_stats] and [write_json_report]: under the lock, which a panic leaves poisoned. *)
Definition direct_async (a : AsyncTimeBuffer) (d : direct_call) : AsyncTimeBuffer * outcome :=
  if ab_poisoned a then (a, Returned (RErr "Failed to acquire lock on time buffer"))
  else match direct_on (ab_buffer a) d with
  | Ret _ => (a, Returned (ROk NoResponse))
  | Panic => (mkAsync (ab_queue a) (ab_buffer a) true (ab_controller a) (ab_responses a) (ab_sent a), CallerPanics)
  end.

(** ** The manager *)

(** [TimeBufferManager]: one lock that may be poisoned, or the controller. *)
Inductive TimeBufferManager :=
  | SyncManager (b : TimeBuffer) (poisoned : bool)
  | AsyncManager (a : AsyncTimeBuffer).

(** A call of an operation: [add_task_time] and [start_slot_processing] ignore errors, [finish_slot_processing] returns them. *)
Definition manager_call (m : TimeBufferManager) (r : TimingRequest) : TimeBufferManager * outcome :=
  let waits := match r with FinishSlotProcessing _ _ => true | _ => false end in
  match m with
  | AsyncManager a =>
      if waits then let (a', x) := ask a r in
        (AsyncManager a', match x with ROk n => Waits n | RErr e => Returned (RErr e) end)
      else (AsyncManager (send_request a r).1, Returned (ROk NoResponse))
  | SyncManager b true => (m, Returned (if waits then RErr "Failed to acquire sync buffer lock" else ROk NoResponse))
  | SyncManager b false =>
      match perform b r with
      | Ret (b', x) => (SyncManager b' false, Returned (ROk x))
      | Panic => (SyncManager b true, CallerPanics)
      end
  end.

(** [TimeBufferManager::print_stats] and [write_json_report]: an error is logged, and with a poisoned lock nothing is written. *)
Definition manager_direct (m : TimeBufferManager) (d : direct_call) : TimeBufferManager * outcome :=
  match m with
  | AsyncManager a =>
      let (a', x) := direct_async a d in
      (AsyncManager a', match x with CallerPanics => CallerPanics | _ => Returned (ROk NoResponse) end)
  | SyncManager b true => (m, Returned (ROk NoResponse))
  | SyncManager b false =>
      match direct_on b d with
      | Ret _ => (m, Returned (ROk NoResponse))
      | Panic => (SyncManager b true, CallerPanics)
      end
  end.

(** [TimeBufferManager::shutdown], and the drop of a manager: the controller is told to stop; it takes what is in the channel before. *)
Definition manager_shutdown (m : TimeBufferManager) : TimeBufferManager :=
  match m with AsyncManager a => AsyncManager (send_request a Shutdown).1 | SyncManager _ _ => m end.

(** ** The log *)

(** All requests of a log, one after the other. *)
Definition perform_one (st : TimeBuffer * list response) (r : TimingRequest) : run (TimeBuffer * list response) :=
  let! (b, x) := perform st.1 r in Ret (b, st.2 ++ [x]).
Definition perform_all (b : TimeBuffer) (log : list TimingRequest) : run (TimeBuffer * list response) := foldM perform_one (b, []) log.

(** What the log says of a slot: its frames with their begin, their end and the times of their
    tasks, and the frame under way. *)
Record slot_log := mkSlotLog {
  lg_start : option TimingMethod;
  lg_tasks : list (string * (Z * Z));
  lg_frames : list (TimingMethod * TimingMethod * list (string * (Z * Z)));
}.

(** The slot of a request, and the time of a task it reports. *)
Definition request_slot (r : TimingRequest) : option nat :=
  match r with
  | AddTaskTime s _ _ _ | AddTaskTimeCycles s _ _ _ | AddTaskTimeInstant s _ _ _ _ | AddTaskTimeRdtsc s _ _ _ _
  | StartSlotProcessing s _ | FinishSlotProcessing s _ | GetSlotStatistics s => Some s
  | PrintStats _ _ _ | Shutdown => None
  end.
Definition request_time (r : TimingRequest) : option (string * (Z * Z)) :=
  match r with
  | AddTaskTime _ name w d => Some (name, (w, d))
  | AddTaskTimeCycles _ name w c => Some (name, (w, cycles_duration freq_ghz c))
  | AddTaskTimeInstant _ name w t t' => Some (name, (w, duration_since t' t))
  | AddTaskTimeRdtsc _ name w c c' => Some (name, (w, cycles_duration freq_ghz (sat_sub c' c)))
  | _ => None
  end.

Definition log_request (r : TimingRequest) (l : slot_log) : slot_log :=
  match r, request_time r with
  | _, Some x => mkSlotLog (lg_start l) (lg_tasks l ++ [x]) (lg_frames l)
  | StartSlotProcessing _ t, _ => mkSlotLog (Some t) (lg_tasks l) (lg_frames l)
  | FinishSlotProcessing _ t, _ =>
      match lg_start l with
      | Some t0 => mkSlotLog None [] (lg_frames l ++ [(t0, t, lg_tasks l)])
      | None => l
      end
  | _, _ => l
  end.
Definition slot_view (slot : nat) (log : list TimingRequest) : slot_log :=
  foldl (λ l r, if decide (request_slot r = Some slot) then log_request r l else l) (mkSlotLog None [] []) log.

(** The times of the tasks by their names. *)
Definition grouped (tasks : list (string * (Z * Z))) : Tasks := foldl (λ m x, push_entry x.1 x.2 m) ∅ tasks.

(** A frame of the log is what the statistics say of it. *)
Definition frame_stats (base : TimingMethod) (slot i : nat) (frame : TimingMethod * TimingMethod * list (string * (Z * Z))) (st : SlotStats) : Prop :=
  st_slot_id st = slot ∧ st_frame_count st = i
  ∧ measure_duration freq_ghz frame.1.1 frame.1.2 = Ret (st_total_time st)
  ∧ measure_duration freq_ghz base frame.1.1 = Ret (st_start_offset st)
  ∧ measure_duration freq_ghz base frame.1.2 = Ret (st_end_offset st)
  ∧ st_task_times st = grouped frame.2.

(** A log that the buffer [b0] takes: its slots exist, frames begin before they end, all times are
    of the kind of the buffer, and what is to be printed can be printed there. *)
Definition same_kind (a b : TimingMethod) : bool := match a, b with TInstant _, TInstant _ | TRdtsc _, TRdtsc _ => true | _, _ => false end.
Definition request_ok (base : TimingMethod) (slots : nat) (view : nat → slot_log) (r : TimingRequest) : Prop :=
  (∀ s, request_slot r = Some s → s < slots)
  ∧ match r with
    | StartSlotProcessing s t => same_kind base t = true
    | FinishSlotProcessing s t => same_kind base t = true ∧ is_Some (lg_start (view s))
    | _ => True
    end.
Definition printable (b : TimeBuffer) (r : TimingRequest) : Prop :=
  match r with
  | PrintStats _ out_file exclude_frames => writes out_file = true ∧ ∃ figures, print_stats b exclude_frames = Ret figures
  | _ => True
  end.
Definition log_ok (b0 : TimeBuffer) (log : list TimingRequest) : Prop :=
  ∀ i r, log !! i = Some r →
    request_ok (tb_base_time b0) (tb_slots b0) (λ s, slot_view s (take i log)) r
    ∧ ∀ b xs, perform_all b0 (take i log) = Ret (b, xs) → printable b r.
End controller.
