(* ===== verification/TimingSpec.v ===== *)
(** What the time measurement keeps.

    The statistics of a slot are the frames of the log of calls, with the times of their
    tasks by name, each frame measured once. The controller thread serves the requests in
    the order of the sends, whatever the interleaving, and gives the answers the buffer
    would give at once, until a report of a caller panics under the lock; a log that is in
    order never stops it. *)
From S2P Require Import Prelude Float Timing Report Controller.
From stdpp Require Import strings gmap.

(** Hash maps visited in the order of stdpp's finite maps. *)
#[export] Instance map_order : HashOrder := { hash_order := λ _ _ _ _, map_to_list; hash_order_perm := λ _ _ _ _ _, reflexivity _ }.

Section spec.
Context (freq_ghz : f64) `{HashOrder} (writes : option string → bool).
Implicit Types (b : TimeBuffer) (log : list TimingRequest).

(** ** Tasks by name *)

Definition times_of (name : string) (tasks : list (string * (Z * Z))) : list (Z * Z) := (filter (λ x, x.1 = name) tasks).*2.
Definition nonempty {A} (l : list A) : option (list A) := match l with [] => None | _ => Some l end.

Lemma grouped_snoc tasks x : grouped (tasks ++ [x]) = push_entry x.1 x.2 (grouped tasks).
Proof. unfold grouped. by rewrite foldl_app. Qed.

Lemma times_of_snoc name tasks x : times_of name (tasks ++ [x]) = times_of name tasks ++ (if decide (x.1 = name) then [x.2] else []).
Proof. unfold times_of. rewrite filter_app, fmap_app. f_equal. rewrite filter_cons, filter_nil. by case_decide. Qed.

Lemma grouped_lookup tasks name : grouped tasks !! name = nonempty (times_of name tasks).
Proof.
  induction tasks as [|x tasks IH] using rev_ind; [apply lookup_empty|].
  rewrite grouped_snoc, times_of_snoc. unfold push_entry. case_decide as E.
  - subst name. rewrite lookup_insert_eq, IH. by destruct (times_of x.1 tasks).
  - by rewrite lookup_insert_ne, app_nil_r by done.
Qed.

Lemma copy_task_times s entry : entry.2 ≠ [] →
  st_task_times (copy_task s entry) = <[entry.1 := default [] (st_task_times s !! entry.1) ++ entry.2]> (st_task_times s).
Proof.
  unfold copy_task. induction (entry.2) as [|x l IH] using rev_ind; [done|]. intros _. rewrite foldl_app. cbn. unfold push_entry.
  replace (x.1, x.2) with x by (by destruct x). destruct l as [|y l]; [done|]. rewrite IH by done. rewrite lookup_insert_eq. cbn [default from_option].
  by rewrite insert_insert_eq, app_assoc.
Qed.

Lemma copy_tasks_same (m : Tasks) (s : SlotStats) : st_task_times s = ∅ → (∀ k l, m !! k = Some l → l ≠ []) →
  st_task_times (copy_tasks m s) = m.
Proof.
  intros Hs Hm. unfold copy_tasks.
  assert (Hgen : ∀ es s, NoDup es.*1 → (∀ k l, (k, l) ∈ es → l ≠ []) → (∀ k, k ∈ es.*1 → st_task_times s !! k = None) →
    st_task_times (foldl copy_task s es) = list_to_map es ∪ st_task_times s).
  { clear. induction es as [|[k l] es IH]; intros s Hnd Hne Hd; [by cbn; rewrite (left_id_L ∅ (∪))|].
    rewrite list_to_map_cons. cbn [foldl]. apply NoDup_cons in Hnd as [Hk Hnd]. rewrite IH; [|done|intros; eapply Hne; by right|].
    - rewrite copy_task_times by (eapply Hne; left). cbn [fst snd]. rewrite Hd by left. cbn [default from_option app].
      rewrite <- insert_union_l, insert_union_r; [done|]. by apply not_elem_of_list_to_map_1.
    - intros k' Hk'. rewrite copy_task_times by (eapply Hne; left). cbn [fst snd]. rewrite lookup_insert_ne by (by intros <-). apply Hd. by right. }
  rewrite Hgen, Hs, list_to_map_to_list, (right_id_L ∅ (∪)); [done|apply NoDup_fst_map_to_list| |].
  - intros k l Hk%elem_of_map_to_list. by eapply Hm.
  - intros k _. by rewrite Hs, lookup_empty.
Qed.

Lemma grouped_nonempty tasks k l : grouped tasks !! k = Some l → l ≠ [].
Proof. rewrite grouped_lookup. by destruct (times_of k tasks); intros [= <-]. Qed.

Lemma copy_grouped tasks s : st_task_times s = ∅ → st_task_times (copy_tasks (grouped tasks) s) = grouped tasks.
Proof. intros Hs. apply copy_tasks_same; [done|]. intros k l. apply grouped_nonempty. Qed.

Lemma copy_tasks_rest m s : ∃ t, copy_tasks m s = mkStats t (st_total_time s) (st_slot_id s) (st_frame_count s) (st_start_offset s) (st_end_offset s).
Proof.
  unfold copy_tasks. revert s. induction (map_to_list m) as [|[k l] es IH]; intros s; cbn [foldl]; [by exists (st_task_times s); destruct s|].
  destruct (IH (copy_task s (k, l))) as [t ->]. exists t. unfold copy_task. cbn [fst snd].
  assert (E : ∀ s, ∃ t, foldl (λ s x, stats_add_task_time s k x.1 x.2) s l = mkStats t (st_total_time s) (st_slot_id s) (st_frame_count s) (st_start_offset s) (st_end_offset s)).
  { clear. induction l as [|x l IHl]; intros s; cbn; [by exists (st_task_times s); destruct s|]. by destruct (IHl (stats_add_task_time s k x.1 x.2)) as [t ->]; exists t. }
  by destruct (E s) as [t' ->].
Qed.

(** ** The buffer keeps the log *)

Record buffer_keeps (base : TimingMethod) (slots : nat) (view : nat → slot_log) b : Prop := {
  bk_slots : tb_slots b = slots;
  bk_base : tb_base_time b = base;
  bk_starts : ∀ s, tb_slot_start_times b !! s = if decide (s < slots) then Some (lg_start (view s)) else None;
  bk_tasks : ∀ s, tb_current_slot_tasks b !! s = if decide (s < slots) then Some (grouped (lg_tasks (view s))) else None;
  bk_length : length (tb_slot_statistics b) = slots;
  bk_stats : ∀ s stats, tb_slot_statistics b !! s = Some stats →
    length stats = length (lg_frames (view s))
    ∧ ∀ i frame st, lg_frames (view s) !! i = Some frame → stats !! i = Some st → frame_stats freq_ghz base s i frame st;
}.

Definition view_step (view : nat → slot_log) (r : TimingRequest) : nat → slot_log :=
  λ s, if decide (request_slot r = Some s) then log_request freq_ghz r (view s) else view s.

Lemma slot_view_snoc log r s : slot_view freq_ghz s (log ++ [r]) = view_step (λ s, slot_view freq_ghz s log) r s.
Proof. unfold slot_view, view_step. by rewrite foldl_app. Qed.

Lemma vec_len {A} (l : list A) (slots s : nat) (x : A) : (∀ s, is_Some (l !! s) ↔ s < slots) → s < slots → vec_set l s x = Ret (<[s := x]> l).
Proof. intros Hl Hs. apply vec_set_lt, lookup_lt_is_Some, Hl, Hs. Qed.

Section step.
Context (base : TimingMethod) (slots : nat) (view : nat → slot_log) (b : TimeBuffer) (Hk : buffer_keeps base slots view b).

Lemma start_lookup s : s < slots → vec_get (tb_slot_start_times b) s = Ret (lg_start (view s)).
Proof. intros Hs. apply vec_get_lookup. rewrite (bk_starts _ _ _ _ Hk). by rewrite decide_True. Qed.
Lemma tasks_lookup s : s < slots → vec_get (tb_current_slot_tasks b) s = Ret (grouped (lg_tasks (view s))).
Proof. intros Hs. apply vec_get_lookup. rewrite (bk_tasks _ _ _ _ Hk). by rewrite decide_True. Qed.
Lemma start_set s x : s < slots → vec_set (tb_slot_start_times b) s x = Ret (<[s := x]> (tb_slot_start_times b)).
Proof. apply vec_len. intros s'. rewrite (bk_starts _ _ _ _ Hk). by case_decide. Qed.
Lemma tasks_set s x : s < slots → vec_set (tb_current_slot_tasks b) s x = Ret (<[s := x]> (tb_current_slot_tasks b)).
Proof. apply vec_len. intros s'. rewrite (bk_tasks _ _ _ _ Hk). by case_decide. Qed.

Lemma checked_in {A} s (k : run A) : s < slots → checked b s k = k.
Proof. intros Hs. unfold checked. by rewrite (bk_slots _ _ _ _ Hk), (proj2 (Nat.leb_gt _ _)) by done. Qed.
Lemma checked_out {A} s (k : run A) : slots ≤ s → checked b s k = Panic.
Proof. intros Hs. unfold checked. by rewrite (bk_slots _ _ _ _ Hk), (proj2 (Nat.leb_le _ _)) by done. Qed.

(** A vector with one entry changed, as a function of the view. *)
Lemma insert_view {A} (l : list A) (f : slot_log → A) s v : s < slots →
  (∀ s, l !! s = if decide (s < slots) then Some (f (view s)) else None) →
  ∀ s', <[s := f v]> l !! s' = if decide (s' < slots) then Some (f (if decide (s' = s) then v else view s')) else None.
Proof.
  intros Hs Hl s'. destruct (decide (s' = s)) as [->|Hne].
  - rewrite list_lookup_insert_eq; [by rewrite decide_True|]. apply lookup_lt_is_Some. by rewrite Hl, decide_True.
  - rewrite list_lookup_insert_ne by done. apply Hl.
Qed.

Lemma add_keeps s name w d : s < slots → ∃ b', add_task_time b s name w d = Ret b'
  ∧ buffer_keeps base slots (λ s', if decide (s' = s) then mkSlotLog (lg_start (view s)) (lg_tasks (view s) ++ [(name, (w, d))]) (lg_frames (view s)) else view s') b'.
Proof.
  intros Hs. unfold add_task_time. rewrite checked_in, tasks_lookup by done. cbn [run_bind]. rewrite tasks_set by done. cbn [run_bind].
  eexists. split; [done|]. destruct Hk as [H1 H2 H3 H4 H5 H6]. split; try done.
  - intros s'. cbn [with_current tb_slot_start_times]. rewrite H3. by destruct (decide (s' = s)) as [->|].
  - intros s'. cbn [with_current tb_current_slot_tasks].
    rewrite <- (grouped_snoc _ (name, (w, d))).
    rewrite (insert_view _ (λ v, grouped (lg_tasks v)) s (mkSlotLog (lg_start (view s)) (lg_tasks (view s) ++ [(name, (w, d))]) (lg_frames (view s))) Hs H4). done.
  - intros s' stats Hst. destruct (H6 s' stats Hst) as [Hl Hf]. destruct (decide (s' = s)) as [->|]; done.
Qed.

Lemma start_keeps s t : s < slots → ∃ b', start_slot_processing b s t = Ret b'
  ∧ buffer_keeps base slots (λ s', if decide (s' = s) then mkSlotLog (Some t) (lg_tasks (view s)) (lg_frames (view s)) else view s') b'.
Proof.
  intros Hs. unfold start_slot_processing. rewrite checked_in, start_set by done. cbn [run_bind].
  eexists. split; [done|]. destruct Hk as [H1 H2 H3 H4 H5 H6]. split; try done.
  - intros s'. cbn [with_starts tb_slot_start_times].
    by rewrite (insert_view _ lg_start s (mkSlotLog (Some t) (lg_tasks (view s)) (lg_frames (view s))) Hs H3).
  - intros s'. cbn [with_starts tb_current_slot_tasks]. rewrite H4. by destruct (decide (s' = s)) as [->|].
  - intros s' stats Hst. destruct (H6 s' stats Hst) as [Hl Hf]. destruct (decide (s' = s)) as [->|]; done.
Qed.

(** A finished frame: whether it panics, and what is kept of it. *)
Lemma finish_keeps s t b' stats : s < slots → finish_slot_processing freq_ghz b s t = Ret (b', stats) →
  ∃ t0, lg_start (view s) = Some t0
  ∧ buffer_keeps base slots (λ s', if decide (s' = s) then mkSlotLog None [] (lg_frames (view s) ++ [(t0, t, lg_tasks (view s))]) else view s') b'
  ∧ frame_stats freq_ghz base s (length (lg_frames (view s))) (t0, t, lg_tasks (view s)) stats.
Proof.
  intros Hs. unfold finish_slot_processing. rewrite checked_in, start_lookup by done. cbn [run_bind].
  destruct (lg_start (view s)) as [t0|] eqn:Ht0; [|done]. cbn [unwrap run_bind]. rewrite start_set by done. cbn [run_bind].
  intros (total & Htot & (so & Hso & (eo & Heo & (old & Hold & Hr)%run_bind_Ret)%run_bind_Ret)%run_bind_Ret)%run_bind_Ret.
  rewrite tasks_lookup in Hr by done. cbn [run_bind] in Hr. apply run_bind_Ret in Hr as (all & [Hlen ->]%vec_set_Ret & Hr).
  rewrite tasks_set in Hr by done. cbn [run_bind] in Hr. injection Hr as <- <-. exists t0. split; [done|].
  apply vec_get_Ret in Hold. destruct Hk as [H1 H2 H3 H4 H5 H6]. rewrite H2 in Hso, Heo. destruct (H6 s old Hold) as [Hlo Hfo].
  set (st := copy_tasks _ _).
  assert (Hst : frame_stats freq_ghz base s (length (lg_frames (view s))) (t0, t, lg_tasks (view s)) st).
  { subst st. destruct (copy_tasks_rest (grouped (lg_tasks (view s))) (mkStats ∅ total s (length old) so eo)) as [u Et].
    assert (Eg : u = grouped (lg_tasks (view s))) by (rewrite <- (copy_grouped _ (mkStats ∅ total s (length old) so eo)) by done; by rewrite Et).
    rewrite Et, Eg.
    split_and!; cbn; try done. }
  split; [|done]. split; try done.
  - intros s'. cbn. by rewrite (insert_view _ lg_start s (mkSlotLog None [] (lg_frames (view s) ++ [(t0, t, lg_tasks (view s))])) Hs H3).
  - intros s'. cbn. by rewrite (insert_view _ (λ v, grouped (lg_tasks v)) s (mkSlotLog None [] (lg_frames (view s) ++ [(t0, t, lg_tasks (view s))])) Hs H4).
  - cbn. by rewrite length_insert.
  - intros s' l. cbn. destruct (decide (s' = s)) as [->|Hne].
    + rewrite list_lookup_insert_eq by done. intros [= <-]. cbn [lg_frames]. rewrite !length_app, Hlo. split; [done|].
      intros i frame x. rewrite !lookup_app, Hlo. destruct (lg_frames (view s) !! i) as [fr|] eqn:Hfi.
      { intros [= <-]. pose proof (lookup_lt_Some _ _ _ Hfi) as Hi. rewrite <- Hlo in Hi. apply lookup_lt_is_Some in Hi as [y Hy]. rewrite Hy. intros [= <-]. by eapply Hfo. }
      apply lookup_ge_None in Hfi. destruct (old !! i) eqn:Hoi; [apply lookup_lt_Some in Hoi; lia|].
      intros [Hi <-]%list_lookup_singleton_Some [_ <-]%list_lookup_singleton_Some. replace i with (length (lg_frames (view s))) by lia. done.
    + rewrite list_lookup_insert_ne by done. intros Hl. by apply H6.
Qed.

Lemma same_kind_duration t t' : same_kind t t' = true → ∃ d, measure_duration freq_ghz t t' = Ret d.
Proof. destruct t, t'; cbn; try done; intros _; by eexists. Qed.

Lemma same_kind_via t t' : same_kind base t = true → same_kind base t' = true → same_kind t t' = true.
Proof. by destruct base, t, t'. Qed.

Lemma finish_total s t t0 : s < slots → lg_start (view s) = Some t0 → same_kind base t0 = true → same_kind base t = true →
  ∃ x, finish_slot_processing freq_ghz b s t = Ret x.
Proof.
  intros Hs Ht0 K0 K. unfold finish_slot_processing. rewrite checked_in, start_lookup by done. cbn [run_bind]. rewrite Ht0. cbn [unwrap run_bind].
  rewrite start_set by done. cbn [run_bind]. destruct (same_kind_duration t0 t) as [d ->]; [by apply same_kind_via|]. cbn [run_bind].
  rewrite (bk_base _ _ _ _ Hk). destruct (same_kind_duration base t0 K0) as [d1 ->]. cbn [run_bind]. destruct (same_kind_duration base t K) as [d2 ->]. cbn [run_bind].
  assert (Hl : s < length (tb_slot_statistics b)) by by rewrite (bk_length _ _ _ _ Hk).
  destruct (vec_get_lt _ _ Hl) as (old & -> & _). cbn [run_bind]. rewrite tasks_lookup by done. cbn [run_bind].
  rewrite vec_set_lt by done. cbn [run_bind]. rewrite tasks_set by done. by eexists.
Qed.
End step.

Lemma buffer_keeps_ext base slots view view' b : (∀ s, view s = view' s) → buffer_keeps base slots view b → buffer_keeps base slots view' b.
Proof. intros E []. split; try done; intros s; rewrite <- E; auto. Qed.

Lemma quiet_Ret m b' x : run_map (λ b, (b, NoResponse)) m = Ret (b', x) ↔ m = Ret b' ∧ x = NoResponse.
Proof. destruct m; cbn; [|by split; [|intros [? _]]]. split; [by intros [= -> <-]|by intros [[= ->] ->]]. Qed.

Lemma perform_range base slots view b r s : buffer_keeps base slots view b → request_slot r = Some s → slots ≤ s → perform freq_ghz writes b r = Panic.
Proof.
  intros Hk Hr Hs. destruct r; cbn in *; try done; injection Hr as ->; unfold add_task_time_rdtsc, add_task_time_instant, add_task_time_cycles, add_task_time, start_slot_processing, finish_slot_processing, get_slot_statistics;
    by rewrite (checked_out base slots view b Hk).
Qed.

(** A request that is served adds itself to what the buffer keeps. *)
Lemma perform_keeps base slots view b r b' x : buffer_keeps base slots view b → perform freq_ghz writes b r = Ret (b', x) →
  buffer_keeps base slots (view_step view r) b'.
Proof.
  intros Hk Hp. destruct (request_slot r) as [s|] eqn:Hr.
  2:{ assert (b' = b) as -> by (destruct r; try done; cbn in Hp; [apply run_bind_Ret in Hp as (? & _ & [= -> _])|injection Hp as -> _]; done).
      eapply buffer_keeps_ext; [|exact Hk]. intros s. unfold view_step. by rewrite Hr. }
  destruct (le_lt_dec slots s) as [Hs|Hs]; [by rewrite (perform_range _ _ _ _ _ _ Hk Hr Hs) in Hp|].
  assert (Hext : ∀ v, v = log_request freq_ghz r (view s) →
    buffer_keeps base slots (λ s', if decide (s' = s) then v else view s') b' → buffer_keeps base slots (view_step view r) b').
  { intros v ->. apply buffer_keeps_ext. intros s'. unfold view_step. rewrite Hr. destruct (decide (s' = s)) as [->|]; [by rewrite decide_True|].
    rewrite decide_False by congruence. done. }
  destruct r as [? name w d|? name w c|? name w t t'|? name w c c'|? t|? t|?|? ? ?|]; cbn in Hr; try done; injection Hr as ->; cbn [perform] in Hp.
  1-4: apply quiet_Ret in Hp as [Hp ->]; unfold add_task_time_rdtsc, add_task_time_instant, add_task_time_cycles in Hp;
    match type of Hp with add_task_time _ _ ?n ?w ?d = _ => destruct (add_keeps base slots view b Hk s n w d Hs) as (b1 & E & H1) end;
    rewrite Hp in E; injection E as <-; eapply Hext; [|exact H1]; done.
  - apply quiet_Ret in Hp as [Hp ->]. destruct (start_keeps base slots view b Hk s t Hs) as (b1 & E & H1). rewrite Hp in E. injection E as <-. by eapply Hext.
  - apply run_bind_Ret in Hp as ([b1 stats] & Hp & [= <- <-]).
    destruct (finish_keeps base slots view b Hk s t b1 stats Hs Hp) as (t0 & Ht0 & H1 & _). eapply Hext; [|exact H1]. cbn. by rewrite Ht0.
  - apply run_bind_Ret in Hp as (stats & Hp & [= <- <-]). eapply Hext; [|eapply buffer_keeps_ext; [|exact Hk]]; [done|].
    intros s'. by destruct (decide (s' = s)) as [->|].
Qed.

(** No request panics whose slot exists, whose frame has begun, and whose times are of the buffer's kind. *)
Lemma perform_total base slots view b r : buffer_keeps base slots view b →
  (∀ s t, lg_start (view s) = Some t → same_kind base t = true) → request_ok base slots view r → printable writes b r → ∃ b' x, perform freq_ghz writes b r = Ret (b', x).
Proof.
  intros Hk Hkinds [Hs Hr] Hpr. destruct r as [s name w d|s name w c|s name w t t'|s name w c c'|s t|s t|s|bench out n|]; cbn [perform]; try specialize (Hs s eq_refl); try (by do 2 eexists).
  1-4: unfold add_task_time_rdtsc, add_task_time_instant, add_task_time_cycles;
    match goal with |- context [add_task_time _ _ ?n ?w ?d] => destruct (add_keeps base slots view b Hk s n w d Hs) as (b1 & -> & _) end; by do 2 eexists.
  - destruct (start_keeps base slots view b Hk s t Hs) as (b1 & -> & _). by do 2 eexists.
  - destruct Hr as [K [t0 Ht0]]. destruct (finish_total base slots view b Hk s t t0 Hs Ht0 (Hkinds s t0 Ht0) K) as [[b1 st] ->]. by do 2 eexists.
  - unfold get_slot_statistics. rewrite (checked_in base slots view b Hk) by done. assert (Hl : s < length (tb_slot_statistics b)) by by rewrite (bk_length _ _ _ _ Hk).
    destruct (vec_get_lt _ _ Hl) as (old & -> & _). by do 2 eexists.
  - destruct Hpr as (Hw & x & Hx). unfold print_stats_to. rewrite Hx. cbn [run_bind]. rewrite Hw. by do 2 eexists.
Qed.

Lemma new_keeps slots threads rdtsc base : buffer_keeps base slots (λ s, slot_view freq_ghz s []) (TimeBuffer_new slots threads rdtsc base).
Proof.
  assert (Hrep : ∀ A (x : A) s, replicate slots x !! s = if decide (s < slots) then Some x else None).
  { intros A x s. case_decide; [by apply lookup_replicate_2|apply lookup_ge_None_2; rewrite length_replicate; lia]. }
  split; cbn; try done; [apply length_replicate|].
  intros s stats. rewrite Hrep. case_decide; [|done]. intros [= <-]. done.
Qed.

Lemma perform_all_snoc b log r : perform_all freq_ghz writes b (log ++ [r]) = let! st := perform_all freq_ghz writes b log in perform_one freq_ghz writes st r.
Proof. unfold perform_all. rewrite foldM_app. destruct (foldM _ _ log); cbn; [|done]. by destruct (perform_one _ _ _). Qed.

Lemma perform_all_keeps slots threads rdtsc base log b xs :
  perform_all freq_ghz writes (TimeBuffer_new slots threads rdtsc base) log = Ret (b, xs) →
  buffer_keeps base slots (λ s, slot_view freq_ghz s log) b.
Proof.
  revert b xs. induction log as [|r log IH] using rev_ind; intros b xs; [intros [= <- <-]; apply new_keeps|].
  rewrite perform_all_snoc. intros ([b1 xs1] & H1 & Hr)%run_bind_Ret. unfold perform_one in Hr. apply run_bind_Ret in Hr as ([b2 x] & Hp & [= <- <-]).
  eapply buffer_keeps_ext; [intros s; symmetry; apply slot_view_snoc|]. eapply perform_keeps; [by eapply IH|exact Hp].
Qed.

Lemma log_ok_snoc b0 log r : log_ok freq_ghz writes b0 (log ++ [r]) →
  log_ok freq_ghz writes b0 log ∧ request_ok (tb_base_time b0) (tb_slots b0) (λ s, slot_view freq_ghz s log) r
  ∧ ∀ b xs, perform_all freq_ghz writes b0 log = Ret (b, xs) → printable writes b r.
Proof.
  intros Hok. split.
  - intros i x Hi. pose proof (lookup_lt_Some _ _ _ Hi). specialize (Hok i x). rewrite lookup_app_l, take_app_le in Hok by lia. auto.
  - specialize (Hok (length log) r). rewrite lookup_app_r, Nat.sub_diag, take_app_length in Hok by lia. auto.
Qed.

Lemma log_kinds b0 log s t : log_ok freq_ghz writes b0 log → lg_start (slot_view freq_ghz s log) = Some t → same_kind (tb_base_time b0) t = true.
Proof.
  induction log as [|r log IH] using rev_ind; intros Hok; [done|]. apply log_ok_snoc in Hok as (Hok & [_ Hr] & _). rewrite slot_view_snoc. unfold view_step.
  case_decide; [|by apply IH]. destruct r; cbn; try (by apply IH); [by intros [= <-]|].
  destruct (lg_start (slot_view freq_ghz s log)) eqn:E; [done|]. intros Hst. by rewrite Hst in E.
Qed.

Lemma perform_all_total slots threads rdtsc base log : log_ok freq_ghz writes (TimeBuffer_new slots threads rdtsc base) log →
  ∃ b xs, perform_all freq_ghz writes (TimeBuffer_new slots threads rdtsc base) log = Ret (b, xs).
Proof.
  induction log as [|r log IH] using rev_ind; intros Hok; [by do 2 eexists|]. pose proof (log_ok_snoc _ _ _ Hok) as (Hok1 & Hr & Hpr).
  destruct (IH Hok1) as (b & xs & Hb). rewrite perform_all_snoc, Hb. cbn [run_bind]. unfold perform_one. cbn [fst snd].
  destruct (perform_total base slots _ b r (perform_all_keeps _ _ _ _ _ _ _ Hb) (λ s t, log_kinds _ log s t Hok1) Hr (Hpr b xs Hb)) as (b' & x & ->).
  by do 2 eexists.
Qed.

(** C38. The statistics are the log. When the slots of all requests exist, frames begin before they
    end, times are of the kind of the buffer, and what is to be printed can be printed at its place
    in the log (its figures are computed and its output can be written), no request panics; the statistics of a slot are
    then its finished frames in their order, each numbered and with its length, its begin and its
    end, and each task has in a frame exactly the times reported since the frame before, in the
    order of the reports. *)
Theorem statistics_follow_log (slots threads : nat) (rdtsc : bool) (base : TimingMethod) (log : list TimingRequest)
    (Hok : log_ok freq_ghz writes (TimeBuffer_new slots threads rdtsc base) log) :
  ∃ b xs, perform_all freq_ghz writes (TimeBuffer_new slots threads rdtsc base) log = Ret (b, xs) ∧ length xs = length log
  ∧ ∀ s, s < slots → ∃ stats, get_slot_statistics b s = Ret stats
    ∧ length stats = length (lg_frames (slot_view freq_ghz s log))
    ∧ ∀ i frame st, lg_frames (slot_view freq_ghz s log) !! i = Some frame → stats !! i = Some st →
        frame_stats freq_ghz base s i frame st
        ∧ ∀ name, st_task_times st !! name = nonempty (times_of name frame.2).
Proof.
  destruct (perform_all_total slots threads rdtsc base log Hok) as (b & xs & Hb). exists b, xs. split; [done|].
  pose proof (perform_all_keeps _ _ _ _ _ _ _ Hb) as Hk. split.
  { clear Hk Hok. revert b xs Hb. induction log as [|r log IH] using rev_ind; intros b xs; [by intros [= <- <-]|].
    rewrite perform_all_snoc. intros ([b1 xs1] & H1 & Hr)%run_bind_Ret. apply run_bind_Ret in Hr as ([b2 x] & _ & [= <- <-]).
    rewrite !length_app, (IH _ _ H1). done. }
  intros s Hs. unfold get_slot_statistics. rewrite (checked_in base slots _ b Hk) by done.
  assert (Hl : s < length (tb_slot_statistics b)) by by rewrite (bk_length _ _ _ _ Hk).
  destruct (vec_get_lt _ _ Hl) as (stats & -> & Hst). exists stats. split; [done|].
  destruct (bk_stats _ _ _ _ Hk s stats Hst) as [Hlen Hf]. split; [done|]. intros i frame st Hi Hj. specialize (Hf i frame st Hi Hj).
  split; [done|]. intros name. destruct Hf as (_ & _ & _ & _ & _ & ->). apply grouped_lookup.
Qed.

(** ** The controller *)

(** What happens: a caller sends a request, the controller takes one, or a caller reports on the buffer itself. *)
Inductive async_event := Send (r : TimingRequest) | TakeNext | Direct (d : direct_call).

(** The state with the log of the requests that were accepted. *)
Definition async_step (st : AsyncTimeBuffer * list TimingRequest) (ev : async_event) : AsyncTimeBuffer * list TimingRequest :=
  match ev with
  | Send r => let (a, ok) := send_request st.1 r in (a, if ok : bool then st.2 ++ [r] else st.2)
  | TakeNext => (controller_turn freq_ghz writes st.1, st.2)
  | Direct d => ((direct_async writes st.1 d).1, st.2)
  end.
Definition async_run (a : AsyncTimeBuffer) (evs : list async_event) : AsyncTimeBuffer * list TimingRequest := foldl async_step (a, []) evs.

(** The requests with their numbers. *)
Definition numbered {A} (k : nat) (l : list A) : list (nat * A) := imap (λ i x, (k + i, x)) l.

(** The first [k] requests of the log have been served, and the [j] after them were taken while the lock was poisoned. *)
Record served (b0 : TimeBuffer) (a : AsyncTimeBuffer) (log : list TimingRequest) (k j : nat) (xs : list response) : Prop := {
  sv_done : perform_all freq_ghz writes b0 (take k log) = Ret (ab_buffer a, xs);
  sv_count : k + j ≤ length log ∧ length xs = k ∧ ab_sent a = length log;
  sv_responses : ab_responses a = numbered 0 ((Some <$> xs) ++ replicate j None);
  sv_running : Shutdown ∉ take (k + j) log;
  sv_dropped : ab_poisoned a = false → j = 0;
  sv_state : match ab_controller a with
    | Serving => ab_queue a = numbered (k + j) (drop (k + j) log)
    | Stopped => log !! (k + j) = Some Shutdown
    | Dead => ab_poisoned a = true ∧ j = 0 ∧ ∃ r, log !! k = Some r ∧ perform freq_ghz writes (ab_buffer a) r = Panic
    end;
}.

Lemma numbered_snoc {A} k (l : list A) x : numbered k (l ++ [x]) = numbered k l ++ [(k + length l, x)].
Proof. unfold numbered. rewrite imap_app. cbn. by rewrite Nat.add_0_r. Qed.
Lemma numbered_cons {A} k (x : A) l : numbered k (x :: l) = (k, x) :: numbered (S k) l.
Proof. unfold numbered. cbn. rewrite Nat.add_0_r. f_equal. apply imap_ext. intros. cbn. f_equal. lia. Qed.

Lemma serving_eqb c : controller_eqb c Serving = true ↔ c = Serving. Proof. by destruct c. Qed.

Lemma send_served b0 a log k j xs r : served b0 a log k j xs →
  served b0 (async_step (a, log) (Send r)).1 (async_step (a, log) (Send r)).2 k j xs.
Proof.
  intros [H1 (H2 & H3 & H4) H5 H6 H7 H8]. cbn. unfold send_request. destruct (controller_eqb _ _) eqn:Hc; [|by split].
  apply serving_eqb in Hc. rewrite Hc in H8.
  assert (Ht : take k (log ++ [r]) = take k log) by (by rewrite take_app_le by lia).
  assert (Ht' : take (k + j) (log ++ [r]) = take (k + j) log) by (by rewrite take_app_le).
  split; cbn [fst snd ab_buffer ab_queue ab_poisoned ab_controller ab_responses ab_sent]; rewrite ?Ht, ?Ht'; try done.
  - rewrite length_app. cbn. lia.
  - rewrite drop_app_le by done. rewrite numbered_snoc, length_drop, H8, H4. do 3 f_equal. lia.
Qed.

Lemma direct_served b0 a log k j xs d : served b0 a log k j xs → served b0 (direct_async writes a d).1 log k j xs.
Proof.
  intros Hs. unfold direct_async. destruct (ab_poisoned a) eqn:Hp; [exact Hs|]. destruct (direct_on writes _ d); [exact Hs|].
  destruct Hs as [H1 H2 H5 H6 H7 H8]. split; try done. cbn. destruct (ab_controller a); [done|done|]. by destruct H8.
Qed.

(** The responses when one more is given, or one more request is dropped. *)
Lemma response_given (xs : list response) x : numbered 0 (Some <$> xs) ++ [(length xs, Some x)] = numbered 0 (Some <$> xs ++ [x]).
Proof. by rewrite fmap_app; change (Some <$> [x]) with [Some x]; rewrite numbered_snoc, length_fmap. Qed.
Lemma response_dropped (xs : list response) j :
  numbered 0 ((Some <$> xs) ++ replicate j None) ++ [(length xs + j, None)] = numbered 0 ((Some <$> xs) ++ replicate (S j) None).
Proof. by rewrite (replicate_S_end j), (app_assoc _ (replicate j None)), numbered_snoc, length_app, length_fmap, length_replicate. Qed.

Lemma turn_served b0 a log k j xs : served b0 a log k j xs →
  (ab_queue a = [] ∨ ab_controller a ≠ Serving) ∧ controller_turn freq_ghz writes a = a
  ∨ ab_controller a = Serving ∧ ∃ k' j' xs', served b0 (controller_turn freq_ghz writes a) log k' j' xs'
     ∧ (ab_controller (controller_turn freq_ghz writes a) = Serving → ab_poisoned a = false →
        k' = S k ∧ ab_poisoned (controller_turn freq_ghz writes a) = false).
Proof.
  intros [H1 (H2 & H3 & H4) H5 H6 H7 H8]. unfold controller_turn. destruct (ab_controller a) eqn:Hc; [|by left; split; [right|]..].
  destruct (drop (k + j) log) as [|r rest] eqn:Hd; rewrite H8; [left; split; [by left|done]|]. right. split; [done|]. rewrite numbered_cons.
  assert (Hk : log !! (k + j) = Some r) by (by rewrite <- (Nat.add_0_r (k + j)), <- lookup_drop, Hd).
  assert (Hlt : k + j < length log) by by eapply lookup_lt_Some.
  assert (Hrest : drop (S (k + j)) log = rest). { replace (S (k + j)) with ((k + j) + 1) by lia. by rewrite <- drop_drop, Hd. }
  assert (Hr : r = Shutdown ∨ r ≠ Shutdown) by (destruct r; auto). destruct Hr as [->|Hr].
  { exists k, j, xs. split; [split; cbn; try done|done]. }
  assert (Hrun : Shutdown ∉ take (S (k + j)) log) by (rewrite (take_S_r _ _ _ Hk), elem_of_app, list_elem_of_singleton; intros [?|?]; congruence).
  destruct (ab_poisoned a) eqn:Hp.
  { exists k, (S j), xs. replace (match r with Shutdown => _ | _ => _ end) with
      (mkAsync (numbered (S (k + j)) rest) (ab_buffer a) true Serving (ab_responses a ++ [(k + j, None)]) (ab_sent a)) by (by destruct r).
    split; [|done]. rewrite <- Hrest. split; cbn [ab_buffer ab_queue ab_poisoned ab_controller ab_responses ab_sent]; rewrite ?Nat.add_succ_r; try done.
    by rewrite H5, <- response_dropped, H3. }
  specialize (H7 eq_refl) as ->. rewrite Nat.add_0_r in *. rewrite app_nil_r in H5.
  replace (match r with Shutdown => _ | _ => _ end) with
    (match perform freq_ghz writes (ab_buffer a) r with Ret (b, x) => mkAsync (numbered (S k) rest) b false Serving (ab_responses a ++ [(k, Some x)]) (ab_sent a)
     | Panic => mkAsync [] (ab_buffer a) true Dead (ab_responses a) (ab_sent a) end) by (by destruct r).
  destruct (perform freq_ghz writes (ab_buffer a) r) as [[b x]|] eqn:Hpr.
  - exists (S k), 0, (xs ++ [x]). split; [|done]. rewrite <- Hrest. split; cbn [ab_buffer ab_queue ab_poisoned ab_controller ab_responses ab_sent]; rewrite ?Nat.add_0_r; try done.
    + rewrite (take_S_r _ _ _ Hk), perform_all_snoc, H1. cbn [run_bind]. unfold perform_one. cbn [fst snd]. by rewrite Hpr.
    + rewrite length_app. cbn. lia.
    + by rewrite H5, app_nil_r, <- response_given, H3.
  - exists k, 0, xs. split; [|done]. split; cbn [ab_buffer ab_queue ab_poisoned ab_controller ab_responses ab_sent]; rewrite ?Nat.add_0_r, ?app_nil_r; try done.
    split_and!; [done|done|]. by exists r.
Qed.

Lemma find_numbered {A} (xs : list A) n k : find (λ x, x.1 =? k + n) (numbered k xs) = (λ x, (k + n, x)) <$> xs !! n.
Proof.
  revert k n. induction xs as [|x xs IH]; intros k [|n]; [done|done| |]; rewrite numbered_cons; cbn.
  - by rewrite Nat.add_0_r, Nat.eqb_refl.
  - rewrite (proj2 (Nat.eqb_neq _ _)) by lia. replace (k + S n) with (S k + n) by lia. apply IH.
Qed.

(** Why the lock is poisoned: the controller died, or a report panicked on the buffer as it is. *)
Definition poison_cause (a : AsyncTimeBuffer) (evs : list async_event) : Prop :=
  ab_poisoned a = true → ab_controller a = Dead ∨ ∃ d, Direct d ∈ evs ∧ direct_on writes (ab_buffer a) d = Panic.

Lemma poison_step a log evs ev : poison_cause a evs → poison_cause (async_step (a, log) ev).1 (evs ++ [ev]).
Proof.
  intros Hc. unfold poison_cause in *. assert (Hmore : ab_poisoned a = true → ab_controller a = Dead ∨ ∃ d, Direct d ∈ evs ++ [ev] ∧ direct_on writes (ab_buffer a) d = Panic).
  { intros Hp. destruct (Hc Hp) as [|(d & Hd & E)]; [by left|right]. exists d. split; [|done]. apply elem_of_app. by left. }
  destruct ev as [r| |d]; cbn [async_step fst].
  - unfold send_request. destruct (controller_eqb _ _) eqn:E; [|exact Hmore]. apply serving_eqb in E. cbn. rewrite <- E. exact Hmore.
  - unfold controller_turn. destruct (ab_controller a) eqn:Ha; [|by rewrite Ha..]. destruct (ab_queue a) as [|[n r] q]; [by rewrite Ha|].
    assert (Hq : ∀ st, ab_poisoned st = ab_poisoned a → ab_buffer st = ab_buffer a →
      ab_poisoned st = true → ab_controller st = Dead ∨ ∃ d, Direct d ∈ evs ++ [TakeNext] ∧ direct_on writes (ab_buffer st) d = Panic).
    { intros st -> -> Hp. destruct (Hmore Hp) as [?|?]; [done|by right]. }
    destruct (ab_poisoned a) eqn:Hp; [by destruct r; apply Hq|]. destruct r; try (by apply Hq); destruct (perform _ _ _ _) as [[b x]|]; cbn; auto; done.
  - unfold direct_async. destruct (ab_poisoned a) eqn:Hp; [cbn; rewrite Hp; exact Hmore|]. destruct (direct_on _ _ d) eqn:Hd; cbn; [by rewrite Hp|].
    intros _. right. exists d. split; [|done]. apply elem_of_app. right. by apply list_elem_of_singleton.
Qed.

Lemma async_served slots threads rdtsc base evs :
  let '(a, log) := async_run (AsyncTimeBuffer_new slots threads rdtsc base) evs in
  poison_cause a evs ∧ ∃ k j xs, served (TimeBuffer_new slots threads rdtsc base) a log k j xs.
Proof.
  unfold async_run. induction evs as [|ev evs IH] using rev_ind.
  { split; [done|]. exists 0, 0, []. by split; cbn; try by apply not_elem_of_nil. }
  rewrite foldl_app. cbn [foldl]. destruct (foldl _ _ evs) as [a log]. destruct IH as (Hc & k & j & xs & Hs).
  pose proof (poison_step a log evs ev Hc) as Hc'. destruct ev as [r| |d].
  - pose proof (send_served _ _ _ _ _ _ r Hs) as H'. destruct (async_step _ _) as [a' log']. split; [done|]. by exists k, j, xs.
  - split; [done|]. cbn. destruct (turn_served _ _ _ _ _ _ Hs) as [[_ ->]|(_ & k' & j' & xs' & Hs' & _)]; eauto.
  - split; [done|]. exists k, j, xs. by apply direct_served.
Qed.

Lemma served_alive slots threads rdtsc base a log k j xs : log_ok freq_ghz writes (TimeBuffer_new slots threads rdtsc base) log →
  served (TimeBuffer_new slots threads rdtsc base) a log k j xs → ab_controller a ≠ Dead.
Proof.
  intros Hok [H1 _ _ _ _ H5] Hd. rewrite Hd in H5. destruct H5 as (_ & _ & r & Hr & Hp).
  pose proof (perform_all_keeps _ _ _ _ _ _ _ H1) as Hk.
  assert (Hok' : log_ok freq_ghz writes (TimeBuffer_new slots threads rdtsc base) (take k log)).
  { intros i x Hi. apply lookup_take_Some in Hi as [Hi Hlt]. specialize (Hok i x Hi). by rewrite take_take, Nat.min_l by lia. }
  destruct (Hok k r Hr) as [Hreq Hpr].
  destruct (perform_total base slots _ (ab_buffer a) r Hk (λ s t, log_kinds _ _ s t Hok') Hreq (Hpr _ _ H1)) as (b & x & E). congruence.
Qed.

Lemma served_serving slots threads rdtsc base a log k j xs : log_ok freq_ghz writes (TimeBuffer_new slots threads rdtsc base) log → Shutdown ∉ log →
  served (TimeBuffer_new slots threads rdtsc base) a log k j xs → ab_controller a = Serving.
Proof.
  intros Hok Hno Hs. pose proof (served_alive _ _ _ _ _ _ _ _ _ Hok Hs) as Hd. destruct Hs as [_ _ _ _ _ H5]. destruct (ab_controller a); [done| |done].
  exfalso. apply Hno. by eapply list_elem_of_lookup_2.
Qed.

Lemma served_drains slots threads rdtsc base log n a k j xs : log_ok freq_ghz writes (TimeBuffer_new slots threads rdtsc base) log → Shutdown ∉ log →
  served (TimeBuffer_new slots threads rdtsc base) a log k j xs → ab_poisoned a = false → n = length log - k →
  ∃ xs', served (TimeBuffer_new slots threads rdtsc base) (Nat.iter n (controller_turn freq_ghz writes) a) log (length log) 0 xs'.
Proof.
  intros Hok Hno. revert a k j xs. induction n as [|n IH]; intros a k j xs Hs Hp Hn; pose proof (sv_dropped _ _ _ _ _ _ Hs Hp) as ->.
  { exists xs. cbn. replace (length log) with k; [done|]. destruct Hs as [_ (H2 & _) _ _ _ _]. lia. }
  pose proof (served_serving _ _ _ _ _ _ _ _ _ Hok Hno Hs) as Ha. rewrite Nat.iter_succ_r.
  destruct (turn_served _ _ _ _ _ _ Hs) as [[[Hq|Hc] _]|(_ & k' & j' & xs' & Hs' & Hk')]; [|done|].
  { destruct Hs as [_ _ _ _ _ H5]. rewrite Ha, Hq in H5. assert (Hl : length (drop (k + 0) log) = 0) by (by destruct (drop (k + 0) log)). rewrite length_drop in Hl. lia. }
  destruct (Hk' (served_serving _ _ _ _ _ _ _ _ _ Hok Hno Hs') Hp) as [-> Hp']. eapply IH; [done|done|lia].
Qed.

Lemma receive_served b0 a log k j xs n : served b0 a log k j xs →
  receive a n = match xs !! n with Some x => Some (ROk x) | None =>
    if (k + j <=? n) && controller_eqb (ab_controller a) Serving then None else Some (RErr "Failed to receive response from controller") end.
Proof.
  intros [_ (_ & H2 & _) H3 _ _ _]. unfold receive. rewrite H3.
  pose proof (find_numbered ((Some <$> xs) ++ replicate j None) n 0) as E. cbn [Nat.add] in E. rewrite E, lookup_app, list_lookup_fmap.
  destruct (xs !! n) as [x|] eqn:Hx; cbn; [done|]. apply lookup_ge_None in Hx. rewrite length_fmap.
  destruct (Nat.leb_spec (k + j) n) as [Hn|Hn].
  - rewrite (proj2 (lookup_ge_None (replicate j None) _)) by (rewrite length_replicate; lia). done.
  - rewrite lookup_replicate_2 by lia. done.
Qed.

(** C37. Measuring through the controller is measuring directly. However callers send requests,
    the controller takes them and callers report on the buffer themselves, it has at any time
    performed a prefix of the requests that were accepted, in the order of the sends, and has
    given exactly their answers. As long as the lock is not poisoned, it has passed over none; a
    poisoned lock means that the controller has died, at the next request, which panics on the
    buffer directly too, or that a report panicked on the buffer as it is, and from then on
    requests are dropped, which is an error to whoever waits for them. When the slots of the
    requests exist, frames begin before they end, times are of the kind of the buffer, and what
    is to be printed can be printed there, the controller never dies, and then, unless it is told
    to stop or a report has poisoned the lock, as many turns as there are requests in its channel
    serve them all. *)
Theorem controller_serves_in_order (slots threads : nat) (rdtsc : bool) (base : TimingMethod) (evs : list async_event)
    (a : AsyncTimeBuffer) (log : list TimingRequest)
    (Hrun : async_run (AsyncTimeBuffer_new slots threads rdtsc base) evs = (a, log)) :
  (∃ k j xs, k + j ≤ length log ∧ perform_all freq_ghz writes (TimeBuffer_new slots threads rdtsc base) (take k log) = Ret (ab_buffer a, xs) ∧ length xs = k
    ∧ (∀ n, receive a n = match xs !! n with Some x => Some (ROk x) | None =>
         if (k + j <=? n) && controller_eqb (ab_controller a) Serving then None else Some (RErr "Failed to receive response from controller") end)
    ∧ (ab_poisoned a = false → j = 0)
    ∧ (ab_controller a = Dead → j = 0 ∧ ∃ r, log !! k = Some r ∧ perform freq_ghz writes (ab_buffer a) r = Panic)
    ∧ (ab_poisoned a = true → ab_controller a = Dead ∨ ∃ d, Direct d ∈ evs ∧ direct_on writes (ab_buffer a) d = Panic))
  ∧ (log_ok freq_ghz writes (TimeBuffer_new slots threads rdtsc base) log → ab_controller a ≠ Dead
    ∧ (Shutdown ∉ log → ab_poisoned a = false → let a' := Nat.iter (length (ab_queue a)) (controller_turn freq_ghz writes) a in
        ∃ xs, perform_all freq_ghz writes (TimeBuffer_new slots threads rdtsc base) log = Ret (ab_buffer a', xs)
        ∧ ∀ n, n < length log → ∃ x, xs !! n = Some x ∧ receive a' n = Some (ROk x))).
Proof.
  pose proof (async_served slots threads rdtsc base evs) as Hs. rewrite Hrun in Hs. destruct Hs as (Hcause & k & j & xs & Hs). split.
  - exists k, j, xs. destruct (sv_count _ _ _ _ _ _ Hs) as (H2 & H3 & _). split_and!; [done|apply Hs|done|intros n; by eapply receive_served|apply Hs| |done].
    intros Hd. pose proof (sv_state _ _ _ _ _ _ Hs) as H5. rewrite Hd in H5. apply H5.
  - intros Hok. split; [by eapply served_alive|]. intros Hno Hp. pose proof (sv_dropped _ _ _ _ _ _ Hs Hp) as ->.
    assert (Hq : length (ab_queue a) = length log - k).
    { pose proof (sv_state _ _ _ _ _ _ Hs) as H5. rewrite (served_serving _ _ _ _ _ _ _ _ _ Hok Hno Hs), Nat.add_0_r in H5.
      by rewrite H5, <- length_drop; unfold numbered; rewrite length_imap. }
    destruct (served_drains _ _ _ _ _ _ _ _ _ _ Hok Hno Hs Hp Hq) as (xs' & Hs'). exists xs'.
    pose proof (sv_done _ _ _ _ _ _ Hs') as Hd. rewrite firstn_all in Hd. split; [done|]. intros n Hn.
    destruct (sv_count _ _ _ _ _ _ Hs') as (_ & Hl & _). rewrite <- Hl in Hn. apply lookup_lt_is_Some in Hn as [x Hx]. exists x. split; [done|].
    by rewrite (receive_served _ _ _ _ _ _ _ Hs'), Hx.
Qed.
End spec.

(** ** Two frames on one slot *)

(** A counter of 2 GHz, and an operating system that writes everything. *)
Definition two_ghz : f64 := f64_of_Z 2.
Definition all_written : option string → bool := λ _, true.

Definition demo_log : list TimingRequest :=
  [StartSlotProcessing 0 (TRdtsc 100); AddTaskTimeRdtsc 0 "fft" 8 100 300; AddTaskTime 0 "sum" 9 40; AddTaskTimeCycles 0 "fft" 9 80;
   FinishSlotProcessing 0 (TRdtsc 500); StartSlotProcessing 0 (TRdtsc 600); FinishSlotProcessing 0 (TRdtsc 1100); PrintStats "demo" (Some "stats.txt") 0].
Definition demo_new : TimeBuffer := TimeBuffer_new 2 1 true (TRdtsc 0).

(** The statistics of the demo can be printed. *)
Definition prints_after (i : nat) : bool :=
  match perform_all two_ghz all_written demo_new (take i demo_log) with
  | Ret (b, _) => match print_stats b 0 with Ret _ => true | Panic => false end
  | Panic => false
  end.

Lemma demo_log_ok : log_ok two_ghz all_written demo_new demo_log.
Proof.
  intros i r Hi. pose proof (lookup_lt_Some _ _ _ Hi) as Hlt. cbn in Hlt.
  do 7 (destruct i as [|i]; [injection Hi as <-; split; [split; [intros s [= <-]; cbn; lia|]; cbn; first [done|split; [done|by eexists]]|done]|]).
  destruct i as [|i]; [|lia]. injection Hi as <-. split; [done|]. intros b xs Hb. split; [reflexivity|].
  assert (E : prints_after 7 = true) by (vm_compute; reflexivity). unfold prints_after in E. rewrite Hb in E.
  destruct (print_stats b 0) as [figures|]; [by exists figures|discriminate E].
Qed.

Lemma statistics_follow_log_witness : ∃ b xs stats, perform_all two_ghz all_written demo_new demo_log = Ret (b, xs)
  ∧ get_slot_statistics b 0 = Ret stats ∧ length stats = 2
  ∧ ∃ st, stats !! 0 = Some st ∧ st_total_time st = 200%Z ∧ st_start_offset st = 50%Z
     ∧ st_task_times st !! "fft"%string = Some [(8%Z, 100%Z); (9%Z, 40%Z)].
Proof.
  destruct (statistics_follow_log two_ghz all_written 2 1 true (TRdtsc 0) demo_log demo_log_ok) as (b & xs & Hb & _ & Hs).
  destruct (Hs 0) as (stats & Hst & Hlen & Hf); [lia|]. exists b, xs, stats. split; [exact Hb|]. split; [exact Hst|]. split; [exact Hlen|].
  destruct stats as [|st stats]; [discriminate Hlen|]. exists st. split; [reflexivity|].
  destruct (Hf 0 _ st eq_refl eq_refl) as ((_ & _ & H1 & H2 & _) & H3). change (Ret 200%Z = Ret (st_total_time st)) in H1. change (Ret 50%Z = Ret (st_start_offset st)) in H2.
  injection H1 as H1. injection H2 as H2. split; [by rewrite H1|]. split; [by rewrite H2|]. by rewrite H3.
Defined.

(** The controller takes the first two requests while the others are sent, and a report is printed in between. *)
Definition demo_events : list async_event :=
  (Send <$> take 3 demo_log) ++ [TakeNext; TakeNext; Direct (DirectPrint "demo" None 0)] ++ (Send <$> drop 3 demo_log).

Lemma controller_serves_in_order_witness : ∃ a, async_run two_ghz all_written (AsyncTimeBuffer_new 2 1 true (TRdtsc 0)) demo_events = (a, demo_log)
  ∧ length (ab_queue a) = 6 ∧ ab_controller a ≠ Dead
  ∧ ∃ x, receive (Nat.iter 6 (controller_turn two_ghz all_written) a) 4 = Some (ROk x).
Proof.
  destruct (async_run two_ghz all_written (AsyncTimeBuffer_new 2 1 true (TRdtsc 0)) demo_events) as [a log] eqn:Hrun. exists a.
  destruct (controller_serves_in_order two_ghz all_written 2 1 true (TRdtsc 0) demo_events a log Hrun) as [_ Hok].
  assert (Hl : log = demo_log ∧ length (ab_queue a) = 6 ∧ ab_poisoned a = false) by (vm_compute in Hrun; injection Hrun as <- <-; done).
  destruct Hl as (-> & Hq & Hp). destruct (Hok demo_log_ok) as [Hd Hall]. split; [reflexivity|]. split; [exact Hq|]. split; [exact Hd|].
  destruct (Hall ltac:(unfold demo_log; rewrite !not_elem_of_cons; split_and!; try done; apply not_elem_of_nil) Hp) as (xs & _ & Hx).
  rewrite Hq in Hx. destruct (Hx 4) as (x & _ & Hr); [cbn; lia|]. by exists x.
Defined.

(** A report to a file that cannot be written panics in its caller and poisons the lock: the
    controller goes on, but the frame that is finished then is in no statistics, and who waits
    for it gets an error. *)
Definition read_only : option string → bool := λ out_file, match out_file with Some _ => false | None => true end.
Definition poisoned_events : list async_event :=
  [Send (StartSlotProcessing 0 (TRdtsc 100)); TakeNext; Direct (DirectPrint "demo" (Some "/proc/stats.txt") 0);
   Send (FinishSlotProcessing 0 (TRdtsc 500)); TakeNext].
Lemma unwritable_report_stops_measuring :
  let a := (async_run two_ghz read_only (AsyncTimeBuffer_new 2 1 true (TRdtsc 0)) poisoned_events).1 in
  ab_controller a = Serving ∧ ab_poisoned a = true ∧ receive a 1 = Some (RErr "Failed to receive response from controller")
  ∧ get_slot_statistics (ab_buffer a) 0 = Ret [].
Proof. vm_compute. done. Qed.
