(* ===== verification/ReportSpec.v ===== *)
(** What the reports measure: the frames in the order of their begin without the first
    ones, whatever the slots they ran in; the time from the first begin to the last end;
    and for every task and worker exactly what the frames recorded. And a hint that calls
    a worker less busy than average although it is busier. *)
From S2P Require Import Prelude Float Timing Report TimingSpec.
From Stdlib Require Import SpecFloat.
From stdpp Require Import strings gmap.

(** ** Sorting *)

Section sort.
Context {A : Type} (key : A → Z).

Lemma insert_sorted_perm le (x : A) l : insert_sorted le x l ≡ₚ x :: l.
Proof. induction l as [|y l IH]; cbn; [done|]. destruct (le x y); [done|]. rewrite IH. constructor. Qed.
Lemma stable_sort_perm le (l : list A) : stable_sort le l ≡ₚ l.
Proof. induction l as [|x l IH]; cbn; [done|]. by rewrite insert_sorted_perm, IH. Qed.

(** Every element comes before those with a larger key. *)
Definition ordered (l : list A) : Prop := ∀ l1 x l2, l = l1 ++ x :: l2 → ∀ y, y ∈ l2 → (key x ≤ key y)%Z.

Lemma ordered_cons x l : ordered (x :: l) ↔ (∀ y, y ∈ l → (key x ≤ key y)%Z) ∧ ordered l.
Proof.
  split.
  - intros Ho. split; [by apply (Ho [] x l)|]. intros l1 y l2 ->. by apply (Ho (x :: l1)).
  - intros [Hx Ho] [|z l1] y l2; [by intros [= <- <-]|]. intros [= <- ->]. by apply (Ho l1).
Qed.

Lemma insert_ordered x l : ordered l → ordered (insert_sorted (by_key key) x l).
Proof.
  induction l as [|y l IH]; cbn; intros Ho; [apply ordered_cons; split; [by intros ? ?%not_elem_of_nil|done]|].
  unfold by_key. destruct (Z.leb_spec (key x) (key y)).
  - apply ordered_cons. split; [|done]. apply ordered_cons in Ho as [Hy _]. intros z [->|Hz]%elem_of_cons; [done|]. specialize (Hy z Hz). lia.
  - apply ordered_cons in Ho as [Hy Ho]. apply ordered_cons. split; [|by apply IH]. intros z. rewrite insert_sorted_perm, elem_of_cons. intros [->|Hz]; [lia|by apply Hy].
Qed.
Lemma stable_sort_ordered l : ordered (stable_sort (by_key key) l).
Proof. induction l as [|x l IH]; cbn; [by intros [|??] ? ?|]. by apply insert_ordered. Qed.

(** The first [k] of a sorted list come before the others. *)
Lemma ordered_split l k x y : ordered l → x ∈ take k l → y ∈ drop k l → (key x ≤ key y)%Z.
Proof.
  intros Ho (l1 & l2 & Hx)%list_elem_of_split Hy. apply (Ho l1 x (l2 ++ drop k l)); [|rewrite elem_of_app; by right].
  by rewrite app_comm_cons, app_assoc, <- Hx, take_drop.
Qed.
End sort.

Lemma first_start_spec l : (∀ x, x ∈ l → (first_start l ≤ x.1)%Z) ∧ (first_start l = DURATION_MAX ∨ ∃ x, x ∈ l ∧ x.1 = first_start l).
Proof.
  unfold first_start. assert (Hgen : ∀ m, let r := foldl (λ (m : Z) (x : Z * Z), if (x.1 <? m)%Z then x.1 else m) m l in
    (r ≤ m)%Z ∧ (∀ x, x ∈ l → (r ≤ x.1)%Z) ∧ (r = m ∨ ∃ x, x ∈ l ∧ x.1 = r)).
  { induction l as [|x l IH]; intros m; cbn; [split; [done|]; split; [by intros ? ?%not_elem_of_nil|by left]|].
    destruct (IH (if (x.1 <? m)%Z then x.1 else m)) as (H1 & H2 & H3). destruct (Z.ltb_spec x.1 m).
    - split; [lia|]. split; [intros y [->|Hy]%elem_of_cons; auto|]. right. destruct H3 as [H3|(y & Hy & H3)]; [exists x; split; [left|done]|exists y; split; [by right|done]].
    - split; [done|]. split; [intros y [->|Hy]%elem_of_cons; auto; lia|]. destruct H3 as [H3|(y & Hy & H3)]; [by left|right; exists y; split; [by right|done]]. }
  apply Hgen.
Qed.

Lemma last_end_spec l : (∀ x, x ∈ l → (x.2 ≤ last_end l)%Z) ∧ (last_end l = 0%Z ∨ ∃ x, x ∈ l ∧ x.2 = last_end l).
Proof.
  unfold last_end. assert (Hgen : ∀ m, let r := foldl (λ (m : Z) (x : Z * Z), if (m <? x.2)%Z then x.2 else m) m l in
    (m ≤ r)%Z ∧ (∀ x, x ∈ l → (x.2 ≤ r)%Z) ∧ (r = m ∨ ∃ x, x ∈ l ∧ x.2 = r)).
  { induction l as [|x l IH]; intros m; cbn; [split; [done|]; split; [by intros ? ?%not_elem_of_nil|by left]|].
    destruct (IH (if (m <? x.2)%Z then x.2 else m)) as (H1 & H2 & H3). destruct (Z.ltb_spec m x.2).
    - split; [lia|]. split; [intros y [->|Hy]%elem_of_cons; auto|]. right. destruct H3 as [H3|(y & Hy & H3)]; [exists x; split; [left|done]|exists y; split; [by right|done]].
    - split; [done|]. split; [intros y [->|Hy]%elem_of_cons; auto; lia|]. destruct H3 as [H3|(y & Hy & H3)]; [by left|right; exists y; split; [by right|done]]. }
  apply Hgen.
Qed.

Section spec.
Context `{HashOrder}.

Lemma copy_map_same {A} (m : gmap string A) : copy_map m = m.
Proof.
  unfold copy_map. assert (Hgen : ∀ es (m' : gmap string A), NoDup es.*1 → foldl (λ m kv, <[kv.1 := kv.2]> m) m' es = list_to_map es ∪ m').
  { induction es as [|[k x] es IH]; intros m' Hnd; [by cbn; rewrite (left_id_L ∅ (∪))|]. apply NoDup_cons in Hnd as [Hk Hnd]. cbn [foldl fst snd].
    rewrite IH by done. rewrite list_to_map_cons, <- insert_union_l, insert_union_r; [done|]. by apply not_elem_of_list_to_map_1. }
  assert (Hnd : NoDup (hash_order m).*1) by (rewrite hash_order_perm; apply NoDup_fst_map_to_list).
  rewrite Hgen, (right_id_L ∅ (∪)) by done. rewrite (list_to_map_proper _ (map_to_list m)); [apply list_to_map_to_list|done|apply hash_order_perm].
Qed.

Definition frame_data (s : SlotStats) : Z * Z * Z * Tasks := (st_start_offset s, st_end_offset s, st_total_time s, st_task_times s).
Definition worker_frames (slot_statistics : list (list SlotStats)) (worker_slots_end : nat) : list SlotStats := concat (take worker_slots_end slot_statistics).

Lemma wall_span (offsets : list (Z * Z)) (S E : Z) :
  (∃ x, x ∈ offsets ∧ x.1 = S) → (∀ x, x ∈ offsets → (S ≤ x.1)%Z) → (∃ x, x ∈ offsets ∧ x.2 = E) → (∀ x, x ∈ offsets → (x.2 ≤ E)%Z) →
  (0 ≤ S < E)%Z → (S ≤ DURATION_MAX)%Z → compute_wall_span_us offsets = micros (E - S).
Proof.
  intros (x & Hx & HS) HSm (y & Hy & HE) HEm Hlt Hmax. unfold compute_wall_span_us. destruct offsets as [|o l] eqn:Eo; [by apply not_elem_of_nil in Hx|]. rewrite <- Eo in *.
  destruct (first_start_spec offsets) as [F1 F2], (last_end_spec offsets) as [L1 L2].
  assert (first_start offsets = S) as ->. { specialize (F1 x Hx). destruct F2 as [F2|(z & Hz & F2)]; [lia|]. specialize (HSm z Hz). lia. }
  assert (last_end offsets = E) as ->. { specialize (L1 y Hy). destruct L2 as [L2|(z & Hz & L2)]; [lia|]. specialize (HEm z Hz). lia. }
  by rewrite (proj2 (Z.leb_gt _ _)) by lia.
Qed.

(** The frames of the performance report are those of the workers' slots in the order of
    their begin, without the first ones: none is lost or doubled, those left out begin before
    the others, in whatever slots they ran, and there is no report exactly when all are left
    out. The wall-clock span is the time from the first begin to the last end among them. *)
Theorem report_frames_in_time (slot_statistics : list (list SlotStats)) (worker_slots_end exclude_frames : nat) :
  let frames := worker_frames slot_statistics worker_slots_end in
  ∃ warm_up included, warm_up ++ included ≡ₚ frames ∧ length warm_up = Nat.min exclude_frames (length frames)
  ∧ (∀ a b, a ∈ warm_up → b ∈ included → (st_start_offset a ≤ st_start_offset b)%Z) ∧ ordered st_start_offset included
  ∧ collect_report_frame_data slot_statistics worker_slots_end exclude_frames =
      (if exclude_frames <? length frames
       then Some (st_total_time <$> included, st_task_times <$> included, (λ s, (st_start_offset s, st_end_offset s)) <$> included) else None)
  ∧ ∀ first last, first ∈ included → (∀ s, s ∈ included → (st_start_offset first ≤ st_start_offset s)%Z) →
      last ∈ included → (∀ s, s ∈ included → (st_end_offset s ≤ st_end_offset last)%Z) →
      (0 ≤ st_start_offset first < st_end_offset last)%Z → (st_start_offset first ≤ DURATION_MAX)%Z →
      compute_wall_span_us ((λ s, (st_start_offset s, st_end_offset s)) <$> included) = micros (st_end_offset last - st_start_offset first).
Proof.
  cbn zeta. set (frames := worker_frames _ _). set (sorted := stable_sort (by_key st_start_offset) frames). set (k := Nat.min exclude_frames (length frames)).
  assert (Hp : sorted ≡ₚ frames) by apply stable_sort_perm. pose proof (stable_sort_ordered st_start_offset frames) as Ho. fold sorted in Ho.
  exists (take k sorted), (drop k sorted). split; [by rewrite take_drop|]. split; [rewrite length_take, Hp; lia|].
  split; [intros a b; by apply ordered_split|]. split.
  { intros l1 x l2 E y Hy. apply (Ho (take k sorted ++ l1) x l2); [|done]. by rewrite <- app_assoc, <- E, take_drop. }
  split.
  2:{ intros first last Hf Hfm Hl Hlm Hlt Hmax. apply wall_span; [| | | |done|done].
    1: exists (st_start_offset first, st_end_offset first). 3: exists (st_start_offset last, st_end_offset last).
    1, 3: split; [apply list_elem_of_fmap; by eexists|done]. all: by intros ? (s & -> & Hs)%list_elem_of_fmap; cbn; auto. }
  unfold collect_report_frame_data.
  assert (Ef : (l ← take worker_slots_end slot_statistics; report_frame <$> l) = frame_data <$> frames).
  { subst frames. unfold worker_frames. induction (take _ _) as [|l ls IH]; [done|]. cbn. rewrite fmap_app. f_equal; [|exact IH].
    apply list_fmap_ext. intros ? s _. unfold report_frame, frame_data. by rewrite copy_map_same. }
  assert (Es : stable_sort (by_key (λ f : Z * Z * Z * Tasks, f.1.1.1)) (frame_data <$> frames) = frame_data <$> sorted).
  { subst sorted. clear. induction frames as [|s l IH]; [done|]. cbn. unfold stable_sort in IH. cbn in IH. rewrite IH. clear IH.
    induction (foldr _ _ _) as [|t l' IH]; [done|]. cbn. unfold by_key at 1 3. cbn. destruct (_ <=? _)%Z; [done|]. cbn. by rewrite IH. }
  rewrite Ef, Es, length_fmap. fold k. rewrite <- fmap_drop.
  assert (Hl : length (drop k sorted) = length frames - k) by by rewrite length_drop, Hp.
  destruct (Nat.ltb_spec exclude_frames (length frames)) as [Hlt|Hge].
  - destruct (drop k sorted) as [|s rest] eqn:Ed; [cbn in Hl; lia|]. rewrite <- Ed. destruct (frame_data <$> drop k sorted) eqn:E2; [by rewrite Ed in E2|].
    rewrite <- E2, <- !list_fmap_compose. done.
  - destruct (drop k sorted) eqn:Ed; [done|]. cbn in Hl. lia.
Qed.

(** ** Tasks and workers *)

Definition z_sum (l : list Z) : Z := foldr Z.add 0%Z l.
Definition by_worker (w : Z) (times : list (Z * Z)) : list (Z * Z) := filter (λ x, x.1 = w) times.

(** The aggregate holds these times of each task. *)
Definition holds (a : aggregate) (T : string → list (Z * Z)) : Prop := ∀ name,
  default [] (a.1.1 !! name) = (T name).*2
  ∧ ∀ w, default 0 (default ∅ (a.1.2 !! name) !! w) = length (by_worker w (T name))
      ∧ default 0%Z (default ∅ (a.2 !! name) !! w) = z_sum (by_worker w (T name)).*2.

Lemma z_sum_snoc l x : z_sum (l ++ [x]) = (z_sum l + x)%Z.
Proof. unfold z_sum. induction l as [|y l IH]; cbn; [lia|]. rewrite IH. lia. Qed.

Lemma aggregate_one_holds name a x a' T : holds a T → aggregate_one name a x = Ret a' →
  holds a' (λ n, if decide (n = name) then T n ++ [x] else T n).
Proof.
  intros Ha. destruct a as [[data counts] totals]. unfold aggregate_one, duration_add. destruct (_ <=? _)%Z; [|done]. cbn [run_bind]. intros [= <-] n.
  destruct (Ha n) as [H1 H2]. cbn in *. destruct (decide (n = name)) as [->|Hne]; [|by rewrite !lookup_insert_ne].
  rewrite !lookup_insert_eq. cbn. split; [by rewrite fmap_app, <- H1|]. intros w. destruct (H2 w) as [Hc Ht].
  unfold by_worker in *. rewrite filter_app, filter_cons, filter_nil. case_decide as E.
  - subst w. rewrite !lookup_insert_eq, fmap_app, length_app. cbn. rewrite Hc, z_sum_snoc, Ht. split; [lia|done].
  - by rewrite !lookup_insert_ne, app_nil_r.
Qed.

Lemma holds_ext a T T' : (∀ n, T n = T' n) → holds a T → holds a T'.
Proof. intros E Ha n. rewrite <- E. apply Ha. Qed.

Lemma aggregate_task_holds name l a a' T : holds a T → aggregate_task a (name, l) = Ret a' →
  holds a' (λ n, if decide (n = name) then T n ++ l else T n).
Proof.
  destruct a as [[data counts] totals]. unfold aggregate_task. cbn [fst snd]. intros Ha.
  assert (Ha0 : holds (<[name := default [] (data !! name)]> data, counts, totals) T).
  { intros n. destruct (Ha n) as [H1 H2]. cbn in *. split; [|done]. destruct (decide (n = name)) as [->|]; [by rewrite lookup_insert_eq|by rewrite lookup_insert_ne]. }
  revert Ha0. generalize (<[name := default [] (data !! name)]> data, counts, totals). clear Ha data counts totals. intros a Ha.
  revert a T Ha. induction l as [|x l IH]; intros a T Ha; cbn [foldM].
  - intros [= <-]. eapply holds_ext; [|exact Ha]. intros n. cbn. by case_decide; rewrite ?app_nil_r.
  - intros (a1 & H1 & H2)%run_bind_Ret. eapply holds_ext; [|eapply IH; [by eapply aggregate_one_holds|exact H2]].
    intros n. cbn. case_decide; [|done]. by rewrite <- app_assoc.
Qed.

Definition frame_times (m : Tasks) (name : string) : list (Z * Z) := default [] (m !! name).

Lemma aggregate_frame_holds (m : Tasks) a a' T : holds a T → foldM aggregate_task a (hash_order m) = Ret a' →
  holds a' (λ n, T n ++ frame_times m n).
Proof.
  intros Ha Hf. assert (Hgen : ∀ es a T, NoDup es.*1 → holds a T → foldM aggregate_task a es = Ret a' →
    holds a' (λ n, T n ++ default [] (list_to_map (M := Tasks) es !! n))).
  { clear a T Ha Hf. induction es as [|[k l] es IH]; intros a T Hnd Ha; cbn [foldM].
    - intros [= <-]. eapply holds_ext; [|exact Ha]. intros n. cbn. by rewrite lookup_empty, app_nil_r.
    - intros (a1 & H1 & H2)%run_bind_Ret. apply NoDup_cons in Hnd as [Hk Hnd]. eapply holds_ext; [|eapply IH; [done|by eapply aggregate_task_holds|exact H2]].
      intros n. cbn beta. rewrite list_to_map_cons. destruct (decide (n = k)) as [->|Hne].
      + rewrite lookup_insert_eq, (not_elem_of_list_to_map_1 es k) by done. cbn. by rewrite app_nil_r.
      + by rewrite lookup_insert_ne. }
  assert (Hnd : NoDup (hash_order m).*1) by (rewrite hash_order_perm; apply NoDup_fst_map_to_list).
  eapply holds_ext; [|by eapply Hgen]. intros n. unfold frame_times. do 2 f_equal. rewrite (list_to_map_proper _ (map_to_list m)); [by rewrite list_to_map_to_list|done|apply hash_order_perm].
Qed.

(** Tasks and workers. In whatever order maps are visited, the figures of a task are made of
    all its times in the frames that are not excluded, in the order of the frames; the count of
    a worker is the number of them it took and its total is their sum. *)
Theorem figures_add_up (frames : list Tasks) (exclude_frames : nat) (data : gmap string (list Z)) (counts : gmap string (gmap Z nat)) (totals : gmap string (gmap Z Z))
    (Ha : aggregate_task_data frames exclude_frames = Ret (data, counts, totals)) (name : string) :
  let times := m ← drop exclude_frames frames; frame_times m name in
  default [] (data !! name) = times.*2
  ∧ ∀ w, default 0 (default ∅ (counts !! name) !! w) = length (by_worker w times)
      ∧ default 0%Z (default ∅ (totals !! name) !! w) = z_sum (by_worker w times).*2.
Proof.
  cbn zeta. unfold aggregate_task_data in Ha. match type of Ha with foldM _ _ ?x = _ => set (frames' := x) in Ha end.
  assert (E : frames' = drop exclude_frames frames).
  { subst frames'. destruct (0 <? Nat.min exclude_frames (length frames)) eqn:E0; [|apply Nat.ltb_ge in E0].
    - destruct (decide (exclude_frames ≤ length frames)); [by rewrite Nat.min_l|]. rewrite Nat.min_r, !drop_ge by lia. done.
    - destruct exclude_frames; [done|]. destruct frames; [done|cbn in E0; lia]. }
  rewrite <- E. clearbody frames'. clear E.
  assert (Hgen : ∀ fs a T a', holds a T → foldM (λ a m, foldM aggregate_task a (hash_order m)) a fs = Ret a' → holds a' (λ n, T n ++ (m ← fs; frame_times m n))).
  { induction fs as [|m fs IH]; intros a T a' Hh; cbn [foldM].
    - intros [= <-]. eapply holds_ext; [|exact Hh]. intros n. cbn. by rewrite app_nil_r.
    - intros (a1 & H1 & H2)%run_bind_Ret. eapply holds_ext; [|eapply IH; [by eapply aggregate_frame_holds|exact H2]]. intros n. cbn. by rewrite <- app_assoc. }
  apply (Hgen frames' (∅, ∅, ∅) (λ _, []) _) in Ha; [apply (Ha name)|]. intros n. cbn. rewrite !lookup_empty. split; [done|]. intros w. cbn. by rewrite !lookup_empty.
Qed.
End spec.

(** ** A hint that is wrong *)

Lemma figures_add_up_witness : ∃ data counts totals, aggregate_task_data [{["fft"%string := [(8%Z, 70%Z)]]}; {["fft"%string := [(8%Z, 100%Z); (9%Z, 40%Z); (8%Z, 5%Z)]]}] 1 = Ret (data, counts, totals)
  ∧ default 0%Z (default ∅ (totals !! "fft"%string) !! 8%Z) = 105%Z.
Proof.
  destruct (aggregate_task_data [{["fft"%string := [(8%Z, 70%Z)]]}; {["fft"%string := [(8%Z, 100%Z); (9%Z, 40%Z); (8%Z, 5%Z)]]}] 1) as [[[data counts] totals]|] eqn:E;
    [|vm_compute in E; discriminate E].
  exists data, counts, totals. split; [reflexivity|]. destruct (figures_add_up _ _ _ _ _ E "fft"%string) as [_ Hw]. by rewrite (proj2 (Hw 8%Z)).
Defined.

(** A worker is compared with the busiest one, but said to be below average: of workers busy for
    100, 85 and 10 percent of the time the second is 20 percent above the average, and is named as
    below it. *)
Lemma idle_worker_above_average :
  let busy := [f64_of_Z 100; f64_of_Z 85; f64_of_Z 10] in
  let avg := f64_div (f64_sum busy) (f64_of_nat 3) in
  ∃ below, IdleWorker 9 (f64_of_Z 85) below ∈ worker_hints 8 busy ∧ (avg <? f64_of_Z 85)%f64 = true ∧ below = f64_of_Z (-20).
Proof.
  cbn zeta. exists (f64_of_Z (-20)). split; [|split; vm_compute; reflexivity].
  assert (E : worker_hints 8 [f64_of_Z 100; f64_of_Z 85; f64_of_Z 10] = [IdleWorker 9 (f64_of_Z 85) (f64_of_Z (-20)); IdleWorker 10 (f64_of_Z 10) (f64_of_Z 55)]) by (vm_compute; reflexivity).
  rewrite E. left.
Qed.
