(* ===== verification/GraphStruct.v ===== *)
(** The graph data types of [graph_struct.rs]: arguments, predecessors, conditions,
    nodes, with the index arithmetic and the predicates every other component shares.

    Predecessor offsets are [isize] values, kept as [Z]. An index filter is a pair of
    [usize] values computed with casts and wrapping arithmetic, kept as [Z] too. *)
From S2P Require Import Prelude Types WorkerRange.
From stdpp Require Import strings.

(** [find_pred_index]: [%] is Rust's truncating remainder, and the cast of a negative
    remainder to [usize] wraps. *)
Definition find_pred_index (node_idx : nat) (pred_idx : Z) (pred_factor : nat) : run nat :=
  if pred_factor =? 0 then Panic
  else
    let sum := as_i64 (as_i64 (Z.of_nat node_idx) + pred_idx) in
    let divisor := as_i64 (Z.of_nat pred_factor) in
    if (divisor =? -1)%Z && (sum =? - 2 ^ 63)%Z then Panic
    else Ret (as_usize (Z.rem sum divisor)).

Inductive CondOp := Eq | Neq | Gt | Lt.

Inductive NodePriority := High | Normal | Low.

Definition NodePriority_parse (s : string) : NodePriority :=
  if String.eqb s "high" then High else if String.eqb s "low" then Low else Normal.

Definition CondOp_parse (op : string) : option CondOp :=
  if String.eqb op "Eq" then Some Eq
  else if String.eqb op "Neq" then Some Neq
  else if String.eqb op "Gt" then Some Gt
  else if String.eqb op "Lt" then Some Lt
  else None.

Record InitCondition := mkInitCondition { ic_operation : CondOp; ic_eval_value : CmTypes }.

Definition InitCondition_evaluate (c : InitCondition) (arg_value : CmTypes) : bool :=
  match ic_operation c with
  | Eq => CmTypes_eqb arg_value (ic_eval_value c)
  | Neq => negb (CmTypes_eqb arg_value (ic_eval_value c))
  | _ => false
  end.

Record Predecessor := mkPred {
  p_id : nat;
  p_indexes : list Z;
  p_group_by : option nat;
}.

Definition list_min (l : list Z) : Z := match l with [] => 0%Z | x :: l => foldr Z.min x l end.
Definition list_max (l : list Z) : Z := match l with [] => 0%Z | x :: l => foldr Z.max x l end.

Definition is_some {A} (o : option A) : bool := match o with Some _ => true | None => false end.

(** [Predecessor::index_filter]. *)
Definition index_filter (p : Predecessor) (pred_factor succ_factor : nat) : option (Z * Z) :=
  match p_indexes p with
  | [] => None
  | _ =>
      let min_idx := as_u64 (list_min (p_indexes p)) in
      let max_idx := as_u64 (list_max (p_indexes p)) in
      let range_len := as_u64 (as_u64 (max_idx - min_idx) + 1) in
      let should_filter :=
        if is_some (p_group_by p) then true
        else (range_len <? Z.of_nat pred_factor)%Z
             && (range_len =? Z.of_nat (length (p_indexes p)))%Z
             && ((range_len =? Z.of_nat succ_factor)%Z || (succ_factor =? 1)) in
      if should_filter then Some (min_idx, as_u64 (max_idx + 1)) else None
  end.

(** [Predecessor::contributing_instances]. *)
Definition contributing_instances (p : Predecessor) (pred_factor succ_factor : nat) : nat :=
  match index_filter p pred_factor succ_factor with
  | Some _ => length (p_indexes p)
  | None => pred_factor
  end.

Record Arg := mkArg {
  a_type : CmTypes;
  a_init_condition : option InitCondition;
  a_predecessor : option Predecessor;
}.

Definition is_condition (a : Arg) : bool := is_some (a_init_condition a).
Definition is_barrier (a : Arg) : bool := ty_is_barrier (a_type a).

Record NodeCondition := mkNodeCondition {
  nc_operation : CondOp;
  nc_eval_value : CmTypes;
  nc_func_name : string;
  nc_args : list Arg;
}.

Definition NodeCondition_evaluate (c : NodeCondition) (result_value : CmTypes) : bool :=
  match nc_operation c with
  | Eq => CmTypes_eqb result_value (nc_eval_value c)
  | Neq => negb (CmTypes_eqb result_value (nc_eval_value c))
  | Gt => false
  | Lt => false
  end.

Record Loop := mkLoop { loop_name : string; loop_factor : nat }.

Record Node := mkNode {
  n_name : string;
  n_args : list Arg;
  n_id : nat;
  n_loop_args : option (list Arg);
  n_factor : nat;
  n_group_size : option nat;
  n_func_name : string;
  n_loop : option Loop;
  n_condition : option NodeCondition;
  n_priority : NodePriority;
  n_use_workers : option WorkerRangeSpec;
}.

Inductive SocketType := Udp.

Record IndexFunction := mkIndexFunction {
  if_func_ptr : option CmPtr;
  if_args : list Arg;
}.

Record GraphNetworkConfig := mkNetConfig {
  net_socket_type : SocketType;
  net_num_sockets : nat;
  net_packet_length : nat;
  net_frame_packets : nat;
  net_buffer_depth : nat;
  net_address : string;
  net_start_port : nat;
  net_extract_packet_func : option CmPtr;
  net_id_function : option CmPtr;
  net_index_function : option IndexFunction;
}.

Definition condition_args (n : Node) : list Arg := filter (λ a, is_condition a = true) (n_args n).

(** The argument reads the predecessor [pred_id]. *)
Definition reads_pred (pred_id : nat) (a : Arg) : bool :=
  match a_predecessor a with Some p => p_id p =? pred_id | None => false end.

Definition args_on_pred (n : Node) (pred_id : nat) : list Arg :=
  filter (λ a, reads_pred pred_id a = true) (n_args n).

Definition group_by_eqb (a b : option nat) : bool :=
  match a, b with Some x, Some y => x =? y | None, None => true | _, _ => false end.

(** The two predecessors declare the same [(indexes, group_by)]. *)
Definition same_decl (p q : Predecessor) : bool :=
  list_eqb Z.eqb (p_indexes p) (p_indexes q) && group_by_eqb (p_group_by p) (p_group_by q).

Definition arg_differs (first : Predecessor) (a : Arg) : bool :=
  match a_predecessor a with Some p => negb (same_decl p first) | None => false end.

(** [pred_is_ambiguous_multi_arg]. The [unwrap]s are on arguments the filter selected,
    which have a predecessor. *)
Definition pred_is_ambiguous_multi_arg (n : Node) (pred_id : nat) : bool :=
  let args := args_on_pred n pred_id in
  if (length args <? 2) || existsb is_barrier args then false
  else match args with
       | a0 :: rest =>
           match a_predecessor a0 with
           | Some first => existsb (arg_differs first) rest
           | None => false
           end
       | [] => false
       end.

(** The predecessors of an argument list in the order of their first occurrence: what a
    [Vec] filled by [if !v.contains(&id) { v.push(id) }] holds. *)
Fixpoint first_seen (seen : list nat) (l : list nat) : list nat :=
  match l with
  | [] => []
  | x :: l => if decide (x ∈ seen) then first_seen seen l else x :: first_seen (x :: seen) l
  end.

Definition arg_pred_ids (args : list Arg) : list nat :=
  omap (λ a, p_id <$> a_predecessor a) args.

Definition preds_of (args : list Arg) : list nat := first_seen [] (arg_pred_ids args).

(** [node_has_ambiguous_multi_res_args]. *)
Definition node_has_ambiguous_multi_res_args (n : Node) : bool :=
  existsb (pred_is_ambiguous_multi_arg n) (preds_of (n_args n)).

(** ** Lemmas *)

Lemma first_seen_elem seen l x : x ∈ first_seen seen l ↔ x ∈ l ∧ x ∉ seen.
Proof.
  revert seen. induction l as [|y l IH]; intros seen; cbn [first_seen].
  - split; [by intros ?%not_elem_of_nil | by intros [?%not_elem_of_nil _]].
  - case_decide as Hy; rewrite ?elem_of_cons, IH, ?elem_of_cons.
    + split; [tauto|]. intros [[->|?] ?]; tauto.
    + destruct (decide (x = y)) as [->|]; tauto.
Qed.

Lemma first_seen_NoDup seen l : NoDup (first_seen seen l).
Proof.
  revert seen. induction l as [|y l IH]; intros seen; cbn [first_seen]; [constructor|].
  case_decide; [apply IH|]. constructor; [|apply IH]. rewrite first_seen_elem, elem_of_cons. tauto.
Qed.

Lemma preds_of_elem args x : x ∈ preds_of args ↔ x ∈ arg_pred_ids args.
Proof. unfold preds_of. rewrite first_seen_elem, elem_of_nil. tauto. Qed.

Lemma preds_of_NoDup args : NoDup (preds_of args).
Proof. apply first_seen_NoDup. Qed.

Lemma arg_pred_ids_elem args x :
  x ∈ arg_pred_ids args ↔ ∃ a, a ∈ args ∧ reads_pred x a = true.
Proof.
  unfold arg_pred_ids. rewrite list_elem_of_omap. unfold reads_pred. split.
  - intros (a & Ha & Hp). exists a. split; [done|].
    destruct (a_predecessor a) as [p|]; [|done]. injection Hp as <-. apply Nat.eqb_refl.
  - intros (a & Ha & Hp). exists a. split; [done|].
    destruct (a_predecessor a) as [p|]; [|done]. apply Nat.eqb_eq in Hp. simpl. by rewrite Hp.
Qed.

Lemma args_on_pred_elem n pred_id a :
  a ∈ args_on_pred n pred_id ↔ a ∈ n_args n ∧ reads_pred pred_id a = true.
Proof. unfold args_on_pred. rewrite list_elem_of_filter. tauto. Qed.

Lemma reads_pred_some pred_id a :
  reads_pred pred_id a = true → ∃ p, a_predecessor a = Some p ∧ p_id p = pred_id.
Proof.
  unfold reads_pred. destruct (a_predecessor a) as [p|]; [|done]. intros ?%Nat.eqb_eq. by exists p.
Qed.

Lemma list_eqb_eq l1 l2 : list_eqb Z.eqb l1 l2 = true ↔ l1 = l2.
Proof.
  revert l2. induction l1 as [|x l1 IH]; intros [|y l2]; cbn; try (split; done).
  rewrite andb_true_iff, Z.eqb_eq, IH. split; [intros [-> ->]; done | intros [= -> ->]; done].
Qed.

Lemma same_decl_eq p q : same_decl p q = true ↔ p_indexes p = p_indexes q ∧ p_group_by p = p_group_by q.
Proof.
  unfold same_decl. rewrite andb_true_iff, list_eqb_eq. apply and_iff_compat_l.
  unfold group_by_eqb. destruct (p_group_by p), (p_group_by q); rewrite ?Nat.eqb_eq; split; congruence.
Qed.

(** Minimum and maximum do not depend on the order of the list. *)
Lemma list_min_le l x : x ∈ l → (list_min l <= x)%Z.
Proof.
  destruct l as [|y l]; [by intros ?%not_elem_of_nil|]. cbn.
  rewrite elem_of_cons. revert x. induction l as [|z l IH]; intros x; cbn.
  - intros [->|?%not_elem_of_nil]; [lia|done].
  - rewrite elem_of_cons. intros [->|[->|?]]; [specialize (IH y (or_introl eq_refl)); lia|lia|].
    specialize (IH x (or_intror H)). lia.
Qed.

Lemma list_max_ge l x : x ∈ l → (x <= list_max l)%Z.
Proof.
  destruct l as [|y l]; [by intros ?%not_elem_of_nil|]. cbn.
  rewrite elem_of_cons. revert x. induction l as [|z l IH]; intros x; cbn.
  - intros [->|?%not_elem_of_nil]; [lia|done].
  - rewrite elem_of_cons. intros [->|[->|?]]; [specialize (IH y (or_introl eq_refl)); lia|lia|].
    specialize (IH x (or_intror H)). lia.
Qed.

Lemma list_min_elem l : l ≠ [] → list_min l ∈ l.
Proof.
  destruct l as [|y l]; [done|]. intros _. cbn. induction l as [|z l IH]; cbn; [left|].
  destruct (Z.min_spec z (foldr Z.min y l)) as [[_ ->]|[_ ->]]; [right; left|].
  apply elem_of_cons in IH as [->|?]; [left|right; by right].
Qed.

Lemma list_max_elem l : l ≠ [] → list_max l ∈ l.
Proof.
  destruct l as [|y l]; [done|]. intros _. cbn. induction l as [|z l IH]; cbn; [left|].
  destruct (Z.max_spec z (foldr Z.max y l)) as [[_ ->]|[_ ->]]; [|right; left].
  apply elem_of_cons in IH as [->|?]; [left|right; by right].
Qed.

Lemma list_min_max_ext l l' : l ≠ [] → (∀ x, x ∈ l ↔ x ∈ l') →
  list_min l = list_min l' ∧ list_max l = list_max l'.
Proof.
  intros Hne Hext.
  assert (Hne' : l' ≠ []).
  { intros ->. pose proof (list_min_elem l Hne) as H. apply Hext in H. by apply not_elem_of_nil in H. }
  split.
  - apply Z.le_antisymm; apply list_min_le.
    + apply Hext. by apply list_min_elem.
    + apply Hext. by apply list_min_elem.
  - apply Z.le_antisymm; apply list_max_ge.
    + apply Hext. by apply list_max_elem.
    + apply Hext. by apply list_max_elem.
Qed.

(** A list whose range is as long as the list, without repetition, is that range. *)
Definition declared_range (p : Predecessor) (lo hi : nat) : Prop :=
  NoDup (p_indexes p) ∧ ∀ i, i ∈ p_indexes p ↔ (Z.of_nat lo ≤ i < Z.of_nat hi)%Z.

Lemma length_declared_range p lo hi : declared_range p lo hi → length (p_indexes p) = hi - lo.
Proof.
  intros [Hnd Hel].
  assert (Hp : p_indexes p ≡ₚ (Z.of_nat <$> range lo hi)).
  { apply NoDup_Permutation; [done| |].
    - apply NoDup_fmap_2; [intros ? ? ?; lia|]. apply NoDup_range.
    - intros i. rewrite Hel, list_elem_of_fmap. split.
      + intros ?. exists (Z.to_nat i). rewrite elem_of_range. lia.
      + intros (n & -> & Hn). rewrite elem_of_range in Hn. lia. }
  by rewrite Hp, length_fmap, length_range.
Qed.

(** ** Index arithmetic *)

(** Offsets and factors as they occur: far below the limits of the machine. *)
Definition small (n : nat) : Prop := (Z.of_nat n < 2 ^ 62)%Z.

Lemma as_i64_small z : (- 2 ^ 63 ≤ z < 2 ^ 63)%Z → as_i64 z = z.
Proof.
  intros Hz. unfold as_i64. change two64 with (2 ^ 64)%Z.
  destruct (decide (0 <= z)%Z).
  - rewrite Z.mod_small by lia. rewrite decide_True by lia. done.
  - rewrite <- (Z.mod_unique z (2 ^ 64) (-1) (z + 2 ^ 64)) by lia.
    rewrite decide_False by lia. lia.
Qed.

Lemma as_usize_of_nat n : (Z.of_nat n < two64)%Z → as_usize (Z.of_nat n) = n.
Proof. intros. unfold as_usize. rewrite as_u64_small by lia. lia. Qed.

Lemma as_usize_neg z : (- two64 ≤ z < 0)%Z → Z.of_nat (as_usize z) = (z + two64)%Z.
Proof.
  intros. unfold as_usize, as_u64. rewrite Z2Nat.id by (apply Z.mod_pos_bound; unfold two64; lia).
  symmetry. apply (Z.mod_unique _ _ (-1)); lia.
Qed.

Lemma find_pred_index_nonneg node_idx pred_idx pred_factor :
  0 < pred_factor → small pred_factor → small node_idx → (- 2 ^ 62 ≤ pred_idx < 2 ^ 62)%Z →
  (0 ≤ Z.of_nat node_idx + pred_idx)%Z →
  find_pred_index node_idx pred_idx pred_factor
  = Ret (Z.to_nat ((Z.of_nat node_idx + pred_idx) mod Z.of_nat pred_factor)).
Proof.
  unfold small, find_pred_index. intros Hf Hfs Hns Hps Hs. rewrite (proj2 (Nat.eqb_neq _ _)) by lia.
  rewrite !as_i64_small by (rewrite ?as_i64_small; lia).
  rewrite (proj2 (Z.eqb_neq (Z.of_nat pred_factor) (-1))) by lia. cbn [andb].
  pose proof (Z.mod_pos_bound (Z.of_nat node_idx + pred_idx) (Z.of_nat pred_factor)) as Hb.
  rewrite Z.rem_mod_nonneg by lia.
  rewrite <- (Z2Nat.id ((Z.of_nat node_idx + pred_idx) mod _)) at 1 by lia. rewrite as_usize_of_nat; [done|].
  rewrite Z2Nat.id by lia. change two64 with (2 ^ 64)%Z. lia.
Qed.

(** With a non-negative sum of instance and offset, [find_pred_index] is that sum
    modulo the predecessor's factor, hence an instance of the predecessor. When the
    offset takes the sum below zero (the first instances of a [-1] "previous" edge)
    the truncating remainder is negative unless the factor divides the sum, and the
    result is a number no predecessor instance has: the index of the wrapped-around
    instance is not computed. *)
Theorem find_pred_index_spec node_idx pred_idx pred_factor
    (Hf : 0 < pred_factor) (Hfs : small pred_factor) (Hns : small node_idx)
    (Hps : (- 2 ^ 62 ≤ pred_idx < 2 ^ 62)%Z) :
  ((0 ≤ Z.of_nat node_idx + pred_idx)%Z →
     find_pred_index node_idx pred_idx pred_factor
       = Ret (Z.to_nat ((Z.of_nat node_idx + pred_idx) mod Z.of_nat pred_factor))
     ∧ Z.to_nat ((Z.of_nat node_idx + pred_idx) mod Z.of_nat pred_factor) < pred_factor)
  ∧ ((Z.of_nat node_idx + pred_idx < 0)%Z →
     ¬ (Z.of_nat pred_factor | Z.of_nat node_idx + pred_idx)%Z →
     ∃ n, find_pred_index node_idx pred_idx pred_factor = Ret n ∧ pred_factor ≤ n).
Proof.
  split; intros Hs.
  - split; [by apply find_pred_index_nonneg|].
    pose proof (Z.mod_pos_bound (Z.of_nat node_idx + pred_idx) (Z.of_nat pred_factor)). lia.
  - unfold small in *. unfold find_pred_index. rewrite (proj2 (Nat.eqb_neq _ _)) by lia.
    rewrite !as_i64_small by (rewrite ?as_i64_small; lia).
    set (s := (Z.of_nat node_idx + pred_idx)%Z) in *. set (f := Z.of_nat pred_factor) in *.
    rewrite (proj2 (Z.eqb_neq f (-1))) by lia. cbn [andb].
    intros Hnd. eexists. split; [done|].
    pose proof (Z.rem_bound_pos_neg s f) as Hr. apply Nat2Z.inj_le.
    assert (Z.rem s f ≠ 0%Z).
    { intros Hz. apply Hnd. apply Z.rem_divide; lia. }
    rewrite as_usize_neg; change two64 with (2 ^ 64)%Z; lia.
Qed.

Lemma find_pred_index_spec_witness :
  find_pred_index 3 (-1) 4 = Ret 2
  ∧ ∃ n, find_pred_index 0 (-1) 4 = Ret n ∧ 4 ≤ n.
Proof.
  assert (Hnd : ¬ (Z.of_nat 4 | Z.of_nat 0 + -1)%Z).
  { intros [k Hk]. lia. }
  split.
  - eapply (find_pred_index_spec 3 (-1) 4); unfold small; lia.
  - apply (find_pred_index_spec 0 (-1) 4); unfold small; try lia; done.
Defined.

(** A duplicate-free list inside a range of its own length is that range. *)
Lemma NoDup_fills_range (l : list Z) lo hi :
  NoDup l → (∀ i, i ∈ l → (Z.of_nat lo ≤ i < Z.of_nat hi)%Z) → length l = hi - lo →
  ∀ i, i ∈ l ↔ (Z.of_nat lo ≤ i < Z.of_nat hi)%Z.
Proof.
  intros Hnd Hin Hlen.
  assert (Hel : ∀ i, i ∈ (Z.of_nat <$> range lo hi) ↔ (Z.of_nat lo ≤ i < Z.of_nat hi)%Z).
  { intros i. rewrite list_elem_of_fmap. split.
    - intros (n & -> & Hn). rewrite elem_of_range in Hn. lia.
    - intros ?. exists (Z.to_nat i). rewrite elem_of_range. lia. }
  assert (Hp : l ≡ₚ (Z.of_nat <$> range lo hi)).
  { apply submseteq_length_Permutation.
    - apply NoDup_submseteq; [done|]. intros i Hi. by apply Hel, Hin.
    - rewrite length_fmap, length_range. lia. }
  intros i. by rewrite Hp, Hel.
Qed.

(** The declared offsets are absolute instances of a predecessor with [pred_factor]
    instances, none named twice. *)
Definition absolute_indexes (p : Predecessor) (pred_factor : nat) : Prop :=
  NoDup (p_indexes p) ∧ ∀ i, i ∈ p_indexes p → (0 ≤ i < Z.of_nat pred_factor)%Z.

Lemma index_filter_range p pred_factor succ_factor lo hi :
  small pred_factor → absolute_indexes p pred_factor → p_group_by p = None →
  index_filter p pred_factor succ_factor = Some (lo, hi) →
  ∃ l h, lo = Z.of_nat l ∧ hi = Z.of_nat h ∧ h ≤ pred_factor ∧ declared_range p l h
    ∧ length (p_indexes p) = h - l
    ∧ h - l < pred_factor ∧ (h - l = succ_factor ∨ succ_factor = 1).
Proof.
  unfold small. intros Hs [Hnd Habs] Hgb. unfold index_filter. rewrite Hgb. cbn [is_some].
  destruct (p_indexes p) as [|i0 is_] eqn:Hix; [done|]. rewrite <- Hix in *.
  assert (Hne : p_indexes p ≠ []) by (by rewrite Hix).
  pose proof (Habs _ (list_min_elem _ Hne)) as Hmin. pose proof (Habs _ (list_max_elem _ Hne)) as Hmax.
  pose proof (list_min_le _ _ (list_max_elem _ Hne)) as Hle.
  set (mn := list_min (p_indexes p)) in *. set (mx := list_max (p_indexes p)) in *.
  rewrite (as_u64_small mn), (as_u64_small mx), (as_u64_small (mx - mn)),
    !as_u64_small by (change two64 with (2 ^ 64)%Z; lia).
  destruct (_ && _ && _) eqn:Hc; [|done]. intros [= <- <-].
  rewrite !andb_true_iff, orb_true_iff, Z.ltb_lt, !Z.eqb_eq, Nat.eqb_eq in Hc.
  destruct Hc as [[Hlt Hlen] Hsf].
  exists (Z.to_nat mn), (Z.to_nat (mx + 1)).
  assert (declared_range p (Z.to_nat mn) (Z.to_nat (mx + 1))).
  { split; [done|]. apply NoDup_fills_range; [done| |lia].
    intros j Hj. pose proof (list_min_le _ _ Hj). pose proof (list_max_ge _ _ Hj). lia. }
  split; [lia|]. split; [lia|]. split; [lia|]. split; [done|]. lia.
Qed.

(** The completion of predecessor instance [i] passes an optional filter. *)
Definition passes (f : option (Z * Z)) (i : nat) : bool :=
  match f with Some (lo, hi) => (lo <=? Z.of_nat i)%Z && (Z.of_nat i <? hi)%Z | None => true end.

(** The instances of a predecessor that an optional filter lets through. *)
Definition passing (f : option (Z * Z)) (pred_factor : nat) : list nat :=
  filter (λ i, passes f i = true) (range 0 pred_factor).

Lemma passing_elem f n i : i ∈ passing f n ↔ passes f i = true ∧ i < n.
Proof. unfold passing. rewrite list_elem_of_filter, elem_of_range. intuition lia. Qed.

Lemma passes_range l h i : passes (Some (Z.of_nat l, Z.of_nat h)) i = true ↔ l ≤ i < h.
Proof. unfold passes. rewrite andb_true_iff, Z.leb_le, Z.ltb_lt. lia. Qed.

Lemma passing_range l h n : h ≤ n → passing (Some (Z.of_nat l, Z.of_nat h)) n ≡ₚ range l h.
Proof.
  intros Hn. apply NoDup_Permutation.
  - apply list.NoDup_filter, NoDup_range.
  - apply NoDup_range.
  - intros i. rewrite passing_elem, passes_range, elem_of_range. lia.
Qed.

Lemma passing_None n : passing None n = range 0 n.
Proof.
  unfold passing. generalize (range 0 n). intros l. induction l as [|x l IH]; [done|].
  rewrite filter_cons_True by done. by rewrite IH.
Qed.

Lemma length_passing_None n : length (passing None n) = n.
Proof. rewrite passing_None, length_range. lia. Qed.

(** The number of completions the counter is told to expect is the number of
    predecessor instances whose completion passes the filter. *)
Lemma contributing_is_passing p pred_factor succ_factor :
  small pred_factor → absolute_indexes p pred_factor → p_group_by p = None →
  contributing_instances p pred_factor succ_factor
  = length (passing (index_filter p pred_factor succ_factor) pred_factor).
Proof.
  intros Hs Habs Hgb. unfold contributing_instances.
  destruct (index_filter p pred_factor succ_factor) as [[lo hi]|] eqn:Hf.
  - destruct (index_filter_range _ _ _ _ _ Hs Habs Hgb Hf) as (l & h & -> & -> & Hh & _ & -> & _).
    rewrite passing_range by done. by rewrite length_range.
  - by rewrite length_passing_None.
Qed.

(** The filter of an ungrouped edge and the count that goes with it agree: when the
    declared offsets are distinct instances of the predecessor, the number of
    completions the successor is told to expect is exactly the number of predecessor
    instances whose completion the filter lets through; every declared instance is
    among them, and when a filter is set no undeclared one is. *)
Theorem index_filter_counts p pred_factor succ_factor
    (Hs : small pred_factor) (Habs : absolute_indexes p pred_factor) (Hgb : p_group_by p = None) :
  let f := index_filter p pred_factor succ_factor in
  contributing_instances p pred_factor succ_factor = length (passing f pred_factor)
  ∧ (∀ i, i ∈ p_indexes p → Z.to_nat i ∈ passing f pred_factor)
  ∧ (f ≠ None → ∀ i, i ∈ passing f pred_factor → Z.of_nat i ∈ p_indexes p).
Proof.
  intros f. split; [by apply contributing_is_passing|].
  destruct f as [[lo hi]|] eqn:Hf; subst f.
  - destruct (index_filter_range _ _ _ _ _ Hs Habs Hgb Hf) as (l & h & -> & -> & Hh & [_ Hd] & _).
    setoid_rewrite passing_elem. setoid_rewrite passes_range. split.
    + intros i Hi. apply Hd in Hi as Hi'. lia.
    + intros _ i [Hi _]. apply Hd. lia.
  - split; [|done]. intros i Hi. apply (proj2 Habs) in Hi. rewrite passing_elem. split; [done|]. lia.
Qed.

Lemma index_filter_counts_witness :
  let p := mkPred 0 [50; 51]%Z None in
  contributing_instances p 200 2 = length (passing (index_filter p 200 2) 200)
  ∧ (∀ i, i ∈ p_indexes p → Z.to_nat i ∈ passing (index_filter p 200 2) 200)
  ∧ (index_filter p 200 2 ≠ None →
       ∀ i, i ∈ passing (index_filter p 200 2) 200 → Z.of_nat i ∈ p_indexes p).
Proof.
  apply (index_filter_counts (mkPred 0 [50; 51]%Z None) 200 2).
  - unfold small. lia.
  - split; [cbn; repeat constructor; rewrite ?elem_of_cons; set_solver by lia|].
    cbn. intros i. rewrite !elem_of_cons. intros [->|[->|[]%not_elem_of_nil]]; lia.
  - done.
Defined.

(** ** Ambiguous predecessors *)

Lemma ambiguous_spec n pred_id :
  pred_is_ambiguous_multi_arg n pred_id = true ↔
  (∀ a, a ∈ args_on_pred n pred_id → is_barrier a = false)
  ∧ ∃ a b p q, a ∈ args_on_pred n pred_id ∧ b ∈ args_on_pred n pred_id
      ∧ a_predecessor a = Some p ∧ a_predecessor b = Some q ∧ same_decl p q = false.
Proof.
  unfold pred_is_ambiguous_multi_arg.
  assert (Hread : ∀ a, a ∈ args_on_pred n pred_id → ∃ p, a_predecessor a = Some p).
  { intros a [_ Ha]%args_on_pred_elem. apply reads_pred_some in Ha as (p & ? & _). by exists p. }
  destruct (args_on_pred n pred_id) as [|a0 rest]; [split; [done|]|].
  { intros (_ & a & _ & _ & _ & []%not_elem_of_nil & _). }
  destruct (Hread a0) as [first Hfirst]; [left|]. rewrite Hfirst.
  assert (Hex : existsb is_barrier (a0 :: rest) = false ↔ ∀ a, a ∈ a0 :: rest → is_barrier a = false).
  { rewrite <- not_true_iff_false, existsb_exists. split.
    - intros Hn a Ha. apply not_true_iff_false. intros ?. apply Hn. exists a. by rewrite <- list_elem_of_In.
    - intros Ha (x & Hx & Hb). rewrite <- list_elem_of_In in Hx. by rewrite Ha in Hb. }
  assert (Hd : existsb (arg_differs first) rest = true ↔
    ∃ b q, b ∈ rest ∧ a_predecessor b = Some q ∧ same_decl q first = false).
  { rewrite existsb_exists. setoid_rewrite <- list_elem_of_In. unfold arg_differs. split.
    - intros (b & Hb & Hq). destruct (a_predecessor b) as [q|] eqn:Hbq; [|done].
      exists b, q. by apply negb_true_iff in Hq.
    - intros (b & q & Hb & Hbq & Hq). exists b. rewrite Hbq, Hq. done. }
  destruct (_ || _) eqn:Hc.
  - split; [done|]. apply orb_true_iff in Hc as [Hl|Hb].
    + apply Nat.ltb_lt in Hl. destruct rest as [|]; [|cbn in Hl; lia].
      intros (_ & a & b & p & q & ->%list_elem_of_singleton & ->%list_elem_of_singleton & Hp & Hq & Hd').
      rewrite Hp in Hq. injection Hq as ->. by rewrite (proj2 (same_decl_eq q q)) in Hd'.
    + intros [Hnb _]. by rewrite (proj2 Hex Hnb) in Hb.
  - apply orb_false_iff in Hc as [_ Hb]. rewrite Hd. split.
    + intros (b & q & Hb' & Hbq & Hq). split; [by apply Hex|]. exists b, a0, q, first.
      split; [by right|]. split; [left|]. done.
    + intros (_ & a & b & p & q & Ha & Hb' & Hp & Hq & Hne).
      destruct (same_decl p first) eqn:Hpf.
      * assert (same_decl q first = false).
        { apply not_true_iff_false. rewrite same_decl_eq. apply same_decl_eq in Hpf as [Hp1 Hp2].
          apply not_true_iff_false in Hne. intros [Hq1 Hq2]. apply Hne, same_decl_eq. by rewrite Hp1, Hp2. }
        exists b, q. apply elem_of_cons in Hb' as [->|?]; [|done]. rewrite Hfirst in Hq.
        injection Hq as <-. by rewrite (proj2 (same_decl_eq first first)) in H.
      * exists a, p. apply elem_of_cons in Ha as [->|?]; [|done]. rewrite Hfirst in Hp.
        injection Hp as <-. by rewrite (proj2 (same_decl_eq first first)) in Hpf.
Qed.

(** A predecessor of a node is ambiguous exactly when no argument on it is a barrier
    and two of its arguments declare different offsets or groupings; comparing every
    argument with the first one is enough. *)
Theorem ambiguous_iff_differing n pred_id :
  pred_is_ambiguous_multi_arg n pred_id = true ↔
  (∀ a, a ∈ n_args n → reads_pred pred_id a = true → is_barrier a = false)
  ∧ ∃ a b p q, a ∈ n_args n ∧ b ∈ n_args n
      ∧ a_predecessor a = Some p ∧ p_id p = pred_id ∧ a_predecessor b = Some q ∧ p_id q = pred_id
      ∧ (p_indexes p ≠ p_indexes q ∨ p_group_by p ≠ p_group_by q).
Proof.
  rewrite ambiguous_spec. setoid_rewrite args_on_pred_elem.
  assert (Hr : ∀ a p, a_predecessor a = Some p → reads_pred pred_id a = true ↔ p_id p = pred_id).
  { intros a p Hp. unfold reads_pred. rewrite Hp. apply Nat.eqb_eq. }
  assert (Hs : ∀ p q, same_decl p q = false ↔ p_indexes p ≠ p_indexes q ∨ p_group_by p ≠ p_group_by q).
  { intros p q. rewrite <- not_true_iff_false, same_decl_eq.
    destruct (decide (p_indexes p = p_indexes q)), (decide (p_group_by p = p_group_by q)); tauto. }
  split.
  - intros [Hb (a & b & p & q & [Ha Har] & [Hb' Hbr] & Hp & Hq & Hd)]. split; [by auto|].
    exists a, b, p, q. rewrite <- Hs, <- (Hr a p), <- (Hr b q) by done. done.
  - intros [Hb (a & b & p & q & Ha & Hb' & Hp & Hpi & Hq & Hqi & Hd)]. split; [intros ? [? ?]; auto|].
    exists a, b, p, q. rewrite (Hr a p), (Hr b q), Hs by done. done.
Qed.
