(* ===== verification/Graph.v ===== *)
(** The task graph ([graph.rs]): construction node by node, and the number of
    completions each node has to wait for.

    The hash sets that only collect the distinct predecessors or offsets of one node
    are lists without repetition in order of first occurrence. Their iteration order is
    unspecified in Rust; [push_successors_perm] and [contributing_ext] show that no
    result depends on it. [condition_nodes] is a hash set whose iteration order does
    matter ([get_condition_indexes]); it is a list in that order. *)
From S2P Require Import Prelude Types GraphStruct.
From stdpp Require Import strings.
From Stdlib Require Import Sorting.Sorted.

Record Graph := mkGraph {
  g_nodes : list Node;
  g_initial_nodes : list nat;
  g_successors : list (list nat);
  g_condition_nodes : list nat;
  g_post_nodes : option (list Node);
  g_network_config : option GraphNetworkConfig;
}.

Definition Graph_new : Graph := mkGraph [] [] [] [] None None.

(** [while self.successors.len() <= pred_id { push(Vec::new()) }]. *)
Definition grow_successors (succs : list (list nat)) (pred_id : nat) : list (list nat) :=
  succs ++ replicate (S pred_id - length succs) [].

(** One iteration of the loop over the unique predecessors. *)
Definition push_successor (node_id : nat) (succs : list (list nat)) (pred_id : nat) : list (list nat) :=
  let succs' := grow_successors succs pred_id in
  alter (λ l, l ++ [node_id]) pred_id succs'.

Definition has_condition (args : list Arg) : bool := existsb is_condition args.

(** [HashSet::insert]. *)
Definition set_insert (x : nat) (l : list nat) : list nat :=
  if decide (x ∈ l) then l else l ++ [x].

(** [Graph::add_node]. *)
Definition add_node (g : Graph) (node : Node) : run Graph :=
  if negb (n_id node =? length (g_nodes g)) then Panic
  else
    let unique_preds := preds_of (n_args node) in
    let has_preds := match unique_preds with [] => false | _ => true end in
    let successors := fold_left (push_successor (n_id node)) unique_preds (g_successors g) in
    let initial_nodes :=
      if negb has_preds && negb (String.eqb (n_name node) "$network")
      then g_initial_nodes g ++ [n_id node] else g_initial_nodes g in
    let condition_nodes :=
      if has_condition (n_args node) || is_some (n_condition node)
      then set_insert (n_id node) (g_condition_nodes g) else g_condition_nodes g in
    Ret (mkGraph (g_nodes g ++ [node]) initial_nodes successors condition_nodes
           (g_post_nodes g) (g_network_config g)).

(** [Graph::add_post_node]. *)
Definition add_post_node (g : Graph) (node : Node) : run Graph :=
  let with_post l := mkGraph (g_nodes g) (g_initial_nodes g) (g_successors g) (g_condition_nodes g)
                       (Some l) (g_network_config g) in
  match g_post_nodes g with
  | Some post => if n_id node =? length post then Ret (with_post (post ++ [node])) else Panic
  | None => if n_id node =? 0 then Ret (with_post [node]) else Panic
  end.

Definition find_successors (g : Graph) (node_id : nat) : run (list nat) :=
  if length (g_successors g) <=? node_id then Panic else vec_get (g_successors g) node_id.

(** [Graph::has_scattered_per_instance_res]. *)
Definition has_scattered_per_instance_res (g : Graph) (node : Node) (pred_id : nat) : run bool :=
  let! pred := vec_get (g_nodes g) pred_id in
  Ret (existsb (λ a, is_result (a_type a)
                     && match a_predecessor a with
                        | Some p => (p_id p =? pred_id) && (length (p_indexes p) =? n_factor node)
                                    && negb (n_factor pred =? n_factor node)
                        | None => false
                        end) (n_args node)).

(** [Graph::barrier_group_by_for_dependency]. *)
Definition barrier_group_by_for_dependency (g : Graph) (node : Node) (pred : Predecessor)
    : run (option nat) :=
  let! scattered := has_scattered_per_instance_res g node (p_id pred) in
  Ret (if scattered : bool then None else p_group_by pred).

(** [Graph::union_pred_indexes]. *)
Definition union_pred_indexes (node : Node) (pred_id : nat) : list Z :=
  remove_dups (n_args node ≫= λ a,
    match a_predecessor a with
    | Some p => if p_id p =? pred_id then p_indexes p else []
    | None => []
    end).

Definition dep_num_groups (node : Node) : nat :=
  match n_group_size node with
  | Some gs => if (0 <? gs) && (gs <? n_factor node) then n_factor node / gs else 1
  | None => 1
  end.

(** Pass 1 of [dependency_count_vec] on one argument: the state is the count, the
    predecessors counted, and the barrier predecessors looked at. *)
Definition count_pass1 (g : Graph) (node : Node) (s : nat * list nat * list nat) (a : Arg)
    : run (nat * list nat * list nat) :=
  let '(dep_count, preds_seen, candidates) := s in
  if negb (ty_is_barrier (a_type a)) then Ret s
  else match a_predecessor a with
  | None => Ret s
  | Some pred =>
      if decide (p_id pred ∈ candidates) then Ret s
      else
        let! gb := barrier_group_by_for_dependency g node pred in
        match gb with
        | None => Ret (dep_count, preds_seen, p_id pred :: candidates)
        | Some group_by_size =>
            let num_barrier_groups :=
              if group_by_size =? 0 then 1 else length (p_indexes pred) / group_by_size in
            Ret (dep_count + num_barrier_groups * group_by_size,
                 p_id pred :: preds_seen, p_id pred :: candidates)
        end
  end.

(** Pass 2 on one remaining predecessor. *)
Definition has_barrier_on_pred (node : Node) (pred_id : nat) : bool :=
  existsb (λ a, is_barrier a && reads_pred pred_id a) (n_args node).

Definition count_pass2 (g : Graph) (node : Node) (dep_count : nat) (pred_id : nat) : run nat :=
  let! pred := vec_get (g_nodes g) pred_id in
  let pred_factor := n_factor pred in
  let ambiguous := pred_is_ambiguous_multi_arg node pred_id in
  let contributing :=
    if ambiguous then pred_factor
    else contributing_instances (mkPred pred_id (union_pred_indexes node pred_id) None)
           pred_factor (n_factor node) in
  let num_groups := dep_num_groups node in
  let adding := if (has_barrier_on_pred node pred_id || ambiguous) && (1 <? num_groups)
                then contributing * num_groups else contributing in
  Ret (dep_count + adding).

Definition dependency_count (g : Graph) (node : Node) : run nat :=
  let! (dep_count, preds_seen, _) := foldM (count_pass1 g node) (0, [], []) (n_args node) in
  foldM (count_pass2 g node) dep_count (first_seen preds_seen (arg_pred_ids (n_args node))).

(** [Graph::dependency_count_vec]. *)
Definition dependency_count_vec (g : Graph) : run (list nat) :=
  run_imap (λ _ node, dependency_count g node) 0 (g_nodes g).

Definition set_nodes (g : Graph) (nodes : list Node) : Graph :=
  mkGraph nodes (g_initial_nodes g) (g_successors g) (g_condition_nodes g) (g_post_nodes g)
    (g_network_config g).

Definition set_post_nodes (g : Graph) (post_nodes : option (list Node)) : Graph :=
  mkGraph (g_nodes g) (g_initial_nodes g) (g_successors g) (g_condition_nodes g) post_nodes
    (g_network_config g).

(** The positions of the arguments that carry an init condition. *)
Definition condition_arg_indexes (node : Node) : list nat :=
  omap (λ ia, if is_condition ia.2 then Some ia.1 else None) (imap pair (n_args node)).

(** [Graph::get_condition_indexes]. *)
Definition get_condition_indexes (g : Graph) : run (list (list nat)) :=
  foldM (λ acc cond_id,
    let! node := vec_get (g_nodes g) cond_id in
    match condition_arg_indexes node with
    | [] => Ret acc
    | l => Ret (acc ++ [l])
    end) [] (g_condition_nodes g).

Definition has_barrier (g : Graph) (node_id : nat) : run bool :=
  let! node := vec_get (g_nodes g) node_id in
  Ret (existsb (λ a, ty_is_barrier (a_type a)) (n_args node)).

(** [Graph::get_pred_indexes]: the first barrier on the predecessor, else the last argument. *)
Fixpoint pred_indexes_from (args : list Arg) (pred_id : nat) (acc : list Z) : list Z :=
  match args with
  | [] => acc
  | a :: args =>
      match a_predecessor a with
      | Some p =>
          if p_id p =? pred_id then
            if ty_is_barrier (a_type a) then p_indexes p
            else pred_indexes_from args pred_id (p_indexes p)
          else pred_indexes_from args pred_id acc
      | None => pred_indexes_from args pred_id acc
      end
  end.

Definition get_pred_indexes (g : Graph) (node_id pred_id : nat) : run (list Z) :=
  let! node := vec_get (g_nodes g) node_id in
  Ret (pred_indexes_from (n_args node) pred_id []).

Definition set_network_config (g : Graph) (config : GraphNetworkConfig) : Graph :=
  mkGraph (g_nodes g) (g_initial_nodes g) (g_successors g) (g_condition_nodes g) (g_post_nodes g)
    (Some config).

(** The grouped barriers [warn_ineffective_group_by] warns about: (node, predecessor). *)
Definition warn_ineffective_group_by (g : Graph) : run (list (nat * nat)) :=
  foldM (λ acc node,
    foldM (λ acc a,
      match a_predecessor a with
      | None => Ret acc
      | Some pred =>
          if ty_is_barrier (a_type a) && is_some (p_group_by pred) then
            let! gb := barrier_group_by_for_dependency g node pred in
            match gb with
            | None => let! _ := vec_get (g_nodes g) (p_id pred) in Ret (acc ++ [(n_id node, p_id pred)])
            | Some _ => Ret acc
            end
          else Ret acc
      end) acc (n_args node)) [] (g_nodes g).

(** The graph built from a list of nodes in order, as the graph generator does. *)
Definition build_graph (nodes : list Node) : run Graph := foldM add_node Graph_new nodes.

(** ** Well-formed graphs *)

(** What [add_node] maintains: ids are positions, the successor lists mirror the
    arguments, roots and condition nodes are exactly those of the nodes. *)
Definition succs_of (g : Graph) (p : nat) : list nat := default [] (g_successors g !! p).

Definition reads (node : Node) (pred_id : nat) : Prop := pred_id ∈ arg_pred_ids (n_args node).

Record graph_wf (g : Graph) : Prop := {
  gw_ids : ∀ i node, g_nodes g !! i = Some node → n_id node = i;
  gw_succ : ∀ p s, s ∈ succs_of g p ↔ ∃ node, g_nodes g !! s = Some node ∧ reads node p;
  gw_succ_sorted : ∀ p, StronglySorted lt (succs_of g p);
  gw_initial : ∀ i, i ∈ g_initial_nodes g ↔
    ∃ node, g_nodes g !! i = Some node ∧ arg_pred_ids (n_args node) = [] ∧ n_name node ≠ "$network"%string;
  gw_initial_sorted : StronglySorted lt (g_initial_nodes g);
  gw_condition : ∀ i, i ∈ g_condition_nodes g ↔
    ∃ node, g_nodes g !! i = Some node
      ∧ (has_condition (n_args node) = true ∨ is_some (n_condition node) = true);
  gw_condition_nodup : NoDup (g_condition_nodes g);
}.

(** ** [add_node] *)

Lemma length_push_successor id succs p :
  length (push_successor id succs p) = Nat.max (length succs) (S p).
Proof.
  unfold push_successor, grow_successors. rewrite length_alter, length_app, length_replicate. lia.
Qed.

Lemma push_successor_lookup id succs p q :
  push_successor id succs p !! q =
  if decide (q < Nat.max (length succs) (S p)) then
    Some (default [] (succs !! q) ++ if decide (q = p) then [id] else [])
  else None.
Proof.
  case_decide as Hq; [|apply lookup_ge_None; rewrite length_push_successor; lia].
  unfold push_successor.
  assert (Hg : grow_successors succs p !! q = Some (default [] (succs !! q))).
  { unfold grow_successors. destruct (decide (q < length succs)) as [Hl|Hl].
    - rewrite lookup_app_l by done. apply lookup_lt_is_Some_2 in Hl as [x Hx]. by rewrite Hx.
    - rewrite lookup_app_r by lia. rewrite lookup_replicate_2 by lia.
      by rewrite (lookup_ge_None_2 succs q) by lia. }
  destruct (decide (q = p)) as [->|Hne].
  - by rewrite list_lookup_alter_eq, Hg.
  - rewrite list_lookup_alter_ne by done. by rewrite Hg, app_nil_r.
Qed.

Lemma push_successor_comm id succs p q :
  push_successor id (push_successor id succs p) q = push_successor id (push_successor id succs q) p.
Proof.
  apply list_eq. intros i. rewrite !push_successor_lookup, !length_push_successor.
  destruct (decide (i < Nat.max (Nat.max (length succs) (S p)) (S q))) as [Hi|Hi].
  - rewrite (decide_True (P := i < Nat.max (Nat.max (length succs) (S q)) (S p))) by lia. f_equal.
    repeat case_decide; subst; cbn [default Datatypes.id]; rewrite ?app_nil_r; try done; try lia;
      rewrite (lookup_ge_None_2 succs) by lia; done.
  - by rewrite decide_False by lia.
Qed.

(** The order in which the set of predecessors is visited does not matter. *)
Lemma push_successors_perm id preds preds' succs :
  preds ≡ₚ preds' →
  fold_left (push_successor id) preds succs = fold_left (push_successor id) preds' succs.
Proof.
  intros Hp. revert succs. induction Hp as [|p preds preds' _ IH|p q preds|? ? ? _ IH1 _ IH2];
    intros succs; cbn [fold_left]; auto.
  - by rewrite push_successor_comm.
  - by rewrite IH1.
Qed.

Lemma push_successors_succs id preds succs q : NoDup preds →
  default [] (fold_left (push_successor id) preds succs !! q)
  = default [] (succs !! q) ++ if decide (q ∈ preds) then [id] else [].
Proof.
  intros Hnd. revert succs. induction Hnd as [|p preds Hp Hnd IH]; intros succs; cbn [fold_left].
  - rewrite decide_False by apply not_elem_of_nil. by rewrite app_nil_r.
  - rewrite IH, push_successor_lookup. clear IH.
    assert (Hd : default [] (if decide (q < Nat.max (length succs) (S p))
                   then Some (default [] (succs !! q) ++ (if decide (q = p) then [id] else [])) else None)
                 = default [] (succs !! q) ++ if decide (q = p) then [id] else []).
    { case_decide; [done|]. cbn [default Datatypes.id]. rewrite decide_False by lia.
      by rewrite lookup_ge_None_2 by lia. }
    rewrite Hd, <- (assoc_L (++)). f_equal.
    destruct (decide (q = p)) as [->|Hne].
    + rewrite (decide_False (P := p ∈ preds)) by done.
      by rewrite decide_True by left.
    + cbn [app]. apply decide_ext. rewrite elem_of_cons. tauto.
Qed.

Lemma StronglySorted_snoc l x : StronglySorted lt l → (∀ y, y ∈ l → y < x) → StronglySorted lt (l ++ [x]).
Proof.
  induction 1 as [|y l Hl IH Hy]; intros Hx; cbn; [repeat constructor|].
  constructor; [apply IH; intros; apply Hx; by right|].
  apply Forall_app. split; [done|]. constructor; [apply Hx; left|done].
Qed.

Lemma set_insert_elem x l y : y ∈ set_insert x l ↔ y = x ∨ y ∈ l.
Proof.
  unfold set_insert. case_decide; [intuition congruence|].
  rewrite elem_of_app, elem_of_cons, elem_of_nil. tauto.
Qed.

Lemma set_insert_NoDup x l : NoDup l → NoDup (set_insert x l).
Proof.
  unfold set_insert. intros. case_decide; [done|]. apply NoDup_app. split; [done|].
  split; [|apply NoDup_singleton]. intros y Hy ->%list_elem_of_singleton. done.
Qed.

Lemma preds_of_nil args : preds_of args = [] ↔ arg_pred_ids args = [].
Proof.
  split; intros H.
  - destruct (arg_pred_ids args) as [|x l] eqn:He; [done|].
    assert (Hx : x ∈ preds_of args) by (rewrite preds_of_elem, He; left).
    rewrite H in Hx. by apply not_elem_of_nil in Hx.
  - unfold preds_of. by rewrite H.
Qed.

Lemma Graph_new_wf : graph_wf Graph_new.
Proof.
  assert (Hn : ∀ {A} (x : A), x ∈ @nil A ↔ False) by (intros; apply elem_of_nil).
  constructor; cbn; unfold succs_of; cbn; try done; try constructor.
  - by intros ?%not_elem_of_nil.
  - intros (node & ? & _). done.
  - by intros ?%not_elem_of_nil.
  - intros (node & ? & _). done.
  - by intros ?%not_elem_of_nil.
  - intros (node & ? & _). done.
Qed.

Lemma snoc_lookup {A} (l : list A) x i y :
  (l ++ [x]) !! i = Some y ↔ l !! i = Some y ∨ (i = length l ∧ y = x).
Proof.
  rewrite lookup_app_Some, list_lookup_singleton_Some. split.
  - intros [?|(? & ? & ->)]; [by left|right]. split; [lia|done].
  - intros [?|[-> ->]]; [by left|right]. split; [lia|]. split; [lia|done].
Qed.

Lemma add_node_wf_lemma g node :
  graph_wf g → n_id node = length (g_nodes g) →
  ∃ g', add_node g node = Ret g' ∧ graph_wf g' ∧ g_nodes g' = g_nodes g ++ [node].
Proof.
  intros [Hids Hsucc Hsort Hinit Hisort Hcond Hcnd] Hid.
  unfold add_node. rewrite Hid, Nat.eqb_refl. cbn [negb]. eexists. split; [done|].
  split; [|done].
  assert (Hlt : ∀ i nd, g_nodes g !! i = Some nd → i < length (g_nodes g)).
  { intros i nd ?. by eapply lookup_lt_Some. }
  constructor; cbn [g_nodes g_successors g_initial_nodes g_condition_nodes].
  - intros i nd [?|[-> ->]]%snoc_lookup; [by apply Hids|done].
  - intros p s. unfold succs_of. cbn [g_successors].
    rewrite push_successors_succs by apply preds_of_NoDup. rewrite elem_of_app.
    fold (succs_of g p). rewrite Hsucc. setoid_rewrite snoc_lookup. unfold reads.
    split.
    + intros [(nd & ? & ?)|Hs]; [exists nd; tauto|].
      case_decide; [|by apply not_elem_of_nil in Hs]. apply list_elem_of_singleton in Hs as ->.
      exists node. rewrite <- preds_of_elem. tauto.
    + intros (nd & [?|[-> ->]] & Hr); [left; by exists nd|right].
      rewrite <- preds_of_elem in Hr. rewrite decide_True by done. left.
  - intros p. unfold succs_of. cbn [g_successors].
    rewrite push_successors_succs by apply preds_of_NoDup. fold (succs_of g p).
    case_decide; [|by rewrite app_nil_r]. apply StronglySorted_snoc; [done|].
    intros y (nd & Hy & _)%Hsucc. by eapply Hlt.
  - intros i. setoid_rewrite snoc_lookup.
    destruct (preds_of (n_args node)) as [|x l] eqn:Hp.
    + apply preds_of_nil in Hp. cbn [negb andb].
      destruct (String.eqb_spec (n_name node) "$network") as [He|He]; cbn [negb].
      * rewrite Hinit. split; [intros (nd & ? & ?); exists nd; tauto|].
        intros (nd & [?|[-> ->]] & ? & ?); [by exists nd|done].
      * rewrite elem_of_app, list_elem_of_singleton, Hinit. split.
        -- intros [(nd & ? & ?)| ->]; [exists nd; tauto|exists node; tauto].
        -- intros (nd & [?|[-> ->]] & ? & ?); [left; by exists nd|by right].
    + cbn [negb andb]. rewrite Hinit. split; [intros (nd & ? & ?); exists nd; tauto|].
      intros (nd & [?|[-> ->]] & Hn & ?); [by exists nd|]. apply preds_of_nil in Hn. congruence.
  - case_match; [|done]. apply StronglySorted_snoc; [done|].
    intros y (nd & Hy & _)%Hinit. by eapply Hlt.
  - intros i. setoid_rewrite snoc_lookup.
    destruct (has_condition (n_args node) || is_some (n_condition node)) eqn:Hc.
    + rewrite set_insert_elem, Hcond. apply orb_true_iff in Hc. split.
      * intros [->|(nd & ? & ?)]; [exists node; tauto|exists nd; tauto].
      * intros (nd & [?|[-> ->]] & ?); [right; by exists nd|by left].
    + rewrite Hcond. apply orb_false_iff in Hc as [Hc1 Hc2]. split.
      * intros (nd & ? & ?). exists nd. tauto.
      * intros (nd & [?|[-> ->]] & [?|?]); [exists nd; tauto|exists nd; tauto|congruence|congruence].
  - case_match; [by apply set_insert_NoDup|done].
Qed.

Lemma build_graph_from g nodes :
  graph_wf g → (∀ i node, nodes !! i = Some node → n_id node = length (g_nodes g) + i) →
  ∃ g', foldM add_node g nodes = Ret g' ∧ graph_wf g' ∧ g_nodes g' = g_nodes g ++ nodes.
Proof.
  revert g. induction nodes as [|node nodes IH]; intros g Hwf Hids.
  - exists g. by rewrite app_nil_r.
  - destruct (add_node_wf_lemma g node Hwf) as (g1 & Ha & Hwf1 & Hn1).
    { rewrite (Hids 0 node) by done. lia. }
    cbn [foldM]. rewrite Ha. cbn [run_bind].
    destruct (IH g1 Hwf1) as (g2 & H2 & Hwf2 & Hn2).
    { intros i nd Hi. rewrite Hn1, length_app. cbn. rewrite (Hids (S i) nd) by done. lia. }
    exists g2. rewrite Hn2, Hn1, <- (assoc_L (++)). done.
Qed.

(** Building a graph from nodes numbered in order succeeds and yields a well-formed
    graph: the successor list of [p] holds, in increasing order and once each, exactly
    the nodes with an argument on [p]; the initial nodes are exactly those without a
    predecessor, [$network] excepted; the condition nodes are exactly those with a
    condition. A node out of order panics. *)
Theorem build_graph_wf nodes (Hids : ∀ i node, nodes !! i = Some node → n_id node = i) :
  ∃ g, build_graph nodes = Ret g ∧ graph_wf g ∧ g_nodes g = nodes
  ∧ ∀ node, n_id node ≠ length nodes → add_node g node = Panic.
Proof.
  destruct (build_graph_from Graph_new nodes Graph_new_wf) as (g & Hg & Hwf & Hn); [done|].
  exists g. split; [done|]. split; [done|]. split; [done|]. intros node Hne.
  unfold add_node. rewrite Hn. cbn. by rewrite (proj2 (Nat.eqb_neq _ _)).
Qed.

(** A producer, and a consumer reading it through two arguments. *)
Definition demo_res (pred : nat) (indexes : list Z) : Arg :=
  mkArg (CmRes pred) None (Some (mkPred pred indexes None)).
Definition demo_barrier (pred : nat) (indexes : list Z) (gb : option nat) : Arg :=
  mkArg (CmBarrier "$barrier") None (Some (mkPred pred indexes gb)).
Definition demo_node (id factor : nat) (args : list Arg) : Node :=
  mkNode "n" args id None factor None "" None None Normal None.
Definition demo_nodes : list Node :=
  [demo_node 0 4 []; demo_node 1 4 [demo_res 0 [0%Z]; demo_res 0 [0%Z]]].

Lemma build_graph_wf_witness :
  ∃ g, build_graph demo_nodes = Ret g ∧ graph_wf g ∧ g_nodes g = demo_nodes
  ∧ ∀ node, n_id node ≠ length demo_nodes → add_node g node = Panic.
Proof.
  apply (build_graph_wf demo_nodes). intros [|[|i]] node; cbn; [by intros [= <-]|by intros [= <-]|done].
Defined.
