(* ===== verification/NodeCache.v ===== *)
(** The per-node cache ([runtime/node_cache.rs]): the argument template of a node, with
    the positions that are filled in at run time, and the flags later passes set. *)
From S2P Require Import Prelude Types GraphStruct Graph.
From stdpp Require Import strings gmap.

(** The kernel lookup table generated by the build script or loaded from a plugin. *)
Class FuncReg := {
  get_func : string → option CmPtr;
  get_bulk_func : string → option CmBulkPtr;
  get_func_argspec : string → option (list string);
  get_func_ret_variant : string → option string;
  get_unchecked_func : string → option CmPtr;
}.

Inductive Priority := PHigh | PNormal | PLow.

(** [ResPredCache]. *)
Record ResPredCache := mkResPred {
  rp_node_id : nat;
  rp_res_node_id : nat;
  rp_indexes : list Z;
  rp_pred_factor : nat;
  rp_pred_group_size : option nat;
  rp_node_group_size : option nat;
  rp_node_factor : nat;
  rp_is_dep : bool;
  rp_node_has_barrier : bool;
}.

(** [ArgCacheEntry]. *)
Record ArgCacheEntry := mkArgCache {
  ac_args : list CmTypes;
  ac_buffer_ref_indexes : list nat;
  ac_buffer_values : list (list CmTypes);
  ac_rt_idxs_indexes : list nat;
  ac_rt_workers_indexes : list nat;
  ac_res_indexes : list nat;
  ac_real_res_indexes : list nat;
  ac_res_predecessors : list ResPredCache;
}.

Definition ArgCache_default : ArgCacheEntry := mkArgCache [] [] [] [] [] [] [] [].

(** [NodeConditionCache]. *)
Record NodeConditionCache := mkCondCache {
  cc_operation : CondOp;
  cc_eval_value : CmTypes;
  cc_func_ptr : CmPtr;
  cc_arg_cache : ArgCacheEntry;
}.

(** [NodeCacheEntry]. *)
Record NodeCacheEntry := mkCache {
  ce_factor : nat;
  ce_pred_vec : list nat;
  ce_name : string;
  ce_func_ptr : CmPtr;
  ce_arg_cache : ArgCacheEntry;
  ce_is_initial : bool;
  ce_is_condition : bool;
  ce_cond_index : nat;
  ce_successor_count : nat;
  ce_node_condition : option NodeConditionCache;
  ce_priority : Priority;
  ce_affinity_group : nat;
  ce_worker_resolvable : bool;
  ce_needs_result_store : bool;
  ce_bulk_func : option CmBulkPtr;
  ce_is_fanout_bulk : bool;
  ce_template_stable : bool;
  ce_func_name : string;
  ce_uses_unchecked : bool;
}.

(** The state of the loop of [build_arg_cache]: the cache under construction, the
    number of arguments of each predecessor, and the next position. *)
Record arg_build := mkArgBuild {
  ab_cache : ArgCacheEntry;
  ab_preds : gmap nat (list nat);
  ab_idx : nat;
}.

Definition set_args (l : list CmTypes) (c : ArgCacheEntry) : ArgCacheEntry :=
  mkArgCache l (ac_buffer_ref_indexes c) (ac_buffer_values c) (ac_rt_idxs_indexes c)
    (ac_rt_workers_indexes c) (ac_res_indexes c) (ac_real_res_indexes c) (ac_res_predecessors c).

Definition set_res_predecessors (l : list ResPredCache) (c : ArgCacheEntry) : ArgCacheEntry :=
  mkArgCache (ac_args c) (ac_buffer_ref_indexes c) (ac_buffer_values c) (ac_rt_idxs_indexes c)
    (ac_rt_workers_indexes c) (ac_res_indexes c) (ac_real_res_indexes c) l.

(** The body of the match on [arg.type_]: position [pos] of the template, argument
    number [real]. A bad object id or an empty object vector panics. *)
Definition build_arg (init_objects : list (list CmTypes)) (c : ArgCacheEntry) (pos real : nat) (a : Arg)
    : run ArgCacheEntry :=
  match a_type a with
  | CmRef obj_id =>
      if obj_id =? 0 then
        Ret (mkArgCache (ac_args c) (ac_buffer_ref_indexes c) (ac_buffer_values c)
               (ac_rt_idxs_indexes c ++ [pos]) (ac_rt_workers_indexes c) (ac_res_indexes c)
               (ac_real_res_indexes c) (ac_res_predecessors c))
      else if obj_id =? 1 then
        Ret (mkArgCache (ac_args c) (ac_buffer_ref_indexes c) (ac_buffer_values c)
               (ac_rt_idxs_indexes c) (ac_rt_workers_indexes c ++ [pos]) (ac_res_indexes c)
               (ac_real_res_indexes c) (ac_res_predecessors c))
      else
        let! obj_vec := vec_get init_objects obj_id in
        if 1 <? length obj_vec then
          Ret (mkArgCache (ac_args c) (ac_buffer_ref_indexes c ++ [pos]) (ac_buffer_values c ++ [obj_vec])
                 (ac_rt_idxs_indexes c) (ac_rt_workers_indexes c) (ac_res_indexes c)
                 (ac_real_res_indexes c) (ac_res_predecessors c))
        else
          let! v := vec_get obj_vec 0 in
          let! l := vec_set (ac_args c) pos v in
          Ret (set_args l c)
  | CmRes _ | CmDep _ =>
      Ret (mkArgCache (ac_args c) (ac_buffer_ref_indexes c) (ac_buffer_values c)
             (ac_rt_idxs_indexes c) (ac_rt_workers_indexes c) (ac_res_indexes c ++ [pos])
             (ac_real_res_indexes c ++ [real]) (ac_res_predecessors c))
  | CmBarrier _ => Ret c
  | t => let! l := vec_set (ac_args c) pos t in Ret (set_args l c)
  end.

Definition add_pred_count (a : Arg) (m : gmap nat (list nat)) : gmap nat (list nat) :=
  match a_type a, a_predecessor a with
  | (CmRes _ | CmDep _), Some p =>
      <[p_id p := default [] (m !! p_id p) ++ [length (p_indexes p)]]> m
  | _, _ => m
  end.

Definition build_arg_step (init_objects : list (list CmTypes)) (skip_conditions : bool)
    (s : arg_build) (ia : nat * Arg) : run arg_build :=
  let '(idx, a) := ia in
  if skip_conditions && is_condition a then Ret s
  else
    let! c := build_arg init_objects (ab_cache s) (ab_idx s) idx a in
    Ret (mkArgBuild c (add_pred_count a (ab_preds s)) (S (ab_idx s))).

(** [build_arg_cache]. *)
Definition build_arg_cache (args : list Arg) (init_objects : list (list CmTypes)) (skip_conditions : bool)
    : run (ArgCacheEntry * gmap nat (list nat)) :=
  let! s := foldM (build_arg_step init_objects skip_conditions)
              (mkArgBuild (set_args (replicate (length args) CmNone) ArgCache_default) ∅ 0)
              (imap pair args) in
  Ret (ab_cache s, ab_preds s).

Definition nat_max (l : list nat) : nat := foldr Nat.max 0 l.

(** [build_pred_vec]: the keys are distinct, so the order of the hash map is immaterial. *)
Definition build_pred_vec (pred_hash : gmap nat (list nat)) : list nat :=
  let entries := map_to_list pred_hash in
  let max_pred_id := nat_max entries.*1 in
  foldr (λ kc v, <[kc.1 := nat_max kc.2]> v) (replicate (S max_pred_id) 0) entries.

(** [resolve_func] of a production build. *)
Definition resolve_func `{FuncReg} (name : string) : run CmPtr := unwrap (get_func name).

(** [build_condition_cache]. *)
Definition build_condition_cache `{FuncReg} (node : Node) (init_objects : list (list CmTypes))
    : run (option NodeConditionCache) :=
  match n_condition node with
  | None => Ret None
  | Some cond =>
      let! (arg_cache, _) := build_arg_cache (nc_args cond) init_objects false in
      let! f := resolve_func (nc_func_name cond) in
      Ret (Some (mkCondCache (nc_operation cond) (nc_eval_value cond) f arg_cache))
  end.

(** [iter().position(|&x| x == id)]. *)
Fixpoint position (x : nat) (l : list nat) : option nat :=
  match l with
  | [] => None
  | y :: l => if x =? y then Some 0 else S <$> position x l
  end.

Definition mem (x : nat) (l : list nat) : bool := if decide (x ∈ l) then true else false.

(** [node_cache_entry]. *)
Definition node_cache_entry `{FuncReg} (node : Node) (init_objects : list (list CmTypes))
    (initial_nodes condition_nodes : list nat) : run NodeCacheEntry :=
  if String.eqb (n_name node) "$network" then
    Ret (mkCache (n_factor node) [] (n_name node) default_pointer ArgCache_default false false 0 0
           None PNormal 0 false false None false false (n_func_name node) false)
  else
    let! (arg_cache, pred_hash) := build_arg_cache (n_args node) init_objects true in
    let pred_vec := build_pred_vec pred_hash in
    let cond_index := if mem (n_id node) condition_nodes
                      then default 0 (position (n_id node) condition_nodes) else 0 in
    let! f := resolve_func (n_func_name node) in
    let! cc := build_condition_cache node init_objects in
    Ret (mkCache (n_factor node) pred_vec (n_name node) f arg_cache (mem (n_id node) initial_nodes)
           (mem (n_id node) condition_nodes) cond_index 0 cc PNormal 0 false false
           (get_bulk_func (n_func_name node)) false false (n_func_name node) false).

(** ** The argument template *)

(** The arguments a template has a position for. *)
Definition kept_args (skip : bool) (args : list Arg) : list Arg :=
  filter (λ a, skip && is_condition a = false) args.

(** What the entry says of position [pos], given the argument [a] that sits there. *)
Definition slot_ok (init_objects : list (list CmTypes)) (c : ArgCacheEntry) (pos : nat) (a : Arg) : Prop :=
  match a_type a with
  | CmRef 0 => pos ∈ ac_rt_idxs_indexes c ∧ ac_args c !! pos = Some CmNone
  | CmRef 1 => pos ∈ ac_rt_workers_indexes c ∧ ac_args c !! pos = Some CmNone
  | CmRef o => ∃ l, init_objects !! o = Some l ∧
      ((1 < length l ∧ ac_args c !! pos = Some CmNone
        ∧ ∃ k, ac_buffer_ref_indexes c !! k = Some pos ∧ ac_buffer_values c !! k = Some l)
       ∨ ∃ v, l = [v] ∧ ac_args c !! pos = Some v)
  | CmRes _ | CmDep _ => pos ∈ ac_res_indexes c ∧ ac_args c !! pos = Some CmNone
  | CmBarrier _ => ac_args c !! pos = Some CmNone
  | t => ac_args c !! pos = Some t
  end.

(** The positions that are filled in at run time. *)
Definition dynamic_positions (c : ArgCacheEntry) : list nat :=
  ac_rt_idxs_indexes c ++ ac_rt_workers_indexes c ++ ac_buffer_ref_indexes c ++ ac_res_indexes c.

Record build_inv (init_objects : list (list CmTypes)) (n : nat) (done_ : list Arg) (s : arg_build) : Prop := {
  bi_idx : ab_idx s = length done_;
  bi_len : length (ac_args (ab_cache s)) = n;
  bi_fits : length done_ <= n;
  bi_slots : ∀ pos a, done_ !! pos = Some a → slot_ok init_objects (ab_cache s) pos a;
  bi_rest : ∀ pos, length done_ <= pos < n → ac_args (ab_cache s) !! pos = Some CmNone;
  bi_buffers : length (ac_buffer_ref_indexes (ab_cache s)) = length (ac_buffer_values (ab_cache s));
  bi_res : length (ac_res_indexes (ab_cache s)) = length (ac_real_res_indexes (ab_cache s));
  bi_dyn_nodup : NoDup (dynamic_positions (ab_cache s));
  bi_dyn_lt : ∀ pos, pos ∈ dynamic_positions (ab_cache s) → pos < length done_;
}.

Definition objects_ok (init_objects : list (list CmTypes)) (a : Arg) : Prop :=
  match a_type a with
  | CmRef o => o < 2 ∨ ∃ v l, init_objects !! o = Some (v :: l)
  | _ => True
  end.

(** The arguments at the positions already built are not disturbed. *)
Lemma slot_ok_mono objs c c' pos a :
  slot_ok objs c pos a → ac_args c' !! pos = ac_args c !! pos →
  (∀ x, x ∈ ac_rt_idxs_indexes c → x ∈ ac_rt_idxs_indexes c') →
  (∀ x, x ∈ ac_rt_workers_indexes c → x ∈ ac_rt_workers_indexes c') →
  (∀ x, x ∈ ac_res_indexes c → x ∈ ac_res_indexes c') →
  ac_buffer_ref_indexes c `prefix_of` ac_buffer_ref_indexes c' →
  ac_buffer_values c `prefix_of` ac_buffer_values c' →
  slot_ok objs c' pos a.
Proof.
  intros Hs Ha H1 H2 H3 [l1 H4] [l2 H5]. unfold slot_ok in *. rewrite Ha.
  destruct (a_type a) as [| | | | | | | | | | | | | | | | | | | |o| | | | | | | | | |]; try naive_solver.
  destruct o as [|[|o]]; [naive_solver|naive_solver|].
  destruct Hs as (l & Hl & [(Hlen & Hn & k & Hk1 & Hk2)|Hv]); exists l; (split; [done|]); [left|by right].
  split; [done|]. split; [done|]. exists k. rewrite H4, H5. split; by apply lookup_app_l_Some.
Qed.

(** The next position is written and every other part only grows. *)
Lemma build_inv_extend objs n done_ s c' m v d a :
  build_inv objs n done_ s → length done_ < n →
  ac_args c' = <[length done_ := v]> (ac_args (ab_cache s)) →
  (∀ x, x ∈ ac_rt_idxs_indexes (ab_cache s) → x ∈ ac_rt_idxs_indexes c') →
  (∀ x, x ∈ ac_rt_workers_indexes (ab_cache s) → x ∈ ac_rt_workers_indexes c') →
  (∀ x, x ∈ ac_res_indexes (ab_cache s) → x ∈ ac_res_indexes c') →
  ac_buffer_ref_indexes (ab_cache s) `prefix_of` ac_buffer_ref_indexes c' →
  ac_buffer_values (ab_cache s) `prefix_of` ac_buffer_values c' →
  length (ac_buffer_ref_indexes c') = length (ac_buffer_values c') →
  length (ac_res_indexes c') = length (ac_real_res_indexes c') →
  dynamic_positions c' ≡ₚ d ++ dynamic_positions (ab_cache s) →
  d = [] ∨ d = [length done_] →
  slot_ok objs c' (length done_) a →
  build_inv objs n (done_ ++ [a]) (mkArgBuild c' m (S (ab_idx s))).
Proof.
  intros [Hidx Hlen Hfit Hslots Hrest Hbuf Hres Hnd Hlt] Hn Hargs H1 H2 H3 H4 H5 H6 H7 Hd Hdd Hslot.
  constructor; cbn [ab_idx ab_cache]; rewrite ?length_app; cbn [length].
  - lia.
  - by rewrite Hargs, length_insert.
  - lia.
  - intros pos a'. rewrite snoc_lookup. intros [Hpos|[-> ->]]; [|done].
    eapply slot_ok_mono; eauto. rewrite Hargs. apply list_lookup_insert_ne.
    apply lookup_lt_Some in Hpos. lia.
  - intros pos Hpos. rewrite Hargs, list_lookup_insert_ne by lia. apply Hrest. lia.
  - done.
  - done.
  - rewrite Hd. destruct Hdd as [->| ->]; [done|]. cbn. constructor; [|done].
    intros Hin. apply Hlt in Hin. lia.
  - intros pos. rewrite Hd, elem_of_app. destruct Hdd as [->| ->].
    + intros [?%not_elem_of_nil|?%Hlt]; [done|lia].
    + intros [->%list_elem_of_singleton|?%Hlt]; lia.
Qed.

Lemma insert_same objs n done_ s :
  build_inv objs n done_ s → length done_ < n →
  ac_args (ab_cache s) = <[length done_ := CmNone]> (ac_args (ab_cache s)).
Proof. intros Hi Hn. symmetry. apply list_insert_id. by apply (bi_rest _ _ _ _ Hi). Qed.

Lemma snoc_mono {A} (l : list A) y x : x ∈ l → x ∈ l ++ [y].
Proof. rewrite elem_of_app. tauto. Qed.

(** Position [length done_] of the template after the write. *)
Lemma built_at n objs done_ s v :
  build_inv objs n done_ s → length done_ < n →
  <[length done_ := v]> (ac_args (ab_cache s)) !! length done_ = Some v.
Proof. intros Hi Hn. apply list_lookup_insert_eq. by rewrite (bi_len _ _ _ _ Hi). Qed.

Lemma Permutation_snoc_dyn l1 l2 l3 l4 (x : nat) :
  ((l1 ++ [x]) ++ l2 ++ l3 ++ l4 ≡ₚ [x] ++ l1 ++ l2 ++ l3 ++ l4)
  ∧ (l1 ++ (l2 ++ [x]) ++ l3 ++ l4 ≡ₚ [x] ++ l1 ++ l2 ++ l3 ++ l4)
  ∧ (l1 ++ l2 ++ (l3 ++ [x]) ++ l4 ≡ₚ [x] ++ l1 ++ l2 ++ l3 ++ l4)
  ∧ (l1 ++ l2 ++ l3 ++ (l4 ++ [x]) ≡ₚ [x] ++ l1 ++ l2 ++ l3 ++ l4).
Proof. split_and!; solve_Permutation. Qed.

(** Writing an ordinary value at the next position. *)
Lemma build_inv_value objs n done_ s m v a :
  build_inv objs n done_ s → length done_ < n →
  (∀ c, ac_args c !! length done_ = Some v → slot_ok objs c (length done_) a) →
  ∃ l, vec_set (ac_args (ab_cache s)) (ab_idx s) v = Ret l
    ∧ build_inv objs n (done_ ++ [a]) (mkArgBuild (set_args l (ab_cache s)) m (S (ab_idx s))).
Proof.
  intros Hi Hn Hs. pose proof (bi_idx _ _ _ _ Hi) as Hidx. pose proof (bi_len _ _ _ _ Hi) as Hlen.
  rewrite vec_set_lt by lia. eexists. split; [done|]. rewrite Hidx.
  replace (S (length done_)) with (S (ab_idx s)) by lia.
  eapply (build_inv_extend _ _ _ _ _ _ v []); cbn; try done; try apply Hi; [by left|].
  apply Hs. cbn. by eapply built_at.
Qed.

Lemma build_arg_inv objs n done_ s real a :
  build_inv objs n done_ s → length done_ < n → objects_ok objs a →
  ∃ c, build_arg objs (ab_cache s) (ab_idx s) real a = Ret c
    ∧ ∀ m, build_inv objs n (done_ ++ [a]) (mkArgBuild c m (S (ab_idx s))).
Proof.
  intros Hi Hn Hobj. unfold build_arg.
  pose proof (bi_idx _ _ _ _ Hi) as Hidx.
  pose proof (insert_same _ _ _ _ Hi Hn) as Hins.
  pose proof (bi_rest _ _ _ _ Hi (length done_) ltac:(lia)) as Hnone.
  pose proof (bi_buffers _ _ _ _ Hi) as Hbuf. pose proof (bi_res _ _ _ _ Hi) as Hres.
  pose proof (Permutation_snoc_dyn (ac_rt_idxs_indexes (ab_cache s)) (ac_rt_workers_indexes (ab_cache s))
    (ac_buffer_ref_indexes (ab_cache s)) (ac_res_indexes (ab_cache s)) (length done_)) as (P1 & P2 & P3 & P4).
  assert (Hval : ∀ v, (∀ c, ac_args c !! length done_ = Some v → slot_ok objs c (length done_) a) →
    ∃ c, (let! l := vec_set (ac_args (ab_cache s)) (ab_idx s) v in Ret (set_args l (ab_cache s))) = Ret c
      ∧ ∀ m, build_inv objs n (done_ ++ [a]) (mkArgBuild c m (S (ab_idx s)))).
  { intros v Hs. destruct (build_inv_value objs n done_ s ∅ v a Hi Hn Hs) as (l & Hl & _).
    rewrite Hl. cbn [run_bind]. eexists. split; [done|]. intros m.
    destruct (build_inv_value objs n done_ s m v a Hi Hn Hs) as (l' & Hl' & ?). congruence. }
  destruct (a_type a) eqn:Ht;
    try (apply Hval; intros ? Hc; unfold slot_ok; rewrite Ht; exact Hc).
  - (* $ref *)
    match type of Ht with _ = CmRef ?o => destruct o as [|[|o]] end; cbn [Nat.eqb].
    + eexists. split; [done|]. intros m. rewrite Hidx.
      replace (S (length done_)) with (S (ab_idx s)) by lia.
      eapply (build_inv_extend _ _ _ _ _ _ CmNone [length done_]); cbn; eauto using snoc_mono.
      unfold slot_ok. rewrite Ht. cbn. split; [|done]. apply elem_of_app. right. left.
    + eexists. split; [done|]. intros m. rewrite Hidx.
      replace (S (length done_)) with (S (ab_idx s)) by lia.
      eapply (build_inv_extend _ _ _ _ _ _ CmNone [length done_]); cbn; eauto using snoc_mono.
      unfold slot_ok. rewrite Ht. cbn. split; [|done]. apply elem_of_app. right. left.
    + unfold objects_ok in Hobj. rewrite Ht in Hobj. destruct Hobj as [?|(v & l & Hl)]; [lia|].
      rewrite (vec_get_lookup _ _ _ Hl). cbn [run_bind].
      destruct l as [|v' l]; cbn [length Nat.ltb Nat.leb].
      * apply Hval. intros c Hc. unfold slot_ok. rewrite Ht. exists [v]. split; [done|]. right. by exists v.
      * eexists. split; [done|]. intros m. rewrite Hidx.
        replace (S (length done_)) with (S (ab_idx s)) by lia.
        eapply (build_inv_extend _ _ _ _ _ _ CmNone [length done_]); cbn; eauto using snoc_mono.
        -- by eexists.
        -- by eexists.
        -- rewrite !length_app. cbn. lia.
        -- unfold slot_ok. rewrite Ht. eexists. split; [done|]. left. cbn. split; [lia|]. split; [done|].
           exists (length (ac_buffer_ref_indexes (ab_cache s))).
           rewrite lookup_app_r, Nat.sub_diag by lia. rewrite lookup_app_r by lia. rewrite Hbuf, Nat.sub_diag. done.
  - eexists. split; [done|]. intros m. rewrite Hidx.
    replace (S (length done_)) with (S (ab_idx s)) by lia.
    eapply (build_inv_extend _ _ _ _ _ _ CmNone [length done_]); cbn; eauto using snoc_mono.
    + rewrite !length_app. cbn. lia.
    + unfold slot_ok. rewrite Ht. cbn. split; [|done]. apply elem_of_app. right. left.
  - eexists. split; [done|]. intros m. rewrite Hidx.
    replace (S (length done_)) with (S (ab_idx s)) by lia.
    eapply (build_inv_extend _ _ _ _ _ _ CmNone [length done_]); cbn; eauto using snoc_mono.
    + rewrite !length_app. cbn. lia.
    + unfold slot_ok. rewrite Ht. cbn. split; [|done]. apply elem_of_app. right. left.
  - eexists. split; [done|]. intros m.
    eapply (build_inv_extend _ _ _ _ _ _ CmNone []); eauto.
    unfold slot_ok. by rewrite Ht.
Qed.

Lemma imap_pair_cons {A} (x : A) l k : imap (λ i, pair (k + i)) (x :: l) = (k, x) :: imap (λ i, pair (S k + i)) l.
Proof. cbn. rewrite Nat.add_0_r. f_equal. apply imap_ext. intros. unfold compose. f_equal. lia. Qed.

Lemma build_args_inv objs skip n args k done_ s :
  build_inv objs n done_ s → length done_ + length args <= n →
  (∀ a, a ∈ kept_args skip args → objects_ok objs a) →
  ∃ s', foldM (build_arg_step objs skip) s (imap (λ i, pair (k + i)) args) = Ret s'
    ∧ build_inv objs n (done_ ++ kept_args skip args) s'.
Proof.
  revert k done_ s. induction args as [|a args IH]; intros k done_ s Hi Hn Hobj.
  - exists s. cbn. by rewrite app_nil_r.
  - rewrite imap_pair_cons. cbn [foldM]. cbn [length] in Hn. unfold build_arg_step at 1.
    unfold kept_args in *. destruct (skip && is_condition a) eqn:Hsk.
    + cbn [run_bind]. rewrite filter_cons_False in Hobj |- * by congruence. apply IH; [done|lia|done].
    + rewrite filter_cons_True in Hobj |- * by done.
      destruct (build_arg_inv objs n done_ s k a Hi) as (c & Hc & Hinv); [lia|apply Hobj; left|].
      rewrite Hc. cbn [run_bind].
      destruct (IH (S k) (done_ ++ [a]) (mkArgBuild c (add_pred_count a (ab_preds s)) (S (ab_idx s)))) as (s' & Hs' & Hi').
      { apply Hinv. } { rewrite length_app. cbn. lia. } { intros b Hb. apply Hobj. by right. }
      exists s'. split; [done|]. by rewrite <- (assoc_L (++)) in Hi'.
Qed.

Lemma build_arg_cache_inv args init_objects skip :
  (∀ a, a ∈ kept_args skip args → objects_ok init_objects a) →
  ∃ s, build_arg_cache args init_objects skip = Ret (ab_cache s, ab_preds s)
    ∧ build_inv init_objects (length args) (kept_args skip args) s.
Proof.
  intros Hobj. set (s0 := mkArgBuild (set_args (replicate (length args) CmNone) ArgCache_default) ∅ 0).
  assert (H0 : build_inv init_objects (length args) [] s0).
  { constructor; cbn; rewrite ?length_replicate; try done; try lia.
    - intros pos Hpos. apply lookup_replicate_2. lia.
    - constructor.
    - by intros ? ?%not_elem_of_nil. }
  destruct (build_args_inv init_objects skip (length args) args 0 [] s0 H0) as (s' & Hs' & Hi); [done|done|].
  exists s'. split; [|done]. unfold build_arg_cache. fold s0.
  change (imap pair args) with (imap (λ i, pair (0 + i)) args). by rewrite Hs'.
Qed.

(** The argument template of a node: for arguments whose objects exist the cache is
    built, every argument that is kept has its own position, in order, and what the
    cache says of that position is what the argument asks for: a constant is in the
    template, a one-element object vector contributes its element, a longer one is a
    rotation buffer, runtime index, worker count and [$res]/[$dep] positions are
    registered for patching. No position is registered twice, and none beyond the
    kept arguments. *)
Theorem build_arg_cache_spec args init_objects skip
    (Hobj : ∀ a, a ∈ kept_args skip args → objects_ok init_objects a) :
  ∃ c preds, build_arg_cache args init_objects skip = Ret (c, preds)
    ∧ length (ac_args c) = length args
    ∧ (∀ pos a, kept_args skip args !! pos = Some a → slot_ok init_objects c pos a)
    ∧ NoDup (dynamic_positions c)
    ∧ (∀ pos, pos ∈ dynamic_positions c → pos < length (kept_args skip args))
    ∧ length (ac_buffer_ref_indexes c) = length (ac_buffer_values c).
Proof.
  destruct (build_arg_cache_inv args init_objects skip Hobj) as (s & Hs & []).
  by exists (ab_cache s), (ab_preds s).
Qed.

Lemma build_arg_cache_spec_witness :
  let args := [mkArg (CmRef 0) None None; mkArg (CmRef 2) None None; mkArg (CmU8 7) None None;
               mkArg (CmRes 3) None (Some (mkPred 3 [0%Z] None))] in
  let objs := [[]; []; [CmU8 1; CmU8 2]] in
  ∃ c preds, build_arg_cache args objs true = Ret (c, preds)
    ∧ length (ac_args c) = length args
    ∧ (∀ pos a, kept_args true args !! pos = Some a → slot_ok objs c pos a)
    ∧ NoDup (dynamic_positions c)
    ∧ (∀ pos, pos ∈ dynamic_positions c → pos < length (kept_args true args))
    ∧ length (ac_buffer_ref_indexes c) = length (ac_buffer_values c).
Proof.
  intros args objs. apply (build_arg_cache_spec args objs true).
  intros a. change (kept_args true args) with args. subst args. rewrite !elem_of_cons.
  intros [->|[->|[->|[->|[]%not_elem_of_nil]]]]; unfold objects_ok; cbn; try done; [left; lia|].
  right. by eexists _, _.
Defined.
