(* ===== verification/Tables.v ===== *)
(** Graph compilation ([runtime/init.rs]): the passes over the node cache, the
    predecessor routing tables, the per-slot counters, and the selection of unchecked
    kernel wrappers. The environment variables that switch a pass off are arguments. *)
From S2P Require Import Prelude Types WorkerRange GraphStruct Graph NodeCache Buffers.
From stdpp Require Import strings.

(** What the scheduler promises to graph compilation: a group for every specification. *)
Class AffinityLookup := get_affinity_group : option WorkerRangeSpec → nat.

(** [x as IdType]. *)
Definition as_id (n : nat) : nat := Z.to_nat (Z.of_nat n mod 65536).

(** ** [build_node_cache] *)

Definition set_successor_count (n : nat) (e : NodeCacheEntry) : NodeCacheEntry :=
  mkCache (ce_factor e) (ce_pred_vec e) (ce_name e) (ce_func_ptr e) (ce_arg_cache e) (ce_is_initial e)
    (ce_is_condition e) (ce_cond_index e) n (ce_node_condition e) (ce_priority e) (ce_affinity_group e)
    (ce_worker_resolvable e) (ce_needs_result_store e) (ce_bulk_func e) (ce_is_fanout_bulk e)
    (ce_template_stable e) (ce_func_name e) (ce_uses_unchecked e).

Definition set_worker_resolvable (b : bool) (e : NodeCacheEntry) : NodeCacheEntry :=
  mkCache (ce_factor e) (ce_pred_vec e) (ce_name e) (ce_func_ptr e) (ce_arg_cache e) (ce_is_initial e)
    (ce_is_condition e) (ce_cond_index e) (ce_successor_count e) (ce_node_condition e) (ce_priority e)
    (ce_affinity_group e) b (ce_needs_result_store e) (ce_bulk_func e) (ce_is_fanout_bulk e)
    (ce_template_stable e) (ce_func_name e) (ce_uses_unchecked e).

Definition set_needs_result_store (b : bool) (e : NodeCacheEntry) : NodeCacheEntry :=
  mkCache (ce_factor e) (ce_pred_vec e) (ce_name e) (ce_func_ptr e) (ce_arg_cache e) (ce_is_initial e)
    (ce_is_condition e) (ce_cond_index e) (ce_successor_count e) (ce_node_condition e) (ce_priority e)
    (ce_affinity_group e) (ce_worker_resolvable e) b (ce_bulk_func e) (ce_is_fanout_bulk e)
    (ce_template_stable e) (ce_func_name e) (ce_uses_unchecked e).

Definition set_is_fanout_bulk (b : bool) (e : NodeCacheEntry) : NodeCacheEntry :=
  mkCache (ce_factor e) (ce_pred_vec e) (ce_name e) (ce_func_ptr e) (ce_arg_cache e) (ce_is_initial e)
    (ce_is_condition e) (ce_cond_index e) (ce_successor_count e) (ce_node_condition e) (ce_priority e)
    (ce_affinity_group e) (ce_worker_resolvable e) (ce_needs_result_store e) (ce_bulk_func e) b
    (ce_template_stable e) (ce_func_name e) (ce_uses_unchecked e).

Definition set_sched_class (p : Priority) (group : nat) (e : NodeCacheEntry) : NodeCacheEntry :=
  mkCache (ce_factor e) (ce_pred_vec e) (ce_name e) (ce_func_ptr e) (ce_arg_cache e) (ce_is_initial e)
    (ce_is_condition e) (ce_cond_index e) (ce_successor_count e) (ce_node_condition e) p group
    (ce_worker_resolvable e) (ce_needs_result_store e) (ce_bulk_func e) (ce_is_fanout_bulk e)
    (ce_template_stable e) (ce_func_name e) (ce_uses_unchecked e).

Definition set_arg_caches (c : ArgCacheEntry) (cc : option NodeConditionCache) (e : NodeCacheEntry)
    : NodeCacheEntry :=
  mkCache (ce_factor e) (ce_pred_vec e) (ce_name e) (ce_func_ptr e) c (ce_is_initial e)
    (ce_is_condition e) (ce_cond_index e) (ce_successor_count e) cc (ce_priority e) (ce_affinity_group e)
    (ce_worker_resolvable e) (ce_needs_result_store e) (ce_bulk_func e) (ce_is_fanout_bulk e)
    (ce_template_stable e) (ce_func_name e) (ce_uses_unchecked e).

Definition set_template_stable (b : bool) (e : NodeCacheEntry) : NodeCacheEntry :=
  mkCache (ce_factor e) (ce_pred_vec e) (ce_name e) (ce_func_ptr e) (ce_arg_cache e) (ce_is_initial e)
    (ce_is_condition e) (ce_cond_index e) (ce_successor_count e) (ce_node_condition e) (ce_priority e)
    (ce_affinity_group e) (ce_worker_resolvable e) (ce_needs_result_store e) (ce_bulk_func e)
    (ce_is_fanout_bulk e) b (ce_func_name e) (ce_uses_unchecked e).

Definition set_unchecked (f : CmPtr) (e : NodeCacheEntry) : NodeCacheEntry :=
  mkCache (ce_factor e) (ce_pred_vec e) (ce_name e) f (ce_arg_cache e) (ce_is_initial e)
    (ce_is_condition e) (ce_cond_index e) (ce_successor_count e) (ce_node_condition e) (ce_priority e)
    (ce_affinity_group e) (ce_worker_resolvable e) (ce_needs_result_store e) (ce_bulk_func e)
    (ce_is_fanout_bulk e) (ce_template_stable e) (ce_func_name e) true.

(** [successor_count]: nodes beyond the successor table keep 0. *)
Definition pass_successor_count (g : Graph) (node_id : nat) (e : NodeCacheEntry) : NodeCacheEntry :=
  match g_successors g !! node_id with
  | Some l => set_successor_count (length l) e
  | None => e
  end.

(** [worker_resolvable]: it looks at the node-level conditions of the successors. *)
Definition is_none {A} (o : option A) : bool := negb (is_some o).

Definition pass_worker_resolvable (g : Graph) (cache : list NodeCacheEntry) (node_id : nat)
    (e : NodeCacheEntry) : run NodeCacheEntry :=
  let! b := match g_successors g !! node_id with
            | Some succs => allM (λ s, run_map (λ c, is_none (ce_node_condition c)) (vec_get cache s)) succs
            | None => Ret true
            end in
  Ret (set_worker_resolvable b e).

(** [needs_result_store]: some successor reads the node's result. *)
Definition arg_reads_result (node_id : nat) (a : Arg) : bool :=
  is_result (a_type a) && reads_pred (as_id node_id) a.

Definition succ_reads_result (node_id : nat) (succ : Node) : bool :=
  existsb (arg_reads_result node_id) (n_args succ)
  || match n_condition succ with
     | Some cond => existsb (arg_reads_result node_id) (nc_args cond)
     | None => false
     end.

Definition pass_needs_result_store (g : Graph) (node_id : nat) (e : NodeCacheEntry) : run NodeCacheEntry :=
  let! b := match g_successors g !! node_id with
            | Some succs => anyM (λ s, run_map (succ_reads_result node_id) (vec_get (g_nodes g) s)) succs
            | None => Ret false
            end in
  Ret (set_needs_result_store b e).

(** [is_fanout_bulk]. *)
Definition pass_is_fanout_bulk (g : Graph) (node_id : nat) (e : NodeCacheEntry) : run NodeCacheEntry :=
  if negb (ce_worker_resolvable e) || ce_is_condition e || String.eqb (ce_name e) "$network" then Ret e
  else
    let! node := vec_get (g_nodes g) node_id in
    if existsb is_barrier (n_args node) then Ret e
    else
      match filter (λ a, is_result (a_type a) = true) (n_args node) with
      | [a] =>
          match a_predecessor a with
          | Some pred =>
              let! pred_node := vec_get (g_nodes g) (p_id pred) in
              if (n_factor pred_node =? n_factor node) && (1 <? n_factor node)
                 && negb (String.eqb (n_name pred_node) "$network")
              then Ret (set_is_fanout_bulk true e) else Ret e
          | None => Ret e
          end
      | _ => Ret e
      end.

Definition priority_of (p : NodePriority) : Priority :=
  match p with High => PHigh | Normal => PNormal | Low => PLow end.

Definition pass_sched_class `{AffinityLookup} (g : Graph) (node_id : nat) (e : NodeCacheEntry)
    : run NodeCacheEntry :=
  let! node := vec_get (g_nodes g) node_id in
  Ret (set_sched_class (priority_of (n_priority node)) (get_affinity_group (n_use_workers node)) e).

(** "Forced bulk release": the predicate of [NodeDepMap::new]. *)
Definition node_forces_barrier (node : Node) : bool :=
  existsb is_barrier (n_args node) || node_has_ambiguous_multi_res_args node.

(** One [$res]/[$dep] argument of [build_res_preds]. *)
Definition build_res_pred (g : Graph) (node_id : nat) (node : Node) (a : Arg) : run (option ResPredCache) :=
  match a_type a with
  | CmRes res_nid =>
      let! pred_node := vec_get (g_nodes g) res_nid in
      Ret (Some (mkResPred (as_id node_id) (as_id res_nid)
                   (match a_predecessor a with Some p => p_indexes p | None => [] end)
                   (n_factor pred_node) (n_group_size pred_node) (n_group_size node) (n_factor node)
                   false (node_forces_barrier node)))
  | CmDep res_nid =>
      Ret (Some (mkResPred (as_id node_id) (as_id res_nid) [] 0 None None (n_factor node)
                   true (node_forces_barrier node)))
  | _ => Ret None
  end.

Definition build_res_preds (g : Graph) (node_id : nat) (node : Node) (args : list Arg) (skip_cond : bool)
    : run (list ResPredCache) :=
  foldM (λ v a,
    if skip_cond && is_condition a then Ret v
    else
      let! o := build_res_pred g node_id node a in
      Ret (match o with Some rp => v ++ [rp] | None => v end)) [] args.

Definition pass_res_predecessors (g : Graph) (node_id : nat) (e : NodeCacheEntry) : run NodeCacheEntry :=
  let! node := vec_get (g_nodes g) node_id in
  let! main := build_res_preds g node_id node (n_args node) true in
  let! cond := match n_condition node with
               | Some c => run_map Some (build_res_preds g node_id node (nc_args c) false)
               | None => Ret None
               end in
  let cc := match ce_node_condition e, cond with
            | Some nc, Some cp =>
                Some (mkCondCache (cc_operation nc) (cc_eval_value nc) (cc_func_ptr nc)
                        (set_res_predecessors cp (cc_arg_cache nc)))
            | nc, _ => nc
            end in
  Ret (set_arg_caches (set_res_predecessors main (ce_arg_cache e)) cc e).

(** [template_stable]: every [$res]/[$dep] argument resolves to one value. *)
Definition width_one (rp : ResPredCache) : bool :=
  rp_is_dep rp || (length (rp_indexes rp) <=? 1) || (length (rp_indexes rp) =? rp_node_factor rp).

Definition pass_template_stable (templates_disabled : bool) (e : NodeCacheEntry) : NodeCacheEntry :=
  set_template_stable
    (negb templates_disabled && forallb width_one (ac_res_predecessors (ce_arg_cache e))
     && negb (String.eqb (ce_name e) "$network")) e.

(** [build_node_cache]. *)
Definition build_node_cache `{FuncReg} `{AffinityLookup} (g : Graph) (init_objects : list (list CmTypes))
    (templates_disabled : bool) : run (list NodeCacheEntry) :=
  let! c0 := run_imap (λ _ node, node_cache_entry node init_objects (g_initial_nodes g)
                                   (g_condition_nodes g)) 0 (g_nodes g) in
  let c1 := imap (pass_successor_count g) c0 in
  let! c2 := run_imap (pass_worker_resolvable g c1) 0 c1 in
  let! c3 := run_imap (pass_needs_result_store g) 0 c2 in
  let! c4 := run_imap (pass_is_fanout_bulk g) 0 c3 in
  let! c5 := run_imap (pass_sched_class g) 0 c4 in
  let! c6 := run_imap (pass_res_predecessors g) 0 c5 in
  Ret (pass_template_stable templates_disabled <$> c6).

(** ** [build_predecessor_tables] *)

Notation table A := (list (list (option A))).

Record Routing := mkRouting {
  pred_index_filter : table (Z * Z);
  pred_group_by : table nat;
  pred_succ_1to1_offset : table Z;
}.

(** [t[s][p] = x]. *)
Definition table_set {A} (t : table A) (s p : nat) (x : option A) : run (table A) :=
  let! row := vec_get t s in
  let! row' := vec_set row p x in
  vec_set t s row'.

Definition table_get {A} (t : table A) (s p : nat) : run (option A) :=
  let! row := vec_get t s in vec_get row p.

(** The routing of one predecessor-successor pair: filter, divisor, 1:1 offset. *)
Record route := mkRoute {
  rt_filter : option (Z * Z);
  rt_group_by : option nat;
  rt_offset : option Z;
}.

(** [indexes.windows(2).all(|w| w[1] == w[0] + 1)]. *)
Fixpoint consecutive (l : list Z) : bool :=
  match l with
  | x :: (y :: _) as l' => (y =? as_i64 (x + 1))%Z && consecutive l'
  | _ => true
  end.

(** The single-argument case (also taken for several identical arguments). *)
Definition single_route (range_1to1_enabled : bool) (a : Arg) (pred : Predecessor)
    (pred_factor succ_factor : nat) : run route :=
  let filter := index_filter pred pred_factor succ_factor in
  let single_1to1 := (length (p_indexes pred) =? 1) && (succ_factor =? pred_factor) in
  let contiguous_range_1to1 := range_1to1_enabled && (length (p_indexes pred) =? succ_factor)
                               && consecutive (p_indexes pred) in
  if negb (is_barrier a) && is_none (p_group_by pred) && (single_1to1 || contiguous_range_1to1)
     && (1 <? succ_factor)
  then
    let! i0 := vec_get (p_indexes pred) 0 in
    Ret (mkRoute filter None (Some i0))
  else Ret (mkRoute filter None None).

(** The first argument that is an effectively grouped barrier. *)
Fixpoint grouped_barrier (g : Graph) (node : Node) (args : list Arg) : run (option (Predecessor * nat)) :=
  match args with
  | [] => Ret None
  | a :: args =>
      if negb (is_barrier a) then grouped_barrier g node args
      else match a_predecessor a with
      | None => grouped_barrier g node args
      | Some pred =>
          let! gb := barrier_group_by_for_dependency g node pred in
          match gb with
          | Some gb => Ret (Some (pred, gb))
          | None => grouped_barrier g node args
          end
      end
  end.

(** The body of the loop over the predecessors of a successor. *)
Definition edge_route (range_1to1_enabled : bool) (g : Graph) (succ_node : Node) (pred_id : nat)
    : run route :=
  let! pred_node := vec_get (g_nodes g) pred_id in
  let pred_factor := n_factor pred_node in
  let succ_factor := n_factor succ_node in
  let args := args_on_pred succ_node pred_id in
  let! grouped := grouped_barrier g succ_node args in
  match grouped with
  | Some (pred, gb) => Ret (mkRoute (index_filter pred pred_factor succ_factor) (Some gb) None)
  | None =>
      match args with
      | [] => Panic
      | a :: rest =>
          let! first_pred := unwrap (a_predecessor a) in
          if forallb (λ b, negb (arg_differs first_pred b)) rest then
            single_route range_1to1_enabled a first_pred pred_factor succ_factor
          else if existsb is_barrier args then
            let union_indexes := union_pred_indexes succ_node pred_id in
            if existsb (λ i, (i <? 0)%Z) union_indexes then Ret (mkRoute None None None)
            else Ret (mkRoute (index_filter (mkPred pred_id union_indexes None) pred_factor succ_factor)
                        None None)
          else Ret (mkRoute None None None)
      end
  end.

(** A table entry is only written when there is something to write. *)
Definition table_put {A} (t : table A) (s p : nat) (x : option A) : run (table A) :=
  match x with Some _ => table_set t s p x | None => Ret t end.

Definition put_route (t : Routing) (s p : nat) (r : route) : run Routing :=
  let! f := table_put (pred_index_filter t) s p (rt_filter r) in
  let! gb := table_put (pred_group_by t) s p (rt_group_by r) in
  let! o := table_put (pred_succ_1to1_offset t) s p (rt_offset r) in
  Ret (mkRouting f gb o).

Definition route_node (range_1to1_enabled : bool) (g : Graph) (t : Routing) (succ_node : Node) : run Routing :=
  foldM (λ t pred_id,
    let! r := edge_route range_1to1_enabled g succ_node pred_id in
    put_route t (n_id succ_node) pred_id r) t (preds_of (n_args succ_node)).

Definition empty_table {A} (n : nat) : table A := replicate n (replicate n None).

(** [build_predecessor_tables]. *)
Definition build_predecessor_tables (range_1to1_enabled : bool) (g : Graph) : run Routing :=
  let n := length (g_nodes g) in
  foldM (route_node range_1to1_enabled g) (mkRouting (empty_table n) (empty_table n) (empty_table n))
    (g_nodes g).

(** ** [build_slot_counters] *)

Record SlotCounters := mkCounters {
  sc_pending_tasks : list nat;
  sc_pending_cond_tasks : list nat;
  sc_cond_instances_to_spawn : list (list Z);
  sc_fanout_bulk_arrived : list (list Z);
}.

Definition total_tasks (cache : list NodeCacheEntry) : nat :=
  nat_sum (ce_factor <$> filter (λ e, ce_is_condition e = false) cache).
Definition total_cond_tasks (cache : list NodeCacheEntry) : nat :=
  nat_sum (ce_factor <$> filter (λ e, ce_is_condition e = true) cache).

Definition build_slot_counters (slots : nat) (cache : list NodeCacheEntry) : SlotCounters :=
  mkCounters (replicate slots (total_tasks cache)) (replicate slots (total_cond_tasks cache))
    (replicate slots ((λ e, if ce_is_condition e then gen_pack 0 (as_u32 (Z.of_nat (ce_factor e)))
                            else gen_pack 0 0) <$> cache))
    (replicate slots ((λ _, gen_pack 0 0) <$> cache)).

(** ** Unchecked wrappers *)

(** [variant_tag]. *)
Definition variant_tag (v : CmTypes) : string :=
  match v with
  | CmBool _ => "Bool" | CmI8 _ => "I8" | CmI16 _ => "I16" | CmI32 _ => "I32" | CmI64 _ => "I64"
  | CmU8 _ => "U8" | CmU16 _ => "U16" | CmU32 _ => "U32" | CmU64 _ => "U64"
  | CmF32 _ => "F32" | CmF64 _ => "F64" | CmChar _ => "Char" | CmUsize _ => "Usize"
  | CmIsize _ => "Isize" | CmI128 _ => "I128" | CmU128 _ => "U128" | CmString _ => "String"
  | CmComplex32 _ _ => "Complex32" | CmComplex64 _ _ => "Complex64" | CmVecCmt _ => "VecCmt"
  | CmRef _ => "Ref" | CmRes _ => "Res" | CmDep _ => "Dep" | CmBarrier _ => "Barrier"
  | CmNone => "None" | CmInit => "Init" | CmAny _ => "Any" | CmAnySliced _ => "AnySliced"
  | CmVecAny _ => "VecAny" | CmBytes _ => "Bytes" | CmAnyHeld _ => "AnyHeld"
  end.

(** [provable_variant]: [res_predecessors[pos]] may be out of range. *)
Definition provable_variant `{FuncReg} (entry : NodeCacheEntry) (arg_idx : nat)
    (cache : list NodeCacheEntry) (group_by : table nat) : run (option string) :=
  let ac := ce_arg_cache entry in
  match position arg_idx (ac_res_indexes ac) with
  | Some pos =>
      let! rp := vec_get (ac_res_predecessors ac) pos in
      if rp_is_dep rp then Ret (Some "None"%string)
      else if is_some (rp_node_group_size rp) || is_some (rp_pred_group_size rp) then Ret None
      else
        let table_gb := row ← group_by !! rp_node_id rp; o ← row !! rp_res_node_id rp; o in
        if is_some table_gb then Ret None
        else Ret (pred ← cache !! rp_res_node_id rp; get_func_ret_variant (ce_func_name pred))
  | None =>
      if mem arg_idx (ac_rt_idxs_indexes ac) || mem arg_idx (ac_rt_workers_indexes ac)
      then Ret (Some "Usize"%string)
      else match position arg_idx (ac_buffer_ref_indexes ac) with
      | Some bpos =>
          Ret (values ← ac_buffer_values ac !! bpos;
               match variant_tag <$> values with
               | [] => None
               | first :: tags => if forallb (String.eqb first) tags then Some first else None
               end)
      | None => Ret (variant_tag <$> ac_args ac !! arg_idx)
      end
  end.

(** The fixed slots of an argument specification: a trailing ["..."] is variadic. *)
Definition spec_fixed (spec : list string) : nat :=
  length spec - (if decide (last spec = Some "..."%string) then 1 else 0).

Definition slot_proven `{FuncReg} (entry : NodeCacheEntry) (cache : list NodeCacheEntry)
    (group_by : table nat) (ir : nat * string) : run bool :=
  if String.eqb ir.2 "*" then Ret true
  else
    let! o := provable_variant entry ir.1 cache group_by in
    Ret (match o with Some v => String.eqb v ir.2 | None => false end).

(** The body of the loop of [select_unchecked_wrappers]. *)
Definition select_unchecked `{FuncReg} (group_by : table nat) (cache : list NodeCacheEntry) (id : nat)
    : run (list NodeCacheEntry) :=
  let! entry := vec_get cache id in
  if negb (ce_template_stable entry) || String.eqb (ce_name entry) "$network" then Ret cache
  else match get_func_argspec (ce_func_name entry) with
  | None => Ret cache
  | Some spec =>
      let fixed := spec_fixed spec in
      if length (ac_args (ce_arg_cache entry)) <? fixed then Ret cache
      else
        let! all_proven := allM (slot_proven entry cache group_by) (imap pair (take fixed spec)) in
        if negb all_proven then Ret cache
        else match get_unchecked_func (ce_func_name entry) with
        | Some ptr => vec_set cache id (set_unchecked ptr entry)
        | None => Ret cache
        end
  end.

(** [select_unchecked_wrappers]. *)
Definition select_unchecked_wrappers `{FuncReg} (disabled : bool) (cache : list NodeCacheEntry)
    (group_by : table nat) : run (list NodeCacheEntry) :=
  if disabled then Ret cache
  else foldM (select_unchecked group_by) cache (range 0 (length cache)).

(** ** The routing tables *)

Definition table_dim {A} (n : nat) (t : table A) : Prop := length t = n ∧ Forall (λ r, length r = n) t.

(** An entry, [None] outside the table. *)
Definition entry_at {A} (t : table A) (s p : nat) : option A := row ← t !! s; o ← row !! p; o.

Definition route_at (t : Routing) (s p : nat) : route :=
  mkRoute (entry_at (pred_index_filter t) s p) (entry_at (pred_group_by t) s p)
    (entry_at (pred_succ_1to1_offset t) s p).

Definition no_route : route := mkRoute None None None.

Definition routing_dim (n : nat) (t : Routing) : Prop :=
  table_dim n (pred_index_filter t) ∧ table_dim n (pred_group_by t)
  ∧ table_dim n (pred_succ_1to1_offset t).

Lemma empty_table_dim {A} n : table_dim n (@empty_table A n).
Proof.
  split; [apply length_replicate|]. apply Forall_replicate, length_replicate.
Qed.

Lemma empty_table_at {A} n s p : entry_at (@empty_table A n) s p = None.
Proof.
  unfold entry_at, empty_table.
  destruct (decide (s < n)); [rewrite lookup_replicate_2 by done|by rewrite lookup_ge_None_2 by (rewrite length_replicate; lia)].
  cbn. destruct (decide (p < n)); [by rewrite lookup_replicate_2 by done|].
  by rewrite lookup_ge_None_2 by (rewrite length_replicate; lia).
Qed.

Lemma table_get_at {A} n (t : table A) s p : table_dim n t → s < n → p < n →
  table_get t s p = Ret (entry_at t s p).
Proof.
  intros [Hl Hr] Hs Hp. unfold table_get, entry_at.
  destruct (vec_get_lt t s) as (row & -> & Hrow); [lia|]. cbn [run_bind]. rewrite Hrow. cbn.
  rewrite Forall_forall in Hr. specialize (Hr row (list_elem_of_lookup_2 _ _ _ Hrow)).
  destruct (vec_get_lt row p) as (o & -> & ->); [lia|]. done.
Qed.

Lemma table_put_spec {A} n (t : table A) s p x : table_dim n t → s < n → p < n →
  entry_at t s p = None →
  ∃ t', table_put t s p x = Ret t' ∧ table_dim n t'
    ∧ entry_at t' s p = x ∧ ∀ s' p', (s', p') ≠ (s, p) → entry_at t' s' p' = entry_at t s' p'.
Proof.
  intros Hd Hs Hp Hnone. destruct x as [x|]; cbn [table_put]; [|exists t; done].
  destruct Hd as [Hl Hr]. unfold table_set.
  destruct (vec_get_lt t s) as (row & Hg & Hrow); [lia|]. rewrite Hg. cbn [run_bind].
  assert (Hrl : length row = n) by (by eapply Forall_lookup_1 in Hr).
  rewrite vec_set_lt by lia. cbn [run_bind]. rewrite vec_set_lt by lia.
  eexists. split; [done|]. split; [split|split].
  - by rewrite length_insert.
  - apply Forall_insert; [done|]. by rewrite length_insert.
  - unfold entry_at. rewrite list_lookup_insert_eq by lia. cbn. by rewrite list_lookup_insert_eq by lia.
  - intros s' p' Hne. unfold entry_at. destruct (decide (s' = s)) as [->|Hs'].
    + rewrite list_lookup_insert_eq by lia. rewrite Hrow. cbn.
      destruct (decide (p' = p)) as [->|Hp']; [done|]. by rewrite list_lookup_insert_ne by done.
    + by rewrite list_lookup_insert_ne by done.
Qed.

Lemma put_route_spec n t s p r : routing_dim n t → s < n → p < n → route_at t s p = no_route →
  ∃ t', put_route t s p r = Ret t' ∧ routing_dim n t'
    ∧ route_at t' s p = r ∧ ∀ s' p', (s', p') ≠ (s, p) → route_at t' s' p' = route_at t s' p'.
Proof.
  intros (D1 & D2 & D3) Hs Hp [=H1 H2 H3]. unfold put_route.
  destruct (table_put_spec n (pred_index_filter t) s p (rt_filter r)) as (t1 & -> & E1 & F1 & G1); try done.
  destruct (table_put_spec n (pred_group_by t) s p (rt_group_by r)) as (t2 & -> & E2 & F2 & G2); try done.
  destruct (table_put_spec n (pred_succ_1to1_offset t) s p (rt_offset r)) as (t3 & -> & E3 & F3 & G3); try done.
  cbn [run_bind]. eexists. split; [done|]. split; [done|]. split.
  - unfold route_at. cbn. rewrite F1, F2, F3. by destruct r.
  - intros s' p' Hne. unfold route_at. cbn. by rewrite G1, G2, G3.
Qed.

(** Every predecessor of every node exists. *)
Definition preds_exist (g : Graph) : Prop :=
  ∀ node p, node ∈ g_nodes g → reads node p → p < length (g_nodes g).

Lemma barrier_group_total g node pred :
  p_id pred < length (g_nodes g) →
  ∃ b, has_scattered_per_instance_res g node (p_id pred) = Ret b
    ∧ barrier_group_by_for_dependency g node pred = Ret (if b : bool then None else p_group_by pred).
Proof.
  intros Hp. unfold barrier_group_by_for_dependency, has_scattered_per_instance_res.
  destruct (vec_get_lt (g_nodes g) (p_id pred) Hp) as (nd & -> & _). cbn [run_bind]. by eexists.
Qed.

Lemma grouped_barrier_total g node pred_id args :
  pred_id < length (g_nodes g) → (∀ a, a ∈ args → reads_pred pred_id a = true) →
  ∃ o, grouped_barrier g node args = Ret o.
Proof.
  intros Hp. induction args as [|a args IH]; intros Hr; cbn [grouped_barrier]; [by eexists|].
  assert (IH' := IH (λ b Hb, Hr b (list_elem_of_further _ _ _ Hb))).
  destruct (negb (is_barrier a)); [done|].
  destruct (reads_pred_some pred_id a) as (p & Hpa & Hpi); [apply Hr; left|].
  rewrite Hpa. destruct (barrier_group_total g node p) as (b & _ & ->); [by rewrite Hpi|]. cbn [run_bind].
  destruct b; [done|]. destruct (p_group_by p); [by eexists|done].
Qed.

Lemma single_route_total r1 a pred pf sf : ∃ r, single_route r1 a pred pf sf = Ret r.
Proof.
  unfold single_route. destruct (_ && _) eqn:Hc; [|by eexists].
  rewrite !andb_true_iff, orb_true_iff, !andb_true_iff, !Nat.eqb_eq, Nat.ltb_lt in Hc.
  destruct (p_indexes pred) as [|i l] eqn:Hi; [cbn in Hc; lia|]. cbn. by eexists.
Qed.

Lemma edge_route_total r1 g node pred_id :
  pred_id < length (g_nodes g) → reads node pred_id → ∃ r, edge_route r1 g node pred_id = Ret r.
Proof.
  intros Hp Hr. unfold edge_route.
  destruct (vec_get_lt (g_nodes g) pred_id Hp) as (pn & -> & _). cbn [run_bind].
  destruct (grouped_barrier_total g node pred_id (args_on_pred node pred_id) Hp) as (o & ->).
  { intros a Ha. by apply args_on_pred_elem in Ha as [_ ?]. }
  cbn [run_bind]. destruct o as [[pred gb]|]; [by eexists|].
  assert (Hread : ∀ a, a ∈ args_on_pred node pred_id → ∃ p, a_predecessor a = Some p).
  { intros a [_ Ha]%args_on_pred_elem. apply reads_pred_some in Ha as (p & ? & _). by exists p. }
  destruct (args_on_pred node pred_id) as [|a rest] eqn:Ha.
  - unfold reads in Hr. apply arg_pred_ids_elem in Hr as (a & ? & ?).
    assert (Hin : a ∈ args_on_pred node pred_id) by (by apply args_on_pred_elem).
    rewrite Ha in Hin. by apply not_elem_of_nil in Hin.
  - destruct (Hread a) as [p Hpa]; [left|]. rewrite Hpa. cbn [unwrap run_bind].
    destruct (forallb _ rest); [apply single_route_total|].
    repeat case_match; by eexists.
Qed.

(** Routing a list of distinct predecessors of one node into empty entries. *)
Lemma route_preds_spec r1 g n node ps t :
  routing_dim n t → n_id node < n → NoDup ps → (∀ q, q ∈ ps → q < n) →
  (∀ q, q ∈ ps → ∃ r, edge_route r1 g node q = Ret r) →
  (∀ q, q ∈ ps → route_at t (n_id node) q = no_route) →
  ∃ t', foldM (λ t q, let! r := edge_route r1 g node q in put_route t (n_id node) q r) t ps = Ret t'
    ∧ routing_dim n t'
    ∧ (∀ q, q ∈ ps → edge_route r1 g node q = Ret (route_at t' (n_id node) q))
    ∧ (∀ s q, s ≠ n_id node ∨ q ∉ ps → route_at t' s q = route_at t s q).
Proof.
  intros Hd Hid Hnd. revert t Hd. induction Hnd as [|q ps Hq Hnd IH]; intros t Hd Hlt Htot Hnone.
  - exists t. cbn. split; [done|]. split; [done|]. split; [by intros ? ?%not_elem_of_nil|]. done.
  - cbn [foldM]. destruct (Htot q) as [r Hr]; [left|]. rewrite Hr. cbn [run_bind].
    destruct (put_route_spec n t (n_id node) q r Hd Hid) as (t2 & -> & Hd2 & Hat & Hother).
    { apply Hlt. left. } { apply Hnone. left. }
    cbn [run_bind]. destruct (IH t2) as (t' & -> & Hd' & Hin & Hout); try done.
    { intros; apply Hlt; by right. } { intros; apply Htot; by right. }
    { intros q' Hq'. rewrite Hother; [apply Hnone; by right|]. intros [=]. subst. done. }
    exists t'. split; [done|]. split; [done|]. split.
    + intros q' [->|Hq']%elem_of_cons; [|by apply Hin]. rewrite Hout by (by right). by rewrite Hat.
    + intros s q' Hs. rewrite Hout, Hother; [done| |].
      * intros [= -> ->]. destruct Hs as [?|Hs]; [done|]. apply Hs. left.
      * destruct Hs as [?|Hs]; [by left|right]. intros ?. apply Hs. by right.
Qed.

Lemma route_node_spec r1 g n t node :
  routing_dim n t → n = length (g_nodes g) → n_id node < n →
  (∀ p, reads node p → p < n) → (∀ p, route_at t (n_id node) p = no_route) →
  ∃ t', route_node r1 g t node = Ret t' ∧ routing_dim n t'
    ∧ (∀ p, reads node p → edge_route r1 g node p = Ret (route_at t' (n_id node) p))
    ∧ (∀ p, ¬ reads node p → route_at t' (n_id node) p = no_route)
    ∧ ∀ s p, s ≠ n_id node → route_at t' s p = route_at t s p.
Proof.
  intros Hd Hn Hid Hreads Hrow.
  destruct (route_preds_spec r1 g n node (preds_of (n_args node)) t) as (t' & Hf & Hd' & Hin & Hout); try done.
  - apply preds_of_NoDup.
  - intros q Hq. by apply Hreads, preds_of_elem.
  - intros q Hq%preds_of_elem. apply edge_route_total; [rewrite <- Hn; auto|done].
  - exists t'. split; [done|]. split; [done|]. unfold reads. setoid_rewrite <- preds_of_elem.
    split; [done|]. split; [|auto]. intros p Hp. rewrite Hout by (by right). apply Hrow.
Qed.

Lemma route_nodes_spec r1 g n nodes t :
  routing_dim n t → n = length (g_nodes g) → NoDup (n_id <$> nodes) →
  (∀ node, node ∈ nodes → n_id node < n ∧ (∀ p, reads node p → p < n)
                          ∧ ∀ p, route_at t (n_id node) p = no_route) →
  ∃ t', foldM (route_node r1 g) t nodes = Ret t' ∧ routing_dim n t'
    ∧ (∀ node p, node ∈ nodes → reads node p → edge_route r1 g node p = Ret (route_at t' (n_id node) p))
    ∧ (∀ node p, node ∈ nodes → ¬ reads node p → route_at t' (n_id node) p = no_route)
    ∧ ∀ s p, s ∉ (n_id <$> nodes) → route_at t' s p = route_at t s p.
Proof.
  intros Hd Hn. revert t Hd. induction nodes as [|node nodes IH]; intros t Hd Hnd Hall.
  - exists t. cbn. split; [done|]. split; [done|].
    split; [by intros ? ? ?%not_elem_of_nil|]. split; [by intros ? ? ?%not_elem_of_nil|done].
  - cbn [fmap list_fmap] in Hnd. apply NoDup_cons in Hnd as [Hid Hnd].
    destruct (Hall node) as (Hlt & Hrd & Hrow); [left|].
    destruct (route_node_spec r1 g n t node Hd Hn Hlt Hrd Hrow) as (t1 & Ht1 & Hd1 & H1 & H2 & H3).
    cbn [foldM]. rewrite Ht1. cbn [run_bind].
    assert (Hne : ∀ nd, nd ∈ nodes → n_id nd ≠ n_id node).
    { intros nd Hnd' Heq. apply Hid, list_elem_of_fmap. by exists nd. }
    destruct (IH t1 Hd1 Hnd) as (t' & Hf & Hd' & I1 & I2 & I3).
    { intros nd Hin. destruct (Hall nd) as (? & ? & ?); [by right|].
      split; [done|]. split; [done|]. intros p. rewrite H3; auto. }
    exists t'. split; [done|]. split; [done|]. split; [|split].
    + intros nd p [->|?]%elem_of_cons ?; [|by apply I1]. rewrite I3 by done. by apply H1.
    + intros nd p [->|?]%elem_of_cons ?; [|by apply I2]. rewrite I3 by done. by apply H2.
    + intros s p [Hs1 Hs2]%not_elem_of_cons. rewrite I3 by done. by apply H3.
Qed.

Lemma ids_NoDup (nodes : list Node) k :
  (∀ i node, nodes !! i = Some node → n_id node = k + i) → NoDup (n_id <$> nodes).
Proof.
  intros Hids. assert (Heq : n_id <$> nodes = seq k (length nodes)).
  { apply list_eq. intros i. rewrite list_lookup_fmap. destruct (nodes !! i) as [node|] eqn:Hi; cbn.
    - apply lookup_lt_Some in Hi as Hlt. rewrite lookup_seq_lt by done. by rewrite (Hids i node).
    - apply lookup_ge_None in Hi. by rewrite lookup_seq_ge. }
  rewrite Heq. apply NoDup_seq.
Qed.

(** The tables are computed, and hold the route of every edge and nothing else. *)
Lemma build_tables_spec r1 g :
  (∀ i node, g_nodes g !! i = Some node → n_id node = i) → preds_exist g →
  ∃ t, build_predecessor_tables r1 g = Ret t ∧ routing_dim (length (g_nodes g)) t
    ∧ ∀ s node p, g_nodes g !! s = Some node →
        if decide (p ∈ preds_of (n_args node)) then edge_route r1 g node p = Ret (route_at t s p)
        else route_at t s p = no_route.
Proof.
  intros Hids Hex. unfold build_predecessor_tables. set (n := length (g_nodes g)).
  destruct (route_nodes_spec r1 g n (g_nodes g) (mkRouting (empty_table n) (empty_table n) (empty_table n)))
    as (t & Hf & Hd & H1 & H2 & _).
  - split_and!; apply empty_table_dim.
  - done.
  - by apply (ids_NoDup _ 0).
  - intros node Hin. split; [|split].
    + apply list_elem_of_lookup in Hin as [i Hi]. rewrite (Hids i node Hi). by eapply lookup_lt_Some.
    + intros p. by apply Hex.
    + intros p. unfold route_at. cbn. by rewrite !empty_table_at.
  - exists t. split; [done|]. split; [done|]. intros s node p Hs.
    pose proof (list_elem_of_lookup_2 _ _ _ Hs) as Hin. rewrite <- (Hids s node Hs).
    case_decide as Hp; rewrite preds_of_elem in Hp; [by apply H1|by apply H2].
Qed.
