(* ===== verification/DepCounter.v ===== *)
(** The dependency map of all slots and nodes ([NodeDepMap] of [buffers/node_dep.rs]) and
    the counter the runtime uses it through ([dependency_counter.rs]).

    The trait [DependencyCounter] is a class of operations; what its clients rely on is
    the class [CompletionLaws], which [MultiThreadedCounter] satisfies. *)
From S2P Require Import Prelude Types GraphStruct Buffers NodeDep.
From stdpp Require Import strings.

(** ** [NodeDepMap] *)

Definition node_has_barrier (node : Node) : bool :=
  existsb is_barrier (n_args node) || node_has_ambiguous_multi_res_args node.

(** The largest [group_by] of the barrier arguments. *)
Definition max_group_by (node : Node) : option nat :=
  fold_left (λ acc a,
    if is_barrier a then
      match a_predecessor a with
      | Some pred => match p_group_by pred with
                     | Some gb => Some (Nat.max (default 0 acc) gb)
                     | None => acc
                     end
      | None => acc
      end
    else acc) (n_args node) None.

(** The most offsets a grouped barrier argument declares. *)
Definition num_pred_packets (node : Node) : nat :=
  fold_left (λ acc a,
    if is_barrier a then
      match a_predecessor a with
      | Some pred => if is_some (p_group_by pred) then Nat.max acc (length (p_indexes pred)) else acc
      | None => acc
      end
    else acc) (n_args node) 0.

Definition effective_group_size (node : Node) : option nat :=
  if node_has_barrier node then
    match max_group_by node with
    | Some gb =>
        let packets := num_pred_packets node in
        let num_barrier_groups := if (0 <? packets) && (0 <? gb) then packets / gb else 1 in
        Some (if num_barrier_groups =? 0 then n_factor node else n_factor node / num_barrier_groups)
    | None => n_group_size node
    end
  else n_group_size node.

Definition new_entry (node : Node) (total_deps : nat) : NodeDependencyEntry :=
  NodeDependencyEntry_new (n_factor node) total_deps (node_has_barrier node)
    (effective_group_size node) (is_some (n_condition node)).

Notation NodeDepMap := (list (list NodeDependencyEntry)).

(** [NodeDepMap::new]: every slot gets the same entries. *)
Definition NodeDepMap_new (nodes : list Node) (slots : nat) (dep_counts : list nat) : run NodeDepMap :=
  if slots =? 0 then Ret []
  else
    let! entries := run_imap (λ node_id node,
                      let! total_deps := vec_get dep_counts node_id in
                      Ret (new_entry node total_deps)) 0 nodes in
    Ret (replicate slots entries).

Definition map_entry (m : NodeDepMap) (slot node_id : nat) : option NodeDependencyEntry :=
  row ← m !! slot; row !! node_id.

Definition map_update (m : NodeDepMap) (slot node_id : nat) (e : NodeDependencyEntry) : NodeDepMap :=
  alter (λ row, <[node_id := e]> row) slot m.

(** [NodeDepMap::decrease_and_get_ready_into]: out of range, [ready] is cleared. *)
Definition map_decrease (m : NodeDepMap) (slot node_id : nat) (slot_gen : Z) (group : option nat)
    (count : nat) (specific_succ_idx : option nat) : run (NodeDepMap * list nat) :=
  match map_entry m slot node_id with
  | Some e =>
      let! (e', ready) := decrease_and_get_ready_into e slot_gen group count specific_succ_idx in
      Ret (map_update m slot node_id e', ready)
  | None => Ret (m, [])
  end.

Definition map_increment (m : NodeDepMap) (slot node_id : nat) (slot_gen : Z) (instance_idx : option nat)
    : run (NodeDepMap * option Z) :=
  match map_entry m slot node_id with
  | Some e =>
      let! (e', n) := increment_dependency e slot_gen instance_idx in
      Ret (map_update m slot node_id e', Some n)
  | None => Ret (m, None)
  end.

Definition map_reset_sent_flag (m : NodeDepMap) (slot node_id : nat) (slot_gen : Z) (instance_idx : nat)
    : NodeDepMap :=
  match map_entry m slot node_id with
  | Some e => map_update m slot node_id (reset_sent_flag e slot_gen instance_idx)
  | None => m
  end.

Definition map_reset_slot_epoch (m : NodeDepMap) (slot : nat) (new_gen : Z) : NodeDepMap :=
  alter (fmap (λ e, reset_epoch e new_gen)) slot m.

(** ** The counter *)

(** The operations of the trait [DependencyCounter]; [&self] with interior mutability
    is a state that is returned. *)
Class DependencyCounter (C : Type) := {
  reset_sent : C → nat → nat → nat → Z → C;
  unmark_slot_completed : C → nat → C;
  try_complete_slot : C → nat → C * bool;
  counter_increment : C → NodeInfo → Z → run (C * option Z);
  counter_decrease : C → nat → nat → Z → option nat → nat → option nat → run (C * list nat);
  reset_slot_epoch : C → nat → Z → C;
}.

(** What the slot life cycle relies on: a completion flag per slot that one caller wins
    until it is cleared, and that the dependency operations leave alone. *)
Class CompletionLaws (C : Type) `{DependencyCounter C} := {
  completed : C → nat → bool;
  try_complete_wins : ∀ c s, s < 64 → (try_complete_slot c s).2 = negb (completed c s);
  try_complete_marks : ∀ c s s', s < 64 → s' < 64 →
    completed (try_complete_slot c s).1 s' = completed c s' || (s' =? s);
  unmark_clears : ∀ c s s', s < 64 → s' < 64 →
    completed (unmark_slot_completed c s) s' = completed c s' && negb (s' =? s);
  decrease_keeps : ∀ c slot node g grp n spec c' ready s,
    counter_decrease c slot node g grp n spec = Ret (c', ready) → completed c' s = completed c s;
  increment_keeps : ∀ c ni g c' o s,
    counter_increment c ni g = Ret (c', o) → completed c' s = completed c s;
  reset_sent_keeps : ∀ c slot node i g s, completed (reset_sent c slot node i g) s = completed c s;
  epoch_keeps : ∀ c slot g s, completed (reset_slot_epoch c slot g) s = completed c s;
}.

(** [MultiThreadedCounter]: the map and the [u64] set of completed slots. *)
Record MultiThreadedCounter := mkCounter {
  node_dep_map : NodeDepMap;
  completed_slots : Z;
}.

Definition MultiThreadedCounter_new (slots : nat) (dependency_count_vec : list nat) (nodes : list Node)
    : run MultiThreadedCounter :=
  let! m := NodeDepMap_new nodes slots dependency_count_vec in
  Ret (mkCounter m 0).

(** [1u64 << slot]: the shift amount is taken modulo 64. *)
Definition slot_bit (slot : nat) : Z := Z.shiftl 1 (Z.of_nat (slot mod 64)).

Definition mt_unmark_slot_completed (c : MultiThreadedCounter) (slot : nat) : MultiThreadedCounter :=
  mkCounter (node_dep_map c) (Z.ldiff (completed_slots c) (slot_bit slot)).

(** [fetch_or], and the test of the previous value. *)
Definition mt_try_complete_slot (c : MultiThreadedCounter) (slot : nat) : MultiThreadedCounter * bool :=
  let prev := completed_slots c in
  (mkCounter (node_dep_map c) (Z.lor prev (slot_bit slot)), (Z.land prev (slot_bit slot) =? 0)%Z).

Definition mt_reset_sent (c : MultiThreadedCounter) (slot node_id index : nat) (slot_gen : Z)
    : MultiThreadedCounter :=
  mkCounter (map_reset_sent_flag (node_dep_map c) slot node_id slot_gen index) (completed_slots c).

Definition mt_increment (c : MultiThreadedCounter) (ni : NodeInfo) (slot_gen : Z)
    : run (MultiThreadedCounter * option Z) :=
  let! (m, o) := map_increment (node_dep_map c) (ni_slot ni) (ni_id ni) slot_gen (Some (ni_index ni)) in
  Ret (mkCounter m (completed_slots c), o).

Definition mt_decrease (c : MultiThreadedCounter) (slot node_id : nat) (slot_gen : Z) (group : option nat)
    (count : nat) (specific_succ_idx : option nat) : run (MultiThreadedCounter * list nat) :=
  let! (m, ready) := map_decrease (node_dep_map c) slot node_id slot_gen group count specific_succ_idx in
  Ret (mkCounter m (completed_slots c), ready).

Definition mt_reset_slot_epoch (c : MultiThreadedCounter) (slot : nat) (new_gen : Z) : MultiThreadedCounter :=
  mkCounter (map_reset_slot_epoch (node_dep_map c) slot new_gen) (completed_slots c).

#[export] Instance mt_counter : DependencyCounter MultiThreadedCounter := {
  reset_sent := mt_reset_sent;
  unmark_slot_completed := mt_unmark_slot_completed;
  try_complete_slot := mt_try_complete_slot;
  counter_increment := mt_increment;
  counter_decrease := mt_decrease;
  reset_slot_epoch := mt_reset_slot_epoch;
}.

(** ** The laws of [MultiThreadedCounter] *)

Lemma slot_bit_spec s s' : s < 64 → Z.testbit (slot_bit s) (Z.of_nat s') = (s' =? s).
Proof.
  intros Hs. unfold slot_bit. rewrite Nat.mod_small by done.
  rewrite Z.shiftl_spec by lia. destruct (Nat.eqb_spec s' s) as [->|Hne].
  - by rewrite Z.sub_diag.
  - destruct (decide (s' < s)).
    + by rewrite Z.testbit_neg_r by lia.
    + change 1%Z with (2 ^ 0)%Z. apply Z.pow2_bits_false. lia.
Qed.

Lemma land_slot_bit z s : s < 64 → (Z.land z (slot_bit s) =? 0)%Z = negb (Z.testbit z (Z.of_nat s)).
Proof.
  intros Hs. destruct (Z.testbit z (Z.of_nat s)) eqn:Hb; cbn [negb].
  - apply Z.eqb_neq. intros H0. assert (Ht : Z.testbit (Z.land z (slot_bit s)) (Z.of_nat s) = true).
    { rewrite Z.land_spec, Hb, slot_bit_spec by done. by rewrite Nat.eqb_refl. }
    by rewrite H0, Z.bits_0 in Ht.
  - apply Z.eqb_eq, Z.bits_inj'. intros n Hn. rewrite Z.land_spec, Z.bits_0.
    rewrite <- (Z2Nat.id n) by done. rewrite slot_bit_spec by done.
    destruct (Nat.eqb_spec (Z.to_nat n) s) as [->|]; [by rewrite Hb|apply andb_false_r].
Qed.

#[export] Program Instance mt_laws : CompletionLaws MultiThreadedCounter := {
  completed c s := Z.testbit (completed_slots c) (Z.of_nat s);
}.
Next Obligation. intros c s Hs. cbn. by rewrite land_slot_bit. Qed.
Next Obligation. intros c s s' Hs Hs'. cbn. by rewrite Z.lor_spec, slot_bit_spec. Qed.
Next Obligation. intros c s s' Hs Hs'. cbn. by rewrite Z.ldiff_spec, slot_bit_spec. Qed.
Next Obligation.
  intros c slot node g grp n spec c' ready s. cbn. unfold mt_decrease. intros Hd. run_inv Hd.
  destruct a as [m r]. run_inv Hd. done.
Qed.
Next Obligation.
  intros c ni g c' o s. cbn. unfold mt_increment. intros Hd. run_inv Hd.
  destruct a as [m r]. run_inv Hd. done.
Qed.
Next Obligation. done. Qed.
Next Obligation. done. Qed.

(** ** Claiming a slot's completion *)

Section claims.
Context {C : Type} `{CompletionLaws C}.

(** Concurrent callers of [try_complete_slot]: the calls are atomic, so they happen
    in some order; the answers in that order. *)
Fixpoint try_all (c : C) (slots : list nat) : C * list bool :=
  match slots with
  | [] => (c, [])
  | s :: slots =>
      let '(c1, b) := try_complete_slot c s in
      let '(c2, bs) := try_all c1 slots in (c2, b :: bs)
  end.

(** How many of the calls for slot [s] were answered [true]. *)
Definition winners (s : nat) (slots : list nat) (answers : list bool) : nat :=
  length (filter (λ sb, sb = (s, true)) (zip slots answers)).

Lemma try_all_spec slots s : s < 64 → Forall (λ s, s < 64) slots → ∀ c,
  length (try_all c slots).2 = length slots
  ∧ winners s slots (try_all c slots).2 = (if decide (s ∈ slots) then if completed c s then 0 else 1 else 0)
  ∧ completed (try_all c slots).1 s = completed c s || if decide (s ∈ slots) then true else false.
Proof.
  intros Hs. induction 1 as [|x slots Hx _ IH]; intros c; cbn [try_all fst snd].
  - rewrite decide_False by apply not_elem_of_nil. by rewrite orb_false_r.
  - pose proof (try_complete_wins c x Hx) as Hb. pose proof (try_complete_marks c x s Hx Hs) as Hm.
    destruct (try_complete_slot c x) as [c1 b]. cbn [fst snd] in *.
    destruct (IH c1) as (IH1 & IH2 & IH3). destruct (try_all c1 slots) as [c2 bs]. cbn [fst snd] in *.
    unfold winners in *. cbn [zip zip_with]. rewrite filter_cons.
    destruct (Nat.eqb_spec s x) as [->|Hne].
    + rewrite (decide_True (P := x ∈ x :: slots)) by left. rewrite orb_true_r in Hm.
      assert (Hz : length (filter (λ sb : nat * bool, sb = (x, true)) (zip slots bs)) = 0).
      { rewrite IH2, Hm. by case_decide. }
      split; [cbn; lia|]. assert (Hd : (if decide (x ∈ x :: slots) then true else false) = true) by (rewrite decide_True; [done|left]).
      split; [|by rewrite IH3, Hm, Hd, orb_true_r].
      clear Hd IH IH2 IH3. subst b. destruct (completed c x); cbn [negb].
      * by rewrite decide_False by congruence.
      * rewrite decide_True by done. cbn [length]. by rewrite Hz.
    + rewrite orb_false_r in Hm. split; [cbn; lia|].
      rewrite (decide_False (P := (x, b) = (s, true))) by congruence.
      rewrite IH2, IH3, Hm. assert (s ∈ x :: slots ↔ s ∈ slots) by (rewrite elem_of_cons; intuition congruence).
      split; [|f_equal]; by apply decide_ext.
Qed.
End claims.

(** However many threads try to claim the completion of slots, in whatever order the
    calls take effect, a slot that was not marked is won by exactly one of the calls for
    it and a slot that was marked by none; afterwards the slot is marked. This holds of
    any counter that satisfies the laws, in particular of [MultiThreadedCounter] for
    the 64 slots it supports. *)
Theorem one_completion_winner (c : MultiThreadedCounter) slots s
    (Hslots : Forall (λ s, s < 64) slots) (Hin : s ∈ slots) :
  winners s slots (try_all c slots).2 = (if completed c s then 0 else 1)
  ∧ completed (try_all c slots).1 s = true
  ∧ completed (unmark_slot_completed (try_all c slots).1 s) s = false.
Proof.
  assert (Hs : s < 64) by (by rewrite Forall_forall in Hslots; auto).
  destruct (try_all_spec slots s Hs Hslots c) as (_ & H2 & H3). rewrite decide_True in H2 by done.
  rewrite decide_True in H3 by done. rewrite orb_true_r in H3. split; [done|]. split; [done|].
  rewrite unmark_clears by done. by rewrite Nat.eqb_refl, andb_false_r.
Qed.

Lemma one_completion_winner_witness :
  let c := mkCounter [] 2 in
  winners 3 [3; 1; 3] (try_all c [3; 1; 3]).2 = (if completed c 3 then 0 else 1)
  ∧ completed (try_all c [3; 1; 3]).1 3 = true
  ∧ completed (unmark_slot_completed (try_all c [3; 1; 3]).1 3) 3 = false.
Proof.
  apply (one_completion_winner (mkCounter [] 2) [3; 1; 3] 3); [repeat constructor; lia|left].
Defined.

(** ** Isolation of slots and nodes *)

Lemma map_update_entry m slot node_id e slot' node' :
  map_entry m slot node_id ≠ None →
  map_entry (map_update m slot node_id e) slot' node'
  = if decide (slot' = slot ∧ node' = node_id) then Some e else map_entry m slot' node'.
Proof.
  unfold map_entry, map_update. intros Hne.
  destruct (m !! slot) as [row|] eqn:Hm; [|done]. cbn in Hne.
  destruct (decide (slot' = slot)) as [->|Hs].
  - rewrite list_lookup_alter_eq, Hm. cbn. destruct (decide (node' = node_id)) as [->|Hn].
    + rewrite decide_True by done. apply list_lookup_insert_eq. by apply lookup_lt_is_Some, not_eq_None_Some.
    + rewrite decide_False by tauto. by apply list_lookup_insert_ne.
  - rewrite list_lookup_alter_ne by done. by rewrite decide_False by tauto.
Qed.

(** Every entry of the map is well formed. *)
Definition map_wf (m : NodeDepMap) : Prop :=
  ∀ slot node_id e, map_entry m slot node_id = Some e → entry_wf e.

(** A decrement through the map acts on the entry of its slot and node exactly as
    [decrease_and_get_ready_into] does on that entry alone, returns, keeps every entry
    well formed, and leaves every other entry as it was; slots and nodes that do not
    exist are ignored. *)
Theorem map_decrease_isolated m slot node_id gen group count spec (Hgen : is_u32 gen) (Hwf : map_wf m) :
  ∃ m' ready, map_decrease m slot node_id gen group count spec = Ret (m', ready)
  ∧ map_wf m'
  ∧ (∀ slot' node', (slot', node') ≠ (slot, node_id) → map_entry m' slot' node' = map_entry m slot' node')
  ∧ match map_entry m slot node_id with
    | Some e => ∃ e', decrease_and_get_ready_into e gen group count spec = Ret (e', ready)
                      ∧ map_entry m' slot node_id = Some e'
    | None => m' = m ∧ ready = []
    end.
Proof.
  unfold map_decrease. destruct (map_entry m slot node_id) as [e|] eqn:He.
  - destruct (decrease_refines gen e group count spec Hgen (Hwf _ _ _ He)) as (e' & ready & Hd & Hwf' & _).
    rewrite Hd. cbn [run_bind]. eexists _, _. split; [done|].
    assert (Hu := λ s n, map_update_entry m slot node_id e' s n (eq_ind_r (.≠ None) (Some_ne_None e) He)).
    split; [|split].
    + intros s n e'' . rewrite Hu. case_decide; [by intros [= <-]|apply Hwf].
    + intros s n Hne. rewrite Hu. rewrite decide_False; [done|]. intros [-> ->]. done.
    + exists e'. split; [done|]. rewrite Hu. by rewrite decide_True.
  - by exists m, [].
Qed.

Lemma map_decrease_isolated_witness :
  let m := [[NodeDependencyEntry_new 2 2 true None false]] in
  ∃ m' ready, map_decrease m 0 0 1 None 2 None = Ret (m', ready)
  ∧ map_wf m'
  ∧ (∀ slot' node', (slot', node') ≠ (0, 0) → map_entry m' slot' node' = map_entry m slot' node')
  ∧ match map_entry m 0 0 with
    | Some e => ∃ e', decrease_and_get_ready_into e 1 None 2 None = Ret (e', ready)
                      ∧ map_entry m' 0 0 = Some e'
    | None => m' = m ∧ ready = []
    end.
Proof.
  apply (map_decrease_isolated [[NodeDependencyEntry_new 2 2 true None false]] 0 0 1 None 2 None).
  - unfold is_u32, two32. lia.
  - intros [|s] [|n] e He; try discriminate He.
    change (Some (NodeDependencyEntry_new 2 2 true None false) = Some e) in He.
    assert (e = NodeDependencyEntry_new 2 2 true None false) as -> by congruence. apply new_wf.
Defined.
