(* ===== verification/Counting.v ===== *)
(** Counting agrees with routing.

    Two independent computations must agree for a node to become ready at the right
    moment: [dependency_count_vec] says how many decrements its counter expects, and the
    routing tables say which completions decrement it. This file shows that they agree
    for nodes with ungrouped edges and for nodes behind a grouped barrier, and where
    they do not. *)
From S2P Require Import Prelude Types GraphStruct Graph Buffers NodeDep NodeCache Tables DepCounter.
From stdpp Require Import strings.

Definition factor_of (g : Graph) (id : nat) : nat :=
  match g_nodes g !! id with Some n => n_factor n | None => 0 end.

(** The offsets of every argument are distinct instances of its predecessor. *)
Definition absolute_args (g : Graph) (node : Node) : Prop :=
  ∀ a p, a ∈ n_args node → a_predecessor a = Some p →
    p_id p < length (g_nodes g) ∧ small (factor_of g (p_id p)) ∧ absolute_indexes p (factor_of g (p_id p)).

(** No argument is grouped. *)
Definition ungrouped (node : Node) : Prop :=
  ∀ a p, a ∈ n_args node → a_predecessor a = Some p → p_group_by p = None.

(** Every predecessor's completions go to all groups of the node and are counted for
    all of them. *)
Definition uniform_groups (node : Node) : Prop :=
  dep_num_groups node = 1 ∨
  ∀ p, reads node p → has_barrier_on_pred node p = true ∨ pred_is_ambiguous_multi_arg node p = true.

(** The number of completions of [pred_id] that pass the filter of a route. *)
Definition delivered (g : Graph) (r : route) (pred_id : nat) : nat :=
  length (passing (rt_filter r) (factor_of g pred_id)).

(** ** Unions of offsets *)

Lemma union_elem node pred_id i :
  i ∈ union_pred_indexes node pred_id ↔
  ∃ a p, a ∈ args_on_pred node pred_id ∧ a_predecessor a = Some p ∧ i ∈ p_indexes p.
Proof.
  unfold union_pred_indexes. rewrite elem_of_remove_dups, list_elem_of_bind.
  setoid_rewrite args_on_pred_elem. unfold reads_pred. split.
  - intros (a & Hi & Ha). destruct (a_predecessor a) as [p|] eqn:Hp; [|by apply not_elem_of_nil in Hi].
    destruct (p_id p =? pred_id) eqn:Hid; [|by apply not_elem_of_nil in Hi].
    exists a, p. rewrite Hp. done.
  - intros (a & p & [Ha Hr] & Hp & Hi). exists a. rewrite Hp in Hr |- *. by rewrite Hr.
Qed.

Lemma union_absolute g node pred_id :
  absolute_args g node → absolute_indexes (mkPred pred_id (union_pred_indexes node pred_id) None) (factor_of g pred_id).
Proof.
  intros Habs. split; cbn [p_indexes].
  - apply NoDup_remove_dups.
  - intros i (a & p & [Ha Hr]%args_on_pred_elem & Hp & Hi)%union_elem.
    destruct (reads_pred_some _ _ Hr) as (p' & Hp' & Hid). rewrite Hp in Hp'. injection Hp' as <-.
    destruct (Habs a p Ha Hp) as (_ & _ & [_ Hin]). rewrite Hid in Hin. by apply Hin.
Qed.

(** The filter depends on the set of offsets, not on their order. *)
Lemma index_filter_ext p q pf sf :
  p_group_by p = p_group_by q → NoDup (p_indexes p) → NoDup (p_indexes q) →
  (∀ i, i ∈ p_indexes p ↔ i ∈ p_indexes q) → index_filter p pf sf = index_filter q pf sf.
Proof.
  intros Hgb Hp Hq Hext. unfold index_filter. rewrite Hgb.
  assert (Hlen : length (p_indexes p) = length (p_indexes q)).
  { apply Permutation_length, NoDup_Permutation; done. }
  destruct (p_indexes p) as [|i l] eqn:Hip.
  - by destruct (p_indexes q).
  - destruct (p_indexes q) as [|j l'] eqn:Hiq; [done|]. rewrite <- Hip, <- Hiq in *.
    destruct (list_min_max_ext (p_indexes p) (p_indexes q)) as [-> ->]; [by rewrite Hip|done|].
    by rewrite Hlen.
Qed.

Lemma contributing_ext p q pf sf :
  p_group_by p = p_group_by q → NoDup (p_indexes p) → NoDup (p_indexes q) →
  (∀ i, i ∈ p_indexes p ↔ i ∈ p_indexes q) → contributing_instances p pf sf = contributing_instances q pf sf.
Proof.
  intros Hgb Hp Hq Hext. unfold contributing_instances. rewrite (index_filter_ext p q) by done.
  assert (Hl : length (p_indexes p) = length (p_indexes q)) by (apply Permutation_length, NoDup_Permutation; done).
  by rewrite Hl.
Qed.

(** ** One edge *)

Lemma vec_get_factor g id : id < length (g_nodes g) →
  ∃ nd, vec_get (g_nodes g) id = Ret nd ∧ n_factor nd = factor_of g id.
Proof.
  intros Hid. destruct (vec_get_lt (g_nodes g) id Hid) as (nd & Hg & Hl). exists nd.
  split; [done|]. unfold factor_of. by rewrite Hl.
Qed.

Lemma ungrouped_none g node a p :
  absolute_args g node → ungrouped node → a ∈ n_args node → a_predecessor a = Some p →
  barrier_group_by_for_dependency g node p = Ret None.
Proof.
  intros Habs Hun Ha Hp. destruct (Habs a p Ha Hp) as (Hlt & _).
  destruct (barrier_group_total g node p Hlt) as (b & _ & ->).
  rewrite (Hun a p Ha Hp). by destruct b.
Qed.

Lemma grouped_barrier_none g node args :
  absolute_args g node → ungrouped node → (∀ a, a ∈ args → a ∈ n_args node) →
  grouped_barrier g node args = Ret None.
Proof.
  intros Habs Hun. induction args as [|a args IH]; intros Hin; cbn [grouped_barrier]; [done|].
  assert (IH' : grouped_barrier g node args = Ret None) by (apply IH; intros; apply Hin; by right).
  destruct (negb (is_barrier a)); [done|]. destruct (a_predecessor a) as [p|] eqn:Hp; [|done].
  rewrite (ungrouped_none g node a p) by (try done; apply Hin; left). cbn [run_bind]. done.
Qed.

Lemma single_route_shape r1 a pred pf sf r : single_route r1 a pred pf sf = Ret r →
  rt_filter r = index_filter pred pf sf ∧ rt_group_by r = None.
Proof.
  unfold single_route. destruct (_ && _).
  - destruct (vec_get (p_indexes pred) 0); [|done]. cbn [run_bind]. by intros [= <-].
  - by intros [= <-].
Qed.

(** What [count_pass2] adds for one predecessor, before the multiplication. *)
Definition edge_contribution (g : Graph) (node : Node) (pred_id : nat) : nat :=
  if pred_is_ambiguous_multi_arg node pred_id then factor_of g pred_id
  else contributing_instances (mkPred pred_id (union_pred_indexes node pred_id) None)
         (factor_of g pred_id) (n_factor node).

(** The filter of an ungrouped edge is that of the union of the declared offsets; an
    ambiguous edge has none. *)
Lemma edge_route_filter r1 g node pred_id r :
  absolute_args g node → ungrouped node → reads node pred_id →
  edge_route r1 g node pred_id = Ret r →
  rt_group_by r = None
  ∧ rt_filter r = if pred_is_ambiguous_multi_arg node pred_id then None
                  else index_filter (mkPred pred_id (union_pred_indexes node pred_id) None)
                         (factor_of g pred_id) (n_factor node).
Proof.
  intros Habs Hun Hreads. unfold edge_route.
  apply arg_pred_ids_elem in Hreads as (a0 & Ha0 & Hr0).
  destruct (reads_pred_some _ _ Hr0) as (p0 & Hp0 & Hid0).
  destruct (Habs a0 p0 Ha0 Hp0) as (Hlt & Hsmall & _). rewrite Hid0 in Hlt, Hsmall.
  destruct (vec_get_factor g pred_id Hlt) as (nd & -> & Hfac). cbn [run_bind]. rewrite Hfac.
  rewrite grouped_barrier_none; [|done|done|by intros a [? _]%args_on_pred_elem]. cbn [run_bind].
  pose proof (union_absolute g node pred_id Habs) as Hua.
  pose proof (ambiguous_spec node pred_id) as Hamb.
  assert (Hne : a0 ∈ args_on_pred node pred_id) by (by apply args_on_pred_elem).
  assert (Hread : ∀ a, a ∈ args_on_pred node pred_id → ∃ p, a_predecessor a = Some p ∧ p_id p = pred_id ∧ a ∈ n_args node).
  { intros a [? Ha]%args_on_pred_elem. apply reads_pred_some in Ha as (p & ? & ?). by exists p. }
  pose proof (union_elem node pred_id) as Hue.
  destruct (args_on_pred node pred_id) as [|a rest] eqn:Hargs; [by apply not_elem_of_nil in Hne|].
  destruct (Hread a) as (first & Hfirst & Hfid & Hain); [left|]. rewrite Hfirst. cbn [unwrap run_bind].
  destruct (forallb _ rest) eqn:Hall.
  - (* all arguments declare the same offsets *)
    intros Hr. apply single_route_shape in Hr as [-> ->]. split; [done|].
    assert (Hsame : ∀ b q, b ∈ a :: rest → a_predecessor b = Some q → p_indexes q = p_indexes first ∧ p_group_by q = p_group_by first).
    { intros b q [->|Hb]%elem_of_cons Hq; [by rewrite Hfirst in Hq; injection Hq as <-|].
      rewrite forallb_forall in Hall. specialize (Hall b). rewrite <- list_elem_of_In in Hall.
      specialize (Hall Hb). unfold arg_differs in Hall. rewrite Hq, negb_involutive in Hall.
      by apply same_decl_eq. }
    assert (Hna : pred_is_ambiguous_multi_arg node pred_id = false).
    { apply not_true_iff_false. rewrite Hamb. intros (_ & b & c & p & q & Hb & Hc & Hp & Hq & Hd).
      destruct (Hsame b p Hb Hp) as [E1 E2], (Hsame c q Hc Hq) as [E3 E4].
      apply not_true_iff_false in Hd. apply Hd, same_decl_eq. by rewrite E1, E2, E3, E4. }
    rewrite Hna. destruct (Habs a first Hain Hfirst) as (_ & _ & [Hnd _]).
    apply index_filter_ext; cbn [p_group_by p_indexes].
    + by apply (Hun a).
    + done.
    + apply Hua.
    + intros i. rewrite Hue. split.
      * intros Hi. exists a, first. split; [left|]. done.
      * intros (b & q & Hb & Hq & Hi). by destruct (Hsame b q Hb Hq) as [<- _].
  - destruct (existsb is_barrier (a :: rest)) eqn:Hbar.
    + (* a barrier among differing arguments *)
      assert (Hna : pred_is_ambiguous_multi_arg node pred_id = false).
      { apply not_true_iff_false. rewrite Hamb. intros [Hnb _].
        apply existsb_exists in Hbar as (b & Hb & Hbb). rewrite <- list_elem_of_In in Hb.
        by rewrite Hnb in Hbb. }
      assert (Hneg : existsb (λ i, (i <? 0)%Z) (union_pred_indexes node pred_id) = false).
      { apply not_true_iff_false. rewrite existsb_exists. intros (i & Hi & Hlt0).
        rewrite <- list_elem_of_In in Hi. apply Z.ltb_lt in Hlt0.
        pose proof (proj2 Hua i Hi). lia. }
      rewrite Hneg, Hna. by intros [= <-].
    + (* differing arguments, no barrier: ambiguous *)
      intros [= <-]. cbn [rt_group_by rt_filter]. split; [done|].
      assert (Hamb' : pred_is_ambiguous_multi_arg node pred_id = true).
      { apply Hamb. split.
        - intros b Hb. apply not_true_iff_false. intros Hbb. apply not_true_iff_false in Hbar. apply Hbar.
          apply existsb_exists. exists b. by rewrite <- list_elem_of_In.
        - apply not_true_iff_false in Hall. rewrite forallb_forall in Hall.
          destruct (decide (Forall (λ b, arg_differs first b = false) rest)) as [Hf|Hf].
          + exfalso. apply Hall. intros b Hb. rewrite Forall_forall in Hf. rewrite <- list_elem_of_In in Hb.
            by rewrite Hf.
          + apply not_Forall_Exists, Exists_exists in Hf as (b & Hb & Hd); [|intros ?; apply _].
            apply not_false_iff_true in Hd. unfold arg_differs in Hd.
            destruct (a_predecessor b) as [q|] eqn:Hq; [|done]. apply negb_true_iff in Hd.
            exists b, a, q, first. split; [by right|]. split; [left|]. done. }
      by rewrite Hamb'.
Qed.

Lemma edge_small g node pred_id : absolute_args g node → reads node pred_id → small (factor_of g pred_id).
Proof.
  intros Habs Hreads. apply arg_pred_ids_elem in Hreads as (a & Ha & Hr).
  destruct (reads_pred_some _ _ Hr) as (p & Hp & <-). by apply (Habs a p).
Qed.

Lemma edge_route_delivers r1 g node pred_id r :
  absolute_args g node → ungrouped node → reads node pred_id →
  edge_route r1 g node pred_id = Ret r →
  rt_group_by r = None ∧ delivered g r pred_id = edge_contribution g node pred_id.
Proof.
  intros Habs Hun Hreads Hr. destruct (edge_route_filter _ _ _ _ _ Habs Hun Hreads Hr) as [Hgb Hf].
  split; [done|]. unfold delivered, edge_contribution. rewrite Hf.
  destruct (pred_is_ambiguous_multi_arg node pred_id); [apply length_passing_None|].
  rewrite contributing_is_passing; [done|by eapply edge_small|by apply union_absolute|done].
Qed.

(** ** One node *)

Lemma pass1_ungrouped g node args s c :
  absolute_args g node → ungrouped node → (∀ a, a ∈ args → a ∈ n_args node) →
  ∃ c', foldM (count_pass1 g node) (s, [], c) args = Ret (s, [], c').
Proof.
  intros Habs Hun. revert c. induction args as [|a args IH]; intros c Hin; cbn [foldM]; [by eexists|].
  assert (IH' : ∀ c, ∃ c', foldM (count_pass1 g node) (s, [], c) args = Ret (s, [], c')).
  { intros c'. apply IH. intros; apply Hin; by right. }
  unfold count_pass1 at 1. destruct (negb (ty_is_barrier (a_type a))); [apply IH'|].
  destruct (a_predecessor a) as [p|] eqn:Hp; [|apply IH'].
  case_decide; [apply IH'|].
  rewrite (ungrouped_none g node a p) by (try done; apply Hin; left). cbn [run_bind]. apply IH'.
Qed.

Lemma pass2_sum g node ps n :
  (∀ p, p ∈ ps → p < length (g_nodes g)) →
  (∀ p, p ∈ ps → dep_num_groups node = 1 ∨ has_barrier_on_pred node p = true
                 ∨ pred_is_ambiguous_multi_arg node p = true) →
  foldM (count_pass2 g node) n ps
  = Ret (n + nat_sum (edge_contribution g node <$> ps) * dep_num_groups node).
Proof.
  revert n. induction ps as [|p ps IH]; intros n Hlt Hu; cbn [foldM fmap list_fmap nat_sum foldr].
  - f_equal. lia.
  - unfold count_pass2 at 1. destruct (vec_get_factor g p) as (nd & -> & Hfac); [apply Hlt; left|].
    cbn [run_bind]. rewrite Hfac. rewrite IH by (intros; auto using list_elem_of_further).
    fold (edge_contribution g node p). fold (nat_sum (edge_contribution g node <$> ps)). f_equal.
    assert (Hadd : (if (has_barrier_on_pred node p || pred_is_ambiguous_multi_arg node p) && (1 <? dep_num_groups node)
                    then edge_contribution g node p * dep_num_groups node else edge_contribution g node p)
                   = edge_contribution g node p * dep_num_groups node).
    { destruct (Hu p) as [H1|H1]; [left| |].
      - rewrite H1. rewrite andb_false_r. lia.
      - assert (Ho : has_barrier_on_pred node p || pred_is_ambiguous_multi_arg node p = true).
        { by apply orb_true_iff. }
        rewrite Ho. cbn [andb]. destruct (1 <? dep_num_groups node) eqn:Hg; [done|].
        apply Nat.ltb_ge in Hg. assert (dep_num_groups node ≠ 0).
        { unfold dep_num_groups in *. destruct (n_group_size node) as [gs|]; [|lia].
          destruct ((0 <? gs) && (gs <? n_factor node)) eqn:Hc; [|lia].
          apply andb_true_iff in Hc as [?%Nat.ltb_lt ?%Nat.ltb_lt].
          pose proof (Nat.div_str_pos (n_factor node) gs). lia. }
        assert (dep_num_groups node = 1) as -> by lia. lia. }
    rewrite Hadd. lia.
Qed.

Lemma dep_num_groups_pos node : 0 < dep_num_groups node.
Proof.
  unfold dep_num_groups. destruct (n_group_size node) as [gs|]; [|lia].
  destruct ((0 <? gs) && (gs <? n_factor node)) eqn:Hc; [|lia].
  apply andb_true_iff in Hc as [?%Nat.ltb_lt ?%Nat.ltb_lt]. apply Nat.div_str_pos. lia.
Qed.

Lemma max_group_by_none node : ungrouped node → max_group_by node = None.
Proof.
  intros Hun. unfold max_group_by.
  assert (H : ∀ args, (∀ a, a ∈ args → a ∈ n_args node) →
    fold_left (λ acc a, if is_barrier a then
      match a_predecessor a with
      | Some pred => match p_group_by pred with
                     | Some gb => Some (Nat.max (default 0 acc) gb)
                     | None => acc
                     end
      | None => acc
      end else acc) args None = None).
  { induction args as [|a args IH]; intros Hin; cbn [fold_left]; [done|].
    destruct (is_barrier a); [|apply IH; intros; apply Hin; by right].
    destruct (a_predecessor a) as [p|] eqn:Hp; [|apply IH; intros; apply Hin; by right].
    rewrite (Hun a p) by (try done; apply Hin; left). apply IH. intros; apply Hin; by right. }
  by apply H.
Qed.

(** The entry made for the node has the groups the count is made for. *)
Lemma new_entry_groups node total : ungrouped node →
  num_groups (new_entry node total) = dep_num_groups node
  ∧ deps_per_group (new_entry node total) = as_u32 (Z.of_nat (total / dep_num_groups node)).
Proof.
  intros Hun. unfold new_entry, effective_group_size. rewrite max_group_by_none by done.
  assert (He : (if node_has_barrier node then n_group_size node else n_group_size node) = n_group_size node)
    by (by destruct (node_has_barrier node)).
  rewrite He. unfold NodeDependencyEntry_new, dep_num_groups.
  destruct (n_group_size node) as [gs|]; [|done]. by destruct ((0 <? gs) && (gs <? n_factor node)).
Qed.

(** The tables of an ungrouped node route to it what is counted for it. *)
Lemma tables_deliver r1 g s node :
  (∀ i nd, g_nodes g !! i = Some nd → n_id nd = i) → preds_exist g → g_nodes g !! s = Some node →
  absolute_args g node → ungrouped node →
  ∃ t, build_predecessor_tables r1 g = Ret t ∧ routing_dim (length (g_nodes g)) t
    ∧ ∀ p, reads node p →
        rt_group_by (route_at t s p) = None
        ∧ delivered g (route_at t s p) p = edge_contribution g node p
        ∧ edge_route r1 g node p = Ret (route_at t s p).
Proof.
  intros Hids Hex Hs Habs Hun. destruct (build_tables_spec r1 g Hids Hex) as (t & Ht & Hdim & Hroute).
  exists t. split; [done|]. split; [done|]. intros p Hp. specialize (Hroute s node p Hs).
  rewrite decide_True in Hroute by (by apply preds_of_elem).
  destruct (edge_route_delivers _ _ _ _ _ Habs Hun Hp Hroute). done.
Qed.

Lemma dependency_count_ungrouped g node :
  preds_exist g → node ∈ g_nodes g → absolute_args g node → ungrouped node → uniform_groups node →
  dependency_count g node
  = Ret (nat_sum (edge_contribution g node <$> preds_of (n_args node)) * dep_num_groups node).
Proof.
  intros Hex Hin Habs Hun Huni. unfold dependency_count.
  destruct (pass1_ungrouped g node (n_args node) 0 [] Habs Hun) as (c' & ->); [done|]. cbn [run_bind].
  fold (preds_of (n_args node)). rewrite pass2_sum; [done| |].
  - intros p Hp%preds_of_elem. by apply (Hex node).
  - intros p Hp%preds_of_elem. destruct Huni as [?|Hu]; [by left|right]. by apply Hu.
Qed.

(** C5. Take a node of a graph whose nodes are numbered by position and whose predecessors
    exist. Its arguments are ungrouped and name distinct, existing instances of their
    predecessors by absolute index, and its counter has a single group, or all of its
    predecessors are read through a barrier or by several differing arguments. The dependency
    count computed for such a node divides evenly among the groups of its counter, the share of
    a group is the number of predecessor completions that the routing tables let through to the
    node, and every such completion is routed to all groups; so each group's counter reaches
    zero with the last completion that concerns the node, neither early nor never. *)
Theorem count_matches_routing r1 g s node
    (Hids : ∀ i nd, g_nodes g !! i = Some nd → n_id nd = i) (Hex : preds_exist g)
    (Hs : g_nodes g !! s = Some node)
    (Habs : absolute_args g node) (Hun : ungrouped node) (Huni : uniform_groups node) :
  ∃ t total,
    build_predecessor_tables r1 g = Ret t
    ∧ dependency_count g node = Ret total
    ∧ (∀ p, reads node p → rt_group_by (route_at t s p) = None)
    ∧ total = nat_sum ((λ p, delivered g (route_at t s p) p) <$> preds_of (n_args node)) * dep_num_groups node
    ∧ num_groups (new_entry node total) = dep_num_groups node
    ∧ deps_per_group (new_entry node total)
      = as_u32 (Z.of_nat (nat_sum ((λ p, delivered g (route_at t s p) p) <$> preds_of (n_args node)))).
Proof.
  destruct (tables_deliver r1 g s node Hids Hex Hs Habs Hun) as (t & Ht & _ & Hedge).
  assert (Hsum : (λ p, delivered g (route_at t s p) p) <$> preds_of (n_args node)
                 = edge_contribution g node <$> preds_of (n_args node)).
  { apply list_fmap_ext. intros i p Hp. apply Hedge, preds_of_elem. by eapply list_elem_of_lookup_2. }
  exists t. rewrite Hsum. set (c := nat_sum (edge_contribution g node <$> preds_of (n_args node))).
  exists (c * dep_num_groups node). pose proof (dep_num_groups_pos node) as Hpos.
  destruct (new_entry_groups node (c * dep_num_groups node) Hun) as [Hng Hdpg].
  rewrite Nat.div_mul in Hdpg by lia.
  split; [done|]. split; [|split; [|done]].
  - apply dependency_count_ungrouped; try done. by eapply list_elem_of_lookup_2.
  - intros p Hp. by apply Hedge.
Qed.

(** A factor-4 producer, a second producer of factor 1, and a grouped consumer behind
    barriers on both. *)
Definition demo_graph : Graph :=
  set_nodes Graph_new
    [demo_node 0 4 []; demo_node 1 1 [];
     mkNode "c" [demo_barrier 0 [0; 1; 2; 3]%Z None; demo_barrier 1 [0]%Z None] 2 None 6 (Some 3) "" None None Normal None].

Lemma count_matches_routing_witness :
  ∃ node t total,
    build_predecessor_tables true demo_graph = Ret t
    ∧ dependency_count demo_graph node = Ret total
    ∧ (∀ p, reads node p → rt_group_by (route_at t 2 p) = None)
    ∧ total = nat_sum ((λ p, delivered demo_graph (route_at t 2 p) p) <$> preds_of (n_args node)) * dep_num_groups node
    ∧ num_groups (new_entry node total) = dep_num_groups node
    ∧ deps_per_group (new_entry node total)
      = as_u32 (Z.of_nat (nat_sum ((λ p, delivered demo_graph (route_at t 2 p) p) <$> preds_of (n_args node)))).
Proof.
  set (node := mkNode "c" [demo_barrier 0 [0; 1; 2; 3]%Z None; demo_barrier 1 [0]%Z None] 2 None 6 (Some 3) "" None None Normal None).
  exists node. apply (count_matches_routing true demo_graph 2 node).
  - intros [|[|[|i]]] nd; cbn; try done; by intros [= <-].
  - intros nd p. cbn. rewrite !elem_of_cons. unfold reads.
    intros [->|[->|[->|[]%not_elem_of_nil]]]; cbn; rewrite ?elem_of_cons, ?elem_of_nil; lia.
  - reflexivity.
  - intros a p. cbn. rewrite !elem_of_cons.
    intros [->|[->|[]%not_elem_of_nil]]; cbn; intros [= <-]; unfold small, factor_of; cbn;
      (split; [lia|split; [lia|split; [cbn; repeat constructor; rewrite ?elem_of_cons, ?elem_of_nil; lia|]]]);
      cbn; intros i; rewrite !elem_of_cons, elem_of_nil; lia.
  - intros a p. cbn. rewrite !elem_of_cons. by intros [->|[->|[]%not_elem_of_nil]] [= <-].
  - right. intros p Hp. left. unfold reads in Hp. cbn in Hp. rewrite !elem_of_cons, elem_of_nil in Hp.
    destruct Hp as [->|[->|[]]]; reflexivity.
Defined.

(** ** Where they do not agree *)

(** A node in two groups behind a barrier on a factor-4 producer, which also reads one
    result of another node through a plain argument. *)
Definition mixed_graph : Graph :=
  set_nodes Graph_new
    [demo_node 0 4 []; demo_node 1 1 [];
     mkNode "c" [demo_barrier 0 [0; 1; 2; 3]%Z None; demo_res 1 [0]%Z] 2 None 4 (Some 2) "" None None Normal None].

Definition mixed_node : Node :=
  mkNode "c" [demo_barrier 0 [0; 1; 2; 3]%Z None; demo_res 1 [0]%Z] 2 None 4 (Some 2) "" None None Normal None.

(** A grouped node that reads a predecessor through a plain argument beside a
    barrier on another: the plain completion is counted once but decrements every
    group, so the group counters are set to 4 while 5 completions are routed to each:
    every group is released before the last of its inputs has completed. *)
Theorem mixed_groups_released_early :
  ∃ t, build_predecessor_tables true mixed_graph = Ret t
  ∧ dependency_count mixed_graph mixed_node = Ret 9
  ∧ num_groups (new_entry mixed_node 9) = 2
  ∧ deps_per_group (new_entry mixed_node 9) = 4%Z
  ∧ delivered mixed_graph (route_at t 2 0) 0 + delivered mixed_graph (route_at t 2 1) 1 = 5
  ∧ rt_group_by (route_at t 2 0) = None ∧ rt_group_by (route_at t 2 1) = None.
Proof. eexists. split; [reflexivity|]. repeat split; reflexivity. Qed.

(** A node of factor 10 behind a barrier over 20 completions in groups of 5. *)
Definition indivisible_node : Node :=
  mkNode "c" [demo_barrier 0 (Z.of_nat <$> range 0 20) (Some 5)] 1 None 10 None "" None None Normal None.
Definition indivisible_graph : Graph := set_nodes Graph_new [demo_node 0 20 []; indivisible_node].

(** A grouped barrier with four groups of five completions on a node of factor 10:
    the entry is made with five groups of two instances and four completions each, so
    the four groups that receive completions are released one completion early and the
    instances of the fifth group are never released. *)
Theorem indivisible_groups_mismatch :
  dependency_count indivisible_graph indivisible_node = Ret 20
  ∧ num_groups (new_entry indivisible_node 20) = 5
  ∧ group_size (new_entry indivisible_node 20) = 2
  ∧ deps_per_group (new_entry indivisible_node 20) = 4%Z
  ∧ edge_route true indivisible_graph indivisible_node 0 = Ret (mkRoute (Some (0, 20)%Z) (Some 5) None)
  ∧ ∀ i, i < 20 → i / 5 < 4.
Proof.
  do 5 (split; [reflexivity|]). intros i Hi. apply Nat.Div0.div_lt_upper_bound. lia.
Qed.
