(* ===== verification/Arena.v ===== *)
(** The flattened successor edges ([runtime/successor_arena.rs]): the routing tables
    joined with the successor lists, every field cut to 32 bits. *)
From S2P Require Import Prelude Types GraphStruct Graph Buffers NodeDep NodeCache Tables DepCounter Counting.
From stdpp Require Import strings.

Definition NO_FILTER : Z := u32_max.
Definition NO_GROUP : Z := 0.

Record SuccEdge := mkEdge {
  se_succ_id : nat;
  se_has_condition : bool;
  se_is_fanout_bulk : bool;
  se_succ_factor : Z;
  se_filter_start : Z;
  se_filter_end : Z;
  se_group_by : Z;
  se_one_to_one_offset : Z;
  se_has_one_to_one : bool;
}.

Definition succ_factor (e : SuccEdge) : nat := Z.to_nat (se_succ_factor e).

Definition passes_filter (e : SuccEdge) (pred_index : nat) : bool :=
  (se_filter_end e =? NO_FILTER)%Z
  || ((se_filter_start e <=? Z.of_nat pred_index)%Z && (Z.of_nat pred_index <? se_filter_end e)%Z).

Definition filter_bounds (e : SuccEdge) : option (nat * nat) :=
  if (se_filter_end e =? NO_FILTER)%Z then None
  else Some (Z.to_nat (se_filter_start e), Z.to_nat (se_filter_end e)).

(** The subtraction wraps below [filter_start]. *)
Definition pred_group (e : SuccEdge) (pred_index : nat) : option nat :=
  if (se_group_by e =? NO_GROUP)%Z then None
  else
    let relative_idx := as_u64 (Z.of_nat pred_index - se_filter_start e) in
    Some (Z.to_nat (relative_idx / se_group_by e)).

Definition is_one_to_one (e : SuccEdge) : bool := se_has_one_to_one e.

(** [rem_euclid] by zero panics. *)
Definition one_to_one_succ_idx (e : SuccEdge) (pred_index : nat) : run (option nat) :=
  if se_has_one_to_one e then
    let f := se_succ_factor e in
    if (f =? 0)%Z then Panic
    else Ret (Some (Z.to_nat (as_i64 (as_i64 (Z.of_nat pred_index) - se_one_to_one_offset e) mod f)))
  else Ret None.

Record SuccessorArena := mkArena {
  ar_edges : list SuccEdge;
  ar_ranges : list (Z * Z);
}.

(** [&l[start..end]]: panics when the bounds do not fit. *)
Definition slice {A} (l : list A) (start end_ : nat) : run (list A) :=
  if (start <=? end_) && (end_ <=? length l) then Ret (take (end_ - start) (drop start l)) else Panic.

Definition edges_for (a : SuccessorArena) (pred_node_id : nat) : run (list SuccEdge) :=
  match ar_ranges a !! pred_node_id with
  | Some (start, end_) => slice (ar_edges a) (Z.to_nat start) (Z.to_nat end_)
  | None => Ret []
  end.

(** [x as i32]. *)
Definition as_i32 (z : Z) : Z :=
  let w := (z mod two32)%Z in if decide (w < 2 ^ 31)%Z then w else (w - two32)%Z.

(** The edge from [pred_id] to [succ]. *)
Definition make_edge (cache : list NodeCacheEntry) (t : Routing) (pred_id succ : nat) : run SuccEdge :=
  let! entry := vec_get cache succ in
  let! f := table_get (pred_index_filter t) succ pred_id in
  let! gb := table_get (pred_group_by t) succ pred_id in
  let! o := table_get (pred_succ_1to1_offset t) succ pred_id in
  let '(filter_start, filter_end) :=
    match f with Some (s, e) => (as_u32 s, as_u32 e) | None => (0%Z, NO_FILTER) end in
  let group_by := match gb with Some gb => as_u32 (Z.of_nat gb) | None => NO_GROUP end in
  let '(has_one_to_one, one_to_one_offset) :=
    match o with Some k => (true, as_i32 k) | None => (false, 0%Z) end in
  Ret (mkEdge succ (ce_is_condition entry) (ce_is_fanout_bulk entry) (as_u32 (Z.of_nat (ce_factor entry)))
         filter_start filter_end group_by one_to_one_offset has_one_to_one).

(** The body of the loop over the predecessors. *)
Definition arena_pred (successors : list (list nat)) (cache : list NodeCacheEntry) (t : Routing)
    (a : SuccessorArena) (pred_id : nat) : run SuccessorArena :=
  let start := as_u32 (Z.of_nat (length (ar_edges a))) in
  let! edges := match successors !! pred_id with
                | Some succ_list =>
                    foldM (λ es s, let! e := make_edge cache t pred_id s in Ret (es ++ [e]))
                      (ar_edges a) succ_list
                | None => Ret (ar_edges a)
                end in
  Ret (mkArena edges (ar_ranges a ++ [(start, as_u32 (Z.of_nat (length edges)))])).

(** [SuccessorArena::build]. *)
Definition arena_build (successors : list (list nat)) (num_nodes : nat) (cache : list NodeCacheEntry)
    (t : Routing) : run SuccessorArena :=
  foldM (arena_pred successors cache t) (mkArena [] []) (range 0 num_nodes).

(** ** Edges and tables *)

(** A routing entry whose numbers fit the 32-bit fields. *)
Definition route_fits (r : route) (factor : nat) : Prop :=
  (Z.of_nat factor < two32)%Z
  ∧ (∀ lo hi, rt_filter r = Some (lo, hi) → (0 ≤ lo ∧ lo < two32 ∧ 0 ≤ hi ∧ hi < u32_max)%Z)
  ∧ (∀ gb, rt_group_by r = Some gb → 0 < gb ∧ (Z.of_nat gb < two32)%Z)
  ∧ (∀ k, rt_offset r = Some k → (- 2 ^ 31 ≤ k < 2 ^ 31)%Z ∧ 0 < factor).

Lemma as_i32_small z : (- 2 ^ 31 ≤ z < 2 ^ 31)%Z → as_i32 z = z.
Proof.
  intros Hz. unfold as_i32. change two32 with (2 ^ 32)%Z. destruct (decide (0 <= z)%Z).
  - rewrite Z.mod_small by lia. rewrite decide_True by lia. done.
  - rewrite <- (Z.mod_unique z (2 ^ 32) (-1) (z + 2 ^ 32)) by lia. rewrite decide_False by lia. lia.
Qed.

Lemma make_edge_total n cache t pred_id succ :
  routing_dim n t → length cache = n → succ < n → pred_id < n →
  ∃ entry e, cache !! succ = Some entry ∧ make_edge cache t pred_id succ = Ret e.
Proof.
  intros (D1 & D2 & D3) Hc Hs Hp. unfold make_edge.
  destruct (vec_get_lt cache succ) as (entry & -> & He); [lia|]. cbn [run_bind].
  rewrite (table_get_at n _ _ _ D1 Hs Hp), (table_get_at n _ _ _ D2 Hs Hp), (table_get_at n _ _ _ D3 Hs Hp).
  cbn [run_bind]. exists entry.
  destruct (entry_at (pred_index_filter t) succ pred_id) as [[lo hi]|];
    destruct (entry_at (pred_succ_1to1_offset t) succ pred_id); by eexists.
Qed.

(** The edge stored for a predecessor-successor pair answers, for every predecessor
    instance, the questions the routing tables answer: it lets through the instances
    of the table's filter and no others; the group is the instance's position within
    the filter divided by the divisor; the 1:1 successor is the instance shifted by the
    offset, modulo the successor's factor. This needs the numbers to fit in 32 bits. *)
Theorem edge_agrees_with_tables n cache t pred_id succ entry e
    (Hdim : routing_dim n t) (Hs : succ < n) (Hp : pred_id < n)
    (Hentry : cache !! succ = Some entry) (Hmake : make_edge cache t pred_id succ = Ret e)
    (Hfits : route_fits (route_at t succ pred_id) (ce_factor entry)) :
  se_succ_id e = succ ∧ succ_factor e = ce_factor entry
  ∧ se_has_condition e = ce_is_condition entry ∧ se_is_fanout_bulk e = ce_is_fanout_bulk entry
  ∧ ∀ i, small i →
      passes_filter e i = passes (rt_filter (route_at t succ pred_id)) i
      ∧ (passes_filter e i = true →
           pred_group e i = (λ gb, (i - match rt_filter (route_at t succ pred_id) with
                                        | Some (lo, _) => Z.to_nat lo | None => 0 end) / gb)
                            <$> rt_group_by (route_at t succ pred_id))
      ∧ one_to_one_succ_idx e i
        = Ret ((λ k, Z.to_nat ((Z.of_nat i - k) mod Z.of_nat (ce_factor entry)))
               <$> rt_offset (route_at t succ pred_id)).
Proof.
  destruct Hdim as (D1 & D2 & D3). unfold make_edge in Hmake.
  rewrite (vec_get_lookup _ _ _ Hentry) in Hmake. cbn [run_bind] in Hmake.
  rewrite (table_get_at n _ _ _ D1 Hs Hp), (table_get_at n _ _ _ D2 Hs Hp), (table_get_at n _ _ _ D3 Hs Hp) in Hmake.
  cbn [run_bind] in Hmake. destruct Hfits as (Hf & Hfil & Hgb & Ho).
  unfold route_at in *. cbn [rt_filter rt_group_by rt_offset] in *.
  set (f := entry_at (pred_index_filter t) succ pred_id) in *.
  set (gb := entry_at (pred_group_by t) succ pred_id) in *.
  set (o := entry_at (pred_succ_1to1_offset t) succ pred_id) in *.
  assert (Hfil' : let '(a, b) := match f with Some (s, e) => (as_u32 s, as_u32 e) | None => (0%Z, NO_FILTER) end in
    e = mkEdge succ (ce_is_condition entry) (ce_is_fanout_bulk entry) (Z.of_nat (ce_factor entry)) a b
          (match gb with Some gb => Z.of_nat gb | None => NO_GROUP end)
          (match o with Some k => k | None => 0%Z end) (is_some o)).
  { destruct f as [[lo hi]|]; destruct o as [k|]; injection Hmake as <-;
      rewrite ?(as_u32_small (Z.of_nat (ce_factor entry))) by lia;
      rewrite ?as_i32_small by (by apply Ho); f_equal;
      (destruct gb as [g|]; [destruct (Hgb g eq_refl); by rewrite as_u32_small by lia|done]). }
  clear Hmake. destruct f as [[lo hi]|].
  - destruct (Hfil lo hi eq_refl) as (H1 & H2 & H3 & H4). unfold u32_max, two32 in *.
    rewrite !as_u32_small in Hfil' by (unfold two32; lia). subst e.
    split; [done|]. split; [unfold succ_factor; cbn; lia|]. split; [done|]. split; [done|].
    intros i Hi. unfold small in Hi. split; [|split].
    + unfold passes_filter, passes, NO_FILTER, u32_max. cbn [se_filter_end se_filter_start].
      by rewrite (proj2 (Z.eqb_neq _ _)) by lia.
    + unfold passes_filter, NO_FILTER, u32_max. cbn [se_filter_end se_filter_start].
      rewrite (proj2 (Z.eqb_neq _ _)) by lia. cbn [orb].
      rewrite andb_true_iff, Z.leb_le, Z.ltb_lt. intros [Hlo Hhi].
      unfold pred_group, NO_GROUP. cbn [se_group_by se_filter_start].
      destruct gb as [g|]; [|done]. destruct (Hgb g eq_refl) as [Hg1 Hg2].
      rewrite (proj2 (Z.eqb_neq _ _)) by lia. cbn. f_equal.
      rewrite as_u64_small by (change two64 with (2 ^ 64)%Z; lia).
      replace (Z.of_nat i - lo)%Z with (Z.of_nat (i - Z.to_nat lo)) by lia.
      by rewrite <- Nat2Z.inj_div, Nat2Z.id.
    + unfold one_to_one_succ_idx. cbn [se_has_one_to_one se_succ_factor se_one_to_one_offset].
      destruct o as [k|]; [|done]. destruct (Ho k eq_refl) as [Hk Hk']. cbn [is_some].
      rewrite (proj2 (Z.eqb_neq _ _)) by lia.
      rewrite (as_i64_small (Z.of_nat i)) by lia. by rewrite as_i64_small by lia.
  - subst e. split; [done|]. split; [unfold succ_factor; cbn; lia|]. split; [done|]. split; [done|].
    intros i Hi. unfold small in Hi. split; [|split].
    + done.
    + intros _. unfold pred_group, NO_GROUP. cbn [se_group_by se_filter_start].
      destruct gb as [g|]; [|done]. destruct (Hgb g eq_refl) as [Hg1 Hg2].
      rewrite (proj2 (Z.eqb_neq _ _)) by lia. cbn. f_equal.
      rewrite as_u64_small by (change two64 with (2 ^ 64)%Z; lia).
      rewrite Z.sub_0_r, Nat.sub_0_r. by rewrite <- Nat2Z.inj_div, Nat2Z.id.
    + unfold one_to_one_succ_idx. cbn [se_has_one_to_one se_succ_factor se_one_to_one_offset].
      destruct o as [k|]; [|done]. destruct (Ho k eq_refl) as [Hk Hk']. cbn [is_some].
      rewrite (proj2 (Z.eqb_neq _ _)) by lia.
      rewrite (as_i64_small (Z.of_nat i)) by lia. by rewrite as_i64_small by lia.
Qed.

(** ** The arena *)

Lemma foldM_snoc {A B} (f : A → run B) acc l :
  foldM (λ es x, let! e := f x in Ret (es ++ [e])) acc l
  = let! ys := foldM (λ es x, let! e := f x in Ret (es ++ [e])) [] l in Ret (acc ++ ys).
Proof.
  revert acc. induction l as [|x l IH]; intros acc; cbn [foldM run_bind]; [by rewrite app_nil_r|].
  destruct (f x) as [y|]; cbn [run_bind]; [|done]. rewrite (IH (acc ++ [y])), (IH ([] ++ [y])).
  destruct (foldM _ [] l); cbn [run_bind app]; [|done]. by rewrite <- (assoc_L (++)).
Qed.

(** The edges of one predecessor, in the order of its successor list. *)
Definition edges_of (successors : list (list nat)) (cache : list NodeCacheEntry) (t : Routing) (p : nat)
    : run (list SuccEdge) :=
  foldM (λ es s, let! e := make_edge cache t p s in Ret (es ++ [e])) [] (default [] (successors !! p)).

Lemma edges_of_total n successors cache t p :
  routing_dim n t → length cache = n → p < n → (∀ s, s ∈ default [] (successors !! p) → s < n) →
  ∃ es, edges_of successors cache t p = Ret es ∧ se_succ_id <$> es = default [] (successors !! p).
Proof.
  intros Hd Hc Hp Hs. unfold edges_of. set (l := default [] (successors !! p)) in *. clearbody l.
  induction l as [|s l IH]; cbn [foldM]; [by exists []|].
  destruct (make_edge_total n cache t p s Hd Hc) as (entry & e & He & Hm); [apply Hs; left|done|].
  rewrite Hm. cbn [run_bind]. rewrite foldM_snoc.
  destruct IH as (es & -> & Hes); [intros; apply Hs; by right|]. cbn [run_bind].
  exists ([e] ++ es). split; [done|]. cbn. rewrite Hes. f_equal.
  unfold make_edge in Hm. rewrite (vec_get_lookup _ _ _ He) in Hm. run_inv Hm.
  repeat case_match; by injection Hm as <-.
Qed.

(** Each is made by [make_edge]. *)
Lemma edges_of_made successors cache t p es : edges_of successors cache t p = Ret es →
  Forall2 (λ s e, make_edge cache t p s = Ret e) (default [] (successors !! p)) es.
Proof.
  unfold edges_of. generalize (default [] (successors !! p)) as l. intros l. revert es. induction l as [|s l IH]; intros es H; cbn [foldM] in H.
  - injection H as <-. constructor.
  - apply run_bind_Ret in H as (y & Hy & H). apply run_bind_Ret in Hy as (e & He & [= <-]).
    rewrite foldM_snoc in H. apply run_bind_Ret in H as (ys & Hys & [= <-]). constructor; [done|by apply IH].
Qed.

(** The edge of a route to a successor with a cache entry. *)
Definition edge_with (s : nat) (is_condition is_fanout : bool) (factor : nat) (r : route) : SuccEdge :=
  mkEdge s is_condition is_fanout (as_u32 (Z.of_nat factor))
    (match rt_filter r with Some (lo, _) => as_u32 lo | None => 0%Z end)
    (match rt_filter r with Some (_, hi) => as_u32 hi | None => NO_FILTER end)
    (match rt_group_by r with Some gb => as_u32 (Z.of_nat gb) | None => NO_GROUP end)
    (match rt_offset r with Some k => as_i32 k | None => 0%Z end) (is_some (rt_offset r)).

Lemma make_edge_at n cache t p s entry : routing_dim n t → length cache = n → s < n → p < n → cache !! s = Some entry →
  make_edge cache t p s = Ret (edge_with s (ce_is_condition entry) (ce_is_fanout_bulk entry) (ce_factor entry) (route_at t s p)).
Proof.
  intros (D1 & D2 & D3) Hc Hs Hp He. unfold make_edge. rewrite (vec_get_lookup _ _ _ He). cbn [run_bind].
  rewrite (table_get_at n _ _ _ D1 Hs Hp), (table_get_at n _ _ _ D2 Hs Hp), (table_get_at n _ _ _ D3 Hs Hp). cbn [run_bind].
  unfold edge_with, route_at. cbn. destruct (entry_at (pred_index_filter t) s p) as [[lo hi]|]; by destruct (entry_at (pred_succ_1to1_offset t) s p).
Qed.

Lemma slice_app {A} (l l' : list A) : slice (l ++ l') (length l) (length (l ++ l')) = Ret l'.
Proof.
  unfold slice. rewrite length_app. rewrite (proj2 (Nat.leb_le _ _)) by lia. rewrite Nat.leb_refl. cbn [andb].
  rewrite drop_app_length, take_ge by lia. done.
Qed.

Lemma slice_extend {A} (l l' : list A) a b x : slice l a b = Ret x → slice (l ++ l') a b = Ret x.
Proof.
  unfold slice. destruct ((a <=? b) && (b <=? length l)) eqn:Hc; [|done].
  apply andb_true_iff in Hc as [H1%Nat.leb_le H2%Nat.leb_le]. intros [= <-].
  rewrite (proj2 (Nat.leb_le _ _)) by lia. rewrite (proj2 (Nat.leb_le _ _)) by (rewrite length_app; lia).
  cbn [andb]. f_equal. rewrite drop_app_le by lia. apply take_app_le. rewrite length_drop. lia.
Qed.

Lemma sum_take_S (succs : list (list nat)) k :
  nat_sum (length <$> take (S k) succs)
  = nat_sum (length <$> take k succs) + length (default [] (succs !! k)).
Proof.
  destruct (succs !! k) as [l|] eqn:Hk.
  - rewrite (take_S_r _ _ _ Hk), fmap_app, nat_sum_app. cbn. lia.
  - cbn. apply lookup_ge_None in Hk. rewrite !take_ge by lia. lia.
Qed.

Lemma sum_take_le (succs : list (list nat)) k :
  nat_sum (length <$> take k succs) <= nat_sum (length <$> succs).
Proof. rewrite <- (take_drop k succs) at 2. rewrite fmap_app, nat_sum_app. lia. Qed.

(** The arena after the first [k] predecessors. *)
Definition arena_prefix (successors : list (list nat)) (cache : list NodeCacheEntry) (t : Routing) (k : nat)
    (a : SuccessorArena) : Prop :=
  length (ar_ranges a) = k
  ∧ length (ar_edges a) = nat_sum (length <$> take k successors)
  ∧ ∀ p, p < k → ∃ es, edges_for a p = Ret es ∧ edges_of successors cache t p = Ret es.

Lemma arena_pred_spec n successors cache t k a :
  routing_dim n t → length cache = n → (∀ p s, s ∈ default [] (successors !! p) → s < n) →
  (Z.of_nat (nat_sum (length <$> successors)) < two32)%Z → k < n →
  arena_prefix successors cache t k a →
  ∃ a', arena_pred successors cache t a k = Ret a' ∧ arena_prefix successors cache t (S k) a'.
Proof.
  intros Hdim Hc Hs Hfit Hk (Hl & Hlen & Hes).
  destruct (edges_of_total n successors cache t k Hdim Hc Hk (Hs k)) as (es & He & Hids).
  assert (Hsucc : (match successors !! k with
            | Some succ_list =>
                foldM (λ es s, let! e := make_edge cache t k s in Ret (es ++ [e])) (ar_edges a) succ_list
            | None => Ret (ar_edges a)
            end) = Ret (ar_edges a ++ es)).
  { unfold edges_of in He. destruct (successors !! k) as [l|]; cbn [default] in He.
    - rewrite foldM_snoc. cbn [id] in He. by rewrite He.
    - injection He as <-. by rewrite app_nil_r. }
  unfold arena_pred. rewrite Hsucc. cbn [run_bind]. eexists. split; [done|].
  assert (Htot : length (ar_edges a ++ es) = nat_sum (length <$> take (S k) successors)).
  { rewrite length_app, sum_take_S, Hlen, <- Hids, length_fmap. done. }
  pose proof (sum_take_le successors (S k)) as Hle.
  split; [cbn; rewrite length_app; cbn; lia|]. split; [done|]. intros p Hp.
  unfold edges_for. cbn [ar_ranges ar_edges]. destruct (decide (p = k)) as [->|Hne].
  - exists es. rewrite lookup_app_r by lia. rewrite Hl, Nat.sub_diag. cbn [lookup list_lookup].
    rewrite !as_u32_small by (rewrite ?Htot, ?length_app in *; lia). rewrite !Nat2Z.id.
    split; [apply slice_app|done].
  - destruct (Hes p) as (es' & H1 & H2); [lia|]. exists es'. split; [|done].
    rewrite lookup_app_l by lia. unfold edges_for in H1.
    destruct (ar_ranges a !! p) as [[b e]|] eqn:Hp'; [by apply slice_extend|].
    apply lookup_ge_None in Hp'. lia.
Qed.

(** The arena is built, and has the edges made for each node. *)
Lemma arena_build_spec n successors cache t
    (Hdim : routing_dim n t) (Hc : length cache = n)
    (Hs : ∀ p s, s ∈ default [] (successors !! p) → s < n)
    (Hfit : (Z.of_nat (nat_sum (length <$> successors)) < two32)%Z) :
  ∃ a, arena_build successors n cache t = Ret a
    ∧ (∀ p, p < n → ∃ es, edges_for a p = Ret es ∧ edges_of successors cache t p = Ret es
                          ∧ se_succ_id <$> es = default [] (successors !! p))
    ∧ ∀ p, n <= p → edges_for a p = Ret [].
Proof.
  assert (Hgen : ∀ k, k <= n → ∃ a,
    foldM (arena_pred successors cache t) (mkArena [] []) (range 0 k) = Ret a
    ∧ arena_prefix successors cache t k a).
  { induction k as [|k IH]; intros Hk.
    - exists (mkArena [] []). split; [done|]. split; [done|]. split; [done|]. intros; lia.
    - destruct IH as (a & Ha & Hpre); [lia|].
      rewrite range_snoc, foldM_app, Ha by lia. cbn [run_bind foldM].
      destruct (arena_pred_spec n successors cache t k a) as (a' & -> & Hpre'); try done.
      cbn [run_bind]. by exists a'. }
  destruct (Hgen n) as (a & Ha & Hl & _ & Hes); [done|]. exists a. split; [done|]. split.
  - intros p Hp. destruct (Hes p Hp) as (es & H1 & H2). exists es. split; [done|]. split; [done|].
    destruct (edges_of_total n successors cache t p Hdim Hc Hp (Hs p)) as (es' & H3 & H4). congruence.
  - intros p Hp. unfold edges_for. by rewrite lookup_ge_None_2 by lia.
Qed.

(** The arena of a compiled graph: for every node, [edges_for] returns one edge per
    successor, in the order of the graph's successor list, each edge being the one made
    from the tables; a node id beyond the table has no edges. *)
Theorem arena_edges_for n successors cache t
    (Hdim : routing_dim n t) (Hc : length cache = n)
    (Hs : ∀ p s, s ∈ default [] (successors !! p) → s < n)
    (Hfit : (Z.of_nat (nat_sum (length <$> successors)) < two32)%Z) :
  ∃ a, arena_build successors n cache t = Ret a
    ∧ (∀ p, p < n → ∃ es, edges_for a p = Ret es ∧ edges_of successors cache t p = Ret es
                          ∧ se_succ_id <$> es = default [] (successors !! p))
    ∧ ∀ p, n <= p → edges_for a p = Ret [].
Proof. by apply arena_build_spec. Qed.

(** A cache entry with a given factor. *)
Definition demo_entry (factor : nat) : NodeCacheEntry :=
  mkCache factor [] "n" default_pointer ArgCache_default false false 0 0 None PNormal 0 true false None
    false true "" false.

(** A producer with two consumers: one reads instances 1 and 2, the other is 1:1. *)
Definition demo_routing : Routing :=
  mkRouting [[None; None; None]; [Some (1, 3)%Z; None; None]; [None; None; None]]
    (empty_table 3)
    [[None; None; None]; [None; None; None]; [Some (-1)%Z; None; None]].
Definition demo_cache : list NodeCacheEntry := [demo_entry 4; demo_entry 2; demo_entry 4].
Definition demo_edge : SuccEdge := mkEdge 2 false false 4 0 NO_FILTER NO_GROUP (-1) true.

Lemma demo_routing_dim : routing_dim 3 demo_routing.
Proof. split_and!; split; try done; repeat constructor. Qed.

Lemma edge_agrees_with_tables_witness :
  se_succ_id demo_edge = 2 ∧ succ_factor demo_edge = 4
  ∧ se_has_condition demo_edge = false ∧ se_is_fanout_bulk demo_edge = false
  ∧ ∀ i, small i →
      passes_filter demo_edge i = passes (rt_filter (route_at demo_routing 2 0)) i
      ∧ (passes_filter demo_edge i = true →
           pred_group demo_edge i = (λ gb, (i - match rt_filter (route_at demo_routing 2 0) with
                                        | Some (lo, _) => Z.to_nat lo | None => 0 end) / gb)
                            <$> rt_group_by (route_at demo_routing 2 0))
      ∧ one_to_one_succ_idx demo_edge i
        = Ret ((λ k, Z.to_nat ((Z.of_nat i - k) mod Z.of_nat 4)) <$> rt_offset (route_at demo_routing 2 0)).
Proof.
  apply (edge_agrees_with_tables 3 demo_cache demo_routing 0 2 (demo_entry 4) demo_edge).
  - apply demo_routing_dim.
  - lia.
  - lia.
  - reflexivity.
  - reflexivity.
  - split; [unfold two32; simpl; lia|]. split; [intros lo hi [=]|]. split; [intros gb [=]|].
    intros k [= <-]. simpl. lia.
Defined.

Lemma arena_edges_for_witness :
  ∃ a, arena_build [[1; 2]] 3 demo_cache demo_routing = Ret a
    ∧ (∀ p, p < 3 → ∃ es, edges_for a p = Ret es ∧ edges_of [[1; 2]] demo_cache demo_routing p = Ret es
                          ∧ se_succ_id <$> es = default [] ([[1; 2]] !! p))
    ∧ ∀ p, 3 <= p → edges_for a p = Ret [].
Proof.
  apply (arena_edges_for 3 [[1; 2]] demo_cache demo_routing).
  - apply demo_routing_dim.
  - reflexivity.
  - intros [|p] s; cbn; [|destruct p; by intros ?%not_elem_of_nil].
    rewrite !elem_of_cons, elem_of_nil. lia.
  - unfold two32. simpl. lia.
Defined.
