(* ===== verification/Successor.v ===== *)
(** Successor resolution helpers ([runtime/successor.rs]): the decrement that one
    completion causes on one edge, and the grouping of ready instances into tasks. *)
From S2P Require Import Prelude Types GraphStruct Graph Buffers NodeDep NodeCache Tables DepCounter Counting Arena.

(** ** Grouping ready instances *)

(** Cutting [total] consecutive instances from [start] into [num_chunks] pieces: the
    first [total % num_chunks] get one more than the others. *)
Definition chunk_size (total num_chunks c : nat) : nat :=
  total / num_chunks + (if c <? total mod num_chunks then 1 else 0).

Fixpoint chunk_from (mk : nat → nat → NodeInfo) (total num_chunks : nat) (offset c fuel : nat) : list NodeInfo :=
  match fuel with
  | 0 => []
  | S fuel =>
      let count := chunk_size total num_chunks c in
      mk offset count :: chunk_from mk total num_chunks (offset + count) (S c) fuel
  end.

(** The loop [for c in 0..num_chunks]. *)
Definition chunks (mk : nat → nat → NodeInfo) (start total num_chunks : nat) : list NodeInfo :=
  chunk_from mk total num_chunks start 0 num_chunks.

Definition contiguous_from (start : nat) (ready : list nat) : bool :=
  forallb (λ ir, ir.2 =? start + ir.1) (imap pair ready).

(** [push_ready_chunked]: the tasks appended to [sched]. *)
Definition push_ready_chunked (ready : list nat) (succ_id slot pred_index num_workers : nat)
    (coalesce : bool) (sched : list NodeInfo) : list NodeInfo :=
  match ready with
  | [] => sched
  | start :: _ =>
      if coalesce && contiguous_from start ready && (0 <? num_workers) && (num_workers <? length ready)
      then sched ++ chunks (λ offset count, with_bulk_count count (NodeInfo_new succ_id slot offset pred_index))
                      start (length ready) num_workers
      else sched ++ ((λ idx, NodeInfo_new succ_id slot idx pred_index) <$> ready)
  end.

(** ** One completion on one edge *)

(** [filter_overlap]; the addition saturates at [usize::MAX]. *)
Definition filter_overlap (pred_index count filter_lo filter_hi : nat) : option (nat * nat) :=
  let lo := Nat.max pred_index filter_lo in
  let hi := Nat.min (pred_index + Nat.max count 1) filter_hi in
  if lo <? hi then Some (lo, hi) else None.

Section resolve.
Context {C : Type} `{DependencyCounter C}.

(** One covered instance: the group and the 1:1 successor are those of the instance. *)
Definition decrement_one (edge : SuccEdge) (slot : nat) (slot_gen : Z) (c : C) (cell : nat)
    : run (C * list nat) :=
  let! specific := one_to_one_succ_idx edge cell in
  counter_decrease c slot (se_succ_id edge) slot_gen (pred_group edge cell) 1 specific.

(** [decrement_and_collect_ready]. *)
Definition decrement_and_collect_ready (c : C) (slot pred_index : nat) (edge : SuccEdge)
    (bulk_count : nat) (slot_gen : Z) : run (C * list nat) :=
  match filter_bounds edge with
  | None =>
      let! specific := if 1 <? bulk_count then Ret None else one_to_one_succ_idx edge pred_index in
      counter_decrease c slot (se_succ_id edge) slot_gen (pred_group edge pred_index) bulk_count specific
  | Some (filter_lo, filter_hi) =>
      match filter_overlap pred_index bulk_count filter_lo filter_hi with
      | None => Ret (c, [])
      | Some (lo, hi) =>
          if hi - lo =? 1 then decrement_one edge slot slot_gen c lo
          else foldM (λ s cell,
                 let! (c', scratch) := decrement_one edge slot slot_gen s.1 cell in
                 Ret (c', s.2 ++ scratch)) (c, []) (range lo hi)
      end
  end.

(** Decrementing for a list of instances one after the other. *)
Definition decrement_each (edge : SuccEdge) (slot : nat) (slot_gen : Z) (s : C * list nat)
    (cells : list nat) : run (C * list nat) :=
  foldM (λ s cell,
    let! (c', scratch) := decrement_one edge slot slot_gen s.1 cell in
    Ret (c', s.2 ++ scratch)) s cells.

(** A bulk completion on a filtered edge, decrement by decrement. *)
Lemma filtered_bulk_each c slot pred_index edge bulk_count slot_gen lo hi
    (Hfb : filter_bounds edge = Some (lo, hi)) :
  decrement_and_collect_ready c slot pred_index edge bulk_count slot_gen
  = decrement_each edge slot slot_gen (c, [])
      (filter (λ i, passes_filter edge i = true) (range pred_index (pred_index + Nat.max bulk_count 1))).
Proof.
  assert (Hpass : ∀ i, passes_filter edge i = true ↔ lo <= i < hi).
  { intros i. unfold filter_bounds in Hfb. unfold passes_filter.
    destruct (se_filter_end edge =? NO_FILTER)%Z eqn:He; [done|]. injection Hfb as <- <-. cbn [orb].
    rewrite andb_true_iff, Z.leb_le, Z.ltb_lt. lia. }
  assert (Hcells : filter (λ i, passes_filter edge i = true) (range pred_index (pred_index + Nat.max bulk_count 1))
                   = range (Nat.max pred_index lo) (Nat.min (pred_index + Nat.max bulk_count 1) hi)).
  { generalize (pred_index + Nat.max bulk_count 1). intros b.
    remember (b - pred_index) as n eqn:Hn. revert pred_index Hn. induction n as [|n IH]; intros a Hn.
    - rewrite (range_empty a b) by lia. rewrite range_empty by lia. done.
    - rewrite (range_cons a b), filter_cons by lia. rewrite IH by lia.
      case_decide as Ha; rewrite Hpass in Ha.
      + rewrite (range_cons (Nat.max a lo)) by lia. f_equal; [lia|]. f_equal; lia.
      + destruct (decide (a < lo)); [by replace (Nat.max (S a) lo) with (Nat.max a lo) by lia|].
        rewrite !range_empty by lia. done. }
  unfold decrement_and_collect_ready. rewrite Hfb, Hcells. unfold filter_overlap.
  set (l := Nat.max pred_index lo). set (h := Nat.min (pred_index + Nat.max bulk_count 1) hi).
  destruct (l <? h) eqn:Hlt.
  - destruct (h - l =? 1) eqn:H1; [|done]. apply Nat.eqb_eq in H1. apply Nat.ltb_lt in Hlt.
    rewrite (range_cons l h), (range_empty (S l) h) by lia. unfold decrement_each. cbn [foldM fst snd].
    destruct (decrement_one edge slot slot_gen c l) as [[c' r]|]; done.
  - apply Nat.ltb_ge in Hlt. rewrite range_empty by done. done.
Qed.
(** A completion of the instances [pred_index .. pred_index + count] on a filtered
    edge decrements for exactly those of them that pass the filter, each once, in
    order, as that many single completions would; the ready instances accumulate.
    A completion outside the filter changes nothing. *)
Theorem filtered_bulk_is_singles c slot pred_index edge bulk_count slot_gen lo hi
    (Hfb : filter_bounds edge = Some (lo, hi)) :
  decrement_and_collect_ready c slot pred_index edge bulk_count slot_gen
  = decrement_each edge slot slot_gen (c, [])
      (filter (λ i, passes_filter edge i = true) (range pred_index (pred_index + Nat.max bulk_count 1))).
Proof. by eapply filtered_bulk_each. Qed.
End resolve.

Lemma filtered_bulk_is_singles_witness :
  let edge := mkEdge 0 false false 1 1 3 NO_GROUP 0 false in
  let c := mkCounter [[NodeDependencyEntry_new 1 2 true None false]] 0 in
  decrement_and_collect_ready c 0 0 edge 4 1
  = decrement_each edge 0 1 (c, []) (filter (λ i, passes_filter edge i = true) (range 0 (0 + Nat.max 4 1))).
Proof.
  apply (filtered_bulk_is_singles (mkCounter [[NodeDependencyEntry_new 1 2 true None false]] 0) 0 0
           (mkEdge 0 false false 1 1 3 NO_GROUP 0 false) 4 1 1 3). reflexivity.
Defined.

(** ** Chunks cover exactly *)

Lemma div_mod_sum total n : n ≠ 0 → n * (total / n) + total mod n = total.
Proof. intros. symmetry. by apply Nat.div_mod. Qed.

(** The first instance of chunk [c]. *)
Definition chunk_start (start total n c : nat) : nat := start + c * (total / n) + Nat.min c (total mod n).

Lemma chunk_start_S start total n c :
  chunk_start start total n (S c) = chunk_start start total n c + chunk_size total n c.
Proof.
  unfold chunk_start, chunk_size. destruct (c <? total mod n) eqn:Hc.
  - apply Nat.ltb_lt in Hc. lia.
  - apply Nat.ltb_ge in Hc. lia.
Qed.

Lemma chunk_start_mono start total n c k : chunk_start start total n c <= chunk_start start total n (c + k).
Proof.
  induction k as [|k IH]; [by rewrite Nat.add_0_r|]. rewrite Nat.add_succ_r, chunk_start_S. lia.
Qed.

Lemma chunk_from_covers mk start total n c fuel :
  (∀ o k, covered (mk o k) = range o (o + k)) →
  chunk_from mk total n (chunk_start start total n c) c fuel ≫= covered
  = range (chunk_start start total n c) (chunk_start start total n (c + fuel)).
Proof.
  intros Hmk. revert c. induction fuel as [|fuel IH]; intros c; cbn [chunk_from].
  - rewrite Nat.add_0_r. by rewrite range_empty by lia.
  - rewrite bind_cons, Hmk, <- chunk_start_S, IH.
    replace (c + S fuel) with (S c + fuel) by lia.
    symmetry. apply range_app; [|apply chunk_start_mono]. rewrite <- Nat.add_1_r. apply chunk_start_mono.
Qed.

Lemma chunks_cover mk start total n : n ≠ 0 →
  (∀ o k, covered (mk o k) = range o (o + k)) →
  chunks mk start total n ≫= covered = range start (start + total).
Proof.
  intros Hn Hmk. unfold chunks.
  pose proof (chunk_from_covers mk start total n 0 n Hmk) as Hc.
  assert (H0 : chunk_start start total n 0 = start) by (unfold chunk_start; lia).
  assert (H1 : chunk_start start total n (0 + n) = start + total).
  { unfold chunk_start. cbn [Nat.add]. pose proof (div_mod_sum total n Hn).
    pose proof (Nat.mod_upper_bound total n Hn). lia. }
  by rewrite H0, H1 in Hc.
Qed.

Lemma length_chunk_from mk total n o c fuel : length (chunk_from mk total n o c fuel) = fuel.
Proof. revert o c. induction fuel as [|fuel IH]; intros o c; cbn; [done|by rewrite IH]. Qed.

Lemma chunk_from_elem (P : NodeInfo → Prop) mk total n o c fuel :
  (∀ o k, total / n <= k <= S (total / n) → P (mk o k)) → Forall P (chunk_from mk total n o c fuel).
Proof.
  intros HP. revert o c. induction fuel as [|fuel IH]; intros o c; cbn [chunk_from]; constructor; [|apply IH].
  apply HP. unfold chunk_size. destruct (_ <? _); lia.
Qed.

Lemma contiguous_from_range start ready :
  contiguous_from start ready = true → ready = range start (start + length ready).
Proof.
  unfold contiguous_from. intros Hc.
  assert (Hgen : ∀ k l, forallb (λ ir : nat * nat, ir.2 =? start + ir.1) (imap (λ i, pair (k + i)) l) = true →
    l = range (start + k) (start + k + length l)).
  { clear. intros k l. revert k. induction l as [|x l IH]; intros k; [by rewrite range_empty by (cbn; lia)|].
    rewrite imap_pair_cons. cbn [forallb fst snd length]. rewrite andb_true_iff. intros [->%Nat.eqb_eq Hl].
    rewrite range_cons by lia. f_equal. rewrite (IH (S k)) at 1 by done. f_equal; lia. }
  rewrite (Hgen 0 ready Hc) at 1. by rewrite Nat.add_0_r.
Qed.

(** The tasks that [push_ready_chunked] appends. *)
Section pushed.
Context (succ_id slot pred_index num_workers : nat) (coalesce : bool).
Let pushed ready := push_ready_chunked ready succ_id slot pred_index num_workers coalesce.

Lemma push_ready_app ready sched : pushed ready sched = sched ++ pushed ready [].
Proof. unfold pushed, push_ready_chunked. destruct ready; [by rewrite app_nil_r|]. by destruct (_ && _). Qed.

Lemma push_ready_cases ready :
  (ready = range (nth 0 ready 0) (nth 0 ready 0 + length ready) ∧ 0 < num_workers < length ready
   ∧ pushed ready [] = chunks (λ offset count, with_bulk_count count (NodeInfo_new succ_id slot offset pred_index))
                         (nth 0 ready 0) (length ready) num_workers)
  ∨ pushed ready [] = (λ idx, NodeInfo_new succ_id slot idx pred_index) <$> ready.
Proof.
  unfold pushed, push_ready_chunked. destruct ready as [|start ready']; [by right|].
  destruct (_ && _) eqn:Hc; [left|by right]. rewrite !andb_true_iff in Hc.
  destruct Hc as [[[_ Hcont] Hw%Nat.ltb_lt] Hlen%Nat.ltb_lt]. by split; [apply contiguous_from_range|].
Qed.

Lemma push_ready_covered ready : pushed ready [] ≫= covered = ready.
Proof.
  destruct (push_ready_cases ready) as [(Hr & Hw & ->)| ->].
  - rewrite chunks_cover; [by symmetry|lia|done].
  - clear. induction ready as [|x l IH]; [done|]. rewrite fmap_cons, bind_cons, IH.
    unfold covered, NodeInfo_new. cbn [ni_index ni_bulk_count]. by rewrite Nat.add_1_r, range_cons, range_empty by lia.
Qed.

Lemma push_ready_tasks ready : Forall (λ ni, ni_id ni = succ_id ∧ ni_slot ni = slot ∧ ni_pred_index ni = pred_index
  ∧ 0 < ni_bulk_count ni) (pushed ready []).
Proof.
  destruct (push_ready_cases ready) as [(_ & Hw & ->)| ->].
  - assert (Hdiv : 1 <= length ready / num_workers) by (apply Nat.div_le_lower_bound; lia).
    apply chunk_from_elem. intros o k Hk. cbn. lia.
  - apply Forall_fmap, Forall_true. intros x. cbn. lia.
Qed.
End pushed.

(** The tasks created for a set of ready instances cover exactly those instances, in
    order and each once, whatever the number of workers; all carry the successor, the
    slot and the triggering index, and cover at least one instance. When instances are
    coalesced there is one task per worker, and task sizes differ by at most one. *)
Theorem ready_tasks_cover ready succ_id slot pred_index num_workers coalesce sched :
  ∃ tasks, push_ready_chunked ready succ_id slot pred_index num_workers coalesce sched = sched ++ tasks
  ∧ tasks ≫= covered = ready
  ∧ Forall (λ ni, ni_id ni = succ_id ∧ ni_slot ni = slot ∧ ni_pred_index ni = pred_index
                  ∧ 0 < ni_bulk_count ni) tasks
  ∧ (length tasks = length ready ∨
     length tasks = num_workers
     ∧ ∀ a b, a ∈ tasks → b ∈ tasks → ni_bulk_count a <= S (ni_bulk_count b)).
Proof.
  exists (push_ready_chunked ready succ_id slot pred_index num_workers coalesce []).
  split; [apply push_ready_app|]. split; [apply push_ready_covered|]. split; [apply push_ready_tasks|].
  destruct (push_ready_cases succ_id slot pred_index num_workers coalesce ready) as [(_ & Hw & ->)| ->];
    [right|left; by rewrite length_fmap].
  split; [apply length_chunk_from|].
  assert (Hf : Forall (λ ni, length ready / num_workers <= ni_bulk_count ni <= S (length ready / num_workers))
                 (chunks (λ offset count, with_bulk_count count (NodeInfo_new succ_id slot offset pred_index))
                    (nth 0 ready 0) (length ready) num_workers)) by (by apply chunk_from_elem).
  rewrite Forall_forall in Hf. intros a b Ha Hb. specialize (Hf a Ha) as Ha'. specialize (Hf b Hb). lia.
Qed.
