(* ===== verification/ResultMap.v ===== *)
(** The result store ([buffers/result_map.rs]): one cell per slot, node and instance,
    holding a primitive inline or a boxed value. A box is the value it holds; freeing it
    is not modelled. *)
From S2P Require Import Prelude Types GraphStruct Buffers.
From stdpp Require Import strings.

Definition TAG_BOXED : Z := 255.

(** ** Inline encoding *)

(** [encode_inline]: casts of signed values to [u64] extend the sign. *)
Definition encode_inline (v : CmTypes) : option (Z * Z) :=
  match v with
  | CmF64 b => Some (1, b)%Z
  | CmF32 b => Some (2, b)%Z
  | CmI64 z => Some (3%Z, as_u64 z)
  | CmU64 z => Some (4, z)%Z
  | CmI32 z => Some (5%Z, as_u64 z)
  | CmU32 z => Some (6, z)%Z
  | CmI16 z => Some (7%Z, as_u64 z)
  | CmU16 z => Some (8, z)%Z
  | CmI8 z => Some (9%Z, as_u64 z)
  | CmU8 z => Some (10, z)%Z
  | CmBool b => Some (11%Z, if b then 1%Z else 0%Z)
  | CmUsize n => Some (12%Z, Z.of_nat n)
  | CmIsize z => Some (13%Z, as_u64 z)
  | CmChar c => Some (14, c)%Z
  | _ => None
  end.

(** [x as iN] of the low [n] bits, [x as uN]. *)
Definition as_signed (n z : Z) : Z :=
  let w := (z mod 2 ^ n)%Z in if decide (w < 2 ^ (n - 1))%Z then w else (w - 2 ^ n)%Z.
Definition as_unsigned (n z : Z) : Z := (z mod 2 ^ n)%Z.

(** A Unicode scalar value: what [char::from_u32] accepts. *)
Definition is_char (c : Z) : bool :=
  (0 <=? c)%Z && (c <? 1114112)%Z && negb ((55296 <=? c)%Z && (c <? 57344)%Z).

(** [decode_inline]: an invalid tag is [unreachable!]. *)
Definition decode_inline (tag val : Z) : run CmTypes :=
  match tag with
  | 1%Z => Ret (CmF64 val)
  | 2%Z => Ret (CmF32 (as_unsigned 32 val))
  | 3%Z => Ret (CmI64 (as_signed 64 val))
  | 4%Z => Ret (CmU64 val)
  | 5%Z => Ret (CmI32 (as_signed 32 val))
  | 6%Z => Ret (CmU32 (as_unsigned 32 val))
  | 7%Z => Ret (CmI16 (as_signed 16 val))
  | 8%Z => Ret (CmU16 (as_unsigned 16 val))
  | 9%Z => Ret (CmI8 (as_signed 8 val))
  | 10%Z => Ret (CmU8 (as_unsigned 8 val))
  | 11%Z => Ret (CmBool (negb (val =? 0)%Z))
  | 12%Z => Ret (CmUsize (Z.to_nat val))
  | 13%Z => Ret (CmIsize (as_signed 64 val))
  | 14%Z => Ret (CmChar (if is_char (as_unsigned 32 val) then as_unsigned 32 val else 0))
  | _ => Panic
  end.

(** ** The map *)

Record LockFreeResultMap := mkResultMap {
  rm_buffer : list (option CmTypes);
  rm_inline_val : list Z;
  rm_inline_tag : list Z;
  rm_per_slot_size : nat;
  rm_node_offsets : list nat;
  rm_node_factors : list nat;
  rm_nodes_len : nat;
  rm_slots : nat;
}.

(** The running sums of the factors: where each node's cells start. *)
Fixpoint offsets_from (off : nat) (factors : list nat) : list nat :=
  match factors with [] => [] | f :: fs => off :: offsets_from (off + f) fs end.

Definition ResultMap_new (nodes : list Node) (slots : nat) : LockFreeResultMap :=
  let factors := n_factor <$> nodes in
  let per_slot := nat_sum factors in
  mkResultMap (replicate (slots * per_slot) None) (replicate (slots * per_slot) 0%Z)
    (replicate (slots * per_slot) 0%Z) per_slot (offsets_from 0 factors) factors (length nodes) slots.

Definition set_cells (b : list (option CmTypes)) (v t : list Z) (m : LockFreeResultMap) : LockFreeResultMap :=
  mkResultMap b v t (rm_per_slot_size m) (rm_node_offsets m) (rm_node_factors m) (rm_nodes_len m) (rm_slots m).

Definition flat_index (m : LockFreeResultMap) (ni : NodeInfo) : run nat :=
  let! off := vec_get (rm_node_offsets m) (ni_id ni) in
  Ret (ni_slot ni * rm_per_slot_size m + off + ni_index ni).

(** The atomic stores of [set] on cell [idx], in program order. *)
Definition set_stores (idx : nat) (v : CmTypes) : list (LockFreeResultMap → run LockFreeResultMap) :=
  match encode_inline v with
  | Some (tag, val) =>
      [ (λ m, let! vs := vec_set (rm_inline_val m) idx val in
              Ret (set_cells (rm_buffer m) vs (rm_inline_tag m) m));
        (λ m, let! ts := vec_set (rm_inline_tag m) idx tag in
              Ret (set_cells (rm_buffer m) (rm_inline_val m) ts m)) ]
  | None =>
      [ (λ m, let! bs := vec_set (rm_buffer m) idx (Some v) in
              Ret (set_cells bs (rm_inline_val m) (rm_inline_tag m) m));
        (λ m, let! ts := vec_set (rm_inline_tag m) idx TAG_BOXED in
              Ret (set_cells (rm_buffer m) (rm_inline_val m) ts m)) ]
  end.

Definition run_stores (stores : list (LockFreeResultMap → run LockFreeResultMap)) (m : LockFreeResultMap)
    : run LockFreeResultMap := foldM (λ m st, st m) m stores.

(** [set]: a bad slot, node or instance panics. *)
Definition rm_set (m : LockFreeResultMap) (ni : NodeInfo) (v : CmTypes) : run LockFreeResultMap :=
  if (rm_slots m <=? ni_slot ni) || (rm_nodes_len m <=? ni_id ni) then Panic
  else
    let! f := vec_get (rm_node_factors m) (ni_id ni) in
    if f <=? ni_index ni then Panic
    else
      let! idx := flat_index m ni in
      run_stores (set_stores idx v) m.

(** [get]. *)
Definition rm_get (m : LockFreeResultMap) (ni : NodeInfo) : run (option CmTypes) :=
  if (rm_slots m <=? ni_slot ni) || (rm_nodes_len m <=? ni_id ni) then Ret None
  else
    let! f := vec_get (rm_node_factors m) (ni_id ni) in
    if f <=? ni_index ni then Ret None
    else
      let! idx := flat_index m ni in
      let! tag := vec_get (rm_inline_tag m) idx in
      if (tag =? 0)%Z then Ret None
      else if (tag =? TAG_BOXED)%Z then vec_get (rm_buffer m) idx
      else
        let! val := vec_get (rm_inline_val m) idx in
        run_map Some (decode_inline tag val).

(** [result_exists]. *)
Definition result_exists (m : LockFreeResultMap) (ni : NodeInfo) : run bool :=
  if (rm_slots m <=? ni_slot ni) || (rm_nodes_len m <=? ni_id ni) then Ret false
  else
    let! f := vec_get (rm_node_factors m) (ni_id ni) in
    if f <=? ni_index ni then Ret false
    else
      let! idx := flat_index m ni in
      let! tag := vec_get (rm_inline_tag m) idx in
      Ret (negb (tag =? 0)%Z).

(** One iteration of the loop of [reinit_slot]: the inline bits stay. *)
Definition reinit_cell (m : LockFreeResultMap) (idx : nat) : run LockFreeResultMap :=
  let! old_tag := vec_get (rm_inline_tag m) idx in
  let! ts := vec_set (rm_inline_tag m) idx 0%Z in
  if (old_tag =? TAG_BOXED)%Z then
    let! bs := vec_set (rm_buffer m) idx None in
    Ret (set_cells bs (rm_inline_val m) ts m)
  else Ret (set_cells (rm_buffer m) (rm_inline_val m) ts m).

(** [reinit_slot]. *)
Definition reinit_slot (m : LockFreeResultMap) (slot : nat) : run LockFreeResultMap :=
  if rm_slots m <=? slot then Panic
  else
    let start := slot * rm_per_slot_size m in
    foldM reinit_cell m (range start (start + rm_per_slot_size m)).

(** ** Encoding round trip *)

(** The values the inline path stores: in the range of their type, and characters that
    are scalar values. *)
Definition value_ok (v : CmTypes) : Prop :=
  cm_wf v ∧ match v with CmChar c => is_char c = true | _ => True end.

Lemma as_signed_u64 n z : (0 < n ≤ 64)%Z → (- 2 ^ (n - 1) ≤ z < 2 ^ (n - 1))%Z → as_signed n (as_u64 z) = z.
Proof.
  intros Hn Hz. unfold as_signed, as_u64. change two64 with (2 ^ 64)%Z.
  assert (H2 : (2 ^ n = 2 * 2 ^ (n - 1))%Z).
  { rewrite <- Z.pow_succ_r by lia. f_equal. lia. }
  assert (Hmm : ((z mod 2 ^ 64) mod 2 ^ n = z mod 2 ^ n)%Z).
  { replace 64%Z with (n + (64 - n))%Z at 1 by lia. rewrite Z.pow_add_r by lia.
    rewrite Z.rem_mul_r by (try apply Z.pow_nonzero; lia).
    rewrite Z.mul_comm, Z.mod_add by (apply Z.pow_nonzero; lia). by apply Z.mod_mod, Z.pow_nonzero; lia. }
  rewrite Hmm. destruct (decide (0 <= z)%Z).
  - rewrite Z.mod_small by lia. by rewrite decide_True by lia.
  - rewrite <- (Z.mod_unique z (2 ^ n) (-1) (z + 2 ^ n)) by lia. rewrite decide_False by lia. lia.
Qed.

Lemma as_unsigned_small n z : (0 ≤ z < 2 ^ n)%Z → as_unsigned n z = z.
Proof. intros. unfold as_unsigned. by apply Z.mod_small. Qed.

Lemma encode_decode v tag val :
  value_ok v → encode_inline v = Some (tag, val) →
  decode_inline tag val = Ret v ∧ (1 ≤ tag ≤ 14)%Z.
Proof.
  intros [Hwf Hch] He. destruct v; try discriminate He; injection He as <- <-;
    cbn [cm_wf decode_inline] in *; (split; [|lia]); f_equal; f_equal;
    first [ by apply as_unsigned_small | apply as_signed_u64; simpl; lia
          | by destruct b | by rewrite Nat2Z.id | idtac ].
  unfold is_char in Hch. rewrite !andb_true_iff, negb_true_iff, Z.leb_le, Z.ltb_lt in Hch.
  rewrite as_unsigned_small by lia. unfold is_char.
  destruct Hch as [[? ?] ->]. rewrite (proj2 (Z.leb_le _ _)), (proj2 (Z.ltb_lt _ _)) by lia. done.
Qed.

(** ** Well-formed maps *)

Record rm_wf (m : LockFreeResultMap) : Prop := {
  rw_buffer : length (rm_buffer m) = rm_slots m * rm_per_slot_size m;
  rw_val : length (rm_inline_val m) = rm_slots m * rm_per_slot_size m;
  rw_tag : length (rm_inline_tag m) = rm_slots m * rm_per_slot_size m;
  rw_size : rm_per_slot_size m = nat_sum (rm_node_factors m);
  rw_offsets : rm_node_offsets m = offsets_from 0 (rm_node_factors m);
  rw_nodes : rm_nodes_len m = length (rm_node_factors m);
  rw_cells : ∀ idx tag, rm_inline_tag m !! idx = Some tag →
               tag = 0%Z ∨ tag = TAG_BOXED
               ∨ ∃ v val, rm_inline_val m !! idx = Some val ∧ decode_inline tag val = Ret v;
}.

(** The cell is one of the map's. *)
Definition in_map (m : LockFreeResultMap) (ni : NodeInfo) : Prop :=
  ni_slot ni < rm_slots m ∧ ∃ f, rm_node_factors m !! ni_id ni = Some f ∧ ni_index ni < f.

Definition same_cell (a b : NodeInfo) : Prop :=
  ni_slot a = ni_slot b ∧ ni_id a = ni_id b ∧ ni_index a = ni_index b.

#[export] Instance same_cell_dec a b : Decision (same_cell a b).
Proof. unfold same_cell. apply _. Defined.

#[export] Instance in_map_dec m ni : Decision (in_map m ni).
Proof.
  refine (match rm_node_factors m !! ni_id ni as o
          return rm_node_factors m !! ni_id ni = o → Decision (in_map m ni) with
          | Some f => λ Hf, match decide (ni_slot ni < rm_slots m ∧ ni_index ni < f) with
                            | left Hl => left _ | right Hr => right _ end
          | None => λ Hf, right _
          end eq_refl).
  - destruct Hl. split; [done|]. by exists f.
  - intros (? & f' & Hf' & ?). rewrite Hf in Hf'. injection Hf' as <-. by apply Hr.
  - intros (? & f' & Hf' & ?). congruence.
Defined.

(** The position of a cell. *)
Definition cell_of (m : LockFreeResultMap) (ni : NodeInfo) : nat :=
  ni_slot ni * rm_per_slot_size m + nat_sum (take (ni_id ni) (rm_node_factors m)) + ni_index ni.

Lemma offsets_from_lookup off factors i : i < length factors →
  offsets_from off factors !! i = Some (off + nat_sum (take i factors)).
Proof.
  revert off i. induction factors as [|f fs IH]; intros off i Hi; cbn in Hi; [lia|].
  destruct i as [|i]; cbn; [by rewrite Nat.add_0_r|]. rewrite IH by lia. f_equal. unfold nat_sum. lia.
Qed.

Lemma nat_sum_take_S l i f : l !! i = Some f → nat_sum (take (S i) l) = nat_sum (take i l) + f.
Proof. intros Hi. rewrite (take_S_r _ _ _ Hi), nat_sum_app. cbn. lia. Qed.

Lemma nat_sum_take_mono l i j : i <= j → nat_sum (take i l) <= nat_sum (take j l).
Proof.
  intros Hij. rewrite <- (take_drop i (take j l)), nat_sum_app, take_take.
  replace (i `min` j) with i by lia. lia.
Qed.

Lemma nat_sum_take_all l i : nat_sum (take i l) <= nat_sum l.
Proof.
  destruct (decide (i <= length l)).
  - rewrite <- (take_ge l (length l)) at 2 by lia. by apply nat_sum_take_mono.
  - by rewrite take_ge by lia.
Qed.

Lemma flat_index_ok m ni : rm_wf m → in_map m ni → flat_index m ni = Ret (cell_of m ni).
Proof.
  intros [] (Hs & f & Hf & Hi). unfold flat_index, cell_of. rewrite rw_offsets0.
  rewrite (vec_get_lookup _ _ (0 + nat_sum (take (ni_id ni) (rm_node_factors m)))); [done|].
  apply offsets_from_lookup. by eapply lookup_lt_Some.
Qed.

(** A node's cells lie within its slot. *)
Lemma cell_in_slot m ni : rm_wf m → in_map m ni →
  ni_slot ni * rm_per_slot_size m <= cell_of m ni < S (ni_slot ni) * rm_per_slot_size m.
Proof.
  intros [] (Hs & f & Hf & Hi). unfold cell_of.
  pose proof (nat_sum_take_S _ _ _ Hf). pose proof (nat_sum_take_all (rm_node_factors m) (S (ni_id ni))).
  rewrite <- rw_size0 in *. lia.
Qed.

Lemma cell_bound m ni : rm_wf m → in_map m ni → cell_of m ni < rm_slots m * rm_per_slot_size m.
Proof.
  intros Hwf Hin. pose proof (cell_in_slot m ni Hwf Hin) as [_ Hc]. destruct Hin as [Hs _].
  pose proof (Nat.mul_le_mono_r (S (ni_slot ni)) (rm_slots m) (rm_per_slot_size m) Hs). lia.
Qed.

(** Different cells have different positions. *)
Lemma cell_inj m a b : rm_wf m → in_map m a → in_map m b → cell_of m a = cell_of m b → same_cell a b.
Proof.
  intros Hwf Ha Hb Heq.
  pose proof (cell_in_slot m a Hwf Ha) as Ha'. pose proof (cell_in_slot m b Hwf Hb) as Hb'.
  assert (Hslot : ni_slot a = ni_slot b).
  { destruct (Nat.lt_trichotomy (ni_slot a) (ni_slot b)) as [Hl|[He|Hl]]; [|done|].
    - pose proof (Nat.mul_le_mono_r (S (ni_slot a)) (ni_slot b) (rm_per_slot_size m) Hl). lia.
    - pose proof (Nat.mul_le_mono_r (S (ni_slot b)) (ni_slot a) (rm_per_slot_size m) Hl). lia. }
  destruct Ha as (_ & fa & Hfa & Hia), Hb as (_ & fb & Hfb & Hib). unfold cell_of in Heq. rewrite Hslot in Heq.
  pose proof (nat_sum_take_S _ _ _ Hfa) as Sa. pose proof (nat_sum_take_S _ _ _ Hfb) as Sb.
  assert (Hid : ni_id a = ni_id b).
  { destruct (Nat.lt_trichotomy (ni_id a) (ni_id b)) as [Hl|[He|Hl]]; [|done|].
    - pose proof (nat_sum_take_mono (rm_node_factors m) _ _ Hl). lia.
    - pose proof (nat_sum_take_mono (rm_node_factors m) _ _ Hl). lia. }
  split; [done|]. split; [done|]. rewrite Hid in Heq. lia.
Qed.

(** ** Reading and writing cells *)

Definition same_layout (m m' : LockFreeResultMap) : Prop :=
  rm_per_slot_size m' = rm_per_slot_size m ∧ rm_node_offsets m' = rm_node_offsets m
  ∧ rm_node_factors m' = rm_node_factors m ∧ rm_nodes_len m' = rm_nodes_len m ∧ rm_slots m' = rm_slots m.

(** What a cell holds. *)
Definition cell_value (m : LockFreeResultMap) (idx : nat) : option CmTypes :=
  match rm_inline_tag m !! idx with
  | None => None
  | Some tag =>
      if (tag =? 0)%Z then None
      else if (tag =? TAG_BOXED)%Z then default None (rm_buffer m !! idx)
      else match rm_inline_val m !! idx with
           | Some val => match decode_inline tag val with Ret v => Some v | Panic => None end
           | None => None
           end
  end.

Lemma in_map_layout m m' ni : same_layout m m' → in_map m' ni ↔ in_map m ni.
Proof. intros (_ & _ & Hf & _ & Hs). unfold in_map. by rewrite Hf, Hs. Qed.

Lemma cell_of_layout m m' ni : same_layout m m' → cell_of m' ni = cell_of m ni.
Proof. intros (Hp & _ & Hf & _). unfold cell_of. by rewrite Hp, Hf. Qed.

(** Whether the bounds checks at the head of every operation pass. *)
Lemma bounds_in m ni : rm_wf m → in_map m ni →
  (rm_slots m <=? ni_slot ni) || (rm_nodes_len m <=? ni_id ni) = false
  ∧ ∃ f, vec_get (rm_node_factors m) (ni_id ni) = Ret f ∧ (f <=? ni_index ni) = false.
Proof.
  intros [] (Hs & f & Hf & Hi). pose proof (lookup_lt_Some _ _ _ Hf).
  split; [apply orb_false_iff; split; apply Nat.leb_gt; lia|].
  exists f. split; [by apply vec_get_lookup|]. apply Nat.leb_gt. lia.
Qed.

Lemma bounds_out m ni : rm_wf m → ¬ in_map m ni →
  (rm_slots m <=? ni_slot ni) || (rm_nodes_len m <=? ni_id ni) = true
  ∨ (rm_slots m <=? ni_slot ni) || (rm_nodes_len m <=? ni_id ni) = false
    ∧ ∃ f, vec_get (rm_node_factors m) (ni_id ni) = Ret f ∧ (f <=? ni_index ni) = true.
Proof.
  intros [] Hn. destruct (_ || _) eqn:Hc; [by left|right]. split; [done|].
  apply orb_false_iff in Hc as [H1%Nat.leb_gt H2%Nat.leb_gt].
  destruct (vec_get_lt (rm_node_factors m) (ni_id ni)) as (f & Hg & Hf); [lia|].
  exists f. split; [done|]. apply Nat.leb_le. destruct (decide (f <= ni_index ni)); [done|].
  exfalso. apply Hn. split; [done|]. exists f. split; [done|lia].
Qed.

Lemma rm_get_cell m ni : rm_wf m →
  rm_get m ni = Ret (if decide (in_map m ni) then cell_value m (cell_of m ni) else None).
Proof.
  intros Hwf. unfold rm_get. case_decide as Hin.
  - destruct (bounds_in m ni Hwf Hin) as (-> & f & -> & Hf). cbn [run_bind]. rewrite Hf.
    rewrite (flat_index_ok m ni Hwf Hin). cbn [run_bind].
    pose proof (cell_bound m ni Hwf Hin) as Hb. pose proof Hwf as [].
    destruct (vec_get_lt (rm_inline_tag m) (cell_of m ni)) as (tag & -> & Htag); [lia|]. cbn [run_bind].
    unfold cell_value. rewrite Htag.
    destruct (tag =? 0)%Z eqn:H0; [done|]. destruct (tag =? TAG_BOXED)%Z eqn:H1.
    + destruct (vec_get_lt (rm_buffer m) (cell_of m ni)) as (o & -> & ->); [lia|]. done.
    + apply Z.eqb_neq in H0, H1. destruct (rw_cells0 _ _ Htag) as [?|[?|(v & val & Hv & Hd)]]; [done|done|].
      rewrite (vec_get_lookup _ _ _ Hv), Hv. cbn [run_bind]. by rewrite Hd.
  - destruct (bounds_out m ni Hwf Hin) as [->|(-> & f & -> & Hf)]; [done|]. cbn [run_bind]. by rewrite Hf.
Qed.

(** The two stores of [set], one after the other, and what a reader sees after each. *)
Lemma set_stores_spec m ni v : rm_wf m → in_map m ni → value_ok v →
  ∃ st1 st2 m1 m2, set_stores (cell_of m ni) v = [st1; st2] ∧ st1 m = Ret m1 ∧ st2 m1 = Ret m2
    ∧ rm_wf m2 ∧ same_layout m m1 ∧ same_layout m m2
    ∧ rm_inline_tag m1 = rm_inline_tag m
    ∧ cell_value m2 (cell_of m ni) = Some v
    ∧ ∀ idx, idx ≠ cell_of m ni → cell_value m2 idx = cell_value m idx ∧ cell_value m1 idx = cell_value m idx.
Proof.
  intros Hwf Hin Hv. pose proof (cell_bound m ni Hwf Hin) as Hb. pose proof Hwf as [].
  unfold set_stores. destruct (encode_inline v) as [[tag val]|] eqn:He.
  - destruct (encode_decode v tag val Hv He) as [Hdec Htag].
    eexists _, _, _, _. split; [done|].
    cbv beta. rewrite vec_set_lt by lia. cbn [run_bind]. split; [done|].
    cbv beta. cbn [rm_inline_tag set_cells]. rewrite vec_set_lt by lia. cbn [run_bind]. split; [done|].
    split; [|split; [|split; [|split; [|split]]]]; try done.
    + constructor; cbn; rewrite ?length_insert; try done. intros idx t. rewrite list_lookup_insert.
      destruct (decide (cell_of m ni = idx)) as [<-|Hne].
      * rewrite decide_True by lia. intros [= <-]. right. right. exists v, val.
        split; [|done]. apply list_lookup_insert_eq. lia.
      * rewrite decide_False by tauto. rewrite (list_lookup_insert_ne (rm_inline_val m)) by done. apply rw_cells0.
    + unfold cell_value. cbn. rewrite !list_lookup_insert_eq by lia.
      rewrite (proj2 (Z.eqb_neq tag 0)) by lia. unfold TAG_BOXED. rewrite (proj2 (Z.eqb_neq tag 255)) by lia.
      by rewrite Hdec.
    + intros idx Hne. unfold cell_value. cbn. rewrite !list_lookup_insert_ne by done. done.
  - eexists _, _, _, _. split; [done|].
    cbv beta. rewrite vec_set_lt by lia. cbn [run_bind]. split; [done|].
    cbv beta. cbn [rm_inline_tag set_cells]. rewrite vec_set_lt by lia. cbn [run_bind]. split; [done|].
    split; [|split; [|split; [|split; [|split]]]]; try done.
    + constructor; cbn; rewrite ?length_insert; try done. intros idx t. rewrite list_lookup_insert.
      destruct (decide (cell_of m ni = idx)) as [<-|Hne].
      * rewrite decide_True by lia. intros [= <-]. by right; left.
      * rewrite decide_False by tauto. apply rw_cells0.
    + unfold cell_value. cbn. rewrite !list_lookup_insert_eq by lia. done.
    + intros idx Hne. unfold cell_value. cbn. rewrite !list_lookup_insert_ne by done. done.
Qed.

Lemma rm_set_spec m ni v : rm_wf m → in_map m ni → value_ok v →
  ∃ m', rm_set m ni v = Ret m' ∧ rm_wf m' ∧ same_layout m m'
    ∧ ∀ ni', rm_get m' ni' = if decide (same_cell ni' ni) then Ret (Some v) else rm_get m ni'.
Proof.
  intros Hwf Hin Hv.
  destruct (set_stores_spec m ni v Hwf Hin Hv) as (st1 & st2 & m1 & m2 & Hst & H1 & H2 & Hwf2 & _ & Hl & _ & Hc & Ho).
  exists m2. split; [|split; [done|split; [done|]]].
  - unfold rm_set. destruct (bounds_in m ni Hwf Hin) as (-> & f & -> & Hf). cbn [run_bind]. rewrite Hf.
    rewrite (flat_index_ok m ni Hwf Hin). cbn [run_bind]. unfold run_stores. rewrite Hst. cbn [foldM].
    rewrite H1. cbn [run_bind]. by rewrite H2.
  - intros ni'. rewrite !rm_get_cell by done. rewrite (cell_of_layout m m2) by done.
    destruct (decide (in_map m2 ni')) as [Hi|Hi]; rewrite in_map_layout in Hi by done.
    + rewrite (decide_True (P := in_map m ni')) by done. case_decide as Hsame.
      * assert (Heq : cell_of m ni' = cell_of m ni).
        { destruct Hsame as (E1 & E2 & E3). unfold cell_of. by rewrite E1, E2, E3. }
        by rewrite Heq, Hc.
      * destruct (Ho (cell_of m ni')) as [-> _]; [|done].
        intros Heq. apply Hsame. by apply (cell_inj m).
    + rewrite (decide_False (P := in_map m ni')) by done. rewrite decide_False; [done|].
      intros (E1 & E2 & E3). apply Hi. unfold in_map. rewrite E1, E2, E3. done.
Qed.

(** ** Clearing a slot *)

Lemma reinit_cell_spec m idx : rm_wf m → idx < rm_slots m * rm_per_slot_size m →
  ∃ m', reinit_cell m idx = Ret m' ∧ rm_wf m' ∧ same_layout m m'
    ∧ cell_value m' idx = None ∧ ∀ i, i ≠ idx → cell_value m' i = cell_value m i.
Proof.
  intros Hwf Hi. pose proof Hwf as []. unfold reinit_cell.
  destruct (vec_get_lt (rm_inline_tag m) idx) as (t & -> & Ht); [lia|]. cbn [run_bind].
  rewrite vec_set_lt by lia. cbn [run_bind].
  assert (Hcells : ∀ bs i tag, (<[idx:=0%Z]> (rm_inline_tag m)) !! i = Some tag →
    tag = 0%Z ∨ tag = TAG_BOXED ∨ ∃ v val, rm_inline_val (set_cells bs (rm_inline_val m) (<[idx:=0%Z]> (rm_inline_tag m)) m) !! i = Some val ∧ decode_inline tag val = Ret v).
  { intros bs i tag. rewrite list_lookup_insert. destruct (decide (idx = i)) as [<-|Hne].
    - rewrite decide_True by lia. intros [= <-]. by left.
    - rewrite decide_False by tauto. apply rw_cells0. }
  destruct (t =? TAG_BOXED)%Z.
  - rewrite vec_set_lt by lia. cbn [run_bind]. eexists. split; [done|].
    split; [|split; [done|split]].
    + constructor; cbn; rewrite ?length_insert; try done. by apply (Hcells (<[idx:=None]> (rm_buffer m))).
    + unfold cell_value. cbn. by rewrite list_lookup_insert_eq by lia.
    + intros i Hne. unfold cell_value. cbn. by rewrite !list_lookup_insert_ne by done.
  - eexists. split; [done|]. split; [|split; [done|split]].
    + constructor; cbn; rewrite ?length_insert; try done. by apply (Hcells (rm_buffer m)).
    + unfold cell_value. cbn. by rewrite list_lookup_insert_eq by lia.
    + intros i Hne. unfold cell_value. cbn. by rewrite !list_lookup_insert_ne by done.
Qed.

Lemma same_layout_trans a b c : same_layout a b → same_layout b c → same_layout a c.
Proof. unfold same_layout. intuition congruence. Qed.

Lemma reinit_cells_spec m cells : rm_wf m → (∀ i, i ∈ cells → i < rm_slots m * rm_per_slot_size m) →
  ∃ m', foldM reinit_cell m cells = Ret m' ∧ rm_wf m' ∧ same_layout m m'
    ∧ (∀ i, i ∈ cells → cell_value m' i = None) ∧ ∀ i, i ∉ cells → cell_value m' i = cell_value m i.
Proof.
  revert m. induction cells as [|c cells IH]; intros m Hwf Hc; cbn [foldM].
  - exists m. split; [done|]. split; [done|]. split; [done|]. split; [by intros ? ?%not_elem_of_nil|done].
  - destruct (reinit_cell_spec m c Hwf) as (m1 & -> & Hwf1 & Hl1 & Hn1 & Ho1); [apply Hc; left|]. cbn [run_bind].
    destruct (IH m1 Hwf1) as (m2 & -> & Hwf2 & Hl2 & Hn2 & Ho2).
    { intros i Hi. destruct Hl1 as (-> & _ & _ & _ & ->). apply Hc. by right. }
    exists m2. split; [done|]. split; [done|]. split; [by eapply same_layout_trans|]. split.
    + intros i [->|Hi]%elem_of_cons; [|by apply Hn2].
      destruct (decide (c ∈ cells)); [by apply Hn2|]. rewrite Ho2 by done. done.
    + intros i [Hic Hi]%not_elem_of_cons. rewrite Ho2 by done. by apply Ho1.
Qed.

Lemma reinit_slot_spec m slot : rm_wf m → slot < rm_slots m →
  ∃ m', reinit_slot m slot = Ret m' ∧ rm_wf m' ∧ same_layout m m'
    ∧ ∀ ni, rm_get m' ni = if decide (ni_slot ni = slot) then Ret None else rm_get m ni.
Proof.
  intros Hwf Hs. unfold reinit_slot. rewrite (proj2 (Nat.leb_gt _ _)) by lia.
  pose proof (Nat.mul_le_mono_r (S slot) (rm_slots m) (rm_per_slot_size m) Hs) as Hmul.
  destruct (reinit_cells_spec m (range (slot * rm_per_slot_size m) (slot * rm_per_slot_size m + rm_per_slot_size m)) Hwf)
    as (m' & Hf & Hwf' & Hl & Hn & Ho).
  { intros i. rewrite elem_of_range. lia. }
  exists m'. split; [done|]. split; [done|]. split; [done|]. intros ni. rewrite !rm_get_cell by done.
  rewrite (cell_of_layout m m') by done.
  destruct (decide (in_map m' ni)) as [Hi|Hi]; rewrite in_map_layout in Hi by done.
  - rewrite (decide_True (P := in_map m ni)) by done.
    pose proof (cell_in_slot m ni Hwf Hi) as Hc. case_decide as He.
    + rewrite <- He in *. rewrite Hn; [done|]. apply elem_of_range. lia.
    + f_equal. apply Ho. rewrite elem_of_range. intros Hr.
      destruct (Nat.lt_trichotomy (ni_slot ni) slot) as [Hlt|[?|Hlt]]; [|done|].
      * pose proof (Nat.mul_le_mono_r (S (ni_slot ni)) slot (rm_per_slot_size m) Hlt). lia.
      * pose proof (Nat.mul_le_mono_r (S slot) (ni_slot ni) (rm_per_slot_size m) Hlt). lia.
  - rewrite (decide_False (P := in_map m ni)) by done. by case_decide.
Qed.

(** ** The sizes of the arrays *)

Definition same_dims (m m' : LockFreeResultMap) : Prop :=
  same_layout m m' ∧ length (rm_buffer m') = length (rm_buffer m)
  ∧ length (rm_inline_val m') = length (rm_inline_val m) ∧ length (rm_inline_tag m') = length (rm_inline_tag m).

Lemma same_dims_refl m : same_dims m m.
Proof. repeat split. Qed.

Lemma same_dims_trans a b c : same_dims a b → same_dims b c → same_dims a c.
Proof. unfold same_dims, same_layout. intuition congruence. Qed.

(** Whatever is stored, the sizes stay. *)
Lemma rm_set_dims m ni v m' : rm_set m ni v = Ret m' → same_dims m m'.
Proof.
  unfold rm_set. destruct (_ || _); [done|]. intros (f & _ & Hx)%run_bind_Ret. destruct (_ <=? _); [done|].
  apply run_bind_Ret in Hx as (idx & _ & Hx). unfold run_stores, set_stores in Hx.
  destruct (encode_inline v) as [[tag val]|]; cbn [foldM] in Hx; apply run_bind_Ret in Hx as (m1 & H1 & Hx);
    apply run_bind_Ret in H1 as (l1 & [_ ->]%vec_set_Ret & [= <-]);
    apply run_bind_Ret in Hx as (m2 & H2 & [= <-]); apply run_bind_Ret in H2 as (l2 & [_ ->]%vec_set_Ret & [= <-]).
  all: repeat split; cbn; by rewrite ?length_insert.
Qed.

Definition sized (m : LockFreeResultMap) : Prop :=
  length (rm_buffer m) = rm_slots m * rm_per_slot_size m ∧ length (rm_inline_val m) = rm_slots m * rm_per_slot_size m
  ∧ length (rm_inline_tag m) = rm_slots m * rm_per_slot_size m.

Lemma same_dims_sized m m' : same_dims m m' → sized m → sized m'.
Proof. unfold same_dims, same_layout, sized. intros ((-> & _ & _ & _ & ->) & -> & -> & ->). done. Qed.

(** Clearing a slot does not panic when the arrays have their sizes. *)
Lemma reinit_slot_total m slot : sized m → slot < rm_slots m → ∃ m', reinit_slot m slot = Ret m' ∧ same_dims m m'.
Proof.
  intros Hm Hs. unfold reinit_slot. rewrite (proj2 (Nat.leb_gt _ _)) by lia.
  pose proof (Nat.mul_le_mono_r (S slot) (rm_slots m) (rm_per_slot_size m) Hs) as Hmul.
  assert (Hc : ∀ i, i ∈ range (slot * rm_per_slot_size m) (slot * rm_per_slot_size m + rm_per_slot_size m) → i < rm_slots m * rm_per_slot_size m)
    by (intros i; rewrite elem_of_range; lia).
  revert Hc. generalize (range (slot * rm_per_slot_size m) (slot * rm_per_slot_size m + rm_per_slot_size m)) as cells.
  clear Hs Hmul. intros cells. revert m Hm. induction cells as [|c cells IH]; intros m Hm Hc; cbn [foldM]; [exists m; split; [done|apply same_dims_refl]|].
  destruct Hm as (H1 & H2 & H3). pose proof (Hc c ltac:(left)) as Hlt.
  assert (Hone : ∃ m1, reinit_cell m c = Ret m1 ∧ same_dims m m1).
  { unfold reinit_cell. destruct (vec_get_lt (rm_inline_tag m) c ltac:(lia)) as (t & -> & _). cbn [run_bind].
    rewrite vec_set_lt by lia. cbn [run_bind]. destruct (t =? TAG_BOXED)%Z; [rewrite vec_set_lt by lia; cbn [run_bind]|].
    all: eexists; split; [done|]; repeat split; cbn; by rewrite ?length_insert. }
  destruct Hone as (m1 & -> & Hd). cbn [run_bind]. destruct (IH m1) as (m2 & -> & Hd2).
  - by eapply same_dims_sized.
  - intros i Hi. destruct Hd as ((-> & _ & _ & _ & ->) & _). apply Hc. by right.
  - exists m2. split; [done|by eapply same_dims_trans].
Qed.

Lemma ResultMap_new_wf nodes slots : rm_wf (ResultMap_new nodes slots).
Proof.
  constructor; cbn; rewrite ?length_replicate, ?length_fmap; try done.
  intros idx tag [-> _]%lookup_replicate. by left.
Qed.

Lemma ResultMap_new_empty nodes slots ni : rm_get (ResultMap_new nodes slots) ni = Ret None.
Proof.
  rewrite rm_get_cell by apply ResultMap_new_wf. case_decide; [|done]. f_equal. unfold cell_value. cbn.
  destruct (replicate _ 0%Z !! _) eqn:Hl; [|done]. by apply lookup_replicate in Hl as [-> _].
Qed.

(** ** Theorems *)

(** C31. The result store behaves as a map from (slot, node, instance) to values: it
    starts empty, a value read from a cell is the last value written to it, bit for
    bit, primitives and boxed values alike, a write changes no other cell, clearing a
    slot empties exactly the cells of that slot, and all of this keeps the store well
    formed. A write outside the store panics, a read outside it finds nothing. *)
Theorem result_map_refines_map m (Hwf : rm_wf m) :
  (∀ ni v, in_map m ni → value_ok v → ∃ m', rm_set m ni v = Ret m' ∧ rm_wf m' ∧ same_layout m m'
     ∧ ∀ ni', rm_get m' ni' = if decide (same_cell ni' ni) then Ret (Some v) else rm_get m ni')
  ∧ (∀ ni v, ¬ in_map m ni → rm_set m ni v = Panic ∧ rm_get m ni = Ret None)
  ∧ (∀ slot, slot < rm_slots m → ∃ m', reinit_slot m slot = Ret m' ∧ rm_wf m' ∧ same_layout m m'
     ∧ ∀ ni, rm_get m' ni = if decide (ni_slot ni = slot) then Ret None else rm_get m ni)
  ∧ (∀ nodes slots ni, rm_wf (ResultMap_new nodes slots) ∧ rm_get (ResultMap_new nodes slots) ni = Ret None).
Proof.
  split; [intros; by apply rm_set_spec|]. split; [|split].
  - intros ni v Hn. rewrite rm_get_cell by done. rewrite decide_False by done. split; [|done].
    unfold rm_set. destruct (bounds_out m ni Hwf Hn) as [->|(-> & f & -> & Hf)]; [done|]. cbn [run_bind]. by rewrite Hf.
  - intros. by apply reinit_slot_spec.
  - intros. split; [apply ResultMap_new_wf|apply ResultMap_new_empty].
Qed.

(** Two slots of two nodes with one and two instances, all cells empty. *)
Definition demo_map : LockFreeResultMap :=
  mkResultMap (replicate 6 None) (replicate 6 0%Z) (replicate 6 0%Z) 3 [0; 1] [1; 2] 2 2.

Lemma demo_map_wf : rm_wf demo_map.
Proof. constructor; cbn; try done. intros idx tag [-> _]%(lookup_replicate 6 0%Z). by left. Qed.

Lemma result_map_refines_map_witness :
  ∃ m', rm_set demo_map (NodeInfo_new 1 1 1 0) (CmI8 (-3)) = Ret m' ∧ rm_wf m' ∧ same_layout demo_map m'
    ∧ ∀ ni', rm_get m' ni' = if decide (same_cell ni' (NodeInfo_new 1 1 1 0)) then Ret (Some (CmI8 (-3)))
                             else rm_get demo_map ni'.
Proof.
  destruct (result_map_refines_map demo_map demo_map_wf) as (H & _).
  apply (H (NodeInfo_new 1 1 1 0) (CmI8 (-3))).
  - split; [cbn; lia|]. exists 2. split; [done|cbn; lia].
  - split; [cbn; lia|done].
Defined.

(** A reader never sees a half-written cell: while a value is being stored into an
    empty cell, at every point between the two atomic stores a read of the cell finds
    nothing, and after the last store it finds the value; reads of other cells are
    unaffected throughout. *)
Theorem no_torn_read m ni v k (Hwf : rm_wf m) (Hin : in_map m ni) (Hv : value_ok v)
    (Hempty : rm_get m ni = Ret None) (Htag : rm_inline_tag m !! cell_of m ni = Some 0%Z) (Hk : k <= 2) :
  ∃ m', run_stores (take k (set_stores (cell_of m ni) v)) m = Ret m'
  ∧ cell_value m' (cell_of m ni) = (if k =? 2 then Some v else None)
  ∧ ∀ idx, idx ≠ cell_of m ni → cell_value m' idx = cell_value m idx.
Proof.
  destruct (set_stores_spec m ni v Hwf Hin Hv) as (st1 & st2 & m1 & m2 & -> & H1 & H2 & _ & _ & _ & Ht & Hc & Ho).
  assert (Hc0 : cell_value m (cell_of m ni) = None) by (unfold cell_value; by rewrite Htag).
  destruct k as [|[|[|k]]]; [| | |lia]; unfold run_stores; cbn [take foldM Nat.eqb].
  - by exists m.
  - rewrite H1. cbn [run_bind]. exists m1. split; [done|]. split.
    + unfold cell_value. by rewrite Ht, Htag.
    + intros idx Hne. by apply Ho.
  - rewrite H1. cbn [run_bind]. rewrite H2. cbn [run_bind]. exists m2. split; [done|]. split; [done|].
    intros idx Hne. by apply Ho.
Qed.

Lemma no_torn_read_witness :
  let m := mkResultMap [None] [0%Z] [0%Z] 1 [0] [1] 1 1 in
  let ni := NodeInfo_new 0 0 0 0 in
  ∃ m', run_stores (take 1 (set_stores (cell_of m ni) (CmI32 (-5)))) m = Ret m'
  ∧ cell_value m' (cell_of m ni) = (if 1 =? 2 then Some (CmI32 (-5)) else None)
  ∧ ∀ idx, idx ≠ cell_of m ni → cell_value m' idx = cell_value m idx.
Proof.
  apply (no_torn_read (mkResultMap [None] [0%Z] [0%Z] 1 [0] [1] 1 1) (NodeInfo_new 0 0 0 0) (CmI32 (-5)) 1).
  - constructor; cbn; try done. intros [|idx] tag; cbn; [intros [= <-]; by left|done].
  - split; [cbn; lia|]. exists 1. split; [done|cbn; lia].
  - split; [cbn; lia|done].
  - reflexivity.
  - reflexivity.
  - lia.
Defined.
