(* ===== verification/ArgRes.v ===== *)
(** Argument resolution ([runtime/arg_resolution.rs]): which predecessor cells a task
    reads, the wait for a cell that is not yet stored, and the filling of the argument
    buffer from the cached template.

    The shared state changes while a task resolves its arguments. It is a parameter: the
    state that each successive read finds, [obs 0], [obs 1], ... *)
From S2P Require Import Prelude Types GraphStruct Buffers NodeCache Tables ResultMap.
From stdpp Require Import strings.

(** What argument resolution reads of the shared data. *)
Record World := mkWorld {
  w_results : LockFreeResultMap;
  w_shutdown : bool;
  w_generation : list Z;
}.

(** ** Choice of the predecessor instance *)

(** [a.rem_euclid(b)] on [isize]. *)
Definition rem_euclid (a b : Z) : run Z :=
  if (b =? 0)%Z || ((a =? - 2 ^ 63)%Z && (b =? -1)%Z) then Panic else Ret (a mod Z.abs b)%Z.

Definition single_index_dep_idx (node_index : nat) (declared : Z) (pred_factor : nat)
    (node_group_size pred_eff_group_size : option nat) : run nat :=
  match node_group_size with
  | Some ngs =>
      match pred_eff_group_size with
      | Some eff_gs =>
          if ngs =? 0 then Panic
          else
            let symbol := node_index / ngs in
            Ret (as_usize (Z.of_nat (symbol * eff_gs) + declared))
      | None => run_map as_usize (rem_euclid declared (as_i64 (Z.of_nat pred_factor)))
      end
  | None => find_pred_index node_index declared pred_factor
  end.

Definition per_instance_dep_idx (indexes : list Z) (node_index pred_index pred_factor node_factor : nat)
    (node_has_barrier : bool) : run nat :=
  if (pred_factor =? node_factor) && negb node_has_barrier then
    if pred_factor =? 0 then Panic else Ret (pred_index mod pred_factor)
  else
    let! declared := vec_get indexes node_index in
    run_map as_usize (rem_euclid declared (as_i64 (Z.of_nat pred_factor))).

(** [get_object_value] and [handle_special_ref]. *)
Definition get_object_value (obj_vec : list CmTypes) (node_index : nat) : run CmTypes :=
  if 1 <? length obj_vec then vec_get obj_vec (node_index mod length obj_vec) else vec_get obj_vec 0.

Definition handle_special_ref (obj_id node_index workers : nat) : option (list CmTypes) :=
  match obj_id with
  | 0 => Some [CmUsize node_index]
  | 1 => Some [CmUsize workers]
  | _ => None
  end.

(** ** Filling a buffer in place *)

Definition process_buffer_refs (arg_vec : list CmTypes) (cache : ArgCacheEntry) (node_index : nat)
    : run (list CmTypes) :=
  foldM (λ v ii,
    let! obj_vec := vec_get (ac_buffer_values cache) ii.1 in
    let! x := get_object_value obj_vec node_index in
    vec_set v ii.2 x) arg_vec (imap pair (ac_buffer_ref_indexes cache)).

Definition fill (x : CmTypes) (arg_vec : list CmTypes) (positions : list nat) : run (list CmTypes) :=
  foldM (λ v pos, vec_set v pos x) arg_vec positions.

Definition process_runtime_refs (arg_vec : list CmTypes) (cache : ArgCacheEntry) (node_index workers : nat)
    : run (list CmTypes) :=
  if length (ac_rt_idxs_indexes cache) =? length (ac_rt_workers_indexes cache) then
    foldM (λ v iw,
      let! v1 := vec_set v iw.1 (CmUsize node_index) in
      vec_set v1 iw.2 (CmUsize workers)) arg_vec (zip (ac_rt_idxs_indexes cache) (ac_rt_workers_indexes cache))
  else
    let! v := fill (CmUsize node_index) arg_vec (ac_rt_idxs_indexes cache) in
    fill (CmUsize workers) v (ac_rt_workers_indexes cache).

(** [buf[i] = result.remove(0)] or [buf.splice(i..i + 1, result)]. *)
Definition splice (buf : list CmTypes) (i : nat) (result : list CmTypes) : run (list CmTypes) :=
  match result with
  | [r] => vec_set buf i r
  | _ => if decide (i < length buf) then Ret (take i buf ++ result ++ drop (S i) buf) else Panic
  end.

(** ** Reading the shared state *)

(** A computation that reads the shared state: from the [stale] flag and the number of
    reads so far to a result with both; [None]: still waiting when the fuel ran out. *)
Definition reading (A : Type) : Type := bool * nat → run (option (A * (bool * nat))).

Definition rd_ret {A} (a : A) : reading A := λ s, Ret (Some (a, s)).
Definition rd_lift {A} (m : run A) : reading A := λ s, run_map (λ a, Some (a, s)) m.
Definition rd_bind {A B} (m : reading A) (k : A → reading B) : reading B := λ s,
  let! o := m s in
  match o with Some (a, s') => k a s' | None => Ret None end.

Notation "'read!' x ':=' m 'in' k" := (rd_bind m (λ x, k))
  (at level 10, x pattern, m at level 100, k at level 200) : tomii_scope.

Section resolve.
Context (obs : nat → World) (fuel : nat).
(** Of the configuration and the compiled graph. *)
Context (single_slot_mode : bool) (workers : nat) (pred_group_by_table : table nat)
  (init_objects : list (list CmTypes)) (nodes : list Node).
(** The slot and generation of the task; no slot ([usize::MAX]) for a post-node. *)
Context (exec_slot : option nat) (exec_gen : Z).

Definition get_result (ni : NodeInfo) : reading (option CmTypes) := λ s,
  let! r := rm_get (w_results (obs s.2)) ni in Ret (Some (r, (s.1, S s.2))).

(** [spin_wait_for_result]. *)
Fixpoint spin_wait (n : nat) (ni : NodeInfo) : reading (option CmTypes) := λ s,
  match n with
  | 0 => Ret None
  | S n =>
      (read! r := get_result ni in
       match r with
       | Some v => rd_ret (Some v)
       | None => λ s,
           if w_shutdown (obs s.2) then Ret (Some (None, (true, S s.2)))
           else match exec_slot with
                | None => spin_wait n ni (s.1, S s.2)
                | Some slot =>
                    let! current_gen := vec_get (w_generation (obs (S s.2))) slot in
                    if (exec_gen =? as_u32 current_gen)%Z then spin_wait n ni (s.1, S (S s.2))
                    else Ret (Some (None, (s.1 || negb single_slot_mode, S (S s.2))))
                end
       end) s
  end.

(** One cell: read it, and wait for it if it is not there. *)
Definition fetch_cell (res_node_id slot dep_idx : nat) : reading (option CmTypes) :=
  let ni := NodeInfo_new res_node_id slot dep_idx 0 in
  read! r := get_result ni in
  match r with Some v => rd_ret (Some v) | None => spin_wait fuel ni end.

(** The loop of the collect-all path; [?] leaves it. *)
Fixpoint fetch_all (res_node_id slot node_index pred_factor : nat) (indexes : list Z)
    : reading (option (list CmTypes)) :=
  match indexes with
  | [] => rd_ret (Some [])
  | pred_idx :: indexes =>
      read! dep_idx := rd_lift (find_pred_index node_index pred_idx pred_factor) in
      read! r := fetch_cell res_node_id slot dep_idx in
      match r with
      | None => rd_ret None
      | Some v =>
          read! vs := fetch_all res_node_id slot node_index pred_factor indexes in
          rd_ret (cons v <$> vs)
      end
  end.

Definition fetch_res_results (res_node_id : nat) (indexes : list Z)
    (node_index pred_index node_factor pred_factor : nat)
    (node_group_size pred_eff_group_size : option nat) (node_has_barrier : bool) (slot : nat)
    : reading (option (list CmTypes)) :=
  match indexes with
  | [] => rd_ret None
  | [declared] =>
      read! dep_idx := rd_lift (single_index_dep_idx node_index declared pred_factor
                                  node_group_size pred_eff_group_size) in
      read! r := fetch_cell res_node_id slot dep_idx in
      rd_ret ((λ v, [v]) <$> r)
  | _ =>
      if length indexes =? node_factor then
        read! dep_idx := rd_lift (per_instance_dep_idx indexes node_index pred_index pred_factor
                                    node_factor node_has_barrier) in
        read! r := fetch_cell res_node_id slot dep_idx in
        rd_ret ((λ v, [v]) <$> r)
      else fetch_all res_node_id slot node_index pred_factor indexes
  end.

(** [collect_res_from_cache]. *)
Definition collect_res_from_cache (rp : ResPredCache) (node_index slot pred_index : nat)
    (custom_res : option CmTypes) : reading (option (list CmTypes)) := λ s,
  if rp_is_dep rp then Ret (Some (Some [CmNone], s))
  else if s.1 then Ret (Some (None, s))
  else match custom_res with
  | Some custom => Ret (Some (Some [custom], s))
  | None =>
      let! pred_eff_gs := match rp_pred_group_size rp with
                          | Some gs => Ret (Some gs)
                          | None => table_get pred_group_by_table (rp_node_id rp) (rp_res_node_id rp)
                          end in
      fetch_res_results (rp_res_node_id rp) (rp_indexes rp) node_index pred_index (rp_node_factor rp)
        (rp_pred_factor rp) (rp_node_group_size rp) pred_eff_gs (rp_node_has_barrier rp) slot s
  end.

(** The loop over [res_indexes] that both [populate_*] functions end with. *)
Fixpoint populate_results (buf : list CmTypes) (node_index slot pred_index : nat)
    (l : list (nat * ResPredCache)) : reading (list CmTypes) := λ s,
  match l with
  | [] => Ret (Some (buf, s))
  | (res_idx, rp) :: l =>
      if s.1 then Ret (Some (buf, s))
      else
        (read! result_opt := collect_res_from_cache rp node_index slot pred_index None in
         read! buf' := rd_lift (match result_opt with
                                | Some result => splice buf res_idx result
                                | None => Ret buf
                                end) in
         populate_results buf' node_index slot pred_index l) s
  end.

(** [populate_dynamic_args_into]: the buffer and, in the state, the [stale] flag. *)
Definition populate_dynamic_args_into (buf : list CmTypes) (args_cache : ArgCacheEntry)
    (node_index slot pred_index wk : nat) : reading (list CmTypes) := λ s,
  (read! buf1 := rd_lift (process_buffer_refs buf args_cache node_index) in
   read! buf2 := rd_lift (process_runtime_refs buf1 args_cache node_index wk) in
   populate_results buf2 node_index slot pred_index
     (zip (ac_res_indexes args_cache) (ac_res_predecessors args_cache))) (false, s.2).

(** [populate_cached_args_into], on the buffer the caller passes. *)
Definition populate_cached_args_into (buf : list CmTypes) (args_cache : ArgCacheEntry)
    (node_index slot pred_index : nat) : reading (list CmTypes) := λ s,
  let buf0 := buf ++ ac_args args_cache in
  match ac_buffer_ref_indexes args_cache, ac_rt_idxs_indexes args_cache,
        ac_rt_workers_indexes args_cache, ac_res_indexes args_cache with
  | [], [], [], [] => Ret (Some (buf0, (false, s.2)))
  | _, _, rw, _ =>
      let wk := match rw with [] => 0 | _ => workers end in
      populate_dynamic_args_into buf0 args_cache node_index slot pred_index wk s
  end.

(** [collect_arg_result]. *)
Definition collect_arg_result (a : Arg) (node_id node_index node_factor slot pred_index : nat)
    (custom_res : option CmTypes) : reading (option (list CmTypes)) := λ s,
  match a_type a with
  | CmRef obj_id =>
      match handle_special_ref obj_id node_index workers with
      | Some result => Ret (Some (Some result, s))
      | None =>
          let! obj_vec := vec_get init_objects obj_id in
          let! v := get_object_value obj_vec node_index in
          Ret (Some (Some [v], s))
      end
  | CmDep _ => Ret (Some (Some [CmNone], s))
  | CmRes res_node_id =>
      if s.1 then Ret (Some (None, s))
      else match custom_res with
      | Some c => Ret (Some (Some [c], s))
      | None =>
          match a_predecessor a with
          | None => Ret (Some (None, s))
          | Some predecessor =>
              let! res_node := vec_get nodes res_node_id in
              let! current_node := vec_get nodes node_id in
              let! pred_eff_gs := match n_group_size res_node with
                                  | Some gs => Ret (Some gs)
                                  | None => table_get pred_group_by_table node_id res_node_id
                                  end in
              fetch_res_results (as_id res_node_id) (p_indexes predecessor) node_index pred_index
                node_factor (n_factor res_node) (n_group_size current_node) pred_eff_gs
                (node_forces_barrier current_node) slot s
          end
      end
  | CmBarrier _ => Ret (Some (None, s))
  | t => Ret (Some (Some [t], s))
  end.

End resolve.

(** [parse_args] makes the calls with node 0, factor 0, no slot, and a fresh [stale] flag
    for each argument; [t] counts the reads. *)
Fixpoint parse_args (obs : nat → World) (fuel : nat) (single_slot_mode : bool) (workers : nat)
    (pred_group_by_table : table nat) (init_objects : list (list CmTypes)) (nodes : list Node)
    (args : list Arg) (node_index slot pred_index : nat) (custom_res : option CmTypes) (t : nat)
    : run (option (list CmTypes * nat)) :=
  match args with
  | [] => Ret (Some ([], t))
  | a :: args =>
      let rest := parse_args obs fuel single_slot_mode workers pred_group_by_table init_objects nodes
                    args node_index slot pred_index custom_res in
      if is_condition a then rest t
      else
        let! o := collect_arg_result obs fuel single_slot_mode workers pred_group_by_table init_objects
                    nodes None 0 a 0 node_index 0 slot pred_index custom_res (false, t) in
        match o with
        | None => Ret None
        | Some (result_opt, (_, t')) =>
            let! o := rest t' in
            Ret ((λ vt, (default [] result_opt ++ vt.1, vt.2)) <$> o)
        end
  end.

(** ** The cells a dependency argument reads *)

(** The predecessor instances whose results [fetch_res_results] returns, in order. *)
Definition cells_read (indexes : list Z) (node_index pred_index node_factor pred_factor : nat)
    (node_group_size pred_eff_group_size : option nat) (node_has_barrier : bool) : run (list nat) :=
  match indexes with
  | [] => Ret []
  | [declared] =>
      run_map (λ c, [c]) (single_index_dep_idx node_index declared pred_factor node_group_size pred_eff_group_size)
  | _ =>
      if length indexes =? node_factor then
        run_map (λ c, [c]) (per_instance_dep_idx indexes node_index pred_index pred_factor node_factor node_has_barrier)
      else run_imap (λ _ k, find_pred_index node_index k pred_factor) 0 indexes
  end.

(** From read [t] on, the cell holds [v]. *)
Definition stored (obs : nat → World) (t res_node_id slot cell : nat) (v : CmTypes) : Prop :=
  ∀ t', t <= t' → rm_get (w_results (obs t')) (NodeInfo_new res_node_id slot cell 0) = Ret (Some v).

Lemma stored_later obs t t' res slot cell v : t <= t' → stored obs t res slot cell v → stored obs t' res slot cell v.
Proof. intros Ht Hs u Hu. apply Hs. lia. Qed.

Section reads.
Context (obs : nat → World) (fuel : nat) (single_slot_mode : bool) (exec_slot : option nat) (exec_gen : Z).

Lemma fetch_cell_stored res slot cell v b t : stored obs t res slot cell v →
  fetch_cell obs fuel single_slot_mode exec_slot exec_gen res slot cell (b, t) = Ret (Some (Some v, (b, S t))).
Proof.
  intros Hs. unfold fetch_cell, rd_bind, get_result. cbn [snd fst]. rewrite (Hs t) by lia. done.
Qed.

Lemma fetch_all_stored res slot node_index pf indexes cells vals b t :
  run_imap (λ _ k, find_pred_index node_index k pf) 0 indexes = Ret cells →
  Forall2 (stored obs t res slot) cells vals →
  fetch_all obs fuel single_slot_mode exec_slot exec_gen res slot node_index pf indexes (b, t)
  = Ret (Some (Some vals, (b, t + length cells))).
Proof.
  assert (Hshift : ∀ l k, run_imap (λ _ d, find_pred_index node_index d pf) k l
                          = run_imap (λ _ d, find_pred_index node_index d pf) 0 l).
  { induction l as [|x l IH]; intros k; [done|]. cbn [run_imap]. by rewrite (IH (S k)), (IH 1). }
  revert cells vals t. induction indexes as [|k indexes IH]; intros cells vals t Hc Hs; cbn [run_imap] in Hc.
  - injection Hc as <-. apply Forall2_nil_inv_l in Hs as ->. cbn. by rewrite Nat.add_0_r.
  - apply run_bind_Ret in Hc as (c & Hk & Hc). apply run_bind_Ret in Hc as (cs & Hcs & [= <-]).
    apply Forall2_cons_inv_l in Hs as (v & vs & Hv & Hs & ->).
    cbn [fetch_all]. unfold rd_bind at 1, rd_lift. rewrite Hk. cbn [run_map run_bind].
    unfold rd_bind at 1. rewrite (fetch_cell_stored _ _ _ v) by done. cbn [run_bind].
    unfold rd_bind. rewrite Hshift in Hcs. rewrite (IH cs vs); [|done|].
    + cbn [run_bind length]. unfold rd_ret. cbn. by rewrite Nat.add_succ_r.
    + eapply Forall2_impl; [done|]. intros x y. apply stored_later. lia.
Qed.

(** When the cells an argument reads are stored, it gets their values, in order, with
    one read each and without waiting. *)
Lemma fetch_res_stored res indexes ni pi nf pf ngs pgs hb slot cells vals b t :
  cells_read indexes ni pi nf pf ngs pgs hb = Ret cells →
  Forall2 (stored obs t res slot) cells vals →
  fetch_res_results obs fuel single_slot_mode exec_slot exec_gen res indexes ni pi nf pf ngs pgs hb slot (b, t)
  = Ret (Some (match indexes with [] => None | _ => Some vals end, (b, t + length cells))).
Proof.
  unfold cells_read, fetch_res_results. destruct indexes as [|d [|d' ds]].
  - intros [= <-] _. cbn. by rewrite Nat.add_0_r.
  - unfold rd_bind, rd_lift. destruct (single_index_dep_idx _ _ _ _ _) as [c|]; [|done].
    cbn [run_map run_bind]. intros [= <-] Hs. apply Forall2_cons_inv_l in Hs as (v & vs & Hv & Hs & ->).
    apply Forall2_nil_inv_l in Hs as ->. rewrite (fetch_cell_stored _ _ _ v) by done. cbn.
    by rewrite Nat.add_1_r.
  - destruct (length _ =? nf).
    + unfold rd_bind, rd_lift. destruct (per_instance_dep_idx _ _ _ _ _ _) as [c|]; [|done].
      cbn [run_map run_bind]. intros [= <-] Hs. apply Forall2_cons_inv_l in Hs as (v & vs & Hv & Hs & ->).
      apply Forall2_nil_inv_l in Hs as ->. rewrite (fetch_cell_stored _ _ _ v) by done. cbn.
      by rewrite Nat.add_1_r.
    + intros Hc Hs. by apply fetch_all_stored.
Qed.
End reads.

(** ** Waiting *)

(** C28. The wait for a missing result ends: if from some moment on the result is stored,
    or the runtime is shutting down, or the task's slot has moved to another generation,
    the loop returns, within one iteration per read up to that moment and one more. What
    it returns was there: a value was read from the cell while waiting; no value comes
    with the [stale] flag raised on a shutdown, or, unless there is a single slot, on a
    generation change that was seen while waiting. *)
Theorem spin_wait_spec obs single_slot_mode exec_slot exec_gen ni T n b t
    (Hget : ∀ t, ∃ r, rm_get (w_results (obs t)) ni = Ret r)
    (Hgen : ∀ t slot, exec_slot = Some slot → slot < length (w_generation (obs t)))
    (Hevent : (∃ v, ∀ t, T <= t → rm_get (w_results (obs t)) ni = Ret (Some v))
              ∨ (∀ t, T <= t → w_shutdown (obs t) = true)
              ∨ ∃ slot, exec_slot = Some slot ∧ ∀ t g, T <= t →
                  w_generation (obs t) !! slot = Some g → as_u32 g ≠ exec_gen)
    (Hfuel : T - t < n) :
  ∃ r b' t', spin_wait obs single_slot_mode exec_slot exec_gen n ni (b, t) = Ret (Some (r, (b', t')))
  ∧ match r with
    | Some v => b' = b ∧ ∃ u, t <= u < t' ∧ rm_get (w_results (obs u)) ni = Ret (Some v)
    | None =>
        (b' = true ∧ ∃ u, t <= u < t' ∧ w_shutdown (obs u) = true)
        ∨ (b' = b || negb single_slot_mode
           ∧ ∃ slot g u, exec_slot = Some slot ∧ t <= u < t' ∧ w_generation (obs u) !! slot = Some g
                         ∧ as_u32 g ≠ exec_gen)
    end.
Proof.
  revert t Hfuel. induction n as [|n IH]; intros t Hfuel; [lia|]. cbn [spin_wait].
  unfold rd_bind at 1, get_result. cbn [snd fst]. destruct (Hget t) as [[v|] Hr]; rewrite Hr; cbn [run_bind].
  { exists (Some v), b, (S t). split; [done|]. split; [done|]. exists t. split; [lia|done]. }
  cbv beta iota. cbn [snd fst]. destruct (w_shutdown (obs (S t))) eqn:Hsh.
  { exists None, true, (S (S t)). split; [done|]. left. split; [done|]. exists (S t). split; [lia|done]. }
  assert (Hwait : ∀ t1, S (S t) <= t1 →
    (∀ slot, exec_slot = Some slot → ∃ u g, S t <= u < t1 ∧ w_generation (obs u) !! slot = Some g ∧ as_u32 g = exec_gen) →
    T - t1 < n).
  { intros t1 Ht1 Hg. destruct (decide (T <= t)) as [Hle|]; [|lia]. exfalso.
    destruct Hevent as [[v Hv]|[Hv|(slot & Hslot & Hv)]].
    - rewrite Hv in Hr by lia. done.
    - rewrite Hv in Hsh by lia. done.
    - destruct (Hg slot Hslot) as (u & g & Hu & Hl & Heq). apply (Hv u g); [lia|done|done]. }
  assert (Hrec : ∀ t1, S (S t) <= t1 → T - t1 < n → ∃ r b' t',
    spin_wait obs single_slot_mode exec_slot exec_gen n ni (b, t1) = Ret (Some (r, (b', t')))
    ∧ match r with
      | Some v => b' = b ∧ ∃ u, t <= u < t' ∧ rm_get (w_results (obs u)) ni = Ret (Some v)
      | None =>
        (b' = true ∧ ∃ u, t <= u < t' ∧ w_shutdown (obs u) = true)
        ∨ (b' = b || negb single_slot_mode
           ∧ ∃ slot g u, exec_slot = Some slot ∧ t <= u < t' ∧ w_generation (obs u) !! slot = Some g
                         ∧ as_u32 g ≠ exec_gen)
      end).
  { intros t1 Ht1 Hf. destruct (IH t1 Hf) as (r & b' & t' & -> & Hr'). exists r, b', t'. split; [done|].
    destruct r as [v|].
    - destruct Hr' as (-> & u & Hu & ?). split; [done|]. exists u. split; [lia|done].
    - destruct Hr' as [(-> & u & Hu & ?)|(-> & slot & g & u & ? & Hu & ?)].
      + left. split; [done|]. exists u. split; [lia|done].
      + right. split; [done|]. exists slot, g, u. split; [done|]. split; [lia|done]. }
  destruct exec_slot as [slot|]; cbn [snd fst].
  - destruct (vec_get_lt (w_generation (obs (S (S t)))) slot) as (g & Hg & Hl); [by apply Hgen|].
    rewrite Hg. cbn [run_bind]. destruct (exec_gen =? as_u32 g)%Z eqn:He.
    + apply Z.eqb_eq in He. apply Hrec; [lia|]. apply Hwait; [lia|]. intros s [= <-].
      exists (S (S t)), g. split; [lia|]. by split.
    + apply Z.eqb_neq in He. exists None, (b || negb single_slot_mode), (S (S (S t))).
      split; [done|]. right. split; [done|]. exists slot, g, (S (S t)).
      split; [done|]. split; [lia|]. split; [done|]. intros Hq. by apply He.
  - apply Hrec; [lia|]. apply Hwait; [lia|]. by intros ? [=].
Qed.

(** A store whose only cell is empty until read 5. *)
Definition demo_obs (t : nat) : World :=
  mkWorld (mkResultMap [None] [7%Z] [if t <? 5 then 0%Z else 4%Z] 1 [0] [1] 1 1) false [2%Z].

Lemma spin_wait_spec_witness :
  ∃ r b' t', spin_wait demo_obs false (Some 0) 2 6 (NodeInfo_new 0 0 0 0) (false, 0) = Ret (Some (r, (b', t')))
  ∧ match r with
    | Some v => b' = false ∧ ∃ u, 0 <= u < t' ∧ rm_get (w_results (demo_obs u)) (NodeInfo_new 0 0 0 0) = Ret (Some v)
    | None =>
        (b' = true ∧ ∃ u, 0 <= u < t' ∧ w_shutdown (demo_obs u) = true)
        ∨ (b' = false || negb false
           ∧ ∃ slot g u, Some 0 = Some slot ∧ 0 <= u < t' ∧ w_generation (demo_obs u) !! slot = Some g
                         ∧ as_u32 g ≠ 2%Z)
    end.
Proof.
  apply (spin_wait_spec demo_obs false (Some 0) 2 (NodeInfo_new 0 0 0 0) 5 6 false 0).
  - intros t. unfold demo_obs. destruct (t <? 5); [by exists None|]. exists (Some (CmU64 7)). reflexivity.
  - intros t slot [= <-]. cbn. lia.
  - left. exists (CmU64 7). intros t Ht. unfold demo_obs.
    assert (H5 : (t <? 5) = false) by (apply Nat.ltb_ge; lia). rewrite H5. reflexivity.
  - lia.
Defined.
