(* ===== verification/Populate.v ===== *)
(** What a task finds in its argument buffer ([runtime/arg_resolution.rs] on the cache of
    [runtime/node_cache.rs]): the positions that the template cache registers are the
    positions that resolution fills in, each with the value its argument asks for. *)
From S2P Require Import Prelude Types GraphStruct Graph Buffers NodeCache Tables ResultMap ArgRes.
From stdpp Require Import strings.

(** ** Writes to distinct positions *)

Definition write_all (buf : list CmTypes) (ws : list (nat * CmTypes)) : run (list CmTypes) :=
  foldM (λ v w, vec_set v w.1 w.2) buf ws.

Lemma write_all_app buf ws1 ws2 :
  write_all buf (ws1 ++ ws2) = let! v := write_all buf ws1 in write_all v ws2.
Proof. apply foldM_app. Qed.

Lemma write_all_spec ws buf : NoDup ws.*1 → (∀ p, p ∈ ws.*1 → p < length buf) →
  ∃ v, write_all buf ws = Ret v ∧ length v = length buf
    ∧ (∀ p x, (p, x) ∈ ws → v !! p = Some x) ∧ ∀ p, p ∉ ws.*1 → v !! p = buf !! p.
Proof.
  unfold write_all. revert buf. induction ws as [|[p x] ws IH]; intros buf Hnd Hlt; cbn [foldM].
  - exists buf. split; [done|]. split; [done|]. split; [by intros ? ? ?%not_elem_of_nil|done].
  - cbn [fmap list_fmap fst] in Hnd, Hlt. apply NoDup_cons in Hnd as [Hp Hnd].
    cbn [fst snd]. rewrite vec_set_lt by (apply Hlt; left). cbn [run_bind].
    destruct (IH (<[p:=x]> buf) Hnd) as (v & -> & Hl & Hin & Hout).
    { intros q Hq. rewrite length_insert. apply Hlt. by right. }
    rewrite length_insert in Hl. exists v. split; [done|]. split; [done|]. split.
    + intros q y [[= -> ->]|Hq]%elem_of_cons; [|by apply Hin].
      rewrite Hout by done. apply list_lookup_insert_eq. apply Hlt. left.
    + intros q Hq. cbn [fmap list_fmap fst] in Hq. apply not_elem_of_cons in Hq as [Hne Hq].
      rewrite Hout by done. by apply list_lookup_insert_ne.
Qed.

(** ** The template, field by field *)

Definition res_like (a : Arg) : bool := is_result (a_type a) || is_dep (a_type a).

(** The positions of the dependency arguments, counted from [k]. *)
Fixpoint res_positions (k : nat) (l : list Arg) : list nat :=
  match l with
  | [] => []
  | a :: l => if res_like a then k :: res_positions (S k) l else res_positions (S k) l
  end.

Lemma build_arg_res objs c pos real a c' : build_arg objs c pos real a = Ret c' →
  ac_res_indexes c' = ac_res_indexes c ++ (if res_like a then [pos] else []).
Proof.
  unfold build_arg, res_like. destruct (a_type a); cbn [is_result is_dep orb];
    try (intros (? & _ & [= <-])%run_bind_Ret; cbn; by rewrite app_nil_r);
    try (intros [= <-]; cbn; by rewrite ?app_nil_r).
  destruct (_ =? 0); [intros [= <-]; cbn; by rewrite app_nil_r|].
  destruct (_ =? 1); [intros [= <-]; cbn; by rewrite app_nil_r|].
  intros (l & _ & Hc)%run_bind_Ret. destruct (1 <? length l); [injection Hc as <-; cbn; by rewrite app_nil_r|].
  apply run_bind_Ret in Hc as (v & _ & (? & _ & [= <-])%run_bind_Ret). cbn. by rewrite app_nil_r.
Qed.

Lemma build_arg_steps_res objs skip args k s s' :
  foldM (build_arg_step objs skip) s (imap (λ i, pair (k + i)) args) = Ret s' →
  ac_res_indexes (ab_cache s') = ac_res_indexes (ab_cache s) ++ res_positions (ab_idx s) (kept_args skip args).
Proof.
  revert k s. induction args as [|a args IH]; intros k s.
  - intros [= <-]. by rewrite app_nil_r.
  - rewrite imap_pair_cons. cbn [foldM]. unfold kept_args in *. rewrite filter_cons.
    unfold build_arg_step at 1. destruct (skip && is_condition a) eqn:Hsk.
    + cbn [run_bind]. rewrite decide_False by done. apply IH.
    + rewrite decide_True by done. intros (s1 & (c & Hc & [= <-])%run_bind_Ret & Hf)%run_bind_Ret.
      apply IH in Hf. cbn [ab_cache ab_idx] in Hf. rewrite Hf, (build_arg_res _ _ _ _ _ _ Hc).
      cbn [res_positions]. destruct (res_like a); [by rewrite <- (assoc_L (++))|by rewrite app_nil_r].
Qed.

Lemma build_arg_cache_res args objs skip c preds : build_arg_cache args objs skip = Ret (c, preds) →
  ac_res_indexes c = res_positions 0 (kept_args skip args).
Proof.
  unfold build_arg_cache. change (imap pair args) with (imap (λ i, pair (0 + i)) args).
  intros (s & Hs & [= <- _])%run_bind_Ret. by rewrite (build_arg_steps_res _ _ _ _ _ _ Hs).
Qed.

Lemma build_res_pred_like g id node a o : build_res_pred g id node a = Ret o → is_some o = res_like a.
Proof.
  unfold build_res_pred, res_like. destruct (a_type a); try (by intros [= <-]).
  by intros (? & _ & [= <-])%run_bind_Ret.
Qed.

(** The predecessor entries are those of the kept dependency arguments, in order. *)
Lemma build_res_preds_spec g id node args skip rps : build_res_preds g id node args skip = Ret rps →
  Forall2 (λ a rp, build_res_pred g id node a = Ret (Some rp))
    (filter (λ a, res_like a = true) (kept_args skip args)) rps.
Proof.
  unfold build_res_preds.
  assert (Hgen : ∀ acc, foldM (λ v a,
    if skip && is_condition a then Ret v
    else let! o := build_res_pred g id node a in
         Ret (match o with Some rp => v ++ [rp] | None => v end)) acc args = Ret rps →
    ∃ rps', rps = acc ++ rps' ∧ Forall2 (λ a rp, build_res_pred g id node a = Ret (Some rp))
      (filter (λ a, res_like a = true) (kept_args skip args)) rps').
  { unfold kept_args. induction args as [|a args IH]; intros acc; cbn [foldM].
    - intros [= <-]. exists []. by rewrite app_nil_r.
    - rewrite (filter_cons _ a). destruct (skip && is_condition a) eqn:Hsk.
      + cbn [run_bind]. rewrite decide_False by done. apply IH.
      + rewrite decide_True by done. intros (acc1 & (o & Ho & [= <-])%run_bind_Ret & Hf)%run_bind_Ret.
        pose proof (build_res_pred_like _ _ _ _ _ Ho) as Hl. rewrite filter_cons.
        apply IH in Hf as (rps' & -> & Hrest). destruct o as [rp|]; cbn [is_some] in Hl; rewrite <- Hl.
        * rewrite decide_True by done. exists (rp :: rps'). rewrite <- (assoc_L (++)). split; [done|].
          constructor; [by rewrite Ho|done].
        * rewrite decide_False by done. by exists rps'. }
  intros H. apply (Hgen []) in H as (rps' & -> & ?). done.
Qed.

(** ** Every phase is a sequence of writes *)

(** The object that instance [node_index] gets of a rotation. *)
Definition rotated (l : list CmTypes) (node_index : nat) (x : CmTypes) : Prop :=
  l !! (node_index mod length l) = Some x.

Lemma rotated_get l node_index : 1 < length l → ∃ x, get_object_value l node_index = Ret x ∧ rotated l node_index x.
Proof.
  intros Hl. unfold get_object_value. rewrite (proj2 (Nat.ltb_lt _ _)) by done.
  apply vec_get_lt. apply Nat.mod_upper_bound. lia.
Qed.

Lemma buffer_writes c node_index :
  length (ac_buffer_ref_indexes c) = length (ac_buffer_values c) →
  Forall (λ l, 1 < length l) (ac_buffer_values c) →
  ∃ ws, ws.*1 = ac_buffer_ref_indexes c
    ∧ (∀ buf, process_buffer_refs buf c node_index = write_all buf ws)
    ∧ ∀ k p l, ac_buffer_ref_indexes c !! k = Some p → ac_buffer_values c !! k = Some l →
        ∃ x, rotated l node_index x ∧ (p, x) ∈ ws.
Proof.
  unfold process_buffer_refs.
  assert (Hgen : ∀ ps ls pre, length ps = length ls → ac_buffer_values c = pre ++ ls → Forall (λ l, 1 < length l) ls →
    ∃ ws, ws.*1 = ps
    ∧ (∀ buf, foldM (λ v ii, let! obj_vec := vec_get (ac_buffer_values c) ii.1 in
                let! x := get_object_value obj_vec node_index in vec_set v ii.2 x) buf
                (imap (λ i, pair (length pre + i)) ps) = write_all buf ws)
    ∧ ∀ k p l, ps !! k = Some p → ls !! k = Some l → ∃ x, rotated l node_index x ∧ (p, x) ∈ ws).
  { induction ps as [|p ps IH]; intros [|l ls] pre; try done.
    - intros _ _ _. exists []. done.
    - intros [= Hlen] Hval [Hl Hls]%Forall_cons.
      destruct (IH ls (pre ++ [l]) Hlen) as (ws & Hp & Hw & Hin); [by rewrite <- (assoc_L (++))|done|].
      destruct (rotated_get l node_index Hl) as (x & Hx & Hr). exists ((p, x) :: ws).
      split; [cbn; by rewrite Hp|]. split.
      + intros buf. rewrite imap_pair_cons. cbn [foldM fst snd].
        rewrite (vec_get_lookup _ _ l) by (rewrite Hval; by apply list_lookup_middle).
        cbn [run_bind]. rewrite Hx. cbn [run_bind]. unfold write_all. cbn [foldM fst snd].
        destruct (vec_set buf p x) as [b|]; [|done]. cbn [run_bind].
        rewrite length_app, Nat.add_1_r in Hw. apply Hw.
      + intros [|k] q m; cbn.
        * intros [= <-] [= <-]. exists x. split; [done|left].
        * intros Hk Hm. destruct (Hin k q m Hk Hm) as (y & ? & ?). exists y. split; [done|by right]. }
  intros Hlen Hall. destruct (Hgen (ac_buffer_ref_indexes c) (ac_buffer_values c) [] Hlen) as (ws & ? & Hw & ?); [done|done|].
  exists ws. split; [done|]. split; [exact Hw|done].
Qed.

Lemma write_same x buf ps : foldM (λ v pos, vec_set v pos x) buf ps = write_all buf ((λ p, (p, x)) <$> ps).
Proof.
  unfold write_all. revert buf. induction ps as [|p ps IH]; intros buf; [done|]. cbn.
  destruct (vec_set buf p x); [|done]. apply IH.
Qed.

Lemma runtime_writes c node_index workers :
  ∃ ws, ws.*1 ≡ₚ ac_rt_idxs_indexes c ++ ac_rt_workers_indexes c
    ∧ (∀ buf, process_runtime_refs buf c node_index workers = write_all buf ws)
    ∧ (∀ p, p ∈ ac_rt_idxs_indexes c → (p, CmUsize node_index) ∈ ws)
    ∧ ∀ p, p ∈ ac_rt_workers_indexes c → (p, CmUsize workers) ∈ ws.
Proof.
  unfold process_runtime_refs. generalize (ac_rt_idxs_indexes c) (ac_rt_workers_indexes c). intros is_ wks.
  destruct (length is_ =? length wks) eqn:Hlen.
  - apply Nat.eqb_eq in Hlen. revert wks Hlen. induction is_ as [|i is_ IH]; intros [|w wks]; try done.
    + intros _. exists []. split; [done|]. split; [done|]. by split; intros ? ?%not_elem_of_nil.
    + intros [= Hlen]. destruct (IH wks Hlen) as (ws & Hp & Hw & Hi & Hk).
      exists ((i, CmUsize node_index) :: (w, CmUsize workers) :: ws). split; [|split; [|split]].
      * cbn. rewrite Hp. by rewrite <- Permutation_middle.
      * intros buf. unfold write_all. cbn [zip zip_with foldM fst snd].
        destruct (vec_set buf i (CmUsize node_index)) as [b|]; [|done]. cbn [run_bind].
        destruct (vec_set b w (CmUsize workers)) as [b2|]; [|done]. cbn [run_bind]. apply Hw.
      * intros p [->|Hpi]%elem_of_cons; [left|]. do 2 right. by apply Hi.
      * intros p [->|Hpi]%elem_of_cons; [right; left|]. do 2 right. by apply Hk.
  - exists (((λ p, (p, CmUsize node_index)) <$> is_) ++ ((λ p, (p, CmUsize workers)) <$> wks)).
    split; [|split; [|split]].
    + rewrite fmap_app, <- !list_fmap_compose. cbn. by rewrite !list_fmap_id.
    + intros buf. unfold fill. rewrite write_all_app, <- write_same.
      destruct (foldM _ buf is_); [|done]. cbn [run_bind]. by rewrite write_same.
    + intros p Hp. apply elem_of_app. left. apply list_elem_of_fmap. by exists p.
    + intros p Hp. apply elem_of_app. right. apply list_elem_of_fmap. by exists p.
Qed.

(** The cells that a cached dependency reads. *)
Definition rp_cells (tbl : table nat) (rp : ResPredCache) (node_index pred_index : nat) : run (list nat) :=
  let! pred_eff_gs := match rp_pred_group_size rp with
                      | Some gs => Ret (Some gs)
                      | None => table_get tbl (rp_node_id rp) (rp_res_node_id rp)
                      end in
  cells_read (rp_indexes rp) node_index pred_index (rp_node_factor rp) (rp_pred_factor rp)
    (rp_node_group_size rp) pred_eff_gs (rp_node_has_barrier rp).

(** The value a cached dependency of width one contributes: nothing for a pure ordering
    dependency, else what its one cell holds from read [t] on. *)
Definition res_value (obs : nat → World) (tbl : table nat) (t node_index slot pred_index : nat)
    (rp : ResPredCache) (x : CmTypes) : Prop :=
  if rp_is_dep rp then x = CmNone
  else ∃ cell, rp_cells tbl rp node_index pred_index = Ret [cell] ∧ stored obs t (rp_res_node_id rp) slot cell x.

Section populate.
Context (obs : nat → World) (fuel : nat) (ssm : bool) (workers : nat) (tbl : table nat)
  (exec_slot : option nat) (exec_gen : Z).

Lemma collect_res_one rp ni slot pi x t : res_value obs tbl t ni slot pi rp x →
  ∃ t', t <= t' ∧ collect_res_from_cache obs fuel ssm tbl exec_slot exec_gen rp ni slot pi None (false, t)
  = Ret (Some (Some [x], (false, t'))).
Proof.
  unfold res_value, collect_res_from_cache, rp_cells. destruct (rp_is_dep rp).
  - intros ->. by exists t.
  - cbn [fst]. intros (cell & Hc & Hs). apply run_bind_Ret in Hc as (gs & -> & Hc). cbn [run_bind].
    exists (t + length [cell]). split; [lia|]. rewrite (fetch_res_stored _ _ _ _ _ _ _ _ _ _ _ _ _ _ _ _ [x] false t Hc).
    + by destruct (rp_indexes rp).
    + by constructor.
Qed.

Lemma populate_results_writes rps xs ps ni slot pi buf t :
  Forall2 (res_value obs tbl t ni slot pi) rps xs → length ps = length rps →
  ∃ t', populate_results obs fuel ssm tbl exec_slot exec_gen buf ni slot pi (zip ps rps) (false, t)
  = let! v := write_all buf (zip ps xs) in Ret (Some (v, (false, t'))).
Proof.
  intros Hall. revert ps buf t Hall. induction rps as [|rp rps IH] in xs |- *; intros ps buf t Hall Hlen.
  - exists t. destruct ps; [|done]. done.
  - destruct ps as [|p ps]; [done|]. apply Forall2_cons_inv_l in Hall as (x & xs' & Hx & Hall & ->).
    destruct (collect_res_one rp ni slot pi x t Hx) as (t1 & Ht1 & Hc).
    cbn [zip zip_with populate_results fst]. unfold rd_bind. rewrite Hc. cbn [run_bind splice].
    unfold rd_lift, write_all. cbn [foldM fst snd].
    destruct (vec_set buf p x) as [b|]; [|by exists t]. cbn [run_map run_bind].
    apply IH; [|by injection Hlen].
    eapply Forall2_impl; [done|]. intros rp' y. unfold res_value. destruct (rp_is_dep rp'); [done|].
    intros (cell & ? & ?). exists cell. split; [done|]. by eapply stored_later.
Qed.

(** The dynamic part of argument resolution writes every registered position once. *)
Lemma populate_dynamic_writes c rps xs ni slot pi wk buf b t :
  length (ac_buffer_ref_indexes c) = length (ac_buffer_values c) →
  Forall (λ l, 1 < length l) (ac_buffer_values c) →
  Forall2 (res_value obs tbl t ni slot pi) rps xs → length (ac_res_indexes c) = length rps →
  NoDup (dynamic_positions c) → (∀ p, p ∈ dynamic_positions c → p < length buf) →
  ∃ v t', populate_dynamic_args_into obs fuel ssm tbl exec_slot exec_gen buf (set_res_predecessors rps c)
            ni slot pi wk (b, t) = Ret (Some (v, (false, t')))
    ∧ length v = length buf
    ∧ (∀ p, p ∉ dynamic_positions c → v !! p = buf !! p)
    ∧ (∀ p, p ∈ ac_rt_idxs_indexes c → v !! p = Some (CmUsize ni))
    ∧ (∀ p, p ∈ ac_rt_workers_indexes c → v !! p = Some (CmUsize wk))
    ∧ (∀ k p l, ac_buffer_ref_indexes c !! k = Some p → ac_buffer_values c !! k = Some l →
         ∃ x, rotated l ni x ∧ v !! p = Some x)
    ∧ ∀ k p x, ac_res_indexes c !! k = Some p → xs !! k = Some x → v !! p = Some x.
Proof.
  intros Hbl Hbv Hres Hrl Hnd Hlt.
  destruct (buffer_writes c ni Hbl Hbv) as (bws & Hbp & Hbw & Hbin).
  destruct (runtime_writes c ni wk) as (rws & Hrp & Hrw & Hri & Hrk).
  pose proof (Forall2_length _ _ _ Hres) as Hxl.
  set (ws := bws ++ rws ++ zip (ac_res_indexes c) xs).
  assert (Hperm : ws.*1 ≡ₚ dynamic_positions c).
  { unfold ws, dynamic_positions. rewrite !fmap_app, fst_zip by lia. rewrite Hbp, Hrp, (assoc_L (++)).
    rewrite (Permutation_app_comm (ac_buffer_ref_indexes c)). by rewrite <- !(assoc_L (++)). }
  destruct (write_all_spec ws buf) as (v & Hv & Hvl & Hin & Hout).
  { by rewrite Hperm. } { intros p. rewrite Hperm. apply Hlt. }
  assert (Hphase : ∃ t', populate_dynamic_args_into obs fuel ssm tbl exec_slot exec_gen buf
            (set_res_predecessors rps c) ni slot pi wk (b, t) = Ret (Some (v, (false, t')))).
  { unfold populate_dynamic_args_into, rd_bind, rd_lift. cbn [snd].
    change (process_buffer_refs buf (set_res_predecessors rps c) ni) with (process_buffer_refs buf c ni).
    unfold ws in Hv. rewrite !write_all_app, <- Hbw in Hv. apply run_bind_Ret in Hv as (b1 & Hb1 & Hv).
    rewrite Hb1. cbn [run_map run_bind]. rewrite write_all_app, <- Hrw in Hv. apply run_bind_Ret in Hv as (b2 & Hb2 & Hv).
    change (process_runtime_refs b1 (set_res_predecessors rps c) ni wk) with (process_runtime_refs b1 c ni wk).
    rewrite Hb2. cbn [run_map run_bind]. cbn [set_res_predecessors ac_res_indexes ac_res_predecessors].
    destruct (populate_results_writes rps xs (ac_res_indexes c) ni slot pi b2 t Hres Hrl) as (t' & Hpr).
    exists t'. rewrite Hpr, Hv. done. }
  destruct Hphase as (t' & Hphase). exists v, t'. split; [done|]. split; [done|]. split.
  { intros p Hp. apply Hout. by rewrite Hperm. }
  split; [|split; [|split]].
  - intros p Hp. apply Hin. unfold ws. rewrite !elem_of_app. right; left. auto.
  - intros p Hp. apply Hin. unfold ws. rewrite !elem_of_app. right; left. auto.
  - intros k p l Hp Hl. destruct (Hbin k p l Hp Hl) as (x & ? & ?). exists x. split; [done|].
    apply Hin. unfold ws. rewrite elem_of_app. by left.
  - intros k p x Hp Hx. apply Hin. unfold ws. rewrite !elem_of_app. do 2 right. eapply list_elem_of_lookup_2.
    apply lookup_zip_with_Some. exists p, x. done.
Qed.
End populate.

(** ** The whole buffer *)

Lemma build_arg_buffers objs c pos real a c' : build_arg objs c pos real a = Ret c' →
  Forall (λ l, 1 < length l) (ac_buffer_values c) → Forall (λ l, 1 < length l) (ac_buffer_values c').
Proof.
  unfold build_arg. intros H Hf. destruct (a_type a);
    try (by injection H as <-); try (by apply run_bind_Ret in H as (? & _ & [= <-])).
  destruct (_ =? 0); [by injection H as <-|]. destruct (_ =? 1); [by injection H as <-|].
  apply run_bind_Ret in H as (l & _ & Hc). destruct (1 <? length l) eqn:Hl.
  - injection Hc as <-. cbn. apply Forall_app. split; [done|]. constructor; [by apply Nat.ltb_lt|done].
  - by apply run_bind_Ret in Hc as (v & _ & (? & _ & [= <-])%run_bind_Ret).
Qed.

Lemma build_arg_cache_buffers args objs skip c preds : build_arg_cache args objs skip = Ret (c, preds) →
  Forall (λ l, 1 < length l) (ac_buffer_values c).
Proof.
  unfold build_arg_cache. intros (s & Hs & [= <- _])%run_bind_Ret.
  assert (Hgen : ∀ l s0, foldM (build_arg_step objs skip) s0 l = Ret s →
    Forall (λ l, 1 < length l) (ac_buffer_values (ab_cache s0)) → Forall (λ l, 1 < length l) (ac_buffer_values (ab_cache s))).
  { clear Hs. induction l as [|[k a] l IH]; intros s0; cbn [foldM]; [by intros [= <-]|].
    unfold build_arg_step at 1. destruct (skip && is_condition a); [apply IH|].
    intros (s1 & (c & Hc & [= <-])%run_bind_Ret & Hf)%run_bind_Ret H0. apply (IH _ Hf). cbn.
    by eapply build_arg_buffers. }
  by apply (Hgen _ _ Hs).
Qed.

Lemma res_positions_lookup l k pos a : l !! pos = Some a → res_like a = true →
  ∃ j, res_positions k l !! j = Some (k + pos) ∧ filter (λ a, res_like a = true) l !! j = Some a.
Proof.
  revert k pos. induction l as [|b l IH]; intros k pos; [done|]. destruct pos as [|pos]; cbn [lookup list_lookup].
  - intros [= ->] Hr. exists 0. cbn [res_positions]. rewrite Hr, filter_cons, decide_True by done.
    cbn. by rewrite Nat.add_0_r.
  - intros Ha Hr. destruct (IH (S k) pos Ha Hr) as (j & Hj & Hf). cbn [res_positions]. rewrite filter_cons.
    rewrite Nat.add_succ_r. destruct (res_like b) eqn:Hb.
    + rewrite decide_True by done. by exists (S j).
    + rewrite decide_False by done. by exists j.
Qed.

Lemma length_res_positions k l : length (res_positions k l) = length (filter (λ a, res_like a = true) l).
Proof.
  revert k. induction l as [|a l IH]; intros k; [done|]. cbn [res_positions]. rewrite filter_cons.
  destruct (res_like a); [rewrite decide_True by done; cbn; by rewrite IH|by rewrite decide_False, IH by done].
Qed.

(** The arguments whose position is filled in at run time. *)
Definition dynamic_arg (objs : list (list CmTypes)) (a : Arg) : Prop :=
  match a_type a with
  | CmRef 0 | CmRef 1 | CmRes _ | CmDep _ => True
  | CmRef o => ∃ l, objs !! o = Some l ∧ 1 < length l
  | _ => False
  end.

Lemma build_arg_dyn objs c pos real a c' p : build_arg objs c pos real a = Ret c' →
  p ∈ dynamic_positions c' → p ∈ dynamic_positions c ∨ (p = pos ∧ dynamic_arg objs a).
Proof.
  unfold build_arg, dynamic_arg, dynamic_positions. intros H. destruct (a_type a) as [| | | | | | | | | | | | | | | | | | | |obj_id| | | | | | | | | |];
    try (by injection H as <-; left); try (by apply run_bind_Ret in H as (? & _ & [= <-]); left).
  - destruct (obj_id =? 0) eqn:H0.
    + apply Nat.eqb_eq in H0 as ->. injection H as <-. cbn. rewrite !elem_of_app, list_elem_of_singleton. tauto.
    + apply Nat.eqb_neq in H0. destruct (obj_id =? 1) eqn:H1.
      * apply Nat.eqb_eq in H1 as ->. injection H as <-. cbn. rewrite !elem_of_app, list_elem_of_singleton. tauto.
      * apply Nat.eqb_neq in H1. apply run_bind_Ret in H as (l & Hl & H). destruct (1 <? length l) eqn:Hlen.
        -- injection H as <-. cbn. rewrite !elem_of_app, list_elem_of_singleton.
           intros Hp. assert (Hd : ∃ l, objs !! obj_id = Some l ∧ 1 < length l).
           { exists l. split; [by apply vec_get_Ret|by apply Nat.ltb_lt]. }
           destruct obj_id as [|[|o]]; [done|done|]. tauto.
        -- apply run_bind_Ret in H as (v & _ & (? & _ & [= <-])%run_bind_Ret). by left.
  - injection H as <-. cbn. rewrite !elem_of_app, list_elem_of_singleton. tauto.
  - injection H as <-. cbn. rewrite !elem_of_app, list_elem_of_singleton. tauto.
Qed.

Lemma build_arg_cache_dyn args objs skip c preds p : build_arg_cache args objs skip = Ret (c, preds) →
  p ∈ dynamic_positions c → ∃ a, kept_args skip args !! p = Some a ∧ dynamic_arg objs a.
Proof.
  unfold build_arg_cache. intros (s & Hs & [= <- _])%run_bind_Ret.
  assert (Hgen : ∀ l k done_ s0,
    foldM (build_arg_step objs skip) s0 (imap (λ i, pair (k + i)) l) = Ret s → ab_idx s0 = length done_ →
    (p ∈ dynamic_positions (ab_cache s0) → ∃ a, done_ !! p = Some a ∧ dynamic_arg objs a) →
    p ∈ dynamic_positions (ab_cache s) → ∃ a, (done_ ++ kept_args skip l) !! p = Some a ∧ dynamic_arg objs a).
  { clear Hs. unfold kept_args. induction l as [|a l IH]; intros k done_ s0.
    - intros [= <-] _ H Hp. rewrite app_nil_r. auto.
    - rewrite imap_pair_cons. cbn [foldM]. rewrite filter_cons. unfold build_arg_step at 1.
      destruct (skip && is_condition a) eqn:Hsk.
      + cbn [run_bind]. rewrite decide_False by done. apply IH.
      + rewrite decide_True by done. intros (s1 & (c & Hc & [= <-])%run_bind_Ret & Hf)%run_bind_Ret Hi H0 Hp.
        rewrite cons_middle, (assoc_L (++)).
        apply (IH (S k) (done_ ++ [a]) _ Hf); [cbn; rewrite length_app, Hi; cbn; lia| |done].
        cbn [ab_cache]. intros Hq. destruct (build_arg_dyn _ _ _ _ _ _ _ Hc Hq) as [Ho|[-> Hd]].
        * destruct (H0 Ho) as (b & Hb & ?). exists b. split; [by apply lookup_app_l_Some|done].
        * exists a. split; [|done]. rewrite Hi. by apply list_lookup_middle. }
  change (imap pair args) with (imap (λ i, pair (0 + i)) args) in Hs.
  apply (Hgen _ _ [] _ Hs); [done|]. unfold dynamic_positions. cbn. by intros ?%not_elem_of_nil.
Qed.

(** The value an argument asks for. *)
Definition arg_gets (obs : nat → World) (tbl : table nat) (objs : list (list CmTypes)) (g : Graph)
    (id : nat) (node : Node) (t node_index slot pred_index workers : nat) (a : Arg) (x : CmTypes) : Prop :=
  match a_type a with
  | CmRef 0 => x = CmUsize node_index
  | CmRef 1 => x = CmUsize workers
  | CmRef o => ∃ l, objs !! o = Some l ∧ rotated l node_index x
  | CmRes _ | CmDep _ => ∃ rp, build_res_pred g id node a = Ret (Some rp)
                               ∧ res_value obs tbl t node_index slot pred_index rp x
  | CmBarrier _ => x = CmNone
  | c => x = c
  end.

(** A buffer that holds the template, apart from the positions filled in at run time. *)
Definition template_like (c : ArgCacheEntry) (buf : list CmTypes) : Prop :=
  length buf = length (ac_args c) ∧ ∀ p, p ∉ dynamic_positions c → buf !! p = ac_args c !! p.

Section whole.
Context (obs : nat → World) (fuel : nat) (ssm : bool) (workers : nat) (tbl : table nat)
  (exec_slot : option nat) (exec_gen : Z).
Context (g : Graph) (id : nat) (node : Node) (objs : list (list CmTypes)) (c : ArgCacheEntry)
  (rps : list ResPredCache).

Lemma populate_cached_dynamic ni slot pi s :
  populate_cached_args_into obs fuel ssm workers tbl exec_slot exec_gen [] (set_res_predecessors rps c) ni slot pi s
  = populate_dynamic_args_into obs fuel ssm tbl exec_slot exec_gen (ac_args c) (set_res_predecessors rps c) ni slot pi
      (match ac_rt_workers_indexes c with [] => 0 | _ => workers end) s.
Proof.
  unfold populate_cached_args_into. cbn [set_res_predecessors ac_buffer_ref_indexes ac_rt_idxs_indexes
    ac_rt_workers_indexes ac_res_indexes ac_args]. cbn [app].
  unfold populate_dynamic_args_into, process_buffer_refs, process_runtime_refs.
  cbn [set_res_predecessors ac_buffer_ref_indexes ac_rt_idxs_indexes
    ac_rt_workers_indexes ac_res_indexes ac_args ac_buffer_values ac_res_predecessors].
  destruct (ac_buffer_ref_indexes c), (ac_rt_idxs_indexes c), (ac_rt_workers_indexes c), (ac_res_indexes c); done.
Qed.

(** What the writes of a dynamic pass amount to: a buffer [v] that holds the template apart
    from the positions of the instance index, of the number of workers, of the rotated
    objects, and of the dependencies, which hold [xs]. *)
Record written (ni wk : nat) (xs : list CmTypes) (v : list CmTypes) : Prop := {
  wr_rest : ∀ p, p ∉ dynamic_positions c → v !! p = ac_args c !! p;
  wr_index : ∀ p, p ∈ ac_rt_idxs_indexes c → v !! p = Some (CmUsize ni);
  wr_workers : ∀ p, p ∈ ac_rt_workers_indexes c → v !! p = Some (CmUsize wk);
  wr_objects : ∀ k p l, ac_buffer_ref_indexes c !! k = Some p → ac_buffer_values c !! k = Some l →
    ∃ x, rotated l ni x ∧ v !! p = Some x;
  wr_results : ∀ k p x, ac_res_indexes c !! k = Some p → xs !! k = Some x → v !! p = Some x;
}.

(** The value of an argument that is not a dependency, and the place of a dependency. *)
Lemma written_args preds t slot pi ni xs v
    (Hobj : ∀ a, a ∈ kept_args true (n_args node) → objects_ok objs a)
    (Hcache : build_arg_cache (n_args node) objs true = Ret (c, preds))
    (Hpreds : build_res_preds g id node (n_args node) true = Ret rps) (Hlen : length xs = length rps)
    (Hw : written ni (match ac_rt_workers_indexes c with [] => 0 | _ => workers end) xs v) :
  ∀ pos a, kept_args true (n_args node) !! pos = Some a →
    if res_like a then
      ∃ k rp x, ac_res_indexes c !! k = Some pos ∧ rps !! k = Some rp ∧ xs !! k = Some x ∧ v !! pos = Some x
                ∧ build_res_pred g id node a = Ret (Some rp)
    else ∃ x, v !! pos = Some x ∧ arg_gets obs tbl objs g id node t ni slot pi workers a x.
Proof.
  intros pos a Ha.
  destruct (build_arg_cache_inv (n_args node) objs true Hobj) as (st & Hst & Hinv).
  rewrite Hcache in Hst. injection Hst as Hc _. pose proof (bi_slots _ _ _ _ Hinv pos a Ha) as Hslots. rewrite <- Hc in Hslots.
  pose proof (build_arg_cache_res _ _ _ _ _ Hcache) as Hri.
  pose proof (build_res_preds_spec _ _ _ _ _ _ Hpreds) as Hrps. destruct Hw as [Hrest Hidx Hwk Hbufs Hress].
  assert (Hdep : res_like a = true → ∃ k rp x, ac_res_indexes c !! k = Some pos ∧ rps !! k = Some rp ∧ xs !! k = Some x
                   ∧ v !! pos = Some x ∧ build_res_pred g id node a = Ret (Some rp)).
  { intros Hl. destruct (res_positions_lookup _ 0 pos a Ha Hl) as (j & Hj & Hf).
    destruct (Forall2_lookup_l _ _ _ _ _ Hrps Hf) as (rp & Hrp & Hb).
    destruct (lookup_lt_is_Some_2 xs j) as [x Hx]; [rewrite Hlen; by eapply lookup_lt_Some|].
    exists j, rp, x. rewrite Hri. do 3 (split; [done|]). split; [|done]. apply (Hress j); [by rewrite Hri|done]. }
  assert (Hstat : ¬ dynamic_arg objs a → v !! pos = ac_args c !! pos).
  { intros Hn. apply Hrest. intros Hd. destruct (build_arg_cache_dyn _ _ _ _ _ pos Hcache Hd) as (a' & Ha' & Hdyn).
    rewrite Ha in Ha'. by injection Ha' as <-. }
  destruct (res_like a) eqn:Hlike; [by apply Hdep|]. clear Hdep.
  unfold slot_ok in Hslots. unfold dynamic_arg in Hstat. unfold res_like in Hlike. unfold arg_gets.
  destruct (a_type a) as [| | | | | | | | | | | | | | | | | | | |obj_id| | | | | | | | | |]; try discriminate Hlike;
    try (eexists; split; [rewrite Hstat by (intros []); exact Hslots|reflexivity]).
  destruct obj_id as [|[|o]].
  - exists (CmUsize ni). split; [by apply Hidx, Hslots|done].
  - exists (CmUsize workers). split; [|done]. destruct Hslots as [Hpos _]. rewrite (Hwk pos Hpos).
    by destruct (ac_rt_workers_indexes c); [apply not_elem_of_nil in Hpos|].
  - destruct Hslots as (l & Hl & [(_ & _ & k & Hk & Hbk)|(x & -> & Hx)]).
    + destruct (Hbufs k pos l Hk Hbk) as (x & ? & ?). exists x. split; [done|]. by exists l.
    + exists x. rewrite Hstat; [|intros (l & Hl' & Hlen'); rewrite Hl in Hl'; injection Hl' as <-; cbn in Hlen'; lia].
      split; [done|]. exists [x]. split; [done|]. unfold rotated. cbn [length]. by rewrite Nat.mod_1_r.
Qed.

(** The dynamic pass on a buffer that holds the template. *)
Lemma populate_written preds xs ni slot pi buf b t
    (Hobj : ∀ a, a ∈ kept_args true (n_args node) → objects_ok objs a)
    (Hcache : build_arg_cache (n_args node) objs true = Ret (c, preds)) (Hlen : length rps = length (ac_res_indexes c))
    (Hres : Forall2 (res_value obs tbl t ni slot pi) rps xs) (Hbuf : template_like c buf) :
  let wk := match ac_rt_workers_indexes c with [] => 0 | _ => workers end in
  ∃ v t', populate_dynamic_args_into obs fuel ssm tbl exec_slot exec_gen buf (set_res_predecessors rps c)
            ni slot pi wk (b, t) = Ret (Some (v, (false, t')))
    ∧ length v = length (n_args node) ∧ written ni wk xs v.
Proof.
  intros wk. destruct (build_arg_cache_inv (n_args node) objs true Hobj) as (st & Hst & Hinv).
  rewrite Hcache in Hst. injection Hst as Hc _. destruct Hinv as [_ Hl Hkl _ _ Hbl _ Hnd Hdl].
  rewrite <- Hc in Hl, Hbl, Hnd, Hdl. pose proof (build_arg_cache_buffers _ _ _ _ _ Hcache) as Hbv.
  destruct Hbuf as [Hbuf1 Hbuf2].
  destruct (populate_dynamic_writes obs fuel ssm tbl exec_slot exec_gen c rps xs ni slot pi wk buf b t)
    as (v & t' & Hp & Hvl & Hout & Hidx & Hwk & Hbufs & Hress); try done.
  { intros p Hp. apply Hdl in Hp. lia. }
  exists v, t'. split; [done|]. split; [lia|]. constructor; try done.
  intros p Hpn. rewrite Hout by done. by apply Hbuf2.
Qed.

(** A buffer that holds the template gets every argument's value. *)
Lemma populate_template preds xs ni slot pi buf b t
    (Hobj : ∀ a, a ∈ kept_args true (n_args node) → objects_ok objs a)
    (Hcache : build_arg_cache (n_args node) objs true = Ret (c, preds))
    (Hpreds : build_res_preds g id node (n_args node) true = Ret rps)
    (Hres : Forall2 (res_value obs tbl t ni slot pi) rps xs) (Hbuf : template_like c buf) :
  let wk := match ac_rt_workers_indexes c with [] => 0 | _ => workers end in
  ∃ v t', populate_dynamic_args_into obs fuel ssm tbl exec_slot exec_gen buf (set_res_predecessors rps c)
            ni slot pi wk (b, t) = Ret (Some (v, (false, t')))
    ∧ template_like c v ∧ length v = length (n_args node)
    ∧ (∀ p, length (kept_args true (n_args node)) <= p < length (n_args node) → v !! p = ac_args c !! p)
    ∧ ∀ pos a, kept_args true (n_args node) !! pos = Some a →
        ∃ x, v !! pos = Some x ∧ arg_gets obs tbl objs g id node t ni slot pi workers a x.
Proof.
  intros wk. destruct (build_arg_cache_inv (n_args node) objs true Hobj) as (st & Hst & Hinv).
  rewrite Hcache in Hst. injection Hst as Hc _. destruct Hinv as [_ Hlen _ _ _ _ _ _ Hdl]. rewrite <- Hc in Hlen, Hdl.
  destruct (populate_written preds xs ni slot pi buf b t Hobj Hcache) as (v & t' & Hp & Hvl & Hw); [|done..|].
  { rewrite (build_arg_cache_res _ _ _ _ _ Hcache), length_res_positions. symmetry.
    eapply Forall2_length. by eapply build_res_preds_spec. }
  exists v, t'. split; [done|]. split; [|split; [done|split]].
  - split; [lia|]. apply Hw.
  - intros p Hpl. apply (wr_rest _ _ _ _ Hw). intros Hq%Hdl. lia.
  - intros pos a Ha. pose proof (written_args preds t slot pi ni xs v Hobj Hcache Hpreds (eq_sym (Forall2_length _ _ _ Hres)) Hw pos a Ha) as Hv.
    destruct (res_like a) eqn:Hl; [|done]. destruct Hv as (k & rp & x & _ & Hrp & Hx & Hv & Hb). exists x. split; [done|].
    pose proof (Forall2_lookup_lr _ _ _ _ _ _ Hres Hrp Hx). unfold res_like in Hl. unfold arg_gets.
    destruct (a_type a); try discriminate Hl; by exists rp.
Qed.
End whole.

(** C18. What a task finds in its argument buffer when each of its dependencies resolves to one
    cell, which is stored (no argument gathers several), and the objects its arguments name
    exist, with the argument cache built for its node: [populate_cached_args_into] returns
    without waiting and without raising the [stale] flag, with one position per argument of the
    node, and the position of every argument that is not a condition holds what it asks for: the
    instance index, the number of workers, its element of an object rotation, the value of the
    cell it reads, its literal, or nothing for an ordering dependency or a barrier. *)
Theorem populate_cached_spec obs fuel ssm workers tbl exec_slot exec_gen g id node objs c preds rps xs ni slot pi b t
    (Hobj : ∀ a, a ∈ kept_args true (n_args node) → objects_ok objs a)
    (Hcache : build_arg_cache (n_args node) objs true = Ret (c, preds))
    (Hpreds : build_res_preds g id node (n_args node) true = Ret rps)
    (Hres : Forall2 (res_value obs tbl t ni slot pi) rps xs) :
  ∃ v t', populate_cached_args_into obs fuel ssm workers tbl exec_slot exec_gen [] (set_res_predecessors rps c)
            ni slot pi (b, t) = Ret (Some (v, (false, t')))
    ∧ length v = length (n_args node)
    ∧ ∀ pos a, kept_args true (n_args node) !! pos = Some a →
        ∃ x, v !! pos = Some x ∧ arg_gets obs tbl objs g id node t ni slot pi workers a x.
Proof.
  rewrite populate_cached_dynamic.
  destruct (populate_template obs fuel ssm workers tbl exec_slot exec_gen g id node objs c rps preds xs ni slot pi
              (ac_args c) b t Hobj Hcache Hpreds Hres) as (v & t' & Hp & _ & Hl & _ & Hv); [done|].
  by exists v, t'.
Qed.

(** The persistent template of a worker: a buffer that a previous task of the same node
    left behind, patched in place, ends up with the same contents as a buffer made
    afresh from the cached template, whatever that previous task's instance, slot and
    values were; and it can be used again. *)
Theorem template_reuse obs fuel ssm workers tbl exec_slot exec_gen g id node objs c preds rps xs ni slot pi b t buf
    (Hobj : ∀ a, a ∈ kept_args true (n_args node) → objects_ok objs a)
    (Hcache : build_arg_cache (n_args node) objs true = Ret (c, preds))
    (Hpreds : build_res_preds g id node (n_args node) true = Ret rps)
    (Hres : Forall2 (res_value obs tbl t ni slot pi) rps xs) (Hbuf : template_like c buf) :
  ∃ v t1 t2,
    populate_cached_args_into obs fuel ssm workers tbl exec_slot exec_gen [] (set_res_predecessors rps c)
      ni slot pi (b, t) = Ret (Some (v, (false, t1)))
    ∧ populate_dynamic_args_into obs fuel ssm tbl exec_slot exec_gen buf (set_res_predecessors rps c) ni slot pi
        (match ac_rt_workers_indexes c with [] => 0 | _ => workers end) (b, t) = Ret (Some (v, (false, t2)))
    ∧ template_like c v.
Proof.
  rewrite populate_cached_dynamic. set (wk := match ac_rt_workers_indexes c with [] => 0 | _ => workers end).
  destruct (build_arg_cache_inv (n_args node) objs true Hobj) as (st & Hst & Hinv).
  rewrite Hcache in Hst. injection Hst as Hc _. destruct Hinv as [_ Hlen Hkl _ _ Hbl _ Hnd Hdl].
  rewrite <- Hc in Hlen, Hbl, Hnd, Hdl.
  pose proof (build_arg_cache_buffers _ _ _ _ _ Hcache) as Hbv.
  assert (Hrl : length (ac_res_indexes c) = length rps).
  { rewrite (build_arg_cache_res _ _ _ _ _ Hcache), length_res_positions.
    eapply Forall2_length. by eapply build_res_preds_spec. }
  assert (Hxl : length rps = length xs) by (by eapply Forall2_length).
  assert (Hlt : ∀ buf, template_like c buf → ∀ p, p ∈ dynamic_positions c → p < length buf).
  { intros buf' [Hb _] p Hp%Hdl. lia. }
  destruct (populate_dynamic_writes obs fuel ssm tbl exec_slot exec_gen c rps xs ni slot pi wk (ac_args c) b t)
    as (v & t1 & Hp1 & Hl1 & Ho1 & Hi1 & Hw1 & Hb1 & Hr1); try done; [by apply Hlt|].
  destruct (populate_dynamic_writes obs fuel ssm tbl exec_slot exec_gen c rps xs ni slot pi wk buf b t)
    as (v2 & t2 & Hp2 & Hl2 & Ho2 & Hi2 & Hw2 & Hb2 & Hr2); try done; [by apply Hlt|].
  destruct Hbuf as [Hbuf1 Hbuf2].
  assert (Heq : v2 = v).
  { apply list_eq. intros p. destruct (decide (p ∈ dynamic_positions c)) as [Hd|Hd].
    - unfold dynamic_positions in Hd. rewrite !elem_of_app in Hd. destruct Hd as [Hd|[Hd|[Hd|Hd]]].
      + by rewrite Hi1, Hi2.
      + by rewrite Hw1, Hw2.
      + apply list_elem_of_lookup in Hd as [k Hk]. pose proof (lookup_lt_Some _ _ _ Hk) as Hkl'.
        rewrite Hbl in Hkl'. apply lookup_lt_is_Some_2 in Hkl' as [l Hkl'].
        destruct (Hb1 k p l Hk Hkl') as (x & Hx & ->), (Hb2 k p l Hk Hkl') as (y & Hy & ->).
        unfold rotated in *. congruence.
      + apply list_elem_of_lookup in Hd as [k Hk]. pose proof (lookup_lt_Some _ _ _ Hk) as Hkl'.
        rewrite Hrl, Hxl in Hkl'. apply lookup_lt_is_Some_2 in Hkl' as [x Hx].
        by rewrite (Hr1 k p x), (Hr2 k p x).
    - rewrite Ho1, Ho2 by done. by apply Hbuf2. }
  subst v2. exists v, t1, t2. split; [done|]. split; [done|]. split; [lia|done].
Qed.

(** ** Instances *)

(** A node with an index, a worker count, a rotation, a literal and two dependencies. *)
Definition demo_args : list Arg :=
  [mkArg (CmRef 0) None None; demo_res 0 [0%Z]; mkArg (CmRef 2) None None; mkArg (CmU8 7) None None;
   mkArg (CmRef 1) None None].
Definition demo_dep_graph : Graph := set_nodes Graph_new [demo_node 0 1 []; demo_node 1 4 demo_args].
Definition demo_objs : list (list CmTypes) := [[]; []; [CmU8 1; CmU8 2]].
Definition demo_cache : ArgCacheEntry :=
  mkArgCache [CmNone; CmNone; CmNone; CmU8 7; CmNone] [2] [[CmU8 1; CmU8 2]] [0] [4] [1] [1] [].
Definition demo_rp : ResPredCache := mkResPred 1 0 [0%Z] 1 None None 4 false false.
Definition demo_world : World :=
  mkWorld (mkResultMap [None; None; None; None; None] (replicate 5 5%Z) (replicate 5 4%Z) 5 [0; 1] [1; 4] 2 1) false [1%Z].

Lemma demo_objects a : a ∈ kept_args true (n_args (demo_node 1 4 demo_args)) → objects_ok demo_objs a.
Proof.
  change (kept_args true (n_args (demo_node 1 4 demo_args))) with demo_args. unfold demo_args.
  rewrite !elem_of_cons. intros [->|[->|[->|[->|[->|[]%not_elem_of_nil]]]]]; unfold objects_ok; cbn; try done;
    [left; lia| |left; lia]. right. by eexists _, _.
Qed.

Lemma demo_values ni pi : ni < 4 →
  Forall2 (res_value (λ _, demo_world) (empty_table 2) 0 ni 0 pi) [demo_rp] [CmU64 5].
Proof.
  intros Hni. constructor; [|constructor]. exists 0. split.
  - by destruct ni as [|[|[|[|ni]]]]; [reflexivity..|lia].
  - intros t' _. reflexivity.
Qed.

Lemma populate_cached_spec_witness :
  ∃ v t', populate_cached_args_into (λ _, demo_world) 9 false 6 (empty_table 2) (Some 0) 1 []
            (set_res_predecessors [demo_rp] demo_cache) 3 0 0 (false, 0) = Ret (Some (v, (false, t')))
    ∧ length v = length demo_args
    ∧ ∀ pos a, kept_args true demo_args !! pos = Some a →
        ∃ x, v !! pos = Some x
             ∧ arg_gets (λ _, demo_world) (empty_table 2) demo_objs demo_dep_graph 1 (demo_node 1 4 demo_args) 0 3 0 0 6 a x.
Proof.
  apply (populate_cached_spec (λ _, demo_world) 9 false 6 (empty_table 2) (Some 0) 1 demo_dep_graph 1
           (demo_node 1 4 demo_args) demo_objs demo_cache (<[0 := [1]]> ∅) [demo_rp] [CmU64 5] 3 0 0 false 0).
  - exact demo_objects.
  - reflexivity.
  - reflexivity.
  - apply demo_values. lia.
Defined.

Lemma template_reuse_witness :
  ∃ v t1 t2,
    populate_cached_args_into (λ _, demo_world) 9 false 6 (empty_table 2) (Some 0) 1 []
      (set_res_predecessors [demo_rp] demo_cache) 2 0 0 (false, 0) = Ret (Some (v, (false, t1)))
    ∧ populate_dynamic_args_into (λ _, demo_world) 9 false (empty_table 2) (Some 0) 1
        [CmUsize 3; CmU64 4; CmU8 2; CmU8 7; CmUsize 6] (set_res_predecessors [demo_rp] demo_cache) 2 0 0 6 (false, 0)
      = Ret (Some (v, (false, t2)))
    ∧ template_like demo_cache v.
Proof.
  apply (template_reuse (λ _, demo_world) 9 false 6 (empty_table 2) (Some 0) 1 demo_dep_graph 1
           (demo_node 1 4 demo_args) demo_objs demo_cache (<[0 := [1]]> ∅) [demo_rp] [CmU64 5] 2 0 0 false 0).
  - exact demo_objects.
  - reflexivity.
  - reflexivity.
  - apply demo_values. lia.
  - split; [done|]. intros [|[|[|[|[|p]]]]]; cbn; try done; intros Hp; exfalso; apply Hp;
      unfold dynamic_positions; cbn; rewrite !elem_of_cons; tauto.
Defined.

(** A node whose last dependency gathers several cells: when two instances of it run as
    one bulk task, the second instance's buffer still holds the tail of the first
    instance's gathered values behind its own, so that a variadic kernel is called with
    three values where the node declares two. *)
Theorem bulk_gather_accumulates :
  let c := mkArgCache [CmNone] [] [] [] [] [0] [0] [mkResPred 1 0 [0; 1]%Z 3 None None 4 false false] in
  let w := λ _ : nat, mkWorld (mkResultMap (replicate 7 None) [0; 10; 20; 0; 0; 0; 0]%Z (replicate 7 4%Z) 7 [0; 3] [3; 4] 2 1)
                        false [1%Z] in
  let run_one buf i := populate_dynamic_args_into w 9 false (empty_table 2) (Some 0) 1 buf c i 0 i 0 (false, 0) in
  run_one [CmNone] 0 = Ret (Some ([CmU64 0; CmU64 10], (false, 2)))
  ∧ run_one [CmU64 0; CmU64 10] 1 = Ret (Some ([CmU64 10; CmU64 20; CmU64 10], (false, 2))).
Proof. split; reflexivity. Qed.
