(* ===== verification/Unchecked.v ===== *)
(** The wrappers that do not check their arguments ([select_unchecked_wrappers] of
    [runtime/init.rs]).

    A kernel may come with a twin that takes the variants of its arguments for granted. It
    is chosen when the variants can be told from the graph; here is that they are right:
    whatever buffer a task of the node is given holds the variants of the declaration. *)
From S2P Require Import Prelude Types GraphStruct Graph Buffers NodeCache Tables ResultMap ArgRes Populate.
From stdpp Require Import strings.

(** Every argument that reads a result has its predecessor recorded. *)
Definition results_recorded (e : NodeCacheEntry) : Prop :=
  length (ac_res_predecessors (ce_arg_cache e)) = length (ac_res_indexes (ce_arg_cache e)).

Lemma recorded_ok g objs s node c preds rps : build_arg_cache (n_args node) objs true = Ret (c, preds) →
  build_res_preds g s node (n_args node) true = Ret rps → length rps = length (ac_res_indexes c).
Proof.
  intros Hc Hr. rewrite (build_arg_cache_res _ _ _ _ _ Hc), length_res_positions. symmetry.
  eapply Forall2_length. by eapply build_res_preds_spec.
Qed.

Lemma position_lookup i l k : position i l = Some k → l !! k = Some i.
Proof.
  revert k. induction l as [|y l IH]; intros k; cbn; [done|]. destruct (i =? y) eqn:Hi; [intros [= <-]; apply Nat.eqb_eq in Hi; by subst|].
  destruct (position i l) eqn:Hp; [|done]. intros [= <-]. by apply IH.
Qed.

Lemma position_None i l : position i l = None → i ∉ l.
Proof.
  induction l as [|y l IH]; cbn; [by intros _ ?%not_elem_of_nil|]. destruct (i =? y) eqn:Hi; [done|]. apply Nat.eqb_neq in Hi.
  destruct (position i l); [done|]. intros _ [->|?]%elem_of_cons; [done|]. by apply IH.
Qed.

Section unchecked.
Context `{FuncReg}.

(** ** What the selection changes *)

(** The declaration of a node's function is met at every fixed position. *)
Definition declaration_proven (cache : list NodeCacheEntry) (gb : table nat) (e : NodeCacheEntry) : Prop :=
  ce_template_stable e = true ∧ ∃ sp, get_func_argspec (ce_func_name e) = Some sp
    ∧ spec_fixed sp ≤ length (ac_args (ce_arg_cache e))
    ∧ ∀ i v, i < spec_fixed sp → sp !! i = Some v → slot_proven e cache gb (i, v) = Ret true.

(** The entry as it was, or with the twin of its function when the declaration is met. *)
Definition selected (cache : list NodeCacheEntry) (gb : table nat) (e e' : NodeCacheEntry) : Prop :=
  e' = e ∨ ∃ f, get_unchecked_func (ce_func_name e) = Some f ∧ e' = set_unchecked f e ∧ declaration_proven cache gb e.

Lemma selected_fields cache gb e e' : selected cache gb e e' →
  ce_factor e' = ce_factor e ∧ ce_is_condition e' = ce_is_condition e ∧ ce_is_fanout_bulk e' = ce_is_fanout_bulk e
  ∧ ce_worker_resolvable e' = ce_worker_resolvable e ∧ ce_arg_cache e' = ce_arg_cache e ∧ ce_func_name e' = ce_func_name e
  ∧ ce_name e' = ce_name e ∧ ce_template_stable e' = ce_template_stable e.
Proof. by intros [-> | (f & _ & -> & _)]. Qed.

Lemma provable_total e cache gb i : results_recorded e → ∃ o, provable_variant e i cache gb = Ret o.
Proof.
  intros He. unfold provable_variant. destruct (position i (ac_res_indexes (ce_arg_cache e))) as [k|] eqn:Hk.
  - apply position_lookup, lookup_lt_Some in Hk. rewrite <- He in Hk. destruct (vec_get_lt _ _ Hk) as (rp & -> & _).
    cbn [run_bind]. repeat case_match; by eexists.
  - repeat case_match; by eexists.
Qed.

(** Of the other entries only the names of the functions matter. *)
Lemma provable_ext e i cache cache' gb : Forall2 (λ x y, ce_func_name y = ce_func_name x) cache cache' →
  provable_variant e i cache' gb = provable_variant e i cache gb.
Proof.
  intros Hall. unfold provable_variant. destruct (position i (ac_res_indexes (ce_arg_cache e))) as [k|]; [|done].
  destruct (vec_get (ac_res_predecessors (ce_arg_cache e)) k) as [rp|]; [|done]. cbn [run_bind].
  destruct (rp_is_dep rp); [done|]. destruct (_ || _); [done|]. destruct (is_some _); [done|]. f_equal.
  destruct (cache !! rp_res_node_id rp) as [x|] eqn:Hx.
  - destruct (Forall2_lookup_l _ _ _ _ _ Hall Hx) as (y & -> & Hn). cbn. by rewrite Hn.
  - apply lookup_ge_None in Hx. by rewrite lookup_ge_None_2 by (by rewrite <- (Forall2_length _ _ _ Hall)).
Qed.

Lemma select_one cache c gb id : Forall results_recorded cache → Forall2 (selected cache gb) cache c → c !! id = cache !! id →
  id < length cache → ∃ c', select_unchecked gb c id = Ret c' ∧ Forall2 (selected cache gb) cache c' ∧ ∀ i, i ≠ id → c' !! i = c !! i.
Proof.
  intros Hall Hs Hsame Hid. unfold select_unchecked. destruct (lookup_lt_is_Some_2 cache id Hid) as [e He]. rewrite He in Hsame.
  rewrite (vec_get_lookup _ _ _ Hsame). cbn [run_bind].
  destruct (negb (ce_template_stable e) || _) eqn:Hst; [by exists c|]. apply orb_false_iff in Hst as [Hst%negb_false_iff _].
  destruct (get_func_argspec (ce_func_name e)) as [sp|] eqn:Hsp; [|by exists c].
  destruct (_ <? _) eqn:Hlen; [by exists c|]. apply Nat.ltb_ge in Hlen.
  assert (Hnames : Forall2 (λ x y, ce_func_name y = ce_func_name x) cache c).
  { eapply Forall2_impl; [exact Hs|]. intros x y Hxy. by apply selected_fields in Hxy as (_ & _ & _ & _ & _ & ? & _). }
  assert (Hslot : ∀ iv, slot_proven e c gb iv = slot_proven e cache gb iv).
  { intros [i v]. unfold slot_proven. cbn [fst snd]. by rewrite (provable_ext e i cache c gb Hnames). }
  destruct (allM_Ret (slot_proven e c gb) (imap pair (take (spec_fixed sp) sp))) as (b & -> & Hb).
  { intros [i v] _. rewrite Hslot. unfold slot_proven. destruct (String.eqb _ _); [by eexists|].
    destruct (provable_total e cache gb i) as [o Ho]; [by eapply (Forall_lookup_1 _ _ _ _ Hall)|]. cbn [fst snd]. rewrite Ho. by eexists. }
  cbn [run_bind]. destruct b; [|by exists c]. cbn [negb].
  destruct (get_unchecked_func (ce_func_name e)) as [f|] eqn:Hf; [|by exists c].
  rewrite vec_set_lt by (rewrite <- (Forall2_length _ _ _ Hs); done). eexists. split; [done|].
  split; [|intros i Hne; by apply list_lookup_insert_ne].
  apply Forall2_same_length_lookup_2; [rewrite length_insert; by apply Forall2_length in Hs|]. intros i x y Hx Hy.
  destruct (decide (i = id)) as [->|Hne].
  - rewrite list_lookup_insert_eq in Hy by (rewrite <- (Forall2_length _ _ _ Hs); done). rewrite He in Hx. injection Hx as <-. injection Hy as <-.
    right. exists f. split; [done|]. split; [done|]. split; [done|]. exists sp. split; [done|]. split; [done|].
    intros i v Hi Hv. rewrite <- Hslot. apply Hb; [done|]. apply list_elem_of_lookup. exists i.
    rewrite list_lookup_imap, lookup_take_lt, Hv by done. done.
  - rewrite list_lookup_insert_ne in Hy by done. by pose proof (Forall2_lookup_lr _ _ _ _ _ _ Hs Hx Hy).
Qed.

(** The selection does not panic, and changes at most the function of an entry. *)
Lemma select_ok disabled cache gb : Forall results_recorded cache →
  ∃ cache', select_unchecked_wrappers disabled cache gb = Ret cache' ∧ Forall2 (selected cache gb) cache cache'.
Proof.
  intros Hall. assert (Hrefl : Forall2 (selected cache gb) cache cache) by (apply Forall_Forall2_diag, Forall_forall; by left).
  unfold select_unchecked_wrappers. destruct disabled; [by exists cache|].
  assert (Hgen : ∀ k, k ≤ length cache → ∃ c, foldM (select_unchecked gb) cache (range 0 k) = Ret c
            ∧ Forall2 (selected cache gb) cache c ∧ ∀ i, k ≤ i → c !! i = cache !! i).
  { induction k as [|k IH]; intros Hk; [by exists cache|]. destruct IH as (c & Hc & Hs & Hrest); [lia|].
    rewrite range_snoc, foldM_app, Hc by lia. cbn [run_bind foldM].
    destruct (select_one cache c gb k Hall Hs (Hrest k (le_n k))) as (c' & Hc' & Hs' & Hne); [lia|]. rewrite Hc'. cbn [run_bind].
    exists c'. split; [done|]. split; [done|]. intros i Hi. rewrite Hne by lia. apply Hrest. lia. }
  destruct (Hgen (length cache)) as (c & Hc & Hs & _); [done|]. by exists c.
Qed.

(** ** The variants are right *)

(** The values read have the variants their functions return. *)
Definition results_typed (cache : list NodeCacheEntry) (rps : list ResPredCache) (xs : list CmTypes) : Prop :=
  ∀ k rp x, rps !! k = Some rp → xs !! k = Some x →
    if rp_is_dep rp then x = CmNone
    else ∀ pred tag, cache !! rp_res_node_id rp = Some pred → get_func_ret_variant (ce_func_name pred) = Some tag → variant_tag x = tag.

Lemma forallb_tags first tags : forallb (String.eqb first) tags = true → ∀ t, t ∈ tags → t = first.
Proof. intros Hb t Ht. symmetry. apply String.eqb_eq. by apply (proj1 (forallb_forall _ _) Hb), list_elem_of_In. Qed.

Lemma mem_true i l : mem i l = true → i ∈ l.
Proof. unfold mem. by case_decide. Qed.
Lemma mem_false i l : mem i l = false → i ∉ l.
Proof. unfold mem. by case_decide. Qed.

Lemma variant_right cache gb e c rps ni wk xs v i tag :
  ce_arg_cache e = set_res_predecessors rps c → length xs = length rps →
  length (ac_buffer_ref_indexes c) = length (ac_buffer_values c) →
  written c ni wk xs v → results_typed cache rps xs → provable_variant e i cache gb = Ret (Some tag) →
  ∃ x, v !! i = Some x ∧ variant_tag x = tag.
Proof.
  intros Hac Hlen Hbl Hw Ht. unfold provable_variant. rewrite Hac. cbn [set_res_predecessors ac_res_indexes ac_res_predecessors
    ac_rt_idxs_indexes ac_rt_workers_indexes ac_buffer_ref_indexes ac_buffer_values ac_args].
  destruct (position i (ac_res_indexes c)) as [k|] eqn:Hk.
  - apply position_lookup in Hk. intros (rp & Hrp%vec_get_Ret & Hv)%run_bind_Ret.
    destruct (lookup_lt_is_Some_2 xs k) as [x Hx]; [rewrite Hlen; by eapply lookup_lt_Some|].
    exists x. split; [by eapply wr_results|]. specialize (Ht k rp x Hrp Hx). destruct (rp_is_dep rp).
    + injection Hv as <-. by subst x.
    + destruct (_ || _); [done|]. destruct (is_some _); [done|]. injection Hv as Hv.
      destruct (cache !! rp_res_node_id rp) as [pred|] eqn:Hp; [|done]. cbn in Hv. by apply (Ht pred).
  - apply position_None in Hk. destruct (mem i (ac_rt_idxs_indexes c)) eqn:H1; cbn [orb].
    + intros [= <-]. eexists. split; [by apply (wr_index _ _ _ _ _ Hw), mem_true|done].
    + destruct (mem i (ac_rt_workers_indexes c)) eqn:H2.
      * intros [= <-]. eexists. split; [by apply (wr_workers _ _ _ _ _ Hw), mem_true|done].
      * apply mem_false in H1, H2. destruct (position i (ac_buffer_ref_indexes c)) as [b|] eqn:Hb.
        -- apply position_lookup in Hb. destruct (lookup_lt_is_Some_2 (ac_buffer_values c) b) as [l Hl]; [rewrite <- Hbl; by eapply lookup_lt_Some|].
           rewrite Hl. intros [= Htags]. destruct (wr_objects _ _ _ _ _ Hw b i l Hb Hl) as (x & Hx & Hv). exists x. split; [done|].
           unfold rotated in Hx. apply list_elem_of_lookup_2, (list_elem_of_fmap_2 variant_tag) in Hx. cbn in Htags.
           destruct (variant_tag <$> l) as [|first tags]; [done|]. destruct (forallb (String.eqb first) tags) eqn:Hall; [|done].
           injection Htags as <-. apply elem_of_cons in Hx as [->|Hx]; [done|]. by eapply forallb_tags.
        -- apply position_None in Hb. intros [= Hv]. apply fmap_Some in Hv as (x & Hx & ->). exists x. split; [|done].
           rewrite (wr_rest _ _ _ _ _ Hw); [done|]. unfold dynamic_positions. rewrite !elem_of_app. tauto.
Qed.

(** A twin of a kernel that does not check its arguments is chosen only for tasks that
    give it what it declares. The selection never panics and changes nothing but the
    function of an entry. Where it chose the twin, every buffer that the argument
    resolution makes for a task of the node, whatever the instance and the slot, has the
    declared positions and holds at each of them a value of the declared variant, provided the results it read
    have the variants their functions are registered with. *)
Theorem unchecked_sound disabled cache gb g id node objs c preds rps e
    (Hrec : Forall results_recorded cache) (He : cache !! id = Some e) (Hplain : ce_uses_unchecked e = false)
    (Hobj : ∀ a, a ∈ kept_args true (n_args node) → objects_ok objs a)
    (Hcache : build_arg_cache (n_args node) objs true = Ret (c, preds))
    (Hpreds : build_res_preds g id node (n_args node) true = Ret rps)
    (Hac : ce_arg_cache e = set_res_predecessors rps c) :
  ∃ cache', select_unchecked_wrappers disabled cache gb = Ret cache'
    ∧ Forall2 (λ x y, y = x ∨ ∃ f, y = set_unchecked f x) cache cache'
    ∧ ∀ e', cache' !! id = Some e' → ce_uses_unchecked e' = true →
      get_unchecked_func (ce_func_name e) = Some (ce_func_ptr e')
      ∧ ∃ sp, get_func_argspec (ce_func_name e) = Some sp
        ∧ ∀ obs fuel ssm workers tbl exec_slot exec_gen ni slot pi buf b t xs,
            Forall2 (res_value obs tbl t ni slot pi) rps xs → results_typed cache rps xs → template_like c buf →
            ∃ v t', populate_dynamic_args_into obs fuel ssm tbl exec_slot exec_gen buf (ce_arg_cache e') ni slot pi
                      (match ac_rt_workers_indexes c with [] => 0 | _ => workers end) (b, t) = Ret (Some (v, (false, t')))
              ∧ spec_fixed sp ≤ length v
              ∧ ∀ i tag, i < spec_fixed sp → sp !! i = Some tag → tag ≠ "*"%string → ∃ x, v !! i = Some x ∧ variant_tag x = tag.
Proof.
  destruct (select_ok disabled cache gb Hrec) as (cache' & Hsel & Hs). exists cache'. split; [done|]. split.
  { eapply Forall2_impl; [exact Hs|]. intros x y [->|(f & _ & -> & _)]; [by left|right; by exists f]. }
  intros e' He' Hu. pose proof (Forall2_lookup_lr _ _ _ _ _ _ Hs He He') as [->|(f & Hf & -> & _ & sp & Hsp & Hlong & Hprov)]; [congruence|].
  split; [done|]. exists sp. split; [done|]. intros obs fuel ssm workers tbl exec_slot exec_gen ni slot pi buf b t xs Hres Htyped Hbuf.
  pose proof (recorded_ok _ _ _ _ _ _ _ Hcache Hpreds) as Hlen. cbn [set_unchecked ce_arg_cache]. rewrite Hac.
  destruct (populate_written obs fuel ssm workers tbl exec_slot exec_gen node objs c rps preds xs ni slot pi buf b t Hobj Hcache Hlen Hres Hbuf)
    as (v & t' & Hp & Hvl & Hw).
  destruct (build_arg_cache_inv (n_args node) objs true Hobj) as (st & Hst & Hinv). rewrite Hcache in Hst. injection Hst as Hc _.
  pose proof (bi_buffers _ _ _ _ Hinv) as Hbuffers. destruct Hinv as [_ Hl _ _ _ _ _ _ _]. rewrite <- Hc in Hl, Hbuffers.
  exists v, t'. split; [done|]. split.
  { rewrite Hac in Hlong. cbn [set_res_predecessors ac_args] in Hlong. lia. }
  intros i tag Hi Htag Hne. specialize (Hprov i tag Hi Htag). unfold slot_proven in Hprov. cbn [fst snd] in Hprov.
  rewrite (proj2 (String.eqb_neq _ _) Hne) in Hprov. apply run_bind_Ret in Hprov as (o & Ho & [= Hb]).
  destruct o as [tag'|]; [|done]. apply String.eqb_eq in Hb as ->.
  eapply (variant_right cache gb e c rps); try done. symmetry. by apply Forall2_length in Hres.
Qed.
End unchecked.

(** ** The node of [Populate] with a declaration *)

(** Kernels that return an [u64] and declare the arguments of that node. *)
#[local] Instance declared_kernels : FuncReg := {|
  get_func _ := Some (λ _, CmU64 5); get_bulk_func _ := None;
  get_func_argspec _ := Some ["Usize"; "U64"; "*"; "U8"; "Usize"; "..."]%string;
  get_func_ret_variant _ := Some "U64"%string; get_unchecked_func _ := Some (λ _, CmU64 5) |}.
#[local] Instance no_affinity_groups : AffinityLookup := λ _, 0.

Definition declared_cache : list NodeCacheEntry :=
  match build_node_cache demo_dep_graph demo_objs false with Ret c => c | Panic => [] end.

Lemma declared_recorded : Forall results_recorded declared_cache.
Proof. unfold declared_cache. set (c := build_node_cache _ _ _). vm_compute in c. subst c. repeat constructor. Qed.

Lemma unchecked_sound_witness : ∃ e cache' e', declared_cache !! 1 = Some e
  ∧ select_unchecked_wrappers false declared_cache (empty_table 2) = Ret cache' ∧ cache' !! 1 = Some e' ∧ ce_uses_unchecked e' = true
  ∧ ∃ v t', populate_dynamic_args_into (λ _, demo_world) 9 false (empty_table 2) (Some 0) 1 (ac_args demo_cache) (ce_arg_cache e') 3 0 0 6 (false, 0)
             = Ret (Some (v, (false, t')))
    ∧ ∃ x, v !! 3 = Some x ∧ variant_tag x = "U8"%string.
Proof.
  destruct (declared_cache !! 1) as [e|] eqn:He; [|vm_compute in He; discriminate He].
  destruct (unchecked_sound false declared_cache (empty_table 2) demo_dep_graph 1 (demo_node 1 4 demo_args) demo_objs
    demo_cache (<[0 := [1]]> ∅) [demo_rp] e declared_recorded He) as (cache' & Hsel & _ & Hsound).
  - clear -He. vm_compute in He. injection He as <-. reflexivity.
  - exact demo_objects.
  - reflexivity.
  - reflexivity.
  - clear -He. vm_compute in He. injection He as <-. reflexivity.
  - destruct (cache' !! 1) as [e'|] eqn:He'; [|exfalso; vm_compute in Hsel; injection Hsel as <-; discriminate He'].
    assert (Hu : ce_uses_unchecked e' = true) by (clear -Hsel He'; vm_compute in Hsel; injection Hsel as <-; cbn in He'; injection He' as <-; reflexivity).
    destruct (Hsound e' eq_refl Hu) as (_ & sp & Hsp & Hvars).
    assert (sp = ["Usize"; "U64"; "*"; "U8"; "Usize"; "..."]%string) as -> by (by injection Hsp).
    destruct (Hvars (λ _, demo_world) 9 false 6 (empty_table 2) (Some 0) 1%Z 3 0 0 (ac_args demo_cache) false 0 [CmU64 5])
      as (v & t' & Hp & _ & Hv); [apply demo_values; lia| |split; [done|done]|].
    + intros [|k] rp x Hrp Hx; [|done]. injection Hrp as <-. injection Hx as <-. intros pred tag _ [= <-]. reflexivity.
    + exists e, cache', e'. split; [done|]. split; [exact Hsel|]. split; [exact He'|]. split; [exact Hu|]. exists v, t'. split; [exact Hp|].
      apply (Hv 3 "U8"%string); [vm_compute; lia|reflexivity|discriminate].
Defined.
