(* ===== verification/Reads.v ===== *)
(** What a released task reads has been computed.

    Three computations made apart must fit: the count a node waits for ([graph.rs]), the
    completions routed to it ([runtime/init.rs]), and the cells its dependency arguments
    read when it runs ([runtime/arg_resolution.rs]). *)
From S2P Require Import Prelude Types GraphStruct Graph Buffers NodeDep NodeCache Tables DepCounter Counting ResultMap ArgRes Populate.
From stdpp Require Import strings.

(** ** Cells and declared offsets *)

Lemma rem_euclid_abs i n : small n → (0 ≤ i < Z.of_nat n)%Z →
  run_map as_usize (rem_euclid i (as_i64 (Z.of_nat n))) = Ret (Z.to_nat i).
Proof.
  unfold small. intros Hn Hi. unfold rem_euclid. rewrite as_i64_small by lia.
  rewrite (proj2 (Z.eqb_neq (Z.of_nat n) 0)), (proj2 (Z.eqb_neq (Z.of_nat n) (-1))) by lia.
  rewrite andb_false_r. cbn [orb run_map run_bind]. rewrite Z.abs_eq, Z.mod_small by lia.
  rewrite <- (Z2Nat.id i) at 1 by lia. by rewrite as_usize_of_nat by (change two64 with (2 ^ 64)%Z; lia).
Qed.

(** A node and one of its dependency arguments, as the cache describes them, with no
    lockstep grouping of the predecessor and a forced bulk release. *)
Section cells.
Context (indexes : list Z) (k pi nf pf : nat) (ngs : option nat).
Context (Hpf : small pf) (Hnf : small nf) (Hk : k < nf).
Context (Habs : ∀ i, i ∈ indexes → (0 ≤ i < Z.of_nat pf)%Z).

Lemma relative_cell i : i ∈ indexes →
  find_pred_index k i pf = Ret (Z.to_nat ((Z.of_nat k + i) mod Z.of_nat pf)).
Proof. intros Hi. pose proof (Habs i Hi). unfold small in *. apply find_pred_index_nonneg; unfold small; lia. Qed.

Lemma single_cell i : i ∈ indexes → ∃ c, single_index_dep_idx k i pf ngs None = Ret c ∧ c < pf
  ∧ (nf = 1 → Z.of_nat c = i).
Proof.
  intros Hi. pose proof (Habs i Hi) as Hr. unfold single_index_dep_idx. destruct ngs as [g|].
  - exists (Z.to_nat i). rewrite rem_euclid_abs by done. split; [done|]. lia.
  - exists (Z.to_nat ((Z.of_nat k + i) mod Z.of_nat pf)). rewrite relative_cell by done.
    pose proof (Z.mod_pos_bound (Z.of_nat k + i) (Z.of_nat pf)).
    split; [done|]. split; [lia|]. intros ->. rewrite Z.mod_small by lia. lia.
Qed.

(** Every cell is one of the predecessor's; the declared ones are read when there is a
    single instance or one declared offset per instance. *)
Lemma cells_read_spec : ∃ cells, cells_read indexes k pi nf pf ngs None true = Ret cells
  ∧ ∀ c, c ∈ cells → c < pf ∧ (length indexes = nf → 1 < nf → Z.of_nat c ∈ indexes)
                     ∧ (nf = 1 → Z.of_nat c ∈ indexes).
Proof.
  pose proof single_cell as Hsingle. pose proof relative_cell as Hrelative. pose proof Habs as Hin.
  unfold cells_read. destruct indexes as [|i [|j is_]]; [| |set (is' := i :: j :: is_) in *].
  - exists []. split; [done|]. by intros c ?%not_elem_of_nil.
  - destruct (Hsingle i) as (c & -> & Hc & H1); [left|]. cbn [run_map run_bind].
    exists [c]. split; [done|]. intros c' ->%list_elem_of_singleton. split; [done|].
    cbn [length]. split; [lia|]. intros H. rewrite (H1 H). left.
  - destruct (length is' =? nf) eqn:Hl.
    + apply Nat.eqb_eq in Hl. unfold per_instance_dep_idx. cbn [negb]. rewrite andb_false_r.
      destruct (vec_get_lt is' k) as (d & -> & Hd); [lia|]. cbn [run_bind].
      apply list_elem_of_lookup_2 in Hd. pose proof (Hin d Hd).
      rewrite rem_euclid_abs by done. cbn [run_map run_bind]. exists [Z.to_nat d]. split; [done|].
      intros c ->%list_elem_of_singleton. rewrite Z2Nat.id by lia. split; [lia|]. done.
    + apply Nat.eqb_neq in Hl.
      destruct (run_imap_total (λ _ d, find_pred_index k d pf) 0 is') as [cells Hcells].
      { intros n d Hd. eexists. apply Hrelative. by eapply list_elem_of_lookup_2. }
      exists cells. split; [done|]. apply run_imap_Ret in Hcells as [Hlen Hp].
      intros c [n Hn]%list_elem_of_lookup. pose proof (lookup_lt_Some _ _ _ Hn) as Hlt.
      rewrite Hlen in Hlt. apply lookup_lt_is_Some_2 in Hlt as [d Hd].
      destruct (Hp n d Hd) as (c' & Hc' & Hf). rewrite Hn in Hc'. injection Hc' as <-.
      apply list_elem_of_lookup_2 in Hd. rewrite Hrelative in Hf by done.
      injection Hf as <-. pose proof (Hin d Hd). pose proof (Z.mod_pos_bound (Z.of_nat k + d) (Z.of_nat pf)).
      split; [lia|]. split; [lia|]. intros Hnf1. rewrite Z2Nat.id by lia.
      replace (Z.of_nat k) with 0%Z by lia. rewrite Z.add_0_l, Z.mod_small by lia. done.
Qed.
End cells.

(** ** One argument *)

(** The arguments on the predecessor of [p] declare no offset that [p] does not, or the
    node has a single instance. *)
Definition one_reading (node : Node) (p : Predecessor) : Prop :=
  n_factor node = 1 ∨ ∀ i, i ∈ union_pred_indexes node (p_id p) → i ∈ p_indexes p.

Lemma cells_pass r1 g node a p r ngs k pi :
  absolute_args g node → ungrouped node → small (n_factor node) →
  a ∈ n_args node → a_predecessor a = Some p → one_reading node p →
  edge_route r1 g node (p_id p) = Ret r → k < n_factor node →
  ∃ cells, cells_read (p_indexes p) k pi (n_factor node) (factor_of g (p_id p)) ngs None true = Ret cells
    ∧ ∀ c, c ∈ cells → c ∈ passing (rt_filter r) (factor_of g (p_id p)).
Proof.
  intros Habs Hun Hnf Ha Hp Hone Hr Hk. destruct (Habs a p Ha Hp) as (_ & Hpf & Hnd & Hin).
  destruct (cells_read_spec (p_indexes p) k pi (n_factor node) (factor_of g (p_id p)) ngs Hpf Hnf Hk Hin)
    as (cells & Hc & Hcells).
  exists cells. split; [done|]. intros c Hcc. destruct (Hcells c Hcc) as (Hlt & Hper & Hdecl).
  rewrite passing_elem. split; [|done].
  assert (Hap : a ∈ args_on_pred node (p_id p)).
  { apply args_on_pred_elem. split; [done|]. unfold reads_pred. rewrite Hp. apply Nat.eqb_refl. }
  assert (Hreads : reads node (p_id p)).
  { apply arg_pred_ids_elem. exists a. by apply args_on_pred_elem in Hap. }
  assert (Hpu : ∀ i, i ∈ p_indexes p → i ∈ union_pred_indexes node (p_id p)).
  { intros i Hi. apply union_elem. by exists a, p. }
  destruct (edge_route_filter _ _ _ _ _ Habs Hun Hreads Hr) as [_ Hf].
  destruct (rt_filter r) as [[lo hi]|]; [|done].
  destruct (pred_is_ambiguous_multi_arg node (p_id p)); [done|]. symmetry in Hf.
  pose proof (union_absolute g node (p_id p) Habs) as Hua.
  destruct (index_filter_range _ _ _ _ _ Hpf Hua eq_refl Hf) as (l & h & -> & -> & Hh & [_ Hel] & Hlen & _ & Hor).
  cbn [p_indexes] in *. apply passes_range.
  assert (Hd : Z.of_nat c ∈ p_indexes p → l ≤ c < h) by (intros Hd%Hpu%Hel; lia).
  destruct (decide (n_factor node = 1)); [by apply Hd, Hdecl|].
  destruct Hone as [?|Hone]; [done|]. destruct Hor as [Hor|?]; [|done]. apply Hd, Hper; [|lia].
  rewrite <- Hor, <- Hlen. apply Permutation_length, NoDup_Permutation; [done|apply Hua|].
  intros i. split; auto.
Qed.

(** ** A released node *)

Lemma nat_sum_squeeze {A} (f h : A → nat) l :
  (∀ x, x ∈ l → f x <= h x) → nat_sum (h <$> l) <= nat_sum (f <$> l) → ∀ x, x ∈ l → f x = h x.
Proof.
  induction l as [|y l IH]; intros Hle Hsum x Hx; [by apply not_elem_of_nil in Hx|].
  cbn [fmap list_fmap nat_sum foldr] in Hsum.
  fold (nat_sum (f <$> l)) (nat_sum (h <$> l)) in Hsum.
  assert (Hl : nat_sum (f <$> l) <= nat_sum (h <$> l)).
  { clear -Hle. induction l as [|z l IH]; [done|]. cbn [fmap list_fmap nat_sum foldr].
    fold (nat_sum (f <$> l)) (nat_sum (h <$> l)).
    pose proof (Hle z ltac:(right; left)). assert (nat_sum (f <$> l) <= nat_sum (h <$> l)); [|lia].
    apply IH. intros w Hw. apply Hle. apply elem_of_cons in Hw as [->|Hw]; [left|by do 2 right]. }
  pose proof (Hle y ltac:(left)). apply elem_of_cons in Hx as [->|Hx]; [lia|].
  apply IH; [intros; apply Hle; by right|lia|done].
Qed.

(** Completions that are no more than those awaited and as many as the counter expects
    are all of them. *)
Lemma all_arrived (arrived awaited : nat → list nat) ps :
  (∀ p, p ∈ ps → NoDup (arrived p) ∧ ∀ i, i ∈ arrived p → i ∈ awaited p) →
  nat_sum ((λ p, length (awaited p)) <$> ps) <= nat_sum ((λ p, length (arrived p)) <$> ps) →
  ∀ p i, p ∈ ps → i ∈ awaited p → i ∈ arrived p.
Proof.
  intros Harr Hsum p i Hp Hi.
  assert (Hlen : length (arrived p) = length (awaited p)).
  { apply (nat_sum_squeeze (λ p, length (arrived p)) (λ p, length (awaited p)) ps); try done.
    intros q Hq. destruct (Harr q Hq) as [Hnd Hsub]. apply submseteq_length. by apply NoDup_submseteq. }
  destruct (Harr p Hp) as [Hnd Hsub].
  assert (Hperm : arrived p ≡ₚ awaited p).
  { apply submseteq_length_Permutation; [by apply NoDup_submseteq|lia]. }
  by rewrite Hperm.
Qed.

Lemma as_id_small n : (Z.of_nat n < 65536)%Z → as_id n = n.
Proof. intros Hn. unfold as_id. rewrite Z.mod_small by lia. lia. Qed.

(** C6. A node that is released as a whole (behind a barrier, or with a predecessor read by
    several differing arguments), in a graph of at most 65536 nodes numbered by position whose
    predecessors exist; its arguments are ungrouped and name distinct, existing instances by
    absolute index, its counter has a single group or all its predecessors are read in that way,
    and its factor and its count fit 32 bits. Completions of its predecessors have arrived, each instance at
    most once and only such as the routing tables let through. When they are as many as a
    group's counter expects, then for each result argument whose predecessor no other argument
    reads at further indexes (or whose node has one instance), and for which the node or the
    predecessor has no group size, the predecessor instance of every cell that any instance of
    the node reads through it is among those arrived. *)
Theorem released_reads_complete r1 g s node t total arrived
    (Hids : ∀ i nd, g_nodes g !! i = Some nd → n_id nd = i) (Hex : preds_exist g)
    (Hs : g_nodes g !! s = Some node) (Hn : (Z.of_nat (length (g_nodes g)) <= 65536)%Z)
    (Habs : absolute_args g node) (Hun : ungrouped node) (Huni : uniform_groups node)
    (Hbulk : node_forces_barrier node = true) (Hsf : small (n_factor node))
    (Ht : build_predecessor_tables r1 g = Ret t) (Htotal : dependency_count g node = Ret total)
    (Hfit : (Z.of_nat total < two32)%Z)
    (Harr : ∀ p, reads node p → NoDup (arrived p)
       ∧ ∀ i, i ∈ arrived p → i < factor_of g p ∧ passes (rt_filter (route_at t s p)) i = true)
    (Hzero : (deps_per_group (new_entry node total)
              <= Z.of_nat (nat_sum ((λ p, length (arrived p)) <$> preds_of (n_args node))))%Z) :
  ∀ a p rp k pi,
    a ∈ n_args node → a_type a = CmRes (p_id p) → a_predecessor a = Some p → one_reading node p →
    n_group_size node = None ∨ (∀ pn, g_nodes g !! p_id p = Some pn → n_group_size pn = None) →
    build_res_pred g s node a = Ret (Some rp) → k < n_factor node →
    ∃ cells, rp_cells (pred_group_by t) rp k pi = Ret cells ∧ ∀ c, c ∈ cells → c ∈ arrived (p_id p).
Proof.
  intros a p rp k pi Ha Htype Hp Hone Hgs Hrp Hk.
  destruct (tables_deliver r1 g s node Hids Hex Hs Habs Hun) as (t' & Ht' & Hdim & Hedge).
  rewrite Ht in Ht'. injection Ht' as <-.
  pose proof (list_elem_of_lookup_2 _ _ _ Hs) as Hnode.
  rewrite (dependency_count_ungrouped g node) in Htotal by done.
  injection Htotal as <-. pose proof (dep_num_groups_pos node) as Hpos.
  set (c0 := nat_sum (edge_contribution g node <$> preds_of (n_args node))) in *.
  destruct (new_entry_groups node (c0 * dep_num_groups node) Hun) as [_ Hdpg].
  rewrite Nat.div_mul in Hdpg by lia. rewrite Hdpg, as_u32_small in Hzero by nia.
  assert (Hreads : reads node (p_id p)).
  { apply arg_pred_ids_elem. exists a. split; [done|]. unfold reads_pred. rewrite Hp. apply Nat.eqb_refl. }
  assert (Hall : ∀ q i, reads node q → i ∈ passing (rt_filter (route_at t s q)) (factor_of g q) → i ∈ arrived q).
  { intros q i Hq. apply (all_arrived arrived (λ q, passing (rt_filter (route_at t s q)) (factor_of g q)) (preds_of (n_args node))).
    - intros q' Hq'%preds_of_elem. destruct (Harr q' Hq') as [Hnd Hsub]. split; [done|].
      intros j Hj. apply passing_elem. by destruct (Hsub j Hj).
    - assert (Hd : (λ q, length (passing (rt_filter (route_at t s q)) (factor_of g q))) <$> preds_of (n_args node)
                   = edge_contribution g node <$> preds_of (n_args node)).
      { apply list_fmap_ext. intros j q' Hq'. apply Hedge, preds_of_elem. by eapply list_elem_of_lookup_2. }
      rewrite Hd. fold c0. lia.
    - by apply preds_of_elem. }
  destruct (Habs a p Ha Hp) as (Hlt & _). pose proof (lookup_lt_Some _ _ _ Hs) as Hslt.
  assert (Hcells : ∃ cells, cells_read (p_indexes p) k pi (n_factor node) (factor_of g (p_id p)) (n_group_size node) None true = Ret cells
            ∧ ∀ c, c ∈ cells → c ∈ passing (rt_filter (route_at t s (p_id p))) (factor_of g (p_id p))).
  { eapply cells_pass; try done. by apply (Hedge (p_id p)). }
  destruct Hcells as (cells & Hcells & Hin). exists cells. split; [|intros c Hc; by apply Hall, Hin].
  unfold build_res_pred in Hrp. rewrite Htype, Hp in Hrp.
  destruct (vec_get_factor g (p_id p) Hlt) as (pn & Hpn & Hfac). rewrite Hpn in Hrp. cbn [run_bind] in Hrp.
  injection Hrp as <-. unfold rp_cells. cbn [rp_pred_group_size rp_node_id rp_res_node_id rp_indexes rp_node_factor
    rp_pred_factor rp_node_group_size rp_node_has_barrier].
  rewrite !as_id_small by lia. destruct Hdim as (_ & D2 & _).
  assert (Htab : table_get (pred_group_by t) s (p_id p) = Ret None).
  { rewrite (table_get_at (length (g_nodes g))) by done. f_equal. by apply (Hedge (p_id p)). }
  rewrite Htab, Hfac, Hbulk. destruct Hgs as [Hgs|Hgs].
  - rewrite Hgs in Hcells |- *. destruct (n_group_size pn); cbn [run_bind]; rewrite <- Hcells;
      unfold cells_read; destruct (p_indexes p) as [|? [|? ?]]; done.
  - rewrite (Hgs pn) by (by apply vec_get_Ret). done.
Qed.

(** A producer of four instances and a bulk-released consumer that gathers all of them. *)
Definition gather_node : Node :=
  demo_node 1 2 [demo_barrier 0 [0; 1; 2; 3]%Z None; demo_res 0 [0; 1; 2; 3]%Z].
Definition gather_graph : Graph := set_nodes Graph_new [demo_node 0 4 []; gather_node].
Definition gather_routing : Routing := mkRouting (empty_table 2) (empty_table 2) (empty_table 2).
Definition gather_rp : ResPredCache := mkResPred 1 0 [0; 1; 2; 3]%Z 4 None None 2 false true.

Lemma gather_absolute : absolute_args gather_graph gather_node.
Proof.
  intros a p. cbn. rewrite !elem_of_cons.
  intros [->|[->|[]%not_elem_of_nil]]; cbn; intros [= <-]; unfold small, factor_of; cbn;
    (split; [lia|split; [lia|split; [cbn; repeat constructor; rewrite ?elem_of_cons, ?elem_of_nil; lia|]]]);
    cbn; intros i; rewrite !elem_of_cons, elem_of_nil; lia.
Qed.

Lemma released_reads_complete_witness :
  ∃ cells, rp_cells (pred_group_by gather_routing) gather_rp 1 0 = Ret cells ∧ ∀ c, c ∈ cells → c ∈ [3; 1; 0; 2].
Proof.
  apply (released_reads_complete true gather_graph 1 gather_node gather_routing 4 (λ _, [3; 1; 0; 2]))
    with (a := demo_res 0 [0; 1; 2; 3]%Z) (p := mkPred 0 [0; 1; 2; 3]%Z None).
  - intros [|[|i]] nd; cbn; try done; by intros [= <-].
  - intros nd p. cbn. rewrite !elem_of_cons. unfold reads.
    intros [->|[->|[]%not_elem_of_nil]]; cbn; rewrite ?elem_of_cons, ?elem_of_nil; lia.
  - reflexivity.
  - cbn. lia.
  - exact gather_absolute.
  - intros a p. cbn. rewrite !elem_of_cons. by intros [->|[->|[]%not_elem_of_nil]] [= <-].
  - left. reflexivity.
  - reflexivity.
  - unfold small. cbn. lia.
  - reflexivity.
  - reflexivity.
  - unfold two32. lia.
  - intros p Hp. unfold reads in Hp. cbn in Hp. rewrite !elem_of_cons, elem_of_nil in Hp.
    assert (p = 0) as -> by tauto. split; [repeat constructor; rewrite ?elem_of_cons, ?elem_of_nil; lia|].
    intros i. rewrite !elem_of_cons, elem_of_nil. unfold factor_of. cbn. intros Hi. split; [lia|done].
  - vm_compute. congruence.
  - cbn. right. left.
  - reflexivity.
  - reflexivity.
  - right. intros i. change (union_pred_indexes gather_node (p_id (mkPred 0 [0; 1; 2; 3]%Z None))) with [0; 1; 2; 3]%Z. done.
  - left. reflexivity.
  - reflexivity.
  - cbn. lia.
Defined.

(** ** Where released tasks read other cells *)

(** Two instances behind a barrier on instance 0 of a predecessor with four instances,
    which also read "1" of it: the counter waits for the instances 0 and 1, the second
    instance of the node reads instance 2. *)
Theorem mixed_offsets_read_beyond :
  let node := demo_node 1 2 [demo_barrier 0 [0%Z] None; demo_res 0 [1%Z]] in
  let g := set_nodes Graph_new [demo_node 0 4 []; node] in
  edge_route true g node 0 = Ret (mkRoute (Some (0, 2)%Z) None None)
  ∧ dependency_count g node = Ret 2
  ∧ ∃ rp, build_res_pred g 1 node (demo_res 0 [1%Z]) = Ret (Some rp)
    ∧ rp_cells (empty_table 2) rp 1 0 = Ret [2] ∧ passes (Some (0, 2)%Z) 2 = false.
Proof. split; [reflexivity|]. split; [reflexivity|]. eexists. split; [reflexivity|]. split; reflexivity. Qed.

(** A list of offsets that is not an ascending range, one per instance, on a
    predecessor with as many instances: the edge gets no 1:1 dispatch, so instances are
    released in the order of the completions, and an instance reads the cell of the
    completion that released it: the first completion, of instance 0, releases instance
    0 of the node, which declares "1" and reads cell 0. *)
Theorem permuted_offsets_read_trigger :
  let node := demo_node 1 2 [demo_res 0 [1; 0]%Z] in
  let g := set_nodes Graph_new [demo_node 0 2 []; node] in
  edge_route true g node 0 = Ret no_route
  ∧ dependency_count g node = Ret 2
  ∧ (∃ e, decrease_and_get_ready_into (new_entry node 2) 1 None 1 None = Ret (e, [0]))
  ∧ ∃ rp, build_res_pred g 1 node (demo_res 0 [1; 0]%Z) = Ret (Some rp)
    ∧ rp_indexes rp !! 0 = Some 1%Z ∧ rp_cells (empty_table 2) rp 0 0 = Ret [0].
Proof.
  split; [reflexivity|]. split; [reflexivity|]. split; [eexists; vm_compute; reflexivity|].
  eexists. split; [reflexivity|]. split; reflexivity.
Qed.
