(* ===== verification/Values.v ===== *)
(** The text form of values ([tomii-types/src/lib.rs]): the parsers of the typed literals
    of a graph file, and the literals of the standard library they rest on.

    Strings are byte strings in UTF-8. The JSON form of a complex number is parsed by a
    third-party package, the class [JsonComplex]; the messages of errors are left out
    but for the text that could not be parsed. *)
From S2P Require Import Prelude Types WorkerRange.
From stdpp Require Import strings pretty.
From Stdlib Require Import Ascii.
Open Scope string_scope.
Open Scope list_scope.
Open Scope nat_scope.

(** ** Fallible code: an error, or a panic *)

Definition fallible (E A : Type) : Type := run (result A E).

Definition try_bind {E A B} (m : fallible E A) (k : A → fallible E B) : fallible E B :=
  match m with
  | Ret (ROk x) => k x
  | Ret (RErr e) => Ret (RErr e)
  | Panic => Panic
  end.

(** The operator [?]. *)
Notation "'let?' x ':=' m 'in' k" := (try_bind m (λ x, k))
  (at level 10, x pattern, m at level 100, k at level 200) : tomii_scope.

Definition try_ret {E A} (x : A) : fallible E A := Ret (ROk x).
Definition try_err {E A} (e : E) : fallible E A := Ret (RErr e).

(** [ok_or_else]. *)
Definition ok_or {E A} (o : option A) (e : E) : fallible E A :=
  match o with Some x => try_ret x | None => try_err e end.

(** [iter().map(f).collect::<Result<Vec<_>, _>>()]: stops at the first error. *)
Fixpoint try_map {E A B} (f : A → fallible E B) (l : list A) : fallible E (list B) :=
  match l with
  | [] => try_ret []
  | x :: l => let? y := f x in let? ys := try_map f l in try_ret (y :: ys)
  end.

(** [map(f).transpose()] on an option. *)
Definition try_option {E A B} (f : A → fallible E B) (o : option A) : fallible E (option B) :=
  match o with
  | None => try_ret None
  | Some x => let? y := f x in try_ret (Some y)
  end.

(** ** Literals of the standard library *)

(** The digits of an integer, added to or, for a negative number, taken from the value
    read so far; overflow is an error. *)
Fixpoint int_digits (neg : bool) (lo hi acc : Z) (s : string) : option Z :=
  match s with
  | EmptyString => Some acc
  | String c s' =>
      match digit c with
      | None => None
      | Some d =>
          let v := (if neg then acc * 10 - d else acc * 10 + d)%Z in
          if (lo <=? v)%Z && (v <=? hi)%Z then int_digits neg lo hi v s' else None
      end
  end.

(** [str::parse] at an integer type with the bounds [lo] and [hi]; a type is signed when
    its lower bound is negative. *)
Definition parse_int (lo hi : Z) (s : string) : option Z :=
  match s with
  | EmptyString => None
  | String "+" EmptyString => None
  | String "-" EmptyString => None
  | String "+" s' => int_digits false lo hi 0 s'
  | String "-" s' => if (lo <? 0)%Z then int_digits true lo hi 0 s' else None
  | _ => int_digits false lo hi 0 s
  end.

Definition parse_signed (bits : Z) (s : string) : option Z := parse_int (- 2 ^ (bits - 1)) (2 ^ (bits - 1) - 1) s.
Definition parse_unsigned (bits : Z) (s : string) : option Z := parse_int 0 (2 ^ bits - 1) s.

(** [str::parse::<bool>]. *)
Definition parse_bool (s : string) : option bool :=
  if String.eqb s "true" then Some true else if String.eqb s "false" then Some false else None.

(** [s.chars().next()]: the first code point of a UTF-8 string, from the payloads of its
    first byte and of the bytes that follow it. *)
Definition byte (c : ascii) : Z := Z.of_nat (nat_of_ascii c).

Definition first_char (s : string) : option Z :=
  match s with
  | EmptyString => None
  | String a s1 =>
      let x := byte a in
      if (x <? 128)%Z then Some x
      else match s1 with
      | EmptyString => None
      | String b s2 =>
          let y := ((x mod 32) * 64 + byte b mod 64)%Z in
          if (x <? 224)%Z then Some y
          else match s2 with
          | EmptyString => None
          | String c s3 =>
              let z := (((x mod 16) * 64 + byte b mod 64) * 64 + byte c mod 64)%Z in
              if (x <? 240)%Z then Some z
              else match s3 with
              | EmptyString => None
              | String d _ => Some ((((x mod 8) * 64 + byte b mod 64) * 64 + byte c mod 64) * 64 + byte d mod 64)%Z
              end
          end
      end
  end.

(** A code point in UTF-8. *)
Definition chr (z : Z) : ascii := ascii_of_nat (Z.to_nat z).

Definition char_to_string (c : Z) : string :=
  if (c <? 128)%Z then String (chr c) EmptyString
  else if (c <? 2048)%Z then String (chr (192 + c / 64)) (String (chr (128 + c mod 64)) EmptyString)
  else if (c <? 65536)%Z then
    String (chr (224 + c / 4096)) (String (chr (128 + c / 64 mod 64)) (String (chr (128 + c mod 64)) EmptyString))
  else String (chr (240 + c / 262144)) (String (chr (128 + c / 4096 mod 64))
         (String (chr (128 + c / 64 mod 64)) (String (chr (128 + c mod 64)) EmptyString))).

(** *** Floating point numbers *)

(** The longest prefix of digits: their value after [acc], how many, and the rest. *)
Fixpoint take_digits (acc : Z) (s : string) : Z * nat * string :=
  match s with
  | EmptyString => (acc, 0, s)
  | String c s' =>
      match digit c with
      | None => (acc, 0, s)
      | Some d => let '(v, n, r) := take_digits (acc * 10 + d) s' in (v, S n, r)
      end
  end.

(** The exponent after [e]: it stops growing at 2^16, far beyond every float. *)
Fixpoint exponent_digits (acc : Z) (s : string) : option Z :=
  match s with
  | EmptyString => Some acc
  | String c s' =>
      match digit c with
      | None => None
      | Some d => exponent_digits (if (acc <? 65536)%Z then acc * 10 + d else acc)%Z s'
      end
  end.

Definition parse_scientific (s : string) : option Z :=
  match s with
  | EmptyString => None
  | String "-" s' => match s' with EmptyString => None | _ => Z.opp <$> exponent_digits 0 s' end
  | String "+" s' => match s' with EmptyString => None | _ => exponent_digits 0 s' end
  | _ => exponent_digits 0 s
  end.

(** The decimal [m * 10 ^ e] without its sign. *)
Definition parse_decimal (s : string) : option (Z * Z) :=
  let '(i, ni, r) := take_digits 0 s in
  let '(m, nf, r2) := match r with String "." r' => take_digits i r' | _ => (i, 0, r) end in
  if ni + nf =? 0 then None
  else match r2 with
  | EmptyString => Some (m, - Z.of_nat nf)%Z
  | String c r3 =>
      if Ascii.eqb c "e" || Ascii.eqb c "E"
      then match parse_scientific r3 with Some e => Some (m, e - Z.of_nat nf)%Z | None => None end
      else None
  end.

(** [n / d] rounded to an integer, ties to even. *)
Definition round_half_even (n d : Z) : Z :=
  let q := (n / d)%Z in
  let r := (n mod d)%Z in
  if (2 * r <? d)%Z then q
  else if (d <? 2 * r)%Z then (q + 1)%Z
  else if Z.even q then q else (q + 1)%Z.

(** The bits of the float nearest to [num / den] with [expo] exponent and [mant] mantissa
    bits: [e] is the exponent of the unit of the last place, and the encoding is such that
    a carry out of the mantissa moves to the next binade. *)
Definition ratio_to_bits (expo mant num den : Z) : Z :=
  if (num =? 0)%Z then 0
  else
    let emin := (2 - 2 ^ (expo - 1) - mant)%Z in
    let l := (Z.log2 num - Z.log2 den)%Z in
    let below := if (0 <=? l)%Z then (num <? Z.shiftl den l)%Z else (Z.shiftl num (- l) <? den)%Z in
    let e := Z.max emin ((if below then l - 1 else l) - mant) in
    let q := if (0 <=? e)%Z then round_half_even num (Z.shiftl den e) else round_half_even (Z.shiftl num (- e)) den in
    Z.min (Z.shiftl (Z.ones expo) mant) ((e - emin) * 2 ^ mant + q).

Definition decimal_to_bits (expo mant m e : Z) : Z :=
  if (m =? 0)%Z then 0
  else if (0 <=? e)%Z then ratio_to_bits expo mant (m * 10 ^ e) 1 else ratio_to_bits expo mant m (10 ^ (- e)).

Fixpoint to_lowercase (s : string) : string :=
  match s with
  | EmptyString => EmptyString
  | String c s' =>
      let n := nat_of_ascii c in
      String (if (65 <=? n) && (n <=? 90) then ascii_of_nat (n + 32) else c) (to_lowercase s')
  end.

(** [str::parse::<f32>] and [str::parse::<f64>], as bits. *)
Definition float_magnitude (expo mant : Z) (s : string) : option Z :=
  match parse_decimal s with
  | Some (m, e) => Some (decimal_to_bits expo mant m e)
  | None =>
      let l := to_lowercase s in
      if String.eqb l "inf" || String.eqb l "infinity" then Some (Z.shiftl (Z.ones expo) mant)
      else if String.eqb l "nan" then Some (Z.shiftl (Z.ones (expo + 1)) (mant - 1))
      else None
  end.

Definition parse_float (expo mant : Z) (s : string) : option Z :=
  match s with
  | EmptyString => None
  | String "-" s' => (λ b, Z.lor (Z.shiftl 1 (expo + mant)) b) <$> float_magnitude expo mant s'
  | String "+" s' => float_magnitude expo mant s'
  | _ => float_magnitude expo mant s
  end.

Definition parse_f32 : string → option Z := parse_float 8 23.
Definition parse_f64 : string → option Z := parse_float 11 52.

(** ** Values *)

(** [CustomError], by what it reports. *)
Inductive custom_error :=
  | InvalidValue (ty s : string)
  | InvalidComplex (s : string)
  | InvalidVecFormat (ty : string)
  | UnknownType (ty : string).

(** [serde_json::from_str] at the types [C32] and [C64]: the bits of the two parts. *)
Class JsonComplex := {
  json_c32 : string → option (Z * Z);
  json_c64 : string → option (Z * Z);
}.

Fixpoint strip_prefix (p s : string) : option string :=
  match p, s with
  | EmptyString, _ => Some s
  | String c p', String d s' => if Ascii.eqb c d then strip_prefix p' s' else None
  | _, _ => None
  end.

Fixpoint strip_suffix (p s : string) : option string :=
  if String.eqb s p then Some EmptyString
  else match s with EmptyString => None | String c s' => String c <$> strip_suffix p s' end.

Definition starts_with (p s : string) : bool := bool_decide (is_Some (strip_prefix p s)).

(** What is before and after the first [c]. *)
Fixpoint cut_first (c : ascii) (s : string) : option (string * string) :=
  match s with
  | EmptyString => None
  | String d s' =>
      if Ascii.eqb c d then Some (EmptyString, s')
      else match cut_first c s' with Some (a, b) => Some (String d a, b) | None => None end
  end.

(** What is before the last sign, and the rest with the sign. *)
Fixpoint cut_last_sign (s : string) : option (string * string) :=
  match s with
  | EmptyString => None
  | String d s' =>
      match cut_last_sign s' with
      | Some (a, b) => Some (String d a, b)
      | None => if Ascii.eqb d "+" || Ascii.eqb d "-" then Some (EmptyString, s) else None
      end
  end.

Definition cut_inner_sign (s : string) : option (string * string) :=
  match s with
  | EmptyString => None
  | String d s' => match cut_last_sign s' with Some (a, b) => Some (String d a, b) | None => None end
  end.

Definition parse_parts (parse : string → option Z) (re im : string) : option (Z * Z) :=
  match parse (trim re), parse (trim im) with Some re, Some im => Some (re, im) | _, _ => None end.

(** The form [3.5+2.5i]. *)
Definition parse_standard (parse : string → option Z) (s : string) : option (Z * Z) :=
  match strip_suffix "i" s with
  | None => None
  | Some s' => match cut_inner_sign s' with Some (re, im) => parse_parts parse re im | None => None end
  end.

Section values.
Context `{JsonComplex}.

(** [parse_complex32]: the comma is tried before the standard form. *)
Definition parse_complex32 (s0 : string) : option (Z * Z) :=
  let s := trim s0 in
  if starts_with "{" s then json_c32 s
  else match cut_first "," s with
  | Some (re, im) => parse_parts parse_f32 re im
  | None => parse_standard parse_f32 s
  end.

(** [parse_complex64]: there is no comma form. *)
Definition parse_complex64 (s0 : string) : option (Z * Z) :=
  let s := trim s0 in
  if starts_with "{" s then json_c64 s else parse_standard parse_f64 s.

Definition parsed {A} (ty s : string) (mk : A → CmTypes) (o : option A) : result CmTypes custom_error :=
  match o with Some x => ROk (mk x) | None => RErr (InvalidValue ty s) end.

Definition parsed_complex (s : string) (mk : Z → Z → CmTypes) (o : option (Z * Z)) : result CmTypes custom_error :=
  match o with Some (re, im) => ROk (mk re im) | None => RErr (InvalidComplex s) end.

(** The table [PARSERS]. *)
Definition PARSERS : list (string * (string → result CmTypes custom_error)) := [
  ("bool", λ s, parsed "bool" s CmBool (parse_bool s));
  ("i8", λ s, parsed "i8" s CmI8 (parse_signed 8 s));
  ("i16", λ s, parsed "i16" s CmI16 (parse_signed 16 s));
  ("i32", λ s, parsed "i32" s CmI32 (parse_signed 32 s));
  ("i64", λ s, parsed "i64" s CmI64 (parse_signed 64 s));
  ("i128", λ s, parsed "i128" s CmI128 (parse_signed 128 s));
  ("u8", λ s, parsed "u8" s CmU8 (parse_unsigned 8 s));
  ("u16", λ s, parsed "u16" s CmU16 (parse_unsigned 16 s));
  ("u32", λ s, parsed "u32" s CmU32 (parse_unsigned 32 s));
  ("u64", λ s, parsed "u64" s CmU64 (parse_unsigned 64 s));
  ("u128", λ s, parsed "u128" s CmU128 (parse_unsigned 128 s));
  ("f32", λ s, parsed "f32" s CmF32 (parse_f32 s));
  ("f64", λ s, parsed "f64" s CmF64 (parse_f64 s));
  ("char", λ s, parsed "char" s CmChar (first_char s));
  ("usize", λ s, parsed "usize" s (λ z, CmUsize (Z.to_nat z)) (parse_unsigned 64 s));
  ("isize", λ s, parsed "isize" s CmIsize (parse_signed 64 s));
  ("String", λ s, ROk (CmString s));
  ("Complex32", λ s, parsed_complex s CmComplex32 (parse_complex32 s));
  ("Complex64", λ s, parsed_complex s CmComplex64 (parse_complex64 s));
  ("$ref", λ s, parsed "$ref" s (λ z, CmRef (Z.to_nat z)) (parse_unsigned 64 s));
  ("$res", λ s, parsed "$res" s (λ z, CmRes (Z.to_nat z)) (parse_unsigned 64 s));
  ("$dep", λ s, parsed "$dep" s (λ z, CmDep (Z.to_nat z)) (parse_unsigned 64 s));
  ("$factor", λ _, ROk (CmRef 0));
  ("$worker", λ _, ROk (CmRef 1));
  ("$barrier", λ s, ROk (CmBarrier s));
  ("None", λ _, ROk CmNone);
  ("Init", λ _, ROk CmInit)].

Fixpoint find_parser {A} (tp : string) (l : list (string * A)) : option A :=
  match l with
  | [] => None
  | (name, p) :: l => if String.eqb tp name then Some p else find_parser tp l
  end.

Definition defined_type (tp : string) : bool := bool_decide (is_Some (find_parser tp PARSERS)).

(** The elements of a [Vec]: the type is looked up for each of them. *)
Fixpoint parse_elements (tp : string) (values : list string) : result (list CmTypes) custom_error :=
  match values with
  | [] => ROk []
  | v :: values =>
      match find_parser tp PARSERS with
      | None => RErr (UnknownType tp)
      | Some parser =>
          match parser (trim v) with
          | RErr e => RErr e
          | ROk x => match parse_elements tp values with ROk xs => ROk (x :: xs) | RErr e => RErr e end
          end
      end
  end.

(** [string_to_cmtype]. *)
Definition string_to_cmtype (tp arg : string) : result CmTypes custom_error :=
  match find_parser tp PARSERS with
  | Some parser => parser arg
  | None =>
      if starts_with "Vec" tp then
        match strip_prefix "Vec<" tp with
        | None => RErr (InvalidVecFormat tp)
        | Some tp1 =>
            match strip_suffix ">" tp1 with
            | None => RErr (InvalidVecFormat tp)
            | Some inner =>
                match parse_elements inner (WorkerRange.split "," arg) with
                | ROk v => ROk (CmVecCmt v)
                | RErr e => RErr e
                end
            end
        end
      else RErr (UnknownType tp)
  end.
End values.

(** [Display for CmTypes]; the printing of floating point numbers and of the length of an
    opaque vector is not modelled. *)
Fixpoint cm_display (t : CmTypes) : option string :=
  match t with
  | CmBool b => Some (if b then "true" else "false")
  | CmI8 z | CmI16 z | CmI32 z | CmI64 z | CmI128 z | CmIsize z => Some (pretty z)
  | CmU8 z | CmU16 z | CmU32 z | CmU64 z | CmU128 z => Some (pretty z)
  | CmUsize n | CmRef n | CmRes n | CmDep n => Some (pretty (Z.of_nat n))
  | CmChar c => Some (char_to_string c)
  | CmString s | CmBarrier s => Some s
  | CmNone => Some "None"
  | CmInit => Some "Init"
  | CmVecCmt l =>
      (λ s, "[" ++ s ++ "]")%string <$>
      (fix go first l := match l with
        | [] => Some EmptyString
        | x :: l =>
            match cm_display x, go false l with
            | Some a, Some b => Some ((if first : bool then EmptyString else ", ") ++ a ++ b)%string
            | _, _ => None
            end
        end) true l
  | CmAny _ => Some "CustomType"
  | CmAnyHeld _ => Some "AnyHeld"
  | CmAnySliced _ => Some "CustomSlicedType"
  | CmBytes l => Some ("Bytes[" ++ pretty (length l) ++ "]")%string
  | CmF32 _ | CmF64 _ | CmComplex32 _ _ | CmComplex64 _ _ | CmVecAny _ => None
  end.

(** ** What a type name stands for *)

(** The names under which a value is parsed. *)
Definition type_names (t : CmTypes) : list string :=
  match t with
  | CmBool _ => ["bool"]
  | CmI8 _ => ["i8"] | CmI16 _ => ["i16"] | CmI32 _ => ["i32"] | CmI64 _ => ["i64"] | CmI128 _ => ["i128"]
  | CmU8 _ => ["u8"] | CmU16 _ => ["u16"] | CmU32 _ => ["u32"] | CmU64 _ => ["u64"] | CmU128 _ => ["u128"]
  | CmF32 _ => ["f32"] | CmF64 _ => ["f64"]
  | CmChar _ => ["char"] | CmUsize _ => ["usize"] | CmIsize _ => ["isize"]
  | CmString _ => ["String"] | CmComplex32 _ _ => ["Complex32"] | CmComplex64 _ _ => ["Complex64"]
  | CmRef _ => ["$ref"; "$factor"; "$worker"] | CmRes _ => ["$res"] | CmDep _ => ["$dep"]
  | CmBarrier _ => ["$barrier"] | CmNone => ["None"] | CmInit => ["Init"]
  | _ => []
  end.

Definition has_type (tp : string) (t : CmTypes) : Prop :=
  tp ∈ type_names t
  ∨ ∃ inner l, tp = ("Vec<" ++ inner ++ ">")%string ∧ t = CmVecCmt l ∧ l ≠ [] ∧ Forall (λ x, inner ∈ type_names x) l.

(** *** Bounds of what is read *)

Lemma int_digits_range neg lo hi s : ∀ acc v, (lo ≤ acc ≤ hi)%Z → int_digits neg lo hi acc s = Some v → (lo ≤ v ≤ hi)%Z.
Proof.
  induction s as [|c s IH]; intros acc v Hacc; cbn [int_digits]; [by intros [= <-]|].
  destruct (digit c) as [d|]; [|done].
  set (w := (if neg then acc * 10 - d else acc * 10 + d)%Z).
  destruct ((lo <=? w)%Z && (w <=? hi)%Z) eqn:Hw; [|done].
  apply andb_true_iff in Hw as [?%Z.leb_le ?%Z.leb_le]. apply IH. lia.
Qed.

Lemma parse_int_range lo hi s v : (lo ≤ 0 ≤ hi)%Z → parse_int lo hi s = Some v → (lo ≤ v ≤ hi)%Z.
Proof.
  intros H0. assert (Hd : ∀ neg s, int_digits neg lo hi 0 s = Some v → (lo ≤ v ≤ hi)%Z).
  { intros neg s'. by apply int_digits_range. }
  unfold parse_int. repeat (case_match; try done); eauto.
Qed.

Lemma take_digits_nonneg s : ∀ acc v n r, (0 ≤ acc)%Z → take_digits acc s = (v, n, r) → (0 ≤ v)%Z.
Proof.
  induction s as [|c s IH]; intros acc v n r Hacc; cbn [take_digits]; [by intros [= <- _ _]|].
  destruct (digit c) as [d|] eqn:Hd; [|by intros [= <- _ _]].
  destruct (take_digits (acc * 10 + d) s) as [[v' n'] r'] eqn:He. intros [= <- _ _].
  apply IH in He; [done|]. unfold digit in Hd. case_match; [|done]. injection Hd as <-. lia.
Qed.

Lemma parse_decimal_nonneg s m e : parse_decimal s = Some (m, e) → (0 ≤ m)%Z.
Proof.
  unfold parse_decimal. destruct (take_digits 0 s) as [[i ni] r] eqn:Hi.
  apply take_digits_nonneg in Hi; [|lia].
  assert (Hm : ∀ x m' nf r2, match r with String "." r' => take_digits i r' | _ => (i, 0, r) end = x →
                x = (m', nf, r2) → (0 ≤ m')%Z).
  { intros x m' nf r2 <-. repeat (case_match; try (by intros [= <- _ _])). by apply take_digits_nonneg. }
  destruct (match r with String "." r' => take_digits i r' | _ => (i, 0, r) end) as [[m' nf] r2] eqn:He.
  specialize (Hm _ m' nf r2 eq_refl eq_refl). repeat (case_match; try done); intros [= <- _]; done.
Qed.

Lemma round_half_even_nonneg n d : (0 ≤ n → 0 < d → 0 ≤ round_half_even n d)%Z.
Proof.
  intros. pose proof (Z.div_pos n d). unfold round_half_even. repeat case_match; lia.
Qed.

Lemma ratio_to_bits_range expo mant num den : (1 ≤ expo → 0 ≤ mant → 0 ≤ num → 0 < den →
  0 ≤ ratio_to_bits expo mant num den < 2 ^ (expo + mant))%Z.
Proof.
  intros He Hm Hn Hd. unfold ratio_to_bits.
  assert (Hp : (0 < 2 ^ (expo + mant))%Z) by (apply Z.pow_pos_nonneg; lia).
  case_match; [lia|]. cbv zeta.
  set (l := (Z.log2 num - Z.log2 den)%Z). set (w := if (0 <=? l)%Z then _ else _).
  set (e := Z.max _ _). set (q := if (0 <=? e)%Z then _ else _).
  assert (Hq : (0 ≤ q)%Z).
  { unfold q. destruct (0 <=? e)%Z eqn:He0; apply round_half_even_nonneg; try lia;
      [apply Z.leb_le in He0; rewrite Z.shiftl_mul_pow2 by lia; apply Z.mul_pos_pos; [lia|by apply Z.pow_pos_nonneg]
      |apply Z.leb_gt in He0; rewrite Z.shiftl_mul_pow2 by lia; apply Z.mul_nonneg_nonneg; [lia|by apply Z.pow_nonneg]]. }
  assert (Hi : (0 ≤ Z.shiftl (Z.ones expo) mant < 2 ^ (expo + mant))%Z).
  { rewrite Z.shiftl_mul_pow2, Z.ones_equiv, Z.pow_add_r by lia.
    assert (0 < 2 ^ mant)%Z by (apply Z.pow_pos_nonneg; lia). assert (0 < 2 ^ expo)%Z by (apply Z.pow_pos_nonneg; lia). nia. }
  assert (0 ≤ (e - (2 - 2 ^ (expo - 1) - mant)) * 2 ^ mant)%Z.
  { apply Z.mul_nonneg_nonneg; [unfold e; lia|by apply Z.pow_nonneg]. }
  lia.
Qed.

Lemma decimal_to_bits_range expo mant m e : (1 ≤ expo → 0 ≤ mant → 0 ≤ m → 0 ≤ decimal_to_bits expo mant m e < 2 ^ (expo + mant))%Z.
Proof.
  intros. unfold decimal_to_bits. assert (0 < 2 ^ (expo + mant))%Z by (apply Z.pow_pos_nonneg; lia).
  case_match; [lia|]. destruct (0 <=? e)%Z eqn:He; apply ratio_to_bits_range; try lia;
    rewrite ?Z.leb_le, ?Z.leb_gt in He; (apply Z.mul_nonneg_nonneg || apply Z.pow_pos_nonneg); try lia; by apply Z.pow_nonneg.
Qed.

Lemma float_magnitude_range expo mant s b : (1 ≤ expo → 1 ≤ mant → float_magnitude expo mant s = Some b → 0 ≤ b < 2 ^ (expo + mant))%Z.
Proof.
  intros He Hm. unfold float_magnitude. destruct (parse_decimal s) as [[m e]|] eqn:Hd.
  - intros [= <-]. apply parse_decimal_nonneg in Hd. apply decimal_to_bits_range; lia.
  - assert (Hb : (0 < 2 ^ expo ∧ 0 < 2 ^ (mant - 1) ∧ 2 ^ mant = 2 * 2 ^ (mant - 1) ∧ 2 ^ (expo + 1) = 2 * 2 ^ expo)%Z).
    { repeat split; try (apply Z.pow_pos_nonneg; lia); rewrite <- Z.pow_succ_r by lia; f_equal; lia. }
    case_match; [|case_match; [|done]]; intros [= <-];
      rewrite Z.shiftl_mul_pow2, Z.ones_equiv, (Z.pow_add_r 2 expo mant) by lia; unfold Z.pred; nia.
Qed.

Lemma parse_float_range expo mant s b : (1 ≤ expo → 1 ≤ mant → parse_float expo mant s = Some b → 0 ≤ b < 2 ^ (1 + expo + mant))%Z.
Proof.
  intros He Hm. assert (Hpow : (2 ^ (1 + expo + mant) = 2 * 2 ^ (expo + mant))%Z) by (rewrite <- Z.pow_succ_r by lia; f_equal; lia).
  assert (0 < 2 ^ (expo + mant))%Z by (apply Z.pow_pos_nonneg; lia).
  assert (Hpos : ∀ s, float_magnitude expo mant s = Some b → (0 ≤ b < 2 ^ (1 + expo + mant))%Z).
  { intros s' Hs. apply float_magnitude_range in Hs; lia. }
  assert (Hneg : ∀ s, (λ b, Z.lor (Z.shiftl 1 (expo + mant)) b) <$> float_magnitude expo mant s = Some b →
            (0 ≤ b < 2 ^ (1 + expo + mant))%Z).
  { intros s' (b' & Hs & ->)%fmap_Some. apply float_magnitude_range in Hs; [|done..].
    split; [apply Z.lor_nonneg; split; [apply Z.shiftl_nonneg|]; lia|].
    destruct (decide (b' = 0)%Z) as [->|]; [rewrite Z.lor_0_r, Z.shiftl_mul_pow2; lia|].
    apply Z.log2_lt_pow2; [rewrite Z.shiftl_mul_pow2 by lia|].
    - assert (Hl : (0 ≤ Z.lor (1 * 2 ^ (expo + mant)) b')%Z) by (apply Z.lor_nonneg; lia).
      destruct (decide (Z.lor (1 * 2 ^ (expo + mant)) b' = 0)%Z) as [Hz|]; [|lia]. apply Z.lor_eq_0_iff in Hz. lia.
    - rewrite Z.log2_lor, Z.shiftl_mul_pow2, Z.mul_1_l, Z.log2_pow2 by (try apply Z.shiftl_nonneg; lia).
      apply Z.max_lub_lt; [lia|]. assert (Z.log2 b' < expo + mant)%Z by (apply Z.log2_lt_pow2; lia). lia. }
  unfold parse_float. repeat (case_match; try done); eauto.
Qed.

(** ** Parsed values have the type they were parsed at *)

Lemma cm_wf_vec l : cm_wf (CmVecCmt l) ↔ Forall cm_wf l.
Proof.
  induction l as [|x l IH]; [by split|]. rewrite Forall_cons, <- IH. done.
Qed.

Section typed.
Context `{JsonComplex}.

Lemma parsed_inv {A} ty s (mk : A → CmTypes) o v : parsed ty s mk o = ROk v → ∃ x, o = Some x ∧ v = mk x.
Proof. destruct o as [x|]; [|done]. intros [= <-]. by exists x. Qed.

Lemma parsed_complex_inv s mk o v : parsed_complex s mk o = ROk v → ∃ re im, o = Some (re, im) ∧ v = mk re im.
Proof. destruct o as [[re im]|]; [|done]. intros [= <-]. by exists re, im. Qed.

(** Case analysis on the entry of the table that was found. *)
Local Ltac parser_cases Hf :=
  repeat match type of Hf with
  | (if String.eqb ?tp ?name then _ else _) = _ =>
      let Htp := fresh "Htp" in destruct (String.eqb tp name) eqn:Htp;
      [apply String.eqb_eq in Htp; subst tp; injection Hf as <-|]
  end.

Lemma parser_typed tp parser s v :
  find_parser tp PARSERS = Some parser → parser s = ROk v → tp ∈ type_names v ∧ cm_wf v.
Proof.
  intros Hf Hv. cbn [PARSERS find_parser] in Hf. parser_cases Hf; try discriminate Hf.
  all: try (apply parsed_complex_inv in Hv as (re & im & _ & ->); split; [by left|done]).
  all: try (injection Hv as <-; split; [set_solver|done]).
  all: apply parsed_inv in Hv as (x & Hx & ->); (split; [cbn; set_solver|]); cbn [cm_wf].
  all: try done.
  all: try (apply parse_int_range in Hx; [|done]; cbn in Hx; lia).
  all: apply parse_float_range in Hx; [|done..]; cbn in Hx |- *; lia.
Qed.

Lemma parse_elements_typed inner values l : parse_elements inner values = ROk l →
  length l = length values ∧ Forall (λ x, inner ∈ type_names x) l ∧ Forall cm_wf l.
Proof.
  revert l. induction values as [|v values IH]; intros l; cbn [parse_elements]; [by intros [= <-]|].
  destruct (find_parser inner PARSERS) as [parser|] eqn:Hf; [|done].
  destruct (parser (trim v)) as [x|] eqn:Hx; [|done].
  destruct (parse_elements inner values) as [xs|] eqn:He; [|done]. intros [= <-].
  destruct (IH xs eq_refl) as (Hl & H1 & H2), (parser_typed _ _ _ _ Hf Hx).
  cbn [length]. rewrite Hl. repeat split; by constructor.
Qed.

Lemma strip_prefix_app p s r : strip_prefix p s = Some r → s = (p ++ r)%string.
Proof.
  revert s. induction p as [|c p IH]; intros [|d s]; cbn [strip_prefix]; try (by intros [= <-]).
  destruct (Ascii.eqb c d) eqn:Hc; [|done]. apply Ascii.eqb_eq in Hc as ->. by intros ->%IH.
Qed.

Lemma strip_suffix_app p s r : strip_suffix p s = Some r → s = (r ++ p)%string.
Proof.
  revert r. induction s as [|c s IH]; intros r; cbn [strip_suffix];
    (destruct (String.eqb _ p) eqn:He; [apply String.eqb_eq in He as <-; by intros [= <-]|]); [done|].
  intros (r' & Hr & ->)%fmap_Some. by rewrite (IH r' Hr).
Qed.

Lemma split_nonempty c s : WorkerRange.split c s ≠ [].
Proof. destruct s as [|d s]; [done|]. cbn. destruct (Ascii.eqb c d); [done|]. by destruct (WorkerRange.split c s). Qed.

(** C33. A literal is parsed to a value of the type its type name stands for, within the
    width of that type, or not at all; a vector is never empty and its elements have the
    type between the brackets. *)
Theorem string_to_cmtype_typed tp arg v (Hv : string_to_cmtype tp arg = ROk v) : has_type tp v ∧ cm_wf v.
Proof.
  unfold string_to_cmtype in Hv. destruct (find_parser tp PARSERS) as [parser|] eqn:Hf.
  - destruct (parser_typed _ _ _ _ Hf Hv). split; [by left|done].
  - destruct (starts_with "Vec" tp); [|done].
    destruct (strip_prefix "Vec<" tp) as [tp1|] eqn:H1; [|done].
    destruct (strip_suffix ">" tp1) as [inner|] eqn:H2; [|done].
    destruct (parse_elements inner _) as [l|] eqn:He; [|done]. injection Hv as <-.
    apply parse_elements_typed in He as (Hl & Ht & Hw). rewrite cm_wf_vec. split; [|done]. right.
    exists inner, l. apply strip_prefix_app in H1 as ->. apply strip_suffix_app in H2 as ->.
    repeat split; try done. intros ->. by apply (split_nonempty "," arg), length_zero_iff_nil.
Qed.
End typed.

(** ** Printed values parse back *)

Definition signed_of (neg : bool) (z : Z) : Z := if neg then (- z)%Z else z.

Lemma int_digits_go neg lo hi x s : (lo ≤ 0 ≤ hi)%Z → (lo ≤ signed_of neg (Z.of_N x) ≤ hi)%Z →
  int_digits neg lo hi 0 (pretty_N_go x s) = int_digits neg lo hi (signed_of neg (Z.of_N x)) s.
Proof.
  intros H0. revert s. induction x as [|x Hx IH] using pretty_go_ind; intros s Hle.
  - rewrite pretty_N_go_0. by destruct neg.
  - rewrite pretty_N_go_step by done.
    pose proof (N.div_mod x 10 ltac:(lia)) as Hdm. pose proof (N.mod_lt x 10 ltac:(lia)) as Hm.
    set (q := (x `div` 10)%N) in *. set (r := (x `mod` 10)%N) in *. clearbody q r.
    rewrite IH by (unfold signed_of in *; destruct neg; lia).
    cbn [int_digits]. rewrite digit_pretty_char by lia.
    replace (if neg then (signed_of neg (Z.of_N q) * 10 - Z.of_N r)%Z else (signed_of neg (Z.of_N q) * 10 + Z.of_N r)%Z)
      with (signed_of neg (Z.of_N x)) by (unfold signed_of; destruct neg; lia).
    by rewrite !(proj2 (Z.leb_le _ _)) by lia.
Qed.

Lemma int_digits_pretty neg lo hi n : (lo ≤ 0 ≤ hi)%Z → (lo ≤ signed_of neg (Z.of_N n) ≤ hi)%Z →
  int_digits neg lo hi 0 (pretty n) = Some (signed_of neg (Z.of_N n)).
Proof.
  intros H0 Hle. unfold pretty, pretty_N. case_decide as Hn; [|by rewrite int_digits_go].
  subst n. cbn [int_digits]. change (digit "0") with (Some 0%Z). cbv iota beta zeta.
  destruct neg; cbn [Z.mul Z.add Z.sub Z.opp]; by rewrite !(proj2 (Z.leb_le _ _)) by lia.
Qed.

Lemma parse_int_digits lo hi s : s ≠ ""%string → all_digits s = true → parse_int lo hi s = int_digits false lo hi 0 s.
Proof. destruct s as [|c s]; [done|]. intros _ Hd. by destruct c as [[] [] [] [] [] [] [] []]. Qed.

Lemma parse_int_nat lo hi n : (lo ≤ 0)%Z → (Z.of_N n ≤ hi)%Z → parse_int lo hi (pretty n) = Some (Z.of_N n).
Proof.
  intros. rewrite parse_int_digits by (auto using pretty_nonempty, pretty_digits).
  by apply (int_digits_pretty false); cbn; lia.
Qed.

Lemma parse_int_pretty lo hi z : (lo ≤ 0 ≤ hi)%Z → (lo ≤ z ≤ hi)%Z → parse_int lo hi (pretty z) = Some z.
Proof.
  intros H0 Hz. destruct z as [|p|p].
  - apply (parse_int_nat lo hi 0); lia.
  - apply (parse_int_nat lo hi (Npos p)); lia.
  - assert (Hp : pretty (Zneg p) = String "-" (pretty (Npos p))) by done. rewrite Hp.
    assert (parse_int lo hi (String "-" (pretty (Npos p))) = int_digits true lo hi 0 (pretty (Npos p))) as ->.
    { unfold parse_int. pose proof (pretty_nonempty (Npos p)). destruct (pretty (Npos p)); [done|].
      by rewrite (proj2 (Z.ltb_lt _ _)) by lia. }
    rewrite int_digits_pretty; cbn; [done|lia..].
Qed.

Lemma byte_chr z : (0 ≤ z < 256)%Z → byte (chr z) = z.
Proof. intros. unfold byte, chr. rewrite Ascii.nat_ascii_embedding by lia. lia. Qed.

Lemma payload_mod k h x : (0 < k → 0 ≤ x < k → (h * k + x) mod k = x)%Z.
Proof. intros. rewrite Z.add_comm, Z.mod_add by lia. by apply Z.mod_small. Qed.

(** The code points of Unicode. *)
Lemma first_char_roundtrip c : (0 ≤ c < 1114112)%Z → first_char (char_to_string c) = Some c.
Proof.
  intros Hc. unfold char_to_string, first_char.
  assert (E1 : (c / 4096 = c / 64 / 64)%Z) by (rewrite Z.div_div; [done|lia..]).
  assert (E2 : (c / 262144 = c / 64 / 64 / 64)%Z) by (rewrite !Z.div_div; [done|lia..]).
  rewrite E1, E2. pose proof (Z.div_mod c 64 ltac:(lia)) as D0. pose proof (Z.mod_pos_bound c 64 ltac:(lia)) as B0.
  pose proof (Z.div_mod (c / 64) 64 ltac:(lia)) as D1. pose proof (Z.mod_pos_bound (c / 64) 64 ltac:(lia)) as B1.
  pose proof (Z.div_mod (c / 64 / 64) 64 ltac:(lia)) as D2. pose proof (Z.mod_pos_bound (c / 64 / 64) 64 ltac:(lia)) as B2.
  clear E1 E2. set (g := (c mod 64)%Z) in *. set (x := (c / 64)%Z) in *. set (f := (x mod 64)%Z) in *.
  set (y := (x / 64)%Z) in *. set (e := (y mod 64)%Z) in *. set (d := (y / 64)%Z) in *. clearbody g x f y e d.
  destruct (c <? 128)%Z eqn:H1; [|destruct (c <? 2048)%Z eqn:H2; [|destruct (c <? 65536)%Z eqn:H3]];
    rewrite ?Z.ltb_lt, ?Z.ltb_ge in *; rewrite !byte_chr by lia;
    repeat ((rewrite (proj2 (Z.ltb_ge _ _)) by lia) || (rewrite (proj2 (Z.ltb_lt _ _)) by lia)); [done|f_equal..].
  - rewrite (payload_mod 32 6), (payload_mod 64 2) by lia. lia.
  - rewrite (payload_mod 16 14), !(payload_mod 64 2) by lia. lia.
  - rewrite (payload_mod 8 30), !(payload_mod 64 2) by lia. lia.
Qed.

(** The words inside a value fit the machine: identifiers are [usize] values and characters
    code points. *)
Definition words_fit (t : CmTypes) : Prop :=
  match t with
  | CmRef n | CmRes n | CmDep n => (Z.of_nat n < 2 ^ 64)%Z
  | CmChar c => (0 ≤ c < 1114112)%Z
  | _ => True
  end.

(** C34. A printed value is parsed back at its own type: booleans, integers of every width,
    characters, strings and references. *)
Theorem display_roundtrip `{JsonComplex} t tp names s
    (Hname : type_names t = tp :: names) (Hwf : cm_wf t) (Hfit : words_fit t) (Hs : cm_display t = Some s) :
  string_to_cmtype tp s = ROk t.
Proof.
  assert (Hu : ∀ n, (Z.of_nat n < 2 ^ 64)%Z → parse_unsigned 64 (pretty (Z.of_nat n)) = Some (Z.of_nat n)).
  { intros. apply parse_int_pretty; lia. }
  destruct t; cbn in Hname, Hs; try discriminate Hname; try discriminate Hs; injection Hname as <- <-; injection Hs as <-;
    cbn [cm_wf words_fit] in *; unfold string_to_cmtype; cbn [find_parser PARSERS String.eqb Ascii.eqb Bool.eqb];
    try done; unfold parsed, parse_signed, parse_unsigned in *;
    try (rewrite parse_int_pretty by (cbn in *; lia); done);
    try (rewrite Hu by done; by rewrite Nat2Z.id).
  - by destruct b.
  - by rewrite first_char_roundtrip.
Qed.

#[local] Instance no_json : JsonComplex := {| json_c32 _ := None; json_c64 _ := None |}.

Lemma string_to_cmtype_typed_witness :
  string_to_cmtype "Vec<i8>" "1, -128" = ROk (CmVecCmt [CmI8 1; CmI8 (-128)])
  ∧ has_type "Vec<i8>" (CmVecCmt [CmI8 1; CmI8 (-128)]) ∧ cm_wf (CmVecCmt [CmI8 1; CmI8 (-128)]).
Proof. split; [done|]. by apply (string_to_cmtype_typed "Vec<i8>" "1, -128"). Defined.

Lemma display_roundtrip_witness :
  cm_display (CmI16 (-32768)) = Some "-32768"%string ∧ string_to_cmtype "i16" "-32768" = ROk (CmI16 (-32768)).
Proof. split; [done|]. apply (display_roundtrip (CmI16 (-32768)) "i16" []); [done|cbn; lia|done|done]. Defined.

(** The documentation of [parse_complex64] promises the form with a comma; it is an error.
    A negative exponent of the imaginary part is taken for the sign between the parts. *)
Theorem complex64_comma_rejected :
  string_to_cmtype "Complex32" "3.5,2.5" = ROk (CmComplex32 1080033280 1075838976)
  ∧ string_to_cmtype "Complex64" "3.5,2.5" = RErr (InvalidComplex "3.5,2.5")
  ∧ string_to_cmtype "Complex32" "1+2e-3i" = RErr (InvalidComplex "1+2e-3i").
Proof. by vm_compute. Qed.
