(* ===== verification/ObjGen.v ===== *)
(** The graph file as it is read ([json_structs.rs]) and the objects made from its
    initializations ([obj_gen.rs]).

    The text is turned into these records by a third-party package. A [usize] is [nat], a
    map from names is a [gmap]. *)
From S2P Require Import Prelude Types WorkerRange GraphStruct NodeCache Tables Values.
From stdpp Require Import strings gmap.

(** ** The records of a graph file *)

Inductive Factor := FNumber (n : nat) | FRef (name : string).

Record ConditionJson := mkConditionJson {
  cj_operation : string;
  cj_value : string;
  cj_value_type : string;
}.

Record PredJson := mkPredJson {
  pj_name : string;
  pj_indexes : string;
  pj_group_by : option Factor;
}.

Record ArgJson := mkArgJson {
  aj_type : string;
  aj_value : option string;
  aj_condition : option ConditionJson;
  aj_predecessor : option PredJson;
}.

Record NodeConditionJson := mkNodeConditionJson {
  ncj_operation : string;
  ncj_value : string;
  ncj_value_type : string;
  ncj_function : string;
  ncj_args : list ArgJson;
}.

Record LoopJson := mkLoopJson { lj_name : string; lj_factor : option Factor }.

Record NodeJson := mkNodeJson {
  nj_name : string;
  nj_factor : option Factor;
  nj_function : string;
  nj_loop : option LoopJson;
  nj_loop_args : option (list ArgJson);
  nj_args : list ArgJson;
  nj_group_size : option Factor;
  nj_condition : option NodeConditionJson;
  nj_priority : option string;
  nj_use_workers : option string;
}.

Record ArgInit := mkArgInit { ai_type : string; ai_value : string }.

Record InitJson := mkInitJson {
  ij_name : string;
  ij_factor : option Factor;
  ij_args : list ArgInit;
  ij_function : option string;
}.

Record IndexFunctionJson := mkIndexFunctionJson { ifj_function : string; ifj_args : list ArgJson }.

Record NetworkConfigJson := mkNetworkConfigJson {
  ncfj_socket_type : string;
  ncfj_num_sockets : Factor;
  ncfj_packet_length : Factor;
  ncfj_frame_packets : Factor;
  ncfj_buffer_depth : nat;
  ncfj_address : string;
  ncfj_start_port : Factor;
  ncfj_extract_packet_func : string;
  ncfj_id_function : string;
  ncfj_index_function : IndexFunctionJson;
}.

Record GraphFile := mkGraphFile {
  gf_initializations : list InitJson;
  gf_nodes : list NodeJson;
  gf_post_nodes : option (list NodeJson);
  gf_network_config : option NetworkConfigJson;
}.

(** What makes a graph file invalid. *)
Inductive TomiiError :=
  | InvalidJson
  | FunctionNotFound (name : string)
  | NoInitFunction (ty value : string) (e : custom_error)
  | ValueError (e : custom_error)
  | UnknownPredecessor (name : string)
  | InvalidIndex (index name : string)
  | InvalidRangeStart (start name : string)
  | InvalidRangeEnd (end_ name : string)
  | NotANumber (name : string)
  | InvalidOperation (op : string)
  | UnsupportedSocket (ty : string)
  | AddressNotString
  | InvalidUseWorkersSpec (spec : string) (e : range_error)
  | ArgLayout (node : string) (pos n factor : nat).

Notation Objects := (list (list CmTypes)).
Notation ObjIds := (gmap string nat).

(** [init_objects[id][0].valid_number_to_usize()], the [None] of a value that is no number kept. *)
Definition object_number (init_objects : Objects) (obj_id : nat) : run (option nat) :=
  let! ref_val := vec_get init_objects obj_id in
  let! v := vec_get ref_val 0 in
  Ret (valid_number_to_usize v).

(** [Factor::resolve]. *)
Definition Factor_resolve (f : Factor) (init_objects : Objects) (obj_id_map : ObjIds) (workers : nat) : run nat :=
  match f with
  | FNumber num => Ret num
  | FRef ref_name =>
      match obj_id_map !! ref_name with
      | Some obj_id => let! n := object_number init_objects obj_id in unwrap n
      | None => if String.eqb ref_name "$workers" then Ret workers else Panic
      end
  end.

(** An optional factor is one. *)
Definition factor_or_one (f : option Factor) (init_objects : Objects) (obj_id_map : ObjIds) (workers : nat) : run nat :=
  match f with Some f => Factor_resolve f init_objects obj_id_map workers | None => Ret 1 end.

(** ** [init_objects] *)

Section init.
Context `{JsonComplex} `{FuncReg}.
Variable workers : nat.

Definition init_value (ty value : string) : fallible TomiiError CmTypes :=
  match string_to_cmtype ty value with
  | ROk v => try_ret v
  | RErr e => try_err (NoInitFunction ty value e)
  end.

(** One argument of the function that makes instance [i] of an object. *)
Definition init_arg (objs : Objects) (ids : ObjIds) (i : nat) (a : ArgInit) : fallible TomiiError CmTypes :=
  if String.eqb (ai_value a) "$workers" then try_ret (CmUsize workers)
  else if String.eqb (ai_value a) "$index" then try_ret (CmUsize i)
  else match ids !! ai_value a with
  | Some obj_id =>
      let! init_arg := vec_get objs obj_id in
      let! v := vec_get init_arg 0 in
      try_ret v
  | None => init_value (ai_type a) (ai_value a)
  end.

(** The values of one object. *)
Definition init_object (objs : Objects) (ids : ObjIds) (init : InitJson) : fallible TomiiError (list CmTypes) :=
  let! factor := factor_or_one (ij_factor init) objs ids workers in
  match ij_function init with
  | Some func_name =>
      let? func_ptr := ok_or (get_func func_name) (FunctionNotFound func_name) in
      try_map (λ i, let? args := try_map (init_arg objs ids i) (ij_args init) in try_ret (func_ptr args)) (seq 0 factor)
  | None =>
      let! a := vec_get (ij_args init) 0 in
      let? v := init_value (ai_type a) (ai_value a) in
      try_ret (replicate factor v)
  end.

(** The objects, their names, and the next number, a [u16]. *)
Definition InitState : Type := Objects * ObjIds * nat.

Definition init_step (s : InitState) (init : InitJson) : fallible TomiiError InitState :=
  let '(objs, ids, counter) := s in
  let? value_vec := init_object objs ids init in
  try_ret (objs ++ [value_vec], <[ij_name init := counter]> ids, as_id (counter + 1)).

Fixpoint init_loop (s : InitState) (l : list InitJson) : fallible TomiiError InitState :=
  match l with
  | [] => try_ret s
  | init :: l => let? s' := init_step s init in init_loop s' l
  end.

Definition init_start : InitState :=
  ([[CmUsize 0]; [CmUsize 1]], <["$workers"%string := 1]> (<["$index"%string := 0]> ∅), 2).

(** [init_objects]. *)
Definition init_objects (initializations_json : list InitJson) : fallible TomiiError (Objects * ObjIds) :=
  let? (objs, ids, _) := init_loop init_start initializations_json in
  try_ret (objs, ids).

(** ** What the objects are *)

Lemma try_bind_ok {E A B} (m : fallible E A) (k : A → fallible E B) y :
  try_bind m k = Ret (ROk y) → ∃ x, m = Ret (ROk x) ∧ k x = Ret (ROk y).
Proof. destruct m as [[x|]|]; try done. by exists x. Qed.

Lemma init_step_ok objs ids c init s' : init_step (objs, ids, c) init = Ret (ROk s') →
  ∃ v, init_object objs ids init = Ret (ROk v) ∧ s' = (objs ++ [v], <[ij_name init := c]> ids, as_id (c + 1)).
Proof. intros (v & Hv & [= <-])%try_bind_ok. by exists v. Qed.

(** The numbers of the names after the initializations [l], which the next ones start from [c]. *)
Fixpoint number_names (ids : ObjIds) (c : nat) (l : list InitJson) : ObjIds :=
  match l with
  | [] => ids
  | init :: l => number_names (<[ij_name init := c]> ids) (as_id (c + 1)) l
  end.

Lemma init_loop_spec l : ∀ objs ids c objs' ids' c', init_loop (objs, ids, c) l = Ret (ROk (objs', ids', c')) →
  ∃ new, objs' = objs ++ new ∧ length new = length l ∧ ids' = number_names ids c l
    ∧ ∀ k init, l !! k = Some init → ∃ v, new !! k = Some v
        ∧ init_object (objs ++ take k new) (number_names ids c (take k l)) init = Ret (ROk v).
Proof.
  induction l as [|init l IH]; intros objs ids c objs' ids' c'; cbn [init_loop number_names].
  - intros [= -> -> ->]. exists []. rewrite app_nil_r. by repeat split.
  - intros (s' & (v & Hv & ->)%init_step_ok & Hl)%try_bind_ok.
    destruct (IH _ _ _ _ _ _ Hl) as (new & -> & Hlen & -> & Hk). exists (v :: new).
    split; [by rewrite <- (assoc_L (++))|]. split; [cbn; by rewrite Hlen|]. split; [done|].
    intros [|k] init' Hi; cbn in Hi.
    + injection Hi as <-. exists v. split; [done|]. cbn. by rewrite app_nil_r.
    + destruct (Hk k init' Hi) as (v' & Hv' & Ho). exists v'. split; [done|]. cbn [take number_names].
      by rewrite <- (assoc_L (++)) in Ho.
Qed.

Lemma number_names_other ids c l name : (∀ init, init ∈ l → ij_name init ≠ name) → number_names ids c l !! name = ids !! name.
Proof.
  revert ids c. induction l as [|init l IH]; intros ids c Hl; cbn [number_names]; [done|].
  rewrite IH by (intros; apply Hl; by right). apply lookup_insert_ne. apply Hl. by left.
Qed.

(** A name stands for its last initialization. *)
Lemma number_names_last ids c l l' init : (Z.of_nat (c + length l) < 65536)%Z →
  (∀ init', init' ∈ l' → ij_name init' ≠ ij_name init) →
  number_names ids c (l ++ init :: l') !! ij_name init = Some (c + length l).
Proof.
  intros Hc Hl'. revert ids c Hc. induction l as [|i l IH]; intros ids c Hc; cbn [app number_names length] in *.
  - rewrite number_names_other by done. rewrite lookup_insert. by rewrite decide_True, Nat.add_0_r.
  - assert (Hid : as_id (c + 1) = S c) by (unfold as_id; rewrite Z.mod_small; lia).
    rewrite IH, Hid by (rewrite ?Hid; lia). f_equal. lia.
Qed.

(** Every initialization makes its object from those before it, a name standing for the
    last initialization before that bears it; the objects are in the order of the file after
    the two reserved ones. *)
Theorem init_objects_spec l objs ids
    (Hok : init_objects l = Ret (ROk (objs, ids))) (Hlen : (Z.of_nat (length l) < 65534)%Z) :
  length objs = 2 + length l
  ∧ take 2 objs = [[CmUsize 0]; [CmUsize 1]]
  ∧ (∀ l1 init l2, l = l1 ++ init :: l2 → ∃ v, objs !! (2 + length l1) = Some v
      ∧ init_object (take (2 + length l1) objs) (number_names init_start.1.2 2 l1) init = Ret (ROk v)
      ∧ ((∀ init', init' ∈ l2 → ij_name init' ≠ ij_name init) → ids !! ij_name init = Some (2 + length l1))).
Proof.
  unfold init_objects in Hok. apply try_bind_ok in Hok as ([[objs' ids'] c'] & Hloop & [= -> ->]).
  destruct (init_loop_spec l _ _ _ _ _ _ Hloop) as (new & -> & Hn & -> & Hk).
  split; [cbn; by rewrite Hn|]. split; [done|]. intros l1 init l2 ->.
  destruct (Hk (length l1) init) as (v & Hv & Ho); [by apply list_lookup_middle|].
  exists v. split; [done|]. split.
  - cbn [Nat.add take app]. rewrite take_app_length in Ho. done.
  - intros Hl2. rewrite number_names_last; [done|rewrite length_app in Hlen; cbn in Hlen; lia|done].
Qed.

(** The name [$workers], which the documentation gives to the number of workers, stands
    for one in every factor: the reserved object is found before the name is looked at. *)
Theorem workers_factor_is_one l objs ids (Hok : init_objects l = Ret (ROk (objs, ids)))
    (Hname : ∀ init, init ∈ l → ij_name init ≠ "$workers"%string) :
  Factor_resolve (FRef "$workers") objs ids workers = Ret 1.
Proof.
  unfold init_objects in Hok. apply try_bind_ok in Hok as ([[objs' ids'] c'] & Hloop & [= -> ->]).
  destruct (init_loop_spec l _ _ _ _ _ _ Hloop) as (new & -> & _ & -> & _).
  unfold Factor_resolve. rewrite number_names_other by done. done.
Qed.
End init.

(** ** A file with two constants and an object made by a function *)

#[local] Instance no_json : JsonComplex := {| json_c32 _ := None; json_c64 _ := None |}.
#[local] Instance sum_func : FuncReg := {|
  get_func name := if String.eqb name "sum" then Some (λ args, CmUsize (sum_list (omap valid_number_to_usize args))) else None;
  get_bulk_func _ := None; get_func_argspec _ := None; get_func_ret_variant _ := None; get_unchecked_func _ := None |}.

Definition some_inits : list InitJson := [
  mkInitJson "n" None [mkArgInit "usize" "4"] None;
  mkInitJson "offsets" (Some (FRef "n")) [mkArgInit "$ref" "n"; mkArgInit "$ref" "$index"; mkArgInit "$ref" "$workers"] (Some "sum"%string);
  mkInitJson "per_worker" (Some (FRef "$workers")) [mkArgInit "i32" "-1"] None].

Definition some_objects : Objects :=
  [[CmUsize 0]; [CmUsize 1]; [CmUsize 4]; [CmUsize 12; CmUsize 13; CmUsize 14; CmUsize 15]; [CmI32 (-1)]].
Definition some_ids : ObjIds := number_names init_start.1.2 2 some_inits.

Lemma init_objects_spec_witness :
  init_objects 8 some_inits = Ret (ROk (some_objects, some_ids))
  ∧ some_ids !! "offsets"%string = Some 3 ∧ length some_objects = 5.
Proof.
  assert (Hok : init_objects 8 some_inits = Ret (ROk (some_objects, some_ids))) by (by vm_compute).
  destruct (init_objects_spec 8 some_inits _ _ Hok eq_refl) as (Hlen & _ & Hk).
  split; [done|]. split; [|done].
  destruct (Hk [mkInitJson "n" None [mkArgInit "usize" "4"] None] _ _ eq_refl) as (_ & _ & _ & Hid). apply Hid.
  intros init' ->%list_elem_of_singleton. done.
Defined.

Lemma workers_factor_is_one_witness :
  init_objects 8 some_inits = Ret (ROk (some_objects, some_ids)) ∧ Factor_resolve (FRef "$workers") some_objects some_ids 8 = Ret 1.
Proof.
  assert (Hok : init_objects 8 some_inits = Ret (ROk (some_objects, some_ids))) by (by vm_compute).
  split; [done|]. apply (workers_factor_is_one 8 some_inits _ _ Hok).
  intros init Hin. unfold some_inits in Hin. rewrite !elem_of_cons in Hin. destruct Hin as [->|[->|[->|Hin]]]; [done..|]. by apply not_elem_of_nil in Hin.
Defined.
