(* ===== verification/GraphGen.v ===== *)
(** From the graph file to the graph ([graph_gen.rs]): arguments, predecessors with their
    index expressions, conditions, nodes, post-nodes, the network block, and the
    compilation of the parsed graph into the tables of the runtime.

    Reading the file and turning its text into a [GraphFile] is left to the caller. *)
From S2P Require Import Prelude Types WorkerRange GraphStruct Graph NodeCache Tables Arena Values ObjGen.
From stdpp Require Import strings pretty gmap.
From Stdlib Require Import Ascii.
Open Scope list_scope.

(** [Result<T, CustomError>] under the operator [?]. *)
Definition value_or_error (r : result CmTypes custom_error) : fallible TomiiError CmTypes :=
  match r with ROk v => try_ret v | RErr e => try_err (ValueError e) end.

Definition parse_isize : string → option Z := parse_signed 64.

(** [WorkerRangeSpec::parse(s).map_err(..)?]. *)
Definition parse_use_workers (spec_str : string) : fallible TomiiError WorkerRangeSpec :=
  match WorkerRangeSpec_parse spec_str with
  | ROk spec => try_ret spec
  | RErr e => try_err (InvalidUseWorkersSpec spec_str e)
  end.

(** [f(..)?] of a function that may panic but not fail. *)
Definition no_error {E A} (m : run A) : fallible E A := run_map ROk m.

Section parse.
Context `{JsonComplex} `{FuncReg}.
Variables (init_vec : Objects) (obj_id_map : ObjIds) (workers : nat).

(** An index that is no literal names an object. *)
Definition index_object (s : string) (missing : TomiiError) : fallible TomiiError Z :=
  let? obj_id := ok_or (obj_id_map !! s) missing in
  let? n := no_error (object_number init_vec obj_id) in
  let? n := ok_or n (NotANumber s) in
  try_ret (as_i64 (Z.of_nat n)).

(** The end of a range: a literal is inclusive, the number of an object is exclusive. *)
Definition range_start (s pred_name : string) : fallible TomiiError Z :=
  match parse_isize s with
  | Some val => try_ret val
  | None => index_object s (InvalidRangeStart s pred_name)
  end.

Definition range_end (s pred_name : string) : fallible TomiiError Z :=
  match parse_isize s with
  | Some end_ => try_ret (as_i64 (end_ + 1))
  | None => index_object s (InvalidRangeEnd s pred_name)
  end.

Definition single_index (s pred_name : string) : fallible TomiiError Z :=
  match parse_isize s with
  | Some val => try_ret val
  | None => index_object s (InvalidIndex s pred_name)
  end.

Definition listed_index (pred_name s : string) : fallible TomiiError Z :=
  ok_or (parse_isize (trim s)) (InvalidIndex (trim s) pred_name).

(** [start..end]. *)
Definition z_range (start end_ : Z) : list Z := seqZ start (end_ - start).

(** The index expression of a predecessor. *)
Definition parse_indexes (indexes pred_name : string) : fallible TomiiError (list Z) :=
  if contains_char "," indexes then try_map (listed_index pred_name) (WorkerRange.split "," indexes)
  else if contains_char "-" indexes then
    let range := WorkerRange.split "-" indexes in
    let! r0 := vec_get range 0 in
    let? start := range_start r0 pred_name in
    let! r1 := vec_get range 1 in
    let? end_ := range_end r1 pred_name in
    try_ret (z_range start end_)
  else let? val := single_index indexes pred_name in try_ret [val].

(** [parse_predecessor]. *)
Definition parse_predecessor (name_to_id : gmap string nat) (pred_json : PredJson) : fallible TomiiError Predecessor :=
  let? pred_id := ok_or (name_to_id !! pj_name pred_json) (UnknownPredecessor (pj_name pred_json)) in
  let? index_vec := parse_indexes (pj_indexes pred_json) (pj_name pred_json) in
  let? group_by := try_option (λ gb, no_error (Factor_resolve gb init_vec obj_id_map workers)) (pj_group_by pred_json) in
  try_ret (mkPred pred_id index_vec group_by).

Definition parse_operation (op : string) : fallible TomiiError CondOp := ok_or (CondOp_parse op) (InvalidOperation op).

(** [parse_condition]. *)
Definition parse_condition (condition_json : ConditionJson) : fallible TomiiError InitCondition :=
  let? operation := parse_operation (cj_operation condition_json) in
  let? eval_value := value_or_error (string_to_cmtype (cj_value_type condition_json) (cj_value condition_json)) in
  try_ret (mkInitCondition operation eval_value).

(** The value of an argument: the number of the predecessor, of the named object, or a literal. *)
Definition arg_value (arg_json : ArgJson) (predecessor : option Predecessor) : fallible TomiiError CmTypes :=
  match predecessor with
  | Some pred => value_or_error (string_to_cmtype (aj_type arg_json) (pretty (p_id pred)))
  | None =>
      match aj_value arg_json with
      | Some arg_value =>
          match obj_id_map !! arg_value with
          | Some obj_id => value_or_error (string_to_cmtype (aj_type arg_json) (pretty obj_id))
          | None => value_or_error (string_to_cmtype (aj_type arg_json) arg_value)
          end
      | None => try_ret CmNone
      end
  end.

(** [parse_arg]. *)
Definition parse_arg (name_to_id : gmap string nat) (arg_json : ArgJson) : fallible TomiiError Arg :=
  let? condition := try_option parse_condition (aj_condition arg_json) in
  let? predecessor := try_option (parse_predecessor name_to_id) (aj_predecessor arg_json) in
  let? arg_cmtype := arg_value arg_json predecessor in
  try_ret (mkArg arg_cmtype condition predecessor).

(** ** Nodes *)

(** A dependency that expands to more than one value. *)
Definition multi_value (factor : nat) (a : Arg) : option nat :=
  if negb (is_result (a_type a)) then None
  else match a_predecessor a with
  | None => None
  | Some pred =>
      if is_some (p_group_by pred) then None
      else
        let n := length (p_indexes pred) in
        if (1 <? n) && negb (n =? factor) then Some n else None
  end.

Fixpoint check_layout (node_name : string) (factor pos : nat) (layout : list Arg) : result unit TomiiError :=
  match layout with
  | [] => ROk tt
  | a :: rest =>
      match multi_value factor a, rest with
      | Some n, _ :: _ => RErr (ArgLayout node_name pos n factor)
      | _, _ => check_layout node_name factor (S pos) rest
      end
  end.

(** [validate_res_arg_layout]. *)
Definition validate_res_arg_layout (node_name : string) (args : list Arg) (factor : nat) : result unit TomiiError :=
  check_layout node_name factor 0 (filter (λ a, is_condition a = false) args).

Definition parse_node_condition (name_to_id : gmap string nat) (cond_json : NodeConditionJson)
    : fallible TomiiError NodeCondition :=
  let? cond_operation := parse_operation (ncj_operation cond_json) in
  let? cond_value := value_or_error (string_to_cmtype (ncj_value_type cond_json) (ncj_value cond_json)) in
  let? cond_args := try_map (parse_arg name_to_id) (ncj_args cond_json) in
  try_ret (mkNodeCondition cond_operation cond_value (ncj_function cond_json) cond_args).

(** [parse_single_node]; the caller gives the node its number. *)
Definition parse_single_node (name_to_id : gmap string nat) (node_json : NodeJson) : fallible TomiiError Node :=
  let? args := try_map (parse_arg name_to_id) (nj_args node_json) in
  let? loop_args := try_option (try_map (parse_arg name_to_id)) (nj_loop_args node_json) in
  let! factor := factor_or_one (nj_factor node_json) init_vec obj_id_map workers in
  let? group_size := try_option (λ gs, no_error (Factor_resolve gs init_vec obj_id_map workers)) (nj_group_size node_json) in
  let? loop_ := try_option (λ lj, let! f := factor_or_one (lj_factor lj) init_vec obj_id_map workers in
                                  try_ret (mkLoop (lj_name lj) f)) (nj_loop node_json) in
  let? _ := Ret (validate_res_arg_layout (nj_name node_json) args factor) in
  let? condition := try_option (parse_node_condition name_to_id) (nj_condition node_json) in
  let priority := match nj_priority node_json with Some s => NodePriority_parse s | None => Normal end in
  let? use_workers := try_option parse_use_workers (nj_use_workers node_json) in
  try_ret (mkNode (nj_name node_json) args 0 loop_args factor group_size (nj_function node_json) loop_ condition
             priority use_workers).

Definition with_id (id : nat) (node : Node) : Node :=
  mkNode (n_name node) (n_args node) id (n_loop_args node) (n_factor node) (n_group_size node) (n_func_name node)
    (n_loop node) (n_condition node) (n_priority node) (n_use_workers node).

(** [parse_post_nodes]. *)
Definition parse_post_nodes (name_to_id : gmap string nat) (post_nodes_json : list NodeJson)
    : fallible TomiiError (list Node) :=
  try_map (λ '(i, pn_json), let? node := parse_single_node name_to_id pn_json in try_ret (with_id (as_id i) node))
    (imap pair post_nodes_json).

(** ** The network block *)

Definition parse_socket_type (s : string) : fallible TomiiError SocketType :=
  if String.eqb (to_lowercase s) "udp" then try_ret Udp else try_err (UnsupportedSocket (to_lowercase s)).

Definition parse_address (given : string) : fallible TomiiError string :=
  match obj_id_map !! given with
  | Some obj_id =>
      let! l := vec_get init_vec obj_id in
      let! v := vec_get l 0 in
      ok_or (as_string v) AddressNotString
  | None => try_ret given
  end.

(** [parse_network_config]. *)
Definition parse_network_config (name_to_id : gmap string nat) (nc_json : NetworkConfigJson)
    : fallible TomiiError GraphNetworkConfig :=
  let resolve f := Factor_resolve f init_vec obj_id_map workers in
  let? socket_type := parse_socket_type (ncfj_socket_type nc_json) in
  let! num_sockets := resolve (ncfj_num_sockets nc_json) in
  let! packet_length := resolve (ncfj_packet_length nc_json) in
  let! frame_packets := resolve (ncfj_frame_packets nc_json) in
  let? address := parse_address (ncfj_address nc_json) in
  let! start_port := resolve (ncfj_start_port nc_json) in
  let extract_packet_func := get_func (ncfj_extract_packet_func nc_json) in
  let id_function := get_func (ncfj_id_function nc_json) in
  let func_ptr := get_func (ifj_function (ncfj_index_function nc_json)) in
  let? args := try_map (parse_arg name_to_id) (ifj_args (ncfj_index_function nc_json)) in
  try_ret (mkNetConfig socket_type num_sockets packet_length frame_packets (ncfj_buffer_depth nc_json) address
             start_port extract_packet_func id_function (Some (mkIndexFunction func_ptr args))).

(** ** The graph *)

(** The graph, the numbers of the names, and the next number, a [u16]. *)
Record GenState := mkGen {
  gs_graph : Graph;
  gs_names : gmap string nat;
  gs_counter : nat;
}.

(** A node is added under the next number, which its name stands for from then on. *)
Definition add_named (s : GenState) (node : Node) : run GenState :=
  let! g := add_node (gs_graph s) (with_id (gs_counter s) node) in
  Ret (mkGen g (<[n_name node := gs_counter s]> (gs_names s)) (as_id (gs_counter s + 1))).

(** The virtual node that stands for the packets of a frame. *)
Definition network_node (frame_packets : nat) : Node :=
  mkNode "$network" [] 0 None frame_packets None "" None None Normal None.

(** The state after the network block; [network] is the cargo feature of that name. *)
Definition gen_start (network : bool) (nc_json : option NetworkConfigJson) : fallible TomiiError GenState :=
  match nc_json with
  | None => try_ret (mkGen Graph_new ∅ 0)
  | Some nc_json =>
      let? nc := parse_network_config ∅ nc_json in
      let s := mkGen (set_network_config Graph_new nc) ∅ 0 in
      if network then no_error (add_named s (network_node (net_frame_packets nc))) else try_ret s
  end.

Definition gen_node (s : GenState) (node_json : NodeJson) : fallible TomiiError GenState :=
  let? node := parse_single_node (gs_names s) node_json in
  no_error (add_named s node).

Fixpoint gen_nodes (s : GenState) (nodes : list NodeJson) : fallible TomiiError GenState :=
  match nodes with
  | [] => try_ret s
  | node_json :: nodes => let? s' := gen_node s node_json in gen_nodes s' nodes
  end.
End parse.

(** [GraphSpec]. *)
Record GraphSpec := mkSpec {
  spec_graph : Graph;
  spec_init_objects : Objects;
}.

Section gen.
Context `{JsonComplex} `{FuncReg}.

(** [from_json_str] from the parsed file on. The warnings about groups are only logged. *)
Definition from_graph_file (network : bool) (graph_parsed : GraphFile) (workers : nat) : fallible TomiiError GraphSpec :=
  let? (init_vec, obj_id_map) := init_objects workers (gf_initializations graph_parsed) in
  let? s0 := gen_start init_vec obj_id_map workers network (gf_network_config graph_parsed) in
  let? s := gen_nodes init_vec obj_id_map workers s0 (gf_nodes graph_parsed) in
  let? post := parse_post_nodes init_vec obj_id_map workers (gs_names s) (default [] (gf_post_nodes graph_parsed)) in
  let! g := foldM add_post_node (gs_graph s) post in
  let! _ := warn_ineffective_group_by g in
  try_ret (mkSpec g init_vec).

(** [from_json_str] with the JSON parser it calls. *)
Definition from_json_str (from_str : string → option GraphFile) (network : bool) (contents : string) (workers : nat)
    : fallible TomiiError GraphSpec :=
  let? graph_parsed := ok_or (from_str contents) InvalidJson in
  from_graph_file network graph_parsed workers.

(** [GraphCompiled]. *)
Record GraphCompiled := mkCompiled {
  gc_graph : Graph;
  gc_node_cache : list NodeCacheEntry;
  gc_successor_arena : SuccessorArena;
  gc_tables : Routing;
  gc_total_tasks : nat;
  gc_total_cond_tasks : nat;
  gc_init_objects : Objects;
  gc_dependency_count_vec : list nat;
  gc_max_factor : nat;
  gc_num_nodes : nat;
}.

(** [iter().map(|n| n.factor).max().unwrap_or(1)]. *)
Definition max_factor_of (cache : list NodeCacheEntry) : nat :=
  match cache with [] => 1 | _ => max_list (ce_factor <$> cache) end.

(** [GraphSpec::compile]; the environment switches are arguments. *)
Definition compile `{AffinityLookup} (templates_disabled range_1to1_enabled : bool) (s : GraphSpec) : run GraphCompiled :=
  let g := spec_graph s in
  let! node_cache := build_node_cache g (spec_init_objects s) templates_disabled in
  let! t := build_predecessor_tables range_1to1_enabled g in
  let! arena := arena_build (g_successors g) (length (g_nodes g)) node_cache t in
  let! counts := dependency_count_vec g in
  Ret (mkCompiled g node_cache arena t (total_tasks node_cache) (total_cond_tasks node_cache) (spec_init_objects s)
         counts (max_factor_of node_cache) (length (g_nodes g))).
End gen.
