(* ===== verification/GraphGenSpec.v ===== *)
(** What a parsed graph file is: its nodes in the order of the file, each reading earlier
    ones, a well-formed graph, argument layouts that no gathered value overruns; and what
    index expressions mean. *)
From S2P Require Import Prelude Types WorkerRange GraphStruct Graph NodeCache Tables Arena ArgRes Populate Values ObjGen GraphGen.
From stdpp Require Import strings pretty gmap.
From Stdlib Require Import Ascii.
Open Scope list_scope.

Lemma try_map_ok {E A B} (f : A → fallible E B) l ys :
  try_map f l = Ret (ROk ys) → Forall2 (λ x y, f x = Ret (ROk y)) l ys.
Proof.
  revert ys. induction l as [|x l IH]; intros ys; cbn [try_map]; [by intros [= <-]|].
  intros (y & Hy & (ys' & Hys & [= <-])%try_bind_ok)%try_bind_ok. constructor; [done|by apply IH].
Qed.

Lemma try_option_ok {E A B} (f : A → fallible E B) o y :
  try_option f o = Ret (ROk y) → match o, y with
  | None, None => True
  | Some x, Some y => f x = Ret (ROk y)
  | _, _ => False
  end.
Proof. destruct o as [x|]; cbn [try_option]; [|by intros [= <-]]. by intros (z & Hz & [= <-])%try_bind_ok. Qed.

Lemma ok_or_ok {E A} (o : option A) (e : E) x : ok_or o e = Ret (ROk x) → o = Some x.
Proof. destruct o; [by intros [= <-]|done]. Qed.

Lemma no_error_ok {E A} (m : run A) x : no_error (E := E) m = Ret (ROk x) → m = Ret x.
Proof. destruct m; [by intros [= <-]|done]. Qed.

Lemma run_bind_ok {E A B} (m : run A) (k : A → fallible E B) y :
  run_bind m k = Ret (ROk y) → ∃ x, m = Ret x ∧ k x = Ret (ROk y).
Proof. apply run_bind_Ret. Qed.

(** ** The numbers of the names *)

(** What a name stands for after the nodes: the last of them with that name. *)
Definition names_of (nodes : list Node) : gmap string nat :=
  foldl (λ m node, <[n_name node := n_id node]> m) ∅ nodes.

Lemma names_of_snoc nodes node : names_of (nodes ++ [node]) = <[n_name node := n_id node]> (names_of nodes).
Proof. unfold names_of. by rewrite foldl_app. Qed.

Definition numbered (nodes : list Node) : Prop := ∀ i node, nodes !! i = Some node → n_id node = i.

Lemma names_of_spec nodes name id : numbered nodes → names_of nodes !! name = Some id →
  ∃ node, nodes !! id = Some node ∧ n_name node = name
          ∧ ∀ j node', nodes !! j = Some node' → n_name node' = name → j ≤ id.
Proof.
  intros Hn. induction nodes as [|node nodes IH] using rev_ind; [done|].
  rewrite names_of_snoc. assert (Hid : n_id node = length nodes).
  { apply (Hn (length nodes)). by apply list_lookup_middle. }
  destruct (decide (n_name node = name)) as [<-|Hne].
  - rewrite lookup_insert, decide_True by done. intros [= <-]. exists node. rewrite Hid.
    split; [by apply list_lookup_middle|]. split; [done|]. intros j node' Hj%lookup_lt_Some _.
    rewrite length_app in Hj. cbn in Hj. lia.
  - rewrite lookup_insert_ne by done. intros Hi. destruct IH as (node' & H1 & H2 & H3); [|done|].
    { intros i nd Hi'. apply Hn. by apply lookup_app_l_Some. }
    exists node'. split; [by apply lookup_app_l_Some|]. split; [done|].
    intros j nd [Hj|[-> ->]]%snoc_lookup Hname; [by eapply H3|done].
Qed.

Section spec.
Context `{JsonComplex} `{FuncReg}.
Variables (objs : Objects) (ids : ObjIds) (workers : nat).

(** ** Arguments *)

(** The predecessor of a parsed argument is a name that was known. *)
Lemma parse_arg_pred names aj a p : parse_arg objs ids workers names aj = Ret (ROk a) →
  a_predecessor a = Some p → ∃ pj, aj_predecessor aj = Some pj ∧ names !! pj_name pj = Some (p_id p)
                              ∧ parse_indexes objs ids (pj_indexes pj) (pj_name pj) = Ret (ROk (p_indexes p)).
Proof.
  intros (c & _ & (po & Hp & (t & _ & [= <-])%try_bind_ok)%try_bind_ok)%try_bind_ok [= ->].
  apply try_option_ok in Hp. destruct (aj_predecessor aj) as [pj|]; [|done]. exists pj. split; [done|].
  unfold parse_predecessor in Hp. apply try_bind_ok in Hp as (id & Hid%ok_or_ok & Hp).
  apply try_bind_ok in Hp as (ix & Hix & Hp). by apply try_bind_ok in Hp as (gb & _ & [= <-]).
Qed.

(** The instance a dependency names is its predecessor. *)
Definition names_its_pred (a : Arg) : Prop := ∀ n p,
  (a_type a = CmRes n ∨ a_type a = CmDep n) → a_predecessor a = Some p → n = p_id p.

Lemma dep_number tp k n v : (Z.of_nat k < 2 ^ 64)%Z → string_to_cmtype tp (pretty k) = ROk v →
  (v = CmRes n ∨ v = CmDep n) → n = k.
Proof.
  intros Hk Hs Hv. unfold string_to_cmtype in Hs. destruct (find_parser tp PARSERS) as [parser|] eqn:Hf.
  - destruct (parser_typed _ _ _ _ Hf Hs) as [Htp _]. assert (Hp : parse_unsigned 64 (pretty k) = Some (Z.of_nat k)).
    { change (pretty k) with (pretty (N.of_nat k)). unfold parse_unsigned. rewrite parse_int_nat; [f_equal; lia|lia..]. }
    destruct Hv as [-> | ->]; apply list_elem_of_singleton in Htp as ->; cbn in Hf; injection Hf as <-;
      rewrite Hp in Hs; injection Hs as <-; lia.
  - case_match; [|done]. case_match; [|done]. case_match; [|done]. case_match; [|done].
    injection Hs as <-. by destruct Hv.
Qed.

Lemma parse_arg_names names aj a : (∀ name id, names !! name = Some id → (Z.of_nat id < 2 ^ 64)%Z) →
  parse_arg objs ids workers names aj = Ret (ROk a) → names_its_pred a.
Proof.
  intros Hn Ha n p Hty Hp. destruct (parse_arg_pred _ _ _ _ Ha Hp) as (pj & _ & Hid & _).
  apply try_bind_ok in Ha as (c & _ & Ha). apply try_bind_ok in Ha as (po & _ & Ha).
  apply try_bind_ok in Ha as (t & Ht & [= <-]). cbn in Hty, Hp. subst po. cbn [arg_value] in Ht.
  unfold value_or_error in Ht. destruct (string_to_cmtype (aj_type aj) (pretty (p_id p))) as [v|] eqn:Hv; [|done].
  injection Ht as <-. by eapply dep_number; [eapply Hn| |].
Qed.

(** The parsed arguments of a node: its own, in order, and a layout that passes the check. *)
Lemma parse_single_node_ok names nj node : parse_single_node objs ids workers names nj = Ret (ROk node) →
  n_name node = nj_name nj ∧ n_func_name node = nj_function nj
  ∧ Forall2 (λ aj a, parse_arg objs ids workers names aj = Ret (ROk a)) (nj_args nj) (n_args node)
  ∧ validate_res_arg_layout (n_name node) (n_args node) (n_factor node) = ROk tt
  ∧ factor_or_one (nj_factor nj) objs ids workers = Ret (n_factor node).
Proof.
  unfold parse_single_node. intros (args & Hargs%try_map_ok & Hk)%try_bind_ok.
  apply try_bind_ok in Hk as (la & _ & Hk). apply run_bind_ok in Hk as (f & Hf & Hk).
  apply try_bind_ok in Hk as (gs & _ & Hk). apply try_bind_ok in Hk as (lp & _ & Hk).
  apply try_bind_ok in Hk as ([] & [= Hl] & Hk). apply try_bind_ok in Hk as (cd & _ & Hk).
  by apply try_bind_ok in Hk as (uw & _ & [= <-]).
Qed.

Lemma parse_single_node_reads names nj node p : parse_single_node objs ids workers names nj = Ret (ROk node) →
  reads node p → ∃ name, names !! name = Some p.
Proof.
  intros (_ & _ & Hargs & _)%parse_single_node_ok (a & Ha & Hr)%arg_pred_ids_elem.
  apply reads_pred_some in Hr as (q & Hq & <-). apply list_elem_of_lookup in Ha as (i & Hi).
  destruct (Forall2_lookup_r _ _ _ _ _ Hargs Hi) as (aj & _ & Haj).
  destruct (parse_arg_pred _ _ _ _ Haj Hq) as (pj & _ & Hn & _). by exists (pj_name pj).
Qed.

(** ** The loop over the nodes *)

(** The state after the nodes [js] of the file, [pre] being what the network block added. *)
Record gen_ok (pre : list Node) (js : list NodeJson) (s : GenState) : Prop := {
  go_wf : graph_wf (gs_graph s);
  go_counter : gs_counter s = as_id (length (g_nodes (gs_graph s)));
  go_names : gs_names s = names_of (g_nodes (gs_graph s));
  go_length : length (g_nodes (gs_graph s)) = length pre + length js;
  go_bound : (Z.of_nat (length (g_nodes (gs_graph s))) ≤ 65536)%Z;
  go_pre : take (length pre) (g_nodes (gs_graph s)) = pre;
  go_nodes : ∀ k nj, js !! k = Some nj → ∃ node,
    parse_single_node objs ids workers (names_of (take (length pre + k) (g_nodes (gs_graph s)))) nj = Ret (ROk node)
    ∧ g_nodes (gs_graph s) !! (length pre + k) = Some (with_id (length pre + k) node);
}.

Lemma as_id_lt n : (Z.of_nat (as_id n) < 65536)%Z.
Proof. unfold as_id. pose proof (Z.mod_pos_bound (Z.of_nat n) 65536 ltac:(lia)). lia. Qed.

(** Adding a node succeeds exactly when its number has not wrapped around. *)
Lemma add_named_ok s node s' : graph_wf (gs_graph s) → add_named s node = Ret s' →
  gs_counter s = length (g_nodes (gs_graph s))
  ∧ graph_wf (gs_graph s') ∧ g_nodes (gs_graph s') = g_nodes (gs_graph s) ++ [with_id (gs_counter s) node]
  ∧ gs_names s' = <[n_name node := gs_counter s]> (gs_names s) ∧ gs_counter s' = as_id (gs_counter s + 1).
Proof.
  intros Hwf (g & Hg & [= <-])%run_bind_Ret. cbn [gs_graph gs_names gs_counter].
  assert (Hid : gs_counter s = length (g_nodes (gs_graph s))).
  { unfold add_node in Hg. cbn [with_id n_id] in Hg.
    destruct (gs_counter s =? length (g_nodes (gs_graph s))) eqn:He; [by apply Nat.eqb_eq|done]. }
  destruct (add_node_wf_lemma (gs_graph s) (with_id (gs_counter s) node) Hwf Hid) as (g' & Hg' & Hwf' & Hn).
  rewrite Hg' in Hg. injection Hg as ->. done.
Qed.

Lemma gen_node_ok pre js s nj s' : gen_ok pre js s → gen_node objs ids workers s nj = Ret (ROk s') → gen_ok pre (js ++ [nj]) s'.
Proof.
  intros [Hwf Hc Hn Hlen Hbound Hpre Hnodes] (node & Hp & Ha%no_error_ok)%try_bind_ok.
  destruct (add_named_ok s node s' Hwf Ha) as (Hid & Hwf' & Hn' & Hnames & Hc'). rewrite Hid in *.
  assert (Hdone : ∀ k, length pre + k ≤ length (g_nodes (gs_graph s)) →
            take (length pre + k) (g_nodes (gs_graph s')) = take (length pre + k) (g_nodes (gs_graph s))).
  { intros k Hk. rewrite Hn'. by rewrite take_app_le. }
  constructor; try done.
  - rewrite Hc', Hn', length_app. done.
  - rewrite Hnames, Hn', names_of_snoc, Hn. done.
  - rewrite Hn', !length_app. cbn. lia.
  - rewrite Hn', length_app. cbn. pose proof (as_id_lt (length (g_nodes (gs_graph s)))). lia.
  - rewrite Hn'. rewrite take_app_le by lia. done.
  - intros k nj' [Hk|[-> ->]]%snoc_lookup.
    + destruct (Hnodes k nj' Hk) as (nd & Hnd1 & Hnd2). apply lookup_lt_Some in Hk. exists nd.
      rewrite Hdone by lia. split; [done|]. rewrite Hn'. by apply lookup_app_l_Some.
    + exists node. rewrite Hdone by lia. rewrite <- Hlen, firstn_all, <- Hn. split; [done|].
      rewrite Hn'. by apply list_lookup_middle.
Qed.

Lemma gen_nodes_ok pre nodes : ∀ js s s', gen_ok pre js s → gen_nodes objs ids workers s nodes = Ret (ROk s') →
  gen_ok pre (js ++ nodes) s'.
Proof.
  induction nodes as [|nj nodes IH]; intros js s s' Hok; cbn [gen_nodes].
  - intros [= <-]. by rewrite app_nil_r.
  - intros (s1 & H1 & H2)%try_bind_ok. apply (gen_node_ok _ _ _ _ _ Hok) in H1.
    apply (IH (js ++ [nj])) in H2; [|done]. by rewrite <- (assoc_L (++)) in H2.
Qed.

Lemma set_network_config_wf g nc : graph_wf g → graph_wf (set_network_config g nc).
Proof. intros []. by constructor. Qed.

(** The node of the packets comes first when there is a network block. *)
Definition network_prefix (network : bool) (nc : option GraphNetworkConfig) : list Node :=
  match nc with Some nc => if network then [network_node (net_frame_packets nc)] else [] | None => [] end.

Lemma gen_start_ok network ncj s : gen_start objs ids workers network ncj = Ret (ROk s) →
  gen_ok (network_prefix network (g_network_config (gs_graph s))) [] s ∧ is_some (g_network_config (gs_graph s)) = is_some ncj.
Proof.
  destruct ncj as [ncj|]; cbn [gen_start].
  2:{ intros [= <-]. split; [|done]. constructor; cbn; try done. apply Graph_new_wf. }
  intros (nc & _ & Hs)%try_bind_ok.
  assert (Hwf : graph_wf (set_network_config Graph_new nc)) by (by apply set_network_config_wf, Graph_new_wf).
  destruct network.
  - apply no_error_ok in Hs. assert (Hs2 := Hs). apply add_named_ok in Hs as (_ & Hwf' & Hn & Hnames & Hc); [|done].
    assert (Hnet : g_network_config (gs_graph s) = Some nc).
    { apply run_bind_Ret in Hs2 as (g & Hg & [= <-]). unfold add_node in Hg. cbn in Hg. by injection Hg as <-. }
    rewrite Hnet. split; [|done]. cbn in Hn, Hnames, Hc. cbn [network_prefix].
    constructor; rewrite ?Hn; try done.
  - injection Hs as <-. split; [|done]. constructor; cbn; done.
Qed.

(** ** Post-nodes *)

Definition post_of (g : Graph) : list Node := default [] (g_post_nodes g).

Lemma add_post_node_ok g node g' : add_post_node g node = Ret g' →
  n_id node = length (post_of g) ∧ post_of g' = post_of g ++ [node] ∧ g_nodes g' = g_nodes g
  ∧ g_network_config g' = g_network_config g ∧ (graph_wf g → graph_wf g').
Proof.
  unfold add_post_node, post_of. destruct (g_post_nodes g) as [post|]; cbn [default].
  - destruct (n_id node =? length post) eqn:He; [|done]. apply Nat.eqb_eq in He. intros [= <-].
    do 4 (split; [done|]). by intros [].
  - destruct (n_id node =? 0) eqn:He; [|done]. apply Nat.eqb_eq in He. intros [= <-].
    do 4 (split; [done|]). by intros [].
Qed.

Lemma add_post_nodes_ok post : ∀ g g', foldM add_post_node g post = Ret g' →
  post_of g' = post_of g ++ post ∧ g_nodes g' = g_nodes g ∧ g_network_config g' = g_network_config g
  ∧ (graph_wf g → graph_wf g').
Proof.
  induction post as [|node post IH]; intros g g'; cbn [foldM]; [intros [= <-]; by rewrite app_nil_r|].
  intros (g1 & (_ & Hp & Hn & Hc & Hwf)%add_post_node_ok & (Hp' & Hn' & Hc' & Hwf')%IH)%run_bind_Ret.
  rewrite Hp', Hp, <- (assoc_L (++)), Hn', Hn, Hc', Hc. do 3 (split; [done|]). auto.
Qed.

(** ** The whole file *)

(** The nodes [ns] are those of the file, read one after the other. *)
Definition nodes_of_file (pre ns : list Node) (js : list NodeJson) : Prop :=
  length ns = length pre + length js ∧ (Z.of_nat (length ns) ≤ 65536)%Z ∧ take (length pre) ns = pre
  ∧ ∀ k nj, js !! k = Some nj → ∃ node,
      parse_single_node objs ids workers (names_of (take (length pre + k) ns)) nj = Ret (ROk node)
      ∧ ns !! (length pre + k) = Some (with_id (length pre + k) node).

Lemma network_prefix_short network nc : length (network_prefix network nc) ≤ 1.
Proof. destruct nc, network; cbn; lia. Qed.

Lemma numbered_take nodes k : numbered nodes → numbered (take k nodes).
Proof. intros Hn i node [Hi _]%lookup_take_Some. by apply Hn. Qed.

(** A node of the file reads nodes before it. *)
Lemma nodes_of_file_backward network nc ns js : nodes_of_file (network_prefix network nc) ns js → numbered ns →
  ∀ s node p, ns !! s = Some node → reads node p → p < s.
Proof.
  intros (Hlen & Hbound & Hpre & Hk) Hnum s node p Hs Hr. set (pre := network_prefix network nc) in *.
  destruct (decide (s < length pre)) as [Hlt|Hge].
  - assert (Ht : take (length pre) ns !! s = Some node) by (by apply lookup_take_Some). rewrite Hpre in Ht. clear Hs. rename Ht into Hs.
    unfold pre, network_prefix in Hs. destruct nc as [nc|], network; try done.
    apply list_lookup_singleton_Some in Hs as [_ <-]. by apply not_elem_of_nil in Hr.
  - destruct (lookup_lt_is_Some_2 js (s - length pre)) as [nj Hnj]; [apply lookup_lt_Some in Hs; lia|].
    destruct (Hk _ _ Hnj) as (nd & Hp & Hnd). replace (length pre + (s - length pre)) with s in * by lia.
    rewrite Hs in Hnd. injection Hnd as ->.
    destruct (parse_single_node_reads _ _ _ p Hp Hr) as (name & Hname).
    apply names_of_spec in Hname as (nd' & Hl%lookup_lt_Some & _); [|by apply numbered_take].
    rewrite length_take in Hl. lia.
Qed.

(** A property of the nodes the parser makes holds of all nodes. *)
Lemma nodes_of_file_forall (P : Node → Prop) network nc ns js :
  nodes_of_file (network_prefix network nc) ns js → numbered ns → (∀ f, P (network_node f)) →
  (∀ names nj node id, (∀ name id, names !! name = Some id → (Z.of_nat id < 2 ^ 64)%Z) →
     parse_single_node objs ids workers names nj = Ret (ROk node) → P (with_id id node)) →
  ∀ s node, ns !! s = Some node → P node.
Proof.
  intros (Hlen & Hbound & Hpre & Hk) Hnum Hnet Hnode s node Hs. set (pre := network_prefix network nc) in *.
  destruct (decide (s < length pre)) as [Hlt|Hge].
  - assert (Ht : take (length pre) ns !! s = Some node) by (by apply lookup_take_Some). rewrite Hpre in Ht.
    unfold pre, network_prefix in Ht. destruct nc as [nc|], network; try done.
    apply list_lookup_singleton_Some in Ht as [_ <-]. apply Hnet.
  - destruct (lookup_lt_is_Some_2 js (s - length pre)) as [nj Hnj]; [apply lookup_lt_Some in Hs; lia|].
    destruct (Hk _ _ Hnj) as (nd & Hp & Hnd). replace (length pre + (s - length pre)) with s in * by lia.
    rewrite Hs in Hnd. injection Hnd as ->. eapply Hnode; [|exact Hp]. intros name id Hid.
    apply names_of_spec in Hid as (nd' & Hl%lookup_lt_Some & _); [|exact (numbered_take _ _ Hnum)].
    rewrite length_take in Hl. lia.
Qed.
End spec.

Section file.
Context `{JsonComplex} `{FuncReg}.

Lemma from_graph_file_ok network gf workers spec : from_graph_file network gf workers = Ret (ROk spec) →
  ∃ ids, let g := spec_graph spec in let objs := spec_init_objects spec in
    init_objects workers (gf_initializations gf) = Ret (ROk (objs, ids))
    ∧ graph_wf g
    ∧ is_some (g_network_config g) = is_some (gf_network_config gf)
    ∧ nodes_of_file objs ids workers (network_prefix network (g_network_config g)) (g_nodes g) (gf_nodes gf)
    ∧ Forall2 (λ '(i, nj) node, ∃ node', parse_single_node objs ids workers (names_of (g_nodes g)) nj = Ret (ROk node')
                 ∧ node = with_id (as_id i) node')
        (imap pair (default [] (gf_post_nodes gf))) (post_of g).
Proof.
  intros ([objs ids] & Hinit & (s0 & Hs0 & (s & Hs & (post & Hpost & Hg)%try_bind_ok)%try_bind_ok)%try_bind_ok)%try_bind_ok.
  apply run_bind_ok in Hg as (g & Hg & (w & _ & [= <-])%run_bind_ok). exists ids. cbn [spec_graph spec_init_objects].
  destruct (gen_start_ok _ _ _ _ _ _ Hs0) as [Hok Hnet].
  assert (Hnc : g_network_config (gs_graph s) = g_network_config (gs_graph s0) ∧ post_of (gs_graph s) = post_of (gs_graph s0)).
  { clear -Hs. revert s0 s Hs. induction (gf_nodes gf) as [|nj nodes IH]; intros s0 s; cbn [gen_nodes]; [by intros [= ->]|].
    intros (s1 & (node & _ & Ha%no_error_ok)%try_bind_ok & Hs)%try_bind_ok. destruct (IH _ _ Hs) as [-> ->].
    apply run_bind_Ret in Ha as (g & Hg & [= <-]). unfold add_node in Hg. case_match; [done|]. by injection Hg as <-. }
  destruct Hnc as [Hnc Hpo]. rewrite <- Hnc in Hok, Hnet.
  apply (gen_nodes_ok _ _ _ _ _ [] _ _ Hok) in Hs as [Hwf _ Hnames Hlen Hbound Hpre Hnodes].
  destruct (add_post_nodes_ok _ _ _ Hg) as (Hp & Hn & Hc & Hw).
  split; [done|]. split; [by apply Hw|]. rewrite Hc, Hn. split; [done|]. split; [done|].
  rewrite Hp, Hpo.
  assert (post_of (gs_graph s0) = []) as ->.
  { clear -Hs0. unfold gen_start in Hs0. destruct (gf_network_config gf) as [ncj|]; [|by injection Hs0 as <-].
    apply try_bind_ok in Hs0 as (nc & _ & Hs). destruct network; [|by injection Hs as <-].
    apply no_error_ok, run_bind_Ret in Hs as (g & Hg & [= <-]). unfold add_node in Hg. cbn in Hg. by injection Hg as <-. }
  cbn [app]. apply try_map_ok in Hpost. rewrite Hnames in Hpost. eapply Forall2_impl; [exact Hpost|].
  intros [i nj] node (node' & H1 & [= <-])%try_bind_ok. by exists node'.
Qed.

(** What the check of the layout lets through. *)
Lemma layout_checked name factor pos layout : check_layout name factor pos layout = ROk tt →
  ∀ i a pred, layout !! i = Some a → S i < length layout → is_result (a_type a) = true → a_predecessor a = Some pred → p_group_by pred = None →
  length (p_indexes pred) ≤ 1 ∨ length (p_indexes pred) = factor.
Proof.
  revert pos. induction layout as [|a0 rest IH]; intros pos Hc i a pred Hi Hlt Hres Hpred Hg; [done|]. cbn [check_layout] in Hc.
  destruct i as [|i].
  - injection Hi as ->. unfold multi_value in Hc. rewrite Hres, Hpred, Hg in Hc. cbn [negb is_some] in Hc.
    destruct (Nat.ltb_spec 1 (length (p_indexes pred))); [|by left]. cbn [andb] in Hc.
    destruct (Nat.eqb_spec (length (p_indexes pred)) factor); [by right|]. cbn [negb] in Hc. destruct rest; [cbn in Hlt; lia|done].
  - assert (Hrest : check_layout name factor (S pos) rest = ROk tt) by (destruct (multi_value factor a0), rest; done).
    apply (IH (S pos) Hrest i a pred Hi); [cbn in Hlt; lia|done..].
Qed.

(** C32. The graph of a file that parses is well formed and has no cycle: ids are positions,
    successor lists, roots and condition nodes mirror the arguments, every predecessor
    exists, comes before the node that reads it and is the node the argument names; and of the
    arguments of a node that are not start conditions, each result but the last that is not
    grouped lists at most one index, or as many as the node has instances. (Grouped arguments
    are exempt from this check.) *)
Theorem parsed_graph_wf network gf workers spec (Hparse : from_graph_file network gf workers = Ret (ROk spec)) :
  graph_wf (spec_graph spec) ∧ preds_exist (spec_graph spec)
  ∧ (∀ s node p, g_nodes (spec_graph spec) !! s = Some node → reads node p → p < s)
  ∧ (∀ s node i a pred, g_nodes (spec_graph spec) !! s = Some node →
       let layout := filter (λ a, is_condition a = false) (n_args node) in
       layout !! i = Some a → S i < length layout → is_result (a_type a) = true → a_predecessor a = Some pred → p_group_by pred = None →
       length (p_indexes pred) ≤ 1 ∨ length (p_indexes pred) = n_factor node)
  ∧ (∀ s node a, g_nodes (spec_graph spec) !! s = Some node → a ∈ n_args node → names_its_pred a)
  ∧ (∀ i node, post_of (spec_graph spec) !! i = Some node → n_id node = as_id i).
Proof.
  destruct (from_graph_file_ok _ _ _ _ Hparse) as (ids & _ & Hwf & _ & Hns & Hpost).
  assert (Hback := nodes_of_file_backward _ _ _ _ _ _ _ Hns (gw_ids _ Hwf)).
  split; [done|]. split; [|split; [done|split; [|split]]].
  - intros node p (s & Hs)%list_elem_of_lookup Hr. pose proof (lookup_lt_Some _ _ _ Hs).
    pose proof (Hback _ _ _ Hs Hr). lia.
  - intros s node i a pred Hs layout. apply (layout_checked (n_name node) (n_factor node) 0). revert s node Hs layout.
    refine (nodes_of_file_forall _ _ _ (λ node, validate_res_arg_layout (n_name node) (n_args node) (n_factor node) = ROk tt) _ _ _ _ Hns (gw_ids _ Hwf) _ _);
      [done|]. by intros names nj node id _ (_ & _ & _ & Hv & _)%parse_single_node_ok.
  - intros s node a Hs. revert s node Hs a.
    refine (nodes_of_file_forall _ _ _ (λ node, ∀ a, a ∈ n_args node → names_its_pred a) _ _ _ _ Hns (gw_ids _ Hwf) _ _).
    + by intros f a ?%not_elem_of_nil.
    + intros names nj node id Hn (_ & _ & Hargs & _)%parse_single_node_ok a (i & Hi)%list_elem_of_lookup.
      destruct (Forall2_lookup_r _ _ _ _ _ Hargs Hi) as (aj & _ & Haj). by eapply parse_arg_names.
  - intros i node Hi. destruct (Forall2_lookup_r _ _ _ _ _ Hpost Hi) as ([j nj] & Hj & node' & _ & ->).
    rewrite list_lookup_imap in Hj. by apply fmap_Some in Hj as (x & _ & [= -> _]).
Qed.

(** The nodes of the graph are those of the file in its order, after the node of the
    packets where there is a network block: each is what its entry says when its names
    stand for the last nodes before it that bear them. *)
Theorem parsed_nodes_in_order network gf workers spec (Hparse : from_graph_file network gf workers = Ret (ROk spec)) :
  let ns := g_nodes (spec_graph spec) in
  let pre := network_prefix network (g_network_config (spec_graph spec)) in
  length ns = length pre + length (gf_nodes gf)
  ∧ take (length pre) ns = pre
  ∧ ∃ ids, init_objects workers (gf_initializations gf) = Ret (ROk (spec_init_objects spec, ids))
    ∧ ∀ k nj, gf_nodes gf !! k = Some nj → ∃ node names,
        ns !! (length pre + k) = Some node ∧ n_id node = length pre + k ∧ n_name node = nj_name nj
        ∧ Forall2 (λ aj a, parse_arg (spec_init_objects spec) ids workers names aj = Ret (ROk a)) (nj_args nj) (n_args node)
        ∧ factor_or_one (nj_factor nj) (spec_init_objects spec) ids workers = Ret (n_factor node)
        ∧ ∀ name id, names !! name = Some id →
            id < length pre + k ∧ (∃ nd, ns !! id = Some nd ∧ n_name nd = name)
            ∧ ∀ j nd, j < length pre + k → ns !! j = Some nd → n_name nd = name → j ≤ id.
Proof.
  intros ns pre. destruct (from_graph_file_ok _ _ _ _ Hparse) as (ids & Hinit & Hwf & _ & (Hlen & _ & Hpre & Hk) & _).
  split; [done|]. split; [done|]. exists ids. split; [done|]. intros k nj Hnj.
  destruct (Hk k nj Hnj) as (node & Hp & Hnode). fold ns pre in Hp, Hnode.
  destruct (parse_single_node_ok _ _ _ _ _ _ Hp) as (Hname & _ & Hargs & _ & Hf).
  exists (with_id (length pre + k) node), (names_of (take (length pre + k) ns)). repeat (split; [done|]).
  intros name id Hid. apply names_of_spec in Hid as (nd & Hnd & Hnn & Hlast); [|exact (numbered_take _ _ (gw_ids _ Hwf))].
  apply lookup_take_Some in Hnd as [Hnd Hlt]. split; [done|]. split; [by exists nd|].
  intros j nd' Hj Hnd' Hn'. eapply Hlast; [|exact Hn']. by apply lookup_take_Some.
Qed.
End file.

(** ** Index expressions *)

Lemma contains_char_app c s t : contains_char c (s +:+ t) = contains_char c s || contains_char c t.
Proof.
  induction s as [|d s IH]; [done|]. change (String d s +:+ t) with (String d (s +:+ t)). cbn [contains_char].
  by rewrite IH, orb_assoc.
Qed.

Lemma split_whole c s : contains_char c s = false → WorkerRange.split c s = [s].
Proof.
  induction s as [|d s IH]; [done|]. cbn [contains_char WorkerRange.split]. intros [Hd Hs]%orb_false_iff.
  by rewrite Hd, IH.
Qed.

Lemma split_first c s t : contains_char c s = false → WorkerRange.split c (s +:+ String c t) = s :: WorkerRange.split c t.
Proof.
  induction s as [|d s IH].
  - intros _. change ("" +:+ String c t) with (String c t). cbn [WorkerRange.split]. by rewrite Ascii.eqb_refl.
  - cbn [contains_char]. intros [Hd Hs]%orb_false_iff. change (String d s +:+ String c t) with (String d (s +:+ String c t)).
    cbn [WorkerRange.split]. by rewrite Hd, IH.
Qed.

(** A character that is no digit is in no printed number. *)
Lemma digits_no_char c s : is_digit_char c = false → all_digits s = true → contains_char c s = false.
Proof.
  intros Hc. induction s as [|d s IH]; [done|]. cbn [all_digits contains_char]. intros [Hd Hs]%andb_true_iff.
  rewrite (IH Hs), orb_false_r. destruct (Ascii.eqb c d) eqn:He; [|done]. apply Ascii.eqb_eq in He as ->. congruence.
Qed.

Lemma pretty_neg p : pretty (Zneg p) = String "-" (pretty (Npos p)).
Proof. done. Qed.

Lemma pretty_no_comma (z : Z) : contains_char "," (pretty z) = false.
Proof.
  destruct z as [|p|p]; [done|by apply digits_no_char, (pretty_digits (Npos p))|].
  rewrite pretty_neg. cbn [contains_char]. by apply digits_no_char, (pretty_digits (Npos p)).
Qed.

Lemma trim_pretty (z : Z) : trim (pretty z) = pretty z.
Proof.
  destruct z as [|p|p]; [done|by apply trim_digits, (pretty_digits (Npos p))|].
  rewrite pretty_neg. unfold trim. cbn [trim_start]. change (is_space "-") with false. cbv iota. cbn [trim_end].
  assert (Ht : trim_end (pretty (Npos p)) = pretty (Npos p)).
  { pose proof (trim_digits _ (pretty_digits (Npos p))) as Ht. unfold trim in Ht.
    pose proof (pretty_digits (Npos p)) as Hd. pose proof (pretty_nonempty (Npos p)).
    destruct (pretty (Npos p)) as [|c s]; [done|]. cbn [all_digits] in Hd. apply andb_true_iff in Hd as [Hc _].
    cbn [trim_start] in Ht. by destruct (digit_char_facts c Hc) as [Hsp _]; rewrite Hsp in Ht. }
  rewrite Ht. pose proof (pretty_nonempty (Npos p)). by destruct (pretty (Npos p)).
Qed.

Definition isize (z : Z) : Prop := (- 2 ^ 63 ≤ z < 2 ^ 63)%Z.

Lemma parse_isize_pretty z : isize z → parse_isize (pretty z) = Some z.
Proof. intros [? ?]. unfold parse_isize, parse_signed. apply parse_int_pretty; lia. Qed.

(** Offsets separated by commas. *)
Fixpoint print_list (z : Z) (l : list Z) : string :=
  match l with
  | [] => pretty z
  | z' :: l => pretty z +:+ String "," (print_list z' l)
  end.

Lemma split_print_list l : ∀ z, WorkerRange.split "," (print_list z l) = pretty <$> (z :: l).
Proof.
  induction l as [|z' l IH]; intros z; cbn [print_list].
  - apply split_whole, pretty_no_comma.
  - rewrite split_first by apply pretty_no_comma. by rewrite IH.
Qed.

Section indexes.
Variables (objs : Objects) (ids : ObjIds) (name : string).

Lemma listed_indexes l : Forall isize l → try_map (listed_index name) (pretty <$> l) = Ret (ROk l).
Proof.
  induction 1 as [|z l Hz _ IH]; [done|]. cbn [fmap list_fmap try_map]. unfold listed_index at 1.
  rewrite trim_pretty, parse_isize_pretty by done. cbn [ok_or try_ret try_bind]. by rewrite IH.
Qed.

(** Two offsets or more, printed with commas between them, are read back, negative ones
    included. *)
Theorem offset_list_roundtrip z z' l (Hsize : Forall isize (z :: z' :: l)) :
  parse_indexes objs ids (print_list z (z' :: l)) name = Ret (ROk (z :: z' :: l)).
Proof.
  unfold parse_indexes. rewrite split_print_list, listed_indexes by done.
  assert (contains_char "," (print_list z (z' :: l)) = true) as ->; [|done].
  cbn [print_list]. rewrite contains_char_app. cbn [contains_char]. by rewrite orb_true_r.
Qed.

(** One offset alone: the documentation gives [-1] for the previous instance, but the
    sign is taken for a range, so that no negative offset can be written; others are read
    as they are printed. *)
Theorem single_negative_offset_rejected z (Hsize : isize z) (Hempty : ids !! ""%string = None) :
  parse_indexes objs ids (pretty z) name
  = if decide (z < 0)%Z then Ret (RErr (InvalidRangeStart "" name)) else Ret (ROk [z]).
Proof.
  unfold parse_indexes. rewrite pretty_no_comma. destruct z as [|p|p].
  - done.
  - rewrite digits_no_char by (done || apply (pretty_digits (Npos p))). rewrite decide_False by lia.
    unfold single_index. by rewrite parse_isize_pretty.
  - rewrite decide_True by lia. rewrite pretty_neg. cbn [contains_char Ascii.eqb Bool.eqb orb].
    change (String "-" (pretty (Npos p))) with ("" +:+ String "-" (pretty (Npos p))).
    rewrite split_first by done. cbn [vec_get lookup list_lookup run_bind]. unfold range_start. cbn [parse_isize parse_signed parse_int].
    unfold index_object. by rewrite Hempty.
Qed.

(** A range of offsets: a literal end is included, the number of an object is not, and
    the start may be either. *)
Theorem range_end_inclusive_or_exclusive (a b : nat) (ref : string) (l : list CmTypes) id v n
    (Hsize : isize (Z.of_nat b + 1)) (Ha : isize (Z.of_nat a))
    (Hchars : contains_char "," ref = false ∧ contains_char "-" ref = false)
    (Hlit : parse_isize ref = None) (Hid : ids !! ref = Some id) (Hobj : objs !! id = Some (v :: l))
    (Hn : valid_number_to_usize v = Some n) (Hsmall : isize (Z.of_nat n)) :
  parse_indexes objs ids (pretty a +:+ String "-" (pretty b)) name = Ret (ROk (z_range (Z.of_nat a) (Z.of_nat b + 1)))
  ∧ parse_indexes objs ids (pretty a +:+ String "-" ref) name = Ret (ROk (z_range (Z.of_nat a) (Z.of_nat n))).
Proof.
  assert (Hd : ∀ k : nat, contains_char "," (pretty k) = false ∧ contains_char "-" (pretty k) = false).
  { intros k. pose proof (pretty_digits (N.of_nat k)) as Hk. change (pretty (N.of_nat k)) with (pretty k) in Hk.
    split; by apply digits_no_char. }
  assert (Hp : ∀ k : nat, isize (Z.of_nat k) → parse_isize (pretty k) = Some (Z.of_nat k)).
  { intros k [? ?]. change (pretty k) with (pretty (N.of_nat k)). unfold parse_isize, parse_signed.
    rewrite parse_int_nat by lia. f_equal. lia. }
  assert (Hi64 : as_i64 (Z.of_nat b + 1) = (Z.of_nat b + 1)%Z ∧ as_i64 (Z.of_nat n) = Z.of_nat n).
  { unfold isize in *. split; apply as_i64_small; lia. }
  destruct Hi64 as [Hb64 Hn64], (Hd a) as [Hac Had], (Hd b) as [Hbc Hbd], Hchars as [Hrc Hrd].
  unfold parse_indexes. rewrite !contains_char_app. cbn [contains_char Ascii.eqb Bool.eqb].
  rewrite Hac, Had, Hbc, Hrc. cbn [orb]. rewrite !split_first, !split_whole by done.
  cbn [vec_get lookup list_lookup run_bind]. unfold range_start, range_end. rewrite !Hp by (unfold isize in *; lia).
  rewrite Hlit. unfold index_object, object_number. rewrite Hid. cbn [ok_or try_ret try_bind run_bind].
  rewrite (vec_get_lookup _ _ _ Hobj). cbn [run_bind vec_get lookup list_lookup no_error run_map try_bind].
  rewrite Hn. cbn [ok_or try_ret try_bind]. by rewrite Hb64, Hn64.
Qed.
End indexes.

(** ** A file: numbers, their squares, and the sum of the squares *)

#[local] Instance no_json : JsonComplex := {| json_c32 _ := None; json_c64 _ := None |}.

Definition cm_sum (args : list CmTypes) : CmTypes := CmUsize (sum_list (omap valid_number_to_usize args)).
Definition cm_square (args : list CmTypes) : CmTypes :=
  match omap valid_number_to_usize args with [n] => CmUsize (n * n) | _ => CmNone end.

#[local] Instance file_funcs : FuncReg := {|
  get_func name := if String.eqb name "sum" then Some cm_sum else if String.eqb name "square" then Some cm_square else None;
  get_bulk_func _ := None; get_func_argspec _ := None; get_func_ret_variant _ := None; get_unchecked_func _ := None |}.

Definition value_arg (ty value : string) : ArgJson := mkArgJson ty (Some value) None None.
Definition res_arg (name indexes : string) : ArgJson := mkArgJson "$res" None None (Some (mkPredJson name indexes None)).
Definition plain_node (name func : string) (factor : option Factor) (args : list ArgJson) : NodeJson :=
  mkNodeJson name factor func None None args None None None None.

Definition squares_file : GraphFile := mkGraphFile
  [mkInitJson "n" None [mkArgInit "usize" "4"] None]
  [plain_node "number" "sum" (Some (FRef "n")) [value_arg "$ref" "$index"];
   plain_node "square" "square" (Some (FRef "n")) [res_arg "number" "0"];
   plain_node "total" "sum" None [value_arg "usize" "7"; res_arg "square" "0-n"]]
  (Some [plain_node "report" "sum" None [res_arg "total" "0"]]) None.

Definition squares_node (id factor : nat) (name func : string) (args : list Arg) : Node :=
  mkNode name args id None factor None func None None Normal None.

Definition squares_nodes : list Node := [
  squares_node 0 4 "number" "sum" [mkArg (CmRef 0) None None];
  squares_node 1 4 "square" "square" [mkArg (CmRes 0) None (Some (mkPred 0 [0%Z] None))];
  squares_node 2 1 "total" "sum" [mkArg (CmUsize 7) None None; mkArg (CmRes 1) None (Some (mkPred 1 [0; 1; 2; 3]%Z None))]].

Definition squares_spec : GraphSpec := mkSpec
  (mkGraph squares_nodes [0] [[1]; [2]] [] (Some [squares_node 0 1 "report" "sum" [mkArg (CmRes 2) None (Some (mkPred 2 [0%Z] None))]]) None)
  [[CmUsize 0]; [CmUsize 1]; [CmUsize 4]].

Lemma squares_parsed : from_graph_file false squares_file 3 = Ret (ROk squares_spec).
Proof. by vm_compute. Qed.

Lemma parsed_graph_wf_witness :
  from_graph_file false squares_file 3 = Ret (ROk squares_spec) ∧ graph_wf (spec_graph squares_spec)
  ∧ preds_exist (spec_graph squares_spec) ∧ (∀ s node p, squares_nodes !! s = Some node → reads node p → p < s).
Proof.
  split; [exact squares_parsed|].
  destruct (parsed_graph_wf false squares_file 3 squares_spec squares_parsed) as (H1 & H2 & H3 & _).
  split; [exact H1|]. split; [exact H2|exact H3].
Defined.

Lemma parsed_nodes_in_order_witness :
  length squares_nodes = 3 ∧ ∃ ids, init_objects 3 (gf_initializations squares_file) = Ret (ROk (spec_init_objects squares_spec, ids)).
Proof.
  destruct (parsed_nodes_in_order false squares_file 3 squares_spec squares_parsed) as (H1 & _ & ids & H2 & _).
  split; [exact H1|]. by exists ids.
Defined.

Lemma offset_list_roundtrip_witness : parse_indexes [] ∅ "-1,0,12" "p" = Ret (ROk [-1; 0; 12]%Z).
Proof. apply (offset_list_roundtrip [] ∅ "p" (-1) 0 [12%Z]). repeat constructor; unfold isize; lia. Defined.

Lemma single_negative_offset_rejected_witness : parse_indexes [] ∅ "-1" "p" = Ret (RErr (InvalidRangeStart "" "p")).
Proof. exact (single_negative_offset_rejected [] ∅ "p" (-1) ltac:(unfold isize; lia) (lookup_empty "")). Defined.

Lemma range_end_inclusive_or_exclusive_witness :
  parse_indexes [[CmU8 3]] {["n"%string := 0]} "0-3" "p" = Ret (ROk [0; 1; 2; 3]%Z)
  ∧ parse_indexes [[CmU8 3]] {["n"%string := 0]} "0-n" "p" = Ret (ROk [0; 1; 2]%Z).
Proof.
  apply (range_end_inclusive_or_exclusive [[CmU8 3]] {["n"%string := 0]} "p" 0 3 "n" [] 0 (CmU8 3) 3);
    first [done | unfold isize; lia | by vm_compute].
Defined.
