(* ===== verification/CriticalPath.v ===== *)
(** The critical path of the performance report is the longest path of the graph.

    [compute_critical_path_report] sorts the nodes topologically and relaxes their edges
    in that order. It never panics and both its loops end, also for a graph with cycles;
    the nodes it returns are a path whose time, added up in machine arithmetic from the
    first node on, is the latency it reports; and without cycles no path takes longer.

    The graph that a report is written for ([write_json_report] of
    [tomii-core/src/runtime/reporting.rs]) has the names of the nodes with those of their
    successors. The graph of a file that parses has no cycle in them, also when several
    nodes bear the same name. *)
From S2P Require Import Prelude Types GraphStruct Graph ObjGen GraphGen GraphGenSpec Float Timing Report.
From Stdlib Require Import SpecFloat.
From stdpp Require Import strings gmap.

Section graph.
Context (adj : list (list nat)).
Let n := length adj.
Context (Hadj : Forall (Forall (λ v, v < n)) adj).

Definition succs (u : nat) : list nat := default [] (adj !! u).
Definition edge (u v : nat) : Prop := v ∈ succs u.

Lemma edge_lt u v : edge u v → u < n ∧ v < n.
Proof.
  unfold edge, succs. destruct (adj !! u) as [l|] eqn:E; cbn; [|by intros ?%not_elem_of_nil]. intros Hv. split; [by eapply lookup_lt_Some|].
  pose proof (Forall_lookup_1 _ _ _ _ Hadj E) as Hl. by eapply Forall_forall in Hl.
Qed.

Lemma succs_get u : u < n → vec_get adj u = Ret (succs u).
Proof. intros [l Hl]%lookup_lt_is_Some. unfold vec_get, succs. by rewrite Hl. Qed.

(** How often a node occurs in a list, and how many edges from nodes that are not yet done lead to it. *)
Definition occ (v : nat) (l : list nat) : nat := length (filter (λ x, x = v) l).
Definition open_edges (ready : list nat) (v : nat) : nat := nat_sum ((λ u, if decide (u ∈ ready) then 0 else occ v (succs u)) <$> range 0 n).

Lemma occ_cons v x l : occ v (x :: l) = (if decide (x = v) then 1 else 0) + occ v l.
Proof. unfold occ. rewrite filter_cons. by case_decide. Qed.
Lemma occ_app v l1 l2 : occ v (l1 ++ l2) = occ v l1 + occ v l2.
Proof. unfold occ. by rewrite filter_app, length_app. Qed.
Lemma occ_pos v l : 0 < occ v l ↔ v ∈ l.
Proof.
  induction l as [|x l IH]; [split; [cbn; lia|by intros ?%not_elem_of_nil]|]. rewrite occ_cons, elem_of_cons, <- IH. case_decide as E; [split; [by left|lia]|]. split; [by right; lia|]. intros [->|?]; [done|lia].
Qed.

Lemma nat_sum_range (f g : nat → nat) k m : (∀ i, i < m → f (k + i) = g (k + i)) → nat_sum (f <$> seq k m) = nat_sum (g <$> seq k m).
Proof.
  revert k. induction m as [|m IH]; intros k Hfg; [done|]. cbn. unfold nat_sum in *. cbn.
  rewrite (IH (S k)); [|intros i ?; rewrite Nat.add_succ_l, <- Nat.add_succ_r; apply Hfg; lia]. specialize (Hfg 0). rewrite Nat.add_0_r in Hfg. rewrite Hfg by lia. done.
Qed.

Lemma nat_sum_split (f : nat → nat) u k m : k ≤ u < k + m →
  nat_sum (f <$> seq k m) = f u + nat_sum ((λ i, if decide (i = u) then 0 else f i) <$> seq k m).
Proof.
  revert k. induction m as [|m IH]; intros k Hu; [lia|]. cbn. unfold nat_sum in *. cbn. destruct (decide (k = u)) as [->|Hne].
  - f_equal. cbn. f_equal. clear. assert (E : ∀ j, u < j → f <$> seq j m = (λ i, if decide (i = u) then 0 else f i) <$> seq j m); [|by apply E; lia].
    induction m as [|m IH]; intros j Hj; [done|]. cbn. rewrite decide_False by lia. f_equal. apply IH. lia.
  - rewrite (IH (S k)) by lia. lia.
Qed.

(** A node that becomes ready closes its edges. *)
Lemma open_edges_snoc ready u v : u < n → u ∉ ready → open_edges ready v = occ v (succs u) + open_edges (ready ++ [u]) v.
Proof.
  intros Hu Hr. unfold open_edges, range. rewrite (nat_sum_split _ u 0) by lia. rewrite decide_False by done. f_equal.
  apply nat_sum_range. intros i _. cbn [Nat.add]. destruct (decide (i = u)) as [->|Hne].
  - rewrite decide_True; [done|]. rewrite elem_of_app. right. left.
  - apply decide_ext. rewrite elem_of_app, list_elem_of_singleton. tauto.
Qed.

Lemma open_edges_zero ready v : open_edges ready v = 0 ↔ ∀ u, edge u v → u ∈ ready.
Proof.
  unfold open_edges. assert (E : ∀ l, nat_sum ((λ u, if decide (u ∈ ready) then 0 else occ v (succs u)) <$> l) = 0 ↔ ∀ u, u ∈ l → edge u v → u ∈ ready).
  { induction l as [|x l IH]; [split; [by intros _ ? ?%not_elem_of_nil|done]|]. cbn. unfold nat_sum in *. cbn. rewrite Nat.eq_add_0, IH. setoid_rewrite elem_of_cons.
    pose proof (occ_pos v (succs x)) as Hx. unfold edge in *. case_decide; split; intros Hl.
    - intros u [->|?] Hu; [done|]. by apply Hl.
    - split; [done|]. intros u ? ?. apply Hl; auto.
    - intros u [->|?] Hu; [apply Hx in Hu; lia|]. by apply Hl.
    - split; [|intros; apply Hl; auto]. destruct (occ v (succs x)) eqn:E; [done|]. exfalso. apply H, Hl; [auto|]. apply Hx. lia. }
  rewrite E. split; intros Hl u; [|auto]. intros Hu. apply Hl; [|done]. apply elem_of_range. apply edge_lt in Hu. unfold n in *. lia.
Qed.

(** ** The sort *)

Lemma degree_fold l d : length d = n → Forall (λ v, v < n) l →
  ∃ d', foldM (λ d j, let! x := vec_get d j in vec_set d j (S x)) d l = Ret d' ∧ length d' = n
  ∧ ∀ v x, d !! v = Some x → d' !! v = Some (x + occ v l).
Proof.
  revert d. induction l as [|j l IH]; intros d Hd Hl; [exists d; split; [done|]; split; [done|]; intros v x ->; cbn; by rewrite Nat.add_0_r|].
  apply Forall_cons in Hl as [Hj Hl]. cbn [foldM]. destruct (vec_get_lt d j) as (x & -> & Hx); [lia|]. cbn [run_bind]. rewrite vec_set_lt by lia. cbn [run_bind].
  destruct (IH (<[j := S x]> d)) as (d' & -> & Hd' & Hv); [by rewrite length_insert|done|]. exists d'. split; [done|]. split; [done|].
  intros v y Hy. rewrite occ_cons. case_decide as E.
  - subst v. rewrite Hx in Hy. injection Hy as <-. rewrite (Hv j (S x)); [f_equal; lia|]. apply list_lookup_insert_eq. by rewrite Hd.
  - rewrite (Hv v y); [done|]. by rewrite list_lookup_insert_ne.
Qed.

Lemma in_degrees_spec : ∃ d, in_degrees adj = Ret d ∧ length d = n ∧ ∀ v, v < n → d !! v = Some (open_edges [] v).
Proof.
  assert (Hgen : ∀ ls d, length d = n → Forall (Forall (λ v, v < n)) ls →
    ∃ d', foldM (λ d succs, foldM (λ d j, let! x := vec_get d j in vec_set d j (S x)) d succs) d ls = Ret d' ∧ length d' = n
    ∧ ∀ v x, d !! v = Some x → d' !! v = Some (x + nat_sum (occ v <$> ls))).
  { induction ls as [|l ls IH]; intros d Hd Hls; [exists d; split; [done|]; split; [done|]; intros v x ->; cbn; by rewrite Nat.add_0_r|].
    apply Forall_cons in Hls as [Hl Hls]. cbn [foldM]. destruct (degree_fold l d Hd Hl) as (d1 & -> & Hd1 & H1). cbn [run_bind].
    destruct (IH d1 Hd1 Hls) as (d' & -> & Hd' & H2). exists d'. split; [done|]. split; [done|]. intros v x Hx. rewrite (H2 v _ (H1 v x Hx)). cbn. f_equal. unfold nat_sum. cbn. lia. }
  destruct (Hgen adj (replicate n 0)) as (d & Hd & Hl & Hv); [apply length_replicate|done|]. exists d. split; [done|]. split; [done|].
  intros v Hv'. rewrite (Hv v 0) by by apply lookup_replicate_2. rewrite Nat.add_0_l. unfold open_edges. do 2 f_equal. apply list_eq. intros i.
  rewrite !list_lookup_fmap. unfold succs, range. destruct (adj !! i) as [l|] eqn:E.
  - pose proof (lookup_lt_Some _ _ _ E). rewrite lookup_seq_lt by (unfold n in *; lia). cbn. rewrite E. cbn. rewrite decide_False by apply not_elem_of_nil. done.
  - apply lookup_ge_None in E. by rewrite lookup_seq_ge by (unfold n in *; lia).
Qed.

Lemma release_edges l d q (base : nat → nat) : length d = n → Forall (λ v, v < n) l →
  (∀ v, v < n → d !! v = Some (base v + occ v l)) →
  ∃ d' new, foldM release_edge (d, q) l = Ret (d', q ++ new) ∧ length d' = n ∧ (∀ v, v < n → d' !! v = Some (base v))
  ∧ NoDup new ∧ ∀ v, v ∈ new ↔ v ∈ l ∧ base v = 0.
Proof.
  revert d q. induction l as [|j l IH]; intros d q Hd Hl Hb.
  { exists d, []. rewrite app_nil_r. split; [done|]. split; [done|]. split; [intros v Hv; rewrite (Hb v Hv); cbn; by rewrite Nat.add_0_r|].
    split; [constructor|]. intros v. split; [by intros ?%not_elem_of_nil|by intros [?%not_elem_of_nil _]]. }
  apply Forall_cons in Hl as [Hj Hl]. cbn [foldM]. unfold release_edge at 1. cbn [fst snd]. rewrite (vec_get_lookup _ _ _ (Hb j Hj)). cbn [run_bind].
  rewrite vec_set_lt by lia. cbn [run_bind]. rewrite occ_cons, decide_True by done. replace (base j + (1 + occ j l) - 1) with (base j + occ j l) by lia.
  set (q1 := if _ =? 0 then _ else _).
  destruct (IH (<[j := base j + occ j l]> d) q1) as (d' & new & -> & Hd' & Hv & Hnd & Hnew); [by rewrite length_insert|done| |].
  { intros v Hv. destruct (decide (v = j)) as [->|Hne]; [by rewrite list_lookup_insert_eq by lia|]. rewrite list_lookup_insert_ne by done.
    rewrite (Hb v Hv), occ_cons, decide_False by done. done. }
  subst q1. destruct (base j + occ j l =? 0) eqn:E.
  - apply Nat.eqb_eq in E. assert (Hjl : j ∉ l) by (intros Hjl%occ_pos; lia). exists d', (j :: new). rewrite <- app_assoc. split; [done|]. split; [done|]. split; [done|].
    split; [constructor; [|done]; by intros [? _]%Hnew|]. intros v. rewrite !elem_of_cons, Hnew. split; [intros [->|[? ?]]; [split; [by left|lia]|by split; [right|]]|].
    intros [[->|?] ?]; [by left|by right].
  - apply Nat.eqb_neq in E. exists d', new. split; [done|]. split; [done|]. split; [done|]. split; [done|]. intros v. rewrite Hnew, elem_of_cons.
    split; [by intros [? ?]; split; [right|]|]. intros [[->|?] ?]; [|done]. split; [apply occ_pos; lia|done].
Qed.

Record topo_inv (in_deg queue topo : list nat) : Prop := {
  ti_degree : length in_deg = n ∧ ∀ v, v < n → in_deg !! v = Some (open_edges topo v);
  ti_nodup : NoDup (topo ++ queue);
  ti_ready : ∀ v, v ∈ topo ++ queue ↔ v < n ∧ open_edges topo v = 0;
  ti_sorted : ∀ l1 v l2, topo = l1 ++ v :: l2 → ∀ u, edge u v → u ∈ l1;
}.

Lemma topo_step in_deg u queue topo : topo_inv in_deg (u :: queue) topo →
  ∃ in_deg' queue', (let! s := vec_get adj u in foldM release_edge (in_deg, queue) s) = Ret (in_deg', queue') ∧ topo_inv in_deg' queue' (topo ++ [u]).
Proof.
  intros [[Hl Hd] Hnd Hr Hs]. assert (Hu : u < n ∧ open_edges topo u = 0) by (apply Hr; rewrite elem_of_app; right; left). destruct Hu as [Hu Hu0].
  assert (Hut : u ∉ topo). { apply NoDup_app in Hnd as (_ & Hx & _). intros Hin. by apply (Hx u Hin); left. }
  rewrite succs_get by done. cbn [run_bind]. assert (Hlt : Forall (λ v, v < n) (succs u)). { apply Forall_forall. intros v Hv. by apply (edge_lt u). }
  destruct (release_edges (succs u) in_deg queue (open_edges (topo ++ [u]))) as (d' & new & E & Hl' & Hd' & Hnew & Hin); [done|done| |].
  { intros v Hv. rewrite (Hd v Hv), (open_edges_snoc topo u v Hu Hut). f_equal. lia. }
  exists d', (queue ++ new). split; [exact E|]. clear E.
  assert (Hmono : ∀ v, open_edges topo v = occ v (succs u) + open_edges (topo ++ [u]) v) by (intros; by apply open_edges_snoc).
  split; [done| | |].
  - rewrite <- app_assoc. cbn. rewrite cons_middle, !app_assoc, <- (app_assoc topo). cbn. apply NoDup_app. split; [done|]. split; [|done].
    intros v Hv [Ho H0]%Hin. apply Hr in Hv as [_ Hv0]. apply occ_pos in Ho. specialize (Hmono v). lia.
  - intros v. rewrite <- app_assoc. cbn. rewrite cons_middle, !app_assoc, <- (app_assoc topo). cbn. rewrite elem_of_app, Hr, Hin. specialize (Hmono v).
    pose proof (occ_pos v (succs u)) as Ho. split.
    + intros [[? ?]|[Hv ?]]; [split; [done|lia]|]. split; [|done]. by apply (edge_lt u).
    + intros [? ?]. destruct (decide (occ v (succs u) = 0)); [left; split; [done|lia]|right; split; [apply Ho; lia|done]].
  - intros l1 v l2 E x Hx. destruct l2 as [|y l2] using rev_ind.
    + apply app_inj_tail in E as [-> ->]. by apply (proj1 (open_edges_zero l1 v) Hu0).
    + clear IHl2. rewrite app_comm_cons, app_assoc in E. apply app_inj_tail in E as [E _]. by eapply Hs.
Qed.

Lemma topo_loop_spec fuel in_deg queue topo : topo_inv in_deg queue topo → n ≤ length topo + fuel →
  ∃ order in_deg', topo_loop fuel adj in_deg queue topo = Ret (Some order) ∧ topo_inv in_deg' [] order.
Proof.
  revert in_deg queue topo. induction fuel as [|fuel IH]; intros in_deg queue topo Hi Hf.
  - destruct queue as [|u queue]; [by exists topo, in_deg|]. exfalso.
    assert (Hsub : topo ++ u :: queue ⊆+ range 0 n). { apply NoDup_submseteq; [apply Hi|]. intros v Hv%(ti_ready _ _ _ Hi). apply elem_of_range. lia. }
    apply submseteq_length in Hsub. rewrite length_app, length_range in Hsub. cbn in Hsub. lia.
  - destruct queue as [|u queue]; [by exists topo, in_deg|]. cbn [topo_loop].
    destruct (topo_step _ _ _ _ Hi) as (d' & q' & E & Hi'). apply run_bind_Ret in E as (s & -> & E). cbn [run_bind]. rewrite E. cbn [run_bind].
    apply (IH d' q'); [done|]. rewrite length_app. cbn. lia.
Qed.

Lemma zeros_spec d : length d = n → (∀ v, v < n → d !! v = Some (open_edges [] v)) → topo_inv d (zeros d) [].
Proof.
  intros Hl Hd. assert (Hz : ∀ v, v ∈ zeros d ↔ v < n ∧ open_edges [] v = 0).
  { intros v. unfold zeros, with_index. rewrite list_elem_of_fmap. split.
    - intros ([i x] & -> & [Hx Hi]%list_elem_of_filter). apply elem_of_lookup_imap in Hi as (j & y & [= <- <-] & Hj). cbn in *.
      pose proof (lookup_lt_Some _ _ _ Hj) as Hlt. rewrite Hl in Hlt. split; [done|]. rewrite (Hd i Hlt) in Hj. injection Hj as Hj. by rewrite Hj.
    - intros [Hv H0]. exists (v, 0). split; [done|]. apply list_elem_of_filter. split; [done|]. apply elem_of_lookup_imap. exists v, 0. split; [done|]. by rewrite (Hd v Hv), H0. }
  split; [done| |intros v; apply Hz|by intros [|? ?] ? ? [=]].
  cbn. unfold zeros, with_index. clear. assert (Hgen : ∀ k, NoDup (fst <$> filter (λ x, x.2 = 0) (imap (λ i x, (k + i, x)) d)) ∧ ∀ v, v ∈ fst <$> filter (λ x, x.2 = 0) (imap (λ i x, (k + i, x)) d) → k ≤ v).
  { induction d as [|x d IH]; intros k; [split; [constructor|by intros ? ?%not_elem_of_nil]|]. rewrite imap_cons, Nat.add_0_r.
    assert (E : imap ((λ i x, (k + i, x)) ∘ S) d = imap (λ i x, (S k + i, x)) d) by (apply imap_ext; intros; cbn; f_equal; lia). rewrite E.
    destruct (IH (S k)) as [H1 H2]. rewrite filter_cons. case_decide.
    - cbn [fmap list_fmap fst]. split; [constructor; [intros Hk%H2; lia|done]|]. intros v [->|Hv]%elem_of_cons; [done|]. apply H2 in Hv. lia.
    - split; [done|]. intros v Hv%H2. lia. }
  apply (Hgen 0).
Qed.

(** ** The distances *)

Context (weights : list f64) (Hlen : length weights = n) (Hw : Forall nonneg weights).

Definition at_node (l : list f64) (v : nat) : f64 := default (S754_zero false) (l !! v).

Lemma at_node_get (l : list f64) v : length l = n → v < n → vec_get l v = Ret (at_node l v).
Proof. intros Hl Hv. rewrite <- Hl in Hv. apply lookup_lt_is_Some in Hv as [x Hx]. unfold vec_get, at_node. by rewrite Hx. Qed.

Lemma weight_nonneg v : nonneg (at_node weights v).
Proof. unfold at_node. destruct (weights !! v) eqn:E; [|done]. by eapply Forall_lookup_1 in E. Qed.

Lemma at_node_insert (l : list f64) v x u : length l = n → v < n → at_node (<[v := x]> l) u = if decide (u = v) then x else at_node l u.
Proof.
  intros Hl Hv. unfold at_node. destruct (decide (u = v)) as [->|Hne]; [by rewrite list_lookup_insert_eq by lia|by rewrite list_lookup_insert_ne].
Qed.

(** The time of a path, added up from its first node on, and the paths to a node. *)
Definition path_time (p : list nat) : f64 := match p with [] => S754_zero false | x :: l => foldl (λ d v, (d + at_node weights v)%f64) (at_node weights x) l end.

Inductive path_to : list nat → nat → Prop :=
  | path_one v : v < n → path_to [v] v
  | path_snoc p u v : path_to p u → edge u v → path_to (p ++ [v]) v.

Lemma path_lt p v : path_to p v → v < n ∧ p ≠ [] ∧ Forall (λ u, u < n) p.
Proof.
  induction 1 as [v Hv|p u v _ (_ & _ & IH) He]; [by repeat constructor|]. destruct (edge_lt _ _ He) as [_ Hv]. split; [done|].
  split; [by destruct p|]. apply Forall_app. split; [done|by constructor].
Qed.

Lemma path_time_snoc p v : p ≠ [] → path_time (p ++ [v]) = (path_time p + at_node weights v)%f64.
Proof. destruct p as [|x p]; [done|]. intros _. cbn. by rewrite foldl_app. Qed.

(** After the edges in [E] have been relaxed. *)
Record relaxed (E : nat → nat → Prop) (dist : list f64) (prev : list (option nat)) : Prop := {
  rx_length : length dist = n ∧ length prev = n;
  rx_nonneg : Forall nonneg dist;
  rx_none : ∀ v, prev !! v = Some None → at_node dist v = at_node weights v;
  rx_some : ∀ v u, prev !! v = Some (Some u) → E u v ∧ at_node dist v = (at_node dist u + at_node weights v)%f64;
  rx_edge : ∀ u v, E u v → (value (at_node dist u + at_node weights v)%f64 ≤ value (at_node dist v))%Z;
  rx_own : ∀ v, v < n → (value (at_node weights v) ≤ value (at_node dist v))%Z;
}.

Lemma dist_nonneg E dist prev v : relaxed E dist prev → nonneg (at_node dist v).
Proof. intros Hr. unfold at_node. destruct (dist !! v) eqn:Ev; [|done]. by eapply Forall_lookup_1 in Ev; [|apply Hr]. Qed.

Lemma relax_ok E dist prev u v : relaxed E dist prev → u < n → v < n → u ≠ v → (∀ y, ¬ E v y) →
  ∃ dist' prev', relax weights u (dist, prev) v = Ret (dist', prev') ∧ relaxed (λ x y, E x y ∨ x = u ∧ y = v) dist' prev'.
Proof.
  intros Hr Hu Hv Huv Hsrc. pose proof Hr as [[Hl1 Hl2] H1 H2 H3 H4 H5].
  assert (Hnew : nonneg (at_node dist u + at_node weights v)%f64) by (apply add_value; [by eapply dist_nonneg|apply weight_nonneg]).
  unfold relax. cbn [fst snd]. rewrite !at_node_get by done. cbn [run_bind]. rewrite ltb_value by (done || by eapply dist_nonneg).
  destruct (Z.ltb_spec (value (at_node dist v)) (value (at_node dist u + at_node weights v)%f64)) as [Hlt|Hge].
  - rewrite !vec_set_lt by lia. cbn [run_bind]. do 2 eexists. split; [done|].
    assert (Hat : ∀ x, at_node (<[v := (at_node dist u + at_node weights v)%f64]> dist) x = if decide (x = v) then (at_node dist u + at_node weights v)%f64 else at_node dist x)
      by (intros; by apply at_node_insert).
    split; [by rewrite !length_insert|by apply Forall_insert|..].
    + intros x Hx. rewrite Hat. destruct (decide (x = v)) as [->|Hne]; [rewrite list_lookup_insert_eq in Hx by lia; done|].
      rewrite list_lookup_insert_ne in Hx by done. by apply H2.
    + intros x y Hx. rewrite !Hat. destruct (decide (x = v)) as [->|Hne].
      * rewrite list_lookup_insert_eq in Hx by lia. injection Hx as <-. split; [by right|]. by rewrite decide_False.
      * rewrite list_lookup_insert_ne in Hx by done. destruct (H3 x y Hx) as [HE Hd]. split; [by left|]. rewrite decide_False; [done|]. intros ->. by apply (Hsrc x).
    + intros x y Hxy. rewrite !Hat. destruct Hxy as [HE|[-> ->]]; [|by rewrite decide_False, decide_True].
      rewrite (decide_False (P := x = v)) by (intros ->; by apply (Hsrc y)). specialize (H4 x y HE). destruct (decide (y = v)) as [->|]; [lia|done].
    + intros x Hx. rewrite Hat. specialize (H5 x Hx). destruct (decide (x = v)) as [->|]; lia.
  - exists dist, prev. split; [done|]. split; [done..| | |done].
    + intros x y Hx. destruct (H3 x y Hx) as [? ?]. auto.
    + intros x y [HE|[-> ->]]; [by apply H4|done].
Qed.

Lemma relaxed_ext E E' dist prev : (∀ u v, E u v ↔ E' u v) → relaxed E dist prev → relaxed E' dist prev.
Proof.
  intros HE [H1 H2 H3 H4 H5 H6]. split; try done.
  - intros v u Hx. destruct (H4 v u Hx) as [? ?]. split; [by apply HE|done].
  - intros u v Hx. by apply H5, HE.
Qed.

Lemma relax_node_ok E dist prev u : relaxed E dist prev → u < n → ¬ edge u u → (∀ v y, edge u v → ¬ E v y) →
  ∃ dist' prev', relax_node adj weights (dist, prev) u = Ret (dist', prev') ∧ relaxed (λ x y, E x y ∨ x = u ∧ edge u y) dist' prev'.
Proof.
  intros Hr Hu Hself Hsrc. unfold relax_node. rewrite succs_get by done. cbn [run_bind].
  assert (Hgen : ∀ l done dist prev, succs u = done ++ l → relaxed (λ x y, E x y ∨ x = u ∧ y ∈ done) dist prev →
    ∃ dist' prev', foldM (relax weights u) (dist, prev) l = Ret (dist', prev') ∧ relaxed (λ x y, E x y ∨ x = u ∧ edge u y) dist' prev').
  { clear dist prev Hr. induction l as [|v l IH]; intros ready dist prev Hs Hr.
    - exists dist, prev. split; [done|]. eapply relaxed_ext; [|exact Hr]. intros x y. unfold edge. rewrite Hs, app_nil_r. done.
    - assert (Hv : edge u v) by (unfold edge; rewrite Hs, elem_of_app; right; left). cbn [foldM].
      destruct (relax_ok _ _ _ u v Hr Hu) as (d1 & p1 & -> & Hr1); [by apply (edge_lt u)|by intros ->|intros y [HE|[-> _]]; [by eapply Hsrc|done]|].
      cbn [run_bind]. apply (IH (ready ++ [v])); [by rewrite <- app_assoc|]. eapply relaxed_ext; [|exact Hr1]. intros x y. cbn.
      rewrite elem_of_app, list_elem_of_singleton. tauto. }
  apply (Hgen _ []); [done|]. eapply relaxed_ext; [|exact Hr]. intros x y. cbn. split; [by left|]. by intros [?|[_ ?%not_elem_of_nil]].
Qed.

Lemma relax_all d order : topo_inv d [] order →
  ∃ dist prev, foldM (relax_node adj weights) (weights, replicate n None) order = Ret (dist, prev)
  ∧ relaxed (λ u v, u ∈ order ∧ edge u v) dist prev.
Proof.
  intros [_ Hnd Hr Hs]. rewrite app_nil_r in Hnd. setoid_rewrite app_nil_r in Hr.
  assert (Hgen : ∀ l ready dist prev, order = ready ++ l → relaxed (λ u v, u ∈ ready ∧ edge u v) dist prev →
    ∃ dist' prev', foldM (relax_node adj weights) (dist, prev) l = Ret (dist', prev') ∧ relaxed (λ u v, u ∈ order ∧ edge u v) dist' prev').
  { induction l as [|u l IH]; intros ready dist prev E Hrx; [exists dist, prev; split; [done|]; by rewrite E, app_nil_r|]. cbn [foldM].
    assert (Hu : u ∉ ready). { rewrite E in Hnd. apply NoDup_app in Hnd as (_ & Hx & _). intros Hin. by apply (Hx u Hin); left. }
    assert (Hself : ¬ edge u u) by (intros He; by apply Hu, (Hs ready u l E)).
    destruct (relax_node_ok _ dist prev u Hrx) as (d1 & p1 & -> & Hr1); [apply Hr; rewrite E, elem_of_app; right; left|done| |].
    - intros v y Huv [Hv _]. apply list_elem_of_split in Hv as (l1 & l2 & ->). apply Hu. rewrite elem_of_app. left.
      apply (Hs l1 v (l2 ++ u :: l)); [by rewrite E, <- app_assoc|done].
    - cbn [run_bind]. apply (IH (ready ++ [u])); [by rewrite <- app_assoc|]. eapply relaxed_ext; [|exact Hr1]. intros x y. cbn.
      rewrite elem_of_app, list_elem_of_singleton. split; [intros [[? ?]|[-> ?]]; auto|]. intros [[?| ->] ?]; auto. }
  apply (Hgen order []); [done|]. split; [by rewrite length_replicate|done| | | |done].
  - done.
  - intros v u Hx%lookup_replicate. by destruct Hx.
  - by intros u v [?%not_elem_of_nil _].
Qed.

(** ** The way back *)

Fixpoint position (v : nat) (l : list nat) : nat :=
  match l with [] => 0 | x :: l => if decide (x = v) then 0 else S (position v l) end.

Lemma position_out v l : v ∉ l → position v l = length l.
Proof.
  induction l as [|x l IH]; intros Hv; [done|]. apply not_elem_of_cons in Hv as [? ?]. cbn. rewrite decide_False by congruence. by rewrite IH.
Qed.
Lemma position_app v l1 l2 : v ∈ l1 → position v (l1 ++ l2) < length l1.
Proof. induction l1 as [|x l1 IH]; [by intros ?%not_elem_of_nil|]. intros Hv%elem_of_cons. cbn. case_decide; [lia|]. destruct Hv; [congruence|]. specialize (IH H0). lia. Qed.
Lemma position_at v l1 l2 : v ∉ l1 → position v (l1 ++ v :: l2) = length l1.
Proof.
  induction l1 as [|x l1 IH]; intros Hv; [cbn; by rewrite decide_True|]. apply not_elem_of_cons in Hv as [? ?]. cbn. rewrite decide_False by congruence. by rewrite IH.
Qed.

Section ordered.
Context (d order : list nat) (Hti : topo_inv d [] order).

Lemma order_facts : NoDup order ∧ (∀ v, v ∈ order ↔ v < n ∧ open_edges order v = 0).
Proof. destruct Hti as [_ Hnd Hr _]. rewrite app_nil_r in Hnd. split; [done|]. intros v. by rewrite <- Hr, app_nil_r. Qed.

Lemma position_edge u v : u ∈ order → edge u v → position u order < position v order.
Proof.
  intros Hu He. destruct (decide (v ∈ order)) as [Hv|Hv].
  - apply list_elem_of_split in Hv as (l1 & l2 & E). pose proof (ti_sorted _ _ _ Hti l1 v l2 E u He) as Hu1.
    destruct order_facts as [Hnd _]. rewrite E in Hnd |- *. apply NoDup_app in Hnd as (_ & Hd & _).
    rewrite position_at by (intros Hin; by apply (Hd v Hin); left). by apply position_app.
  - rewrite (position_out v) by done. apply list_elem_of_split in Hu as (l1 & l2 & E). destruct order_facts as [Hnd _]. rewrite E in Hnd |- *. rewrite position_at.
    + rewrite length_app. cbn. lia.
    + apply NoDup_app in Hnd as (_ & Hd & _). intros Hin. by apply (Hd u Hin); left.
Qed.

Lemma position_lt v : v < n → position v order < n.
Proof.
  intros Hv. destruct order_facts as [Hnd Hin]. assert (Hsub : ∀ l, NoDup l → (∀ x, x ∈ l → x < n) → length l ≤ n).
  { intros l Hl Hx. assert (Hs : l ⊆+ range 0 n) by (apply NoDup_submseteq; [done|]; intros x ?%Hx; apply elem_of_range; lia).
    apply submseteq_length in Hs. rewrite length_range in Hs. lia. }
  destruct (decide (v ∈ order)) as [Ho|Ho].
  - apply list_elem_of_split in Ho as (l1 & l2 & E). assert (Hl : length order ≤ n) by (apply Hsub; [done|]; by intros x [? _]%Hin).
    rewrite E in Hnd, Hl |- *. apply NoDup_app in Hnd as (_ & Hd & _). rewrite position_at by (intros Hx; by apply (Hd v Hx); left).
    rewrite length_app in Hl. cbn in Hl. lia.
  - rewrite position_out by done. assert (Hl : length (v :: order) ≤ n); [|cbn in Hl; lia].
    apply Hsub; [by constructor|]. by intros x [->|[? _]%Hin]%elem_of_cons.
Qed.

Context (dist : list f64) (prev : list (option nat)) (Hrx : relaxed (λ u v, u ∈ order ∧ edge u v) dist prev).

Lemma walk_back_spec fuel v acc : v < n → position v order < fuel →
  ∃ p, walk_back fuel prev v acc = Ret (Some (p ++ acc)) ∧ path_to p v ∧ path_time p = at_node dist v.
Proof.
  revert v acc. induction fuel as [|fuel IH]; intros v acc Hv Hf; [lia|]. cbn [walk_back].
  destruct (vec_get_lt prev v) as (o & -> & Ho); [by rewrite (proj2 (rx_length _ _ _ Hrx))|]. cbn [run_bind]. destruct o as [u|].
  - destruct (rx_some _ _ _ Hrx v u Ho) as [[Hu He] Hd]. pose proof (position_edge u v Hu He). destruct (edge_lt u v He) as [Hun _].
    destruct (IH u (v :: acc) Hun) as (p & -> & Hp & Ht); [lia|]. exists (p ++ [v]). rewrite <- app_assoc. split; [done|].
    split; [by apply path_snoc with u|]. rewrite path_time_snoc by apply (path_lt _ _ Hp). by rewrite Ht, Hd.
  - exists [v]. split; [done|]. split; [by constructor|]. cbn. by rewrite (rx_none _ _ _ Hrx v Ho).
Qed.

(** Without cycles every node is sorted, and no path is longer than the distance of its end. *)
Lemma acyclic_sorted (rank : nat → nat) : (∀ u v, edge u v → rank u < rank v) → ∀ v, v < n → v ∈ order.
Proof.
  intros Hrank v. remember (rank v) as r eqn:Er. revert v Er. induction (lt_wf r) as [r _ IH]. intros v -> Hv. apply order_facts. split; [done|].
  apply open_edges_zero. intros u He. eapply IH; [by apply Hrank|done|]. by apply (edge_lt u v).
Qed.

Lemma longest p v : (∀ v, v < n → v ∈ order) → path_to p v → (value (path_time p) ≤ value (at_node dist v))%Z.
Proof.
  intros Hall. induction 1 as [v Hv|p u v Hp IH He]; [cbn; by apply (rx_own _ _ _ Hrx)|].
  destruct (path_lt _ _ Hp) as (Hu & Hne & _). rewrite path_time_snoc by done. etrans; [|apply (rx_edge _ _ _ Hrx u v); split; [by apply Hall|done]].
  apply add_mono; [|by eapply dist_nonneg|apply weight_nonneg|done].
  clear IH He v. induction Hp as [v Hv|p u v Hp IH He]; [apply weight_nonneg|]. destruct (path_lt _ _ Hp) as (? & ? & _).
  rewrite path_time_snoc by done. apply add_value; [by apply IH|apply weight_nonneg].
Qed.
End ordered.

(** The greatest distance. *)
Lemma end_of_path_spec (dist : list f64) : Forall nonneg dist → dist ≠ [] →
  ∃ i x, end_of_path dist = Ret (i, x) ∧ dist !! i = Some x ∧ ∀ j y, dist !! j = Some y → (value y ≤ value x)%Z.
Proof.
  intros Hd Hne. unfold end_of_path.
  assert (Hin : ∀ i x, (i, x) ∈ with_index dist ↔ dist !! i = Some x).
  { intros i x. unfold with_index. rewrite elem_of_lookup_imap. split; [by intros (? & ? & [= <- <-] & ?)|]. intros Hx. by exists i, x. }
  assert (Hgen : ∀ l best, best ∈ with_index dist → (∀ y, y ∈ l → y ∈ with_index dist) →
    ∃ x, foldM (λ best x, let! c := f64_cmp best.2 x.2 in Ret (match c with Datatypes.Gt => best | _ => x end)) best l = Ret x
    ∧ x ∈ with_index dist ∧ ∀ y, y ∈ best :: l → (value y.2 ≤ value x.2)%Z).
  { induction l as [|y l IH]; intros best Hb Hl; [exists best; split; [done|]; split; [done|]; by intros y ->%list_elem_of_singleton|]. cbn [foldM].
    assert (Hnn : ∀ z, z ∈ with_index dist → nonneg z.2). { intros [i z] Hz%Hin. cbn. by eapply Forall_lookup_1 in Hz. }
    assert (Hy : y ∈ with_index dist) by (apply Hl; left). unfold f64_cmp at 1. rewrite compare_value by by apply Hnn. cbn [unwrap run_bind].
    set (b := match (_ ?= _)%Z with Datatypes.Gt => best | _ => y end).
    assert (Hbb : b ∈ with_index dist ∧ (value best.2 ≤ value b.2)%Z ∧ (value y.2 ≤ value b.2)%Z).
    { subst b. destruct (Z.compare_spec (value best.2) (value y.2)); split_and!; try done; lia. }
    destruct Hbb as (Hb1 & Hb2 & Hb3). destruct (IH b Hb1) as (x & -> & Hx & Hm); [intros; apply Hl; by right|].
    exists x. split; [done|]. split; [done|]. assert (value b.2 ≤ value x.2)%Z by (apply Hm; left).
    intros z [->|[->|Hz]%elem_of_cons]%elem_of_cons; [lia|lia|]. apply Hm. by right. }
  destruct (with_index dist) as [|best l] eqn:E; [by destruct dist|].
  destruct (Hgen l best) as ([i x] & -> & Hx & Hm); [left|intros; by right|]. exists i, x. split; [done|]. split; [by apply Hin|].
  intros j y Hy%Hin. by apply (Hm (j, y)).
Qed.

(** What the two loops and the search for the end come to. *)
Lemma critical_path_core : 0 < n → ∃ deg order dist prev i x p,
  in_degrees adj = Ret deg ∧ topo_loop n adj deg (zeros deg) [] = Ret (Some order)
  ∧ foldM (relax_node adj weights) (weights, replicate n None) order = Ret (dist, prev)
  ∧ end_of_path dist = Ret (i, x) ∧ walk_back n prev i [] = Ret (Some p)
  ∧ path_to p i ∧ path_time p = x
  ∧ ((∃ rank : nat → nat, ∀ u v, edge u v → rank u < rank v) → ∀ q v, path_to q v → (value (path_time q) ≤ value x)%Z).
Proof.
  intros Hn. destruct in_degrees_spec as (deg & Hdeg & Hl & Hd). destruct (topo_loop_spec n deg (zeros deg) []) as (order & d' & Htopo & Hti); [by apply zeros_spec|cbn; lia|].
  destruct (relax_all d' order Hti) as (dist & prev & Hrel & Hrx). destruct (end_of_path_spec dist) as (i & x & Hend & Hi & Hmax); [apply Hrx| |].
  { intros ->. destruct (rx_length _ _ _ Hrx) as [Hz _]. cbn in Hz. lia. }
  assert (Hx : at_node dist i = x) by (unfold at_node; by rewrite Hi). assert (Hin : i < n) by (rewrite <- (proj1 (rx_length _ _ _ Hrx)); by eapply lookup_lt_Some).
  destruct (walk_back_spec d' order Hti dist prev Hrx n i []) as (p & Hwalk & Hp & Ht); [done|by eapply position_lt|]. rewrite app_nil_r in Hwalk.
  exists deg, order, dist, prev, i, x, p. split_and!; try done; [congruence|]. intros [rank Hrank] q v Hq.
  etrans; [eapply longest; [exact Hrx|by eapply acyclic_sorted|exact Hq]|].
  destruct (path_lt _ _ Hq) as (Hv & _). rewrite <- (proj1 (rx_length _ _ _ Hrx)) in Hv. apply lookup_lt_is_Some in Hv as [y Hy]. unfold at_node. rewrite Hy. by eapply Hmax.
Qed.
End graph.

(** ** The report *)

Lemma name_to_idx_lookup (edges : list (string * list string)) s j : name_to_idx edges !! s = Some j → ∃ e, edges !! j = Some e ∧ e.1 = s.
Proof.
  unfold name_to_idx, with_index.
  assert (Hgen : ∀ (l : list (nat * (string * list string))) (m : gmap string nat), (∀ s j, m !! s = Some j → ∃ e, edges !! j = Some e ∧ e.1 = s) →
    (∀ x, x ∈ l → edges !! x.1 = Some x.2) → ∀ s j, foldl (λ m x, <[x.2.1 := x.1]> m) m l !! s = Some j → ∃ e, edges !! j = Some e ∧ e.1 = s).
  { induction l as [|x l IH]; intros m Hm Hl; [done|]. cbn [foldl]. apply IH; [|intros; apply Hl; by right].
    intros s' j' [[<- <-]|[_ Hs]]%lookup_insert_Some; [|by apply Hm]. exists x.2. split; [apply Hl; left|done]. }
  apply Hgen; [intros ? ?; by rewrite lookup_empty|]. intros [i e] Hx. apply elem_of_lookup_imap in Hx as (? & ? & [= <- <-] & Hi). done.
Qed.

Lemma adjacency_lt edges : Forall (Forall (λ v, v < length (adjacency edges))) (adjacency edges).
Proof.
  unfold adjacency at 2. apply Forall_fmap, Forall_true. intros e. cbn. apply Forall_forall. intros v Hv. apply list_elem_of_omap in Hv as (s & _ & Hs).
  apply name_to_idx_lookup in Hs as (e' & He & _). unfold adjacency. rewrite length_fmap. by eapply lookup_lt_Some.
Qed.

(** The nodes that lie on no cycle can be ranked along the edges. *)
Definition acyclic (adj : list (list nat)) : Prop := ∃ rank : nat → nat, ∀ u v, edge adj u v → rank u < rank v.

(** C39. The critical path. For a graph with nodes, whatever its edges, the computation ends
    without a panic; the nodes it reports are, in this order, a path of the graph, and the
    latency it reports is the sum of their mean times along the path, rounded after every
    addition. When the graph has no cycle, no path of it has a larger sum. *)
Theorem critical_path_longest (edges : list (string * list string)) (stats : gmap string NodeStats)
    (Hw : ∀ name s, stats !! name = Some s → nonneg (ns_mean_exec_us s)) (Hne : edges ≠ []) :
  ∃ p v names, compute_critical_path_report edges stats = Ret (Some (mkCriticalPath (length p) (path_time (weights_of edges stats) p) names))
  ∧ path_to (adjacency edges) p v
  ∧ Some <$> names = (λ i, fst <$> edges !! i) <$> p
  ∧ (acyclic (adjacency edges) → ∀ q u, path_to (adjacency edges) q u →
      (value (path_time (weights_of edges stats) q) ≤ value (path_time (weights_of edges stats) p))%Z).
Proof.
  assert (Hn : length (adjacency edges) = length edges) by apply length_fmap.
  assert (Hwn : Forall nonneg (weights_of edges stats)).
  { apply Forall_fmap, Forall_true. intros e. cbn. destruct (stats !! e.1) eqn:E; [by eapply Hw|done]. }
  destruct (critical_path_core (adjacency edges) (adjacency_lt edges) (weights_of edges stats)) as (deg & order & dist & prev & i & x & p & H1 & H2 & H3 & H4 & H5 & Hp & Ht & Hmax).
  { unfold weights_of. by rewrite length_fmap, Hn. } { done. } { rewrite Hn. by destruct edges; [|cbn; lia]. }
  destruct (path_lt _ (adjacency_lt edges) _ _ Hp) as (_ & _ & Hall). rewrite Hn in *.
  destruct (run_imap_total (λ (_ : nat) i, run_map fst (vec_get edges i)) 0 p) as [names Hnames].
  { intros k j Hj. pose proof (Forall_lookup_1 _ _ _ _ Hall Hj) as Hlt. cbn in Hlt. destruct (vec_get_lt edges j Hlt) as (e & -> & _). by eexists. }
  exists p, i, names. split_and!; [|done| |].
  - unfold compute_critical_path_report. destruct edges as [|e0 es] eqn:E; [done|]. rewrite <- E in *.
    rewrite H1. cbn [run_bind]. rewrite H2. cbn [run_bind unwrap]. rewrite H3. cbn [run_bind]. rewrite H4. cbn [run_bind]. rewrite H5. cbn [run_bind unwrap].
    rewrite Hnames. cbn [run_bind]. by rewrite Ht.
  - apply run_imap_Ret in Hnames as [Hl Hf]. apply list_eq. intros k. rewrite !list_lookup_fmap. destruct (p !! k) as [j|] eqn:Hj; cbn.
    + destruct (Hf k j Hj) as (y & -> & Hy). destruct (vec_get edges j) as [e|] eqn:He; [|done]. apply vec_get_Ret in He. rewrite He. by injection Hy as <-.
    + apply lookup_ge_None in Hj. rewrite (proj2 (lookup_ge_None names k)) by lia. done.
  - intros Hac q u Hq. rewrite Ht. by apply (Hmax Hac q u).
Qed.

(** A diamond whose second branch takes longer. *)
Definition diamond : list (string * list string) := [("load", ["fast"; "slow"]); ("fast", ["join"]); ("slow", ["join"]); ("join", [])]%string.
Definition diamond_stats : gmap string NodeStats :=
  (λ us, mkNodeStats 1 us us us (f64_of_Z 0)) <$> list_to_map [("load", f64_lit 1 1); ("fast", f64_lit 2 1); ("slow", f64_lit 15 1); ("join", f64_lit 3 1)]%string.

Lemma critical_path_longest_witness : ∃ lat, compute_critical_path_report diamond diamond_stats = Ret (Some (mkCriticalPath 3 lat ["load"; "slow"; "join"]%string))
  ∧ ∀ q u, path_to (adjacency diamond) q u → (value (path_time (weights_of diamond diamond_stats) q) ≤ value lat)%Z.
Proof.
  destruct (critical_path_longest diamond diamond_stats) as (p & v & names & Hr & _ & _ & Hmax).
  - intros name s (us & <- & Hus)%lookup_fmap_Some. cbn. apply elem_of_list_to_map_2 in Hus.
    repeat (apply elem_of_cons in Hus as [[= -> ->]|Hus]; [vm_compute; reflexivity|]). by apply not_elem_of_nil in Hus.
  - discriminate.
  - let r := eval vm_compute in (compute_critical_path_report diamond diamond_stats) in
      assert (E : compute_critical_path_report diamond diamond_stats = r) by (vm_compute; reflexivity).
    eexists. split; [exact E|]. rewrite E in Hr. injection Hr as _ -> _.
    apply Hmax. exists (λ u, u). assert (Ea : adjacency diamond = [[1; 2]; [3]; [3]; []]) by (vm_compute; reflexivity).
    intros u w. unfold edge, succs. rewrite Ea. destruct u as [|[|[|[|u]]]]; cbn; rewrite ?elem_of_cons, ?elem_of_nil; lia.
Defined.

(** ** The graph of a report *)

(** The pairs of [write_json_report]. *)
Definition graph_edges (g : Graph) : run (list (string * list string)) :=
  run_imap (λ _ node,
    let node_id := n_id node in
    let! succs := (if node_id <? length (g_successors g)
                   then let! ids := vec_get (g_successors g) node_id in
                        run_imap (λ _ sid, run_map n_name (vec_get (g_nodes g) sid)) 0 ids
                   else Ret []) in
    Ret (n_name node, succs)) 0 (g_nodes g).

(** The last node with a name. *)
Lemma name_to_idx_last (edges : list (string * list string)) i e : edges !! i = Some e → ∃ j, name_to_idx edges !! e.1 = Some j ∧ i ≤ j.
Proof.
  intros Hi. unfold name_to_idx, with_index.
  assert (Hgen : ∀ (l : list (string * list string)) k (m : gmap string nat) i e, l !! i = Some e →
    ∃ j, foldl (λ m x, <[x.2.1 := x.1]> m) m (imap (λ i x, (k + i, x)) l) !! e.1 = Some j ∧ k + i ≤ j).
  { clear. assert (Hin : ∀ (l : list (string * list string)) k (m : gmap string nat) s x, m !! s = Some x → x ≤ k →
      ∃ j, foldl (λ m x, <[x.2.1 := x.1]> m) m (imap (λ i x, (k + i, x)) l) !! s = Some j ∧ x ≤ j).
    { induction l as [|[s0 ss] l IH]; intros k m s x Hx Hk; [by exists x|]. rewrite imap_cons, Nat.add_0_r. cbn [foldl fst snd].
      assert (E : imap ((λ i x, (k + i, x)) ∘ S) l = imap (λ i x, (S k + i, x)) l) by (apply imap_ext; intros; cbn; f_equal; lia). rewrite E.
      destruct (decide (s0 = s)) as [->|Hne].
      - destruct (IH (S k) (<[s := k]> m) s k) as (j & -> & Hj); [by rewrite lookup_insert_eq|lia|]. exists j. split; [done|lia].
      - apply IH; [by rewrite lookup_insert_ne|lia]. }
    induction l as [|[s0 ss] l IH]; intros k m i e Hi; [done|]. rewrite imap_cons, Nat.add_0_r. cbn [foldl fst snd].
    assert (E : imap ((λ i x, (k + i, x)) ∘ S) l = imap (λ i x, (S k + i, x)) l) by (apply imap_ext; intros; cbn; f_equal; lia). rewrite E.
    destruct i as [|i].
    - injection Hi as <-. cbn [fst]. destruct (Hin l (S k) (<[s0 := k]> m) s0 k) as (j & -> & Hj); [by rewrite lookup_insert_eq|lia|]. exists j. split; [done|lia].
    - destruct (IH (S k) (<[s0 := k]> m) i e Hi) as (j & -> & Hj). exists j. split; [done|lia]. }
  destruct (Hgen edges 0 ∅ i e Hi) as (j & Hj & Hle). by exists j.
Qed.

(** The graph of a file that parses can be reported on, and has no cycle. *)
Theorem parsed_edges_acyclic `{NodeCache.FuncReg, Values.JsonComplex} network gf workers spec (Hparse : from_graph_file network gf workers = Ret (ROk spec)) :
  ∃ edges, graph_edges (spec_graph spec) = Ret edges ∧ fst <$> edges = n_name <$> g_nodes (spec_graph spec) ∧ acyclic (adjacency edges).
Proof.
  destruct (from_graph_file_ok _ _ _ _ Hparse) as (ids & _ & Hwf & _ & Hns & _). pose proof (nodes_of_file_backward _ _ _ _ _ _ _ Hns (gw_ids _ Hwf)) as Hback.
  set (g := spec_graph spec) in *.
  assert (Hsucc : ∀ p s, s ∈ succs_of g p → p < s ∧ s < length (g_nodes g)).
  { intros p s (node & Hn & Hr)%(gw_succ _ Hwf). split; [by eapply Hback|by eapply lookup_lt_Some]. }
  assert (Hnames : ∀ ss, (∀ s, s ∈ ss → s < length (g_nodes g)) → ∃ l, run_imap (λ _ sid, run_map n_name (vec_get (g_nodes g) sid)) 0 ss = Ret l).
  { intros ss Hss. apply run_imap_total. intros i s Hs. destruct (vec_get_lt (g_nodes g) s) as (nd & -> & _); [by eapply Hss, list_elem_of_lookup_2|by eexists]. }
  assert (Htot : ∃ edges, graph_edges g = Ret edges).
  { unfold graph_edges. apply run_imap_total. intros i node Hi. rewrite (gw_ids _ Hwf i node Hi). destruct (Nat.ltb_spec i (length (g_successors g))) as [Hlt|]; [|by eexists].
    destruct (vec_get_lt _ _ Hlt) as (ss & -> & Hss). cbn [run_bind]. destruct (Hnames ss) as [l ->]; [|by eexists].
    intros s Hs. apply (Hsucc i). unfold succs_of. by rewrite Hss. }
  destruct Htot as [edges Hedges]. exists edges. split; [done|]. unfold graph_edges in Hedges. apply run_imap_Ret in Hedges as [Hl Hf].
  assert (Hedge : ∀ i e, edges !! i = Some e → ∃ node, g_nodes g !! i = Some node ∧ e.1 = n_name node
    ∧ ∀ s, s ∈ e.2 → ∃ j nd, j ∈ succs_of g i ∧ g_nodes g !! j = Some nd ∧ n_name nd = s).
  { intros i e He. pose proof (lookup_lt_Some _ _ _ He) as Hlt. rewrite Hl in Hlt. apply lookup_lt_is_Some in Hlt as [node Hnode]. exists node. split; [done|].
    destruct (Hf i node Hnode) as (e' & He' & Hr). rewrite He in He'. injection He' as <-. apply run_bind_Ret in Hr as (l & Hr & [= <-]). split; [done|]. cbn [snd].
    rewrite (gw_ids _ Hwf i node Hnode) in Hr. destruct (_ <? _); [|by injection Hr as <-; intros ? ?%not_elem_of_nil].
    apply run_bind_Ret in Hr as (ss & Hss%vec_get_Ret & Hr). apply run_imap_Ret in Hr as [Hl2 Hf2]. intros s (k & Hk)%list_elem_of_lookup.
    pose proof (lookup_lt_Some _ _ _ Hk) as Hlt. rewrite Hl2 in Hlt. apply lookup_lt_is_Some in Hlt as [j Hj]. destruct (Hf2 k j Hj) as (y & Hy & Hn).
    rewrite Hk in Hy. injection Hy as <-. destruct (vec_get (g_nodes g) j) as [nd|] eqn:Hnd; [|done]. apply vec_get_Ret in Hnd. injection Hn as <-.
    exists j, nd. split; [|done]. unfold succs_of. rewrite Hss. by eapply list_elem_of_lookup_2. }
  split.
  - apply list_eq. intros i. rewrite !list_lookup_fmap. destruct (edges !! i) as [e|] eqn:He; cbn.
    + destruct (Hedge i e He) as (node & -> & -> & _). done.
    + apply lookup_ge_None in He. by rewrite (proj2 (lookup_ge_None (g_nodes g) i)) by lia.
  - exists (λ u, u). intros u v Huv. unfold edge, succs, adjacency in Huv. rewrite list_lookup_fmap in Huv.
    destruct (edges !! u) as [e|] eqn:He; cbn in Huv; [|by apply not_elem_of_nil in Huv].
    apply list_elem_of_omap in Huv as (s & Hs & Hv). destruct (Hedge u e He) as (_ & _ & _ & Hss). destruct (Hss s Hs) as (j & nd & Hj & Hnd & Hname).
    apply Hsucc in Hj as [Huj Hjn]. rewrite <- Hl in Hjn. apply lookup_lt_is_Some in Hjn as [e' He']. destruct (Hedge j e' He') as (nd' & Hnd' & He1 & _).
    assert (nd' = nd) as -> by congruence. destruct (name_to_idx_last edges j e' He') as (j' & Hj' & Hle). rewrite He1, Hname, Hv in Hj'. injection Hj' as <-. lia.
Qed.

Lemma parsed_edges_acyclic_witness : ∃ edges, graph_edges (spec_graph squares_spec) = Ret edges ∧ fst <$> edges = ["number"; "square"; "total"]%string ∧ acyclic (adjacency edges).
Proof. exact (parsed_edges_acyclic false squares_file 3 squares_spec squares_parsed). Defined.
