(* ===== verification/Compile.v ===== *)
(** What the compilation of a graph produces ([graph_gen.rs], [runtime/init.rs]).

    The passes over the node cache each set a field from the graph or from what earlier
    passes left; here is what the entry of a node holds in the end, in terms of the graph
    ([entry_ok]), and that [compile] does not panic on a graph whose functions and objects
    exist ([compilable]). *)
From S2P Require Import Prelude Types GraphStruct WorkerRange Graph Buffers NodeDep NodeCache Tables DepCounter Counting Arena Values ObjGen GraphGen GraphGenSpec.
From stdpp Require Import strings.

Lemma anyM_Ret {A} (f : A → run bool) (p : A → bool) l : (∀ x, x ∈ l → f x = Ret (p x)) → anyM f l = Ret (existsb p l).
Proof.
  induction l as [|x l IH]; intros Hf; cbn [anyM existsb]; [done|]. rewrite Hf by left. cbn [run_bind].
  destruct (p x); [done|]. apply IH. intros y ?. apply Hf. by right.
Qed.

Lemma allM_forallb {A} (f : A → run bool) (p : A → bool) l : (∀ x, x ∈ l → f x = Ret (p x)) → allM f l = Ret (forallb p l).
Proof.
  induction l as [|x l IH]; intros Hf; cbn [allM forallb]; [done|]. rewrite Hf by left. cbn [run_bind].
  destruct (p x); [|done]. apply IH. intros y ?. apply Hf. by right.
Qed.

Lemma foldM_total {S A} (f : S → A → run S) l : (∀ s x, x ∈ l → ∃ s', f s x = Ret s') → ∀ s, ∃ s', foldM f s l = Ret s'.
Proof.
  intros Hf s. destruct (foldM_inv (λ _, True) f l) with (s := s) as (s' & ? & _); [|done|by exists s'].
  intros s1 x Hx _. destruct (Hf s1 x Hx) as [s' ?]. by exists s'.
Qed.

(** The count of a node is computed when its predecessors exist. *)
Lemma dependency_count_total g node : preds_exist g → node ∈ g_nodes g → ∃ n, dependency_count g node = Ret n.
Proof.
  intros Hex Hin. unfold dependency_count.
  assert (Hread : ∀ a p, a ∈ n_args node → a_predecessor a = Some p → p_id p < length (g_nodes g)).
  { intros a p Ha Hp. apply (Hex node); [done|]. apply arg_pred_ids_elem. exists a. split; [done|]. unfold reads_pred. rewrite Hp. apply Nat.eqb_refl. }
  assert (H1 : ∀ st, ∃ st', foldM (count_pass1 g node) st (n_args node) = Ret st').
  { apply foldM_total. intros [[n seen] cand] a Ha. unfold count_pass1.
    destruct (negb (ty_is_barrier (a_type a))); [by eexists|]. destruct (a_predecessor a) as [p|] eqn:Hp; [|by eexists].
    case_decide; [by eexists|]. destruct (barrier_group_total g node p) as (b & _ & ->); [by eapply Hread|]. cbn [run_bind].
    destruct (if b : bool then None else p_group_by p); by eexists. }
  destruct (H1 (0, [], [])) as [[[n seen] cand] ->]. cbn [run_bind]. apply foldM_total. intros k p [Hp _]%first_seen_elem.
  unfold count_pass2. destruct (vec_get_lt (g_nodes g) p) as (nd & -> & _); [by apply (Hex node)|]. by eexists.
Qed.

Lemma dependency_counts_total g : preds_exist g → ∃ deps, dependency_count_vec g = Ret deps ∧ length deps = length (g_nodes g).
Proof.
  intros Hex. destruct (run_imap_total (λ _ node, dependency_count g node) 0 (g_nodes g)) as [deps Hd].
  { intros i node Hi. apply dependency_count_total; [done|by eapply list_elem_of_lookup_2]. }
  exists deps. split; [done|]. by apply run_imap_Ret in Hd as [? _].
Qed.

(** The largest factor bounds all. *)
Lemma max_list_ge l x : x ∈ l → x ≤ max_list l.
Proof. induction 1 as [|y x l _ IH]; cbn; lia. Qed.

Lemma total_tasks_split cache : total_tasks cache + total_cond_tasks cache = nat_sum (ce_factor <$> cache).
Proof.
  unfold total_tasks, total_cond_tasks. induction cache as [|e cache IH]; [done|]. rewrite !filter_cons, fmap_cons.
  change (nat_sum (?a :: ?b)) with (a + nat_sum b). rewrite <- IH.
  destruct (ce_is_condition e); [rewrite decide_False, decide_True by done|rewrite decide_True, decide_False by done];
    rewrite fmap_cons; change (nat_sum (?a :: ?b)) with (a + nat_sum b); lia.
Qed.

Section compile.
Context `{FuncReg} `{AffinityLookup}.
Variables (g : Graph) (objs : list (list CmTypes)).

#[local] Notation is_net node := (String.eqb (n_name node) "$network").

(** The functions, objects and nodes that are named exist; the virtual node has neither
    arguments nor a condition. *)
Record compilable : Prop := {
  cb_net : ∀ s node, g_nodes g !! s = Some node → is_net node = true → n_args node = [] ∧ n_condition node = None;
  cb_funcs : ∀ s node, g_nodes g !! s = Some node → is_net node = false →
    is_Some (get_func (n_func_name node)) ∧ ∀ c, n_condition node = Some c → is_Some (get_func (nc_func_name c));
  cb_objects : ∀ s node, g_nodes g !! s = Some node →
    (∀ a, a ∈ kept_args true (n_args node) → objects_ok objs a)
    ∧ ∀ c a, n_condition node = Some c → a ∈ kept_args false (nc_args c) → objects_ok objs a;
  cb_results : ∀ s node a q, g_nodes g !! s = Some node → (a ∈ n_args node ∨ ∃ c, n_condition node = Some c ∧ a ∈ nc_args c) →
    a_type a = CmRes q → q < length (g_nodes g);
}.

(** ** What the passes compute, from the graph *)

(** No successor has a condition of its own. *)
Definition resolvable (s : nat) : bool :=
  forallb (λ q, match g_nodes g !! q with Some node => is_none (n_condition node) | None => true end) (succs_of g s).

(** Some successor reads the results, as an argument or in its condition. *)
Definition results_read (s : nat) : bool :=
  existsb (λ q, match g_nodes g !! q with Some node => succ_reads_result s node | None => false end) (succs_of g s).

(** The node reads one result, instance by instance. *)
Definition fans_out (s : nat) (node : Node) : bool :=
  resolvable s && negb (bool_decide (s ∈ g_condition_nodes g)) && negb (is_net node)
  && negb (existsb is_barrier (n_args node))
  && match filter (λ a, is_result (a_type a) = true) (n_args node) with
     | [a] => match a_predecessor a with
              | Some pred => match g_nodes g !! p_id pred with
                             | Some pred_node => (n_factor pred_node =? n_factor node) && (1 <? n_factor node) && negb (is_net pred_node)
                             | None => false
                             end
              | None => false
              end
     | _ => false
     end.

(** The entry of node [s]. *)
Record entry_ok (s : nat) (node : Node) (e : NodeCacheEntry) : Prop := {
  eo_factor : ce_factor e = n_factor node;
  eo_name : ce_name e = n_name node;
  eo_initial : ce_is_initial e = bool_decide (s ∈ g_initial_nodes g);
  eo_condition : ce_is_condition e = bool_decide (s ∈ g_condition_nodes g);
  eo_node_condition : is_some (ce_node_condition e) = is_some (n_condition node);
  eo_successors : ce_successor_count e = length (succs_of g s);
  eo_resolvable : ce_worker_resolvable e = resolvable s;
  eo_store : ce_needs_result_store e = results_read s;
  eo_fanout : ce_is_fanout_bulk e = fans_out s node;
  eo_class : ce_priority e = priority_of (n_priority node) ∧ ce_affinity_group e = get_affinity_group (n_use_workers node);
  eo_func : is_net node = false → get_func (n_func_name node) = Some (ce_func_ptr e) ∧ ce_bulk_func e = get_bulk_func (n_func_name node);
  eo_args : is_net node = false → ∃ c preds rps, build_arg_cache (n_args node) objs true = Ret (c, preds)
    ∧ build_res_preds g s node (n_args node) true = Ret rps ∧ ce_arg_cache e = set_res_predecessors rps c;
  eo_net : is_net node = true → ce_arg_cache e = ArgCache_default;
}.

(** ** The first pass *)

Context (Hwf : graph_wf g) (Hex : preds_exist g) (Hco : compilable).

Record first_ok (s : nat) (node : Node) (e : NodeCacheEntry) : Prop := {
  fo_factor : ce_factor e = n_factor node;
  fo_name : ce_name e = n_name node;
  fo_initial : ce_is_initial e = bool_decide (s ∈ g_initial_nodes g);
  fo_condition : ce_is_condition e = bool_decide (s ∈ g_condition_nodes g);
  fo_node_condition : is_some (ce_node_condition e) = is_some (n_condition node);
  fo_rest : ce_successor_count e = 0 ∧ ce_worker_resolvable e = false ∧ ce_needs_result_store e = false ∧ ce_is_fanout_bulk e = false;
  fo_func : is_net node = false → get_func (n_func_name node) = Some (ce_func_ptr e) ∧ ce_bulk_func e = get_bulk_func (n_func_name node);
  fo_args : is_net node = false → ∃ preds, build_arg_cache (n_args node) objs true = Ret (ce_arg_cache e, preds);
  fo_net : is_net node = true → ce_arg_cache e = ArgCache_default;
}.

Lemma mem_decide x l : mem x l = bool_decide (x ∈ l).
Proof. unfold mem. by case_decide; [rewrite bool_decide_true|rewrite bool_decide_false]. Qed.

Lemma net_entry s node : g_nodes g !! s = Some node → is_net node = true →
  bool_decide (s ∈ g_initial_nodes g) = false ∧ bool_decide (s ∈ g_condition_nodes g) = false.
Proof.
  intros Hs Hn. destruct (cb_net Hco s node Hs Hn) as [Ha Hc]. split; apply bool_decide_false.
  - intros (nd & Hs' & _ & Hne)%(gw_initial g Hwf). rewrite Hs in Hs'. injection Hs' as <-. by apply String.eqb_eq in Hn.
  - intros (nd & Hs' & Hcond)%(gw_condition g Hwf). rewrite Hs in Hs'. injection Hs' as <-. rewrite Ha, Hc in Hcond. by destruct Hcond.
Qed.

Lemma condition_cache_total node : (∀ c, n_condition node = Some c → is_Some (get_func (nc_func_name c))) →
  (∀ c a, n_condition node = Some c → a ∈ kept_args false (nc_args c) → objects_ok objs a) →
  ∃ o, build_condition_cache node objs = Ret o ∧ is_some o = is_some (n_condition node).
Proof.
  intros Hf Ho. unfold build_condition_cache. destruct (n_condition node) as [c|]; [|by exists None].
  destruct (build_arg_cache_inv (nc_args c) objs false (λ a, Ho c a eq_refl)) as (st & -> & _). cbn [run_bind].
  destruct (Hf c eq_refl) as [f Hc]. unfold resolve_func. rewrite Hc. by eexists.
Qed.

Lemma node_entry_ok s node : g_nodes g !! s = Some node →
  ∃ e, node_cache_entry node objs (g_initial_nodes g) (g_condition_nodes g) = Ret e ∧ first_ok s node e.
Proof.
  intros Hs. unfold node_cache_entry. destruct (is_net node) eqn:Hn.
  - destruct (net_entry s node Hs Hn) as [Hi Hc]. destruct (cb_net Hco s node Hs Hn) as [_ Hcn].
    eexists. split; [done|]. split; cbn; try done; by rewrite ?Hi, ?Hc, ?Hcn, ?Hn.
  - destruct (cb_objects Hco s node Hs) as [Ho Hoc]. destruct (cb_funcs Hco s node Hs Hn) as [[f Hf] Hfc].
    destruct (build_arg_cache_inv (n_args node) objs true Ho) as (st & Hst & _). rewrite Hst. cbn [run_bind].
    unfold resolve_func. rewrite Hf. cbn [unwrap run_bind].
    destruct (condition_cache_total node Hfc Hoc) as (o & Hc & Hsome). rewrite Hc. cbn [run_bind].
    eexists. split; [done|]. rewrite (gw_ids g Hwf s node Hs), !mem_decide.
    split; cbn; try done; [intros _; by eexists|by rewrite Hn].
Qed.
(** ** The passes that follow *)

(** A pass keeps along the nodes what it keeps at each node. *)
Definition along (P : nat → Node → NodeCacheEntry → Prop) (c : list NodeCacheEntry) : Prop :=
  length c = length (g_nodes g) ∧ ∀ s node e, g_nodes g !! s = Some node → c !! s = Some e → P s node e.

Lemma along_node P c s e : along P c → c !! s = Some e → ∃ node, g_nodes g !! s = Some node ∧ P s node e.
Proof.
  intros [Hl HP] He. destruct (lookup_lt_is_Some_2 (g_nodes g) s) as [node Hn]; [rewrite <- Hl; by eapply lookup_lt_Some|].
  exists node. eauto.
Qed.

Lemma along_entry P c s node : along P c → g_nodes g !! s = Some node → ∃ e, c !! s = Some e ∧ P s node e.
Proof.
  intros [Hl HP] Hs. destruct (lookup_lt_is_Some_2 c s) as [e He]; [rewrite Hl; by eapply lookup_lt_Some|]. exists e. eauto.
Qed.

Lemma along_pass (P Q : nat → Node → NodeCacheEntry → Prop) f c : along P c →
  (∀ s node e, g_nodes g !! s = Some node → P s node e → ∃ e', f s e = Ret e' ∧ Q s node e') →
  ∃ c', run_imap f 0 c = Ret c' ∧ along Q c'.
Proof.
  intros HP Hf. destruct (run_imap_total f 0 c) as [c' Hc'].
  { intros s e He. destruct (along_node P c s e HP He) as (node & Hn & Hp). destruct (Hf s node e Hn Hp) as (e' & ? & _). by exists e'. }
  exists c'. split; [done|]. apply run_imap_Ret in Hc' as [Hl Hp]. split; [rewrite Hl; apply HP|].
  intros s node e' Hs He'. destruct (along_entry P c s node HP Hs) as (e & He & HPe).
  destruct (Hp s e He) as (e1 & He1 & Hfe). cbn in Hfe. rewrite He' in He1. injection He1 as <-.
  destruct (Hf s node e Hs HPe) as (e2 & Hf2 & HQ). rewrite Hfe in Hf2. by injection Hf2 as <-.
Qed.

Lemma along_imap (P Q : nat → Node → NodeCacheEntry → Prop) f c : along P c →
  (∀ s node e, g_nodes g !! s = Some node → P s node e → Q s node (f s e)) → along Q (imap f c).
Proof.
  intros HP Hf. split; [rewrite length_imap; apply HP|]. intros s node e' Hs. rewrite list_lookup_imap.
  intros (e & He & ->)%fmap_Some. apply Hf; [done|]. by apply HP.
Qed.

Lemma succs_exist s q : q ∈ succs_of g s → ∃ node, g_nodes g !! q = Some node ∧ reads node s.
Proof. by intros ?%(gw_succ g Hwf). Qed.

(** A loop over the successors of a node. *)
Lemma over_succs {A} s (f : list nat → run A) (d : A) : (match g_successors g !! s with Some l => f l | None => Ret d end)
  = match g_successors g !! s with Some _ => f (succs_of g s) | None => Ret d end.
Proof. unfold succs_of. by destruct (g_successors g !! s). Qed.

Lemma resolvable_pass c s : along (λ s node e, is_some (ce_node_condition e) = is_some (n_condition node)) c →
  (match g_successors g !! s with
   | Some succs => allM (λ q, run_map (λ e, is_none (ce_node_condition e)) (vec_get c q)) succs
   | None => Ret true
   end) = Ret (resolvable s).
Proof.
  intros Hc. rewrite over_succs.
  assert (Hall : allM (λ q, run_map (λ e, is_none (ce_node_condition e)) (vec_get c q)) (succs_of g s) = Ret (resolvable s)).
  { apply allM_forallb. intros q (node & Hn & _)%succs_exist. destruct (along_entry _ c q node Hc Hn) as (e & He & Hcond).
    rewrite (vec_get_lookup _ _ _ He), Hn. cbn. unfold is_none. by rewrite Hcond. }
  rewrite Hall. destruct (g_successors g !! s) eqn:Hs; [done|]. unfold resolvable, succs_of. by rewrite Hs.
Qed.

Lemma results_read_pass s :
  (match g_successors g !! s with
   | Some succs => anyM (λ q, run_map (succ_reads_result s) (vec_get (g_nodes g) q)) succs
   | None => Ret false
   end) = Ret (results_read s).
Proof.
  rewrite over_succs.
  assert (Hany : anyM (λ q, run_map (succ_reads_result s) (vec_get (g_nodes g) q)) (succs_of g s) = Ret (results_read s)).
  { apply anyM_Ret. intros q (node & Hn & _)%succs_exist. by rewrite (vec_get_lookup _ _ _ Hn), Hn. }
  rewrite Hany. destruct (g_successors g !! s) eqn:Hs; [done|]. unfold results_read, succs_of. by rewrite Hs.
Qed.

Lemma fanout_pass s node e : g_nodes g !! s = Some node → ce_name e = n_name node →
  ce_worker_resolvable e = resolvable s → ce_is_condition e = bool_decide (s ∈ g_condition_nodes g) → ce_is_fanout_bulk e = false →
  pass_is_fanout_bulk g s e = Ret (if fans_out s node then set_is_fanout_bulk true e else e).
Proof.
  intros Hs Hname Hr Hc Hf. unfold pass_is_fanout_bulk, fans_out. rewrite Hr, Hc, Hname.
  destruct (resolvable s), (bool_decide (s ∈ g_condition_nodes g)), (is_net node); try done. cbn [negb orb andb].
  rewrite (vec_get_lookup _ _ _ Hs). cbn [run_bind]. destruct (existsb is_barrier (n_args node)); [done|]. cbn [negb andb].
  destruct (filter (λ a, is_result (a_type a) = true) (n_args node)) as [|a [|]] eqn:Hfil; try done.
  destruct (a_predecessor a) as [pred|] eqn:Hp; [|done].
  assert (Hin : a ∈ n_args node).
  { assert (Ha : a ∈ filter (λ a, is_result (a_type a) = true) (n_args node)) by (rewrite Hfil; left).
    by apply list_elem_of_filter in Ha as [_ ?]. }
  assert (Hlt : p_id pred < length (g_nodes g)).
  { apply (Hex node); [by eapply list_elem_of_lookup_2|]. apply arg_pred_ids_elem. exists a. split; [done|].
    unfold reads_pred. rewrite Hp. apply Nat.eqb_refl. }
  destruct (vec_get_lt _ _ Hlt) as (pn & -> & ->). cbn [run_bind].
  by destruct ((n_factor pn =? n_factor node) && (1 <? n_factor node) && negb (is_net pn)).
Qed.

Lemma res_preds_total s node args skip : (∀ a q, a ∈ args → a_type a = CmRes q → q < length (g_nodes g)) →
  ∃ rps, build_res_preds g s node args skip = Ret rps.
Proof.
  intros Ha. apply foldM_total. intros v a Hin. destruct (skip && GraphStruct.is_condition a); [by eexists|]. unfold build_res_pred.
  destruct (a_type a) eqn:Ht; cbn [run_bind]; try by eexists. destruct (vec_get_lt _ _ (Ha a _ Hin Ht)) as (? & -> & _). by eexists.
Qed.

(** The fields after the fourth pass. *)
Record mid_ok (s : nat) (node : Node) (e : NodeCacheEntry) : Prop := {
  mo_factor : ce_factor e = n_factor node;
  mo_name : ce_name e = n_name node;
  mo_initial : ce_is_initial e = bool_decide (s ∈ g_initial_nodes g);
  mo_condition : ce_is_condition e = bool_decide (s ∈ g_condition_nodes g);
  mo_node_condition : is_some (ce_node_condition e) = is_some (n_condition node);
  mo_successors : ce_successor_count e = length (succs_of g s);
  mo_resolvable : ce_worker_resolvable e = resolvable s;
  mo_store : ce_needs_result_store e = results_read s;
  mo_fanout : ce_is_fanout_bulk e = fans_out s node;
  mo_func : is_net node = false → get_func (n_func_name node) = Some (ce_func_ptr e) ∧ ce_bulk_func e = get_bulk_func (n_func_name node);
  mo_args : is_net node = false → ∃ preds, build_arg_cache (n_args node) objs true = Ret (ce_arg_cache e, preds);
  mo_net : is_net node = true → ce_arg_cache e = ArgCache_default;
}.

(** The four passes over flags, in one. *)
Definition flagged (s : nat) (node : Node) (e : NodeCacheEntry) : NodeCacheEntry :=
  let e3 := set_needs_result_store (results_read s) (set_worker_resolvable (resolvable s) (pass_successor_count g s e)) in
  if fans_out s node then set_is_fanout_bulk true e3 else e3.

Lemma flagged_ok s node e : first_ok s node e → mid_ok s node (flagged s node e).
Proof.
  intros [? ? ? ? ? (H1 & H2 & H3 & H4) ? ? ?]. unfold flagged, pass_successor_count, succs_of.
  destruct (g_successors g !! s) eqn:Hs, (fans_out s node) eqn:Hf; (split; cbn; auto; unfold succs_of; rewrite ?Hs, ?Hf; auto).
Qed.

Lemma flag_passes c0 : along first_ok c0 → ∃ c2 c3 c4,
  run_imap (pass_worker_resolvable g (imap (pass_successor_count g) c0)) 0 (imap (pass_successor_count g) c0) = Ret c2
  ∧ run_imap (pass_needs_result_store g) 0 c2 = Ret c3 ∧ run_imap (pass_is_fanout_bulk g) 0 c3 = Ret c4 ∧ along mid_ok c4.
Proof.
  intros A0.
  assert (A1 : along (λ s node e, ∃ e0, first_ok s node e0 ∧ e = pass_successor_count g s e0) (imap (pass_successor_count g) c0)).
  { eapply along_imap; [exact A0|]. intros s node e _ He. by exists e. }
  set (c1 := imap (pass_successor_count g) c0) in *.
  assert (Hcond : along (λ s node e, is_some (ce_node_condition e) = is_some (n_condition node)) c1).
  { split; [apply A1|]. intros s node e Hs He. destruct (proj2 A1 s node e Hs He) as (e0 & Hok & ->).
    rewrite <- (fo_node_condition _ _ _ Hok). unfold pass_successor_count. by destruct (g_successors g !! s). }
  destruct (along_pass _ (λ s node e, ∃ e0, first_ok s node e0 ∧ e = set_worker_resolvable (resolvable s) (pass_successor_count g s e0))
    (pass_worker_resolvable g c1) c1 A1) as (c2 & Hc2 & A2).
  { intros s node e Hs (e0 & Hok & ->). unfold pass_worker_resolvable. rewrite (resolvable_pass c1 s Hcond). cbn [run_bind].
    eexists. split; [done|]. by exists e0. }
  destruct (along_pass _ (λ s node e, ∃ e0, first_ok s node e0
      ∧ e = set_needs_result_store (results_read s) (set_worker_resolvable (resolvable s) (pass_successor_count g s e0)))
    (pass_needs_result_store g) c2 A2) as (c3 & Hc3 & A3).
  { intros s node e Hs (e0 & Hok & ->). unfold pass_needs_result_store. rewrite (results_read_pass s). cbn [run_bind].
    eexists. split; [done|]. by exists e0. }
  destruct (along_pass _ mid_ok (pass_is_fanout_bulk g) c3 A3) as (c4 & Hc4 & A4).
  { intros s node e Hs (e0 & Hok & ->). exists (flagged s node e0). split; [|by apply flagged_ok]. unfold flagged.
    destruct Hok as [? ? ? ? ? (_ & _ & _ & ?) ? ? ?].
    apply fanout_pass; unfold pass_successor_count; destruct (g_successors g !! s); auto. }
  by exists c2, c3, c4.
Qed.

(** The entry of every node. *)
Lemma build_node_cache_ok td : ∃ cache, build_node_cache g objs td = Ret cache ∧ along entry_ok cache.
Proof.
  destruct (run_imap_total (λ _ node, node_cache_entry node objs (g_initial_nodes g) (g_condition_nodes g)) 0 (g_nodes g)) as [c0 Hc0].
  { intros s node Hs. destruct (node_entry_ok s node Hs) as (e & ? & _). by exists e. }
  assert (A0 : along first_ok c0).
  { apply run_imap_Ret in Hc0 as [Hl Hp]. split; [done|]. intros s node e Hs He.
    destruct (Hp s node Hs) as (e' & He' & Hf). rewrite He in He'. injection He' as <-.
    destruct (node_entry_ok s node Hs) as (e1 & H1 & Hok). rewrite Hf in H1. by injection H1 as ->. }
  destruct (flag_passes c0 A0) as (c2 & c3 & c4 & Hc2 & Hc3 & Hc4 & A4).
  destruct (along_pass mid_ok (λ s node e, ∃ e0, mid_ok s node e0
      ∧ e = set_sched_class (priority_of (n_priority node)) (get_affinity_group (n_use_workers node)) e0)
    (pass_sched_class g) c4 A4) as (c5 & Hc5 & A5).
  { intros s node e Hs He. unfold pass_sched_class. rewrite (vec_get_lookup _ _ _ Hs). cbn [run_bind]. eexists. split; [done|]. by exists e. }
  destruct (along_pass _ entry_ok (pass_res_predecessors g) c5 A5) as (c6 & Hc6 & A6).
  { intros s node e Hs (e0 & He0 & ->). unfold pass_res_predecessors. rewrite (vec_get_lookup _ _ _ Hs). cbn [run_bind].
    destruct (res_preds_total s node (n_args node) true) as [rps Hrps]; [intros a q Ha; by eapply (cb_results Hco); [|left]|].
    rewrite Hrps. cbn [run_bind].
    assert (Hcond : ∃ o, (match n_condition node with
                          | Some c => run_map Some (build_res_preds g s node (nc_args c) false)
                          | None => Ret None end) = Ret o).
    { destruct (n_condition node) as [c|] eqn:Hc; [|by eexists].
      destruct (res_preds_total s node (nc_args c) false) as [cps Hcps]; [|rewrite Hcps; by eexists].
      intros a q Ha. eapply (cb_results Hco); [done|right; by exists c]. }
    destruct Hcond as [o ->]. cbn [run_bind]. eexists. split; [done|]. destruct He0. split; cbn; auto.
    - rewrite <- mo_node_condition0. by destruct (ce_node_condition e0), o.
    - intros Hn. destruct (mo_args0 Hn) as [preds ?]. by exists (ce_arg_cache e0), preds, rps.
    - intros Hn. rewrite (mo_net0 Hn). rewrite (proj1 (cb_net Hco s node Hs Hn)) in Hrps. by injection Hrps as <-. }
  exists (pass_template_stable td <$> c6). split.
  - unfold build_node_cache. rewrite Hc0. cbn [run_bind]. rewrite Hc2. cbn [run_bind]. rewrite Hc3. cbn [run_bind].
    rewrite Hc4. cbn [run_bind]. rewrite Hc5. cbn [run_bind]. by rewrite Hc6.
  - destruct A6 as [Hl A6]. split; [by rewrite length_fmap|]. intros s node e Hs. rewrite list_lookup_fmap.
    intros (e0 & He0 & ->)%fmap_Some. by destruct (A6 s node e0 Hs He0).
Qed.
End compile.

Section compiled.
Context `{FuncReg} `{AffinityLookup}.

(** The compilation of a graph whose functions, objects and predecessors exist. *)
Lemma compile_ok (spec : GraphSpec) (td r1 : bool) : let g := spec_graph spec in
  graph_wf g → preds_exist g → compilable g (spec_init_objects spec) → (Z.of_nat (nat_sum (length <$> g_successors g)) < two32)%Z →
  ∃ gc, compile td r1 spec = Ret gc ∧ gc_graph gc = g ∧ gc_init_objects gc = spec_init_objects spec
    ∧ gc_num_nodes gc = length (g_nodes g)
    ∧ along g (entry_ok g (spec_init_objects spec)) (gc_node_cache gc)
    ∧ build_predecessor_tables r1 g = Ret (gc_tables gc)
    ∧ arena_build (g_successors g) (length (g_nodes g)) (gc_node_cache gc) (gc_tables gc) = Ret (gc_successor_arena gc)
    ∧ dependency_count_vec g = Ret (gc_dependency_count_vec gc)
    ∧ gc_total_tasks gc = total_tasks (gc_node_cache gc) ∧ gc_total_cond_tasks gc = total_cond_tasks (gc_node_cache gc)
    ∧ gc_max_factor gc = max_factor_of (gc_node_cache gc).
Proof.
  intros g Hwf Hex Hco Hfit. unfold compile. fold g.
  destruct (build_node_cache_ok g (spec_init_objects spec) Hwf Hex Hco td) as (cache & Hc & Hal). rewrite Hc. cbn [run_bind].
  destruct (build_tables_spec r1 g (gw_ids g Hwf) Hex) as (t & Ht & Hdim & _). rewrite Ht. cbn [run_bind].
  destruct (arena_build_spec (length (g_nodes g)) (g_successors g) cache t Hdim (proj1 Hal)) as (a & Ha & _); [|done|].
  { intros p q (node & Hq & _)%(gw_succ g Hwf). by eapply lookup_lt_Some. }
  rewrite Ha. cbn [run_bind]. destruct (dependency_counts_total g Hex) as (deps & Hd & _). rewrite Hd. cbn [run_bind].
  eexists. split; [done|]. by split_and!.
Qed.

(** The edge that the graph describes between two nodes. *)
Definition edge_of_graph (r1 : bool) (g : Graph) (p s : nat) (e : SuccEdge) : Prop :=
  ∃ node r, g_nodes g !! s = Some node ∧ edge_route r1 g node p = Ret r
    ∧ e = edge_with s (bool_decide (s ∈ g_condition_nodes g)) (fans_out g s node) (n_factor node) r.

(** The instances of the nodes, of those with or without a place in a list. *)
Definition instances_in (l : list nat) (g : Graph) : nat := nat_sum (imap (λ s node, if bool_decide (s ∈ l) then n_factor node else 0) (g_nodes g)).
Definition instances_out (l : list nat) (g : Graph) : nat := nat_sum (imap (λ s node, if bool_decide (s ∈ l) then 0 else n_factor node) (g_nodes g)).

(** The sum over the entries that the passes select by their condition. *)
Lemma counted_along (b : bool) (l : list nat) (cache : list NodeCacheEntry) (nodes : list Node) (off : nat) :
  length cache = length nodes →
  (∀ s node e, nodes !! s = Some node → cache !! s = Some e → ce_factor e = n_factor node ∧ ce_is_condition e = bool_decide (off + s ∈ l)) →
  nat_sum (ce_factor <$> filter (λ e, ce_is_condition e = b) cache)
  = nat_sum (imap (λ s node, if bool_decide (bool_decide (off + s ∈ l) = b) then n_factor node else 0) nodes).
Proof.
  revert cache off. induction nodes as [|node nodes IH]; intros [|e cache] off Hl He; try done. cbn [imap].
  destruct (He 0 node e eq_refl eq_refl) as [Hf Hc]. rewrite Nat.add_0_r in Hc |- *. rewrite filter_cons. change (nat_sum (?a :: ?b)) with (a + nat_sum b).
  rewrite (imap_ext _ (λ s node, if bool_decide (bool_decide (S off + s ∈ l) = b) then n_factor node else 0)).
  2:{ intros s node' _. cbn. by rewrite Nat.add_succ_r. }
  rewrite <- (IH cache (S off)); [|by injection Hl|].
  - rewrite Hc. destruct (decide (bool_decide (off ∈ l) = b)) as [E|E]; [rewrite (bool_decide_true _ E)|by rewrite (bool_decide_false _ E)].
    rewrite fmap_cons. change (nat_sum (?a :: ?b)) with (a + nat_sum b). by rewrite Hf.
  - intros s node' e' Hs He'. specialize (He (S s) node' e' Hs He'). by rewrite Nat.add_succ_r in He.
Qed.

(** The edges in the arena of a compiled graph. *)
Lemma compiled_edges g objs r1 gc p : graph_wf g → preds_exist g → (Z.of_nat (nat_sum (length <$> g_successors g)) < two32)%Z →
  along g (entry_ok g objs) (gc_node_cache gc) → build_predecessor_tables r1 g = Ret (gc_tables gc) →
  arena_build (g_successors g) (length (g_nodes g)) (gc_node_cache gc) (gc_tables gc) = Ret (gc_successor_arena gc) →
  p < length (g_nodes g) → ∃ es, edges_for (gc_successor_arena gc) p = Ret es ∧ Forall2 (edge_of_graph r1 g p) (succs_of g p) es.
Proof.
  intros Hwf Hex Hfit Hal Ht Ha Hp. destruct (build_tables_spec r1 g (gw_ids g Hwf) Hex) as (t & Ht' & Hdim & Hroute). rewrite Ht in Ht'. injection Ht' as <-.
  assert (Hlt : ∀ q s, s ∈ succs_of g q → s < length (g_nodes g)).
  { intros q s (node & Hs & _)%(gw_succ g Hwf). by eapply lookup_lt_Some. }
  destruct (arena_build_spec _ (g_successors g) _ _ Hdim (proj1 Hal) Hlt Hfit) as (a & Ha' & Hes & _).
  rewrite Ha in Ha'. injection Ha' as <-. destruct (Hes p Hp) as (es & Hedges & Hmade%edges_of_made & _). exists es. split; [done|].
  apply Forall2_same_length_lookup. split; [by eapply Forall2_length|]. intros i s e Hs He.
  pose proof (proj1 (Forall2_lookup _ _ _) Hmade i) as Hi. unfold succs_of in Hs. rewrite Hs, He in Hi. inversion Hi as [? ? Hmk|]; subst.
  assert (Hin : s ∈ succs_of g p) by by eapply list_elem_of_lookup_2.
  destruct (proj1 (gw_succ g Hwf p s) Hin) as (node & Hnode & Hreads). destruct (along_entry _ _ _ _ _ Hal Hnode) as (entry & Hentry & Hok).
  rewrite (make_edge_at _ _ _ _ _ entry Hdim (proj1 Hal) (Hlt p s Hin) Hp Hentry) in Hmk. injection Hmk as <-.
  specialize (Hroute s node p Hnode). rewrite decide_True in Hroute by (by apply preds_of_elem).
  exists node, (route_at (gc_tables gc) s p). split; [done|]. split; [done|].
  by rewrite (eo_condition _ _ _ _ _ Hok), (eo_fanout _ _ _ _ _ Hok), (eo_factor _ _ _ _ _ Hok).
Qed.

Lemma max_list_in l : l ≠ [] → max_list l ∈ l.
Proof.
  induction l as [|x l IH]; intros Hl; [done|]. change (max_list (x :: l)) with (Nat.max x (max_list l)).
  destruct l as [|y l]; [cbn; rewrite Nat.max_0_r; left|]. destruct (Nat.max_spec x (max_list (y :: l))) as [[_ ->]|[_ ->]]; [right; by apply IH|left].
Qed.

Lemma max_factor_along g objs gc : along g (entry_ok g objs) (gc_node_cache gc) → gc_max_factor gc = max_factor_of (gc_node_cache gc) →
  (∀ s node, g_nodes g !! s = Some node → n_factor node ≤ gc_max_factor gc)
  ∧ (g_nodes g = [] ∧ gc_max_factor gc = 1 ∨ ∃ s node, g_nodes g !! s = Some node ∧ n_factor node = gc_max_factor gc).
Proof.
  intros Hal ->. unfold max_factor_of. destruct (gc_node_cache gc) as [|e0 l0] eqn:Hcache.
  { pose proof (proj1 Hal) as Hl. destruct (g_nodes g); [|done]. split; [done|by left]. }
  rewrite <- Hcache. split.
  - intros s node Hs. destruct (along_entry _ _ _ _ _ Hal Hs) as (e & He & Hok). rewrite <- (eo_factor _ _ _ _ _ Hok).
    apply max_list_ge, list_elem_of_fmap. exists e. split; [done|]. rewrite Hcache. by eapply list_elem_of_lookup_2.
  - right. destruct (proj1 (list_elem_of_fmap _ _ _) (max_list_in (ce_factor <$> gc_node_cache gc) ltac:(by rewrite Hcache))) as (e & Hm & He).
    rewrite Hcache in He. apply list_elem_of_lookup in He as [s He]. destruct (along_node _ _ _ _ _ Hal He) as (node & Hs & Hok).
    exists s, node. split; [done|]. by rewrite Hm, (eo_factor _ _ _ _ _ Hok).
Qed.

(** C4. A well-formed graph whose predecessors, functions and objects exist, and whose edges are
    fewer than 2^32, compiles. The entry of each node holds what the graph says of it: its
    factor, whether it is a root or conditional and whether it has a condition of its own, the
    number of its successors, whether a worker may resolve them, whether any reads its results,
    whether it is released in bulk, its scheduling class, its function and its argument template.
    The arena has exactly one edge per successor, in order, with the route that the arguments of
    the successor ask for: its filter, group and offset, the successor's factor, and whether it is
    conditional and released in bulk. The tasks counted are the instances of the unconditional
    nodes, the conditional tasks those of the conditional ones, and the largest factor is that of
    a node and at least that of any (1 without nodes). *)
Theorem compile_spec (spec : GraphSpec) (td r1 : bool)
    (Hwf : graph_wf (spec_graph spec)) (Hex : preds_exist (spec_graph spec))
    (Hco : compilable (spec_graph spec) (spec_init_objects spec))
    (Hfit : (Z.of_nat (nat_sum (length <$> g_successors (spec_graph spec))) < two32)%Z) :
  ∃ gc, compile td r1 spec = Ret gc ∧ gc_graph gc = spec_graph spec
    ∧ length (gc_node_cache gc) = length (g_nodes (spec_graph spec))
    ∧ (∀ s node, g_nodes (spec_graph spec) !! s = Some node →
         ∃ e, gc_node_cache gc !! s = Some e ∧ entry_ok (spec_graph spec) (spec_init_objects spec) s node e)
    ∧ (∀ p, p < length (g_nodes (spec_graph spec)) →
         ∃ es, edges_for (gc_successor_arena gc) p = Ret es ∧ Forall2 (edge_of_graph r1 (spec_graph spec) p) (succs_of (spec_graph spec) p) es)
    ∧ gc_total_tasks gc = instances_out (g_condition_nodes (spec_graph spec)) (spec_graph spec)
    ∧ gc_total_cond_tasks gc = instances_in (g_condition_nodes (spec_graph spec)) (spec_graph spec)
    ∧ (∀ s node, g_nodes (spec_graph spec) !! s = Some node → n_factor node ≤ gc_max_factor gc)
    ∧ (g_nodes (spec_graph spec) = [] ∧ gc_max_factor gc = 1
       ∨ ∃ s node, g_nodes (spec_graph spec) !! s = Some node ∧ n_factor node = gc_max_factor gc).
Proof.
  destruct (compile_ok spec td r1 Hwf Hex Hco Hfit) as (gc & Hc & Hg & _ & _ & Hal & Ht & Ha & _ & H1 & H2 & H3).
  set (g := spec_graph spec) in *. exists gc. split; [done|]. split; [done|]. split; [apply Hal|].
  assert (Hcount : ∀ s node e, g_nodes g !! s = Some node → gc_node_cache gc !! s = Some e →
    ce_factor e = n_factor node ∧ ce_is_condition e = bool_decide (0 + s ∈ g_condition_nodes g)).
  { intros s node e Hs He. pose proof (proj2 Hal s node e Hs He) as Hok. by rewrite (eo_factor _ _ _ _ _ Hok), (eo_condition _ _ _ _ _ Hok). }
  assert (Hsum : ∀ b, nat_sum (ce_factor <$> filter (λ e, ce_is_condition e = b) (gc_node_cache gc))
    = nat_sum (imap (λ s node, if bool_decide (bool_decide (s ∈ g_condition_nodes g) = b) then n_factor node else 0) (g_nodes g))).
  { intros b. exact (counted_along b _ _ _ 0 (proj1 Hal) Hcount). }
  split; [intros s node Hs; by apply (along_entry _ _ _ _ _ Hal Hs)|]. split; [|split; [|split; [|exact (max_factor_along g _ gc Hal H3)]]].
  - intros p Hp. exact (compiled_edges g _ r1 gc p Hwf Hex Hfit Hal Ht Ha Hp).
  - rewrite H1. unfold total_tasks, instances_out. rewrite (Hsum false). f_equal. apply imap_ext. intros s node _. by destruct (bool_decide (s ∈ _)).
  - rewrite H2. unfold total_cond_tasks, instances_in. rewrite (Hsum true). f_equal. apply imap_ext. intros s node _. by destruct (bool_decide (s ∈ _)).
Qed.
End compiled.

(** ** The file of squares *)

#[local] Existing Instance no_json.

(** Kernels that return how many arguments they got. *)
#[local] Instance len_funcs : FuncReg := {|
  get_func _ := Some (λ args, CmUsize (length args));
  get_bulk_func _ := None; get_func_argspec _ := None; get_func_ret_variant _ := None; get_unchecked_func _ := None |}.
#[local] Instance no_affinity : AffinityLookup := λ _, 0.

Lemma squares_parsed_len : from_graph_file false squares_file 3 = Ret (ROk squares_spec).
Proof. by vm_compute. Qed.

(** The case of a node number: one of three. *)
Ltac three_nodes s H := destruct s as [|[|[|s]]]; cbn in H; [injection H as <-|injection H as <-|injection H as <-|done].

Lemma squares_graph_wf : graph_wf (spec_graph squares_spec) ∧ preds_exist (spec_graph squares_spec).
Proof.
  destruct (from_graph_file_ok false squares_file 3 squares_spec squares_parsed_len) as (ids & _ & Hwf & _ & Hns & _).
  split; [done|]. intros node p (s & Hs)%list_elem_of_lookup Hr. pose proof (lookup_lt_Some _ _ _ Hs).
  pose proof (nodes_of_file_backward _ _ _ _ _ _ _ Hns (gw_ids _ Hwf) _ _ _ Hs Hr). lia.
Qed.

(** The arguments of the three nodes. *)
Lemma squares_args s node a : squares_nodes !! s = Some node → a ∈ n_args node →
  s = 0 ∧ a = mkArg (CmRef 0) None None ∨ s = 1 ∧ a = mkArg (CmRes 0) None (Some (mkPred 0 [0%Z] None))
  ∨ s = 2 ∧ (a = mkArg (CmUsize 7) None None ∨ a = mkArg (CmRes 1) None (Some (mkPred 1 [0; 1; 2; 3]%Z None))).
Proof.
  intros Hs Ha. three_nodes s Hs; cbn in Ha; set_unfold in Ha; naive_solver.
Qed.

Lemma squares_compilable : compilable (spec_graph squares_spec) (spec_init_objects squares_spec).
Proof.
  split.
  - intros s node Hs Hn. by three_nodes s Hs.
  - intros s node Hs _. three_nodes s Hs; (split; [by eexists|done]).
  - intros s node Hs. split; [|by three_nodes s Hs].
    intros a [_ Ha]%list_elem_of_filter. pose proof (squares_args s node a Hs Ha) as Hcases. unfold objects_ok.
    destruct Hcases as [[_ ->]|[[_ ->]|[_ [-> | ->]]]]; cbn; auto with lia.
  - intros s node a q Hs [Ha|(c & Hc & _)] Hq; [|by three_nodes s Hs].
    destruct (squares_args s node a Hs Ha) as [[_ ->]|[[_ ->]|[_ [-> | ->]]]]; cbn in Hq; try done; injection Hq as <-; cbn; lia.
Qed.

Lemma compile_spec_witness : ∃ gc, compile false true squares_spec = Ret gc
  ∧ gc_total_tasks gc = 9 ∧ gc_total_cond_tasks gc = 0 ∧ gc_max_factor gc = 4
  ∧ ∃ e, edges_for (gc_successor_arena gc) 0 = Ret [e] ∧ se_succ_id e = 1 ∧ se_succ_factor e = 4%Z.
Proof.
  destruct squares_graph_wf as [Hwf Hex].
  destruct (compile_spec squares_spec false true Hwf Hex squares_compilable ltac:(vm_compute; done)) as (gc & H1 & _ & _ & _ & H2 & H3 & H4 & H5 & H6).
  exists gc. split; [exact H1|]. split; [exact H3|]. split; [exact H4|]. split.
  - destruct H6 as [[Hn _]|(s & node & Hs & Hf)]; [discriminate Hn|]. specialize (H5 1 _ eq_refl). cbn in H5. rewrite <- Hf in *. clear Hf.
    three_nodes s Hs; cbn in *; lia.
  - destruct (H2 0 ltac:(cbn; lia)) as (es & He & Hall). change (succs_of (spec_graph squares_spec) 0) with [1] in Hall.
    inversion Hall as [|? e ? es' (node & r & Hn & _ & ->) Hnil]; subst. inversion Hnil; subst. eexists. split; [exact He|].
    split; [reflexivity|]. cbn in Hn. injection Hn as <-. reflexivity.
Defined.
