(* ===== verification/Gather.v ===== *)
(** Fan-ins: the argument buffer of a task whose last argument gathers the results of
    several instances, and why in a parsed graph no other argument does. *)
From S2P Require Import Prelude Types GraphStruct Graph NodeCache Tables ResultMap ArgRes Populate Values ObjGen GraphGen GraphGenSpec.
From stdpp Require Import strings gmap.

(** The values a cached dependency contributes: nothing for an ordering dependency, else
    what the cells it reads hold from read [t] on. *)
Definition res_values (obs : nat → World) (tbl : table nat) (t node_index slot pred_index : nat)
    (rp : ResPredCache) (l : list CmTypes) : Prop :=
  if rp_is_dep rp then l = [CmNone]
  else rp_indexes rp ≠ [] ∧ ∃ cells, rp_cells tbl rp node_index pred_index = Ret cells
                                      ∧ Forall2 (stored obs t (rp_res_node_id rp) slot) cells l.

(** The same dependency, for its order only. *)
Definition order_only (rp : ResPredCache) : ResPredCache :=
  mkResPred (rp_node_id rp) (rp_res_node_id rp) (rp_indexes rp) (rp_pred_factor rp) (rp_pred_group_size rp)
    (rp_node_group_size rp) (rp_node_factor rp) true (rp_node_has_barrier rp).

Section gather.
Context (obs : nat → World) (fuel : nat) (ssm : bool) (workers : nat) (tbl : table nat)
  (exec_slot : option nat) (exec_gen : Z).

Lemma collect_res_values rp ni slot pi l t : res_values obs tbl t ni slot pi rp l →
  ∃ t', t <= t' ∧ collect_res_from_cache obs fuel ssm tbl exec_slot exec_gen rp ni slot pi None (false, t)
  = Ret (Some (Some l, (false, t'))).
Proof.
  unfold res_values, collect_res_from_cache, rp_cells. destruct (rp_is_dep rp).
  - intros ->. by exists t.
  - cbn [fst]. intros (Hne & cells & Hc & Hs). apply run_bind_Ret in Hc as (gs & -> & Hc). cbn [run_bind].
    exists (t + length cells). split; [lia|]. rewrite (fetch_res_stored _ _ _ _ _ _ _ _ _ _ _ _ _ _ _ _ l false t Hc) by done.
    by destruct (rp_indexes rp).
Qed.

(** The last dependency comes after those that take one position each. *)
Lemma populate_results_last rps xs ps rp l p ni slot pi buf t :
  Forall2 (res_value obs tbl t ni slot pi) rps xs → length ps = length rps → res_values obs tbl t ni slot pi rp l →
  ∃ t', populate_results obs fuel ssm tbl exec_slot exec_gen buf ni slot pi (zip (ps ++ [p]) (rps ++ [rp])) (false, t)
  = let! v := write_all buf (zip ps xs) in let! w := splice v p l in Ret (Some (w, (false, t'))).
Proof.
  intros Hall. revert ps buf t Hall. induction rps as [|rp0 rps IH] in xs |- *; intros ps buf t Hall Hlen Hl.
  - destruct ps; [|done]. cbn [app zip zip_with populate_results fst]. unfold rd_bind.
    destruct (collect_res_values rp ni slot pi l t Hl) as (t1 & _ & ->). cbn [run_bind]. unfold rd_lift, write_all.
    cbn [foldM run_bind]. exists t1. by destruct (splice buf p l).
  - destruct ps as [|p0 ps]; [done|]. apply Forall2_cons_inv_l in Hall as (x & xs' & Hx & Hall & ->).
    destruct (collect_res_one obs fuel ssm tbl exec_slot exec_gen rp0 ni slot pi x t Hx) as (t1 & Ht1 & Hc).
    cbn [app zip zip_with populate_results fst]. unfold rd_bind. rewrite Hc. cbn [run_bind splice].
    unfold rd_lift, write_all. cbn [foldM fst snd].
    destruct (vec_set buf p0 x) as [b|]; [|by exists t]. cbn [run_map run_bind].
    apply IH; [|by injection Hlen|].
    + eapply Forall2_impl; [done|]. intros rp' y. unfold res_value. destruct (rp_is_dep rp'); [done|].
      intros (cell & ? & ?). exists cell. split; [done|]. by eapply stored_later.
    + revert Hl. unfold res_values. destruct (rp_is_dep rp); [done|]. intros (? & cells & ? & ?). split; [done|].
      exists cells. split; [done|]. eapply Forall2_impl; [done|]. intros ? ?. by apply stored_later.
Qed.

(** A run with a gathering dependency at the end differs from the run in which that one is
    only for its order by the values it puts in its place. *)
Lemma populate_dynamic_last c rps xs rp l ps p ni slot pi wk buf b t v t' :
  ac_res_indexes c = ps ++ [p] → length ps = length rps → length l ≠ 1 →
  Forall2 (res_value obs tbl t ni slot pi) rps xs → res_values obs tbl t ni slot pi rp l →
  populate_dynamic_args_into obs fuel ssm tbl exec_slot exec_gen buf (set_res_predecessors (rps ++ [order_only rp]) c)
    ni slot pi wk (b, t) = Ret (Some (v, (false, t'))) →
  ∃ t'', populate_dynamic_args_into obs fuel ssm tbl exec_slot exec_gen buf (set_res_predecessors (rps ++ [rp]) c)
    ni slot pi wk (b, t) = Ret (Some (take p v ++ l ++ drop (S p) v, (false, t''))).
Proof.
  intros Hps Hlen Hl Hres Hlast. unfold populate_dynamic_args_into, rd_bind, rd_lift. cbn [snd].
  change (process_buffer_refs buf (set_res_predecessors (rps ++ [order_only rp]) c) ni)
    with (process_buffer_refs buf (set_res_predecessors (rps ++ [rp]) c) ni).
  destruct (process_buffer_refs buf (set_res_predecessors (rps ++ [rp]) c) ni) as [b1|]; [|done]. cbn [run_map run_bind].
  change (process_runtime_refs b1 (set_res_predecessors (rps ++ [order_only rp]) c) ni wk)
    with (process_runtime_refs b1 (set_res_predecessors (rps ++ [rp]) c) ni wk).
  destruct (process_runtime_refs b1 (set_res_predecessors (rps ++ [rp]) c) ni wk) as [b2|]; [|done]. cbn [run_map run_bind].
  cbn [set_res_predecessors ac_res_indexes ac_res_predecessors]. rewrite Hps.
  destruct (populate_results_last rps xs ps rp l p ni slot pi b2 t Hres Hlen Hlast) as (t1 & ->).
  destruct (populate_results_last rps xs ps (order_only rp) [CmNone] p ni slot pi b2 t Hres Hlen eq_refl) as (t2 & ->).
  destruct (write_all b2 (zip ps xs)) as [b3|]; [|done]. cbn [run_bind splice].
  intros (w & (Hp & ->)%vec_set_Ret & [= <- <-])%run_bind_Ret. exists t1.
  unfold splice. destruct l as [|x [|y l]]; [|done|].
  all: rewrite decide_True by done; cbn [run_bind]; rewrite take_insert_ge, drop_insert_lt by lia; done.
Qed.
End gather.

(** ** The buffer *)

Section whole.
Context (obs : nat → World) (fuel : nat) (ssm : bool) (workers : nat) (tbl : table nat)
  (exec_slot : option nat) (exec_gen : Z).
Context (g : Graph) (id : nat) (node : Node) (objs : list (list CmTypes)) (c : ArgCacheEntry).

Lemma res_positions_snoc k l a : res_positions k (l ++ [a]) = res_positions k l ++ (if res_like a then [k + length l] else []).
Proof.
  revert k. induction l as [|x l IH]; intros k; cbn [app res_positions length].
  - rewrite Nat.add_0_r. by destruct (res_like a).
  - rewrite IH, Nat.add_succ_r. by destruct (res_like x).
Qed.

(** What a task finds when its last argument gathers: the arguments before it keep their
    positions and hold what they ask for, and from its own position on the buffer holds
    the results of the gathered instances, in the order of the declared indexes. *)
Theorem gather_at_the_end preds rps xs rp l args a ni slot pi b t
    (Hargs : kept_args true (n_args node) = args ++ [a]) (Hres_like : res_like a = true)
    (Hobj : ∀ a', a' ∈ kept_args true (n_args node) → objects_ok objs a')
    (Hcache : build_arg_cache (n_args node) objs true = Ret (c, preds))
    (Hpreds : build_res_preds g id node (n_args node) true = Ret (rps ++ [rp]))
    (Hres : Forall2 (res_value obs tbl t ni slot pi) rps xs)
    (Hlast : res_values obs tbl t ni slot pi rp l) (Hl : length l ≠ 1) :
  ∃ v t', populate_cached_args_into obs fuel ssm workers tbl exec_slot exec_gen [] (set_res_predecessors (rps ++ [rp]) c)
            ni slot pi (b, t) = Ret (Some (v, (false, t')))
    ∧ S (length v) = length (n_args node) + length l
    ∧ take (length l) (drop (length args) v) = l
    ∧ ∀ pos a', args !! pos = Some a' →
        ∃ x, v !! pos = Some x ∧ arg_gets obs tbl objs g id node t ni slot pi workers a' x.
Proof.
  rewrite populate_cached_dynamic. set (wk := match ac_rt_workers_indexes c with [] => 0 | _ => workers end).
  pose proof (build_arg_cache_res _ _ _ _ _ Hcache) as Hri. rewrite Hargs, res_positions_snoc, Hres_like in Hri. cbn in Hri.
  pose proof (build_res_preds_spec _ _ _ _ _ _ Hpreds) as Hrps.
  assert (Hlen : length (res_positions 0 args) = length rps).
  { pose proof (Forall2_length _ _ _ Hrps) as Hl2. rewrite Hargs in Hl2. rewrite length_res_positions.
    rewrite filter_app, !length_app in Hl2. rewrite filter_cons_True in Hl2 by done. cbn in Hl2. lia. }
  destruct (populate_written obs fuel ssm workers tbl exec_slot exec_gen node objs c (rps ++ [order_only rp]) preds
              (xs ++ [CmNone]) ni slot pi (ac_args c) b t Hobj Hcache) as (v & t1 & Hp & Hvl & Hw).
  { rewrite Hri, !length_app. cbn. lia. } { apply Forall2_app; [done|]. by repeat constructor. } { done. }
  destruct (populate_dynamic_last obs fuel ssm tbl exec_slot exec_gen c rps xs rp l _ _ ni slot pi wk (ac_args c) b t v t1
              Hri Hlen Hl Hres Hlast Hp) as (t2 & Hp2).
  assert (Hin : length args < length (n_args node)).
  { assert (Hk : length (kept_args true (n_args node)) ≤ length (n_args node)) by apply length_filter.
    rewrite Hargs, length_app in Hk. cbn in Hk. lia. }
  exists (take (length args) v ++ l ++ drop (S (length args)) v), t2. split; [done|].
  assert (Ht : length (take (length args) v) = length args) by (rewrite length_take; lia).
  split; [rewrite !length_app, Ht, length_drop; lia|]. split.
  { rewrite <- Ht at 1. by rewrite drop_app_length, take_app_length. }
  intros pos a' Ha'. pose proof (lookup_lt_Some _ _ _ Ha') as Hpos.
  assert (Hv : ∀ x, v !! pos = Some x → (take (length args) v ++ l ++ drop (S (length args)) v) !! pos = Some x).
  { intros x Hx. apply lookup_app_l_Some. by apply lookup_take_Some. }
  assert (Hxs : length (xs ++ [CmNone]) = length (rps ++ [rp])) by (rewrite !length_app; by rewrite (Forall2_length _ _ _ Hres)).
  pose proof (written_args obs workers tbl g id node objs c (rps ++ [rp]) preds t slot pi ni _ v Hobj Hcache Hpreds Hxs Hw
                pos a') as Hv2. rewrite Hargs in Hv2. specialize (Hv2 (lookup_app_l_Some _ _ _ _ Ha')).
  destruct (res_like a') eqn:Hlike; [|destruct Hv2 as (x & ? & ?); exists x; auto].
  destruct Hv2 as (k & rp' & x & Hk & Hrp' & Hx & Hvx & Hb). exists x. split; [auto|].
  assert (Hkl : k < length rps).
  { destruct (decide (k < length rps)); [done|]. rewrite Hri, lookup_app_r in Hk by lia.
    apply list_lookup_singleton_Some in Hk as [_ Hk]. lia. }
  rewrite lookup_app_l in Hrp' by done. rewrite lookup_app_l in Hx by (rewrite <- (Forall2_length _ _ _ Hres); done).
  pose proof (Forall2_lookup_lr _ _ _ _ _ _ Hres Hrp' Hx). unfold res_like in Hlike. unfold arg_gets.
  destruct (a_type a'); try discriminate Hlike; by exists rp'.
Qed.
End whole.

(** ** In a parsed graph only the last argument gathers *)

Lemma check_layout_ok name factor layout : ∀ pos, check_layout name factor pos layout = ROk tt →
  ∀ i a, layout !! i = Some a → S i < length layout → multi_value factor a = None.
Proof.
  induction layout as [|b layout IH]; intros pos; [done|]. cbn [check_layout].
  intros Hc [|i] a Ha Hi; cbn in Ha, Hi.
  - injection Ha as ->. destruct layout; [cbn in Hi; lia|]. by destruct (multi_value factor a).
  - eapply (IH (S pos)); [|done|lia]. by destruct (multi_value factor b), layout.
Qed.

(** A dependency that is not multi-valued reads one cell at most. *)
Lemma cells_read_single indexes ni pi factor pf ngs pgs hb cells :
  (1 <? length indexes) && negb (length indexes =? factor) = false →
  cells_read indexes ni pi factor pf ngs pgs hb = Ret cells → length cells ≤ 1.
Proof.
  destruct indexes as [|z [|z' l]]; cbn [cells_read].
  - intros _ [= <-]. cbn. lia.
  - intros _ (x & _ & [= <-])%run_bind_Ret. cbn. lia.
  - intros [Hm|Hm]%andb_false_iff; [done|]. apply negb_false_iff in Hm. rewrite Hm. intros (x & _ & [= <-])%run_bind_Ret. cbn. lia.
Qed.

(** What the check of the parser is for: in the graph of a file that parses, an argument
    that is not the last one of its node and is not grouped reads one cell at most,
    whatever instance runs, so that no result is put over the arguments behind it. *)
Theorem only_last_argument_gathers `{JsonComplex} `{FuncReg} network gf workers spec s node pos a rp tbl ni pi cells
    (Hparse : from_graph_file network gf workers = Ret (ROk spec))
    (Hnode : g_nodes (spec_graph spec) !! s = Some node)
    (Harg : kept_args true (n_args node) !! pos = Some a) (Hpos : S pos < length (kept_args true (n_args node)))
    (Hgroup : ∀ p, a_predecessor a = Some p → p_group_by p = None)
    (Hrp : build_res_pred (spec_graph spec) s node a = Ret (Some rp)) (Hdep : rp_is_dep rp = false)
    (Hcells : rp_cells tbl rp ni pi = Ret cells) :
  length cells ≤ 1.
Proof.
  destruct (from_graph_file_ok _ _ _ _ Hparse) as (ids & _ & Hwf & _ & Hns & _).
  assert (Hlayout : validate_res_arg_layout (n_name node) (n_args node) (n_factor node) = ROk tt).
  { revert s node Hnode Harg Hpos Hrp. refine (λ s node Hnode _ _ _, nodes_of_file_forall _ _ _
      (λ node, validate_res_arg_layout (n_name node) (n_args node) (n_factor node) = ROk tt) _ _ _ _ Hns (gw_ids _ Hwf) _ _ s node Hnode);
      [done|]. by intros names nj nd id _ (_ & _ & _ & Hv & _)%parse_single_node_ok. }
  assert (Hm : multi_value (n_factor node) a = None) by (eapply check_layout_ok; [exact Hlayout|exact Harg|exact Hpos]).
  unfold build_res_pred in Hrp. destruct (a_type a) eqn:Hty; try discriminate Hrp.
  - apply run_bind_Ret in Hrp as (pn & _ & [= <-]). apply run_bind_Ret in Hcells as (gs & _ & Hc). cbn in Hc.
    refine (cells_read_single _ _ _ _ _ _ _ _ _ _ Hc). unfold multi_value in Hm. rewrite Hty in Hm. cbn [is_result negb] in Hm.
    destruct (a_predecessor a) as [p|]; [|done]. rewrite (Hgroup p eq_refl) in Hm. cbn [is_some] in Hm.
    by destruct ((1 <? length (p_indexes p)) && negb (length (p_indexes p) =? n_factor node)).
  - by injection Hrp as <-.
Qed.

(** ** Witnesses *)

#[local] Existing Instance GraphGenSpec.no_json.
#[local] Existing Instance file_funcs.

Definition total_node : Node := squares_node 2 1 "total" "sum"
  [mkArg (CmUsize 7) None None; mkArg (CmRes 1) None (Some (mkPred 1 [0; 1; 2; 3]%Z None))].
Definition total_rp : ResPredCache := mkResPred 2 1 [0; 1; 2; 3]%Z 4 None None 1 false false.
Definition total_cache : ArgCacheEntry := mkArgCache [CmUsize 7; CmNone] [] [] [] [] [1] [1] [].

(** The cells of slot 0: four numbers, four squares, the sum. *)
Definition squares_world : World :=
  mkWorld (mkResultMap (replicate 10 None) [0; 1; 2; 3; 0; 1; 4; 9; 0; 0]%Z (replicate 10 4%Z) 10 [0; 4; 8] [4; 4; 1] 3 1)
    false [1%Z].

Lemma gather_at_the_end_witness :
  populate_cached_args_into (λ _, squares_world) 9 false 6 (empty_table 3) (Some 0) 1 []
    (set_res_predecessors [total_rp] total_cache) 0 0 0 (false, 0)
  = Ret (Some ([CmUsize 7; CmU64 0; CmU64 1; CmU64 4; CmU64 9], (false, 4)))
  ∧ ∃ v t', populate_cached_args_into (λ _, squares_world) 9 false 6 (empty_table 3) (Some 0) 1 []
    (set_res_predecessors [total_rp] total_cache) 0 0 0 (false, 0) = Ret (Some (v, (false, t')))
    ∧ take 4 (drop 1 v) = [CmU64 0; CmU64 1; CmU64 4; CmU64 9].
Proof.
  split; [by vm_compute|].
  destruct (gather_at_the_end (λ _, squares_world) 9 false 6 (empty_table 3) (Some 0) 1 (spec_graph squares_spec) 2 total_node
    [] total_cache (<[1 := [4]]> ∅) [] [] total_rp [CmU64 0; CmU64 1; CmU64 4; CmU64 9]
    [mkArg (CmUsize 7) None None] (mkArg (CmRes 1) None (Some (mkPred 1 [0; 1; 2; 3]%Z None))) 0 0 0 false 0)
    as (v & t' & H1 & _ & H2 & _); try done.
  - change (kept_args true (n_args total_node)) with (n_args total_node).
    intros a'. cbn. rewrite !elem_of_cons. by intros [->|[->|[]%not_elem_of_nil]].
  - split; [done|]. exists [0; 1; 2; 3]. split; [done|]. repeat constructor; by intros t' _.
  - by exists v, t'.
Defined.

Definition scaled_file : GraphFile := mkGraphFile []
  [plain_node "number" "sum" (Some (FNumber 4)) [value_arg "$ref" "$index"];
   plain_node "scaled" "sum" (Some (FNumber 4)) [res_arg "number" "0-3"; value_arg "$ref" "$index"]] None None.
Definition scaled_arg : Arg := mkArg (CmRes 0) None (Some (mkPred 0 [0; 1; 2; 3]%Z None)).
Definition scaled_spec : GraphSpec := mkSpec
  (mkGraph [squares_node 0 4 "number" "sum" [mkArg (CmRef 0) None None];
            squares_node 1 4 "scaled" "sum" [scaled_arg; mkArg (CmRef 0) None None]] [0] [[1]] [] None None)
  [[CmUsize 0]; [CmUsize 1]].

Lemma only_last_argument_gathers_witness :
  from_graph_file false scaled_file 3 = Ret (ROk scaled_spec)
  ∧ rp_cells (empty_table 2) (mkResPred 1 0 [0; 1; 2; 3]%Z 4 None None 4 false false) 2 2 = Ret [2]
  ∧ length [2] ≤ 1.
Proof.
  assert (Hp : from_graph_file false scaled_file 3 = Ret (ROk scaled_spec)) by (by vm_compute).
  split; [done|]. split; [done|].
  refine (only_last_argument_gathers false scaled_file 3 scaled_spec 1 _ 0 scaled_arg
            (mkResPred 1 0 [0; 1; 2; 3]%Z 4 None None 4 false false) (empty_table 2) 2 2 [2] Hp _ _ _ _ _ _ _);
    try reflexivity; [vm_compute; lia|]. by intros p [= <-].
Defined.

(** A grouped dependency is exempt from the check, said to be read through another path; but
    with several indexes it is read like any other: the value behind it is overrun. *)
Definition grouped_file : GraphFile := mkGraphFile []
  [plain_node "number" "sum" (Some (FNumber 4)) [value_arg "$ref" "$index"];
   plain_node "scaled" "sum" (Some (FNumber 2))
     [mkArgJson "$res" None None (Some (mkPredJson "number" "0-3" (Some (FNumber 2)))); value_arg "usize" "7"]] None None.
Definition grouped_arg : Arg := mkArg (CmRes 0) None (Some (mkPred 0 [0; 1; 2; 3]%Z (Some 2))).
Definition grouped_node : Node := squares_node 1 2 "scaled" "sum" [grouped_arg; mkArg (CmUsize 7) None None].
Definition grouped_spec : GraphSpec := mkSpec
  (mkGraph [squares_node 0 4 "number" "sum" [mkArg (CmRef 0) None None]; grouped_node] [0] [[1]] [] None None)
  [[CmUsize 0]; [CmUsize 1]].

Theorem grouped_dependency_overruns :
  from_graph_file false grouped_file 3 = Ret (ROk grouped_spec)
  ∧ ∃ c rps t, run_map fst (build_arg_cache (n_args grouped_node) (spec_init_objects grouped_spec) true) = Ret c
    ∧ build_res_preds (spec_graph grouped_spec) 1 grouped_node (n_args grouped_node) true = Ret rps
    ∧ build_predecessor_tables true (spec_graph grouped_spec) = Ret t
    ∧ populate_cached_args_into (λ _, squares_world) 9 false 6 (pred_group_by t) (Some 0) 1 []
        (set_res_predecessors rps c) 1 0 3 (false, 0)
      = Ret (Some ([CmU64 1; CmU64 2; CmU64 3; CmU64 0; CmUsize 7], (false, 4))).
Proof.
  split; [by vm_compute|]. eexists _, _, _. split; [by vm_compute|]. split; [by vm_compute|]. split; by vm_compute.
Qed.
