(* ===== verification/Slots.v ===== *)
(** Frame slots ([runtime/shared_data.rs], [runtime/slot_management.rs],
    [runtime/slot_lifecycle.rs]): how frames get slots, and how a slot is cleared,
    released, handed over and restarted. How its completion is detected is the subject of
    [Completion.v].

    The functions that hold the locks on the running frames and on the slot states are
    atomic here. Time measurement and tracing are left out. *)
From S2P Require Import Prelude Types GraphStruct Graph Buffers NodeDep NodeCache DepCounter ResultMap Tables.
From stdpp Require Import strings.

Inductive SlotState := Active | Buffering | Inactive.

#[export] Instance SlotState_eq_dec : EqDecision SlotState.
Proof. solve_decision. Defined.

(** [FRAME_SLOT_EMPTY] and [usize::MAX]. *)
Definition FRAME_SLOT_EMPTY : Z := u64_max.
Definition usize_max : Z := u64_max.

(** Of [RuntimeConfig]. *)
Record SlotConfig := mkSlotConfig {
  cfg_slots : nat;
  cfg_max_frames : Z;
  cfg_workers : nat;
  cfg_slot_priority_enabled : bool;
}.

(** [SlotData] without the time stamps. *)
Record SlotData := mkSlotData {
  sd_generation : list Z;
  sd_pending_tasks : list Z;
  sd_pending_cond_tasks : list Z;
  sd_processing_count : list Z;
  sd_needs_check : list bool;
  sd_packet_counters : list Z;
  sd_packet_complete : list bool;
  sd_frame_id : list Z;
  sd_active_bitmap : Z;
  sd_cond_instances_to_spawn : list (list Z);
  sd_fanout_bulk_arrived : list (list Z);
  sd_states : list SlotState;
  sd_running_frames : list (nat * nat);
  sd_frame_slot_map : list Z;
  sd_buffers : list (list (NodeInfo * option CmTypes));
  sd_last_assigned : nat;
}.

(** The smallest power of two that is at least [n] ([next_power_of_two]). *)
Definition next_power_of_two (n : nat) : nat := 2 ^ Nat.log2_up n.

(** The initial slot data of [TomiiRtBuilder::build]. *)
Definition SlotData_new (slots : nat) (ctr : SlotCounters) : SlotData :=
  mkSlotData (replicate slots 0%Z) (Z.of_nat <$> sc_pending_tasks ctr)
    (Z.of_nat <$> sc_pending_cond_tasks ctr) (replicate slots 0%Z)
    (replicate slots false) (replicate slots 0%Z) (replicate slots false) (replicate slots usize_max) 0
    (sc_cond_instances_to_spawn ctr) (sc_fanout_bulk_arrived ctr) (replicate slots Inactive) []
    (replicate (next_power_of_two (2 * slots)) FRAME_SLOT_EMPTY) (replicate slots []) 0.

(** Updating one field. *)
Definition upd_counters (gen pt pc pr : list Z) (ci fb : list (list Z)) (d : SlotData) : SlotData :=
  mkSlotData gen pt pc pr (sd_needs_check d) (sd_packet_counters d) (sd_packet_complete d) (sd_frame_id d)
    (sd_active_bitmap d) ci fb (sd_states d) (sd_running_frames d) (sd_frame_slot_map d) (sd_buffers d)
    (sd_last_assigned d).
Definition upd_flags (nc : list bool) (pk : list Z) (pc : list bool) (d : SlotData) : SlotData :=
  mkSlotData (sd_generation d) (sd_pending_tasks d) (sd_pending_cond_tasks d) (sd_processing_count d) nc pk pc
    (sd_frame_id d) (sd_active_bitmap d) (sd_cond_instances_to_spawn d) (sd_fanout_bulk_arrived d) (sd_states d)
    (sd_running_frames d) (sd_frame_slot_map d) (sd_buffers d) (sd_last_assigned d).
Definition upd_registry (fid : list Z) (bm : Z) (st : list SlotState) (rf : list (nat * nat)) (map : list Z)
    (buf : list (list (NodeInfo * option CmTypes))) (la : nat) (d : SlotData) : SlotData :=
  mkSlotData (sd_generation d) (sd_pending_tasks d) (sd_pending_cond_tasks d) (sd_processing_count d)
    (sd_needs_check d) (sd_packet_counters d) (sd_packet_complete d) fid bm (sd_cond_instances_to_spawn d)
    (sd_fanout_bulk_arrived d) st rf map buf la.

Definition set_generation l d := upd_counters l (sd_pending_tasks d) (sd_pending_cond_tasks d)
  (sd_processing_count d) (sd_cond_instances_to_spawn d) (sd_fanout_bulk_arrived d) d.
Definition set_pending (pt pc : list Z) d := upd_counters (sd_generation d) pt pc
  (sd_processing_count d) (sd_cond_instances_to_spawn d) (sd_fanout_bulk_arrived d) d.
Definition set_processing l d := upd_counters (sd_generation d) (sd_pending_tasks d) (sd_pending_cond_tasks d)
  l (sd_cond_instances_to_spawn d) (sd_fanout_bulk_arrived d) d.
Definition set_spawns (ci fb : list (list Z)) d := upd_counters (sd_generation d) (sd_pending_tasks d)
  (sd_pending_cond_tasks d) (sd_processing_count d) ci fb d.
Definition set_needs_check l d := upd_flags l (sd_packet_counters d) (sd_packet_complete d) d.
Definition set_buffers l d := upd_registry (sd_frame_id d) (sd_active_bitmap d) (sd_states d)
  (sd_running_frames d) (sd_frame_slot_map d) l (sd_last_assigned d) d.

(** ** The cache of the running frames *)

(** [frame & (map.len() - 1)]. *)
Definition frame_cell (map : list Z) (frame : nat) : nat :=
  Z.to_nat (Z.land (Z.of_nat frame) (Z.of_nat (length map - 1))).

(** The cell holds this frame. *)
Definition holds_frame (packed : Z) (frame : nat) : bool :=
  negb (packed =? FRAME_SLOT_EMPTY)%Z && (gen_unpack_gen packed =? as_u32 (Z.of_nat frame))%Z.

Definition frame_slot_lookup (d : SlotData) (frame : nat) : run (option nat) :=
  let map := sd_frame_slot_map d in
  let! packed := vec_get map (frame_cell map frame) in
  Ret (if holds_frame packed frame then Some (Z.to_nat (gen_unpack_val packed)) else None).

Definition frame_slot_publish (map : list Z) (frame slot : nat) : run (list Z) :=
  vec_set map (frame_cell map frame) (gen_pack (as_u32 (Z.of_nat frame)) (as_u32 (Z.of_nat slot))).

Definition frame_slot_clear (map : list Z) (frame : nat) : run (list Z) :=
  let idx := frame_cell map frame in
  let! packed := vec_get map idx in
  if holds_frame packed frame then vec_set map idx FRAME_SLOT_EMPTY else Ret map.

(** The first running frame with the given property. *)
Fixpoint find_running (p : nat * nat → bool) (l : list (nat * nat)) : option (nat * nat) :=
  match l with [] => None | x :: l => if p x then Some x else find_running p l end.

Fixpoint remove_running (slot : nat) (l : list (nat * nat)) : option (nat * list (nat * nat)) :=
  match l with
  | [] => None
  | (f, s) :: l =>
      if s =? slot then Some (f, l) else (λ fl, (fl.1, (f, s) :: fl.2)) <$> remove_running slot l
  end.

(** ** The operations *)

(** The shared state the life cycle works on. *)
Record Runtime (C : Type) := mkRuntime {
  rt_slots : SlotData;
  rt_counter : C;
  rt_results : LockFreeResultMap;
  rt_frame_complete_counter : Z;
}.
Arguments mkRuntime {C}. Arguments rt_slots {C}. Arguments rt_counter {C}. Arguments rt_results {C}.
Arguments rt_frame_complete_counter {C}.

Definition with_slots {C} (d : SlotData) (rt : Runtime C) : Runtime C :=
  mkRuntime d (rt_counter rt) (rt_results rt) (rt_frame_complete_counter rt).

Section operations.
Context {C : Type} `{DependencyCounter C}.
Context (cfg : SlotConfig) (graph : Graph) (node_cache : list NodeCacheEntry).

(** [sweep_slot_generational_entries]. *)
Definition sweep_slot_generational_entries (rt : Runtime C) (slot : nat) (new_gen : Z) : run (Runtime C) :=
  let d := rt_slots rt in
  let! cond_slot := vec_get (sd_cond_instances_to_spawn d) slot in
  let! fanout_slot := vec_get (sd_fanout_bulk_arrived d) slot in
  let n := Nat.min (Nat.min (length node_cache) (length cond_slot)) (length fanout_slot) in
  let cond' := ((λ nc, gen_pack new_gen (if ce_is_condition nc then as_u32 (Z.of_nat (ce_factor nc)) else 0))
                  <$> take n node_cache) ++ drop n cond_slot in
  let fanout' := replicate n (gen_pack new_gen 0) ++ drop n fanout_slot in
  Ret (mkRuntime (set_spawns (<[slot := cond']> (sd_cond_instances_to_spawn d))
                    (<[slot := fanout']> (sd_fanout_bulk_arrived d)) d)
         (reset_slot_epoch (rt_counter rt) slot new_gen) (rt_results rt) (rt_frame_complete_counter rt)).

(** [bump_slot_generation]. *)
Definition bump_slot_generation (rt : Runtime C) (slot : nat) : run (Runtime C) :=
  let d := rt_slots rt in
  let! prev := vec_get (sd_generation d) slot in
  let rt1 := with_slots (set_generation (<[slot := as_u64 (prev + 1)]> (sd_generation d)) d) rt in
  if (as_u32 prev =? u32_max)%Z then sweep_slot_generational_entries rt1 slot (as_u32 (as_u64 (prev + 1)))
  else Ret rt1.

(** What every branch of the assignment does under the locks. *)
Definition claim_slot (active : bool) (frame slot last_assigned : nat) (d : SlotData) : run SlotData :=
  let! states := vec_set (sd_states d) slot (if active then Active else Buffering) in
  let bitmap := if active then Z.lor (sd_active_bitmap d) (slot_bit slot) else sd_active_bitmap d in
  let! needs_check := if active then vec_set (sd_needs_check d) slot true else Ret (sd_needs_check d) in
  let! map := frame_slot_publish (sd_frame_slot_map d) frame slot in
  let! frame_id := vec_set (sd_frame_id d) slot (Z.of_nat frame) in
  Ret (set_needs_check needs_check
         (upd_registry frame_id bitmap states (sd_running_frames d ++ [(frame, slot)]) map (sd_buffers d)
            last_assigned d)).

(** The round-robin search: the first inactive slot. *)
Fixpoint find_inactive (states : list SlotState) (slots : list nat) : run (option nat) :=
  match slots with
  | [] => Ret None
  | s :: slots =>
      let! state := vec_get states s in
      if decide (state = Inactive) then Ret (Some s) else find_inactive states slots
  end.

(** [assign_frame_to_available_slot]. *)
Definition assign_frame_to_available_slot (rt : Runtime C) (frame : nat) : run (Runtime C * option (nat * bool)) :=
  let d := rt_slots rt in
  let! cached := frame_slot_lookup d frame in
  match cached with
  | Some slot_id => Ret (rt, Some (slot_id, false))
  | None =>
      match find_running (λ fs, fs.1 =? frame) (sd_running_frames d) with
      | Some (_, slot_id) => Ret (rt, Some (slot_id, false))
      | None =>
          let last := sd_last_assigned d in
          let! last_state := vec_get (sd_states d) last in
          if decide (last_state = Inactive) then
            let! d1 := claim_slot true frame last last d in
            let! rt1 := bump_slot_generation (with_slots d1 rt) last in
            Ret (rt1, Some (last, true))
          else
            let! found := find_inactive (sd_states d)
                            ((λ i, (last + i) mod cfg_slots cfg) <$> range 1 (cfg_slots cfg)) in
            match found with
            | None => Ret (rt, None)
            | Some slot_id =>
                if negb (cfg_slot_priority_enabled cfg) && is_some (g_network_config graph) then
                  let! d1 := claim_slot true frame slot_id slot_id d in
                  let! rt1 := bump_slot_generation (with_slots d1 rt) slot_id in
                  Ret (rt1, Some (slot_id, true))
                else
                  let! d1 := claim_slot false frame slot_id slot_id d in
                  Ret (with_slots d1 rt, Some (slot_id, false))
            end
      end
  end.

(** The release half of [release_and_activate_next]. *)
Definition release (d : SlotData) (slot : nat) : run SlotData :=
  let! states := vec_set (sd_states d) slot Inactive in
  let bitmap := Z.ldiff (sd_active_bitmap d) (slot_bit slot) in
  let! frame_id := vec_set (sd_frame_id d) slot usize_max in
  let! (running, map) :=
    match remove_running slot (sd_running_frames d) with
    | Some (frame, running) =>
        let! map := frame_slot_clear (sd_frame_slot_map d) frame in Ret (running, map)
    | None => Ret (sd_running_frames d, sd_frame_slot_map d)
    end in
  Ret (upd_registry frame_id bitmap states running map (sd_buffers d) (sd_last_assigned d) d).

(** The slot of the oldest running frame whose slot is buffering. *)
Fixpoint oldest_buffering (states : list SlotState) (running : list (nat * nat)) : run (option nat) :=
  match running with
  | [] => Ret None
  | (_, s) :: running =>
      let! state := vec_get states s in
      if decide (state = Buffering) then Ret (Some s) else oldest_buffering states running
  end.

(** The promotion half: activates the slot and takes its buffer. *)
Definition promote (d : SlotData) (slot : nat) : run (SlotData * list (NodeInfo * option CmTypes)) :=
  let! states := vec_set (sd_states d) slot Active in
  let! needs_check := vec_set (sd_needs_check d) slot true in
  let! buffered := vec_get (sd_buffers d) slot in
  Ret (set_needs_check needs_check
         (upd_registry (sd_frame_id d) (Z.lor (sd_active_bitmap d) (slot_bit slot)) states
            (sd_running_frames d) (sd_frame_slot_map d) (<[slot := []]> (sd_buffers d)) slot d),
       buffered).

(** [release_and_activate_next]. *)
Definition release_and_activate_next (rt : Runtime C) (slot : nat)
    : run (Runtime C * option (nat * list (NodeInfo * option CmTypes))) :=
  let! d1 := release (rt_slots rt) slot in
  if negb (cfg_slot_priority_enabled cfg) then Ret (with_slots d1 rt, None)
  else
    let! next := oldest_buffering (sd_states d1) (sd_running_frames d1) in
    match next with
    | None => Ret (with_slots d1 rt, None)
    | Some slot_id =>
        let! (d2, buffered) := promote d1 slot_id in
        let! rt2 := bump_slot_generation (with_slots d2 rt) slot_id in
        Ret (rt2, Some (slot_id, buffered))
    end.

(** The routing in [admit_packet]: a packet of an active slot goes to the batch at hand,
    one of a buffering slot to the slot's buffer; the second test is under the lock. *)
Definition route_packet (d : SlotData) (batch : list (NodeInfo * option CmTypes)) (pkt : NodeInfo * option CmTypes)
    : run (SlotData * list (NodeInfo * option CmTypes)) :=
  let slot := ni_slot pkt.1 in
  if Z.testbit (sd_active_bitmap d) (Z.of_nat slot) then Ret (d, batch ++ [pkt])
  else
    let! buffer := vec_get (sd_buffers d) slot in
    Ret (set_buffers (<[slot := buffer ++ [pkt]]> (sd_buffers d)) d, batch).

(** [initial_nodes]: the roots of the graph, in chunks. *)
Definition initial_node_chunks (slot node_id factor : nat) : list NodeInfo :=
  if factor =? 0 then []
  else
    let n_chunks := Nat.min (Nat.max (cfg_workers cfg) 1) factor in
    let base := factor / n_chunks in
    let extra := factor mod n_chunks in
    (fold_left (λ s c,
       let count := base + (if c <? extra then 1 else 0) in
       if count =? 0 then s
       else (s.1 ++ [with_bulk_count count (NodeInfo_new node_id slot s.2 0)], s.2 + count))
       (range 0 n_chunks) ([], 0)).1.

Definition initial_nodes (slots : list nat) : run (list NodeInfo) :=
  foldM (λ acc slot,
    foldM (λ acc node_id,
      let! node := vec_get (g_nodes graph) node_id in
      Ret (acc ++ initial_node_chunks slot node_id (n_factor node))) acc (g_initial_nodes graph)) [] slots.

(** [reset_slot_state]; the totals are those of the node cache. *)
Definition reset_slot_state (rt : Runtime C) (slot : nat) : run (Runtime C) :=
  let! rt1 := bump_slot_generation rt slot in
  let d := rt_slots rt1 in
  let! packet_complete := vec_set (sd_packet_complete d) slot false in
  let! packet_counters := vec_set (sd_packet_counters d) slot 0%Z in
  let! pending := vec_set (sd_pending_tasks d) slot (Z.of_nat (total_tasks node_cache)) in
  let! pending_cond := vec_set (sd_pending_cond_tasks d) slot (Z.of_nat (total_cond_tasks node_cache)) in
  let! needs_check := vec_set (sd_needs_check d) slot false in
  Ret (mkRuntime (upd_flags needs_check packet_counters packet_complete (set_pending pending pending_cond d))
         (unmark_slot_completed (rt_counter rt1) slot) (rt_results rt1) (rt_frame_complete_counter rt1)).

(** [process_slot_completion]: the other slots that are active or buffering are counted,
    then the completion counter is incremented. *)
Definition busy_slots (states : list SlotState) : list nat :=
  filter (λ s, states !! s = Some Active ∨ states !! s = Some Buffering) (range 0 (length states)).

Definition process_slot_completion (rt : Runtime C) (slot : nat) : run (Runtime C * bool) :=
  let currently_active_frames := length (filter (λ s, s ≠ slot) (busy_slots (sd_states (rt_slots rt)))) in
  let completed_frames := as_u64 (rt_frame_complete_counter rt + 1) in
  let total_frames_processed := (completed_frames + Z.of_nat currently_active_frames)%Z in
  let rt1 := mkRuntime (rt_slots rt) (rt_counter rt) (rt_results rt) completed_frames in
  if (total_frames_processed <? cfg_max_frames cfg)%Z then
    let! results := reinit_slot (rt_results rt) slot in
    Ret (mkRuntime (rt_slots rt) (rt_counter rt) results completed_frames, true)
  else Ret (rt1, false).

(** The locked part of [restart_slot_nonnetwork]: nothing with a network. *)
Definition restart_slot_nonnetwork (rt : Runtime C) (slot : nat) : run (Runtime C * list NodeInfo) :=
  if is_some (g_network_config graph) then Ret (rt, [])
  else
    let d := rt_slots rt in
    let next_frame_id := Z.to_nat (rt_frame_complete_counter rt + Z.of_nat (length (busy_slots (sd_states d)))) in
    let! states := vec_set (sd_states d) slot Active in
    let! frame_id := vec_set (sd_frame_id d) slot (Z.of_nat next_frame_id) in
    let! map := frame_slot_publish (sd_frame_slot_map d) next_frame_id slot in
    let d1 := upd_registry frame_id (Z.lor (sd_active_bitmap d) (slot_bit slot)) states
                (sd_running_frames d ++ [(next_frame_id, slot)]) map (sd_buffers d) (sd_last_assigned d) d in
    let! compute_nodes := initial_nodes [slot] in
    Ret (with_slots d1 rt, compute_nodes).
End operations.
