(* ===== verification/SlotInv.v ===== *)
(** The frame slots as a state machine: what holds of the registry of running frames in
    every state the operations of [Slots.v] can reach. *)
From S2P Require Import Prelude Types GraphStruct Graph Buffers NodeDep NodeCache DepCounter ResultMap Tables Successor Slots.
From stdpp Require Import strings.

(** ** Cells of the frame cache *)

Lemma frame_cell_lt map frame : 0 < length map → frame_cell map frame < length map.
Proof.
  intros Hl. unfold frame_cell.
  assert (Hle : (Z.land (Z.of_nat frame) (Z.of_nat (length map - 1)) <= Z.of_nat (length map - 1))%Z).
  { rewrite <- !nat_N_Z, <- N2Z.inj_land. apply N2Z.inj_le, N.land_le_r. }
  assert (0 <= Z.land (Z.of_nat frame) (Z.of_nat (length map - 1)))%Z by (apply Z.land_nonneg; lia). lia.
Qed.

Lemma frame_cell_length map map' frame : length map = length map' → frame_cell map frame = frame_cell map' frame.
Proof. intros Hl. unfold frame_cell. by rewrite Hl. Qed.

(** Numbers that fit in a frame tag and in a slot tag. *)
Definition frame_ok (frame : nat) : Prop := (Z.of_nat frame < two32)%Z.

Lemma frame_tag f : frame_ok f → as_u32 (Z.of_nat f) = Z.of_nat f.
Proof. intros. apply as_u32_small. unfold frame_ok in *. lia. Qed.

Lemma packed_frame f s : frame_ok f → s < 64 →
  gen_unpack_gen (gen_pack (as_u32 (Z.of_nat f)) (as_u32 (Z.of_nat s))) = Z.of_nat f
  ∧ gen_unpack_val (gen_pack (as_u32 (Z.of_nat f)) (as_u32 (Z.of_nat s))) = Z.of_nat s
  ∧ gen_pack (as_u32 (Z.of_nat f)) (as_u32 (Z.of_nat s)) ≠ FRAME_SLOT_EMPTY.
Proof.
  intros Hf Hs. assert (Hu1 : is_u32 (as_u32 (Z.of_nat f))) by apply as_u32_range.
  assert (Hu2 : is_u32 (as_u32 (Z.of_nat s))) by apply as_u32_range.
  assert (Hv : gen_unpack_val (gen_pack (as_u32 (Z.of_nat f)) (as_u32 (Z.of_nat s))) = Z.of_nat s).
  { rewrite gen_unpack_val_pack by done. apply as_u32_small. unfold two32. lia. }
  split; [rewrite gen_unpack_gen_pack by done; by apply frame_tag|]. split; [done|].
  intros He. rewrite He in Hv. assert (Z.of_nat s = 4294967295%Z) by (rewrite <- Hv; reflexivity). lia.
Qed.

Lemma holds_packed f s frame : frame_ok f → frame_ok frame → s < 64 →
  holds_frame (gen_pack (as_u32 (Z.of_nat f)) (as_u32 (Z.of_nat s))) frame = (f =? frame).
Proof.
  intros Hf Hfr Hs. destruct (packed_frame f s Hf Hs) as (Hg & _ & Hne). unfold holds_frame.
  rewrite (proj2 (Z.eqb_neq _ _) Hne), Hg, (frame_tag frame) by done. cbn [negb andb].
  destruct (Nat.eqb_spec f frame) as [->|Hn]; [apply Z.eqb_refl|]. apply Z.eqb_neq. lia.
Qed.

(** ** The invariant *)

(** The registry of running frames is consistent: frames and slots are paired one to
    one, the slots that are not inactive are the slots of the running frames, the bitmap
    has the active ones, and the lock-free cache only knows running frames. *)
Record reg_wf (slots : nat) (d : SlotData) : Prop := {
  rg_slots : slots <= 64;
  rg_states : length (sd_states d) = slots;
  rg_needs : length (sd_needs_check d) = slots;
  rg_frame_id : length (sd_frame_id d) = slots;
  rg_buffers : length (sd_buffers d) = slots;
  rg_generation : length (sd_generation d) = slots;
  rg_cond : length (sd_cond_instances_to_spawn d) = slots;
  rg_fanout : length (sd_fanout_bulk_arrived d) = slots;
  rg_map_len : 0 < length (sd_frame_slot_map d);
  rg_last : sd_last_assigned d < slots;
  rg_frames : NoDup (sd_running_frames d).*1;
  rg_running : NoDup (sd_running_frames d).*2;
  rg_ok : ∀ f s, (f, s) ∈ sd_running_frames d → frame_ok f;
  rg_busy : ∀ s, s ∈ (sd_running_frames d).*2 ↔ ∃ st, sd_states d !! s = Some st ∧ st ≠ Inactive;
  rg_bits : ∀ s, s < slots → Z.testbit (sd_active_bitmap d) (Z.of_nat s) = true ↔ sd_states d !! s = Some Active;
  rg_map : ∀ idx packed, sd_frame_slot_map d !! idx = Some packed → packed ≠ FRAME_SLOT_EMPTY →
    ∃ f s, (f, s) ∈ sd_running_frames d ∧ frame_cell (sd_frame_slot_map d) f = idx
           ∧ packed = gen_pack (as_u32 (Z.of_nat f)) (as_u32 (Z.of_nat s));
}.

(** Slot priority: frames run one at a time, in the order of their admission. *)
Record seq_wf (d : SlotData) : Prop := {
  sq_one : ∀ s s', sd_states d !! s = Some Active → sd_states d !! s' = Some Active → s = s';
  sq_last : sd_states d !! sd_last_assigned d = Some Inactive →
            ∀ s st, sd_states d !! s = Some st → st = Inactive;
  sq_queue : ∀ s, sd_states d !! s = Some Buffering → ∃ s', sd_states d !! s' = Some Active;
}.

Lemma running_slot_lt slots d f s : reg_wf slots d → (f, s) ∈ sd_running_frames d → s < slots.
Proof.
  intros [] Hin. assert (Hs : s ∈ (sd_running_frames d).*2) by (apply list_elem_of_fmap; by exists (f, s)).
  apply rg_busy0 in Hs as (st & Hst & _). apply lookup_lt_Some in Hst. lia.
Qed.

Lemma NoDup_fst_functional (l : list (nat * nat)) f s s' : NoDup l.*1 → (f, s) ∈ l → (f, s') ∈ l → s = s'.
Proof.
  intros Hnd Hs Hs'. apply list_elem_of_lookup in Hs as (i & Hi). apply list_elem_of_lookup in Hs' as (j & Hj).
  assert (i = j) as <-; [|congruence]. eapply NoDup_lookup; [done| |]; rewrite list_lookup_fmap, ?Hi, ?Hj; done.
Qed.

(** ** Lookup *)

Lemma find_running_spec p l : match find_running p l with
  | Some x => x ∈ l ∧ p x = true
  | None => ∀ x, x ∈ l → p x = false
  end.
Proof.
  induction l as [|x l IH]; cbn; [by intros ? ?%not_elem_of_nil|]. destruct (p x) eqn:Hp; [split; [left|done]|].
  destruct (find_running p l) as [y|].
  - destruct IH. split; [by right|done].
  - intros y [->|Hy]%elem_of_cons; [done|by apply IH].
Qed.

(** A cache hit is right: it names the slot the frame is running in. *)
Lemma lookup_sound slots d frame : reg_wf slots d → frame_ok frame →
  ∃ o, frame_slot_lookup d frame = Ret o ∧ ∀ s, o = Some s → (frame, s) ∈ sd_running_frames d.
Proof.
  intros Hwf Hf. pose proof Hwf as []. unfold frame_slot_lookup.
  destruct (vec_get_lt (sd_frame_slot_map d) (frame_cell (sd_frame_slot_map d) frame)) as (packed & -> & Hp);
    [by apply frame_cell_lt|]. cbn [run_bind].
  eexists. split; [done|]. intros s. destruct (holds_frame packed frame) eqn:Hh; [|done]. intros [= <-].
  assert (Hne : packed ≠ FRAME_SLOT_EMPTY).
  { intros ->. unfold holds_frame in Hh. by rewrite Z.eqb_refl in Hh. }
  destruct (rg_map0 _ _ Hp Hne) as (f & s & Hin & _ & ->).
  pose proof (running_slot_lt slots d f s Hwf Hin). pose proof (rg_ok0 f s Hin).
  rewrite holds_packed in Hh by (done || lia). apply Nat.eqb_eq in Hh as ->.
  destruct (packed_frame frame s) as (_ & -> & _); [done|lia|]. by rewrite Nat2Z.id.
Qed.

(** ** The parts of the operations *)

(** Equal registries. *)
Definition same_registry (d d' : SlotData) : Prop :=
  length (sd_needs_check d') = length (sd_needs_check d) ∧ sd_frame_id d' = sd_frame_id d
  ∧ sd_active_bitmap d' = sd_active_bitmap d ∧ sd_states d' = sd_states d
  ∧ sd_running_frames d' = sd_running_frames d ∧ sd_frame_slot_map d' = sd_frame_slot_map d
  ∧ sd_buffers d' = sd_buffers d ∧ sd_last_assigned d' = sd_last_assigned d
  ∧ length (sd_generation d') = length (sd_generation d)
  ∧ length (sd_cond_instances_to_spawn d') = length (sd_cond_instances_to_spawn d)
  ∧ length (sd_fanout_bulk_arrived d') = length (sd_fanout_bulk_arrived d).

Lemma same_registry_wf slots d d' : same_registry d d' → reg_wf slots d → reg_wf slots d'.
Proof.
  intros (E1 & E2 & E3 & E4 & E5 & E6 & E7 & E8 & E9 & E10 & E11) [].
  constructor; rewrite ?E1, ?E2, ?E3, ?E4, ?E5, ?E6, ?E7, ?E8, ?E9, ?E10, ?E11; done.
Qed.

Lemma same_registry_seq d d' : same_registry d d' → seq_wf d → seq_wf d'.
Proof. intros (_ & _ & _ & E4 & _ & _ & _ & E8 & _) []. constructor; rewrite ?E4, ?E8; done. Qed.

Section bump.
Context {C : Type} `{DependencyCounter C} (node_cache : list NodeCacheEntry).

Lemma bump_registry slots rt slot : reg_wf slots (rt_slots rt) → slot < slots →
  ∃ rt' : Runtime C, bump_slot_generation node_cache rt slot = Ret rt'
    ∧ same_registry (rt_slots rt) (rt_slots rt') ∧ rt_results rt' = rt_results rt
    ∧ rt_frame_complete_counter rt' = rt_frame_complete_counter rt.
Proof.
  intros [] Hs. unfold bump_slot_generation.
  destruct (vec_get_lt (sd_generation (rt_slots rt)) slot) as (g & -> & Hg); [lia|]. cbn [run_bind].
  destruct (as_u32 g =? u32_max)%Z.
  - unfold sweep_slot_generational_entries. cbn [rt_slots with_slots set_generation upd_counters sd_cond_instances_to_spawn sd_fanout_bulk_arrived].
    destruct (vec_get_lt (sd_cond_instances_to_spawn (rt_slots rt)) slot) as (c & -> & _); [lia|]. cbn [run_bind].
    destruct (vec_get_lt (sd_fanout_bulk_arrived (rt_slots rt)) slot) as (f & -> & _); [lia|]. cbn [run_bind].
    eexists. split; [done|]. split; [|done]. unfold same_registry. cbn. by rewrite !length_insert.
  - eexists. split; [done|]. split; [|done]. unfold same_registry. cbn. by rewrite !length_insert.
Qed.
End bump.

(** The states after a change of one slot. *)
Lemma states_insert (l : list SlotState) s x s' : s < length l →
  <[s := x]> l !! s' = if decide (s' = s) then Some x else l !! s'.
Proof.
  intros Hs. case_decide as He; [subst; by apply list_lookup_insert_eq|]. by apply list_lookup_insert_ne.
Qed.

Lemma slot_bit_lor b s s' : s < 64 → Z.testbit (Z.lor b (slot_bit s)) (Z.of_nat s') = Z.testbit b (Z.of_nat s') || (s' =? s).
Proof. intros. by rewrite Z.lor_spec, slot_bit_spec. Qed.

Lemma slot_bit_ldiff b s s' : s < 64 → Z.testbit (Z.ldiff b (slot_bit s)) (Z.of_nat s') = Z.testbit b (Z.of_nat s') && negb (s' =? s).
Proof. intros. by rewrite Z.ldiff_spec, slot_bit_spec. Qed.

(** A new entry of the cache. *)
Lemma publish_spec slots d frame slot : reg_wf slots d → frame_ok frame → slot < slots →
  ∃ map, frame_slot_publish (sd_frame_slot_map d) frame slot = Ret map
    ∧ length map = length (sd_frame_slot_map d)
    ∧ ∀ idx packed, map !! idx = Some packed → packed ≠ FRAME_SLOT_EMPTY →
        ∃ f s, (f, s) ∈ sd_running_frames d ++ [(frame, slot)] ∧ frame_cell map f = idx
               ∧ packed = gen_pack (as_u32 (Z.of_nat f)) (as_u32 (Z.of_nat s)).
Proof.
  intros [] Hf Hs. unfold frame_slot_publish. rewrite vec_set_lt by (by apply frame_cell_lt).
  eexists. split; [done|]. rewrite length_insert. split; [done|]. intros idx packed.
  rewrite list_lookup_insert. case_decide as Hidx.
  - intros [= <-] _. exists frame, slot. split; [apply elem_of_app; right; left|].
    split; [|done]. erewrite frame_cell_length; [by destruct Hidx|by rewrite length_insert].
  - intros Hp Hne. destruct (rg_map0 _ _ Hp Hne) as (f & s & Hin & Hc & ->). exists f, s.
    split; [apply elem_of_app; by left|]. split; [|done]. rewrite <- Hc. apply frame_cell_length. by rewrite length_insert.
Qed.

(** Giving an inactive slot to a new frame. *)
Lemma claim_slot_spec slots d active frame slot la :
  reg_wf slots d → frame_ok frame → frame ∉ (sd_running_frames d).*1 →
  sd_states d !! slot = Some Inactive → la < slots →
  ∃ d', claim_slot active frame slot la d = Ret d' ∧ reg_wf slots d'
    ∧ sd_states d' = <[slot := if active then Active else Buffering]> (sd_states d)
    ∧ sd_running_frames d' = sd_running_frames d ++ [(frame, slot)]
    ∧ sd_last_assigned d' = la ∧ sd_buffers d' = sd_buffers d.
Proof.
  intros Hwf Hf Hnew Hst Hla. pose proof (lookup_lt_Some _ _ _ Hst) as Hs. pose proof Hwf as [].
  rewrite rg_states0 in Hs.
  destruct (publish_spec slots d frame slot Hwf Hf Hs) as (map & Hpub & Hml & Hmap).
  assert (Hfree : slot ∉ (sd_running_frames d).*2).
  { intros Hin. apply rg_busy0 in Hin as (st & Hst' & Hne). rewrite Hst in Hst'. by injection Hst' as <-. }
  unfold claim_slot. rewrite vec_set_lt by lia. cbn [run_bind].
  assert (Hnc : ∃ nc, (if active then vec_set (sd_needs_check d) slot true else Ret (sd_needs_check d)) = Ret nc
                      ∧ length nc = slots).
  { destruct active; [rewrite vec_set_lt by lia; eexists; split; [done|by rewrite length_insert]|by eexists]. }
  destruct Hnc as (nc & -> & Hncl). cbn [run_bind]. rewrite Hpub. cbn [run_bind]. rewrite vec_set_lt by lia. cbn [run_bind].
  eexists. split; [done|]. split; [|done].
  constructor; cbn; rewrite ?length_insert, ?fmap_app; cbn; try done; try lia.
  - apply NoDup_app. split; [done|]. split; [|by apply NoDup_singleton].
    intros x Hx ->%list_elem_of_singleton. done.
  - apply NoDup_app. split; [done|]. split; [|by apply NoDup_singleton].
    intros x Hx ->%list_elem_of_singleton. done.
  - intros f s [Hin|Hin%list_elem_of_singleton]%elem_of_app; [by eapply rg_ok0|]. by injection Hin as -> _.
  - intros s. rewrite elem_of_app, list_elem_of_singleton, states_insert, rg_busy0 by lia.
    case_decide as He; [|tauto]. subst. split; [intros _|by right]. eexists. split; [done|]. by destruct active.
  - intros s Hslt. rewrite states_insert by lia. specialize (rg_bits0 s Hslt). destruct active.
    + rewrite slot_bit_lor, orb_true_iff, Nat.eqb_eq by lia. rewrite rg_bits0. case_decide; [tauto|]. tauto.
    + rewrite rg_bits0. case_decide as He; [|done]. subst. rewrite Hst. done.
Qed.

(** The first inactive slot of a search. *)
Lemma find_inactive_spec states l : (∀ s, s ∈ l → s < length states) →
  ∃ o, find_inactive states l = Ret o
    ∧ match o with
      | Some s => states !! s = Some Inactive ∧ s ∈ l
      | None => ∀ s, s ∈ l → states !! s ≠ Some Inactive
      end.
Proof.
  induction l as [|s l IH]; intros Hl; cbn [find_inactive].
  - exists None. split; [done|]. by intros ? ?%not_elem_of_nil.
  - destruct (vec_get_lt states s) as (st & -> & Hst); [apply Hl; left|]. cbn [run_bind].
    case_decide as He.
    + subst. exists (Some s). split; [done|]. split; [done|left].
    + destruct IH as (o & -> & Ho); [intros; apply Hl; by right|]. exists o. split; [done|]. destruct o as [x|].
      * destruct Ho. split; [done|by right].
      * intros x [->|Hx]%elem_of_cons; [rewrite Hst; congruence|by apply Ho].
Qed.

(** ** Assigning a frame *)

Section assign.
Context {C : Type} `{DependencyCounter C} (cfg : SlotConfig) (graph : Graph) (node_cache : list NodeCacheEntry).

(** What the assignment does, by case: a running frame keeps its slot; a new frame gets
    the last assigned slot if that is free, else the next free one, else none. *)
Lemma assign_spec slots (rt : Runtime C) frame : reg_wf slots (rt_slots rt) → cfg_slots cfg = slots → frame_ok frame →
  ∃ rt' o, assign_frame_to_available_slot cfg graph node_cache rt frame = Ret (rt', o)
    ∧ reg_wf slots (rt_slots rt')
    ∧ let d := rt_slots rt in let d' := rt_slots rt' in
      (rt' = rt ∧ ((∃ s, o = Some (s, false) ∧ (frame, s) ∈ sd_running_frames d)
                   ∨ o = None ∧ frame ∉ (sd_running_frames d).*1
                     ∧ ∀ s, s < slots → sd_states d !! s ≠ Some Inactive))
      ∨ ∃ s b, o = Some (s, b) ∧ frame ∉ (sd_running_frames d).*1 ∧ sd_states d !! s = Some Inactive
          ∧ sd_states d' = <[s := if b then Active else Buffering]> (sd_states d)
          ∧ sd_running_frames d' = sd_running_frames d ++ [(frame, s)]
          ∧ sd_last_assigned d' = s ∧ sd_buffers d' = sd_buffers d
          ∧ (cfg_slot_priority_enabled cfg = true →
               b = true ↔ sd_states d !! sd_last_assigned d = Some Inactive)
          ∧ (cfg_slot_priority_enabled cfg = false → is_some (g_network_config graph) = true → b = true).
Proof.
  intros Hwf Hcfg Hf. pose proof Hwf as []. unfold assign_frame_to_available_slot.
  destruct (lookup_sound slots (rt_slots rt) frame Hwf Hf) as (o & -> & Hhit). cbn [run_bind].
  destruct o as [s|].
  { exists rt, (Some (s, false)). split; [done|]. split; [done|]. left. split; [done|]. left. exists s. auto. }
  pose proof (find_running_spec (λ fs, fs.1 =? frame) (sd_running_frames (rt_slots rt))) as Hfind.
  destruct (find_running _ _) as [[f s]|].
  { destruct Hfind as [Hin Hfs%Nat.eqb_eq]. cbn in Hfs. subst f. exists rt, (Some (s, false)).
    split; [done|]. split; [done|]. left. split; [done|]. left. by exists s. }
  assert (Hnew : frame ∉ (sd_running_frames (rt_slots rt)).*1).
  { intros ([f s] & -> & Hin)%list_elem_of_fmap. specialize (Hfind _ Hin). cbn in Hfind. by rewrite Nat.eqb_refl in Hfind. }
  set (d := rt_slots rt) in *. set (last := sd_last_assigned d) in *.
  assert (Hclaim : ∀ active slot (rest : Runtime C → run (Runtime C)),
    sd_states d !! slot = Some Inactive →
    (∀ rt1, reg_wf slots (rt_slots rt1) → ∃ rt2, rest rt1 = Ret rt2 ∧ same_registry (rt_slots rt1) (rt_slots rt2)) →
    ∃ rt', (let! d1 := claim_slot active frame slot slot d in rest (with_slots d1 rt)) = Ret rt'
      ∧ reg_wf slots (rt_slots rt') ∧ sd_states (rt_slots rt') = <[slot := if active then Active else Buffering]> (sd_states d)
      ∧ sd_running_frames (rt_slots rt') = sd_running_frames d ++ [(frame, slot)]
      ∧ sd_last_assigned (rt_slots rt') = slot ∧ sd_buffers (rt_slots rt') = sd_buffers d).
  { intros active slot rest Hst Hrest. pose proof (lookup_lt_Some _ _ _ Hst) as Hs. rewrite rg_states0 in Hs.
    destruct (claim_slot_spec slots d active frame slot slot Hwf Hf Hnew Hst Hs) as (d1 & -> & Hwf1 & E1 & E2 & E3 & E4).
    cbn [run_bind]. destruct (Hrest (with_slots d1 rt)) as (rt2 & -> & Hreg); [done|]. exists rt2. split; [done|].
    split; [by eapply same_registry_wf|]. destruct Hreg as (_ & _ & _ & F1 & F2 & _ & F4 & F3 & _).
    cbn [with_slots rt_slots] in *. by rewrite F1, F2, F3, F4, E1, E2, E3, E4. }
  assert (Hbump : ∀ slot, sd_states d !! slot = Some Inactive → ∀ rt1 : Runtime C, reg_wf slots (rt_slots rt1) →
    ∃ rt2, bump_slot_generation node_cache rt1 slot = Ret rt2 ∧ same_registry (rt_slots rt1) (rt_slots rt2)).
  { intros slot Hst rt1 Hwf1. pose proof (lookup_lt_Some _ _ _ Hst) as Hs. rewrite rg_states0 in Hs.
    destruct (bump_registry node_cache slots rt1 slot Hwf1 Hs) as (rt2 & ? & ? & _). by exists rt2. }
  destruct (vec_get_lt (sd_states d) last) as (st & -> & Hst); [unfold last; lia|]. cbn [run_bind].
  case_decide as Hst'.
  - subst st. destruct (Hclaim true last _ Hst (Hbump last Hst)) as (rt' & Hrun & Hwf' & E1 & E2 & E3 & E4).
    exists rt', (Some (last, true)). split; [|split; [done|]].
    + destruct (claim_slot true frame last last d) as [d1|]; [|done]. cbn [run_bind] in *. by rewrite Hrun.
    + right. exists last, true. repeat (split; [done|]). done.
  - destruct (find_inactive_spec (sd_states d) ((λ i, (last + i) mod cfg_slots cfg) <$> range 1 (cfg_slots cfg)))
      as (o & -> & Ho).
    { intros s (i & -> & Hi)%list_elem_of_fmap. rewrite rg_states0, Hcfg. apply Nat.mod_upper_bound. lia. }
    cbn [run_bind]. destruct o as [s|].
    + destruct Ho as [Hs _].
      assert (Hpri : ∀ b, (b = true → cfg_slot_priority_enabled cfg = false) → cfg_slot_priority_enabled cfg = true →
                       b = true ↔ sd_states d !! last = Some Inactive).
      { intros b Hb Hp. split; [intros H0; rewrite (Hb H0) in Hp; done|]. rewrite Hst. congruence. }
      destruct (negb (cfg_slot_priority_enabled cfg) && is_some (g_network_config graph)) eqn:Hmode.
      * destruct (Hclaim true s _ Hs (Hbump s Hs)) as (rt' & Hrun & Hwf' & E1 & E2 & E3 & E4).
        exists rt', (Some (s, true)). split; [|split; [done|]].
        -- destruct (claim_slot true frame s s d) as [d1|]; [|done]. cbn [run_bind] in *. by rewrite Hrun.
        -- right. exists s, true. repeat (split; [done|]). split; [|done]. apply Hpri. intros _.
           apply andb_true_iff in Hmode as [Hm _]. by apply negb_true_iff.
      * destruct (Hclaim false s Ret Hs) as (rt' & Hrun & Hwf' & E1 & E2 & E3 & E4).
        { intros rt1 _. exists rt1. split; [done|]. unfold same_registry. done. }
        exists rt', (Some (s, false)). split; [|split; [done|]].
        -- destruct (claim_slot false frame s s d) as [d1|]; [|done]. cbn [run_bind] in *. by injection Hrun as ->.
        -- right. exists s, false. repeat (split; [done|]). split; [by apply Hpri|].
           intros Hp Hn. by rewrite Hp, Hn in Hmode.
    + exists rt, None. split; [done|]. split; [done|]. left. split; [done|]. right. split; [done|]. split; [done|].
      intros s Hs. destruct (decide (s = last)) as [->|Hne]; [rewrite Hst; congruence|].
      apply Ho. apply list_elem_of_fmap. destruct (decide (last <= s)).
      * exists (s - last). split; [|apply elem_of_range; lia].
        replace (last + (s - last)) with s by lia. rewrite Nat.mod_small; lia.
      * exists (s + slots - last). assert (last < slots) by (unfold last; lia). split; [|apply elem_of_range; lia].
        replace (last + (s + slots - last)) with (s + 1 * slots) by lia. rewrite Hcfg, Nat.Div0.mod_add, Nat.mod_small; lia.
Qed.
End assign.

(** ** Releasing and promoting *)

Lemma filter_slot_notin slot (l : list (nat * nat)) : slot ∉ l.*2 → filter (λ fs, fs.2 ≠ slot) l = l.
Proof.
  induction l as [|[g t] l IH]; [done|]. cbn [fmap list_fmap snd]. intros [Ht Hs]%not_elem_of_cons.
  rewrite filter_cons_True by (cbn; congruence). by rewrite IH.
Qed.

Lemma remove_running_spec slot l : NoDup l.*2 → match remove_running slot l with
  | Some (f, l') => (f, slot) ∈ l ∧ l ≡ₚ (f, slot) :: l' ∧ l' = filter (λ fs, fs.2 ≠ slot) l
  | None => slot ∉ l.*2
  end.
Proof.
  induction l as [|[f s] l IH]; intros Hnd; cbn [remove_running]; [apply not_elem_of_nil|].
  cbn in Hnd. apply NoDup_cons in Hnd as [Hs Hnd]. destruct (Nat.eqb_spec s slot) as [->|Hne].
  - split; [left|]. split; [done|]. rewrite filter_cons_False by (cbn; tauto). by rewrite filter_slot_notin.
  - specialize (IH Hnd). destruct (remove_running slot l) as [[g l']|]; cbn.
    + destruct IH as (Hin & Hp & ->). split; [by right|]. split.
      * rewrite Hp at 1. constructor.
      * by rewrite decide_True by done.
    + apply not_elem_of_cons. done.
Qed.

(** The entry of a frame that leaves is cleared; the others stay. *)
Lemma clear_spec slots d f slot l' : reg_wf slots d → (f, slot) ∈ sd_running_frames d →
  sd_running_frames d ≡ₚ (f, slot) :: l' →
  ∃ map, frame_slot_clear (sd_frame_slot_map d) f = Ret map ∧ length map = length (sd_frame_slot_map d)
    ∧ ∀ idx packed, map !! idx = Some packed → packed ≠ FRAME_SLOT_EMPTY →
        ∃ g s, (g, s) ∈ l' ∧ frame_cell map g = idx ∧ packed = gen_pack (as_u32 (Z.of_nat g)) (as_u32 (Z.of_nat s)).
Proof.
  intros Hwf Hin Hperm. pose proof Hwf as []. unfold frame_slot_clear.
  pose proof (frame_cell_lt (sd_frame_slot_map d) f rg_map_len0) as Hcell.
  destruct (vec_get_lt (sd_frame_slot_map d) (frame_cell (sd_frame_slot_map d) f)) as (packed0 & -> & Hp0); [done|].
  cbn [run_bind]. pose proof (rg_ok0 f slot Hin) as Hfok.
  assert (Hrest : ∀ idx packed, sd_frame_slot_map d !! idx = Some packed → packed ≠ FRAME_SLOT_EMPTY →
    (idx = frame_cell (sd_frame_slot_map d) f → holds_frame packed f = false) →
    ∃ g s, (g, s) ∈ l' ∧ frame_cell (sd_frame_slot_map d) g = idx ∧ packed = gen_pack (as_u32 (Z.of_nat g)) (as_u32 (Z.of_nat s))).
  { intros idx packed Hp Hne Hnf. destruct (rg_map0 _ _ Hp Hne) as (g & s & Hg & Hc & ->).
    exists g, s. split; [|done]. rewrite Hperm in Hg. apply elem_of_cons in Hg as [[= -> ->]|Hg]; [|done].
    exfalso. symmetry in Hc. specialize (Hnf Hc). pose proof (running_slot_lt slots d f slot Hwf Hin).
    rewrite holds_packed, Nat.eqb_refl in Hnf by (done || lia). done. }
  destruct (holds_frame packed0 f) eqn:Hh.
  - rewrite vec_set_lt by done. eexists. split; [done|]. rewrite length_insert. split; [done|].
    intros idx packed. rewrite list_lookup_insert. case_decide as Hidx; [by intros [= <-]|].
    intros Hp Hne. destruct (Hrest idx packed Hp Hne) as (g & s & Hg & Hc & ->).
    { intros ->. tauto. }
    exists g, s. split; [done|]. split; [|done]. rewrite <- Hc. apply frame_cell_length. by rewrite length_insert.
  - eexists. split; [done|]. split; [done|]. intros idx packed Hp Hne. apply Hrest; [done|done|].
    intros ->. rewrite Hp0 in Hp. by injection Hp as <-.
Qed.

Lemma filter_fmap_snd slot (l : list (nat * nat)) s : s ∈ (filter (λ fs, fs.2 ≠ slot) l).*2 ↔ s ∈ l.*2 ∧ s ≠ slot.
Proof.
  rewrite !list_elem_of_fmap. split.
  - intros ([f t] & -> & [? ?]%list_elem_of_filter). split; [by exists (f, t)|done].
  - intros [([f t] & -> & ?) ?]. exists (f, t). split; [done|]. by apply list_elem_of_filter.
Qed.

Lemma release_spec slots d slot : reg_wf slots d → slot < slots →
  ∃ d', release d slot = Ret d' ∧ reg_wf slots d'
    ∧ sd_states d' = <[slot := Inactive]> (sd_states d)
    ∧ sd_running_frames d' = filter (λ fs, fs.2 ≠ slot) (sd_running_frames d)
    ∧ sd_last_assigned d' = sd_last_assigned d ∧ sd_buffers d' = sd_buffers d.
Proof.
  intros Hwf Hs. pose proof Hwf as []. unfold release. rewrite vec_set_lt by lia. cbn [run_bind].
  rewrite vec_set_lt by lia. cbn [run_bind].
  pose proof (remove_running_spec slot (sd_running_frames d) rg_running0) as Hrem.
  assert (Hmap : ∃ running map,
    match remove_running slot (sd_running_frames d) with
    | Some (frame, running) => let! map := frame_slot_clear (sd_frame_slot_map d) frame in Ret (running, map)
    | None => Ret (sd_running_frames d, sd_frame_slot_map d)
    end = Ret (running, map) ∧ running = filter (λ fs, fs.2 ≠ slot) (sd_running_frames d)
    ∧ length map = length (sd_frame_slot_map d)
    ∧ ∀ idx packed, map !! idx = Some packed → packed ≠ FRAME_SLOT_EMPTY →
        ∃ g s, (g, s) ∈ running ∧ frame_cell map g = idx ∧ packed = gen_pack (as_u32 (Z.of_nat g)) (as_u32 (Z.of_nat s))).
  { destruct (remove_running slot (sd_running_frames d)) as [[f l']|].
    - destruct Hrem as (Hin & Hp & Hl'). destruct (clear_spec slots d f slot l' Hwf Hin Hp) as (map & -> & Hml & Hm).
      exists l', map. done.
    - exists (sd_running_frames d), (sd_frame_slot_map d). split; [done|]. split; [|done].
      by rewrite filter_slot_notin. }
  destruct Hmap as (running & map & -> & Hrun & Hml & Hm). cbn [run_bind].
  eexists. split; [done|]. split; [|done].
  constructor; cbn; rewrite ?length_insert; try done; try lia; rewrite ?Hrun.
  - clear -rg_frames0. induction (sd_running_frames d) as [|[f s] l IH]; [done|].
    cbn in rg_frames0. apply NoDup_cons in rg_frames0 as [Hf Hnd]. rewrite filter_cons.
    case_decide; [|by apply IH]. cbn. apply NoDup_cons. split; [|by apply IH].
    intros Hin. apply Hf. apply list_elem_of_fmap in Hin as ([g t] & -> & [_ Hg]%list_elem_of_filter).
    apply list_elem_of_fmap. by exists (g, t).
  - clear -rg_running0. induction (sd_running_frames d) as [|[f s] l IH]; [done|].
    cbn in rg_running0. apply NoDup_cons in rg_running0 as [Hf Hnd]. rewrite filter_cons.
    case_decide; [|by apply IH]. cbn. apply NoDup_cons. split; [|by apply IH].
    intros Hin. apply Hf. by apply filter_fmap_snd in Hin as [? _].
  - intros f s [_ Hin]%list_elem_of_filter. by eapply rg_ok0.
  - intros s. rewrite filter_fmap_snd, rg_busy0, states_insert by lia. case_decide as He.
    + subst. split; [by intros [_ ?]|]. intros (st & [= <-] & ?). done.
    + split; [by intros [? _]|]. intros ?. done.
  - intros s Hslt. rewrite slot_bit_ldiff, andb_true_iff, rg_bits0, states_insert by lia. case_decide as He.
    + subst. rewrite Nat.eqb_refl. split; [by intros [_ ?]|done].
    + rewrite (proj2 (Nat.eqb_neq s slot)) by done. split; [by intros [? _]|done].
Qed.

Lemma oldest_buffering_spec states running : (∀ s, s ∈ running.*2 → s < length states) →
  ∃ o, oldest_buffering states running = Ret o
    ∧ match o with
      | Some s => ∃ f l1 l2, running = l1 ++ (f, s) :: l2 ∧ states !! s = Some Buffering
                             ∧ ∀ t, t ∈ l1.*2 → states !! t ≠ Some Buffering
      | None => ∀ s, s ∈ running.*2 → states !! s ≠ Some Buffering
      end.
Proof.
  induction running as [|[f s] l IH]; intros Hl; cbn [oldest_buffering].
  - exists None. split; [done|]. by intros ? ?%not_elem_of_nil.
  - destruct (vec_get_lt states s) as (st & -> & Hst); [apply Hl; cbn; left|]. cbn [run_bind]. case_decide as He.
    + subst. exists (Some s). split; [done|]. exists f, [], l. split; [done|]. split; [done|]. by intros ? ?%not_elem_of_nil.
    + destruct IH as (o & -> & Ho); [intros; apply Hl; cbn; by right|]. exists o. split; [done|]. destruct o as [x|].
      * destruct Ho as (g & l1 & l2 & -> & Hx & Hn). exists g, ((f, s) :: l1), l2. split; [done|]. split; [done|].
        cbn. intros t [->|Ht]%elem_of_cons; [rewrite Hst; congruence|by apply Hn].
      * cbn. intros x [->|Hx]%elem_of_cons; [rewrite Hst; congruence|by apply Ho].
Qed.

Lemma promote_spec slots d slot : reg_wf slots d → sd_states d !! slot = Some Buffering →
  ∃ d' buffered, promote d slot = Ret (d', buffered) ∧ reg_wf slots d'
    ∧ sd_buffers d !! slot = Some buffered ∧ sd_buffers d' = <[slot := []]> (sd_buffers d)
    ∧ sd_states d' = <[slot := Active]> (sd_states d)
    ∧ sd_running_frames d' = sd_running_frames d ∧ sd_last_assigned d' = slot.
Proof.
  intros Hwf Hst. pose proof (lookup_lt_Some _ _ _ Hst) as Hs. pose proof Hwf as []. rewrite rg_states0 in Hs.
  unfold promote. rewrite vec_set_lt by lia. cbn [run_bind]. rewrite vec_set_lt by lia. cbn [run_bind].
  destruct (vec_get_lt (sd_buffers d) slot) as (b & -> & Hb); [lia|]. cbn [run_bind].
  eexists _, b. split; [done|]. split; [|done].
  constructor; cbn; rewrite ?length_insert; try done; try lia.
  - intros s. rewrite states_insert, rg_busy0 by lia. case_decide as He; [|done]. subst. rewrite Hst.
    split; intros _; by eexists.
  - intros s Hslt. rewrite slot_bit_lor, orb_true_iff, Nat.eqb_eq, rg_bits0, states_insert by lia.
    case_decide; [tauto|]. tauto.
Qed.

(** ** Reachability *)

Section machine.
Context {C : Type} `{DependencyCounter C}.
Context (cfg : SlotConfig) (graph : Graph) (node_cache : list NodeCacheEntry).

(** What the runtime does to the slots. A slot that completes is an active one; without
    slot priority buffering slots run too. The last case is everything that leaves the
    registry alone: the workers' counters, the result store, the dependency counters. *)
Inductive slot_step : Runtime C → Runtime C → Prop :=
  | step_assign frame rt rt' r : frame_ok frame →
      assign_frame_to_available_slot cfg graph node_cache rt frame = Ret (rt', r) → slot_step rt rt'
  | step_route batch pkt rt d batch' st : is_some (g_network_config graph) = true →
      sd_states (rt_slots rt) !! ni_slot pkt.1 = Some st → st ≠ Inactive →
      route_packet (rt_slots rt) batch pkt = Ret (d, batch') → slot_step rt (with_slots d rt)
  | step_reset slot rt rt' : slot < cfg_slots cfg →
      reset_slot_state node_cache rt slot = Ret rt' → slot_step rt rt'
  | step_complete slot rt rt' b : process_slot_completion cfg rt slot = Ret (rt', b) → slot_step rt rt'
  | step_release slot rt rt' r : slot < cfg_slots cfg →
      sd_states (rt_slots rt) !! slot = Some Active ∨ cfg_slot_priority_enabled cfg = false →
      release_and_activate_next cfg node_cache rt slot = Ret (rt', r) → slot_step rt rt'
  | step_work rt rt' : same_registry (rt_slots rt) (rt_slots rt') → slot_step rt rt'.

(** Packets are held for buffering slots only; without slot priority there are none on a
    network, and no packet is held at all. *)
Record buf_wf (d : SlotData) : Prop := {
  bw_priority : cfg_slot_priority_enabled cfg = true →
    ∀ s b, sd_buffers d !! s = Some b → b ≠ [] → sd_states d !! s = Some Buffering;
  bw_parallel : cfg_slot_priority_enabled cfg = false → ∀ s b, sd_buffers d !! s = Some b → b = [];
  bw_network : cfg_slot_priority_enabled cfg = false → is_some (g_network_config graph) = true →
    ∀ s, sd_states d !! s ≠ Some Buffering;
}.

Record slots_ok (rt : Runtime C) : Prop := {
  so_reg : reg_wf (cfg_slots cfg) (rt_slots rt);
  so_seq : cfg_slot_priority_enabled cfg = true → seq_wf (rt_slots rt);
  so_buf : buf_wf (rt_slots rt);
}.

Lemma same_registry_ok rt rt' : same_registry (rt_slots rt) (rt_slots rt') → slots_ok rt → slots_ok rt'.
Proof.
  intros Hs [H1 H2 []]. split; [by eapply same_registry_wf|intros; eapply same_registry_seq; eauto|].
  destruct Hs as (_ & _ & _ & E4 & _ & _ & E7 & _). constructor; rewrite ?E4, ?E7; done.
Qed.

(** The slot just activated is the only active one. *)
Lemma only_active_seq d s : sd_last_assigned d = s → sd_states d !! s = Some Active →
  (∀ s', sd_states d !! s' = Some Active → s' = s) → seq_wf d.
Proof.
  intros Hl Hs Hone. constructor.
  - intros x y Hx Hy. by rewrite (Hone x), (Hone y).
  - rewrite Hl, Hs. done.
  - intros _ _. by exists s.
Qed.

(** A slot that starts to buffer behind an active one. *)
Lemma enqueue_seq d d' s : seq_wf d → sd_states d !! s = Some Inactive →
  sd_states d' = <[s := Buffering]> (sd_states d) → sd_last_assigned d' = s →
  (∃ x, sd_states d !! x = Some Active) → seq_wf d'.
Proof.
  intros [Hone _ _] Hs E1 E3 [x Hx]. pose proof (lookup_lt_Some _ _ _ Hs) as Hlen. constructor; rewrite E1, ?E3.
  - intros a b. rewrite !states_insert by done. repeat case_decide; try done. apply Hone.
  - rewrite states_insert, decide_True by done. done.
  - intros _ _. exists x. rewrite states_insert by done. case_decide; [|done]. subst. by rewrite Hs in Hx.
Qed.

Lemma assign_ok rt frame rt' r : frame_ok frame → slots_ok rt →
  assign_frame_to_available_slot cfg graph node_cache rt frame = Ret (rt', r) → slots_ok rt'.
Proof.
  intros Hf [Hwf Hseq []] Hrun.
  destruct (assign_spec cfg graph node_cache (cfg_slots cfg) rt frame Hwf eq_refl Hf)
    as (rt1 & o & Hrun1 & Hwf1 & Hcase). rewrite Hrun in Hrun1. injection Hrun1 as <- <-.
  destruct Hcase as [[-> _]|(s & b & -> & Hnew & Hst & E1 & E2 & E3 & E4 & Hb & Hpar)]; [done|].
  assert (Hlen : s < length (sd_states (rt_slots rt))) by (by eapply lookup_lt_Some).
  split; [done| |].
  - intros Hp. specialize (Hseq Hp). specialize (Hb Hp). destruct b.
    + assert (Hall := sq_last _ Hseq (proj1 Hb eq_refl)).
      apply (only_active_seq _ s); [done|by rewrite E1, states_insert, decide_True|].
      intros x. rewrite E1, states_insert by done. case_decide; [done|]. by intros ?%Hall.
    + eapply (enqueue_seq _ _ s); eauto.
      destruct (sd_states (rt_slots rt) !! sd_last_assigned (rt_slots rt)) as [st|] eqn:El.
      * destruct st; [by eauto|by eapply sq_queue|discriminate (proj2 Hb eq_refl)].
      * apply lookup_ge_None in El. destruct Hwf. lia.
  - constructor; rewrite ?E1, ?E4.
    + intros Hp x buf Hbuf Hne. rewrite states_insert by done. case_decide; [|by eapply bw_priority0].
      subst. specialize (bw_priority0 Hp _ _ Hbuf Hne). congruence.
    + done.
    + intros Hp Hn x. rewrite states_insert by done. case_decide; [|by apply bw_network0].
      by rewrite (Hpar Hp Hn).
Qed.
Lemma release_next_ok rt slot rt' r : slot < cfg_slots cfg →
  sd_states (rt_slots rt) !! slot = Some Active ∨ cfg_slot_priority_enabled cfg = false → slots_ok rt →
  release_and_activate_next cfg node_cache rt slot = Ret (rt', r) → slots_ok rt'.
Proof.
  intros Hs Hact [Hwf Hseq []]. unfold release_and_activate_next.
  destruct (release_spec _ _ slot Hwf Hs) as (d1 & -> & Hwf1 & E1 & E2 & E3 & E4). cbn [run_bind].
  assert (Hlen : slot < length (sd_states (rt_slots rt))) by (destruct Hwf; lia).
  assert (Hnet : cfg_slot_priority_enabled cfg = false → is_some (g_network_config graph) = true →
                 ∀ s, sd_states d1 !! s ≠ Some Buffering).
  { intros Hp Hn s. rewrite E1, states_insert by done. case_decide; [done|by apply bw_network0]. }
  assert (Hheld : cfg_slot_priority_enabled cfg = true → ∀ s b, sd_buffers d1 !! s = Some b → b ≠ [] →
                  sd_states d1 !! s = Some Buffering).
  { intros Hp s b. rewrite E4. intros Hb Hne. specialize (bw_priority0 Hp s b Hb Hne).
    rewrite E1, states_insert by done. case_decide; [|done]. subst. destruct Hact; congruence. }
  destruct (cfg_slot_priority_enabled cfg) eqn:Hp; cbn [negb].
  - destruct Hact as [Hact|]; [|done]. destruct (Hseq eq_refl) as [Hone _ _].
    assert (Hnone : ∀ s, sd_states d1 !! s ≠ Some Active).
    { intros s. rewrite E1, states_insert by done. case_decide as He; [done|]. intros Ha.
      apply He. by apply Hone. }
    destruct (oldest_buffering_spec (sd_states d1) (sd_running_frames d1)) as (o & -> & Ho).
    { intros s ([f x] & -> & Hin)%list_elem_of_fmap. rewrite (rg_states _ _ Hwf1). by eapply running_slot_lt. }
    cbn [run_bind]. destruct o as [s|].
    + destruct Ho as (f & l1 & l2 & _ & Hbuf & _).
      destruct (promote_spec _ _ s Hwf1 Hbuf) as (d2 & b & -> & Hwf2 & Hb & F1 & F2 & _ & F4). cbn [run_bind].
      pose proof (lookup_lt_Some _ _ _ Hbuf) as Hslen.
      destruct (bump_registry node_cache _ (with_slots d2 rt) s Hwf2) as (rt2 & -> & Hreg & _).
      { rewrite <- (rg_states _ _ Hwf1). done. }
      cbn [run_bind]. intros [= <- <-]. eapply same_registry_ok; [exact Hreg|]. cbn [with_slots rt_slots].
      split; [done| |]; cbn [with_slots rt_slots].
      * intros _. apply (only_active_seq _ s); [done|by rewrite F2, states_insert, decide_True|].
        intros x. rewrite F2, states_insert by done. case_decide; [done|]. by intros ?%Hnone.
      * constructor; rewrite ?F1, ?F2, ?Hp; [|done|done]. intros _ x buf. rewrite list_lookup_insert.
        case_decide as Hx; [by intros [= <-]|]. intros Hb' Hne. specialize (Hheld eq_refl _ _ Hb' Hne).
        rewrite states_insert by done. case_decide; [|done]. subst. exfalso. apply Hx.
        split; [done|]. by eapply lookup_lt_Some.
    + intros [= <- <-]. split; [done| |constructor; rewrite ?Hp; done]. intros _. constructor.
      * by intros ? ? ?%Hnone.
      * intros _ s st Hst. destruct st; [by apply Hnone in Hst| |done]. exfalso.
        assert (Hin : s ∈ (sd_running_frames d1).*2) by (apply (rg_busy _ _ Hwf1); by eexists).
        by apply (Ho s).
      * intros s Hst. exfalso. apply (Ho s); [|done]. apply (rg_busy _ _ Hwf1). by eexists.
  - intros [= <- <-]. split; [done|congruence|]. constructor; cbn [with_slots rt_slots]; rewrite ?Hp, ?E4; [done|done|].
    intros _ Hn. by apply Hnet.
Qed.

Lemma route_ok rt batch pkt d batch' st : is_some (g_network_config graph) = true → slots_ok rt →
  sd_states (rt_slots rt) !! ni_slot pkt.1 = Some st → st ≠ Inactive →
  route_packet (rt_slots rt) batch pkt = Ret (d, batch') → slots_ok (with_slots d rt).
Proof.
  intros Hn [Hwf Hseq []] Hst Hne. unfold route_packet. destruct (Z.testbit _ _) eqn:Hbit; [by intros [= <- <-]|].
  pose proof (lookup_lt_Some _ _ _ Hst) as Hlen. pose proof Hwf as [].
  assert (Hbuf : sd_states (rt_slots rt) !! ni_slot pkt.1 = Some Buffering).
  { destruct st; [|done|done]. apply rg_bits0 in Hst; [congruence|lia]. }
  destruct (vec_get_lt (sd_buffers (rt_slots rt)) (ni_slot pkt.1)) as (b & -> & Hb); [lia|]. cbn [run_bind].
  intros [= <- <-]. split; cbn [with_slots rt_slots].
  - constructor; try done. cbn. by rewrite length_insert.
  - intros Hp. by destruct (Hseq Hp).
  - constructor; cbn [set_buffers upd_registry sd_buffers sd_states]; [| |done].
    + intros Hp x buf. rewrite list_lookup_insert. case_decide as Hx; [|by apply bw_priority0].
      destruct Hx as [<- _]. done.
    + intros Hp x. by destruct (bw_network0 Hp Hn (ni_slot pkt.1)).
Qed.

Lemma reset_registry rt slot rt' : reset_slot_state node_cache rt slot = Ret rt' → reg_wf (cfg_slots cfg) (rt_slots rt) →
  slot < cfg_slots cfg → same_registry (rt_slots rt) (rt_slots rt').
Proof.
  intros Hrun Hwf Hs. unfold reset_slot_state in Hrun.
  destruct (bump_registry node_cache _ rt slot Hwf Hs) as (rt1 & Hb & Hreg & _). rewrite Hb in Hrun. cbn [run_bind] in Hrun.
  destruct (vec_set (sd_packet_complete _) _ _) as [pc|] eqn:E1; [|done]. cbn [run_bind] in Hrun.
  destruct (vec_set (sd_packet_counters _) _ _) as [pk|] eqn:E2; [|done]. cbn [run_bind] in Hrun.
  destruct (vec_set (sd_pending_tasks _) _ _) as [pt|] eqn:E3; [|done]. cbn [run_bind] in Hrun.
  destruct (vec_set (sd_pending_cond_tasks _) _ _) as [pct|] eqn:E4; [|done]. cbn [run_bind] in Hrun.
  destruct (vec_set (sd_needs_check _) _ _) as [nc|] eqn:E5; [|done]. cbn [run_bind] in Hrun. injection Hrun as <-.
  assert (Hnc : length nc = length (sd_needs_check (rt_slots rt1))).
  { apply vec_set_Ret in E5 as [_ ->]. by rewrite length_insert. }
  destruct Hreg as (F1 & F2). split; [cbn; by rewrite Hnc|exact F2].
Qed.

Lemma slot_step_ok rt rt' : slot_step rt rt' → slots_ok rt → slots_ok rt'.
Proof.
  intros Hstep Hok. destruct Hstep as [fr rt rt' r Hf Hrun|batch pkt rt d b' st Hn Hst Hne Hrun|slot rt rt' Hs Hrun
                                      |slot rt rt' b Hrun|slot rt rt' r Hs Hact Hrun|rt rt' Hsame].
  - by eapply assign_ok.
  - by eapply route_ok.
  - eapply same_registry_ok; [|done]. eapply reset_registry; [done| |done]. apply Hok.
  - eapply same_registry_ok; [|done]. unfold process_slot_completion in Hrun.
    case_match; [|by injection Hrun as <- <-]. destruct (reinit_slot _ _); [|done]. by injection Hrun as <- <-.
  - by eapply release_next_ok.
  - by eapply same_registry_ok.
Qed.

Lemma initial_ok slots rt : cfg_slots cfg = slots → 0 < slots ≤ 64 →
  rt_slots rt = SlotData_new slots (build_slot_counters slots node_cache) → slots_ok rt.
Proof.
  intros Hc [Hpos Hle] E. unfold SlotData_new, build_slot_counters in E.
  assert (Hst : ∀ s st, sd_states (rt_slots rt) !! s = Some st → st = Inactive).
  { rewrite E. cbn. by intros s st [-> _]%lookup_replicate. }
  assert (Hbuf : ∀ s b, sd_buffers (rt_slots rt) !! s = Some b → b = []).
  { rewrite E. cbn. by intros s b [-> _]%lookup_replicate. }
  split.
  - rewrite Hc. constructor; try (by intros; exfalso; naive_solver); rewrite ?E; cbn; rewrite ?length_replicate;
      try (done || lia); try by constructor.
    + unfold next_power_of_two. pose proof (Nat.pow_nonzero 2 (Nat.log2_up (slots + (slots + 0)))). lia.
    + by intros f s ?%not_elem_of_nil.
    + intros s. split; [by intros ?%not_elem_of_nil|]. intros (st & [-> _]%lookup_replicate & Hne). done.
    + intros s _. rewrite Z.bits_0. split; [done|]. by intros [? _]%lookup_replicate.
    + by intros idx packed [-> _]%lookup_replicate.
  - intros _. constructor; [by intros s s' Ha%Hst|by intros _ s st ?%Hst|by intros s Ha%Hst].
  - constructor; [|done|by intros _ _ s Ha%Hst]. by intros _ s b ->%Hbuf.
Qed.

Lemma reachable_ok slots rt0 rt : cfg_slots cfg = slots → 0 < slots ≤ 64 →
  rt_slots rt0 = SlotData_new slots (build_slot_counters slots node_cache) → rtc slot_step rt0 rt → slots_ok rt.
Proof.
  intros Hc Hs E Hsteps. assert (Hok : slots_ok rt0) by (by eapply initial_ok).
  clear E. induction Hsteps; [done|]. apply IHHsteps. by eapply slot_step_ok.
Qed.

Lemma release_next_total rt slot : slots_ok rt → slot < cfg_slots cfg →
  ∃ res, release_and_activate_next cfg node_cache rt slot = Ret res.
Proof.
  intros [Hwf _ _] Hs. unfold release_and_activate_next.
  destruct (release_spec _ _ slot Hwf Hs) as (d1 & -> & Hwf1 & _). cbn [run_bind].
  destruct (negb _); [by eexists|].
  destruct (oldest_buffering_spec (sd_states d1) (sd_running_frames d1)) as (o & -> & Ho).
  { intros s ([f x] & -> & Hin)%list_elem_of_fmap. rewrite (rg_states _ _ Hwf1). by eapply running_slot_lt. }
  cbn [run_bind]. destruct o as [s|]; [|by eexists]. destruct Ho as (f & l1 & l2 & _ & Hbuf & _).
  destruct (promote_spec _ _ s Hwf1 Hbuf) as (d2 & b & -> & Hwf2 & _). cbn [run_bind].
  destruct (bump_registry node_cache _ (with_slots d2 rt) s Hwf2) as (rt2 & -> & _).
  { rewrite <- (rg_states _ _ Hwf1). by eapply lookup_lt_Some. }
  by eexists.
Qed.

(** C13. The state machine of the slots, with 1 to 64 of them, whose steps are: admitting a
    frame with a number below 2^32, routing a packet of a network graph to a slot in use,
    resetting, completing and releasing slots, where with slot priority only an active slot is
    released, and work that leaves the registry alone. Its steps are whole operations. Restarts
    of graphs without a network, and with slot priority evictions of waiting slots, are no steps
    of it. In every state it reaches the registry is consistent (frames and slots are paired one
    to one, the bitmap and the lock-free cache agree with the states); with slot priority at
    most one slot is active, frames only wait behind an active one, and packets are held for
    waiting frames only; and neither admission nor release panics. *)
Theorem slots_invariant (slots : nat) (rt0 rt : Runtime C)
    (Hcfg : cfg_slots cfg = slots) (Hslots : 0 < slots ≤ 64)
    (Hinit : rt_slots rt0 = SlotData_new slots (build_slot_counters slots node_cache))
    (Hreach : rtc slot_step rt0 rt) :
  reg_wf slots (rt_slots rt)
  ∧ (cfg_slot_priority_enabled cfg = true → seq_wf (rt_slots rt))
  ∧ buf_wf (rt_slots rt)
  ∧ (∀ frame, frame_ok frame → ∃ res, assign_frame_to_available_slot cfg graph node_cache rt frame = Ret res)
  ∧ (∀ slot, slot < slots → ∃ res, release_and_activate_next cfg node_cache rt slot = Ret res).
Proof.
  assert (Hok : slots_ok rt) by (by eapply reachable_ok). pose proof Hok as [Hwf Hseq Hbuf].
  rewrite Hcfg in Hwf. split; [done|]. split; [done|]. split; [done|]. split.
  - intros frame Hf. destruct (assign_spec cfg graph node_cache slots rt frame Hwf Hcfg Hf) as (rt' & o & Hr & _).
    by eexists.
  - intros slot Hs. apply release_next_total; [done|lia].
Qed.

(** A frame that is running keeps its slot. *)
Lemma assign_running rt frame s : frame_ok frame → slots_ok rt → (frame, s) ∈ sd_running_frames (rt_slots rt) →
  assign_frame_to_available_slot cfg graph node_cache rt frame = Ret (rt, Some (s, false)).
Proof.
  intros Hf [Hwf _ _] Hin.
  destruct (assign_spec cfg graph node_cache _ rt frame Hwf eq_refl Hf) as (rt' & o & -> & _ & Hcase).
  assert (Hin1 : frame ∈ (sd_running_frames (rt_slots rt)).*1) by (apply list_elem_of_fmap; by exists (frame, s)).
  destruct Hcase as [[-> [(s' & -> & Hin')|(_ & Hno & _)]]|(? & ? & _ & Hno & _)]; [|done|done].
  f_equal. f_equal. f_equal. f_equal.
  by eapply NoDup_fst_functional; [apply Hwf| |].
Qed.

(** First packet wins: in a reachable state a frame that is running is always answered
    with its own slot and nothing changes, whether the lock-free cache still knows it or
    not; a new frame takes an inactive slot or is refused, and refused only when there is
    none. *)
Theorem first_packet_wins (rt : Runtime C) (frame : nat) (Hok : slots_ok rt) (Hf : frame_ok frame) :
  (∀ s, (frame, s) ∈ sd_running_frames (rt_slots rt) →
    assign_frame_to_available_slot cfg graph node_cache rt frame = Ret (rt, Some (s, false)))
  ∧ (frame ∉ (sd_running_frames (rt_slots rt)).*1 →
    ∃ rt' o, assign_frame_to_available_slot cfg graph node_cache rt frame = Ret (rt', o)
      ∧ match o with
        | Some (s, b) => sd_states (rt_slots rt) !! s = Some Inactive
            ∧ sd_states (rt_slots rt') !! s = Some (if b then Active else Buffering)
            ∧ sd_running_frames (rt_slots rt') = sd_running_frames (rt_slots rt) ++ [(frame, s)]
            ∧ assign_frame_to_available_slot cfg graph node_cache rt' frame = Ret (rt', Some (s, false))
        | None => rt' = rt ∧ ∀ s, s < cfg_slots cfg → sd_states (rt_slots rt) !! s ≠ Some Inactive
        end).
Proof.
  pose proof (λ rt1 s, assign_running rt1 frame s Hf) as Hknown.
  split; [by intros; apply Hknown|]. intros Hnew. pose proof Hok as [Hwf _ _].
  destruct (assign_spec cfg graph node_cache _ rt frame Hwf eq_refl Hf) as (rt' & o & Hrun & _ & Hcase).
  exists rt', o. split; [done|]. destruct Hcase as [[-> [(s & -> & Hin)|(-> & _ & Hno)]]|Hcase]; [|done|].
  - exfalso. apply Hnew, list_elem_of_fmap. by exists (frame, s).
  - destruct Hcase as (s & b & -> & _ & Hst & E1 & E2 & _). split; [done|].
    split; [rewrite E1; apply list_lookup_insert_eq; by eapply lookup_lt_Some|]. split; [done|].
    apply Hknown; [by eapply assign_ok|]. rewrite E2. apply elem_of_app. right. left.
Qed.

(** The states after a release with slot priority. *)
Lemma release_states d d1 slot : seq_wf d → sd_states d !! slot = Some Active →
  sd_states d1 = <[slot := Inactive]> (sd_states d) →
  (∀ s, sd_states d1 !! s ≠ Some Active)
  ∧ ∀ s, sd_states d1 !! s = Some Buffering ↔ sd_states d !! s = Some Buffering.
Proof.
  intros [Hone _ _] Hact E1. pose proof (lookup_lt_Some _ _ _ Hact) as Hlen.
  split; intros s; rewrite E1, states_insert by done; case_decide as He; try done.
  - intros Ha. apply He. by apply Hone.
  - subst. by rewrite Hact.
Qed.

(** With slot priority, releasing the active slot hands over to the frame that was
    admitted first among the waiting ones: its slot becomes the only active one, the
    packets held for it are returned in arrival order and its buffer is empty; when
    nothing waits the slot is just released. *)
Theorem promotes_oldest (rt : Runtime C) (slot : nat) (Hok : slots_ok rt)
    (Hpri : cfg_slot_priority_enabled cfg = true) (Hact : sd_states (rt_slots rt) !! slot = Some Active) :
  ∃ rt' r, release_and_activate_next cfg node_cache rt slot = Ret (rt', r)
    ∧ slot ∉ (sd_running_frames (rt_slots rt')).*2
    ∧ match r with
      | Some (s, packets) => ∃ f l1 l2, sd_running_frames (rt_slots rt') = l1 ++ (f, s) :: l2
          ∧ sd_states (rt_slots rt) !! s = Some Buffering
          ∧ (∀ t, t ∈ l1.*2 → sd_states (rt_slots rt) !! t ≠ Some Buffering)
          ∧ (∀ t, sd_states (rt_slots rt') !! t = Some Active ↔ t = s)
          ∧ sd_buffers (rt_slots rt) !! s = Some packets ∧ sd_buffers (rt_slots rt') !! s = Some []
      | None => ∀ s st, sd_states (rt_slots rt') !! s = Some st → st = Inactive
      end.
Proof.
  pose proof Hok as [Hwf Hseq _]. specialize (Hseq Hpri). unfold release_and_activate_next.
  assert (Hs : slot < cfg_slots cfg) by (rewrite <- (rg_states _ _ Hwf); by eapply lookup_lt_Some).
  destruct (release_spec _ _ slot Hwf Hs) as (d1 & -> & Hwf1 & E1 & E2 & E3 & E4). cbn [run_bind]. rewrite Hpri. cbn [negb].
  destruct (release_states _ _ _ Hseq Hact E1) as [Hnone Hbufs].
  assert (Hgone : slot ∉ (sd_running_frames d1).*2).
  { rewrite E2. by intros [_ ?]%filter_fmap_snd. }
  destruct (oldest_buffering_spec (sd_states d1) (sd_running_frames d1)) as (o & -> & Ho).
  { intros s ([f x] & -> & Hin)%list_elem_of_fmap. rewrite (rg_states _ _ Hwf1). by eapply running_slot_lt. }
  cbn [run_bind]. destruct o as [s|].
  - destruct Ho as (f & l1 & l2 & Hrun & Hbuf & Hold).
    destruct (promote_spec _ _ s Hwf1 Hbuf) as (d2 & b & -> & Hwf2 & Hb & F1 & F2 & F3 & _). cbn [run_bind].
    pose proof (lookup_lt_Some _ _ _ Hbuf) as Hslen.
    destruct (bump_registry node_cache _ (with_slots d2 rt) s Hwf2) as (rt2 & -> & Hreg & _).
    { rewrite <- (rg_states _ _ Hwf1). done. }
    destruct Hreg as (_ & _ & _ & G1 & G2 & _ & G3 & _). cbn [with_slots rt_slots] in G1, G2, G3. cbn [run_bind].
    eexists _, _. split; [done|]. cbn beta iota. rewrite G1, G2, G3, F1, F2, F3, <- E4. split; [done|].
    exists f, l1, l2. split; [done|]. split; [by apply Hbufs|]. split; [|split; [|split; [done|]]].
    + intros t Ht Hb'. by apply (Hold t Ht), Hbufs.
    + intros t. rewrite states_insert by done. case_decide as He; [done|]. split; [|done]. by intros ?%Hnone.
    + apply list_lookup_insert_eq. by eapply lookup_lt_Some.
  - eexists _, _. split; [done|]. split; [done|]. cbn. intros s st Hst. destruct st; [by apply Hnone in Hst| |done].
    exfalso. apply (Ho s); [|done]. apply (rg_busy _ _ Hwf1). by eexists.
Qed.
End machine.

(** ** Concrete runs *)

Definition demo_cfg : SlotConfig := mkSlotConfig 3 100 2 true.
Definition demo_counter : MultiThreadedCounter := mkCounter [] 0.
Definition demo_rt0 : Runtime MultiThreadedCounter :=
  mkRuntime (SlotData_new 3 (build_slot_counters 3 [])) demo_counter demo_map 0.

Definition demo_assign (rt : Runtime MultiThreadedCounter) (frame : nat) : Runtime MultiThreadedCounter :=
  match assign_frame_to_available_slot demo_cfg Graph_new [] rt frame with Ret (rt', _) => rt' | Panic => rt end.

(** Three frames: the first runs, the others wait. *)
Definition demo_rt : Runtime MultiThreadedCounter := demo_assign (demo_assign (demo_assign demo_rt0 7) 8) 9.

Lemma demo_reach : rtc (slot_step demo_cfg Graph_new []) demo_rt0 demo_rt.
Proof.
  eapply rtc_l; [|eapply rtc_l; [|apply rtc_once]].
  - apply (step_assign _ _ _ 7 demo_rt0 (demo_assign demo_rt0 7) (Some (0, true))); [done|vm_compute; reflexivity].
  - eapply (step_assign _ _ _ 8 _ (demo_assign (demo_assign demo_rt0 7) 8) (Some (1, false))); [done|vm_compute; reflexivity].
  - eapply (step_assign _ _ _ 9 _ demo_rt (Some (2, false))); [done|vm_compute; reflexivity].
Qed.

Lemma slots_invariant_witness : reg_wf 3 (rt_slots demo_rt) ∧ seq_wf (rt_slots demo_rt)
  ∧ sd_states (rt_slots demo_rt) = [Active; Buffering; Buffering].
Proof.
  destruct (slots_invariant demo_cfg Graph_new [] 3 demo_rt0 demo_rt eq_refl ltac:(lia) eq_refl demo_reach)
    as (H1 & H2 & _).
  split; [exact H1|]. split; [by apply H2|]. vm_compute. reflexivity.
Defined.

Lemma demo_ok : slots_ok demo_cfg Graph_new demo_rt.
Proof. apply (reachable_ok demo_cfg Graph_new [] 3 demo_rt0); [done|lia|done|exact demo_reach]. Qed.

Lemma first_packet_wins_witness :
  assign_frame_to_available_slot demo_cfg Graph_new [] demo_rt 8 = Ret (demo_rt, Some (1, false)).
Proof.
  refine (proj1 (first_packet_wins demo_cfg Graph_new [] demo_rt 8 demo_ok _) 1 _); [done|].
  vm_compute. right. left.
Defined.

Lemma promotes_oldest_witness : ∃ rt' r,
  release_and_activate_next demo_cfg [] demo_rt 0 = Ret (rt', r) ∧ 0 ∉ (sd_running_frames (rt_slots rt')).*2.
Proof.
  destruct (promotes_oldest demo_cfg Graph_new [] demo_rt 0 demo_ok eq_refl) as (rt' & r & Hr & Hn & _).
  - vm_compute. reflexivity.
  - exists rt', r. split; [exact Hr|exact Hn].
Defined.

(** ** Restarting in place *)

(** Two slots run frames 0 and 1 of a graph without a network; both are full frames. *)
Definition par_cfg : SlotConfig := mkSlotConfig 2 100 2 false.
Definition par_rt : run (Runtime MultiThreadedCounter) :=
  let rt0 := mkRuntime (SlotData_new 2 (build_slot_counters 2 [])) demo_counter demo_map 0 in
  let! (rt1, _) := assign_frame_to_available_slot par_cfg Graph_new [] rt0 0 in
  let! (rt2, _) := assign_frame_to_available_slot par_cfg Graph_new [] rt1 1 in
  Ret rt2.

(** The frame number of a restart, the completed frames plus the busy slots, is not
    fresh: when two resolution threads complete slots 0 and 1 and the first restarts its
    slot before the second releases its own, both slots get frame number 3. *)
Theorem restart_duplicates_frame :
  ∃ rt, (let! rt := par_rt in
         let! (rt, _) := process_slot_completion par_cfg rt 0 in
         let! (rt, _) := process_slot_completion par_cfg rt 1 in
         let! (rt, _) := release_and_activate_next par_cfg [] rt 0 in
         let! (rt, _) := restart_slot_nonnetwork par_cfg Graph_new rt 0 in
         let! (rt, _) := release_and_activate_next par_cfg [] rt 1 in
         let! (rt, _) := restart_slot_nonnetwork par_cfg Graph_new rt 1 in
         Ret rt) = Ret rt
    ∧ sd_running_frames (rt_slots rt) = [(3, 0); (3, 1)] ∧ sd_frame_id (rt_slots rt) = [3; 3]%Z.
Proof. eexists. split; [vm_compute; reflexivity|]. split; vm_compute; reflexivity. Qed.

(** ** The tasks a started slot begins with *)

Section starting.
Context (cfg : SlotConfig) (graph : Graph).

(** The slot, node and instance of every instance a task covers. *)
Definition started (ni : NodeInfo) : list (nat * nat * nat) := (λ i, (ni_slot ni, ni_id ni, i)) <$> covered ni.

Lemma started_chunk slot id o k : started (with_bulk_count k (NodeInfo_new id slot o 0)) = (λ i, (slot, id, i)) <$> range o (o + k).
Proof. done. Qed.

Lemma nat_sum_cons x l : nat_sum (x :: l) = x + nat_sum l.
Proof. done. Qed.

(** A chunk is not empty and belongs to its slot. *)
Definition chunk_ok (slot : nat) (ni : NodeInfo) : Prop :=
  0 < ni_bulk_count ni ∧ ni_slot ni = slot ∧ ni_post_node ni = false.

Lemma chunk_fold slot id (count : nat → nat) l acc start :
  let r := fold_left (λ s c,
       if count c =? 0 then s
       else (s.1 ++ [with_bulk_count (count c) (NodeInfo_new id slot s.2 0)], s.2 + count c)) l (acc, start) in
  r.1 ≫= started = (acc ≫= started) ++ ((λ i, (slot, id, i)) <$> range start r.2)
  ∧ r.2 = start + nat_sum (count <$> l)
  ∧ length r.1 ≤ length acc + length l
  ∧ (Forall (chunk_ok slot) acc → Forall (chunk_ok slot) r.1).
Proof.
  revert acc start. induction l as [|c l IH]; intros acc start; cbn [fold_left].
  - cbn [fst snd fmap list_fmap nat_sum length]. rewrite range_empty by lia.
    split; [by rewrite app_nil_r|]. split; [cbn; lia|]. split; [lia|done].
  - cbn [fmap list_fmap length]. destruct (Nat.eqb_spec (count c) 0) as [E|Hne].
    + destruct (IH acc start) as (H1 & H2 & H3 & H4). split; [exact H1|].
      rewrite H2, nat_sum_cons, E. split; [lia|]. split; [lia|done].
    + cbn [fst snd]. destruct (IH (acc ++ [with_bulk_count (count c) (NodeInfo_new id slot start 0)]) (start + count c))
        as (H1 & H2 & H3 & H4).
      rewrite length_app in H3. cbn [length] in H3.
      split; [|split; [rewrite H2, nat_sum_cons; lia|split; [lia|]]].
      * rewrite H1, bind_app. cbn [mbind list_bind]. rewrite app_nil_r, started_chunk, <- app_assoc, <- fmap_app.
        rewrite <- range_app; [done|lia|]. rewrite H2. lia.
      * intros Hacc. apply H4, Forall_app. split; [done|]. apply Forall_singleton. unfold chunk_ok. cbn. lia.
Qed.

(** The chunk sizes add up. *)
Lemma chunk_sizes base extra n : nat_sum ((λ c, base + (if c <? extra then 1 else 0)) <$> range 0 n) = base * n + Nat.min n extra.
Proof.
  induction n as [|n IH]; [cbn; lia|]. rewrite range_snoc, fmap_app, nat_sum_app, IH by lia. cbn [fmap list_fmap]. rewrite nat_sum_cons. cbn [nat_sum foldr].
  change (nat_sum []) with 0. destruct (Nat.ltb_spec n extra); nia.
Qed.

Lemma initial_chunks_spec slot id factor :
  (initial_node_chunks cfg slot id factor ≫= started) = (λ i, (slot, id, i)) <$> range 0 factor
  ∧ length (initial_node_chunks cfg slot id factor) ≤ Nat.max (cfg_workers cfg) 1
  ∧ Forall (chunk_ok slot) (initial_node_chunks cfg slot id factor).
Proof.
  unfold initial_node_chunks. destruct (Nat.eqb_spec factor 0) as [->|Hf]; [cbn; split; [done|split; [lia|done]]|].
  cbv zeta. set (n := Nat.min (Nat.max (cfg_workers cfg) 1) factor).
  destruct (chunk_fold slot id (λ c, factor / n + (if c <? factor mod n then 1 else 0)) (range 0 n) [] 0)
    as (H1 & H2 & H3 & H4).
  rewrite length_range in H3. cbn [length] in H3. split; [|split; [lia|by apply H4]].
  rewrite H1, H2, chunk_sizes. cbn [mbind list_bind app].
  assert (n ≠ 0) by lia. pose proof (Nat.mod_upper_bound factor n). pose proof (Nat.div_mod_eq factor n).
  do 2 f_equal. lia.
Qed.

Lemma foldM_collect {A} (f : list NodeInfo → A → run (list NodeInfo)) (P : A → Prop) (g : A → list NodeInfo) l acc :
  (∀ acc x, P x → f acc x = Ret (acc ++ g x)) → Forall P l → foldM f acc l = Ret (acc ++ (l ≫= g)).
Proof.
  intros Hf Hl. revert acc. induction Hl as [|x l Hx Hl IH]; intros acc; cbn [foldM]; [by rewrite app_nil_r|].
  rewrite (Hf acc x Hx). cbn [run_bind]. rewrite IH. cbn [mbind list_bind]. by rewrite <- app_assoc.
Qed.

Lemma bind_bind {A B D} (f : A → list B) (g : B → list D) l : (l ≫= f) ≫= g = l ≫= λ x, f x ≫= g.
Proof. induction l as [|x l IH]; [done|]. cbn [mbind list_bind]. rewrite bind_app. f_equal. exact IH. Qed.

Lemma length_bind_le {A B} (f : A → list B) l k : (∀ x, x ∈ l → length (f x) ≤ k) → length (l ≫= f) ≤ length l * k.
Proof.
  induction l as [|x l IH]; intros Hf; [done|]. cbn [mbind list_bind length]. rewrite length_app.
  assert (length (f x) ≤ k) by (apply Hf; left). assert (length (l ≫= f) ≤ length l * k) by (apply IH; intros; apply Hf; by right).
  unfold mbind in *. lia.
Qed.

(** The tasks a started slot begins with. *)
Lemma initial_nodes_spec (slots : list nat)
    (Hids : ∀ id, id ∈ g_initial_nodes graph → id < length (g_nodes graph)) :
  ∃ nodes, initial_nodes cfg graph slots = Ret nodes
    ∧ (nodes ≫= started) = (slots ≫= λ slot, g_initial_nodes graph ≫= λ id,
         (λ i, (slot, id, i)) <$> range 0 (default 0 (n_factor <$> g_nodes graph !! id)))
    ∧ Forall (λ ni, 0 < ni_bulk_count ni ∧ ni_slot ni ∈ slots ∧ ni_post_node ni = false) nodes
    ∧ length nodes ≤ length slots * (length (g_initial_nodes graph) * Nat.max (cfg_workers cfg) 1).
Proof.
  set (factor id := default 0 (n_factor <$> g_nodes graph !! id)).
  exists (slots ≫= λ slot, g_initial_nodes graph ≫= λ id, initial_node_chunks cfg slot id (factor id)).
  split; [|split; [|split]].
  - unfold initial_nodes. rewrite (foldM_collect _ (λ _, True) (λ slot, g_initial_nodes graph ≫= λ id, initial_node_chunks cfg slot id (factor id)));
      [done| |by apply Forall_true].
    intros acc slot _. apply (foldM_collect _ (λ id, id < length (g_nodes graph))); [|by apply Forall_forall].
    intros acc' id Hid. destruct (vec_get_lt _ _ Hid) as (node & -> & Hn). cbn [run_bind].
    unfold factor. by rewrite Hn.
  - rewrite bind_bind. apply list_bind_ext; [|done]. intros slot. rewrite bind_bind.
    apply list_bind_ext; [|done]. intros id. apply initial_chunks_spec.
  - apply Forall_bind, Forall_forall. intros slot Hslot. apply Forall_bind, Forall_true. intros id.
    eapply Forall_impl; [apply initial_chunks_spec|]. by intros ni (? & -> & ?).
  - apply length_bind_le. intros slot _. apply length_bind_le. intros id _. apply initial_chunks_spec.
Qed.

(** The tasks a started slot begins with cover every instance of every root of the
    graph exactly once, slot by slot and in order; a root gives at most one task per
    worker, and none is empty. *)
Theorem initial_nodes_cover (slots : list nat)
    (Hids : ∀ id, id ∈ g_initial_nodes graph → id < length (g_nodes graph)) :
  ∃ nodes, initial_nodes cfg graph slots = Ret nodes
    ∧ (nodes ≫= started) = (slots ≫= λ slot, g_initial_nodes graph ≫= λ id,
         (λ i, (slot, id, i)) <$> range 0 (default 0 (n_factor <$> g_nodes graph !! id)))
    ∧ Forall (λ ni, 0 < ni_bulk_count ni) nodes
    ∧ length nodes ≤ length slots * (length (g_initial_nodes graph) * Nat.max (cfg_workers cfg) 1).
Proof.
  destruct (initial_nodes_spec slots Hids) as (nodes & ? & ? & Hok & ?). exists nodes. split_and!; try done.
  eapply Forall_impl; [exact Hok|]. by intros ni (? & _).
Qed.
End starting.

(** One root with seven instances and two workers, in two slots. *)
Definition roots_graph : Graph :=
  mkGraph [mkNode "src" [] 0 None 7 None "" None None Normal None] [0] [[]] [] None None.

Lemma initial_nodes_cover_witness : ∃ nodes, initial_nodes demo_cfg roots_graph [0; 2] = Ret nodes
  ∧ ((λ ni, (ni_slot ni, ni_index ni, ni_bulk_count ni)) <$> nodes) = [(0, 0, 4); (0, 4, 3); (2, 0, 4); (2, 4, 3)].
Proof.
  destruct (initial_nodes_cover demo_cfg roots_graph [0; 2]) as (nodes & Hn & _).
  - cbn. intros id Hid. apply list_elem_of_singleton in Hid as ->. lia.
  - exists nodes. split; [exact Hn|]. vm_compute in Hn. injection Hn as <-. vm_compute. reflexivity.
Defined.
