(* ===== verification/Completion.v ===== *)
(** Detecting that a frame is complete ([detect_and_claim_slot_completion] of
    [runtime/slot_lifecycle.rs]) while workers and resolution threads count its tasks
    ([worker_resolve_successors] of [runtime/task_execution.rs], [process_batch_resolution] of
    [runtime/resolution_loop.rs]).

    A job is one call of the counting functions on the slot, a detector one resolution
    thread that checks the slot. Every access to a shared counter is a step of its own and
    steps interleave freely; the model covers the life of one frame in one slot, up to
    the reset by the thread that claims it. Memory is sequentially consistent. *)
From S2P Require Import Prelude Buffers GraphStruct NodeDep DepCounter.
From stdpp Require Import strings.

(** The counters of the slot. *)
Record Shared (C : Type) := mkShared {
  sh_pending : Z;
  sh_pending_cond : Z;
  sh_processing : Z;
  sh_needs_check : bool;
  sh_counter : C;
}.
Arguments mkShared {C}. Arguments sh_pending {C}. Arguments sh_pending_cond {C}. Arguments sh_processing {C}.
Arguments sh_needs_check {C}. Arguments sh_counter {C}.

Definition set_needs {C} (b : bool) (sh : Shared C) : Shared C :=
  mkShared (sh_pending sh) (sh_pending_cond sh) (sh_processing sh) b (sh_counter sh).
Definition set_proc {C} (n : Z) (sh : Shared C) : Shared C :=
  mkShared (sh_pending sh) (sh_pending_cond sh) n (sh_needs_check sh) (sh_counter sh).
Definition set_ctr {C} (c : C) (sh : Shared C) : Shared C :=
  mkShared (sh_pending sh) (sh_pending_cond sh) (sh_processing sh) (sh_needs_check sh) c.

(** A completed task: whether its node is a condition, and how many instances it covers. *)
Definition Work : Type := bool * nat.

(** Where a call stands. A job without work is a task of an older frame: it enters, sees
    the generation and bails out. *)
Inductive Job :=
  | Waiting (l : list Work)
  | Inside (l : list Work)
  | Bailing
  | Flagging
  | Gone.

(** Where a detector stands: outside; about to load the three counters, with what it has
    read so far; about to claim; the second reading; about to take the claim back. *)
Inductive Detector :=
  | Idle
  | Load0
  | Load1 (pending : Z)
  | Load2 (pending cond : Z)
  | Claiming
  | Reload0
  | Reload1 (pending : Z)
  | Reload2 (pending cond : Z)
  | Unmarking
  | Claimed.

Section steps.
Context {C : Type} `{DependencyCounter C} (slot : nat).

(** The fetch-and-sub of one completed task. *)
Definition count_work (w : Work) (sh : Shared C) : Shared C :=
  if w.1
  then mkShared (sh_pending sh) (as_u64 (sh_pending_cond sh - Z.of_nat w.2)) (sh_processing sh) (sh_needs_check sh) (sh_counter sh)
  else mkShared (as_u64 (sh_pending sh - Z.of_nat w.2)) (sh_pending_cond sh) (sh_processing sh) (sh_needs_check sh) (sh_counter sh).

Definition job_step (j : Job) (sh : Shared C) : option (Job * Shared C) :=
  match j with
  | Waiting l => Some (match l with [] => Bailing | _ => Inside l end, set_proc (as_u64 (sh_processing sh + 1)) sh)
  | Inside (w :: l) => Some (Inside l, count_work w sh)
  | Inside [] | Bailing => Some (Flagging, set_proc (as_u64 (sh_processing sh - 1)) sh)
  | Flagging => Some (Gone, set_needs true sh)
  | Gone => None
  end.

Definition detector_step (d : Detector) (sh : Shared C) : option (Detector * Shared C) :=
  match d with
  | Idle => if sh_needs_check sh then Some (Load0, set_needs false sh) else None
  | Load0 => Some (Load1 (sh_pending sh), sh)
  | Load1 p => Some (Load2 p (sh_pending_cond sh), sh)
  | Load2 p c =>
      if negb (p =? 0)%Z || negb (c =? 0)%Z || negb (sh_processing sh =? 0)%Z then Some (Idle, sh) else Some (Claiming, sh)
  | Claiming =>
      let (c, won) := try_complete_slot (sh_counter sh) slot in
      Some (if won then Reload0 else Idle, set_ctr c sh)
  | Reload0 => Some (Reload1 (sh_pending sh), sh)
  | Reload1 p => Some (Reload2 p (sh_pending_cond sh), sh)
  | Reload2 p c =>
      if negb (p =? 0)%Z || negb (c =? 0)%Z || negb (sh_processing sh =? 0)%Z then Some (Unmarking, sh) else Some (Claimed, sh)
  | Unmarking => Some (Idle, set_ctr (unmark_slot_completed (sh_counter sh) slot) sh)
  | Claimed => None
  end.

(** The slot with the calls on it. *)
Record Sys := mkSys {
  sy_shared : Shared C;
  sy_jobs : list Job;
  sy_detectors : list Detector;
}.

Inductive sys_step : Sys → Sys → Prop :=
  | sys_job sh jobs ds i j j' sh' : jobs !! i = Some j → job_step j sh = Some (j', sh') →
      sys_step (mkSys sh jobs ds) (mkSys sh' (<[i := j']> jobs) ds)
  | sys_detector sh jobs ds i d d' sh' : ds !! i = Some d → detector_step d sh = Some (d', sh') →
      sys_step (mkSys sh jobs ds) (mkSys sh' jobs (<[i := d']> ds)).

(** Running a schedule: the next step of a job or of a detector. *)
Definition run_step (who : bool * nat) (s : Sys) : option Sys :=
  let '(mkSys sh jobs ds) := s in
  if who.1 then
    match jobs !! who.2 with
    | Some j => (λ r, mkSys r.2 (<[who.2 := r.1]> jobs) ds) <$> job_step j sh
    | None => None
    end
  else
    match ds !! who.2 with
    | Some d => (λ r, mkSys r.2 jobs (<[who.2 := r.1]> ds)) <$> detector_step d sh
    | None => None
    end.

Definition run_schedule (whos : list (bool * nat)) (s : Sys) : option Sys :=
  fold_left (λ o who, match o with Some s => run_step who s | None => None end) whos (Some s).

(** A check that nobody disturbs. *)
Fixpoint solo (n : nat) (d : Detector) (sh : Shared C) : option (Detector * Shared C) :=
  match n with
  | 0 => Some (d, sh)
  | S n => match detector_step d sh with Some (d', sh') => solo n d' sh' | None => None end
  end.
End steps.

(** ** What the counters count *)

Definition total {A} (f : A → nat) (l : list A) : nat := nat_sum (f <$> l).

Lemma total_cons {A} (f : A → nat) x l : total f (x :: l) = f x + total f l.
Proof. done. Qed.

Lemma total_insert {A} (f : A → nat) l i x y : l !! i = Some x → total f (<[i := y]> l) + f x = total f l + f y.
Proof.
  revert i. induction l as [|z l IH]; intros [|i] Hl; try done.
  - injection Hl as ->. change (<[0 := y]> (x :: l)) with (y :: l). rewrite !total_cons. lia.
  - specialize (IH i Hl). change (<[S i := y]> (z :: l)) with (z :: <[i := y]> l). rewrite !total_cons. lia.
Qed.

Lemma total_zero {A} (f : A → nat) l : total f l = 0 ↔ ∀ x, x ∈ l → f x = 0.
Proof.
  induction l as [|x l IH]; [split; [by intros _ ? ?%not_elem_of_nil|done]|].
  rewrite total_cons. split.
  - intros Hz y [->|Hy]%elem_of_cons; [lia|]. apply IH; [lia|done].
  - intros Hall. rewrite (Hall x) by left. apply IH. intros. apply Hall. by right.
Qed.

Lemma total_elem {A} (f : A → nat) l i x : l !! i = Some x → f x ≤ total f l.
Proof.
  revert i. induction l as [|z l IH]; intros [|i] Hl; try done; rewrite total_cons.
  - injection Hl as ->. lia.
  - specialize (IH i Hl). lia.
Qed.

Lemma total_pos {A} (f : A → nat) l : 0 < total f l → ∃ i x, l !! i = Some x ∧ 0 < f x.
Proof.
  induction l as [|x l IH]; [by intros ?%Nat.lt_irrefl|]. rewrite total_cons. intros Ht.
  destruct (decide (0 < f x)); [by exists 0, x|]. destruct IH as (i & y & Hi & Hy); [lia|]. by exists (S i), y.
Qed.

Lemma total_le_length {A} (f : A → nat) l : (∀ x, f x ≤ 1) → total f l ≤ length l.
Proof.
  intros Hf. induction l as [|x l IH]; [done|]. rewrite total_cons. cbn [length]. specialize (Hf x). lia.
Qed.

Definition works (cond : bool) (l : list Work) : nat := nat_sum (snd <$> filter (λ w, w.1 = cond) l).
Definition work_left (cond : bool) (j : Job) : nat :=
  match j with Waiting l | Inside l => works cond l | _ => 0 end.
Definition inside (j : Job) : nat := match j with Inside _ | Bailing => 1 | _ => 0 end.
Definition holds (d : Detector) : nat :=
  match d with Reload0 | Reload1 _ | Reload2 _ _ | Unmarking | Claimed => 1 | _ => 0 end.

(** The job has nothing left to do for the frame. *)
Definition settled (j : Job) : Prop := match j with Waiting (_ :: _) | Inside _ => False | _ => True end.

(** Every completed task covers an instance. *)
Definition job_pos (j : Job) : Prop :=
  match j with Waiting l | Inside l => Forall (λ w, 0 < w.2) l | _ => True end.

Lemma works_cons cond w l : works cond (w :: l) = (if Bool.eqb w.1 cond then w.2 else 0) + works cond l.
Proof. unfold works. rewrite filter_cons. by destruct w as [[] n], cond. Qed.

Lemma works_nil cond : works cond [] = 0.
Proof. done. Qed.

(** What a detector knows. *)
Definition det_ok (jobs : list Job) (d : Detector) : Prop :=
  match d with
  | Idle | Load0 => True
  | Load1 p => p = 0%Z → total (work_left false) jobs = 0
  | Load2 p c => p = 0%Z → c = 0%Z → total (work_left false) jobs = 0 ∧ total (work_left true) jobs = 0
  | _ => Forall settled jobs
  end.

Section invariant.
Context {C : Type} `{CompletionLaws C} (slot : nat).

Record sys_ok (s : Sys) : Prop := {
  ok_pending : sh_pending (sy_shared s) = Z.of_nat (total (work_left false) (sy_jobs s));
  ok_cond : sh_pending_cond (sy_shared s) = Z.of_nat (total (work_left true) (sy_jobs s));
  ok_processing : sh_processing (sy_shared s) = Z.of_nat (total inside (sy_jobs s));
  ok_bound : ∀ cond, (Z.of_nat (total (work_left cond) (sy_jobs s)) < two64)%Z;
  ok_jobs : (Z.of_nat (length (sy_jobs s)) + 1 < two64)%Z;
  ok_pos : Forall job_pos (sy_jobs s);
  ok_claim : total holds (sy_detectors s) = if completed (sh_counter (sy_shared s)) slot then 1 else 0;
  ok_detectors : Forall (det_ok (sy_jobs s)) (sy_detectors s);
}.

Lemma no_work_settled jobs : Forall job_pos jobs → total (work_left false) jobs = 0 → total (work_left true) jobs = 0 →
  total inside jobs = 0 → Forall settled jobs.
Proof.
  intros Hpos Hf Ht Hi. apply Forall_forall. intros j Hj. pose proof (proj1 (Forall_forall _ _) Hpos j Hj) as Hp.
  pose proof (proj1 (total_zero _ _) Hf j Hj) as Hjf. pose proof (proj1 (total_zero _ _) Ht j Hj) as Hjt.
  pose proof (proj1 (total_zero _ _) Hi j Hj) as Hji. destruct j as [[|w l]|l| | |]; try done.
  cbn [job_pos work_left] in Hp, Hjf, Hjt. apply Forall_cons in Hp as [Hw _]. rewrite works_cons in Hjf, Hjt.
  destruct w as [[] n]; cbn [Bool.eqb fst snd] in *; lia.
Qed.

(** The counters after a job step, and that a job never gets work back. *)
Lemma job_step_ok j sh j' sh' wf wt np : job_step (C := C) j sh = Some (j', sh') →
  sh_pending sh = Z.of_nat wf → sh_pending_cond sh = Z.of_nat wt → sh_processing sh = Z.of_nat np →
  work_left false j ≤ wf → work_left true j ≤ wt → inside j ≤ np →
  (Z.of_nat wf < two64)%Z → (Z.of_nat wt < two64)%Z → (Z.of_nat np + 1 < two64)%Z →
  (sh_pending sh' + Z.of_nat (work_left false j) = Z.of_nat (wf + work_left false j')
  ∧ sh_pending_cond sh' + Z.of_nat (work_left true j) = Z.of_nat (wt + work_left true j')
  ∧ sh_processing sh' + Z.of_nat (inside j) = Z.of_nat (np + inside j'))%Z
  ∧ sh_counter sh' = sh_counter sh
  ∧ (∀ cond, work_left cond j' ≤ work_left cond j) ∧ (job_pos j → job_pos j') ∧ (settled j → settled j').
Proof.
  intros Hstep E1 E2 E3 L1 L2 L3 B1 B2 B3.
  assert (Hin : as_u64 (Z.of_nat np + 1) = (Z.of_nat np + 1)%Z) by (apply as_u64_small; lia).
  destruct j as [[|w l]|[|w l]| | |]; cbn [job_step] in Hstep; try discriminate; injection Hstep as <- <-;
    cbn [set_proc set_needs sh_pending sh_pending_cond sh_processing sh_counter inside work_left] in *;
    rewrite ?E1, ?E2, ?E3, ?Hin, ?works_nil in *.
  - split; [lia|]. split; [done|]. split; [intros []; rewrite ?works_nil; lia|]. done.
  - split; [lia|]. split; [done|]. split; [intros []; lia|]. done.
  - rewrite as_u64_small by lia. split; [lia|]. split; [done|]. split; [intros []; rewrite ?works_nil; lia|]. done.
  - rewrite works_cons in L1, L2. rewrite !works_cons. destruct w as [[] n]; cbn [Bool.eqb count_work fst snd sh_pending sh_pending_cond sh_processing sh_counter] in *;
      rewrite ?E1, ?E2, ?E3.
    all: rewrite as_u64_small by lia; split; [lia|]; split; [done|]; split; [intros []; rewrite works_cons; lia|].
    all: by split; [intros [_ ?]%Forall_cons|].
  - rewrite as_u64_small by lia. split; [lia|]. split; [done|]. split; [intros []; lia|]. done.
  - split; [lia|]. split; [done|]. split; [intros []; lia|]. done.
Qed.

Lemma det_ok_job jobs i j j' d : jobs !! i = Some j → (∀ cond, work_left cond j' ≤ work_left cond j) →
  (settled j → settled j') → det_ok jobs d → det_ok (<[i := j']> jobs) d.
Proof.
  intros Hi Hw Hs. pose proof (total_insert (work_left false) jobs i j j' Hi). pose proof (total_insert (work_left true) jobs i j j' Hi).
  pose proof (Hw false). pose proof (Hw true).
  assert (Hset : Forall settled jobs → Forall settled (<[i := j']> jobs)).
  { intros Hall. apply Forall_insert; [done|]. apply Hs. by eapply Forall_lookup_1. }
  destruct d; cbn; auto; [intros Hd Hp; specialize (Hd Hp); lia|].
  intros Hd Hp Hc. destruct (Hd Hp Hc). lia.
Qed.

Lemma job_step_sys sh jobs ds i j j' sh' : sys_ok (mkSys sh jobs ds) → jobs !! i = Some j →
  job_step j sh = Some (j', sh') → sys_ok (mkSys sh' (<[i := j']> jobs) ds).
Proof.
  intros [E1 E2 E3 B Bj Hpos Hcl Hdet] Hi Hstep. cbn [sy_shared sy_jobs sy_detectors] in *.
  pose proof (total_le_length inside jobs ltac:(intros []; cbn; lia)) as Hin.
  destruct (job_step_ok j sh j' sh' (total (work_left false) jobs) (total (work_left true) jobs) (total inside jobs))
    as ((F1 & F2 & F3) & F4 & Hw & Hp & Hs); try done; try (by eapply total_elem); [lia|].
  pose proof (total_insert (work_left false) jobs i j j' Hi). pose proof (total_insert (work_left true) jobs i j j' Hi).
  pose proof (total_insert inside jobs i j j' Hi). pose proof (Hw false). pose proof (Hw true).
  pose proof (B false). pose proof (B true).
  constructor; cbn [sy_shared sy_jobs sy_detectors]; try lia.
  - intros []; lia.
  - by rewrite length_insert.
  - apply Forall_insert; [done|]. apply Hp. by eapply Forall_lookup_1.
  - by rewrite F4.
  - eapply Forall_impl; [exact Hdet|]. intros d. by eapply det_ok_job.
Qed.

Lemma detector_step_sys sh jobs ds i d d' sh' : slot < 64 → sys_ok (mkSys sh jobs ds) → ds !! i = Some d →
  detector_step slot d sh = Some (d', sh') → sys_ok (mkSys sh' jobs (<[i := d']> ds)).
Proof.
  intros Hslot [E1 E2 E3 B Bj Hpos Hcl Hdet] Hi Hstep. cbn [sy_shared sy_jobs sy_detectors] in *.
  pose proof (total_insert holds ds i d d' Hi) as Ht. pose proof (total_elem holds ds i d Hi) as Hle.
  assert (Hd : det_ok jobs d) by (by eapply Forall_lookup_1).
  assert (Hkeep : holds d' = holds d → det_ok jobs d' → sh_counter sh' = sh_counter sh →
    sh_pending sh' = sh_pending sh → sh_pending_cond sh' = sh_pending_cond sh → sh_processing sh' = sh_processing sh →
    sys_ok (mkSys sh' jobs (<[i := d']> ds))).
  { intros F1 F2 F3 F4 F5 F6. constructor; cbn [sy_shared sy_jobs sy_detectors]; rewrite ?F3, ?F4, ?F5, ?F6; try done.
    - lia.
    - by apply Forall_insert. }
  destruct d; cbn [detector_step] in Hstep.
  - destruct (sh_needs_check sh); [|done]. injection Hstep as <- <-. by apply Hkeep.
  - injection Hstep as <- <-. apply Hkeep; try done. cbn. rewrite E1. lia.
  - injection Hstep as <- <-. apply Hkeep; try done. cbn. intros Hp Hc. split; [by apply Hd|]. lia.
  - destruct (Z.eqb_spec pending 0), (Z.eqb_spec cond 0), (Z.eqb_spec (sh_processing sh) 0); cbn [negb orb] in Hstep;
      injection Hstep as <- <-; apply Hkeep; try done. cbn. destruct Hd as [Hf Ht']; [done..|].
    apply no_work_settled; [done..|]. lia.
  - pose proof (try_complete_wins (sh_counter sh) slot Hslot) as Hwon.
    pose proof (try_complete_marks (sh_counter sh) slot slot Hslot Hslot) as Hmark. rewrite Nat.eqb_refl, orb_true_r in Hmark.
    destruct (try_complete_slot (sh_counter sh) slot) as [c won]. cbn in Hwon, Hmark. injection Hstep as <- <-.
    constructor; cbn [sy_shared sy_jobs sy_detectors set_ctr sh_pending sh_pending_cond sh_processing sh_counter]; try done.
    + rewrite Hmark. rewrite Hcl in Ht. destruct won, (completed (sh_counter sh) slot); try discriminate; cbn [holds] in Ht; lia.
    + apply Forall_insert; [done|]. by destruct won.
  - injection Hstep as <- <-. by apply Hkeep.
  - injection Hstep as <- <-. by apply Hkeep.
  - destruct (_ || _); injection Hstep as <- <-; by apply Hkeep.
  - injection Hstep as <- <-.
    pose proof (unmark_clears (sh_counter sh) slot slot Hslot Hslot) as Hclr. rewrite Nat.eqb_refl, andb_false_r in Hclr.
    constructor; cbn [sy_shared sy_jobs sy_detectors set_ctr sh_pending sh_pending_cond sh_processing sh_counter]; try done.
    + rewrite Hclr. cbn [holds] in Ht, Hle. destruct (completed (sh_counter sh) slot); lia.
    + by apply Forall_insert.
  - done.
Qed.

Lemma sys_step_ok s s' : slot < 64 → sys_step slot s s' → sys_ok s → sys_ok s'.
Proof.
  intros Hslot Hstep Hok. destruct Hstep; [by eapply job_step_sys|by eapply detector_step_sys].
Qed.

(** A slot at the start of a frame: the counters are the totals of the tasks to come. *)
Record starts (s : Sys) : Prop := {
  st_pending : sh_pending (sy_shared s) = Z.of_nat (total (work_left false) (sy_jobs s));
  st_cond : sh_pending_cond (sy_shared s) = Z.of_nat (total (work_left true) (sy_jobs s));
  st_processing : sh_processing (sy_shared s) = 0%Z;
  st_flag : sh_needs_check (sy_shared s) = true;
  st_claim : completed (sh_counter (sy_shared s)) slot = false;
  st_bound : ∀ cond, (Z.of_nat (total (work_left cond) (sy_jobs s)) < two64)%Z;
  st_many : (Z.of_nat (length (sy_jobs s)) + 1 < two64)%Z;
  st_jobs : ∀ j, j ∈ sy_jobs s → ∃ l, j = Waiting l ∧ Forall (λ w, 0 < w.2) l;
  st_detectors : ∀ d, d ∈ sy_detectors s → d = Idle;
}.

Lemma starts_ok s : starts s → sys_ok s.
Proof.
  intros []. constructor; try done.
  - rewrite st_processing0. rewrite (proj2 (total_zero _ _)); [done|].
    intros j (l & -> & _)%st_jobs0. done.
  - apply Forall_forall. intros j (l & -> & Hl)%st_jobs0. done.
  - rewrite st_claim0. apply total_zero. by intros d ->%st_detectors0.
  - apply Forall_forall. by intros d ->%st_detectors0.
Qed.

Lemma reachable_sys_ok s s' : slot < 64 → starts s → rtc (sys_step slot) s s' → sys_ok s'.
Proof.
  intros Hslot Hst Hsteps. apply starts_ok in Hst. induction Hsteps; [done|]. apply IHHsteps. by eapply sys_step_ok.
Qed.

(** C7. A frame is claimed only when it is complete: whatever the interleaving of the
    completing tasks with the threads that check the slot, when a check claims the slot
    every task is counted and every call that counted one has driven its successors and
    left, both counters are zero, and no other check has claimed the slot. *)
Theorem claimed_only_when_complete (s s' : Sys) (Hslot : slot < 64) (Hstart : starts s)
    (Hsteps : rtc (sys_step slot) s s') (i : nat) (Hclaim : sy_detectors s' !! i = Some Claimed) :
  Forall settled (sy_jobs s')
  ∧ sh_pending (sy_shared s') = 0%Z ∧ sh_pending_cond (sy_shared s') = 0%Z
  ∧ ∀ k, sy_detectors s' !! k = Some Claimed → k = i.
Proof.
  destruct (reachable_sys_ok s s' Hslot Hstart Hsteps) as [E1 E2 E3 B Bj Hpos Hcl Hdet].
  assert (Hset : Forall settled (sy_jobs s')) by (apply (proj1 (Forall_lookup _ _) Hdet i _ Hclaim)).
  assert (Hzero : ∀ cond, total (work_left cond) (sy_jobs s') = 0).
  { intros cond. apply total_zero. intros j Hj. pose proof (proj1 (Forall_forall _ _) Hset j Hj) as Hs.
    by destruct j as [[]| | | |]. }
  split; [done|]. split; [by rewrite E1, Hzero|]. split; [by rewrite E2, Hzero|].
  intros k Hk. destruct (decide (k = i)) as [|Hne]; [done|]. exfalso.
  pose proof (total_insert holds _ i _ Idle Hclaim) as Ht.
  assert (Hk' : <[i := Idle]> (sy_detectors s') !! k = Some Claimed) by (by rewrite list_lookup_insert_ne).
  pose proof (total_elem holds _ k _ Hk') as Hle. cbn [holds] in Ht, Hle. rewrite Hcl in Ht.
  destruct (completed _ _); lia.
Qed.

Lemma run_step_sound who s s' : run_step slot who s = Some s' → sys_step slot s s'.
Proof.
  destruct s as [sh jobs ds]. unfold run_step. destruct who.1.
  - destruct (jobs !! who.2) as [j|] eqn:Hj; [|done]. destruct (job_step j sh) as [[j' sh']|] eqn:Hs; [|done].
    intros [= <-]. by eapply sys_job.
  - destruct (ds !! who.2) as [d|] eqn:Hd; [|done]. destruct (detector_step slot d sh) as [[d' sh']|] eqn:Hs; [|done].
    intros [= <-]. by eapply sys_detector.
Qed.

Lemma run_schedule_sound whos s s' : run_schedule slot whos s = Some s' → rtc (sys_step slot) s s'.
Proof.
  unfold run_schedule. revert s. induction whos as [|who whos IH]; intros s; cbn [fold_left]; [by intros [= ->]|].
  destruct (run_step slot who s) as [s1|] eqn:Hs.
  - intros Hr. eapply rtc_l; [by eapply run_step_sound|by apply IH].
  - intros Hr. exfalso. clear -Hr. induction whos; [done|]. by apply IHwhos.
Qed.

(** ** No completion is missed *)

(** A task of this frame. *)
Definition fresh (j : Job) : Prop := j ≠ Waiting [] ∧ j ≠ Bailing.

(** A second reading that sees no task left. *)
Definition det_live (d : Detector) : Prop :=
  match d with
  | Reload1 p => p = 0%Z
  | Reload2 p c => p = 0%Z ∧ c = 0%Z
  | Unmarking => False
  | _ => True
  end.

(** A check that will claim the slot unless another one does. *)
Definition good (d : Detector) : Prop :=
  match d with
  | Idle | Unmarking => False
  | Load1 p => p = 0%Z
  | Load2 p c => p = 0%Z ∧ c = 0%Z
  | _ => True
  end.

Record live (s : Sys (C := C)) : Prop := {
  lv_fresh : Forall fresh (sy_jobs s);
  lv_det : Forall det_live (sy_detectors s);
  lv_good : Forall (λ j, j = Gone) (sy_jobs s) →
    sh_needs_check (sy_shared s) = true ∨ ∃ i d, sy_detectors s !! i = Some d ∧ good d;
}.

Lemma settled_zero s : sys_ok s → Forall settled (sy_jobs s) → Forall fresh (sy_jobs s) →
  sh_pending (sy_shared s) = 0%Z ∧ sh_pending_cond (sy_shared s) = 0%Z ∧ sh_processing (sy_shared s) = 0%Z.
Proof.
  intros [E1 E2 E3 _ _ _ _ _] Hset Hfr. rewrite E1, E2, E3.
  assert (Hz : ∀ f : Job → nat, (∀ j, settled j → fresh j → f j = 0) → total f (sy_jobs s) = 0).
  { intros f Hf. apply total_zero. intros j Hj. apply Hf; by eapply Forall_forall. }
  rewrite !Hz; [done|..]; intros [[]|[]| | |] Hs [Hf1 Hf2]; done.
Qed.

Lemma live_job sh jobs ds i j j' sh' : live (mkSys sh jobs ds) → jobs !! i = Some j →
  job_step j sh = Some (j', sh') → live (mkSys sh' (<[i := j']> jobs) ds).
Proof.
  intros [Hfr Hdet Hgood] Hi Hstep. cbn [sy_shared sy_jobs sy_detectors] in *.
  pose proof (Forall_lookup_1 _ _ _ _ Hfr Hi) as [Hj1 Hj2]. constructor; cbn [sy_shared sy_jobs sy_detectors]; [|done|].
  - apply Forall_insert; [done|]. destruct j as [[]|[]| | |]; cbn in Hstep; simplify_eq; by split.
  - intros Hall. pose proof (Forall_lookup_1 _ _ _ j' Hall (list_lookup_insert_eq _ _ _ (lookup_lt_Some _ _ _ Hi))) as ->.
    destruct j as [[]|[]| | |]; cbn in Hstep; try discriminate. injection Hstep as <-. by left.
Qed.

Lemma detector_progress sh jobs ds i d d' sh' : slot < 64 → sys_ok (mkSys sh jobs ds) → live (mkSys sh jobs ds) →
  ds !! i = Some d → detector_step slot d sh = Some (d', sh') →
  det_live d' ∧ (Forall (λ j, j = Gone) jobs → good d → good d' ∨ ∃ k x, k ≠ i ∧ ds !! k = Some x ∧ good x)
  ∧ (sh_needs_check sh' = sh_needs_check sh ∨ good d').
Proof.
  intros Hslot Hok [Hfr Hdet _] Hi Hstep. pose proof Hok as [_ _ _ _ _ _ Hcl Hdok].
  cbn [sy_shared sy_jobs sy_detectors] in *.
  pose proof (Forall_lookup_1 _ _ _ _ Hdok Hi) as Hd. pose proof (Forall_lookup_1 _ _ _ _ Hdet Hi) as Hl.
  assert (Hz : Forall settled jobs → sh_pending sh = 0%Z ∧ sh_pending_cond sh = 0%Z ∧ sh_processing sh = 0%Z).
  { intros Hs. by apply (settled_zero (mkSys sh jobs ds)). }
  assert (Hdone : Forall (λ j, j = Gone) jobs → Forall settled jobs) by (intros Ha; eapply Forall_impl; [exact Ha|by intros ? ->]).
  destruct d; cbn [detector_step det_ok det_live good] in *.
  - destruct (sh_needs_check sh); [|done]. injection Hstep as <- <-. by split; [|split; [|right]].
  - injection Hstep as <- <-. split; [done|]. split; [|by left]. intros Ha _. left. by apply Hz, Hdone.
  - injection Hstep as <- <-. split; [done|]. split; [|by left]. intros Ha Hp. left. split; [done|]. by apply Hz, Hdone.
  - split; [destruct (_ || _ || _); by injection Hstep as <- <-|].
    split; [|destruct (_ || _ || _); injection Hstep as <- <-; by left].
    intros Ha [-> ->]. destruct (Hz (Hdone Ha)) as (_ & _ & Hp). rewrite Hp in Hstep. injection Hstep as <- <-. by left.
  - pose proof (try_complete_wins (sh_counter sh) slot Hslot) as Hwon.
    destruct (try_complete_slot (sh_counter sh) slot) as [c won]. cbn in Hwon. injection Hstep as <- <-.
    split; [by destruct won|]. split; [|by left]. intros _ _. destruct won; [by left|right].
    destruct (total_pos holds ds) as (k & x & Hk & Hx); [destruct (completed (sh_counter sh) slot); [lia|done]|].
    pose proof (Forall_lookup_1 _ _ _ _ Hdet Hk) as Hxl. exists k, x. split; [|split; [done|]].
    + intros ->. rewrite Hi in Hk. injection Hk as <-. by apply Nat.lt_irrefl in Hx.
    + destruct x; cbn in *; done || lia.
  - injection Hstep as <- <-. split; [by apply Hz|]. split; [by left|by left].
  - injection Hstep as <- <-. split; [split; [done|by apply Hz]|]. split; [by left|by left].
  - destruct Hl as [-> ->]. destruct (Hz Hd) as (_ & _ & Hp). rewrite Hp in Hstep. injection Hstep as <- <-.
    split; [done|]. split; [by left|by left].
  - done.
  - done.
Qed.

Lemma live_detector sh jobs ds i d d' sh' : slot < 64 → sys_ok (mkSys sh jobs ds) → live (mkSys sh jobs ds) →
  ds !! i = Some d → detector_step slot d sh = Some (d', sh') → live (mkSys sh' jobs (<[i := d']> ds)).
Proof.
  intros Hslot Hok Hlive Hi Hstep. pose proof Hlive as [Hfr Hdet Hgood].
  cbn [sy_shared sy_jobs sy_detectors] in *. pose proof (lookup_lt_Some _ _ _ Hi) as Hlen.
  destruct (detector_progress sh jobs ds i d d' sh' Hslot Hok Hlive Hi Hstep) as (Hl' & Hg' & Hn'). constructor; cbn [sy_shared sy_jobs sy_detectors]; [done|by apply Forall_insert|].
  intros Hall. destruct Hn' as [->|Hg]; [|right; exists i, d'; by rewrite list_lookup_insert_eq].
  destruct (Hgood Hall) as [Hn|(k & x & Hk & Hx)]; [by left|right].
  assert (Hother : ∀ k x, k ≠ i → ds !! k = Some x → good x → ∃ k x, <[i := d']> ds !! k = Some x ∧ good x).
  { intros k' x' Hne Hk' Hx'. exists k', x'. by rewrite list_lookup_insert_ne. }
  destruct (decide (k = i)) as [->|Hne]; [|by eapply Hother].
  rewrite Hi in Hk. injection Hk as <-. destruct (Hg' Hall Hx) as [Hg|(k & y & Hne & Hk & Hy)]; [|by eapply Hother].
  exists i, d'. by rewrite list_lookup_insert_eq.
Qed.

Lemma reachable_live s s' : slot < 64 → starts s → Waiting [] ∉ sy_jobs s → rtc (sys_step slot) s s' → live s'.
Proof.
  intros Hslot Hst Hno Hsteps. assert (Hl : live s).
  { destruct Hst. constructor.
    - apply Forall_forall. intros j Hj. destruct (st_jobs0 j Hj) as (l & -> & _). split; [|done]. by intros [= ->].
    - apply Forall_forall. by intros d ->%st_detectors0.
    - by left. }
  apply starts_ok in Hst. clear Hno. induction Hsteps as [|s s1 s' Hstep Hsteps IH]; [done|].
  apply IH; [by eapply sys_step_ok|]. destruct Hstep; [by eapply live_job|by eapply live_detector].
Qed.

(** C8. No completion is missed: when no task of an older frame comes in between, and all
    calls have left the slot and no check is under way, then some check has claimed the
    slot, or the flag is up and the next check by any thread claims it in eight steps. *)
Theorem completion_not_missed (s s' : Sys) (Hslot : slot < 64) (Hstart : starts s)
    (Hfresh : Waiting [] ∉ sy_jobs s) (Hsteps : rtc (sys_step slot) s s')
    (Hgone : Forall (λ j, j = Gone) (sy_jobs s'))
    (Hquiet : Forall (λ d, d = Idle ∨ d = Claimed) (sy_detectors s')) :
  (∃ i, sy_detectors s' !! i = Some Claimed)
  ∨ sh_needs_check (sy_shared s') = true ∧ ∃ sh, solo slot 8 Idle (sy_shared s') = Some (Claimed, sh).
Proof.
  pose proof (reachable_sys_ok s s' Hslot Hstart Hsteps) as Hok.
  pose proof (reachable_live s s' Hslot Hstart Hfresh Hsteps) as [Hfr _ Hgood].
  assert (Hset : Forall settled (sy_jobs s')) by (eapply Forall_impl; [exact Hgone|by intros ? ->]).
  destruct (settled_zero s' Hok Hset Hfr) as (Z1 & Z2 & Z3).
  destruct (Hgood Hgone) as [Hn|(i & d & Hi & Hd)].
  - destruct (completed (sh_counter (sy_shared s')) slot) eqn:Hc.
    + left. destruct (total_pos holds (sy_detectors s')) as (i & d & Hi & Hd); [rewrite (ok_claim _ Hok), Hc; lia|].
      exists i. rewrite Hi. destruct (Forall_lookup_1 _ _ _ _ Hquiet Hi) as [-> | ->]; [cbn in Hd; lia|done].
    + right. split; [done|]. clear -Z1 Z2 Z3 Hn Hc Hslot. destruct (sy_shared s') as [p c np n ctr].
      cbn [sh_pending sh_pending_cond sh_processing sh_needs_check sh_counter] in *. subst p c np n.
      pose proof (try_complete_wins ctr slot Hslot) as Hwon. rewrite Hc in Hwon.
      destruct (try_complete_slot ctr slot) as [c won] eqn:Htry. cbn in Hwon. subst won.
      exists (mkShared 0 0 0 false c). cbn -[try_complete_slot]. rewrite Htry. done.
  - left. exists i. rewrite Hi. by destruct (Forall_lookup_1 _ _ _ _ Hquiet Hi) as [-> | ->].
Qed.
End invariant.

(** ** Concrete runs *)

(** One completed task of two instances and one condition, one checking thread or two. *)
Definition demo_sys (jobs : list Job) (checks : nat) : Sys :=
  mkSys (mkShared 2 1 0 true (mkCounter [] 0)) jobs (replicate checks Idle).
Definition demo_jobs : list Job := [Waiting [(false, 2)]; Waiting [(true, 1)]].

Lemma demo_starts checks jobs : jobs = demo_jobs ∨ jobs = demo_jobs ++ [Waiting []] → starts 0 (demo_sys jobs checks).
Proof.
  intros Hj. constructor; try (destruct Hj as [-> | ->]; reflexivity).
  - intros []; destruct Hj as [-> | ->]; reflexivity.
  - intros j Hin. assert (Hin' : j ∈ demo_jobs ++ [Waiting []]) by (destruct Hj as [-> | ->]; [set_solver|done]).
    apply elem_of_app in Hin' as [Hin'|Hin']; [|apply list_elem_of_singleton in Hin' as ->; by exists []].
    unfold demo_jobs in Hin'. apply elem_of_cons in Hin' as [->|Hin'%list_elem_of_singleton]; [|subst j];
      (eexists; split; [done|]; apply Forall_singleton; cbn; lia).
  - cbn. by intros d [-> _]%elem_of_replicate.
Qed.

(** Both tasks are counted and leave, then a thread checks the slot. *)
Definition demo_schedule : list (bool * nat) :=
  [(true, 0); (true, 1); (true, 0); (true, 1); (true, 0); (true, 1); (true, 0); (true, 1)].
Definition demo_check : list (bool * nat) := replicate 8 (false, 0).

Lemma claimed_only_when_complete_witness : ∃ s', rtc (sys_step 0) (demo_sys demo_jobs 1) s'
  ∧ sy_detectors s' !! 0 = Some Claimed ∧ Forall settled (sy_jobs s').
Proof.
  destruct (run_schedule 0 (demo_schedule ++ demo_check) (demo_sys demo_jobs 1)) as [s'|] eqn:Hr; [|discriminate Hr].
  exists s'. assert (Hreach : rtc (sys_step 0) (demo_sys demo_jobs 1) s') by (exact (run_schedule_sound 0 _ _ _ Hr)).
  assert (Hc : sy_detectors s' !! 0 = Some Claimed) by (vm_compute in Hr; injection Hr as <-; reflexivity).
  split; [exact Hreach|]. split; [exact Hc|].
  exact (proj1 (claimed_only_when_complete 0 _ s' ltac:(lia) (demo_starts 1 _ (or_introl eq_refl)) Hreach 0 Hc)).
Defined.

Lemma completion_not_missed_witness : ∃ s', rtc (sys_step 0) (demo_sys demo_jobs 1) s'
  ∧ ((∃ i, sy_detectors s' !! i = Some Claimed)
     ∨ sh_needs_check (sy_shared s') = true ∧ ∃ sh, solo 0 8 Idle (sy_shared s') = Some (Claimed, sh)).
Proof.
  destruct (run_schedule 0 demo_schedule (demo_sys demo_jobs 1)) as [s'|] eqn:Hr; [|discriminate Hr].
  exists s'. assert (Hreach : rtc (sys_step 0) (demo_sys demo_jobs 1) s') by (exact (run_schedule_sound 0 _ _ _ Hr)).
  split; [exact Hreach|].
  apply (completion_not_missed 0 _ s' ltac:(lia) (demo_starts 1 _ (or_introl eq_refl))); [|exact Hreach| |].
  - intros Hin. apply elem_of_cons in Hin as [Hin|Hin%list_elem_of_singleton]; discriminate Hin.
  - vm_compute in Hr. injection Hr as <-. repeat constructor.
  - vm_compute in Hr. injection Hr as <-. repeat (constructor; [left; reflexivity|]). constructor.
Defined.

(** With a task of an older frame and two checking threads a completion is missed: the
    first check claims the slot, sees the old task inside, and before it takes the claim
    back the old task leaves and the second check, finding the slot claimed, gives up;
    then nobody has claimed the slot, nothing raises the flag again and no step is left. *)
Theorem stale_task_hides_completion : ∃ s',
  rtc (sys_step 0) (demo_sys (demo_jobs ++ [Waiting []]) 2) s'
  ∧ Forall (λ j, j = Gone) (sy_jobs s') ∧ sy_detectors s' = [Idle; Idle]
  ∧ sh_pending (sy_shared s') = 0%Z ∧ sh_pending_cond (sy_shared s') = 0%Z ∧ sh_processing (sy_shared s') = 0%Z
  ∧ completed (sh_counter (sy_shared s')) 0 = false ∧ ∀ s'', ¬ sys_step 0 s' s''.
Proof.
  destruct (run_schedule 0
    (demo_schedule
     ++ replicate 7 (false, 0)            (* the first check wins the claim and reads zero tasks *)
     ++ [(true, 2); (false, 0)]           (* the old task enters; the check sees it *)
     ++ [(true, 2); (true, 2)]            (* the old task leaves and raises the flag *)
     ++ replicate 5 (false, 1)            (* the second check loses the claim *)
     ++ [(false, 0)])                     (* the first takes its claim back *)
    (demo_sys (demo_jobs ++ [Waiting []]) 2)) as [s'|] eqn:Hr; [|discriminate Hr].
  exists s'. split; [exact (run_schedule_sound 0 _ _ _ Hr)|].
  vm_compute in Hr. injection Hr as <-. split; [repeat constructor|].
  do 5 (split; [reflexivity|]). intros s'' Hstep. inversion Hstep as [sh jobs ds i j j' sh' Hj Hs|sh jobs ds i d d' sh' Hd Hs]; subst.
  - by destruct i as [|[|[|i]]]; cbn in Hj; simplify_eq.
  - by destruct i as [|[|i]]; cbn in Hd; simplify_eq.
Qed.
