(* ===== verification/Exec.v ===== *)
(** Resolving completed tasks: on the worker that ran the task
    ([runtime/task_execution.rs]) and in batches on a resolution thread
    ([runtime/batch_resolution.rs], [runtime/resolution_loop.rs]), with the evaluation of
    conditions ([runtime/successor.rs]).

    A call is one transition here: the state it reads is the state it changes. What
    happens when the accesses of several calls to a counter interleave is the subject of
    [NodeDepConc.v] and [Completion.v]. A call that waits for a result that does not come
    is [None]. Tracing and time measurement are left out. *)
From S2P Require Import Prelude Types GraphStruct Graph Buffers NodeDep NodeCache DepCounter ResultMap Tables Arena Successor ArgRes Slots.
From stdpp Require Import strings.

(** Of [RuntimeConfig]. *)
Record ExecConfig := mkExecConfig {
  xc_workers : nat;
  xc_coalesce_barriers : bool;
  xc_inline_continuation : bool;
  xc_single_slot_mode : bool;
  xc_no_fanout_bulk : bool;
  xc_flush_threshold : nat;
}.

Definition with_counter {C} (c : C) (rt : Runtime C) : Runtime C :=
  mkRuntime (rt_slots rt) c (rt_results rt) (rt_frame_complete_counter rt).
Definition with_results {C} (m : LockFreeResultMap) (rt : Runtime C) : Runtime C :=
  mkRuntime (rt_slots rt) (rt_counter rt) m (rt_frame_complete_counter rt).

(** [fetch_add] on a vector of [AtomicUsize]; subtracting is adding the negation. *)
Definition fetch_add (l : list Z) (i : nat) (n : Z) : run (list Z) :=
  let! x := vec_get l i in vec_set l i (as_u64 (x + n)).

(** [fanout_bulk_increment]: the new word and the number of arrivals. *)
Definition fanout_bulk_increment (packed slot_gen : Z) (count : nat) : Z * nat :=
  let cur := if (gen_unpack_gen packed =? slot_gen)%Z then gen_unpack_val packed else 0%Z in
  (gen_pack slot_gen (Z.min (cur + as_u32 (Z.of_nat count)) u32_max), Z.to_nat cur + count).

(** Calls that may wait: [None] is a call that does not return. *)
Definition wait_bind {A B} (m : run (option A)) (k : A → run (option B)) : run (option B) :=
  let! o := m in match o with Some a => k a | None => Ret None end.

Notation "'wait!' x ':=' m 'in' k" := (wait_bind m (λ x, k))
  (at level 10, x pattern, m at level 100, k at level 200) : tomii_scope.

Fixpoint fold_wait {S A} (f : S → A → run (option S)) (s : S) (l : list A) : run (option S) :=
  match l with
  | [] => Ret (Some s)
  | x :: l => wait! s' := f s x in fold_wait f s' l
  end.

Section exec.
Context {C : Type} `{DependencyCounter C}.
Context (cfg : ExecConfig) (graph : Graph) (cache : list NodeCacheEntry) (arena : SuccessorArena).
Context (pred_group_by_table : table nat) (init_objects : list (list CmTypes)) (fuel : nat).

(** The bulk tasks of a fan-out that is complete: the whole range of the successor. *)
Definition fanout_tasks (edge : SuccEdge) (slot pred_index : nat) (slot_gen : Z) : list NodeInfo :=
  let factor := succ_factor edge in
  chunks (λ start count, with_gen slot_gen (with_bulk_count count (NodeInfo_new (se_succ_id edge) slot start pred_index)))
    0 factor (Nat.max (Nat.min (xc_workers cfg) factor) 1).

Definition fanout_eligible (edge : SuccEdge) : bool :=
  se_is_fanout_bulk edge && negb (xc_no_fanout_bulk cfg)
  && (negb (xc_inline_continuation cfg) || (xc_workers cfg =? 1)).

(** The arrivals of [ready] instances at a successor that is dispatched in bulk. *)
Definition fanout_arrive (rt : Runtime C) (slot : nat) (edge : SuccEdge) (slot_gen : Z) (count pred_index : nat)
    : run (Runtime C * list NodeInfo) :=
  let d := rt_slots rt in
  let! words := vec_get (sd_fanout_bulk_arrived d) slot in
  let! packed := vec_get words (se_succ_id edge) in
  let (packed', new_arrived) := fanout_bulk_increment packed slot_gen count in
  let words' := <[se_succ_id edge := packed']> words in
  Ret (with_slots (set_spawns (sd_cond_instances_to_spawn d) (<[slot := words']> (sd_fanout_bulk_arrived d)) d) rt,
       if succ_factor edge <=? new_arrived then fanout_tasks edge slot pred_index slot_gen else []).

(** Phase 2: the completed instances are counted off. *)
Definition count_off (rt : Runtime C) (ni : NodeInfo) : run (Runtime C) :=
  let d := rt_slots rt in
  let! entry := vec_get cache (ni_id ni) in
  let n := (- Z.of_nat (ni_bulk_count ni))%Z in
  if ce_is_condition entry then
    let! pending_cond := fetch_add (sd_pending_cond_tasks d) (ni_slot ni) n in
    Ret (with_slots (set_pending (sd_pending_tasks d) pending_cond d) rt)
  else
    let! pending := fetch_add (sd_pending_tasks d) (ni_slot ni) n in
    Ret (with_slots (set_pending pending (sd_pending_cond_tasks d) d) rt).

Definition add_processing (rt : Runtime C) (slot : nat) (n : Z) : run (Runtime C) :=
  let! l := fetch_add (sd_processing_count (rt_slots rt)) slot n in
  Ret (with_slots (set_processing l (rt_slots rt)) rt).

Definition raise_check (rt : Runtime C) (slot : nat) : run (Runtime C) :=
  let! l := vec_set (sd_needs_check (rt_slots rt)) slot true in
  Ret (with_slots (set_needs_check l (rt_slots rt)) rt).

Definition slot_gen_of (rt : Runtime C) (slot : nat) : run Z :=
  run_map as_u32 (vec_get (sd_generation (rt_slots rt)) slot).

(** One edge of [worker_resolve_successors]. *)
Definition worker_edge (ni : NodeInfo) (slot_gen : Z) (s : Runtime C * list NodeInfo) (edge : SuccEdge)
    : run (Runtime C * list NodeInfo) :=
  let '(rt, sched) := s in
  let! (c, ready) := decrement_and_collect_ready (rt_counter rt) (ni_slot ni) (ni_index ni) edge
                       (ni_bulk_count ni) slot_gen in
  let rt1 := with_counter c rt in
  if fanout_eligible edge && negb (length ready =? 0) then
    let! (rt2, tasks) := fanout_arrive rt1 (ni_slot ni) edge slot_gen (length ready) (ni_index ni) in
    Ret (rt2, sched ++ tasks)
  else
    Ret (rt1, push_ready_chunked ready (se_succ_id edge) (ni_slot ni) (ni_index ni) (xc_workers cfg)
                (xc_coalesce_barriers cfg) sched).

(** [sched.pop()] for the inline continuation, stamped with the generation. *)
Definition pop_inline (sched : list NodeInfo) (slot_gen : Z) : list NodeInfo * option NodeInfo :=
  if xc_inline_continuation cfg then
    match last sched with
    | Some ni => (removelast sched, Some (with_gen slot_gen ni))
    | None => (sched, None)
    end
  else (sched, None).

(** [worker_resolve_successors]: the state, the tasks sent to the scheduler, and the task
    the worker goes on with. *)
Definition worker_resolve_successors (rt : Runtime C) (ni : NodeInfo)
    : run (Runtime C * list NodeInfo * option NodeInfo) :=
  let slot := ni_slot ni in
  let! rt1 := add_processing rt slot 1 in
  let! current_gen := slot_gen_of rt1 slot in
  if negb (current_gen =? ni_gen ni)%Z then
    let! rt2 := add_processing rt1 slot (-1) in
    let! rt3 := raise_check rt2 slot in
    Ret (rt3, [], None)
  else
    let! rt2 := count_off rt1 ni in
    let! slot_gen := slot_gen_of rt2 slot in
    let! edges := edges_for arena (ni_id ni) in
    let! (rt3, sched) := foldM (worker_edge ni slot_gen) (rt2, []) edges in
    let (sent, inline) := pop_inline sched slot_gen in
    let! rt4 := add_processing rt3 slot (-1) in
    let! rt5 := raise_check rt4 slot in
    Ret (rt5, sent, inline).

(** ** Conditions *)

(** The state as argument resolution sees it; nothing shuts down during the call. *)
Definition world_of (rt : Runtime C) : nat → World :=
  λ _, mkWorld (rt_results rt) false (sd_generation (rt_slots rt)).

(** [evaluate_node_condition]; [None]: the call waits. *)
Definition evaluate_node_condition (rt : Runtime C) (ni : NodeInfo) (cond_cache : NodeConditionCache)
    (node_cond : NodeCondition) : run (option bool) :=
  let! o := populate_cached_args_into (world_of rt) fuel (xc_single_slot_mode cfg) (xc_workers cfg)
              pred_group_by_table None 0 [] (cc_arg_cache cond_cache) (ni_index ni) (ni_slot ni)
              (ni_pred_index ni) (false, 0) in
  Ret (match o with
       | None => None
       | Some (cond_args, (stale, _)) =>
           Some (if stale : bool then false else NodeCondition_evaluate node_cond (cc_func_ptr cond_cache cond_args))
       end).

(** [conditions_met]: stops at the first argument whose condition fails. *)
Fixpoint conditions_met (rt : Runtime C) (ni : NodeInfo) (arg_indexes : list nat) : run (option bool) :=
  match arg_indexes with
  | [] => Ret (Some true)
  | arg_idx :: arg_indexes =>
      let! node := vec_get (g_nodes graph) (ni_id ni) in
      let! arg := vec_get (n_args node) arg_idx in
      let! init_condition := unwrap (a_init_condition arg) in
      let! o := collect_arg_result (world_of rt) fuel (xc_single_slot_mode cfg) (xc_workers cfg)
                  pred_group_by_table init_objects (g_nodes graph) None 0 arg (ni_id ni) (ni_index ni)
                  (n_factor node) (ni_slot ni) (ni_pred_index ni) None (false, 0) in
      match o with
      | None => Ret None
      | Some (result_opt, _) =>
          let! results := unwrap result_opt in
          let! result := vec_get results 0 in
          if InitCondition_evaluate init_condition result then conditions_met rt ni arg_indexes
          else Ret (Some false)
      end
  end.

(** Spawning one more instance of a conditional node, lazily reinitialised. *)
Definition spawn_decrement (packed slot_gen factor : Z) : Z :=
  let current := if (gen_unpack_gen packed =? slot_gen)%Z then gen_unpack_val packed else factor in
  gen_pack slot_gen (sat_sub current 1).

(** [dispatch_condition_successor]. *)
Definition dispatch_condition_successor (cond_indexes : list (list nat)) (rt : Runtime C) (ni succ_info : NodeInfo)
    (slot_gen : Z) (sched : list NodeInfo) : run (option (Runtime C * list NodeInfo)) :=
  let succ_node_id := ni_id succ_info in
  let! succ_cache := vec_get cache succ_node_id in
  let! passed :=
    match ce_node_condition succ_cache with
    | Some cond_cache =>
        let! node := vec_get (g_nodes graph) succ_node_id in
        let! node_cond := unwrap (n_condition node) in
        evaluate_node_condition rt succ_info cond_cache node_cond
    | None =>
        let! arg_indexes := vec_get cond_indexes (ce_cond_index succ_cache) in
        conditions_met rt succ_info arg_indexes
    end in
  match passed with
  | None => Ret None
  | Some true =>
      let d := rt_slots rt in
      let! words := vec_get (sd_cond_instances_to_spawn d) (ni_slot ni) in
      let! packed := vec_get words succ_node_id in
      let words' := <[succ_node_id := spawn_decrement packed slot_gen (as_u32 (Z.of_nat (ce_factor succ_cache)))]> words in
      Ret (Some (with_slots (set_spawns (<[ni_slot ni := words']> (sd_cond_instances_to_spawn d))
                               (sd_fanout_bulk_arrived d) d) rt, sched ++ [succ_info]))
  | Some false =>
      let d := rt_slots rt in
      let! pending_cond := fetch_add (sd_pending_cond_tasks d) (ni_slot succ_info) (-1) in
      let! (c, _) := counter_increment (rt_counter rt) succ_info slot_gen in
      let c' := reset_sent c (ni_slot ni) succ_node_id (ni_index succ_info) slot_gen in
      Ret (Some (mkRuntime (set_pending (sd_pending_tasks d) pending_cond d) c' (rt_results rt)
                   (rt_frame_complete_counter rt), sched))
  end.

(** ** Batches *)

(** One edge of [process_batch_inner]. *)
Definition batch_edge (cond_indexes : list (list nat)) (ni : NodeInfo) (slot_gen : Z)
    (s : Runtime C * list NodeInfo) (edge : SuccEdge) : run (option (Runtime C * list NodeInfo)) :=
  let '(rt, sched) := s in
  let slot := ni_slot ni in
  let succ := se_succ_id edge in
  if negb (passes_filter edge (ni_index ni)) then Ret (Some (rt, sched))
  else
    let! remaining_spawns :=
      if se_has_condition edge then
        let! words := vec_get (sd_cond_instances_to_spawn (rt_slots rt)) slot in
        let! packed := vec_get words succ in
        Ret (if (gen_unpack_gen packed =? slot_gen)%Z then gen_unpack_val packed else se_succ_factor edge)
      else Ret 1%Z in
    if (remaining_spawns =? 0)%Z then Ret (Some (rt, sched))
    else
      let! (c, ready) := decrement_and_collect_ready (rt_counter rt) slot (ni_index ni) edge (ni_bulk_count ni) slot_gen in
      let rt1 := with_counter c rt in
      if negb (se_has_condition edge) && fanout_eligible edge && negb (length ready =? 0) then
        let! (rt2, tasks) := fanout_arrive rt1 slot edge slot_gen (length ready) (ni_index ni) in
        Ret (Some (rt2, sched ++ tasks))
      else
        fold_wait (λ s ready_index,
          let succ_info := NodeInfo_new succ slot ready_index (ni_index ni) in
          if se_has_condition edge
          then dispatch_condition_successor cond_indexes s.1 ni succ_info slot_gen s.2
          else Ret (Some (s.1, s.2 ++ [succ_info]))) (rt1, sched) ready.

(** One completed task: its result is stored, it is counted off, and its successors are
    resolved; a post-node only stores its result. *)
Definition batch_node (cond_indexes : list (list nat)) (rt : Runtime C) (entry : NodeInfo * option CmTypes)
    : run (option (Runtime C * list NodeInfo)) :=
  let '(ni, result_opt) := entry in
  let! results := match result_opt with Some r => rm_set (rt_results rt) ni r | None => Ret (rt_results rt) end in
  let rt0 := with_results results rt in
  if ni_post_node ni then Ret (Some (rt0, []))
  else
    let! rt1 := count_off rt0 ni in
    let! slot_gen := slot_gen_of rt1 (ni_slot ni) in
    let! edges := edges_for arena (ni_id ni) in
    fold_wait (batch_edge cond_indexes ni slot_gen) (rt1, []) edges.

(** [process_batch_inner]: the lists handed to [dispatch_nodes], in order. *)
Definition process_batch_inner (cond_indexes : list (list nat)) (rt : Runtime C)
    (batch : list (NodeInfo * option CmTypes)) : run (option (Runtime C * list (list NodeInfo))) :=
  wait! (rt', dispatched, batch_sched) := fold_wait (λ s entry,
    let '(rt, dispatched, batch_sched) := s in
    wait! (rt', sched) := batch_node cond_indexes rt entry in
    let batch_sched' := batch_sched ++ sched in
    Ret (Some (if ni_post_node entry.1 then (rt', dispatched, batch_sched)
               else if xc_flush_threshold cfg <=? length batch_sched'
               then (rt', dispatched ++ [batch_sched'], [])
               else (rt', dispatched, batch_sched')))) (rt, [], []) batch in
  Ret (Some (rt', match batch_sched with [] => dispatched | _ => dispatched ++ [batch_sched] end)).

(** [process_batch_resolution]: the slots of the batch, in ascending order, are marked as
    being processed around the work; slots are below 64. *)
Definition batch_slots (batch : list (NodeInfo * option CmTypes)) : list nat :=
  filter (λ s, s ∈ (λ e, ni_slot e.1 mod 64) <$> batch) (range 0 64).

Definition process_batch_resolution (cond_indexes : list (list nat)) (rt : Runtime C)
    (batch : list (NodeInfo * option CmTypes)) : run (option (Runtime C * list (list NodeInfo))) :=
  match batch with
  | [] => Ret (Some (rt, []))
  | _ =>
      let! rt1 := foldM (λ rt slot, add_processing rt slot 1) rt (batch_slots batch) in
      wait! (rt2, dispatched) := process_batch_inner cond_indexes rt1 batch in
      let! rt3 := foldM (λ rt slot, let! rt := add_processing rt slot (-1) in raise_check rt slot) rt2 (batch_slots batch) in
      Ret (Some (rt3, dispatched))
  end.
End exec.
