(* ===== verification/ExecSpec.v ===== *)
(** What resolving a completed task does: the instances it starts are the ones whose
    counters it brings down, on the worker path and on the batch path alike, and a
    fan-out is started once. *)
From S2P Require Import Prelude Types GraphStruct Graph Buffers NodeDep NodeCache DepCounter ResultMap Tables Arena Successor ArgRes Slots Exec.
From stdpp Require Import strings.

(** The instances a task runs. *)
Definition task_instances (ni : NodeInfo) : list (nat * nat) := (λ i, (ni_id ni, i)) <$> covered ni.

Lemma tasks_instances_id id tasks : Forall (λ ni, ni_id ni = id) tasks →
  tasks ≫= task_instances = (λ i, (id, i)) <$> (tasks ≫= covered).
Proof.
  induction 1 as [|ni tasks Hid _ IH]; [done|]. rewrite !bind_cons, fmap_app, IH. unfold task_instances. by rewrite Hid.
Qed.

Lemma push_ready_instances succ slot pred_index workers coalesce ready :
  push_ready_chunked ready succ slot pred_index workers coalesce [] ≫= task_instances = (λ i, (succ, i)) <$> ready.
Proof.
  rewrite (tasks_instances_id succ); [by rewrite push_ready_covered|].
  eapply Forall_impl; [apply push_ready_tasks|]. by intros ni (? & _).
Qed.

Lemma fetch_add_Ret l i n x : l !! i = Some x → fetch_add l i n = Ret (<[i := as_u64 (x + n)]> l).
Proof.
  intros Hx. unfold fetch_add. rewrite (vec_get_lookup _ _ _ Hx). cbn [run_bind]. apply vec_set_lt.
  by eapply lookup_lt_Some.
Qed.

Section spec.
Context {C : Type} `{DependencyCounter C}.
Context (cfg : ExecConfig) (graph : Graph) (cache : list NodeCacheEntry) (arena : SuccessorArena).
Context (pred_group_by_table : table nat) (init_objects : list (list CmTypes)) (fuel : nat).

(** The reference: decrement for the successors one after the other and start every
    instance that becomes ready. *)
Definition decrement_edges (ni : NodeInfo) (slot_gen : Z) (c : C) (edges : list SuccEdge)
    : run (C * list (nat * nat)) :=
  foldM (λ s edge,
    let! (c', ready) := decrement_and_collect_ready s.1 (ni_slot ni) (ni_index ni) edge (ni_bulk_count ni) slot_gen in
    Ret (c', s.2 ++ ((λ i, (se_succ_id edge, i)) <$> ready))) (c, []) edges.

Lemma worker_edges_spec ni slot_gen edges (rt : Runtime C) sched c' insts :
  (∀ e, e ∈ edges → fanout_eligible cfg e = false) →
  foldM (λ s edge,
    let! (c', ready) := decrement_and_collect_ready s.1 (ni_slot ni) (ni_index ni) edge (ni_bulk_count ni) slot_gen in
    Ret (c', s.2 ++ ((λ i, (se_succ_id edge, i)) <$> ready))) (rt_counter rt, sched ≫= task_instances) edges
  = Ret (c', insts) →
  ∃ sched', foldM (worker_edge cfg ni slot_gen) (rt, sched) edges = Ret (with_counter c' rt, sched')
    ∧ sched' ≫= task_instances = insts.
Proof.
  revert rt sched. induction edges as [|e edges IH]; intros rt sched Hno; cbn [foldM].
  - intros [= <- <-]. exists sched. split; [|done]. by destruct rt.
  - cbn [fst snd]. intros Href. apply run_bind_Ret in Href as ([c1 i1] & Hstep & Href).
    apply run_bind_Ret in Hstep as ([c2 ready] & Hdec & [= -> <-]).
    unfold worker_edge at 1. rewrite Hdec. cbn [run_bind]. rewrite (Hno e) by left. cbn [andb run_bind].
    destruct (IH (with_counter c1 rt) (push_ready_chunked ready (se_succ_id e) (ni_slot ni) (ni_index ni)
                (xc_workers cfg) (xc_coalesce_barriers cfg) sched)) as (sched' & Hf & Hi).
    + intros e' He. apply Hno. by right.
    + rewrite push_ready_app, bind_app, push_ready_instances. exact Href.
    + exists sched'. split; [exact Hf|done].
Qed.

Lemma pop_inline_instances sched slot_gen :
  let r := pop_inline cfg sched slot_gen in
  (r.1 ++ option_list r.2) ≫= task_instances = sched ≫= task_instances.
Proof.
  unfold pop_inline. destruct (xc_inline_continuation cfg); [|cbn; by rewrite app_nil_r].
  destruct (last sched) as [ni|] eqn:Hl; [|cbn; by rewrite app_nil_r].
  apply last_Some in Hl as (l & ->). cbn [fst snd option_list]. rewrite removelast_last, !bind_app. done.
Qed.

(** The slot after counting off a completed task. *)
Definition counted (entry : NodeCacheEntry) (ni : NodeInfo) (n : Z) (d : SlotData) : SlotData :=
  let n' := as_u64 (n - Z.of_nat (ni_bulk_count ni)) in
  if ce_is_condition entry then set_pending (sd_pending_tasks d) (<[ni_slot ni := n']> (sd_pending_cond_tasks d)) d
  else set_pending (<[ni_slot ni := n']> (sd_pending_tasks d)) (sd_pending_cond_tasks d) d.

Lemma count_off_spec (rt : Runtime C) ni entry n : cache !! ni_id ni = Some entry →
  (if ce_is_condition entry then sd_pending_cond_tasks (rt_slots rt) else sd_pending_tasks (rt_slots rt)) !! ni_slot ni = Some n →
  count_off cache rt ni = Ret (with_slots (counted entry ni n (rt_slots rt)) rt).
Proof.
  intros He Hn. unfold count_off, counted. rewrite (vec_get_lookup _ _ _ He). cbn [run_bind].
  destruct (ce_is_condition entry); by rewrite (fetch_add_Ret _ _ _ _ Hn).
Qed.

(** Marking the slot as being processed, then doing [f], then unmarking it. *)
Lemma processing_restored (d d' : SlotData) slot p : sd_processing_count d !! slot = Some p → (0 ≤ p < two64)%Z →
  as_u64 (as_u64 (p + 1) + -1) = p ∧ <[slot := p]> (sd_processing_count d) = sd_processing_count d.
Proof.
  intros Hp Hr. split; [|by apply list_insert_id]. unfold as_u64. rewrite Zplus_mod_idemp_l.
  replace (p + 1 + -1)%Z with p by lia. by apply Z.mod_small.
Qed.

(** Resolving a completed task on its worker, for a stale and for a current task. *)
Lemma worker_resolve_cases (rt : Runtime C) (ni : NodeInfo) (entry : NodeCacheEntry) (edges : list SuccEdge)
    (p g n : Z) (c' : C) (insts : list (nat * nat))
    (Hproc : sd_processing_count (rt_slots rt) !! ni_slot ni = Some p) (Hp : (0 ≤ p < two64)%Z)
    (Hgen : sd_generation (rt_slots rt) !! ni_slot ni = Some g)
    (Hneeds : ni_slot ni < length (sd_needs_check (rt_slots rt)))
    (Hentry : cache !! ni_id ni = Some entry)
    (Hcount : (if ce_is_condition entry then sd_pending_cond_tasks (rt_slots rt)
               else sd_pending_tasks (rt_slots rt)) !! ni_slot ni = Some n)
    (Hedges : edges_for arena (ni_id ni) = Ret edges)
    (Hfan : ∀ e, e ∈ edges → fanout_eligible cfg e = false)
    (Href : decrement_edges ni (as_u32 g) (rt_counter rt) edges = Ret (c', insts)) :
  let flagged d := set_needs_check (<[ni_slot ni := true]> (sd_needs_check (rt_slots rt))) d in
  (as_u32 g ≠ ni_gen ni →
     worker_resolve_successors cfg cache arena rt ni = Ret (with_slots (flagged (rt_slots rt)) rt, [], None))
  ∧ (as_u32 g = ni_gen ni → ∃ sent inline,
     worker_resolve_successors cfg cache arena rt ni
     = Ret (with_slots (flagged (counted entry ni n (rt_slots rt))) (with_counter c' rt), sent, inline)
     ∧ (sent ++ option_list inline) ≫= task_instances = insts).
Proof.
  intros flagged. destruct (processing_restored (rt_slots rt) (rt_slots rt) _ p Hproc Hp) as [Hback Hid].
  pose proof (lookup_lt_Some _ _ _ Hproc) as Hlen.
  assert (Hback' : ∀ rt1 : Runtime C, sd_processing_count (rt_slots rt1) = <[ni_slot ni := as_u64 (p + 1)]> (sd_processing_count (rt_slots rt)) →
    add_processing rt1 (ni_slot ni) (-1) = Ret (with_slots (set_processing (sd_processing_count (rt_slots rt)) (rt_slots rt1)) rt1)).
  { intros rt1 E. unfold add_processing. rewrite (fetch_add_Ret _ _ _ (as_u64 (p + 1)));
      [|rewrite E; by apply list_lookup_insert_eq].
    cbn [run_bind]. by rewrite Hback, E, list_insert_insert_eq, Hid. }
  set (rt1 := with_slots (set_processing (<[ni_slot ni := as_u64 (p + 1)]> (sd_processing_count (rt_slots rt))) (rt_slots rt)) rt).
  assert (Hin : add_processing rt (ni_slot ni) 1 = Ret rt1).
  { unfold add_processing. by rewrite (fetch_add_Ret _ _ _ p Hproc). }
  assert (Hgen1 : ∀ rt' : Runtime C, sd_generation (rt_slots rt') = sd_generation (rt_slots rt) →
    slot_gen_of rt' (ni_slot ni) = Ret (as_u32 g)).
  { intros rt' E. unfold slot_gen_of. by rewrite E, (vec_get_lookup _ _ _ Hgen). }
  unfold worker_resolve_successors. split; intros Hg; rewrite Hin; cbn [run_bind]; rewrite (Hgen1 rt1) by done; cbn [run_bind].
  - rewrite (proj2 (Z.eqb_neq _ _) Hg). cbn [negb]. rewrite Hback' by done. cbn [run_bind]. unfold raise_check.
    cbn [rt_slots with_slots set_processing upd_counters sd_needs_check]. rewrite vec_set_lt by done. cbn [run_bind].
    unfold flagged. by destruct rt as [[] ? ? ?].
  - rewrite (proj2 (Z.eqb_eq _ _) Hg). cbn [negb].
    rewrite (count_off_spec _ _ entry n Hentry) by done. cbn [run_bind].
    rewrite Hgen1 by (unfold counted; cbn; by destruct (ce_is_condition entry)). cbn [run_bind]. rewrite Hedges. cbn [run_bind].
    match goal with |- context [foldM _ (?r, []) edges] => set (rt2 := r) end.
    destruct (worker_edges_spec ni (as_u32 g) edges rt2 [] c' insts Hfan Href) as (sched & -> & Hs). cbn [run_bind].
    pose proof (pop_inline_instances sched (as_u32 g)) as Hpop.
    destruct (pop_inline cfg sched (as_u32 g)) as [sent inline]. cbn [fst snd] in Hpop.
    rewrite Hback' by (unfold rt2, counted; cbn; by destruct (ce_is_condition entry)). cbn [run_bind].
    unfold raise_check.
    replace (sd_needs_check _) with (sd_needs_check (rt_slots rt)) by (unfold rt2, counted; cbn; by destruct (ce_is_condition entry)).
    rewrite vec_set_lt by done. cbn [run_bind]. exists sent, inline. split; [|by rewrite Hpop].
    unfold flagged, rt2, counted. destruct rt as [[] ? ? ?]. cbn. by destruct (ce_is_condition entry).
Qed.

(** C16. The call that resolves a completed task on its worker, for a task whose slot, counters,
    node and edges exist and none of whose edges is dispatched as a fan-out in bulk, where
    decrementing the counters of its successors edge after edge does not panic. For a task of
    another generation nothing changes but that the flag that asks for a completion check is
    raised. Otherwise that flag is raised, the instances the task covers are counted off, and
    the tasks it sends to the scheduler together with the one it goes on with run exactly the
    instances that become ready when the counters of its successors are decremented one edge
    after the other, in order, whatever the number of workers, the coalescing and the inline
    continuation; the number of calls at work on the slot is as before, and nothing else
    changes. *)
Theorem worker_resolve_spec (rt : Runtime C) (ni : NodeInfo) (entry : NodeCacheEntry) (edges : list SuccEdge)
    (p g n : Z) (c' : C) (insts : list (nat * nat))
    (Hproc : sd_processing_count (rt_slots rt) !! ni_slot ni = Some p) (Hp : (0 ≤ p < two64)%Z)
    (Hgen : sd_generation (rt_slots rt) !! ni_slot ni = Some g)
    (Hneeds : ni_slot ni < length (sd_needs_check (rt_slots rt)))
    (Hentry : cache !! ni_id ni = Some entry)
    (Hcount : (if ce_is_condition entry then sd_pending_cond_tasks (rt_slots rt)
               else sd_pending_tasks (rt_slots rt)) !! ni_slot ni = Some n)
    (Hedges : edges_for arena (ni_id ni) = Ret edges)
    (Hfan : ∀ e, e ∈ edges → fanout_eligible cfg e = false)
    (Href : decrement_edges ni (as_u32 g) (rt_counter rt) edges = Ret (c', insts)) :
  let flagged d := set_needs_check (<[ni_slot ni := true]> (sd_needs_check (rt_slots rt))) d in
  (as_u32 g ≠ ni_gen ni →
     worker_resolve_successors cfg cache arena rt ni = Ret (with_slots (flagged (rt_slots rt)) rt, [], None))
  ∧ (as_u32 g = ni_gen ni → ∃ sent inline,
     worker_resolve_successors cfg cache arena rt ni
     = Ret (with_slots (flagged (counted entry ni n (rt_slots rt))) (with_counter c' rt), sent, inline)
     ∧ (sent ++ option_list inline) ≫= task_instances = insts).
Proof. by eapply worker_resolve_cases. Qed.

(** ** The batch path *)

(** Outside the filter one completion decrements nothing. *)
Lemma filtered_out_nothing (c : C) slot pred_index edge bulk_count slot_gen :
  passes_filter edge pred_index = false → bulk_count ≤ 1 →
  decrement_and_collect_ready c slot pred_index edge bulk_count slot_gen = Ret (c, []).
Proof.
  intros Hp Hb. unfold decrement_and_collect_ready, filter_bounds. unfold passes_filter in Hp.
  apply orb_false_iff in Hp as [-> Hp]. unfold filter_overlap.
  assert (Hno : (Nat.max pred_index (Z.to_nat (se_filter_start edge))
                 <? Nat.min (pred_index + Nat.max bulk_count 1) (Z.to_nat (se_filter_end edge))) = false).
  { apply Nat.ltb_ge. apply andb_false_iff in Hp as [?%Z.leb_gt|?%Z.ltb_ge]; lia. }
  by rewrite Hno.
Qed.

Lemma fold_wait_push (f : Runtime C * list NodeInfo → nat → run (option (Runtime C * list NodeInfo))) (g : nat → NodeInfo)
    rt sched ready : (∀ s x, f s x = Ret (Some (s.1, s.2 ++ [g x]))) →
  fold_wait f (rt, sched) ready = Ret (Some (rt, sched ++ (g <$> ready))).
Proof.
  intros Hf. revert sched. induction ready as [|x ready IH]; intros sched; cbn [fold_wait]; [by rewrite app_nil_r|].
  rewrite Hf. unfold wait_bind. cbn [run_bind fst snd]. rewrite IH. by rewrite <- app_assoc.
Qed.

Lemma singles_instances succ slot pred_index ready :
  ((λ i, NodeInfo_new succ slot i pred_index) <$> ready) ≫= task_instances = (λ i, (succ, i)) <$> ready.
Proof.
  induction ready as [|x l IH]; [done|]. rewrite !fmap_cons, bind_cons, IH. unfold task_instances, covered, NodeInfo_new.
  cbn [ni_index ni_bulk_count ni_id]. by rewrite Nat.add_1_r, range_cons, range_empty by lia.
Qed.

Lemma batch_edges_spec cond_indexes ni slot_gen edges (rt : Runtime C) sched c' insts :
  (∀ e, e ∈ edges → fanout_eligible cfg e = false ∧ se_has_condition e = false) →
  (∀ e, e ∈ edges → passes_filter e (ni_index ni) = true ∨ ni_bulk_count ni ≤ 1) →
  foldM (λ s edge,
    let! (c', ready) := decrement_and_collect_ready s.1 (ni_slot ni) (ni_index ni) edge (ni_bulk_count ni) slot_gen in
    Ret (c', s.2 ++ ((λ i, (se_succ_id edge, i)) <$> ready))) (rt_counter rt, sched ≫= task_instances) edges
  = Ret (c', insts) →
  ∃ sched', fold_wait (batch_edge cfg graph cache pred_group_by_table init_objects fuel cond_indexes ni slot_gen) (rt, sched) edges
            = Ret (Some (with_counter c' rt, sched'))
    ∧ sched' ≫= task_instances = insts.
Proof.
  revert rt sched. induction edges as [|e edges IH]; intros rt sched Hno Hpass; cbn [foldM fold_wait].
  - intros [= <- <-]. exists sched. split; [|done]. by destruct rt.
  - cbn [fst snd]. intros Href. apply run_bind_Ret in Href as ([c1 i1] & Hstep & Href).
    apply run_bind_Ret in Hstep as ([c2 ready] & Hdec & [= -> <-]).
    destruct (Hno e ltac:(left)) as [Hfan Hcond].
    assert (Hstep : batch_edge cfg graph cache pred_group_by_table init_objects fuel cond_indexes ni slot_gen (rt, sched) e
      = Ret (Some (with_counter c1 rt, sched ++ ((λ i, NodeInfo_new (se_succ_id e) (ni_slot ni) i (ni_index ni)) <$> ready)))).
    { unfold batch_edge. destruct (passes_filter e (ni_index ni)) eqn:Hp; cbn [negb].
      - rewrite Hcond. cbn [run_bind Z.eqb]. rewrite Hdec. cbn [run_bind negb]. rewrite Hfan. cbn [andb].
        by apply fold_wait_push.
      - destruct (Hpass e ltac:(left)) as [Hp'|Hb]; [congruence|].
        rewrite filtered_out_nothing in Hdec by done. injection Hdec as <- <-. rewrite app_nil_r. by destruct rt. }
    rewrite Hstep. unfold wait_bind at 1. cbn [run_bind].
    match goal with |- context [fold_wait _ (?r, ?sc) edges] => destruct (IH r sc) as (sched' & Hf & Hi) end.
    + intros e' He. apply Hno. by right.
    + intros e' He. apply Hpass. by right.
    + rewrite bind_app, singles_instances. exact Href.
    + exists sched'. split; [exact Hf|done].
Qed.

(** C17. The resolution thread's way of resolving a completed task agrees with the worker's, for
    a task that is no post-node, whose slot, counters, node and edges exist, none of whose
    successors is conditional or dispatched as a fan-out in bulk, that covers one instance or a
    run of instances that starts inside the filter of every edge, whose result, if it comes with
    the task, can be stored, and where decrementing the counters edge after edge does not panic.
    It stores the result, counts off the same instances, leaves the same counters, and starts
    exactly the instances that decrementing the counters of its successors edge after edge makes
    ready. *)
Theorem batch_node_spec (cond_indexes : list (list nat)) (rt : Runtime C) (ni : NodeInfo) (result_opt : option CmTypes)
    (results : LockFreeResultMap) (entry : NodeCacheEntry) (edges : list SuccEdge) (g n : Z) (c' : C) (insts : list (nat * nat))
    (Hpost : ni_post_node ni = false)
    (Hstore : match result_opt with Some r => rm_set (rt_results rt) ni r | None => Ret (rt_results rt) end = Ret results)
    (Hgen : sd_generation (rt_slots rt) !! ni_slot ni = Some g)
    (Hentry : cache !! ni_id ni = Some entry)
    (Hcount : (if ce_is_condition entry then sd_pending_cond_tasks (rt_slots rt)
               else sd_pending_tasks (rt_slots rt)) !! ni_slot ni = Some n)
    (Hedges : edges_for arena (ni_id ni) = Ret edges)
    (Hplain : ∀ e, e ∈ edges → fanout_eligible cfg e = false ∧ se_has_condition e = false)
    (Hrun : ∀ e, e ∈ edges → passes_filter e (ni_index ni) = true ∨ ni_bulk_count ni ≤ 1)
    (Href : decrement_edges ni (as_u32 g) (rt_counter rt) edges = Ret (c', insts)) :
  ∃ sched, batch_node cfg graph cache arena pred_group_by_table init_objects fuel cond_indexes rt (ni, result_opt)
    = Ret (Some (with_slots (counted entry ni n (rt_slots rt)) (with_counter c' (with_results results rt)), sched))
    ∧ sched ≫= task_instances = insts.
Proof.
  unfold batch_node. rewrite Hstore. cbn [run_bind]. rewrite Hpost.
  rewrite (count_off_spec (with_results results rt) ni entry n Hentry) by done. cbn [run_bind].
  unfold slot_gen_of. replace (sd_generation _) with (sd_generation (rt_slots rt)) by (unfold counted; cbn; by destruct (ce_is_condition entry)).
  rewrite (vec_get_lookup _ _ _ Hgen). cbn [run_map run_bind]. rewrite Hedges. cbn [run_bind].
  destruct (batch_edges_spec cond_indexes ni (as_u32 g) edges
    (with_slots (counted entry ni n (rt_slots (with_results results rt))) (with_results results rt)) [] c' insts Hplain Hrun Href)
    as (sched & Hf & Hi).
  exists sched. split; [exact Hf|done].
Qed.

(** ** Runs that reach into a filter *)

(** A bulk entry that starts before the filter of an edge and reaches into it is
    skipped on the batch path: the counter of the successor is untouched, although the
    covered instances inside the filter are due one decrement each. *)
Theorem batch_skips_overlapping_run (cond_indexes : list (list nat)) (rt : Runtime C) (ni : NodeInfo) (slot_gen : Z)
    (sched : list NodeInfo) (edge : SuccEdge) (lo hi : nat)
    (Hfilter : filter_bounds edge = Some (lo, hi)) (Hfit : lo < hi)
    (Hrun : ni_index ni < lo < ni_index ni + ni_bulk_count ni) :
  batch_edge cfg graph cache pred_group_by_table init_objects fuel cond_indexes ni slot_gen (rt, sched) edge
  = Ret (Some (rt, sched))
  ∧ ∃ cells, cells ≠ [] ∧ (∀ i, i ∈ cells ↔ lo ≤ i < hi ∧ i < ni_index ni + ni_bulk_count ni)
     ∧ decrement_and_collect_ready (rt_counter rt) (ni_slot ni) (ni_index ni) edge (ni_bulk_count ni) slot_gen
       = decrement_each edge (ni_slot ni) slot_gen (rt_counter rt, []) cells.
Proof.
  unfold filter_bounds in Hfilter. destruct (se_filter_end edge =? NO_FILTER)%Z eqn:He; [done|]. injection Hfilter as Hlo Hhi.
  assert (Hp : passes_filter edge (ni_index ni) = false).
  { unfold passes_filter. rewrite He. apply andb_false_iff. left. apply Z.leb_gt. lia. }
  unfold batch_edge. rewrite Hp. split; [done|].
  exists (range lo (Nat.min (ni_index ni + ni_bulk_count ni) hi)). split; [|split].
  - rewrite range_cons by lia. done.
  - intros i. rewrite elem_of_range. lia.
  - unfold decrement_and_collect_ready, filter_bounds. rewrite He, Hlo, Hhi. unfold filter_overlap.
    replace (Nat.max (ni_bulk_count ni) 1) with (ni_bulk_count ni) by lia.
    replace (Nat.max (ni_index ni) lo) with lo by lia.
    rewrite (proj2 (Nat.ltb_lt _ _)) by lia.
    destruct (_ - lo =? 1) eqn:H1; [|done]. apply Nat.eqb_eq in H1.
    rewrite range_cons, range_empty by lia. unfold decrement_each. cbn [foldM fst snd].
    destruct (decrement_one edge (ni_slot ni) slot_gen (rt_counter rt) lo) as [[c1 r]|]; done.
Qed.

(** ** Fan-outs *)

Lemma fanout_tasks_cover edge slot pred_index slot_gen :
  fanout_tasks cfg edge slot pred_index slot_gen ≫= covered = range 0 (succ_factor edge)
  ∧ length (fanout_tasks cfg edge slot pred_index slot_gen) ≤ Nat.max (xc_workers cfg) 1.
Proof.
  unfold fanout_tasks. split; [|unfold chunks; rewrite length_chunk_from; lia].
  rewrite chunks_cover; [done|lia|done].
Qed.

(** The arrivals counted in a word. *)
Definition arrived (packed slot_gen : Z) : nat :=
  Z.to_nat (if (gen_unpack_gen packed =? slot_gen)%Z then gen_unpack_val packed else 0%Z).

Lemma increment_arrived packed slot_gen count : is_u32 slot_gen →
  (Z.of_nat (arrived packed slot_gen + count) < two32)%Z →
  let r := fanout_bulk_increment packed slot_gen count in
  r.2 = arrived packed slot_gen + count ∧ arrived r.1 slot_gen = arrived packed slot_gen + count.
Proof.
  intros Hg Hsum. unfold fanout_bulk_increment. fold (arrived packed slot_gen).
  set (cur := if (gen_unpack_gen packed =? slot_gen)%Z then gen_unpack_val packed else 0%Z).
  assert (Hcur : (0 ≤ cur)%Z).
  { unfold cur. case_match; [|done]. apply gen_unpack_val_u32. }
  assert (Ha : arrived packed slot_gen = Z.to_nat cur) by done. rewrite Ha in *.
  cbn [fst snd]. split; [done|]. unfold arrived. rewrite as_u32_small by lia.
  assert (Hu : is_u32 (Z.min (cur + Z.of_nat count) u32_max)) by (unfold is_u32, u32_max, two32 in *; lia).
  rewrite gen_unpack_gen_pack, gen_unpack_val_pack by done. rewrite Z.eqb_refl.
  unfold u32_max, two32 in *. lia.
Qed.

(** One arrival after the other, each with the instances that became ready and the index
    of the completion; the tasks each of them dispatches. *)
Definition arrivals (slot : nat) (edge : SuccEdge) (slot_gen : Z) (s : Runtime C * list (list NodeInfo))
    (l : list (nat * nat)) : run (Runtime C * list (list NodeInfo)) :=
  foldM (λ s cp,
    let! (rt', tasks) := fanout_arrive cfg s.1 slot edge slot_gen cp.1 cp.2 in Ret (rt', s.2 ++ [tasks])) s l.

(** The arrivals counted at a successor. *)
Definition arrived_at (rt : Runtime C) (slot succ : nat) (slot_gen : Z) (k : nat) : Prop :=
  ∃ words packed, sd_fanout_bulk_arrived (rt_slots rt) !! slot = Some words ∧ words !! succ = Some packed
    ∧ arrived packed slot_gen = k.

Lemma fanout_arrive_spec rt slot edge slot_gen k count pred_index : is_u32 slot_gen →
  arrived_at rt slot (se_succ_id edge) slot_gen k → (Z.of_nat (k + count) < two32)%Z →
  ∃ rt', fanout_arrive cfg rt slot edge slot_gen count pred_index
         = Ret (rt', if succ_factor edge <=? k + count then fanout_tasks cfg edge slot pred_index slot_gen else [])
    ∧ arrived_at rt' slot (se_succ_id edge) slot_gen (k + count).
Proof.
  intros Hg (words & packed & Hw & Hp & Hk) Hb. subst k.
  destruct (increment_arrived packed slot_gen count Hg Hb) as [H1 H2].
  unfold fanout_arrive. rewrite (vec_get_lookup _ _ _ Hw). cbn [run_bind]. rewrite (vec_get_lookup _ _ _ Hp). cbn [run_bind].
  destruct (fanout_bulk_increment packed slot_gen count) as [packed' total]. cbn [fst snd] in H1, H2. subst total.
  eexists. split; [done|]. exists (<[se_succ_id edge := packed']> words), packed'. split; [|split; [|done]].
  - cbn. apply list_lookup_insert_eq. by eapply lookup_lt_Some.
  - apply list_lookup_insert_eq. by eapply lookup_lt_Some.
Qed.

Lemma arrivals_below slot edge slot_gen l rt k tss : is_u32 slot_gen → arrived_at rt slot (se_succ_id edge) slot_gen k →
  (Z.of_nat (succ_factor edge) < two32)%Z → k + nat_sum l.*1 < succ_factor edge →
  ∃ rt', arrivals slot edge slot_gen (rt, tss) l = Ret (rt', tss ++ replicate (length l) [])
    ∧ arrived_at rt' slot (se_succ_id edge) slot_gen (k + nat_sum l.*1).
Proof.
  intros Hg Hk Hf. revert rt k tss Hk. induction l as [|[count pi] l IH]; intros rt k tss Hk Hlt; unfold arrivals; cbn [foldM].
  - exists rt. rewrite app_nil_r. split; [done|]. by rewrite Nat.add_0_r.
  - change (nat_sum ((count, pi) :: l).*1) with (count + nat_sum l.*1) in *.
    destruct (fanout_arrive_spec rt slot edge slot_gen k count pi Hg Hk) as (rt1 & Hr & Hk1); [lia|].
    cbn [fst snd]. rewrite Hr. cbn [run_bind].
    rewrite (proj2 (Nat.leb_gt _ _)) by lia.
    destruct (IH rt1 (k + count) (tss ++ [[]]) Hk1) as (rt2 & Hr2 & Hk2); [lia|].
    exists rt2. split; [|by rewrite Nat.add_assoc]. unfold arrivals in Hr2. rewrite Hr2. by rewrite <- app_assoc.
Qed.

(** A successor that is dispatched as a fan-out is started exactly once: in whatever
    portions and order its instances become ready, nothing is dispatched until the last
    one is, and that arrival dispatches bulk tasks that cover the whole range of the
    successor, at most one per worker. Arrivals of older generations do not count. *)
Theorem fanout_started_once (rt : Runtime C) (slot : nat) (edge : SuccEdge) (slot_gen : Z) (portions : list (nat * nat))
    (Hgen : is_u32 slot_gen) (Hfresh : arrived_at rt slot (se_succ_id edge) slot_gen 0)
    (Hfactor : (0 < Z.of_nat (succ_factor edge) < two32)%Z) (Hpos : Forall (λ cp, 0 < cp.1) portions)
    (Hsum : nat_sum portions.*1 = succ_factor edge) :
  ∃ rt' tasks, arrivals slot edge slot_gen (rt, []) portions
               = Ret (rt', replicate (length portions - 1) [] ++ [tasks])
    ∧ tasks ≫= covered = range 0 (succ_factor edge)
    ∧ length tasks ≤ Nat.max (xc_workers cfg) 1.
Proof.
  destruct portions as [|last portions _] using rev_ind; [cbn in Hsum; lia|].
  apply Forall_app in Hpos as [_ Hlast]. apply Forall_cons in Hlast as [Hlast _]. rewrite fmap_app, nat_sum_app in Hsum.
  destruct last as [count pi]. cbn [fst fmap list_fmap] in Hsum, Hlast. change (nat_sum [count]) with (count + 0) in Hsum.
  destruct (arrivals_below slot edge slot_gen portions rt 0 [] Hgen Hfresh) as (rt1 & Hr1 & Hk1); [lia|lia|].
  destruct (fanout_arrive_spec rt1 slot edge slot_gen _ count pi Hgen Hk1) as (rt2 & Hr2 & _); [lia|].
  exists rt2, (fanout_tasks cfg edge slot pi slot_gen). split; [|apply fanout_tasks_cover].
  unfold arrivals in *. rewrite foldM_app, Hr1. cbn [run_bind foldM fst snd]. rewrite Hr2. cbn [run_bind].
  rewrite (proj2 (Nat.leb_le _ _)) by lia. rewrite length_app, Nat.add_sub. done.
Qed.
End spec.

(** ** Concrete runs *)

(** Node 0 with four instances feeds node 1 with two instances; node 1 may be conditional. *)
Definition demo_cond : NodeConditionCache := mkCondCache Eq (CmBool true) (λ _, CmBool false) ArgCache_default.
Definition cond_entry : NodeCacheEntry :=
  mkCache 2 [] "c" default_pointer ArgCache_default false true 0 0 (Some demo_cond) PNormal 0 true false None
    false true "" false.
Definition pair_nodes (cond : option NodeCondition) : list Node :=
  [demo_node 0 4 []; mkNode "c" [demo_res 0 [0; 1; 2; 3]%Z] 1 None 2 None "" None cond Normal None].
Definition pair_cache (cond : bool) : list NodeCacheEntry := [demo_entry 4; if cond then cond_entry else demo_entry 2].
Definition pair_arena (cond : bool) (start end_ : Z) (fan : bool) : SuccessorArena :=
  mkArena [mkEdge 1 cond fan 2 start end_ NO_GROUP 0 false] [(0, 1)%Z; (1, 1)%Z].
Definition pair_exec : ExecConfig := mkExecConfig 2 false true true false 8.

Definition pair_counter (cond : option NodeCondition) : MultiThreadedCounter :=
  mkCounter [(λ n, new_entry n (if n_id n =? 0 then 0 else 4)) <$> pair_nodes cond] 0.
Definition pair_rt (cond : option NodeCondition) : Runtime MultiThreadedCounter :=
  mkRuntime (SlotData_new 1 (build_slot_counters 1 (pair_cache (is_some cond)))) (pair_counter cond)
    (ResultMap_new (pair_nodes cond) 1) 0.

(** A bulk task over three instances of node 0 makes instance 0 of node 1 ready. *)
Definition pair_task : NodeInfo := with_bulk_count 3 (NodeInfo_new 0 0 0 0).

Lemma worker_resolve_spec_witness : ∃ rt' sent inline,
  worker_resolve_successors pair_exec (pair_cache false) (pair_arena false 0 NO_FILTER false) (pair_rt None) pair_task
  = Ret (rt', sent, inline)
  ∧ (sent ++ option_list inline) ≫= task_instances = [(1, 0)].
Proof.
  destruct (decrement_edges pair_task 0 (rt_counter (pair_rt None)) [mkEdge 1 false false 2 0 NO_FILTER NO_GROUP 0 false])
    as [[c' insts]|] eqn:Href; [|discriminate Href].
  destruct (proj2 (worker_resolve_spec pair_exec (pair_cache false) (pair_arena false 0 NO_FILTER false) (pair_rt None) pair_task
    (demo_entry 4) [mkEdge 1 false false 2 0 NO_FILTER NO_GROUP 0 false] 0 0 6 c' insts
    eq_refl ltac:(done) eq_refl ltac:(vm_compute; lia) eq_refl eq_refl eq_refl
    ltac:(intros e He; apply list_elem_of_singleton in He as ->; reflexivity) Href) eq_refl) as (sent & inline & Hr & Hi).
  vm_compute in Href. injection Href as _ <-. eexists _, sent, inline. split; [exact Hr|exact Hi].
Defined.

Lemma batch_node_spec_witness : ∃ rt' sched,
  batch_node pair_exec Graph_new (pair_cache false) (pair_arena false 0 NO_FILTER false) [] [] 1 [] (pair_rt None) (pair_task, None)
  = Ret (Some (rt', sched))
  ∧ sched ≫= task_instances = [(1, 0)].
Proof.
  destruct (decrement_edges pair_task 0 (rt_counter (pair_rt None)) [mkEdge 1 false false 2 0 NO_FILTER NO_GROUP 0 false])
    as [[c' insts]|] eqn:Href; [|discriminate Href].
  destruct (batch_node_spec pair_exec Graph_new (pair_cache false) (pair_arena false 0 NO_FILTER false) [] [] 1 [] (pair_rt None)
    pair_task None _ (demo_entry 4) [mkEdge 1 false false 2 0 NO_FILTER NO_GROUP 0 false] 0 6 c' insts
    eq_refl eq_refl eq_refl eq_refl eq_refl eq_refl
    ltac:(intros e He; apply list_elem_of_singleton in He as ->; split; reflexivity)
    ltac:(intros e He; apply list_elem_of_singleton in He as ->; left; reflexivity) Href) as (sched & Hr & Hi).
  vm_compute in Href. injection Href as _ <-. eexists _, sched. split; [exact Hr|exact Hi].
Defined.

Lemma batch_skips_overlapping_run_witness :
  batch_edge pair_exec Graph_new [] [] [] 1 [] pair_task 0 (pair_rt None, []) (mkEdge 1 false false 2 1 4 NO_GROUP 0 false)
  = Ret (Some (pair_rt None, [])).
Proof.
  exact (proj1 (batch_skips_overlapping_run pair_exec Graph_new [] [] [] 1 [] (pair_rt None) pair_task 0 []
    (mkEdge 1 false false 2 1 4 NO_GROUP 0 false) 1 4 eq_refl ltac:(lia) ltac:(vm_compute; lia))).
Defined.

(** The two instances of node 1 become ready one by one, the second first. *)
Lemma fanout_started_once_witness : ∃ rt' tasks,
  arrivals pair_exec 0 (mkEdge 1 false true 2 0 NO_FILTER NO_GROUP 0 false) 0 (pair_rt None, []) [(1, 1); (1, 0)] = Ret (rt', [[]; tasks])
  ∧ tasks ≫= covered = [0; 1].
Proof.
  destruct (fanout_started_once pair_exec (pair_rt None) 0 (mkEdge 1 false true 2 0 NO_FILTER NO_GROUP 0 false) 0 [(1, 1); (1, 0)])
    as (rt' & tasks & Hr & Hc & _).
  - done.
  - exists [0%Z; 0%Z], 0%Z. split; [reflexivity|]. split; reflexivity.
  - done.
  - repeat constructor.
  - reflexivity.
  - exists rt', tasks. split; [exact Hr|exact Hc].
Defined.

(** ** A condition that fails *)

Definition fail_cond : NodeCondition := mkNodeCondition Eq (CmBool true) "" [].
Definition pair_batch (idxs : list nat) (rt : Runtime MultiThreadedCounter)
    : run (option (Runtime MultiThreadedCounter * list (list NodeInfo))) :=
  process_batch_resolution pair_exec (set_nodes Graph_new (pair_nodes (Some fail_cond))) (pair_cache true)
    (pair_arena true 0 NO_FILTER false) [] [] 1 [] rt ((λ i, (NodeInfo_new 0 0 i 0, None)) <$> idxs).

(** A conditional node whose instances become ready at different thresholds: node 1
    has two instances that wait for two of the four completions of node 0 each, and its
    condition fails. Every completion after the second evaluates the condition of
    instance 0 again and takes it off the pending conditional tasks again: after the
    third both are taken off although instance 1 was never evaluated, and after the
    fourth the counter has wrapped around, so the slot cannot complete any more. *)
Theorem failed_condition_discharged_again :
  (∃ rt', pair_batch [0; 1] (pair_rt (Some fail_cond)) = Ret (Some (rt', []))
     ∧ sd_pending_cond_tasks (rt_slots rt') = [1%Z])
  ∧ (∃ rt', pair_batch [0; 1; 2] (pair_rt (Some fail_cond)) = Ret (Some (rt', []))
     ∧ sd_pending_cond_tasks (rt_slots rt') = [0%Z] ∧ sd_pending_tasks (rt_slots rt') = [1%Z])
  ∧ (∃ rt', pair_batch [0; 1; 2; 3] (pair_rt (Some fail_cond)) = Ret (Some (rt', []))
     ∧ sd_pending_cond_tasks (rt_slots rt') = [u64_max] ∧ sd_pending_tasks (rt_slots rt') = [0%Z]).
Proof.
  split; [|split]; (eexists; split; [vm_compute; reflexivity|]); repeat split; vm_compute; reflexivity.
Qed.
