(* ===== verification/Task.v ===== *)
(** Scheduling and running tasks: [runtime/scheduling.rs], the rest of
    [runtime/task_execution.rs], and the loops of the resolution threads that are not in
    [Exec] ([runtime/resolution_loop.rs], [runtime/resolution_strategy.rs]).

    A worker keeps buffers between tasks ([Worker]); what a task does to the shared state
    is one transition, as in [Exec]. A task that waits for a result that does not come is
    [None]. Kernels are functions on values. Measurement and tracing are left out, except
    where they can panic. *)
From S2P Require Import Prelude Types GraphStruct WorkerRange Graph Buffers NodeDep NodeCache DepCounter ResultMap Tables Arena Successor ArgRes Slots Exec.
From stdpp Require Import strings.

(** The two thread-local buffers of a worker ([runtime/thread_locals.rs]): [ARG_BUF] and
    [NODE_ARG_TEMPLATES]. *)
Record Worker := mkWorker {
  wk_arg_buf : list CmTypes;
  wk_templates : list (option (list CmTypes));
}.

Definition Worker_new : Worker := mkWorker [] [].

(** What is handed to the scheduler: a [NodeTaskDesc], or the closure over the same. *)
Record Submission := mkSubmission {
  sub_group : nat;
  sub_priority : Priority;
  sub_func : CmPtr;
  sub_node : NodeInfo;
  sub_args : option (list CmTypes);
  sub_typed : bool;
}.

Definition scheduler_priority (p : NodePriority) : Priority :=
  match p with High => PHigh | Normal => PNormal | Low => PLow end.

(** The shared state with the queues: the tasks that wait for a worker, the completions
    that wait for a resolution thread, and the count of tasks dropped. *)
Record ExecState (C : Type) := mkExecState {
  es_rt : Runtime C;
  es_scheduled : list Submission;
  es_batch_queue : list NodeInfo;
  es_dropped : Z;
}.
Arguments mkExecState {C}. Arguments es_rt {C}. Arguments es_scheduled {C}. Arguments es_batch_queue {C}.
Arguments es_dropped {C}.

Definition with_rt {C} (rt : Runtime C) (s : ExecState C) : ExecState C :=
  mkExecState rt (es_scheduled s) (es_batch_queue s) (es_dropped s).

(** The upgrade of the static objects of a bulk task. *)
Definition hold_any (v : CmTypes) : CmTypes := match v with CmAny addr => CmAnyHeld addr | v => v end.

(** The entry of a node among the templates, made from the static arguments on first use. *)
Definition template_for (templates : list (option (list CmTypes))) (id : nat) (args : list CmTypes)
    : list (option (list CmTypes)) * list CmTypes :=
  let grown := templates ++ replicate (S id - length templates) None in
  let buf := match grown !! id with Some (Some buf) => buf | _ => args end in
  (<[id := Some buf]> grown, buf).

Section tasks.
Context {C : Type} `{DependencyCounter C} `{FuncReg}.
Context (cfg : ExecConfig) (graph : Graph) (cache : list NodeCacheEntry) (arena : SuccessorArena).
Context (pred_group_by_table : table nat) (init_objects : list (list CmTypes)) (fuel : nat).
(** Of the configuration ([record_frame], a recorder at all) and of the scheduler
    ([has_typed_spawn], [get_affinity_group]). *)
Context (record_frame : option Z) (recording typed_spawn : bool)
  (get_affinity_group : option WorkerRangeSpec → nat).

(** [should_record_slot]. *)
Definition should_record_slot (d : SlotData) (slot : nat) : run bool :=
  match record_frame with
  | None => Ret true
  | Some target_frame => run_map (λ f, (f =? target_frame)%Z) (vec_get (sd_frame_id d) slot)
  end.

(** One iteration of [send_to_scheduler]. *)
Definition submit_node (rt : Runtime C) (node_info : NodeInfo) (pre_built_args : option (list CmTypes))
    (custom_func : option CmPtr) : run Submission :=
  let! (func_ptr, task_priority, affinity_group) :=
    if ni_post_node node_info then
      let! nodes := unwrap (g_post_nodes graph) in
      let! node := vec_get nodes (ni_id node_info) in
      let! func := match custom_func with
                   | Some f => Ret f
                   | None => unwrap (get_func (n_func_name node))
                   end in
      Ret (func, scheduler_priority (n_priority node), get_affinity_group (n_use_workers node))
    else
      let! entry := vec_get cache (ni_id node_info) in
      Ret (default (ce_func_ptr entry) custom_func, ce_priority entry, ce_affinity_group entry) in
  let! _ := should_record_slot (rt_slots rt) (ni_slot node_info) in
  let! stamped := if ni_post_node node_info then Ret node_info
                  else let! gen := slot_gen_of rt (ni_slot node_info) in Ret (with_gen gen node_info) in
  Ret (mkSubmission affinity_group task_priority func_ptr stamped pre_built_args
         (typed_spawn && negb (ni_post_node node_info) && negb (is_some custom_func) && negb (is_some pre_built_args))).

(** [send_to_scheduler]: the tasks it submits, in order. *)
Definition send_to_scheduler (rt : Runtime C) (nodes_to_schedule : list NodeInfo)
    (pre_built_args_vec : list (option (list CmTypes))) (custom_func_vec : option (list (option CmPtr)))
    : run (list Submission) :=
  run_imap (λ i node_info,
    let! custom_func := match custom_func_vec with Some v => vec_get v i | None => Ret None end in
    let! pre_built_args := vec_get pre_built_args_vec i in
    submit_node rt node_info pre_built_args custom_func) 0 nodes_to_schedule.

(** [dispatch_nodes]. *)
Definition dispatch_nodes (s : ExecState C) (nodes : list NodeInfo) : run (ExecState C) :=
  let! subs := send_to_scheduler (es_rt s) nodes (replicate (length nodes) None) None in
  Ret (mkExecState (es_rt s) (es_scheduled s ++ subs) (es_batch_queue s) (es_dropped s)).

(** [worker_resolve_successors] with its call of the scheduler. *)
Definition resolve_and_send (s : ExecState C) (ni : NodeInfo) : run (ExecState C * option NodeInfo) :=
  let! (rt, sent, inline) := worker_resolve_successors cfg cache arena (es_rt s) ni in
  let! s' := dispatch_nodes (with_rt rt s) sent in
  Ret (s', inline).

(** ** Bulk tasks *)

Definition bulk_workers (args_cache : ArgCacheEntry) : nat :=
  match ac_rt_workers_indexes args_cache with [] => 0 | _ => xc_workers cfg end.

Definition has_dynamic (args_cache : ArgCacheEntry) : bool :=
  match ac_buffer_ref_indexes args_cache, ac_rt_idxs_indexes args_cache,
        ac_rt_workers_indexes args_cache, ac_res_indexes args_cache with
  | [], [], [], [] => false
  | _, _, _, _ => true
  end.

(** The per-cell loop: the state, the buffer, and [bulk_stale]. *)
Fixpoint bulk_cells (entry : NodeCacheEntry) (func : CmPtr) (node_info : NodeInfo) (rt : Runtime C)
    (buf : list CmTypes) (cells : list nat) : run (option (Runtime C * bool)) :=
  match cells with
  | [] => Ret (Some (rt, false))
  | inst_idx :: cells =>
      let args_cache := ce_arg_cache entry in
      wait! (buf', stale) :=
        if has_dynamic args_cache then
          wait! (b, (stale, _)) := populate_dynamic_args_into (world_of rt) fuel (xc_single_slot_mode cfg)
                pred_group_by_table (Some (ni_slot node_info)) (ni_gen node_info) buf args_cache
                inst_idx (ni_slot node_info) inst_idx (bulk_workers args_cache) (false, 0) in
          Ret (Some (b, stale))
        else Ret (Some (buf, false)) in
      if stale : bool then Ret (Some (rt, true))
      else
        let result := func buf' in
        let! rt' := if ce_needs_result_store entry then
                      run_map (λ m, with_results m rt)
                        (rm_set (rt_results rt) (with_bulk_count 1 (with_index inst_idx node_info)) result)
                    else Ret rt in
        bulk_cells entry func node_info rt' buf' cells
  end.

(** [execute_bulk_task]; a stale range resolves nothing. *)
Definition execute_bulk_task (s : ExecState C) (wk : Worker) (func : CmPtr) (node_info : NodeInfo)
    : run (option (ExecState C * Worker * option NodeInfo)) :=
  let! entry := vec_get cache (ni_id node_info) in
  let buf := hold_any <$> (wk_arg_buf wk ++ ac_args (ce_arg_cache entry)) in
  wait! (rt, bulk_stale) :=
    match ce_bulk_func entry with
    | Some _ =>
        if negb (ce_needs_result_store entry) then Ret (Some (es_rt s, false))
        else bulk_cells entry func node_info (es_rt s) buf
               (range (ni_index node_info) (ni_index node_info + ni_bulk_count node_info))
    | None => bulk_cells entry func node_info (es_rt s) buf
                (range (ni_index node_info) (ni_index node_info + ni_bulk_count node_info))
    end in
  let wk' := mkWorker [] (wk_templates wk) in
  if bulk_stale : bool then Ret (Some (with_rt rt s, wk', None))
  else
    let! (s', next) := resolve_and_send (with_rt rt s) node_info in
    Ret (Some (s', wk', next)).

(** ** Single tasks *)

(** The call of the kernel in [execute_single_task]: the worker afterwards and the
    result, or no result for a stale task. *)
Definition run_kernel (rt : Runtime C) (wk : Worker) (entry : NodeCacheEntry) (func : CmPtr) (node_info : NodeInfo)
    : run (option (Worker * option CmTypes)) :=
  let args_cache := ce_arg_cache entry in
  let id := ni_id node_info in
  if ce_template_stable entry then
    let (templates, buf) := template_for (wk_templates wk) id (ac_args args_cache) in
    wait! (buf', (stale, _)) := populate_dynamic_args_into (world_of rt) fuel (xc_single_slot_mode cfg)
          pred_group_by_table (Some (ni_slot node_info)) (ni_gen node_info) buf args_cache
          (ni_index node_info) (ni_slot node_info) (ni_pred_index node_info) (bulk_workers args_cache) (false, 0) in
    Ret (Some (mkWorker (wk_arg_buf wk) (<[id := Some buf']> templates),
               if stale : bool then None else Some (func buf')))
  else
    wait! (buf', (stale, _)) := populate_cached_args_into (world_of rt) fuel (xc_single_slot_mode cfg) (xc_workers cfg)
          pred_group_by_table (Some (ni_slot node_info)) (ni_gen node_info) [] args_cache
          (ni_index node_info) (ni_slot node_info) (ni_pred_index node_info) (false, 0) in
    Ret (Some (mkWorker [] (wk_templates wk), if stale : bool then None else Some (func buf'))).

(** [execute_single_task]. *)
Definition execute_single_task (s : ExecState C) (wk : Worker) (func : CmPtr) (node_info : NodeInfo)
    (pre_built_args : option (list CmTypes)) : run (option (ExecState C * Worker * option NodeInfo)) :=
  let! _ := if recording then should_record_slot (rt_slots (es_rt s)) (ni_slot node_info) else Ret true in
  wait! (wk', result_opt) :=
    match pre_built_args with
    | Some args => Ret (Some (wk, Some (func args)))
    | None =>
        let! entry := vec_get cache (ni_id node_info) in
        run_kernel (es_rt s) wk entry func node_info
    end in
  match result_opt with
  | None => Ret (Some (s, wk', None))
  | Some result =>
      (* the name and the flags of the entry are read for post-nodes too *)
      let! entry := vec_get cache (ni_id node_info) in
      let! rt := if ni_post_node node_info || ce_needs_result_store entry then
                   run_map (λ m, with_results m (es_rt s)) (rm_set (rt_results (es_rt s)) node_info result)
                 else Ret (es_rt s) in
      let s1 := with_rt rt s in
      if negb (ni_post_node node_info) && ce_worker_resolvable entry then
        let! (s2, next) := resolve_and_send s1 node_info in
        Ret (Some (s2, wk', next))
      else
        Ret (Some (mkExecState (es_rt s1) (es_scheduled s1) (es_batch_queue s1 ++ [node_info]) (es_dropped s1),
                   wk', None))
  end.

(** [execute_task], with the guard against tasks of older generations. *)
Definition execute_task (s : ExecState C) (wk : Worker) (func : CmPtr) (node_info : NodeInfo)
    (pre_built_args : option (list CmTypes)) : run (option (ExecState C * Worker * option NodeInfo)) :=
  let! current := if ni_post_node node_info then Ret true
                  else let! gen := slot_gen_of (es_rt s) (ni_slot node_info) in Ret (gen =? ni_gen node_info)%Z in
  if current : bool then
    if 1 <? ni_bulk_count node_info then execute_bulk_task s wk func node_info
    else execute_single_task s wk func node_info pre_built_args
  else
    Ret (Some (mkExecState (es_rt s) (es_scheduled s) (es_batch_queue s)
                 (as_u64 (es_dropped s + Z.of_nat (Nat.max (ni_bulk_count node_info) 1))), wk, None)).

(** [run_node_desc] and the closure of [send_to_scheduler]: a task, then its inline
    continuations; the arguments that were built beforehand are those of the first.
    [None] also when more than [n] tasks follow each other. *)
Fixpoint run_node_desc (n : nat) (s : ExecState C) (wk : Worker) (func : CmPtr) (node_info : NodeInfo)
    (pre_built_args : option (list CmTypes)) : run (option (ExecState C * Worker)) :=
  match n with
  | 0 => Ret None
  | S n =>
      wait! (s', wk', next) := execute_task s wk func node_info pre_built_args in
      match next with
      | Some next =>
          let! entry := vec_get cache (ni_id next) in
          run_node_desc n s' wk' (ce_func_ptr entry) next None
      | None => Ret (Some (s', wk'))
      end
  end.

(** ** The resolution threads *)

(** [drive_batch] of [MultiSlotBatchStrategy]; the lists go to [dispatch_nodes]. *)
Inductive BatchOutcome := Continue | Empty.

Definition drive_batch (cond_indexes : list (list nat)) (s : ExecState C)
    (batch : list (NodeInfo * option CmTypes)) : run (option (ExecState C * BatchOutcome)) :=
  match batch with
  | [] => Ret (Some (s, Empty))
  | _ =>
      wait! (rt, dispatched) := process_batch_resolution cfg graph cache arena pred_group_by_table init_objects fuel
                                  cond_indexes (es_rt s) batch in
      let! s' := foldM dispatch_nodes (with_rt rt s) dispatched in
      Ret (Some (s', Continue))
  end.

(** The filter of [drain_and_process_batch_queue] against completions of older
    generations; [gen_cache] has 64 cells. *)
Definition fresh_completion (rt : Runtime C) (n : NodeInfo) : run bool :=
  if 64 <=? ni_slot n then Panic
  else let! gen := slot_gen_of rt (ni_slot n) in Ret (ni_gen n =? gen)%Z.

Fixpoint fresh_batch (rt : Runtime C) (batch : list NodeInfo) : run (list (NodeInfo * option CmTypes)) :=
  match batch with
  | [] => Ret []
  | n :: batch =>
      let! fresh := fresh_completion rt n in
      let! rest := fresh_batch rt batch in
      Ret (if fresh : bool then (n, None) :: rest else rest)
  end.

(** [drain_and_process_batch_queue], with the completions it finds in the queue. *)
Definition drain_and_process_batch_queue (cond_indexes : list (list nat)) (target_size : nat) (s : ExecState C)
    : run (option (ExecState C)) :=
  let batch := take target_size (es_batch_queue s) in
  let s1 := mkExecState (es_rt s) (es_scheduled s) (drop target_size (es_batch_queue s)) (es_dropped s) in
  match batch with
  | [] => Ret (Some s1)
  | _ =>
      let! comp_batch := fresh_batch (es_rt s) batch in
      wait! (s2, _) := drive_batch cond_indexes s1 comp_batch in
      Ret (Some s2)
  end.

(** [perform_initial_preparation] by the thread that wins [initial_prep_done]. *)
Definition perform_initial_preparation (scfg : SlotConfig) (s : ExecState C) : run (ExecState C) :=
  match g_initial_nodes graph with
  | [] => Ret s
  | _ =>
      let activate_frames := if cfg_slot_priority_enabled scfg then [0] else range 0 (cfg_slots scfg) in
      let! (rt, assigned_slots) := foldM (λ st frame_id,
          let! (rt', r) := assign_frame_to_available_slot scfg graph cache st.1 frame_id in
          let! (slot, _) := unwrap r in
          Ret (rt', st.2 ++ [slot])) (es_rt s, []) activate_frames in
      let! compute_nodes := initial_nodes scfg graph assigned_slots in
      dispatch_nodes (with_rt rt s) compute_nodes
  end.

(** ** Post-nodes *)

(** What [schedule_post_nodes] submits for one post-node; [frame_use] is the slot after
    those of the frames and of the system threads. *)
Definition post_node_tasks (frame_use : nat) (rt : Runtime C) (post_node : Node) : run (option (list Submission)) :=
  wait! (post_schedule, pre_build_args) := fold_wait (λ st index,
      let! o := parse_args (world_of rt) fuel (xc_single_slot_mode cfg) (xc_workers cfg) pred_group_by_table init_objects
                  (g_nodes graph) (n_args post_node) index frame_use 0 None 0 in
      Ret ((λ at_, (st.1 ++ [set_post_node true (NodeInfo_new (n_id post_node) frame_use index 0)], st.2 ++ [Some at_.1])) <$> o))
      ([], []) (range 0 (n_factor post_node)) in
  run_map Some (send_to_scheduler rt post_schedule pre_build_args
                  (Some (replicate (n_factor post_node) (get_func (n_func_name post_node))))).

(** The count of the loop that waits for a post-node. *)
Definition post_completed (frame_use : nat) (rt : Runtime C) (post_node : Node) : run nat :=
  foldM (λ n i, let! b := result_exists (rt_results rt) (NodeInfo_new (n_id post_node) frame_use i 0) in
                Ret (if b : bool then S n else n)) 0 (range 0 (n_factor post_node)).
End tasks.
