(* ===== verification/Arrivals.v ===== *)
(** What a sequence of completions makes of the counters of a slot.

    An ungrouped node is released by the number of completions that have arrived at it
    ([released]). The counter of a node [represents] a number of arrivals; a completed
    task moves every node it feeds by the number of covered instances that pass the
    filter of the edge, and the instances it makes ready are those the higher numbers
    release and the lower did not. *)
From S2P Require Import Prelude Types GraphStruct Graph Buffers NodeDep NodeDepConc NodeCache Tables DepCounter Arena Successor Slots Exec ExecSpec.
From stdpp Require Import strings.

Lemma filter_ext_elem {A} (P Q : A → Prop) `{∀ x, Decision (P x)} `{∀ x, Decision (Q x)} (l : list A) :
  (∀ x, x ∈ l → P x ↔ Q x) → filter P l = filter Q l.
Proof.
  induction l as [|x l IH]; intros Hpq; [done|]. rewrite !filter_cons, IH by (intros; apply Hpq; by right).
  pose proof (Hpq x ltac:(left)). repeat case_decide; tauto.
Qed.

Lemma filter_all {A} (P : A → Prop) `{∀ x, Decision (P x)} (l : list A) : (∀ x, x ∈ l → P x) → filter P l = l.
Proof.
  induction l as [|x l IH]; intros Hp; [done|]. rewrite filter_cons, decide_True by (apply Hp; left).
  by rewrite IH by (intros; apply Hp; by right).
Qed.

#[export] Instance due_dec e rem g i : Decision (due e rem g i).
Proof. unfold due. destruct (has_barrier e); apply _. Defined.

(** ** One node *)

(** The instances released once [a] completions have arrived. *)
Definition released (e : NodeDependencyEntry) (a : nat) : list nat :=
  filter (λ i, 0 < a ∧ due e (deps_per_group e - Z.of_nat a) 0 i) (range 0 (factor e)).

(** One group, no condition. *)
Definition single_group (e : NodeDependencyEntry) : Prop :=
  num_groups e = 1 ∧ group_size e = factor e ∧ is_condition e = false.

(** The entry stands for [a] arrivals at generation [gen]. *)
Record represents (gen : Z) (e : NodeDependencyEntry) (a : nat) : Prop := {
  rp_wf : entry_wf e;
  rp_single : single_group e;
  rp_bound : (Z.of_nat a ≤ deps_per_group e)%Z;
  rp_rem : ds_remaining (view gen e) = [deps_per_group e - Z.of_nat a]%Z;
  rp_sent : has_barrier e = false →
            ds_sent (view gen e) = (λ i, bool_decide (i ∈ released e a)) <$> range 0 (factor e);
}.

Lemma released_shape e e' a : same_shape e e' → released e' a = released e a.
Proof.
  intros (Hf & Hg & _ & Hd & Hi & Hb & _). unfold released. rewrite Hf. apply filter_ext_elem. intros i _.
  unfold due, threshold_for_instance_in_group, group_start. by rewrite Hg, Hd, Hi, Hb.
Qed.

Lemma released_lt e a i : i ∈ released e a → i < factor e.
Proof. unfold released. rewrite list_elem_of_filter, elem_of_range. tauto. Qed.

Lemma released_NoDup e a : NoDup (released e a).
Proof. apply NoDup_filter, NoDup_range. Qed.

Lemma released_zero e : released e 0 = [].
Proof.
  unfold released. apply elem_of_nil_inv. intros i. rewrite list_elem_of_filter. intros [[? _] _]. lia.
Qed.

(** When every awaited completion has arrived, all instances are released. *)
Lemma released_full e a : single_group e → (Z.of_nat a = deps_per_group e)%Z → 0 < a → released e a = range 0 (factor e).
Proof.
  intros (_ & Hg & _) Ha Hpos. unfold released.
  apply filter_all. intros i _. split; [done|]. replace (deps_per_group e - Z.of_nat a)%Z with 0%Z by lia.
  unfold due, threshold_for_instance_in_group. destruct (has_barrier e); [done|]. case_match; [done|apply Nat2Z.is_nonneg].
Qed.

Lemma released_mono e a b i : a ≤ b → (Z.of_nat b ≤ deps_per_group e)%Z → i ∈ released e a → i ∈ released e b.
Proof.
  unfold released. rewrite !list_elem_of_filter. intros Hab Hb ([Hpos Hdue] & Hi). split; [split; [lia|]|done].
  unfold due in *. destruct (has_barrier e); lia.
Qed.

(** Claiming instances one after the other. *)
Lemma spec_claims_spec claims sent ready : NoDup claims → (∀ i, i ∈ claims → i < length sent) →
  fold_left spec_claim claims (sent, ready)
  = (imap (λ i b, b || bool_decide (i ∈ claims)) sent, ready ++ filter (λ i, default false (sent !! i) = false) claims).
Proof.
  revert sent ready. induction claims as [|i claims IH]; intros sent ready Hnd Hlt; cbn [fold_left].
  - f_equal; [|by rewrite app_nil_r]. symmetry. apply list_eq. intros k. rewrite list_lookup_imap.
    destruct (sent !! k); cbn; [|done]. by rewrite bool_decide_false, orb_false_r by apply not_elem_of_nil.
  - apply NoDup_cons in Hnd as [Hni Hnd].
    assert (Hi : i < length sent) by (apply Hlt; left). destruct (lookup_lt_is_Some_2 _ _ Hi) as [b Hb].
    assert (Hcl : ∀ k, bool_decide (k ∈ i :: claims) = bool_decide (k = i) || bool_decide (k ∈ claims)).
    { intros k. rewrite <- bool_decide_or. apply bool_decide_ext. by rewrite elem_of_cons. }
    assert (Hsc : spec_claim (sent, ready) i = if b then (sent, ready) else (<[i:=true]> sent, ready ++ [i])).
    { unfold spec_claim. by rewrite Hb. }
    rewrite Hsc, filter_cons, Hb. cbn [default from_option id]. destruct b.
    + rewrite decide_False by done. rewrite IH; [|done|intros; apply Hlt; by right]. f_equal.
      apply list_eq. intros k. rewrite !list_lookup_imap. destruct (sent !! k) as [b|] eqn:Hk; cbn; [|done].
      rewrite Hcl. destruct (decide (k = i)) as [->|]; [|by rewrite (bool_decide_false (k = i))].
      rewrite Hk in Hb. by injection Hb as ->.
    + rewrite decide_True by done. rewrite IH; [|done|intros; rewrite length_insert; apply Hlt; by right]. f_equal.
      * apply list_eq. intros k. rewrite !list_lookup_imap, Hcl. destruct (decide (k = i)) as [->|Hne].
        -- rewrite list_lookup_insert_eq, Hb by done. cbn. by rewrite (bool_decide_true (i = i)).
        -- rewrite list_lookup_insert_ne by done. destruct (sent !! k); cbn; [|done]. by rewrite (bool_decide_false (k = i)).
      * rewrite <- app_assoc. f_equal. cbn. f_equal. apply filter_ext_elem. intros k Hk.
        rewrite list_lookup_insert_ne; [done|]. by intros ->.
Qed.

(** Without a barrier, the instances to claim are those that are due. *)
Lemma plan_claims e g old_ new_ : has_barrier e = false →
  let p := publish_plan e None g old_ new_ in
  p.1 = [] ∧ NoDup p.2 ∧ ∀ i, i ∈ p.2 ↔ in_group e g i ∧ due e new_ g i.
Proof.
  intros Hb p. subst p. unfold due, publish_plan. rewrite Hb.
  destruct (new_ <=? Z.of_nat (group_size e * deps_per_instance e))%Z eqn:Hz; cbn [fst snd].
  - split; [done|]. split; [apply NoDup_filter, NoDup_range|]. intros i. rewrite list_elem_of_filter, in_group_range. tauto.
  - split; [done|]. split; [apply NoDup_nil_2|]. intros i. split; [by intros ?%not_elem_of_nil|].
    intros [[Hi1 Hi2] Hdue]. exfalso. apply Z.leb_gt in Hz. unfold threshold_for_instance_in_group, group_end in *.
    rewrite (proj2 (Nat.leb_gt _ _)) in Hdue by lia.
    assert ((group_size e - (i - group_start e g) - 1) * deps_per_instance e
            <= group_size e * deps_per_instance e) by (apply Nat.mul_le_mono_r; lia). lia.
Qed.

(** A decrement on the entry of an ungrouped node. *)
Lemma represents_decrease gen e a count spec : is_u32 gen → represents gen e a → 0 < count →
  (Z.of_nat (a + count) ≤ deps_per_group e)%Z → (has_barrier e = true ∨ spec = None) →
  ∃ e' ready, decrease_and_get_ready_into e gen None count spec = Ret (e', ready)
    ∧ same_shape e e' ∧ represents gen e' (a + count)
    ∧ released e (a + count) ≡ₚ released e a ++ ready.
Proof.
  intros Hgen [Hwf Hsg Hbd Hrem Hsent] Hc Hle Hspec. pose proof Hsg as (Hng & Hgs & Hcond).
  destruct (decrease_refines gen e None count spec Hgen Hwf) as (e' & ready & Hd & Hwf' & Hsh & Hs).
  exists e', ready. split; [done|]. split; [done|].
  pose proof (wf_dpg e Hwf) as Hu. unfold is_u32 in Hu.
  unfold spec_decrease, call_groups in Hs. rewrite Hng in Hs. rewrite (range_cons 0 1), (range_empty 1) in Hs by lia.
  cbn [fold_left] in Hs. unfold spec_decrease_group in Hs. rewrite Hrem in Hs. cbn [lookup list_lookup default from_option id] in Hs.
  rewrite as_u32_small in Hs by lia.
  replace (sat_sub (deps_per_group e - Z.of_nat a) (Z.of_nat count)) with (deps_per_group e - Z.of_nat (a + count))%Z in Hs
    by (unfold sat_sub; lia).
  set (old_ := (deps_per_group e - Z.of_nat a)%Z) in *. set (new_ := (deps_per_group e - Z.of_nat (a + count))%Z) in *.
  assert (Hsg' : single_group e').
  { destruct Hsh as (Hf & Hg & Hn & _ & _ & _ & Hcd). unfold single_group. by rewrite Hf, Hg, Hn, Hcd. }
  assert (Hbd' : (Z.of_nat (a + count) ≤ deps_per_group e')%Z) by (by destruct Hsh as (_ & _ & _ & -> & _)).
  assert (Hin : ∀ i, i < factor e ↔ in_group e 0 i).
  { intros i. unfold in_group, group_end, group_start. rewrite Hgs. lia. }
  assert (Hrel : ∀ i b, i ∈ released e b ↔ i < factor e ∧ 0 < b ∧ due e (deps_per_group e - Z.of_nat b) 0 i).
  { intros i b. unfold released. rewrite list_elem_of_filter, elem_of_range. intuition lia. }
  assert (Hsp : spec = None ∨ has_barrier e = true) by tauto.
  destruct (publish_plan e spec 0 old_ new_) as [direct claims] eqn:Hpp.
  destruct (has_barrier e) eqn:Hb.
  - (* the whole node at once *)
    unfold publish_plan in Hpp. rewrite Hb, Hcond in Hpp. rewrite (proj2 (Z.ltb_lt 0 old_)) in Hpp by lia. cbn [andb] in Hpp.
    assert (Hr : released e (a + count) = direct ∧ claims = []).
    { unfold group_end, group_start in Hpp. rewrite Hgs, Nat.mul_0_l, Nat.min_id in Hpp.
      unfold released. fold new_. destruct (new_ =? 0)%Z eqn:Hn; apply pair_eq in Hpp as [<- <-]; (split; [|done]).
      - apply Z.eqb_eq in Hn. apply filter_all. intros i _. unfold due. rewrite Hb. split; [lia|done].
      - apply Z.eqb_neq in Hn. apply elem_of_nil_inv. intros i. rewrite list_elem_of_filter. unfold due. rewrite Hb. tauto. }
    destruct Hr as [Hr ->]. cbn [fold_left app] in Hs. apply pair_eq in Hs as [Hv <-].
    assert (Hr0 : released e a = []).
    { apply elem_of_nil_inv. intros i. rewrite Hrel. unfold due. rewrite Hb. fold old_. lia. }
    split; [|by rewrite Hr0, Hr]. split; try done.
    + rewrite <- Hv. cbn. destruct Hsh as (_ & _ & _ & -> & _). done.
    + destruct Hsh as (_ & _ & _ & _ & _ & -> & _). congruence.
  - destruct Hsp as [->|?]; [|done]. destruct (plan_claims e 0 old_ new_ Hb) as (Hd0 & Hnd & Hcl).
    rewrite Hpp in Hd0, Hnd, Hcl. cbn [fst snd] in Hd0, Hnd, Hcl. subst direct. rewrite app_nil_r in Hs.
    assert (Hsl : length (ds_sent (view gen e)) = factor e) by (rewrite Hsent by done; rewrite length_fmap, length_range; lia).
    assert (Hcl' : ∀ i, i ∈ claims ↔ i ∈ released e (a + count)).
    { intros i. rewrite Hcl, Hrel, Hin. fold new_. split; [|tauto]. intros []. split; [done|]. split; [lia|done]. }
    rewrite spec_claims_spec in Hs; [|done|intros i Hi; rewrite Hsl; apply Hcl', Hrel in Hi; lia].
    apply pair_eq in Hs as [Hv <-]. cbn [app]. split.
    + split; try done.
      * rewrite <- Hv. cbn. destruct Hsh as (_ & _ & _ & -> & _). done.
      * intros _. rewrite <- Hv. cbn [ds_sent]. rewrite Hsent by done.
        assert (Hf' : factor e' = factor e) by (by destruct Hsh). rewrite Hf'.
        apply list_eq. intros i. rewrite list_lookup_imap, !list_lookup_fmap.
        destruct (range 0 (factor e) !! i) as [j|] eqn:Hj; cbn; [|done]. f_equal.
        assert (j = i) as -> by (unfold range in Hj; apply lookup_seq in Hj; lia).
        rewrite (released_shape e e') by done. rewrite (bool_decide_ext (i ∈ claims) _ (Hcl' i)).
        rewrite <- bool_decide_or. apply bool_decide_ext. split; [|by right].
        intros [Hi|?]; [|done]. eapply released_mono, Hi; lia.
    + apply NoDup_Permutation.
      * apply released_NoDup.
      * apply NoDup_app. split; [apply released_NoDup|]. split; [|by apply NoDup_filter].
        intros i Hi [Hns _]%list_elem_of_filter. rewrite Hsent in Hns by done.
        rewrite list_lookup_fmap in Hns. pose proof (released_lt _ _ _ Hi).
        unfold range in Hns. rewrite lookup_seq_lt in Hns by lia. cbn in Hns. by rewrite bool_decide_true in Hns.
      * intros i. rewrite elem_of_app, list_elem_of_filter, Hcl'. split; [|intros [Hi|[_ ?]]; [eapply released_mono, Hi; lia|done]].
        intros Hi. destruct (decide (i ∈ released e a)) as [?|Hn]; [by left|right]. split; [|done].
        rewrite Hsent by done. rewrite list_lookup_fmap. pose proof (released_lt _ _ _ Hi).
        unfold range. rewrite lookup_seq_lt by lia. cbn. by apply bool_decide_false.
Qed.

(** ** The counters of a slot *)

(** One more number of arrivals at [t]. *)
Definition bump (arr : nat → nat) (t k : nat) : nat → nat := λ u, if decide (u = t) then arr u + k else arr u.

Lemma bump_same arr t k : bump arr t k t = arr t + k.
Proof. unfold bump. by rewrite decide_True. Qed.

Lemma bind_ext_elem {A B} (f g : A → list B) l : (∀ x, x ∈ l → f x = g x) → l ≫= f = l ≫= g.
Proof.
  induction l as [|x l IH]; intros Hfg; [done|]. rewrite !bind_cons, Hfg by left.
  by rewrite IH by (intros; apply Hfg; by right).
Qed.

(** Changing what one element contributes. *)
Lemma bind_change {A B} `{EqDecision A} (f f' : A → list B) g x l : NoDup l → x ∈ l → f' x ≡ₚ f x ++ g →
  (∀ y, y ∈ l → y ≠ x → f' y = f y) → l ≫= f' ≡ₚ (l ≫= f) ++ g.
Proof.
  intros Hnd Hx Hf Hne. induction Hnd as [|y l Hy Hnd IH]; [by apply not_elem_of_nil in Hx|]. rewrite !bind_cons.
  apply elem_of_cons in Hx as [->|Hx].
  - rewrite Hf. assert (Hl : l ≫= f' = l ≫= f).
    { apply bind_ext_elem. intros z Hz. apply Hne; [by right|]. by intros ->. }
    rewrite Hl, <- !app_assoc. f_equiv. apply Permutation_app_comm.
  - rewrite Hne; [|left|by intros ->]. rewrite IH; [by rewrite app_assoc|done|]. intros; apply Hne; [by right|done].
Qed.

Section counters.
Context (slot : nat) (gen : Z) (shape : nat → NodeDependencyEntry) (n : nat).
Context (Hgen : is_u32 gen).

(** The counters of the slot stand for these arrivals. *)
Definition counts (c : MultiThreadedCounter) (arr : nat → nat) : Prop :=
  ∀ t, t < n → ∃ e, map_entry (node_dep_map c) slot t = Some e ∧ same_shape (shape t) e ∧ represents gen e (arr t).

(** The released instances of all nodes. *)
Definition released_all (arr : nat → nat) : list (nat * nat) :=
  range 0 n ≫= λ t, pair t <$> released (shape t) (arr t).

Lemma counts_ext c arr arr' : (∀ t, t < n → arr t = arr' t) → counts c arr → counts c arr'.
Proof. intros He Hc t Ht. rewrite <- He by done. by apply Hc. Qed.

Lemma released_all_ext arr arr' : (∀ t, t < n → arr t = arr' t) → released_all arr = released_all arr'.
Proof. intros He. apply bind_ext_elem. intros t Ht%elem_of_range. by rewrite He by lia. Qed.

Lemma released_all_bump arr t k ready : t < n →
  released (shape t) (arr t + k) ≡ₚ released (shape t) (arr t) ++ ready →
  released_all (bump arr t k) ≡ₚ released_all arr ++ (pair t <$> ready).
Proof.
  intros Ht Hr. unfold released_all. apply bind_change with t.
  - apply NoDup_range.
  - apply elem_of_range. lia.
  - by rewrite bump_same, Hr, fmap_app.
  - intros u _ Hu. unfold bump. by rewrite decide_False.
Qed.

Lemma counts_decrease c arr t count spec : counts c arr → t < n → 0 < count →
  (Z.of_nat (arr t + count) ≤ deps_per_group (shape t))%Z → (has_barrier (shape t) = true ∨ spec = None) →
  ∃ c' ready, counter_decrease c slot t gen None count spec = Ret (c', ready)
    ∧ counts c' (bump arr t count)
    ∧ released (shape t) (arr t + count) ≡ₚ released (shape t) (arr t) ++ ready.
Proof.
  intros Hc Ht Hpos Hle Hspec. destruct (Hc t Ht) as (e & He & Hsh & Hrep).
  assert (Hd : deps_per_group e = deps_per_group (shape t)) by (by destruct Hsh as (_ & _ & _ & -> & _)).
  assert (Hb : has_barrier e = has_barrier (shape t)) by (by destruct Hsh as (_ & _ & _ & _ & _ & -> & _)).
  destruct (represents_decrease gen e (arr t) count spec) as (e' & ready & Hdec & Hsh' & Hrep' & Hrel);
    [done|done|done|by rewrite Hd|by rewrite Hb|].
  cbn [counter_decrease mt_counter]. unfold mt_decrease, map_decrease. rewrite He, Hdec. cbn [run_bind].
  eexists _, ready. split; [done|]. rewrite !(released_shape (shape t) e) in Hrel by done. split; [|done].
  intros u Hu. cbn [node_dep_map]. rewrite map_update_entry by (by rewrite He). destruct (decide (u = t)) as [->|Hne].
  - rewrite decide_True by done. exists e'. split; [done|]. split; [by eapply same_shape_trans|]. by rewrite bump_same.
  - rewrite decide_False by tauto. unfold bump. rewrite decide_False by done. by apply Hc.
Qed.

(** ** One edge *)

(** An edge whose completions are counted: no groups, and no instance named by the
    completion unless the node is released as a whole. *)
Record counted_edge (e : SuccEdge) : Prop := {
  ce_succ : se_succ_id e < n;
  ce_group : se_group_by e = NO_GROUP;
  ce_positive : se_succ_factor e ≠ 0%Z;
  ce_count : has_barrier (shape (se_succ_id e)) = true ∨ se_has_one_to_one e = false;
}.

(** The completions among [cells] that pass the filter. *)
Definition passing_cells (e : SuccEdge) (cells : list nat) : list nat := filter (λ i, passes_filter e i = true) cells.

Lemma counted_one e cell : counted_edge e → ∃ spec, one_to_one_succ_idx e cell = Ret spec
  ∧ (has_barrier (shape (se_succ_id e)) = true ∨ spec = None) ∧ pred_group e cell = None.
Proof.
  intros [_ Hg Hf Hc]. unfold one_to_one_succ_idx, pred_group. rewrite Hg, Z.eqb_refl.
  rewrite (proj2 (Z.eqb_neq _ _) Hf). destruct (se_has_one_to_one e).
  - eexists. split; [done|]. split; [|done]. left. by destruct Hc.
  - exists None. split; [done|]. split; [by right|done].
Qed.

Lemma each_counts e cells c arr acc : counts c arr → counted_edge e →
  (Z.of_nat (arr (se_succ_id e) + length cells) ≤ deps_per_group (shape (se_succ_id e)))%Z →
  ∃ c' ready, decrement_each e slot gen (c, acc) cells = Ret (c', acc ++ ready)
    ∧ counts c' (bump arr (se_succ_id e) (length cells))
    ∧ released (shape (se_succ_id e)) (arr (se_succ_id e) + length cells)
      ≡ₚ released (shape (se_succ_id e)) (arr (se_succ_id e)) ++ ready.
Proof.
  intros Hc He. pose proof (ce_succ e He) as Ht. set (t := se_succ_id e) in *.
  revert c arr acc Hc. induction cells as [|i cells IH]; intros c arr acc Hc Hle; cbn [length] in *.
  - exists c, []. unfold decrement_each. cbn [foldM]. rewrite !app_nil_r, Nat.add_0_r. split; [done|]. split; [|done].
    eapply counts_ext, Hc. intros u _. unfold bump. case_decide; lia.
  - destruct (counted_one e i He) as (spec & Hs & Hb & Hg).
    destruct (counts_decrease c arr t 1 spec Hc Ht) as (c1 & r1 & Hd & Hc1 & Hr1); [lia|lia|done|].
    destruct (IH c1 (bump arr t 1) (acc ++ r1) Hc1) as (c2 & r2 & Hf & Hc2 & Hr2); [rewrite bump_same; lia|].
    rewrite bump_same in Hr2. exists c2, (r1 ++ r2). split; [|split].
    + unfold decrement_each in *. cbn [foldM fst snd]. unfold decrement_one at 1. rewrite Hs. cbn [run_bind].
      rewrite Hg. fold t. rewrite Hd. cbn [run_bind]. rewrite Hf. by rewrite app_assoc.
    + eapply counts_ext, Hc2. intros u _. unfold bump. repeat case_decide; lia.
    + replace (arr t + S (length cells)) with (arr t + 1 + length cells) by lia. rewrite Hr2, Hr1. by rewrite app_assoc.
Qed.

Lemma edge_counts e c arr idx bulk : counts c arr → counted_edge e → 0 < bulk →
  let t := se_succ_id e in let k := length (passing_cells e (range idx (idx + bulk))) in
  (Z.of_nat (arr t + k) ≤ deps_per_group (shape t))%Z →
  ∃ c' ready, decrement_and_collect_ready c slot idx e bulk gen = Ret (c', ready)
    ∧ counts c' (bump arr t k)
    ∧ released (shape t) (arr t + k) ≡ₚ released (shape t) (arr t) ++ ready.
Proof.
  intros Hc He Hb t k Hle. destruct (filter_bounds e) as [[lo hi]|] eqn:Hf.
  - rewrite (filtered_bulk_each _ _ _ _ _ _ lo hi Hf). replace (Nat.max bulk 1) with bulk by lia.
    by apply (each_counts e _ c arr []).
  - assert (Hk : k = bulk).
    { unfold k, passing_cells. rewrite filter_all; [rewrite length_range; lia|]. intros i _. unfold passes_filter.
      unfold filter_bounds in Hf. by destruct (se_filter_end e =? NO_FILTER)%Z. }
    unfold decrement_and_collect_ready. rewrite Hf. destruct (counted_one e idx He) as (spec & Hs & Hsb & Hg).
    rewrite Hs, Hg. rewrite Hk in *.
    assert (Hsp : ∃ spec', (if 1 <? bulk then Ret None else Ret spec) = Ret spec'
                           ∧ (has_barrier (shape t) = true ∨ spec' = None)).
    { destruct (1 <? bulk); [exists None|exists spec]; auto. }
    destruct Hsp as (spec' & -> & Hsp). cbn [run_bind]. apply counts_decrease; try done. apply He.
Qed.

(** ** All edges of a completed task *)

(** The arrivals at [t] that the completion of [cells] causes over these edges. *)
Definition hits (edges : list SuccEdge) (cells : list nat) (t : nat) : nat :=
  nat_sum ((λ e, if decide (se_succ_id e = t) then length (passing_cells e cells) else 0) <$> edges).

Lemma edge_hits_cons e edges cells t :
  hits (e :: edges) cells t = (if decide (se_succ_id e = t) then length (passing_cells e cells) else 0) + hits edges cells t.
Proof. done. Qed.

Lemma edges_counts edges ni c arr acc : counts c arr → (∀ e, e ∈ edges → counted_edge e) → 0 < ni_bulk_count ni →
  ni_slot ni = slot →
  (∀ t, t < n → (Z.of_nat (arr t + hits edges (covered ni) t) ≤ deps_per_group (shape t))%Z) →
  ∃ c' insts,
    foldM (λ s edge,
      let! (c', ready) := decrement_and_collect_ready s.1 (ni_slot ni) (ni_index ni) edge (ni_bulk_count ni) gen in
      Ret (c', s.2 ++ (pair (se_succ_id edge) <$> ready))) (c, acc) edges = Ret (c', acc ++ insts)
    ∧ counts c' (λ t, arr t + hits edges (covered ni) t)
    ∧ released_all (λ t, arr t + hits edges (covered ni) t) ≡ₚ released_all arr ++ insts.
Proof.
  intros Hc He Hb Hslot. revert c arr acc Hc. induction edges as [|e edges IH]; intros c arr acc Hc Hle.
  - exists c, []. cbn [foldM]. rewrite !app_nil_r. split; [done|].
    split; [eapply counts_ext, Hc|]; [|erewrite released_all_ext; [done|]]; intros t _; unfold hits; cbn; lia.
  - pose proof (He e ltac:(left)) as Hce. pose proof (ce_succ e Hce) as Ht.
    destruct (edge_counts e c arr (ni_index ni) (ni_bulk_count ni) Hc Hce Hb) as (c1 & r1 & Hd & Hc1 & Hr1).
    { specialize (Hle _ Ht). rewrite edge_hits_cons, decide_True in Hle by done. unfold covered in Hle. lia. }
    fold (covered ni) in Hc1, Hr1. set (k := length (passing_cells e (covered ni))) in *.
    assert (Hext : ∀ t, bump arr (se_succ_id e) k t + hits edges (covered ni) t = arr t + hits (e :: edges) (covered ni) t).
    { intros t. rewrite edge_hits_cons. unfold bump. fold k.
      destruct (decide (t = se_succ_id e)) as [->|Hne]; [rewrite decide_True by done; lia|].
      rewrite decide_False by congruence. lia. }
    destruct (IH ltac:(intros; apply He; by right) c1 (bump arr (se_succ_id e) k) (acc ++ (pair (se_succ_id e) <$> r1)) Hc1)
      as (c2 & i2 & Hf & Hc2 & Hr2).
    { intros t Ht'. rewrite Hext. by apply Hle. }
    exists c2, ((pair (se_succ_id e) <$> r1) ++ i2). split; [|split].
    + cbn [foldM fst snd]. rewrite Hslot in *. rewrite Hd. cbn [run_bind fst snd]. rewrite Hf. by rewrite app_assoc.
    + eapply counts_ext, Hc2. intros. apply Hext.
    + rewrite (released_all_ext _ (λ t, bump arr (se_succ_id e) k t + hits edges (covered ni) t)) by (intros; by rewrite Hext).
      rewrite Hr2. rewrite (released_all_bump arr (se_succ_id e) k r1) by done. by rewrite app_assoc.
Qed.
End counters.

(** ** Arrivals of a set of instances *)

Section arrivals.
Context (out : nat → list SuccEdge).

(** How many of the completions [X] arrive at [t]. *)
Definition arrivals_of (X : list (nat * nat)) (t : nat) : nat := nat_sum ((λ pi, hits (out pi.1) [pi.2] t) <$> X).

Lemma arrivals_app X Y t : arrivals_of (X ++ Y) t = arrivals_of X t + arrivals_of Y t.
Proof. unfold arrivals_of. by rewrite fmap_app, nat_sum_app. Qed.

#[export] Instance arrivals_perm : Proper ((≡ₚ) ==> eq ==> eq) arrivals_of.
Proof. intros X Y HXY t _ <-. unfold arrivals_of. apply nat_sum_perm. by rewrite HXY. Qed.

Lemma hits_add edges i cells t : hits edges (i :: cells) t = hits edges [i] t + hits edges cells t.
Proof.
  unfold hits. induction edges as [|e edges IH]; [done|]. rewrite !fmap_cons. unfold nat_sum in *. cbn [foldr]. rewrite IH.
  case_decide; [|lia]. unfold passing_cells. rewrite !filter_cons. rewrite filter_nil. case_decide; cbn [length]; lia.
Qed.

Lemma arrivals_pairs p cells t : arrivals_of (pair p <$> cells) t = hits (out p) cells t.
Proof.
  unfold arrivals_of. induction cells as [|i l IH].
  - symmetry. induction (out p) as [|e l IH]; [done|]. rewrite edge_hits_cons, IH. by case_decide.
  - rewrite (hits_add _ i l), <- IH. done.
Qed.

Lemma arrivals_task ni t : arrivals_of (task_instances ni) t = hits (out (ni_id ni)) (covered ni) t.
Proof. apply arrivals_pairs. Qed.

Lemma arrivals_bind (f : nat → list nat) l t :
  arrivals_of (l ≫= λ p, pair p <$> f p) t = nat_sum ((λ p, hits (out p) (f p) t) <$> l).
Proof. induction l as [|p l IH]; [done|]. by rewrite bind_cons, arrivals_app, arrivals_pairs, IH. Qed.
End arrivals.
