(* ===== verification/Frame.v ===== *)
(** One frame in a slot, from its first tasks until nothing is left to run.

    The scheduler holds tasks, the workers take them in any order, go on with inline
    continuations, and resolve what they complete; [frame_step] is one task of one
    worker. For an unconditional graph of ungrouped nodes the invariant [frame_inv] says
    that the instances that have run and those that wait together are the roots and the
    instances the arrivals so far release, each once. *)
From S2P Require Import Prelude Types GraphStruct WorkerRange Graph Buffers NodeDep NodeDepConc NodeCache Tables DepCounter ResultMap Arena Successor ArgRes Slots Exec ExecSpec Task Arrivals.
From stdpp Require Import strings.

(** ** Nothing is stale while the generation stays *)

Definition calm {A} (m : reading A) : Prop := ∀ t a b t', m (false, t) = Ret (Some (a, (b, t'))) → b = false.

Lemma calm_ret {A} (a : A) : calm (rd_ret a).
Proof. intros t a' b t'. unfold rd_ret. by intros [= _ <- _]. Qed.

Lemma calm_lift {A} (m : run A) : calm (rd_lift m).
Proof. intros t a b t'. unfold rd_lift. destruct m; [|done]. cbn. by intros [= _ <- _]. Qed.

Lemma calm_bind {A B} (m : reading A) (k : A → reading B) : calm m → (∀ a, calm (k a)) → calm (rd_bind m k).
Proof.
  intros Hm Hk t a b t'. unfold rd_bind. destruct (m (false, t)) as [[[x [b1 t1]]|]|] eqn:Hx; [|done|done]. cbn [run_bind].
  apply Hm in Hx as ->. apply Hk.
Qed.

Section calm.
Context (obs : nat → World) (fuel : nat) (ssm : bool) (workers : nat) (tbl : table nat) (slot : nat) (exec_gen g : Z).
Context (Hshut : ∀ t, w_shutdown (obs t) = false) (Hobs : ∀ t, w_generation (obs t) !! slot = Some g) (Hg : as_u32 g = exec_gen).

Lemma calm_get ni : calm (get_result obs ni).
Proof. intros t a b t'. unfold get_result. destruct (rm_get _ _); [|done]. cbn. by intros [= _ <- _]. Qed.

Lemma calm_spin n ni : calm (spin_wait obs ssm (Some slot) exec_gen n ni).
Proof.
  induction n as [|n IH]; intros t a b t'; [done|]. cbn [spin_wait]. unfold rd_bind, get_result. cbn [snd fst].
  destruct (rm_get (w_results (obs t)) ni) as [[v|]|]; [|cbn [run_bind]|done].
  - cbn. by intros [= _ <- _].
  - cbn [snd]. rewrite Hshut, (vec_get_lookup _ _ _ (Hobs _)). cbn [run_bind]. rewrite Hg, Z.eqb_refl. apply IH.
Qed.

Lemma calm_cell res cell : calm (fetch_cell obs fuel ssm (Some slot) exec_gen res slot cell).
Proof. apply calm_bind; [apply calm_get|]. intros [v|]; [apply calm_ret|apply calm_spin]. Qed.

Lemma calm_all res ni pf indexes : calm (fetch_all obs fuel ssm (Some slot) exec_gen res slot ni pf indexes).
Proof.
  induction indexes as [|i indexes IH]; cbn [fetch_all]; [apply calm_ret|].
  apply calm_bind; [apply calm_lift|intros d]. apply calm_bind; [apply calm_cell|]. intros [v|]; [|apply calm_ret].
  apply calm_bind; [done|]. intros vs. apply calm_ret.
Qed.

Lemma calm_fetch res indexes ni pi nf pf ngs pgs hb :
  calm (fetch_res_results obs fuel ssm (Some slot) exec_gen res indexes ni pi nf pf ngs pgs hb slot).
Proof.
  unfold fetch_res_results. destruct indexes as [|i [|j l]]; [apply calm_ret| |].
  - apply calm_bind; [apply calm_lift|intros d]. apply calm_bind; [apply calm_cell|]. intros r. apply calm_ret.
  - case_match; [|apply calm_all].
    apply calm_bind; [apply calm_lift|intros d]. apply calm_bind; [apply calm_cell|]. intros r. apply calm_ret.
Qed.

Lemma calm_collect rp ni pi : calm (collect_res_from_cache obs fuel ssm tbl (Some slot) exec_gen rp ni slot pi None).
Proof.
  intros t a b t'. unfold collect_res_from_cache. destruct (rp_is_dep rp); [by intros [= _ <- _]|]. cbn [fst].
  destruct (match rp_pred_group_size rp with Some gs => Ret (Some gs) | None => _ end) as [gs|]; [|done]. cbn [run_bind].
  apply calm_fetch.
Qed.

Lemma calm_results buf ni pi l : calm (populate_results obs fuel ssm tbl (Some slot) exec_gen buf ni slot pi l).
Proof.
  revert buf. induction l as [|[res_idx rp] l IH]; intros buf t a b t'; cbn [populate_results]; [by intros [= _ <- _]|].
  cbn [fst]. revert t a b t'. change (calm (read! result_opt := collect_res_from_cache obs fuel ssm tbl (Some slot) exec_gen rp ni slot pi None in
     read! buf' := rd_lift (match result_opt with Some result => splice buf res_idx result | None => Ret buf end) in
     populate_results obs fuel ssm tbl (Some slot) exec_gen buf' ni slot pi l)).
  apply calm_bind; [apply calm_collect|intros r]. apply calm_bind; [apply calm_lift|done].
Qed.

Lemma calm_dynamic buf c ni pi wk s a b t' :
  populate_dynamic_args_into obs fuel ssm tbl (Some slot) exec_gen buf c ni slot pi wk s = Ret (Some (a, (b, t'))) → b = false.
Proof.
  unfold populate_dynamic_args_into. revert a b t'. destruct s as [b0 t]. cbn [snd].
  pose proof (calm_bind (rd_lift (process_buffer_refs buf c ni)) (λ buf1,
     read! buf2 := rd_lift (process_runtime_refs buf1 c ni wk) in
     populate_results obs fuel ssm tbl (Some slot) exec_gen buf2 ni slot pi (zip (ac_res_indexes c) (ac_res_predecessors c)))
     (calm_lift _) (λ buf1, calm_bind _ _ (calm_lift _) (λ buf2, calm_results buf2 ni pi _))) as H.
  intros a b t'. apply (H t).
Qed.

Lemma calm_cached buf c ni pi s a b t' :
  populate_cached_args_into obs fuel ssm workers tbl (Some slot) exec_gen buf c ni slot pi s = Ret (Some (a, (b, t'))) → b = false.
Proof.
  unfold populate_cached_args_into. destruct (ac_buffer_ref_indexes c), (ac_rt_idxs_indexes c), (ac_rt_workers_indexes c), (ac_res_indexes c);
    try apply calm_dynamic. by intros [= _ <- _].
Qed.
End calm.

(** ** Running tasks *)

Section running.
Context {C : Type} `{DependencyCounter C} `{FuncReg}.
Context (cfg : ExecConfig) (graph : Graph) (cache : list NodeCacheEntry) (arena : SuccessorArena).
Context (tbl : table nat) (fuel : nat) (record_frame : option Z) (recording typed_spawn : bool)
  (get_aff : option WorkerRangeSpec → nat).

(** The shared state, what each worker keeps and goes on with, and the instances of the
    tasks that workers have taken, in order. *)
Record FrameState := mkFrame {
  fs_state : ExecState C;
  fs_workers : list (Worker * option NodeInfo);
  fs_taken : list (nat * nat);
}.

Definition take_task (s : ExecState C) (rest : list Submission) : ExecState C :=
  mkExecState (es_rt s) rest (es_batch_queue s) (es_dropped s).

(** An idle worker takes any task that waits and runs it, or a worker runs the task its
    last one ended with. *)
Inductive frame_step : FrameState → FrameState → Prop :=
  | step_take s l1 sub l2 ws w wk X s' wk' next :
      es_scheduled s = l1 ++ sub :: l2 → ws !! w = Some (wk, None) →
      execute_task cfg graph cache arena tbl fuel record_frame recording typed_spawn get_aff
        (take_task s (l1 ++ l2)) wk (sub_func sub) (sub_node sub) (sub_args sub) = Ret (Some (s', wk', next)) →
      frame_step (mkFrame s ws X) (mkFrame s' (<[w := (wk', next)]> ws) (X ++ task_instances (sub_node sub)))
  | step_inline s ws w wk ni entry X s' wk' next :
      ws !! w = Some (wk, Some ni) → cache !! ni_id ni = Some entry →
      execute_task cfg graph cache arena tbl fuel record_frame recording typed_spawn get_aff
        s wk (ce_func_ptr entry) ni None = Ret (Some (s', wk', next)) →
      frame_step (mkFrame s ws X) (mkFrame s' (<[w := (wk', next)]> ws) (X ++ task_instances ni)).

(** The tasks that wait: with the scheduler or as a continuation. *)
Definition waiting (fs : FrameState) : list NodeInfo :=
  (sub_node <$> es_scheduled (fs_state fs)) ++ omap snd (fs_workers fs).

(** A run: which worker goes next, and which of the tasks with the scheduler it takes if
    it has none to go on with. *)
Fixpoint frame_run (choices : list (nat * nat)) (fs : FrameState) : run (option FrameState) :=
  match choices with
  | [] => Ret (Some fs)
  | (w, i) :: choices =>
      let s := fs_state fs in
      match fs_workers fs !! w with
      | None => Panic
      | Some (wk, Some ni) =>
          let! entry := vec_get cache (ni_id ni) in
          wait! (s', wk', next) := execute_task cfg graph cache arena tbl fuel record_frame recording typed_spawn get_aff
                                     s wk (ce_func_ptr entry) ni None in
          frame_run choices (mkFrame s' (<[w := (wk', next)]> (fs_workers fs)) (fs_taken fs ++ task_instances ni))
      | Some (wk, None) =>
          let! sub := vec_get (es_scheduled s) i in
          wait! (s', wk', next) := execute_task cfg graph cache arena tbl fuel record_frame recording typed_spawn get_aff
                                     (take_task s (take i (es_scheduled s) ++ drop (S i) (es_scheduled s)))
                                     wk (sub_func sub) (sub_node sub) (sub_args sub) in
          frame_run choices (mkFrame s' (<[w := (wk', next)]> (fs_workers fs)) (fs_taken fs ++ task_instances (sub_node sub)))
      end
  end.

Lemma frame_run_steps choices fs fs' : frame_run choices fs = Ret (Some fs') → rtc frame_step fs fs'.
Proof.
  revert fs. induction choices as [|[w i] choices IH]; intros [s ws X]; cbn [frame_run fs_state fs_workers fs_taken]; [by intros [= ->]|].
  destruct (ws !! w) as [[wk [ni|]]|] eqn:Hw; [| |done]; intros Hr.
  - apply run_bind_Ret in Hr as (entry & He%vec_get_Ret & Hr). unfold wait_bind in Hr.
    apply run_bind_Ret in Hr as ([[[s' wk'] next]|] & Hx & Hr); [|done]. apply IH in Hr. eapply rtc_l; [|exact Hr].
    by eapply step_inline.
  - apply run_bind_Ret in Hr as (sub & Hs%vec_get_Ret & Hr). unfold wait_bind in Hr.
    apply run_bind_Ret in Hr as ([[[s' wk'] next]|] & Hx & Hr); [|done]. apply IH in Hr. eapply rtc_l; [|exact Hr].
    eapply step_take; [|done|exact Hx]. symmetry. by apply take_drop_middle.
Qed.

(** ** A task of the current generation *)

Lemma bulk_cells_keeps entry func ni (rt : Runtime C) g buf cells rt' stale :
  sd_generation (rt_slots rt) !! ni_slot ni = Some g → as_u32 g = ni_gen ni →
  bulk_cells cfg tbl fuel entry func ni rt buf cells = Ret (Some (rt', stale)) →
  stale = false ∧ ∃ m, rt' = with_results m rt ∧ same_dims (rt_results rt) m.
Proof.
  intros Hg Hgen. revert rt buf Hg. induction cells as [|i cells IH]; intros rt buf Hg; cbn [bulk_cells].
  - intros [= <- <-]. split; [done|]. exists (rt_results rt). split; [by destruct rt|apply same_dims_refl].
  - intros Hb. unfold wait_bind at 1 in Hb. apply run_bind_Ret in Hb as ([[buf' st]|] & Hp & Hb); [|done].
    assert (st = false) as ->.
    { destruct (has_dynamic (ce_arg_cache entry)); [|by injection Hp].
      unfold wait_bind in Hp. apply run_bind_Ret in Hp as ([[b0 [st0 t0]]|] & Hd & Hp); [|done].
      injection Hp as <- <-. eapply calm_dynamic; [..|exact Hd]; done. }
    apply run_bind_Ret in Hb as (rt1 & Hset & Hb).
    assert (Hrt1 : ∃ m, rt1 = with_results m rt ∧ same_dims (rt_results rt) m).
    { destruct (ce_needs_result_store entry); [|injection Hset as <-; exists (rt_results rt); by destruct rt].
      destruct (rm_set _ _ _) as [m|] eqn:Hm; [|done]. injection Hset as <-. exists m. split; [done|by eapply rm_set_dims]. }
    destruct Hrt1 as (m & -> & Hd). apply IH in Hb as (-> & m' & -> & Hd'); [|done]. split; [done|]. exists m'. split; [done|by eapply same_dims_trans].
Qed.

Lemma run_kernel_fresh (rt : Runtime C) wk entry func ni g wk' : sd_generation (rt_slots rt) !! ni_slot ni = Some g →
  as_u32 g = ni_gen ni → run_kernel cfg tbl fuel rt wk entry func ni ≠ Ret (Some (wk', None)).
Proof.
  intros Hg Hgen Hk. unfold run_kernel in Hk. destruct (ce_template_stable entry).
  - destruct (template_for _ _ _) as [templates buf]. unfold wait_bind in Hk.
    apply run_bind_Ret in Hk as ([[b0 [st0 t0]]|] & Hd & Hk); [|done].
    apply (calm_dynamic _ _ _ _ _ _ g) in Hd; [subst st0|done|done|done]. done.
  - unfold wait_bind in Hk. apply run_bind_Ret in Hk as ([[b0 [st0 t0]]|] & Hd & Hk); [|done].
    apply (calm_cached _ _ _ _ _ _ _ g) in Hd; [subst st0|done|done|done]. done.
Qed.

(** Running a task of the current generation ends with resolving it; before that only
    results are stored. *)
Lemma execute_resolves s wk func ni args s' wk' next g entry : ni_post_node ni = false →
  sd_generation (rt_slots (es_rt s)) !! ni_slot ni = Some g → as_u32 g = ni_gen ni →
  cache !! ni_id ni = Some entry → ce_worker_resolvable entry = true →
  execute_task cfg graph cache arena tbl fuel record_frame recording typed_spawn get_aff s wk func ni args = Ret (Some (s', wk', next)) →
  ∃ m, resolve_and_send cfg graph cache arena record_frame typed_spawn get_aff (with_rt (with_results m (es_rt s)) s) ni
       = Ret (s', next) ∧ same_dims (rt_results (es_rt s)) m.
Proof.
  intros Hpost Hg Hgen He Hwr Hx. unfold execute_task, slot_gen_of in Hx. rewrite Hpost, (vec_get_lookup _ _ _ Hg) in Hx.
  cbn [run_map run_bind] in Hx. rewrite Hgen, Z.eqb_refl in Hx.
  assert (Hres : ∀ rt, (∃ m, rt = with_results m (es_rt s) ∧ same_dims (rt_results (es_rt s)) m) → ∀ r,
    resolve_and_send cfg graph cache arena record_frame typed_spawn get_aff (with_rt rt s) ni = Ret r →
    ∃ m, resolve_and_send cfg graph cache arena record_frame typed_spawn get_aff (with_rt (with_results m (es_rt s)) s) ni = Ret r
         ∧ same_dims (rt_results (es_rt s)) m).
  { intros rt (m & -> & Hd) r Hr. by exists m. }
  destruct (1 <? ni_bulk_count ni).
  - unfold execute_bulk_task in Hx. rewrite (vec_get_lookup _ _ _ He) in Hx. cbn [run_bind] in Hx.
    unfold wait_bind in Hx. apply run_bind_Ret in Hx as ([[rt stale]|] & Hb & Hx); [|done].
    assert (Hk : stale = false ∧ ∃ m, rt = with_results m (es_rt s) ∧ same_dims (rt_results (es_rt s)) m).
    { destruct (ce_bulk_func entry); [destruct (negb (ce_needs_result_store entry))|].
      - injection Hb as <- <-. split; [done|]. exists (rt_results (es_rt s)). split; [by destruct (es_rt s)|apply same_dims_refl].
      - by eapply bulk_cells_keeps.
      - by eapply bulk_cells_keeps. }
    destruct Hk as [-> Hm]. apply run_bind_Ret in Hx as ([s1 n1] & Hr & [= <- _ <-]). by eapply Hres.
  - unfold execute_single_task in Hx. apply run_bind_Ret in Hx as (_ & _ & Hx).
    unfold wait_bind in Hx. apply run_bind_Ret in Hx as ([[wk1 [result|]]|] & Hk & Hx); [| |done].
    + rewrite (vec_get_lookup _ _ _ He) in Hx. cbn [run_bind] in Hx. rewrite Hpost, Hwr in Hx. cbn [negb andb orb] in Hx.
      apply run_bind_Ret in Hx as (rt & Hset & Hx). apply run_bind_Ret in Hx as ([s1 n1] & Hr & [= <- _ <-]).
      eapply Hres, Hr. destruct (ce_needs_result_store entry); [|injection Hset as <-; exists (rt_results (es_rt s)); by destruct (es_rt s)].
      destruct (rm_set _ _ _) as [m|] eqn:Hm; [|done]. injection Hset as <-. exists m. split; [done|by eapply rm_set_dims].
    + exfalso. destruct args; [done|]. rewrite (vec_get_lookup _ _ _ He) in Hk. cbn [run_bind] in Hk.
      by eapply run_kernel_fresh in Hk.
Qed.

(** The tasks a completed task makes. *)
Definition task_shape (slot : nat) (ni : NodeInfo) : Prop :=
  ni_slot ni = slot ∧ ni_post_node ni = false ∧ 0 < ni_bulk_count ni.

Lemma push_ready_shape ready succ slot pi workers coalesce :
  Forall (task_shape slot) (push_ready_chunked ready succ slot pi workers coalesce []).
Proof.
  destruct (push_ready_cases succ slot pi workers coalesce ready) as [(_ & Hw & ->)| ->].
  - assert (Hdiv : 1 <= length ready / workers) by (apply Nat.div_le_lower_bound; lia).
    apply chunk_from_elem. intros o k Hk. unfold task_shape. cbn. lia.
  - apply Forall_fmap, Forall_true. intros x. unfold task_shape. cbn. lia.
Qed.

Lemma worker_edges_shape ni gen edges (rt : Runtime C) sched rt' sched' :
  (∀ e, e ∈ edges → fanout_eligible cfg e = false) →
  foldM (worker_edge cfg ni gen) (rt, sched) edges = Ret (rt', sched') →
  Forall (task_shape (ni_slot ni)) sched → Forall (task_shape (ni_slot ni)) sched'.
Proof.
  intros Hfan. revert rt sched. induction edges as [|e edges IH]; intros rt sched; cbn [foldM]; [by intros [= _ <-]|].
  intros Hf Hs. apply run_bind_Ret in Hf as ([rt1 sched1] & He & Hf).
  eapply IH; [intros; apply Hfan; by right|exact Hf|]. unfold worker_edge in He.
  apply run_bind_Ret in He as ([c ready] & _ & He). rewrite (Hfan e) in He by left. cbn [andb] in He.
  injection He as _ <-. rewrite push_ready_app. apply Forall_app. split; [done|]. apply push_ready_shape.
Qed.

Lemma resolve_shape (rt : Runtime C) ni g rt' sent inline edges : sd_generation (rt_slots rt) !! ni_slot ni = Some g →
  edges_for arena (ni_id ni) = Ret edges → (∀ e, e ∈ edges → fanout_eligible cfg e = false) →
  worker_resolve_successors cfg cache arena rt ni = Ret (rt', sent, inline) →
  Forall (task_shape (ni_slot ni)) sent ∧ ∀ t, inline = Some t → task_shape (ni_slot ni) t ∧ ni_gen t = as_u32 g.
Proof.
  intros Hg He Hfan Hr. unfold worker_resolve_successors in Hr.
  assert (Hproc : ∀ (r1 r2 : Runtime C) z, add_processing r1 (ni_slot ni) z = Ret r2 → sd_generation (rt_slots r2) = sd_generation (rt_slots r1)).
  { intros r1 r2 z. unfold add_processing. destruct (fetch_add _ _ _); [|done]. by intros [= <-]. }
  assert (Hoff : ∀ (r1 r2 : Runtime C), count_off cache r1 ni = Ret r2 → sd_generation (rt_slots r2) = sd_generation (rt_slots r1)).
  { intros r1 r2. unfold count_off. destruct (vec_get cache _) as [en|]; [|done]. cbn [run_bind].
    destruct (ce_is_condition en); (destruct (fetch_add _ _ _); [|done]); by intros [= <-]. }
  assert (Hgen : ∀ r : Runtime C, sd_generation (rt_slots r) = sd_generation (rt_slots rt) → slot_gen_of r (ni_slot ni) = Ret (as_u32 g)).
  { intros r E. unfold slot_gen_of. by rewrite E, (vec_get_lookup _ _ _ Hg). }
  apply run_bind_Ret in Hr as (rt1 & H1 & Hr). apply Hproc in H1. rewrite Hgen in Hr by done. cbn [run_bind] in Hr.
  destruct (negb _).
  - apply run_bind_Ret in Hr as (rt2 & _ & Hr). apply run_bind_Ret in Hr as (rt3 & _ & [= _ <- <-]). split; [constructor|done].
  - apply run_bind_Ret in Hr as (rt2 & H2 & Hr). apply Hoff in H2. rewrite Hgen in Hr by congruence. cbn [run_bind] in Hr.
    rewrite He in Hr. cbn [run_bind] in Hr. apply run_bind_Ret in Hr as ([rt3 sched] & Hf & Hr).
    apply worker_edges_shape in Hf; [|done|constructor]. destruct (pop_inline cfg sched (as_u32 g)) as [sent' inline'] eqn:Hpop.
    apply run_bind_Ret in Hr as (rt4 & _ & Hr). apply run_bind_Ret in Hr as (rt5 & _ & [= _ <- <-]).
    unfold pop_inline in Hpop. destruct (xc_inline_continuation cfg); [|injection Hpop as <- <-; by split].
    destruct (last sched) as [ni'|] eqn:Hl; [|injection Hpop as <- <-; by split]. injection Hpop as <- <-.
    apply last_Some in Hl as (l & ->). rewrite removelast_last. apply Forall_app in Hf as [Hf Hni].
    apply Forall_cons in Hni as [Hni _]. split; [done|]. by intros t [= <-].
Qed.

(** What a task sent to the scheduler looks like. *)
Lemma send_spec (rt : Runtime C) g slot nodes subs : sd_generation (rt_slots rt) !! slot = Some g →
  Forall (λ ni, ni_slot ni = slot ∧ ni_post_node ni = false) nodes →
  send_to_scheduler graph cache record_frame typed_spawn get_aff rt nodes (replicate (length nodes) None) None = Ret subs →
  sub_node <$> subs = with_gen (as_u32 g) <$> nodes ∧ Forall (λ sub, sub_args sub = None) subs.
Proof.
  intros Hg Hn Hs. unfold send_to_scheduler in Hs. apply run_imap_Ret in Hs as [Hl Hs].
  assert (Hi : ∀ i ni, nodes !! i = Some ni → ∃ sub, subs !! i = Some sub ∧ sub_node sub = with_gen (as_u32 g) ni ∧ sub_args sub = None).
  { intros i ni Hi. destruct (Hs i ni Hi) as (sub & Hsub & Hf). exists sub. split; [done|]. cbn [Nat.add run_bind] in Hf.
    rewrite (vec_get_lookup _ _ None) in Hf by (apply lookup_replicate; split; [done|by eapply lookup_lt_Some]). cbn [run_bind] in Hf.
    apply (Forall_lookup_1 _ _ _ _ Hn) in Hi as [Hslot Hp]. unfold submit_node in Hf. rewrite Hp in Hf.
    apply run_bind_Ret in Hf as ([[f p] a] & Hc & Hf). apply run_bind_Ret in Hf as (_ & _ & Hf).
    unfold slot_gen_of in Hf. rewrite Hslot, (vec_get_lookup _ _ _ Hg) in Hf. cbn [run_map run_bind] in Hf.
    by injection Hf as <-. }
  split.
  - apply list_eq_same_length with (length nodes); [by rewrite length_fmap|by rewrite length_fmap|].
    intros i x y _ Hx Hy. apply list_lookup_fmap_Some in Hx as (sub & -> & Hsub). apply list_lookup_fmap_Some in Hy as (ni & -> & Hni).
    destruct (Hi i ni Hni) as (sub' & Hsub' & Heq & _). assert (sub = sub') as -> by congruence. done.
  - apply Forall_lookup. intros i sub Hsub. destruct (lookup_lt_is_Some_2 nodes i) as [ni Hni].
    { rewrite <- Hl. by eapply lookup_lt_Some. }
    destruct (Hi i ni Hni) as (sub' & Hsub' & _ & ?). congruence.
Qed.
End running.

(** ** The invariant *)

Section frame.
Context `{FuncReg}.
Context (cfg : ExecConfig) (graph : Graph) (cache : list NodeCacheEntry) (arena : SuccessorArena).
Context (tbl : table nat) (fuel : nat) (record_frame : option Z) (recording typed_spawn : bool)
  (get_aff : option WorkerRangeSpec → nat).
(** The slot and its generation; for every node its counter, its edges, and whether it is
    a root. *)
Context (slot : nat) (g : Z) (n : nat) (shape : nat → NodeDependencyEntry) (out : nat → list SuccEdge)
  (root : nat → bool).

Definition instances_of (t : nat) : list (nat * nat) := pair t <$> range 0 (factor (shape t)).
Definition all_instances : list (nat * nat) := range 0 n ≫= instances_of.
Definition roots : list (nat * nat) := range 0 n ≫= λ t, if root t then instances_of t else [].

(** The graph as it is compiled: unconditional nodes that workers resolve, edges that are
    counted, roots without incoming edges, counters that await all arrivals, no cycle. *)
Record frame_graph : Prop := {
  fg_cache : ∀ t, t < n → ∃ entry, cache !! t = Some entry ∧ ce_is_condition entry = false ∧ ce_worker_resolvable entry = true;
  fg_out : ∀ t, t < n → edges_for arena t = Ret (out t);
  fg_edges : ∀ t e, t < n → e ∈ out t →
    counted_edge shape n e ∧ fanout_eligible cfg e = false ∧ root (se_succ_id e) = false;
  fg_total : ∀ t, t < n → root t = false → deps_per_group (shape t) = Z.of_nat (arrivals_of out all_instances t)
                                           ∧ (0 < deps_per_group (shape t))%Z;
  fg_rank : ∃ rank : nat → nat, ∀ t e, t < n → e ∈ out t → rank t < rank (se_succ_id e);
  fg_small : (Z.of_nat (length all_instances) < two64)%Z;
}.

Record frame_inv (fs : FrameState (C := MultiThreadedCounter)) : Prop := {
  fi_gen : sd_generation (rt_slots (es_rt (fs_state fs))) !! slot = Some g;
  fi_pending : sd_pending_tasks (rt_slots (es_rt (fs_state fs))) !! slot
               = Some (Z.of_nat (length all_instances - length (fs_taken fs)));
  fi_proc : ∃ p, sd_processing_count (rt_slots (es_rt (fs_state fs))) !! slot = Some p ∧ (0 ≤ p < two64)%Z;
  fi_needs : slot < length (sd_needs_check (rt_slots (es_rt (fs_state fs))));
  fi_counts : counts slot (as_u32 g) shape n (rt_counter (es_rt (fs_state fs))) (arrivals_of out (fs_taken fs));
  fi_perm : fs_taken fs ++ (waiting fs ≫= task_instances) ≡ₚ roots ++ released_all shape n (arrivals_of out (fs_taken fs));
  fi_tasks : Forall (λ ni, task_shape slot ni ∧ ni_gen ni = as_u32 g) (waiting fs);
  fi_queues : es_batch_queue (fs_state fs) = [] ∧ es_dropped (fs_state fs) = 0%Z;
}.

Context (Hfg : frame_graph).

Lemma elem_all t i : (t, i) ∈ all_instances ↔ t < n ∧ i < factor (shape t).
Proof.
  unfold all_instances, instances_of. rewrite list_elem_of_bind. split.
  - intros (u & (j & [= -> ->] & Hj%elem_of_range)%list_elem_of_fmap & Hu%elem_of_range). lia.
  - intros [Ht Hi]. exists t. split; [|apply elem_of_range; lia]. apply list_elem_of_fmap. exists i. split; [done|].
    apply elem_of_range. lia.
Qed.

Lemma elem_started X t i : (t, i) ∈ roots ++ released_all shape n (arrivals_of out X) ↔
  t < n ∧ (root t = true ∧ i < factor (shape t) ∨ i ∈ released (shape t) (arrivals_of out X t)).
Proof.
  unfold roots, released_all, instances_of. rewrite elem_of_app, !list_elem_of_bind. split.
  - intros [(u & Hin & Hu%elem_of_range)|(u & (j & [= -> ->] & Hj)%list_elem_of_fmap & Hu%elem_of_range)].
    + destruct (root u) eqn:Hr; [|by apply not_elem_of_nil in Hin].
      apply list_elem_of_fmap in Hin as (j & [= -> ->] & Hj%elem_of_range). split; [lia|]. left. split; [done|lia].
    + split; [lia|by right].
  - intros [Ht [[Hr Hi]|Hi]].
    + left. exists t. rewrite Hr. split; [|apply elem_of_range; lia]. apply list_elem_of_fmap. exists i. split; [done|].
      apply elem_of_range. lia.
    + right. exists t. split; [|apply elem_of_range; lia]. apply list_elem_of_fmap. by exists i.
Qed.
Lemma pairs_NoDup (f : nat → list nat) l : NoDup l → (∀ t, NoDup (f t)) → NoDup (l ≫= λ t, pair t <$> f t).
Proof.
  intros Hl Hf. induction Hl as [|t l Ht _ IH]; [constructor|]. rewrite bind_cons. apply NoDup_app. split; [|split; [|done]].
  - apply (NoDup_fmap_2 _), Hf.
  - intros [u i] (j & [= -> ->] & _)%list_elem_of_fmap (v & (k & [= -> ->] & _)%list_elem_of_fmap & Hv)%list_elem_of_bind. done.
Qed.

Lemma all_NoDup : NoDup all_instances.
Proof. apply (pairs_NoDup (λ t, range 0 (factor (shape t)))); intros; apply NoDup_range. Qed.

(** No completion arrives at a root. *)
Lemma arrivals_root X t : (∀ pi, pi ∈ X → pi.1 < n) → root t = true → arrivals_of out X t = 0.
Proof.
  intros HX Hr. unfold arrivals_of. induction X as [|[p i] X IH]; [done|]. rewrite fmap_cons.
  change (nat_sum (?a :: ?b)) with (a + nat_sum b). rewrite IH by (intros; apply HX; by right).
  assert (Hp : p < n) by (apply (HX (p, i)); left). cbn [fst snd].
  assert (Hz : ∀ edges, (∀ e, e ∈ edges → e ∈ out p) → hits edges [i] t = 0); [|by rewrite Hz].
  induction edges as [|e edges IHe]; intros Hin; [done|]. rewrite edge_hits_cons, IHe by (intros; apply Hin; by right).
  rewrite decide_False; [done|]. intros <-. destruct (fg_edges Hfg p e Hp ltac:(apply Hin; left)) as (_ & _ & ?). congruence.
Qed.

Lemma started_NoDup X : (∀ pi, pi ∈ X → pi.1 < n) → NoDup (roots ++ released_all shape n (arrivals_of out X)).
Proof.
  intros HX. apply NoDup_app. split; [|split].
  - assert (Hr : roots = range 0 n ≫= λ t, pair t <$> (if root t then range 0 (factor (shape t)) else [])).
    { apply bind_ext_elem. intros t _. by destruct (root t). }
    rewrite Hr. apply pairs_NoDup; [apply NoDup_range|]. intros t. destruct (root t); [apply NoDup_range|constructor].
  - intros [t i] Hin (u & (j & [= -> ->] & Hj)%list_elem_of_fmap & Hu)%list_elem_of_bind.
    apply list_elem_of_bind in Hin as (v & Hin & _). destruct (root v) eqn:Hr; [|by apply not_elem_of_nil in Hin].
    apply list_elem_of_fmap in Hin as (k & [= -> ->] & _). rewrite arrivals_root, released_zero in Hj by done.
    by apply not_elem_of_nil in Hj.
  - apply pairs_NoDup; [apply NoDup_range|]. intros t. apply released_NoDup.
Qed.

Lemma started_all X : (∀ pi, pi ∈ X → pi.1 < n) →
  roots ++ released_all shape n (arrivals_of out X) ⊆+ all_instances.
Proof.
  intros HX. apply NoDup_submseteq; [by apply started_NoDup|]. intros [t i] (Ht & Hi)%elem_started.
  apply elem_all. split; [done|]. destruct Hi as [[_ ?]|?%released_lt]; done.
Qed.

Lemma arrivals_submseteq X Y t : X ⊆+ Y → arrivals_of out X t ≤ arrivals_of out Y t.
Proof. intros (Z & ->)%submseteq_Permutation. rewrite arrivals_app. lia. Qed.

(** What holds of the instances at any time. *)
Lemma inv_bounds fs : frame_inv fs →
  (∀ pi, pi ∈ fs_taken fs → pi.1 < n) ∧ fs_taken fs ++ (waiting fs ≫= task_instances) ⊆+ all_instances.
Proof.
  intros Hinv. assert (HX : ∀ pi, pi ∈ fs_taken fs → pi.1 < n).
  { intros [t i] Hin. eapply (elem_started (fs_taken fs) t i). rewrite <- (fi_perm fs Hinv). apply elem_of_app. by left. }
  split; [done|]. rewrite (fi_perm fs Hinv). by apply started_all.
Qed.

Lemma length_task_instances ni : length (task_instances ni) = ni_bulk_count ni.
Proof. unfold task_instances, covered. rewrite length_fmap, length_range. lia. Qed.
Lemma with_gen_instances gen nodes : (with_gen gen <$> nodes) ≫= task_instances = nodes ≫= task_instances.
Proof. induction nodes as [|ni nodes IH]; [done|]. by rewrite fmap_cons, !bind_cons, IH. Qed.

(** The slot data that the invariant speaks of. *)
Definition slot_inv (X : list (nat * nat)) (s : ExecState MultiThreadedCounter) : Prop :=
  sd_generation (rt_slots (es_rt s)) !! slot = Some g
  ∧ sd_pending_tasks (rt_slots (es_rt s)) !! slot = Some (Z.of_nat (length all_instances - length X))
  ∧ (∃ p, sd_processing_count (rt_slots (es_rt s)) !! slot = Some p ∧ (0 ≤ p < two64)%Z)
  ∧ slot < length (sd_needs_check (rt_slots (es_rt s)))
  ∧ counts slot (as_u32 g) shape n (rt_counter (es_rt s)) (arrivals_of out X)
  ∧ es_batch_queue s = [] ∧ es_dropped s = 0%Z.

(** Resolving one of the tasks: it does not panic, and what it makes of the slot. *)
Lemma resolve_spec s ni X rest m : slot_inv X s → task_shape slot ni → ni_gen ni = as_u32 g →
  (∀ pi, pi ∈ X → pi.1 < n) →
  X ++ task_instances ni ++ rest ≡ₚ roots ++ released_all shape n (arrivals_of out X) →
  ∃ rt' sent inline, worker_resolve_successors cfg cache arena (with_results m (es_rt s)) ni = Ret (rt', sent, inline)
    ∧ slot_inv (X ++ task_instances ni) (with_rt rt' s) ∧ rt_results rt' = m
    ∧ sd_frame_id (rt_slots rt') = sd_frame_id (rt_slots (es_rt s))
    ∧ Forall (task_shape slot) sent ∧ (∀ t, inline = Some t → task_shape slot t ∧ ni_gen t = as_u32 g)
    ∧ (X ++ task_instances ni) ++ rest ++ ((sent ++ option_list inline) ≫= task_instances)
      ≡ₚ roots ++ released_all shape n (arrivals_of out (X ++ task_instances ni)).
Proof.
  intros (Hg & Hpend & (p & Hp & Hpr) & Hneeds & Hcounts & Hq & Hdr) (Hslot & Hpost & Hbulk) Hgen HX Hperm.
  pose proof (started_all X HX) as Hsub. rewrite <- Hperm, (assoc_L (++)) in Hsub.
  assert (HX' : X ++ task_instances ni ⊆+ all_instances) by (etrans; [|exact Hsub]; apply submseteq_inserts_r; done).
  assert (Hid : ni_id ni < n).
  { assert (Hin : (ni_id ni, ni_index ni) ∈ all_instances).
    { eapply elem_of_submseteq; [|exact HX']. apply elem_of_app. right. apply list_elem_of_fmap. exists (ni_index ni).
      split; [done|]. unfold covered. apply elem_of_range. lia. }
    by apply elem_all in Hin as [? _]. }
  destruct (fg_cache Hfg _ Hid) as (entry & Hentry & Hcond & _). pose proof (fg_out Hfg _ Hid) as Hout.
  set (rt := with_results m (es_rt s)) in *.
  assert (Hfan : ∀ e, e ∈ out (ni_id ni) → fanout_eligible cfg e = false) by (intros e He; by apply (fg_edges Hfg (ni_id ni) e)).
  destruct (edges_counts slot (as_u32 g) shape n (as_u32_range g) (out (ni_id ni)) ni (rt_counter rt) (arrivals_of out X) [])
    as (c' & insts & Hdec & Hcounts' & Hrel); [done|intros e He; by apply (fg_edges Hfg (ni_id ni) e)|done|done| |].
  { intros t Ht. rewrite <- arrivals_task, <- arrivals_app. destruct (root t) eqn:Hr.
    - rewrite arrivals_root; [|intros pi Hpi; eapply elem_of_submseteq in Hpi; [|exact HX']; destruct pi; by apply elem_all in Hpi as [? _]|done].
      destruct (Hcounts t Ht) as (e & _ & (_ & _ & _ & Hd & _) & Hrp). rewrite <- Hd. pose proof (rp_bound _ _ _ Hrp). lia.
    - destruct (fg_total Hfg t Ht Hr) as [-> _]. apply Nat2Z.inj_le. by apply arrivals_submseteq. }
  assert (Hext : ∀ t, t < n → arrivals_of out X t + hits (out (ni_id ni)) (covered ni) t = arrivals_of out (X ++ task_instances ni) t).
  { intros t _. by rewrite arrivals_app, arrivals_task. }
  destruct (proj2 (worker_resolve_cases cfg cache arena rt ni entry (out (ni_id ni)) p g
    (Z.of_nat (length all_instances - length X)) c' insts ltac:(by rewrite Hslot) Hpr ltac:(by rewrite Hslot) ltac:(by rewrite Hslot)
    Hentry ltac:(rewrite Hcond, Hslot; exact Hpend) Hout Hfan Hdec) ltac:(congruence)) as (sent & inline & Hwr & Hinsts).
  destruct (resolve_shape cfg cache arena rt ni g _ sent inline (out (ni_id ni)) ltac:(by rewrite Hslot) Hout Hfan Hwr) as [Hsent Hinl].
  eexists _, sent, inline. split; [exact Hwr|].
  assert (Hlen : length X + ni_bulk_count ni ≤ length all_instances).
  { apply submseteq_length in HX'. by rewrite length_app, length_task_instances in HX'. }
  unfold counted. rewrite Hcond. split; [|split; [done|split; [done|split; [|split]]]].
  - unfold slot_inv. cbn. rewrite Hslot. split_and!; try done.
    + rewrite list_lookup_insert_eq by (by eapply lookup_lt_Some). rewrite length_app, length_task_instances. f_equal.
      pose proof (fg_small Hfg). rewrite as_u64_small; lia.
    + by exists p.
    + by rewrite length_insert.
    + eapply counts_ext, Hcounts'. exact Hext.
  - eapply Forall_impl; [exact Hsent|]. intros ni' (? & ? & ?). rewrite Hslot in *. by split_and!.
  - intros t Ht. destruct (Hinl t Ht) as [Hsh ?]. by rewrite Hslot in Hsh.
  - rewrite (released_all_ext shape n _ (λ t, arrivals_of out X t + hits (out (ni_id ni)) (covered ni) t)) by (intros; by rewrite Hext).
    rewrite Hrel, (assoc_L (++) roots), <- Hperm, Hinsts. by rewrite !(assoc_L (++)).
Qed.

(** With its tasks sent to the scheduler. *)
Lemma resolve_keeps s ni X rest m s' next : slot_inv X s → task_shape slot ni → ni_gen ni = as_u32 g →
  (∀ pi, pi ∈ X → pi.1 < n) →
  X ++ task_instances ni ++ rest ≡ₚ roots ++ released_all shape n (arrivals_of out X) →
  resolve_and_send cfg graph cache arena record_frame typed_spawn get_aff (with_rt (with_results m (es_rt s)) s) ni = Ret (s', next) →
  ∃ subs, slot_inv (X ++ task_instances ni) s' ∧ es_scheduled s' = es_scheduled s ++ subs
    ∧ Forall (λ ni, task_shape slot ni ∧ ni_gen ni = as_u32 g) ((sub_node <$> subs) ++ option_list next)
    ∧ Forall (λ sub, sub_args sub = None) subs
    ∧ (X ++ task_instances ni) ++ rest ++ (((sub_node <$> subs) ++ option_list next) ≫= task_instances)
      ≡ₚ roots ++ released_all shape n (arrivals_of out (X ++ task_instances ni)).
Proof.
  intros Hinv Hsh Hgen HX Hperm Hres.
  destruct (resolve_spec s ni X rest m Hinv Hsh Hgen HX Hperm) as (rt' & sent & inline & Hwr & Hinv' & _ & _ & Hsent & Hinl & Hperm').
  unfold resolve_and_send in Hres. cbn [es_rt with_rt] in Hres. rewrite Hwr in Hres. cbn [run_bind] in Hres.
  apply run_bind_Ret in Hres as (s2 & Hd & [= <- <-]). unfold dispatch_nodes in Hd. apply run_bind_Ret in Hd as (subs & Hsend & [= <-]).
  apply (send_spec _ _ _ _ _ _ g slot) in Hsend as [Hnodes Hargs];
    [|by destruct Hinv'|eapply Forall_impl; [exact Hsent|]; by intros ni' (? & ? & _)].
  exists subs. split; [exact Hinv'|]. split; [done|]. split; [|split; [done|]].
  - apply Forall_app. split.
    + rewrite Hnodes. apply Forall_fmap. eapply Forall_impl; [exact Hsent|]. intros ni' (? & ? & ?). by split.
    + destruct inline as [t|]; [|constructor]. constructor; [|constructor]. by apply Hinl.
  - by rewrite Hnodes, bind_app, with_gen_instances, <- bind_app.
Qed.

Lemma slot_inv_of fs : frame_inv fs ↔ slot_inv (fs_taken fs) (fs_state fs)
  ∧ fs_taken fs ++ (waiting fs ≫= task_instances) ≡ₚ roots ++ released_all shape n (arrivals_of out (fs_taken fs))
  ∧ Forall (λ ni, task_shape slot ni ∧ ni_gen ni = as_u32 g) (waiting fs).
Proof.
  unfold slot_inv. split; [intros []; split_and!; try done; tauto|]. intros ((? & ? & ? & ? & ? & ? & ?) & ? & ?). by constructor.
Qed.

Lemma omap_perm {A B} (f : A → option B) (l l' : list A) : l ≡ₚ l' → omap f l ≡ₚ omap f l'.
Proof.
  intros Hp. induction Hp as [|x l l' _ IH|x y l|l1 l2 l3 _ IH1 _ IH2]; cbn; [done| |destruct (f x), (f y); by try constructor|by etrans].
  destruct (f x); [by rewrite IH|done].
Qed.

(** Replacing what a worker goes on with. *)
Lemma omap_insert_perm {A B} (f : A → option B) (l : list A) w x y : l !! w = Some x →
  ∃ R, omap f l ≡ₚ option_list (f x) ++ R ∧ omap f (<[w := y]> l) ≡ₚ option_list (f y) ++ R.
Proof.
  intros Hw. destruct (insert_perm l w x y Hw) as (rest & H1 & H2). exists (omap f rest).
  apply (omap_perm f) in H1, H2. cbn in H1, H2. by destruct (f x), (f y).
Qed.

(** One task keeps the invariant: [W] is what else waits. *)
Lemma task_keeps s (wk : Worker) func ni args s' wk' next X W : slot_inv X s → task_shape slot ni → ni_gen ni = as_u32 g →
  X ++ ((ni :: W) ≫= task_instances) ≡ₚ roots ++ released_all shape n (arrivals_of out X) →
  Forall (λ ni, task_shape slot ni ∧ ni_gen ni = as_u32 g) W →
  execute_task cfg graph cache arena tbl fuel record_frame recording typed_spawn get_aff s wk func ni args = Ret (Some (s', wk', next)) →
  ∃ subs, slot_inv (X ++ task_instances ni) s' ∧ es_scheduled s' = es_scheduled s ++ subs
    ∧ Forall (λ ni, task_shape slot ni ∧ ni_gen ni = as_u32 g) (W ++ (sub_node <$> subs) ++ option_list next)
    ∧ Forall (λ sub, sub_args sub = None) subs
    ∧ (X ++ task_instances ni) ++ ((W ++ (sub_node <$> subs) ++ option_list next) ≫= task_instances)
      ≡ₚ roots ++ released_all shape n (arrivals_of out (X ++ task_instances ni)).
Proof.
  intros Hs Hsh Hgen Hperm HW Hx. rewrite bind_cons in Hperm. pose proof Hs as (Hg & _). pose proof Hsh as (Hslot & Hpost & Hb).
  assert (HX : ∀ pi, pi ∈ X ++ task_instances ni → pi.1 < n).
  { intros [t i] Hin. eapply (elem_started X t i). rewrite <- Hperm. rewrite (assoc_L (++)). apply elem_of_app. by left. }
  assert (Hid : ni_id ni < n).
  { apply (HX (ni_id ni, ni_index ni)), elem_of_app. right. apply list_elem_of_fmap. exists (ni_index ni). split; [done|].
    unfold covered. apply elem_of_range. lia. }
  destruct (fg_cache Hfg _ Hid) as (entry & Hentry & _ & Hwr).
  destruct (execute_resolves _ _ _ _ _ _ _ _ _ _ _ _ _ _ _ _ _ _ g entry Hpost ltac:(by rewrite Hslot) (eq_sym Hgen) Hentry Hwr Hx) as (m & Hres & _).
  destruct (resolve_keeps s ni X (W ≫= task_instances) m s' next Hs Hsh Hgen) as (subs & Hs' & Hsched & Hnew & Hargs & Hperm');
    [intros; apply HX, elem_of_app; by left|done|done|].
  exists subs. split; [done|]. split; [done|]. split; [by apply Forall_app|]. split; [done|].
  by rewrite bind_app.
Qed.

Lemma frame_step_keeps fs fs' : frame_inv fs →
  frame_step cfg graph cache arena tbl fuel record_frame recording typed_spawn get_aff fs fs' → frame_inv fs'.
Proof.
  rewrite !slot_inv_of. intros (Hs & Hperm & Hall) Hstep.
  destruct Hstep as [s l1 sub l2 ws w wk X s' wk' next Hsched Hw Hx|s ws w wk ni entry X s' wk' next Hw Hentry Hx];
    cbn [fs_state fs_taken] in *; unfold waiting in *; cbn [fs_state fs_workers] in *.
  - destruct (omap_insert_perm snd ws w (wk, None) (wk', next) Hw) as (R & H1 & H2). cbn [snd option_list app] in H1, H2.
    rewrite Hsched, fmap_app, fmap_cons in Hperm, Hall.
    assert (Hw' : ((sub_node <$> l1) ++ sub_node sub :: (sub_node <$> l2)) ++ omap snd ws
                  ≡ₚ sub_node sub :: ((sub_node <$> l1 ++ l2) ++ R)).
    { rewrite H1, fmap_app. solve_Permutation. }
    rewrite Hw' in Hperm, Hall. apply Forall_cons in Hall as [[Hsh Hgen] Hall].
    destruct (task_keeps (take_task s (l1 ++ l2)) wk _ _ _ s' wk' next X _ Hs Hsh Hgen Hperm Hall Hx)
      as (subs & Hs' & Hsc & Hall' & _ & Hperm'). cbn [take_task es_scheduled] in Hsc.
    assert (Hnew : (sub_node <$> es_scheduled s') ++ omap snd (<[w:=(wk', next)]> ws)
                   ≡ₚ ((sub_node <$> l1 ++ l2) ++ R) ++ (sub_node <$> subs) ++ option_list next).
    { rewrite H2, Hsc, (fmap_app sub_node (l1 ++ l2)). solve_Permutation. }
    split; [done|]. by rewrite Hnew.
  - destruct (omap_insert_perm snd ws w (wk, Some ni) (wk', next) Hw) as (R & H1 & H2). cbn [snd option_list app] in H1, H2.
    assert (Hw' : (sub_node <$> es_scheduled s) ++ omap snd ws ≡ₚ ni :: ((sub_node <$> es_scheduled s) ++ R)).
    { rewrite H1. solve_Permutation. }
    rewrite Hw' in Hperm, Hall. apply Forall_cons in Hall as [[Hsh Hgen] Hall].
    destruct (task_keeps s wk _ _ _ s' wk' next X _ Hs Hsh Hgen Hperm Hall Hx)
      as (subs & Hs' & Hsc & Hall' & _ & Hperm').
    assert (Hnew : (sub_node <$> es_scheduled s') ++ omap snd (<[w:=(wk', next)]> ws)
                   ≡ₚ ((sub_node <$> es_scheduled s) ++ R) ++ (sub_node <$> subs) ++ option_list next).
    { rewrite H2, Hsc, fmap_app. solve_Permutation. }
    split; [done|]. by rewrite Hnew.
Qed.
(** ** The end of a frame *)

Lemma hits_edge edges i t : hits edges [i] t ≠ 0 → ∃ e, e ∈ edges ∧ se_succ_id e = t.
Proof.
  induction edges as [|e edges IH]; [done|]. rewrite edge_hits_cons. destruct (decide (se_succ_id e = t)) as [He|].
  - intros _. exists e. split; [left|done].
  - intros Hh. destruct IH as (e' & ? & ?); [done|]. exists e'. split; [by right|done].
Qed.

Lemma arrivals_none Z t : (∀ p i e, (p, i) ∈ Z → e ∈ out p → se_succ_id e ≠ t) → arrivals_of out Z t = 0.
Proof.
  intros Hz. unfold arrivals_of. induction Z as [|[p i] Z IH]; [done|]. rewrite fmap_cons.
  change (nat_sum (?a :: ?b)) with (a + nat_sum b). rewrite IH; [|intros p' i' e Hin; apply Hz with i'; by right].
  cbn [fst snd]. destruct (decide (hits (out p) [i] t = 0)) as [->|Hne]; [done|].
  apply hits_edge in Hne as (e & He & Hs). exfalso. apply (Hz p i e); [left|done|done].
Qed.

(** When nothing waits, every instance has been taken. *)
Lemma frame_complete fs : frame_inv fs → waiting fs = [] → fs_taken fs ≡ₚ all_instances.
Proof.
  intros Hinv Hw. destruct (inv_bounds fs Hinv) as [HX Hsub]. pose proof (fi_perm fs Hinv) as Hperm.
  rewrite Hw, app_nil_r in Hsub, Hperm. cbn in Hsub. set (X := fs_taken fs) in *.
  destruct (fg_rank Hfg) as [rank Hrank].
  pose proof (submseteq_Permutation _ _ Hsub) as [Z HZ].
  assert (Hall : ∀ r t i, rank t < r → t < n → i < factor (shape t) → (t, i) ∈ X).
  { induction r as [|r IH]; intros t i Hr Ht Hi; [lia|]. rewrite Hperm. apply elem_started. split; [done|].
    destruct (root t) eqn:Hroot; [by left|right].
    assert (Harr : arrivals_of out X t = arrivals_of out all_instances t).
    { rewrite HZ, arrivals_app, (arrivals_none Z); [lia|]. intros p j e Hz He <-.
      assert (Hin : (p, j) ∈ all_instances) by (rewrite HZ; apply elem_of_app; by right).
      apply elem_all in Hin as [Hp Hj]. pose proof all_NoDup as Hnd. rewrite HZ in Hnd.
      apply NoDup_app in Hnd as (_ & Hdis & _). apply (Hdis (p, j)); [|done]. apply IH; [|done|done].
      pose proof (Hrank p e Hp He). lia. }
    destruct (fg_total Hfg t Ht Hroot) as [Htot Hpos]. destruct (fi_counts fs Hinv t Ht) as (e & _ & Hsh & Hrp).
    assert (Hsg : single_group (shape t)).
    { destruct Hsh as (Hf & Hg & Hn & _ & _ & _ & Hc), (rp_single _ _ _ Hrp) as (H1 & H2 & H3).
      unfold single_group. by rewrite <- Hf, <- Hg, <- Hn, <- Hc. }
    rewrite released_full; [|done|by rewrite Harr, Htot|rewrite Harr; lia].
    apply elem_of_range. lia. }
  apply NoDup_Permutation; [|apply all_NoDup|].
  - rewrite Hperm. by apply started_NoDup.
  - intros [t i]. rewrite elem_all. split.
    + intros Hin. rewrite <- elem_all. by apply (elem_of_submseteq X).
    + intros [Ht Hi]. apply (Hall (S (rank t))); [lia|done|done].
Qed.

Lemma frame_steps_keep fs fs' : frame_inv fs →
  rtc (frame_step cfg graph cache arena tbl fuel record_frame recording typed_spawn get_aff) fs fs' → frame_inv fs'.
Proof. intros Hinv Hr. induction Hr as [|fs1 fs2 fs3 Hs _ IH]; [done|]. by apply IH, frame_step_keeps with fs1. Qed.

(** Every step takes an instance at least. *)
Lemma frame_step_takes fs fs' : frame_inv fs →
  frame_step cfg graph cache arena tbl fuel record_frame recording typed_spawn get_aff fs fs' →
  length (fs_taken fs) < length (fs_taken fs').
Proof.
  intros Hinv Hstep. pose proof (fi_tasks fs Hinv) as Hall. unfold waiting in Hall.
  destruct Hstep as [s l1 sub l2 ws w wk X s' wk' next Hsched Hw Hx|s ws w wk ni entry X s' wk' next Hw Hentry Hx];
    cbn [fs_taken fs_state fs_workers] in *; rewrite length_app, length_task_instances.
  - rewrite Hsched, fmap_app, fmap_cons in Hall. rewrite !Forall_app, Forall_cons in Hall.
    destruct Hall as ((_ & ((_ & _ & ?) & _) & _) & _). lia.
  - apply Forall_app in Hall as [_ Hall]. rewrite Forall_forall in Hall.
    destruct (Hall ni) as [(_ & _ & ?) _]; [|lia]. apply list_elem_of_omap. exists (wk, Some ni). split; [|done].
    by eapply list_elem_of_lookup_2.
Qed.

Lemma frame_steps_bounded k fs fs' : frame_inv fs →
  nsteps (frame_step cfg graph cache arena tbl fuel record_frame recording typed_spawn get_aff) k fs fs' →
  length (fs_taken fs) + k ≤ length all_instances.
Proof.
  intros Hinv Hk. assert (Hlen : frame_inv fs' ∧ length (fs_taken fs) + k ≤ length (fs_taken fs')).
  { revert Hinv. induction Hk as [fs|k fs1 fs2 fs3 Hs _ IH]; intros Hinv; [split; [done|lia]|].
    destruct IH as [? ?]; [by eapply frame_step_keeps|]. pose proof (frame_step_takes _ _ Hinv Hs). split; [done|lia]. }
  destruct Hlen as [Hinv' Hle]. destruct (inv_bounds fs' Hinv') as [_ Hsub]. apply submseteq_length in Hsub.
  rewrite length_app in Hsub. lia.
Qed.
End frame.
