(* ===== verification/FrameRun.v ===== *)
(** A frame of a compiled graph.

    What the compilation of a graph produces ([compiled]: routing tables, arena, node
    cache) is, for a graph whose nodes are unconditional and ungrouped ([plain]), what the
    theory of [Frame] asks for. *)
From S2P Require Import Prelude Types GraphStruct WorkerRange Graph Buffers NodeDep NodeDepConc NodeCache Tables DepCounter Counting ResultMap Arena Successor ArgRes Slots SlotInv Exec ExecSpec Task Arrivals Frame.
From stdpp Require Import strings.
From Stdlib Require Import Sorted.

Lemma nat_sum_filter {A} (P : A → Prop) `{∀ x, Decision (P x)} (f : A → nat) l :
  nat_sum ((λ x, if decide (P x) then f x else 0) <$> l) = nat_sum (f <$> filter P l).
Proof.
  induction l as [|x l IH]; [done|]. rewrite fmap_cons, filter_cons.
  change (nat_sum (?a :: ?b)) with (a + nat_sum b). rewrite IH. by case_decide.
Qed.

Lemma length_bind_sum {A B} (f : A → list B) l : length (l ≫= f) = nat_sum ((λ x, length (f x)) <$> l).
Proof. induction l as [|x l IH]; [done|]. by rewrite bind_cons, length_app, IH. Qed.

Lemma lt_sorted_NoDup l : StronglySorted lt l → NoDup l.
Proof.
  induction 1 as [|x l _ IH Hx]; constructor; [|done]. intros Hin. rewrite Forall_forall in Hx. apply Hx in Hin. lia.
Qed.

#[export] Instance reads_dec node p : Decision (reads node p).
Proof. unfold reads. apply _. Defined.

Section compiled.
Context (cfg : ExecConfig) (g : Graph) (cache : list NodeCacheEntry) (arena : SuccessorArena) (t : Routing) (r1 : bool).

(** The outputs of the compilation of the graph. *)
Record compiled : Prop := {
  co_wf : graph_wf g;
  co_exist : preds_exist g;
  co_tables : build_predecessor_tables r1 g = Ret t;
  co_length : length cache = length (g_nodes g);
  co_cache : ∀ s node entry, g_nodes g !! s = Some node → cache !! s = Some entry →
    ce_factor entry = n_factor node ∧ ce_is_condition entry = false ∧ ce_worker_resolvable entry = true
    ∧ (ce_is_fanout_bulk entry = false ∨ xc_no_fanout_bulk cfg = true);
  co_arena : arena_build (g_successors g) (length (g_nodes g)) cache t = Ret arena;
}.

(** The dependency count of a node. *)
Definition total_of (node : Node) : nat := match dependency_count g node with Ret n => n | Panic => 0 end.

(** The graphs in question. Every argument names distinct instances of its predecessor
    and is not grouped; a node is released as a whole or by counting, not instance by
    instance; a node with predecessors waits for something; there is no cycle. *)
Record plain : Prop := {
  pl_args : ∀ s node, g_nodes g !! s = Some node → absolute_args g node ∧ ungrouped node;
  pl_node : ∀ s node, g_nodes g !! s = Some node → n_name node ≠ "$network"%string ∧ n_group_size node = None
                      ∧ n_condition node = None ∧ 0 < n_factor node ∧ (Z.of_nat (n_factor node) < u32_max)%Z;
  pl_counted : ∀ s node p, g_nodes g !! s = Some node → reads node p →
               node_has_barrier node = true ∨ rt_offset (route_at t s p) = None;
  pl_total : ∀ s node p, g_nodes g !! s = Some node → reads node p → 0 < total_of node ∧ (Z.of_nat (total_of node) < two32)%Z;
  pl_rank : ∃ rank : nat → nat, ∀ s node p, g_nodes g !! s = Some node → reads node p → rank p < rank s;
  pl_edges : (Z.of_nat (nat_sum (length <$> g_successors g)) < two32)%Z;
  pl_small : (Z.of_nat (nat_sum (n_factor <$> g_nodes g)) < two64)%Z;
}.

Definition node_shape (s : nat) : NodeDependencyEntry :=
  match g_nodes g !! s with Some node => new_entry node (total_of node) | None => NodeDependencyEntry_new 0 0 false None false end.
Definition node_edges (p : nat) : list SuccEdge :=
  match edges_of (g_successors g) cache t p with Ret es => es | Panic => [] end.
Definition is_root (s : nat) : bool := bool_decide (s ∈ g_initial_nodes g).

Context (Hco : compiled) (Hpl : plain).

Lemma ungrouped_entry node total : ungrouped node → n_group_size node = None → n_condition node = None →
  let e := new_entry node total in
  single_group e ∧ factor e = n_factor node ∧ deps_per_group e = as_u32 (Z.of_nat total) ∧ has_barrier e = node_has_barrier node.
Proof.
  intros Hun Hgs Hc. unfold new_entry, effective_group_size. rewrite max_group_by_none, Hgs, Hc by done.
  assert (He : (if node_has_barrier node then (None : option nat) else None) = None) by (by destruct (node_has_barrier node)).
  rewrite He. unfold NodeDependencyEntry_new, single_group. rewrite Nat.div_1_r. by split_and!.
Qed.

Lemma tables_dim : routing_dim (length (g_nodes g)) t.
Proof.
  destruct (build_tables_spec r1 g (gw_ids g (co_wf Hco)) (co_exist Hco)) as (t' & Ht & Hd & _).
  rewrite (co_tables Hco) in Ht. by injection Ht as <-.
Qed.

(** The route of an edge. *)
Lemma route_spec s node p : g_nodes g !! s = Some node → reads node p →
  edge_route r1 g node p = Ret (route_at t s p) ∧ rt_group_by (route_at t s p) = None
  ∧ delivered g (route_at t s p) p = edge_contribution g node p.
Proof.
  intros Hs Hp. destruct (pl_args Hpl s node Hs) as [Habs Hun].
  destruct (tables_deliver r1 g s node (gw_ids g (co_wf Hco)) (co_exist Hco) Hs Habs Hun) as (t' & Ht & _ & Hr).
  rewrite (co_tables Hco) in Ht. injection Ht as <-. destruct (Hr p Hp) as (? & ? & ?). done.
Qed.

Lemma route_filter_fits s node p lo hi : g_nodes g !! s = Some node → reads node p →
  rt_filter (route_at t s p) = Some (lo, hi) → (0 ≤ lo < two32 ∧ 0 ≤ hi < u32_max)%Z.
Proof.
  intros Hs Hp Hf. destruct (route_spec s node p Hs Hp) as (Hr & _). destruct (pl_args Hpl s node Hs) as [Habs Hun].
  destruct (edge_route_filter _ _ _ _ _ Habs Hun Hp Hr) as [_ Hfil]. rewrite Hf in Hfil.
  destruct (pred_is_ambiguous_multi_arg node p); [done|]. symmetry in Hfil.
  assert (Hlt : p < length (g_nodes g)) by (eapply (co_exist Hco); [by eapply list_elem_of_lookup_2|done]).
  destruct (lookup_lt_is_Some_2 _ _ Hlt) as [pn Hpn]. destruct (pl_node Hpl p pn Hpn) as (_ & _ & _ & _ & Hsm).
  assert (Hfac : factor_of g p = n_factor pn) by (unfold factor_of; by rewrite Hpn).
  assert (Hne : 0 < length (union_pred_indexes node p)).
  { unfold index_filter in Hfil. cbn [p_indexes] in Hfil. destruct (union_pred_indexes node p); [done|cbn; lia]. }
  apply index_filter_range in Hfil as (l & h & -> & -> & Hh & Hdec & Hlen & Hhl & _); [| |by apply union_absolute|done].
  - cbn [p_indexes] in Hlen. unfold u32_max, two32 in *. rewrite Hfac in *. lia.
  - rewrite Hfac. unfold small, u32_max in *. lia.
Qed.
(** ** The edges *)

Lemma make_edge_spec s node p e : g_nodes g !! s = Some node → reads node p → make_edge cache t p s = Ret e →
  se_succ_id e = s ∧ se_group_by e = NO_GROUP ∧ se_succ_factor e ≠ 0%Z
  ∧ se_is_fanout_bulk e = (match cache !! s with Some entry => ce_is_fanout_bulk entry | None => false end)
  ∧ (rt_offset (route_at t s p) = None → se_has_one_to_one e = false)
  ∧ ∀ i, passes_filter e i = passes (rt_filter (route_at t s p)) i.
Proof.
  intros Hs Hp Hm. pose proof tables_dim as (D1 & D2 & D3). pose proof (lookup_lt_Some _ _ _ Hs) as Hlt.
  assert (Hplt : p < length (g_nodes g)) by (eapply (co_exist Hco); [by eapply list_elem_of_lookup_2|done]).
  destruct (lookup_lt_is_Some_2 cache s) as [entry Hentry]; [by rewrite (co_length Hco)|].
  destruct (co_cache Hco s node entry Hs Hentry) as (Hfac & _). destruct (pl_node Hpl s node Hs) as (_ & _ & _ & Hpos & Hsm).
  pose proof (route_filter_fits s node p) as Hfits. destruct (route_spec s node p Hs Hp) as (_ & Hgb & _).
  unfold make_edge in Hm. rewrite (vec_get_lookup _ _ _ Hentry) in Hm. cbn [run_bind] in Hm.
  rewrite (table_get_at _ _ _ _ D1 Hlt Hplt), (table_get_at _ _ _ _ D2 Hlt Hplt), (table_get_at _ _ _ _ D3 Hlt Hplt) in Hm.
  cbn [run_bind] in Hm. unfold route_at in *. cbn [rt_filter rt_group_by rt_offset] in *. rewrite Hgb in Hm. rewrite Hentry.
  assert (Hf0 : as_u32 (Z.of_nat (ce_factor entry)) ≠ 0%Z) by (rewrite Hfac, as_u32_small; unfold u32_max, two32 in *; lia).
  assert (Hf1 : Z.of_nat (ce_factor entry) ≠ 0%Z) by (rewrite Hfac; lia).
  destruct (entry_at (pred_index_filter t) s p) as [[lo hi]|].
  - destruct (Hfits lo hi Hs Hp eq_refl) as [Hlo Hhi]. rewrite !as_u32_small in Hm by (unfold u32_max, two32 in *; lia).
    assert (Hpass : ∀ i e, se_filter_start e = lo → se_filter_end e = hi → passes_filter e i = passes (Some (lo, hi)) i).
    { intros i e' Hl Hh. unfold passes_filter, passes. rewrite Hl, Hh. rewrite (proj2 (Z.eqb_neq _ _)); [done|]. unfold NO_FILTER. lia. }
    destruct (entry_at (pred_succ_1to1_offset t) s p); injection Hm as <-;
      cbn [se_succ_id se_group_by se_succ_factor se_is_fanout_bulk se_has_one_to_one]; (split_and!; [done..|]); intros i; by apply Hpass.
  - destruct (entry_at (pred_succ_1to1_offset t) s p); injection Hm as <-;
      cbn [se_succ_id se_group_by se_succ_factor se_is_fanout_bulk se_has_one_to_one]; split_and!; done.
Qed.

(** The successor edges of a node. *)
Lemma node_edges_spec p : p < length (g_nodes g) →
  edges_for arena p = Ret (node_edges p) ∧ se_succ_id <$> node_edges p = succs_of g p
  ∧ ∀ e, e ∈ node_edges p → make_edge cache t p (se_succ_id e) = Ret e.
Proof.
  intros Hp. pose proof tables_dim as Hdim.
  destruct (arena_build_spec (length (g_nodes g)) (g_successors g) cache t Hdim (co_length Hco)) as (a & Ha & Hes & _).
  - intros q s Hs. apply (gw_succ g (co_wf Hco)) in Hs as (node & Hs & _). by eapply lookup_lt_Some.
  - apply (pl_edges Hpl).
  - rewrite (co_arena Hco) in Ha. injection Ha as <-. destruct (Hes p Hp) as (es & H1 & H2 & H3).
    unfold node_edges. rewrite H2. split; [done|]. split; [done|].
    apply edges_of_made in H2. fold (succs_of g p) in H2, H3. intros e (i & Hi)%list_elem_of_lookup.
    destruct (Forall2_lookup_r _ _ _ _ _ H2 Hi) as (s & Hs & He). rewrite <- H3, list_lookup_fmap, Hi in Hs. by injection Hs as <-.
Qed.

Lemma node_edges_hits p s cells : p < length (g_nodes g) →
  hits (node_edges p) cells s
  = match g_nodes g !! s with
    | Some node => if decide (reads node p) then length (filter (λ i, passes (rt_filter (route_at t s p)) i = true) cells) else 0
    | None => 0
    end.
Proof.
  intros Hp. destruct (node_edges_spec p Hp) as (_ & Hids & Hmk).
  assert (Hnd : NoDup (se_succ_id <$> node_edges p)) by (rewrite Hids; apply lt_sorted_NoDup, (gw_succ_sorted g (co_wf Hco))).
  assert (Hin : s ∈ se_succ_id <$> node_edges p ↔ ∃ node, g_nodes g !! s = Some node ∧ reads node p).
  { rewrite Hids. apply (gw_succ g (co_wf Hco)). }
  assert (Hgen : ∀ edges, NoDup (se_succ_id <$> edges) → (∀ e, e ∈ edges → e ∈ node_edges p) → ∀ node, g_nodes g !! s = Some node → reads node p →
    hits edges cells s = if decide (s ∈ se_succ_id <$> edges) then length (filter (λ i, passes (rt_filter (route_at t s p)) i = true) cells) else 0).
  { induction edges as [|e edges IH]; intros Hnd' Hsub node Hs Hr; [done|]. rewrite fmap_cons in Hnd' |- *. apply NoDup_cons in Hnd' as [Hni Hnd'].
    rewrite edge_hits_cons, (IH Hnd' ltac:(intros; apply Hsub; by right) node Hs Hr). destruct (decide (se_succ_id e = s)) as [He|He].
    - rewrite (decide_False (P := s ∈ se_succ_id <$> edges)) by (by rewrite <- He). rewrite decide_True by (rewrite He; left).
      rewrite Nat.add_0_r. unfold passing_cells. f_equal. apply filter_ext_elem. intros i _.
      destruct (make_edge_spec s node p e Hs Hr) as (_ & _ & _ & _ & _ & ->); [rewrite <- He at 1; apply Hmk, Hsub; left|done].
    - assert (Hiff : s ∈ se_succ_id e :: (se_succ_id <$> edges) ↔ s ∈ se_succ_id <$> edges) by (rewrite elem_of_cons; intuition congruence).
      by rewrite (decide_ext _ _ _ _ Hiff). }
  assert (Hz : ∀ edges, s ∉ se_succ_id <$> edges → hits edges cells s = 0).
  { induction edges as [|e edges IH]; [done|]. rewrite fmap_cons, not_elem_of_cons. intros [Hne Hni].
    rewrite edge_hits_cons, IH by done. by rewrite decide_False by congruence. }
  destruct (g_nodes g !! s) as [node|] eqn:Hs.
  - destruct (decide (reads node p)) as [Hr|Hr].
    + rewrite (Hgen _ Hnd (λ _ H, H) node eq_refl Hr). by rewrite decide_True by (apply Hin; eauto).
    + apply Hz. rewrite Hin. intros (nd & [= <-] & ?). done.
  - apply Hz. rewrite Hin. by intros (nd & ? & ?).
Qed.
(** ** The hypotheses of [Frame] *)

Lemma node_shape_spec s node : g_nodes g !! s = Some node →
  single_group (node_shape s) ∧ factor (node_shape s) = n_factor node
  ∧ deps_per_group (node_shape s) = as_u32 (Z.of_nat (total_of node)) ∧ has_barrier (node_shape s) = node_has_barrier node.
Proof.
  intros Hs. unfold node_shape. rewrite Hs. destruct (pl_node Hpl s node Hs) as (_ & Hgs & Hc & _).
  apply ungrouped_entry; [by apply (pl_args Hpl s)|done|done].
Qed.

Lemma node_total s node : g_nodes g !! s = Some node →
  total_of node = arrivals_of node_edges (all_instances (length (g_nodes g)) node_shape) s.
Proof.
  intros Hs. destruct (pl_args Hpl s node Hs) as [Habs Hun]. destruct (pl_node Hpl s node Hs) as (_ & Hgs & _).
  assert (Hd1 : dep_num_groups node = 1) by (unfold dep_num_groups; by rewrite Hgs).
  assert (Hin : node ∈ g_nodes g) by (by eapply list_elem_of_lookup_2).
  unfold total_of. rewrite (dependency_count_ungrouped g node (co_exist Hco) Hin Habs Hun); [|by left].
  rewrite Hd1, Nat.mul_1_r. unfold all_instances, instances_of. rewrite arrivals_bind.
  assert (Heq : (λ p, hits (node_edges p) (range 0 (factor (node_shape p))) s) <$> range 0 (length (g_nodes g))
                = (λ p, if decide (reads node p) then edge_contribution g node p else 0) <$> range 0 (length (g_nodes g))).
  { apply list_fmap_ext. intros k p Hp. assert (Hlt : p < length (g_nodes g)) by (apply list_elem_of_lookup_2, elem_of_range in Hp; lia).
    rewrite node_edges_hits, Hs by done. destruct (decide (reads node p)) as [Hr|]; [|done].
    destruct (route_spec s node p Hs Hr) as (_ & _ & <-). unfold delivered, passing, factor_of.
    destruct (lookup_lt_is_Some_2 _ _ Hlt) as [pn Hpn]. rewrite Hpn. by destruct (node_shape_spec p pn Hpn) as (_ & -> & _). }
  rewrite Heq, nat_sum_filter. apply nat_sum_perm, fmap_Permutation. apply NoDup_Permutation.
  - apply preds_of_NoDup.
  - apply NoDup_filter, NoDup_range.
  - intros p. rewrite preds_of_elem, list_elem_of_filter, elem_of_range. split; [|tauto]. intros Hr.
    split; [done|]. pose proof (co_exist Hco node p Hin Hr). lia.
Qed.

Lemma root_no_reads s node p : g_nodes g !! s = Some node → reads node p → is_root s = false.
Proof.
  intros Hs Hr. apply bool_decide_eq_false. intros (nd & Hnd & Hnil & _)%(gw_initial g (co_wf Hco)).
  rewrite Hs in Hnd. injection Hnd as <-. unfold reads in Hr. rewrite Hnil in Hr. by apply not_elem_of_nil in Hr.
Qed.

Lemma all_length : length (all_instances (length (g_nodes g)) node_shape) = nat_sum (n_factor <$> g_nodes g).
Proof.
  unfold all_instances. rewrite length_bind_sum. unfold instances_of.
  assert (Hl : (λ t, length (pair t <$> range 0 (factor (node_shape t)))) <$> range 0 (length (g_nodes g)) = n_factor <$> g_nodes g).
  { apply list_eq. intros i. rewrite !list_lookup_fmap. destruct (g_nodes g !! i) as [node|] eqn:Hi.
    - assert (Hr : range 0 (length (g_nodes g)) !! i = Some i) by (unfold range; rewrite lookup_seq_lt by (apply lookup_lt_Some in Hi; lia); done).
      rewrite Hr. cbn [fmap option_fmap option_map]. rewrite length_fmap, length_range, Nat.sub_0_r.
      by destruct (node_shape_spec i node Hi) as (_ & -> & _).
    - apply lookup_ge_None in Hi. by rewrite lookup_ge_None_2 by (rewrite length_range; lia). }
  unfold nat_sum. rewrite <- Hl. done.
Qed.

Lemma compiled_frame_graph : frame_graph cfg cache arena (length (g_nodes g)) node_shape node_edges is_root.
Proof.
  assert (Hedge : ∀ p e, p < length (g_nodes g) → e ∈ node_edges p → ∃ node, g_nodes g !! se_succ_id e = Some node ∧ reads node p
                  ∧ make_edge cache t p (se_succ_id e) = Ret e).
  { intros p e Hp He. destruct (node_edges_spec p Hp) as (_ & Hids & Hmk).
    assert (Hin : se_succ_id e ∈ succs_of g p) by (rewrite <- Hids; by apply list_elem_of_fmap_2).
    apply (gw_succ g (co_wf Hco)) in Hin as (node & ? & ?). exists node. auto. }
  split.
  - intros s Hs. destruct (lookup_lt_is_Some_2 _ _ Hs) as [node Hn].
    destruct (lookup_lt_is_Some_2 cache s) as [entry Hentry]; [by rewrite (co_length Hco)|]. exists entry.
    by destruct (co_cache Hco s node entry Hn Hentry) as (_ & ? & ? & _).
  - intros p Hp. by apply node_edges_spec.
  - intros p e Hp He. destruct (Hedge p e Hp He) as (node & Hs & Hr & Hm).
    destruct (make_edge_spec _ node p e Hs Hr Hm) as (_ & Hgb & Hf & Hfb & Ho & _).
    destruct (node_shape_spec _ node Hs) as (_ & _ & _ & Hb). split; [split|split]; try done.
    + by eapply lookup_lt_Some.
    + rewrite Hb. destruct (pl_counted Hpl _ node p Hs Hr); auto.
    + unfold fanout_eligible. rewrite Hfb. destruct (cache !! se_succ_id e) as [entry|] eqn:Hentry; [|done].
      destruct (co_cache Hco _ node entry Hs Hentry) as (_ & _ & _ & [-> | ->]); [done|]. cbn. by rewrite andb_false_r.
    + by eapply root_no_reads.
  - intros s Hs Hroot. destruct (lookup_lt_is_Some_2 _ _ Hs) as [node Hn].
    destruct (node_shape_spec s node Hn) as (_ & _ & -> & _). rewrite <- (node_total s node Hn).
    destruct (arg_pred_ids (n_args node)) as [|p l] eqn:Hp.
    + exfalso. apply bool_decide_eq_false in Hroot. apply Hroot, (gw_initial g (co_wf Hco)). exists node.
      split; [done|]. split; [done|]. by apply (pl_node Hpl s).
    + destruct (pl_total Hpl s node p Hn) as [H1 H2]; [unfold reads; rewrite Hp; left|]. rewrite as_u32_small by lia. lia.
  - destruct (pl_rank Hpl) as [rank Hrank]. exists rank. intros p e Hp He.
    destruct (Hedge p e Hp He) as (node & Hs & Hr & _). by eapply Hrank.
  - rewrite all_length. apply (pl_small Hpl).
Qed.
(** ** The start of a frame *)

(** The slot as a reset leaves it: all instances pending, the counters of the generation
    at their first value. *)
Record slot_ready (rt : Runtime MultiThreadedCounter) (slot : nat) (gw : Z) : Prop := {
  sr_gen : sd_generation (rt_slots rt) !! slot = Some gw;
  sr_pending : sd_pending_tasks (rt_slots rt) !! slot = Some (Z.of_nat (total_tasks cache));
  sr_proc : ∃ p, sd_processing_count (rt_slots rt) !! slot = Some p ∧ (0 ≤ p < two64)%Z;
  sr_needs : slot < length (sd_needs_check (rt_slots rt));
  sr_counters : ∀ s node, g_nodes g !! s = Some node → ∃ e, map_entry (node_dep_map (rt_counter rt)) slot s = Some e
    ∧ entry_wf e ∧ same_shape (new_entry node (total_of node)) e ∧ view (as_u32 gw) e = NodeDep.fresh e;
}.

Lemma total_tasks_all : total_tasks cache = length (all_instances (length (g_nodes g)) node_shape).
Proof.
  rewrite all_length. unfold total_tasks. rewrite filter_all.
  - f_equal. apply list_eq. intros i. rewrite !list_lookup_fmap. destruct (g_nodes g !! i) as [node|] eqn:Hi.
    + destruct (lookup_lt_is_Some_2 cache i) as [entry Hentry]; [rewrite (co_length Hco); by eapply lookup_lt_Some|].
      rewrite Hentry. cbn. by destruct (co_cache Hco i node entry Hi Hentry) as (-> & _).
    + apply lookup_ge_None in Hi. by rewrite lookup_ge_None_2 by (by rewrite (co_length Hco)).
  - intros entry (i & Hi)%list_elem_of_lookup. destruct (lookup_lt_is_Some_2 (g_nodes g) i) as [node Hn].
    { rewrite <- (co_length Hco). by eapply lookup_lt_Some. }
    by destruct (co_cache Hco i node entry Hn Hi) as (_ & -> & _).
Qed.

Lemma represents_fresh gen e : entry_wf e → single_group e → view gen e = NodeDep.fresh e → represents gen e 0.
Proof.
  intros Hwf Hsg Hv. pose proof Hsg as (Hn & _). split; [done|done| | |].
  - pose proof (wf_dpg e Hwf). unfold is_u32 in *. lia.
  - rewrite Hv. unfold NodeDep.fresh. cbn [ds_remaining]. rewrite Hn. cbn. f_equal. lia.
  - intros _. rewrite Hv. unfold NodeDep.fresh. cbn [ds_sent]. apply list_eq. intros i. rewrite list_lookup_fmap.
    destruct (decide (i < factor e)).
    + rewrite lookup_replicate_2 by done. unfold range. rewrite lookup_seq_lt by lia. cbn. f_equal.
      symmetry. apply bool_decide_false. rewrite released_zero. apply not_elem_of_nil.
    + rewrite !lookup_ge_None_2; [done|rewrite length_range; lia|rewrite length_replicate; lia].
Qed.

Context `{FuncReg}.
Context (tbl : table nat) (fuel : nat) (record_frame : option Z) (recording typed_spawn : bool)
  (get_aff : option WorkerRangeSpec → nat) (scfg : SlotConfig).

(** The state after the tasks of the roots have been dispatched, with idle workers. *)
Definition frame_start (rt : Runtime MultiThreadedCounter) (slot : nat) (workers : list Worker) : run FrameState :=
  let! nodes := initial_nodes scfg g [slot] in
  let! s := dispatch_nodes g cache record_frame typed_spawn get_aff (mkExecState rt [] [] 0) nodes in
  Ret (mkFrame s ((λ wk, (wk, None)) <$> workers) []).

Lemma roots_instances nodes slot : initial_nodes scfg g [slot] = Ret nodes →
  nodes ≫= task_instances ≡ₚ roots (length (g_nodes g)) node_shape is_root
  ∧ Forall (task_shape slot) nodes.
Proof.
  intros Hn.
  assert (Hids : ∀ id, id ∈ g_initial_nodes g → id < length (g_nodes g)).
  { intros id (node & Hid & _)%(gw_initial g (co_wf Hco)). by eapply lookup_lt_Some. }
  destruct (initial_nodes_spec scfg g [slot] Hids) as (nodes' & Hn' & Hst & Hok & _).
  rewrite Hn in Hn'. injection Hn' as <-. split.
  - assert (Hti : nodes ≫= task_instances = (λ x, (x.1.2, x.2)) <$> (nodes ≫= started)).
    { clear. induction nodes as [|ni nodes IH]; [done|]. rewrite !bind_cons, fmap_app, IH. f_equal.
      unfold started, task_instances. by rewrite <- list_fmap_compose. }
    rewrite Hti, Hst. cbn [mbind list_bind]. rewrite app_nil_r.
    assert (Hpairs : (λ x : nat * nat * nat, (x.1.2, x.2)) <$> (g_initial_nodes g ≫= λ id,
         (λ i, (slot, id, i)) <$> range 0 (default 0 (n_factor <$> g_nodes g !! id)))
       = g_initial_nodes g ≫= λ id, pair id <$> range 0 (default 0 (n_factor <$> g_nodes g !! id))).
    { clear. induction (g_initial_nodes g) as [|id l IH]; [done|]. rewrite !bind_cons, fmap_app, IH. f_equal.
      by rewrite <- list_fmap_compose. }
    rewrite Hpairs. apply NoDup_Permutation.
    + apply pairs_NoDup; [apply lt_sorted_NoDup, (gw_initial_sorted g (co_wf Hco))|]. intros; apply NoDup_range.
    + assert (Hr : roots (length (g_nodes g)) node_shape is_root
        = range 0 (length (g_nodes g)) ≫= λ s, pair s <$> (if is_root s then range 0 (factor (node_shape s)) else [])).
      { apply bind_ext_elem. intros s _. by destruct (is_root s). }
      rewrite Hr. apply pairs_NoDup; [apply NoDup_range|]. intros s. destruct (is_root s); [apply NoDup_range|constructor].
    + intros [s i]. unfold roots, instances_of. rewrite !list_elem_of_bind. split.
      * intros (id & (j & [= <- <-] & Hj%elem_of_range)%list_elem_of_fmap & Hid). exists s. pose proof (Hids s Hid) as Hlt.
        destruct (lookup_lt_is_Some_2 _ _ Hlt) as [node Hnode]. rewrite Hnode in Hj. cbn in Hj.
        unfold is_root. rewrite bool_decide_true by done. split; [|apply elem_of_range; lia].
        apply list_elem_of_fmap. exists i. split; [done|]. destruct (node_shape_spec s node Hnode) as (_ & -> & _).
        apply elem_of_range. lia.
      * intros (u & Hin & Hu%elem_of_range). destruct (is_root u) eqn:Hr; [|by apply not_elem_of_nil in Hin].
        apply list_elem_of_fmap in Hin as (j & [= <- <-] & Hj%elem_of_range). apply bool_decide_eq_true in Hr.
        exists s. split; [|done]. apply list_elem_of_fmap. exists i. split; [done|]. apply elem_of_range.
        destruct (lookup_lt_is_Some_2 (g_nodes g) s) as [node Hnode]; [lia|].
        rewrite Hnode. cbn. destruct (node_shape_spec s node Hnode) as (_ & Hf & _). lia.
  - eapply Forall_impl; [exact Hok|]. intros ni (? & ?%list_elem_of_singleton & ?). by split_and!.
Qed.

Lemma frame_start_inv rt slot gw workers fs : slot_ready rt slot gw → frame_start rt slot workers = Ret fs →
  frame_inv slot gw (length (g_nodes g)) node_shape node_edges is_root fs ∧ fs_taken fs = [].
Proof.
  intros [Hgen Hpend Hproc Hneeds Hctr] Hst. unfold frame_start in Hst. apply run_bind_Ret in Hst as (nodes & Hn & Hst).
  apply run_bind_Ret in Hst as (s & Hd & [= <-]). split; [|done].
  unfold dispatch_nodes in Hd. apply run_bind_Ret in Hd as (subs & Hsend & [= <-]). cbn [es_rt es_scheduled] in *.
  destruct (roots_instances nodes slot Hn) as [Hroots Hok].
  apply (send_spec _ _ _ _ _ _ gw slot) in Hsend as [Hnodes _];
    [|done|eapply Forall_impl; [exact Hok|]; by intros ni (? & ? & _)].
  assert (Hw : ∀ s : ExecState MultiThreadedCounter, waiting (mkFrame s ((λ wk, (wk, None)) <$> workers) []) = sub_node <$> es_scheduled s).
  { intros s. unfold waiting. cbn. assert (Hom : omap snd ((λ wk, (wk, None)) <$> workers) = ([] : list NodeInfo)).
    { induction workers as [|wk ws IH]; [done|]. by cbn. }
    by rewrite Hom, app_nil_r. }
  constructor; cbn [fs_state fs_taken es_rt es_batch_queue es_dropped]; try done.
  - by rewrite Hpend, total_tasks_all, Nat.sub_0_r.
  - intros s Hs. destruct (lookup_lt_is_Some_2 _ _ Hs) as [node Hnode]. destruct (Hctr s node Hnode) as (e & He & Hwf & Hsh & Hv).
    exists e. unfold node_shape. rewrite Hnode. split; [done|]. split; [done|].
    apply represents_fresh; [done| |done]. destruct (node_shape_spec s node Hnode) as ((H1 & H2 & H3) & _).
    unfold node_shape in *. rewrite Hnode in *. destruct Hsh as (Hf & Hg & Hn' & _ & _ & _ & Hc). unfold single_group. by rewrite Hf, Hg, Hn', Hc.
  - rewrite Hw. cbn [es_scheduled]. rewrite Hnodes, with_gen_instances, Hroots. cbn [app].
    assert (Hz : released_all node_shape (length (g_nodes g)) (arrivals_of node_edges []) = []).
    { unfold released_all. apply elem_of_nil_inv. intros x (s & Hin & _)%list_elem_of_bind.
      unfold arrivals_of in Hin. cbn in Hin. rewrite released_zero in Hin. by apply not_elem_of_nil in Hin. }
    by rewrite Hz, app_nil_r.
  - rewrite Hw. cbn [es_scheduled]. rewrite Hnodes. apply Forall_fmap. eapply Forall_impl; [exact Hok|].
    intros ni (? & ? & ?). by split_and!.
Qed.
End compiled.

(** All instances of a graph. *)
Definition graph_instances (g : Graph) : list (nat * nat) :=
  range 0 (length (g_nodes g)) ≫= λ s, pair s <$> range 0 (factor_of g s).

Section runs.
Context `{FuncReg}.
Context (cfg : ExecConfig) (g : Graph) (cache : list NodeCacheEntry) (arena : SuccessorArena) (t : Routing) (r1 : bool).
Context (tbl : table nat) (fuel : nat) (record_frame : option Z) (recording typed_spawn : bool)
  (get_aff : option WorkerRangeSpec → nat) (scfg : SlotConfig).

#[local] Notation step := (frame_step cfg g cache arena tbl fuel record_frame recording typed_spawn get_aff).

Lemma graph_instances_all : plain g t →
  all_instances (length (g_nodes g)) (node_shape g) = graph_instances g.
Proof.
  intros Hpl. apply bind_ext_elem. intros s Hs%elem_of_range. unfold instances_of, factor_of.
  destruct (lookup_lt_is_Some_2 (g_nodes g) s) as [node Hn]; [lia|]. rewrite Hn.
  by destruct (node_shape_spec g t Hpl s node Hn) as (_ & -> & _).
Qed.

(** C1. One frame of a graph of this kind: every argument is ungrouped and names distinct,
    existing instances of its predecessor by absolute index; no node is the network node or has
    a group size or a condition; factors are positive and below 2^32 - 1; each predecessor is
    read through a barrier or without a 1:1 (index-by-index) route; a node with predecessors
    waits for at least one and fewer than 2^32 completions; there is no cycle, and there are
    fewer than 2^32 edges and 2^64 instances. The cache, tables and arena are those compiled
    from the graph, no entry is conditional, workers may resolve all successors, and fan-out in
    bulk is switched off or no node fans out. The slot is ready and the tasks of the roots have
    been dispatched; then any number of workers take waiting tasks in any order and follow their
    inline continuations, whatever the chunking, each task that returns being one step. No
    instance is started twice: the instances taken and those of the waiting tasks are distinct
    instances of the graph, and the pending count is the number of those not taken. When no task
    waits, every instance has been taken exactly once and nothing is pending. There are at most
    as many steps as instances. *)
Theorem frame_runs_each_instance_once (rt : Runtime MultiThreadedCounter) (slot : nat) (gw : Z) (workers : list Worker)
    (fs0 fs : FrameState)
    (Hco : compiled cfg g cache arena t r1) (Hpl : plain g t) (Hready : slot_ready g cache rt slot gw)
    (Hstart : frame_start g cache record_frame typed_spawn get_aff scfg rt slot workers = Ret fs0)
    (Hrun : rtc step fs0 fs) :
  let pending := sd_pending_tasks (rt_slots (es_rt (fs_state fs))) !! slot in
  NoDup (fs_taken fs ++ (waiting fs ≫= task_instances))
  ∧ (∀ pi, pi ∈ fs_taken fs ++ (waiting fs ≫= task_instances) → pi ∈ graph_instances g)
  ∧ pending = Some (Z.of_nat (length (graph_instances g) - length (fs_taken fs)))
  ∧ (waiting fs = [] → fs_taken fs ≡ₚ graph_instances g ∧ pending = Some 0%Z)
  ∧ ∀ k fs', nsteps step k fs0 fs' → k ≤ length (graph_instances g).
Proof.
  intros pending. pose proof (compiled_frame_graph cfg g cache arena t r1 Hco Hpl) as Hfg.
  destruct (frame_start_inv cfg g cache arena t r1 Hco Hpl record_frame typed_spawn get_aff scfg rt slot gw workers fs0 Hready Hstart)
    as [Hinv0 Htaken0].
  pose proof (frame_steps_keep _ _ _ _ tbl fuel record_frame recording typed_spawn get_aff _ _ _ _ _ _ Hfg fs0 fs Hinv0 Hrun) as Hinv.
  destruct (inv_bounds _ _ _ _ _ _ _ _ _ Hfg fs Hinv) as [_ Hsub].
  pose proof (all_NoDup (length (g_nodes g)) (node_shape g)) as Hnd. pose proof (fi_pending _ _ _ _ _ _ _ Hinv) as Hpend.
  pose proof (frame_complete _ _ _ _ _ _ _ _ _ Hfg fs Hinv) as Hcomp.
  rewrite (graph_instances_all Hpl) in *.
  split.
  { destruct (submseteq_Permutation _ _ Hsub) as [Z HZ]. rewrite HZ in Hnd. by apply NoDup_app in Hnd as (? & _). } split; [intros pi Hpi; by eapply elem_of_submseteq|]. split; [done|]. split.
  - intros Hw. specialize (Hcomp Hw). split; [done|]. unfold pending. rewrite Hpend. f_equal. rewrite Hcomp. lia.
  - intros k fs' Hk. rewrite <- (graph_instances_all Hpl).
    pose proof (frame_steps_bounded _ _ _ _ tbl fuel record_frame recording typed_spawn get_aff _ _ _ _ _ _ Hfg k fs0 fs' Hinv0 Hk). lia.
Qed.
End runs.

(** ** A concrete frame *)

(** Kernels that return how many arguments they got. *)
#[local] Instance count_kernels : FuncReg := {|
  get_func _ := Some (λ args, CmUsize (length args));
  get_bulk_func _ := None; get_func_argspec _ := None; get_func_ret_variant _ := None; get_unchecked_func _ := None;
|}.
#[local] Instance no_groups : AffinityLookup := λ _, 0.

(** Four instances of node 0 are gathered by both instances of node 1. *)
Definition run_nodes : list Node :=
  [demo_node 0 4 []; demo_node 1 2 [demo_barrier 0 [0; 1; 2; 3]%Z None; demo_res 0 [0; 1; 2; 3]%Z]].
Definition run_graph : Graph := match build_graph run_nodes with Ret g => g | Panic => Graph_new end.
Definition run_cache : list NodeCacheEntry := match build_node_cache run_graph [] false with Ret c => c | Panic => [] end.
Definition run_tables : Routing :=
  match build_predecessor_tables true run_graph with Ret t => t | Panic => mkRouting [] [] [] end.
Definition run_arena : SuccessorArena :=
  match arena_build (g_successors run_graph) 2 run_cache run_tables with Ret a => a | Panic => mkArena [] [] end.
Definition run_exec : ExecConfig := mkExecConfig 2 true true true true 8.
Definition run_slots : SlotConfig := mkSlotConfig 1 10 2 false.
Definition run_rt : Runtime MultiThreadedCounter :=
  mkRuntime (SlotData_new 1 (build_slot_counters 1 run_cache))
    (match MultiThreadedCounter_new 1 [0; 4] (g_nodes run_graph) with Ret c => c | Panic => mkCounter [] 0 end)
    (ResultMap_new (g_nodes run_graph) 1) 0.

(** The case of a node number: one of two. *)
Ltac two_nodes s H := destruct s as [|[|s]]; cbn in H; [injection H as <-|injection H as <-|done].

Lemma run_compiled : compiled run_exec run_graph run_cache run_arena run_tables true.
Proof.
  destruct (build_graph_from Graph_new run_nodes Graph_new_wf) as (g & Hg & Hwf & Hn).
  { intros i node Hi. two_nodes i Hi; done. }
  assert (g = run_graph) as -> by (vm_compute in Hg; injection Hg as <-; reflexivity).
  split; [done| |vm_compute; reflexivity|vm_compute; reflexivity| |vm_compute; reflexivity].
  - intros node p Hin Hr. apply list_elem_of_lookup in Hin as [s Hs]. vm_compute.
    two_nodes s Hs; vm_compute in Hr; repeat (apply elem_of_cons in Hr as [->|Hr]; [lia|]); by apply not_elem_of_nil in Hr.
  - intros s node entry Hs He. two_nodes s Hs; vm_compute in He; injection He as <-; vm_compute; auto.
Qed.

Lemma run_absolute a p : a ∈ n_args (demo_node 1 2 [demo_barrier 0 [0; 1; 2; 3]%Z None; demo_res 0 [0; 1; 2; 3]%Z]) →
  a_predecessor a = Some p → p = mkPred 0 [0; 1; 2; 3]%Z None.
Proof. cbn. intros [->|[->|?%not_elem_of_nil]%elem_of_cons]%elem_of_cons; [by intros [= <-]|by intros [= <-]|done]. Qed.

Lemma run_plain : plain run_graph run_tables.
Proof.
  assert (Hreads : ∀ s node p, g_nodes run_graph !! s = Some node → reads node p → s = 1 ∧ p = 0 ∧
    node = demo_node 1 2 [demo_barrier 0 [0; 1; 2; 3]%Z None; demo_res 0 [0; 1; 2; 3]%Z]).
  { intros s node p Hs Hr. two_nodes s Hs; vm_compute in Hr; [by apply not_elem_of_nil in Hr|].
    repeat (apply elem_of_cons in Hr as [->|Hr]; [done|]). by apply not_elem_of_nil in Hr. }
  split.
  - intros s node Hs. two_nodes s Hs; split.
    + intros a p ?%not_elem_of_nil. done.
    + intros a p ?%not_elem_of_nil. done.
    + intros a p Ha Hp. rewrite (run_absolute a p Ha Hp). split; [vm_compute; lia|]. split; [vm_compute; done|]. split; cbn [p_indexes p_id].
      * by apply (bool_decide_unpack _).
      * intros i Hi. change (factor_of run_graph 0) with 4. repeat (apply elem_of_cons in Hi as [->|Hi]; [lia|]). by apply not_elem_of_nil in Hi.
    + intros a p Ha Hp. by rewrite (run_absolute a p Ha Hp).
  - intros s node Hs. two_nodes s Hs; (split_and!; [done..|vm_compute; lia|reflexivity]).
  - intros s node p Hs Hr. destruct (Hreads s node p Hs Hr) as (-> & -> & ->). by left.
  - intros s node p Hs Hr. destruct (Hreads s node p Hs Hr) as (-> & -> & ->). vm_compute. split; [lia|done].
  - exists id. intros s node p Hs Hr. destruct (Hreads s node p Hs Hr) as (-> & -> & _). cbn. lia.
  - vm_compute. done.
  - vm_compute. done.
Qed.

Lemma run_ready : slot_ready run_graph run_cache run_rt 0 0.
Proof.
  split; [reflexivity|reflexivity|by exists 0%Z|vm_compute; lia|].
  intros s node Hs. two_nodes s Hs.
  - exists (new_entry (demo_node 0 4 []) 0). split; [reflexivity|]. split; [apply new_wf|]. split; [repeat split|]. apply view_new.
  - exists (new_entry (demo_node 1 2 [demo_barrier 0 [0; 1; 2; 3]%Z None; demo_res 0 [0; 1; 2; 3]%Z]) 4).
    split; [reflexivity|]. split; [apply new_wf|]. split; [repeat split|]. apply view_new.
Qed.

(** Two workers take the two chunks of node 0, the second one first; the worker that
    ends last goes on with an instance of node 1 and the other takes the remaining one. *)
Definition run_choices : list (nat * nat) := [(1, 1); (0, 0); (0, 0); (1, 0)].

Lemma frame_runs_each_instance_once_witness : ∃ fs0 fs,
  frame_start run_graph run_cache None false (λ _, 0) run_slots run_rt 0 [Worker_new; Worker_new] = Ret fs0
  ∧ frame_run run_exec run_graph run_cache run_arena (pred_group_by run_tables) 1 None false false (λ _, 0) run_choices fs0 = Ret (Some fs)
  ∧ fs_taken fs = [(0, 2); (0, 3); (0, 0); (0, 1); (1, 1); (1, 0)]
  ∧ fs_taken fs ≡ₚ graph_instances run_graph
  ∧ sd_pending_tasks (rt_slots (es_rt (fs_state fs))) !! 0 = Some 0%Z.
Proof.
  destruct (frame_start run_graph run_cache None false (λ _, 0) run_slots run_rt 0 [Worker_new; Worker_new]) as [fs0|] eqn:H0;
    [|vm_compute in H0; discriminate H0].
  destruct (frame_run run_exec run_graph run_cache run_arena (pred_group_by run_tables) 1 None false false (λ _, 0) run_choices fs0)
    as [[fs|]|] eqn:Hr; [|vm_compute in H0; injection H0 as <-; vm_compute in Hr; discriminate Hr..].
  exists fs0, fs. split; [done|]. split; [done|].
  pose proof (frame_runs_each_instance_once run_exec run_graph run_cache run_arena run_tables true (pred_group_by run_tables) 1 None
    false false (λ _, 0) run_slots run_rt 0 0 [Worker_new; Worker_new] fs0 fs run_compiled run_plain run_ready H0
    (frame_run_steps _ _ _ _ _ _ _ _ _ _ _ _ _ Hr)) as (_ & _ & _ & Hend & _).
  vm_compute in H0. injection H0 as <-. vm_compute in Hr. injection Hr as <-.
  split; [reflexivity|]. apply Hend. reflexivity.
Defined.
