(* ===== verification/FrameFlaws.v ===== *)
(** Frames that do not end, and post-nodes outside the tables.

    The edge of a completed chunk of more than one instance drops the index of the
    instance it would release and releases the first ones not yet sent; a frame where the
    chunks of two groups differ in size loses an instance, and so does one that mixes
    chunks and single instances. Post-nodes use a slot after
    those of the frames, but the id of a node of the graph. *)
From S2P Require Import Prelude Types GraphStruct WorkerRange Graph Buffers NodeDep NodeCache Tables DepCounter Counting ResultMap Arena Successor ArgRes Slots Exec Task Frame FrameRun.
From stdpp Require Import strings.

(** ** A lost instance *)

#[local] Instance unit_kernels : FuncReg := {|
  get_func _ := Some (λ _, CmNone);
  get_bulk_func _ := None; get_func_argspec _ := None; get_func_ret_variant _ := None; get_unchecked_func _ := None;
|}.
#[local] Instance one_group : AffinityLookup := λ _, 0.

(** Each of the two groups of node 1 waits for an instance of node 0; the instances of
    node 2 read those of node 1 with the same index. *)
Definition lost_nodes : list Node :=
  [demo_node 0 2 [];
   mkNode "t" [demo_barrier 0 [0%Z; 1%Z] (Some 1)] 1 None 8 (Some 4) "t" None None Normal None;
   demo_node 2 8 [demo_res 1 [0%Z]]].
Definition lost_graph : Graph := match build_graph lost_nodes with Ret g => g | Panic => Graph_new end.
Definition lost_cache : list NodeCacheEntry := match build_node_cache lost_graph [] false with Ret c => c | Panic => [] end.
Definition lost_tables : Routing :=
  match build_predecessor_tables true lost_graph with Ret t => t | Panic => mkRouting [] [] [] end.
Definition lost_arena : SuccessorArena :=
  match arena_build (g_successors lost_graph) 3 lost_cache lost_tables with Ret a => a | Panic => mkArena [] [] end.
(** Three workers, barriers coalesced. *)
Definition lost_exec : ExecConfig := mkExecConfig 3 true true true false 8.
Definition lost_totals : list nat :=
  match foldM (λ l node, run_map (λ n, l ++ [n]) (dependency_count lost_graph node)) [] lost_nodes with
  | Ret l => l
  | Panic => []
  end.
Definition lost_rt : Runtime MultiThreadedCounter :=
  mkRuntime (SlotData_new 1 (build_slot_counters 1 lost_cache))
    (match MultiThreadedCounter_new 1 lost_totals (g_nodes lost_graph) with Ret c => c | Panic => mkCounter [] 0 end)
    (ResultMap_new (g_nodes lost_graph) 1) 0.
Definition lost_choices : list (nat * nat) :=
  [(0, 0); (1, 0); (2, 2); (0, 0); (0, 0); (0, 0); (0, 0); (0, 0); (0, 0); (0, 0); (0, 0); (1, 0); (1, 0); (1, 0); (2, 0)].

(** The frame the three workers run. *)
Definition lost_run : run (option FrameState) :=
  let! fs := frame_start lost_graph lost_cache None false (λ _, 0) (mkSlotConfig 1 10 3 false) lost_rt 0 (replicate 3 Worker_new) in
  frame_run lost_exec lost_graph lost_cache lost_arena (pred_group_by lost_tables) 1 None false false (λ _, 0) lost_choices fs.

(** A frame of three workers with coalesced barriers, where the two groups of a node
    of factor 8 are chunked as 2, 1 and 1 instances and the chunk of the second group
    ends first: it releases the first two instances of the successor that reads index by
    index, and not the two it completed. At the end no task waits, with the scheduler or
    a resolution thread or as a continuation, and every instance of the node has run;
    but an instance of the successor never has, and it stays pending for ever. *)
Theorem chunked_groups_lose_instance : ∃ fs,
  lost_run = Ret (Some fs) ∧ waiting fs = [] ∧ es_batch_queue (fs_state fs) = []
  ∧ (∀ i, i < 8 → (1, i) ∈ fs_taken fs)
  ∧ (2, 5) ∈ graph_instances lost_graph ∧ ¬ (2, 5) ∈ fs_taken fs
  ∧ sd_pending_tasks (rt_slots (es_rt (fs_state fs))) !! 0 = Some 1%Z.
Proof.
  destruct lost_run as [[fs|]|] eqn:Hr; [|vm_compute in Hr; discriminate Hr..].
  exists fs. split; [done|]. vm_compute in Hr. injection Hr as <-. split; [reflexivity|]. split; [reflexivity|].
  split; [|split; [by apply (bool_decide_unpack _)|split; [by apply (bool_decide_unpack _)|reflexivity]]].
  intros i Hi. do 8 (destruct i as [|i]; [by apply (bool_decide_unpack _)|]). lia.
Qed.

(** ** An instance lost without groups *)

(** Three nodes, each of which reads the one before index by index. *)
Definition chain_nodes : list Node := [demo_node 0 6 []; demo_node 1 6 [demo_res 0 [0%Z]]; demo_node 2 6 [demo_res 1 [0%Z]]].
Definition chain_graph : Graph := match build_graph chain_nodes with Ret g => g | Panic => Graph_new end.
Definition chain_cache : list NodeCacheEntry := match build_node_cache chain_graph [] false with Ret c => c | Panic => [] end.
Definition chain_tables : Routing :=
  match build_predecessor_tables true chain_graph with Ret t => t | Panic => mkRouting [] [] [] end.
Definition chain_arena : SuccessorArena :=
  match arena_build (g_successors chain_graph) 3 chain_cache chain_tables with Ret a => a | Panic => mkArena [] [] end.
(** Two workers, barriers coalesced, no fan-out in bulk. *)
Definition chain_exec : ExecConfig := mkExecConfig 2 true false true true 8.
Definition chain_rt : Runtime MultiThreadedCounter :=
  mkRuntime (SlotData_new 1 (build_slot_counters 1 chain_cache))
    (match (let! deps := dependency_count_vec chain_graph in MultiThreadedCounter_new 1 deps (g_nodes chain_graph)) with Ret c => c | Panic => mkCounter [] 0 end)
    (ResultMap_new (g_nodes chain_graph) 1) 0.

(** Node 0 runs in two tasks, the second one first; of the four tasks of node 1, those of
    several instances run before those of one. *)
Definition chain_choices : list (nat * nat) :=
  [(0, 1); (1, 0); (0, 2); (1, 0); (0, 0); (1, 0); (0, 0); (1, 0); (0, 0); (1, 0); (0, 0)].
Definition chain_run : run (option FrameState) :=
  let! fs := frame_start chain_graph chain_cache None false (λ _, 0) (mkSlotConfig 1 10 2 false) chain_rt 0 (replicate 2 Worker_new) in
  frame_run chain_exec chain_graph chain_cache chain_arena (pred_group_by chain_tables) 1 None false false (λ _, 0) chain_choices fs.

(** A chain of nodes of factor 6, each read index by index, by two workers with coalesced
    barriers and without fan-out in bulk. The tasks of the second node are chunks of two
    instances and single ones; the chunks release the first four instances of the third
    node, whichever they ran, and what a single one would release may be among them. At the
    end no task waits and all of the second node has run, but instance 4 of the third
    never does. *)
Theorem chain_loses_instance : ∃ fs, chain_run = Ret (Some fs) ∧ waiting fs = [] ∧ es_batch_queue (fs_state fs) = []
  ∧ (∀ i, i < 6 → (1, i) ∈ fs_taken fs) ∧ (2, 4) ∈ graph_instances chain_graph ∧ ¬ (2, 4) ∈ fs_taken fs
  ∧ sd_pending_tasks (rt_slots (es_rt (fs_state fs))) !! 0 = Some 1%Z.
Proof.
  destruct chain_run as [[fs|]|] eqn:Hr; [|vm_compute in Hr; discriminate Hr..].
  exists fs. split; [done|]. vm_compute in Hr. injection Hr as <-. split; [reflexivity|]. split; [reflexivity|].
  split; [|split; [by apply (bool_decide_unpack _)|split; [by apply (bool_decide_unpack _)|reflexivity]]].
  intros i Hi. do 6 (destruct i as [|i]; [by apply (bool_decide_unpack _)|]). lia.
Qed.

(** ** Post-nodes *)

Section post.
Context {C : Type} `{DependencyCounter C} `{FuncReg}.
Context (cfg : ExecConfig) (graph : Graph) (cache : list NodeCacheEntry) (arena : SuccessorArena)
  (tbl : table nat) (init_objects : list (list CmTypes)) (fuel : nat).

(** With a frame to record, the submission of a task of a slot after those of the frames
    panics. *)
Lemma post_node_recording_panics (frame : Z) typed_spawn get_aff (rt : Runtime C) ni args func :
  ni_post_node ni = true → length (sd_frame_id (rt_slots rt)) ≤ ni_slot ni →
  submit_node graph cache (Some frame) typed_spawn get_aff rt ni args func = Panic.
Proof.
  intros Hp Hlen. unfold submit_node, should_record_slot. rewrite Hp, vec_get_ge by done.
  cbn [run_map run_bind]. destruct (g_post_nodes graph) as [nodes|]; [|done]. cbn [unwrap run_bind].
  destruct (vec_get nodes (ni_id ni)) as [node|]; [|done]. cbn [run_bind].
  destruct func as [f|]; [done|]. by destruct (get_func (n_func_name node)).
Qed.

(** A completion of such a slot in the queue stops the resolution thread that drains it. *)
Lemma post_node_completion_panics cond_indexes target_size (s : ExecState C) ni :
  ni ∈ take target_size (es_batch_queue s) → length (sd_generation (rt_slots (es_rt s))) ≤ ni_slot ni →
  drain_and_process_batch_queue cfg graph cache arena tbl init_objects fuel None false (λ _, 0)
    cond_indexes target_size s = Panic.
Proof.
  intros Hin Hlen.
  assert (Hf : ∀ batch, ni ∈ batch → fresh_batch (es_rt s) batch = Panic).
  { induction batch as [|n batch IH]; intros Hb; [by apply not_elem_of_nil in Hb|]. cbn [fresh_batch].
    destruct (fresh_completion (es_rt s) n) as [b|] eqn:Hn; [|done]. cbn [run_bind].
    apply elem_of_cons in Hb as [<-|Hb].
    - exfalso. unfold fresh_completion, slot_gen_of in Hn.
      rewrite vec_get_ge in Hn by done. by destruct (64 <=? ni_slot ni).
    - by rewrite IH. }
  unfold drain_and_process_batch_queue. destruct (take target_size (es_batch_queue s)) as [|n batch] eqn:Hb.
  - by apply not_elem_of_nil in Hin.
  - by rewrite Hf.
Qed.

Lemma result_exists_out m ni : rm_wf m → ¬ ResultMap.in_map m ni → result_exists m ni = Ret false.
Proof.
  intros Hwf Hn. unfold result_exists. destruct (bounds_out m ni Hwf Hn) as [->|(-> & f & -> & Hf)]; [done|]. cbn [run_bind]. by rewrite Hf.
Qed.

(** The results of post-nodes are kept in the result store, in the cells of the node
    of the graph with the same id, which may be missing or have fewer instances. Storing
    such a result panics, and the wait for the post-node does not end: whatever else is
    stored, fewer instances are found than it has. *)
Theorem post_node_outside_results_waits (frame_use : nat) (m : LockFreeResultMap) (post_node : Node) (i : nat)
    (Hwf : rm_wf m) (Hi : i < n_factor post_node)
    (Hout : ¬ ResultMap.in_map m (NodeInfo_new (n_id post_node) frame_use i 0)) :
  (∀ v, rm_set m (NodeInfo_new (n_id post_node) frame_use i 0) v = Panic)
  ∧ ∀ (rt : Runtime C) n, rm_wf (rt_results rt) → same_layout m (rt_results rt) →
    post_completed frame_use rt post_node = Ret n → n < n_factor post_node.
Proof.
  split.
  { intros v. unfold rm_set. destruct (bounds_out m _ Hwf Hout) as [->|(-> & f & -> & Hf)]; [done|]. cbn [run_bind]. by rewrite Hf. }
  intros rt n Hwf' Hl Hn. assert (Hout' : ¬ ResultMap.in_map (rt_results rt) (NodeInfo_new (n_id post_node) frame_use i 0)).
  { by rewrite (in_map_layout m). }
  unfold post_completed in Hn.
  assert (Hc : ∀ l a n, foldM (λ n i, let! b := result_exists (rt_results rt) (NodeInfo_new (n_id post_node) frame_use i 0) in
                              Ret (if b : bool then S n else n)) a l = Ret n →
               n ≤ a + length l ∧ (i ∈ l → n < a + length l)).
  { clear Hn n. induction l as [|j l IH]; intros a n Hn; cbn [foldM] in Hn.
    - injection Hn as <-. split; [cbn; lia|]. by intros ?%not_elem_of_nil.
    - apply run_bind_Ret in Hn as (a' & Ha & Hn). apply run_bind_Ret in Ha as (b & Hb & [= <-]).
      destruct (IH _ _ Hn) as [H1 H2]. cbn [length]. split; [destruct b; lia|].
      intros [<-|Hin]%elem_of_cons.
      + rewrite (result_exists_out _ _ Hwf' Hout') in Hb. injection Hb as <-. lia.
      + specialize (H2 Hin). destruct b; lia. }
  destruct (Hc _ _ _ Hn) as [_ H2]. rewrite length_range, Nat.sub_0_r in H2. apply H2, elem_of_range. lia.
Qed.
End post.

(** A graph of one node; its post-node is larger. *)
Definition late_node : Node := demo_node 0 2 [].
Lemma post_node_outside_results_waits_witness :
  let m := ResultMap_new [demo_node 0 1 []] 3 in
  rm_set m (NodeInfo_new 0 2 1 0) CmNone = Panic ∧ post_completed 2 (mkRuntime (SlotData_new 1 (build_slot_counters 1 [])) tt m 0) late_node = Ret 0.
Proof.
  intros m. assert (Hwf : rm_wf m) by apply ResultMap_new_wf.
  assert (Hout : ¬ ResultMap.in_map m (NodeInfo_new 0 2 1 0)) by (intros (_ & f & [= <-] & Hi); cbn in Hi; lia).
  destruct (post_node_outside_results_waits (C := unit) 2 m late_node 1 Hwf ltac:(cbn; lia) Hout) as [H1 H2].
  split; [apply H1|]. reflexivity.
Defined.
