(* ===== verification/Packets.v ===== *)
(** Packets on their way to a slot ([runtime/packet_processing.rs]): frame numbers relative
    to the start of the stream, packets parked until their frame may be admitted, frames
    dropped whole, and the coalescing of the packets of a batch.

    The admission window reads the counter of completed frames, which dropped frames
    advance too; it is [in_complete] here and [rt_frame_complete_counter] in [Slots.v].
    Decoding a packet and computing its index call functions of the graph. *)
From S2P Require Import Prelude Types GraphStruct Graph Buffers ResultMap NodeCache Tables Arena.
From stdpp Require Import strings sorting gmap.

(** A decoded packet and the core that received it; the time stamp is left out. *)
Record PendingPacket := mkPending { pp_packet : CmTypes; pp_receiver_core : nat }.

(** Of [NetworkInfra]; the ordered map of parked packets is a list sorted by frame. *)
Record Ingress := mkIngress {
  in_dropped : list bool;
  in_dropped_frames : Z;
  in_pending : list (nat * list PendingPacket);
  in_pending_count : Z;
  in_complete : Z;
}.

Definition set_parked (pending : list (nat * list PendingPacket)) (count : Z) (i : Ingress) : Ingress :=
  mkIngress (in_dropped i) (in_dropped_frames i) pending count (in_complete i).

(** [rebase_frame_id]: the new base and the frame number; [usize::MAX] is no base yet. *)
Definition rebase_frame_id (base : Z) (raw : nat) : Z * option nat :=
  let b := if (base =? u64_max)%Z then as_u64 (Z.of_nat raw + 1) else base in
  (b, if (b <=? Z.of_nat raw)%Z then Some (raw - Z.to_nat b) else None).

(** [entry(frame).or_default().push(x)]. *)
Fixpoint entry_push (frame : nat) (x : PendingPacket) (l : list (nat * list PendingPacket))
    : list (nat * list PendingPacket) :=
  match l with
  | [] => [(frame, [x])]
  | (k, v) :: l' =>
      if frame =? k then (k, v ++ [x]) :: l'
      else if frame <? k then (frame, [x]) :: l
      else (k, v) :: entry_push frame x l'
  end.

(** [mark_frame_dropped]. *)
Definition mark_frame_dropped (i : Ingress) (frame : nat) : Ingress :=
  match in_dropped i !! frame with
  | Some false => mkIngress (<[frame := true]> (in_dropped i)) (as_u64 (in_dropped_frames i + 1))
                    (in_pending i) (in_pending_count i) (as_u64 (in_complete i + 1))
  | _ => i
  end.

(** [remove(frame)]. *)
Definition remove_parked (frame : nat) (l : list (nat * list PendingPacket))
    : option (list PendingPacket) * list (nat * list PendingPacket) :=
  (snd <$> head (filter (λ kv, kv.1 = frame) l), filter (λ kv, kv.1 ≠ frame) l).

(** [park_pending_packet]. *)
Definition park_pending_packet (slots : nat) (i : Ingress) (frame : nat) (x : PendingPacket) (frame_packets : nat) : Ingress :=
  match in_dropped i !! frame with
  | None | Some true => i
  | Some false =>
      let push i := set_parked (entry_push frame x (in_pending i)) (as_u64 (in_pending_count i + 1)) i in
      let cap := frame_packets * slots in
      if (Z.of_nat cap <=? in_pending_count i)%Z then
        let victim := match last (in_pending i) with Some (max_parked, _) => Nat.max max_parked frame | None => frame end in
        let '(evicted, rest) := remove_parked victim (in_pending i) in
        let i1 := match evicted with
                  | Some e => set_parked rest (as_u64 (in_pending_count i - Z.of_nat (length e))) i
                  | None => i
                  end in
        let i2 := mark_frame_dropped i1 victim in
        if victim =? frame then i2 else push i2
      else push i
  end.

(** [reinject_pending_frames], up to the admission of the packets it takes out. *)
Definition reinject_pending_frames (slots : nat) (i : Ingress) : Ingress * list (nat * list PendingPacket) :=
  let window_end := (in_complete i + Z.of_nat slots)%Z in
  let ready := filter (λ kv, (Z.of_nat kv.1 < window_end)%Z) (in_pending i) in
  let rest := filter (λ kv, ¬ (Z.of_nat kv.1 < window_end)%Z) (in_pending i) in
  (set_parked rest (fold_left (λ c kv, as_u64 (c - Z.of_nat (length kv.2))) ready (in_pending_count i)) i, ready).

(** Whether a packet may be admitted now. *)
Definition in_window (slots : nat) (i : Ingress) (frame : nat) : bool :=
  (Z.of_nat frame <? in_complete i + Z.of_nat slots)%Z.

(** ** Coalescing *)

(** [sort_by_key]: a stable sort by slot and index. *)
Definition key_le (a b : NodeInfo * option CmTypes) : bool :=
  (ni_slot a.1 <? ni_slot b.1) || ((ni_slot a.1 =? ni_slot b.1) && (ni_index a.1 <=? ni_index b.1)).

Fixpoint sort_insert (x : NodeInfo * option CmTypes) (l : list (NodeInfo * option CmTypes)) :=
  match l with
  | [] => [x]
  | y :: l' => if key_le x y then x :: l else y :: sort_insert x l'
  end.
Definition sort_by_key (l : list (NodeInfo * option CmTypes)) : list (NodeInfo * option CmTypes) :=
  foldr sort_insert [] l.

(** The entries that continue a run, and the rest. *)
Fixpoint take_run (slot last_index : nat) (l : list (NodeInfo * option CmTypes))
    : list (NodeInfo * option CmTypes) * list (NodeInfo * option CmTypes) :=
  match l with
  | e :: l' =>
      if (ni_id e.1 =? 0) && (ni_slot e.1 =? slot) && (ni_index e.1 =? last_index + 1)
      then let '(run, rest) := take_run slot (ni_index e.1) l' in (e :: run, rest)
      else ([], l)
  | [] => ([], [])
  end.

(** The loop; the number of entries is fuel enough. It returns the results to store now,
    in order, and the new batch. *)
Fixpoint coalesce_runs (fuel : nat) (l : list (NodeInfo * option CmTypes))
    : list (NodeInfo * CmTypes) * list (NodeInfo * option CmTypes) :=
  match fuel, l with
  | S fuel, (ni, payload) :: l' =>
      if negb (ni_id ni =? 0) then
        let '(stores, out) := coalesce_runs fuel l' in (stores, (ni, payload) :: out)
      else
        let '(run, rest) := take_run (ni_slot ni) (ni_index ni) l' in
        let '(stores, out) := coalesce_runs fuel rest in
        match run with
        | [] => (stores, (ni, payload) :: out)
        | _ => (omap (λ e : NodeInfo * option CmTypes, (λ p, (e.1, p)) <$> e.2) ((ni, payload) :: run) ++ stores,
                (with_bulk_count (S (length run)) (NodeInfo_new 0 (ni_slot ni) (ni_index ni) 0), None) :: out)
        end
  | _, _ => ([], [])
  end.

(** [coalesce_network_batch]. *)
Definition coalesce_network_batch (arena : SuccessorArena) (m : LockFreeResultMap)
    (batch : list (NodeInfo * option CmTypes)) : run (LockFreeResultMap * list (NodeInfo * option CmTypes)) :=
  if length batch <? 2 then Ret (m, batch)
  else
    let! edges := edges_for arena 0 in
    if existsb (λ e, se_has_condition e || is_one_to_one e) edges then Ret (m, batch)
    else
      let '(stores, out) := coalesce_runs (length batch) (sort_by_key batch) in
      let! m' := foldM (λ m s, rm_set m s.1 s.2) m stores in
      Ret (m', out).

(** ** The parked packets as a map *)

Notation parked_map l := (list_to_map l : gmap nat (list PendingPacket)).

Definition packets_in (l : list (nat * list PendingPacket)) : nat := nat_sum ((λ kv, length kv.2) <$> l).

Lemma packets_in_cons kv l : packets_in (kv :: l) = length kv.2 + packets_in l.
Proof. done. Qed.

Lemma entry_push_keys k x l k' : k' ∈ (entry_push k x l).*1 ↔ k' = k ∨ k' ∈ l.*1.
Proof.
  induction l as [|[j v] l IH]; cbn [entry_push]; [cbn; rewrite list_elem_of_singleton; set_solver|].
  destruct (Nat.eqb_spec k j) as [->|]; [cbn; set_solver|]. destruct (k <? j); cbn; set_solver.
Qed.

Lemma sorted_cons_lt k v (l : list (nat * list PendingPacket)) k' :
  StronglySorted lt ((k, v) :: l).*1 → k' ∈ l.*1 → k < k'.
Proof.
  cbn. intros Hs Hin. apply StronglySorted_cons in Hs as [Hall _]. by eapply Forall_forall in Hall.
Qed.

Lemma parked_map_None l k : k ∉ l.*1 → parked_map l !! k = None.
Proof. apply not_elem_of_list_to_map_1. Qed.

Lemma entry_push_sorted k x l : StronglySorted lt l.*1 → StronglySorted lt (entry_push k x l).*1.
Proof.
  induction l as [|[j v] l IH]; intros Hs; cbn [entry_push]; [cbn; repeat constructor|].
  pose proof Hs as Hs'. cbn in Hs'. apply StronglySorted_cons in Hs' as [Hall Hl].
  destruct (Nat.eqb_spec k j) as [->|Hne]; [done|]. destruct (Nat.ltb_spec k j).
  - cbn. apply StronglySorted_cons. split; [|done]. constructor; [done|].
    eapply Forall_impl; [exact Hall|]. cbn. lia.
  - cbn. apply StronglySorted_cons. split; [|by apply IH]. apply Forall_forall. intros k' Hk'.
    apply entry_push_keys in Hk' as [->|Hk']; [lia|]. by eapply Forall_forall in Hall.
Qed.

Lemma entry_push_map k x l : StronglySorted lt l.*1 →
  parked_map (entry_push k x l) = <[k := default [] (parked_map l !! k) ++ [x]]> (parked_map l).
Proof.
  induction l as [|[j v] l IH]; intros Hs; cbn [entry_push]; [done|].
  pose proof Hs as Hs'. cbn in Hs'. apply StronglySorted_cons in Hs' as [Hall Hl].
  destruct (Nat.eqb_spec k j) as [->|Hne].
  - cbn [list_to_map foldr fst snd]. rewrite lookup_insert_eq. by rewrite insert_insert_eq.
  - destruct (Nat.ltb_spec k j).
    + rewrite (parked_map_None ((j, v) :: l) k); [done|]. cbn. intros [->|Hin]%elem_of_cons; [lia|].
      eapply Forall_forall in Hall; [|exact Hin]. lia.
    + cbn [list_to_map foldr fst snd]. rewrite IH by done. rewrite lookup_insert_ne by done. by rewrite insert_insert_ne.
Qed.

Lemma entry_push_packets k x l : packets_in (entry_push k x l) = S (packets_in l).
Proof.
  induction l as [|[j v] l IH]; cbn [entry_push]; [done|].
  destruct (k =? j); [|destruct (k <? j)]; rewrite !packets_in_cons; cbn [snd]; rewrite ?length_app; cbn [length]; lia.
Qed.

Lemma filter_keys_sorted (P : nat * list PendingPacket → Prop) `{∀ kv, Decision (P kv)} l :
  StronglySorted lt l.*1 → StronglySorted lt (filter P l).*1.
Proof.
  induction l as [|[j v] l IH]; intros Hs; [done|]. cbn in Hs. apply StronglySorted_cons in Hs as [Hall Hl].
  rewrite filter_cons. case_decide; [|by apply IH]. cbn. apply StronglySorted_cons. split; [|by apply IH].
  apply Forall_forall. intros k (kv & -> & [_ Hkv]%list_elem_of_filter)%list_elem_of_fmap.
  eapply Forall_forall in Hall; [exact Hall|]. apply list_elem_of_fmap. by exists kv.
Qed.

Lemma sorted_NoDup l : StronglySorted lt l → NoDup l.
Proof.
  induction 1 as [|k l Hs IH Hall]; constructor; [|done]. intros Hin. eapply Forall_forall in Hall; [|exact Hin]. lia.
Qed.

Lemma filter_parked_map (P : nat * list PendingPacket → Prop) `{∀ kv, Decision (P kv)} l :
  StronglySorted lt l.*1 → parked_map (filter P l) = filter P (parked_map l).
Proof.
  intros Hs. apply map_eq. intros k. apply option_eq. intros v.
  rewrite map_lookup_filter_Some.
  rewrite <- !elem_of_list_to_map by (apply sorted_NoDup; try apply filter_keys_sorted; done).
  rewrite list_elem_of_filter. tauto.
Qed.

Lemma packets_split (P : nat * list PendingPacket → Prop) `{∀ kv, Decision (P kv)} l :
  packets_in l = packets_in (filter P l) + packets_in (filter (λ kv, ¬ P kv) l).
Proof.
  induction l as [|kv l IH]; [done|]. rewrite !filter_cons. repeat case_decide; rewrite !packets_in_cons; tauto || lia.
Qed.

(** ** Parking *)

Record ingress_wf (i : Ingress) : Prop := {
  iw_sorted : StronglySorted lt (in_pending i).*1;
  iw_count : in_pending_count i = Z.of_nat (packets_in (in_pending i));
  iw_small : (in_pending_count i < two64)%Z;
  iw_live : ∀ k v, parked_map (in_pending i) !! k = Some v → in_dropped i !! k = Some false ∧ v ≠ [];
  iw_drops : in_dropped_frames i = Z.of_nat (count_occ bool_dec (in_dropped i) true);
  iw_frames : (Z.of_nat (length (in_dropped i)) < two64)%Z;
}.

Lemma count_dropped (l : list bool) k : l !! k = Some false →
  count_occ bool_dec (<[k := true]> l) true = S (count_occ bool_dec l true).
Proof.
  revert k. induction l as [|b l IH]; intros [|k] Hl; try done.
  - injection Hl as ->. done.
  - change (<[S k := true]> (b :: l)) with (b :: <[k := true]> l). cbn [count_occ].
    rewrite (IH k Hl). by destruct (bool_dec b true).
Qed.

(** Dropping a frame that is not parked. *)
Lemma mark_frame_dropped_wf i k : ingress_wf i → in_dropped i !! k = Some false →
  parked_map (in_pending i) !! k = None →
  ingress_wf (mark_frame_dropped i k)
  ∧ in_pending (mark_frame_dropped i k) = in_pending i ∧ in_pending_count (mark_frame_dropped i k) = in_pending_count i
  ∧ in_dropped (mark_frame_dropped i k) = <[k := true]> (in_dropped i)
  ∧ in_complete (mark_frame_dropped i k) = as_u64 (in_complete i + 1).
Proof.
  intros [Hs Hc Hsm Hl Hd Hb] Hk Hno. unfold mark_frame_dropped. rewrite Hk. cbn. split; [|done].
  constructor; cbn; try done.
  - intros j v Hj. destruct (Hl j v Hj) as [Hf Hv]. split; [|done]. rewrite list_lookup_insert_ne; [done|].
    intros ->. congruence.
  - pose proof (count_occ_bound bool_dec true (<[k := true]> (in_dropped i))) as Hx.
    rewrite length_insert, count_dropped in Hx by done. rewrite count_dropped by done.
    rewrite Hd, as_u64_small by lia. lia.
  - by rewrite length_insert.
Qed.

Lemma push_wf i k x : ingress_wf i → in_dropped i !! k = Some false → (in_pending_count i + 1 < two64)%Z →
  ingress_wf (set_parked (entry_push k x (in_pending i)) (as_u64 (in_pending_count i + 1)) i).
Proof.
  intros [Hs Hc Hsm Hl Hd Hb] Hk Hlt.
  constructor; cbn [set_parked in_pending in_pending_count in_dropped in_dropped_frames]; try done.
  - by apply entry_push_sorted.
  - rewrite entry_push_packets, Hc, as_u64_small by lia. lia.
  - rewrite as_u64_small; lia.
  - intros j v. rewrite entry_push_map by done. rewrite lookup_insert. case_decide as He.
    + subst j. intros [= <-]. split; [done|]. by destruct (default [] _).
    + apply Hl.
Qed.

Lemma remove_wf i k e rest : ingress_wf i → remove_parked k (in_pending i) = (Some e, rest) →
  let i' := set_parked rest (as_u64 (in_pending_count i - Z.of_nat (length e))) i in
  ingress_wf i' ∧ in_pending_count i' = (in_pending_count i - Z.of_nat (length e))%Z ∧ 0 < length e
  ∧ parked_map rest = delete k (parked_map (in_pending i)).
Proof.
  intros [Hs Hc Hsm Hl Hd Hb] Hrem i'. unfold remove_parked in Hrem. injection Hrem as Hhead <-.
  pose proof (filter_keys_sorted (λ kv, kv.1 = k) (in_pending i) Hs) as Hsf%sorted_NoDup.
  assert (Hone : filter (λ kv, kv.1 = k) (in_pending i) = [(k, e)]).
  { assert (Hkey : ∀ kv, kv ∈ filter (λ kv, kv.1 = k) (in_pending i) → kv.1 = k) by (intros kv [? _]%list_elem_of_filter; done).
    destruct (filter _ (in_pending i)) as [|[a e1] [|[b e2] t]]; [done| |].
    - pose proof (Hkey (a, e1) ltac:(left)) as Ha. cbn in Ha, Hhead. subst a. by injection Hhead as ->.
    - pose proof (Hkey (a, e1) ltac:(left)) as Ha. pose proof (Hkey (b, e2) ltac:(right; left)) as Hb'.
      cbn in Ha, Hb'. subst a b. cbn in Hsf. apply NoDup_cons in Hsf as [Hn _]. exfalso. apply Hn. left. }
  pose proof (packets_split (λ kv, kv.1 = k) (in_pending i)) as Hsplit. rewrite Hone in Hsplit.
  change (packets_in [(k, e)]) with (length e + 0) in Hsplit.
  assert (Hin : (k, e) ∈ in_pending i).
  { assert (Hf : (k, e) ∈ filter (λ kv, kv.1 = k) (in_pending i)) by (rewrite Hone; left). by apply list_elem_of_filter in Hf as [_ ?]. }
  assert (Hmap : parked_map (in_pending i) !! k = Some e) by (apply elem_of_list_to_map; [by apply sorted_NoDup|done]).
  assert (Hdel : parked_map (filter (λ kv, kv.1 ≠ k) (in_pending i)) = delete k (parked_map (in_pending i))).
  { rewrite filter_parked_map by done. apply map_eq. intros j. apply option_eq. intros v.
    rewrite map_lookup_filter_Some, lookup_delete_Some. cbn. naive_solver. }
  destruct (Hl k e Hmap) as [_ He].
  assert (Hsmall : (0 ≤ in_pending_count i - Z.of_nat (length e) < two64)%Z).
  { lia. }
  split; [|split; [|split; [destruct e; [done|cbn; lia]|done]]].
  - constructor; cbn [i' set_parked in_pending in_pending_count in_dropped in_dropped_frames]; try done.
    + by apply filter_keys_sorted.
    + rewrite as_u64_small by done. lia.
    + rewrite as_u64_small by done. lia.
    + intros j v. rewrite Hdel. intros [_ Hj]%lookup_delete_Some. by apply Hl.
  - cbn. by apply as_u64_small.
Qed.

Lemma last_key_max (l : list (nat * list PendingPacket)) k v : StronglySorted lt l.*1 → last l = Some (k, v) →
  parked_map l !! k = Some v ∧ ∀ j w, parked_map l !! j = Some w → j ≤ k.
Proof.
  intros Hs Hlast. apply last_Some in Hlast as (l' & ->). pose proof (sorted_NoDup _ Hs) as Hnd. split.
  - apply elem_of_list_to_map; [done|]. apply elem_of_app. right. left.
  - intros j w Hj. apply elem_of_list_to_map in Hj; [|done].
    apply elem_of_app in Hj as [Hj|Hj%list_elem_of_singleton]; [|by injection Hj as -> _].
    rewrite fmap_app in Hs. apply StronglySorted_app_1_elem_of with (x1 := j) (x2 := k) in Hs; [lia| |].
    + apply list_elem_of_fmap. by exists (j, w).
    + cbn. left.
Qed.

Lemma remove_parked_cases k l : StronglySorted lt l.*1 → match parked_map l !! k with
  | Some _ => ∃ e rest, remove_parked k l = (Some e, rest)
  | None => (remove_parked k l).1 = None
  end.
Proof.
  intros Hs. pose proof (sorted_NoDup _ Hs) as Hnd. unfold remove_parked.
  destruct (filter (λ kv, kv.1 = k) l) as [|[a e] t] eqn:Hf; cbn.
  - destruct (parked_map l !! k) as [v|] eqn:Hk; [|done]. apply elem_of_list_to_map in Hk; [|done].
    assert (Hin : (k, v) ∈ filter (λ kv, kv.1 = k) l) by (by apply list_elem_of_filter).
    rewrite Hf in Hin. by apply not_elem_of_nil in Hin.
  - assert (Hin : (a, e) ∈ filter (λ kv, kv.1 = k) l) by (rewrite Hf; left).
    apply list_elem_of_filter in Hin as [Ha Hin]. cbn in Ha. subst a.
    assert (Hk : parked_map l !! k = Some e) by (by apply elem_of_list_to_map). rewrite Hk. by eexists _, _.
Qed.

(** Making room: the victim leaves with all its packets, marked as dropped. *)
Lemma drop_victim i victim : ingress_wf i → in_dropped i !! victim = Some false →
  let '(evicted, rest) := remove_parked victim (in_pending i) in
  let i1 := match evicted with
            | Some e => set_parked rest (as_u64 (in_pending_count i - Z.of_nat (length e))) i
            | None => i
            end in
  let i2 := mark_frame_dropped i1 victim in
  ingress_wf i2 ∧ parked_map (in_pending i2) = delete victim (parked_map (in_pending i))
  ∧ (in_pending_count i2 <= in_pending_count i)%Z
  ∧ (is_Some (parked_map (in_pending i) !! victim) → in_pending_count i2 < in_pending_count i)%Z
  ∧ in_dropped i2 = <[victim := true]> (in_dropped i) ∧ in_complete i2 = as_u64 (in_complete i + 1).
Proof.
  intros Hwf Hd. pose proof (remove_parked_cases victim (in_pending i) (iw_sorted _ Hwf)) as Hcase.
  destruct (parked_map (in_pending i) !! victim) as [v|] eqn:Hv.
  - destruct Hcase as (e & rest & Hrem). rewrite Hrem.
    destruct (remove_wf i victim e rest Hwf Hrem) as (Hwf1 & Hc1 & He & Hm1).
    set (i1 := set_parked rest _ i) in *.
    destruct (mark_frame_dropped_wf i1 victim Hwf1) as (Hwf2 & E1 & E2 & E3 & E4); [done|cbn; by rewrite Hm1, lookup_delete_eq|].
    cbv zeta. rewrite E1, E2, E3, E4, Hc1. split; [done|]. split; [done|]. split; [lia|]. split; [lia|done].
  - destruct (remove_parked victim (in_pending i)) as [evicted rest]. cbn in Hcase. subst evicted.
    destruct (mark_frame_dropped_wf i victim Hwf Hd Hv) as (Hwf2 & E1 & E2 & E3 & E4).
    cbv zeta. rewrite E1, E2, E3, E4. split; [done|]. split; [by rewrite delete_id|]. split; [lia|].
    split; [by intros [? ?]|done].
Qed.

(** The frame that has to go when the buffer is full: the one furthest from admission. *)
Definition furthest (i : Ingress) (frame victim : nat) : Prop :=
  frame ≤ victim ∧ (∀ j v, parked_map (in_pending i) !! j = Some v → j ≤ victim)
  ∧ (victim = frame ∨ is_Some (parked_map (in_pending i) !! victim)).

(** C35. Parking a packet never splits a frame and never overruns the buffer. A packet of
    a dropped or unknown frame is discarded. When there is room the packet is appended
    to its frame. When the buffer is full, the frame furthest from admission, the
    packet's own included, is dropped whole: all its packets leave, it is marked and
    counted as dropped and completed once, every other frame keeps all its packets, and
    the packet is parked unless its own frame was the one to go. The packet count stays
    exact and within the capacity, and no dropped frame is parked. *)
Theorem park_pending_packet_spec (slots : nat) (i : Ingress) (frame : nat) (x : PendingPacket) (frame_packets : nat)
    (Hwf : ingress_wf i) (Hcap : 0 < frame_packets * slots) (Hfit : (Z.of_nat (frame_packets * slots) < two64)%Z)
    (Hroom : (in_pending_count i <= Z.of_nat (frame_packets * slots))%Z) :
  let i' := park_pending_packet slots i frame x frame_packets in
  let m := parked_map (in_pending i) in
  ingress_wf i' ∧ (in_pending_count i' <= Z.of_nat (frame_packets * slots))%Z
  ∧ if decide (in_dropped i !! frame = Some false) then
      if (Z.of_nat (frame_packets * slots) <=? in_pending_count i)%Z then
        ∃ victim, furthest i frame victim ∧ in_dropped i' = <[victim := true]> (in_dropped i)
          ∧ in_complete i' = as_u64 (in_complete i + 1)
          ∧ parked_map (in_pending i')
            = if decide (victim = frame) then delete frame m else <[frame := default [] (m !! frame) ++ [x]]> (delete victim m)
      else in_dropped i' = in_dropped i ∧ parked_map (in_pending i') = <[frame := default [] (m !! frame) ++ [x]]> m
    else i' = i.
Proof.
  intros i' m. unfold i', park_pending_packet. case_decide as Hd; rewrite ?Hd.
  2: { destruct (in_dropped i !! frame) as [[]|]; done. }
  destruct (Z.leb_spec (Z.of_nat (frame_packets * slots)) (in_pending_count i)) as [Hfull|Hlt].
  2: { split; [apply push_wf; [done|done|lia]|]. cbn. split; [rewrite as_u64_small; [lia|]|].
       - rewrite (iw_count _ Hwf) in *. lia.
       - split; [done|]. apply entry_push_map, Hwf. }
  destruct (last (in_pending i)) as [[k v]|] eqn:Hlast.
  2: { apply last_None in Hlast. rewrite (iw_count _ Hwf), Hlast in Hfull. cbn in Hfull. lia. }
  destruct (last_key_max _ k v (iw_sorted _ Hwf) Hlast) as [Hk Hmax].
  set (victim := Nat.max k frame).
  assert (Hvd : in_dropped i !! victim = Some false).
  { unfold victim. destruct (Nat.max_spec k frame) as [[_ ->]|[_ ->]]; [done|]. by apply (iw_live _ Hwf k v). }
  assert (Hfur : furthest i frame victim).
  { split; [lia|]. split; [intros j w Hj; pose proof (Hmax j w Hj); lia|]. unfold victim.
    destruct (Nat.max_spec k frame) as [[_ ->]|[_ ->]]; [by left|right; by eexists]. }
  pose proof (drop_victim i victim Hwf Hvd) as Hdrop.
  destruct (remove_parked victim (in_pending i)) as [evicted rest]. cbv zeta in Hdrop |- *.
  match type of Hdrop with ingress_wf ?x ∧ _ => set (i2 := x) in * end.
  destruct Hdrop as (Hwf2 & Hm2 & Hc2 & Hc2' & Hd2 & Hf2). destruct (Nat.eqb_spec victim frame) as [He|Hne].
  - split; [done|]. split; [lia|]. exists victim. rewrite decide_True by done. split; [done|]. split; [done|].
    split; [done|]. by rewrite Hm2, He.
  - assert (Hdf : in_dropped i2 !! frame = Some false) by (by rewrite Hd2, list_lookup_insert_ne).
    assert (Hroom2 : (in_pending_count i2 < in_pending_count i)%Z) by (apply Hc2'; destruct Hfur as (_ & _ & [?|?]); done).
    split; [apply push_wf; [done|done|lia]|]. cbn [set_parked in_pending_count in_pending in_dropped in_complete].
    split; [rewrite as_u64_small; [lia|]; rewrite (iw_count _ Hwf2) in *; lia|].
    exists victim. rewrite decide_False by done. split; [done|]. split; [done|]. split; [done|].
    rewrite entry_push_map by apply Hwf2. rewrite Hm2. by rewrite lookup_delete_ne.
Qed.

(** Two frames are parked and the buffer of four packets is full. *)
Definition demo_packet : PendingPacket := mkPending CmNone 0.
Definition demo_ingress : Ingress :=
  mkIngress [false; false; true; false; false; false] 1 [(3, [demo_packet; demo_packet]); (4, [demo_packet; demo_packet])] 4 1.

Lemma demo_ingress_wf : ingress_wf demo_ingress.
Proof.
  constructor; try (vm_compute; reflexivity).
  - cbn. repeat constructor.
  - intros k v Hk. cbn in Hk. apply lookup_insert_Some in Hk as [[<- <-]|[_ Hk]]; [done|].
    apply lookup_insert_Some in Hk as [[<- <-]|[_ Hk]]; [done|]. by rewrite lookup_empty in Hk.
Qed.

Lemma park_pending_packet_spec_witness :
  ingress_wf (park_pending_packet 2 demo_ingress 3 demo_packet 2)
  ∧ in_pending (park_pending_packet 2 demo_ingress 3 demo_packet 2) = [(3, [demo_packet; demo_packet; demo_packet])].
Proof.
  split; [|vm_compute; reflexivity].
  exact (proj1 (park_pending_packet_spec 2 demo_ingress 3 demo_packet 2 demo_ingress_wf ltac:(lia) ltac:(done) ltac:(vm_compute; discriminate))).
Defined.

(** ** What coalescing preserves *)

(** The cells of an entry: slot, node and instance. *)
Definition cells (e : NodeInfo * option CmTypes) : list (nat * nat * nat) :=
  (λ i, (ni_slot e.1, ni_id e.1, i)) <$> covered e.1.
Definition payloads (l : list (NodeInfo * option CmTypes)) : list (NodeInfo * CmTypes) :=
  omap (λ e : NodeInfo * option CmTypes, (λ p, (e.1, p)) <$> e.2) l.

Lemma sort_insert_perm x l : sort_insert x l ≡ₚ x :: l.
Proof.
  induction l as [|y l IH]; cbn; [done|]. destruct (key_le x y); [done|]. rewrite IH. constructor.
Qed.

Lemma sort_by_key_perm l : sort_by_key l ≡ₚ l.
Proof. induction l as [|x l IH]; [done|]. cbn. rewrite sort_insert_perm. by constructor. Qed.

Lemma take_run_spec slot last l :
  let '(run, rest) := take_run slot last l in
  l = run ++ rest ∧ (Forall (λ e : NodeInfo * option CmTypes, ni_bulk_count e.1 = 1) l →
    run ≫= cells = (λ i, (slot, 0, i)) <$> range (S last) (S last + length run)).
Proof.
  revert last. induction l as [|e l IH]; intros last; cbn [take_run].
  - split; [done|]. intros _. cbn [length]. by rewrite range_empty by lia.
  - destruct (_ && _) eqn:Hc; [|split; [done|]; intros _; cbn [length]; by rewrite range_empty by lia].
    rewrite !andb_true_iff in Hc. destruct Hc as [[Hid%Nat.eqb_eq Hs%Nat.eqb_eq] Hi%Nat.eqb_eq].
    specialize (IH (ni_index e.1)). destruct (take_run slot (ni_index e.1) l) as [run rest]. destruct IH as [-> Hcov].
    split; [done|]. intros Hall. apply Forall_cons in Hall as [Hb Hall]. rewrite bind_cons, (Hcov Hall).
    unfold cells, covered. rewrite Hid, Hs, Hb, Hi. cbn [length].
    rewrite (range_cons (S last)) by lia. rewrite Nat.add_1_r, range_cons, range_empty by lia. cbn.
    do 3 f_equal; lia.
Qed.

Lemma payloads_cons e l : payloads (e :: l) = payloads [e] ++ payloads l.
Proof. unfold payloads. by rewrite <- omap_app. Qed.

Lemma payloads_app l1 l2 : payloads (l1 ++ l2) = payloads l1 ++ payloads l2.
Proof. apply omap_app. Qed.

Lemma coalesce_runs_spec fuel l : length l ≤ fuel → Forall (λ e : NodeInfo * option CmTypes, ni_bulk_count e.1 = 1) l →
  let '(stores, out) := coalesce_runs fuel l in
  out ≫= cells = l ≫= cells ∧ stores ++ payloads out ≡ₚ payloads l.
Proof.
  revert l. induction fuel as [|fuel IH]; intros l Hlen Hall.
  - destruct l; [|cbn in Hlen; lia]. done.
  - destruct l as [|[ni payload] l]; [done|]. cbn [coalesce_runs length] in *. apply Forall_cons in Hall as [Hb Hall].
    cbn in Hb. destruct (Nat.eqb_spec (ni_id ni) 0) as [Hid|Hid]; cbn [negb].
    + pose proof (take_run_spec (ni_slot ni) (ni_index ni) l) as Hrun.
      destruct (take_run (ni_slot ni) (ni_index ni) l) as [run rest]. destruct Hrun as [-> Hcov]. specialize (Hcov Hall).
      apply Forall_app in Hall as [_ Hrest]. rewrite length_app in Hlen.
      specialize (IH rest ltac:(lia) Hrest). destruct (coalesce_runs fuel rest) as [stores out]. destruct IH as [Hc Hp].
      destruct run as [|r run].
      * cbn [app]. rewrite !bind_cons, Hc. split; [done|]. rewrite (payloads_cons _ out), (payloads_cons _ rest), <- Hp.
        apply Permutation_app_swap_app.
      * fold (payloads ((ni, payload) :: r :: run)). split.
        -- rewrite !bind_cons, bind_app, Hc, Hcov, app_assoc. f_equal. unfold cells, covered.
           cbn [fst with_bulk_count NodeInfo_new ni_slot ni_id ni_index ni_bulk_count]. rewrite Hid, Hb, <- fmap_app. f_equal.
           rewrite Nat.add_1_r, <- range_app by lia. f_equal. lia.
        -- assert (Hnone : ∀ x, payloads [(x, None)] = []) by done. rewrite (payloads_cons _ out), Hnone.
           change ((ni, payload) :: (r :: run) ++ rest) with (((ni, payload) :: r :: run) ++ rest).
           by rewrite payloads_app, <- Hp, <- app_assoc.
    + specialize (IH l ltac:(lia) Hall). destruct (coalesce_runs fuel l) as [stores out]. destruct IH as [Hc Hp].
      rewrite !bind_cons, Hc. split; [done|]. rewrite (payloads_cons _ out), (payloads_cons _ l), <- Hp.
      apply Permutation_app_swap_app.
Qed.

(** Coalescing the packets of a batch loses and duplicates nothing: the entries of the
    new batch cover exactly the cells of the old one, and every payload is either stored
    at its own cell now or still travels with its entry. A batch with a conditional or
    one-to-one successor of the ingest node is left alone. *)
Theorem coalesce_keeps_cells (arena : SuccessorArena) (m : LockFreeResultMap) (batch : list (NodeInfo * option CmTypes))
    (edges : list SuccEdge) (Hedges : edges_for arena 0 = Ret edges)
    (Hsingle : ∀ e, e ∈ batch → ni_bulk_count e.1 = 1) :
  ∃ stores out, coalesce_network_batch arena m batch
                = (let! m' := foldM (λ m s, rm_set m s.1 s.2) m stores in Ret (m', out))
    ∧ (out ≫= cells) ≡ₚ (batch ≫= cells)
    ∧ stores ++ payloads out ≡ₚ payloads batch
    ∧ ((∃ e, e ∈ edges ∧ (se_has_condition e = true ∨ is_one_to_one e = true)) → stores = [] ∧ out = batch).
Proof.
  unfold coalesce_network_batch. destruct (Nat.ltb_spec (length batch) 2).
  { exists [], batch. done. }
  rewrite Hedges. cbn [run_bind]. destruct (existsb _ edges) eqn:Hex.
  { exists [], batch. done. }
  pose proof (coalesce_runs_spec (length batch) (sort_by_key batch)) as Hspec.
  destruct (coalesce_runs (length batch) (sort_by_key batch)) as [stores out]. exists stores, out.
  destruct Hspec as [Hc Hp].
  - by rewrite sort_by_key_perm.
  - rewrite sort_by_key_perm. by apply Forall_forall.
  - split; [done|]. split; [by rewrite Hc, sort_by_key_perm|]. split.
    + rewrite Hp. unfold payloads. by rewrite sort_by_key_perm.
    + intros (e & He & Hor). exfalso. apply not_true_iff_false in Hex. apply Hex. apply existsb_exists.
      exists e. split; [by apply list_elem_of_In|]. by apply orb_true_iff.
Qed.

(** Four packets of two slots; three of them are consecutive cells of slot 0. *)
Definition demo_packets : list (NodeInfo * option CmTypes) :=
  [(NodeInfo_new 0 0 2 0, Some (CmU8 12)); (NodeInfo_new 0 1 0 0, Some (CmU8 20));
   (NodeInfo_new 0 0 0 0, Some (CmU8 10)); (NodeInfo_new 0 0 1 0, Some (CmU8 11))].

Lemma coalesce_keeps_cells_witness : ∃ stores out,
  coalesce_network_batch (mkArena [] []) demo_map demo_packets
  = (let! m' := foldM (λ m s, rm_set m s.1 s.2) demo_map stores in Ret (m', out))
  ∧ (out ≫= cells) ≡ₚ (demo_packets ≫= cells).
Proof.
  destruct (coalesce_keeps_cells (mkArena [] []) demo_map demo_packets [] eq_refl) as (stores & out & Hr & Hc & _).
  - intros e He. unfold demo_packets in He. repeat (apply elem_of_cons in He as [->|He]; [reflexivity|]).
    by apply not_elem_of_nil in He.
  - exists stores, out. split; [exact Hr|exact Hc].
Defined.
