(* ===== verification/Resolution.v ===== *)
(** The resolution threads: admission of packets ([runtime/packet_processing.rs]), the
    check of the slots with the eviction of stalled frames ([runtime/slot_lifecycle.rs])
    and the loop over both ([runtime/resolution_loop.rs]).

    The number of completed frames is one counter; it is that of the run-time state, and
    the ingress works on a view of it. The clock is read once per iteration. The map
    [frame_slot_activity], which is only ever cleared, is left out, as are tracing,
    measurement and the return of packet buffers to their receivers. *)
From S2P Require Import Prelude Types GraphStruct WorkerRange Graph Buffers NodeDep NodeCache DepCounter ResultMap Tables Arena Successor ArgRes Slots Exec Task Packets.
From stdpp Require Import strings.

(** Of [NetworkInfra] and [SlotData]: what is known about reception. *)
Record NetState := mkNet {
  nt_frame_packets : nat;
  nt_last_packet_ns : list Z;
  nt_frames_receive_counter : Z;
  nt_receive_finished : bool;
  nt_frame_id_base : Z;
}.

Record System (C : Type) := mkSystem {
  sys_exec : ExecState C;
  sys_ingress : Ingress;
  sys_net : NetState;
}.
Arguments mkSystem {C}. Arguments sys_exec {C}. Arguments sys_ingress {C}. Arguments sys_net {C}.

Definition sys_rt {C} (s : System C) : Runtime C := es_rt (sys_exec s).
Definition with_exec {C} (e : ExecState C) (s : System C) : System C := mkSystem e (sys_ingress s) (sys_net s).
Definition with_net {C} (n : NetState) (s : System C) : System C := mkSystem (sys_exec s) (sys_ingress s) n.
Definition put_rt {C} (rt : Runtime C) (s : System C) : System C := with_exec (with_rt rt (sys_exec s)) s.

Definition set_complete (n : Z) (i : Ingress) : Ingress :=
  mkIngress (in_dropped i) (in_dropped_frames i) (in_pending i) (in_pending_count i) n.
Definition with_complete {C} (n : Z) (rt : Runtime C) : Runtime C :=
  mkRuntime (rt_slots rt) (rt_counter rt) (rt_results rt) n.

(** The ingress with the counter of completed frames, and back. *)
Definition sys_in {C} (s : System C) : Ingress := set_complete (rt_frame_complete_counter (sys_rt s)) (sys_ingress s).
Definition put_in {C} (i : Ingress) (s : System C) : System C :=
  mkSystem (with_rt (with_complete (in_complete i) (sys_rt s)) (sys_exec s)) i (sys_net s).

Record PacketMessage := mkMessage {
  pm_packet_bytes : list Z;
  pm_receiver_core_id : nat;
  pm_decoded : option CmTypes;
}.

(** What a thread carries through a poll: the state, [slots_dirty], the batch. *)
Record Poll (C : Type) := mkPoll {
  pl_sys : System C;
  pl_dirty : bool;
  pl_batch : list (NodeInfo * option CmTypes);
}.
Arguments mkPoll {C}. Arguments pl_sys {C}. Arguments pl_dirty {C}. Arguments pl_batch {C}.

Definition on_sys {C} (f : System C → System C) (p : Poll C) : Poll C := mkPoll (f (pl_sys p)) (pl_dirty p) (pl_batch p).

Inductive SlotAssignment := Assigned (ni : NodeInfo) | NoSlotYet | Dropped.

Section resolution.
Context {C : Type} `{DependencyCounter C} `{FuncReg}.
Context (cfg : ExecConfig) (scfg : SlotConfig) (graph : Graph) (cache : list NodeCacheEntry) (arena : SuccessorArena).
Context (tbl : table nat) (init_objects : list (list CmTypes)) (fuel : nat).
Context (record_frame : option Z) (recording typed_spawn : bool) (get_affinity_group : option WorkerRangeSpec → nat).
(** Of the configuration: [dispatch_chunk], [frame_timeout_ms], [batch.target_size]. *)
Context (dispatch_chunk : nat) (frame_timeout_ms : Z) (target_size : nat).

#[local] Notation dispatch := (dispatch_nodes graph cache record_frame typed_spawn get_affinity_group).
#[local] Notation drive := (drive_batch cfg graph cache arena tbl init_objects fuel record_frame typed_spawn get_affinity_group).

(** The tasks of the roots of a slot go to the scheduler. *)
Definition spawn_initial (s : System C) (slot : nat) : run (System C) :=
  let! nodes := initial_nodes scfg graph [slot] in
  let! e := match nodes with [] => Ret (sys_exec s) | _ => dispatch (sys_exec s) nodes end in
  Ret (with_exec e s).

(** ** Packets *)

(** [decode_packet]. *)
Definition decode_packet (packet_process_func : CmPtr) (m : PacketMessage) : CmTypes :=
  match pm_decoded m with
  | Some cm => cm
  | None => packet_process_func [CmBytes (pm_packet_bytes m)]
  end.

(** [process_id_function]. *)
Definition process_id_function (result : CmTypes) : run (option nat) :=
  match g_network_config graph with
  | None => Ret None
  | Some net =>
      let! id_function := unwrap (net_id_function net) in
      let! new_frame := unwrap (valid_number_to_usize (id_function [result])) in
      Ret (Some new_frame)
  end.

(** The index function of the graph, where it is linked. *)
Definition index_function : option (CmPtr * list Arg) :=
  match g_network_config graph with
  | Some net => match net_index_function net with
                | Some f => (λ p, (p, if_args f)) <$> if_func_ptr f
                | None => None
                end
  | None => None
  end.

(** The arrival of a packet at a slot: its count and the time. *)
Definition count_packet (s : System C) (slot : nat) (now : Z) : run (System C) :=
  let d := rt_slots (sys_rt s) in
  let! counters := fetch_add (sd_packet_counters d) slot 1 in
  let! times := vec_set (nt_last_packet_ns (sys_net s)) slot now in
  let n := sys_net s in
  Ret (with_net (mkNet (nt_frame_packets n) times (nt_frames_receive_counter n) (nt_receive_finished n) (nt_frame_id_base n))
         (put_rt (with_slots (upd_flags (sd_needs_check d) counters (sd_packet_complete d) d) (sys_rt s)) s)).

(** [assign_packet_to_slot] for a frame that is not dropped; a call that waits for an
    argument of the index function is [None]. *)
Definition place_packet (p : Poll C) (new_frame : nat) (packet_cm : CmTypes) (now : Z)
    : run (option (Poll C * SlotAssignment)) :=
  let! (rt1, r) := assign_frame_to_available_slot scfg graph cache (sys_rt (pl_sys p)) new_frame in
  let s1 := put_rt rt1 (pl_sys p) in
  match r with
  | None => Ret (Some (mkPoll s1 (pl_dirty p) (pl_batch p), NoSlotYet))
  | Some (slot, newly_activated) =>
      let! s2 := if newly_activated : bool then spawn_initial s1 slot else Ret s1 in
      let dirty := pl_dirty p || newly_activated in
      let! received := vec_get (sd_packet_counters (rt_slots (sys_rt s2))) slot in
      wait! packet_index :=
        match index_function with
        | Some (idx_fn, idx_args) =>
            wait! (additional_args, _) :=
              parse_args (world_of (sys_rt s2)) fuel (xc_single_slot_mode cfg) (xc_workers cfg) tbl init_objects
                (g_nodes graph) idx_args 0 slot 0 None 0 in
            run_map Some (unwrap (valid_number_to_usize (idx_fn (packet_cm :: additional_args))))
        | None => Ret (Some (Z.to_nat received))
        end in
      let! s3 := count_packet s2 slot now in
      Ret (Some (mkPoll s3 dirty (pl_batch p), Assigned (NodeInfo_new 0 slot packet_index 0)))
  end.

(** [assign_packet_to_slot]. *)
Definition assign_packet_to_slot (p : Poll C) (new_frame : nat) (packet_cm : CmTypes) (now : Z)
    : run (option (Poll C * SlotAssignment)) :=
  match in_dropped (sys_ingress (pl_sys p)) !! new_frame with
  | Some true => Ret (Some (p, Dropped))
  | _ => place_packet p new_frame packet_cm now
  end.

(** [check_frame_completion]. *)
Definition check_frame_completion (s : System C) (slot frame_packets : nat) : run (System C) :=
  let d := rt_slots (sys_rt s) in
  let! packet_count := vec_get (sd_packet_counters d) slot in
  if negb (packet_count =? Z.of_nat frame_packets)%Z then Ret s
  else
    let! already_completed := vec_get (sd_packet_complete d) slot in
    let! complete := vec_set (sd_packet_complete d) slot true in
    let s1 := put_rt (with_slots (upd_flags (sd_needs_check d) (sd_packet_counters d) complete d) (sys_rt s)) s in
    if already_completed : bool then Ret s1
    else
      let n := sys_net s in
      let completed_frames := as_u64 (nt_frames_receive_counter n + 1) in
      Ret (with_net (mkNet (nt_frame_packets n) (nt_last_packet_ns n) completed_frames
                       (nt_receive_finished n || (cfg_max_frames scfg <=? completed_frames)%Z) (nt_frame_id_base n)) s1).

Definition park (s : System C) (frame : nat) (x : PendingPacket) (frame_packets : nat) : System C :=
  put_in (park_pending_packet (cfg_slots scfg) (sys_in s) frame x frame_packets) s.

(** [admit_packet]. *)
Definition admit_packet (p : Poll C) (new_frame : nat) (x : PendingPacket) (now : Z) (frame_packets : nat)
    : run (option (Poll C)) :=
  wait! (p1, assignment) := assign_packet_to_slot p new_frame (pp_packet x) now in
  match assignment with
  | Dropped => Ret (Some p1)
  | NoSlotYet => Ret (Some (on_sys (λ s, park s new_frame x frame_packets) p1))
  | Assigned node_info =>
      let s1 := pl_sys p1 in
      let! (d, batch) := route_packet (rt_slots (sys_rt s1)) (pl_batch p1) (node_info, Some (pp_packet x)) in
      let! _ := if recording then should_record_slot record_frame d (ni_slot node_info) else Ret true in
      let! s2 := check_frame_completion (put_rt (with_slots d (sys_rt s1)) s1) (ni_slot node_info) frame_packets in
      Ret (Some (mkPoll s2 (pl_dirty p1) batch))
  end.

(** [reinject_pending_frames]. *)
Definition reinject (p : Poll C) (now : Z) (frame_packets : nat) : run (option (Poll C)) :=
  let (i, ready) := reinject_pending_frames (cfg_slots scfg) (sys_in (pl_sys p)) in
  fold_wait (λ p kv, fold_wait (λ p x, admit_packet p kv.1 x now frame_packets) p kv.2) (on_sys (put_in i) p) ready.

(** [flush_active_batch]. *)
Definition flush_active_batch (cond_indexes : list (list nat)) (p : Poll C) : run (option (Poll C)) :=
  match pl_batch p with
  | [] => Ret (Some p)
  | batch =>
      let s := pl_sys p in
      let! (m, batch') := coalesce_network_batch arena (rt_results (sys_rt s)) batch in
      wait! (e, _) := drive cond_indexes (with_rt (with_results m (sys_rt s)) (sys_exec s)) batch' in
      Ret (Some (mkPoll (with_exec e s) (pl_dirty p) []))
  end.

(** The body of the loop over the messages of [poll_and_process_network_packets]. *)
Definition poll_message (packet_process_func : CmPtr) (cond_indexes : list (list nat)) (now : Z) (frame_packets : nat)
    (p : Poll C) (m : PacketMessage) : run (option (Poll C)) :=
  let packet_cm := decode_packet packet_process_func m in
  let! new_frame_opt := process_id_function packet_cm in
  match new_frame_opt with
  | None => Ret (Some p)
  | Some raw =>
      let n := sys_net (pl_sys p) in
      let (base, frame) := rebase_frame_id (nt_frame_id_base n) raw in
      let p1 := on_sys (with_net (mkNet (nt_frame_packets n) (nt_last_packet_ns n) (nt_frames_receive_counter n)
                                    (nt_receive_finished n) base)) p in
      match frame with
      | None => Ret (Some p1)
      | Some new_frame =>
          let x := mkPending packet_cm (pm_receiver_core_id m) in
          if negb (in_window (cfg_slots scfg) (sys_in (pl_sys p1)) new_frame) then
            Ret (Some (on_sys (λ s, park s new_frame x frame_packets) p1))
          else
            wait! p2 := admit_packet p1 new_frame x now frame_packets in
            if (0 <? dispatch_chunk) && (dispatch_chunk <=? length (pl_batch p2))
            then flush_active_batch cond_indexes p2
            else Ret (Some p2)
      end
  end.

(** [poll_and_process_network_packets], with the messages drained from the channel. *)
Definition poll_and_process_network_packets (network_config : GraphNetworkConfig) (cond_indexes : list (list nat))
    (now : Z) (messages : list PacketMessage) (s : System C) (slots_dirty : bool) : run (option (System C * bool)) :=
  let frame_packets := net_frame_packets network_config in
  let n := sys_net s in
  let s1 := with_net (mkNet frame_packets (nt_last_packet_ns n) (nt_frames_receive_counter n) (nt_receive_finished n)
                        (nt_frame_id_base n)) s in
  let! packet_process_func := unwrap (net_extract_packet_func network_config) in
  let p := mkPoll s1 slots_dirty [] in
  wait! p1 :=
    if (0 <? in_pending_count (sys_ingress s1))%Z then
      wait! p1 := reinject p now frame_packets in
      if 0 <? dispatch_chunk then flush_active_batch cond_indexes p1 else Ret (Some p1)
    else Ret (Some p) in
  wait! p2 := fold_wait (poll_message packet_process_func cond_indexes now frame_packets) p1 messages in
  wait! p3 := flush_active_batch cond_indexes p2 in
  Ret (Some (pl_sys p3, pl_dirty p3)).

(** ** The slots *)

(** [release_and_dispatch_next]. *)
Definition release_and_dispatch_next (cond_indexes : list (list nat)) (s : System C) (completing_slot : nat)
    : run (option (System C)) :=
  let! (rt1, next) := release_and_activate_next scfg cache (sys_rt s) completing_slot in
  let s1 := put_rt rt1 s in
  match next with
  | None => Ret (Some s1)
  | Some (activated_slot, buffered_batch) =>
      let! s2 := spawn_initial s1 activated_slot in
      match buffered_batch with
      | [] => Ret (Some s2)
      | _ => wait! (e, _) := drive cond_indexes (sys_exec s2) buffered_batch in Ret (Some (with_exec e s2))
      end
  end.

(** [restart_slot_nonnetwork] with its dispatch. *)
Definition restart_and_dispatch (s : System C) (slot : nat) : run (System C) :=
  let! (rt1, nodes) := restart_slot_nonnetwork scfg graph (sys_rt s) slot in
  let s1 := put_rt rt1 s in
  match nodes with
  | [] => Ret s1
  | _ => let! e := dispatch (sys_exec s1) nodes in Ret (with_exec e s1)
  end.

(** The test of [try_evict_stalled_slots]: some packets but not all, none for the time
    given, and no completion being resolved. *)
Definition stalled (s : System C) (now timeout_ns : Z) (slot : nat) : run bool :=
  let d := rt_slots (sys_rt s) in
  let! received := vec_get (sd_packet_counters d) slot in
  if (received =? 0)%Z || (Z.of_nat (nt_frame_packets (sys_net s)) <=? received)%Z then Ret false
  else
    let! idle_since := vec_get (nt_last_packet_ns (sys_net s)) slot in
    if (Z.max (now - idle_since) 0 <? timeout_ns)%Z then Ret false
    else
      let! processing := vec_get (sd_processing_count d) slot in
      Ret (processing =? 0)%Z.

(** One slot of [try_evict_stalled_slots]: the state and whether it was evicted. *)
Definition evict_slot (cond_indexes : list (list nat)) (now timeout_ns : Z) (s : System C) (slot : nat)
    : run (option (System C * bool)) :=
  let! is_stalled := stalled s now timeout_ns slot in
  if negb is_stalled then Ret (Some (s, false))
  else
    let d := rt_slots (sys_rt s) in
    let! claimed := vec_get (sd_packet_complete d) slot in
    let! complete := vec_set (sd_packet_complete d) slot true in
    let s1 := put_rt (with_slots (upd_flags (sd_needs_check d) (sd_packet_counters d) complete d) (sys_rt s)) s in
    if claimed : bool then Ret (Some (s1, false))
    else
      let! frame := vec_get (sd_frame_id d) slot in
      let s2 := put_in (mark_frame_dropped (sys_in s1) (Z.to_nat frame)) s1 in
      let! rt3 := reset_slot_state cache (sys_rt s2) slot in
      let! results := reinit_slot (rt_results rt3) slot in
      wait! s4 := release_and_dispatch_next cond_indexes (put_rt (with_results results rt3) s2) slot in
      Ret (Some (s4, true)).

(** [try_evict_stalled_slots]. *)
Definition try_evict_stalled_slots (cond_indexes : list (list nat)) (now : Z) (s : System C) (cached_slots : list nat)
    (slots_dirty : bool) : run (option (System C * bool)) :=
  let timeout_ns := Z.min (frame_timeout_ms * 1000000) u64_max in
  if (timeout_ns =? 0)%Z || (nt_frame_packets (sys_net s) =? 0) then Ret (Some (s, slots_dirty))
  else fold_wait (λ '(s, dirty) slot,
         wait! (s', evicted) := evict_slot cond_indexes now timeout_ns s slot in
         Ret (Some (s', dirty || evicted))) (s, slots_dirty) cached_slots.

(** [detect_and_claim_slot_completion], without interference; see [Completion.v] for the
    interleavings. *)
Definition detect_and_claim_slot_completion (rt : Runtime C) (slot : nat) : run (Runtime C * bool) :=
  let idle := let d := rt_slots rt in
    let! pending_regular := vec_get (sd_pending_tasks d) slot in
    let! pending_cond := vec_get (sd_pending_cond_tasks d) slot in
    let! processing_count := vec_get (sd_processing_count d) slot in
    Ret ((pending_regular =? 0)%Z && (pending_cond =? 0)%Z && (processing_count =? 0)%Z) in
  let! first := idle in
  if negb first then Ret (rt, false)
  else
    let (c, won) := try_complete_slot (rt_counter rt) slot in
    let rt1 := with_counter c rt in
    if negb won then Ret (rt1, false)
    else
      let! again := idle in
      if negb again then Ret (with_counter (unmark_slot_completed c slot) rt1, false)
      else Ret (rt1, true).

(** One slot of [check_slots]: the state and whether its frame was complete. *)
Definition check_slot (cond_indexes : list (list nat)) (active_bitmap : Z) (s : System C) (proc_slot : nat)
    : run (option (System C * bool)) :=
  if negb (Z.testbit active_bitmap (Z.of_nat proc_slot)) then Ret (Some (s, false))
  else
    let d := rt_slots (sys_rt s) in
    let! asked := vec_get (sd_needs_check d) proc_slot in
    let! needs := vec_set (sd_needs_check d) proc_slot false in
    let s1 := put_rt (with_slots (set_needs_check needs d) (sys_rt s)) s in
    if negb asked then Ret (Some (s1, false))
    else
      let! (rt2, claimed) := detect_and_claim_slot_completion (sys_rt s1) proc_slot in
      if negb claimed then Ret (Some (put_rt rt2 s1, false))
      else
        let! rt3 := reset_slot_state cache rt2 proc_slot in
        let! (rt4, can_restart) := process_slot_completion scfg rt3 proc_slot in
        wait! s5 := release_and_dispatch_next cond_indexes (put_rt rt4 s1) proc_slot in
        let! s6 := if can_restart : bool then restart_and_dispatch s5 proc_slot else Ret s5 in
        Ret (Some (s6, true)).

(** [check_slots]: the state, [cached_slots] and [slots_dirty]. *)
Definition check_slots (cond_indexes : list (list nat)) (now : Z) (s : System C) (cached_slots : list nat)
    (slots_dirty : bool) : run (option (System C * list nat * bool)) :=
  let refresh := slots_dirty || bool_decide (cached_slots = []) in
  let cached := if refresh then (sd_running_frames (rt_slots (sys_rt s))).*2 else cached_slots in
  let dirty := if refresh then false else slots_dirty in
  wait! (s1, dirty1) := try_evict_stalled_slots cond_indexes now s cached dirty in
  let active_bitmap := if cfg_slot_priority_enabled scfg then sd_active_bitmap (rt_slots (sys_rt s1)) else u64_max in
  wait! (s2, dirty2) := fold_wait (λ '(s, dirty) slot,
         wait! (s', done) := check_slot cond_indexes active_bitmap s slot in
         Ret (Some (s', dirty || done))) (s1, dirty1) cached in
  Ret (Some (s2, cached, dirty2)).

(** ** The loop *)

(** The state of a resolution thread. *)
Record Loop := mkLoop { lp_sys : System C; lp_cached_slots : list nat; lp_slots_dirty : bool }.

(** What an iteration finds: the messages in the channel, the time, and the shutdown flag
    at its two readings. *)
Record Turn := mkTurn { tn_messages : list PacketMessage; tn_now : Z; tn_shutdown : bool; tn_shutdown' : bool }.

Definition frames_done (s : System C) : bool := (cfg_max_frames scfg <=? rt_frame_complete_counter (sys_rt s))%Z.

(** One iteration of [resolution]: the state, and whether the thread goes on. *)
Definition resolution_turn (cond_indexes : list (list nat)) (l : Loop) (turn : Turn) : run (option (Loop * bool)) :=
  if tn_shutdown turn then Ret (Some (l, false))
  else
    wait! (s1, dirty1) :=
      match g_network_config graph with
      | Some net =>
          if nt_receive_finished (sys_net (lp_sys l)) then Ret (Some (lp_sys l, lp_slots_dirty l))
          else poll_and_process_network_packets net cond_indexes (tn_now turn) (tn_messages turn) (lp_sys l) (lp_slots_dirty l)
      | None => Ret (Some (lp_sys l, lp_slots_dirty l))
      end in
    wait! e := drain_and_process_batch_queue cfg graph cache arena tbl init_objects fuel record_frame typed_spawn
                 get_affinity_group cond_indexes target_size (sys_exec s1) in
    let s2 := with_exec e s1 in
    if tn_shutdown' turn || frames_done s2 then Ret (Some (mkLoop s2 (lp_cached_slots l) dirty1, false))
    else
      wait! (s3, cached, dirty) := check_slots cond_indexes (tn_now turn) s2 (lp_cached_slots l) dirty1 in
      Ret (Some (mkLoop s3 cached dirty, negb (frames_done s3))).
End resolution.
