(* ===== verification/Receivers.v ===== *)
(** Reception of packets ([network.rs], [runtime/threading.rs], [runtime/network_init.rs],
    the listener of [handover.rs]): the threads that poll the sockets, the channels and the
    pools of buffers around them, the thread that hands the sockets over to another
    process, and the messages that carry their descriptors.

    A socket is the queue of datagrams that the system holds for it. Reading one into a
    buffer discards what exceeds the buffer, as the standard library documents. The pinning
    of threads, timestamps and logs are left out. *)
From S2P Require Import Prelude Types GraphStruct Graph Slots Packets Task Resolution.
From stdpp Require Import strings.
Open Scope nat_scope.
Open Scope list_scope.

Definition Datagram : Type := list Z.

(** A message of a channel: the packet as the resolution threads see it, with its socket. *)
Record Message := mkRxMessage { ms_packet : PacketMessage; ms_socket_id : nat }.

(** ** Set-up *)

(** What the threads share. [rn_sockets] is set when the sockets are bound, or taken over;
    a channel holds what is sent and not received, a return channel the buffers on their
    way back. *)
Record RxNet := mkRxNet {
  rn_sockets : option (list (list Datagram));
  rn_channels : list (list Message);
  rn_channel_cap : nat;
  rn_drop_counters : list nat;
  rn_returns : list (list Datagram);
  rn_shutdown : bool;
  rn_freeze : bool;
  rn_frozen : nat;
  rn_handed_over : bool;
}.

(** What [prepare_network_infrastructure] makes, with the ingest shards of the builder: a
    channel for every shard, or the one of the packets, and no datagram yet on a socket. *)
Definition channel_capacity (frame_packets : nat) : nat := Nat.max (frame_packets * 4) 65536.

Definition ingest_shards (enabled : bool) (system_threads : nat) : nat :=
  if enabled && (1 <? system_threads) then system_threads else 0.

Definition network_infrastructure (config : option GraphNetworkConfig) (takeover : bool) (shards : nat) : RxNet :=
  match config with
  | Some c =>
      let n := net_num_sockets c in
      mkRxNet (if takeover then None else Some (replicate n [])) (replicate (Nat.max shards 1) []) (channel_capacity (net_frame_packets c))
        (replicate n 0) (replicate n []) false false 0 false
  | None => mkRxNet (Some []) (replicate (Nat.max shards 1) []) 1 [] [] false false 0 false
  end.

(** [bind_udp_socket_range]: a socket that the system does not bind to its address is a panic.
    [bind address port] is its answer. *)
Definition bind_udp_socket_range (bind : string → nat → bool) (address : string) (start_port count : nat) : run (list (list Datagram)) :=
  run_imap (λ i queue, if bind address (start_port + i) then Ret queue else Panic) 0 (replicate count []).

(** [prepare_network_infrastructure]: sockets are bound unless they will be taken over. *)
Definition prepare_network_infrastructure (bind : string → nat → bool) (config : option GraphNetworkConfig) (takeover : bool) (shards : nat) : run RxNet :=
  match config with
  | Some c =>
      let! _ := (if takeover then Ret [] else bind_udp_socket_range bind (net_address c) (net_start_port c) (net_num_sockets c)) in
      Ret (network_infrastructure config takeover shards)
  | None => Ret (network_infrastructure None takeover shards)
  end.

(** A receiver thread: its sockets, its core, its channel, and where it is in its loop. *)
Inductive Phase :=
  | Starting
  | Sweeping
  | Checking
  | Polling (k : nat)
  | Acking
  | Frozen
  | Stopped.

Record Receiver := mkReceiver {
  rc_start : nat;
  rc_end : nat;
  rc_core_id : nat;
  rc_channel : nat;
  rc_pools : list (list Datagram);
  rc_phase : Phase;
}.

Definition fresh_buffer (packet_length : nat) : Datagram := replicate packet_length 0%Z.

(** The begin of [multi_socket_receiver_loop]. The length of the range is a difference of
    words: a range that ends before it starts asks for more pools than memory has. *)
Definition start_receiver (packet_length recv_pool_size : nat) (start end_ core_id channel : nat) : run Receiver :=
  if end_ <? start then Panic
  else Ret (mkReceiver start end_ core_id channel
              (replicate (end_ - start) (replicate recv_pool_size (fresh_buffer packet_length))) Starting).

(** [shard_tx]: without shards there is one channel. *)
Definition shard_of (shards i : nat) : nat := match shards with 0 => 0 | _ => i mod shards end.

(** The ranges of sockets with their threads ([spawn_receiver_threads]): a thread for every
    socket, or equal shares of the sockets. *)
Definition receiver_ranges (receiver_threads num_sockets : nat) : run (list (nat * nat)) :=
  if num_sockets <=? receiver_threads then Ret ((λ socket_id, (socket_id, socket_id + 1)) <$> seq 0 num_sockets)
  else if receiver_threads =? 0 then Panic
  else
    let sockets_per_thread := div_ceil num_sockets receiver_threads in
    Ret ((λ thread_id, let start_socket := thread_id * sockets_per_thread in
                       (start_socket, Nat.min (start_socket + sockets_per_thread) num_sockets)) <$> seq 0 receiver_threads).

(** Thread [i] with its range; a thread that panics at its start is [None]. *)
Definition spawn_receiver_thread (packet_length recv_pool_size receiver_offset shards : nat) (i : nat) (r : nat * nat) : option Receiver :=
  match start_receiver packet_length recv_pool_size r.1 r.2 (receiver_offset + i) (shard_of shards i) with
  | Ret rc => Some rc
  | Panic => None
  end.

Definition spawn_receiver_threads (config : option GraphNetworkConfig) (net : RxNet)
    (receiver_threads receiver_offset recv_pool_size shards : nat) : run (list (option Receiver)) :=
  match config with
  | None => Ret []
  | Some c =>
      if match rn_sockets net with Some s => negb (length s =? net_num_sockets c) | None => false end then Panic
      else
        let! ranges := receiver_ranges receiver_threads (net_num_sockets c) in
        Ret (imap (spawn_receiver_thread (net_packet_length c) recv_pool_size receiver_offset shards) ranges)
  end.

(** With the receivers of the graph decoding or not ([rx_decode]). *)
Definition receiver_decode (config : GraphNetworkConfig) (rx_decode : bool) : option CmPtr :=
  if rx_decode then net_extract_packet_func config else None.

(** ** One poll *)

(** What the system answers when it does not hand out a datagram. *)
Inductive RecvError := WouldBlock | TimedOut | OtherError.

(** What happened to a datagram that was read: it went into a channel, was dropped since
    the channel was full, or had another size than packets have. *)
Inductive Fate := Sent (channel : nat) (m : Message) | Dropped | WrongSize (size : nat).

Record RxEvent := mkEvent { ev_socket : nat; ev_datagram : Datagram; ev_fate : Fate }.

Section poll.
(** The length of packets, the decoder of the receivers, and whether it keeps a reference
    to the bytes of a packet, so that their buffer does not come back. *)
Context (packet_length : nat) (decode : option CmPtr) (keeps_raw : Datagram → bool).

(** [socket.recv] of a datagram into a buffer. *)
Definition recv_into (buffer d : Datagram) : nat * Datagram :=
  let size := Nat.min (length d) (length buffer) in (size, take size d ++ drop size buffer).

Definition set_pool (rc : Receiver) (local_idx : nat) (pool : list Datagram) : Receiver :=
  mkReceiver (rc_start rc) (rc_end rc) (rc_core_id rc) (rc_channel rc) (<[local_idx := pool]> (rc_pools rc)) (rc_phase rc).
Definition set_phase (rc : Receiver) (ph : Phase) : Receiver :=
  mkReceiver (rc_start rc) (rc_end rc) (rc_core_id rc) (rc_channel rc) (rc_pools rc) ph.

Definition set_sockets (net : RxNet) (sockets : option (list (list Datagram))) : RxNet :=
  mkRxNet sockets (rn_channels net) (rn_channel_cap net) (rn_drop_counters net) (rn_returns net)
    (rn_shutdown net) (rn_freeze net) (rn_frozen net) (rn_handed_over net).
Definition set_channels (net : RxNet) (channels : list (list Message)) : RxNet :=
  mkRxNet (rn_sockets net) channels (rn_channel_cap net) (rn_drop_counters net) (rn_returns net)
    (rn_shutdown net) (rn_freeze net) (rn_frozen net) (rn_handed_over net).
Definition set_drops (net : RxNet) (drops : list nat) : RxNet :=
  mkRxNet (rn_sockets net) (rn_channels net) (rn_channel_cap net) drops (rn_returns net)
    (rn_shutdown net) (rn_freeze net) (rn_frozen net) (rn_handed_over net).
Definition set_returns (net : RxNet) (returns : list (list Datagram)) : RxNet :=
  mkRxNet (rn_sockets net) (rn_channels net) (rn_channel_cap net) (rn_drop_counters net) returns
    (rn_shutdown net) (rn_freeze net) (rn_frozen net) (rn_handed_over net).
Definition set_flags (net : RxNet) (shutdown freeze : bool) (frozen : nat) (handed_over : bool) : RxNet :=
  mkRxNet (rn_sockets net) (rn_channels net) (rn_channel_cap net) (rn_drop_counters net) (rn_returns net)
    shutdown freeze frozen handed_over.

(** Decoding on the receiver: the bytes of the message, its value, and the pool, into which
    the buffer goes back. *)
Definition rx_decoded (pool : list Datagram) (packet_bytes : Datagram) : Datagram * option CmTypes * list Datagram :=
  match decode with
  | Some dec => ([], Some (dec [CmBytes packet_bytes]), if keeps_raw packet_bytes then pool else pool ++ [packet_bytes])
  | None => (packet_bytes, None, pool)
  end.

(** [tx.try_send]. *)
Definition try_send (net : RxNet) (rc : Receiver) (m : Message) : run (option RxNet) :=
  let! queue := vec_get (rn_channels net) (rc_channel rc) in
  if length queue <? rn_channel_cap net
  then let! channels := vec_set (rn_channels net) (rc_channel rc) (queue ++ [m]) in Ret (Some (set_channels net channels))
  else Ret None.

(** A datagram in a buffer. *)
Definition accept_packet (net : RxNet) (rc : Receiver) (socket_id local_idx : nat) (pool : list Datagram) (buffer d : Datagram)
    : run (RxNet * Receiver * RxEvent) :=
  let '(size, packet_bytes) := recv_into buffer d in
  if negb (size =? packet_length) then Ret (net, set_pool rc local_idx pool, mkEvent socket_id d (WrongSize size))
  else
    let '(packet_bytes, decoded, pool) := rx_decoded pool packet_bytes in
    let msg := mkRxMessage (mkMessage packet_bytes (rc_core_id rc) decoded) socket_id in
    let! sent := try_send net rc msg in
    match sent with
    | Some net' => Ret (net', set_pool rc local_idx pool, mkEvent socket_id d (Sent (rc_channel rc) msg))
    | None =>
        let! n := vec_get (rn_drop_counters net) socket_id in
        let! drops := vec_set (rn_drop_counters net) socket_id (n + 1) in
        Ret (set_drops net drops, set_pool rc local_idx pool, mkEvent socket_id d Dropped)
    end.

(** The body of the loop over the sockets. The buffers that came back go into the pool, the
    last one of the pool is taken, or a new one; [err] is the system's answer when it gives
    no datagram. The flag is whether the thread goes on. *)
Definition poll_socket (net : RxNet) (rc : Receiver) (socket_id : nat) (err : option RecvError)
    : run (RxNet * Receiver * bool * option RxEvent) :=
  let! sockets := unwrap (rn_sockets net) in
  let local_idx := socket_id - rc_start rc in
  let! queue := vec_get sockets socket_id in
  let! _ := vec_get (rn_drop_counters net) socket_id in
  let! returned := vec_get (rn_returns net) socket_id in
  let! returns := vec_set (rn_returns net) socket_id [] in
  let! pool := vec_get (rc_pools rc) local_idx in
  let net := set_returns net returns in
  let pool := pool ++ returned in
  let buffer := default (fresh_buffer packet_length) (last pool) in
  let pool := removelast pool in
  match err, queue with
  | None, d :: queue' =>
      let net := set_sockets net (Some (<[socket_id := queue']> sockets)) in
      let! p := accept_packet net rc socket_id local_idx pool buffer d in
      let '(net, rc, e) := p in Ret (net, rc, true, Some e)
  | Some OtherError, _ => Ret (net, set_pool rc local_idx pool, false, None)
  | _, _ => Ret (net, set_pool rc local_idx pool, true, None)
  end.

(** ** The loop *)

(** One step of a receiver: the wait for the sockets, the two checks at the begin of a
    sweep, the polls, the acknowledgement of a handover, the wait for the end. A thread
    without sockets sweeps over nothing. *)
Definition receiver_step (net : RxNet) (rc : Receiver) (err : option RecvError) : run (RxNet * Receiver * option RxEvent) :=
  match rc_phase rc with
  | Starting =>
      match rn_sockets net with
      | Some _ => Ret (net, set_phase rc Sweeping, None)
      | None => Ret (net, set_phase rc (if rn_shutdown net then Stopped else Starting), None)
      end
  | Sweeping => Ret (net, set_phase rc (if rn_shutdown net then Stopped else Checking), None)
  | Checking => Ret (net, set_phase rc (if rn_freeze net then Acking else Polling 0), None)
  | Polling k =>
      if rc_end rc - rc_start rc <=? k then Ret (net, set_phase rc Sweeping, None)
      else
        let! p := poll_socket net rc (rc_start rc + k) err in
        let '(net, rc, go_on, e) := p in
        Ret (net, set_phase rc (if go_on : bool then Polling (S k) else Stopped), e)
  | Acking => Ret (set_flags net (rn_shutdown net) (rn_freeze net) (rn_frozen net + 1) (rn_handed_over net), set_phase rc Frozen, None)
  | Frozen => Ret (net, set_phase rc (if rn_shutdown net then Stopped else Frozen), None)
  | Stopped => Ret (net, rc, None)
  end.
End poll.

(** ** The listener *)

(** The thread of [spawn_listener]: the wait for a connection, the wait for the receivers,
    which ends after a while without them, and the sending of the sockets. *)
Inductive Listener := Accepting | Freezing | Waiting | Sending (acked : bool) | Closed.

(** [late] is that the half second is over, [ok] that a call of the system succeeds. *)
Definition listener_step (receivers : nat) (net : RxNet) (l : Listener) (late ok : bool) : RxNet * Listener :=
  match l with
  | Accepting => (net, if ok then Freezing else Closed)
  | Freezing => (set_flags net (rn_shutdown net) true (rn_frozen net) (rn_handed_over net), Waiting)
  | Waiting =>
      if rn_frozen net <? receivers then (net, if late then Sending false else Waiting) else (net, Sending true)
  | Sending _ =>
      (if ok then set_flags net (rn_shutdown net) (rn_freeze net) (rn_frozen net) true else net, Closed)
  | Closed => (net, Closed)
  end.

(** ** The passing of descriptors *)

(** Messages of at most 200 descriptors, each with their number and the number of all. The
    system delivers messages in order, each with its eight bytes and its descriptors; the
    number that a descriptor has in the other process is not told. Errors of the system are
    left out but for the end of the stream. *)
Definition FDS_PER_MSG : nat := 200.

(** [to_le_bytes] and [from_le_bytes] of four bytes. *)
Definition to_le_bytes (w : Z) : list Z := (λ i, (w / 256 ^ i) mod 256)%Z <$> [0; 1; 2; 3]%Z.
Definition from_le_bytes (bytes : list Z) : Z := foldr (λ b w, b + 256 * w)%Z 0%Z bytes.

Record FdMessage := mkFdMessage { fm_payload : list Z; fm_fds : list nat }.

Definition send_chunk (fds : list nat) (total : Z) : FdMessage :=
  mkFdMessage (to_le_bytes (as_u32 (Z.of_nat (length fds))) ++ to_le_bytes total) fds.

(** [fds.chunks(size)]. *)
Fixpoint slice_chunks (fuel size : nat) (fds : list nat) : list (list nat) :=
  match fuel, fds with
  | S fuel, _ :: _ => take size fds :: slice_chunks fuel size (drop size fds)
  | _, _ => []
  end.

Definition send_fds (fds : list nat) : list FdMessage :=
  let total := as_u32 (Z.of_nat (length fds)) in
  match fds with
  | [] => [send_chunk [] total]
  | _ => (λ chunk, send_chunk chunk total) <$> slice_chunks (length fds) FDS_PER_MSG fds
  end.

(** The control buffer has room for one message's descriptors; the system drops the rest. *)
Definition control_fds (m : FdMessage) : list nat := take FDS_PER_MSG (fm_fds m).

(** The loop of [recv_fds]: the descriptors and what is left of the stream. *)
Fixpoint recv_fds (stream : list FdMessage) (out : list nat) : option (list nat * list FdMessage) :=
  match stream with
  | [] => None
  | m :: stream' =>
      if negb (length (fm_payload m) =? 8) then None
      else
        let count := Z.to_nat (from_le_bytes (take 4 (fm_payload m))) in
        let total := Z.to_nat (from_le_bytes (drop 4 (fm_payload m))) in
        let out := if 0 <? count then out ++ control_fds m else out in
        if total <=? length out then Some (out, stream') else recv_fds stream' out
  end.

(** ** Binding *)

(** The sockets of a network can be bound, or will be taken over. *)
Definition sockets_bound (bind : string → nat → bool) (config : option GraphNetworkConfig) (takeover : bool) : Prop :=
  ∀ c i, config = Some c → takeover = false → i < net_num_sockets c → bind (net_address c) (net_start_port c + i) = true.

Lemma bind_spec bind address start_port count :
  (bind_udp_socket_range bind address start_port count = Ret (replicate count []) ∧ ∀ i, i < count → bind address (start_port + i) = true)
  ∨ (bind_udp_socket_range bind address start_port count = Panic ∧ ∃ i, i < count ∧ bind address (start_port + i) = false).
Proof.
  unfold bind_udp_socket_range. assert (Hgen : ∀ k, let m := run_imap (λ i queue, if bind address (start_port + i) then Ret queue else Panic) k (replicate count ([] : list Datagram)) in
    (m = Ret (replicate count []) ∧ ∀ i, i < count → bind address (start_port + (k + i)) = true) ∨ (m = Panic ∧ ∃ i, i < count ∧ bind address (start_port + (k + i)) = false)).
  { induction count as [|count IH]; intros k; cbn [replicate run_imap]; [left; split; [done|lia]|].
    destruct (bind address (start_port + k)) eqn:E; cbn [run_bind]; [|right; split; [done|]; exists 0; rewrite Nat.add_0_r; split; [lia|done]].
    destruct (IH (S k)) as [[-> H]|[-> (i & Hi & H)]]; cbn [run_bind].
    - left. split; [done|]. intros [|i] Hi; [by rewrite Nat.add_0_r|]. rewrite <- (H i) by lia. f_equal. lia.
    - right. split; [done|]. exists (S i). split; [lia|]. rewrite <- H. f_equal. lia. }
  apply (Hgen 0).
Qed.

Lemma prepare_spec bind config takeover shards :
  (prepare_network_infrastructure bind config takeover shards = Ret (network_infrastructure config takeover shards) ∧ sockets_bound bind config takeover)
  ∨ (prepare_network_infrastructure bind config takeover shards = Panic ∧ ¬ sockets_bound bind config takeover).
Proof.
  unfold prepare_network_infrastructure, sockets_bound. destruct config as [c|]; [|left; by split]. destruct takeover; [left; by split|].
  destruct (bind_spec bind (net_address c) (net_start_port c) (net_num_sockets c)) as [[-> H]|[-> (i & Hi & H)]]; cbn [run_bind]; [left|right]; (split; [done|]).
  - intros c' i [= <-] _. apply H.
  - intros Hall. specialize (Hall c i eq_refl eq_refl Hi). congruence.
Qed.
