(* ===== verification/Build.v ===== *)
(** The runtime handle ([runtime/mod.rs]): the configuration, the builder, the shared
    state it assembles, and the loop of [run] that waits for the end.

    A scheduler is what it answers to the questions of the builder. Which sockets can be
    bound is up to the system. Measurement, recording and the thread of the deferred reclaim
    are left out: they are off; the hook of the typed spawn path is the flag
    [sh_typed_spawn]. *)
From S2P Require Import Prelude Types GraphStruct WorkerRange Graph Buffers NodeDep NodeCache Tables DepCounter ResultMap Arena Successor Values ObjGen GraphGen GraphGenSpec Compile Unchecked Slots Exec Task Packets Resolution Receivers.
From stdpp Require Import strings sorting.
From Stdlib Require Import Sorted.

(** ** Configuration *)

Record SpinWaitConfig := mkSpinWait { sw_spin_iters : Z; sw_yield_iters : Z; sw_park_ns : Z }.
Definition SpinWaitConfig_default : SpinWaitConfig := mkSpinWait 64 256 100.

Record BatchConfig := mkBatch { bc_target_size : nat; bc_timeout_us : Z; bc_poll_spin_iters : Z; bc_flush_threshold : nat }.
Definition BatchConfig_default : BatchConfig := mkBatch 1 10 32 32.

Record RuntimeConfig := mkRuntimeConfig {
  rc_slots : nat;
  rc_max_frames : nat;
  rc_frame_timeout_ms : Z;
  rc_max_runtime : option Z;
  rc_system_threads : nat;
  rc_receiver_threads : nat;
  rc_workers : nat;
  rc_core_offset : nat;
  rc_receiver_core_offset : nat;
  rc_slot_priority_enabled : bool;
  rc_coalesce_barriers : bool;
  rc_inline_continuation : bool;
  rc_single_slot_mode : bool;
  rc_record_frame : option Z;
  rc_recv_pool_size : nat;
  rc_spin_wait : SpinWaitConfig;
  rc_batch : BatchConfig;
  rc_no_fanout_bulk : bool;
  rc_rx_decode : bool;
  rc_ingest_shards : bool;
  rc_join_stream : bool;
  rc_handover_listen : option string;
  rc_takeover : option string;
  rc_dispatch_chunk : nat;
  rc_reclaim_core : option nat;
}.

Definition RuntimeConfig_default : RuntimeConfig :=
  mkRuntimeConfig 1 1 0 None 1 0 1 0 0 false false false true None 1024 SpinWaitConfig_default BatchConfig_default
    false false false false None None 0 None.

(** What the builder asks a scheduler. *)
Record SchedulerInfo := mkSchedulerInfo {
  sch_workers : nat;
  sch_core_offset : nat;
  sch_system_threads : nat;
  sch_receiver_core_offset : nat;
  sch_receiver_threads : nat;
  sch_has_typed_spawn : bool;
}.

(** The resolved configuration: the slots as clamped, the threads of the scheduler, and
    the mode that follows from the slots. *)
Definition resolve_config (c : RuntimeConfig) (slots : nat) (s : SchedulerInfo) : RuntimeConfig :=
  mkRuntimeConfig slots (rc_max_frames c) (rc_frame_timeout_ms c) (rc_max_runtime c) (sch_system_threads s)
    (sch_receiver_threads s) (sch_workers s) (sch_core_offset s) (sch_receiver_core_offset s)
    (rc_slot_priority_enabled c) (rc_coalesce_barriers c) (rc_inline_continuation c) (slots =? 1) (rc_record_frame c)
    (rc_recv_pool_size c) (rc_spin_wait c) (rc_batch c) (rc_no_fanout_bulk c) (rc_rx_decode c) (rc_ingest_shards c)
    (rc_join_stream c) (rc_handover_listen c) (rc_takeover c) (rc_dispatch_chunk c) (rc_reclaim_core c).

(** The parts of the configuration that the loops read. *)
Definition slot_config (c : RuntimeConfig) : SlotConfig :=
  mkSlotConfig (rc_slots c) (Z.of_nat (rc_max_frames c)) (rc_workers c) (rc_slot_priority_enabled c).
Definition exec_config (c : RuntimeConfig) : ExecConfig :=
  mkExecConfig (rc_workers c) (rc_coalesce_barriers c) (rc_inline_continuation c) (rc_single_slot_mode c)
    (rc_no_fanout_bulk c) (bc_flush_threshold (rc_batch c)).

(** ** The builder *)

(** [MAX_SLOTS]. *)
Definition MAX_SLOTS : nat := 64.

(** [BuildError::InvalidConfig], with the cause instead of its text. *)
Inductive BuildError :=
  | NoSlots
  | TooManySlots (slots : nat)
  | NoFrames
  | NoQueueCapacity
  | NoReceiverThreads.

Record TomiiRtBuilder := mkBuilder {
  tb_compiled : GraphCompiled;
  tb_scheduler : SchedulerInfo;
  tb_config : RuntimeConfig;
  tb_batch_queue_capacity : Z;
}.

(** [with_config] and [new] ([new_with_plugin] is the same with another scheduler). *)
Definition TomiiRtBuilder_with_config (compiled : GraphCompiled) (scheduler : SchedulerInfo) (config : RuntimeConfig)
    : TomiiRtBuilder := mkBuilder compiled scheduler config 65536.
Definition TomiiRtBuilder_new (compiled : GraphCompiled) (scheduler : SchedulerInfo) : TomiiRtBuilder :=
  TomiiRtBuilder_with_config compiled scheduler RuntimeConfig_default.

Definition check_receiver_threads (has_network : bool) (receiver_threads : nat) : result unit BuildError :=
  if has_network && (receiver_threads =? 0) then RErr NoReceiverThreads else ROk tt.

(** [SharedData]: the compiled graph, the configuration and the state of the loops. *)
Record SharedData := mkShared {
  sh_graph : Graph;
  sh_node_cache : list NodeCacheEntry;
  sh_successor_arena : SuccessorArena;
  sh_tables : Routing;
  sh_total_tasks : nat;
  sh_total_cond_tasks : nat;
  sh_init_objects : Objects;
  sh_config : RuntimeConfig;
  sh_system : System MultiThreadedCounter;
  sh_ingest_shards : nat;
  sh_net : RxNet;
  sh_typed_spawn : bool;
}.

(** The checks at the head of [build], in order. *)
Definition check_config (b : TomiiRtBuilder) (slots : nat) : result unit BuildError :=
  if slots <? 1 then RErr NoSlots
  else if MAX_SLOTS <? slots then RErr (TooManySlots slots)
  else if rc_max_frames (tb_config b) <? 1 then RErr NoFrames
  else if (tb_batch_queue_capacity b =? 0)%Z then RErr NoQueueCapacity
  else check_receiver_threads (is_some (g_network_config (gc_graph (tb_compiled b)))) (rc_receiver_threads (tb_config b)).

(** The state of reception of a new runtime; a runtime that joins a stream does not know
    yet where it begins. *)
Definition initial_net (c : RuntimeConfig) (slots : nat) : NetState :=
  mkNet 0 (replicate slots 0%Z) 0 false (if rc_join_stream c || is_some (rc_takeover c) then usize_max else 0%Z).

Definition initial_ingress (max_frames slots : nat) : Ingress :=
  mkIngress (replicate (max_frames + slots) false) 0 [] 0 0.

(** [build]; [bind] tells which sockets can be bound, [unchecked_disabled] is the environment
    switch of the unchecked wrappers. *)
Definition build `{FuncReg} (bind : string → nat → bool) (unchecked_disabled : bool) (b : TomiiRtBuilder) : run (result SharedData BuildError) :=
  let slots := Nat.min (rc_slots (tb_config b)) (rc_max_frames (tb_config b)) in
  let c := tb_compiled b in
  match check_config b slots with
  | RErr e => Ret (RErr e)
  | ROk _ =>
      let! node_cache := select_unchecked_wrappers unchecked_disabled (gc_node_cache c) (pred_group_by (gc_tables c)) in
      let config := resolve_config (tb_config b) slots (tb_scheduler b) in
      let system_threads := rc_system_threads config in
      let! resolution_state := MultiThreadedCounter_new slots (gc_dependency_count_vec c) (g_nodes (gc_graph c)) in
      let shards := ingest_shards (rc_ingest_shards config) system_threads in
      let! net := prepare_network_infrastructure bind (g_network_config (gc_graph c)) (is_some (rc_takeover config)) shards in
      let rt := mkRuntime (SlotData_new slots (build_slot_counters slots node_cache)) resolution_state
                  (ResultMap_new (g_nodes (gc_graph c)) (slots + system_threads + 1)) 0 in
      let system := mkSystem (mkExecState rt [] [] 0) (initial_ingress (rc_max_frames config) slots) (initial_net config slots) in
      Ret (ROk (mkShared (gc_graph c) node_cache (gc_successor_arena c) (gc_tables c) (gc_total_tasks c)
                  (gc_total_cond_tasks c) (gc_init_objects c) config system
                  shards net (sch_has_typed_spawn (tb_scheduler b))))
  end.

(** ** The loop of [run] *)

(** [RunProgress]; times in nanoseconds. *)
Record RunProgress := mkProgress {
  pg_elapsed : Z;
  pg_frames_completed : Z;
  pg_max_frames : nat;
  pg_active_slots : nat;
  pg_stale_drops : Z;
}.

(** What a turn of the loop finds: the time since the start, whether the sockets have been
    handed over, the state of the runtime, the packets in its channels, and the caller's
    predicate as it is then. *)
Record Look := mkLook {
  lk_elapsed : Z;
  lk_handed_over : bool;
  lk_system : System MultiThreadedCounter;
  lk_packets : list PacketMessage;
  lk_shards : list (list PacketMessage);
  lk_predicate : option (RunProgress → bool);
}.

Definition RUN_POLL : Z := 10000000.
Definition HANDOVER_QUIET : Z := 20000000.
Definition HANDOVER_POLL : Z := 1000000.

Definition is_empty {A} (l : list A) : bool := match l with [] => true | _ => false end.
Definition count_ones (w : Z) : nat := length (filter (λ i, Z.testbit w (Z.of_nat i) = true) (range 0 64)).

(** [handover_drained]. *)
Definition handover_drained (config : RuntimeConfig) (l : Look) : run bool :=
  let s := lk_system l in
  let d := rt_slots (sys_rt s) in
  let frame_packets := nt_frame_packets (sys_net s) in
  if (frame_packets =? 0) || negb (is_empty (lk_packets l)) || existsb (λ q, negb (is_empty q)) (lk_shards l)
     || negb (in_pending_count (sys_ingress s) =? 0)%Z then Ret false
  else
    allM (λ slot, run_map (λ n, n <? Z.of_nat frame_packets)%Z (vec_get (sd_packet_counters d) slot))
      (filter (λ slot, Z.testbit (sd_active_bitmap d) (Z.of_nat slot) = true) (range 0 (rc_slots config))).

(** One turn: whether the run is over, and the frames completed when that number last
    changed, with the time, once the sockets are handed over. *)
Definition run_tick (config : RuntimeConfig) (handover_quiet : option (Z * Z)) (l : Look) : run (bool * option (Z * Z)) :=
  let s := lk_system l in
  let completed_frames := rt_frame_complete_counter (sys_rt s) in
  let max_runtime_exceeded := match rc_max_runtime config with Some max => (max <? lk_elapsed l / 1000000000)%Z | None => false end in
  let! (finish, quiet) :=
    if max_runtime_exceeded then Ret (true, handover_quiet)
    else if (completed_frames =? Z.of_nat (rc_max_frames config))%Z then Ret (true, handover_quiet)
    else if lk_handed_over l then
      let! drained := handover_drained config l in
      if drained : bool then Ret (true, handover_quiet)
      else match handover_quiet with
           | Some (n, since) => if (n =? completed_frames)%Z then Ret ((HANDOVER_QUIET <=? lk_elapsed l - since)%Z, handover_quiet)
                                else Ret (false, Some (completed_frames, lk_elapsed l))
           | None => Ret (false, Some (completed_frames, lk_elapsed l))
           end
    else Ret (false, handover_quiet) in
  let asked := match lk_predicate l with
               | Some pred => pred (mkProgress (lk_elapsed l) completed_frames (rc_max_frames config)
                                      (count_ones (sd_active_bitmap (rt_slots (sys_rt s)))) (es_dropped (sys_exec s)))
               | None => false
               end in
  Ret (finish || asked, quiet).

(** The loop, over the turns it takes: the first at which it ends. *)
Fixpoint run_wait (config : RuntimeConfig) (handover_quiet : option (Z * Z)) (looks : list Look) : run (option Look) :=
  match looks with
  | [] => Ret None
  | l :: looks =>
      let! (finish, quiet) := run_tick config handover_quiet l in
      if finish : bool then Ret (Some l) else run_wait config quiet looks
  end.

(** Whether [run_impl] waits in its loop at all. *)
Definition run_polls (config : RuntimeConfig) (has_predicate : bool) : bool :=
  is_some (rc_max_runtime config) || has_predicate || is_some (rc_handover_listen config).

(** How a run ends. *)
Inductive RunEnd :=
  | Waiting
  | Joined (shutdown : bool) (post_nodes : list Node).

(** [run_impl] between the start of the threads and their end: with the loop, its end
    raises the shutdown flag and runs the post-nodes; without, the threads of the
    resolution are joined, which end by themselves when all frames are complete. *)
Definition run_impl (sh : SharedData) (has_predicate : bool) (looks : list Look) : run RunEnd :=
  if run_polls (sh_config sh) has_predicate then
    let! over := run_wait (sh_config sh) None looks in
    Ret (match over with Some _ => Joined true (default [] (g_post_nodes (sh_graph sh))) | None => Waiting end)
  else Ret (Joined false []).

(** ** Building *)

Lemma counter_total slots deps nodes : length deps = length nodes → ∃ c, MultiThreadedCounter_new slots deps nodes = Ret c.
Proof.
  intros Hlen. unfold MultiThreadedCounter_new, NodeDepMap_new. destruct (slots =? 0); [by eexists|].
  destruct (run_imap_total (λ node_id node, let! total_deps := vec_get deps node_id in Ret (new_entry node total_deps)) 0 nodes) as [es ->].
  { intros i node Hi. apply lookup_lt_Some in Hi. rewrite <- Hlen in Hi. destruct (vec_get_lt deps i Hi) as (n & Hn & _). cbn. rewrite Hn. by eexists. }
  by eexists.
Qed.

(** What [build] needs of a compiled graph. *)
Definition buildable (gc : GraphCompiled) : Prop :=
  Forall results_recorded (gc_node_cache gc) ∧ length (gc_dependency_count_vec gc) = length (g_nodes (gc_graph gc)).

Section build.
Context `{FuncReg}.

Lemma compile_buildable `{AffinityLookup} spec td r1 gc : graph_wf (spec_graph spec) → preds_exist (spec_graph spec) →
  compilable (spec_graph spec) (spec_init_objects spec) → (Z.of_nat (nat_sum (length <$> g_successors (spec_graph spec))) < two32)%Z →
  compile td r1 spec = Ret gc → buildable gc.
Proof.
  intros Hwf Hex Hco Hfit Hc. destruct (compile_ok spec td r1 Hwf Hex Hco Hfit) as (gc' & Hc' & Hg & _ & _ & Hal & _ & _ & Hd & _).
  rewrite Hc in Hc'. injection Hc' as <-. split.
  - apply Forall_lookup. intros s e He. destruct (along_node _ _ _ _ _ Hal He) as (node & Hs & Hok).
    destruct (String.eqb (n_name node) "$network") eqn:Hn; [|destruct (eo_args _ _ _ _ _ Hok Hn) as (c & preds & rps & H1 & H2 & H3);
      unfold results_recorded; rewrite H3; cbn; by eapply recorded_ok].
    by unfold results_recorded; rewrite (eo_net _ _ _ _ _ Hok Hn).
  - rewrite Hg. destruct (dependency_counts_total _ Hex) as (deps & Hd' & Hl). rewrite Hd in Hd'. by injection Hd' as <-.
Qed.

(** What the checks at the head find. *)
Lemma check_config_spec b slots :
  match check_config b slots with
  | ROk _ => 1 ≤ slots ≤ 64 ∧ 1 ≤ rc_max_frames (tb_config b) ∧ tb_batch_queue_capacity b ≠ 0%Z
             ∧ (g_network_config (gc_graph (tb_compiled b)) = None ∨ rc_receiver_threads (tb_config b) ≠ 0)
  | RErr NoSlots => slots = 0
  | RErr (TooManySlots n) => n = slots ∧ 64 < slots
  | RErr NoFrames => 1 ≤ slots ∧ rc_max_frames (tb_config b) = 0
  | RErr NoQueueCapacity => 1 ≤ slots ≤ 64 ∧ tb_batch_queue_capacity b = 0%Z
  | RErr NoReceiverThreads => 1 ≤ slots ≤ 64 ∧ tb_batch_queue_capacity b ≠ 0%Z
             ∧ g_network_config (gc_graph (tb_compiled b)) ≠ None ∧ rc_receiver_threads (tb_config b) = 0
  end.
Proof.
  unfold check_config, check_receiver_threads, MAX_SLOTS.
  destruct (slots <? 1) eqn:H1; [apply Nat.ltb_lt in H1; lia|apply Nat.ltb_ge in H1].
  destruct (64 <? slots) eqn:H2; [apply Nat.ltb_lt in H2; auto|apply Nat.ltb_ge in H2].
  destruct (rc_max_frames (tb_config b) <? 1) eqn:H3; [apply Nat.ltb_lt in H3; lia|apply Nat.ltb_ge in H3].
  destruct (tb_batch_queue_capacity b =? 0)%Z eqn:H4; [apply Z.eqb_eq in H4; auto|apply Z.eqb_neq in H4].
  destruct (g_network_config (gc_graph (tb_compiled b))) as [nc|]; cbn [is_some andb]; [|by auto 6].
  destruct (rc_receiver_threads (tb_config b) =? 0) eqn:H5; [apply Nat.eqb_eq in H5|apply Nat.eqb_neq in H5]; auto 6.
Qed.

Lemma build_ok bind d b : buildable (tb_compiled b) →
  let slots := Nat.min (rc_slots (tb_config b)) (rc_max_frames (tb_config b)) in
  check_config b slots = ROk tt → sockets_bound bind (g_network_config (gc_graph (tb_compiled b))) (is_some (rc_takeover (tb_config b))) →
  ∃ sh cache' c, build bind d b = Ret (ROk sh)
    ∧ select_unchecked_wrappers d (gc_node_cache (tb_compiled b)) (pred_group_by (gc_tables (tb_compiled b))) = Ret cache'
    ∧ Forall2 (selected (gc_node_cache (tb_compiled b)) (pred_group_by (gc_tables (tb_compiled b)))) (gc_node_cache (tb_compiled b)) cache'
    ∧ MultiThreadedCounter_new slots (gc_dependency_count_vec (tb_compiled b)) (g_nodes (gc_graph (tb_compiled b))) = Ret c
    ∧ sh_graph sh = gc_graph (tb_compiled b) ∧ sh_node_cache sh = cache' ∧ sh_successor_arena sh = gc_successor_arena (tb_compiled b)
    ∧ sh_tables sh = gc_tables (tb_compiled b) ∧ sh_init_objects sh = gc_init_objects (tb_compiled b)
    ∧ sh_config sh = resolve_config (tb_config b) slots (tb_scheduler b)
    ∧ sh_net sh = network_infrastructure (g_network_config (gc_graph (tb_compiled b))) (is_some (rc_takeover (tb_config b))) (sh_ingest_shards sh)
    ∧ sh_system sh = mkSystem (mkExecState (mkRuntime (SlotData_new slots (build_slot_counters slots cache')) c
          (ResultMap_new (g_nodes (gc_graph (tb_compiled b))) (slots + sch_system_threads (tb_scheduler b) + 1)) 0) [] [] 0)
        (initial_ingress (rc_max_frames (tb_config b)) slots) (initial_net (sh_config sh) slots).
Proof.
  intros [Hrec Hlen] slots Hcheck Hbind. unfold build. fold slots. rewrite Hcheck.
  destruct (select_ok d (gc_node_cache (tb_compiled b)) (pred_group_by (gc_tables (tb_compiled b))) Hrec) as (cache' & Hsel & Hs).
  rewrite Hsel. cbn [run_bind]. destruct (counter_total slots _ _ Hlen) as [c Hc]. rewrite Hc. cbn [run_bind].
  destruct (prepare_spec bind (g_network_config (gc_graph (tb_compiled b))) (is_some (rc_takeover (tb_config b)))
    (ingest_shards (rc_ingest_shards (tb_config b)) (sch_system_threads (tb_scheduler b)))) as [[Hp _]|[_ Hno]]; [|done].
  cbn [resolve_config rc_ingest_shards rc_takeover rc_system_threads]. rewrite Hp. cbn [run_bind].
  do 3 eexists. split; [done|]. by split_and!.
Qed.

(** Building panics at a socket that cannot be bound. *)
Lemma build_unbound bind d b : buildable (tb_compiled b) →
  let slots := Nat.min (rc_slots (tb_config b)) (rc_max_frames (tb_config b)) in
  check_config b slots = ROk tt → ¬ sockets_bound bind (g_network_config (gc_graph (tb_compiled b))) (is_some (rc_takeover (tb_config b))) →
  build bind d b = Panic.
Proof.
  intros [Hrec Hlen] slots Hcheck Hbind. unfold build. fold slots. rewrite Hcheck.
  destruct (select_ok d (gc_node_cache (tb_compiled b)) (pred_group_by (gc_tables (tb_compiled b))) Hrec) as (cache' & -> & _).
  cbn [run_bind]. destruct (counter_total slots _ _ Hlen) as [c ->]. cbn [run_bind].
  destruct (prepare_spec bind (g_network_config (gc_graph (tb_compiled b))) (is_some (rc_takeover (tb_config b)))
    (ingest_shards (rc_ingest_shards (tb_config b)) (sch_system_threads (tb_scheduler b)))) as [[_ Hb]|[Hp _]]; [done|].
  cbn [resolve_config rc_ingest_shards rc_takeover rc_system_threads]. by rewrite Hp.
Qed.

(** The selection of wrappers keeps the number of tasks. *)
Lemma selected_total cache groups cache' : Forall2 (selected cache groups) cache cache' → total_tasks cache' = total_tasks cache.
Proof.
  intros Hs. unfold total_tasks. f_equal. revert Hs. generalize cache at 1 as all. intros all Hs. induction Hs as [|e e' l l' He _ IH]; [done|].
  apply selected_fields in He as (Hf & Hcond & _). rewrite !filter_cons, Hcond.
  destruct (decide (ce_is_condition e = false)); cbn; by rewrite ?Hf, ?IH.
Qed.

(** C14. Building a compiled graph, with measurement, recording and deferred reclaim off. With
    the slots clamped to the number of frames, it succeeds exactly when there are 1 to 64 slots,
    the completion queue has room, a graph with a network has receiver threads in the
    configuration, and its sockets can be bound or are to be taken over. If only the last is
    missing, it panics; else the error names the first of these that fails, and that there are no
    frames is always reported as no slots. The runtime has the clamped slots and the threads of
    the scheduler, runs in single slot mode exactly with one slot, has its sockets bound and
    empty unless they are to be taken over, and begins with every slot inactive and with all
    tasks pending, nothing scheduled and nothing counted. *)
Theorem build_spec bind d b (Hb : buildable (tb_compiled b)) :
  let slots := Nat.min (rc_slots (tb_config b)) (rc_max_frames (tb_config b)) in
  let network := g_network_config (gc_graph (tb_compiled b)) in
  match build bind d b with
  | Ret (ROk sh) => 1 ≤ slots ≤ 64 ∧ tb_batch_queue_capacity b ≠ 0%Z
      ∧ (network = None ∨ rc_receiver_threads (tb_config b) ≠ 0)
      ∧ (∀ c i, network = Some c → rc_takeover (tb_config b) = None → i < net_num_sockets c → bind (net_address c) (net_start_port c + i) = true)
      ∧ sh_graph sh = gc_graph (tb_compiled b)
      ∧ rc_slots (sh_config sh) = slots ∧ rc_workers (sh_config sh) = sch_workers (tb_scheduler b)
      ∧ rc_receiver_threads (sh_config sh) = sch_receiver_threads (tb_scheduler b)
      ∧ (rc_single_slot_mode (sh_config sh) = true ↔ slots = 1)
      ∧ (∀ c, network = Some c → rn_sockets (sh_net sh) = if is_some (rc_takeover (tb_config b)) then None else Some (replicate (net_num_sockets c) []))
      ∧ rt_slots (sys_rt (sh_system sh)) = SlotData_new slots (build_slot_counters slots (sh_node_cache sh))
      ∧ sd_pending_tasks (rt_slots (sys_rt (sh_system sh))) = replicate slots (Z.of_nat (total_tasks (gc_node_cache (tb_compiled b))))
      ∧ es_scheduled (sys_exec (sh_system sh)) = [] ∧ rt_frame_complete_counter (sys_rt (sh_system sh)) = 0%Z
  | Panic => 1 ≤ slots ≤ 64 ∧ tb_batch_queue_capacity b ≠ 0%Z ∧ rc_receiver_threads (tb_config b) ≠ 0 ∧ rc_takeover (tb_config b) = None
      ∧ ∃ c, network = Some c ∧ ¬ ∀ i, i < net_num_sockets c → bind (net_address c) (net_start_port c + i) = true
  | Ret (RErr NoSlots) => slots = 0
  | Ret (RErr (TooManySlots n)) => n = slots ∧ 64 < slots
  | Ret (RErr NoFrames) => False
  | Ret (RErr NoQueueCapacity) => 1 ≤ slots ≤ 64 ∧ tb_batch_queue_capacity b = 0%Z
  | Ret (RErr NoReceiverThreads) => 1 ≤ slots ≤ 64 ∧ tb_batch_queue_capacity b ≠ 0%Z ∧ network ≠ None ∧ rc_receiver_threads (tb_config b) = 0
  end.
Proof.
  intros slots network. pose proof (check_config_spec b slots) as Hcheck. destruct (check_config b slots) as [[]|e] eqn:Hc.
  2:{ assert (Hbuild : build bind d b = Ret (RErr e)) by (unfold build; fold slots; by rewrite Hc). rewrite Hbuild. destruct e; try done. lia. }
  destruct Hcheck as (H1 & _ & H3 & H4).
  destruct (prepare_spec bind network (is_some (rc_takeover (tb_config b))) 0) as [[_ Hbound]|[_ Hno]].
  - destruct (build_ok bind d b Hb Hc Hbound) as (sh & cache' & c & Hbuild & _ & Hs & _ & Hg & Hcache & _ & _ & _ & Hconf & Hnet & Hsys).
    rewrite Hbuild, Hg, Hconf, Hsys, Hcache. pose proof (selected_total _ _ _ Hs) as Htot.
    do 3 (split; [done|]). split; [intros n i Hn Htk; apply Hbound; [done|by rewrite Htk]|]. do 4 (split; [done|]).
    split; [exact (Nat.eqb_eq slots 1)|]. split; [intros n Hn; rewrite Hnet; fold network; by rewrite Hn|].
    split; [done|]. split; [|done]. cbn. by rewrite fmap_replicate, Htot.
  - rewrite (build_unbound bind d b Hb Hc Hno). do 2 (split; [done|]). unfold sockets_bound in Hno.
    destruct network as [n|] eqn:Hn; [|by destruct Hno]. destruct (rc_takeover (tb_config b)); [by destruct Hno|].
    split; [destruct H4 as [H4|H4]; [by rewrite (H4 : network = None) in Hn|exact H4]|]. split; [done|]. exists n. split; [done|]. intros Hall. apply Hno. intros c i [= <-] _. apply Hall.
Qed.

(** A network graph is refused by every builder that [new] makes, however many receiver
    threads its scheduler has. *)
Lemma new_rejects_network bind d gc sch nc : g_network_config (gc_graph gc) = Some nc →
  build bind d (TomiiRtBuilder_new gc sch) = Ret (RErr NoReceiverThreads).
Proof. intros Hn. unfold build, check_config. cbn. by rewrite Hn. Qed.
End build.

(** ** How the loop of [run] ends *)

Section waiting.
Context (config : RuntimeConfig).

Definition frames_completed (l : Look) : Z := rt_frame_complete_counter (sys_rt (lk_system l)).
Definition deadline_passed (l : Look) : bool :=
  match rc_max_runtime config with Some max => (max <? lk_elapsed l / 1000000000)%Z | None => false end.
Definition all_completed (l : Look) : bool := (frames_completed l =? Z.of_nat (rc_max_frames config))%Z.
Definition progress_of (l : Look) : RunProgress :=
  mkProgress (lk_elapsed l) (frames_completed l) (rc_max_frames config)
    (count_ones (sd_active_bitmap (rt_slots (sys_rt (lk_system l))))) (es_dropped (sys_exec (lk_system l))).
Definition asked_to_end (l : Look) : bool := match lk_predicate l with Some pred => pred (progress_of l) | None => false end.

(** The counters of the slots are there. *)
Definition look_ok (l : Look) : Prop := rc_slots config ≤ length (sd_packet_counters (rt_slots (sys_rt (lk_system l)))).

Lemma drained_total l : look_ok l → ∃ b, handover_drained config l = Ret b.
Proof.
  intros Hok. unfold handover_drained. destruct (_ || _); [by eexists|].
  destruct (allM_Ret (λ slot, run_map (λ n, n <? Z.of_nat (nt_frame_packets (sys_net (lk_system l))))%Z
    (vec_get (sd_packet_counters (rt_slots (sys_rt (lk_system l)))) slot))
    (filter (λ slot, Z.testbit (sd_active_bitmap (rt_slots (sys_rt (lk_system l)))) (Z.of_nat slot) = true) (range 0 (rc_slots config))))
    as (b & Hb & _); [|by exists b].
  intros slot [_ Hs%elem_of_range]%list_elem_of_filter. unfold look_ok in Hok.
  destruct (vec_get_lt (sd_packet_counters (rt_slots (sys_rt (lk_system l)))) slot) as (n & -> & _); [lia|]. by eexists.
Qed.

(** A turn, by cases. *)
Lemma run_tick_cases quiet l : look_ok l → ∃ finish quiet', run_tick config quiet l = Ret (finish, quiet')
  ∧ (deadline_passed l || all_completed l || asked_to_end l = true → finish = true)
  ∧ (finish = true → deadline_passed l || all_completed l || asked_to_end l = true ∨ lk_handed_over l = true
       ∧ (handover_drained config l = Ret true ∨ ∃ since, quiet = Some (frames_completed l, since) ∧ (HANDOVER_QUIET ≤ lk_elapsed l - since)%Z))
  ∧ (finish = false → lk_handed_over l = true →
       (∃ since, quiet = Some (frames_completed l, since) ∧ quiet' = quiet ∧ (lk_elapsed l - since < HANDOVER_QUIET)%Z)
       ∨ (∀ since, quiet ≠ Some (frames_completed l, since)) ∧ quiet' = Some (frames_completed l, lk_elapsed l))
  ∧ (quiet' = quiet ∨ quiet' = Some (frames_completed l, lk_elapsed l)).
Proof.
  intros Hok. unfold run_tick. fold (frames_completed l). fold (deadline_passed l). fold (all_completed l).
  change (match lk_predicate l with Some pred => pred (mkProgress _ _ _ _ _) | None => false end) with (asked_to_end l).
  destruct (drained_total l Hok) as [b Hb].
  destruct (deadline_passed l); cbn [run_bind]; [do 2 eexists; split; [done|]; cbn [orb]; split_and!; auto; done|].
  destruct (all_completed l); cbn [run_bind]; [do 2 eexists; split; [done|]; cbn [orb]; split_and!; auto; done|].
  destruct (lk_handed_over l); cbn [run_bind orb].
  2:{ do 2 eexists. split; [done|]. split_and!; auto; done. }
  rewrite Hb. cbn [run_bind]. destruct b; cbn [run_bind].
  { do 2 eexists. split; [done|]. cbn [orb]. split_and!; auto; done. }
  destruct quiet as [[n since]|]; cbn [run_bind].
  2:{ do 2 eexists. split; [done|]. cbn [orb]. split_and!; auto; intros _ _; by right. }
  destruct (n =? frames_completed l)%Z eqn:Hn; cbn [run_bind].
  - apply Z.eqb_eq in Hn as ->. do 2 eexists. split; [done|]. split; [|split; [|split; [|by left]]].
    + intros ->. by rewrite orb_true_r.
    + intros [Hq%Z.leb_le| ->]%orb_true_iff; [right; split; [done|]; right; by exists since|by left].
    + intros [Hq%Z.leb_gt _]%orb_false_iff _. left. by exists since.
  - apply Z.eqb_neq in Hn. do 2 eexists. split; [done|]. cbn [orb]. split_and!; auto; intros _ _; right; split; [|done]; by intros since' [= ? _].
Qed.

Lemma run_wait_total looks : Forall look_ok looks → ∀ quiet, ∃ o, run_wait config quiet looks = Ret o
  ∧ (∀ l, o = Some l → l ∈ looks)
  ∧ ∀ l, l ∈ looks → deadline_passed l || all_completed l || asked_to_end l = true → is_Some o.
Proof.
  induction 1 as [|l looks Hl _ IH]; intros quiet; cbn [run_wait]; [exists None; split_and!; [done..|by intros ? ?%not_elem_of_nil]|].
  destruct (run_tick_cases quiet l Hl) as (finish & quiet' & -> & Hend & _). cbn [run_bind]. destruct finish.
  - exists (Some l). split; [done|]. split; [intros l' [= <-]; left|by eexists].
  - destruct (IH quiet') as (o & Ho & Hin & Hsome). exists o. split; [done|]. split; [intros l' ->; right; by apply Hin|].
    intros l' [->|Hl']%elem_of_cons Hr; [by specialize (Hend Hr)|by eapply Hsome].
Qed.

(** From the time the count is on record, the loop ends when that is long enough ago. *)
Lemma quiet_ends n since looks l2 : Forall look_ok (looks ++ [l2]) →
  Forall (λ l, lk_handed_over l = true ∧ frames_completed l = n) (looks ++ [l2]) → (HANDOVER_QUIET ≤ lk_elapsed l2 - since)%Z →
  ∃ l, run_wait config (Some (n, since)) (looks ++ [l2]) = Ret (Some l).
Proof.
  induction looks as [|l looks IH]; cbn [app]; intros Hok Hall Hq;
    apply Forall_cons in Hok as [Hl Hok]; apply Forall_cons in Hall as [[Hh <-] Hall]; cbn [run_wait];
    [destruct (run_tick_cases (Some (frames_completed l2, since)) l2 Hl) as (finish & quiet' & -> & _ & _ & Hon & _)
    |destruct (run_tick_cases (Some (frames_completed l, since)) l Hl) as (finish & quiet' & -> & _ & _ & Hon & _)];
    cbn [run_bind]; (destruct finish; [by eexists|]); destruct (Hon eq_refl Hh) as [(since' & [= <-] & -> & Hlt)|[Hno _]];
    try (by specialize (Hno since)); [lia|by apply IH].
Qed.

Lemma run_wait_app looks looks' : Forall look_ok looks → ∀ quiet,
  (∃ l, run_wait config quiet (looks ++ looks') = Ret (Some l)) ∨ ∃ quiet', run_wait config quiet (looks ++ looks') = run_wait config quiet' looks'
    ∧ (quiet' = quiet ∨ ∃ l, l ∈ looks ∧ quiet' = Some (frames_completed l, lk_elapsed l)).
Proof.
  induction 1 as [|l looks Hl _ IH]; intros quiet; cbn [app run_wait]; [right; exists quiet; auto|].
  destruct (run_tick_cases quiet l Hl) as (finish & q & -> & _ & _ & _ & Hq). cbn [run_bind]. destruct finish; [left; by eexists|].
  destruct (IH q) as [?|(q' & Hw & Hq')]; [by left|right]. exists q'. split; [done|].
  destruct Hq' as [-> |(l' & ? & ->)]; [|right; exists l'; split; [by right|done]]. destruct Hq as [-> | ->]; [by left|].
  right. exists l. split; [left|done].
Qed.

(** When neither the deadline, nor a handover, nor the predicate ends it, the loop ends
    at the first look that finds all frames complete. *)
Lemma run_wait_first quiet looks :
  Forall (λ l, deadline_passed l = false ∧ lk_handed_over l = false ∧ asked_to_end l = false) looks →
  run_wait config quiet looks = Ret (head (filter (λ l, all_completed l = true) looks)).
Proof.
  induction 1 as [|l looks (H1 & H2 & H3) _ IH]; cbn [run_wait]; [done|].
  assert (Ht : run_tick config quiet l = Ret (all_completed l, quiet)).
  { unfold run_tick. fold (frames_completed l). fold (deadline_passed l). fold (all_completed l).
    change (match lk_predicate l with Some pred => pred (mkProgress _ _ _ _ _) | None => false end) with (asked_to_end l).
    rewrite H1, H2, H3. by destruct (all_completed l). }
  rewrite Ht, filter_cons. cbn [run_bind]. by destruct (all_completed l).
Qed.

(** C15. The loop in which [run] waits, where the packet counters of all slots exist. It does
    not panic. It ends at the latest at the first look at which the deadline has passed, the
    number of completed frames is equal to the number asked for, or the caller's predicate holds
    (a count that has gone past that number is no reason); and after a handover, at the latest
    when looks that follow one another over twenty milliseconds have found the same number of
    completed frames. It ends at a look it takes, and a run whose loop ends raises the shutdown
    flag and has its post-nodes run; a run without a deadline, a predicate or a handover
    listener does not wait in the loop, and its post-nodes do not run. *)
Theorem run_wait_ends (sh : SharedData) (has_predicate : bool) (looks : list Look) (Hsh : sh_config sh = config)
    (Hok : Forall look_ok looks) :
  (∀ l, l ∈ looks → deadline_passed l || all_completed l || asked_to_end l = true →
     run_polls config has_predicate = true → run_impl sh has_predicate looks = Ret (Joined true (default [] (g_post_nodes (sh_graph sh)))))
  ∧ (∀ before l1 between l2, looks = before ++ l1 :: between ++ [l2] → StronglySorted Z.le (lk_elapsed <$> looks) →
     Forall (λ l, lk_handed_over l = true ∧ frames_completed l = frames_completed l1) (l1 :: between ++ [l2]) →
     (HANDOVER_QUIET ≤ lk_elapsed l2 - lk_elapsed l1)%Z → ∃ l, run_wait config None looks = Ret (Some l))
  ∧ (∀ l, run_wait config None looks = Ret (Some l) → l ∈ looks)
  ∧ (run_polls config has_predicate = false → run_impl sh has_predicate looks = Ret (Joined false [])).
Proof.
  destruct (run_wait_total looks Hok None) as (o & Ho & Hin & Hsome). split; [|split; [|split]].
  - intros l Hl Hr Hp. destruct (Hsome l Hl Hr) as [l' ->]. unfold run_impl. by rewrite Hsh, Hp, Ho.
  - intros before l1 between l2 -> Hsort Hall Hq. apply Forall_app in Hok as [Hb Ht].
    destruct (run_wait_app before (l1 :: between ++ [l2]) Hb None) as [?|(quiet & -> & Hquiet)]; [done|].
    apply Forall_cons in Ht as [Hl1 Ht]. apply Forall_cons in Hall as [[Hh _] Hall]. cbn [run_wait].
    destruct (run_tick_cases quiet l1 Hl1) as (finish & q & -> & _ & _ & Hon & _). cbn [run_bind]. destruct finish; [by eexists|].
    destruct (Hon eq_refl Hh) as [(since & -> & -> & _)|[_ ->]]; apply quiet_ends; try done.
    destruct Hquiet as [|(l & Hl & [= _ ->])]; [done|].
    assert (lk_elapsed l ≤ lk_elapsed l1)%Z; [|lia]. rewrite fmap_app in Hsort. cbn [fmap list_fmap] in Hsort.
    apply StronglySorted_app in Hsort as (Hle & _). apply Hle; [by apply list_elem_of_fmap_2|left].
  - intros l Hl. rewrite Ho in Hl. injection Hl as ->. by apply Hin.
  - intros Hp. unfold run_impl. by rewrite Hsh, Hp.
Qed.
End waiting.

(** ** The file of squares, built *)

#[local] Existing Instance no_json.
#[local] Existing Instance len_funcs.
#[local] Existing Instance no_affinity.

Definition squares_compiled : GraphCompiled :=
  match compile false true squares_spec with
  | Ret gc => gc
  | Panic => mkCompiled Graph_new [] (mkArena [] []) (mkRouting [] [] []) 0 0 [] [] 0 0
  end.
Definition squares_scheduler : SchedulerInfo := mkSchedulerInfo 3 1 1 0 0 true.
Definition squares_builder : TomiiRtBuilder := TomiiRtBuilder_new squares_compiled squares_scheduler.

Lemma squares_compile : compile false true squares_spec = Ret squares_compiled.
Proof. by vm_compute. Qed.

Lemma squares_buildable : buildable (tb_compiled squares_builder).
Proof.
  destruct squares_graph_wf as [Hwf Hex].
  exact (compile_buildable squares_spec false true squares_compiled Hwf Hex squares_compilable ltac:(vm_compute; done) squares_compile).
Qed.

(** Every socket can be bound. *)
Definition all_bind : string → nat → bool := λ _ _, true.

Lemma build_spec_witness : ∃ sh, build all_bind false squares_builder = Ret (ROk sh)
  ∧ rc_workers (sh_config sh) = 3 ∧ rc_single_slot_mode (sh_config sh) = true
  ∧ sd_pending_tasks (rt_slots (sys_rt (sh_system sh))) = [9%Z].
Proof.
  pose proof (build_spec all_bind false squares_builder squares_buildable) as Hspec.
  destruct (build all_bind false squares_builder) as [[sh|e]|] eqn:Hr; [|vm_compute in Hr; discriminate Hr..].
  exists sh. destruct Hspec as (_ & _ & _ & _ & _ & _ & Hw & _ & Hm & _ & _ & Hp & _). split; [reflexivity|]. split; [exact Hw|].
  split; [by apply Hm|]. rewrite Hp. reflexivity.
Defined.

(** The count of a look at the runtime of squares. *)
Definition look_at (sh : SharedData) (ms completed : Z) : Look :=
  mkLook (ms * 1000000) false (put_rt (with_complete completed (sys_rt (sh_system sh))) (sh_system sh)) [] [] (Some (λ _, false)).

Lemma run_wait_ends_witness : ∃ sh, build all_bind false squares_builder = Ret (ROk sh)
  ∧ run_impl sh true [look_at sh 10 0; look_at sh 20 1] = Ret (Joined true (default [] (g_post_nodes (sh_graph sh))))
  ∧ length (default [] (g_post_nodes (sh_graph sh))) = 1.
Proof.
  destruct (build all_bind false squares_builder) as [[sh|]|] eqn:Hb; [|vm_compute in Hb; discriminate Hb..].
  exists sh. split; [reflexivity|].
  destruct (run_wait_ends (sh_config sh) sh true [look_at sh 10 0; look_at sh 20 1] eq_refl) as (Hend & _).
  - vm_compute in Hb. injection Hb as <-. repeat constructor.
  - split; [|vm_compute in Hb; injection Hb as <-; reflexivity].
    apply (Hend (look_at sh 20 1)); [right; left| |]; vm_compute in Hb; injection Hb as <-; reflexivity.
Defined.
