(* ===== verification/CoreAlloc.v ===== *)
(** Core allocation ([core_alloc.rs]): which cores the system threads, the receivers and
    the workers are pinned to. The cores of the machine are a sorted list, which the
    operating system provides; offsets and counts are small enough not to overflow. *)
From S2P Require Import Prelude.

Record CoreAllocation := mkCoreAllocation {
  ca_system_core_offset : nat;
  ca_system_threads : nat;
  ca_receiver_offset : nat;
  ca_receiver_threads : nat;
  ca_worker_offset : nat;
  ca_worker_count : nat;
  ca_main_core : option nat;
  ca_all_core_ids : list nat;
}.

(** [allocate_cores] on the sorted cores. *)
Definition allocate_cores (core_ids : list nat) (core_offset system_threads receiver_threads worker_count : nat)
    : run CoreAllocation :=
  let available_cores := length core_ids in
  let total_needed := system_threads + receiver_threads + worker_count in
  let! (system_core_offset, receiver_offset, worker_offset, actual_workers, actual_receivers,
         actual_system_threads, main_core) :=
    if available_cores <? 2 then Panic
    else if core_offset + total_needed <? available_cores then
      let sys_start := core_offset + 1 in
      let recv_start := sys_start + system_threads in
      let worker_start := recv_start + receiver_threads in
      let! main := vec_get core_ids core_offset in
      Ret (sys_start, recv_start, worker_start, worker_count, receiver_threads, system_threads, Some main)
    else if core_offset + total_needed <=? available_cores then
      let recv_start := core_offset + system_threads in
      Ret (core_offset, recv_start, recv_start + receiver_threads, worker_count, receiver_threads, system_threads, None)
    else if total_needed <=? available_cores then
      Ret (0, system_threads, system_threads + receiver_threads, worker_count, receiver_threads, system_threads, None)
    else
      let max_system := 1 in
      let remaining := available_cores - max_system in
      let max_receivers := Nat.min receiver_threads (remaining / 2) in
      let max_workers := Nat.max (remaining - max_receivers) 1 in
      Ret (0, max_system, max_system + max_receivers, max_workers, max_receivers, max_system, None) in
  if negb (system_core_offset + actual_system_threads <=? receiver_offset) then Panic
  else if negb (receiver_offset + actual_receivers <=? worker_offset) then Panic
  else Ret (mkCoreAllocation system_core_offset actual_system_threads receiver_offset actual_receivers worker_offset
              actual_workers main_core core_ids).

(** The allocation keeps the cores it was given. *)
Lemma allocate_ids core_ids core_offset system_threads receiver_threads worker_count a :
  allocate_cores core_ids core_offset system_threads receiver_threads worker_count = Ret a → ca_all_core_ids a = core_ids.
Proof.
  unfold allocate_cores. intros ([[[[[[? ?] ?] ?] ?] ?] ?] & _ & Ha)%run_bind_Ret.
  destruct (negb _); [done|]. destruct (negb _); [done|]. by injection Ha as <-.
Qed.

Lemma allocate_cores_ok (core_ids : list nat) (core_offset system_threads receiver_threads worker_count : nat)
    (Hcores : 2 ≤ length core_ids) :
  ∃ a, allocate_cores core_ids core_offset system_threads receiver_threads worker_count = Ret a
  ∧ ca_receiver_offset a = ca_system_core_offset a + ca_system_threads a
  ∧ ca_worker_offset a = ca_receiver_offset a + ca_receiver_threads a
  ∧ ca_worker_offset a + ca_worker_count a ≤ length core_ids
  ∧ (∀ core, ca_main_core a = Some core → ∃ k, core_ids !! k = Some core ∧ ca_system_core_offset a = S k)
  ∧ let total := system_threads + receiver_threads + worker_count in
    (total ≤ length core_ids →
       ca_system_threads a = system_threads ∧ ca_receiver_threads a = receiver_threads ∧ ca_worker_count a = worker_count)
  ∧ (core_offset + total ≤ length core_ids → core_offset ≤ ca_system_core_offset a ≤ S core_offset)
  ∧ (length core_ids < total →
       ca_system_threads a = 1 ∧ 1 ≤ ca_worker_count a ∧ ca_receiver_threads a ≤ receiver_threads
       ∧ ca_worker_offset a + ca_worker_count a = length core_ids).
Proof.
  unfold allocate_cores. rewrite (proj2 (Nat.ltb_ge _ _)) by done.
  set (total := system_threads + receiver_threads + worker_count).
  assert (Hchk : ∀ s st r rt w (x : run CoreAllocation), r = s + st → w = r + rt →
    (if negb (s + st <=? r) then Panic else if negb (r + rt <=? w) then Panic else x) = x).
  { intros s st r rt w x -> ->. by rewrite !Nat.leb_refl. }
  destruct (Nat.ltb_spec (core_offset + total) (length core_ids)).
  { destruct (vec_get_lt core_ids core_offset) as (main & -> & Hm); [lia|]. cbn [run_bind]. rewrite Hchk by lia.
    eexists. split; [done|]. cbn. repeat (split; [lia|]).
    split; [intros core [= <-]; exists core_offset; split; [done|lia]|]. repeat split; lia. }
  destruct (Nat.leb_spec (core_offset + total) (length core_ids)).
  { cbn [run_bind]. rewrite Hchk by lia. eexists. split; [done|]. cbn. repeat (split; [lia|]). split; [done|]. repeat split; lia. }
  destruct (Nat.leb_spec total (length core_ids)).
  { cbn [run_bind]. rewrite Hchk by lia. eexists. split; [done|]. cbn. repeat (split; [lia|]). split; [done|]. repeat split; lia. }
  cbn [run_bind]. rewrite Hchk by lia. eexists. split; [done|]. cbn [ca_system_core_offset ca_system_threads ca_receiver_offset
    ca_receiver_threads ca_worker_offset ca_worker_count ca_main_core].
  assert (Hdiv : (length core_ids - 1) / 2 * 2 ≤ length core_ids - 1) by (rewrite Nat.mul_comm; apply Nat.Div0.mul_div_le).
  set (half := (length core_ids - 1) / 2) in *.
  repeat (split; [lia|]). split; [done|]. split; [lia|]. split; [lia|]. lia.
Qed.

(** C40. With two cores or more the allocation never fails, its own checks included. System
    threads, receivers and workers get consecutive ranges of existing cores, so no core
    is used twice; a core kept for the main thread is the one just before them. What was
    asked for is granted whenever the machine has that many cores, at the requested
    offset when it fits there; otherwise all cores are used, by one system thread, at
    least one worker, and no more receivers than asked for. *)
Theorem allocate_cores_spec (core_ids : list nat) (core_offset system_threads receiver_threads worker_count : nat)
    (Hcores : 2 ≤ length core_ids) :
  ∃ a, allocate_cores core_ids core_offset system_threads receiver_threads worker_count = Ret a
  ∧ ca_receiver_offset a = ca_system_core_offset a + ca_system_threads a
  ∧ ca_worker_offset a = ca_receiver_offset a + ca_receiver_threads a
  ∧ ca_worker_offset a + ca_worker_count a ≤ length core_ids
  ∧ (∀ core, ca_main_core a = Some core → ∃ k, core_ids !! k = Some core ∧ ca_system_core_offset a = S k)
  ∧ let total := system_threads + receiver_threads + worker_count in
    (total ≤ length core_ids →
       ca_system_threads a = system_threads ∧ ca_receiver_threads a = receiver_threads ∧ ca_worker_count a = worker_count)
  ∧ (core_offset + total ≤ length core_ids → core_offset ≤ ca_system_core_offset a ≤ S core_offset)
  ∧ (length core_ids < total →
       ca_system_threads a = 1 ∧ 1 ≤ ca_worker_count a ∧ ca_receiver_threads a ≤ receiver_threads
       ∧ ca_worker_offset a + ca_worker_count a = length core_ids).
Proof. by apply allocate_cores_ok. Qed.

(** Eight threads on four cores. *)
Lemma allocate_cores_spec_witness : ∃ a, allocate_cores [0; 1; 2; 3] 1 2 2 4 = Ret a
  ∧ ca_worker_offset a + ca_worker_count a = 4.
Proof.
  destruct (allocate_cores_spec [0; 1; 2; 3] 1 2 2 4 ltac:(cbn; lia)) as (a & Ha & _ & _ & _ & _ & _ & _ & Hover).
  exists a. split; [exact Ha|]. apply Hover. cbn. lia.
Defined.
