(* ===== verification/Affinity.v ===== *)
(** The affinity of nodes to workers ([WorkerAffinityConfig] of [scheduler.rs], and the
    scan of the graph in [bin/main.rs]): every range that a node names in [use_workers]
    becomes a group of workers; counts and nodes without a specification use the global
    queue, group 0.

    The sets of ranges and of specifications are [gset], the hash maps [gmap]; the code
    sorts what it takes out of a set, so the order of iteration does not matter. *)
From S2P Require Import Prelude Types WorkerRange GraphStruct Graph Tables.
From stdpp Require Import gmap sorting.

(** ** Ranges are ordered by their ends, lexicographically *)

#[export] Instance WorkerRange_eq_dec : EqDecision WorkerRange.
Proof. solve_decision. Defined.
#[export] Instance WorkerRange_countable : Countable WorkerRange.
Proof.
  refine (inj_countable' (λ r, (wr_start r, wr_end r)) (λ p, mkWorkerRange p.1 p.2) _). by intros [].
Defined.
#[export] Instance WorkerRangeSpec_eq_dec : EqDecision WorkerRangeSpec.
Proof. solve_decision. Defined.
#[export] Instance WorkerRangeSpec_countable : Countable WorkerRangeSpec.
Proof.
  refine (inj_countable' (λ s, match s with WCount n => inl n | WRange r => inr r end)
            (λ s, match s with inl n => WCount n | inr r => WRange r end) _).
  by intros [].
Defined.

(** The derived [Ord] of [WorkerRange]. *)
Definition wr_le (r1 r2 : WorkerRange) : Prop :=
  (wr_start r1 < wr_start r2 ∨ wr_start r1 = wr_start r2 ∧ wr_end r1 ≤ wr_end r2)%Z.
#[export] Instance wr_le_dec : RelDecision wr_le.
Proof. intros r1 r2. unfold wr_le. solve_decision. Defined.
#[export] Instance wr_le_total : Total wr_le.
Proof. intros r1 r2. unfold wr_le. lia. Qed.
#[export] Instance wr_le_trans : Transitive wr_le.
Proof. intros r1 r2 r3. unfold wr_le. lia. Qed.
#[export] Instance wr_le_antisymm : AntiSymm (=) wr_le.
Proof. intros [s1 e1] [s2 e2]. unfold wr_le. cbn. intros ??. f_equal; lia. Qed.

(** [sort] of the ranges collected from a set. *)
Definition sort_ranges (ranges : gset WorkerRange) : list WorkerRange := merge_sort wr_le (elements ranges).

(** ** The configuration *)

Record WorkerAffinityConfig := mkAffinity {
  af_range_to_group : gmap WorkerRange nat;
  af_affinity_groups : list (nat * WorkerRange);
  af_worker_to_groups : gmap Z (list nat);
}.

(** [start..end] of a range. *)
Definition workers_of (r : WorkerRange) : list Z := seqZ (wr_start r) (wr_end r - wr_start r).

Definition all_workers (total_workers : nat) : gmap Z (list nat) :=
  foldr (λ w m, <[w := []]> m) ∅ (seqZ 0 (Z.of_nat total_workers)).

(** [get_mut(&worker_idx).unwrap().push(group_id)]. *)
Definition push_group (group_id : nat) (m : gmap Z (list nat)) (worker_idx : Z) : run (gmap Z (list nat)) :=
  let! gs := unwrap (m !! worker_idx) in Ret (<[worker_idx := gs ++ [group_id]]> m).

(** One turn of the loop over the sorted ranges. *)
Definition add_range (total_workers : nat) (st : WorkerAffinityConfig) (ir : nat * WorkerRange) : run WorkerAffinityConfig :=
  let (group_id, range) := ir in
  if (Z.of_nat total_workers <? wr_end range)%Z then Panic
  else
    let! groups := foldM (push_group group_id) (af_worker_to_groups st) (workers_of range) in
    Ret (mkAffinity (<[range := group_id]> (af_range_to_group st)) (af_affinity_groups st ++ [(group_id, range)]) groups).

(** [from_worker_ranges]. *)
Definition from_worker_ranges (ranges : gset WorkerRange) (total_workers : nat) : run WorkerAffinityConfig :=
  foldM (add_range total_workers) (mkAffinity ∅ [] (all_workers total_workers)) (imap (λ i r, (S i, r)) (sort_ranges ranges)).

Definition range_of_spec (s : WorkerRangeSpec) : option WorkerRange :=
  match s with WRange r => Some r | WCount _ => None end.

Definition check_range (total_workers : nat) (ranges : gset WorkerRange) (range : WorkerRange) : run (gset WorkerRange) :=
  if (Z.of_nat total_workers <? wr_end range)%Z then Panic else Ret ({[range]} ∪ ranges).

(** [from_worker_specs]. *)
Definition from_worker_specs (specs : gset WorkerRangeSpec) (total_workers : nat) : run WorkerAffinityConfig :=
  let range_specs := merge_sort wr_le (omap range_of_spec (elements specs)) in
  let! ranges := foldM (check_range total_workers) ∅ range_specs in
  from_worker_ranges ranges total_workers.

(** [get_group]. *)
Definition get_group (c : WorkerAffinityConfig) (use_workers : option WorkerRangeSpec) : nat :=
  match use_workers with
  | Some (WRange r) => default 0 (af_range_to_group c !! r)
  | Some (WCount _) | None => 0
  end.

(** [get_worker_groups]. *)
Definition get_worker_groups (c : WorkerAffinityConfig) (worker_idx : nat) : list nat :=
  default [] (af_worker_to_groups c !! Z.of_nat worker_idx).

(** The scan in [run_graph] for the specifications of the nodes and post-nodes. *)
Definition worker_specs (g : Graph) : gset WorkerRangeSpec :=
  list_to_set (omap n_use_workers (g_nodes g ++ default [] (g_post_nodes g))).

Definition worker_affinity (g : Graph) (workers : nat) : run (option WorkerAffinityConfig) :=
  if decide (worker_specs g = ∅) then Ret None else run_map Some (from_worker_specs (worker_specs g) workers).

(** [SchedulerImpl::get_affinity_group] of the custom scheduler, for the passes of
    [Tables]. *)
Definition affinity_lookup (c : option WorkerAffinityConfig) : AffinityLookup :=
  λ use_workers, match c with Some c => get_group c use_workers | None => 0 end.

(** ** What the configuration says *)

Lemma elem_of_workers_of r w : w ∈ workers_of r ↔ wr_contains r w = true.
Proof. unfold workers_of, wr_contains. rewrite elem_of_seqZ, andb_true_iff, Z.leb_le, Z.ltb_lt. lia. Qed.

Lemma sort_ranges_elem ranges r : r ∈ sort_ranges ranges ↔ r ∈ ranges.
Proof. unfold sort_ranges. rewrite (merge_sort_Permutation wr_le). apply elem_of_elements. Qed.

Lemma sort_ranges_NoDup ranges : NoDup (sort_ranges ranges).
Proof. unfold sort_ranges. rewrite (merge_sort_Permutation wr_le). apply NoDup_elements. Qed.

Lemma sort_ranges_sorted ranges : StronglySorted wr_le (sort_ranges ranges).
Proof. apply (StronglySorted_merge_sort wr_le). Qed.

Lemma all_workers_lookup n w : all_workers n !! w = if decide (0 ≤ w < Z.of_nat n)%Z then Some [] else None.
Proof.
  unfold all_workers. assert (H : ∀ l, foldr (λ w m, <[w := []]> m) (∅ : gmap Z (list nat)) l !! w = if decide (w ∈ l) then Some [] else None).
  { induction l as [|x l IH]; cbn [foldr]; [by rewrite lookup_empty, decide_False by apply not_elem_of_nil|].
    destruct (decide (x = w)) as [->|Hne]; [rewrite lookup_insert_eq; by rewrite decide_True by left|].
    rewrite lookup_insert_ne, IH by done. destruct (decide (w ∈ l)); [by rewrite decide_True by (by right)|].
    by rewrite decide_False by (rewrite elem_of_cons; naive_solver). }
  rewrite H. destruct (decide _) as [Hw|Hw]; rewrite elem_of_seqZ in Hw; [by rewrite decide_True by lia|by rewrite decide_False by lia].
Qed.

Lemma push_groups g ws : NoDup ws → ∀ m, (∀ w, w ∈ ws → is_Some (m !! w)) →
  ∃ m', foldM (push_group g) m ws = Ret m' ∧ ∀ w, m' !! w = if decide (w ∈ ws) then (λ gs, gs ++ [g]) <$> m !! w else m !! w.
Proof.
  induction 1 as [|x ws Hx _ IH]; intros m Hm; cbn [foldM].
  { exists m. split; [done|]. intros w. by rewrite decide_False by apply not_elem_of_nil. }
  destruct (Hm x) as [gs Hgs]; [left|]. unfold push_group at 1. rewrite Hgs. cbn [unwrap run_bind].
  destruct (IH (<[x := gs ++ [g]]> m)) as (m' & -> & Hl).
  { intros w Hw. rewrite lookup_insert_ne by (by intros ->). apply Hm. by right. }
  exists m'. split; [done|]. intros w. rewrite Hl. destruct (decide (x = w)) as [->|Hne].
  - rewrite (decide_False (P := w ∈ ws)) by done. rewrite decide_True by left. by rewrite lookup_insert_eq, Hgs.
  - rewrite lookup_insert_ne by done. destruct (decide (w ∈ ws)); [by rewrite decide_True by (by right)|].
    by rewrite decide_False by (rewrite elem_of_cons; naive_solver).
Qed.

(** The groups a worker is in, by the list of groups. *)
Definition groups_with (groups : list (nat * WorkerRange)) (w : Z) : list nat :=
  fst <$> filter (λ ir, wr_contains ir.2 w = true) groups.

Record affinity_inv (total : nat) (l : list (nat * WorkerRange)) (c : WorkerAffinityConfig) : Prop := {
  ai_groups : af_affinity_groups c = l;
  ai_map : af_range_to_group c = list_to_map (reverse ((λ ir, (ir.2, ir.1)) <$> l));
  ai_workers : ∀ w, af_worker_to_groups c !! w = if decide (0 ≤ w < Z.of_nat total)%Z then Some (groups_with l w) else None;
}.

Lemma add_range_ok total l c ir : affinity_inv total l c → (0 ≤ wr_start ir.2)%Z → (wr_end ir.2 ≤ Z.of_nat total)%Z →
  ∃ c', add_range total c ir = Ret c' ∧ affinity_inv total (l ++ [ir]) c'.
Proof.
  destruct ir as [g r]; cbn. intros [H1 H2 H3] Hs He. rewrite (proj2 (Z.ltb_ge _ _)) by done.
  assert (Hin : ∀ w, w ∈ workers_of r → (0 ≤ w < Z.of_nat total)%Z) by (intros w; unfold workers_of; rewrite elem_of_seqZ; lia).
  destruct (push_groups g (workers_of r) (NoDup_seqZ _ _) (af_worker_to_groups c)) as (m' & -> & Hm').
  { intros w Hw. rewrite H3, decide_True by auto. by eexists. }
  cbn [run_bind]. eexists. split; [done|]. split; cbn.
  - by rewrite H1.
  - by rewrite fmap_app, reverse_app, H2.
  - intros w. rewrite Hm', H3. unfold groups_with. rewrite filter_app, fmap_app, filter_cons, filter_nil. cbn.
    destruct (decide (w ∈ workers_of r)) as [Hw|Hw].
    + pose proof (Hin w Hw). apply elem_of_workers_of in Hw. rewrite (decide_True (P := wr_contains r w = true)) by done.
      by repeat case_decide.
    + rewrite elem_of_workers_of in Hw. rewrite (decide_False (P := wr_contains r w = true)) by done. cbn. by rewrite app_nil_r.
Qed.

(** The ranges are within the workers. *)
Definition range_fits (total : nat) (r : WorkerRange) : Prop := (0 ≤ wr_start r)%Z ∧ (wr_end r ≤ Z.of_nat total)%Z.

Lemma from_worker_ranges_ok ranges total : (∀ r, r ∈ ranges → range_fits total r) →
  ∃ c, from_worker_ranges ranges total = Ret c ∧ affinity_inv total (imap (λ i r, (S i, r)) (sort_ranges ranges)) c.
Proof.
  intros Hfit. unfold from_worker_ranges.
  assert (Hall : ∀ ir, ir ∈ imap (λ i r, (S i, r)) (sort_ranges ranges) → range_fits total ir.2).
  { intros ir (i & r & -> & Hr)%elem_of_lookup_imap. cbn. apply Hfit, sort_ranges_elem. by eapply list_elem_of_lookup_2. }
  revert Hall. generalize (imap (λ i r, (S i, r)) (sort_ranges ranges)). intros l Hall.
  enough (H : ∀ todo done c, l = done ++ todo → affinity_inv total done c → ∃ c', foldM (add_range total) c todo = Ret c' ∧ affinity_inv total l c').
  { apply (H l []); [done|]. split; [done..|]. intros w. cbn. by rewrite all_workers_lookup. }
  induction todo as [|ir todo IH]; intros done c -> Hc; cbn [foldM]; [rewrite app_nil_r; by exists c|].
  destruct (Hall ir) as [H1 H2]; [apply elem_of_app; right; left|].
  destruct (add_range_ok total done c ir Hc H1 H2) as (c' & -> & Hc'). cbn [run_bind]. apply (IH (done ++ [ir])); [by rewrite <- app_assoc|done].
Qed.

Lemma ranges_of_specs (specs : gset WorkerRangeSpec) : ∀ r, r ∈ merge_sort wr_le (omap range_of_spec (elements specs)) ↔ WRange r ∈ specs.
Proof.
  intros r. rewrite (merge_sort_Permutation wr_le), list_elem_of_omap. split.
  - intros ([n|r'] & Hin & [= <-]). by apply elem_of_elements.
  - intros Hin. exists (WRange r). split; [by apply elem_of_elements|done].
Qed.

Lemma check_ranges total l : ∀ s, Forall (λ r, (wr_end r ≤ Z.of_nat total)%Z) l → foldM (check_range total) s l = Ret (list_to_set (reverse l) ∪ s).
Proof.
  induction l as [|r l IH]; intros s Hl; cbn [foldM]; [f_equal; set_solver|].
  apply Forall_cons in Hl as [Hr Hl]. unfold check_range at 1. rewrite (proj2 (Z.ltb_ge _ _)) by done. cbn [run_bind].
  rewrite IH by done. f_equal. rewrite reverse_cons, list_to_set_app_L. cbn. set_solver.
Qed.

Lemma check_ranges_panic total l r : r ∈ l → (Z.of_nat total < wr_end r)%Z → ∀ s, foldM (check_range total) s l = Panic.
Proof.
  intros Hin Hr. induction l as [|x l IH]; [by apply not_elem_of_nil in Hin|]. intros s. cbn [foldM]. unfold check_range at 1.
  destruct (Z.ltb_spec (Z.of_nat total) (wr_end x)); [done|]. cbn [run_bind]. apply IH. apply elem_of_cons in Hin as [->|?]; [lia|done].
Qed.

Lemma get_group_listed total l c r : affinity_inv total (imap (λ i r, (S i, r)) l) c → NoDup l →
  get_group c (Some (WRange r)) = match list_find (r =.) l with Some (i, _) => S i | None => 0 end.
Proof.
  intros [_ Hmap _] Hnd. cbn [get_group]. rewrite Hmap.
  assert (Hnd' : NoDup (reverse ((λ ir : nat * WorkerRange, (ir.2, ir.1)) <$> imap (λ i r, (S i, r)) l)).*1).
  { rewrite fmap_reverse, <- list_fmap_compose, fmap_imap. cbn. rewrite reverse_Permutation.
    replace (imap _ l) with l; [done|]. clear. revert l. apply rev_ind; [done|]. intros x l IH. rewrite imap_app. cbn. by rewrite <- IH. }
  destruct (list_find (r =.) l) as [[i r']|] eqn:Hf.
  - apply list_find_Some in Hf as (Hl & <- & _). rewrite (elem_of_list_to_map_1 _ r (S i)); [done|done|].
    apply elem_of_reverse, list_elem_of_fmap. exists (S i, r). split; [done|]. apply elem_of_lookup_imap. by exists i, r.
  - rewrite not_elem_of_list_to_map_1; [done|]. rewrite fmap_reverse, elem_of_reverse, <- list_fmap_compose.
    intros (ir & Heq & (i & r' & -> & Hr)%elem_of_lookup_imap)%list_elem_of_fmap. cbn in Heq. subst r'. apply list_find_None in Hf.
    rewrite Forall_lookup in Hf. by apply (Hf i r Hr).
Qed.

(** The ranges of a set of specifications, in order. *)
Definition ranges_in (specs : gset WorkerRangeSpec) : list WorkerRange :=
  sort_ranges (list_to_set (omap range_of_spec (elements specs))).

Lemma elem_of_ranges_in specs r : r ∈ ranges_in specs ↔ WRange r ∈ specs.
Proof. unfold ranges_in. rewrite sort_ranges_elem, elem_of_list_to_set, <- ranges_of_specs. by rewrite (merge_sort_Permutation wr_le). Qed.

Lemma from_worker_specs_ok specs total : (∀ r, WRange r ∈ specs → range_fits total r) →
  ∃ c, from_worker_specs specs total = Ret c ∧ affinity_inv total (imap (λ i r, (S i, r)) (ranges_in specs)) c.
Proof.
  intros Hfit. unfold from_worker_specs. rewrite check_ranges.
  2:{ apply Forall_forall. intros r Hr%ranges_of_specs. by apply Hfit. }
  cbn [run_bind]. set (l := merge_sort wr_le (omap range_of_spec (elements specs))).
  assert (Heq : list_to_set (reverse l) ∪ ∅ = (list_to_set (omap range_of_spec (elements specs)) : gset WorkerRange)).
  { apply set_eq. intros r. unfold l. rewrite elem_of_union, !elem_of_list_to_set, elem_of_reverse, (merge_sort_Permutation wr_le). set_solver. }
  rewrite Heq. apply from_worker_ranges_ok. intros r. rewrite elem_of_list_to_set, <- (merge_sort_Permutation wr_le). rewrite ranges_of_specs. apply Hfit.
Qed.

Lemma get_worker_groups_listed total rs c w : affinity_inv total (imap (λ i r, (S i, r)) rs) c →
  (∀ r, r ∈ rs → (wr_end r ≤ Z.of_nat total)%Z) → get_worker_groups c w = groups_with (imap (λ i r, (S i, r)) rs) (Z.of_nat w).
Proof.
  intros Hinv Hfit. unfold get_worker_groups. rewrite (ai_workers _ _ _ Hinv). destruct (decide _) as [|Hw]; [done|].
  symmetry. apply elem_of_nil_inv. (* no range reaches beyond the workers *)
  intros g (ir & -> & [Hr (i & r & -> & Hir)%elem_of_lookup_imap]%list_elem_of_filter)%list_elem_of_fmap. cbn in Hr.
  apply list_elem_of_lookup_2, Hfit in Hir. unfold wr_contains in Hr. apply andb_true_iff in Hr as [H1%Z.leb_le H2%Z.ltb_lt]. lia.
Qed.

(** The first group of a worker is that of the first range it is in. *)
Lemma first_group k rs w :
  match groups_with (imap (λ i r, (S (k + i), r)) rs) w with g :: _ => g | [] => 0 end
  = match list_find (λ r, wr_contains r w = true) rs with Some (i, _) => S (k + i) | None => 0 end.
Proof.
  revert k. induction rs as [|r rs IH]; intros k; [done|]. unfold groups_with. cbn [imap list_find]. rewrite filter_cons. cbn [snd].
  destruct (decide (wr_contains r w = true)); [done|]. specialize (IH (S k)). unfold groups_with in IH.
  erewrite (imap_ext _ (λ i r, (S (S k + i), r))); [rewrite IH|intros; cbn; do 2 f_equal; lia].
  destruct (list_find _ rs) as [[i r']|]; cbn; [do 2 f_equal; lia|done].
Qed.

(** The affinity of a graph is refused exactly when a range ends beyond the workers.
    Otherwise the ranges, each once and in order, are the groups 1, 2 and so on; a node
    with a range gets the group of that range, a node with a count or without a
    specification the global queue, and so does a range that no specification names; and
    the groups of a worker are those of all ranges that contain it, in ascending order. *)
Theorem from_worker_specs_spec (specs : gset WorkerRangeSpec) (total : nat) (Hwords : ∀ r, WRange r ∈ specs → (0 ≤ wr_start r)%Z) :
  StronglySorted wr_le (ranges_in specs) ∧ NoDup (ranges_in specs) ∧ (∀ r, r ∈ ranges_in specs ↔ WRange r ∈ specs)
  ∧ ((∃ r, WRange r ∈ specs ∧ (Z.of_nat total < wr_end r)%Z) → from_worker_specs specs total = Panic)
  ∧ ((∀ r, WRange r ∈ specs → (wr_end r ≤ Z.of_nat total)%Z) → ∃ c, from_worker_specs specs total = Ret c
     ∧ af_affinity_groups c = imap (λ i r, (S i, r)) (ranges_in specs)
     ∧ (∀ i r, ranges_in specs !! i = Some r → get_group c (Some (WRange r)) = S i)
     ∧ (∀ r, WRange r ∉ specs → get_group c (Some (WRange r)) = 0)
     ∧ (∀ n, get_group c (Some (WCount n)) = 0) ∧ get_group c None = 0
     ∧ ∀ w, get_worker_groups c w = groups_with (af_affinity_groups c) (Z.of_nat w)).
Proof.
  split; [apply sort_ranges_sorted|]. split; [apply sort_ranges_NoDup|]. split; [apply elem_of_ranges_in|]. split.
  { intros (r & Hr & He). unfold from_worker_specs. by rewrite (check_ranges_panic total _ r) by (done || by apply ranges_of_specs). }
  intros Hfit. destruct (from_worker_specs_ok specs total) as (c & Hc & Hinv); [by split; auto|].
  exists c. pose proof (sort_ranges_NoDup (list_to_set (omap range_of_spec (elements specs)))) as Hnd. fold (ranges_in specs) in Hnd.
  pose proof (get_group_listed total (ranges_in specs) c) as Hget. split; [done|]. split; [by destruct Hinv|].
  split; [|split; [|split; [done|split; [done|]]]].
  - intros i r Hi. rewrite Hget by done. destruct (list_find (r =.) (ranges_in specs)) as [[j r']|] eqn:Hf.
    + apply list_find_Some in Hf as (Hj & <- & _). by rewrite (NoDup_lookup _ _ _ _ Hnd Hj Hi).
    + apply list_find_None in Hf. rewrite Forall_lookup in Hf. by destruct (Hf i r Hi).
  - intros r Hr. rewrite Hget by done. destruct (list_find (r =.) (ranges_in specs)) as [[j r']|] eqn:Hf; [|done].
    apply list_find_Some in Hf as (Hj & <- & _). apply list_elem_of_lookup_2, elem_of_ranges_in in Hj. done.
  - intros w. rewrite (ai_groups _ _ _ Hinv). apply (get_worker_groups_listed _ _ _ _ Hinv). intros r Hr%elem_of_ranges_in. by apply Hfit.
Qed.

(** Two overlapping ranges and a count, on four workers. *)
Definition overlapping_specs : gset WorkerRangeSpec := {[WRange (mkWorkerRange 2 4); WCount 3; WRange (mkWorkerRange 1 3)]}.

Lemma from_worker_specs_spec_witness : ∃ c, from_worker_specs overlapping_specs 4 = Ret c
  ∧ get_group c (Some (WRange (mkWorkerRange 2 4))) = 2 ∧ get_worker_groups c 2 = [1; 2].
Proof.
  destruct (from_worker_specs_spec overlapping_specs 4) as (_ & _ & Hin & _ & Hok).
  - intros r Hr. unfold overlapping_specs in Hr. set_unfold in Hr. by destruct_or!; simplify_eq.
  - destruct Hok as (c & Hc & Hgroups & Hget & _ & _ & _ & Hw).
    + intros r Hr. unfold overlapping_specs in Hr. set_unfold in Hr. by destruct_or!; simplify_eq.
    + exists c. split; [exact Hc|]. split; [by apply (Hget 1)|]. rewrite Hw, Hgroups. reflexivity.
Defined.
