(* ===== verification/Sched.v ===== *)
(** The custom scheduler ([custom_scheduler/channels.rs], [builder.rs], [worker.rs] and
    [mod.rs], [create_scheduler] of [scheduler.rs]): groups of workers with their channels,
    the routing of tasks to channels, and the loop of a worker.

    A channel is the list of its jobs. References to channels are places: the global
    channels, or those of a group. The closures of boxed tasks are a type of their own;
    recorders, hooks of the workers and measurement are left out. The atomic counters wrap. *)
From S2P Require Import Prelude Types WorkerRange GraphStruct Buffers NodeCache CoreAlloc Tables Affinity.
From stdpp Require Import gmap sorting.

(** ** Jobs and channels *)

(** [TaskMeta] and [RecordMeta]. *)
Record TaskMeta := mkTaskMeta { tm_task_id : nat; tm_slot : nat; tm_index : nat; tm_should_record : bool }.
Record RecordMeta := mkRecordMeta { rm_job_id : Z; rm_task_id : nat; rm_meta_slot : nat; rm_index : nat }.

(** [NodeTaskDesc]; the time of the spawn is left out. *)
Record NodeTaskDesc := mkDesc { nd_node : NodeInfo; nd_func : CmPtr; nd_job_id : Z; nd_should_record : bool }.
Definition with_job_id (job_id : Z) (d : NodeTaskDesc) : NodeTaskDesc := mkDesc (nd_node d) (nd_func d) job_id (nd_should_record d).

Inductive Job (T : Type) :=
  | Boxed (task : T) (meta : option RecordMeta)
  | JNode (desc : NodeTaskDesc).
Arguments Boxed {T}. Arguments JNode {T}.

(** [ChannelSet]. *)
Record ChannelSet (J : Type) := mkChannels { ch_high : list J; ch_normal : list J; ch_low : list J }.
Arguments mkChannels {J}. Arguments ch_high {J}. Arguments ch_normal {J}. Arguments ch_low {J}.

Section channels.
Context {J : Type}.
Implicit Types c : ChannelSet J.

Definition ChannelSet_new : ChannelSet J := mkChannels [] [] [].
Definition chan (p : Priority) c : list J := match p with PHigh => ch_high c | PNormal => ch_normal c | PLow => ch_low c end.
Definition set_chan (p : Priority) (l : list J) c : ChannelSet J :=
  match p with
  | PHigh => mkChannels l (ch_normal c) (ch_low c)
  | PNormal => mkChannels (ch_high c) l (ch_low c)
  | PLow => mkChannels (ch_high c) (ch_normal c) l
  end.

(** [ChannelSet::send], and [load]. *)
Definition cs_send (p : Priority) (job : J) c : ChannelSet J := set_chan p (chan p c ++ [job]) c.
Definition cs_load c : nat := length (ch_high c) + length (ch_normal c) + length (ch_low c).

(** [try_recv] on one channel. *)
Definition try_recv (p : Priority) c : option (J * ChannelSet J) :=
  match chan p c with [] => None | job :: rest => Some (job, set_chan p rest c) end.
End channels.

(** The alternatives of a receive, in order. *)
Fixpoint first_some {A} (l : list (option A)) : option A :=
  match l with [] => None | Some x :: _ => Some x | None :: l => first_some l end.

(** ** The shared state of the workers *)

(** The channels a reference points to. *)
Inductive Place := Global | Group (g : nat).
#[export] Instance Place_eq_dec : EqDecision Place.
Proof. solve_decision. Defined.

Record SharedWorkerState (J : Type) := mkWorkers {
  sw_global : ChannelSet J;
  sw_groups : list (ChannelSet J);
  sw_sharded : bool;
  sw_next_shard : Z;
  sw_in_flight : list Z;
  sw_shutdown : bool;
  sw_total_spawned : Z;
  sw_total_completed : Z;
  sw_pending_tasks : Z;
  sw_node_exec : bool;
}.
Arguments mkWorkers {J}. Arguments sw_global {J}. Arguments sw_groups {J}. Arguments sw_sharded {J}.
Arguments sw_next_shard {J}. Arguments sw_in_flight {J}. Arguments sw_shutdown {J}.
Arguments sw_total_spawned {J}. Arguments sw_total_completed {J}. Arguments sw_pending_tasks {J}. Arguments sw_node_exec {J}.

Section shared.
Context {T : Type}.
Abbreviation S := (SharedWorkerState (Job T)).
Implicit Types s : S.

Definition set_queues (global : ChannelSet (Job T)) (groups : list (ChannelSet (Job T))) s : S :=
  mkWorkers global groups (sw_sharded s) (sw_next_shard s) (sw_in_flight s) (sw_shutdown s) (sw_total_spawned s)
    (sw_total_completed s) (sw_pending_tasks s) (sw_node_exec s).
Definition set_counts (spawned completed pending : Z) s : S :=
  mkWorkers (sw_global s) (sw_groups s) (sw_sharded s) (sw_next_shard s) (sw_in_flight s) (sw_shutdown s) spawned
    completed pending (sw_node_exec s).
Definition set_cursor (next_shard : Z) s : S :=
  mkWorkers (sw_global s) (sw_groups s) (sw_sharded s) next_shard (sw_in_flight s) (sw_shutdown s) (sw_total_spawned s)
    (sw_total_completed s) (sw_pending_tasks s) (sw_node_exec s).
Definition set_in_flight (l : list Z) s : S :=
  mkWorkers (sw_global s) (sw_groups s) (sw_sharded s) (sw_next_shard s) l (sw_shutdown s) (sw_total_spawned s)
    (sw_total_completed s) (sw_pending_tasks s) (sw_node_exec s).
Definition set_shutdown s : S :=
  mkWorkers (sw_global s) (sw_groups s) (sw_sharded s) (sw_next_shard s) (sw_in_flight s) true (sw_total_spawned s)
    (sw_total_completed s) (sw_pending_tasks s) (sw_node_exec s).

Definition channels_at s (pl : Place) : option (ChannelSet (Job T)) :=
  match pl with Global => Some (sw_global s) | Group g => sw_groups s !! g end.
Definition put_channels (pl : Place) (c : ChannelSet (Job T)) s : S :=
  match pl with
  | Global => set_queues c (sw_groups s) s
  | Group g => set_queues (sw_global s) (<[g := c]> (sw_groups s)) s
  end.

(** A send, and a receive with the place it found the job at. *)
Definition send_to s (pl : Place) (p : Priority) (job : Job T) : S :=
  match channels_at s pl with Some c => put_channels pl (cs_send p job c) s | None => s end.
Definition recv_from s (pl : Place) (p : Priority) : option (Place * Job T * S) :=
  match channels_at s pl with
  | Some c => (λ jc, (pl, jc.1, put_channels pl jc.2 s)) <$> try_recv p c
  | None => None
  end.

(** [try_recv_all]. *)
Definition try_recv_all s (group : Place) (allow_global : bool) : option (Place * Job T * S) :=
  let global p := if allow_global then recv_from s Global p else None in
  first_some [recv_from s group PHigh; recv_from s group PNormal; global PHigh; global PNormal;
              recv_from s group PLow; global PLow].

(** [try_steal_shards]. *)
Definition try_steal_shards s (own start : nat) : option (Place * Job T * S) :=
  let n := length (sw_groups s) in
  first_some ((λ k, let i := (start + k) mod n in
                    if i =? own then None
                    else first_some [recv_from s (Group i) PHigh; recv_from s (Group i) PNormal; recv_from s (Group i) PLow])
              <$> range 0 n).

(** ** Spawning *)

(** The counters of a spawn, with the number of the job. *)
Definition count_spawn s : Z * S :=
  (sw_total_spawned s,
   set_counts (as_u64 (sw_total_spawned s + 1)) (sw_total_completed s) (as_u64 (sw_pending_tasks s + 1)) s).

Definition record_meta (job_id : Z) (meta : option TaskMeta) : option RecordMeta :=
  match meta with
  | Some m => if tm_should_record m then Some (mkRecordMeta job_id (tm_task_id m) (tm_slot m) (tm_index m)) else None
  | None => None
  end.

(** A spawn before its send: where the job goes, and the state with the counters. *)
Definition Begun : Type := Place * Priority * Job T * S.
Definition sent (b : Begun) : S := let '(pl, p, job, s) := b in send_to s pl p job.

Definition boxed_begin s (pl : Place) (p : Priority) (meta : option TaskMeta) (task : T) : Begun :=
  let (job_id, s) := count_spawn s in (pl, p, Boxed task (record_meta job_id meta), s).

Definition spawn_with_priority s (p : Priority) (task : T) : S := sent (boxed_begin s Global p None task).
Definition spawn s (task : T) : S := spawn_with_priority s PNormal task.
Definition group_place s (group_id : nat) : Place := if group_id <? length (sw_groups s) then Group group_id else Global.
Definition spawn_to_group s (group_id : nat) (p : Priority) (task : T) : S := sent (boxed_begin s (group_place s group_id) p None task).
Definition spawn_with_meta s (meta : option TaskMeta) (task : T) : S := sent (boxed_begin s Global PNormal meta task).
Definition spawn_with_meta_priority s (p : Priority) (meta : option TaskMeta) (task : T) : S := sent (boxed_begin s Global p meta task).
Definition spawn_to_group_with_meta s (group_id : nat) (p : Priority) (meta : option TaskMeta) (task : T) : S :=
  sent (boxed_begin s (group_place s group_id) p meta task).

(** The load of a shard: its queued jobs and the jobs that its workers run. *)
Definition load_of s (i : nat) : Z :=
  match sw_groups s !! i, sw_in_flight s !! i with
  | Some c, Some n => as_u64 (Z.of_nat (cs_load c) + n)
  | _, _ => 0
  end.

(** The loop of [spawn_node] for the shard with the least load, from [start] on. *)
Fixpoint least_loaded (load : nat → Z) (n start : nat) (best : nat) (best_load : Z) (ks : list nat) : nat :=
  match ks with
  | [] => best
  | k :: ks =>
      if (best_load =? 0)%Z then best
      else
        let i := (start + k) mod n in
        if (load i <? best_load)%Z then least_loaded load n start i (load i) ks
        else least_loaded load n start best best_load ks
  end.

(** The channels that [spawn_node] sends to. *)
Definition route_node s (load : nat → Z) (group_id : nat) : Place * S :=
  let n := length (sw_groups s) in
  if (0 <? group_id) && (group_id <? n) then (Group group_id, s)
  else if sw_sharded s then
    if n =? 1 then (Group 0, s)
    else
      let start := Z.to_nat (sw_next_shard s mod Z.of_nat n) in
      (Group (least_loaded load n start start (load start) (range 1 n)), set_cursor (as_u64 (sw_next_shard s + 1)) s)
  else (Global, s).

Definition node_begin s (load : nat → Z) (group_id : nat) (p : Priority) (desc : NodeTaskDesc) : Begun :=
  let (job_id, s) := count_spawn s in
  let (pl, s) := route_node s load group_id in
  (pl, p, JNode (with_job_id job_id desc), s).

Definition spawn_node s (group_id : nat) (p : Priority) (desc : NodeTaskDesc) : S :=
  sent (node_begin s (load_of s) group_id p desc).

(** [wait_idle] when it looks. *)
Definition is_idle s : bool := (sw_pending_tasks s =? 0)%Z.
End shared.

(** ** Workers *)

(** A worker thread, with what [worker_loop] is called with. *)
Record WorkerThread := mkWorkerThread {
  wt_id : nat;
  wt_group : nat;
  wt_core : nat;
  wt_allow_global_steal : bool;
  wt_spin_iterations : nat;
}.

(** Where a worker is in its loop. *)
Inductive Phase (J : Type) :=
  | AtHead
  | Looking (spins : nat)
  | Blocked
  | Running (pl : Place) (job : J)
  | Exited.
Arguments AtHead {J}. Arguments Looking {J}. Arguments Blocked {J}. Arguments Running {J}. Arguments Exited {J}.

Section worker.
Context {T : Type}.
Abbreviation S := (SharedWorkerState (Job T)).
Implicit Types s : S.

(** What the worker finds in the first two phases of its loop. *)
Definition look s (w : WorkerThread) : option (Place * Job T * S) :=
  first_some [try_recv_all s (Group (wt_group w)) (wt_allow_global_steal w);
              if sw_sharded s then try_steal_shards s (wt_group w) (wt_group w + 1) else None].

(** The channels it selects from when it blocks. *)
Definition selects (w : WorkerThread) (pl : Place) : bool :=
  match pl with Global => wt_allow_global_steal w | Group g => g =? wt_group w end.

(** [run_job] before and after the job. *)
Definition count_in_flight (d : Z) (w : WorkerThread) s : S :=
  if sw_sharded s then set_in_flight (alter (λ n, as_u64 (n + d)) (wt_group w) (sw_in_flight s)) s else s.

(** Whether [execute_job] runs the task: a node without the executor is dropped. *)
Definition executed s (job : Job T) : bool := match job with Boxed _ _ => true | JNode _ => sw_node_exec s end.

(** The end of [execute_boxed] and [execute_node]. *)
Definition count_completion s : S :=
  set_counts (sw_total_spawned s) (as_u64 (sw_total_completed s + 1)) (as_u64 (sw_pending_tasks s - 1)) s.

(** A turn of a worker: the phases it moves between and what happens to the state. *)
Inductive worker_turn (w : WorkerThread) : Phase (Job T) → S → Phase (Job T) → S → Prop :=
  | turn_exit s : sw_shutdown s = true → worker_turn w AtHead s Exited s
  | turn_enter s : sw_shutdown s = false → worker_turn w AtHead s (Looking (wt_spin_iterations w)) s
  | turn_find k s pl job s' : look s w = Some (pl, job, s') →
      worker_turn w (Looking k) s (Running pl job) (count_in_flight 1 w s')
  | turn_spin k s : look s w = None → worker_turn w (Looking (Datatypes.S k)) s (Looking k) s
  | turn_block s : look s w = None → worker_turn w (Looking 0) s Blocked s
  | turn_select s pl p job s' : selects w pl = true → recv_from s pl p = Some (pl, job, s') →
      worker_turn w Blocked s (Running pl job) (count_in_flight 1 w s')
  | turn_timeout s : worker_turn w Blocked s AtHead s
  | turn_finish pl job s : worker_turn w (Running pl job) s AtHead (count_in_flight (-1) w (count_completion s)).
End worker.

(** ** The builder *)

Record WorkerGroupConfig := mkGroupConfig {
  wg_num_workers : nat;
  wg_core_ids : option (list nat);
  wg_group_id : nat;
  wg_allow_global_steal : bool;
  wg_spin_iterations : nat;
}.

(** [CustomSchedulerBuilder] and its default. *)
Record CustomSchedulerBuilder := mkSchedBuilder {
  sb_groups : list WorkerGroupConfig;
  sb_core_offset : nat;
  sb_system_threads : nat;
  sb_receiver_threads : nat;
  sb_worker_affinity : option WorkerAffinityConfig;
  sb_sharded : bool;
}.
Definition CustomSchedulerBuilder_new : CustomSchedulerBuilder := mkSchedBuilder [] 0 1 0 None false.

Definition set_threads (core_offset system_threads receiver_threads : nat) (b : CustomSchedulerBuilder) : CustomSchedulerBuilder :=
  mkSchedBuilder (sb_groups b) core_offset system_threads receiver_threads (sb_worker_affinity b) (sb_sharded b).
Definition add_group (config : WorkerGroupConfig) (b : CustomSchedulerBuilder) : CustomSchedulerBuilder :=
  mkSchedBuilder (sb_groups b ++ [config]) (sb_core_offset b) (sb_system_threads b) (sb_receiver_threads b)
    (sb_worker_affinity b) (sb_sharded b).
Definition set_worker_affinity (affinity : option WorkerAffinityConfig) (b : CustomSchedulerBuilder) : CustomSchedulerBuilder :=
  mkSchedBuilder (sb_groups b) (sb_core_offset b) (sb_system_threads b) (sb_receiver_threads b) affinity (sb_sharded b).
Definition set_sharded (sharded : bool) (b : CustomSchedulerBuilder) : CustomSchedulerBuilder :=
  mkSchedBuilder (sb_groups b) (sb_core_offset b) (sb_system_threads b) (sb_receiver_threads b) (sb_worker_affinity b) sharded.

(** [add_workers]. *)
Definition add_workers (num_workers spin_iterations : nat) (b : CustomSchedulerBuilder) : CustomSchedulerBuilder :=
  add_group (mkGroupConfig num_workers None (length (sb_groups b)) true spin_iterations) b.

(** [base + if s < extra { 1 } else { 0 }]. *)
Definition share (total parts s : nat) : nat := total / parts + (if s <? total mod parts then 1 else 0).

(** [add_sharded_workers]. *)
Definition add_shard (num_workers num_shards spin_iterations : nat) (b : CustomSchedulerBuilder) (s : nat) : CustomSchedulerBuilder :=
  let n := share num_workers num_shards s in
  if n =? 0 then b else add_group (mkGroupConfig n None (length (sb_groups b)) true spin_iterations) b.

Definition add_sharded_workers (num_workers shard_size spin_iterations : nat) (b : CustomSchedulerBuilder) : CustomSchedulerBuilder :=
  let shard_size := Nat.max shard_size 1 in
  let num_shards := Nat.max (div_ceil num_workers shard_size) 1 in
  set_sharded true (foldl (add_shard num_workers num_shards spin_iterations) b (range 0 num_shards)).

(** The order of [sort_by_key] in [with_affinity_groups]. *)
Definition gid_le (g1 g2 : nat * WorkerRange) : Prop := g1.1 ≤ g2.1.
#[export] Instance gid_le_dec : RelDecision gid_le.
Proof. intros g1 g2. unfold gid_le. apply _. Defined.

(** [with_affinity_groups]. *)
Definition with_affinity_groups (affinity : WorkerAffinityConfig) (total_workers : nat) (b : CustomSchedulerBuilder)
    : CustomSchedulerBuilder :=
  let assigned_workers : gset Z := ⋃ ((λ ir, list_to_set (workers_of ir.2)) <$> af_affinity_groups affinity) in
  let global_worker_count := total_workers - size assigned_workers in
  let b := add_group (mkGroupConfig global_worker_count None 0 true 64) b in
  let sorted_groups := merge_sort gid_le (af_affinity_groups affinity) in
  let b := foldl (λ b ir, add_group (mkGroupConfig (Z.to_nat (wr_len ir.2)) None ir.1 true 64) b) b sorted_groups in
  set_worker_affinity (Some affinity) b.

(** The group of each worker, as [spawn_worker_threads] computes it. *)
Definition has_affinity_groups (affinity : option WorkerAffinityConfig) : bool :=
  match affinity with Some a => negb (length (af_affinity_groups a) =? 0) | None => false end.

Definition share_out (st : list nat * nat) (gidx_count : nat * nat) : run (list nat * nat) :=
  foldM (λ st _, let! v := vec_set st.1 st.2 gidx_count.1 in Ret (v, S st.2)) st (range 0 gidx_count.2).

Definition worker_to_group_idx (total_workers num_groups : nat) (affinity : option WorkerAffinityConfig) : run (list nat) :=
  if has_affinity_groups affinity then
    let! a := unwrap affinity in
    Ret ((λ worker_id, match get_worker_groups a worker_id with g :: _ => g | [] => 0 end) <$> range 0 total_workers)
  else if 1 <? num_groups then
    run_map fst (foldM share_out (replicate total_workers 0, 0)
      ((λ g, (g, share total_workers num_groups g)) <$> range 0 num_groups))
  else Ret (replicate total_workers 0).

(** [spawn_worker_threads]: the threads of each group. *)
Definition start_worker (group_configs : list WorkerGroupConfig) (all_core_ids : list nat) (worker_core_offset : nat)
    (to_group : list nat) (handles : list (list WorkerThread)) (worker_id : nat) : run (list (list WorkerThread)) :=
  let! group_idx := vec_get to_group worker_id in
  let! core_id := vec_get all_core_ids (worker_core_offset + worker_id) in
  let! config := vec_get group_configs group_idx in
  let! group := vec_get handles group_idx in
  vec_set handles group_idx
    (group ++ [mkWorkerThread worker_id group_idx core_id (wg_allow_global_steal config) (wg_spin_iterations config)]).

Definition spawn_worker_threads (total_workers : nat) (group_configs : list WorkerGroupConfig)
    (affinity : option WorkerAffinityConfig) (all_core_ids : list nat) (worker_core_offset : nat)
    : run (list (list WorkerThread)) :=
  let! to_group := worker_to_group_idx total_workers (length group_configs) affinity in
  foldM (start_worker group_configs all_core_ids worker_core_offset to_group) (replicate (length group_configs) [])
    (range 0 total_workers).

(** [create_channels_and_state]. *)
Definition initial_workers {J} (num_groups : nat) (sharded : bool) : SharedWorkerState J :=
  mkWorkers ChannelSet_new (replicate num_groups ChannelSet_new) sharded 0 (replicate num_groups 0%Z) false 0 0 0 false.

(** [CustomScheduler], with [WorkerGroup] as its configuration and its threads. *)
Record CustomScheduler (J : Type) := mkScheduler {
  cu_shared : SharedWorkerState J;
  cu_groups : list (WorkerGroupConfig * list WorkerThread);
  cu_alloc : CoreAllocation;
  cu_total_workers : nat;
  cu_worker_affinity : option WorkerAffinityConfig;
}.
Arguments mkScheduler {J}. Arguments cu_shared {J}. Arguments cu_groups {J}. Arguments cu_alloc {J}.
Arguments cu_total_workers {J}. Arguments cu_worker_affinity {J}.

(** [build], on the sorted cores of the machine. *)
Definition build_scheduler {J} (core_ids : list nat) (b : CustomSchedulerBuilder) : run (CustomScheduler J) :=
  let requested_workers := nat_sum (wg_num_workers <$> sb_groups b) in
  let! alloc := allocate_cores core_ids (sb_core_offset b) (sb_system_threads b) (sb_receiver_threads b) requested_workers in
  let total_workers := ca_worker_count alloc in
  let num_groups := length (sb_groups b) in
  let! handles := spawn_worker_threads total_workers (sb_groups b) (sb_worker_affinity b) (ca_all_core_ids alloc) (ca_worker_offset alloc) in
  let groups := zip (sb_groups b) handles in
  if nat_sum (length ∘ snd <$> groups) =? total_workers then
    Ret (mkScheduler (initial_workers num_groups (sb_sharded b && (0 <? num_groups))) groups alloc total_workers (sb_worker_affinity b))
  else Panic.

(** [CUSTOM_SHARD_SIZE]. *)
Definition CUSTOM_SHARD_SIZE : nat := 8.

(** The custom case of [create_scheduler]; [spin] is [worker_spin_iterations]. *)
Definition create_custom {J} (core_ids : list nat) (spin core_offset num_workers system_threads receiver_threads : nat)
    (worker_affinity : option WorkerAffinityConfig) : run (CustomScheduler J) :=
  let builder := set_threads core_offset system_threads receiver_threads CustomSchedulerBuilder_new in
  let builder :=
    match worker_affinity with
    | Some affinity =>
        if negb (length (af_affinity_groups affinity) =? 0) then with_affinity_groups affinity num_workers builder
        else set_worker_affinity worker_affinity (add_sharded_workers num_workers CUSTOM_SHARD_SIZE spin builder)
    | None => add_sharded_workers num_workers CUSTOM_SHARD_SIZE spin builder
    end in
  build_scheduler core_ids builder.

(** The threads in the order of their numbers. *)
Definition threads {J} (c : CustomScheduler J) : list WorkerThread := concat (snd <$> cu_groups c).

(** [set_node_executor]: the first executor stays. *)
Definition set_node_executor {J} (s : SharedWorkerState J) : SharedWorkerState J :=
  mkWorkers (sw_global s) (sw_groups s) (sw_sharded s) (sw_next_shard s) (sw_in_flight s) (sw_shutdown s) (sw_total_spawned s)
    (sw_total_completed s) (sw_pending_tasks s) true.
