(* ===== verification/SchedSpec.v ===== *)
(** What the custom scheduler guarantees, for any interleaving of spawning threads and
    workers: jobs are neither lost nor run twice, the counters are exact, groups are
    exclusive, the least loaded shard is chosen, and every channel that a worker listens
    to is drained. A range whose workers all belong to earlier groups is not served. *)
From S2P Require Import Prelude Types WorkerRange GraphStruct Buffers NodeCache CoreAlloc Tables Affinity Sched.
From stdpp Require Import gmap sorting.

Lemma first_some_Some {A} (l : list (option A)) x : first_some l = Some x → Some x ∈ l.
Proof. induction l as [|[y|] l IH]; cbn; [done|intros [= ->]; left|intros; right; auto]. Qed.

Lemma first_some_None {A} (l : list (option A)) : first_some l = None ↔ ∀ o, o ∈ l → o = None.
Proof.
  induction l as [|[y|] l IH]; cbn; [split; [by intros _ ? ?%not_elem_of_nil|done]|split; [done|intros H; by apply H; left]|].
  rewrite IH. split; [intros H o [->|?]%elem_of_cons; auto|intros H o ?; apply H; by right].
Qed.

Section queues.
Context {T : Type}.
Abbreviation S := (SharedWorkerState (Job T)).
Implicit Types s : S.

Definition jobs (c : ChannelSet (Job T)) : list (Job T) := ch_high c ++ ch_normal c ++ ch_low c.
Definition jobs_at s (pl : Place) : list (Job T) := from_option jobs [] (channels_at s pl).
Definition places s : list Place := Global :: (Group <$> seq 0 (length (sw_groups s))).

(** The queued jobs, with the channels they are in. *)
Definition queued s : list (Place * Job T) := places s ≫= λ pl, (pl,.) <$> jobs_at s pl.

Lemma places_spec s pl : pl ∈ places s ↔ is_Some (channels_at s pl).
Proof.
  unfold places. rewrite elem_of_cons, list_elem_of_fmap. destruct pl as [|g]; cbn; [split; [by eexists|by left]|].
  split; [intros [?|(x & [= <-] & Hx%elem_of_seq)]; [done|apply lookup_lt_is_Some_2; lia]|].
  intros Hg%lookup_lt_is_Some. right. exists g. split; [done|]. apply elem_of_seq. lia.
Qed.

Lemma places_NoDup s : NoDup (places s).
Proof.
  unfold places. apply NoDup_cons. split; [by intros (x & ? & _)%list_elem_of_fmap|].
  apply NoDup_fmap_2; [by intros ? ? [= ->]|apply NoDup_seq].
Qed.

Lemma channels_at_put s pl c pl' : is_Some (channels_at s pl) →
  channels_at (put_channels pl c s) pl' = if decide (pl' = pl) then Some c else channels_at s pl'.
Proof.
  intros Hpl. case_decide as Heq.
  - subst pl'. destruct pl as [|g]; cbn; [done|]. rewrite list_lookup_insert_eq; [done|]. by apply lookup_lt_is_Some.
  - destruct pl as [|g], pl' as [|g']; cbn; try done. rewrite list_lookup_insert_ne; [done|]. congruence.
Qed.

Lemma places_put s pl c : places (put_channels pl c s) = places s.
Proof. unfold places. destruct pl; cbn; [done|]. by rewrite length_insert. Qed.

(** Replacing the channels at one place changes the jobs there. *)
Lemma queued_put s pl c c' : channels_at s pl = Some c → ∃ rest, queued s ≡ₚ ((pl,.) <$> jobs c) ++ rest
  ∧ queued (put_channels pl c' s) ≡ₚ ((pl,.) <$> jobs c') ++ rest.
Proof.
  intros Hc. assert (Hin : pl ∈ places s) by (apply places_spec; by eexists).
  apply list_elem_of_split in Hin as (l1 & l2 & Hl). pose proof (places_NoDup s) as Hnd. rewrite Hl in Hnd.
  apply NoDup_app in Hnd as (_ & H1 & [H2 _]%NoDup_cons).
  exists ((l1 ≫= λ pl, (pl,.) <$> jobs_at s pl) ++ (l2 ≫= λ pl, (pl,.) <$> jobs_at s pl)).
  assert (Hbind : ∀ s', places s' = places s → queued s' ≡ₚ ((pl,.) <$> jobs_at s' pl)
      ++ (l1 ≫= λ pl, (pl,.) <$> jobs_at s' pl) ++ (l2 ≫= λ pl, (pl,.) <$> jobs_at s' pl)).
  { intros s' Hs'. unfold queued. rewrite Hs', Hl, bind_app, bind_cons. solve_Permutation. }
  split; [rewrite (Hbind s) by done; unfold jobs_at at 1; by rewrite Hc|].
  rewrite Hbind by apply places_put.
  assert (Hsame : ∀ l, pl ∉ l → (l ≫= λ pl', (pl',.) <$> jobs_at (put_channels pl c' s) pl') = l ≫= λ pl, (pl,.) <$> jobs_at s pl).
  { induction l as [|x l IH]; intros Hnl; [done|]. rewrite !bind_cons. apply not_elem_of_cons in Hnl as [Hx Hnl]. rewrite IH by done.
    f_equal. unfold jobs_at. rewrite channels_at_put by (by eexists). by rewrite decide_False. }
  assert (H3 : pl ∉ l1) by (intros Hin; apply (H1 pl Hin); left).
  rewrite !Hsame by done. unfold jobs_at at 1. rewrite channels_at_put by (by eexists). by rewrite decide_True.
Qed.

Lemma jobs_set_chan p l (c : ChannelSet (Job T)) : ∃ rest, jobs (set_chan p l c) ≡ₚ l ++ rest ∧ jobs c ≡ₚ chan p c ++ rest.
Proof.
  unfold jobs. destruct p; cbn; [exists (ch_normal c ++ ch_low c)|exists (ch_high c ++ ch_low c)|exists (ch_high c ++ ch_normal c)];
    split; solve_Permutation.
Qed.

Lemma send_queued s pl p job : is_Some (channels_at s pl) → queued (send_to s pl p job) ≡ₚ (pl, job) :: queued s.
Proof.
  intros [c Hc]. unfold send_to. rewrite Hc. destruct (queued_put s pl c (cs_send p job c) Hc) as (rest & -> & ->).
  unfold cs_send. destruct (jobs_set_chan p (chan p c ++ [job]) c) as (r & -> & ->). rewrite !fmap_app. cbn. solve_Permutation.
Qed.

(** The state without its queues. *)
Definition same_counts s s' : Prop :=
  sw_sharded s' = sw_sharded s ∧ sw_next_shard s' = sw_next_shard s ∧ sw_in_flight s' = sw_in_flight s
  ∧ sw_shutdown s' = sw_shutdown s ∧ sw_total_spawned s' = sw_total_spawned s ∧ sw_total_completed s' = sw_total_completed s
  ∧ sw_pending_tasks s' = sw_pending_tasks s ∧ sw_node_exec s' = sw_node_exec s ∧ places s' = places s.

Lemma send_same s pl p job : same_counts s (send_to s pl p job).
Proof. unfold send_to. destruct (channels_at s pl) eqn:Hc; [|done]. unfold same_counts. rewrite places_put. by destruct pl. Qed.

Lemma recv_spec s pl p pl' job s' : recv_from s pl p = Some (pl', job, s') →
  pl' = pl ∧ pl ∈ places s ∧ queued s ≡ₚ (pl, job) :: queued s' ∧ same_counts s s'.
Proof.
  unfold recv_from, try_recv. destruct (channels_at s pl) as [c|] eqn:Hc; [|done].
  destruct (chan p c) as [|j l] eqn:Hch; [done|]. cbn. intros [= <- <- <-]. split; [done|].
  split; [apply places_spec; by eexists|]. split.
  - destruct (queued_put s pl c (set_chan p l c) Hc) as (rest & -> & ->).
    destruct (jobs_set_chan p l c) as (r & -> & ->). rewrite Hch, !fmap_app. cbn. solve_Permutation.
  - unfold same_counts. rewrite places_put. by destruct pl.
Qed.

Lemma recv_None s pl p : recv_from s pl p = None → from_option (chan p) [] (channels_at s pl) = [].
Proof. unfold recv_from, try_recv. destruct (channels_at s pl) as [c|]; [|done]. cbn. by destruct (chan p c). Qed.

Lemma jobs_at_nil s pl : (∀ p, recv_from s pl p = None) → jobs_at s pl = [].
Proof.
  intros H. unfold jobs_at. pose proof (recv_None s pl PHigh (H _)) as H1. pose proof (recv_None s pl PNormal (H _)) as H2.
  pose proof (recv_None s pl PLow (H _)) as H3. destruct (channels_at s pl) as [c|]; [|done]. cbn in *. unfold jobs. by rewrite H1, H2, H3.
Qed.

(** ** What a worker finds *)

(** The channels in reach of a worker that looks for jobs. *)
Definition reaches s (w : WorkerThread) (pl : Place) : bool :=
  selects w pl || (sw_sharded s && match pl with Group _ => true | Global => false end).

Lemma elem_of_6 {A} (x a b c d e f : A) : x ∈ [a; b; c; d; e; f] ↔ x = a ∨ x = b ∨ x = c ∨ x = d ∨ x = e ∨ x = f.
Proof. rewrite !elem_of_cons, elem_of_nil. tauto. Qed.

Lemma try_recv_all_Some s g allow r : try_recv_all s g allow = Some r →
  ∃ pl p, recv_from s pl p = Some r ∧ (pl = g ∨ pl = Global ∧ allow = true).
Proof.
  intros H%first_some_Some. apply elem_of_6 in H. destruct allow; repeat destruct H as [H|H]; try done; eauto 6.
Qed.

Lemma try_recv_all_None s g allow : try_recv_all s g allow = None →
  ∀ pl p, (pl = g ∨ pl = Global ∧ allow = true) → recv_from s pl p = None.
Proof.
  unfold try_recv_all. rewrite first_some_None. intros H pl p [->|[-> ->]]; apply H, elem_of_6; destruct p; auto 7.
Qed.

Lemma try_steal_Some s own start r : try_steal_shards s own start = Some r → ∃ g p, recv_from s (Group g) p = Some r.
Proof.
  intros H%first_some_Some. apply list_elem_of_fmap in H as (k & H & _). cbv zeta in H.
  destruct ((start + k) mod length (sw_groups s) =? own); [done|].
  symmetry in H. apply first_some_Some in H. rewrite !elem_of_cons, elem_of_nil in H. naive_solver.
Qed.

Lemma try_steal_None s own start : try_steal_shards s own start = None →
  ∀ g p, g < length (sw_groups s) → g ≠ own → recv_from s (Group g) p = None.
Proof.
  unfold try_steal_shards. rewrite first_some_None. intros H g p Hg Hne. set (n := length (sw_groups s)) in *.
  specialize (H (first_some [recv_from s (Group g) PHigh; recv_from s (Group g) PNormal; recv_from s (Group g) PLow])).
  assert (Hn : first_some [recv_from s (Group g) PHigh; recv_from s (Group g) PNormal; recv_from s (Group g) PLow] = None).
  { apply H, list_elem_of_fmap. exists ((g + (n - start mod n)) mod n).
    assert (Hk : (start + (g + (n - start mod n)) mod n) mod n = g).
    { pose proof (Nat.mod_upper_bound start n ltac:(lia)). rewrite Nat.Div0.add_mod_idemp_r.
      pose proof (Nat.div_mod_eq start n) as Hd.
      replace (start + (g + (n - start mod n))) with (g + (1 + start / n) * n) by lia. by rewrite Nat.Div0.mod_add, Nat.mod_small. }
    rewrite Hk. rewrite (proj2 (Nat.eqb_neq g own)) by done. split; [done|]. apply elem_of_range. split; [lia|]. apply Nat.mod_upper_bound. lia. }
  rewrite first_some_None in Hn. apply Hn. destruct p; rewrite !elem_of_cons; auto.
Qed.

Lemma look_Some s w r : look s w = Some r → ∃ pl p, recv_from s pl p = Some r ∧ reaches s w pl = true.
Proof.
  intros H%first_some_Some. unfold reaches. rewrite !elem_of_cons, elem_of_nil in H. destruct H as [H|[H|[]]].
  - symmetry in H. apply try_recv_all_Some in H as (pl & p & Hr & Hpl). exists pl, p. split; [done|].
    destruct Hpl as [->|[-> Ha]]; cbn; [by rewrite Nat.eqb_refl|by rewrite Ha].
  - destruct (sw_sharded s); [|done]. symmetry in H. apply try_steal_Some in H as (g & p & Hr). exists (Group g), p.
    split; [done|]. by rewrite orb_true_r.
Qed.

Lemma look_None s w : look s w = None → ∀ pl, reaches s w pl = true → jobs_at s pl = [].
Proof.
  unfold look. rewrite first_some_None. intros H pl Hr. apply jobs_at_nil. intros p.
  pose proof (H (try_recv_all s (Group (wt_group w)) (wt_allow_global_steal w)) ltac:(left)) as H1.
  pose proof (H (if sw_sharded s then try_steal_shards s (wt_group w) (wt_group w + 1) else None) ltac:(right; left)) as H2.
  pose proof (try_recv_all_None s _ _ H1) as Hall. unfold reaches, selects in Hr. destruct pl as [|g].
  - apply Hall. right. split; [done|]. destruct (wt_allow_global_steal w), (sw_sharded s); done.
  - destruct (decide (g = wt_group w)) as [->|Hne]; [by apply Hall; left|]. rewrite (proj2 (Nat.eqb_neq _ _)) in Hr by done. cbn in Hr.
    destruct (sw_sharded s); [|done]. destruct (decide (g < length (sw_groups s))); [by eapply try_steal_None|].
    unfold recv_from. cbn. by rewrite lookup_ge_None_2 by lia.
Qed.
End queues.

(** ** Threads that spawn and workers that run *)

(** The scheduler with its workers: the shared state, the spawns that have counted their
    job and not sent it yet, and the phase of each worker. The two last fields record, for
    the theorems, what was spawned to which channels, and what each worker has run, with
    whether the task was executed. *)
Record Pool (T : Type) := mkPool {
  po_shared : SharedWorkerState (Job T);
  po_sending : list (Place * Priority * Job T);
  po_phases : list (Phase (Job T));
  po_spawned : list (Place * Job T);
  po_done : list (nat * (Place * Job T) * bool);
}.
Arguments mkPool {T}. Arguments po_shared {T}. Arguments po_sending {T}. Arguments po_phases {T}.
Arguments po_spawned {T}. Arguments po_done {T}.

Section pool.
Context {T : Type} (workers : list WorkerThread).
Abbreviation W := (SharedWorkerState (Job T)).

(** The spawns: those of closures, to the global channels or to a group there is, and those of
    nodes, with any loads that the thread may have read. *)
Inductive begins (s : W) : Begun (T := T) → Prop :=
  | begins_global p meta task : begins s (boxed_begin s Global p meta task)
  | begins_group g p meta task : begins s (boxed_begin s (group_place s g) p meta task)
  | begins_node load g p desc : begins s (node_begin s load g p desc).

Definition finishing (w : nat) (ph : Phase (Job T)) (s : W) : list (nat * (Place * Job T) * bool) :=
  match ph with Running pl job => [(w, (pl, job), executed s job)] | _ => [] end.

Inductive pool_step : Pool T → Pool T → Prop :=
  | step_begin s sending phases spawned fin pl p job s' : begins s (pl, p, job, s') →
      pool_step (mkPool s sending phases spawned fin)
                (mkPool s' (sending ++ [(pl, p, job)]) phases (spawned ++ [(pl, job)]) fin)
  | step_send s before pl p job after phases spawned fin :
      pool_step (mkPool s (before ++ (pl, p, job) :: after) phases spawned fin)
                (mkPool (send_to s pl p job) (before ++ after) phases spawned fin)
  | step_worker s sending phases spawned fin w wt ph ph' s' : workers !! w = Some wt → phases !! w = Some ph →
      worker_turn wt ph s ph' s' →
      pool_step (mkPool s sending phases spawned fin)
                (mkPool s' sending (<[w := ph']> phases) spawned (fin ++ finishing w ph s))
  | step_shutdown s sending phases spawned fin :
      pool_step (mkPool s sending phases spawned fin) (mkPool (set_shutdown s) sending phases spawned fin).

(** The runtime installs the executor of nodes before it spawns any. *)
Definition initial_pool (num_groups : nat) (sharded : bool) : Pool T :=
  mkPool (set_node_executor (initial_workers num_groups sharded)) [] (replicate (length workers) AtHead) [] [].

Definition pool_reach (num_groups : nat) (sharded : bool) : Pool T → Prop := rtc pool_step (initial_pool num_groups sharded).

(** ** The invariant *)

Definition sending_jobs (l : list (Place * Priority * Job T)) : list (Place * Job T) := (λ x, (x.1.1, x.2)) <$> l.
Definition running_job (ph : Phase (Job T)) : option (Place * Job T) := match ph with Running pl job => Some (pl, job) | _ => None end.
Definition running (phases : list (Phase (Job T))) : list (Place * Job T) := omap running_job phases.

(** The workers of a group that run a job. *)
Definition busy (g : nat) (wts : list WorkerThread) (phases : list (Phase (Job T))) : nat :=
  length (filter (λ wp, wt_group wp.1 = g ∧ is_Some (running_job wp.2)) (zip wts phases)).

Record pool_inv (n : nat) (sharded : bool) (po : Pool T) : Prop := {
  pi_sharded : sw_sharded (po_shared po) = sharded;
  pi_places : places (po_shared po) = Global :: (Group <$> seq 0 n);
  pi_phases : length (po_phases po) = length workers;
  pi_jobs : po_spawned po ≡ₚ sending_jobs (po_sending po) ++ queued (po_shared po) ++ running (po_phases po) ++ (snd ∘ fst <$> po_done po);
  pi_spawned : sw_total_spawned (po_shared po) = as_u64 (Z.of_nat (length (po_spawned po)));
  pi_completed : sw_total_completed (po_shared po) = as_u64 (Z.of_nat (length (po_done po)));
  pi_pending : sw_pending_tasks (po_shared po)
    = as_u64 (Z.of_nat (length (sending_jobs (po_sending po) ++ queued (po_shared po) ++ running (po_phases po))));
  pi_sending : ∀ pl p job, (pl, p, job) ∈ po_sending po → pl ∈ places (po_shared po);
  pi_in_flight : sharded = true → ∀ g, g < n → sw_in_flight (po_shared po) !! g = Some (as_u64 (Z.of_nat (busy g workers (po_phases po))));
  pi_running : ∀ w wt pl job, sharded = false → workers !! w = Some wt → po_phases po !! w = Some (Running pl job) → selects wt pl = true;
  pi_done : ∀ w pl job ran, (w, (pl, job), ran) ∈ po_done po →
    ran = true ∧ ∃ wt, workers !! w = Some wt ∧ (sharded = false → selects wt pl = true);
  pi_exec : sw_node_exec (po_shared po) = true;
}.

Lemma as_u64_S n : as_u64 (as_u64 (Z.of_nat n) + 1) = as_u64 (Z.of_nat (S n)).
Proof. unfold as_u64. rewrite Zplus_mod_idemp_l. f_equal. lia. Qed.

Lemma as_u64_pred n : as_u64 (as_u64 (Z.of_nat (S n)) - 1) = as_u64 (Z.of_nat n).
Proof. unfold as_u64. rewrite Zminus_mod_idemp_l. f_equal. lia. Qed.

Lemma running_insert phases w ph ph' : phases !! w = Some ph →
  ∃ rest, running phases ≡ₚ option_list (running_job ph) ++ rest ∧ running (<[w := ph']> phases) ≡ₚ option_list (running_job ph') ++ rest.
Proof.
  intros Hw. exists (running (take w phases) ++ running (drop (S w) phases)). split.
  - rewrite <- (take_drop_middle phases w ph Hw) at 1. unfold running. rewrite omap_app. cbn [omap list_omap].
    destruct (running_job ph); cbn [option_list]; [|done]. by rewrite <- Permutation_middle.
  - rewrite insert_take_drop by (by eapply lookup_lt_Some). unfold running. rewrite omap_app. cbn [omap list_omap].
    destruct (running_job ph'); cbn [option_list]; [|done]. by rewrite <- Permutation_middle.
Qed.

Lemma busy_cons g x wts y phases :
  busy g (x :: wts) (y :: phases) = (if decide (wt_group x = g ∧ is_Some (running_job y)) then 1 else 0) + busy g wts phases.
Proof. unfold busy. cbn [zip zip_with]. rewrite filter_cons. cbn [fst snd]. by case_decide. Qed.

Lemma busy_insert g w wt ph ph' : ∀ wts phases, wts !! w = Some wt → phases !! w = Some ph →
  busy g wts (<[w := ph']> phases) + (if decide (wt_group wt = g ∧ is_Some (running_job ph)) then 1 else 0)
  = busy g wts phases + (if decide (wt_group wt = g ∧ is_Some (running_job ph')) then 1 else 0).
Proof.
  induction w as [|w IH]; intros [|x wts] [|y phases] Hw Hp; try done; cbn in Hw, Hp.
  - injection Hw as ->. injection Hp as ->. change (<[0 := ph']> (ph :: phases)) with (ph' :: phases). rewrite !busy_cons. lia.
  - specialize (IH wts phases Hw Hp). change (<[S w := ph']> (y :: phases)) with (y :: <[w := ph']> phases). rewrite !busy_cons. lia.
Qed.

(** ** Every step keeps it *)

#[local] Arguments queued : simpl never.
#[local] Arguments running : simpl never.
#[local] Arguments sending_jobs : simpl never.
#[local] Arguments finishing : simpl never.

Lemma least_loaded_lt (load : nat → Z) n start best bl ks : 0 < n → best < n → least_loaded load n start best bl ks < n.
Proof.
  intros Hn. revert best bl. induction ks as [|k ks IH]; intros best bl Hb; cbn [least_loaded]; [done|].
  repeat case_match; auto. apply IH, Nat.mod_upper_bound. lia.
Qed.

Lemma spawn_route_spec (s : W) load g pl s' : (sw_sharded s = true → 0 < length (sw_groups s)) → route_node s load g = (pl, s') →
  pl ∈ places s ∧ ∃ c, s' = set_cursor c s.
Proof.
  intros Hn. assert (Hself : s = set_cursor (sw_next_shard s) s) by by destruct s.
  unfold route_node. destruct ((0 <? g) && _) eqn:Hg.
  { intros [= <- <-]. apply andb_true_iff in Hg as [_ Hg%Nat.ltb_lt]. split; [apply places_spec, lookup_lt_is_Some_2, Hg|by eexists]. }
  destruct (sw_sharded s) eqn:Hs; [|intros [= <- <-]; split; [left|by eexists]].
  specialize (Hn eq_refl). destruct (_ =? 1); intros [= <- <-]; (split; [apply places_spec, lookup_lt_is_Some_2|by eexists]); [done|].
  apply least_loaded_lt; [done|]. pose proof (Z.mod_pos_bound (sw_next_shard s) (Z.of_nat (length (sw_groups s))) ltac:(lia)). lia.
Qed.

(** What a spawn does before its send. *)
Lemma begins_spec (s : W) pl p job s' : (sw_sharded s = true → 0 < length (sw_groups s)) → begins s (pl, p, job, s') →
  pl ∈ places s ∧ ∃ c, s' = set_cursor c (count_spawn s).2.
Proof.
  intros Hn Hb. assert (Hself : (count_spawn s).2 = set_cursor (sw_next_shard s) (count_spawn s).2) by done.
  remember (pl, p, job, s') as b eqn:Heq. destruct Hb as [p' meta task|g p' meta task|load g p' desc].
  - unfold boxed_begin in Heq. cbn in Heq. injection Heq as <- _ _ <-. split; [left|by eexists].
  - unfold boxed_begin in Heq. cbn in Heq. injection Heq as <- _ _ <-. split; [|by eexists].
    unfold group_place. destruct (g <? _) eqn:Hg; [|left]. by apply places_spec, lookup_lt_is_Some_2, Nat.ltb_lt.
  - unfold node_begin in Heq. cbn in Heq. destruct (route_node _ load g) as [pl' s1] eqn:Hr. injection Heq as <- _ _ <-.
    apply spawn_route_spec in Hr as (Hpl & c & ->); [|done]. split; [done|by eexists].
Qed.

Lemma count_in_flight_queues d wt (s : W) : queued (count_in_flight d wt s) = queued s ∧ places (count_in_flight d wt s) = places s
  ∧ sw_sharded (count_in_flight d wt s) = sw_sharded s ∧ sw_total_spawned (count_in_flight d wt s) = sw_total_spawned s
  ∧ sw_total_completed (count_in_flight d wt s) = sw_total_completed s ∧ sw_pending_tasks (count_in_flight d wt s) = sw_pending_tasks s
  ∧ sw_in_flight (count_in_flight d wt s) = (if sw_sharded s then alter (λ n, as_u64 (n + d)) (wt_group wt) (sw_in_flight s) else sw_in_flight s)
  ∧ sw_node_exec (count_in_flight d wt s) = sw_node_exec s ∧ sw_shutdown (count_in_flight d wt s) = sw_shutdown s.
Proof. unfold count_in_flight. destruct (sw_sharded s) eqn:Hs; by rewrite <- ?Hs. Qed.

(** The difference a turn makes to the workers that run a job. *)
Definition flight (ph ph' : Phase (Job T)) : Z :=
  ((if decide (is_Some (running_job ph')) then 1 else 0) - (if decide (is_Some (running_job ph)) then 1 else 0))%Z.

Lemma turn_spec w wt ph (s : W) ph' s' : worker_turn wt ph s ph' s' →
  let n := length (finishing w ph s) in
  queued s ++ option_list (running_job ph) ≡ₚ queued s' ++ option_list (running_job ph') ++ (snd ∘ fst <$> finishing w ph s)
  ∧ places s' = places s ∧ sw_sharded s' = sw_sharded s ∧ sw_total_spawned s' = sw_total_spawned s
  ∧ (sw_total_completed s' = if n =? 0 then sw_total_completed s else as_u64 (sw_total_completed s + 1))
  ∧ (sw_pending_tasks s' = if n =? 0 then sw_pending_tasks s else as_u64 (sw_pending_tasks s - 1))
  ∧ (sw_in_flight s' = if sw_sharded s && negb (flight ph ph' =? 0)%Z
                       then alter (λ n, as_u64 (n + flight ph ph')) (wt_group wt) (sw_in_flight s) else sw_in_flight s)
  ∧ (∀ pl job, ph' = Running pl job → reaches s wt pl = true)
  ∧ sw_node_exec s' = sw_node_exec s ∧ sw_shutdown s' = sw_shutdown s.
Proof.
  assert (Htake : ∀ pl job s1 ph0 p, recv_from s pl p = Some (pl, job, s1) → running_job ph0 = None → reaches s wt pl = true →
    let s2 := count_in_flight 1 wt s1 in
    queued s ++ option_list (running_job ph0) ≡ₚ queued s2 ++ [(pl, job)] ++ []
    ∧ places s2 = places s ∧ sw_sharded s2 = sw_sharded s ∧ sw_total_spawned s2 = sw_total_spawned s
    ∧ sw_total_completed s2 = sw_total_completed s ∧ sw_pending_tasks s2 = sw_pending_tasks s
    ∧ (sw_in_flight s2 = if sw_sharded s && negb (flight ph0 (Running pl job) =? 0)%Z
                         then alter (λ n, as_u64 (n + flight ph0 (Running pl job))) (wt_group wt) (sw_in_flight s) else sw_in_flight s)
    ∧ (∀ pl' job', Running pl job = Running pl' job' → reaches s wt pl' = true)
    ∧ sw_node_exec s2 = sw_node_exec s ∧ sw_shutdown s2 = sw_shutdown s).
  { intros pl job s1 ph0 p (_ & _ & Hq & H1 & _ & H3 & H4 & H5 & H6 & H7 & H8 & H9)%recv_spec Hph Hr s2. subst s2.
    destruct (count_in_flight_queues 1 wt s1) as (-> & -> & -> & -> & -> & -> & -> & -> & ->). rewrite H1, H3, H4, H5, H6, H7, H8, H9, Hph, Hq.
    split; [cbn [option_list]; rewrite app_nil_r; apply Permutation_cons_append|]. do 5 (split; [done|]).
    unfold flight. rewrite Hph. cbn. split; [by destruct (sw_sharded s)|]. split; [by intros ? ? [= <- <-]|done]. }
  assert (Hstay : ∀ ph0 ph1, running_job ph0 = None → running_job ph1 = None → flight ph0 ph1 = 0%Z).
  { intros ph0 ph1 H0 H1. unfold flight. by rewrite H0, H1. }
  destruct 1 as [s Hs|s Hs|k s pl job s' Hl|k s Hl|s Hl|s pl p job s' Hsel Hr|s|pl job s]; cbn [finishing running_job option_list length fmap list_fmap app Nat.eqb];
    rewrite ?Hstay by done; rewrite ?andb_false_r; try (split_and!; done).
  - apply look_Some in Hl as (pl' & p & Hr & Hreach). pose proof Hr as [-> _]%recv_spec. by apply (Htake pl' job s' (Looking k) p).
  - apply (Htake pl job s' Blocked p); [done|done|]. unfold reaches. by rewrite Hsel.
  - destruct (count_in_flight_queues (-1) wt (count_completion s)) as (-> & -> & -> & -> & -> & -> & -> & -> & ->). cbn.
    do 6 (split; [done|]). split; [by destruct (sw_sharded s)|done].
Qed.

Context (n : nat) (sharded : bool) (Hshards : sharded = true → 0 < n).

Lemma inv_groups po : pool_inv n sharded po → length (sw_groups (po_shared po)) = n.
Proof.
  intros Hinv. pose proof (f_equal length (pi_places _ _ _ Hinv)) as Hl. unfold places in Hl. cbn in Hl.
  rewrite !length_fmap, !length_seq in Hl. lia.
Qed.

Lemma initial_inv : pool_inv n sharded (initial_pool n sharded).
Proof.
  assert (Hq : queued (set_node_executor (initial_workers (J := Job T) n sharded)) = []).
  { unfold queued, places. cbn. rewrite length_replicate. apply elem_of_nil_inv. intros x (pl & Hx & Hpl)%list_elem_of_bind.
    apply list_elem_of_fmap in Hpl as (g & -> & Hg). unfold jobs_at in Hx. cbn in Hx.
    destruct (replicate n ChannelSet_new !! g) as [c|] eqn:Hc; cbn in Hx; [|by apply not_elem_of_nil in Hx].
    apply lookup_replicate in Hc as [-> _]. by apply not_elem_of_nil in Hx. }
  assert (Hr : ∀ k, running (replicate k (AtHead (J := Job T))) = []) by (by induction k).
  split; cbn [initial_pool po_shared po_sending po_phases po_spawned po_done sending_jobs fmap list_fmap app]; rewrite ?Hq, ?Hr; try done.
  - unfold places. cbn. by rewrite length_replicate.
  - by rewrite length_replicate.
  - by intros ? ? ? ?%not_elem_of_nil.
  - intros _ g Hg. cbn. rewrite lookup_replicate_2 by done. do 2 f_equal. unfold busy.
    replace (filter _ _) with ([] : list (WorkerThread * Phase (Job T))); [done|]. symmetry. apply elem_of_nil_inv.
    intros [wt ph] [[_ Hb] Hin]%list_elem_of_filter. apply elem_of_zip_r, elem_of_replicate in Hin as [-> _]. by destruct Hb.
  - intros w wt pl job _ _ [? _]%lookup_replicate. done.
  - by intros ? ? ? ? ?%not_elem_of_nil.
Qed.

Lemma begin_inv s sending phases spawned fin pl p job s' : begins s (pl, p, job, s') →
  pool_inv n sharded (mkPool s sending phases spawned fin) →
  pool_inv n sharded (mkPool s' (sending ++ [(pl, p, job)]) phases (spawned ++ [(pl, job)]) fin).
Proof.
  intros Hb Hinv. pose proof (inv_groups _ Hinv) as Hn. cbn in Hn.
  apply begins_spec in Hb as (Hpl & c & ->); [|intros H; rewrite Hn; apply Hshards; by rewrite <- (pi_sharded _ _ _ Hinv)].
  destruct Hinv as [H1 H2 H3 H4 H5 H6 H7 H8 H9 H10 H11 H12]. cbn in *. split; cbn; try done.
  - change (queued (set_cursor c _)) with (queued s). rewrite H4. unfold sending_jobs. rewrite fmap_app. cbn. solve_Permutation.
  - rewrite H5, as_u64_S, length_app. do 2 f_equal. cbn. lia.
  - change (queued (set_cursor c _)) with (queued s). rewrite H7, as_u64_S. unfold sending_jobs.
    rewrite fmap_app, !length_app, !length_fmap. do 2 f_equal. cbn [length]. lia.
  - intros pl' p' job' [Hin|Hin%list_elem_of_singleton]%elem_of_app; [by eapply H8|]. injection Hin as -> _ _. exact Hpl.
Qed.

Lemma send_inv s before pl p job after phases spawned fin :
  pool_inv n sharded (mkPool s (before ++ (pl, p, job) :: after) phases spawned fin) →
  pool_inv n sharded (mkPool (send_to s pl p job) (before ++ after) phases spawned fin).
Proof.
  intros [H1 H2 H3 H4 H5 H6 H7 H8 H9 H10 H11 H12]. cbn in *.
  assert (Hq : queued (send_to s pl p job) ≡ₚ (pl, job) :: queued s).
  { apply send_queued, places_spec, (H8 pl p job), elem_of_app. right. left. }
  destruct (send_same s pl p job) as (E1 & _ & E3 & _ & E5 & E6 & E7 & E8 & E9).
  assert (Hp : sending_jobs (before ++ (pl, p, job) :: after) ++ queued s ++ running phases
               ≡ₚ sending_jobs (before ++ after) ++ queued (send_to s pl p job) ++ running phases).
  { rewrite Hq. unfold sending_jobs. rewrite !fmap_app. cbn. solve_Permutation. }
  split; cbn; rewrite ?E1, ?E3, ?E5, ?E6, ?E7, ?E8, ?E9; try done.
  - rewrite H4, !(assoc (++)). rewrite !(assoc (++)) in Hp. by rewrite Hp.
  - by rewrite H7, Hp.
  - intros pl' p' job' Hin. apply (H8 pl' p' job'). rewrite elem_of_app in *. set_solver.
Qed.

Lemma alter_busy (l : list Z) g g' b d : 0 ≤ b → l !! g = Some (as_u64 (Z.of_nat b)) →
  alter (λ m, as_u64 (m + d)) g' l !! g = Some (as_u64 (Z.of_nat b + (if decide (g' = g) then d else 0))).
Proof.
  intros _ Hl. case_decide as Hg; [subst g'; rewrite list_lookup_alter_eq, Hl|rewrite list_lookup_alter_ne by done; by rewrite Hl, Z.add_0_r].
  cbn. unfold as_u64. by rewrite Zplus_mod_idemp_l.
Qed.

Lemma worker_inv s sending phases spawned fin w wt ph ph' s' : workers !! w = Some wt → phases !! w = Some ph →
  worker_turn wt ph s ph' s' → pool_inv n sharded (mkPool s sending phases spawned fin) →
  pool_inv n sharded (mkPool s' sending (<[w := ph']> phases) spawned (fin ++ finishing w ph s)).
Proof.
  intros Hw Hph Ht [H1 H2 H3 H4 H5 H6 H7 H8 H9 H10 H11 H12]. cbn in *.
  destruct (turn_spec w wt ph s ph' s' Ht) as (T1 & T2 & T3 & T4 & T5 & T6 & T7 & T8 & T9 & _).
  destruct (running_insert phases w ph ph' Hph) as (rest & R1 & R2).
  assert (Hp : sending_jobs sending ++ queued s ++ running phases
    ≡ₚ (sending_jobs sending ++ queued s' ++ running (<[w := ph']> phases)) ++ (snd ∘ fst <$> finishing w ph s)).
  { rewrite R1, R2, (assoc (++) (queued s)), T1. solve_Permutation. }
  assert (Hlen : length (sending_jobs sending ++ queued s ++ running phases)
    = length (sending_jobs sending ++ queued s' ++ running (<[w := ph']> phases)) + length (finishing w ph s)) by by rewrite Hp, length_app, length_fmap.
  assert (Hfin : length (finishing w ph s) = 0 ∨ length (finishing w ph s) = 1) by (destruct ph; cbn; auto).
  split; cbn; rewrite ?T2, ?T3, ?T4; try done.
  - by rewrite length_insert.
  - rewrite fmap_app, H4. rewrite !(assoc (++)) in Hp |- *. rewrite Hp. solve_Permutation.
  - rewrite T5, H6, length_app. destruct Hfin as [-> | ->]; cbn [Nat.eqb]; [by rewrite Nat.add_0_r|]. rewrite as_u64_S. do 2 f_equal. lia.
  - rewrite T6, H7, Hlen. destruct Hfin as [-> | ->]; cbn [Nat.eqb]; [by rewrite Nat.add_0_r|]. by rewrite Nat.add_1_r, as_u64_pred.
  - intros Hs g Hg. specialize (H9 Hs g Hg). pose proof (busy_insert g w wt ph ph' workers phases Hw Hph) as Hb. rewrite T7, H1, Hs.
    cbn [andb]. unfold flight in *. destruct (_ =? 0)%Z eqn:Hz; cbn [negb].
    + rewrite H9. do 3 f_equal. repeat case_decide; try lia; tauto.
    + rewrite (alter_busy _ _ _ _ _ (Nat.le_0_l _) H9). do 2 f_equal. repeat case_decide; try lia; tauto.
  - intros w' wt' pl job Hs Hw'. destruct (decide (w' = w)) as [->|Hne].
    + rewrite list_lookup_insert_eq by (by eapply lookup_lt_Some). intros [= ->]. specialize (T8 pl job eq_refl).
      rewrite Hw in Hw'. injection Hw' as <-. unfold reaches in T8. rewrite H1, Hs, orb_false_r in T8. done.
    + rewrite list_lookup_insert_ne by done. by apply H10.
  - intros w' pl job ran [Hin|Hin]%elem_of_app; [by eapply H11|]. unfold finishing in Hin.
    destruct ph as [| | |pl0 job0|]; try by apply not_elem_of_nil in Hin.
    apply list_elem_of_singleton in Hin. injection Hin as -> -> -> ->. split; [unfold executed; rewrite H12; by destruct job0|].
    exists wt. split; [done|]. intros Hs. by eapply H10.
  - by rewrite T9.
Qed.

Lemma reach_inv po : pool_reach n sharded po → pool_inv n sharded po.
Proof.
  unfold pool_reach. generalize initial_inv. generalize (initial_pool n sharded). intros po0 H0 Hr. revert H0.
  induction Hr as [po|po1 po2 po3 Hstep _ IH]; [done|]. intros Hinv. apply IH. clear IH. destruct Hstep.
  - by eapply begin_inv.
  - by apply send_inv in Hinv.
  - by eapply worker_inv.
  - destruct Hinv as [H1 H2 H3 H4 H5 H6 H7 H8 H9 H10 H11 H12]. by split.
Qed.

(** What is not sent, not received or not finished yet. *)
Definition outstanding (po : Pool T) : list (Place * Job T) :=
  sending_jobs (po_sending po) ++ queued (po_shared po) ++ running (po_phases po).

(** C9. However threads spawn and workers run, every job spawned is exactly one of waiting to be
    sent, queued, running or run: no job is lost or run twice, and every job run is
    executed. The counters are exact up to their width, the pending tasks being the jobs
    not finished yet, so that a scheduler that is idle has run every job spawned; and with
    shards the count of a shard is the number of its workers that run a job. Without
    shards groups are exclusive: a job sent to a group is run by a worker of that group,
    and a job sent to the global channels by a worker that may take from them. *)
Theorem jobs_run_once po (Hr : pool_reach n sharded po) :
  po_spawned po ≡ₚ outstanding po ++ (snd ∘ fst <$> po_done po)
  ∧ (∀ x, x ∈ po_done po → x.2 = true)
  ∧ sw_total_spawned (po_shared po) = as_u64 (Z.of_nat (length (po_spawned po)))
  ∧ sw_total_completed (po_shared po) = as_u64 (Z.of_nat (length (po_done po)))
  ∧ sw_pending_tasks (po_shared po) = as_u64 (Z.of_nat (length (outstanding po)))
  ∧ (is_idle (po_shared po) = true → (Z.of_nat (length (outstanding po)) < two64)%Z → po_spawned po ≡ₚ (snd ∘ fst <$> po_done po))
  ∧ (sharded = true → ∀ g, g < n → sw_in_flight (po_shared po) !! g = Some (as_u64 (Z.of_nat (busy g workers (po_phases po)))))
  ∧ (sharded = false → ∀ w pl job ran, (w, (pl, job), ran) ∈ po_done po → ∃ wt, workers !! w = Some wt
       ∧ match pl with Group g => wt_group wt = g | Global => wt_allow_global_steal wt = true end).
Proof.
  apply reach_inv in Hr as [H1 H2 H3 H4 H5 H6 H7 H8 H9 H10 H11 H12]. unfold outstanding.
  assert (Hjobs : po_spawned po ≡ₚ (sending_jobs (po_sending po) ++ queued (po_shared po) ++ running (po_phases po)) ++ (snd ∘ fst <$> po_done po)).
  { rewrite H4. by rewrite !(assoc (++)). }
  split; [done|]. split; [intros [[w [pl job]] ran] Hx; by apply H11 in Hx as [-> _]|]. do 3 (split; [done|]). split; [|split; [done|]].
  - unfold is_idle. rewrite H7. intros Hi%Z.eqb_eq Hlt. unfold as_u64 in Hi. rewrite Z.mod_small in Hi by lia.
    rewrite Hjobs. assert (Hnil : length (sending_jobs (po_sending po) ++ queued (po_shared po) ++ running (po_phases po)) = 0) by lia.
    apply nil_length_inv in Hnil. by rewrite Hnil.
  - intros Hs w pl job ran Hin. apply H11 in Hin as (_ & wt & Hw & Hsel). exists wt. split; [done|]. specialize (Hsel Hs).
    destruct pl; cbn in Hsel; [done|]. by apply Nat.eqb_eq in Hsel.
Qed.

(** ** Draining *)

(** Turns of workers, without spawns. *)
Inductive worker_run : list nat → Pool T → Pool T → Prop :=
  | run_nil po : worker_run [] po po
  | run_turn s sending phases spawned fin w wt ph ph' s' ws po : workers !! w = Some wt → phases !! w = Some ph →
      worker_turn wt ph s ph' s' →
      worker_run ws (mkPool s' sending (<[w := ph']> phases) spawned (fin ++ finishing w ph s)) po →
      worker_run (w :: ws) (mkPool s sending phases spawned fin) po.

(** A round: every worker has three turns or more. *)
Definition round (po po' : Pool T) : Prop :=
  ∃ ws, (∀ w, w < length workers → 3 ≤ length (filter (w =.) ws)) ∧ worker_run ws po po'.

Definition weight (po : Pool T) : nat := 2 * length (queued (po_shared po)) + length (running (po_phases po)).

(** No worker runs a job or has one in reach. *)
Definition settled (po : Pool T) : Prop :=
  running (po_phases po) = [] ∧ ∀ wt pl, wt ∈ workers → reaches (po_shared po) wt pl = true → jobs_at (po_shared po) pl = [].

(** The runtime is up: no worker has left its loop. *)
Definition up (po : Pool T) : Prop := sw_shutdown (po_shared po) = false ∧ Exited ∉ po_phases po.

(** A turn takes a job, finishes one, or leaves the queues as they are. *)
Lemma turn_weight s sending phases spawned fin w wt ph ph' s' : workers !! w = Some wt → phases !! w = Some ph → worker_turn wt ph s ph' s' →
  let po := mkPool s sending phases spawned fin in
  let po' := mkPool s' sending (<[w := ph']> phases) spawned (fin ++ finishing w ph s) in
  weight po' < weight po ∨ weight po' = weight po ∧ s' = s ∧ running_job ph = None ∧ running_job ph' = None
    ∧ match ph with Looking _ => look s wt = None | AtHead => ph' = Exited ∧ sw_shutdown s = true ∨ ∃ k, ph' = Looking k
      | Blocked => ph' = AtHead | _ => False end.
Proof.
  intros Hw Hph Ht po po'. unfold weight, po, po'. cbn [po_shared po_phases].
  destruct (turn_spec w wt ph s ph' s' Ht) as (T1 & _). apply Permutation_length in T1. rewrite !length_app in T1.
  destruct (running_insert phases w ph ph' Hph) as (rest & ->%Permutation_length & ->%Permutation_length). rewrite !length_app.
  destruct Ht as [s Hs|s Hs|k s pl job s' Hl|k s Hl|s Hl|s pl p job s' Hsel Hr|s|pl job s]; unfold finishing in T1; cbn in *.
  1, 2: right; split_and!; auto; by eauto.
  1, 4: left; rewrite ?(proj1 (count_in_flight_queues _ _ _)) in *; lia.
  1, 2, 3: right; by split_and!.
  left. rewrite (proj1 (count_in_flight_queues _ _ _)). change (queued (count_completion s)) with (queued s). lia.
Qed.

Lemma turn_up s sending phases spawned fin w wt ph ph' s' : worker_turn wt ph s ph' s' →
  up (mkPool s sending phases spawned fin) → up (mkPool s' sending (<[w := ph']> phases) spawned (fin ++ finishing w ph s)).
Proof.
  intros Ht [H1 H2]. cbn in *. split; cbn; [by destruct (turn_spec w wt ph s ph' s' Ht) as (_ & _ & _ & _ & _ & _ & _ & _ & _ & ->)|].
  intros Hin%list_elem_of_lookup. destruct Hin as (i & Hi). destruct (decide (i = w)) as [->|Hne].
  - destruct (decide (w < length phases)) as [Hlt|]; [|rewrite list_insert_ge in Hi by lia; by apply list_elem_of_lookup_2 in Hi].
    rewrite list_lookup_insert_eq in Hi by done. injection Hi as ->. inversion Ht; congruence.
  - rewrite list_lookup_insert_ne in Hi by done. by apply list_elem_of_lookup_2 in Hi.
Qed.

Lemma run_weight ws po po' : worker_run ws po po' → weight po' ≤ weight po.
Proof.
  induction 1 as [|s sending phases spawned fin w wt ph ph' s' ws po Hw Hph Ht _ IH]; [done|].
  pose proof (turn_weight s sending phases spawned fin w wt ph ph' s' Hw Hph Ht). cbv zeta in *. lia.
Qed.

Lemma run_up ws po po' : worker_run ws po po' → up po → up po'.
Proof. induction 1 as [|s sending phases spawned fin w wt ph ph' s' ws po Hw Hph Ht _ IH]; [done|]. intros Hu. by eapply IH, turn_up. Qed.

(** The turns until a worker has looked for a job. *)
Definition to_look (ph : Phase (Job T)) : nat := match ph with Looking _ => 1 | AtHead => 2 | _ => 3 end.

Lemma quiet_worker w wt : workers !! w = Some wt → ∀ ws po po', worker_run ws po po' → weight po' = weight po → up po →
  ∀ ph, po_phases po !! w = Some ph → to_look ph ≤ length (filter (w =.) ws) →
  running_job ph = None ∧ ∀ pl, reaches (po_shared po) wt pl = true → jobs_at (po_shared po) pl = [].
Proof.
  intros Hwt ws po po' Hrun. induction Hrun as [po|s sending phases spawned fin w' wt' ph1 ph1' s' ws po Hw' Hph1 Ht Hrun IH]; intros Heq Hu ph Hph Hn.
  { destruct ph; cbn in Hn; lia. }
  pose proof (turn_weight s sending phases spawned fin w' wt' ph1 ph1' s' Hw' Hph1 Ht) as Hturn. cbv zeta in Hturn.
  pose proof (run_weight _ _ _ Hrun) as Hle. pose proof (turn_up _ sending phases spawned fin w' _ _ _ _ Ht Hu) as Hu'.
  destruct Hturn as [|(Hweq & -> & Hnone & Hnone' & Hcase)]; [lia|]. specialize (IH ltac:(lia) Hu'). cbn [po_phases po_shared] in *.
  destruct (decide (w = w')) as [<-|Hne].
  - rewrite Hwt in Hw'. injection Hw' as <-. rewrite Hph in Hph1. injection Hph1 as <-. split; [done|].
    rewrite list_lookup_insert_eq in IH by (by eapply lookup_lt_Some).
    rewrite filter_cons_True in Hn by done. cbn [length] in Hn. destruct ph as [|k| | |]; try done.
    + destruct Hcase as [[_ Hsd]|[k ->]]; [destruct Hu as [Hup _]; cbn in Hup; congruence|]. apply (IH (Looking k)); [done|]. cbn in Hn |- *. lia.
    + by apply look_None.
    + subst ph1'. apply (IH AtHead); [done|]. cbn in Hn |- *. lia.
  - rewrite list_lookup_insert_ne in IH by done. rewrite filter_cons_False in Hn by done. by apply (IH ph).
Qed.

Lemma round_settles po po' : length (po_phases po) = length workers → up po → round po po' → weight po' = weight po → settled po.
Proof.
  intros Hlen Hu (ws & Hws & Hrun) Heq.
  assert (Hq : ∀ w wt ph, workers !! w = Some wt → po_phases po !! w = Some ph →
    running_job ph = None ∧ ∀ pl, reaches (po_shared po) wt pl = true → jobs_at (po_shared po) pl = []).
  { intros w wt ph Hw Hph. eapply (quiet_worker w wt Hw ws po po'); try done. specialize (Hws w (lookup_lt_Some _ _ _ Hw)). destruct ph; cbn; lia. }
  split.
  - apply elem_of_nil_inv. intros x (ph & Hph & Hx)%list_elem_of_omap. apply list_elem_of_lookup in Hph as (w & Hph).
    destruct (lookup_lt_is_Some_2 workers w) as [wt Hw]; [rewrite <- Hlen; by eapply lookup_lt_Some|].
    destruct (Hq w wt ph Hw Hph) as [Hn _]. congruence.
  - intros wt pl (w & Hw)%list_elem_of_lookup. destruct (lookup_lt_is_Some_2 (po_phases po) w) as [ph Hph]; [rewrite Hlen; by eapply lookup_lt_Some|].
    intros Hreach. by apply (Hq w wt ph Hw Hph).
Qed.

Lemma settled_turn s sending phases spawned fin w wt ph ph' s' : workers !! w = Some wt → phases !! w = Some ph → worker_turn wt ph s ph' s' →
  settled (mkPool s sending phases spawned fin) → settled (mkPool s' sending (<[w := ph']> phases) spawned (fin ++ finishing w ph s)).
Proof.
  intros Hw Hph Ht [Hrun Hnone]. cbn in *. destruct (running_insert phases w ph ph' Hph) as (rest & R1 & R2).
  rewrite Hrun in R1. symmetry in R1. apply Permutation_nil_r in R1. apply app_nil in R1 as [Hph0 ->]. rewrite app_nil_r in R2.
  assert (Hno : ∀ pl p job s1, recv_from s pl p = Some (pl, job, s1) → reaches s wt pl = true → False).
  { intros pl p job s1 Hr Hreach. pose proof (Hnone wt pl ltac:(by eapply list_elem_of_lookup_2) Hreach) as Hj.
    unfold recv_from in Hr. unfold jobs_at in Hj. destruct (channels_at s pl) as [c|]; [|done]. cbn in Hj. unfold try_recv in Hr.
    unfold jobs in Hj. apply app_nil in Hj as [Hj1 [Hj2 Hj3]%app_nil]. destruct p; cbn in Hr; by rewrite ?Hj1, ?Hj2, ?Hj3 in Hr. }
  destruct Ht as [s Hs|s Hs|k s pl job s' Hl|k s Hl|s Hl|s pl p job s' Hsel Hr|s|pl job s]; try done.
  1, 2, 4, 5, 7: split; cbn; [apply Permutation_nil_r, R2|done].
  - apply look_Some in Hl as (pl' & p & Hr & Hreach). pose proof Hr as [-> _]%recv_spec. by destruct (Hno _ _ _ _ Hr Hreach).
  - destruct (Hno _ _ _ _ Hr). unfold reaches. by rewrite Hsel.
Qed.

Lemma settled_run ws po po' : worker_run ws po po' → settled po → settled po'.
Proof.
  induction 1 as [|s sending phases spawned fin w wt ph ph' s' ws po Hw Hph Ht _ IH]; [done|]. intros Hs. by eapply IH, settled_turn.
Qed.

Lemma run_phases ws po po' : worker_run ws po po' → length (po_phases po') = length (po_phases po).
Proof. induction 1 as [|s sending phases spawned fin w wt ph ph' s' ws po Hw Hph Ht _ IH]; [done|]. rewrite IH. cbn. by rewrite length_insert. Qed.

Lemma worker_run_reach ws po po' : worker_run ws po po' → rtc pool_step po po'.
Proof.
  induction 1 as [|s sending phases spawned fin w wt ph ph' s' ws po Hw Hph Ht _ IH]; [done|]. eapply rtc_l; [|exact IH]. by eapply step_worker.
Qed.

Lemma run_sending ws po po' : worker_run ws po po' → po_sending po' = po_sending po ∧ po_spawned po' = po_spawned po.
Proof. by induction 1 as [|s sending phases spawned fin w wt ph ph' s' ws po Hw Hph Ht _ IH]. Qed.

Lemma rounds_settle k : ∀ po po', length (po_phases po) = length workers → up po → weight po < k → nsteps round k po po' → settled po'.
Proof.
  induction k as [|k IH]; intros po po' Hlen Hu Hk Hrounds; [lia|]. inversion Hrounds as [|? ? po1 ? Hr Hrest]; subst.
  pose proof Hr as (ws & _ & Hrun). pose proof (run_weight _ _ _ Hrun). pose proof (run_up _ _ _ Hrun Hu) as Hu1.
  assert (Hlen1 : length (po_phases po1) = length workers) by (rewrite <- Hlen; by eapply run_phases).
  destruct (decide (weight po1 = weight po)) as [Heq|Hne]; [|apply (IH po1); try done; lia].
  pose proof (settled_run _ _ _ Hrun (round_settles po po1 Hlen Hu Hr Heq)) as Hs. clear -Hrest Hs.
  induction Hrest as [|k po1 po2 po3 (ws & _ & Hrun) _ IH]; [done|]. apply IH. by eapply settled_run.
Qed.

(** C10. The workers drain their channels: from any reachable state that is not shut down,
    after more rounds of three turns per worker than twice the queued jobs and the running
    ones, no worker runs a job or has one in reach. If moreover every channel with a
    queued job is in reach of a worker, and no spawn is under way, then every job spawned
    has been run, and the scheduler is idle. *)
Theorem rounds_drain (po po' : Pool T) (k : nat) (Hr : pool_reach n sharded po) (Hup : up po)
    (Hk : 2 * length (queued (po_shared po)) + length (running (po_phases po)) < k) (Hrounds : nsteps round k po po') :
  running (po_phases po') = []
  ∧ (∀ wt pl, wt ∈ workers → reaches (po_shared po') wt pl = true → jobs_at (po_shared po') pl = [])
  ∧ (po_sending po = [] → (∀ pl job, (pl, job) ∈ queued (po_shared po') → ∃ wt, wt ∈ workers ∧ reaches (po_shared po') wt pl = true) →
     po_spawned po ≡ₚ (snd ∘ fst <$> po_done po') ∧ is_idle (po_shared po') = true).
Proof.
  destruct (rounds_settle k po po' (pi_phases _ _ _ (reach_inv _ Hr)) Hup Hk Hrounds) as [Hrun Hnone].
  split; [done|]. split; [done|]. intros Hsend Hserved.
  assert (Hkept : pool_reach n sharded po' ∧ po_sending po' = po_sending po ∧ po_spawned po' = po_spawned po).
  { clear -Hrounds Hr. induction Hrounds as [|k po po1 po2 (ws & _ & Hrun) _ IH]; [done|].
    destruct (run_sending _ _ _ Hrun) as [E1 E2]. rewrite <- E1, <- E2. apply IH. unfold pool_reach in *. etrans; [exact Hr|by eapply worker_run_reach]. }
  destruct Hkept as (Hr' & Hsend' & Hspawn). rewrite <- Hsend', <- Hspawn in *.
  assert (Hq : queued (po_shared po') = []).
  { apply elem_of_nil_inv. intros [pl job] Hin. destruct (Hserved pl job Hin) as (wt & Hwt & Hreach).
    apply list_elem_of_bind in Hin as (pl' & Hin & _). apply list_elem_of_fmap in Hin as (j & [= <- <-] & Hj).
    rewrite (Hnone wt pl Hwt Hreach) in Hj. by apply not_elem_of_nil in Hj. }
  pose proof (reach_inv _ Hr') as Hinv. pose proof (pi_jobs _ _ _ Hinv) as Hjobs. pose proof (pi_pending _ _ _ Hinv) as Hpend.
  rewrite Hsend, Hq, Hrun in Hjobs, Hpend. split; [done|]. unfold is_idle. by rewrite Hpend.
Qed.
End pool.

(** ** A worker, a shard and a job *)

Definition lone_worker : list WorkerThread := [mkWorkerThread 0 0 1 true 0].
Definition lone_start : SharedWorkerState (Job nat) := set_node_executor (initial_workers 1 true).
Definition lone_pool : Pool nat :=
  mkPool (sent (boxed_begin lone_start Global PLow None 7)) [] [AtHead] [(Global, Boxed 7 None)] [].

Lemma lone_reach : pool_reach lone_worker 1 true lone_pool.
Proof.
  eapply rtc_l; [exact (step_begin lone_worker lone_start [] [AtHead] [] [] Global PLow (Boxed 7 None) _ (begins_global lone_start PLow None 7))|].
  eapply rtc_l; [exact (step_send lone_worker _ [] Global PLow (Boxed 7 None) [] [AtHead] [(Global, Boxed 7 None)] [])|]. apply rtc_refl.
Qed.

Lemma jobs_run_once_witness : pool_reach lone_worker 1 true lone_pool
  ∧ sw_pending_tasks (po_shared lone_pool) = as_u64 (Z.of_nat (length (outstanding lone_pool))).
Proof.
  split; [exact lone_reach|].
  destruct (jobs_run_once lone_worker 1 true ltac:(lia) lone_pool lone_reach) as (_ & _ & _ & _ & Hp & _). exact Hp.
Defined.

(** The first round takes and runs the job, later ones find nothing. *)
Definition lone_done : Pool nat :=
  mkPool (count_in_flight (-1) (mkWorkerThread 0 0 1 true 0) (count_completion (count_in_flight 1 (mkWorkerThread 0 0 1 true 0)
    (put_channels Global ChannelSet_new (po_shared lone_pool))))) [] [AtHead] [(Global, Boxed 7 None)] [(0, (Global, Boxed 7 None), true)].

Lemma lone_first : round lone_worker lone_pool lone_done.
Proof.
  exists [0; 0; 0]. split; [intros [|w] Hw; [vm_compute; lia|cbn in Hw; lia]|].
  eapply (run_turn _ _ _ _ _ _ 0); [reflexivity..| |]; [by apply turn_enter|].
  eapply (run_turn _ _ _ _ _ _ 0); [reflexivity..| |]; [apply turn_find; reflexivity|].
  eapply (run_turn _ _ _ _ _ _ 0); [reflexivity..| |]; [apply turn_finish|]. apply run_nil.
Qed.

Lemma lone_later : round lone_worker lone_done lone_done.
Proof.
  exists [0; 0; 0]. split; [intros [|w] Hw; [vm_compute; lia|cbn in Hw; lia]|].
  eapply (run_turn _ _ _ _ _ _ 0); [reflexivity..| |]; [by apply turn_enter|].
  eapply (run_turn _ _ _ _ _ _ 0); [reflexivity..| |]; [by apply turn_block|].
  eapply (run_turn _ _ _ _ _ _ 0); [reflexivity..| |]; [apply turn_timeout|]. apply run_nil.
Qed.

Lemma rounds_drain_witness : nsteps (round lone_worker) 3 lone_pool lone_done
  ∧ po_spawned lone_pool ≡ₚ (snd ∘ fst <$> po_done lone_done) ∧ is_idle (po_shared lone_done) = true.
Proof.
  assert (Hrounds : nsteps (round lone_worker) 3 lone_pool lone_done).
  { eapply nsteps_l; [exact lone_first|]. eapply nsteps_l; [exact lone_later|]. eapply nsteps_l; [exact lone_later|]. apply nsteps_O. }
  split; [exact Hrounds|].
  destruct (rounds_drain lone_worker 1 true ltac:(lia) lone_pool lone_done 3 lone_reach) as (_ & _ & Hdone).
  - split; [done|]. cbn. intros Hin%list_elem_of_singleton. discriminate Hin.
  - cbn. lia.
  - exact Hrounds.
  - apply Hdone; [done|]. intros pl job Hin. vm_compute in Hin. inversion Hin.
Defined.

(** ** The least loaded shard *)

Section least.
Context (load : nat → Z) (n start : nat).

Lemma least_loaded_spec ks : ∀ best, let r := least_loaded load n start best (load best) ks in
  (r = best ∨ ∃ k, k ∈ ks ∧ r = (start + k) mod n)
  ∧ (load r ≤ load best)%Z ∧ ((∀ i, 0 ≤ load i)%Z → ∀ k, k ∈ ks → (load r ≤ load ((start + k) mod n))%Z).
Proof.
  induction ks as [|k ks IH]; intros best; cbn [least_loaded]; [split; [by left|split; [done|by intros _ ? ?%not_elem_of_nil]]|].
  destruct (Z.eqb_spec (load best) 0) as [Hz|Hz].
  { split; [by left|]. split; [done|]. intros Hpos k' _. rewrite Hz. apply Hpos. }
  destruct (Z.ltb_spec (load ((start + k) mod n)) (load best)) as [Hlt|Hge].
  - destruct (IH ((start + k) mod n)) as (Hwho & Hle & Hmin). split.
    + destruct Hwho as [->|(k' & Hk' & ->)]; right; [exists k; split; [left|done]|exists k'; split; [by right|done]].
    + split; [lia|]. intros Hpos k' [->|Hk']%elem_of_cons; [done|by apply Hmin].
  - destruct (IH best) as (Hwho & Hle & Hmin). split.
    + destruct Hwho as [->|(k' & Hk' & ->)]; [by left|right; exists k'; split; [by right|done]].
    + split; [done|]. intros Hpos k' [->|Hk']%elem_of_cons; [lia|by apply Hmin].
Qed.
End least.

(** A node without a group is sent, when the channels are shards, to a shard with the least
    load, counting queued jobs and jobs that run; of several, to the first from the
    cursor on, which moves on with every such spawn. A node with a group goes to that
    group; and everything else to the global channels. The spawn appends the job to that
    channel and changes no other. *)
Theorem spawn_node_routes {T} (s : SharedWorkerState (Job T)) (g : nat) (p : Priority) (desc : NodeTaskDesc)
    (Hload : Forall (λ x, 0 ≤ x)%Z (sw_in_flight s)) (Hcursor : (0 ≤ sw_next_shard s < two64)%Z)
    (Hshards : sw_sharded s = true → 0 < length (sw_groups s)) :
  let n := length (sw_groups s) in
  let job := JNode (with_job_id (sw_total_spawned s) desc) in
  let s' := spawn_node s g p desc in
  ∃ pl, queued s' ≡ₚ (pl, job) :: queued s
  ∧ sw_pending_tasks s' = as_u64 (sw_pending_tasks s + 1)
  ∧ (∃ c, channels_at s pl = Some c ∧ channels_at s' pl = Some (cs_send p job c))
  ∧ match pl with
    | Global => sw_sharded s = false ∧ (g = 0 ∨ n ≤ g)
    | Group i => i < n ∧ ((0 < g ∧ i = g) ∨ (sw_sharded s = true ∧ (g = 0 ∨ n ≤ g) ∧ ∀ j, j < n → (load_of s i ≤ load_of s j)%Z))
    end.
Proof.
  intros n job s'. set (s1 := (count_spawn s).2).
  destruct (route_node s1 (load_of s) g) as [pl s2] eqn:Hroute.
  destruct (spawn_route_spec s1 (load_of s) g pl s2 Hshards Hroute) as (Hpl & c & ->).
  assert (Hs' : s' = send_to (set_cursor c s1) pl p job) by (unfold s', spawn_node, node_begin; rewrite (surjective_pairing (count_spawn s)); fold s1; cbv beta iota; by rewrite Hroute).
  exists pl. apply places_spec in Hpl as [ch Hch]. assert (Hch2 : channels_at (set_cursor c s1) pl = Some ch) by (by destruct pl). rewrite Hs'. split.
  { rewrite send_queued by (by exists ch). done. }
  split; [unfold send_to; rewrite Hch2; by destruct pl|]. split.
  { exists ch. split; [done|]. unfold send_to. rewrite Hch2.
    rewrite channels_at_put by (by exists ch). by rewrite decide_True. }
  assert (Hpos : ∀ i, (0 ≤ load_of s i)%Z) by (intros i; unfold load_of; repeat case_match; try done; by apply Z.mod_pos_bound).
  unfold route_node in Hroute. change (length (sw_groups s1)) with n in Hroute. change (sw_sharded s1) with (sw_sharded s) in Hroute.
  destruct ((0 <? g) && (g <? n)) eqn:Hg.
  { injection Hroute as <- _. apply andb_true_iff in Hg as [H1%Nat.ltb_lt H2%Nat.ltb_lt]. auto. }
  assert (Hg' : g = 0 ∨ n ≤ g) by (apply andb_false_iff in Hg as [?%Nat.ltb_ge|?%Nat.ltb_ge]; lia).
  destruct (sw_sharded s); [|injection Hroute as <- _; auto]. specialize (Hshards eq_refl). fold n in Hshards.
  destruct (Nat.eqb_spec n 1) as [Hn|Hn].
  { injection Hroute as <- _. split; [lia|]. right. split; [done|]. split; [done|]. intros j Hj. by replace j with 0 by lia. }
  change (sw_next_shard s1) with (sw_next_shard s) in Hroute. set (start := Z.to_nat (sw_next_shard s mod Z.of_nat n)) in *.
  assert (Hstart : start < n) by (pose proof (Z.mod_pos_bound (sw_next_shard s) (Z.of_nat n) ltac:(lia)); lia).
  injection Hroute as <- _. split; [by apply least_loaded_lt|]. right. split; [done|]. split; [done|].
  destruct (least_loaded_spec (load_of s) n start (range 1 n) start) as (_ & Hle & Hmin). intros j Hj.
  destruct (decide (j = start)) as [->|Hne]; [done|]. specialize (Hmin Hpos ((j + (n - start)) mod n)).
  assert (Hk : (start + (j + (n - start)) mod n) mod n = j).
  { rewrite Nat.Div0.add_mod_idemp_r. replace (start + (j + (n - start))) with (j + 1 * n) by lia. by rewrite Nat.Div0.mod_add, Nat.mod_small. }
  rewrite Hk in Hmin. apply Hmin, elem_of_range. pose proof (Nat.mod_upper_bound (j + (n - start)) n ltac:(lia)).
  destruct (decide ((j + (n - start)) mod n = 0)) as [H0|]; [|lia]. rewrite H0, Nat.add_0_r, Nat.mod_small in Hk by done. lia.
Qed.

(** Two shards, the first with a job. *)
Lemma spawn_node_routes_witness : let desc := mkDesc (NodeInfo_new 3 0 1 0) (λ _, CmNone) 0 false in
  let s := spawn_node (initial_workers (J := Job nat) 2 true) 0 PNormal desc in
  ∃ pl, queued (spawn_node s 0 PNormal desc) ≡ₚ (pl, JNode (with_job_id 1 desc)) :: queued s ∧ pl = Group 1.
Proof.
  intros desc s. destruct (spawn_node_routes s 0 PNormal desc) as (pl & Hq & _ & _ & Hpl);
    [vm_compute; repeat constructor; discriminate|done|vm_compute; lia|].
  exists pl. split; [exact Hq|]. destruct pl as [|i]; [by destruct Hpl|].
  destruct Hpl as (Hi & [[? _]|(_ & _ & Hmin)]); [lia|]. destruct i as [|[|i]]; [|reflexivity|vm_compute in Hi; lia].
  specialize (Hmin 1 ltac:(vm_compute; lia)). vm_compute in Hmin. contradiction.
Defined.
