(* ===== verification/SchedBuild.v ===== *)
(** The custom scheduler as it is built: which worker belongs to which group, with shards
    and with the ranges of an affinity; and which groups nobody serves. *)
From S2P Require Import Prelude Types WorkerRange GraphStruct Buffers NodeCache CoreAlloc Tables Affinity Sched SchedSpec.
From stdpp Require Import gmap sorting.

(** ** Starting the threads *)

Section start.
Context (configs : list WorkerGroupConfig) (cores : list nat) (offset : nat) (to_group : list nat).

(** The thread of a worker. *)
Definition thread_of (worker_id : nat) : option WorkerThread :=
  g ← to_group !! worker_id; core ← cores !! (offset + worker_id); config ← configs !! g;
  Some (mkWorkerThread worker_id g core (wg_allow_global_steal config) (wg_spin_iterations config)).

Lemma thread_of_inv w wt : thread_of w = Some wt → wt_id wt = w ∧ to_group !! w = Some (wt_group wt)
  ∧ cores !! (offset + w) = Some (wt_core wt) ∧ ∃ config, configs !! wt_group wt = Some config
  ∧ wt_allow_global_steal wt = wg_allow_global_steal config ∧ wt_spin_iterations wt = wg_spin_iterations config.
Proof.
  unfold thread_of. intros (g & Hg & (core & Hcore & (config & Hconf & [= <-])%bind_Some)%bind_Some)%bind_Some. cbn.
  split_and!; [done..|]. by exists config.
Qed.

Lemma concat_push {A} (hs : list (list A)) g l x : hs !! g = Some l → concat (<[g := l ++ [x]]> hs) ≡ₚ concat hs ++ [x].
Proof.
  revert g. induction hs as [|h hs IH]; intros [|g] Hg; try done; cbn in Hg |- *.
  - injection Hg as ->. rewrite <- !(assoc (++)). by rewrite (Permutation_app_comm [x]).
  - rewrite IH by done. by rewrite (assoc (++)).
Qed.

Lemma start_workers total : length to_group = total → offset + total ≤ length cores → (∀ g, g ∈ to_group → g < length configs) →
  ∃ hs, foldM (start_worker configs cores offset to_group) (replicate (length configs) []) (range 0 total) = Ret hs
    ∧ length hs = length configs ∧ concat hs ≡ₚ omap thread_of (range 0 total).
Proof.
  intros Hlen Hcores Hg. assert (H : ∀ k, k ≤ total → ∃ hs,
    foldM (start_worker configs cores offset to_group) (replicate (length configs) []) (range 0 k) = Ret hs
    ∧ length hs = length configs ∧ concat hs ≡ₚ omap thread_of (range 0 k)); [|by apply H].
  induction k as [|k IH]; intros Hk.
  - exists (replicate (length configs) []). split; [done|]. split; [apply length_replicate|]. cbn. clear. by induction (length configs).
  - destruct IH as (hs & Hf & Hl & Hc); [lia|]. rewrite range_snoc by lia. rewrite foldM_app, Hf. cbn [run_bind foldM].
    destruct (lookup_lt_is_Some_2 to_group k) as [g Hgk]; [lia|]. destruct (lookup_lt_is_Some_2 cores (offset + k)) as [core Hcore]; [lia|].
    pose proof (Hg g ltac:(by eapply list_elem_of_lookup_2)) as Hgl. destruct (lookup_lt_is_Some_2 configs g Hgl) as [config Hconf].
    destruct (lookup_lt_is_Some_2 hs g) as [l Hgs]; [lia|]. unfold start_worker.
    rewrite (vec_get_lookup _ _ _ Hgk), (vec_get_lookup _ _ _ Hcore). cbn [run_bind]. rewrite (vec_get_lookup _ _ _ Hconf), (vec_get_lookup _ _ _ Hgs).
    cbn [run_bind]. rewrite vec_set_lt by lia. cbn [run_bind]. eexists. split; [done|]. split; [by rewrite length_insert|].
    rewrite concat_push by done. rewrite Hc, omap_app. cbn [omap list_omap].
    assert (Ht : thread_of k = Some (mkWorkerThread k g core (wg_allow_global_steal config) (wg_spin_iterations config))) by
      (unfold thread_of; rewrite Hgk, Hcore; cbn; by rewrite Hconf).
    by rewrite Ht.
Qed.

Lemma thread_of_total total w : length to_group = total → offset + total ≤ length cores → (∀ g, g ∈ to_group → g < length configs) →
  w < total → is_Some (thread_of w).
Proof.
  intros Hlen Hcores Hg Hw. unfold thread_of. destruct (lookup_lt_is_Some_2 to_group w) as [g Hgk]; [lia|].
  destruct (lookup_lt_is_Some_2 cores (offset + w)) as [core ->]; [lia|]. rewrite Hgk. cbn.
  destruct (lookup_lt_is_Some_2 configs g) as [config ->]; [apply Hg; by eapply list_elem_of_lookup_2|]. by eexists.
Qed.

Lemma threads_length total : length to_group = total → offset + total ≤ length cores → (∀ g, g ∈ to_group → g < length configs) →
  length (omap thread_of (range 0 total)) = total.
Proof.
  intros Hlen Hcores Hg. assert (H : ∀ l, (∀ w, w ∈ l → w < total) → length (omap thread_of l) = length l).
  { induction l as [|w l IH]; intros Hl; [done|]. cbn [omap list_omap]. destruct (thread_of_total total w) as [t ->]; try done; [by apply Hl; left|].
    cbn. rewrite IH; [done|]. intros; apply Hl; by right. }
  rewrite H; [by rewrite length_range, Nat.sub_0_r|]. intros w Hw%elem_of_range. lia.
Qed.
End start.

Lemma concat_zip_snd {A B} (l : list A) (hs : list (list B)) : length hs = length l →
  concat (snd <$> zip l hs) = concat hs ∧ nat_sum (length ∘ snd <$> zip l hs) = length (concat hs).
Proof.
  revert hs. induction l as [|x l IH]; intros [|h hs] Hl; try done. cbn in Hl |- *. destruct (IH hs) as [E1 E2]; [lia|].
  rewrite E1, length_app. split; [done|]. unfold nat_sum in *. cbn. by rewrite E2.
Qed.

(** The build of a scheduler whose workers all have a group. *)
Lemma build_scheduler_ok {J} core_ids b : 2 ≤ length core_ids → 
  ∃ alloc, allocate_cores core_ids (sb_core_offset b) (sb_system_threads b) (sb_receiver_threads b) (nat_sum (wg_num_workers <$> sb_groups b)) = Ret alloc
  ∧ ∀ to_group, worker_to_group_idx (ca_worker_count alloc) (length (sb_groups b)) (sb_worker_affinity b) = Ret to_group →
    length to_group = ca_worker_count alloc → (∀ g, g ∈ to_group → g < length (sb_groups b)) →
    ∃ c : CustomScheduler J, build_scheduler core_ids b = Ret c ∧ cu_total_workers c = ca_worker_count alloc ∧ cu_alloc c = alloc
      ∧ cu_shared c = initial_workers (length (sb_groups b)) (sb_sharded b && (0 <? length (sb_groups b)))
      ∧ cu_worker_affinity c = sb_worker_affinity b
      ∧ threads c ≡ₚ omap (thread_of (sb_groups b) core_ids (ca_worker_offset alloc) to_group) (range 0 (ca_worker_count alloc)).
Proof.
  intros Hcores. destruct (allocate_cores_ok core_ids (sb_core_offset b) (sb_system_threads b) (sb_receiver_threads b)
    (nat_sum (wg_num_workers <$> sb_groups b)) Hcores) as (alloc & Ha & _ & _ & Hfit & _).
  exists alloc. split; [done|]. intros tg Htg Hlen Hg. unfold build_scheduler. rewrite Ha. cbn [run_bind]. unfold spawn_worker_threads. rewrite Htg. cbn [run_bind].
  rewrite (allocate_ids _ _ _ _ _ _ Ha). destruct (start_workers (sb_groups b) core_ids (ca_worker_offset alloc) tg (ca_worker_count alloc) Hlen Hfit Hg) as (hs & -> & Hl & Hc).
  cbn [run_bind]. destruct (concat_zip_snd (sb_groups b) hs Hl) as [E1 E2]. rewrite E2.
  rewrite (Permutation_length Hc), threads_length, Nat.eqb_refl by done. eexists. split; [done|]. split_and!; try done. unfold threads. cbn. by rewrite E1.
Qed.

(** ** With an affinity *)

Section affinity.
Context (specs : gset WorkerRangeSpec) (num_workers : nat).
Context (Hfit : ∀ r, WRange r ∈ specs → range_fits num_workers r).
Let rs := ranges_in specs.

(** The first range of a worker, as the number of its group. *)
Definition group_of (rs : list WorkerRange) (w : nat) : nat :=
  match list_find (λ r, wr_contains r (Z.of_nat w) = true) rs with Some (i, _) => S i | None => 0 end.

Lemma group_of_spec w i : group_of rs w = S i ↔
  (∃ r, rs !! i = Some r ∧ wr_contains r (Z.of_nat w) = true) ∧ ∀ j r, j < i → rs !! j = Some r → wr_contains r (Z.of_nat w) = false.
Proof.
  unfold group_of. destruct (list_find _ rs) as [[j r]|] eqn:Hf.
  - apply list_find_Some in Hf as (Hj & Hr & Hbefore). split.
    + intros [= <-]. split; [by exists r|]. intros j' r' Hlt Hj'. by apply not_true_is_false, (Hbefore j' r').
    + intros ((r' & Hi & Hr') & Hb). f_equal. destruct (Nat.lt_trichotomy i j) as [Hlt|[->|Hlt]]; [by destruct (Hbefore i r')|done|].
      rewrite (Hb j r) in Hr by done. done.
  - split; [done|]. intros ((r & Hi & Hr) & _). apply list_find_None in Hf. rewrite Forall_lookup in Hf. by destruct (Hf i r).
Qed.

Lemma group_of_lt w : group_of rs w < S (length rs).
Proof.
  unfold group_of. destruct (list_find _ rs) as [[j r]|] eqn:Hf; [|lia]. apply list_find_Some in Hf as (Hj%lookup_lt_Some & _). lia.
Qed.

Section built.
Context (aff : WorkerAffinityConfig) (Hinv : affinity_inv num_workers (imap (λ i r, (S i, r)) rs) aff).

Lemma affinity_to_group total num_groups : rs ≠ [] → worker_to_group_idx total num_groups (Some aff) = Ret (group_of rs <$> range 0 total).
Proof.
  intros Hne. unfold worker_to_group_idx, has_affinity_groups. rewrite (ai_groups _ _ _ Hinv), length_imap.
  destruct rs as [|r0 rs'] eqn:Hrs; [done|]. cbn [length Nat.eqb negb unwrap run_bind]. f_equal. apply list_fmap_ext. intros _ w _.
  rewrite (get_worker_groups_listed _ _ _ w Hinv), <- Hrs.
  - exact (first_group 0 rs (Z.of_nat w)).
  - intros r Hr. rewrite <- Hrs in Hr. apply Hfit, elem_of_ranges_in, Hr.
Qed.

(** The groups of the builder: the global one, then one per range. *)
Lemma add_groups l b : let b' := foldl (λ b ir, add_group (mkGroupConfig (Z.to_nat (wr_len ir.2)) None ir.1 true 64) b) b l in
  sb_groups b' = sb_groups b ++ ((λ ir : nat * WorkerRange, mkGroupConfig (Z.to_nat (wr_len ir.2)) None ir.1 true 64) <$> l)
  ∧ sb_core_offset b' = sb_core_offset b ∧ sb_system_threads b' = sb_system_threads b ∧ sb_receiver_threads b' = sb_receiver_threads b
  ∧ sb_sharded b' = sb_sharded b.
Proof.
  revert b. induction l as [|ir l IH]; intros b; cbn; [by rewrite app_nil_r|].
  destruct (IH (add_group (mkGroupConfig (Z.to_nat (wr_len ir.2)) None ir.1 true 64) b)) as (-> & -> & -> & -> & ->). cbn. by rewrite <- (assoc (++)).
Qed.

Lemma size_union_le (X Y : gset Z) : size (X ∪ Y) ≤ size X + size Y.
Proof. rewrite size_union_alt, size_difference_alt. lia. Qed.

Lemma requested_workers (l : list (nat * WorkerRange)) (total : nat) :
  total ≤ (total - size (⋃ ((λ ir : nat * WorkerRange, list_to_set (workers_of ir.2)) <$> l) : gset Z))
          + nat_sum ((λ ir : nat * WorkerRange, Z.to_nat (wr_len ir.2)) <$> l).
Proof.
  assert (H : size (⋃ ((λ ir : nat * WorkerRange, list_to_set (workers_of ir.2)) <$> l) : gset Z)
    ≤ nat_sum ((λ ir : nat * WorkerRange, Z.to_nat (wr_len ir.2)) <$> l)); [|lia].
  induction l as [|ir l IH]; [done|]. rewrite !fmap_cons. cbn [union_list foldr]. etrans; [apply size_union_le|]. unfold nat_sum in *. cbn [foldr].
  assert (Hs : size (list_to_set (workers_of ir.2) : gset Z) ≤ Z.to_nat (wr_len ir.2)); [|lia].
  rewrite size_list_to_set by apply NoDup_seqZ. unfold workers_of. rewrite length_seqZ. unfold wr_len, sat_sub. lia.
Qed.

(** The builder that [create_custom] builds from. *)
Definition affinity_builder (core_offset system_threads receiver_threads : nat) : CustomSchedulerBuilder :=
  with_affinity_groups aff num_workers (set_threads core_offset system_threads receiver_threads CustomSchedulerBuilder_new).

Lemma affinity_builder_groups co st rt : let b := affinity_builder co st rt in
  length (sb_groups b) = S (length rs) ∧ (∀ config, config ∈ sb_groups b → wg_allow_global_steal config = true)
  ∧ (num_workers ≤ nat_sum (wg_num_workers <$> sb_groups b) ≤ num_workers + nat_sum ((λ r, Z.to_nat (wr_len r)) <$> rs)) ∧ sb_worker_affinity b = Some aff ∧ sb_sharded b = false
  ∧ sb_core_offset b = co ∧ sb_system_threads b = st ∧ sb_receiver_threads b = rt.
Proof.
  unfold affinity_builder, with_affinity_groups. cbv zeta. cbn [set_worker_affinity sb_groups sb_worker_affinity sb_sharded sb_core_offset sb_system_threads sb_receiver_threads].
  set (b0 := add_group _ _). destruct (add_groups (merge_sort gid_le (af_affinity_groups aff)) b0) as (-> & -> & -> & -> & ->).
  pose proof (merge_sort_Permutation gid_le (af_affinity_groups aff)) as Hp.
  split; [|split; [|split; [|done]]].
  - rewrite length_app, length_fmap, Hp, (ai_groups _ _ _ Hinv), length_imap. cbn. lia.
  - intros config [Hc|(ir & -> & _)%list_elem_of_fmap]%elem_of_app; [|done]. cbn in Hc. by apply list_elem_of_singleton in Hc as ->.
  - rewrite fmap_app, nat_sum_app, <- list_fmap_compose. rewrite (nat_sum_perm _ _ (fmap_Permutation _ _ _ Hp)).
    assert (Hlen : (λ ir : nat * WorkerRange, Z.to_nat (wr_len ir.2)) <$> af_affinity_groups aff = (λ r, Z.to_nat (wr_len r)) <$> rs).
    { rewrite (ai_groups _ _ _ Hinv). apply list_eq. intros i. rewrite !list_lookup_fmap, list_lookup_imap. by destruct (rs !! i). }
    rewrite <- Hlen. split; [|apply Nat.add_le_mono; [|done]; unfold b0, nat_sum; cbn; lia].
    etrans; [apply (requested_workers (af_affinity_groups aff))|]. apply Nat.add_le_mono; [|done]. unfold b0, nat_sum. cbn. lia.
Qed.

Lemma create_affinity {J} core_ids spin co st rt : rs ≠ [] → 2 ≤ length core_ids →
  ∃ c : CustomScheduler J, create_custom core_ids spin co num_workers st rt (Some aff) = Ret c
    ∧ cu_shared c = initial_workers (S (length rs)) false
    ∧ allocate_cores core_ids co st rt (nat_sum (wg_num_workers <$> sb_groups (affinity_builder co st rt))) = Ret (cu_alloc c)
    ∧ cu_total_workers c = ca_worker_count (cu_alloc c)
    ∧ (∀ w, w < cu_total_workers c → ∃ wt, wt ∈ threads c ∧ wt_id wt = w)
    ∧ ∀ wt, wt ∈ threads c → wt_id wt < cu_total_workers c ∧ wt_group wt = group_of rs (wt_id wt)
        ∧ wt_allow_global_steal wt = true ∧ core_ids !! (ca_worker_offset (cu_alloc c) + wt_id wt) = Some (wt_core wt).
Proof.
  intros Hne Hcores. destruct (affinity_builder_groups co st rt) as (Hlen & Hsteal & _ & Haff & Hsh & Hco & Hst & Hrt).
  set (b := affinity_builder co st rt) in *.
  assert (Hcreate : create_custom (J := J) core_ids spin co num_workers st rt (Some aff) = build_scheduler core_ids b).
  { unfold create_custom. rewrite (ai_groups _ _ _ Hinv), length_imap. by destruct rs. }
  rewrite Hcreate. destruct (build_scheduler_ok (J := J) core_ids b Hcores) as (alloc & Ha & Hok). rewrite Hco, Hst, Hrt in Ha.
  assert (Hfits : ca_worker_offset alloc + ca_worker_count alloc ≤ length core_ids).
  { destruct (allocate_cores_ok core_ids co st rt (nat_sum (wg_num_workers <$> sb_groups b)) Hcores) as (a & Ha' & _ & _ & Hf & _).
    rewrite Ha in Ha'. by injection Ha' as <-. }
  set (tg := group_of rs <$> range 0 (ca_worker_count alloc)).
  assert (Htl : length tg = ca_worker_count alloc) by (unfold tg; rewrite length_fmap, length_range; lia).
  assert (Hbound : ∀ g, g ∈ tg → g < length (sb_groups b)).
  { intros g (w & -> & _)%list_elem_of_fmap. rewrite Hlen. apply group_of_lt. }
  assert (Htg : worker_to_group_idx (ca_worker_count alloc) (length (sb_groups b)) (sb_worker_affinity b) = Ret tg) by (rewrite Haff; by apply affinity_to_group).
  destruct (Hok tg Htg Htl Hbound) as (c & Hc & Htot & Halloc & Hshared & _ & Hthreads). exists c. subst alloc.
  split; [done|]. split; [by rewrite Hshared, Hlen, Hsh|]. split; [done|]. split; [done|]. rewrite Htot. split.
  - intros w Hw. destruct (thread_of_total (sb_groups b) core_ids (ca_worker_offset (cu_alloc c)) tg _ w Htl Hfits Hbound Hw) as [wt Hwt].
    exists wt. split; [rewrite Hthreads; apply list_elem_of_omap; exists w; split; [apply elem_of_range; lia|done]|].
    by apply thread_of_inv in Hwt as [-> _].
  - intros wt Hwt. rewrite Hthreads in Hwt. apply list_elem_of_omap in Hwt as (w & Hw%elem_of_range & Hwt).
    apply thread_of_inv in Hwt as (-> & Hg & Hcore & config & Hconf & Hallow & _). split; [lia|].
    unfold tg in Hg. rewrite list_lookup_fmap in Hg. apply fmap_Some in Hg as (w' & Hw' & ->). apply lookup_seq in Hw' as [-> _].
    split; [done|]. split; [|done]. rewrite Hallow. apply Hsteal. by eapply list_elem_of_lookup_2.
Qed.
End built.
End affinity.

(** C11. With ranges among the specifications, the scheduler that is built has one group per range
    besides the global one, and a worker belongs to the first range that contains it, or to
    the global group; the pool has the workers asked for when the machine has cores for
    them and for the ranges. The group of a range has a worker exactly when some worker of
    the pool is in that range and in none before it. Otherwise no job that is sent to that group is
    ever run, however long the scheduler works: a range within an earlier one is such a
    range. *)
Theorem ranges_served (specs : gset WorkerRangeSpec) (num_workers : nat) (core_ids : list nat) (spin core_offset system_threads receiver_threads : nat)
    (T : Type) (Hfit : ∀ r, WRange r ∈ specs → range_fits num_workers r) (Hne : ranges_in specs ≠ []) (Hcores : 2 ≤ length core_ids) :
  ∃ aff (c : CustomScheduler (Job T)), from_worker_specs specs num_workers = Ret aff
  ∧ create_custom core_ids spin core_offset num_workers system_threads receiver_threads (Some aff) = Ret c
  ∧ cu_shared c = initial_workers (S (length (ranges_in specs))) false
  ∧ (∀ wt, wt ∈ threads c → wt_group wt = group_of (ranges_in specs) (wt_id wt))
  ∧ (num_workers + nat_sum ((λ r, Z.to_nat (wr_len r)) <$> ranges_in specs) + system_threads + receiver_threads ≤ length core_ids →
     num_workers ≤ cu_total_workers c)
  ∧ ∀ i r, ranges_in specs !! i = Some r →
      let own w := w < cu_total_workers c ∧ wr_contains r (Z.of_nat w) = true
                   ∧ ∀ j r', j < i → ranges_in specs !! j = Some r' → wr_contains r' (Z.of_nat w) = false in
      ((∃ w, own w) ↔ ∃ wt, wt ∈ threads c ∧ wt_group wt = get_group aff (Some (WRange r)))
      ∧ ((∀ w, ¬ own w) → ∀ (po : Pool T) job, pool_reach (threads c) (S (length (ranges_in specs))) false po →
          (Group (get_group aff (Some (WRange r))), job) ∈ po_spawned po → (Group (get_group aff (Some (WRange r))), job) ∈ outstanding po).
Proof.
  destruct (from_worker_specs_ok specs num_workers Hfit) as (aff & Haff & Hinv).
  destruct (create_affinity specs num_workers Hfit aff Hinv core_ids spin core_offset system_threads receiver_threads Hne Hcores (J := Job T))
    as (c & Hc & Hshared & Halloc & Htot & Hall & Hthreads).
  exists aff, c. split; [done|]. split; [done|]. split; [done|]. split; [intros wt Hwt; by apply Hthreads|]. split.
  { intros Hen. destruct (affinity_builder_groups specs num_workers aff Hinv core_offset system_threads receiver_threads) as (_ & _ & Hreq & _).
    destruct (allocate_cores_ok core_ids core_offset system_threads receiver_threads
      (nat_sum (wg_num_workers <$> sb_groups (affinity_builder num_workers aff core_offset system_threads receiver_threads))) Hcores)
      as (a & Ha & _ & _ & _ & _ & Hgrant & _). rewrite Halloc in Ha. injection Ha as <-. rewrite Htot, (proj2 (proj2 (Hgrant ltac:(lia)))). lia. }
  intros i r Hi. assert (Hg : get_group aff (Some (WRange r)) = S i).
  { rewrite (get_group_listed num_workers (ranges_in specs) aff r Hinv (sort_ranges_NoDup _)).
    destruct (list_find (r =.) (ranges_in specs)) as [[j r']|] eqn:Hf.
    - apply list_find_Some in Hf as (Hj & <- & _). by rewrite (NoDup_lookup _ _ _ _ (sort_ranges_NoDup _) Hj Hi).
    - apply list_find_None in Hf. rewrite Forall_lookup in Hf. by destruct (Hf i r Hi). }
  rewrite Hg. set (own := λ w, _). assert (Hown : (∃ w, own w) ↔ ∃ wt, wt ∈ threads c ∧ wt_group wt = S i).
  { split.
    - intros (w & Hw & Hr & Hb). destruct (Hall w Hw) as (wt & Hwt & Hid). exists wt. split; [done|].
      destruct (Hthreads wt Hwt) as (_ & -> & _). rewrite Hid. apply group_of_spec. split; [by exists r|done].
    - intros (wt & Hwt & Hgr). destruct (Hthreads wt Hwt) as (Hw & Hgo & _). rewrite Hgr in Hgo. symmetry in Hgo.
      apply group_of_spec in Hgo as ((r' & Hi' & Hr') & Hb). rewrite Hi in Hi'. injection Hi' as <-. exists (wt_id wt). by split. }
  split; [done|]. intros Hno po job Hreach Hin.
  pose proof (reach_inv (threads c) (S (length (ranges_in specs))) false ltac:(done) po Hreach) as Hpo.
  rewrite (pi_jobs _ _ _ _ Hpo) in Hin. rewrite !elem_of_app in Hin. unfold outstanding. rewrite !elem_of_app.
  destruct Hin as [?|[?|[?|Hdone]]]; auto. exfalso. apply list_elem_of_fmap in Hdone as ([[w x] ran] & Heq & Hdone). cbn in Heq. subst x.
  apply (pi_done _ _ _ _ Hpo) in Hdone as (_ & wt & Hwt & Hsel). specialize (Hsel eq_refl). unfold selects in Hsel. apply Nat.eqb_eq in Hsel.
  destruct (proj2 Hown) as (w' & Hw'); [|by apply (Hno w')]. exists wt. split; [by eapply list_elem_of_lookup_2|done].
Qed.

(** Workers 0 to 3 and, within them, 1 and 2: the second range has no worker. *)
Definition nested_specs : gset WorkerRangeSpec := {[WRange (mkWorkerRange 0 4); WRange (mkWorkerRange 1 3)]}.

Lemma ranges_served_witness : ∃ aff (c : CustomScheduler (Job unit)), from_worker_specs nested_specs 4 = Ret aff
  ∧ create_custom (seq 0 16) 64 0 4 1 0 (Some aff) = Ret c
  ∧ get_group aff (Some (WRange (mkWorkerRange 1 3))) = 2
  ∧ ∀ (po : Pool unit) job, pool_reach (threads c) 3 false po → (Group 2, job) ∈ po_spawned po → (Group 2, job) ∈ outstanding po.
Proof.
  destruct (ranges_served nested_specs 4 (seq 0 16) 64 0 1 0 unit) as (aff & c & Haff & Hc & _ & _ & _ & Hserved).
  - intros r Hr. unfold nested_specs in Hr. set_unfold in Hr. unfold range_fits. destruct Hr as [[= ->]|[= ->]]; cbn; lia.
  - vm_compute. discriminate.
  - cbn. lia.
  - assert (Hg : get_group aff (Some (WRange (mkWorkerRange 1 3))) = 2) by (vm_compute in Haff; injection Haff as <-; reflexivity).
    exists aff, c. split; [exact Haff|]. split; [exact Hc|]. split; [exact Hg|].
    destruct (Hserved 1 (mkWorkerRange 1 3) ltac:(vm_compute; reflexivity)) as [_ Hstarve]. rewrite Hg in Hstarve.
    assert (Hno : ∀ w, ¬ (w < cu_total_workers c ∧ wr_contains (mkWorkerRange 1 3) (Z.of_nat w) = true
                   ∧ ∀ j r', j < 1 → ranges_in nested_specs !! j = Some r' → wr_contains r' (Z.of_nat w) = false)).
    { intros w (_ & Hw & Hb). specialize (Hb 0 (mkWorkerRange 0 4) ltac:(lia) ltac:(vm_compute; reflexivity)).
      unfold wr_contains in *. cbn in *. apply andb_true_iff in Hw as [H1%Z.leb_le H2%Z.ltb_lt].
      apply andb_false_iff in Hb as [Hb%Z.leb_gt|Hb%Z.ltb_ge]; lia. }
    exact (Hstarve Hno).
Defined.

(** ** With shards *)

Lemma share_sum total n : 0 < n → nat_sum (share total n <$> range 0 n) = total.
Proof.
  intros Hn. assert (H : ∀ k, k ≤ n → nat_sum (share total n <$> range 0 k) = k * (total / n) + Nat.min k (total mod n)).
  { induction k as [|k IH]; intros Hk; [done|]. rewrite range_snoc by lia. rewrite fmap_app, nat_sum_app, IH by lia.
    change (nat_sum (share total n <$> [k])) with (share total n k + 0). unfold share. rewrite Nat.mul_succ_l.
    destruct (Nat.ltb_spec k (total mod n)); lia. }
  rewrite H by lia. pose proof (Nat.mod_upper_bound total n ltac:(lia)). pose proof (Nat.div_mod_eq total n). lia.
Qed.

Lemma share_bounds total n m s : 0 < n → n ≤ total → total ≤ m * n → 1 ≤ share total n s ≤ m.
Proof.
  intros Hn Hle Hm. unfold share. pose proof (Nat.div_mod_eq total n) as Hd. pose proof (Nat.mod_upper_bound total n ltac:(lia)).
  pose proof (Nat.div_le_lower_bound total n 1 ltac:(lia) ltac:(lia)). pose proof (Nat.Div0.div_le_upper_bound total n m ltac:(lia)).
  destruct (Nat.ltb_spec s (total mod n)); [|lia]. assert (Hlt : n * (total / n) < n * m) by lia.
  apply Nat.mul_lt_mono_pos_l in Hlt; lia.
Qed.

(** Writing the same group to the next workers. *)
Lemma share_out_ok g count : ∀ v rest k, length v = k → count ≤ length rest →
  share_out (v ++ rest, k) (g, count) = Ret (v ++ replicate count g ++ drop count rest, k + count).
Proof.
  unfold share_out. cbn [fst snd]. intros v rest k. revert v rest k. unfold range. rewrite Nat.sub_0_r. generalize 0.
  induction count as [|count IH]; intros i v rest k Hk Hc; cbn [seq foldM replicate drop app]; [by rewrite Nat.add_0_r, drop_0|].
  destruct rest as [|x rest]; [cbn in Hc; lia|]. cbn [fst snd]. rewrite vec_set_lt by (rewrite length_app; cbn; lia).
  cbn [run_bind]. rewrite insert_app_r_alt by lia. replace (k - length v) with 0 by lia. cbn [insert list_insert].
  specialize (IH (S i) (v ++ [g]) rest (S k)). rewrite <- (assoc (++)) in IH. cbn [app] in IH. change (list_insert 0 g (x :: rest)) with (g :: rest).
  rewrite IH; [|rewrite length_app; cbn; lia|cbn in Hc; lia]. rewrite <- !(assoc (++)). cbn. f_equal. f_equal. lia.
Qed.

Lemma shares_to_group total n affinity : has_affinity_groups affinity = false → 0 < n → worker_to_group_idx total n affinity = Ret (concat ((λ g, replicate (share total n g) g) <$> range 0 n)).
Proof.
  intros Ha Hn. unfold worker_to_group_idx. rewrite Ha. destruct (Nat.ltb_spec 1 n) as [H1|H1].
  2:{ replace n with 1 by lia. unfold share. rewrite Nat.div_1_r, Nat.mod_1_r. cbn. by rewrite Nat.add_0_r, app_nil_r. }
  assert (H : ∀ k, k ≤ n → let v := concat ((λ g, replicate (share total n g) g) <$> range 0 k) in let t := nat_sum (share total n <$> range 0 k) in
    t ≤ total ∧ length v = t ∧ foldM share_out (replicate total 0, 0) ((λ g, (g, share total n g)) <$> range 0 k) = Ret (v ++ replicate (total - t) 0, t)).
  { assert (Hpre : ∀ k, k ≤ n → nat_sum (share total n <$> range 0 k) ≤ total).
    { intros k Hk. rewrite <- (share_sum total n Hn) at 2. rewrite (range_app 0 k n) by lia. rewrite fmap_app, nat_sum_app. lia. }
    induction k as [|k IH]; intros Hk.
    { cbn. split; [lia|]. split; [done|]. by rewrite Nat.sub_0_r. }
    destruct IH as (Ht & Hl & Hf); [lia|]. cbv zeta. pose proof (Hpre (S k) Hk) as Hs. rewrite range_snoc in * by lia.
    rewrite !fmap_app, concat_app, nat_sum_app in *. cbn [fmap list_fmap concat] in *. rewrite app_nil_r. unfold nat_sum at 2 in Hs. unfold nat_sum at 2 4 6. cbn [foldr] in *.
    rewrite Nat.add_0_r in *. split; [done|]. split; [by rewrite length_app, length_replicate, Hl|].
    rewrite foldM_app, Hf. cbn [run_bind foldM]. rewrite share_out_ok by (rewrite ?length_replicate; lia). cbn [run_bind].
    rewrite drop_replicate, <- (assoc (++)), Nat.sub_add_distr. change (nat_sum [share total n k]) with (share total n k + 0). by rewrite Nat.add_0_r. }
  destruct (H n (le_n n)) as (_ & _ & ->). cbn. rewrite share_sum, Nat.sub_diag by done. cbn. by rewrite app_nil_r.
Qed.

Lemma thread_groups configs cores offset tg : offset + length tg ≤ length cores → (∀ g, g ∈ tg → g < length configs) →
  wt_group <$> omap (thread_of configs cores offset tg) (range 0 (length tg)) = tg.
Proof.
  intros Hc Hg. assert (H : ∀ l : list nat, (∀ w, w ∈ l → w < length tg) → wt_group <$> omap (thread_of configs cores offset tg) l = omap (λ w, tg !! w) l).
  { induction l as [|w l IH]; intros Hl; [done|]. cbn [omap list_omap]. destruct (thread_of_total configs cores offset tg (length tg) w eq_refl Hc Hg) as [wt Hwt]; [by apply Hl; left|].
    rewrite Hwt. pose proof (thread_of_inv _ _ _ _ _ _ Hwt) as (_ & -> & _). cbn. rewrite IH; [done|]. intros; apply Hl; by right. }
  rewrite H by (intros w Hw%elem_of_range; lia). unfold range. rewrite Nat.sub_0_r. clear.
  assert (H : ∀ k l, omap (λ w, tg !! w) (seq k l) = take l (drop k tg)); [|rewrite H, drop_0; by apply take_ge].
  intros k l. revert k. induction l as [|l IH]; intros k; cbn [seq omap list_omap]; [done|]. rewrite IH.
  destruct (tg !! k) as [g|] eqn:Hk; [by rewrite (drop_S _ _ _ Hk)|]. apply lookup_ge_None in Hk. rewrite !drop_ge by lia. by destruct l.
Qed.

(** The shards of the builder. *)
Lemma add_shards num n spin b : 0 < n → n ≤ num → let b' := foldl (add_shard num n spin) b (range 0 n) in
  sb_groups b' = sb_groups b ++ ((λ s, mkGroupConfig (share num n s) None (length (sb_groups b) + s) true spin) <$> range 0 n)
  ∧ sb_core_offset b' = sb_core_offset b ∧ sb_system_threads b' = sb_system_threads b ∧ sb_receiver_threads b' = sb_receiver_threads b
  ∧ sb_worker_affinity b' = sb_worker_affinity b.
Proof.
  intros Hn Hle. assert (H : ∀ k, k ≤ n → let b' := foldl (add_shard num n spin) b (range 0 k) in
    sb_groups b' = sb_groups b ++ ((λ s, mkGroupConfig (share num n s) None (length (sb_groups b) + s) true spin) <$> range 0 k)
    ∧ sb_core_offset b' = sb_core_offset b ∧ sb_system_threads b' = sb_system_threads b ∧ sb_receiver_threads b' = sb_receiver_threads b
    ∧ sb_worker_affinity b' = sb_worker_affinity b); [|by apply H].
  induction k as [|k IH]; intros Hk; [cbn; by rewrite app_nil_r|]. destruct IH as (Hg & H1 & H2 & H3 & H4); [lia|].
  cbv zeta. rewrite range_snoc by lia. rewrite foldl_app. cbn [foldl]. unfold add_shard at 1 3 5 7 9.
  pose proof (share_bounds num n num k Hn Hle ltac:(nia)) as [Hpos _]. rewrite (proj2 (Nat.eqb_neq _ 0)) by lia.
  cbn [add_group sb_groups sb_core_offset sb_system_threads sb_receiver_threads sb_worker_affinity]. split; [|done].
  rewrite Hg, length_app, length_fmap, length_range, Nat.sub_0_r, fmap_app. by rewrite <- (assoc (++)).
Qed.

Lemma create_sharded (T : Type) (core_ids : list nat) (spin core_offset num_workers system_threads receiver_threads : nat)
    (worker_affinity : option WorkerAffinityConfig)
    (Haffinity : has_affinity_groups worker_affinity = false) (Hcores : 2 ≤ length core_ids) (Hworkers : 1 ≤ num_workers) :
  let n := Nat.max (div_ceil num_workers CUSTOM_SHARD_SIZE) 1 in
  num_workers ≤ CUSTOM_SHARD_SIZE * n < num_workers + CUSTOM_SHARD_SIZE
  ∧ nat_sum (share num_workers n <$> range 0 n) = num_workers
  ∧ (∀ s, s < n → 1 ≤ share num_workers n s ≤ CUSTOM_SHARD_SIZE)
  ∧ ∃ c : CustomScheduler (Job T),
      create_custom core_ids spin core_offset num_workers system_threads receiver_threads worker_affinity = Ret c
      ∧ cu_shared c = initial_workers n true
      ∧ allocate_cores core_ids core_offset system_threads receiver_threads num_workers = Ret (cu_alloc c)
      ∧ cu_total_workers c = ca_worker_count (cu_alloc c) ∧ cu_worker_affinity c = worker_affinity
      ∧ (system_threads + receiver_threads + num_workers ≤ length core_ids → cu_total_workers c = num_workers)
      ∧ (wt_group <$> threads c) ≡ₚ concat ((λ g, replicate (share (cu_total_workers c) n g) g) <$> range 0 n)
      ∧ ∀ (s : SharedWorkerState (Job T)) wt pl, wt ∈ threads c → sw_sharded s = true → reaches s wt pl = true.
Proof.
  intros n. unfold CUSTOM_SHARD_SIZE in *. assert (Hn : num_workers ≤ 8 * n < num_workers + 8).
  { unfold n, div_ceil. pose proof (Nat.div_mod_eq (num_workers + 8 - 1) 8). pose proof (Nat.mod_upper_bound (num_workers + 8 - 1) 8 ltac:(lia)). lia. }
  assert (Hpos : 0 < n) by lia. assert (Hle : n ≤ num_workers) by lia.
  split; [done|]. split; [by apply share_sum|]. split; [intros s _; apply share_bounds; lia|].
  set (b0 := set_threads core_offset system_threads receiver_threads CustomSchedulerBuilder_new).
  set (b := match worker_affinity with Some _ => set_worker_affinity worker_affinity (add_sharded_workers num_workers 8 spin b0)
            | None => add_sharded_workers num_workers 8 spin b0 end).
  assert (Hcreate : create_custom (J := Job T) core_ids spin core_offset num_workers system_threads receiver_threads worker_affinity
    = build_scheduler core_ids b).
  { unfold create_custom, b. destruct worker_affinity as [a|]; [|done]. cbn in Haffinity. by rewrite Haffinity. }
  assert (Hb : sb_groups b = (λ s, mkGroupConfig (share num_workers n s) None s true spin) <$> range 0 n
    ∧ sb_core_offset b = core_offset ∧ sb_system_threads b = system_threads ∧ sb_receiver_threads b = receiver_threads
    ∧ sb_worker_affinity b = worker_affinity ∧ sb_sharded b = true).
  { destruct (add_shards num_workers n spin b0 Hpos Hle) as (H1 & H2 & H3 & H4 & H5). unfold b, add_sharded_workers. cbv zeta.
    change (Nat.max 8 1) with 8. fold n. destruct worker_affinity; cbn [set_sharded set_worker_affinity
      sb_groups sb_core_offset sb_system_threads sb_receiver_threads sb_worker_affinity sb_sharded]; by rewrite H1, H2, H3, H4, ?H5. }
  destruct Hb as (Hg & Hco & Hst & Hrt & Haff & Hsh).
  assert (Hlen : length (sb_groups b) = n) by (rewrite Hg, length_fmap, length_range; lia).
  destruct (build_scheduler_ok (J := Job T) core_ids b Hcores) as (alloc & Ha & Hok). rewrite Hco, Hst, Hrt in Ha.
  assert (Hreq : nat_sum (wg_num_workers <$> sb_groups b) = num_workers).
  { rewrite Hg, <- list_fmap_compose. by apply (share_sum num_workers n). }
  rewrite Hreq in Ha. destruct (allocate_cores_ok core_ids core_offset system_threads receiver_threads num_workers Hcores)
    as (a & Ha' & _ & _ & Hfit & _ & Hgrant & _). rewrite Ha in Ha'. injection Ha' as <-.
  set (tg := concat ((λ g, replicate (share (ca_worker_count alloc) n g) g) <$> range 0 n)).
  assert (Htg : worker_to_group_idx (ca_worker_count alloc) (length (sb_groups b)) (sb_worker_affinity b) = Ret tg) by (rewrite Haff, Hlen; by apply shares_to_group).
  assert (Htl : length tg = ca_worker_count alloc).
  { etrans; [|exact (share_sum (ca_worker_count alloc) n Hpos)]. unfold tg. clear. induction (range 0 n) as [|g l IH]; [done|].
    cbn. rewrite length_app, length_replicate, IH. done. }
  assert (Hbound : ∀ g, g ∈ tg → g < length (sb_groups b)).
  { intros g Hgin. unfold tg in Hgin. apply list_elem_of_In, in_concat in Hgin as (l & (g' & -> & Hg'%elem_of_range)%list_elem_of_In%list_elem_of_fmap & Hgl%list_elem_of_In).
    apply elem_of_replicate in Hgl as [-> _]. lia. }
  destruct (Hok tg Htg Htl Hbound) as (c & Hc & Htot & Halloc & Hshared & Haff' & Hthreads). exists c. rewrite Htot.
  split; [by rewrite Hcreate|]. split; [rewrite Hshared, Hlen, Hsh; by rewrite (proj2 (Nat.ltb_lt 0 n))|].
  split; [by rewrite Halloc|]. split; [by rewrite Halloc|]. split; [by rewrite Haff'|]. split; [intros Hen; apply Hgrant; lia|]. split.
  - rewrite Hthreads. rewrite <- Htl at 1. rewrite thread_groups; [done|by rewrite Htl|exact Hbound].
  - intros s wt pl Hwt Hs. rewrite Hthreads in Hwt. apply list_elem_of_omap in Hwt as (w & _ & Hwt).
    apply thread_of_inv in Hwt as (_ & _ & _ & config & Hconf & Hallow & _). rewrite Hg, list_lookup_fmap in Hconf.
    apply fmap_Some in Hconf as (x & _ & ->). cbn in Hallow. unfold reaches, selects. rewrite Hs, Hallow. destruct pl; [done|]. by rewrite orb_true_r.
Qed.

(** Without ranges the workers are shared out over shards of at most eight: the shards are as
    many as needed, their sizes add up to the workers asked for and differ by one at
    most, and the workers that the machine grants are spread over all of them in the same
    way. Every worker reaches every channel, by taking, stealing or the global queue, so
    that [SchedSpec.rounds_drain] applies to all jobs. *)
Theorem shards_cover_workers (T : Type) (core_ids : list nat) (spin core_offset num_workers system_threads receiver_threads : nat)
    (Hcores : 2 ≤ length core_ids) (Hworkers : 1 ≤ num_workers) :
  let n := Nat.max (div_ceil num_workers CUSTOM_SHARD_SIZE) 1 in
  num_workers ≤ CUSTOM_SHARD_SIZE * n < num_workers + CUSTOM_SHARD_SIZE
  ∧ nat_sum (share num_workers n <$> range 0 n) = num_workers
  ∧ (∀ s, s < n → 1 ≤ share num_workers n s ≤ CUSTOM_SHARD_SIZE)
  ∧ ∃ c : CustomScheduler (Job T),
      create_custom core_ids spin core_offset num_workers system_threads receiver_threads None = Ret c
      ∧ cu_shared c = initial_workers n true
      ∧ (system_threads + receiver_threads + num_workers ≤ length core_ids → cu_total_workers c = num_workers)
      ∧ (wt_group <$> threads c) ≡ₚ concat ((λ g, replicate (share (cu_total_workers c) n g) g) <$> range 0 n)
      ∧ ∀ (s : SharedWorkerState (Job T)) wt pl, wt ∈ threads c → sw_sharded s = true → reaches s wt pl = true.
Proof.
  intros n. destruct (create_sharded T core_ids spin core_offset num_workers system_threads receiver_threads None eq_refl Hcores Hworkers)
    as (H1 & H2 & H3 & c & Hc & Hs & _ & _ & _ & H4 & H5 & H6). repeat (split; [done|]). exists c. by split_and!.
Qed.

Lemma shards_cover_workers_witness : ∃ c : CustomScheduler (Job unit), create_custom (seq 0 16) 64 0 10 1 0 None = Ret c
  ∧ cu_shared c = initial_workers 2 true ∧ (wt_group <$> threads c) ≡ₚ [0; 0; 0; 0; 0; 1; 1; 1; 1; 1].
Proof.
  destruct (shards_cover_workers unit (seq 0 16) 64 0 10 1 0 ltac:(cbn; lia) ltac:(lia)) as (_ & _ & _ & c & Hc & Hs & Hw & Hg & _).
  exists c. split; [exact Hc|]. split; [exact Hs|]. rewrite Hg, Hw by (cbn; lia). reflexivity.
Defined.
