(* ===== verification/SchedImpl.v ===== *)
(** The scheduler of the runtime ([SchedulerImpl], [create_scheduler] and the Rayon pool of
    [scheduler.rs]): one of a Rayon pool, the custom scheduler and a plugin, what it
    answers to the builder of the runtime, and where it sends the tasks of
    [Task.send_to_scheduler].

    The queues of Rayon are those of a third-party package: a Rayon scheduler is its
    allocation of cores. A plugin is what it answers. *)
From S2P Require Import Prelude Types WorkerRange GraphStruct Buffers NodeCache CoreAlloc Tables Task Build Affinity Sched SchedSpec SchedBuild.
From stdpp Require Import gmap strings sorting.

Inductive SchedulerType := Fifo | WorkStealing | Custom.

(** [SchedulerWorkerRange], the range of a plugin. *)
Record SchedulerWorkerRange := mkSchedRange { sr_start : Z; sr_count : Z; sr_affinity_group : nat }.

(** A plugin: what it answers to the builder, its core for the main thread, its groups. *)
Record Plugin := mkPlugin {
  pg_info : SchedulerInfo;
  pg_main_core : option nat;
  pg_affinity_group : option SchedulerWorkerRange → nat;
}.

Inductive SchedulerImpl (J : Type) :=
  | Rayon (fifo : bool) (alloc : CoreAllocation)
  | CustomImpl (c : CustomScheduler J)
  | PluginImpl (p : Plugin).
Arguments Rayon {J}. Arguments CustomImpl {J}. Arguments PluginImpl {J}.

(** [create_threadpool]: the cores of the workers are a slice of those of the machine. *)
Definition create_threadpool (core_ids : list nat) (core_offset workers receiver_threads system_threads : nat) : run CoreAllocation :=
  let! alloc := allocate_cores core_ids core_offset system_threads receiver_threads workers in
  if ca_worker_offset alloc + ca_worker_count alloc <=? length (ca_all_core_ids alloc) then Ret alloc else Panic.

(** [create_scheduler]. *)
Definition create_scheduler {J} (core_ids : list nat) (spin : nat) (scheduler_type : SchedulerType)
    (core_offset num_workers system_threads receiver_threads : nat) (worker_affinity : option WorkerAffinityConfig) : run (SchedulerImpl J) :=
  match scheduler_type with
  | Fifo => run_map (Rayon true) (create_threadpool core_ids core_offset num_workers receiver_threads system_threads)
  | WorkStealing => run_map (Rayon false) (create_threadpool core_ids core_offset num_workers receiver_threads system_threads)
  | Custom => run_map CustomImpl (create_custom core_ids spin core_offset num_workers system_threads receiver_threads worker_affinity)
  end.

Section impl.
Context {J : Type}.
Implicit Types s : SchedulerImpl J.

(** [has_typed_spawn], and what the other questions of the builder are answered with. *)
Definition has_typed_spawn s : bool := match s with CustomImpl _ => true | _ => false end.

Definition alloc_info (a : CoreAllocation) (workers : nat) (typed : bool) : SchedulerInfo :=
  mkSchedulerInfo workers (ca_system_core_offset a) (ca_system_threads a) (ca_receiver_offset a) (ca_receiver_threads a) typed.

Definition scheduler_info s : SchedulerInfo :=
  match s with
  | Rayon _ a => alloc_info a (ca_worker_count a) false
  | CustomImpl c => alloc_info (cu_alloc c) (cu_total_workers c) true
  | PluginImpl p => pg_info p
  end.

Definition main_core s : option nat :=
  match s with Rayon _ a => ca_main_core a | CustomImpl c => ca_main_core (cu_alloc c) | PluginImpl p => pg_main_core p end.

(** [get_affinity_group]. *)
Definition plugin_range (spec : WorkerRangeSpec) : SchedulerWorkerRange :=
  let range := to_range spec 0 in mkSchedRange (wr_start range) (wr_len range) 0.

Definition scheduler_affinity s : AffinityLookup :=
  λ use_workers,
    match s with
    | Rayon _ _ => 0
    | CustomImpl c => affinity_lookup (cu_worker_affinity c) use_workers
    | PluginImpl p => pg_affinity_group p (plugin_range <$> use_workers)
    end.
End impl.

(** [spawn_node], [spawn_to_group_with_meta] and [spawn_task_with_meta_priority] of the custom
    scheduler, as [send_to_scheduler] calls them for one task. *)
Definition submit_custom (should_record : bool) (s : SharedWorkerState (Job Submission)) (sub : Submission)
    : SharedWorkerState (Job Submission) :=
  if sub_typed sub then
    spawn_node s (sub_group sub) (sub_priority sub) (mkDesc (sub_node sub) (sub_func sub) 0 should_record)
  else
    let meta := Some (mkTaskMeta (ni_id (sub_node sub)) (ni_slot (sub_node sub)) (ni_index (sub_node sub)) should_record) in
    if 0 <? sub_group sub then spawn_to_group_with_meta s (sub_group sub) (sub_priority sub) meta sub
    else spawn_with_meta_priority s (sub_priority sub) meta sub.

(** The task that a job is. *)
Definition job_task (job : Job Submission) : NodeInfo := match job with Boxed sub _ => sub_node sub | JNode d => nd_node d end.

(** ** Creating a scheduler *)

Lemma create_threadpool_ok core_ids co w rt st : 2 ≤ length core_ids →
  ∃ a, create_threadpool core_ids co w rt st = Ret a ∧ allocate_cores core_ids co st rt w = Ret a.
Proof.
  intros Hc. destruct (allocate_cores_ok core_ids co st rt w Hc) as (a & Ha & _ & _ & Hfit & _). exists a. split; [|done].
  unfold create_threadpool. rewrite Ha. cbn [run_bind]. rewrite (allocate_ids _ _ _ _ _ _ Ha). by rewrite (proj2 (Nat.leb_le _ _)).
Qed.

(** Without ranges, every type of scheduler gets the same threads and cores; only the custom one
    has the typed spawn. *)
Lemma create_scheduler_ok (core_ids : list nat) (spin : nat) (scheduler_type : SchedulerType)
    (core_offset num_workers system_threads receiver_threads : nat) (worker_affinity : option WorkerAffinityConfig)
    (Hcores : 2 ≤ length core_ids) (Hworkers : 1 ≤ num_workers) (Haffinity : has_affinity_groups worker_affinity = false) :
  ∃ a (s : SchedulerImpl (Job Submission)), allocate_cores core_ids core_offset system_threads receiver_threads num_workers = Ret a
  ∧ create_scheduler core_ids spin scheduler_type core_offset num_workers system_threads receiver_threads worker_affinity = Ret s
  ∧ scheduler_info s = alloc_info a (ca_worker_count a) (has_typed_spawn s)
  ∧ main_core s = ca_main_core a
  ∧ (has_typed_spawn s = true ↔ scheduler_type = Custom)
  ∧ (∀ spec, get_group (default (mkAffinity ∅ [] ∅) worker_affinity) spec = 0 → scheduler_affinity s spec = 0).
Proof.
  destruct scheduler_type.
  - destruct (create_threadpool_ok core_ids core_offset num_workers receiver_threads system_threads Hcores) as (a & Hc & Ha).
    exists a, (Rayon true a). cbn. by rewrite Hc.
  - destruct (create_threadpool_ok core_ids core_offset num_workers receiver_threads system_threads Hcores) as (a & Hc & Ha).
    exists a, (Rayon false a). cbn. by rewrite Hc.
  - destruct (create_sharded Submission core_ids spin core_offset num_workers system_threads receiver_threads worker_affinity Haffinity Hcores Hworkers)
      as (_ & _ & _ & c & Hc & _ & Ha & Htot & Haff & _).
    exists (cu_alloc c), (CustomImpl c). cbn. rewrite Hc, Htot. split; [done|]. split; [done|]. split; [done|]. split; [done|].
    split; [done|]. intros spec Hspec. unfold scheduler_affinity. rewrite Haff. by destruct worker_affinity.
Qed.

(** ** The tasks of the runtime in the custom scheduler *)

Lemma places_groups {T} (s s' : SharedWorkerState (Job T)) : places s' = places s → length (sw_groups s') = length (sw_groups s).
Proof. unfold places. intros [= H%(f_equal length)]. by rewrite !length_fmap, !length_seq in H. Qed.

Lemma submit_spec should_record (s : SharedWorkerState (Job Submission)) sub : (sw_sharded s = true → 0 < length (sw_groups s)) →
  ∃ pl job, queued (submit_custom should_record s sub) ≡ₚ (pl, job) :: queued s ∧ job_task job = sub_node sub
  ∧ sw_sharded (submit_custom should_record s sub) = sw_sharded s
  ∧ length (sw_groups (submit_custom should_record s sub)) = length (sw_groups s)
  ∧ match pl with Group g => sw_sharded s = true ∨ g = sub_group sub | Global => True end.
Proof.
  intros Hn.
  assert (Hboxed : ∀ pl p meta, pl ∈ places s → let b := boxed_begin s pl p meta sub in
    queued (sent b) ≡ₚ (pl, Boxed sub (record_meta (sw_total_spawned s) meta)) :: queued s ∧ sw_sharded (sent b) = sw_sharded s
    ∧ length (sw_groups (sent b)) = length (sw_groups s)).
  { intros pl p meta Hpl. cbv zeta. set (job := Boxed sub _). set (s1 := (count_spawn s).2).
    change (sent (boxed_begin s pl p meta sub)) with (send_to s1 pl p job).
    pose proof (send_same s1 pl p job) as (E1 & _ & _ & _ & _ & _ & _ & _ & E9). rewrite E1.
    split; [rewrite send_queued by (by apply (places_spec s)); done|]. split; [done|].
    by apply places_groups in E9. }
  unfold submit_custom. destruct (sub_typed sub).
  - destruct (route_node (count_spawn s).2 (load_of s) (sub_group sub)) as [pl s2] eqn:Hr.
    destruct (spawn_route_spec (count_spawn s).2 _ _ _ _ Hn Hr) as (Hpl & c & ->).
    set (job := JNode (T := Submission) (with_job_id (sw_total_spawned s) (mkDesc (sub_node sub) (sub_func sub) 0 should_record))).
    assert (Hs : spawn_node s (sub_group sub) (sub_priority sub) (mkDesc (sub_node sub) (sub_func sub) 0 should_record)
      = send_to (set_cursor c (count_spawn s).2) pl (sub_priority sub) job).
    { unfold spawn_node, node_begin. rewrite (surjective_pairing (count_spawn s)). cbv beta iota. by rewrite Hr. }
    exists pl, job. rewrite Hs. set (s1 := set_cursor c _) in *.
    pose proof (send_same s1 pl (sub_priority sub) job) as (E1 & _ & _ & _ & _ & _ & _ & _ & E9). rewrite E1.
    split; [rewrite send_queued by (by apply (places_spec s)); done|]. split; [done|]. split; [done|]. split.
    { by apply places_groups in E9. }
    destruct pl as [|g]; [done|]. unfold route_node in Hr. destruct ((0 <? sub_group sub) && _); [injection Hr as <-; by right|].
    change (sw_sharded (count_spawn s).2) with (sw_sharded s) in Hr. destruct (sw_sharded s); [by left|done].
  - cbv zeta. destruct (0 <? sub_group sub) eqn:Hg.
    + destruct (Hboxed (group_place s (sub_group sub)) (sub_priority sub)
        (Some (mkTaskMeta (ni_id (sub_node sub)) (ni_slot (sub_node sub)) (ni_index (sub_node sub)) should_record))) as (H1 & H2 & H3).
      { unfold group_place. destruct (_ <? length _) eqn:Hlt; [|left]. by apply places_spec, lookup_lt_is_Some_2, Nat.ltb_lt. }
      do 2 eexists. split; [exact H1|]. split; [done|]. split; [done|]. split; [done|]. unfold group_place. destruct (_ <? length _); [by right|done].
    + destruct (Hboxed Global (sub_priority sub)
        (Some (mkTaskMeta (ni_id (sub_node sub)) (ni_slot (sub_node sub)) (ni_index (sub_node sub)) should_record))) as (H1 & H2 & H3); [left|].
      do 2 eexists. split; [exact H1|]. by split_and!.
Qed.

(** The tasks that [send_to_scheduler] submits to the custom scheduler are queued one by one,
    each as a job for the same task; a task whose node has a group is queued for that group
    or, with shards or when there is no such group, elsewhere; a task without a group
    never at a group of workers that ranges reserve. *)
Theorem submissions_queued (should_record : bool) (s : SharedWorkerState (Job Submission)) (subs : list Submission)
    (Hn : sw_sharded s = true → 0 < length (sw_groups s)) :
  ∃ added, queued (foldl (submit_custom should_record) s subs) ≡ₚ added ++ queued s
  ∧ Forall2 (λ sub pj, job_task pj.2 = sub_node sub
      ∧ match pj.1 with Group g => sw_sharded s = true ∨ g = sub_group sub | Global => True end) subs added.
Proof.
  revert s Hn. induction subs as [|sub subs IH]; intros s Hn; cbn [foldl]; [by exists []|].
  destruct (submit_spec should_record s sub Hn) as (pl & job & Hq & Hjob & Hsh & Hlen & Hpl).
  destruct (IH (submit_custom should_record s sub)) as (added & Hadd & Hall); [by rewrite Hsh, Hlen|].
  exists ((pl, job) :: added). split; [rewrite Hadd, Hq; solve_Permutation|]. constructor; [by split|]. by rewrite Hsh in Hall.
Qed.

Lemma submissions_queued_witness : let sub i := mkSubmission 0 PNormal (λ _, CmNone) (NodeInfo_new 0 0 i 0) None true in
  ∃ added, queued (foldl (submit_custom false) (initial_workers 2 true) [sub 0; sub 1]) ≡ₚ added ++ []
  ∧ (job_task ∘ snd <$> added) = [NodeInfo_new 0 0 0 0; NodeInfo_new 0 0 1 0].
Proof.
  intros sub. destruct (submissions_queued false (initial_workers 2 true) [sub 0; sub 1]) as (added & Hq & Hall); [cbn; lia|].
  exists added. split; [exact Hq|]. inversion Hall as [|? [pl1 j1] ? ? [E1 _] Hall']; subst. inversion Hall' as [|? [pl2 j2] ? ? [E2 _] Hnil]; subst.
  inversion Hnil; subst. cbn in *. by rewrite E1, E2.
Defined.
