(* ===== verification/ResolutionSpec.v ===== *)
(** What the loop of a resolution thread does to the slots.

    Resolving a batch, dispatching tasks and storing results leave the registry of the
    slots alone; so every turn of the loop is a sequence of the steps of [SlotInv], and
    the invariants of the slots hold in all its states. *)
From S2P Require Import Prelude Types GraphStruct WorkerRange Graph Buffers NodeDep NodeCache DepCounter ResultMap Tables Arena Successor ArgRes Slots SlotInv Exec Task Packets Resolution.
From stdpp Require Import strings.

(** ** Loops and a relation every round is in *)

Lemma foldM_rel {S A} (R : S → S → Prop) (f : S → A → run S) l s s' :
  (∀ s, R s s) → (∀ a b c, R a b → R b c → R a c) →
  (∀ s x s', x ∈ l → f s x = Ret s' → R s s') → foldM f s l = Ret s' → R s s'.
Proof.
  intros Hr Ht. revert s. induction l as [|x l IH]; intros s Hf; cbn [foldM]; [by intros [= <-]|].
  intros (s1 & H1 & H2)%run_bind_Ret. eapply Ht; [by eapply Hf; [left|]|]. eapply IH; [|done]. intros; eapply Hf; [by right|done].
Qed.

Lemma wait_bind_Some {A B} (m : run (option A)) (k : A → run (option B)) b :
  wait_bind m k = Ret (Some b) ↔ ∃ a, m = Ret (Some a) ∧ k a = Ret (Some b).
Proof.
  unfold wait_bind. destruct m as [[a|]|]; cbn; naive_solver.
Qed.

Lemma fold_wait_rel {S A} (R : S → S → Prop) (f : S → A → run (option S)) l s s' :
  (∀ s, R s s) → (∀ a b c, R a b → R b c → R a c) →
  (∀ s x s', x ∈ l → f s x = Ret (Some s') → R s s') → fold_wait f s l = Ret (Some s') → R s s'.
Proof.
  intros Hr Ht. revert s. induction l as [|x l IH]; intros s Hf; cbn [fold_wait]; [by intros [= <-]|].
  intros (s1 & H1 & H2)%wait_bind_Some. eapply Ht; [by eapply Hf; [left|]|]. eapply IH; [|done]. intros; eapply Hf; [by right|done].
Qed.

Lemma vec_set_length {A} (l l' : list A) i x : vec_set l i x = Ret l' → length l' = length l.
Proof. intros [_ ->]%vec_set_Ret. apply length_insert. Qed.

(** ** Work that leaves the registry alone *)

Lemma same_registry_refl d : same_registry d d.
Proof. by split_and!. Qed.

Lemma same_registry_trans a b c : same_registry a b → same_registry b c → same_registry a c.
Proof. unfold same_registry. intuition congruence. Qed.

Ltac registry := unfold same_registry; cbn; rewrite ?length_insert; split_and!; done.

Section work.
Context {C : Type} `{DependencyCounter C} `{FuncReg}.
Context (cfg : ExecConfig) (scfg : SlotConfig) (graph : Graph) (cache : list NodeCacheEntry) (arena : SuccessorArena).
Context (tbl : table nat) (init_objects : list (list CmTypes)) (fuel : nat).
Context (record_frame : option Z) (recording typed_spawn : bool) (get_aff : option WorkerRangeSpec → nat).
Context (cond_indexes : list (list nat)).

Definition work (rt rt' : Runtime C) : Prop :=
  same_registry (rt_slots rt) (rt_slots rt') ∧ rt_frame_complete_counter rt' = rt_frame_complete_counter rt.

Lemma work_refl rt : work rt rt.
Proof. split; [apply same_registry_refl|done]. Qed.
Lemma work_trans a b c : work a b → work b c → work a c.
Proof. intros [? ?] [? ?]. split; [by eapply same_registry_trans|congruence]. Qed.

Lemma add_processing_work (rt rt' : Runtime C) slot n : add_processing rt slot n = Ret rt' → work rt rt'.
Proof. unfold add_processing. intros (l & _ & [= <-])%run_bind_Ret. split; [registry|done]. Qed.

Lemma raise_check_work (rt rt' : Runtime C) slot : raise_check rt slot = Ret rt' → work rt rt'.
Proof.
  unfold raise_check. intros (l & Hl%vec_set_length & [= <-])%run_bind_Ret. split; [|done].
  unfold same_registry. cbn. split_and!; done.
Qed.

Lemma count_off_work (rt rt' : Runtime C) ni : count_off cache rt ni = Ret rt' → work rt rt'.
Proof.
  unfold count_off. intros (entry & _ & Hx)%run_bind_Ret.
  destruct (ce_is_condition entry); apply run_bind_Ret in Hx as (l & _ & [= <-]); (split; [registry|done]).
Qed.

Lemma fanout_arrive_work (rt rt' : Runtime C) slot edge gen n pi tasks :
  fanout_arrive cfg rt slot edge gen n pi = Ret (rt', tasks) → work rt rt'.
Proof.
  unfold fanout_arrive. intros (words & _ & Hx)%run_bind_Ret. apply run_bind_Ret in Hx as (packed & _ & Hx).
  destruct (fanout_bulk_increment _ _ _). injection Hx as <- _. split; [registry|done].
Qed.

Lemma dispatch_condition_work (rt rt' : Runtime C) ni succ gen sched sched' :
  dispatch_condition_successor cfg graph cache tbl init_objects fuel cond_indexes rt ni succ gen sched = Ret (Some (rt', sched')) →
  work rt rt'.
Proof.
  unfold dispatch_condition_successor. intros (entry & _ & Hx)%run_bind_Ret. apply run_bind_Ret in Hx as ([[|]|] & _ & Hx); [| |done].
  - apply run_bind_Ret in Hx as (words & _ & Hx). apply run_bind_Ret in Hx as (packed & _ & [= <- _]). split; [registry|done].
  - apply run_bind_Ret in Hx as (pc & _ & Hx). apply run_bind_Ret in Hx as ([c o] & _ & [= <- _]). split; [registry|done].
Qed.

Lemma batch_edge_work ni gen s edge s' :
  batch_edge cfg graph cache tbl init_objects fuel cond_indexes ni gen s edge = Ret (Some s') → work s.1 s'.1.
Proof.
  destruct s as [rt sched]. unfold batch_edge. destruct (negb (passes_filter edge (ni_index ni))); [intros [= <-]; apply work_refl|].
  intros (spawns & _ & Hx)%run_bind_Ret. destruct (spawns =? 0)%Z; [injection Hx as <-; apply work_refl|].
  apply run_bind_Ret in Hx as ([c ready] & _ & Hx). destruct (_ && _).
  - apply run_bind_Ret in Hx as ([rt2 tasks] & Hf%fanout_arrive_work & [= <-]). exact Hf.
  - refine (fold_wait_rel (λ a b : Runtime C * list NodeInfo, work a.1 b.1) _ ready (with_counter c rt, sched) s' _ _ _ Hx).
    + intros; apply work_refl. + intros a b c'; apply work_trans.
    + intros [rt1 sched1] i [rt2 sched2] _. destruct (se_has_condition edge); [apply dispatch_condition_work|].
      intros [= <- _]. apply work_refl.
Qed.

Lemma batch_node_work (rt rt' : Runtime C) entry sched :
  batch_node cfg graph cache arena tbl init_objects fuel cond_indexes rt entry = Ret (Some (rt', sched)) → work rt rt'.
Proof.
  destruct entry as [ni result_opt]. unfold batch_node. intros (m & _ & Hx)%run_bind_Ret.
  destruct (ni_post_node ni); [injection Hx as <- _; exact (work_refl rt)|].
  apply run_bind_Ret in Hx as (rt1 & Hoff%count_off_work & Hx). apply run_bind_Ret in Hx as (gen & _ & Hx).
  apply run_bind_Ret in Hx as (edges & _ & Hx). eapply work_trans; [exact Hoff|].
  refine (fold_wait_rel (λ a b : Runtime C * list NodeInfo, work a.1 b.1) _ edges (rt1, []) (rt', sched) _ _ _ Hx).
  - intros; apply work_refl. - intros a b c; apply work_trans. - intros s e s' _. apply batch_edge_work.
Qed.

Lemma process_batch_work (rt rt' : Runtime C) batch dispatched :
  process_batch_resolution cfg graph cache arena tbl init_objects fuel cond_indexes rt batch = Ret (Some (rt', dispatched)) →
  work rt rt'.
Proof.
  unfold process_batch_resolution. destruct batch as [|e batch]; [intros [= <- _]; apply work_refl|]. generalize (e :: batch). clear e batch. intros batch.
  intros (rt1 & H1 & Hx)%run_bind_Ret. apply wait_bind_Some in Hx as ([rt2 disp] & H2 & Hx).
  apply run_bind_Ret in Hx as (rt3 & H3 & [= <- _]). eapply work_trans; [|eapply work_trans].
  - eapply (foldM_rel work); [apply work_refl|apply work_trans| |exact H1]. intros ??? _. apply add_processing_work.
  - unfold process_batch_inner in H2. apply wait_bind_Some in H2 as (((rta & da) & sa) & Hf & [= <- _]).
    refine (fold_wait_rel (λ a b : Runtime C * list (list NodeInfo) * list NodeInfo, work a.1.1 b.1.1) _ batch (rt1, [], []) (rta, da, sa) _ _ _ Hf).
    + intros; apply work_refl. + intros a b c; apply work_trans.
    + intros [[ra da'] sa'] x s' _ ((rb & sb) & Hb%batch_node_work & Hs)%wait_bind_Some.
      destruct (ni_post_node x.1); [by injection Hs as <-|]. destruct (_ <=? _); by injection Hs as <-.
  - eapply (foldM_rel work); [apply work_refl|apply work_trans| |exact H3].
    intros ra x rb _ (rc & Ha%add_processing_work & Hb%raise_check_work)%run_bind_Ret. by eapply work_trans.
Qed.

Lemma dispatch_work (s s' : ExecState C) nodes :
  dispatch_nodes graph cache record_frame typed_spawn get_aff s nodes = Ret s' → es_rt s' = es_rt s.
Proof. unfold dispatch_nodes. by intros (subs & _ & [= <-])%run_bind_Ret. Qed.

Lemma drive_work (s s' : ExecState C) batch o :
  drive_batch cfg graph cache arena tbl init_objects fuel record_frame typed_spawn get_aff cond_indexes s batch = Ret (Some (s', o)) →
  work (es_rt s) (es_rt s').
Proof.
  unfold drive_batch. destruct batch as [|e batch]; [intros [= <- _]; apply work_refl|].
  intros ([rt disp] & Hp%process_batch_work & Hx)%wait_bind_Some. apply run_bind_Ret in Hx as (s1 & Hd & [= <- _]).
  assert (Heq : es_rt s1 = rt); [|by rewrite Heq].
  refine (foldM_rel (λ a b : ExecState C, es_rt b = es_rt a) _ disp (with_rt rt s) s1 _ _ _ Hd); [done|congruence|].
  intros ??? _. apply dispatch_work.
Qed.

Lemma drain_work target_size (s s' : ExecState C) :
  drain_and_process_batch_queue cfg graph cache arena tbl init_objects fuel record_frame typed_spawn get_aff cond_indexes target_size s
  = Ret (Some s') → work (es_rt s) (es_rt s').
Proof.
  unfold drain_and_process_batch_queue. destruct (take target_size (es_batch_queue s)); [intros [= <-]; apply work_refl|].
  intros (batch & _ & Hx)%run_bind_Ret. apply wait_bind_Some in Hx as ([s2 o] & Hd%drive_work & [= <-]). exact Hd.
Qed.

Lemma worker_resolve_work (rt rt' : Runtime C) ni sent inline :
  worker_resolve_successors cfg cache arena rt ni = Ret (rt', sent, inline) → work rt rt'.
Proof.
  unfold worker_resolve_successors. intros (rt1 & H1%add_processing_work & Hx)%run_bind_Ret. eapply work_trans; [exact H1|].
  apply run_bind_Ret in Hx as (gen & _ & Hx). destruct (negb _).
  - apply run_bind_Ret in Hx as (rt2 & H2%add_processing_work & Hx). apply run_bind_Ret in Hx as (rt3 & H3%raise_check_work & [= <- _ _]).
    by eapply work_trans.
  - apply run_bind_Ret in Hx as (rt2 & H2%count_off_work & Hx). apply run_bind_Ret in Hx as (gen' & _ & Hx).
    apply run_bind_Ret in Hx as (edges & _ & Hx). apply run_bind_Ret in Hx as ((rt3 & sched) & H3 & Hx).
    destruct (pop_inline _ _ _) as [sent' inline']. apply run_bind_Ret in Hx as (rt4 & H4%add_processing_work & Hx).
    apply run_bind_Ret in Hx as (rt5 & H5%raise_check_work & [= <- _ _]).
    eapply work_trans; [exact H2|]. apply (work_trans _ rt3); [|by eapply work_trans].
    refine (foldM_rel (λ a b : Runtime C * list NodeInfo, work a.1 b.1) _ edges (rt2, []) (rt3, sched) _ _ _ H3).
    + intros; apply work_refl. + intros a b c; apply work_trans.
    + intros (a & sa) edge (b & sb) _ ((c & ready) & _ & He)%run_bind_Ret. destruct (_ && _).
      * apply run_bind_Ret in He as ((rtf & tasks) & Hf%fanout_arrive_work & [= <- _]). exact Hf.
      * injection He as <- _. exact (work_refl a).
Qed.

Lemma resolve_and_send_work (s s' : ExecState C) ni next :
  resolve_and_send cfg graph cache arena record_frame typed_spawn get_aff s ni = Ret (s', next) → work (es_rt s) (es_rt s').
Proof.
  unfold resolve_and_send. intros (((rt & sent) & inline) & Hw%worker_resolve_work & Hx)%run_bind_Ret.
  apply run_bind_Ret in Hx as (s1 & Hd%dispatch_work & [= <- _]). by rewrite Hd.
Qed.

Lemma bulk_cells_work entry func ni cells (rt rt' : Runtime C) buf stale :
  bulk_cells cfg tbl fuel entry func ni rt buf cells = Ret (Some (rt', stale)) → work rt rt'.
Proof.
  revert rt buf. induction cells as [|i cells IH]; intros rt buf; cbn [bulk_cells]; [intros [= <- _]; apply work_refl|].
  intros ((buf' & st) & _ & Hx)%wait_bind_Some. destruct st; [injection Hx as <- _; apply work_refl|].
  apply run_bind_Ret in Hx as (rt1 & Hset & Hx). apply IH in Hx. refine (work_trans _ _ _ _ Hx).
  destruct (ce_needs_result_store entry); [|injection Hset as <-; apply work_refl].
  unfold run_map in Hset. apply run_bind_Ret in Hset as (m & _ & [= <-]). exact (work_refl rt).
Qed.

Lemma execute_task_work (s s' : ExecState C) wk func ni args wk' next :
  execute_task cfg graph cache arena tbl fuel record_frame recording typed_spawn get_aff s wk func ni args = Ret (Some (s', wk', next)) →
  work (es_rt s) (es_rt s').
Proof.
  unfold execute_task. intros (current & _ & Hx)%run_bind_Ret. destruct current; [|injection Hx as <- _ _; apply work_refl].
  destruct (1 <? ni_bulk_count ni).
  - unfold execute_bulk_task in Hx. apply run_bind_Ret in Hx as (entry & _ & Hx). apply wait_bind_Some in Hx as ((rt & stale) & Hb & Hx).
    assert (Hrt : work (es_rt s) rt).
    { destruct (ce_bulk_func entry); [destruct (negb (ce_needs_result_store entry))|].
      - injection Hb as <- _. apply work_refl. - by eapply bulk_cells_work. - by eapply bulk_cells_work. }
    destruct stale; [by injection Hx as <- _ _|].
    apply run_bind_Ret in Hx as ((s1 & n1) & Hr%resolve_and_send_work & [= <- _ _]). by eapply work_trans.
  - unfold execute_single_task in Hx. apply run_bind_Ret in Hx as (b & _ & Hx). apply wait_bind_Some in Hx as ((wk1 & result) & _ & Hx).
    destruct result as [result|]; [|injection Hx as <- _ _; apply work_refl].
    apply run_bind_Ret in Hx as (entry & _ & Hx). apply run_bind_Ret in Hx as (rt & Hset & Hx).
    assert (Hrt : work (es_rt s) rt).
    { destruct (_ || _); [|injection Hset as <-; apply work_refl].
      unfold run_map in Hset. apply run_bind_Ret in Hset as (m & _ & [= <-]). exact (work_refl (es_rt s)). }
    destruct (_ && _); [|injection Hx as <- _ _; exact Hrt].
    apply run_bind_Ret in Hx as ((s1 & n1) & Hr%resolve_and_send_work & [= <- _ _]). by eapply work_trans.
Qed.

Lemma run_node_desc_work n (s s' : ExecState C) wk func ni args wk' :
  run_node_desc cfg graph cache arena tbl fuel record_frame recording typed_spawn get_aff n s wk func ni args = Ret (Some (s', wk')) →
  work (es_rt s) (es_rt s').
Proof.
  revert s wk func ni args. induction n as [|n IH]; intros s wk func ni args; cbn [run_node_desc]; [done|].
  intros (((s1 & wk1) & next) & H1%execute_task_work & Hx)%wait_bind_Some. eapply work_trans; [exact H1|].
  destruct next as [next|]; [|injection Hx as <- _; apply work_refl].
  apply run_bind_Ret in Hx as (entry & _ & Hx). by eapply IH.
Qed.

Lemma spawn_initial_rt (s s' : System C) slot :
  spawn_initial scfg graph cache record_frame typed_spawn get_aff s slot = Ret s' →
  sys_rt s' = sys_rt s ∧ sys_ingress s' = sys_ingress s ∧ sys_net s' = sys_net s.
Proof.
  unfold spawn_initial. intros (nodes & _ & Hx)%run_bind_Ret. apply run_bind_Ret in Hx as (e & He & [= <-]).
  split; [|done]. unfold sys_rt. cbn. destruct nodes; [by injection He as <-|]. by apply dispatch_work in He.
Qed.
End work.

(** ** The loop refines the state machine of the slots *)

Section refines.
Context {C : Type} `{DependencyCounter C} `{FuncReg}.
Context (cfg : ExecConfig) (scfg : SlotConfig) (graph : Graph) (cache : list NodeCacheEntry) (arena : SuccessorArena).
Context (tbl : table nat) (init_objects : list (list CmTypes)) (fuel : nat).
Context (record_frame : option Z) (recording typed_spawn : bool) (get_aff : option WorkerRangeSpec → nat).
Context (dispatch_chunk : nat) (frame_timeout_ms : Z) (target_size : nat).
Context (cond_indexes : list (list nat)).
(** A graph that receives packets; with slot priority no frame times out. *)
Context (Hnet : is_some (g_network_config graph) = true)
  (Htimeout : cfg_slot_priority_enabled scfg = true → frame_timeout_ms = 0%Z).

#[local] Notation steps := (rtc (slot_step scfg graph cache)).
#[local] Notation slots_ok := (slots_ok scfg graph).

Lemma registry_steps (rt rt' : Runtime C) : same_registry (rt_slots rt) (rt_slots rt') → steps rt rt'.
Proof. intros Hs. by apply rtc_once, step_work. Qed.

Lemma work_steps (rt rt' : Runtime C) : work rt rt' → steps rt rt'.
Proof. intros [Hs _]. by apply registry_steps. Qed.

Lemma steps_ok (rt rt' : Runtime C) : steps rt rt' → slots_ok rt → slots_ok rt'.
Proof. induction 1 as [|x y z Hxy _ IH]; intros Hok; [done|]. apply IH. by eapply slot_step_ok. Qed.

Definition parked_ok (i : Ingress) : Prop := Forall (λ kv, frame_ok kv.1) (in_pending i).

(** What a poll keeps: the slots and the parked frames; the state moves by slot steps. *)
Definition moves (s s' : System C) : Prop :=
  slots_ok (sys_rt s) → parked_ok (sys_ingress s) → steps (sys_rt s) (sys_rt s') ∧ parked_ok (sys_ingress s').

Lemma moves_refl s : moves s s.
Proof. intros _ Hp. by split. Qed.

Lemma moves_trans a b c : moves a b → moves b c → moves a c.
Proof.
  intros Hab Hbc Ha Hp. destruct (Hab Ha Hp) as [H1 H2]. destruct (Hbc (steps_ok _ _ H1 Ha) H2) as [H3 H4].
  split; [by etrans|done].
Qed.

Lemma moves_rt s s' : sys_ingress s' = sys_ingress s → steps (sys_rt s) (sys_rt s') → moves s s'.
Proof. intros Hi Hs _ Hp. rewrite Hi. done. Qed.

Lemma moves_work s s' : sys_ingress s' = sys_ingress s → work (sys_rt s) (sys_rt s') → moves s s'.
Proof. intros Hi Hw. by apply moves_rt, work_steps. Qed.

Lemma moves_same s s' : sys_ingress s' = sys_ingress s → sys_rt s' = sys_rt s → moves s s'.
Proof. intros Hi Hw. apply moves_work; [done|]. rewrite Hw. apply work_refl. Qed.

Lemma moves_in s i : (parked_ok (sys_ingress s) → parked_ok i) → moves s (put_in i s).
Proof. intros Hi _ Hp. split; [|by apply Hi]. apply registry_steps. apply same_registry_refl. Qed.

Lemma entry_push_ok k x l : frame_ok k → Forall (λ kv, frame_ok kv.1) l →
  Forall (λ kv : nat * list PendingPacket, frame_ok kv.1) (entry_push k x l).
Proof.
  intros Hk. induction l as [|[j v] l IH]; intros Hl; cbn [entry_push]; [by repeat constructor|].
  apply Forall_cons in Hl as [Hj Hl]. destruct (k =? j); [by constructor|]. destruct (k <? j); [by repeat constructor|].
  constructor; [done|by apply IH].
Qed.

Lemma park_ok slots i frame x fp : frame_ok frame → parked_ok i → parked_ok (park_pending_packet slots i frame x fp).
Proof.
  intros Hf Hi. unfold park_pending_packet, parked_ok in *.
  assert (Hmark : ∀ j k, in_pending (mark_frame_dropped j k) = in_pending j).
  { intros j k. unfold mark_frame_dropped. by destruct (in_dropped j !! k) as [[|]|]. }
  destruct (in_dropped i !! frame) as [[|]|]; [done| |done].
  destruct (_ <=? _)%Z; [|cbn; by apply entry_push_ok]. cbn [remove_parked].
  set (i1 := match _ with Some e => _ | None => i end).
  assert (Hi1 : Forall (λ kv, frame_ok kv.1) (in_pending i1)).
  { unfold i1. destruct (snd <$> _); [|done]. cbn. apply Forall_forall. intros kv [_ Hkv]%list_elem_of_filter. by eapply Forall_forall in Hi. }
  destruct (_ =? frame); [by rewrite Hmark|]. cbn [in_pending set_parked]. apply entry_push_ok; [done|]. by rewrite Hmark.
Qed.

Lemma park_moves s frame x fp : frame_ok frame → moves s (park scfg s frame x fp).
Proof. intros Hf. unfold park. apply moves_in. intros Hp. by apply park_ok. Qed.

(** ** Packets *)

Lemma count_packet_moves s slot now s' : count_packet s slot now = Ret s' → moves s s' ∧ sd_states (rt_slots (sys_rt s')) = sd_states (rt_slots (sys_rt s)).
Proof.
  unfold count_packet. intros (l & _ & Hx)%run_bind_Ret. apply run_bind_Ret in Hx as (t & _ & [= <-]).
  split; [|done]. apply moves_work; [done|]. split; [registry|done].
Qed.

Lemma check_frame_moves s slot fp s' : check_frame_completion scfg s slot fp = Ret s' → moves s s'.
Proof.
  unfold check_frame_completion. intros (n & _ & Hx)%run_bind_Ret. destruct (negb _); [injection Hx as <-; apply moves_refl|].
  apply run_bind_Ret in Hx as (b & _ & Hx). apply run_bind_Ret in Hx as (l & _ & Hx).
  assert (Hs : ∀ n', moves s (with_net n' (put_rt (with_slots (upd_flags (sd_needs_check (rt_slots (sys_rt s)))
    (sd_packet_counters (rt_slots (sys_rt s))) l (rt_slots (sys_rt s))) (sys_rt s)) s))).
  { intros n'. apply moves_work; [done|]. split; [registry|done]. }
  destruct b; injection Hx as <-; [|apply Hs]. specialize (Hs (sys_net s)). by destruct s.
Qed.

Lemma spawn_moves s slot s' : spawn_initial scfg graph cache record_frame typed_spawn get_aff s slot = Ret s' → moves s s'.
Proof. intros (Hr & Hi & _)%spawn_initial_rt. by apply moves_same. Qed.

Lemma place_packet_moves p frame packet now p' a : frame_ok frame → slots_ok (sys_rt (pl_sys p)) →
  place_packet cfg scfg graph cache tbl init_objects fuel record_frame typed_spawn get_aff p frame packet now = Ret (Some (p', a)) →
  moves (pl_sys p) (pl_sys p')
  ∧ ∀ ni, a = Assigned ni → ∃ st, sd_states (rt_slots (sys_rt (pl_sys p'))) !! ni_slot ni = Some st ∧ st ≠ Inactive.
Proof.
  intros Hf Hok Hx. unfold place_packet in Hx. apply run_bind_Ret in Hx as ([rt1 r] & Ha & Hx).
  assert (H1 : moves (pl_sys p) (put_rt rt1 (pl_sys p))).
  { apply moves_rt; [done|]. by eapply rtc_once, step_assign. }
  destruct r as [[slot newly]|]; [|by injection Hx as <- <-; split].
  assert (Hst : ∃ st, sd_states (rt_slots rt1) !! slot = Some st ∧ st ≠ Inactive).
  { destruct Hok as [Hwf _ _]. destruct (assign_spec scfg graph cache (cfg_slots scfg) (sys_rt (pl_sys p)) frame Hwf eq_refl Hf)
      as (rt2 & o & Hrun & Hwf2 & Hcase). rewrite Ha in Hrun. injection Hrun as <- <-.
    destruct Hcase as [[-> [(s & [= -> ->] & Hin)|[? _]]]|(s & b & [= -> ->] & _ & Hs & -> & _)]; [|done|].
    - apply (rg_busy _ _ Hwf), list_elem_of_fmap. by exists (frame, s).
    - rewrite states_insert, decide_True by (try done; by eapply lookup_lt_Some). destruct b; by eexists. }
  apply run_bind_Ret in Hx as (s2 & Hs2 & Hx).
  assert (H2 : moves (pl_sys p) s2 ∧ sys_rt s2 = rt1).
  { destruct newly; [|by injection Hs2 as <-]. pose proof (spawn_initial_rt _ _ _ _ _ _ _ _ _ Hs2) as (-> & _).
    split; [|done]. eapply moves_trans; [exact H1|by eapply spawn_moves]. }
  destruct H2 as [H2 Hrt2]. apply run_bind_Ret in Hx as (n & _ & Hx). apply wait_bind_Some in Hx as (i & _ & Hx).
  apply run_bind_Ret in Hx as (s3 & [H3 Hst3]%count_packet_moves & [= <- <-]). cbn [pl_sys].
  split; [by eapply moves_trans|]. intros ni [= <-]. cbn [ni_slot NodeInfo_new]. by rewrite Hst3, Hrt2.
Qed.

Lemma admit_packet_moves p frame x now fp p' : frame_ok frame →
  admit_packet cfg scfg graph cache tbl init_objects fuel record_frame recording typed_spawn get_aff p frame x now fp = Ret (Some p') →
  moves (pl_sys p) (pl_sys p').
Proof.
  intros Hf Hx Hok Hp. unfold admit_packet in Hx. apply wait_bind_Some in Hx as ([p1 a] & Ha & Hx).
  assert (H1 : moves (pl_sys p) (pl_sys p1)
    ∧ ∀ ni, a = Assigned ni → ∃ st, sd_states (rt_slots (sys_rt (pl_sys p1))) !! ni_slot ni = Some st ∧ st ≠ Inactive).
  { unfold assign_packet_to_slot in Ha. destruct (in_dropped _ !! frame) as [[|]|]; [|by eapply place_packet_moves..].
    injection Ha as <- <-. split; [apply moves_refl|done]. }
  clear Ha. destruct H1 as [H1 Hst]. revert Hok Hp. change (moves (pl_sys p) (pl_sys p')).
  eapply moves_trans; [exact H1|]. clear H1 p. destruct a as [ni| |]; [| |injection Hx as <-; apply moves_refl].
  - destruct (Hst ni eq_refl) as (st & Hs & Hne). apply run_bind_Ret in Hx as ([d batch] & Hr & Hx).
    apply run_bind_Ret in Hx as (b & _ & Hx). apply run_bind_Ret in Hx as (s2 & H2%check_frame_moves & [= <-]).
    eapply moves_trans; [|exact H2]. apply moves_rt; [done|]. apply rtc_once.
    change (slot_step scfg graph cache (sys_rt (pl_sys p1)) (with_slots d (sys_rt (pl_sys p1)))).
    by eapply (step_route _ _ _ _ (ni, Some (pp_packet x))); [exact Hnet|exact Hs|exact Hne|exact Hr].
  - injection Hx as <-. cbn [pl_sys on_sys]. by apply park_moves.
Qed.

Lemma flush_moves p p' :
  flush_active_batch cfg graph cache arena tbl init_objects fuel record_frame typed_spawn get_aff cond_indexes p = Ret (Some p') →
  moves (pl_sys p) (pl_sys p').
Proof.
  unfold flush_active_batch. destruct (pl_batch p); [intros [= <-]; apply moves_refl|].
  intros ([m batch] & _ & Hx)%run_bind_Ret. apply wait_bind_Some in Hx as ([e o] & Hd%drive_work & [= <-]).
  apply moves_work; [done|]. exact Hd.
Qed.

Lemma fold_moves {A} (f : Poll C → A → run (option (Poll C))) l p p' :
  (∀ p x p', x ∈ l → f p x = Ret (Some p') → moves (pl_sys p) (pl_sys p')) →
  fold_wait f p l = Ret (Some p') → moves (pl_sys p) (pl_sys p').
Proof.
  intros Hf. apply (fold_wait_rel (λ a b : Poll C, moves (pl_sys a) (pl_sys b)));
    [intros; apply moves_refl|intros a b c; apply moves_trans|exact Hf].
Qed.

Lemma reinject_moves p now fp p' :
  reinject cfg scfg graph cache tbl init_objects fuel record_frame recording typed_spawn get_aff p now fp = Ret (Some p') →
  moves (pl_sys p) (pl_sys p').
Proof.
  intros Hx Hok Hp. unfold reinject, reinject_pending_frames in Hx.
  assert (Hin : ∀ kv, kv ∈ in_pending (sys_in (pl_sys p)) → frame_ok kv.1).
  { intros kv Hkv. unfold parked_ok in Hp. rewrite Forall_forall in Hp. by apply Hp. }
  revert Hok Hp. eapply moves_trans; [|eapply fold_moves; [|exact Hx]].
  - cbn [pl_sys on_sys]. apply moves_in. intros _. apply Forall_forall.
    intros kv [_ Hkv]%list_elem_of_filter. by apply Hin.
  - intros p1 kv p2 [_ Hkv]%list_elem_of_filter. apply fold_moves. intros p3 x p4 _.
    by apply admit_packet_moves, Hin.
Qed.

(** The frame numbers that the messages carry fit. *)
Definition messages_ok (func : CmPtr) (messages : list PacketMessage) : Prop :=
  ∀ m raw, m ∈ messages → process_id_function graph (decode_packet func m) = Ret (Some raw) → frame_ok raw.

Lemma poll_message_moves func now fp messages p m p' : messages_ok func messages → m ∈ messages →
  poll_message cfg scfg graph cache arena tbl init_objects fuel record_frame recording typed_spawn get_aff dispatch_chunk
    func cond_indexes now fp p m = Ret (Some p') → moves (pl_sys p) (pl_sys p').
Proof.
  intros Hms Hm. unfold poll_message. intros ([raw|] & Hid & Hx)%run_bind_Ret; [|injection Hx as <-; apply moves_refl].
  specialize (Hms m raw Hm Hid). destruct (rebase_frame_id _ raw) as [base [frame|]] eqn:Hb;
    [|injection Hx as <-; by apply moves_same].
  assert (Hf : frame_ok frame).
  { unfold rebase_frame_id in Hb. injection Hb as _ Hb. destruct (_ <=? _)%Z; [|done]. injection Hb as <-. unfold frame_ok in *. lia. }
  eapply moves_trans; [apply moves_same; [|]|]; [..|destruct (negb (in_window _ _ _))].
  3: injection Hx as <-; cbn [pl_sys on_sys]; by apply park_moves.
  3: { apply wait_bind_Some in Hx as (p2 & H2%admit_packet_moves & Hx); [|done]. eapply moves_trans; [exact H2|].
       destruct (_ && _); [by eapply flush_moves|]. injection Hx as <-. apply moves_refl. }
  all: done.
Qed.

Lemma poll_moves net func now messages s dirty s' dirty' : net_extract_packet_func net = Some func → messages_ok func messages →
  poll_and_process_network_packets cfg scfg graph cache arena tbl init_objects fuel record_frame recording typed_spawn get_aff
    dispatch_chunk net cond_indexes now messages s dirty = Ret (Some (s', dirty')) → moves s s'.
Proof.
  intros Hfunc Hms. unfold poll_and_process_network_packets. rewrite Hfunc. cbn [unwrap run_bind].
  intros (p1 & H1 & Hx)%wait_bind_Some. apply wait_bind_Some in Hx as (p2 & H2 & Hx).
  apply wait_bind_Some in Hx as (p3 & H3%flush_moves & [= <- _]).
  set (s1 := with_net _ s) in *. assert (Hs1 : moves s s1) by (apply moves_same; done). clearbody s1.
  eapply moves_trans; [exact Hs1|]. apply (moves_trans _ (pl_sys p1)); [|eapply moves_trans; [|exact H3]].
  - destruct (0 <? _)%Z; [|injection H1 as <-; apply moves_refl].
    apply wait_bind_Some in H1 as (p4 & H4%reinject_moves & H1). eapply moves_trans; [exact H4|].
    destruct (0 <? dispatch_chunk); [by eapply flush_moves|]. injection H1 as <-. apply moves_refl.
  - eapply fold_moves; [|exact H2]. intros a m b Hm. by apply (poll_message_moves func now (net_frame_packets net) messages).
Qed.

(** ** Slots *)

Lemma release_moves s slot s' : slot < cfg_slots scfg →
  sd_states (rt_slots (sys_rt s)) !! slot = Some Active ∨ cfg_slot_priority_enabled scfg = false →
  release_and_dispatch_next cfg scfg graph cache arena tbl init_objects fuel record_frame typed_spawn get_aff cond_indexes s slot
  = Ret (Some s') → moves s s'.
Proof.
  intros Hs Hact. unfold release_and_dispatch_next. intros ([rt1 next] & Hr & Hx)%run_bind_Ret.
  assert (H1 : moves s (put_rt rt1 s)) by (apply moves_rt; [done|]; by eapply rtc_once, step_release).
  destruct next as [[slot' batch]|]; [|injection Hx as <-; exact H1]. eapply moves_trans; [exact H1|].
  apply run_bind_Ret in Hx as (s2 & H2%spawn_moves & Hx). eapply moves_trans; [exact H2|].
  destruct batch; [injection Hx as <-; apply moves_refl|].
  apply wait_bind_Some in Hx as ([e o] & Hd%drive_work & [= <-]). apply moves_work; [done|exact Hd].
Qed.

Lemma restart_moves s slot s' :
  restart_and_dispatch scfg graph cache record_frame typed_spawn get_aff s slot = Ret s' → moves s s'.
Proof.
  unfold restart_and_dispatch, restart_slot_nonnetwork. rewrite Hnet. intros [= <-]. apply moves_same; [done|]. by destruct s as [[]].
Qed.

Lemma reset_moves s slot rt : slot < cfg_slots scfg → reset_slot_state cache (sys_rt s) slot = Ret rt → moves s (put_rt rt s).
Proof. intros Hs Hr. apply moves_rt; [done|]. by eapply rtc_once, step_reset. Qed.

Lemma evict_moves now timeout s slot s' b : slot < cfg_slots scfg → cfg_slot_priority_enabled scfg = false →
  evict_slot cfg scfg graph cache arena tbl init_objects fuel record_frame typed_spawn get_aff cond_indexes now timeout s slot
  = Ret (Some (s', b)) → moves s s'.
Proof.
  intros Hs Hprio. unfold evict_slot. intros (st & _ & Hx)%run_bind_Ret. destruct (negb st); [injection Hx as <- _; apply moves_refl|].
  apply run_bind_Ret in Hx as (claimed & _ & Hx). apply run_bind_Ret in Hx as (complete & _ & Hx).
  set (s1 := put_rt _ s) in Hx. assert (Hs1 : moves s s1) by (apply moves_work; [done|split; [registry|done]]). clearbody s1.
  eapply moves_trans; [exact Hs1|]. destruct claimed; [injection Hx as <- _; apply moves_refl|].
  apply run_bind_Ret in Hx as (frame & _ & Hx). set (s2 := put_in _ s1) in Hx.
  assert (Hs2 : moves s1 s2).
  { apply moves_in. unfold parked_ok, mark_frame_dropped. cbn. by destruct (in_dropped (sys_ingress s1) !! Z.to_nat frame) as [[|]|]. }
  clearbody s2. eapply moves_trans; [exact Hs2|]. apply run_bind_Ret in Hx as (rt3 & H3 & Hx).
  apply (reset_moves s2) in H3; [|done]. eapply moves_trans; [exact H3|].
  apply run_bind_Ret in Hx as (m & _ & Hx). apply wait_bind_Some in Hx as (s4 & H4%release_moves & [= <- _]); [|done|by right].
  eapply moves_trans; [|exact H4]. apply moves_work; [done|]. split; [apply same_registry_refl|done].
Qed.

Lemma try_evict_moves now s cached dirty s' dirty' : Forall (λ slot, slot < cfg_slots scfg) cached →
  try_evict_stalled_slots cfg scfg graph cache arena tbl init_objects fuel record_frame typed_spawn get_aff frame_timeout_ms
    cond_indexes now s cached dirty = Ret (Some (s', dirty')) → moves s s'.
Proof.
  intros Hc Hx. unfold try_evict_stalled_slots in Hx. destruct (cfg_slot_priority_enabled scfg) eqn:Hprio.
  - rewrite (Htimeout eq_refl) in Hx. injection Hx as <- _. apply moves_refl.
  - destruct (_ || _); [injection Hx as <- _; apply moves_refl|].
    refine (fold_wait_rel (λ a b : System C * bool, moves a.1 b.1) _ cached (s, dirty) (s', dirty') _ _ _ Hx).
    + intros; apply moves_refl. + intros a b c; apply moves_trans.
    + intros [a da] slot [b db] Hin ((s1 & e) & He & [= <- _])%wait_bind_Some. cbn [fst].
      rewrite Forall_forall in Hc. eapply evict_moves; [by apply Hc|done|exact He].
Qed.

Lemma reset_states (rt rt' : Runtime C) slot : reset_slot_state cache rt slot = Ret rt' →
  sd_states (rt_slots rt') = sd_states (rt_slots rt).
Proof.
  unfold reset_slot_state. intros (rt1 & Hb & Hx)%run_bind_Ret.
  repeat (apply run_bind_Ret in Hx as (? & _ & Hx)). injection Hx as <-. cbn.
  unfold bump_slot_generation in Hb. apply run_bind_Ret in Hb as (prev & _ & Hb).
  destruct (_ =? _)%Z; [|by injection Hb as <-]. unfold sweep_slot_generational_entries in Hb.
  apply run_bind_Ret in Hb as (? & _ & Hb). by apply run_bind_Ret in Hb as (? & _ & [= <-]).
Qed.

Lemma completion_slots (rt rt' : Runtime C) slot b : process_slot_completion scfg rt slot = Ret (rt', b) → rt_slots rt' = rt_slots rt.
Proof.
  unfold process_slot_completion. destruct (_ <? _)%Z; [|by intros [= <- _]]. by intros (m & _ & [= <- _])%run_bind_Ret.
Qed.

(** The check of a slot that is active, or of any slot without slot priority. Afterwards
    the state of another slot is as before, unless this one's frame was complete. *)
Lemma check_slot_moves bitmap s slot s' b : slot < cfg_slots scfg →
  (Z.testbit bitmap (Z.of_nat slot) = true → sd_states (rt_slots (sys_rt s)) !! slot = Some Active ∨ cfg_slot_priority_enabled scfg = false) →
  check_slot cfg scfg graph cache arena tbl init_objects fuel record_frame typed_spawn get_aff cond_indexes bitmap s slot
  = Ret (Some (s', b)) →
  moves s s' ∧ (b = false → sd_states (rt_slots (sys_rt s')) = sd_states (rt_slots (sys_rt s)))
  ∧ (b = true → Z.testbit bitmap (Z.of_nat slot) = true).
Proof.
  intros Hs Hact. unfold check_slot. destruct (Z.testbit bitmap (Z.of_nat slot)); cbn [negb];
    [|intros [= <- <-]; split; [apply moves_refl|done]]. specialize (Hact eq_refl).
  intros (asked & _ & Hx)%run_bind_Ret. apply run_bind_Ret in Hx as (needs & Hn%vec_set_length & Hx).
  set (s1 := put_rt _ s) in Hx. assert (Hst : sd_states (rt_slots (sys_rt s1)) = sd_states (rt_slots (sys_rt s))) by done.
  assert (Hs1 : moves s s1) by (apply moves_work; [done|split; [|done]]; unfold same_registry; cbn; split_and!; done).
  clearbody s1. destruct asked; cbn [negb] in Hx; [|by injection Hx as <- <-].
  apply run_bind_Ret in Hx as ([rt2 claimed] & Hd & Hx).
  assert (Hrt2 : rt_slots rt2 = rt_slots (sys_rt s1)).
  { unfold detect_and_claim_slot_completion in Hd. apply run_bind_Ret in Hd as (first & _ & Hd).
    destruct first; cbn [negb] in Hd; [|by injection Hd as <- _]. destruct (try_complete_slot _ _) as [c won].
    destruct won; cbn [negb] in Hd; [|by injection Hd as <- _]. apply run_bind_Ret in Hd as (again & _ & Hd).
    destruct again; by injection Hd as <- _. }
  assert (Hs2 : moves s1 (put_rt rt2 s1)).
  { apply moves_rt; [done|]. apply registry_steps. change (sys_rt (put_rt rt2 s1)) with rt2. rewrite Hrt2. apply same_registry_refl. }
  destruct claimed; cbn [negb] in Hx.
  2: { injection Hx as <- <-. split; [by eapply moves_trans|]. split; [|done]. intros _.
       change (sys_rt (put_rt rt2 s1)) with rt2. by rewrite Hrt2. }
  apply run_bind_Ret in Hx as (rt3 & H3 & Hx). apply run_bind_Ret in Hx as ([rt4 restart] & H4 & Hx).
  apply wait_bind_Some in Hx as (s5 & H5 & Hx). apply run_bind_Ret in Hx as (s6 & H6 & [= <- <-]).
  split; [|done]. eapply moves_trans; [exact Hs1|]. eapply moves_trans; [exact Hs2|].
  assert (Hrt3 : sd_states (rt_slots rt3) = sd_states (rt_slots rt2)) by (by eapply reset_states).
  assert (Hrt4 : rt_slots rt4 = rt_slots rt3) by (by eapply completion_slots).
  eapply moves_trans; [by eapply (reset_moves (put_rt rt2 s1))|]. eapply moves_trans; [eapply (moves_rt _ (put_rt rt4 s1)); [done|by eapply rtc_once, step_complete]|].
  eapply moves_trans; [eapply release_moves; [done| |exact H5]|].
  - change (sys_rt (put_rt rt4 s1)) with rt4. rewrite Hrt4, Hrt3, Hrt2, Hst. done.
  - destruct restart; [by eapply restart_moves|]. injection H6 as <-. apply moves_refl.
Qed.

Definition slots_list_ok (l : list nat) : Prop := NoDup l ∧ Forall (λ slot, slot < cfg_slots scfg) l.

(** With slot priority the bitmap names at most the active slot, until that one is done. *)
Lemma check_loop_moves bitmap cached s dirty s' dirty' : slots_list_ok cached →
  (cfg_slot_priority_enabled scfg = true → ∀ slot, slot ∈ cached → Z.testbit bitmap (Z.of_nat slot) = true →
     sd_states (rt_slots (sys_rt s)) !! slot = Some Active) →
  fold_wait (λ '(s, dirty) slot,
    wait! (s', done) := check_slot cfg scfg graph cache arena tbl init_objects fuel record_frame typed_spawn get_aff cond_indexes bitmap s slot in
    Ret (Some (s', dirty || done))) (s, dirty) cached = Ret (Some (s', dirty')) → moves s s'.
Proof.
  revert s dirty. induction cached as [|slot cached IH]; intros s dirty [Hnd Hall] Hbit Hx Hok Hpk; cbn [fold_wait] in Hx.
  { injection Hx as <- _. by apply moves_refl. }
  apply NoDup_cons in Hnd as [Hni Hnd]. apply Forall_cons in Hall as [Hs Hall].
  apply wait_bind_Some in Hx as ([s1 d1] & H1 & Hx). apply wait_bind_Some in H1 as ([s2 b] & Hc & [= <- <-]).
  assert (Hact : Z.testbit bitmap (Z.of_nat slot) = true →
    sd_states (rt_slots (sys_rt s)) !! slot = Some Active ∨ cfg_slot_priority_enabled scfg = false).
  { intros Hb. destruct (cfg_slot_priority_enabled scfg); [left; apply Hbit; [done|left|done]|by right]. }
  destruct (check_slot_moves _ _ _ _ _ Hs Hact Hc) as (Hm & Hsame & Hset).
  assert (Hrest : moves s2 s'); [|by apply (moves_trans s s2 s' Hm Hrest)]. eapply IH; [done| |exact Hx].
  intros Hprio t Ht Hb. destruct b.
  - exfalso. apply Hni. assert (slot = t) as ->; [|done]. apply (sq_one _ (so_seq _ _ _ Hok Hprio)); apply Hbit; auto using list_elem_of_here, list_elem_of_further.
  - rewrite Hsame by done. apply Hbit; [done|by right|done].
Qed.

Lemma check_slots_moves now s cached dirty s' cached' dirty' : slots_list_ok cached → slots_ok (sys_rt s) →
  check_slots cfg scfg graph cache arena tbl init_objects fuel record_frame typed_spawn get_aff frame_timeout_ms
    cond_indexes now s cached dirty = Ret (Some (s', cached', dirty')) → moves s s' ∧ slots_list_ok cached'.
Proof.
  intros Hc Hok. unfold check_slots. set (cached1 := if _ : bool then _ else cached).
  assert (Hc1 : slots_list_ok cached1).
  { unfold cached1. destruct (_ || _); [|done]. destruct Hok as [Hwf _ _]. split; [by apply (rg_running _ _ Hwf)|].
    apply Forall_forall. intros t Ht. apply (rg_busy _ _ Hwf) in Ht as (st & Hst & _).
    rewrite <- (rg_states _ _ Hwf). by eapply lookup_lt_Some. }
  clearbody cached1. intros ([s1 d1] & H1%try_evict_moves & Hx)%wait_bind_Some; [|apply Hc1].
  apply wait_bind_Some in Hx as ([s2 d2] & H2 & [= <- <- _]). split; [|done]. intros _ Hpk. destruct (H1 Hok Hpk) as [Hst1 Hpk1].
  pose proof (steps_ok _ _ Hst1 Hok) as Hok1. revert Hok Hpk. change (moves s s2).
  eapply moves_trans; [exact H1|]. eapply check_loop_moves; [exact Hc1| |exact H2].
  intros Hprio t Ht Hb. rewrite Hprio in Hb. destruct Hok1 as [Hwf _ _]. apply (rg_bits _ _ Hwf); [|done].
  destruct Hc1 as [_ Hall]. rewrite Forall_forall in Hall. by apply Hall.
Qed.

Lemma turn_moves l turn l' b : slots_list_ok (lp_cached_slots l) → slots_ok (sys_rt (lp_sys l)) → parked_ok (sys_ingress (lp_sys l)) →
  (∀ net func, g_network_config graph = Some net → net_extract_packet_func net = Some func → messages_ok func (tn_messages turn)) →
  resolution_turn cfg scfg graph cache arena tbl init_objects fuel record_frame recording typed_spawn get_aff dispatch_chunk
    frame_timeout_ms target_size cond_indexes l turn = Ret (Some (l', b)) →
  steps (sys_rt (lp_sys l)) (sys_rt (lp_sys l')) ∧ parked_ok (sys_ingress (lp_sys l')) ∧ slots_list_ok (lp_cached_slots l').
Proof.
  intros Hc Hok Hpk Hms Hx. unfold resolution_turn in Hx. destruct (tn_shutdown turn); [by injection Hx as <- _|].
  apply wait_bind_Some in Hx as ([s1 d1] & H1 & Hx). apply wait_bind_Some in Hx as (e & He%drain_work & Hx).
  assert (Hm1 : moves (lp_sys l) s1).
  { assert (Hg : ∃ net, g_network_config graph = Some net).
    { pose proof Hnet as Hn. revert Hn. case (g_network_config graph); [eauto|done]. }
    destruct Hg as [net Hg]. rewrite Hg in H1.
    destruct (nt_receive_finished _); [injection H1 as <- _; apply moves_refl|].
    destruct (net_extract_packet_func net) as [func|] eqn:Hf.
    - eapply poll_moves; [exact Hf|by eapply Hms|exact H1].
    - unfold poll_and_process_network_packets in H1. by rewrite Hf in H1. }
  assert (Hm2 : moves (lp_sys l) (with_exec e s1)).
  { eapply moves_trans; [exact Hm1|]. by apply moves_work. }
  destruct (Hm2 Hok Hpk) as [Hst2 Hpk2]. destruct (_ || _); [by injection Hx as <- _|].
  apply wait_bind_Some in Hx as ([[s3 cached] dirty] & H3 & [= <- _]). cbn [lp_sys lp_cached_slots].
  destruct (check_slots_moves _ _ _ _ _ _ _ Hc (steps_ok _ _ Hst2 Hok) H3) as [Hm3 Hc3].
  destruct (moves_trans _ _ _ Hm2 Hm3 Hok Hpk). done.
Qed.
(** ** The runtime: resolution threads and workers *)

(** The shared state and, for each resolution thread, its list of slots and its flag. A
    turn of a thread and the run of a task are one step each. *)
Inductive system_step : System C * list (list nat * bool) → System C * list (list nat * bool) → Prop :=
  | system_turn s threads i cached dirty turn s' cached' dirty' b : threads !! i = Some (cached, dirty) →
      (∀ net func, g_network_config graph = Some net → net_extract_packet_func net = Some func → messages_ok func (tn_messages turn)) →
      resolution_turn cfg scfg graph cache arena tbl init_objects fuel record_frame recording typed_spawn get_aff dispatch_chunk
        frame_timeout_ms target_size cond_indexes (mkLoop s cached dirty) turn = Ret (Some (mkLoop s' cached' dirty', b)) →
      system_step (s, threads) (s', <[i := (cached', dirty')]> threads)
  | system_task s threads l1 sub l2 n wk e wk' : es_scheduled (sys_exec s) = l1 ++ sub :: l2 →
      run_node_desc cfg graph cache arena tbl fuel record_frame recording typed_spawn get_aff n
        (mkExecState (sys_rt s) (l1 ++ l2) (es_batch_queue (sys_exec s)) (es_dropped (sys_exec s)))
        wk (sub_func sub) (sub_node sub) (sub_args sub) = Ret (Some (e, wk')) →
      system_step (s, threads) (with_exec e s, threads).

(** A run, executable: turns of a thread, and tasks taken from the scheduler. *)
Inductive event :=
  | Turn_of (i : nat) (now : Z) (messages : list PacketMessage)
  | Task_at (k : nat).

Definition system_event (st : System C * list (list nat * bool)) (ev : event)
    : run (option (System C * list (list nat * bool))) :=
  let (s, threads) := st in
  match ev with
  | Turn_of i now messages =>
      let! (cached, dirty) := vec_get threads i in
      wait! (l, _) := resolution_turn cfg scfg graph cache arena tbl init_objects fuel record_frame recording typed_spawn get_aff
        dispatch_chunk frame_timeout_ms target_size cond_indexes (mkLoop s cached dirty) (mkTurn messages now false false) in
      Ret (Some (lp_sys l, <[i := (lp_cached_slots l, lp_slots_dirty l)]> threads))
  | Task_at k =>
      let e := sys_exec s in
      let! sub := vec_get (es_scheduled e) k in
      wait! (e', _) := run_node_desc cfg graph cache arena tbl fuel record_frame recording typed_spawn get_aff 8
        (mkExecState (sys_rt s) (take k (es_scheduled e) ++ drop (S k) (es_scheduled e)) (es_batch_queue e) (es_dropped e))
        Worker_new (sub_func sub) (sub_node sub) (sub_args sub) in
      Ret (Some (with_exec e' s, threads))
  end.

Definition event_ok (ev : event) : Prop :=
  match ev with
  | Turn_of _ _ messages =>
      ∀ net func, g_network_config graph = Some net → net_extract_packet_func net = Some func → messages_ok func messages
  | Task_at _ => True
  end.

Lemma system_events_steps evs st st' : Forall event_ok evs → fold_wait system_event st evs = Ret (Some st') → rtc system_step st st'.
Proof.
  revert st. induction evs as [|ev evs IH]; intros st Hok Hx; cbn [fold_wait] in Hx; [by injection Hx as ->|].
  apply Forall_cons in Hok as [Hev Hok]. apply wait_bind_Some in Hx as (st1 & H1 & Hx).
  eapply rtc_l; [|by apply IH]. destruct st as [s threads], ev as [i now messages|k]; cbn [system_event] in H1.
  - apply run_bind_Ret in H1 as ([cached dirty] & Hi%vec_get_Ret & H1). apply wait_bind_Some in H1 as ([[s' c' d'] b] & Ht & [= <-]).
    eapply (system_turn _ _ _ _ _ (mkTurn messages now false false)); [exact Hi|exact Hev|exact Ht].
  - apply run_bind_Ret in H1 as (sub & Hs%vec_get_Ret & H1). apply wait_bind_Some in H1 as ([e wk] & Hr & [= <-]).
    eapply system_task; [|exact Hr]. symmetry. by apply take_drop_middle.
Qed.

Definition system_ok (st : System C * list (list nat * bool)) : Prop :=
  slots_ok (sys_rt st.1) ∧ parked_ok (sys_ingress st.1) ∧ Forall (λ t, slots_list_ok t.1) st.2.

Lemma system_step_ok st st' : system_ok st → system_step st st' →
  steps (sys_rt st.1) (sys_rt st'.1) ∧ system_ok st'.
Proof.
  intros Hsys Hstep. destruct Hstep as [s threads i cached dirty turn s' cached' dirty' b Hi Hms Hturn|s threads l1 sub l2 n wk e wk' _ Hrun];
    destruct Hsys as (Hok & Hpk & Hth); cbn [fst snd] in *.
  - assert (Hc : slots_list_ok cached) by (exact (Forall_lookup_1 _ _ _ _ Hth Hi)).
    destruct (turn_moves (mkLoop s cached dirty) turn _ b Hc Hok Hpk Hms Hturn) as (Hst & Hpk' & Hc'). cbn [lp_sys lp_cached_slots] in *.
    split; [done|]. split; [by eapply steps_ok|]. split; [done|]. by apply Forall_insert.
  - apply run_node_desc_work in Hrun. assert (Hst : steps (sys_rt s) (es_rt e)) by (by apply work_steps).
    split; [done|]. split; [by eapply steps_ok|]. done.
Qed.

Lemma runtime_reach (slots n_threads : nat) (s0 s : System C) threads : cfg_slots scfg = slots → 0 < slots ≤ 64 →
  rt_slots (sys_rt s0) = SlotData_new slots (build_slot_counters slots cache) → in_pending (sys_ingress s0) = [] →
  rtc system_step (s0, replicate n_threads ([], true)) (s, threads) →
  steps (sys_rt s0) (sys_rt s) ∧ system_ok (s, threads).
Proof.
  intros Hcfg Hslots Hinit Hempty Hreach. assert (Hok0 : system_ok (s0, replicate n_threads ([], true))).
  { split; [by eapply reachable_ok|]. split; [unfold parked_ok; cbn; by rewrite Hempty|].
    apply Forall_replicate. split; constructor. }
  change (sys_rt s0) with (sys_rt (s0, replicate n_threads (@nil nat, true)).1). change (sys_rt s) with (sys_rt (s, threads).1).
  clear Hinit Hempty. induction Hreach as [st|st1 st2 st3 H12 _ IH]; [done|].
  destruct (system_step_ok _ _ Hok0 H12) as [Hst Hok2]. destruct (IH Hok2) as [Hst2 Hok3]. split; [by etrans|done].
Qed.

End refines.

(** ** A concrete stream *)

(** Frames of two packets; a packet says its frame, and each is handled by an instance of
    node 1. *)
#[local] Instance packet_kernels : FuncReg := {|
  get_func _ := Some (λ _, CmNone);
  get_bulk_func _ := None; get_func_argspec _ := None; get_func_ret_variant _ := None; get_unchecked_func _ := None;
|}.
#[local] Instance one_group : AffinityLookup := λ _, 0.

Definition frame_of (args : list CmTypes) : CmTypes := match args with [CmVecCmt (f :: _)] => f | _ => CmNone end.
Definition net_config : GraphNetworkConfig :=
  mkNetConfig Udp 1 2 2 8 "" 0 (Some (λ args, default CmNone (head args))) (Some frame_of) None.
Definition net_nodes : list Node :=
  [mkNode "$network" [] 0 None 2 None "" None None Normal None; demo_node 1 2 [demo_res 0 [0%Z]]].
Definition net_graph : Graph :=
  match build_graph net_nodes with Ret g => set_network_config g net_config | Panic => Graph_new end.
Definition net_cache : list NodeCacheEntry := match build_node_cache net_graph [] false with Ret c => c | Panic => [] end.
Definition net_tables : Routing :=
  match build_predecessor_tables true net_graph with Ret t => t | Panic => mkRouting [] [] [] end.
Definition net_arena : SuccessorArena :=
  match arena_build (g_successors net_graph) 2 net_cache net_tables with Ret a => a | Panic => mkArena [] [] end.
Definition net_exec : ExecConfig := mkExecConfig 2 true true false false 8.
(** Slot priority, at most ten frames. *)
Definition net_slots (slots : nat) : SlotConfig := mkSlotConfig slots 10 2 true.
Definition net_start (slots : nat) : System MultiThreadedCounter :=
  mkSystem (mkExecState (mkRuntime (SlotData_new slots (build_slot_counters slots net_cache))
      (match MultiThreadedCounter_new slots [0; 2] (g_nodes net_graph) with Ret c => c | Panic => mkCounter [] 0 end)
      (ResultMap_new (g_nodes net_graph) slots) 0) [] [] 0)
    (mkIngress (replicate 12 false) 0 [] 0 0) (mkNet 0 (replicate slots 0%Z) 0 false 0).
Definition packet (frame payload : nat) : PacketMessage := mkMessage [] 0 (Some (CmVecCmt [CmUsize frame; CmUsize payload])).
(** Events of one resolution thread, with a time-out in milliseconds. *)
Definition net_run (slots : nat) (timeout_ms : Z) (evs : list event) : run (option (System MultiThreadedCounter * list (list nat * bool))) :=
  fold_wait (system_event net_exec (net_slots slots) net_graph net_cache net_arena (pred_group_by net_tables) [] 1 None false false (λ _, 0)
               0 timeout_ms 8 []) (net_start slots, [([], true)]) evs.

Lemma net_run_steps slots timeout evs st : Forall (event_ok net_graph) evs → net_run slots timeout evs = Ret (Some st) →
  rtc (system_step net_exec (net_slots slots) net_graph net_cache net_arena (pred_group_by net_tables) [] 1 None false false (λ _, 0)
         0 timeout 8 []) (net_start slots, replicate 1 ([], true)) st.
Proof. apply system_events_steps. Qed.

Definition net_events : list event :=
  [Turn_of 0 0 [packet 0 0; packet 1 0; packet 0 1]; Task_at 0; Task_at 0; Turn_of 0 1 [packet 1 1]].

Lemma net_events_ok : Forall (event_ok net_graph) net_events.
Proof.
  repeat constructor. all: intros net func Hn Hf m raw Hm Hid; vm_compute in Hn; injection Hn as <-; injection Hf as <-;
    repeat (apply elem_of_cons in Hm as [->|Hm]; [vm_compute in Hid; injection Hid as <-; vm_compute; reflexivity|]);
    by apply not_elem_of_nil in Hm.
Qed.

