(* ===== verification/Eviction.v ===== *)
(** Eviction of a frame that waits ([runtime/slot_lifecycle.rs],
    [try_evict_stalled_slots]).

    With slot priority a waiting frame has packets: they are counted when they arrive and
    held for its slot. When it loses one it is evicted although its slot is not active.
    The code takes such a slot for untouched; its release hands over to the next waiting
    frame while another is active, and the packets held for it stay.

    The last section is the end of a run: the resolution threads stop when at least
    [max_frames] frames are complete, the loop of [run] when exactly that many are. With
    several slots one turn can complete two frames, and the loop then waits for ever. *)
From S2P Require Import Prelude Types GraphStruct WorkerRange Graph Buffers NodeDep NodeCache DepCounter ResultMap Tables Arena Successor ArgRes Slots SlotInv Exec Task Packets Resolution Build ResolutionSpec.
From stdpp Require Import strings.

(** Times in milliseconds; frames of two packets time out after five. *)
Definition ms (n : Z) : Z := (n * 1000000)%Z.

(** Frames 0, 1 and 2 have slots 0, 1 and 2; frame 1 lost a packet. *)
Definition overtake_events : list event :=
  [Turn_of 0 0 [packet 0 0; packet 1 0; packet 2 0]; Turn_of 0 (ms 4) [packet 0 1; packet 2 1]; Turn_of 0 (ms 6) []].

(** With slot priority, evicting a frame that waits activates the next waiting frame
    although the running one is not done: two slots are active at the same time. *)
Theorem eviction_activates_second_slot : ∃ s threads,
  net_run 3 5 overtake_events = Ret (Some (s, threads))
  ∧ sd_states (rt_slots (sys_rt s)) = [Active; Inactive; Active]
  ∧ sd_running_frames (rt_slots (sys_rt s)) = [(0, 0); (2, 2)] ∧ ¬ seq_wf (rt_slots (sys_rt s)).
Proof.
  destruct (net_run 3 5 overtake_events) as [[[s threads]|]|] eqn:Hrun; [|vm_compute in Hrun; discriminate Hrun..].
  exists s, threads. split; [done|]. vm_compute in Hrun. injection Hrun as <- _. split; [reflexivity|]. split; [reflexivity|].
  intros [Hone _ _]. by specialize (Hone 0 2 eq_refl eq_refl).
Qed.

(** Frame 1 is evicted while it waits in slot 1; frames 2 and 3 run; frame 4 gets slot 1
    and waits, and is handed the slot before its second packet arrives. *)
Definition leak_events : list event :=
  [Turn_of 0 0 [packet 0 0; packet 1 0]; Turn_of 0 (ms 4) [packet 0 1]; Turn_of 0 (ms 6) [];
   Task_at 0; Task_at 0; Turn_of 0 (ms 7) []; Turn_of 0 (ms 8) [packet 2 0; packet 3 0; packet 2 1];
   Task_at 0; Task_at 0; Turn_of 0 (ms 8) []; Turn_of 0 (ms 8) [packet 4 0; packet 3 1];
   Task_at 0; Task_at 0; Turn_of 0 (ms 8) []].

(** The rest of frame 4: one of its two tasks runs, its second packet arrives, the slots
    are checked. *)
Definition leak_events' : list event := leak_events ++ [Task_at 0; Turn_of 0 (ms 9) [packet 4 1]; Turn_of 0 (ms 9) []].

(** The packets held for a frame that is evicted while it waits are resolved for the
    next frame that waits in the same slot. Here the packet of the dropped frame 1 counts
    as one of frame 4, so that frame 4 is taken for complete, and its slot released, when
    its last task has not run; that task is then dropped as stale. *)
Theorem evicted_packet_completes_other_frame : ∃ s s' threads threads',
  net_run 2 5 (take 3 leak_events) = Ret (Some (s, threads))
  ∧ in_dropped (sys_ingress s) !! 1 = Some true ∧ sd_states (rt_slots (sys_rt s)) !! 1 = Some Inactive
  ∧ sd_buffers (rt_slots (sys_rt s)) !! 1 = Some [(NodeInfo_new 0 1 0 0, Some (CmVecCmt [CmUsize 1; CmUsize 0]))]
  ∧ net_run 2 5 leak_events' = Ret (Some (s', threads'))
  ∧ rt_frame_complete_counter (sys_rt s') = 5%Z ∧ sd_running_frames (rt_slots (sys_rt s')) = []
  ∧ ((λ sub, (ni_id (sub_node sub), ni_slot (sub_node sub), ni_index (sub_node sub))) <$> es_scheduled (sys_exec s')) = [(1, 1, 1)].
Proof.
  destruct (net_run 2 5 (take 3 leak_events)) as [[[s threads]|]|] eqn:Hrun; [|vm_compute in Hrun; discriminate Hrun..].
  destruct (net_run 2 5 leak_events') as [[[s' threads']|]|] eqn:Hrun'; [|vm_compute in Hrun'; discriminate Hrun'..].
  exists s, s', threads, threads'. vm_compute in Hrun. injection Hrun as <- <-. vm_compute in Hrun'. injection Hrun' as <- <-.
  split_and!; reflexivity.
Qed.

(** A packet of frame 0 comes a second time, after the frame is complete. *)
Definition late_events : list event :=
  [Turn_of 0 0 [packet 0 0; packet 0 1]; Task_at 0; Task_at 0; Turn_of 0 (ms 1) []; Turn_of 0 (ms 2) [packet 0 1]; Turn_of 0 (ms 8) []].

(** A packet that comes late opens its frame again; the frame is evicted and counted a
    second time: two frames are complete and one of them dropped, although only one frame
    was ever sent. *)
Lemma late_packet_counts_frame_twice : ∃ s s' threads threads',
  net_run 2 5 (take 5 late_events) = Ret (Some (s, threads)) ∧ net_run 2 5 late_events = Ret (Some (s', threads'))
  ∧ sd_running_frames (rt_slots (sys_rt s)) = [(0, 0)] ∧ rt_frame_complete_counter (sys_rt s) = 1%Z
  ∧ rt_frame_complete_counter (sys_rt s') = 2%Z ∧ in_dropped (sys_ingress s') !! 0 = Some true.
Proof.
  destruct (net_run 2 5 (take 5 late_events)) as [[[s threads]|]|] eqn:Hrun; [|vm_compute in Hrun; discriminate Hrun..].
  destruct (net_run 2 5 late_events) as [[[s' threads']|]|] eqn:Hrun'; [|vm_compute in Hrun'; discriminate Hrun'..].
  exists s, s', threads, threads'. vm_compute in Hrun. injection Hrun as <- <-. vm_compute in Hrun'. injection Hrun' as <- <-.
  split_and!; reflexivity.
Qed.

(** ** The end of a run *)

#[local] Existing Instance packet_kernels.

(** Two slots, three frames, no slot priority. *)
Definition three_frames : RuntimeConfig :=
  mkRuntimeConfig 2 3 0 None 1 1 2 0 0 false true true false None 1024 SpinWaitConfig_default BatchConfig_default
    false false false false None None 0 None.

Definition overshoot_run (evs : list event) : run (option (System MultiThreadedCounter * list (list nat * bool))) :=
  fold_wait (system_event net_exec (slot_config three_frames) net_graph net_cache net_arena (pred_group_by net_tables) [] 1 None false false
               (λ _, 0) 0 0 8 []) (net_start 2, [([], true)]) evs.

(** Frames 0 and 1, then frames 2 and 3, whose packets all arrive before the next check. *)
Definition overshoot_events : list event :=
  [Turn_of 0 0 [packet 0 0; packet 0 1; packet 1 0; packet 1 1]; Task_at 0; Task_at 0; Task_at 0; Task_at 0; Turn_of 0 1 [];
   Turn_of 0 2 [packet 2 0; packet 3 0; packet 2 1; packet 3 1]; Task_at 0; Task_at 0; Task_at 0; Task_at 0; Turn_of 0 3 []].

(** Two frames that are complete in the same turn take the count from two to four when
    three are asked for. The resolution threads stop there, so that the state never
    changes again; and the loop of [run_until] goes on however often it looks, as long as
    its predicate does not end it. *)
Theorem overshot_run_never_ends : ∃ s threads, overshoot_run overshoot_events = Ret (Some (s, threads))
  ∧ rt_frame_complete_counter (sys_rt s) = 4%Z ∧ frames_done (slot_config three_frames) s = true
  ∧ ∀ times : list Z, run_wait three_frames None ((λ t, mkLook t false s [] [] (Some (λ _, false))) <$> times) = Ret None.
Proof.
  destruct (overshoot_run overshoot_events) as [[[s threads]|]|] eqn:Hrun; [|vm_compute in Hrun; discriminate Hrun..].
  exists s, threads. split; [done|].
  assert (Hcount : rt_frame_complete_counter (sys_rt s) = 4%Z) by (vm_compute in Hrun; injection Hrun as <- _; reflexivity).
  clear Hrun. split; [done|]. split; [by unfold frames_done; rewrite Hcount|]. intros times. rewrite run_wait_first.
  - f_equal. induction times as [|t times IH]; [done|]. rewrite fmap_cons, filter_cons, decide_False; [done|].
    unfold all_completed, frames_completed. cbn [lk_system]. by rewrite Hcount.
  - by apply Forall_fmap, Forall_true.
Qed.
