(* ===== verification/Admission.v ===== *)
(** Admission of the packets of a frame ([runtime/packet_processing.rs],
    [admit_packet]): how they are numbered and when the frame counts as received. *)
From S2P Require Import Prelude Types GraphStruct WorkerRange Graph Buffers NodeDep NodeCache DepCounter ResultMap Tables Arena Successor ArgRes Slots SlotInv Exec Task Packets Resolution ResolutionSpec.
From stdpp Require Import strings.

Section admission.
Context {C : Type} `{DependencyCounter C} `{FuncReg}.
Context (cfg : ExecConfig) (scfg : SlotConfig) (graph : Graph) (cache : list NodeCacheEntry).
Context (tbl : table nat) (init_objects : list (list CmTypes)) (fuel : nat).
Context (record_frame : option Z) (typed_spawn : bool) (get_aff : option WorkerRangeSpec → nat).

#[local] Notation admitting := (admit_packet cfg scfg graph cache tbl init_objects fuel record_frame false typed_spawn get_aff).

(** A frame that has an active slot: what is known about its packets. *)
Record receiving (frame slot : nat) (received : Z) (complete : bool) (s : System C) : Prop := {
  rc_ok : slots_ok scfg graph (sys_rt s);
  rc_live : in_dropped (sys_ingress s) !! frame ≠ Some true;
  rc_slot : (frame, slot) ∈ sd_running_frames (rt_slots (sys_rt s));
  rc_active : Z.testbit (sd_active_bitmap (rt_slots (sys_rt s))) (Z.of_nat slot) = true;
  rc_count : sd_packet_counters (rt_slots (sys_rt s)) !! slot = Some received;
  rc_complete : sd_packet_complete (rt_slots (sys_rt s)) !! slot = Some complete;
  rc_time : slot < length (nt_last_packet_ns (sys_net s));
}.

Lemma receiving_same frame slot received complete s s' received' complete' : receiving frame slot received complete s →
  same_registry (rt_slots (sys_rt s)) (rt_slots (sys_rt s')) → sys_ingress s' = sys_ingress s →
  sd_packet_counters (rt_slots (sys_rt s')) !! slot = Some received' →
  sd_packet_complete (rt_slots (sys_rt s')) !! slot = Some complete' →
  length (nt_last_packet_ns (sys_net s')) = length (nt_last_packet_ns (sys_net s)) →
  receiving frame slot received' complete' s'.
Proof.
  intros [] Hr Hi Hc Hp Hl. split; [by eapply same_registry_ok|by rewrite Hi| | |done|done|by rewrite Hl].
  - by destruct Hr as (_ & _ & _ & _ & -> & _).
  - by destruct Hr as (_ & _ & -> & _).
Qed.

Context (Hindex : index_function graph = None).

(** The counter of frames received, and whether reception is over, after one more packet. *)
Definition received_one (frame_packets : nat) (received : Z) (complete : bool) (n : NetState) : Z * bool :=
  if (as_u64 (received + 1) =? Z.of_nat frame_packets)%Z && negb complete
  then (as_u64 (nt_frames_receive_counter n + 1),
        nt_receive_finished n || (cfg_max_frames scfg <=? as_u64 (nt_frames_receive_counter n + 1))%Z)
  else (nt_frames_receive_counter n, nt_receive_finished n).

Lemma admit_one p frame slot received complete x now fp : frame_ok frame →
  receiving frame slot received complete (pl_sys p) →
  ∃ p', admitting p frame x now fp = Ret (Some p')
    ∧ pl_batch p' = pl_batch p ++ [(NodeInfo_new 0 slot (Z.to_nat received) 0, Some (pp_packet x))]
    ∧ pl_dirty p' = pl_dirty p
    ∧ receiving frame slot (as_u64 (received + 1)) (complete || (as_u64 (received + 1) =? Z.of_nat fp)%Z) (pl_sys p')
    ∧ (nt_frames_receive_counter (sys_net (pl_sys p')), nt_receive_finished (sys_net (pl_sys p')))
      = received_one fp received complete (sys_net (pl_sys p)).
Proof.
  intros Hf Hrec. pose proof Hrec as []. unfold admit_packet, assign_packet_to_slot.
  assert (Hd : (match in_dropped (sys_ingress (pl_sys p)) !! frame with Some true => Ret (Some (p, Dropped))
    | _ => place_packet cfg scfg graph cache tbl init_objects fuel record_frame typed_spawn get_aff p frame (pp_packet x) now end)
    = place_packet cfg scfg graph cache tbl init_objects fuel record_frame typed_spawn get_aff p frame (pp_packet x) now).
  { destruct (in_dropped _ !! frame) as [[|]|]; done. }
  rewrite Hd. clear Hd. unfold place_packet.
  rewrite (assign_running scfg graph cache (sys_rt (pl_sys p)) frame slot Hf rc_ok0 rc_slot0).
  destruct p as [[[[d ctr res cmp] sched bq dr] ing net] dirty batch].
  cbn [pl_sys sys_rt sys_exec es_rt rt_slots sys_net sys_ingress] in *.
  pose proof (lookup_lt_Some _ _ _ rc_count0) as Hl. pose proof (lookup_lt_Some _ _ _ rc_complete0) as Hl'.
  cbn. rewrite (vec_get_lookup _ _ _ rc_count0). cbn. rewrite Hindex. unfold count_packet, fetch_add. cbn.
  rewrite (vec_get_lookup _ _ _ rc_count0). cbn. rewrite !vec_set_lt by done. cbn. unfold route_packet. cbn.
  rewrite rc_active0. cbn. unfold check_frame_completion. cbn.
  rewrite (vec_get_lookup _ slot (as_u64 (received + 1))) by (by apply list_lookup_insert_eq). cbn.
  unfold received_one. destruct (as_u64 (received + 1) =? Z.of_nat fp)%Z eqn:Hfp; cbn.
  - rewrite (vec_get_lookup _ _ _ rc_complete0). cbn. rewrite vec_set_lt by done. cbn.
    destruct complete; cbn; eexists; (split; [done|]); cbn; (split; [done|]); (split; [by rewrite orb_false_r|]).
    all: split; [|done]; rewrite ?orb_true_l, ?orb_false_l.
    all: eapply receiving_same; [exact Hrec|..]; cbn; rewrite ?length_insert; try done; try registry.
    all: by apply list_lookup_insert_eq.
  - eexists. split; [done|]. cbn. split; [done|]. split; [by rewrite orb_false_r|]. split; [|done]. rewrite orb_false_r.
    eapply receiving_same; [exact Hrec|..]; cbn; rewrite ?length_insert; try done; try registry.
    by apply list_lookup_insert_eq.
Qed.

(** The entries the packets of a slot become, from a count on. *)
Fixpoint numbered (slot : nat) (received : Z) (xs : list PendingPacket) : list (NodeInfo * option CmTypes) :=
  match xs with
  | [] => []
  | x :: xs => (NodeInfo_new 0 slot (Z.to_nat received) 0, Some (pp_packet x)) :: numbered slot (received + 1) xs
  end.

(** The packets of a frame in an active slot, without an index function: none is lost
    or doubled, they become the instances of the network node in the order of their
    arrival, from the number already received on; and the frame counts as received exactly
    once, with the last of the packets of a frame, when it also ends reception if it was
    the last frame. Further packets are admitted and numbered on, but not counted again. *)
Theorem packets_numbered_and_counted_once (p : Poll C) (frame slot frame_packets : nat) (received now : Z) (xs : list PendingPacket)
    (Hf : frame_ok frame) (Hrec : receiving frame slot received (Z.of_nat frame_packets <=? received)%Z (pl_sys p))
    (Hreceived : (0 ≤ received)%Z) (Hpackets : 0 < frame_packets) (Hsmall : (received + Z.of_nat (length xs) < two64)%Z) :
  let total := (received + Z.of_nat (length xs))%Z in
  let completes := (received <? Z.of_nat frame_packets)%Z && (Z.of_nat frame_packets <=? total)%Z in
  ∃ p', fold_wait (λ p x, admitting p frame x now frame_packets) p xs = Ret (Some p')
    ∧ pl_batch p' = pl_batch p ++ numbered slot received xs ∧ pl_dirty p' = pl_dirty p
    ∧ receiving frame slot total (Z.of_nat frame_packets <=? total)%Z (pl_sys p')
    ∧ (nt_frames_receive_counter (sys_net (pl_sys p')), nt_receive_finished (sys_net (pl_sys p')))
      = if completes
        then (as_u64 (nt_frames_receive_counter (sys_net (pl_sys p)) + 1),
              nt_receive_finished (sys_net (pl_sys p))
              || (cfg_max_frames scfg <=? as_u64 (nt_frames_receive_counter (sys_net (pl_sys p)) + 1))%Z)
        else (nt_frames_receive_counter (sys_net (pl_sys p)), nt_receive_finished (sys_net (pl_sys p))).
Proof.
  cbv zeta. revert p received Hrec Hreceived Hsmall. induction xs as [|x xs IH]; intros p received Hrec Hr Hsmall.
  - exists p. cbn [fold_wait numbered length]. rewrite Z.add_0_r, app_nil_r. do 4 (split; [done|]).
    destruct (Z.ltb_spec received (Z.of_nat frame_packets)), (Z.leb_spec (Z.of_nat frame_packets) received); done || lia.
  - cbn [length] in Hsmall |- *. destruct (admit_one p frame slot received _ x now frame_packets Hf Hrec) as (p1 & H1 & Hb1 & Hd1 & Hrec1 & Hn1).
    assert (Has : as_u64 (received + 1) = (received + 1)%Z) by (apply as_u64_small; lia). rewrite Has in Hrec1.
    assert (Hc : ((Z.of_nat frame_packets <=? received) || (received + 1 =? Z.of_nat frame_packets))%Z
                 = (Z.of_nat frame_packets <=? received + 1)%Z).
    { destruct (Z.leb_spec (Z.of_nat frame_packets) received), (Z.leb_spec (Z.of_nat frame_packets) (received + 1)),
        (Z.eqb_spec (received + 1) (Z.of_nat frame_packets)); done || lia. }
    rewrite Hc in Hrec1. destruct (IH p1 (received + 1)%Z Hrec1) as (p2 & H2 & Hb2 & Hd2 & Hrec2 & Hn2); [lia|lia|].
    assert (Ht : (received + 1 + Z.of_nat (length xs))%Z = (received + Z.of_nat (S (length xs)))%Z) by lia. rewrite Ht in *.
    exists p2. cbn [fold_wait]. unfold wait_bind. rewrite H1. cbn [run_bind]. split; [done|].
    split; [by rewrite Hb2, Hb1, <- (assoc_L (++))|]. split; [congruence|]. split; [done|]. rewrite Hn2.
    unfold received_one in Hn1. rewrite Has in Hn1.
    destruct (Z.ltb_spec received (Z.of_nat frame_packets)), (Z.leb_spec (Z.of_nat frame_packets) received),
      (Z.ltb_spec (received + 1) (Z.of_nat frame_packets)), (Z.eqb_spec (received + 1) (Z.of_nat frame_packets)),
      (Z.leb_spec (Z.of_nat frame_packets) (received + Z.of_nat (S (length xs)))); try lia;
      cbn [andb negb] in *; injection Hn1 as Hn3 Hn4; by rewrite ?Hn3, ?Hn4.
Qed.
End admission.

#[local] Existing Instance packet_kernels.
#[local] Existing Instance one_group.

(** The second packet of frame 0, and one too many, after the first. *)
Lemma packets_numbered_and_counted_once_witness : ∃ s threads p',
  net_run 2 0 [Turn_of 0 0 [packet 0 0]] = Ret (Some (s, threads))
  ∧ fold_wait (λ p x, admit_packet net_exec (net_slots 2) net_graph net_cache (pred_group_by net_tables) [] 1 None false false (λ _, 0) p 0 x 0 2)
      (mkPoll s false []) [mkPending CmNone 0; mkPending CmInit 0] = Ret (Some p')
  ∧ pl_batch p' = [(NodeInfo_new 0 0 1 0, Some CmNone); (NodeInfo_new 0 0 2 0, Some CmInit)]
  ∧ nt_frames_receive_counter (sys_net (pl_sys p')) = 1%Z.
Proof.
  destruct (net_run 2 0 [Turn_of 0 0 [packet 0 0]]) as [[[s threads]|]|] eqn:Hrun; [|vm_compute in Hrun; discriminate Hrun..].
  assert (Hev : Forall (event_ok net_graph) [Turn_of 0 0 [packet 0 0]]).
  { repeat constructor. intros net func Hn Hf m raw Hm Hid. vm_compute in Hn. injection Hn as <-. injection Hf as <-.
    apply list_elem_of_singleton in Hm as ->. vm_compute in Hid. injection Hid as <-. vm_compute. reflexivity. }
  pose proof (runtime_reach net_exec (net_slots 2) net_graph net_cache net_arena (pred_group_by net_tables) [] 1 None false false
    (λ _, 0) 0 0 8 [] eq_refl (λ _, eq_refl) 2 1 (net_start 2) s threads eq_refl ltac:(lia) eq_refl eq_refl
    (net_run_steps 2 0 _ _ Hev Hrun)) as [_ (Hok & _ & _)].
  assert (Hrec : receiving (net_slots 2) net_graph 0 0 1 (Z.of_nat 2 <=? 1)%Z s).
  { vm_compute in Hrun. injection Hrun as <- _. split; [exact Hok|vm_compute; discriminate|vm_compute; left|reflexivity..|vm_compute; lia]. }
  destruct (packets_numbered_and_counted_once net_exec (net_slots 2) net_graph net_cache (pred_group_by net_tables) [] 1 None false
    (λ _, 0) eq_refl (mkPoll s false []) 0 0 2 1 0 [mkPending CmNone 0; mkPending CmInit 0]) as (p' & Hp & Hb & _ & _ & Hn);
    [reflexivity|exact Hrec|lia|lia|reflexivity|].
  exists s, threads, p'. split; [done|]. split; [exact Hp|]. split; [exact Hb|]. injection Hn as -> _.
  vm_compute in Hrun. injection Hrun as <- _. reflexivity.
Defined.
