(* ===== verification/NextFrame.v ===== *)
(** From one frame of a slot to the next, for a graph without a network and one slot.

    The tasks of a frame leave the rest of the slot alone ([tame]). When the frame is
    over, the generation advances and every counter reads as in a frame in which nothing
    has completed ([bump_fresh], also where the 32-bit tag wraps around), the slot is
    reset, released and restarted, and [FrameRun] applies to the next frame. *)
From S2P Require Import Prelude Types GraphStruct WorkerRange Graph Buffers NodeDep NodeDepConc NodeCache Tables DepCounter Counting ResultMap Arena Successor ArgRes Slots SlotInv Exec ExecSpec Task Arrivals Frame FrameRun Packets Resolution ResolutionSpec.
From stdpp Require Import strings.

(** ** Generations of words *)

(** No word of the entry is of a generation after [gen]. *)
Definition gens_upto (gen : Z) (e : NodeDependencyEntry) : Prop :=
  Forall (λ w, gen_unpack_gen w ≤ gen)%Z (remaining_deps e) ∧ Forall (λ w, gen_unpack_gen w ≤ gen)%Z (instances_sent e).

Lemma gen_pack_upto gen v : is_u32 gen → is_u32 v → (gen_unpack_gen (gen_pack gen v) ≤ gen)%Z.
Proof. intros Hg Hv. rewrite gen_unpack_gen_pack by done. lia. Qed.

Lemma upto_stale gen gen' e : gens_upto gen e → (gen < gen')%Z → stale_at gen' e.
Proof. intros [H1 H2] Hlt. split; eapply Forall_impl; [exact H1| |exact H2|]; cbn; lia. Qed.

Lemma new_entry_upto node total gen : (0 ≤ gen)%Z → gens_upto gen (new_entry node total).
Proof.
  intros Hg.
  assert (Hz : ∀ v, (gen_unpack_gen (gen_pack 0 (as_u32 v)) ≤ gen)%Z).
  { intros v. rewrite gen_unpack_gen_pack; [done|apply is_u32_0|apply as_u32_range]. }
  assert (H0 : (gen_unpack_gen (gen_pack 0 0) ≤ gen)%Z) by (rewrite gen_unpack_gen_pack by apply is_u32_0; done).
  unfold new_entry, NodeDependencyEntry_new, gens_upto. repeat case_match; split; by apply Forall_replicate.
Qed.

Lemma reset_epoch_upto gen e : is_u32 gen → is_u32 (deps_per_group e) → gens_upto gen (reset_epoch e gen).
Proof. intros Hg Hd. split; cbn; apply Forall_fmap, Forall_true; intros; by apply gen_pack_upto; auto using is_u32_0. Qed.

Lemma claims_upto gen claims sent ready sent' ready' : is_u32 gen → Forall (λ w, gen_unpack_gen w ≤ gen)%Z sent →
  foldM (claim_instance gen) (sent, ready) claims = Ret (sent', ready') → Forall (λ w, gen_unpack_gen w ≤ gen)%Z sent'.
Proof.
  intros Hg. revert sent ready. induction claims as [|i claims IH]; intros sent ready Hs; cbn [foldM]; [by intros [= <- _]|].
  intros ([sent1 ready1] & H1 & Hx)%run_bind_Ret. eapply IH, Hx. unfold claim_instance in H1.
  apply run_bind_Ret in H1 as (cur & _ & H1). destruct (sent_in gen cur); [by injection H1 as <- _|].
  apply run_bind_Ret in H1 as (s2 & [_ ->]%vec_set_Ret & [= <- _]). apply Forall_insert; [done|].
  apply gen_pack_upto; [done|apply is_u32_1].
Qed.

Lemma decrease_group_upto gen count spec e r g e' r' : is_u32 gen → is_u32 (deps_per_group e) → gens_upto gen e →
  (0 ≤ count)%Z → decrease_group gen count spec (e, r) g = Ret (e', r') → is_u32 (deps_per_group e') ∧ gens_upto gen e'.
Proof.
  intros Hg Hd [Hr Hs] Hc. unfold decrease_group. intros (prev & _ & Hx)%run_bind_Ret.
  apply run_bind_Ret in Hx as (rem & [_ ->]%vec_set_Ret & Hx). destruct (publish_plan _ _ _ _ _) as [direct claims].
  apply run_bind_Ret in Hx as ([sent ready] & Hl & [= <- <-]). split; [done|]. split; cbn [remaining_deps instances_sent set_sent set_remaining].
  - apply Forall_insert; [done|]. unfold decrement_word. apply gen_pack_upto; [done|].
    apply is_u32_sat_sub; [by apply gen_read_u32|]. unfold as_u32. apply Z.mod_pos_bound. done.
  - by eapply claims_upto.
Qed.

Lemma decrease_upto e gen group count spec e' ready : is_u32 gen → is_u32 (deps_per_group e) → gens_upto gen e →
  decrease_and_get_ready_into e gen group count spec = Ret (e', ready) → is_u32 (deps_per_group e') ∧ gens_upto gen e'.
Proof.
  intros Hg Hd He. unfold decrease_and_get_ready_into. destruct (call_groups e group) as [groups|]; [|by intros [= <- _]].
  generalize (@nil nat) as r. revert e Hd He. induction groups as [|g groups IH]; intros e Hd He r; cbn [foldM]; [by intros [= <- _]|].
  intros ([e1 r1] & H1 & Hx)%run_bind_Ret. apply decrease_group_upto in H1 as [Hd1 He1]; [|done..|lia]. by eapply IH.
Qed.

(** ** What the tasks of a frame leave alone *)

(** The counters of the slot carry no word of a generation after [gen]. *)
Definition words_upto (slot : nat) (gen : Z) (c : MultiThreadedCounter) : Prop :=
  ∀ s e, map_entry (node_dep_map c) slot s = Some e → is_u32 (deps_per_group e) ∧ gens_upto gen e.

Lemma counter_upto slot gen c node grp n spec c' ready : is_u32 gen → words_upto slot gen c →
  counter_decrease c slot node gen grp n spec = Ret (c', ready) → words_upto slot gen c' ∧ completed_slots c' = completed_slots c.
Proof.
  intros Hg Hc. cbn [counter_decrease mt_counter]. unfold mt_decrease, map_decrease.
  destruct (map_entry (node_dep_map c) slot node) as [e|] eqn:He; cbn [run_bind]; [|by intros [= <- _]].
  intros ([m r] & Hx & [= <- _])%run_bind_Ret. split; [|done]. apply run_bind_Ret in Hx as ([e' r'] & Hd & [= <- _]).
  destruct (Hc node e He) as [H1 H2]. apply decrease_upto in Hd as [H1' H2']; [|done..].
  intros s e0. cbn [node_dep_map]. rewrite map_update_entry by (by rewrite He). destruct (decide (s = node)) as [->|Hne].
  - rewrite decide_True by done. by intros [= <-].
  - rewrite decide_False by tauto. apply Hc.
Qed.

(** The rest of the state of a slot, before and after. *)
Record tame (slot : nat) (gen : Z) (rt rt' : Runtime MultiThreadedCounter) : Prop := {
  tm_cond : sd_pending_cond_tasks (rt_slots rt') = sd_pending_cond_tasks (rt_slots rt);
  tm_packets : sd_packet_counters (rt_slots rt') = sd_packet_counters (rt_slots rt)
               ∧ sd_packet_complete (rt_slots rt') = sd_packet_complete (rt_slots rt);
  tm_done : completed_slots (rt_counter rt') = completed_slots (rt_counter rt);
  tm_dims : same_dims (rt_results rt) (rt_results rt');
  tm_words : words_upto slot gen (rt_counter rt) → words_upto slot gen (rt_counter rt');
}.

Lemma decrement_upto slot gen c pi edge bulk c' ready : is_u32 gen → words_upto slot gen c →
  decrement_and_collect_ready c slot pi edge bulk gen = Ret (c', ready) →
  words_upto slot gen c' ∧ completed_slots c' = completed_slots c.
Proof.
  intros Hg Hc. unfold decrement_and_collect_ready.
  assert (Hone : ∀ c cell c' r, words_upto slot gen c → decrement_one edge slot gen c cell = Ret (c', r) →
    words_upto slot gen c' ∧ completed_slots c' = completed_slots c).
  { intros c1 cell c2 r Hc1. unfold decrement_one. intros (sp & _ & Hx)%run_bind_Ret. by eapply counter_upto. }
  destruct (filter_bounds edge) as [[lo hi]|]; [|intros (sp & _ & Hx)%run_bind_Ret; by eapply counter_upto].
  destruct (filter_overlap _ _ _ _) as [[l h]|]; [|by intros [= <- _]]. destruct (_ =? 1); [by apply Hone|].
  intros Hx. refine (foldM_rel (λ a b : MultiThreadedCounter * list nat, words_upto slot gen a.1 → words_upto slot gen b.1
     ∧ completed_slots b.1 = completed_slots a.1) _ (range l h) (c, []) (c', ready) _ _ _ Hx Hc).
  - done.
  - intros [a ra] [b rb] [d rd]. cbn. intros H1 H2 Ha. destruct (H1 Ha) as [Hb <-]. by apply H2.
  - intros [a ra] cell s' _ ([b rb] & Hd & [= <-])%run_bind_Ret. cbn. intros Ha. by eapply Hone.
Qed.

Lemma tame_refl slot gen rt : tame slot gen rt rt.
Proof. by split; [..|apply same_dims_refl|]. Qed.

Lemma tame_trans slot gen a b c : tame slot gen a b → tame slot gen b c → tame slot gen a c.
Proof.
  intros [A1 [A2 A3] A4 A5 A6] [B1 [B2 B3] B4 B5 B6].
  split; [congruence|split; congruence|congruence|by eapply same_dims_trans|auto].
Qed.

Section tame.
Context (cfg : ExecConfig) (graph : Graph) (cache : list NodeCacheEntry) (arena : SuccessorArena) `{FuncReg}.
Context (tbl : table nat) (fuel : nat) (record_frame : option Z) (recording typed_spawn : bool)
  (get_aff : option WorkerRangeSpec → nat).
Context (slot : nat) (g : Z).
#[local] Notation tame := (tame slot (as_u32 g)).

Lemma worker_edge_tame ni (rt rt' : Runtime MultiThreadedCounter) sched sched' edge : ni_slot ni = slot →
  worker_edge cfg ni (as_u32 g) (rt, sched) edge = Ret (rt', sched') →
  words_upto slot (as_u32 g) (rt_counter rt) →
  tame rt rt' ∧ sd_processing_count (rt_slots rt') = sd_processing_count (rt_slots rt)
  ∧ sd_generation (rt_slots rt') = sd_generation (rt_slots rt) ∧ sd_needs_check (rt_slots rt') = sd_needs_check (rt_slots rt).
Proof.
  intros Hs. unfold worker_edge. intros ([c ready] & Hd & Hx)%run_bind_Ret Hw. rewrite Hs in Hd.
  apply decrement_upto in Hd as [Hw' Hc]; [|apply as_u32_range|done]. destruct (_ && _).
  - apply run_bind_Ret in Hx as ([rt2 tasks] & Hf & [= <- _]). unfold fanout_arrive in Hf.
    apply run_bind_Ret in Hf as (words & _ & Hf). apply run_bind_Ret in Hf as (packed & _ & Hf).
    destruct (fanout_bulk_increment _ _ _). injection Hf as <- _. split; [|done]. by split; [..|apply same_dims_refl|].
  - injection Hx as <- _. split; [|done]. by split; [..|apply same_dims_refl|].
Qed.

Lemma worker_edges_tame ni edges (rt rt' : Runtime MultiThreadedCounter) sched sched' : ni_slot ni = slot →
  foldM (worker_edge cfg ni (as_u32 g)) (rt, sched) edges = Ret (rt', sched') →
  words_upto slot (as_u32 g) (rt_counter rt) →
  tame rt rt' ∧ sd_processing_count (rt_slots rt') = sd_processing_count (rt_slots rt)
  ∧ sd_generation (rt_slots rt') = sd_generation (rt_slots rt) ∧ sd_needs_check (rt_slots rt') = sd_needs_check (rt_slots rt).
Proof.
  intros Hs. revert rt sched. induction edges as [|e edges IH]; intros rt sched; cbn [foldM].
  - intros [= <- _] _. split; [apply tame_refl|done].
  - intros ([rt1 s1] & H1 & Hx)%run_bind_Ret Hw. apply worker_edge_tame in H1 as (T1 & P1 & G1 & N1); [|done..].
    apply IH in Hx as (T2 & P2 & G2 & N2); [|by apply T1]. split; [by eapply tame_trans|]. repeat split; congruence.
Qed.

Lemma add_processing_tame (rt rt' : Runtime MultiThreadedCounter) n p : sd_processing_count (rt_slots rt) !! slot = Some p →
  add_processing rt slot n = Ret rt' →
  tame rt rt' ∧ sd_processing_count (rt_slots rt') !! slot = Some (as_u64 (p + n)) ∧ rt_counter rt' = rt_counter rt
  ∧ sd_generation (rt_slots rt') = sd_generation (rt_slots rt).
Proof.
  intros Hp. unfold add_processing. rewrite (fetch_add_Ret _ _ _ _ Hp). intros [= <-].
  split; [by split; [..|apply same_dims_refl|]|]. split; [|done]. cbn. apply list_lookup_insert_eq. by eapply lookup_lt_Some.
Qed.

Lemma count_off_tame (rt rt' : Runtime MultiThreadedCounter) ni entry : cache !! ni_id ni = Some entry → ce_is_condition entry = false →
  count_off cache rt ni = Ret rt' →
  tame rt rt' ∧ sd_processing_count (rt_slots rt') = sd_processing_count (rt_slots rt) ∧ rt_counter rt' = rt_counter rt
  ∧ sd_generation (rt_slots rt') = sd_generation (rt_slots rt).
Proof.
  intros He Hc. unfold count_off. rewrite (vec_get_lookup _ _ _ He). cbn [run_bind]. rewrite Hc.
  intros (l & _ & [= <-])%run_bind_Ret. split; [|done]. by split; [..|apply same_dims_refl|].
Qed.

(** A completed task is resolved: the rest of the slot stays, and a check is asked for. *)
Lemma worker_resolve_tame (rt rt' : Runtime MultiThreadedCounter) ni entry sent inline : ni_slot ni = slot →
  cache !! ni_id ni = Some entry → ce_is_condition entry = false → sd_generation (rt_slots rt) !! slot = Some g →
  sd_processing_count (rt_slots rt) !! slot = Some 0%Z → words_upto slot (as_u32 g) (rt_counter rt) →
  worker_resolve_successors cfg cache arena rt ni = Ret (rt', sent, inline) →
  tame rt rt' ∧ sd_processing_count (rt_slots rt') !! slot = Some 0%Z ∧ sd_needs_check (rt_slots rt') !! slot = Some true.
Proof.
  intros Hs He Hc Hg Hp Hw. unfold worker_resolve_successors. rewrite Hs.
  assert (Hraise : ∀ rt2 rt3 : Runtime MultiThreadedCounter, raise_check rt2 slot = Ret rt3 →
    tame rt2 rt3 ∧ sd_processing_count (rt_slots rt3) = sd_processing_count (rt_slots rt2) ∧ sd_needs_check (rt_slots rt3) !! slot = Some true).
  { intros rt2 rt3. unfold raise_check. intros (l & [Hl ->]%vec_set_Ret & [= <-])%run_bind_Ret.
    split; [by split; [..|apply same_dims_refl|]|]. split; [done|]. by apply list_lookup_insert_eq. }
  intros (rt1 & (T1 & P1 & C1 & G1)%(add_processing_tame _ _ _ _ Hp) & Hx)%run_bind_Ret.
  apply run_bind_Ret in Hx as (gen & _ & Hx). destruct (negb _).
  - apply run_bind_Ret in Hx as (rt2 & (T2 & P2 & _)%(add_processing_tame _ _ _ _ P1) & Hx).
    apply run_bind_Ret in Hx as (rt3 & (T3 & P3 & N3)%Hraise & [= <- _ _]).
    split; [eapply tame_trans; [exact T1|by eapply tame_trans]|]. by rewrite P3.
  - apply run_bind_Ret in Hx as (rt2 & (T2 & P2 & C2 & G2)%(count_off_tame _ _ _ _ He Hc) & Hx).
    unfold slot_gen_of in Hx at 1. rewrite (vec_get_lookup _ _ g) in Hx by (by rewrite G2, G1). cbn [run_bind run_map] in Hx.
    apply run_bind_Ret in Hx as (edges & _ & Hx). apply run_bind_Ret in Hx as ([rt3 sched] & H3 & Hx).
    apply worker_edges_tame in H3 as (T3 & P3 & G3 & _); [|done|by rewrite C2, C1].
    destruct (pop_inline _ _ _) as [sent' inline']. rewrite <- P2, <- P3 in P1.
    apply run_bind_Ret in Hx as (rt4 & (T4 & P4 & _)%(add_processing_tame _ _ _ _ P1) & Hx).
    apply run_bind_Ret in Hx as (rt5 & (T5 & P5 & N5)%Hraise & [= <- _ _]). split; [|by rewrite P5].
    eapply tame_trans; [exact T1|]. eapply tame_trans; [exact T2|]. eapply tame_trans; [exact T3|]. by eapply tame_trans.
Qed.

(** The same for the run of a task of the current generation. *)
Lemma execute_task_tame (s s' : ExecState MultiThreadedCounter) wk func ni args wk' next entry : ni_slot ni = slot →
  ni_post_node ni = false → as_u32 g = ni_gen ni →
  cache !! ni_id ni = Some entry → ce_is_condition entry = false → ce_worker_resolvable entry = true →
  sd_generation (rt_slots (es_rt s)) !! slot = Some g → sd_processing_count (rt_slots (es_rt s)) !! slot = Some 0%Z →
  words_upto slot (as_u32 g) (rt_counter (es_rt s)) →
  execute_task cfg graph cache arena tbl fuel record_frame recording typed_spawn get_aff s wk func ni args = Ret (Some (s', wk', next)) →
  tame (es_rt s) (es_rt s') ∧ sd_processing_count (rt_slots (es_rt s')) !! slot = Some 0%Z
  ∧ sd_needs_check (rt_slots (es_rt s')) !! slot = Some true.
Proof.
  intros Hs Hpost Hgen He Hc Hwr Hg Hp Hw Hx.
  destruct (execute_resolves _ _ _ _ _ _ _ _ _ _ _ _ _ _ _ _ _ _ g entry Hpost ltac:(by rewrite Hs) Hgen He Hwr Hx) as (m & Hres & Hd).
  unfold resolve_and_send in Hres. apply run_bind_Ret in Hres as ([[rt1 sent] inline] & Hr & Hres).
  apply (worker_resolve_tame _ _ _ entry) in Hr as (T & P & N); [|done..].
  apply run_bind_Ret in Hres as (s2 & Hdp%dispatch_work & [= <- _]). rewrite Hdp. cbn [with_rt es_rt]. split; [|done].
  eapply tame_trans; [|exact T]. by split.
Qed.
End tame.

(** ** The next generation of a slot *)

(** What is at rest in the slot between and during the tasks of a frame; the rest of the
    slot is in [frame_inv]. *)
Record slot_rest (gw : Z) (rt : Runtime MultiThreadedCounter) : Prop := {
  rs_word : (0 ≤ gw < two64)%Z;
  rs_cond : sd_pending_cond_tasks (rt_slots rt) !! 0 = Some 0%Z;
  rs_proc : sd_processing_count (rt_slots rt) !! 0 = Some 0%Z;
  rs_words : words_upto 0 (as_u32 gw) (rt_counter rt);
  rs_results : sized (rt_results rt) ∧ 0 < rm_slots (rt_results rt);
  rs_packets : 0 < length (sd_packet_counters (rt_slots rt)) ∧ 0 < length (sd_packet_complete (rt_slots rt));
  rs_vectors : 0 < length (sd_cond_instances_to_spawn (rt_slots rt)) ∧ 0 < length (sd_fanout_bulk_arrived (rt_slots rt));
}.

Lemma slot_rest_tame gw rt rt' : slot_rest gw rt → tame 0 (as_u32 gw) rt rt' →
  same_registry (rt_slots rt) (rt_slots rt') → sd_processing_count (rt_slots rt') !! 0 = Some 0%Z → slot_rest gw rt'.
Proof.
  intros [] [T1 [T2 T3] T4 T5 T6] (_ & _ & _ & _ & _ & _ & _ & _ & _ & E1 & E2) Hp.
  split; rewrite ?T1, ?T2, ?T3, ?T4, ?E1, ?E2; try done; [by apply T6|].
  destruct rs_results0. split; [by eapply same_dims_sized|]. by destruct T5 as ((_ & _ & _ & _ & ->) & _).
Qed.

Lemma next_word gw : (0 ≤ gw < two64)%Z → as_u32 gw ≠ u32_max → as_u32 (as_u64 (gw + 1)) = (as_u32 gw + 1)%Z.
Proof.
  intros Hr Hne. unfold as_u32, as_u64, two64, two32, u32_max, u64_max in *.
  pose proof (Z.mod_pos_bound gw 4294967296 ltac:(lia)). pose proof (Z.div_mod gw 4294967296 ltac:(lia)).
  assert (gw + 1 < 18446744073709551616)%Z.
  { destruct (Z.eq_dec gw 18446744073709551615%Z) as [->|]; [|lia]. exfalso. apply Hne. reflexivity. }
  rewrite (Z.mod_small (gw + 1)) by lia.
  symmetry. apply (Z.mod_unique _ _ (gw / 4294967296)); lia.
Qed.

Lemma last_word gw : (0 ≤ gw < two64)%Z → as_u32 gw = u32_max → as_u32 (as_u64 (gw + 1)) = 0%Z.
Proof.
  intros Hr He. unfold as_u32, as_u64, two64, two32, u32_max, u64_max in *.
  pose proof (Z.div_mod gw 4294967296 ltac:(lia)).
  destruct (Z.eq_dec gw 18446744073709551615%Z) as [->|]; [reflexivity|].
  rewrite (Z.mod_small (gw + 1)) by lia.
  symmetry. apply (Z.mod_unique _ _ (gw / 4294967296 + 1)); lia.
Qed.

Lemma map_epoch_entry m new_gen s :
  map_entry (map_reset_slot_epoch m 0 new_gen) 0 s = (λ e, reset_epoch e new_gen) <$> map_entry m 0 s.
Proof.
  unfold map_entry, map_reset_slot_epoch. rewrite list_lookup_alter_eq. destruct (m !! 0) as [row|]; [|done]. cbn.
  apply list_lookup_fmap.
Qed.

Lemma fresh_shape e e' : same_shape e e' → NodeDep.fresh e' = NodeDep.fresh e.
Proof. intros (Hf & _ & Hn & Hd & _). unfold NodeDep.fresh. by rewrite Hf, Hn, Hd. Qed.

(** Everything of the slot but the generation, the spawns and the counters of the nodes. *)
Definition bump_keeps (rt rt' : Runtime MultiThreadedCounter) : Prop :=
  same_registry (rt_slots rt) (rt_slots rt') ∧ rt_results rt' = rt_results rt
  ∧ rt_frame_complete_counter rt' = rt_frame_complete_counter rt
  ∧ completed_slots (rt_counter rt') = completed_slots (rt_counter rt)
  ∧ sd_pending_tasks (rt_slots rt') = sd_pending_tasks (rt_slots rt)
  ∧ sd_pending_cond_tasks (rt_slots rt') = sd_pending_cond_tasks (rt_slots rt)
  ∧ sd_processing_count (rt_slots rt') = sd_processing_count (rt_slots rt)
  ∧ sd_needs_check (rt_slots rt') = sd_needs_check (rt_slots rt)
  ∧ sd_packet_counters (rt_slots rt') = sd_packet_counters (rt_slots rt)
  ∧ sd_packet_complete (rt_slots rt') = sd_packet_complete (rt_slots rt).

(** Advancing the generation: no counter has a word of the new one, so that all of them
    read as in a frame in which nothing has completed; when the 32-bit tag wraps around,
    the sweep sees to it. *)
Lemma bump_fresh cache gw (rt : Runtime MultiThreadedCounter) : slot_rest gw rt → sd_generation (rt_slots rt) !! 0 = Some gw →
  let gw' := as_u64 (gw + 1) in
  ∃ rt', bump_slot_generation cache rt 0 = Ret rt' ∧ bump_keeps rt rt' ∧ sd_generation (rt_slots rt') !! 0 = Some gw'
    ∧ words_upto 0 (as_u32 gw') (rt_counter rt')
    ∧ ∀ s e, map_entry (node_dep_map (rt_counter rt)) 0 s = Some e → entry_wf e →
        ∃ e', map_entry (node_dep_map (rt_counter rt')) 0 s = Some e' ∧ entry_wf e' ∧ same_shape e e'
              ∧ view (as_u32 gw') e' = NodeDep.fresh e'.
Proof.
  intros [] Hg gw'. pose proof (lookup_lt_Some _ _ _ Hg) as Hlt. unfold bump_slot_generation. rewrite (vec_get_lookup _ _ _ Hg). cbn [run_bind].
  destruct (Z.eqb_spec (as_u32 gw) u32_max) as [Hw|Hw].
  - unfold gw'. rewrite (last_word gw) by done. unfold sweep_slot_generational_entries. cbn [rt_slots with_slots set_generation upd_counters sd_cond_instances_to_spawn sd_fanout_bulk_arrived].
    destruct (vec_get_lt (sd_cond_instances_to_spawn (rt_slots rt)) 0) as (c & -> & _); [tauto|]. cbn [run_bind].
    destruct (vec_get_lt (sd_fanout_bulk_arrived (rt_slots rt)) 0) as (f & -> & _); [tauto|]. cbn [run_bind].
    eexists. split; [done|]. split; [|split; [cbn; by apply list_lookup_insert_eq|split]].
    + unfold bump_keeps, same_registry. cbn. rewrite !length_insert. by split_and!.
    + intros s e. cbn. rewrite map_epoch_entry. destruct (map_entry _ 0 s) as [e0|] eqn:He0; [|done]. intros [= <-].
      destruct (rs_words0 s e0 He0) as [Hd _]. split; [done|]. apply reset_epoch_upto; [apply is_u32_0|done].
    + intros s e He Hwf. cbn. rewrite map_epoch_entry, He. cbn. eexists. split; [done|].
      destruct (reset_epoch_refines 0 e is_u32_0 Hwf) as (H1 & H2 & H3). split; [done|]. split; [done|].
      rewrite H3. symmetry. by apply fresh_shape.
  - unfold gw'. rewrite (next_word gw) by done. eexists. split; [done|]. split; [|split; [cbn; by apply list_lookup_insert_eq|split]].
    + unfold bump_keeps, same_registry. cbn. rewrite !length_insert. by split_and!.
    + intros s e He. destruct (rs_words0 s e He) as [Hd [H1 H2]]. split; [done|].
      split; (eapply Forall_impl; [first [exact H1|exact H2]|]; cbn; lia).
    + intros s e He Hwf. exists e. split; [done|]. split; [done|]. split; [apply same_shape_refl|].
      apply view_stale; [done|]. apply (upto_stale (as_u32 gw)); [by apply (rs_words0 s e)|lia].
Qed.

Section frames.
Context `{FuncReg}.
Context (cfg : ExecConfig) (g : Graph) (cache : list NodeCacheEntry) (arena : SuccessorArena) (t : Routing) (r1 : bool).
Context (tbl : table nat) (init_objects : list (list CmTypes)) (fuel : nat) (record_frame : option Z) (recording typed_spawn : bool)
  (get_aff : option WorkerRangeSpec → nat) (scfg : SlotConfig).
Context (Hco : compiled cfg g cache arena t r1) (Hpl : plain g t).

Lemma no_cond_tasks : total_cond_tasks cache = 0.
Proof.
  unfold total_cond_tasks. assert (Hf : filter (λ e, ce_is_condition e = true) cache = []); [|by rewrite Hf].
  apply elem_of_nil_inv. intros e [Hc (i & Hi)%list_elem_of_lookup]%list_elem_of_filter.
  destruct (lookup_lt_is_Some_2 (g_nodes g) i) as [node Hn].
  { rewrite <- (co_length _ _ _ _ _ _ Hco). by eapply lookup_lt_Some. }
  destruct (co_cache _ _ _ _ _ _ Hco i node e Hn Hi) as (_ & Hc' & _). congruence.
Qed.

(** The counters of the nodes, whatever has been counted. *)
Definition counters_shaped (rt : Runtime MultiThreadedCounter) : Prop :=
  ∀ s node, g_nodes g !! s = Some node → ∃ e, map_entry (node_dep_map (rt_counter rt)) 0 s = Some e
    ∧ entry_wf e ∧ same_shape (new_entry node (total_of g node)) e.

Lemma reset_ready gw (rt : Runtime MultiThreadedCounter) : slot_rest gw rt → sd_generation (rt_slots rt) !! 0 = Some gw →
  counters_shaped rt → 0 < length (sd_pending_tasks (rt_slots rt)) → 0 < length (sd_needs_check (rt_slots rt)) →
  let gw' := as_u64 (gw + 1) in
  ∃ rt', reset_slot_state cache rt 0 = Ret rt' ∧ same_registry (rt_slots rt) (rt_slots rt')
    ∧ rt_frame_complete_counter rt' = rt_frame_complete_counter rt ∧ completed (rt_counter rt') 0 = false
    ∧ slot_rest gw' rt' ∧ slot_ready g cache rt' 0 gw'.
Proof.
  intros Hr Hg Hsh Hpl0 Hnl gw'. destruct (bump_fresh cache gw rt Hr Hg) as (rt1 & Hb & Hk & Hg1 & Hw1 & He1).
  destruct Hk as (Hreg & Hres & Hcmp & Hdone & Ept & Epc & Epr & Enc & Epk & Epd). destruct Hr as [Hword Hcond Hproc _ Hsized [Hp1 Hp2] [Hv1 Hv2]].
  unfold reset_slot_state. rewrite Hb. cbn [run_bind]. rewrite Epd, Epk, Ept, Epc, Enc.
  pose proof (lookup_lt_Some _ _ _ Hcond) as Hcl. rewrite !vec_set_lt by done. cbn [run_bind].
  eexists. split; [done|]. split.
  { unfold same_registry in *. cbn. rewrite length_insert. tauto. }
  split; [done|]. split.
  { cbn [rt_counter]. rewrite unmark_clears by lia. by rewrite andb_false_r. }
  assert (Hrange : (0 ≤ gw' < two64)%Z) by (apply Z.mod_pos_bound; done).
  destruct Hreg as (_ & _ & _ & _ & _ & _ & _ & _ & _ & L1 & L2).
  split; split; cbn [rt_slots rt_counter rt_results upd_flags set_pending upd_counters unmark_slot_completed mt_counter mt_unmark_slot_completed
    sd_generation sd_pending_tasks sd_pending_cond_tasks sd_processing_count sd_needs_check sd_packet_counters sd_packet_complete
    sd_cond_instances_to_spawn sd_fanout_bulk_arrived node_dep_map]; rewrite ?length_insert, ?L1, ?L2; try done.
  - rewrite no_cond_tasks. by apply list_lookup_insert_eq.
  - by rewrite Epr.
  - by rewrite Hres.
  - by apply list_lookup_insert_eq.
  - exists 0%Z. by rewrite Epr.
  - intros s node Hn. destruct (Hsh s node Hn) as (e & He & Hwf & Hs). destruct (He1 s e He Hwf) as (e' & He' & Hwf' & Hs' & Hv).
    exists e'. split; [done|]. split; [done|]. split; [by eapply same_shape_trans|done].
Qed.

(** ** The registry of one slot *)

Record one_slot (d : SlotData) : Prop := {
  os_states : sd_states d = [Active];
  os_running : ∃ f, sd_running_frames d = [(f, 0)];
  os_bit : Z.testbit (sd_active_bitmap d) 0 = true;
  os_frame_id : 0 < length (sd_frame_id d);
  os_map : 0 < length (sd_frame_slot_map d);
}.

Lemma one_slot_same d d' : same_registry d d' → one_slot d → one_slot d'.
Proof. intros (_ & E2 & E3 & E4 & E5 & E6 & _) []. split; rewrite ?E2, ?E3, ?E4, ?E5, ?E6; done. Qed.

(** The state with other data in the registry. *)
Definition registry_of (rt rt' : Runtime MultiThreadedCounter) : Prop :=
  ∃ fid bm st rf map buf la, rt' = with_slots (upd_registry fid bm st rf map buf la (rt_slots rt)) rt.

Lemma registry_ready rt rt' gw : registry_of rt rt' → slot_rest gw rt → slot_ready g cache rt 0 gw →
  slot_rest gw rt' ∧ slot_ready g cache rt' 0 gw ∧ rt_counter rt' = rt_counter rt
  ∧ rt_frame_complete_counter rt' = rt_frame_complete_counter rt.
Proof. intros (fid & bm & st & rf & map & buf & la & ->) [] []. split; [by split|]. by split; [split|]. Qed.

Lemma release_one (rt : Runtime MultiThreadedCounter) : one_slot (rt_slots rt) →
  ∃ rt', release_and_activate_next scfg cache rt 0 = Ret (rt', None) ∧ registry_of rt rt'
    ∧ sd_states (rt_slots rt') = [Inactive] ∧ sd_running_frames (rt_slots rt') = []
    ∧ 0 < length (sd_frame_id (rt_slots rt')) ∧ 0 < length (sd_frame_slot_map (rt_slots rt')).
Proof.
  intros [Hst [f Hrun] Hbit Hfid Hmap]. unfold release_and_activate_next, release. rewrite Hst, Hrun.
  unfold vec_set at 1. cbn [length insert list_insert]. rewrite decide_True by lia. cbn [run_bind].
  rewrite vec_set_lt by done. cbn [run_bind remove_running fst snd]. rewrite Nat.eqb_refl. cbn [run_bind].
  assert (Hclear : ∃ map, frame_slot_clear (sd_frame_slot_map (rt_slots rt)) f = Ret map ∧ 0 < length map).
  { unfold frame_slot_clear. pose proof (frame_cell_lt (sd_frame_slot_map (rt_slots rt)) f Hmap) as Hc.
    destruct (vec_get_lt _ _ Hc) as (w & -> & _). cbn [run_bind]. destruct (holds_frame w f); [|by eexists].
    rewrite vec_set_lt by done. eexists. split; [done|]. by rewrite length_insert. }
  destruct Hclear as (map & -> & Hml). cbn [run_bind].
  destruct (negb _); cbn [run_bind upd_registry sd_running_frames sd_states oldest_buffering]; (eexists; split; [done|]);
    (split; [by repeat eexists|]); cbn; rewrite ?length_insert; by split_and!.
Qed.

(** Restarting the slot that was released. *)
Lemma restart_one (rt : Runtime MultiThreadedCounter) : g_network_config g = None →
  sd_states (rt_slots rt) = [Inactive] → sd_running_frames (rt_slots rt) = [] →
  0 < length (sd_frame_id (rt_slots rt)) → 0 < length (sd_frame_slot_map (rt_slots rt)) →
  ∃ rt' nodes, restart_slot_nonnetwork scfg g rt 0 = Ret (rt', nodes) ∧ initial_nodes scfg g [0] = Ret nodes
    ∧ registry_of rt rt' ∧ one_slot (rt_slots rt').
Proof.
  intros Hnet Hst Hrun Hfid Hmap. unfold restart_slot_nonnetwork. rewrite Hnet, Hst, Hrun. cbn [is_some].
  unfold vec_set at 1. cbn [length insert list_insert]. rewrite decide_True by lia. cbn [run_bind].
  rewrite vec_set_lt by done. cbn [run_bind]. unfold frame_slot_publish. rewrite vec_set_lt by (by apply frame_cell_lt). cbn [run_bind].
  destruct (initial_nodes_spec scfg g [0]) as (nodes & Hn & _).
  { intros id (node & Hid & _)%(gw_initial g (co_wf _ _ _ _ _ _ Hco)). by eapply lookup_lt_Some. }
  rewrite Hn. cbn [run_bind]. eexists _, nodes. split; [done|]. split; [done|]. split; [by repeat eexists|].
  split; [done|by eexists| |cbn; by rewrite length_insert..].
  change (Z.testbit (Z.lor (sd_active_bitmap (rt_slots rt)) (slot_bit 0)) (Z.of_nat 0) = true).
  rewrite slot_bit_lor by lia. apply orb_true_r.
Qed.

(** Dispatching to the scheduler does not panic. *)
Lemma dispatch_total (s : ExecState MultiThreadedCounter) nodes gw : sd_generation (rt_slots (es_rt s)) !! 0 = Some gw →
  0 < length (sd_frame_id (rt_slots (es_rt s))) →
  Forall (λ ni, ni_slot ni = 0 ∧ ni_post_node ni = false ∧ ni_id ni < length cache) nodes →
  ∃ s', dispatch_nodes g cache record_frame typed_spawn get_aff s nodes = Ret s'.
Proof.
  intros Hg Hfid Hn. unfold dispatch_nodes, send_to_scheduler.
  match goal with |- context [run_imap ?f 0 nodes] => destruct (run_imap_total f 0 nodes) as (subs & Hsubs) end.
  { intros i ni Hi. pose proof (lookup_lt_Some _ _ _ Hi) as Hlt. cbn [Nat.add run_bind].
    destruct (vec_get_lt (replicate (length nodes) (None : option (list CmTypes))) i) as (o & -> & _); [by rewrite length_replicate|].
    cbn [run_bind]. apply (Forall_lookup_1 _ _ _ _ Hn) in Hi as (Hs & Hp & Hid). unfold submit_node. rewrite Hp, Hs.
    destruct (vec_get_lt cache (ni_id ni) Hid) as (e & -> & _). cbn [run_bind]. unfold should_record_slot, slot_gen_of.
    destruct (vec_get_lt (sd_frame_id (rt_slots (es_rt s))) 0 Hfid) as (f & -> & _). rewrite (vec_get_lookup _ _ _ Hg).
    destruct record_frame; cbn; by eexists. }
  rewrite Hsubs. cbn [run_bind]. by eexists.
Qed.

Lemma initial_nodes_ids nodes : initial_nodes scfg g [0] = Ret nodes →
  Forall (λ ni, ni_slot ni = 0 ∧ ni_post_node ni = false ∧ ni_id ni < length cache) nodes.
Proof.
  intros Hn. destruct (roots_instances cfg g cache arena t r1 Hco Hpl scfg nodes 0 Hn) as [Hroots Hsh].
  apply Forall_forall. intros ni Hni. rewrite Forall_forall in Hsh. destruct (Hsh ni Hni) as (Hs & Hp & Hb).
  split; [done|]. split; [done|]. rewrite (co_length _ _ _ _ _ _ Hco).
  assert (Hin : (ni_id ni, ni_index ni) ∈ roots (length (g_nodes g)) (node_shape g) (is_root g)).
  { rewrite <- Hroots. apply list_elem_of_bind. exists ni. split; [|done]. apply list_elem_of_fmap. exists (ni_index ni).
    split; [done|]. unfold covered. apply elem_of_range. lia. }
  unfold roots in Hin. apply list_elem_of_bind in Hin as (u & Hu & Hr%elem_of_range). destruct (is_root g u); [|by apply not_elem_of_nil in Hu].
  unfold instances_of in Hu. apply list_elem_of_fmap in Hu as (j & [= <- _] & _). lia.
Qed.

(** A frame starts: the slot is ready and the scheduler and the workers are idle. *)
Lemma start_frame (s : ExecState MultiThreadedCounter) gw ws nodes : slot_ready g cache (es_rt s) 0 gw →
  0 < length (sd_frame_id (rt_slots (es_rt s))) → initial_nodes scfg g [0] = Ret nodes →
  es_scheduled s = [] → es_batch_queue s = [] → es_dropped s = 0%Z → omap snd ws = ([] : list NodeInfo) →
  ∃ s', dispatch_nodes g cache record_frame typed_spawn get_aff s nodes = Ret s' ∧ es_rt s' = es_rt s
    ∧ frame_inv 0 gw (length (g_nodes g)) (node_shape g) (node_edges g cache t) (is_root g) (mkFrame s' ws []).
Proof.
  intros Hready Hfid Hn Hsch Hq Hd Hws. pose proof (sr_gen _ _ _ _ _ Hready) as Hg.
  destruct (dispatch_total s nodes gw Hg Hfid (initial_nodes_ids _ Hn)) as [s' Hdisp].
  exists s'. split; [done|]. split; [by eapply dispatch_work|].
  assert (Hidle : ws = (λ wk, (wk, None)) <$> ws.*1).
  { clear -Hws. induction ws as [|[wk [ni|]] ws IH]; [done|done|]. cbn in Hws. cbn. by rewrite <- IH. }
  assert (Hst : frame_start g cache record_frame typed_spawn get_aff scfg (es_rt s) 0 ws.*1 = Ret (mkFrame s' ws [])).
  { unfold frame_start. rewrite Hn. cbn [run_bind]. destruct s as [rt sch q d]. cbn in Hsch, Hq, Hd |- *. subst.
    rewrite Hdisp. cbn [run_bind]. by rewrite <- Hidle. }
  by destruct (frame_start_inv cfg g cache arena t r1 Hco Hpl record_frame typed_spawn get_aff scfg _ _ _ _ _ Hready Hst).
Qed.
End frames.
