(* ===== verification/Frames.v ===== *)
(** The frames of a run, one after the other: a graph without a network, one slot.

    Workers run the tasks and resolution threads check the slot, in any order; when no
    task waits, the next check finds the frame complete and starts another one, up to the
    number of frames asked for. *)
From S2P Require Import Prelude Types GraphStruct WorkerRange Graph Buffers NodeDep NodeDepConc NodeCache Tables DepCounter Counting ResultMap Arena Successor ArgRes Slots SlotInv Exec ExecSpec Task Arrivals Frame FrameRun Packets Resolution ResolutionSpec NextFrame.
From stdpp Require Import strings.

(** ** The test of a slot *)

Lemma detect_pending (rt : Runtime MultiThreadedCounter) slot p c q : sd_pending_tasks (rt_slots rt) !! slot = Some p →
  sd_pending_cond_tasks (rt_slots rt) !! slot = Some c → sd_processing_count (rt_slots rt) !! slot = Some q → p ≠ 0%Z →
  detect_and_claim_slot_completion rt slot = Ret (rt, false).
Proof.
  intros Hp Hc Hq Hne. unfold detect_and_claim_slot_completion.
  rewrite (vec_get_lookup _ _ _ Hp), (vec_get_lookup _ _ _ Hc), (vec_get_lookup _ _ _ Hq). cbn [run_bind].
  by rewrite (proj2 (Z.eqb_neq _ _)).
Qed.

Lemma detect_complete (rt : Runtime MultiThreadedCounter) slot : slot < 64 → sd_pending_tasks (rt_slots rt) !! slot = Some 0%Z →
  sd_pending_cond_tasks (rt_slots rt) !! slot = Some 0%Z → sd_processing_count (rt_slots rt) !! slot = Some 0%Z →
  completed (rt_counter rt) slot = false →
  detect_and_claim_slot_completion rt slot = Ret (with_counter (try_complete_slot (rt_counter rt) slot).1 rt, true).
Proof.
  intros Hs Hp Hc Hq Ho. unfold detect_and_claim_slot_completion.
  rewrite (vec_get_lookup _ _ _ Hp), (vec_get_lookup _ _ _ Hc), (vec_get_lookup _ _ _ Hq). cbn [run_bind andb negb Z.eqb].
  pose proof (try_complete_wins (rt_counter rt) slot Hs) as Hw. rewrite Ho in Hw.
  destruct (try_complete_slot (rt_counter rt) slot) as [c won]. cbn [fst snd] in *. by subst won.
Qed.

Section frames.
Context `{FuncReg}.
Context (cfg : ExecConfig) (g : Graph) (cache : list NodeCacheEntry) (arena : SuccessorArena) (t : Routing) (r1 : bool).
Context (tbl : table nat) (init_objects : list (list CmTypes)) (fuel : nat) (record_frame : option Z) (recording typed_spawn : bool)
  (get_aff : option WorkerRangeSpec → nat) (scfg : SlotConfig).
Context (dispatch_chunk : nat) (frame_timeout_ms : Z) (target_size : nat) (cond_indexes : list (list nat)).
Context (Hco : compiled cfg g cache arena t r1) (Hpl : plain g t).
Context (Hnet : g_network_config g = None) (Hroots : g_initial_nodes g ≠ []) (Hmax : (cfg_max_frames scfg < two64)%Z).

#[local] Notation frame_inv := (frame_inv 0).
#[local] Notation inv gw := (frame_inv gw (length (g_nodes g)) (node_shape g) (node_edges g cache t) (is_root g)).
#[local] Notation all := (all_instances (length (g_nodes g)) (node_shape g)).
#[local] Notation check_slot := (check_slot cfg scfg g cache arena tbl init_objects fuel record_frame typed_spawn get_aff cond_indexes).

(** The system while frame number [done] runs: its generation, the workers, the instances
    taken. *)
Record in_frame (gw : Z) (done : nat) (s : System MultiThreadedCounter) (ws : list (Worker * option NodeInfo))
    (X : list (nat * nat)) : Prop := {
  if_inv : inv gw (mkFrame (sys_exec s) ws X);
  if_rest : slot_rest gw (sys_rt s);
  if_open : completed (rt_counter (sys_rt s)) 0 = false;
  if_slot : one_slot (rt_slots (sys_rt s));
  if_check : waiting (mkFrame (sys_exec s) ws X) = [] → sd_needs_check (rt_slots (sys_rt s)) !! 0 = Some true;
  if_count : rt_frame_complete_counter (sys_rt s) = Z.of_nat done;
  if_more : (Z.of_nat done < cfg_max_frames scfg)%Z;
  if_net : nt_frame_packets (sys_net s) = 0;
}.

(** The system after the last frame. *)
Record over (done : nat) (s : System MultiThreadedCounter) (ws : list (Worker * option NodeInfo)) : Prop := {
  ov_count : rt_frame_complete_counter (sys_rt s) = Z.of_nat done;
  ov_last : Z.of_nat done = cfg_max_frames scfg;
  ov_idle : waiting (mkFrame (sys_exec s) ws []) = [];
  ov_queue : es_batch_queue (sys_exec s) = [];
}.

Lemma compiled_fg : frame_graph cfg cache arena (length (g_nodes g)) (node_shape g) (node_edges g cache t) (is_root g).
Proof. exact (compiled_frame_graph cfg g cache arena t r1 Hco Hpl). Qed.

(** While a task waits, instances are pending. *)
Lemma waiting_pending gw fs : inv gw fs → waiting fs ≠ [] → length (fs_taken fs) < length all.
Proof.
  intros Hinv Hw. destruct (inv_bounds _ _ _ _ _ _ _ _ _ compiled_fg fs Hinv) as [_ Hsub].
  destruct (waiting fs) as [|ni l] eqn:Hwt; [done|]. pose proof (fi_tasks _ _ _ _ _ _ _ Hinv) as Ht. rewrite Hwt in Ht.
  apply Forall_cons in Ht as [[(_ & _ & Hb) _] _]. apply submseteq_length in Hsub.
  rewrite bind_cons, !length_app, length_task_instances in Hsub. lia.
Qed.

(** The flag of the slot is all that a check of an unfinished frame changes. *)
Lemma inv_needs gw e ws X l : 0 < length l → inv gw (mkFrame e ws X) →
  inv gw (mkFrame (with_rt (with_slots (set_needs_check l (rt_slots (es_rt e))) (es_rt e)) e) ws X).
Proof. intros Hl []. by constructor. Qed.

Lemma check_slot_busy gw done s ws X bitmap : in_frame gw done s ws X → waiting (mkFrame (sys_exec s) ws X) ≠ [] →
  Z.testbit bitmap 0 = true →
  ∃ s', check_slot bitmap s 0 = Ret (Some (s', false)) ∧ in_frame gw done s' ws X
    ∧ rt_frame_complete_counter (sys_rt s') = rt_frame_complete_counter (sys_rt s).
Proof.
  intros [] Hw Hbit. pose proof (waiting_pending gw _ if_inv0 Hw) as Hlt. cbn [fs_taken] in Hlt.
  pose proof (fi_pending _ _ _ _ _ _ _ if_inv0) as Hp. pose proof (fi_needs _ _ _ _ _ _ _ if_inv0) as Hn. cbn [fs_state fs_taken] in Hp, Hn.
  unfold Resolution.check_slot. change (Z.of_nat 0) with 0%Z. rewrite Hbit. cbn [negb].
  destruct (vec_get_lt _ _ Hn) as (b & Hb & _). unfold sys_rt. rewrite Hb. cbn [run_bind]. rewrite vec_set_lt by done. cbn [run_bind].
  exists (put_rt (with_slots (set_needs_check (<[0:=false]> (sd_needs_check (rt_slots (sys_rt s)))) (rt_slots (sys_rt s))) (sys_rt s)) s).
  split; [|split; [|done]].
  - destruct b; cbn [negb]; [|done].
    match goal with |- context [detect_and_claim_slot_completion ?r 0] => rewrite (detect_pending r 0 _ 0 0 Hp) end;
      [done|apply if_rest0|apply if_rest0|lia].
  - split; try done; try (destruct if_rest0; by split); try (destruct if_slot0; by split).
    apply inv_needs; [by rewrite length_insert|done].
Qed.

Lemma all_nonempty : all ≠ [].
Proof.
  destruct (g_initial_nodes g) as [|id l] eqn:Hi; [done|]. intros Ha.
  destruct (proj1 (gw_initial g (co_wf _ _ _ _ _ _ Hco) id)) as (node & Hn & _); [rewrite Hi; left|].
  assert (Hin : (id, 0) ∈ all).
  { apply elem_all. split; [by eapply lookup_lt_Some|]. destruct (node_shape_spec g t Hpl id node Hn) as (_ & -> & _).
    by apply (pl_node _ _ Hpl id). }
  rewrite Ha in Hin. by apply not_elem_of_nil in Hin.
Qed.

(** A started frame has a task that waits. *)
Lemma started_waits gw e ws : inv gw (mkFrame e ws []) → waiting (mkFrame e ws []) ≠ [].
Proof.
  intros Hinv Hw. pose proof (frame_complete _ _ _ _ _ _ _ _ _ compiled_fg _ Hinv Hw) as Hc. cbn [fs_taken] in Hc.
  apply Permutation_nil_l in Hc. by apply all_nonempty.
Qed.

(** The completion of a frame is counted, and the results are cleared if there are more. *)
Lemma process_one (rt : Runtime MultiThreadedCounter) done : one_slot (rt_slots rt) →
  rt_frame_complete_counter rt = Z.of_nat done → (Z.of_nat done < cfg_max_frames scfg)%Z →
  sized (rt_results rt) ∧ 0 < rm_slots (rt_results rt) →
  ∃ m, process_slot_completion scfg rt 0
       = Ret (mkRuntime (rt_slots rt) (rt_counter rt) m (Z.of_nat (S done)), (Z.of_nat (S done) <? cfg_max_frames scfg)%Z)
    ∧ same_dims (rt_results rt) m.
Proof.
  intros [Hst _ _ _ _] Hc Hlt [Hsz Hsl]. unfold process_slot_completion. rewrite Hst, Hc.
  change (length (filter (λ s, s ≠ 0) (busy_slots [Active]))) with 0.
  assert (Ha : as_u64 (Z.of_nat done + 1) = Z.of_nat (S done)) by (rewrite as_u64_small; lia). rewrite Ha, Z.add_0_r.
  destruct (Z.of_nat (S done) <? cfg_max_frames scfg)%Z.
  - destruct (reinit_slot_total (rt_results rt) 0 Hsz Hsl) as (m & -> & Hd). by exists m.
  - exists (rt_results rt). split; [done|apply same_dims_refl].
Qed.

(** The slot, reset, is released and, if there is another frame, started again. *)
Lemma next_frame gw done (s : System MultiThreadedCounter) ws : slot_rest gw (sys_rt s) → slot_ready g cache (sys_rt s) 0 gw →
  completed (rt_counter (sys_rt s)) 0 = false → one_slot (rt_slots (sys_rt s)) → rt_frame_complete_counter (sys_rt s) = Z.of_nat done →
  nt_frame_packets (sys_net s) = 0 → es_scheduled (sys_exec s) = [] → es_batch_queue (sys_exec s) = [] →
  es_dropped (sys_exec s) = 0%Z → omap snd ws = ([] : list NodeInfo) →
  ∃ s5, release_and_dispatch_next cfg scfg g cache arena tbl init_objects fuel record_frame typed_spawn get_aff cond_indexes s 0
        = Ret (Some s5) ∧ rt_frame_complete_counter (sys_rt s5) = Z.of_nat done
    ∧ ((Z.of_nat done = cfg_max_frames scfg)%Z → over done s5 ws)
    ∧ ((Z.of_nat done < cfg_max_frames scfg)%Z → ∃ s6, restart_and_dispatch scfg g cache record_frame typed_spawn get_aff s5 0 = Ret s6
         ∧ in_frame gw done s6 ws []).
Proof.
  intros Hrest Hready Hopen Hone Hcount Hn Hsch Hq Hd Hws. unfold release_and_dispatch_next.
  destruct (release_one cache scfg (sys_rt s) Hone) as (rt1 & -> & Hreg1 & Hst1 & Hrun1 & Hfid1 & Hmap1). cbn [run_bind].
  destruct (registry_ready g cache _ _ gw Hreg1 Hrest Hready) as (Hrest1 & Hready1 & Hc1 & Hn1).
  exists (put_rt rt1 s). split; [done|]. split; [cbn; by rewrite Hn1|]. split.
  - intros Hl. split; [cbn; by rewrite Hn1|done| |done]. unfold waiting. cbn. by rewrite Hsch, Hws.
  - intros Hlt. unfold restart_and_dispatch. change (sys_rt (put_rt rt1 s)) with rt1.
    destruct (restart_one cfg g cache arena t r1 scfg Hco rt1 Hnet Hst1 Hrun1 Hfid1 Hmap1) as (rt2 & nodes & -> & Hnodes & Hreg2 & Hone2).
    cbn [run_bind]. destruct (registry_ready g cache _ _ gw Hreg2 Hrest1 Hready1) as (Hrest2 & Hready2 & Hc2 & Hn2).
    destruct (start_frame cfg g cache arena t r1 record_frame typed_spawn get_aff scfg Hco Hpl (with_rt rt2 (sys_exec s)) gw ws nodes
                Hready2 (os_frame_id _ Hone2) Hnodes Hsch Hq Hd Hws) as (e & He & Hrt & Hinv).
    assert (Hs6 : ∃ s6, match nodes with [] => Ret (put_rt rt2 (put_rt rt1 s))
                        | _ => let! e := dispatch_nodes g cache record_frame typed_spawn get_aff (sys_exec (put_rt rt2 (put_rt rt1 s))) nodes in
                               Ret (with_exec e (put_rt rt2 (put_rt rt1 s))) end = Ret s6
              ∧ sys_exec s6 = e ∧ sys_net s6 = sys_net s).
    { change (sys_exec (put_rt rt2 (put_rt rt1 s))) with (with_rt rt2 (sys_exec s)). destruct nodes as [|ni nodes].
      - eexists. split; [done|]. split; [|done]. cbn in He. injection He as <-.
        cbn. unfold with_rt. cbn. by rewrite app_nil_r.
      - rewrite He. by eexists. }
    destruct Hs6 as (s6 & -> & He6 & Hn6). exists s6. split; [done|].
    assert (Hrt6 : sys_rt s6 = rt2) by (unfold sys_rt; rewrite He6; exact Hrt).
    split; rewrite ?Hrt6, ?He6, ?Hn6; try done.
    + by rewrite Hc2, Hc1.
    + intros Hw. by destruct (started_waits gw e ws Hinv Hw).
    + by rewrite Hn2, Hn1.
Qed.

Lemma idle_frame gw e ws X : inv gw (mkFrame e ws X) → waiting (mkFrame e ws X) = [] →
  es_scheduled e = [] ∧ omap snd ws = ([] : list NodeInfo) ∧ es_batch_queue e = [] ∧ es_dropped e = 0%Z ∧ X ≡ₚ all
  ∧ sd_pending_tasks (rt_slots (es_rt e)) !! 0 = Some 0%Z.
Proof.
  intros Hinv Hw. pose proof (frame_complete _ _ _ _ _ _ _ _ _ compiled_fg _ Hinv Hw) as Hc. cbn [fs_taken] in Hc.
  pose proof (fi_pending _ _ _ _ _ _ _ Hinv) as Hp. cbn [fs_state fs_taken] in Hp. rewrite Hc, Nat.sub_diag in Hp.
  destruct (fi_queues _ _ _ _ _ _ _ Hinv) as [Hq Hd]. unfold waiting in Hw. cbn [fs_state fs_workers] in Hw.
  apply app_nil in Hw as [H1 H2]. apply fmap_nil_inv in H1. by split_and!.
Qed.

Lemma inv_shaped gw e ws X : inv gw (mkFrame e ws X) → counters_shaped g (es_rt e).
Proof.
  intros Hinv s node Hn. destruct (fi_counts _ _ _ _ _ _ _ Hinv s) as (en & He & Hsh & Hrp); [by eapply lookup_lt_Some|].
  exists en. split; [done|]. split; [apply Hrp|]. unfold node_shape in Hsh. by rewrite Hn in Hsh.
Qed.

(** A check of the slot when no task waits. *)
Lemma check_slot_complete gw done s ws X bitmap : in_frame gw done s ws X → waiting (mkFrame (sys_exec s) ws X) = [] →
  Z.testbit bitmap 0 = true →
  ∃ s', check_slot bitmap s 0 = Ret (Some (s', true)) ∧ rt_frame_complete_counter (sys_rt s') = Z.of_nat (S done)
    ∧ (in_frame (as_u64 (gw + 1)) (S done) s' ws [] ∨ over (S done) s' ws).
Proof.
  intros [] Hw Hbit. destruct (idle_frame gw _ ws X if_inv0 Hw) as (Hsch & Hws & Hq & Hd & _ & Hp).
  specialize (if_check0 Hw). pose proof (inv_shaped _ _ _ _ if_inv0) as Hshaped.
  pose proof (fi_gen _ _ _ _ _ _ _ if_inv0) as Hg. cbn [fs_state] in Hg. pose proof (lookup_lt_Some _ _ _ if_check0) as Hn.
  unfold Resolution.check_slot. change (Z.of_nat 0) with 0%Z. rewrite Hbit. cbn [negb].
  rewrite (vec_get_lookup _ _ _ if_check0). cbn [run_bind]. rewrite vec_set_lt by done. cbn [run_bind negb].
  set (s1 := put_rt (with_slots (set_needs_check (<[0:=false]> (sd_needs_check (rt_slots (sys_rt s)))) (rt_slots (sys_rt s))) (sys_rt s)) s).
  rewrite (detect_complete (sys_rt s1) 0 ltac:(lia) Hp (rs_cond _ _ if_rest0) (rs_proc _ _ if_rest0) if_open0). cbn [run_bind negb].
  set (rt2 := with_counter (try_complete_slot (rt_counter (sys_rt s1)) 0).1 (sys_rt s1)).
  assert (Hrest2 : slot_rest gw rt2) by (destruct if_rest0; by split).
  destruct (reset_ready cfg g cache arena t r1 Hco gw rt2 Hrest2 Hg Hshaped) as (rt3 & -> & Hreg3 & Hc3 & Ho3 & Hrest3 & Hready3).
  { cbn. by eapply lookup_lt_Some. } { cbn. by rewrite length_insert. }
  cbn [run_bind]. assert (Hone3 : one_slot (rt_slots rt3)) by (eapply one_slot_same; [exact Hreg3|]; by destruct if_slot0).
  assert (Hcount3 : rt_frame_complete_counter rt3 = Z.of_nat done) by (rewrite Hc3; exact if_count0).
  destruct (process_one rt3 done Hone3 Hcount3 if_more0 (rs_results _ _ Hrest3)) as (m & -> & Hdims). cbn [run_bind].
  set (rt4 := mkRuntime (rt_slots rt3) (rt_counter rt3) m (Z.of_nat (S done))).
  assert (Hrest4 : slot_rest (as_u64 (gw + 1)) rt4).
  { destruct Hrest3 as [A1 A2 A3 A4 [A5 A6] A7 A8]. split; try done. split; [by eapply same_dims_sized|].
    cbn. by destruct Hdims as ((_ & _ & _ & _ & ->) & _). }
  assert (Hready4 : slot_ready g cache rt4 0 (as_u64 (gw + 1))) by (destruct Hready3; by split).
  destruct (next_frame (as_u64 (gw + 1)) (S done) (put_rt rt4 s1) ws Hrest4 Hready4 Ho3 Hone3 eq_refl if_net0 Hsch Hq Hd Hws)
    as (s5 & -> & Hc5 & Hover & Hmore). unfold wait_bind. cbn [run_bind].
  destruct (Z.ltb_spec (Z.of_nat (S done)) (cfg_max_frames scfg)) as [Hlt|Hge].
  - destruct (Hmore Hlt) as (s6 & -> & Hin). cbn [run_bind]. exists s6. split; [done|]. split; [apply Hin|]. by left.
  - cbn [run_bind]. exists s5. split; [done|]. split; [done|]. right. apply Hover. lia.
Qed.

(** ** The turns of the resolution threads *)

#[local] Notation check_slots := (check_slots cfg scfg g cache arena tbl init_objects fuel record_frame typed_spawn get_aff frame_timeout_ms cond_indexes).
#[local] Notation turn_of := (resolution_turn cfg scfg g cache arena tbl init_objects fuel record_frame recording typed_spawn get_aff
  dispatch_chunk frame_timeout_ms target_size cond_indexes).

(** The list of slots a thread has cached. *)
Definition cached_ok (cached : list nat) : Prop := cached = [] ∨ cached = [0].

(** What a turn makes of a frame. *)
Definition turned (gw : Z) (done : nat) (ws : list (Worker * option NodeInfo)) (X : list (nat * nat)) (s s' : System MultiThreadedCounter) : Prop :=
  (in_frame gw done s' ws X ∧ rt_frame_complete_counter (sys_rt s') = rt_frame_complete_counter (sys_rt s))
  ∨ (waiting (mkFrame (sys_exec s) ws X) = [] ∧ rt_frame_complete_counter (sys_rt s') = Z.of_nat (S done)
     ∧ (in_frame (as_u64 (gw + 1)) (S done) s' ws [] ∨ over (S done) s' ws)).

Lemma check_slots_turned gw done s ws X now cached dirty : in_frame gw done s ws X → cached_ok cached →
  ∃ s' dirty', check_slots now s cached dirty = Ret (Some (s', [0], dirty')) ∧ turned gw done ws X s s'
    ∧ (waiting (mkFrame (sys_exec s) ws X) = [] → rt_frame_complete_counter (sys_rt s') = Z.of_nat (S done)).
Proof.
  intros Hin Hc. unfold Resolution.check_slots. destruct (os_running _ (if_slot _ _ _ _ _ Hin)) as [f Hrun].
  assert (Hcached : (if dirty || bool_decide (cached = []) then (sd_running_frames (rt_slots (sys_rt s))).*2 else cached) = [0]).
  { rewrite Hrun. destruct Hc as [->| ->]; [by rewrite orb_true_r|by destruct dirty]. }
  rewrite Hcached. unfold try_evict_stalled_slots. rewrite (if_net _ _ _ _ _ Hin), orb_true_r. unfold wait_bind at 1. cbn [run_bind].
  assert (Hbit : Z.testbit (if cfg_slot_priority_enabled scfg then sd_active_bitmap (rt_slots (sys_rt s)) else u64_max) 0 = true).
  { destruct (cfg_slot_priority_enabled scfg); [apply (if_slot _ _ _ _ _ Hin)|done]. }
  cbn [fold_wait]. destruct (decide (waiting (mkFrame (sys_exec s) ws X) = [])) as [Hw|Hw].
  - destruct (check_slot_complete gw done s ws X _ Hin Hw Hbit) as (s' & -> & Hct & Hnext). unfold wait_bind. cbn [run_bind].
    eexists s', _. split; [done|]. split; [right; done|done].
  - destruct (check_slot_busy gw done s ws X _ Hin Hw Hbit) as (s' & -> & Hin' & Hct). unfold wait_bind. cbn [run_bind].
    eexists s', _. split; [done|]. split; [by left|done].
Qed.

Lemma frames_not_done gw done s ws X : in_frame gw done s ws X → frames_done scfg s = false.
Proof. intros Hin. unfold frames_done. rewrite (if_count _ _ _ _ _ Hin). apply Z.leb_gt, Hin. Qed.

Lemma drain_empty e : es_batch_queue e = [] →
  drain_and_process_batch_queue cfg g cache arena tbl init_objects fuel record_frame typed_spawn get_aff cond_indexes target_size e
  = Ret (Some e).
Proof. intros Hq. unfold drain_and_process_batch_queue. rewrite Hq, take_nil, drop_nil, <- Hq. by destruct e. Qed.

(** A turn during a frame returns. *)
Lemma turn_turned gw done s ws X cached dirty turn : in_frame gw done s ws X → cached_ok cached →
  ∃ s' cached' dirty' b, turn_of (mkLoop s cached dirty) turn = Ret (Some (mkLoop s' cached' dirty', b)) ∧ cached_ok cached'
    ∧ turned gw done ws X s s'
    ∧ (waiting (mkFrame (sys_exec s) ws X) = [] → tn_shutdown turn = false → tn_shutdown' turn = false →
       rt_frame_complete_counter (sys_rt s') = Z.of_nat (S done)).
Proof.
  intros Hin Hc. unfold resolution_turn. rewrite Hnet. cbn [lp_sys lp_cached_slots lp_slots_dirty].
  destruct (tn_shutdown turn); [exists s, cached, dirty, false; split; [done|]; split; [done|]; split; [by left|done]|].
  unfold wait_bind at 1. cbn [run_bind]. rewrite drain_empty by (apply (fi_queues _ _ _ _ _ _ _ (if_inv _ _ _ _ _ Hin))).
  unfold wait_bind at 1. cbn [run_bind].
  assert (Heta : with_exec (sys_exec s) s = s) by (by destruct s). rewrite Heta, (frames_not_done _ _ _ _ _ Hin), orb_false_r.
  destruct (tn_shutdown' turn); [exists s, cached, dirty, false; split; [done|]; split; [done|]; split; [by left|done]|].
  destruct (check_slots_turned gw done s ws X (tn_now turn) cached dirty Hin Hc) as (s' & d' & -> & Ht & Hw).
  unfold wait_bind. cbn [run_bind]. exists s', [0], d', (negb (frames_done scfg s')). split; [done|]. split; [by right|]. split; [done|]. auto.
Qed.

(** A turn after the last frame changes nothing. *)
Lemma turn_over done s ws cached dirty turn s' cached' dirty' b : over done s ws → 
  turn_of (mkLoop s cached dirty) turn = Ret (Some (mkLoop s' cached' dirty', b)) → s' = s ∧ cached' = cached ∧ b = false.
Proof.
  intros Hov. unfold resolution_turn. rewrite Hnet. cbn [lp_sys lp_cached_slots lp_slots_dirty].
  destruct (tn_shutdown turn); [by intros [= <- <- _ <-]|]. unfold wait_bind at 1. cbn [run_bind].
  rewrite drain_empty by apply Hov. unfold wait_bind at 1. cbn [run_bind].
  assert (Heta : with_exec (sys_exec s) s = s) by (by destruct s). rewrite Heta.
  assert (Hd : frames_done scfg s = true) by (unfold frames_done; rewrite (ov_count _ _ _ Hov), <- (ov_last _ _ _ Hov); by apply Z.leb_le).
  rewrite Hd, orb_true_r. by intros [= <- <- _ <-].
Qed.

(** ** The tasks *)

#[local] Notation step := (frame_step cfg g cache arena tbl fuel record_frame recording typed_spawn get_aff).

(** The task that a step runs. *)
Lemma step_task gw e ws X e' ws' X' : inv gw (mkFrame e ws X) → step (mkFrame e ws X) (mkFrame e' ws' X') →
  ∃ e0 wk func ni args wk' next entry, es_rt e0 = es_rt e
    ∧ execute_task cfg g cache arena tbl fuel record_frame recording typed_spawn get_aff e0 wk func ni args = Ret (Some (e', wk', next))
    ∧ ni_slot ni = 0 ∧ ni_post_node ni = false ∧ as_u32 gw = ni_gen ni
    ∧ cache !! ni_id ni = Some entry ∧ ce_is_condition entry = false ∧ ce_worker_resolvable entry = true.
Proof.
  intros Hinv Hstep. pose proof (fi_tasks _ _ _ _ _ _ _ Hinv) as Ht. rewrite Forall_forall in Ht.
  destruct (inv_bounds _ _ _ _ _ _ _ _ _ compiled_fg _ Hinv) as [_ Hsub].
  assert (Hone : ∀ ni, ni ∈ waiting (mkFrame e ws X) → ni_slot ni = 0 ∧ ni_post_node ni = false ∧ as_u32 gw = ni_gen ni
    ∧ ∃ entry, cache !! ni_id ni = Some entry ∧ ce_is_condition entry = false ∧ ce_worker_resolvable entry = true).
  { intros ni Hni. destruct (Ht ni Hni) as [(Hs & Hp & Hb) Hg]. split; [done|]. split; [done|]. split; [done|].
    apply (fg_cache _ _ _ _ _ _ _ compiled_fg).
    assert (Hin : (ni_id ni, ni_index ni) ∈ all).
    { eapply elem_of_submseteq; [|exact Hsub]. apply elem_of_app. right. apply list_elem_of_bind. exists ni. split; [|done].
      apply list_elem_of_fmap. exists (ni_index ni). split; [done|]. unfold covered. apply elem_of_range. lia. }
    by apply elem_all in Hin as [? _]. }
  inversion Hstep as [s l1 sub l2 wss w wk XX s' wk' next Hsched Hw Hx|s wss w wk ni entry XX s' wk' next Hw Hentry Hx]; subst.
  - destruct (Hone (sub_node sub)) as (Hs & Hp & Hg & entry & He & Hc & Hr).
    { unfold waiting. cbn. rewrite Hsched, fmap_app. apply elem_of_app. left. apply elem_of_app. right. left. }
    eexists _, wk, (sub_func sub), (sub_node sub), (sub_args sub), wk', next, entry. split; [|split; [exact Hx|done]]. done.
  - destruct (Hone ni) as (Hs & Hp & Hg & entry' & He & Hc & Hr).
    { unfold waiting. cbn. apply elem_of_app. right. apply list_elem_of_omap. exists (wk, Some ni). split; [by eapply list_elem_of_lookup_2|done]. }
    exists e, wk, (ce_func_ptr entry), ni, None, wk', next, entry'. by split_and!.
Qed.

Lemma task_in_frame gw done s ws X e ws' X' : in_frame gw done s ws X → step (mkFrame (sys_exec s) ws X) (mkFrame e ws' X') →
  in_frame gw done (with_exec e s) ws' X'.
Proof.
  intros [] Hstep. pose proof (frame_step_keeps _ _ _ _ _ _ _ _ _ _ _ _ _ _ _ _ compiled_fg _ _ if_inv0 Hstep) as Hinv'.
  destruct (step_task gw _ _ _ _ _ _ if_inv0 Hstep) as (e0 & wk & func & ni & args & wk' & next & entry & E & Hx & Hs & Hp & Hg & He & Hc & Hr).
  pose proof (execute_task_work _ _ _ _ _ _ _ _ _ _ _ _ _ _ _ _ _ _ Hx) as [Hreg Hcnt].
  pose proof (fi_gen _ _ _ _ _ _ _ if_inv0) as Hgen. cbn [fs_state] in Hgen.
  destruct (execute_task_tame cfg g cache arena tbl fuel record_frame recording typed_spawn get_aff 0 gw e0 e wk func ni args wk' next entry
              Hs Hp Hg He Hc Hr) as (Ht & Hproc & Hneeds).
  { by rewrite E. } { rewrite E. apply if_rest0. } { rewrite E. apply if_rest0. } { exact Hx. }
  rewrite E in Hreg, Hcnt, Ht. split; cbn [with_exec sys_exec sys_net]; try done.
  - by eapply slot_rest_tame.
  - cbn [completed mt_laws]. unfold sys_rt. cbn [with_exec sys_exec]. rewrite (tm_done _ _ _ _ Ht). exact if_open0.
  - by eapply one_slot_same.
  - unfold sys_rt. cbn [with_exec sys_exec]. by rewrite Hcnt.
Qed.

Lemma no_task_over done s ws X fs' : over done s ws → ¬ step (mkFrame (sys_exec s) ws X) fs'.
Proof.
  intros [_ _ Hidle _] Hstep. unfold waiting in Hidle. cbn [fs_state fs_workers] in Hidle. apply app_nil in Hidle as [H1 H2].
  apply fmap_nil_inv in H1. inversion Hstep as [s0 l1 sub l2 wss w wk XX s' wk' next Hsched Hw Hx|s0 wss w wk ni entry XX s' wk' next Hw Hentry Hx]; subst.
  - rewrite H1 in Hsched. by destruct l1.
  - assert (Hin : ni ∈ omap snd ws) by (apply list_elem_of_omap; exists (wk, Some ni); split; [by eapply list_elem_of_lookup_2|done]).
    rewrite H2 in Hin. by apply not_elem_of_nil in Hin.
Qed.

(** ** The start of the run *)

Lemma counter_new_entries deps c s node : dependency_count_vec g = Ret deps → MultiThreadedCounter_new 1 deps (g_nodes g) = Ret c →
  g_nodes g !! s = Some node → map_entry (node_dep_map c) 0 s = Some (new_entry node (total_of g node)).
Proof.
  intros Hd Hc Hn. unfold dependency_count_vec in Hd. apply run_imap_Ret in Hd as [_ Hd].
  unfold MultiThreadedCounter_new in Hc. apply run_bind_Ret in Hc as (m & Hm & [= <-]). cbn in Hm.
  apply run_bind_Ret in Hm as (entries & He & [= <-]). apply run_imap_Ret in He as [_ He].
  destruct (Hd s node Hn) as (n & Hds & Hcount). destruct (He s node Hn) as (e & Hes & Hx). cbn [Nat.add] in Hx.
  rewrite (vec_get_lookup _ _ _ Hds) in Hx. cbn [run_bind] in Hx. injection Hx as <-.
  unfold map_entry. cbn. rewrite Hes. unfold total_of. by rewrite Hcount.
Qed.

Lemma counter_new_upto deps c gen : (0 ≤ gen)%Z → MultiThreadedCounter_new 1 deps (g_nodes g) = Ret c → words_upto 0 gen c.
Proof.
  intros Hg Hc s e. unfold MultiThreadedCounter_new in Hc. apply run_bind_Ret in Hc as (m & Hm & [= <-]). cbn in Hm.
  apply run_bind_Ret in Hm as (entries & He & [= <-]). apply run_imap_Ret in He as [Hl He]. unfold map_entry. cbn. intros Hs.
  destruct (lookup_lt_is_Some_2 (g_nodes g) s) as [node Hn]; [rewrite <- Hl; by eapply lookup_lt_Some|].
  destruct (He s node Hn) as (e' & Hes & Hx). cbn [Nat.add] in Hx. apply run_bind_Ret in Hx as (d & _ & [= <-]).
  rewrite Hs in Hes. injection Hes as ->. split; [apply new_wf|by apply new_entry_upto].
Qed.

(** The state the runtime is built with. *)
Definition initial_rt (c : MultiThreadedCounter) (extra : nat) : Runtime MultiThreadedCounter :=
  mkRuntime (SlotData_new 1 (build_slot_counters 1 cache)) c (ResultMap_new (g_nodes g) (S extra)) 0.

Lemma initial_rest c deps extra : MultiThreadedCounter_new 1 deps (g_nodes g) = Ret c → slot_rest 0 (initial_rt c extra).
Proof.
  intros Hc. split; cbn; try done.
  - by rewrite (no_cond_tasks cfg g cache arena t r1 Hco).
  - eapply counter_new_upto; [|exact Hc]. done.
  - unfold sized. cbn. rewrite !length_replicate. split; [done|lia].
  - lia.
  - lia.
Qed.

(** The first frame gets the slot. *)
Lemma assign_first c deps extra : dependency_count_vec g = Ret deps → MultiThreadedCounter_new 1 deps (g_nodes g) = Ret c →
  ∃ rt, assign_frame_to_available_slot scfg g cache (initial_rt c extra) 0 = Ret (rt, Some (0, true))
    ∧ slot_rest 1 rt ∧ slot_ready g cache rt 0 1 ∧ one_slot (rt_slots rt) ∧ completed (rt_counter rt) 0 = false
    ∧ rt_frame_complete_counter rt = 0%Z.
Proof.
  intros Hd Hc. pose proof (initial_rest c deps extra Hc) as Hr. unfold assign_frame_to_available_slot.
  assert (Hlook : frame_slot_lookup (rt_slots (initial_rt c extra)) 0 = Ret None) by reflexivity. rewrite Hlook. cbn [run_bind].
  cbn [initial_rt rt_slots SlotData_new sd_running_frames find_running sd_last_assigned sd_states replicate].
  assert (Hclaim : ∃ d1, claim_slot true 0 0 0 (rt_slots (initial_rt c extra)) = Ret d1 ∧ one_slot d1
    ∧ sd_generation d1 = [0%Z] ∧ slot_rest 0 (with_slots d1 (initial_rt c extra)) ∧ 0 < length (sd_needs_check d1)
    ∧ sd_pending_tasks d1 = [Z.of_nat (total_tasks cache)]).
  { unfold claim_slot. cbn. eexists. split; [reflexivity|]. split; [split; [done|by eexists|reflexivity|vm_compute; lia|vm_compute; lia]|].
    split; [done|]. split; [destruct Hr; by split|]. cbn. split; [lia|done]. }
  destruct Hclaim as (d1 & Hcl & Hone & Hg & Hrest & Hn & Hp). cbn [vec_get lookup list_lookup run_bind]. rewrite decide_True by done.
  change (SlotData_new 1 (build_slot_counters 1 cache)) with (rt_slots (initial_rt c extra)).
  match goal with |- context [claim_slot true 0 0 0 ?d] => change d with (rt_slots (initial_rt c extra)) end. rewrite Hcl. cbn [run_bind].
  destruct (bump_fresh cache 0 _ Hrest) as (rt & Hb & Hk & Hg' & Hw & He); [by rewrite (f_equal (lookup 0) Hg)|].
  destruct Hk as (Hreg & Hres & Hcmp & Hdone & Ept & Epc & Epr & Enc & Epk & Epd).
  rewrite Hb. cbn [run_bind]. change (as_u64 (0 + 1)) with 1%Z in *.
  exists rt. split; [done|]. destruct Hrest as [_ A2 A3 _ A5 A6 [A7 A8]].
  destruct Hreg as (N & Hreg'). pose proof (conj N Hreg') as Hreg. destruct Hreg' as (_ & _ & _ & _ & _ & _ & _ & _ & L1 & L2).
  split; [split; rewrite ?Epc, ?Epr, ?Hres, ?Epk, ?Epd, ?L1, ?L2; done|]. split; [|split; [by eapply one_slot_same|]].
  - split; [done|by rewrite Ept; cbn; rewrite Hp|exists 0%Z; rewrite Epr; done|by rewrite N|].
    intros s node Hs. pose proof (counter_new_entries deps c s node Hd Hc Hs) as Hent.
    destruct (He s _ Hent (new_wf _ _ _ _ _)) as (e' & He' & Hwf & Hsh & Hv). by exists e'.
  - split; [|by rewrite Hcmp]. cbn [completed mt_laws]. rewrite Hdone. cbn.
    unfold MultiThreadedCounter_new in Hc. apply run_bind_Ret in Hc as (m & _ & [= <-]). cbn. apply Z.bits_0.
Qed.

(** Preparing the run: the first frame gets the slot and the tasks of its roots go to the
    scheduler. *)
Lemma prepared c deps extra workers ingress net : dependency_count_vec g = Ret deps →
  MultiThreadedCounter_new 1 deps (g_nodes g) = Ret c → cfg_slots scfg = 1 → (0 < cfg_max_frames scfg)%Z → nt_frame_packets net = 0 →
  ∃ e, perform_initial_preparation g cache record_frame typed_spawn get_aff scfg (mkExecState (initial_rt c extra) [] [] 0) = Ret e
    ∧ in_frame 1 0 (mkSystem e ingress net) ((λ wk, (wk, None)) <$> workers) [].
Proof.
  intros Hd Hc Hslots Hm Hn. unfold perform_initial_preparation.
  assert (Hframes : (if cfg_slot_priority_enabled scfg then [0] else range 0 (cfg_slots scfg)) = [0])
    by (rewrite Hslots; by destruct (cfg_slot_priority_enabled scfg)).
  assert (Hmatch : ∀ x y : run (ExecState MultiThreadedCounter), match g_initial_nodes g with [] => x | _ => y end = y)
    by (intros x y; by destruct (g_initial_nodes g)).
  rewrite Hmatch, Hframes.
  cbn [foldM es_rt fst snd]. destruct (assign_first c deps extra Hd Hc) as (rt & -> & Hrest & Hready & Hone & Hopen & Hcnt). cbn [run_bind unwrap foldM app].
  destruct (initial_nodes_spec scfg g [0]) as (nodes & Hnodes & _).
  { intros id (node & Hid & _)%(gw_initial g (co_wf _ _ _ _ _ _ Hco)). by eapply lookup_lt_Some. }
  rewrite Hnodes. cbn [run_bind].
  assert (Hidle : omap snd ((λ wk : Worker, (wk, None)) <$> workers) = ([] : list NodeInfo)) by (induction workers as [|w ws IH]; done).
  destruct (start_frame cfg g cache arena t r1 record_frame typed_spawn get_aff scfg Hco Hpl (mkExecState rt [] [] 0) 1 _ nodes
              Hready (os_frame_id _ Hone) Hnodes eq_refl eq_refl eq_refl Hidle) as (e & He & Hrt & Hinv).
  exists e. split; [exact He|]. cbn [es_rt] in Hrt. split; unfold sys_rt; cbn [sys_exec sys_net]; rewrite ?Hrt; try done.
  intros Hw. by destruct (started_waits 1 e _ Hinv Hw).
Qed.

(** ** The run *)

(** The system, the workers, what the resolution threads keep, the instances taken in the
    frame that runs, and those taken in the frames before. *)
Record RunState := mkRun {
  rn_sys : System MultiThreadedCounter;
  rn_workers : list (Worker * option NodeInfo);
  rn_threads : list (list nat * bool);
  rn_taken : list (nat * nat);
  rn_frames : list (list (nat * nat));
}.

(** After a turn: where the turn has counted a frame, the next one begins. *)
Definition after_turn (st : RunState) (s' : System MultiThreadedCounter) (threads : list (list nat * bool)) : RunState :=
  if decide (rt_frame_complete_counter (sys_rt s') = rt_frame_complete_counter (sys_rt (rn_sys st)))
  then mkRun s' (rn_workers st) threads (rn_taken st) (rn_frames st)
  else mkRun s' (rn_workers st) threads [] (rn_frames st ++ [rn_taken st]).

Inductive run_step : RunState → RunState → Prop :=
  | run_task st e ws X : step (mkFrame (sys_exec (rn_sys st)) (rn_workers st) (rn_taken st)) (mkFrame e ws X) →
      run_step st (mkRun (with_exec e (rn_sys st)) ws (rn_threads st) X (rn_frames st))
  | run_turn st i cached dirty turn s' cached' dirty' b : rn_threads st !! i = Some (cached, dirty) →
      turn_of (mkLoop (rn_sys st) cached dirty) turn = Ret (Some (mkLoop s' cached' dirty', b)) →
      run_step st (after_turn st s' (<[i := (cached', dirty')]> (rn_threads st))).

(** The state of a run: a frame is under way, or the last one is over. *)
Record run_ok (st : RunState) : Prop := {
  ro_now : (∃ gw, in_frame gw (length (rn_frames st)) (rn_sys st) (rn_workers st) (rn_taken st))
           ∨ (over (length (rn_frames st)) (rn_sys st) (rn_workers st) ∧ rn_taken st = []);
  ro_frames : Forall (λ X, X ≡ₚ all) (rn_frames st);
  ro_threads : Forall (λ th, cached_ok th.1) (rn_threads st);
}.

Lemma run_step_ok st st' : run_ok st → run_step st st' → run_ok st'.
Proof.
  intros [Hnow HF Hth] Hstep. destruct Hstep as [st e ws X Htask|st i cached dirty turn s' cached' dirty' b Hi Hturn].
  - destruct Hnow as [[gw Hin]|[Hov Hx]]; [|by apply (no_task_over _ _ _ _ _ Hov) in Htask].
    split; cbn; [|done|done]. left. exists gw. by eapply task_in_frame.
  - pose proof (Forall_lookup_1 _ _ _ _ Hth Hi) as Hc. cbn in Hc. destruct Hnow as [[gw Hin]|[Hov Hx]].
    + destruct (turn_turned gw _ _ _ _ cached dirty turn Hin Hc) as (s2 & c2 & d2 & b2 & Ht & Hc2 & Hturned & _).
      rewrite Hturn in Ht. injection Ht as <- <- <- <-. unfold after_turn.
      destruct Hturned as [[Hin' Hsame]|(Hw & Hcount & Hnext)].
      * rewrite decide_True by done. split; cbn; [left; by exists gw|done|by apply Forall_insert].
      * rewrite decide_False by (rewrite Hcount, (if_count _ _ _ _ _ Hin); lia).
        destruct (idle_frame gw _ _ _ (if_inv _ _ _ _ _ Hin) Hw) as (_ & _ & _ & _ & Hall & _).
        split; cbn [rn_sys rn_workers rn_taken rn_frames rn_threads]; rewrite ?length_app, ?Nat.add_1_r.
        -- destruct Hnext as [Hin'|Hov]; [left; by eexists|by right].
        -- apply Forall_app. by split; [|constructor].
        -- by apply Forall_insert.
    + destruct (turn_over _ _ _ _ _ _ _ _ _ _ Hov Hturn) as (-> & -> & _). unfold after_turn. rewrite decide_True by done.
      split; cbn; [by right|done|by apply Forall_insert].
Qed.

Lemma run_steps_ok st st' : run_ok st → rtc run_step st st' → run_ok st'.
Proof. intros Hok Hr. induction Hr as [|a b c Hs _ IH]; [done|]. by apply IH, run_step_ok with a. Qed.

(** The state a run starts in. *)
Definition run_start (e : ExecState MultiThreadedCounter) (ingress : Ingress) (net : NetState) (workers : list Worker) (n_threads : nat) : RunState :=
  mkRun (mkSystem e ingress net) ((λ wk, (wk, None)) <$> workers) (replicate n_threads ([], true)) [] [].

Definition run_waiting (st : RunState) : list NodeInfo := waiting (mkFrame (sys_exec (rn_sys st)) (rn_workers st) (rn_taken st)).

Lemma run_reach deps c extra workers n_threads ingress net : dependency_count_vec g = Ret deps →
  MultiThreadedCounter_new 1 deps (g_nodes g) = Ret c → cfg_slots scfg = 1 → (0 < cfg_max_frames scfg)%Z → nt_frame_packets net = 0 →
  ∃ e, perform_initial_preparation g cache record_frame typed_spawn get_aff scfg (mkExecState (initial_rt c extra) [] [] 0) = Ret e
    ∧ ∀ st, rtc run_step (run_start e ingress net workers n_threads) st → run_ok st.
Proof.
  intros Hd Hc Hs Hm Hn. destruct (prepared c deps extra workers ingress net Hd Hc Hs Hm Hn) as (e & He & Hin).
  exists e. split; [done|]. intros st. apply run_steps_ok. split; [left; by exists 1%Z|by constructor|].
  apply Forall_replicate. by left.
Qed.

Lemma run_ok_facts st : run_ok st →
  rt_frame_complete_counter (sys_rt (rn_sys st)) = Z.of_nat (length (rn_frames st))
  ∧ (Z.of_nat (length (rn_frames st)) ≤ cfg_max_frames scfg)%Z
  ∧ rn_taken st ++ (run_waiting st ≫= task_instances) ⊆+ all
  ∧ (Z.of_nat (length (rn_frames st)) = cfg_max_frames scfg → rn_taken st = [] ∧ run_waiting st = []).
Proof.
  intros [[[gw Hin]|[Hov Hx]] _ _].
  - destruct (inv_bounds _ _ _ _ _ _ _ _ _ compiled_fg _ (if_inv _ _ _ _ _ Hin)) as [_ Hsub].
    pose proof (if_more _ _ _ _ _ Hin). split; [apply Hin|]. split; [lia|]. split; [done|lia].
  - destruct Hov as [H1 H2 H3 _]. assert (Hw : run_waiting st = []) by exact H3. rewrite Hw, Hx.
    split; [done|]. split; [lia|]. split; [apply submseteq_nil_l|done].
Qed.

Lemma run_ok_turn st i cached dirty turn : run_ok st → run_waiting st = [] →
  (Z.of_nat (length (rn_frames st)) < cfg_max_frames scfg)%Z → rn_threads st !! i = Some (cached, dirty) →
  tn_shutdown turn = false → tn_shutdown' turn = false →
  ∃ s' cached' dirty' b, turn_of (mkLoop (rn_sys st) cached dirty) turn = Ret (Some (mkLoop s' cached' dirty', b))
    ∧ after_turn st s' (<[i := (cached', dirty')]> (rn_threads st))
      = mkRun s' (rn_workers st) (<[i := (cached', dirty')]> (rn_threads st)) [] (rn_frames st ++ [rn_taken st]).
Proof.
  intros [[[gw Hin]|[Hov Hx]] _ Hth] Hw Hlt Hi H1 H2; [|destruct Hov; lia].
  pose proof (Forall_lookup_1 _ _ _ _ Hth Hi) as Hc. cbn in Hc.
  destruct (turn_turned gw _ _ _ _ cached dirty turn Hin Hc) as (s' & c' & d' & b & Ht & _ & _ & Hcount).
  exists s', c', d', b. split; [done|]. unfold after_turn. rewrite decide_False; [done|].
  rewrite (Hcount Hw H1 H2), (if_count _ _ _ _ _ Hin). lia.
Qed.

(** A run, executable: what a worker does next, or a turn of a thread. *)
Inductive run_event := Ev_task (w k : nat) | Ev_turn (i : nat).

Definition run_event_step (st : RunState) (ev : run_event) : run (option RunState) :=
  match ev with
  | Ev_task w k =>
      wait! fs := frame_run cfg g cache arena tbl fuel record_frame recording typed_spawn get_aff [(w, k)]
                    (mkFrame (sys_exec (rn_sys st)) (rn_workers st) (rn_taken st)) in
      Ret (Some (mkRun (with_exec (fs_state fs) (rn_sys st)) (fs_workers fs) (rn_threads st) (fs_taken fs) (rn_frames st)))
  | Ev_turn i =>
      let! (cached, dirty) := vec_get (rn_threads st) i in
      wait! (l, _) := turn_of (mkLoop (rn_sys st) cached dirty) (mkTurn [] 0 false false) in
      Ret (Some (after_turn st (lp_sys l) (<[i := (lp_cached_slots l, lp_slots_dirty l)]> (rn_threads st))))
  end.

Lemma run_tasks st fs : rtc step (mkFrame (sys_exec (rn_sys st)) (rn_workers st) (rn_taken st)) fs →
  rtc run_step st (mkRun (with_exec (fs_state fs) (rn_sys st)) (fs_workers fs) (rn_threads st) (fs_taken fs) (rn_frames st)).
Proof.
  intros Hr. remember (mkFrame _ _ _) as fs0 eqn:E0. revert st E0.
  induction Hr as [fs|fs0 [e1 ws1 X1] fs Hs _ IH]; intros [[e ing net] ws threads X F] ->; [cbn; apply rtc_refl|].
  eapply rtc_l; [by apply run_task|]. by apply (IH (mkRun (mkSystem e1 ing net) ws1 threads X1 F)).
Qed.

Lemma run_events_steps evs st st' : fold_wait run_event_step st evs = Ret (Some st') → rtc run_step st st'.
Proof.
  revert st. induction evs as [|ev evs IH]; intros st Hx; cbn [fold_wait] in Hx; [injection Hx as ->; apply rtc_refl|].
  apply wait_bind_Some in Hx as (st1 & H1 & Hx). etrans; [|by apply IH].
  destruct ev as [w k|i]; cbn [run_event_step] in H1.
  - apply wait_bind_Some in H1 as (fs & Hf & [= <-]). by eapply run_tasks, frame_run_steps.
  - apply run_bind_Ret in H1 as ([cached dirty] & Hi%vec_get_Ret & H1). apply wait_bind_Some in H1 as ([[s' c' d'] b] & Ht & [= <-]).
    apply rtc_once. by eapply run_turn.
Qed.

End frames.

(** ** Two frames *)

#[local] Existing Instance count_kernels.
#[local] Existing Instance no_groups.

(** The graph of [FrameRun]; two frames. *)
Definition two_frames : SlotConfig := mkSlotConfig 1 2 2 false.
Definition no_net : NetState := mkNet 0 [] 0 false 0.
Definition no_ingress : Ingress := mkIngress [] 0 [] 0 0.
Definition run_counter : MultiThreadedCounter :=
  match MultiThreadedCounter_new 1 [0; 4] (g_nodes run_graph) with Ret c => c | Panic => mkCounter [] 0 end.
Definition run_begin : ExecState MultiThreadedCounter :=
  match perform_initial_preparation run_graph run_cache None false (λ _, 0) two_frames (mkExecState (initial_rt run_graph run_cache run_counter 0) [] [] 0)
  with Ret e => e | Panic => mkExecState (initial_rt run_graph run_cache run_counter 0) [] [] 0 end.

(** Two workers, one resolution thread that also looks while the frame runs. *)
Definition frame_events : list run_event := [Ev_task 1 1; Ev_turn 0; Ev_task 0 0; Ev_task 0 0; Ev_turn 0; Ev_task 1 0].
Definition two_frame_events : list run_event := frame_events ++ [Ev_turn 0] ++ frame_events ++ [Ev_turn 0].

Definition run_two (evs : list run_event) : run (option RunState) :=
  fold_wait (run_event_step run_exec run_graph run_cache run_arena (pred_group_by run_tables) [] 1 None false false (λ _, 0) two_frames 0 0 8 [])
    (run_start run_begin no_ingress no_net [Worker_new; Worker_new] 1) evs.

Lemma run_two_steps evs st : run_two evs = Ret (Some st) →
  rtc (run_step run_exec run_graph run_cache run_arena (pred_group_by run_tables) [] 1 None false false (λ _, 0) two_frames 0 0 8 [])
    (run_start run_begin no_ingress no_net [Worker_new; Worker_new] 1) st.
Proof. apply run_events_steps. Qed.

