(* ===== verification/Program.v ===== *)
(** The program from the parsed graph file to the end of its run ([run_graph] of
    [bin/main.rs]): the affinity of the workers, the scheduler, the compilation with the
    groups of that scheduler, the builder, and the run of the runtime it builds.

    The error of the builder ends the process; here it is the result. *)
From S2P Require Import Prelude Types GraphStruct WorkerRange Graph Buffers NodeDep NodeCache Tables DepCounter Counting ResultMap Arena Successor ArgRes Unchecked Values ObjGen GraphGen GraphGenSpec Compile Slots Exec ExecSpec Task Arrivals Frame FrameRun Packets Resolution Receivers Build CoreAlloc Affinity Sched SchedBuild SchedImpl NextFrame Frames.
From stdpp Require Import gmap strings sorting.

(** ** [run_graph] *)

Definition set_receiver_threads (n : nat) (c : RuntimeConfig) : RuntimeConfig :=
  mkRuntimeConfig (rc_slots c) (rc_max_frames c) (rc_frame_timeout_ms c) (rc_max_runtime c) (rc_system_threads c) n
    (rc_workers c) (rc_core_offset c) (rc_receiver_core_offset c) (rc_slot_priority_enabled c) (rc_coalesce_barriers c)
    (rc_inline_continuation c) (rc_single_slot_mode c) (rc_record_frame c) (rc_recv_pool_size c) (rc_spin_wait c) (rc_batch c)
    (rc_no_fanout_bulk c) (rc_rx_decode c) (rc_ingest_shards c) (rc_join_stream c) (rc_handover_listen c) (rc_takeover c)
    (rc_dispatch_chunk c) (rc_reclaim_core c).

(** Receiver threads only apply to a graph with a network. *)
Definition guard_receivers (g : Graph) (cfg : RuntimeConfig) : RuntimeConfig :=
  if is_none (g_network_config g) then set_receiver_threads 0 cfg else cfg.

Definition batch_queue_capacity (capacity : Z) (b : TomiiRtBuilder) : TomiiRtBuilder :=
  mkBuilder (tb_compiled b) (tb_scheduler b) (tb_config b) capacity.

(** The switches of the environment: templates, index ranges read one to one, unchecked
    wrappers. *)
Record Switches := mkSwitches { sx_templates_disabled : bool; sx_range_1to1 : bool; sx_unchecked_disabled : bool }.

(** Everything before [run]: the scheduler and the runtime; [bind] tells which sockets can be bound. *)
Definition run_graph `{FuncReg} (bind : string → nat → bool) (sx : Switches) (core_ids : list nat) (spin : nat) (spec : GraphSpec) (cfg : RuntimeConfig)
    (scheduler_type : SchedulerType) (capacity : Z) : run (SchedulerImpl (Job Submission) * result SharedData BuildError) :=
  let cfg := guard_receivers (spec_graph spec) cfg in
  let! affinity := worker_affinity (spec_graph spec) (rc_workers cfg) in
  let! scheduler := create_scheduler core_ids spin scheduler_type (rc_core_offset cfg) (rc_workers cfg) (rc_system_threads cfg)
                      (rc_receiver_threads cfg) affinity in
  let! compiled := compile (H1 := scheduler_affinity scheduler) (sx_templates_disabled sx) (sx_range_1to1 sx) spec in
  let builder := batch_queue_capacity capacity (TomiiRtBuilder_with_config compiled (scheduler_info scheduler) cfg) in
  let! built := build bind (sx_unchecked_disabled sx) builder in
  Ret (scheduler, built).

(** ** The arena does not depend on the functions *)

(** What the edges read of an entry. *)
Definition same_edges (e e' : NodeCacheEntry) : Prop :=
  ce_factor e' = ce_factor e ∧ ce_is_condition e' = ce_is_condition e ∧ ce_is_fanout_bulk e' = ce_is_fanout_bulk e.

Lemma make_edge_ext cache cache' t p s : Forall2 same_edges cache cache' → make_edge cache' t p s = make_edge cache t p s.
Proof.
  intros Hall. unfold make_edge, vec_get. pose proof (proj1 (Forall2_lookup same_edges cache cache') Hall s) as Hs.
  destruct Hs as [e e' (H1 & H2 & H3)|]; [|done]. cbn [run_bind]. by rewrite H1, H2, H3.
Qed.

Lemma arena_build_ext succs n cache cache' t : Forall2 same_edges cache cache' → arena_build succs n cache' t = arena_build succs n cache t.
Proof.
  intros Hall. unfold arena_build. apply foldM_ext. intros a p _. unfold arena_pred. destruct (succs !! p) as [l|]; [|done].
  assert (He : foldM (λ es s, let! e := make_edge cache' t p s in Ret (es ++ [e])) (ar_edges a) l
             = foldM (λ es s, let! e := make_edge cache t p s in Ret (es ++ [e])) (ar_edges a) l); [|by rewrite He].
  apply foldM_ext. intros es s _. by rewrite (make_edge_ext cache cache').
Qed.

(** ** Starting the program *)

(** A scheduler is created when the ranges of the nodes fit the workers. *)
Lemma create_scheduler_total g (core_ids : list nat) (spin : nat) (scheduler_type : SchedulerType) co w st rt :
  2 ≤ length core_ids → 1 ≤ w → (∀ r, WRange r ∈ worker_specs g → range_fits w r) →
  ∃ aff (s : SchedulerImpl (Job Submission)), worker_affinity g w = Ret aff ∧ create_scheduler core_ids spin scheduler_type co w st rt aff = Ret s.
Proof.
  intros Hcores Hw Hfit. unfold worker_affinity. destruct (decide (worker_specs g = ∅)).
  - exists None. destruct (create_scheduler_ok core_ids spin scheduler_type co w st rt None Hcores Hw eq_refl) as (_ & s & _ & Hs & _). by exists s.
  - destruct (from_worker_specs_ok _ _ Hfit) as (aff & Haff & Hinv). rewrite Haff. cbn [run_map run_bind]. exists (Some aff).
    destruct scheduler_type; cbn [create_scheduler];
      [destruct (create_threadpool_ok core_ids co w rt st Hcores) as (a & -> & _); by eexists..|].
    destruct (decide (ranges_in (worker_specs g) = [])) as [Hr|Hr].
    + destruct (create_sharded Submission core_ids spin co w st rt (Some aff)) as (_ & _ & _ & c & -> & _); [|done..|by eexists].
      cbn. rewrite (ai_groups _ _ _ Hinv), length_imap. by rewrite Hr.
    + destruct (create_affinity (worker_specs g) w Hfit aff Hinv core_ids spin co st rt Hr Hcores (J := Job Submission)) as (c & -> & _).
      by eexists.
Qed.

Section program.
Context `{JsonComplex} `{FuncReg} (bind : string → nat → bool) (network : bool) (gf : GraphFile) (sx : Switches) (core_ids : list nat) (spin : nat) (spec : GraphSpec) (cfg : RuntimeConfig)
  (scheduler_type : SchedulerType) (capacity : Z).

#[local] Abbreviation g := (spec_graph spec).

(** What the program is asked: the graph of a file, a machine with cores, workers that the
    ranges of the graph fit, functions and objects that exist, one slot, and a graph of the
    kind of [plain]. *)
Record can_run : Prop := {
  cr_parsed : from_graph_file network gf (rc_workers cfg) = Ret (ROk spec);
  cr_cores : 2 ≤ length core_ids;
  cr_workers : 1 ≤ rc_workers cfg;
  cr_ranges : ∀ r, WRange r ∈ worker_specs g → range_fits (rc_workers cfg) r;
  cr_compilable : compilable g (spec_init_objects spec);
  cr_network : g_network_config g = None;
  cr_unconditional : g_condition_nodes g = [];
  cr_roots : g_initial_nodes g ≠ [];
  cr_plain : ∀ t, build_predecessor_tables (sx_range_1to1 sx) g = Ret t → plain g t;
  cr_fanout : rc_no_fanout_bulk cfg = true ∨ ∀ s node, g_nodes g !! s = Some node → fans_out g s node = false;
  cr_slot : Nat.min (rc_slots cfg) (rc_max_frames cfg) = 1;
  cr_frames : (Z.of_nat (rc_max_frames cfg) < two64)%Z;
  cr_capacity : capacity ≠ 0%Z;
}.

Lemma cr_wf (Hcr : can_run) : graph_wf g.
Proof. by destruct (from_graph_file_ok _ _ _ _ (cr_parsed Hcr)) as (ids & _ & Hwf & _). Qed.

Lemma cr_exist (Hcr : can_run) : preds_exist g.
Proof.
  destruct (from_graph_file_ok _ _ _ _ (cr_parsed Hcr)) as (ids & _ & Hwf & _ & Hns & _).
  intros node p (s & Hs)%list_elem_of_lookup Hr. pose proof (lookup_lt_Some _ _ _ Hs).
  pose proof (nodes_of_file_backward _ _ _ _ _ _ _ Hns (gw_ids _ Hwf) _ _ _ Hs Hr). lia.
Qed.

Context (Hcr : can_run).

#[local] Abbreviation max_frames := (rc_max_frames cfg).

Lemma guarded : let c := guard_receivers g cfg in
  rc_workers c = rc_workers cfg ∧ rc_slots c = rc_slots cfg ∧ rc_max_frames c = max_frames ∧ rc_no_fanout_bulk c = rc_no_fanout_bulk cfg
  ∧ rc_max_runtime c = rc_max_runtime cfg ∧ rc_record_frame c = rc_record_frame cfg.
Proof. unfold guard_receivers. rewrite (cr_network Hcr). done. Qed.

(** The entries of a graph without conditions. *)
Lemma unconditional_entry `{AffinityLookup} t s node e : plain g t → entry_ok g (spec_init_objects spec) s node e →
  g_nodes g !! s = Some node → ce_is_condition e = false ∧ ce_worker_resolvable e = true.
Proof.
  intros Hpl He Hs. rewrite (eo_condition _ _ _ _ _ He), (eo_resolvable _ _ _ _ _ He). split.
  - rewrite (cr_unconditional Hcr). apply bool_decide_false, not_elem_of_nil.
  - unfold resolvable. apply forallb_forall. intros q _. destruct (g_nodes g !! q) as [qn|] eqn:Hq; [|done].
    destruct (pl_node _ _ Hpl q qn Hq) as (_ & _ & -> & _). done.
Qed.

(** What the program has set up when it calls [run]. *)
Lemma started : ∃ sched sh deps c extra, run_graph bind sx core_ids spin spec cfg scheduler_type capacity = Ret (sched, ROk sh)
  ∧ sh_graph sh = g ∧ compiled (exec_config (sh_config sh)) g (sh_node_cache sh) (sh_successor_arena sh) (sh_tables sh) (sx_range_1to1 sx)
  ∧ plain g (sh_tables sh)
  ∧ dependency_count_vec g = Ret deps ∧ MultiThreadedCounter_new 1 deps (g_nodes g) = Ret c
  ∧ sys_exec (sh_system sh) = mkExecState (initial_rt g (sh_node_cache sh) c extra) [] [] 0
  ∧ nt_frame_packets (sys_net (sh_system sh)) = 0
  ∧ rc_slots (sh_config sh) = 1 ∧ rc_max_frames (sh_config sh) = max_frames ∧ rc_max_runtime (sh_config sh) = rc_max_runtime cfg.
Proof.
  destruct guarded as (Gw & Gs & Gm & Gf & Gt & _). set (c := guard_receivers g cfg) in *.
  destruct (create_scheduler_total g core_ids spin scheduler_type (rc_core_offset c) (rc_workers c) (rc_system_threads c) (rc_receiver_threads c)
    (cr_cores Hcr)) as (aff & sched & Haff & Hsched); [rewrite Gw; apply Hcr..|].
  destruct (build_tables_spec (sx_range_1to1 sx) g (gw_ids g (cr_wf Hcr)) (cr_exist Hcr)) as (t & Ht & _).
  pose proof (cr_plain Hcr t Ht) as Hpl. set (lookup := scheduler_affinity sched).
  destruct (compile_ok (H0 := lookup) spec (sx_templates_disabled sx) (sx_range_1to1 sx) (cr_wf Hcr) (cr_exist Hcr) (cr_compilable Hcr) (pl_edges _ _ Hpl))
    as (gc & Hgc & Hgr & _ & _ & Hal & Ht' & Har & Hdeps & _). rewrite Ht in Ht'. injection Ht' as Ht'.
  pose proof (compile_buildable (H0 := lookup) spec _ _ gc (cr_wf Hcr) (cr_exist Hcr) (cr_compilable Hcr) (pl_edges _ _ Hpl) Hgc) as Hb.
  set (b := batch_queue_capacity capacity (TomiiRtBuilder_with_config gc (scheduler_info sched) c)).
  assert (Hslots : Nat.min (rc_slots (tb_config b)) (rc_max_frames (tb_config b)) = 1) by (cbn; rewrite Gs, Gm; apply Hcr).
  assert (Hcheck : check_config b (Nat.min (rc_slots (tb_config b)) (rc_max_frames (tb_config b))) = ROk tt).
  { rewrite Hslots. unfold check_config. cbn. rewrite Gm, Hgr, (cr_network Hcr), (proj2 (Z.eqb_neq _ _) (cr_capacity Hcr)).
    destruct max_frames eqn:Hm; [|done]. pose proof (cr_slot Hcr). lia. }
  assert (Hbind : sockets_bound bind (g_network_config (gc_graph (tb_compiled b))) (is_some (rc_takeover (tb_config b))))
    by (cbn; rewrite Hgr, (cr_network Hcr); done).
  destruct (build_ok bind (sx_unchecked_disabled sx) b Hb Hcheck Hbind) as (sh & cache' & cnt & Hbuild & _ & Hsel & Hcnt & Eg & Ec & Ea & Et & _ & Econf & _ & Esys).
  rewrite Hslots in Hcnt, Esys, Econf. cbn [b batch_queue_capacity tb_compiled TomiiRtBuilder_with_config tb_config tb_scheduler] in *.
  rewrite Hgr in *. subst cache'.
  exists sched, sh, (gc_dependency_count_vec gc), cnt, (sch_system_threads (scheduler_info sched) + 1). split.
  { unfold run_graph. fold c. rewrite Haff. cbn [run_bind]. rewrite Hsched. cbn [run_bind]. fold lookup. rewrite Hgc. cbn [run_bind].
    fold b. by rewrite Hbuild. }
  split; [done|]. split; [|split; [by rewrite Et, <- Ht'|]].
  - split; [by apply cr_wf|by apply cr_exist|by rewrite Et, <- Ht'|by rewrite <- (Forall2_length _ _ _ Hsel), (proj1 Hal)| |].
    + intros s node e Hs He. destruct (Forall2_lookup_r _ _ _ _ _ Hsel He) as (e0 & He0 & Hse).
      apply selected_fields in Hse as (-> & -> & -> & -> & _).
      pose proof (proj2 Hal s node e0 Hs He0) as Hok. destruct (unconditional_entry t s node e0 Hpl Hok Hs) as [-> ->].
      rewrite (eo_factor _ _ _ _ _ Hok), (eo_fanout _ _ _ _ _ Hok). split; [done|]. split; [done|]. split; [done|].
      rewrite Econf. cbn. rewrite Gf. destruct (cr_fanout Hcr) as [?|Hfan]; [by right|left; by apply Hfan].
    + rewrite Et, Ea, <- Har. apply arena_build_ext. eapply Forall2_impl; [exact Hsel|]. intros e e' Hse.
      by apply selected_fields in Hse as (? & ? & ? & _).
  - split; [done|]. split; [done|]. rewrite Esys, Econf. cbn. rewrite Gm, Gt. split_and!; try done.
Qed.

(** The runtime that was set up, while it runs: its workers take tasks and its resolution
    threads make their turns. *)
Definition program_step (sched : SchedulerImpl (Job Submission)) (sh : SharedData) (fuel : nat) (recording : bool) (conds : list (list nat)) :=
  run_step (exec_config (sh_config sh)) (sh_graph sh) (sh_node_cache sh) (sh_successor_arena sh) (pred_group_by (sh_tables sh))
    (sh_init_objects sh) fuel (rc_record_frame (sh_config sh)) recording (sh_typed_spawn sh) (scheduler_affinity sched)
    (slot_config (sh_config sh)) (rc_dispatch_chunk (sh_config sh)) (rc_frame_timeout_ms (sh_config sh))
    (bc_target_size (rc_batch (sh_config sh))) conds.

(** The states it reaches. *)
Definition program_reaches (sched : SchedulerImpl (Job Submission)) (sh : SharedData) (fuel : nat) (recording : bool) (st : RunState) : Prop :=
  ∃ conds e, get_condition_indexes (sh_graph sh) = Ret conds
    ∧ perform_initial_preparation (sh_graph sh) (sh_node_cache sh) (rc_record_frame (sh_config sh)) (sh_typed_spawn sh)
        (scheduler_affinity sched) (slot_config (sh_config sh)) (sys_exec (sh_system sh)) = Ret e
    ∧ rtc (program_step sched sh fuel recording conds)
        (run_start e (sys_ingress (sh_system sh)) (sys_net (sh_system sh)) (replicate (rc_workers (sh_config sh)) Worker_new)
           (rc_system_threads (sh_config sh))) st.

(** A look at a state without a reason to end besides the frames. *)
Definition undisturbed (sh : SharedData) (st : RunState) (l : Look) : Prop :=
  lk_system l = rn_sys st ∧ deadline_passed (sh_config sh) l = false ∧ lk_handed_over l = false ∧ lk_predicate l = None.

End program.

(** ** A file that runs *)

#[local] Instance plain_json : JsonComplex := {| json_c32 _ := None; json_c64 _ := None |}.
#[local] Instance sum_kernels : FuncReg := {|
  get_func _ := Some cm_sum;
  get_bulk_func _ := None; get_func_argspec _ := None; get_func_ret_variant _ := None; get_unchecked_func _ := None |}.

(** Four numbers; two instances that wait for all of them, on the first two workers. *)
Definition sums_file : GraphFile := mkGraphFile
  [mkInitJson "n" None [mkArgInit "usize" "4"] None]
  [plain_node "number" "sum" (Some (FRef "n")) [value_arg "$ref" "$index"];
   mkNodeJson "total" (Some (FNumber 2)) "sum" None None
     [mkArgJson "$barrier" (Some "$barrier") None (Some (mkPredJson "number" "0-n" None)); res_arg "number" "0-n"] None None None (Some "0-2")]
  (Some [plain_node "report" "sum" None [res_arg "total" "0"]]) None.

Definition sums_args : list Arg :=
  [mkArg (CmBarrier "0") None (Some (mkPred 0 [0; 1; 2; 3]%Z None)); mkArg (CmRes 0) None (Some (mkPred 0 [0; 1; 2; 3]%Z None))].
Definition sums_nodes : list Node :=
  [squares_node 0 4 "number" "sum" [mkArg (CmRef 0) None None];
   mkNode "total" sums_args 1 None 2 None "sum" None None Normal (Some (WRange (mkWorkerRange 0 3)))].
Definition sums_spec : GraphSpec := mkSpec
  (mkGraph sums_nodes [0] [[1]] [] (Some [squares_node 0 1 "report" "sum" [mkArg (CmRes 1) None (Some (mkPred 1 [0%Z] None))]]) None)
  [[CmUsize 0]; [CmUsize 1]; [CmUsize 4]].

(** Three workers, one slot, two frames. *)
Definition sums_config : RuntimeConfig :=
  mkRuntimeConfig 4 1 0 None 1 1 3 0 0 false false false true None 1024 SpinWaitConfig_default BatchConfig_default
    false false false false None None 0 None.
Definition sums_switches : Switches := mkSwitches false true false.

Lemma sums_parsed : from_graph_file false sums_file 3 = Ret (ROk sums_spec).
Proof. by vm_compute. Qed.

Lemma sums_reads s node p : sums_nodes !! s = Some node → reads node p → s = 1 ∧ p = 0.
Proof.
  intros Hs Hr. two_nodes s Hs; vm_compute in Hr; [by apply not_elem_of_nil in Hr|].
  repeat (apply elem_of_cons in Hr as [->|Hr]; [done|]). by apply not_elem_of_nil in Hr.
Qed.

Lemma sums_arg s node a p : sums_nodes !! s = Some node → a ∈ n_args node → a_predecessor a = Some p → p = mkPred 0 [0; 1; 2; 3]%Z None.
Proof. intros Hs Ha Hp. two_nodes s Hs; cbn in Ha; set_unfold in Ha; naive_solver. Qed.

Lemma sums_plain t : build_predecessor_tables true (spec_graph sums_spec) = Ret t → plain (spec_graph sums_spec) t.
Proof.
  intros Ht. vm_compute in Ht. injection Ht as <-. split.
  - intros s node Hs. split; intros a p Ha Hp; rewrite (sums_arg s node a p Hs Ha Hp); [|done].
    split; [vm_compute; lia|]. split; [vm_compute; done|]. split; [by apply (bool_decide_unpack _)|].
    intros i Hi. cbn [p_indexes p_id] in Hi |- *. change (factor_of (spec_graph sums_spec) 0) with 4. set_unfold in Hi. lia.
  - intros s node Hs. two_nodes s Hs; (split_and!; [done..|vm_compute; lia|reflexivity]).
  - intros s node p Hs Hr. destruct (sums_reads s node p Hs Hr) as [-> ->]. injection Hs as <-. by left.
  - intros s node p Hs Hr. destruct (sums_reads s node p Hs Hr) as [-> ->]. injection Hs as <-. vm_compute. split; [lia|done].
  - exists id. intros s node p Hs Hr. destruct (sums_reads s node p Hs Hr) as [-> ->]. cbn. lia.
  - vm_compute. done.
  - vm_compute. done.
Qed.

Lemma sums_compilable : compilable (spec_graph sums_spec) (spec_init_objects sums_spec).
Proof.
  split.
  - intros s node Hs Hn. by two_nodes s Hs.
  - intros s node Hs _. two_nodes s Hs; (split; [by eexists|done]).
  - intros s node Hs. split; [|by two_nodes s Hs]. intros a [_ Ha]%list_elem_of_filter.
    two_nodes s Hs; cbn in Ha; set_unfold in Ha; unfold objects_ok; destruct_or?; subst a; cbn; auto with lia.
  - intros s node a q Hs [Ha|(c & Hc & _)] Hq; [|by two_nodes s Hs].
    two_nodes s Hs; cbn in Ha; set_unfold in Ha; destruct_or?; subst a; cbn in Hq; try done; injection Hq as <-; cbn; lia.
Qed.

Lemma sums_can_run : can_run false sums_file sums_switches (seq 0 8) sums_spec sums_config 16.
Proof.
  split; [exact sums_parsed|cbn; lia|cbn; lia| |exact sums_compilable|done|done|done|exact sums_plain| |done|done|done].
  - intros r Hr. assert (Hw : worker_specs (spec_graph sums_spec) = {[WRange (mkWorkerRange 0 3)]}) by (by vm_compute).
    rewrite Hw, elem_of_singleton in Hr. injection Hr as ->. split; cbn; lia.
  - right. intros s node Hs. by two_nodes s Hs.
Qed.

