(* ===== verification/Text.v ===== *)
(** Rust's [str] operations on ASCII text, and the pieces of generated source code.

    A string is a list of bytes; the operations here are those the generator of wrappers
    uses ([tomii-converter]), on sources in ASCII: white space is that of [WorkerRange.trim],
    and upper case concerns the letters [a] to [z]. *)
From S2P Require Import Prelude WorkerRange Values.
From stdpp Require Import strings pretty.
From Stdlib Require Import Ascii.
Open Scope string_scope.
Open Scope list_scope.
Open Scope nat_scope.

(** ** Searching and cutting *)

(** [find] and [rfind] of a character that satisfies [p]. *)
Fixpoint str_find (p : ascii → bool) (s : string) : option nat :=
  match s with
  | EmptyString => None
  | String c s' => if p c then Some 0 else S <$> str_find p s'
  end.

Fixpoint str_rfind (p : ascii → bool) (s : string) : option nat :=
  match s with
  | EmptyString => None
  | String c s' =>
      match str_rfind p s' with
      | Some n => Some (S n)
      | None => if p c then Some 0 else None
      end
  end.

Fixpoint str_take (n : nat) (s : string) : string :=
  match n, s with S n', String c s' => String c (str_take n' s') | _, _ => EmptyString end.

Fixpoint str_drop (n : nat) (s : string) : string :=
  match n, s with S n', String _ s' => str_drop n' s' | _, _ => s end.

(** [&s[lo..hi]], with [lo] and [hi] up to the length: panics when [hi] is before [lo]. *)
Definition str_slice (lo hi : nat) (s : string) : run string :=
  if hi <? lo then Panic else Ret (str_take (hi - lo) (str_drop lo s)).

(** [s.contains(p)]. *)
Fixpoint contains_str (p s : string) : bool :=
  starts_with p s || match s with EmptyString => false | String _ s' => contains_str p s' end.

(** [s.ends_with(c)]. *)
Fixpoint ends_with (c : ascii) (s : string) : bool :=
  match s with
  | EmptyString => false
  | String d EmptyString => Ascii.eqb c d
  | String _ s' => ends_with c s'
  end.

(** [s.trim_end_matches(c)]. *)
Fixpoint trim_end_matches (c : ascii) (s : string) : string :=
  match s with
  | EmptyString => EmptyString
  | String d s' =>
      match trim_end_matches c s' with
      | EmptyString => if Ascii.eqb c d then EmptyString else String d EmptyString
      | s'' => String d s''
      end
  end.

(** [s.trim_start_matches(p)]: takes [p] away as often as it is there, which is at most once
    per byte of [s]. *)
Fixpoint trim_start_times (n : nat) (p s : string) : string :=
  match n with
  | 0 => s
  | S n' => match Values.strip_prefix p s with Some s' => trim_start_times n' p s' | None => s end
  end.
Definition trim_start_matches (p s : string) : string := trim_start_times (String.length s) p s.

(** [s.split_whitespace()]; [word] is what has been read of the current word. *)
Fixpoint split_words (word : string) (s : string) : list string :=
  match s with
  | EmptyString => match word with EmptyString => [] | _ => [word] end
  | String c s' =>
      if is_space c then (match word with EmptyString => [] | _ => [word] end) ++ split_words EmptyString s'
      else split_words (word +:+ String c EmptyString) s'
  end.
Definition split_whitespace (s : string) : list string := split_words EmptyString s.

(** [l.join(sep)]. *)
Fixpoint str_join (sep : string) (l : list string) : string :=
  match l with
  | [] => EmptyString
  | [x] => x
  | x :: l' => x +:+ sep +:+ str_join sep l'
  end.

Definition newline : ascii := ascii_of_nat 10.
Definition carriage_return : ascii := ascii_of_nat 13.

(** [s.lines()]: what precedes each line feed, without the carriage return before it; the
    text after the last line feed is a line when it is not empty. *)
Definition strip_cr (s : string) : string :=
  default s (Values.strip_suffix (String carriage_return EmptyString) s).

Fixpoint str_lines (line : string) (s : string) : list string :=
  match s with
  | EmptyString => match line with EmptyString => [] | _ => [line] end
  | String c s' =>
      if Ascii.eqb c newline then strip_cr line :: str_lines EmptyString s'
      else str_lines (line +:+ String c EmptyString) s'
  end.
Definition lines (s : string) : list string := str_lines EmptyString s.

(** [s.to_uppercase()]. *)
Fixpoint to_uppercase (s : string) : string :=
  match s with
  | EmptyString => EmptyString
  | String c s' =>
      let n := nat_of_ascii c in
      String (if (97 <=? n) && (n <=? 122) then ascii_of_nat (n - 32) else c) (to_uppercase s')
  end.

(** ** Generated text *)

(** The text of a template: a tilde stands for a double quote. *)
Fixpoint tpl (s : string) : string :=
  match s with
  | EmptyString => EmptyString
  | String c s' => String (if Ascii.eqb c "~" then ascii_of_nat 34 else c) (tpl s')
  end.

(** [format!]: the pieces one after the other. *)
Fixpoint fmt (l : list string) : string := match l with [] => EmptyString | x :: l' => x +:+ fmt l' end.

(** The pieces as a line, and several lines. *)
Definition line (l : list string) : string := fmt l +:+ String newline EmptyString.
Definition text (l : list string) : string := fmt ((λ s, line [tpl s]) <$> l).

(** ** Lemmas *)

#[global] Arguments String.append !_ _ / : assert.

Lemma string_app_nil_r (s : string) : s +:+ EmptyString = s.
Proof. induction s as [|c s IH]; cbn; [done|]. by rewrite IH. Qed.

Lemma string_app_assoc (a b c : string) : a +:+ b +:+ c = (a +:+ b) +:+ c.
Proof. induction a as [|x a IH]; cbn; [done|]. by rewrite IH. Qed.

Lemma fmt_app (l1 l2 : list string) : fmt (l1 ++ l2) = fmt l1 +:+ fmt l2.
Proof. induction l1 as [|x l1 IH]; cbn; [done|]. by rewrite IH, string_app_assoc. Qed.

Lemma str_take_app a b : str_take (String.length a) (a +:+ b) = a.
Proof. induction a as [|c a IH]; cbn; [by destruct b|]. by rewrite IH. Qed.

Lemma str_drop_app a b : str_drop (String.length a) (a +:+ b) = b.
Proof. induction a as [|c a IH]; cbn; [by destruct b|]. by rewrite IH. Qed.

(** The characters of a string, as a predicate. *)
Fixpoint str_all (p : ascii → bool) (s : string) : bool :=
  match s with EmptyString => true | String c s' => p c && str_all p s' end.

Lemma str_all_app p a b : str_all p (a +:+ b) = str_all p a && str_all p b.
Proof. induction a as [|c a IH]; cbn; [done|]. by rewrite IH, andb_assoc. Qed.

Lemma str_all_impl (p q : ascii → bool) s : (∀ c, p c = true → q c = true) → str_all p s = true → str_all q s = true.
Proof.
  intros Hpq. induction s as [|c s IH]; cbn; [done|]. intros [Hc Hs]%andb_prop. by rewrite Hpq, IH.
Qed.

Lemma str_find_app p a c b : str_all (λ x, negb (p x)) a = true → p c = true →
  str_find p (a +:+ String c b) = Some (String.length a).
Proof.
  intros Ha Hc. induction a as [|d a IH]; cbn in *; [by rewrite Hc|].
  apply andb_prop in Ha as [Hd%negb_true_iff Ha]. by rewrite Hd, IH.
Qed.

Lemma str_rfind_none p s : str_all (λ x, negb (p x)) s = true → str_rfind p s = None.
Proof.
  induction s as [|c s IH]; cbn; [done|]. intros [Hc%negb_true_iff Hs]%andb_prop. by rewrite (IH Hs), Hc.
Qed.

Lemma str_rfind_app p a c b : p c = true → str_all (λ x, negb (p x)) b = true →
  str_rfind p (a +:+ String c b) = Some (String.length a).
Proof.
  intros Hc Hb. induction a as [|d a IH]; cbn; [by rewrite (str_rfind_none _ _ Hb), Hc|]. by rewrite IH.
Qed.

(** *** Trimming *)

Definition no_space : ascii → bool := λ c, negb (is_space c).

(** Nothing to trim at either end. *)
Definition tight (s : string) : Prop := trim_start s = s ∧ trim_end s = s.

Lemma trim_tight s : tight s → trim s = s.
Proof. intros [H1 H2]. unfold trim. by rewrite H1. Qed.

Lemma trim_start_app a b : a ≠ EmptyString → trim_start a = a → trim_start (a +:+ b) = a +:+ b.
Proof.
  destruct a as [|c a]; [done|]. intros _. cbn. destruct (is_space c) eqn:Hc; [|done]. intros H. exfalso.
  assert (Hlen : ∀ x, String.length (trim_start x) ≤ String.length x).
  { induction x as [|d x IH]; cbn; [lia|]. destruct (is_space d); cbn; lia. }
  specialize (Hlen a). rewrite H in Hlen. cbn in Hlen. lia.
Qed.

Lemma trim_end_nonempty s : s ≠ EmptyString → trim_end s = s → ∀ a, trim_end (a +:+ s) = a +:+ s.
Proof.
  intros Hne Hs. induction a as [|c a IH]; cbn; [done|]. rewrite IH. by destruct a, s.
Qed.

Lemma tight_app a b : a ≠ EmptyString → b ≠ EmptyString → tight a → tight b → tight (a +:+ b).
Proof. intros Ha Hb [H1 _] [_ H2]. split; [by apply trim_start_app|by apply trim_end_nonempty]. Qed.

Lemma tight_wrap a m b : a ≠ EmptyString → b ≠ EmptyString → tight a → tight b → tight (a +:+ m +:+ b).
Proof.
  intros Ha Hb [H1 _] [_ H2]. split; [by apply trim_start_app|]. rewrite string_app_assoc. by apply trim_end_nonempty.
Qed.

Lemma tight_word s : str_all no_space s = true → tight s.
Proof.
  intros Hs. split.
  - destruct s as [|c s]; [done|]. cbn in *. apply andb_prop in Hs as [Hc%negb_true_iff _]. by rewrite Hc.
  - induction s as [|c s IH]; [done|]. cbn in *. apply andb_prop in Hs as [Hc%negb_true_iff Hs]. rewrite (IH Hs).
    destruct s; [by rewrite Hc|done].
Qed.

Lemma trim_start_space s : trim (" " +:+ s) = trim s.
Proof. reflexivity. Qed.

Lemma trim_end_space s : trim_end (s +:+ " ") = trim_end s.
Proof. induction s as [|d s IH]; [done|]. cbn. by rewrite IH. Qed.

Lemma trim_space_after s : s ≠ EmptyString → tight s → trim (s +:+ " ") = s.
Proof. intros Hne [H1 H2]. unfold trim. rewrite trim_start_app by done. by rewrite trim_end_space. Qed.

(** *** Splitting *)

Lemma string_app_eq_nil a b : a +:+ b = EmptyString → a = EmptyString ∧ b = EmptyString.
Proof. by destruct a. Qed.

Lemma split_app (c : ascii) a b : str_all (λ x, negb (Ascii.eqb c x)) a = true →
  WorkerRange.split c (a +:+ String c b) = a :: WorkerRange.split c b.
Proof.
  induction a as [|d a IH]; cbn; [by rewrite Ascii.eqb_refl|]. intros [Hd%negb_true_iff Ha]%andb_prop. by rewrite Hd, IH.
Qed.

Lemma split_none (c : ascii) a : str_all (λ x, negb (Ascii.eqb c x)) a = true → WorkerRange.split c a = [a].
Proof. induction a as [|d a IH]; cbn; [done|]. intros [Hd%negb_true_iff Ha]%andb_prop. by rewrite Hd, IH. Qed.

(** The parts between [", "], the later ones with the space before them. *)
Lemma split_join (l : list string) : l ≠ [] → Forall (λ x, str_all (λ y, negb (Ascii.eqb "," y)) x = true) l →
  trim <$> WorkerRange.split "," (str_join ", " l) = trim <$> l.
Proof.
  intros Hne Hall. assert (Hgen : ∀ pre, trim (pre +:+ EmptyString) = EmptyString → (∀ s, trim (pre +:+ s) = trim s) →
    str_all (λ y, negb (Ascii.eqb "," y)) pre = true →
    trim <$> WorkerRange.split "," (pre +:+ str_join ", " l) = trim <$> l); [|by apply (Hgen EmptyString)].
  induction Hall as [|x l Hx Hall IH]; [done|]. intros pre Hpre Htrim Hpc. destruct l as [|y l].
  - cbn [str_join]. rewrite split_none by (rewrite str_all_app, Hpc; exact Hx). cbn. by rewrite Htrim.
  - change (str_join ", " (x :: y :: l)) with (x +:+ String "," (" " +:+ str_join ", " (y :: l))).
    rewrite string_app_assoc, split_app by (rewrite str_all_app, Hpc; exact Hx). cbn [fmap list_fmap]. rewrite Htrim. f_equal.
    by apply IH.
Qed.

Lemma split_words_word w s rest : str_all no_space s = true →
  split_words w (s +:+ String " " rest) = (match w +:+ s with EmptyString => [] | _ => [w +:+ s] end) ++ split_words EmptyString rest.
Proof.
  revert w. induction s as [|c s IH]; intros w Hs; cbn in *; [by rewrite string_app_nil_r|].
  apply andb_prop in Hs as [Hc%negb_true_iff Hs]. rewrite Hc, IH by done.
  by rewrite <- string_app_assoc.
Qed.

Lemma split_words_last w s : str_all no_space s = true →
  split_words w s = match w +:+ s with EmptyString => [] | _ => [w +:+ s] end.
Proof.
  revert w. induction s as [|c s IH]; intros w Hs; cbn in *; [by rewrite string_app_nil_r|].
  apply andb_prop in Hs as [Hc%negb_true_iff Hs]. rewrite Hc, IH by done. by rewrite <- string_app_assoc.
Qed.

(** Words joined by spaces, with a space behind them or not, are found again. *)
Lemma split_whitespace_join ws tail : Forall (λ w, w ≠ EmptyString ∧ str_all no_space w = true) ws → tail = EmptyString ∨ tail = " " →
  split_whitespace (str_join " " ws +:+ tail) = ws.
Proof.
  intros Hall Htail. unfold split_whitespace. induction Hall as [|w ws [Hne Hw] Hall IH]; [by destruct Htail as [->| ->]|].
  destruct ws as [|v ws].
  - cbn [str_join]. destruct Htail as [->| ->]; [rewrite string_app_nil_r, split_words_last by done|rewrite split_words_word by done]; by destruct w.
  - change (str_join " " (w :: v :: ws)) with (w +:+ String " " (str_join " " (v :: ws))).
    rewrite <- string_app_assoc. change (String " " (str_join " " (v :: ws)) +:+ tail) with (String " " (str_join " " (v :: ws) +:+ tail)).
    rewrite split_words_word by done. rewrite IH. by destruct w.
Qed.

(** *** Prefixes and suffixes *)

Lemma strip_prefix_concat p s : Values.strip_prefix p (p +:+ s) = Some s.
Proof. induction p as [|c p IH]; [by destruct s|]. cbn. by rewrite Ascii.eqb_refl. Qed.

Lemma string_length_app a b : String.length (a +:+ b) = String.length a + String.length b.
Proof. induction a as [|c a IH]; cbn; [done|]. by rewrite IH. Qed.

Lemma strip_suffix_cons p c s : Values.strip_suffix p (String c s) =
  if String.eqb (String c s) p then Some EmptyString else String c <$> Values.strip_suffix p s.
Proof. reflexivity. Qed.

Lemma strip_suffix_self p : Values.strip_suffix p p = Some EmptyString.
Proof. destruct p as [|c p]; [done|]. by rewrite strip_suffix_cons, String.eqb_refl. Qed.

Lemma strip_suffix_concat a p : Values.strip_suffix p (a +:+ p) = Some a.
Proof.
  induction a as [|c a IH]; [apply strip_suffix_self|]. change (String c a +:+ p) with (String c (a +:+ p)).
  rewrite strip_suffix_cons, IH. rewrite (proj2 (String.eqb_neq _ _)); [done|]. intros Hp.
  apply (f_equal String.length) in Hp. cbn in Hp. rewrite string_length_app in Hp. lia.
Qed.

Lemma str_drop_plus a b n : str_drop (String.length a + n) (a +:+ b) = str_drop n b.
Proof. induction a as [|c a IH]; cbn; [done|]. apply IH. Qed.

Lemma trim_end_matches_snoc c a : trim_end_matches c (a +:+ String c EmptyString) = trim_end_matches c a.
Proof. induction a as [|d a IH]; cbn; [by rewrite Ascii.eqb_refl|]. by rewrite IH. Qed.

Lemma trim_end_matches_other c d a : Ascii.eqb c d = false → trim_end_matches c (a +:+ String d EmptyString) = a +:+ String d EmptyString.
Proof. intros Hd. induction a as [|x a IH]; cbn; [by rewrite Hd|]. rewrite IH. by destruct a. Qed.

(** *** Lines *)

Definition in_line : ascii → bool := λ c, negb (Ascii.eqb c newline).

Lemma str_lines_line w l rest : str_all in_line l = true →
  str_lines w (l +:+ String newline rest) = strip_cr (w +:+ l) :: str_lines EmptyString rest.
Proof.
  revert w. induction l as [|c l IH]; intros w Hl; [cbn; by rewrite string_app_nil_r|]. cbn in *.
  apply andb_prop in Hl as [Hc Hl]. unfold in_line in Hc. apply negb_true_iff in Hc. rewrite Hc, IH by done. by rewrite <- string_app_assoc.
Qed.

Lemma lines_line l rest : str_all in_line l = true → lines (line [l] +:+ rest) = strip_cr l :: lines rest.
Proof.
  intros Hl. unfold line, lines. cbn [fmt]. rewrite string_app_nil_r, <- string_app_assoc.
  change (String newline EmptyString +:+ rest) with (String newline rest). by rewrite str_lines_line.
Qed.
