(* ===== verification/Exports.v ===== *)
(** The functions a plugin exports, as the generator of wrappers sees them
    ([tomii-converter/src/lib.rs]): the kinds of parameters and of results, what a wrapper
    asks of its arguments, and the types of the symbols it calls. *)
From S2P Require Import Prelude WorkerRange Values Text Types.
From stdpp Require Import strings pretty.
From Stdlib Require Import Ascii.
Open Scope string_scope.
Open Scope list_scope.
Open Scope nat_scope.

(** ** Data *)

Inductive SourceLang := LangRust | LangC.

Inductive PrimKind :=
  | PkBool | PkI8 | PkI16 | PkI32 | PkI64 | PkI128 | PkU8 | PkU16 | PkU32 | PkU64 | PkU128
  | PkF32 | PkF64 | PkUsize | PkIsize | PkChar.

#[export] Instance SourceLang_eq_dec : EqDecision SourceLang.
Proof. solve_decision. Defined.
#[export] Instance PrimKind_eq_dec : EqDecision PrimKind.
Proof. solve_decision. Defined.

(** How a parameter is taken from the arguments. *)
Inductive CmParamKind :=
  | KCmTypesRef
  | KPrimitive (pk : PrimKind)
  | KStrRef
  | KOwnedString
  | KVecCmTypes
  | KSliceCmTypes
  | KOpaquePtr
  | KArrayPtr (c_element_type len_param : string)
  | KMutArrayPtr (c_element_type len_param : string).

Record CmParam := mkParam { cp_name : string; cp_kind : CmParamKind }.

Inductive CmRet :=
  | RVoid
  | RCmTypes
  | RPrimitive (pk : PrimKind)
  | ROwnedString
  | ROpaquePtr
  | RAllocatedArray (c_element_type len_from_param : string) (free_fn : option string)
  | RAllocatedString (free_fn : option string).

Record ExportedFn := mkExported {
  ef_cm_name : string;
  ef_registry_key : string;
  ef_cm_params : list CmParam;
  ef_cm_ret : CmRet;
  ef_ret_variant_hint : option string;
  ef_source_lang : SourceLang;
  ef_auto_params : list string;
  ef_has_bulk_cm : bool;
}.

#[export] Instance CmParamKind_eq_dec : EqDecision CmParamKind.
Proof. solve_decision. Defined.
#[export] Instance CmRet_eq_dec : EqDecision CmRet.
Proof. solve_decision. Defined.

Definition is_rust (e : ExportedFn) : bool := bool_decide (ef_source_lang e = LangRust).

Definition variant_name (pk : PrimKind) : string :=
  match pk with
  | PkBool => "Bool" | PkI8 => "I8" | PkI16 => "I16" | PkI32 => "I32" | PkI64 => "I64" | PkI128 => "I128"
  | PkU8 => "U8" | PkU16 => "U16" | PkU32 => "U32" | PkU64 => "U64" | PkU128 => "U128"
  | PkF32 => "F32" | PkF64 => "F64" | PkUsize => "Usize" | PkIsize => "Isize" | PkChar => "Char"
  end.

Definition rust_type (pk : PrimKind) : string :=
  match pk with
  | PkBool => "bool" | PkI8 => "i8" | PkI16 => "i16" | PkI32 => "i32" | PkI64 => "i64" | PkI128 => "i128"
  | PkU8 => "u8" | PkU16 => "u16" | PkU32 => "u32" | PkU64 => "u64" | PkU128 => "u128"
  | PkF32 => "f32" | PkF64 => "f64" | PkUsize => "usize" | PkIsize => "isize" | PkChar => "char"
  end.

Definition prim_kind_from_str (name : string) : option PrimKind :=
  match name with
  | "bool" => Some PkBool | "i8" => Some PkI8 | "i16" => Some PkI16 | "i32" => Some PkI32 | "i64" => Some PkI64
  | "i128" => Some PkI128 | "u8" => Some PkU8 | "u16" => Some PkU16 | "u32" => Some PkU32 | "u64" => Some PkU64
  | "u128" => Some PkU128 | "f32" => Some PkF32 | "f64" => Some PkF64 | "usize" => Some PkUsize
  | "isize" => Some PkIsize | "char" => Some PkChar
  | _ => None
  end.

Definition is_primitive_ident (name : string) : bool :=
  match prim_kind_from_str name with Some _ => true | None => false end.

(** ** What a wrapper asks for and returns *)

Definition ret_hint_from_cm_ret (r : CmRet) : option string :=
  match r with
  | RVoid => Some "None"
  | RPrimitive pk => Some (variant_name pk)
  | ROwnedString => Some "String"
  | RCmTypes => None
  | ROpaquePtr | RAllocatedArray _ _ _ | RAllocatedString _ => None
  end.

(** The declaration of one parameter; [None] for the kinds of C entries. *)
Definition param_spec (k : CmParamKind) : option string :=
  match k with
  | KPrimitive pk => Some (variant_name pk)
  | KStrRef | KOwnedString => Some "String"
  | KCmTypesRef => Some "*"
  | KVecCmTypes | KSliceCmTypes => Some "..."
  | KOpaquePtr | KArrayPtr _ _ | KMutArrayPtr _ _ => None
  end.

Fixpoint param_specs (ps : list CmParam) : option (list string) :=
  match ps with
  | [] => Some []
  | p :: ps' => match param_spec (cp_kind p) with
                | None => None
                | Some s => cons s <$> param_specs ps'
                end
  end.

Definition entry_argspec (e : ExportedFn) : option (list string) :=
  if bool_decide (ef_source_lang e ≠ LangRust) then None else param_specs (ef_cm_params e).

Definition entry_ret_variant (e : ExportedFn) : option string := ef_ret_variant_hint e.

(** ** Types of symbols *)

(** The slots of the C symbol for a parameter: an array takes its length along. *)
Definition c_param_types (k : CmParamKind) : run (list string) :=
  match k with
  | KPrimitive pk => Ret [rust_type pk]
  | KStrRef => Ret ["*const std::ffi::c_char"]
  | KOpaquePtr => Ret ["*mut c_void"]
  | KArrayPtr _ _ => Ret ["*const c_void"; "usize"]
  | KMutArrayPtr _ _ => Ret ["*mut c_void"; "usize"]
  | KSliceCmTypes => Ret ["*const *mut c_void"; "usize"]
  | KCmTypesRef | KOwnedString | KVecCmTypes => Panic
  end.

Definition c_ret_type (r : CmRet) : run string :=
  match r with
  | RVoid => Ret ""
  | RPrimitive pk => Ret (" -> " +:+ rust_type pk)
  | ROpaquePtr | RAllocatedArray _ _ _ | RAllocatedString _ => Ret " -> *mut c_void"
  | RCmTypes | ROwnedString => Panic
  end.

Definition c_sym_params (ps : list CmParam) : run (list string) :=
  foldM (λ acc p, let! ts := c_param_types (cp_kind p) in Ret (acc ++ ts)) [] ps.

Definition build_c_sym_type (e : ExportedFn) : run string :=
  let! ps := c_sym_params (ef_cm_params e) in
  let! ret_ty := c_ret_type (ef_cm_ret e) in
  Ret (fmt [tpl "unsafe extern ~C~ fn("; str_join ", " ps; ")"; ret_ty]).

Definition rust_param_type (k : CmParamKind) : run string :=
  match k with
  | KCmTypesRef => Ret "&CmTypes"
  | KPrimitive pk => Ret (rust_type pk)
  | KStrRef => Ret "&str"
  | KOwnedString => Ret "String"
  | KVecCmTypes => Ret "&Vec<CmTypes>"
  | KSliceCmTypes => Ret "&[CmTypes]"
  | KOpaquePtr | KArrayPtr _ _ | KMutArrayPtr _ _ => Panic
  end.

Definition rust_ret_type (r : CmRet) : run string :=
  match r with
  | RVoid => Ret ""
  | RCmTypes => Ret " -> CmTypes"
  | RPrimitive pk => Ret (" -> " +:+ rust_type pk)
  | ROwnedString => Ret " -> String"
  | ROpaquePtr | RAllocatedArray _ _ _ | RAllocatedString _ => Panic
  end.

Definition build_sym_type (e : ExportedFn) : run string :=
  if bool_decide (ef_source_lang e = LangC) then build_c_sym_type e
  else
    let! ps := run_imap (λ _ p, rust_param_type (cp_kind p)) 0 (ef_cm_params e) in
    let! ret_ty := rust_ret_type (ef_cm_ret e) in
    Ret (fmt ["fn("; str_join ", " ps; ")"; ret_ty]).

(** The Rust type of the elements of an array; a structure counts as a pair of [f32]. *)
Definition c_elem_rust_type (c_type : string) : string :=
  let base := trim (trim_start_matches "const" c_type) in
  match base with
  | "float" => "f32"
  | "double" => "f64"
  | "int" | "int32_t" => "i32"
  | "uint32_t" | "unsigned int" => "u32"
  | "int64_t" => "i64"
  | "uint64_t" => "u64"
  | "size_t" | "usize" => "usize"
  | "void" => "[f32; 2]"
  | _ => "[f32; 2]"
  end.

Definition sym_static_name (cm_name : string) : string := to_uppercase cm_name +:+ "_SYM".
Definition wrap_fn_name (cm_name : string) : string := cm_name +:+ "_wrap".

(** [sanitize_ident]: every character but letters, digits and the underscore becomes one. *)
Definition is_alphanumeric (c : ascii) : bool :=
  let n := nat_of_ascii c in
  ((48 <=? n) && (n <=? 57)) || ((65 <=? n) && (n <=? 90)) || ((97 <=? n) && (n <=? 122)).
Fixpoint sanitize_ident (s : string) : string :=
  match s with
  | EmptyString => EmptyString
  | String c s' => String (if is_alphanumeric c || Ascii.eqb c "_" then c else "_"%char) (sanitize_ident s')
  end.

(** ** Kinds, tags and names *)

(** The payload of the variants of 128 bits is behind an [Arc]. *)
Definition is_wide (pk : PrimKind) : bool := match pk with PkI128 | PkU128 => true | _ => false end.

Definition is_variadic (k : CmParamKind) : bool :=
  match k with KVecCmTypes | KSliceCmTypes => true | _ => false end.

Lemma prim_kind_rust_type pk : prim_kind_from_str (rust_type pk) = Some pk.
Proof. by destruct pk. Qed.

Lemma rust_type_inj pk pk' : rust_type pk = rust_type pk' → pk = pk'.
Proof. intros H. apply (f_equal prim_kind_from_str) in H. rewrite !prim_kind_rust_type in H. by injection H. Qed.

Lemma variant_name_inj pk pk' : variant_name pk = variant_name pk' → pk = pk'.
Proof. destruct pk, pk'; cbn; congruence. Qed.

Lemma prim_kind_from_str_inv s pk : prim_kind_from_str s = Some pk → s = rust_type pk.
Proof.
  unfold prim_kind_from_str. intros H. repeat (case_match; try discriminate H); injection H as <-; reflexivity.
Qed.
