(* ===== verification/RustWrapper.v ===== *)
(** The source text of the wrappers of Rust kernels ([tomii-converter/src/lib.rs]): the
    checked wrapper, its unchecked twin, the bulk passthrough, and the same three in the
    form that calls the kernel in its own crate.

    The code repeats the extraction of the arguments in each of these functions; here each
    of the two forms of it, with and without checks, is written once. *)
From S2P Require Import Prelude Text Types Exports.
From stdpp Require Import strings pretty.
From Stdlib Require Import Ascii.
Open Scope string_scope.
Open Scope list_scope.
Open Scope nat_scope.

(** ** Extraction of the arguments *)

(** The arm of one parameter in the checked wrapper. *)
Definition extraction (fn_name_str : string) (i : nat) (p : CmParam) : run string :=
  let name := cp_name p in
  match cp_kind p with
  | KCmTypesRef => Ret ""
  | KPrimitive pk =>
      let variant := variant_name pk in
      Ret (line ["    let "; name; " = match args["; pretty i; "] { CmTypes::"; variant;
                 tpl "(x) => x, _ => panic!(~"; fn_name_str; ": expected "; variant; " for "; name; tpl "~) };"])
  | KStrRef =>
      Ret (line ["    let "; name; "_s = match &args["; pretty i;
                 tpl "] { CmTypes::String(x) => x.to_string(), _ => panic!(~"; fn_name_str; ": expected String for "; name; tpl "~) };"]
           +:+ line ["    let "; name; " = "; name; "_s.as_str();"])
  | KOwnedString =>
      Ret (line ["    let "; name; " = match &args["; pretty i;
                 tpl "] { CmTypes::String(x) => x.to_string(), _ => panic!(~"; fn_name_str; ": expected String for "; name; tpl "~) };"])
  | KVecCmTypes | KSliceCmTypes => Panic
  | KOpaquePtr | KArrayPtr _ _ | KMutArrayPtr _ _ => Panic
  end.

(** The loop over the parameters, which a variadic one ends. *)
Fixpoint extractions (fn_name_str : string) (i : nat) (ps : list CmParam) : run string :=
  match ps with
  | [] => Ret ""
  | p :: ps' =>
      if is_variadic (cp_kind p) then Ret ""
      else
        let! out := extraction fn_name_str i p in
        let! rest := extractions fn_name_str (S i) ps' in
        Ret (out +:+ rest)
  end.

(** The arm of one parameter in the unchecked twin. *)
Definition extraction_unchecked (fn_name_str : string) (i : nat) (p : CmParam) : run string :=
  let name := cp_name p in
  match cp_kind p with
  | KCmTypesRef => Ret ""
  | KPrimitive pk =>
      let variant := variant_name pk in
      Ret (line ["    let "; name; " = match unsafe { args.get_unchecked("; pretty i; ") } { CmTypes::"; variant;
                 tpl "(x) => *x, _ => { debug_assert!(false, ~"; fn_name_str; ": expected "; variant; " for "; name;
                 tpl "~); unsafe { core::hint::unreachable_unchecked() } } };"])
  | KStrRef =>
      Ret (line ["    let "; name; "_s = match unsafe { args.get_unchecked("; pretty i;
                 tpl ") } { CmTypes::String(x) => x.to_string(), _ => { debug_assert!(false, ~"; fn_name_str;
                 ": expected String for "; name; tpl "~); unsafe { core::hint::unreachable_unchecked() } } };"]
           +:+ line ["    let "; name; " = "; name; "_s.as_str();"])
  | KOwnedString =>
      Ret (line ["    let "; name; " = match unsafe { args.get_unchecked("; pretty i;
                 tpl ") } { CmTypes::String(x) => x.to_string(), _ => { debug_assert!(false, ~"; fn_name_str;
                 ": expected String for "; name; tpl "~); unsafe { core::hint::unreachable_unchecked() } } };"])
  | _ => Panic
  end.

(** The position of the variadic parameter. *)
Definition variadic_idx (e : ExportedFn) : option nat :=
  fst <$> list_find (λ p, is_variadic (cp_kind p) = true) (ef_cm_params e).

(** A vector for the variadic parameter; a slice needs no variable. *)
Definition variadic_binding (e : ExportedFn) : run string :=
  match variadic_idx e with
  | None => Ret ""
  | Some vi =>
      let! p := vec_get (ef_cm_params e) vi in
      match cp_kind p with
      | KVecCmTypes => Ret (line ["    let "; cp_name p; ": Vec<CmTypes> = args["; pretty vi; "..].iter().cloned().collect();"])
      | _ => Ret ""
      end
  end.

(** ** The call *)

Definition call_arg (i : nat) (p : CmParam) : run string :=
  match cp_kind p with
  | KCmTypesRef => Ret (fmt ["&args["; pretty i; "]"])
  | KPrimitive _ | KStrRef | KOwnedString => Ret (cp_name p)
  | KVecCmTypes => Ret ("&" +:+ cp_name p)
  | KSliceCmTypes => Ret (fmt ["&args["; pretty i; "..]"])
  | KOpaquePtr | KArrayPtr _ _ | KMutArrayPtr _ _ => Panic
  end.

Definition call_arg_unchecked (i : nat) (p : CmParam) : run string :=
  match cp_kind p with
  | KCmTypesRef => Ret (fmt ["unsafe { args.get_unchecked("; pretty i; ") }"])
  | KPrimitive _ | KStrRef | KOwnedString => Ret (cp_name p)
  | KVecCmTypes => Ret ("&" +:+ cp_name p)
  | KSliceCmTypes => Ret (fmt ["unsafe { args.get_unchecked("; pretty i; "..) }"])
  | KOpaquePtr | KArrayPtr _ _ | KMutArrayPtr _ _ => Panic
  end.

Definition build_rust_sym_call (e : ExportedFn) : run string :=
  let! args := run_imap call_arg 0 (ef_cm_params e) in
  Ret (fmt [sym_static_name (ef_cm_name e); "("; str_join ", " args; ")"]).

Definition build_rust_sym_call_unchecked (e : ExportedFn) : run string :=
  let! args := run_imap call_arg_unchecked 0 (ef_cm_params e) in
  Ret (fmt [sym_static_name (ef_cm_name e); "("; str_join ", " args; ")"]).

Definition build_direct_rust_call (e : ExportedFn) : run string :=
  let! args := run_imap call_arg 0 (ef_cm_params e) in
  Ret (fmt [ef_cm_name e; "("; str_join ", " args; ")"]).

Definition build_direct_rust_call_unchecked (e : ExportedFn) : run string :=
  let! args := run_imap call_arg_unchecked 0 (ef_cm_params e) in
  Ret (fmt [ef_cm_name e; "("; str_join ", " args; ")"]).

(** The end of a wrapper: the call and the value it returns. *)
Definition final_ret (r : CmRet) (call : string) : run string :=
  match r with
  | RVoid => Ret (line ["    "; call; ";"] +:+ line ["    CmTypes::None"])
  | RCmTypes => Ret (line ["    "; call])
  | RPrimitive pk => Ret (line ["    CmTypes::"; variant_name pk; "("; call; ")"])
  | ROwnedString => Ret (line ["    let __result = "; call; ";"]
                         +:+ line ["    CmTypes::String(std::sync::Arc::from(__result.as_str()))"])
  | ROpaquePtr | RAllocatedArray _ _ _ | RAllocatedString _ => Panic
  end.

(** ** Wrappers *)

(** [render_entry_wrapper] of a Rust entry. *)
Definition render_rust_entry_wrapper (e : ExportedFn) : run string :=
  let! sym_type := build_sym_type e in
  let! exts := extractions (ef_cm_name e) 0 (ef_cm_params e) in
  let! binding := variadic_binding e in
  let! call := build_rust_sym_call e in
  let! ret := final_ret (ef_cm_ret e) call in
  Ret (fmt [line ["cache_sym! {"];
            line ["    pub static "; sym_static_name (ef_cm_name e); ": "; sym_type; " = "; tpl "b~"; ef_cm_name e; tpl "~;"];
            line ["}"];
            line ["pub fn "; wrap_fn_name (ef_cm_name e); "(args: &[CmTypes]) -> CmTypes {"];
            exts; binding; ret; line ["}"]]).

(** The head of an unchecked twin: its signature and the assertion of debug builds. *)
Definition unchecked_head (e : ExportedFn) (fixed_params : nat) : string :=
  let wrap_name := wrap_fn_name (ef_cm_name e) in
  fmt [line ["/// Unchecked twin of `"; wrap_name; "` — see `get_unchecked_func` safety contract."];
       line ["pub fn "; wrap_name; "_unchecked(args: &[CmTypes]) -> CmTypes {"];
       if 0 <? fixed_params
       then line ["    debug_assert!(args.len() >= "; pretty fixed_params; tpl ", ~"; ef_cm_name e; tpl ": arg count~);"]
       else ""].

Definition fixed_params (e : ExportedFn) : nat := default (length (ef_cm_params e)) (variadic_idx e).

(** The loop over the parameters before the variadic one. *)
Definition extractions_unchecked (e : ExportedFn) : run string :=
  let! outs := run_imap (extraction_unchecked (ef_cm_name e)) 0 (take (fixed_params e) (ef_cm_params e)) in
  Ret (fmt outs).

Definition render_entry_wrapper_unchecked (e : ExportedFn) : run string :=
  let! exts := extractions_unchecked e in
  let! binding := variadic_binding e in
  let! call := build_rust_sym_call_unchecked e in
  let! ret := final_ret (ef_cm_ret e) call in
  Ret (fmt [unchecked_head e (fixed_params e); exts; binding; ret; line ["}"]]).

Definition bulk_cm_name (e : ExportedFn) : string := ef_registry_key e +:+ "_bulk_cm".
Definition bulk_wrap_name (e : ExportedFn) : string := ef_registry_key e +:+ "_bulk_cm_wrap".

Definition render_bulk_entry_wrapper (e : ExportedFn) : string :=
  let sym_name := to_uppercase (bulk_cm_name e) +:+ "_SYM" in
  fmt [line ["cache_sym! {"];
       line ["    pub static "; sym_name; ": fn(usize, usize, &[CmTypes]) -> CmTypes = "; tpl "b~"; bulk_cm_name e; tpl "~;"];
       line ["}"];
       line ["pub fn "; bulk_wrap_name e; "(start: usize, end: usize, args: &[CmTypes]) -> CmTypes {"];
       line ["    "; sym_name; "(start, end, args)"];
       line ["}"]].

(** ** Wrappers in the crate of the kernels *)

Definition render_self_contained_entry_wrapper (e : ExportedFn) : run string :=
  let! exts := extractions (ef_cm_name e) 0 (ef_cm_params e) in
  let! binding := variadic_binding e in
  let! call := build_direct_rust_call e in
  let! ret := final_ret (ef_cm_ret e) call in
  Ret (fmt [line ["pub fn "; wrap_fn_name (ef_cm_name e); "(args: &[CmTypes]) -> CmTypes {"];
            exts; binding; ret; line ["}"]]).

Definition render_self_contained_entry_wrapper_unchecked (e : ExportedFn) : run string :=
  let! exts := extractions_unchecked e in
  let! binding := variadic_binding e in
  let! call := build_direct_rust_call_unchecked e in
  let! ret := final_ret (ef_cm_ret e) call in
  Ret (fmt [unchecked_head e (fixed_params e); exts; binding; ret; line ["}"]]).

Definition render_self_contained_bulk_entry_wrapper (e : ExportedFn) : string :=
  fmt [line ["pub fn "; bulk_wrap_name e; "(start: usize, end: usize, args: &[CmTypes]) -> CmTypes {"];
       line ["    "; bulk_cm_name e; "(start, end, args)"];
       line ["}"]].
