(* ===== verification/CWrapper.v ===== *)
(** The source text of the wrappers of C functions ([render_c_entry_wrapper] of
    [tomii-converter/src/lib.rs]). *)
From S2P Require Import Prelude Text Types Exports.
From stdpp Require Import strings pretty.
From Stdlib Require Import Ascii.
Open Scope string_scope.
Open Scope list_scope.
Open Scope nat_scope.

(** [ParamExtraction]: the lines before the call, the expressions passed to it, and whether
    the call goes into the closure that borrows the array. *)
Record ParamExtraction := mkExtraction {
  pe_pre_lines : list string;
  pe_call_args : list string;
  pe_is_mut_array : bool;
}.

(** The state of the loop over the parameters: the index of the next argument, a [usize]
    that the variadic parameter sets to its largest value; what was extracted; and the last
    mutable array with its index. *)
Record CScan := mkScan {
  cs_arg_idx : Z;
  cs_extractions : list ParamExtraction;
  cs_mut_array_param : option (Z * CmParam);
}.

Definition usize_max : Z := u64_max.

Definition push_extraction (s : CScan) (x : ParamExtraction) (next : Z) : CScan :=
  mkScan next (cs_extractions s ++ [x]) (cs_mut_array_param s).

Definition c_param_step (e : ExportedFn) (s : CScan) (p : CmParam) : run CScan :=
  let fn_name_str := ef_cm_name e in
  let name := cp_name p in
  let idx := pretty (cs_arg_idx s) in
  let next := as_u64 (cs_arg_idx s + 1) in
  if bool_decide (name ∈ ef_auto_params e) then Ret s
  else match cp_kind p with
  | KPrimitive pk =>
      let variant := variant_name pk in
      let pre := fmt ["    let "; name; " = match args["; idx; "] { CmTypes::"; variant; "(x) => x as "; rust_type pk;
                      tpl ", _ => panic!(~"; fn_name_str; ": expected "; variant; " for "; name; tpl "~) };"] in
      Ret (push_extraction s (mkExtraction [pre] [name] false) next)
  | KStrRef =>
      let pre1 := fmt ["    let "; name; "_s = match &args["; idx; tpl "] { CmTypes::String(x) => x.to_string(), _ => panic!(~";
                       fn_name_str; ": expected String for "; name; tpl "~) };"] in
      let pre2 := fmt ["    let "; name; "_c = CString::new("; name; tpl "_s).unwrap_or_else(|_| CString::new(~~).unwrap());"] in
      Ret (push_extraction s (mkExtraction [pre1; pre2] [name +:+ "_c.as_ptr()"] false) next)
  | KOpaquePtr =>
      let pre := fmt ["    let "; name; "_ptr = args["; idx; tpl "].with_any(|h: &OpaqueHandle| h.0).unwrap_or_else(|| panic!(~";
                      fn_name_str; ": expected OpaqueHandle for "; name; tpl "~));"] in
      Ret (push_extraction s (mkExtraction [pre] [name +:+ "_ptr"] false) next)
  | KArrayPtr c_element_type len =>
      let rt := c_elem_rust_type c_element_type in
      let pre := fmt ["    let ("; name; "_ptr, "; len; ") = args["; idx; "].with_any(|v: &Vec<"; rt;
                      tpl ">| (v.as_ptr() as *const c_void, v.len())).unwrap_or_else(|| panic!(~"; fn_name_str;
                      ": expected Vec<"; rt; "> for "; name; tpl "~));"] in
      Ret (push_extraction s (mkExtraction [pre] [name +:+ "_ptr"; len] false) next)
  | KMutArrayPtr c_element_type len =>
      let rt := c_elem_rust_type c_element_type in
      let pre := fmt ["    let "; len; " = args["; idx; "].with_any(|v: &Vec<"; rt; tpl ">| v.len()).unwrap_or_else(|| panic!(~";
                      fn_name_str; ": expected Vec<"; rt; "> for "; name; tpl "~));"] in
      Ret (mkScan next (cs_extractions s ++ [mkExtraction [pre] ["v.as_mut_ptr() as *mut c_void"; len] true])
                  (Some (cs_arg_idx s, p)))
  | KSliceCmTypes =>
      let pre1 := fmt ["    let mut __handles: Vec<*mut c_void> = Vec::with_capacity(args.len().saturating_sub("; idx; "));"] in
      let pre2 := fmt ["    for __arg in &args["; idx;
                       tpl "..] { let __ptr = __arg.with_any(|h: &OpaqueHandle| h.0).unwrap_or_else(|| panic!(~";
                       fn_name_str; tpl ": variadic: expected OpaqueHandle~)); __handles.push(__ptr); }"] in
      Ret (push_extraction s (mkExtraction [pre1; pre2] ["__handles.as_ptr()"; "__handles.len()"] false) usize_max)
  | KCmTypesRef | KOwnedString | KVecCmTypes => Panic
  end.

Definition c_extractions (e : ExportedFn) : run CScan :=
  foldM (c_param_step e) (mkScan 0 [] None) (ef_cm_params e).

Definition has_mut_array (s : CScan) : bool := existsb pe_is_mut_array (cs_extractions s).

(** The expressions passed to the function: as they were extracted, or, in the closure over
    a mutable array, the array and the length of the last one for every mutable array. *)
Definition all_call_args (s : CScan) : list string := concat (pe_call_args <$> cs_extractions s).

Definition call_args_for_closure (len_param_name : string) (s : CScan) : list string :=
  concat ((λ x, if pe_is_mut_array x then ["v.as_mut_ptr() as *mut c_void"; len_param_name] else pe_call_args x)
          <$> cs_extractions s).

Definition free_fn_of (r : CmRet) : option string :=
  match r with RAllocatedArray _ _ free_fn | RAllocatedString free_fn => free_fn | _ => None end.

Definition free_sym_name (free_fn : string) : string := to_uppercase free_fn +:+ "_SYM".

(** The call and the value it returns, without a mutable array. *)
Definition c_final_ret (r : CmRet) (call_expr : string) : run string :=
  let freed := match free_fn_of r with
               | Some ff => line ["    unsafe { (*"; free_sym_name ff; ")(__raw as *mut c_void) };"]
               | None => ""
               end in
  match r with
  | RVoid => Ret (line ["    unsafe { "; call_expr; "; }"] +:+ line ["    CmTypes::None"])
  | RPrimitive pk => Ret (line ["    let __result = unsafe { "; call_expr; " };"]
                          +:+ line ["    CmTypes::"; variant_name pk; "(__result)"])
  | ROpaquePtr => Ret (line ["    let __raw = unsafe { "; call_expr; " };"]
                       +:+ line ["    CmTypes::from_any(OpaqueHandle(__raw))"])
  | RAllocatedArray c_element_type len_from_param _ =>
      let rt := c_elem_rust_type c_element_type in
      Ret (fmt [line ["    let __raw = unsafe { "; call_expr; " } as *const "; rt; ";"];
                line ["    let __vec: Vec<"; rt; "> = unsafe { std::slice::from_raw_parts(__raw, "; len_from_param; ") }.to_vec();"];
                freed; line ["    CmTypes::from_any(__vec)"]])
  | RAllocatedString _ =>
      Ret (fmt [line ["    let __raw = unsafe { "; call_expr; " } as *const std::ffi::c_char;"];
                line ["    let __s = unsafe { CStr::from_ptr(__raw) }.to_string_lossy().into_owned();"];
                freed; line ["    CmTypes::String(std::sync::Arc::from(__s.as_str()))"]])
  | RCmTypes | ROwnedString => Panic
  end.

(** The call in the closure that borrows the last mutable array; its result is dropped. *)
Definition c_closure_call (e : ExportedFn) (s : CScan) : run string :=
  let! mp := unwrap (cs_mut_array_param s) in
  match cp_kind mp.2 with
  | KMutArrayPtr c_element_type len_param =>
      let call_expr := fmt ["(*"; sym_static_name (ef_cm_name e); ")("; str_join ", " (call_args_for_closure len_param s); ")"] in
      Ret (fmt [line ["    args["; pretty mp.1; "].with_any_mut(|v: &mut Vec<"; c_elem_rust_type c_element_type; ">| {"];
                line ["        unsafe { "; call_expr; "; }"];
                line [tpl "    }).unwrap_or_else(|| panic!(~"; ef_cm_name e; ": expected Vec<[f32;2]> for "; cp_name mp.2; tpl "~));"];
                line ["    CmTypes::None"]])
  | _ => Panic
  end.

Definition render_c_entry_wrapper (e : ExportedFn) : run string :=
  let! sym_type := build_c_sym_type e in
  let free_sym := match free_fn_of (ef_cm_ret e) with
    | Some ff => fmt [line ["cache_sym! {"];
                      line ["    static "; free_sym_name ff; tpl ": unsafe extern ~C~ fn(*mut c_void) = b~"; ff; tpl "\0~;"];
                      line ["}"]]
    | None => ""
    end in
  let! s := c_extractions e in
  let! body :=
    if has_mut_array s then c_closure_call e s
    else c_final_ret (ef_cm_ret e) (fmt ["(*"; sym_static_name (ef_cm_name e); ")("; str_join ", " (all_call_args s); ")"]) in
  Ret (fmt [line ["cache_sym! {"];
            line ["    pub static "; sym_static_name (ef_cm_name e); ": "; sym_type; " = "; tpl "b~"; ef_cm_name e; tpl "\0~;"];
            line ["}"]; free_sym;
            line ["pub fn "; wrap_fn_name (ef_cm_name e); "(args: &[CmTypes]) -> CmTypes {"];
            fmt (fmap (λ l, line [l]) (concat (pe_pre_lines <$> cs_extractions s)));
            body; line ["}"]]).
