(* ===== verification/Render.v ===== *)
(** The generated files ([tomii-converter/src/lib.rs]): [wrappers.rs], [func_reg.rs] and the
    module that is included in the crate of the kernels. *)
From S2P Require Import Prelude Text Types Exports RustWrapper CWrapper.
From stdpp Require Import strings pretty.
From Stdlib Require Import Ascii.
Open Scope string_scope.
Open Scope list_scope.
Open Scope nat_scope.

(** A loop that appends what it renders for each entry. *)
Definition render_each (f : ExportedFn → run string) (entries : list ExportedFn) : run string :=
  let! outs := run_imap (λ _ e, f e) 0 entries in Ret (fmt outs).

(** ** [wrappers.rs] *)

Definition render_entry_wrapper (e : ExportedFn) : run string :=
  if bool_decide (ef_source_lang e = LangC) then render_c_entry_wrapper e else render_rust_entry_wrapper e.

Definition is_c (e : ExportedFn) : bool := bool_decide (ef_source_lang e = LangC).

Definition wrappers_prologue : string := text [
  "static DYN_LIB: LazyLock<Library> = LazyLock::new(|| {";
  "    let path = std::env::var(~PLUGIN_LIB~).expect(~PLUGIN_LIB must be set to your .so/.dll~);";
  "    unsafe { Library::new(path).expect(~Failed to open plugin library~) }";
  "});";
  "";
  "pub fn init_wrappers() {";
  "    LazyLock::force(&DYN_LIB);";
  "}";
  "";
  "macro_rules! cache_sym {";
  "    ($vis:vis static $sym:ident : $typ:ty = $name:expr;) => {";
  "        $vis static $sym: LazyLock<$typ> = LazyLock::new(|| {";
  "            let lib = &*DYN_LIB;";
  "            let sym: Symbol<$typ> =";
  "                unsafe { lib.get($name) }";
  "                    .unwrap_or_else(|e| panic!(~couldn't load symbol {:?}: {}~, $name, e));";
  "            *sym";
  "        });";
  "    };";
  "}";
  ""].

Definition opaque_handle : string := text [
  "#[derive(Debug)]";
  "pub(crate) struct OpaqueHandle(pub *mut c_void);";
  "unsafe impl Send for OpaqueHandle {}";
  "unsafe impl Sync for OpaqueHandle {}";
  ""].

(** The wrapper of an entry, its twin and its bulk wrapper, an empty line after each. *)
Definition render_wrappers_entry (e : ExportedFn) : run string :=
  let! wrapper := render_entry_wrapper e in
  let! twin := match entry_argspec e with
               | Some _ => let! t := render_entry_wrapper_unchecked e in Ret (line [t])
               | None => Ret ""
               end in
  let bulk := if ef_has_bulk_cm e && is_rust e then line [render_bulk_entry_wrapper e] else "" in
  Ret (fmt [line [wrapper]; twin; bulk]).

Definition render_wrappers (entries : list ExportedFn) : run string :=
  let! body := render_each render_wrappers_entry entries in
  Ret (fmt [text ["use libloading::{Library, Symbol};"; "use std::sync::LazyLock;"; "use tomii_types::*;"];
            if existsb is_c entries then text ["use std::ffi::{c_void, CString, CStr};"] else "";
            line []; wrappers_prologue;
            if existsb is_c entries then opaque_handle else "";
            body]).

(** ** [func_reg.rs] *)

(** The arms of the tables: the keys of the entries, with what each table holds for them. *)
Definition func_arm (e : ExportedFn) : string :=
  line ["        "; tpl "~"; ef_registry_key e; tpl "~ => Some("; wrap_fn_name (ef_cm_name e); "),"].

Definition bulk_arm (e : ExportedFn) : string :=
  if ef_has_bulk_cm e && is_rust e
  then line ["        "; tpl "~"; ef_registry_key e; tpl "~ => Some("; bulk_wrap_name e; "),"] else "".

Definition unchecked_arm (e : ExportedFn) : string :=
  match entry_argspec e with
  | Some _ => line ["        "; tpl "~"; ef_registry_key e; tpl "~ => Some("; wrap_fn_name (ef_cm_name e); "_unchecked),"]
  | None => ""
  end.

Definition quoted (s : string) : string := fmt [tpl "~"; s; tpl "~"].

Definition argspec_arm (e : ExportedFn) : string :=
  match entry_argspec e with
  | Some spec => line ["        "; quoted (ef_registry_key e); " => Some(&["; str_join ", " (quoted <$> spec); "]),"]
  | None => ""
  end.

Definition ret_variant_arm (e : ExportedFn) : string :=
  match entry_ret_variant e with
  | Some variant => line ["        "; quoted (ef_registry_key e); " => Some("; quoted variant; "),"]
  | None => ""
  end.

Definition render_registry (entries : list ExportedFn) : string :=
  fmt [text ["use crate::wrappers::*;"; "use tomii_types::*;"; "";
             "pub fn get_func(func_name: &str) -> Option<CmPtr> {"; "    match func_name {"];
       fmt (func_arm <$> entries);
       text ["        _ => {"; "            println!(~Function {} not found in registry~, func_name);";
             "            panic!(~Function not found: {}~, func_name);"; "        }"; "    }"; "}"; "";
             "pub fn get_bulk_func(func_name: &str) -> Option<CmBulkPtr> {"; "    match func_name {"];
       fmt (bulk_arm <$> entries);
       text ["        _ => None,"; "    }"; "}"; "";
             "/// Unchecked twin of `get_func` (P3 Phase B).";
             "///";
             "/// # Safety";
             "///";
             "/// The returned wrapper skips argument variant checks and slice bounds";
             "/// checks.  The caller must guarantee that EVERY invocation passes at";
             "/// least as many arguments as `get_func_argspec(func_name)` lists, with";
             "/// each slot holding exactly the listed variant (~*~ slots accept any";
             "/// variant).  Violations are undefined behaviour in release builds.";
             "pub unsafe fn get_unchecked_func(func_name: &str) -> Option<CmPtr> {"; "    match func_name {"];
       fmt (unchecked_arm <$> entries);
       text ["        _ => None,"; "    }"; "}"; "";
             "/// Per-argument required `CmTypes` variant names for a function's wrapper.";
             "/// ~*~ = any variant accepted; ~...~ = variadic tail (always last).";
             "pub fn get_func_argspec(func_name: &str) -> Option<&'static [&'static str]> {"; "    match func_name {"];
       fmt (argspec_arm <$> entries);
       text ["        _ => None,"; "    }"; "}"; "";
             "/// Variant name of the wrapper's return value, or `None` when the";
             "/// return is opaque (`CmTypes` pass-through) or the function is unknown.";
             "pub fn get_func_ret_variant(func_name: &str) -> Option<&'static str> {"; "    match func_name {"];
       fmt (ret_variant_arm <$> entries);
       text ["        _ => None,"; "    }"; "}"]].

(** ** The module for the crate of the kernels *)

Definition self_contained_entry (e : ExportedFn) : run string :=
  let! wrapper := render_self_contained_entry_wrapper e in
  let! twin := match entry_argspec e with
               | Some _ => let! t := render_self_contained_entry_wrapper_unchecked e in Ret (line [t])
               | None => Ret ""
               end in
  let bulk := if ef_has_bulk_cm e then line [render_self_contained_bulk_entry_wrapper e] else "" in
  Ret (fmt [line [wrapper]; twin; bulk]).

Definition argspec_table (e : ExportedFn) : string :=
  match entry_argspec e with
  | Some spec =>
      fmt [line ["        let argspec_"; sanitize_ident (ef_registry_key e); ": &'static [ExportArgSpec] = Box::leak(Box::new(["];
           fmt ((λ s, line ["            ExportArgSpec { ptr: "; quoted s; ".as_ptr(), len: "; quoted s; ".len() },"]) <$> spec);
           line ["        ]));"]]
  | None => ""
  end.

Definition export_entry (e : ExportedFn) : string :=
  let wrap_name := wrap_fn_name (ef_cm_name e) in
  let ident := sanitize_ident (ef_registry_key e) in
  let '(unchecked_expr, argspec_ptr_expr, argspec_len_expr) :=
    match entry_argspec e with
    | Some _ => (fmt ["Some("; wrap_name; "_unchecked)"], fmt ["argspec_"; ident; ".as_ptr()"], fmt ["argspec_"; ident; ".len()"])
    | None => ("None", "core::ptr::null()", "0")
    end in
  let bulk_expr := if ef_has_bulk_cm e then fmt ["Some("; bulk_wrap_name e; ")"] else "None" in
  let '(ret_ptr_expr, ret_len_expr) :=
    match entry_ret_variant e with
    | Some v => (quoted v +:+ ".as_ptr()", quoted v +:+ ".len()")
    | None => ("core::ptr::null()", "0")
    end in
  let key := quoted (ef_registry_key e) in
  fmt [line ["            ExportEntry {"];
       line ["                name: "; key; ".as_ptr(), name_len: "; key; ".len(),"];
       line ["                wrap: "; wrap_name; ","];
       line ["                unchecked: "; unchecked_expr; ","];
       line ["                bulk: "; bulk_expr; ","];
       line ["                argspec: "; argspec_ptr_expr; ", argspec_len: "; argspec_len_expr; ","];
       line ["                ret_variant: "; ret_ptr_expr; ", ret_variant_len: "; ret_len_expr; ","];
       line ["            },"]].

Definition render_self_contained (entries : list ExportedFn) : run string :=
  let rust_entries := filter (λ e, is_rust e = true) entries in
  let! body := render_each self_contained_entry rust_entries in
  Ret (fmt [text ["use tomii_types::*;"; "use std::sync::OnceLock;"; ""];
            fmt ((λ e, if is_rust e then "" else line ["// skipped C entry: "; ef_cm_name e]) <$> entries);
            body;
            text ["#[no_mangle]";
                  "pub extern ~C~ fn __tomii_exports() -> *const ExportTable {";
                  "    static TABLE_PTR: OnceLock<usize> = OnceLock::new();";
                  "    let p = *TABLE_PTR.get_or_init(|| {"];
            fmt (argspec_table <$> rust_entries);
            text ["        let entries: &'static [ExportEntry] = Box::leak(Box::new(["];
            fmt (export_entry <$> rust_entries);
            text ["        ]));";
                  "        let table: &'static ExportTable = Box::leak(Box::new(ExportTable {";
                  "            abi_version: TOMII_EXPORT_ABI_VERSION,";
                  "            entries: entries.as_ptr(), entries_len: entries.len(),";
                  "        }));";
                  "        (table as *const ExportTable) as usize";
                  "    });";
                  "    p as *const ExportTable";
                  "}"]]).
