(* ===== verification/WrapSem.v ===== *)
(** What the generated wrappers of Rust kernels do.

    A wrapper is a straight line of bindings, a call and a conversion. [wrapper_of] gives it
    as a program, [print_wrapper] its source text, with and without checks, and
    [run_wrapper] its meaning. The text that [RustWrapper] renders is the text of that
    program; for sound entries the checked wrapper calls the kernel with the arguments as
    its parameters ask for them, or panics, and the unchecked twin does the same whenever
    the arguments are as declared. *)
From S2P Require Import Prelude Text Types Exports RustWrapper Tables.
From stdpp Require Import strings pretty.
From Stdlib Require Import Ascii.
Open Scope string_scope.
Open Scope list_scope.
Open Scope nat_scope.

(** ** Programs *)

(** With checks ([args[i]], a panic) or without ([get_unchecked], [unreachable_unchecked]). *)
Inductive mode := Checked | Unchecked.

(** The bindings of a wrapper: the payload of a primitive, the text of a string for a
    parameter, a borrow of that text, the tail of the arguments as a vector. *)
Inductive stmt :=
  | LetPrim (x : string) (i : nat) (pk : PrimKind)
  | LetString (x param : string) (i : nat)
  | LetStr (x y : string)
  | LetVec (x : string) (i : nat).

(** The arguments of the call. *)
Inductive call_expr := EItem (i : nat) | ETail (i : nat) | EVar (x : string) | ERef (x : string).

Record wrapper := mkWrapper { w_body : list stmt; w_call : list call_expr; w_ret : CmRet }.

Definition temp_name (x : string) : string := x +:+ "_s".

Definition stmts_of (i : nat) (p : CmParam) : list stmt :=
  let x := cp_name p in
  match cp_kind p with
  | KPrimitive pk => [LetPrim x i pk]
  | KStrRef => [LetString (temp_name x) x i; LetStr x (temp_name x)]
  | KOwnedString => [LetString x x i]
  | KVecCmTypes => [LetVec x i]
  | _ => []
  end.

Fixpoint body_of (i : nat) (ps : list CmParam) : list stmt :=
  match ps with
  | [] => []
  | p :: ps' => stmts_of i p ++ (if is_variadic (cp_kind p) then [] else body_of (S i) ps')
  end.

Definition call_of (i : nat) (p : CmParam) : call_expr :=
  match cp_kind p with
  | KCmTypesRef => EItem i
  | KSliceCmTypes => ETail i
  | KVecCmTypes => ERef (cp_name p)
  | _ => EVar (cp_name p)
  end.

Definition wrapper_of (e : ExportedFn) : wrapper :=
  mkWrapper (body_of 0 (ef_cm_params e)) (imap call_of (ef_cm_params e)) (ef_cm_ret e).

(** ** Their text *)

(** An element of the arguments that is matched: by value, or, for a string, by reference. *)
Definition item_text (m : mode) (by_ref : string) (i : nat) : string :=
  match m with
  | Checked => fmt [by_ref; "args["; pretty i; "]"]
  | Unchecked => fmt ["unsafe { args.get_unchecked("; pretty i; ") }"]
  end.

Definition mismatch_text (m : mode) (fn variant param : string) : string :=
  match m with
  | Checked => fmt [tpl "_ => panic!(~"; fn; ": expected "; variant; " for "; param; tpl "~) };"]
  | Unchecked => fmt [tpl "_ => { debug_assert!(false, ~"; fn; ": expected "; variant; " for "; param;
                      tpl "~); unsafe { core::hint::unreachable_unchecked() } } };"]
  end.

Definition print_stmt (m : mode) (fn : string) (s : stmt) : string :=
  match s with
  | LetPrim x i pk =>
      line ["    let "; x; " = match "; item_text m "" i; " { CmTypes::"; variant_name pk; "(x) => ";
            match m with Checked => "x" | Unchecked => "*x" end; ", "; mismatch_text m fn (variant_name pk) x]
  | LetString x param i =>
      line ["    let "; x; " = match "; item_text m "&" i; " { CmTypes::String(x) => x.to_string(), ";
            mismatch_text m fn "String" param]
  | LetStr x y => line ["    let "; x; " = "; y; ".as_str();"]
  | LetVec x i => line ["    let "; x; ": Vec<CmTypes> = args["; pretty i; "..].iter().cloned().collect();"]
  end.

Definition print_call_expr (m : mode) (c : call_expr) : string :=
  match c with
  | EItem i => item_text m "&" i
  | ETail i => match m with
               | Checked => fmt ["&args["; pretty i; "..]"]
               | Unchecked => fmt ["unsafe { args.get_unchecked("; pretty i; "..) }"]
               end
  | EVar x => x
  | ERef x => "&" +:+ x
  end.

(** The body of a function [fn] whose kernel is called by the name [callee]. *)
Definition print_wrapper (m : mode) (fn callee : string) (w : wrapper) : run string :=
  let! ret := final_ret (w_ret w) (fmt [callee; "("; str_join ", " (print_call_expr m <$> w_call w); ")"]) in
  Ret (fmt (print_stmt m fn <$> w_body w) +:+ ret).

(** ** Their meaning *)

(** What becomes of a program: a value, a panic, undefined behaviour, or no program at all,
    since the compiler rejects it. *)
Inductive outcome (A : Type) := Fine (a : A) | Panics | Undefined | Rejected.
Arguments Fine {A} a.
Arguments Panics {A}.
Arguments Undefined {A}.
Arguments Rejected {A}.

Definition outcome_bind {A B} (m : outcome A) (k : A → outcome B) : outcome B :=
  match m with Fine a => k a | Panics => Panics | Undefined => Undefined | Rejected => Rejected end.

Notation "'exec!' x ':=' m 'in' k" := (outcome_bind m (λ x, k))
  (at level 10, x pattern, m at level 100, k at level 200) : tomii_scope.

(** The Rust values a wrapper handles: a primitive as the value that holds it, an [Arc] of
    one of 128 bits, [String], [&str], [Vec<CmTypes>] and a reference to it, [&[CmTypes]],
    [&CmTypes], and the results [()] and [CmTypes]. *)
Inductive rval :=
  | VPrim (pk : PrimKind) (v : CmTypes)
  | VArc (pk : PrimKind) (v : CmTypes)
  | VText (s : string)
  | VStr (s : string)
  | VVec (l : list CmTypes)
  | VVecRef (l : list CmTypes)
  | VSlice (l : list CmTypes)
  | VRef (v : CmTypes)
  | VUnit
  | VCm (v : CmTypes).

(** The newest binding of a name is the one it stands for. *)
Fixpoint env_get (env : list (string * rval)) (x : string) : option rval :=
  match env with
  | [] => None
  | (y, v) :: env' => if String.eqb x y then Some v else env_get env' x
  end.

(** What the program does when an argument is not there or not as it should be. *)
Definition wrong {A} (m : mode) : outcome A := match m with Checked => Panics | Unchecked => Undefined end.

Section run.
Context (m : mode) (args : list CmTypes).

(** [args] is the parameter of the wrapper unless a binding hides it. *)
Definition with_args {A} (env : list (string * rval)) (k : outcome A) : outcome A :=
  match env_get env "args" with None => k | Some _ => Rejected end.

Definition item (env : list (string * rval)) (i : nat) : outcome CmTypes :=
  with_args env (match args !! i with Some v => Fine v | None => wrong m end).

Definition run_stmt (env : list (string * rval)) (s : stmt) : outcome (list (string * rval)) :=
  match s with
  | LetPrim x i pk =>
      exec! v := item env i in
      if String.eqb (variant_tag v) (variant_name pk)
      then Fine ((x, if is_wide pk then VArc pk v else VPrim pk v) :: env) else wrong m
  | LetString x _ i =>
      exec! v := item env i in
      match v with CmString t => Fine ((x, VText t) :: env) | _ => wrong m end
  | LetStr x y =>
      match env_get env y with Some (VText t) => Fine ((x, VStr t) :: env) | _ => Rejected end
  | LetVec x i =>
      with_args env (if i <=? length args then Fine ((x, VVec (drop i args)) :: env) else Panics)
  end.

Fixpoint run_body (env : list (string * rval)) (b : list stmt) : outcome (list (string * rval)) :=
  match b with [] => Fine env | s :: b' => exec! env' := run_stmt env s in run_body env' b' end.

Definition run_call_expr (env : list (string * rval)) (c : call_expr) : outcome rval :=
  match c with
  | EItem i => exec! v := item env i in Fine (VRef v)
  | ETail i => with_args env (if i <=? length args then Fine (VSlice (drop i args)) else wrong m)
  | EVar x => match env_get env x with Some v => Fine v | None => Rejected end
  | ERef x => match env_get env x with Some (VVec l) => Fine (VVecRef l) | _ => Rejected end
  end.

Fixpoint run_call_exprs (env : list (string * rval)) (cs : list call_expr) : outcome (list rval) :=
  match cs with
  | [] => Fine []
  | c :: cs' => exec! v := run_call_expr env c in exec! vs := run_call_exprs env cs' in Fine (v :: vs)
  end.
End run.

(** The type of a parameter of the symbol, and of its result. *)
Definition accepts (k : CmParamKind) (v : rval) : bool :=
  match k, v with
  | KCmTypesRef, VRef _ | KStrRef, VStr _ | KOwnedString, VText _ | KVecCmTypes, VVecRef _ | KSliceCmTypes, VSlice _ => true
  | KPrimitive pk, VPrim pk' _ => bool_decide (pk = pk')
  | _, _ => false
  end.

Definition returns (r : CmRet) (v : rval) : bool :=
  match r, v with
  | RVoid, VUnit | RCmTypes, VCm _ | ROwnedString, VText _ => true
  | RPrimitive pk, VPrim pk' v => bool_decide (pk = pk') && String.eqb (variant_tag v) (variant_name pk)
  | _, _ => false
  end.

Fixpoint accepts_all (ks : list CmParamKind) (vs : list rval) : bool :=
  match ks, vs with
  | [], [] => true
  | k :: ks', v :: vs' => accepts k v && accepts_all ks' vs'
  | _, _ => false
  end.

(** The value that the wrapper returns for the result of the symbol. *)
Definition converted (r : CmRet) (v : rval) : outcome CmTypes :=
  match r, v with
  | RVoid, VUnit => Fine CmNone
  | RCmTypes, VCm c => Fine c
  | RPrimitive pk, VPrim _ c => if is_wide pk then Rejected else Fine c
  | ROwnedString, VText s => Fine (CmString s)
  | _, _ => Rejected
  end.

(** A kernel with parameters of the kinds [ks], called by the wrapper [w]. *)
Definition run_wrapper (m : mode) (ks : list CmParamKind) (kernel : list rval → rval) (w : wrapper)
    (args : list CmTypes) : outcome CmTypes :=
  exec! env := run_body m args [] (w_body w) in
  exec! vs := run_call_exprs m args env (w_call w) in
  if accepts_all ks vs then converted (w_ret w) (kernel vs) else Rejected.

Definition param_kinds (e : ExportedFn) : list CmParamKind := cp_kind <$> ef_cm_params e.

Definition run_entry (m : mode) (e : ExportedFn) (kernel : list rval → rval) (args : list CmTypes) : outcome CmTypes :=
  run_wrapper m (param_kinds e) kernel (wrapper_of e) args.

(** ** Sound entries *)

Definition rust_kind (k : CmParamKind) : bool :=
  match k with KOpaquePtr | KArrayPtr _ _ | KMutArrayPtr _ _ => false | _ => true end.
Definition rust_ret (r : CmRet) : bool :=
  match r with ROpaquePtr | RAllocatedArray _ _ _ | RAllocatedString _ => false | _ => true end.
Definition rust_only (e : ExportedFn) : bool := forallb rust_kind (param_kinds e) && rust_ret (ef_cm_ret e).

(** A variadic parameter is the last one. *)
Fixpoint variadic_last (ks : list CmParamKind) : bool :=
  match ks with
  | [] => true
  | [_] => true
  | k :: ks' => negb (is_variadic k) && variadic_last ks'
  end.

(** No parameter and no result is a primitive of 128 bits. *)
Definition narrow_kind (k : CmParamKind) : bool := match k with KPrimitive pk => negb (is_wide pk) | _ => true end.
Definition narrow_ret (r : CmRet) : bool := match r with RPrimitive pk => negb (is_wide pk) | _ => true end.

(** The names that the bindings of a wrapper introduce, in order. *)
Definition bound_names (p : CmParam) : list string :=
  match cp_kind p with
  | KPrimitive _ | KOwnedString | KVecCmTypes => [cp_name p]
  | KStrRef => [temp_name (cp_name p); cp_name p]
  | _ => []
  end.
Definition entry_names (e : ExportedFn) : list string := concat (bound_names <$> ef_cm_params e).

Definition sound_entry (e : ExportedFn) : bool :=
  rust_only e && variadic_last (param_kinds e)
  && forallb narrow_kind (param_kinds e) && narrow_ret (ef_cm_ret e)
  && bool_decide (NoDup (entry_names e)) && bool_decide ("args" ∉ entry_names e).

(** ** What the wrapper promises *)

(** The argument at [i] is as a parameter of kind [k] asks for. *)
Definition arg_ok (args : list CmTypes) (i : nat) (k : CmParamKind) : bool :=
  match k with
  | KPrimitive pk => match args !! i with Some v => String.eqb (variant_tag v) (variant_name pk) | None => false end
  | KStrRef | KOwnedString => match args !! i with Some (CmString _) => true | _ => false end
  | KVecCmTypes | KSliceCmTypes => i <=? length args
  | _ => i <? length args
  end.

(** What the kernel is given for it. *)
Definition arg_val (args : list CmTypes) (i : nat) (k : CmParamKind) : rval :=
  let v := default CmNone (args !! i) in
  match k with
  | KPrimitive pk => VPrim pk v
  | KStrRef => VStr (default "" (as_string v))
  | KOwnedString => VText (default "" (as_string v))
  | KVecCmTypes => VVecRef (drop i args)
  | KSliceCmTypes => VSlice (drop i args)
  | _ => VRef v
  end.

Fixpoint args_ok (args : list CmTypes) (i : nat) (ks : list CmParamKind) : bool :=
  match ks with [] => true | k :: ks' => arg_ok args i k && args_ok args (S i) ks' end.

Definition passed (args : list CmTypes) (i : nat) (ks : list CmParamKind) : list rval :=
  imap (λ j k, arg_val args (i + j) k) ks.
