(* ===== verification/WrapSpec.v ===== *)
(** The wrappers of Rust kernels are what they promise ([WrapSem]): their text is the text
    of their programs, and their programs call the kernel as its parameters ask for. *)
From S2P Require Import Prelude Text Types Exports RustWrapper Tables WrapSem.
From stdpp Require Import strings pretty.
From Stdlib Require Import Ascii.
Open Scope string_scope.
Open Scope list_scope.
Open Scope nat_scope.

(** ** Text *)

(** Both sides as one right-nested concatenation. *)
Ltac same_text := repeat (progress (cbn; rewrite <- ?string_app_assoc)); rewrite ?string_app_nil_r; cbn; reflexivity.

Lemma extraction_text fn i p : rust_kind (cp_kind p) = true → is_variadic (cp_kind p) = false →
  extraction fn i p = Ret (fmt (print_stmt Checked fn <$> stmts_of i p)).
Proof.
  intros Hr Hv. unfold extraction, stmts_of. destruct (cp_kind p); try discriminate; f_equal; unfold line, temp_name; same_text.
Qed.

Lemma extraction_unchecked_text fn i p : rust_kind (cp_kind p) = true → is_variadic (cp_kind p) = false →
  extraction_unchecked fn i p = Ret (fmt (print_stmt Unchecked fn <$> stmts_of i p)).
Proof.
  intros Hr Hv. unfold extraction_unchecked, stmts_of. destruct (cp_kind p); try discriminate; f_equal; unfold line, temp_name; same_text.
Qed.

Lemma call_arg_text i p : rust_kind (cp_kind p) = true → call_arg i p = Ret (print_call_expr Checked (call_of i p)).
Proof. intros Hr. unfold call_arg, call_of. by destruct (cp_kind p). Qed.

Lemma call_arg_unchecked_text i p : rust_kind (cp_kind p) = true →
  call_arg_unchecked i p = Ret (print_call_expr Unchecked (call_of i p)).
Proof. intros Hr. unfold call_arg_unchecked, call_of. by destruct (cp_kind p). Qed.

Lemma run_imap_map {A B} (f : nat → A → run B) (g : nat → A → B) i l :
  (∀ j x, l !! j = Some x → f (i + j) x = Ret (g (i + j) x)) → run_imap f i l = Ret (imap (λ j, g (i + j)) l).
Proof.
  revert i. induction l as [|x l IH]; intros i Hf; cbn; [done|]. pose proof (Hf 0 x) as H0. rewrite Nat.add_0_r in H0.
  rewrite H0 by done. cbn. rewrite (IH (S i)).
  - cbn. rewrite Nat.add_0_r. do 2 f_equal. apply imap_ext. intros j y _. cbn. by rewrite Nat.add_succ_r.
  - intros j y Hy. rewrite Nat.add_succ_l, <- Nat.add_succ_r. by apply Hf.
Qed.

Lemma rust_kinds_lookup ps j p : forallb rust_kind (cp_kind <$> ps) = true → ps !! j = Some p → rust_kind (cp_kind p) = true.
Proof.
  intros Hall Hj. apply (proj1 (forallb_forall _ _) Hall), list_elem_of_In, list_elem_of_fmap. exists p.
  split; [done|]. by apply list_elem_of_lookup_2 in Hj.
Qed.

Lemma fmt_map_app {A} (f : A → string) l1 l2 : fmt (f <$> l1 ++ l2) = fmt (f <$> l1) +:+ fmt (f <$> l2).
Proof. by rewrite fmap_app, fmt_app. Qed.

(** The bindings before a variadic parameter, and those of the parameter itself. *)
Definition fixed_of (ps : list CmParam) : list CmParam :=
  match list_find (λ p, is_variadic (cp_kind p) = true) ps with Some (n, _) => take n ps | None => ps end.

Definition tail_stmts (i : nat) (ps : list CmParam) : list stmt :=
  match list_find (λ p, is_variadic (cp_kind p) = true) ps with Some (n, p) => stmts_of (i + n) p | None => [] end.

Lemma body_of_split i ps : body_of i ps = concat (imap (λ j, stmts_of (i + j)) (fixed_of ps)) ++ tail_stmts i ps.
Proof.
  unfold fixed_of, tail_stmts. revert i. induction ps as [|p ps IH]; intros i; [done|]. cbn [body_of list_find].
  destruct (decide (is_variadic (cp_kind p) = true)) as [Hv|Hv]; [rewrite Hv; cbn; by rewrite app_nil_r, Nat.add_0_r|].
  apply not_true_is_false in Hv. rewrite Hv, IH. clear IH.
  assert (Hext : ∀ l, imap (λ j, stmts_of (S i + j)) l = imap ((λ j, stmts_of (i + j)) ∘ S) l).
  { intros l. apply imap_ext. intros. cbn. by rewrite Nat.add_succ_r. }
  destruct (list_find _ ps) as [[n q]|]; cbn; rewrite ?Nat.add_0_r, <- (assoc_L (++)); do 2 f_equal.
  - by rewrite <- Hext.
  - by rewrite Nat.add_succ_r.
  - by rewrite <- Hext.
Qed.

Lemma extractions_text fn i ps : forallb rust_kind (cp_kind <$> ps) = true →
  extractions fn i ps = Ret (fmt (print_stmt Checked fn <$> concat (imap (λ j, stmts_of (i + j)) (fixed_of ps)))).
Proof.
  unfold fixed_of. revert i. induction ps as [|p ps IH]; intros i Hr; [done|]. cbn in Hr. apply andb_prop in Hr as [Hp Hr].
  cbn [extractions list_find].
  destruct (decide (is_variadic (cp_kind p) = true)) as [Hv|Hv]; [by rewrite Hv|]. apply not_true_is_false in Hv.
  rewrite Hv, (extraction_text fn i p Hp Hv). cbn [run_bind]. rewrite (IH (S i) Hr). cbn [run_bind]. f_equal.
  assert (Hext : ∀ l, imap (λ j, stmts_of (S i + j)) l = imap ((λ j, stmts_of (i + j)) ∘ S) l).
  { intros l. apply imap_ext. intros. cbn. by rewrite Nat.add_succ_r. }
  destruct (list_find _ ps) as [[n q]|]; cbn; rewrite Nat.add_0_r, fmt_map_app; f_equal; by rewrite <- Hext.
Qed.

Lemma fixed_params_take e : take (fixed_params e) (ef_cm_params e) = fixed_of (ef_cm_params e).
Proof. unfold fixed_params, variadic_idx, fixed_of. destruct (list_find _ _) as [[n p]|]; cbn; [done|]. by rewrite take_ge. Qed.

Lemma fixed_of_lookup ps j p : fixed_of ps !! j = Some p → ps !! j = Some p ∧ is_variadic (cp_kind p) = false.
Proof.
  unfold fixed_of. destruct (list_find _ ps) as [[n q]|] eqn:Hf.
  - apply list_find_Some in Hf as (Hn & _ & Hbefore). intros (Hj & Hlt)%lookup_take_Some.
    split; [done|]. by apply not_true_is_false, (Hbefore j).
  - intros Hj. split; [done|]. apply not_true_is_false. apply list_find_None in Hf. by apply (Forall_lookup_1 _ _ _ _ Hf Hj).
Qed.

Lemma extractions_unchecked_text e : forallb rust_kind (param_kinds e) = true →
  extractions_unchecked e = Ret (fmt (print_stmt Unchecked (ef_cm_name e) <$> concat (imap stmts_of (fixed_of (ef_cm_params e))))).
Proof.
  intros Hr. unfold extractions_unchecked. rewrite fixed_params_take.
  rewrite (run_imap_map _ (λ i p, fmt (print_stmt Unchecked (ef_cm_name e) <$> stmts_of i p))).
  - cbn [run_bind]. f_equal. assert (Hgen : ∀ (l : list CmParam) (f : nat → nat),
      fmt (imap (λ i p, fmt (print_stmt Unchecked (ef_cm_name e) <$> stmts_of (f i) p)) l)
      = fmt (print_stmt Unchecked (ef_cm_name e) <$> concat (imap (λ i, stmts_of (f i)) l))).
    { induction l as [|p l IH]; intros f; [done|]. cbn. rewrite fmt_map_app. f_equal. apply (IH (f ∘ S)). }
    apply (Hgen _ id).
  - intros j p [Hj Hv]%fixed_of_lookup. apply extraction_unchecked_text; [by eapply rust_kinds_lookup|done].
Qed.

Lemma variadic_binding_text m e : forallb rust_kind (param_kinds e) = true →
  variadic_binding e = Ret (fmt (print_stmt m (ef_cm_name e) <$> tail_stmts 0 (ef_cm_params e))).
Proof.
  intros Hr. unfold variadic_binding, variadic_idx, tail_stmts. destruct (list_find _ _) as [[n p]|] eqn:Hf; [|done].
  cbn [fmap option_fmap option_map fst]. apply list_find_Some in Hf as (Hn & Hv & _). rewrite (vec_get_lookup _ _ _ Hn). cbn [run_bind].
  unfold stmts_of. rewrite Nat.add_0_l. destruct (cp_kind p); try discriminate; [|done]. cbn [fmap list_fmap fmt print_stmt].
  by rewrite string_app_nil_r.
Qed.

Lemma final_ret_rust r call : rust_ret r = true → ∃ t, final_ret r call = Ret t.
Proof. destruct r; try discriminate; intros _; by eexists. Qed.

Section text.
Context (e : ExportedFn) (Hlang : ef_source_lang e = LangRust) (Hrust : rust_only e = true).

Lemma rust_params : forallb rust_kind (param_kinds e) = true.
Proof. by apply andb_prop in Hrust as [? _]. Qed.

Lemma call_args_text : run_imap call_arg 0 (ef_cm_params e) = Ret (print_call_expr Checked <$> w_call (wrapper_of e)).
Proof.
  rewrite (run_imap_map _ (λ i p, print_call_expr Checked (call_of i p))).
  - f_equal. cbn. by rewrite fmap_imap.
  - intros j p Hj. apply call_arg_text. eapply rust_kinds_lookup; [apply rust_params|done].
Qed.

Lemma call_args_unchecked_text :
  run_imap call_arg_unchecked 0 (ef_cm_params e) = Ret (print_call_expr Unchecked <$> w_call (wrapper_of e)).
Proof.
  rewrite (run_imap_map _ (λ i p, print_call_expr Unchecked (call_of i p))).
  - f_equal. cbn. by rewrite fmap_imap.
  - intros j p Hj. apply call_arg_unchecked_text. eapply rust_kinds_lookup; [apply rust_params|done].
Qed.

(** The bindings, the call and the return of a rendered wrapper are its program's text. *)
Lemma checked_body_text callee k :
  (let! exts := extractions (ef_cm_name e) 0 (ef_cm_params e) in
   let! binding := variadic_binding e in
   let! args := run_imap call_arg 0 (ef_cm_params e) in
   let! ret := final_ret (ef_cm_ret e) (fmt [callee; "("; str_join ", " args; ")"]) in
   Ret (k (exts +:+ binding +:+ ret) : string))
  = let! b := print_wrapper Checked (ef_cm_name e) callee (wrapper_of e) in Ret (k b).
Proof.
  rewrite (extractions_text _ _ _ rust_params). cbn [run_bind]. rewrite (variadic_binding_text Checked e rust_params), call_args_text. cbn [run_bind].
  unfold print_wrapper. cbn [w_ret wrapper_of]. destruct (final_ret _ _); [|done]. cbn [run_bind]. do 2 f_equal.
  cbn [w_body wrapper_of]. by rewrite body_of_split, fmt_map_app, string_app_assoc.
Qed.

Lemma unchecked_body_text callee k :
  (let! exts := extractions_unchecked e in
   let! binding := variadic_binding e in
   let! args := run_imap call_arg_unchecked 0 (ef_cm_params e) in
   let! ret := final_ret (ef_cm_ret e) (fmt [callee; "("; str_join ", " args; ")"]) in
   Ret (k (exts +:+ binding +:+ ret) : string))
  = let! b := print_wrapper Unchecked (ef_cm_name e) callee (wrapper_of e) in Ret (k b).
Proof.
  rewrite (extractions_unchecked_text _ rust_params). cbn [run_bind].
  rewrite (variadic_binding_text Unchecked e rust_params), call_args_unchecked_text. cbn [run_bind].
  unfold print_wrapper. cbn [w_ret wrapper_of]. destruct (final_ret _ _); [|done]. cbn [run_bind]. do 2 f_equal.
  cbn [w_body wrapper_of]. by rewrite body_of_split, fmt_map_app, string_app_assoc.
Qed.
End text.

(** ** Meaning *)

Lemma env_get_app a b x : env_get (a ++ b) x = match env_get a x with Some v => Some v | None => env_get b x end.
Proof. induction a as [|[y v] a IH]; cbn; [done|]. by destruct (String.eqb x y). Qed.

Lemma env_get_None env x : env_get env x = None ↔ x ∉ env.*1.
Proof.
  induction env as [|[y v] env IH]; cbn; [split; [by intros _ ?%not_elem_of_nil|done]|].
  rewrite not_elem_of_cons. destruct (String.eqb x y) eqn:Hxy.
  - apply String.eqb_eq in Hxy. split; [done|]. by intros [? _].
  - apply String.eqb_neq in Hxy. rewrite IH. tauto.
Qed.

Lemma run_body_app m args env a b :
  run_body m args env (a ++ b) = exec! env' := run_body m args env a in run_body m args env' b.
Proof. revert env. induction a as [|s a IH]; intros env; cbn; [done|]. destruct (run_stmt _ _ _ _); cbn; auto. Qed.

Section semantics.
Context (m : mode) (args : list CmTypes).

(** Whether the bindings of a parameter succeed, and what they bind. *)
Definition bind_ok (i : nat) (k : CmParamKind) : bool :=
  match k with KCmTypesRef | KSliceCmTypes => true | _ => arg_ok args i k end.

Definition bind_val (i : nat) (k : CmParamKind) : rval :=
  match k with KVecCmTypes => VVec (drop i args) | _ => arg_val args i k end.

Definition bind1 (i : nat) (p : CmParam) : list (string * rval) :=
  let x := cp_name p in
  match cp_kind p with
  | KPrimitive _ | KOwnedString | KVecCmTypes => [(x, bind_val i (cp_kind p))]
  | KStrRef => [(x, bind_val i KStrRef); (temp_name x, arg_val args i KOwnedString)]
  | _ => []
  end.

Fixpoint bindings (i : nat) (ps : list CmParam) : list (string * rval) :=
  match ps with [] => [] | p :: ps' => bindings (S i) ps' ++ bind1 i p end.

Fixpoint binds_ok (i : nat) (ps : list CmParam) : bool :=
  match ps with [] => true | p :: ps' => bind_ok i (cp_kind p) && binds_ok (S i) ps' end.

Lemma bind1_names i p : (bind1 i p).*1 = reverse (bound_names p).
Proof. unfold bind1, bound_names. by destruct (cp_kind p). Qed.

Lemma bindings_names i ps x : x ∈ (bindings i ps).*1 ↔ x ∈ concat (bound_names <$> ps).
Proof.
  revert i. induction ps as [|p ps IH]; intros i; cbn; [done|].
  rewrite fmap_app, !elem_of_app, IH, bind1_names, elem_of_reverse. tauto.
Qed.

Definition fine_or_wrong (b : bool) {A} (o : outcome A) (a : A) : Prop :=
  (b = true → o = Fine a) ∧ (m = Checked → b = false → o = Panics).

Lemma fine_or_wrong_bind {A B} b b' (o : outcome A) a (k : A → outcome B) c :
  fine_or_wrong b o a → (b = true → fine_or_wrong b' (k a) c) → fine_or_wrong (b && b') (exec! x := o in k x) c.
Proof.
  intros [H1 H2] Hk. split.
  - intros [Hb Hb']%andb_prop. rewrite (H1 Hb). cbn. by apply Hk.
  - intros Hm. destruct b; cbn; [|by rewrite (H2 Hm)]. intros Hb'. rewrite H1 by done. cbn. by apply Hk.
Qed.

Lemma wrong_checked {A} : m = Checked → @wrong A m = Panics.
Proof. by intros ->. Qed.

Lemma eqb_refl_string (x : string) : String.eqb x x = true.
Proof. apply String.eqb_refl. Qed.

(** The bindings of one parameter. *)
Lemma stmts_spec env i p : env_get env "args" = None → "args" ∉ bound_names p →
  rust_kind (cp_kind p) = true → narrow_kind (cp_kind p) = true →
  fine_or_wrong (bind_ok i (cp_kind p)) (run_body m args env (stmts_of i p)) (bind1 i p ++ env).
Proof.
  intros Henv Hx Hr Hn. unfold stmts_of, bind1, bound_names, bind_ok, bind_val, arg_ok, arg_val in *.
  destruct (cp_kind p) as [|pk| | | | | | |]; try discriminate; cbn [run_body run_stmt app]; unfold item, with_args; rewrite ?Henv.
  - by split.
  - destruct (args !! i) as [v|]; cbn; [|split; [done|by intros ->%wrong_checked]].
    destruct (String.eqb _ _); cbn; [|split; [done|by intros ->%wrong_checked]].
    cbn in Hn. apply negb_true_iff in Hn. rewrite Hn. by split.
  - destruct (args !! i) as [[]|]; cbn; rewrite ?eqb_refl_string; (split; [done|by try (intros ->%wrong_checked)]).
  - destruct (args !! i) as [[]|]; cbn; (split; [done|by try (intros ->%wrong_checked)]).
  - destruct (i <=? length args); cbn; by split.
  - by split.
Qed.

Lemma body_spec env i ps : env_get env "args" = None → "args" ∉ concat (bound_names <$> ps) →
  forallb rust_kind (cp_kind <$> ps) = true → forallb narrow_kind (cp_kind <$> ps) = true →
  variadic_last (cp_kind <$> ps) = true →
  fine_or_wrong (binds_ok i ps) (run_body m args env (body_of i ps)) (bindings i ps ++ env).
Proof.
  revert env i. induction ps as [|p ps IH]; intros env i Henv Hx Hr Hn Hv; [by split|].
  cbn in Hr, Hn, Hx. apply andb_prop in Hr as [Hrp Hr], Hn as [Hnp Hn]. apply not_elem_of_app in Hx as [Hxp Hx].
  cbn [binds_ok body_of bindings]. rewrite run_body_app, <- (assoc_L (++)).
  eapply fine_or_wrong_bind; [by apply stmts_spec|]. intros _. destruct (is_variadic (cp_kind p)) eqn:Hvp.
  - destruct ps as [|q ps]; [|cbn in Hv; by rewrite Hvp in Hv]. by split.
  - apply IH; try done.
    + rewrite env_get_app. destruct (env_get (bind1 i p) "args") as [v|] eqn:Hg; [|done].
      exfalso. apply Hxp. assert (Hin : "args" ∈ (bind1 i p).*1) by (apply dec_stable; intros Hno%env_get_None; congruence).
      by rewrite bind1_names, elem_of_reverse in Hin.
    + destruct ps; [done|]. cbn in Hv. by rewrite Hvp in Hv.
Qed.

Lemma bindings_get i ps j p : NoDup (concat (bound_names <$> ps)) → ps !! j = Some p → cp_name p ∈ bound_names p →
  env_get (bindings i ps) (cp_name p) = Some (bind_val (i + j) (cp_kind p)).
Proof.
  revert i j. induction ps as [|q ps IH]; intros i j Hnd Hj Hin; [done|]. cbn [fmap list_fmap concat] in Hnd.
  apply NoDup_app in Hnd as (_ & Hdisj & Hnd). cbn [bindings]. rewrite env_get_app. destruct j as [|j].
  - injection Hj as ->. rewrite (proj2 (env_get_None _ _)) by (rewrite bindings_names; by apply Hdisj).
    rewrite Nat.add_0_r. unfold bind1, bound_names in *.
    destruct (cp_kind p); cbn; rewrite ?eqb_refl_string; try done; by apply not_elem_of_nil in Hin.
  - cbn in Hj. rewrite (IH (S i) j Hnd Hj Hin). by rewrite Nat.add_succ_l, Nat.add_succ_r.
Qed.

(** The arguments of the call. *)
Lemma call_spec env i p : env_get env "args" = None → rust_kind (cp_kind p) = true →
  (cp_name p ∈ bound_names p → env_get env (cp_name p) = Some (bind_val i (cp_kind p))) →
  bind_ok i (cp_kind p) = true →
  fine_or_wrong (arg_ok args i (cp_kind p)) (run_call_expr m args env (call_of i p)) (arg_val args i (cp_kind p)).
Proof.
  intros Henv Hr Hg Hb. unfold call_of, bound_names, bind_ok, bind_val in *.
  destruct (cp_kind p) as [|pk| | | | | | |]; try discriminate; cbn [run_call_expr]; unfold item, with_args; rewrite ?Henv;
    try (rewrite Hg by set_solver; split; [done|congruence]).
  - cbn [arg_ok arg_val]. destruct (args !! i) as [v|] eqn:Hi; cbn [outcome_bind default from_option].
    + apply lookup_lt_Some in Hi. rewrite (proj2 (Nat.ltb_lt _ _) Hi). by split.
    + apply lookup_ge_None in Hi. rewrite (proj2 (Nat.ltb_ge _ _) Hi). split; [done|by intros ->%wrong_checked].
  - cbn. destruct (i <=? length args); [by split|]. split; [done|by intros ->%wrong_checked].
Qed.

Lemma calls_spec env i ps : 
  (∀ j p, ps !! j = Some p →
     fine_or_wrong (arg_ok args (i + j) (cp_kind p)) (run_call_expr m args env (call_of (i + j) p)) (arg_val args (i + j) (cp_kind p))) →
  fine_or_wrong (args_ok args i (cp_kind <$> ps)) (run_call_exprs m args env (imap (λ j, call_of (i + j)) ps)) (passed args i (cp_kind <$> ps)).
Proof.
  revert i. induction ps as [|p ps IH]; intros i Hall; [by split|]. cbn [fmap list_fmap args_ok imap run_call_exprs].
  unfold passed. cbn [imap]. pose proof (Hall 0 p eq_refl) as H0. rewrite Nat.add_0_r in *.
  eapply fine_or_wrong_bind; [exact H0|]. intros _. rewrite <- (andb_true_r (args_ok _ _ _)).
  eapply fine_or_wrong_bind; [|by split]. specialize (IH (S i)). unfold passed in IH.
  rewrite (imap_ext _ (λ j, call_of (S i + j)) ps), (imap_ext _ (λ j k, arg_val args (S i + j) k) (cp_kind <$> ps)); [apply IH| |].
  - intros j q Hq. rewrite Nat.add_succ_l, <- Nat.add_succ_r. by apply Hall.
  - intros j q _. cbn. by rewrite Nat.add_succ_r.
  - intros j q _. cbn. by rewrite Nat.add_succ_r.
Qed.

Lemma args_binds_ok i ps : args_ok args i (cp_kind <$> ps) = true → binds_ok i ps = true.
Proof.
  revert i. induction ps as [|p ps IH]; intros i; [done|]. cbn. intros [Hp Hps]%andb_prop. rewrite (IH _ Hps), andb_true_r.
  unfold bind_ok. by destruct (cp_kind p).
Qed.

Lemma accepts_passed i ks : forallb rust_kind ks = true → forallb narrow_kind ks = true → accepts_all ks (passed args i ks) = true.
Proof.
  revert i. induction ks as [|k ks IH]; intros i Hr Hn; [done|]. cbn in Hr, Hn. apply andb_prop in Hr as [Hr1 Hr], Hn as [Hn1 Hn].
  unfold passed. cbn [imap accepts_all]. apply andb_true_iff. split.
  - destruct k; try discriminate; cbn; by rewrite ?bool_decide_eq_true_2.
  - specialize (IH (S i) Hr Hn). unfold passed in IH.
    rewrite (imap_ext _ (λ j k, arg_val args (S i + j) k) ks); [done|]. intros j q _. cbn. by rewrite Nat.add_succ_r.
Qed.
End semantics.

(** ** Sound entries *)

Lemma sound_entry_parts e : sound_entry e = true →
  rust_only e = true ∧ variadic_last (param_kinds e) = true ∧ forallb narrow_kind (param_kinds e) = true
  ∧ narrow_ret (ef_cm_ret e) = true ∧ NoDup (entry_names e) ∧ "args" ∉ entry_names e.
Proof.
  unfold sound_entry. intros [[[[[? ?]%andb_prop ?]%andb_prop ?]%andb_prop ?%bool_decide_eq_true]%andb_prop ?%bool_decide_eq_true]%andb_prop.
  done.
Qed.

Lemma converted_fine r v : narrow_ret r = true → returns r v = true → ∃ c, converted r v = Fine c.
Proof.
  destruct r; try discriminate; cbn; intros Hn Hv.
  all: destruct v; try discriminate Hv; try by eexists. apply negb_true_iff in Hn. rewrite Hn. by eexists.
Qed.

(** With or without checks, the program does its work when the arguments are as declared;
    with checks it panics otherwise. *)
Lemma run_entry_spec m e kernel args : sound_entry e = true →
  (args_ok args 0 (param_kinds e) = true →
     run_entry m e kernel args = converted (ef_cm_ret e) (kernel (passed args 0 (param_kinds e))))
  ∧ (m = Checked → args_ok args 0 (param_kinds e) = false → run_entry m e kernel args = Panics).
Proof.
  intros (Hr & Hv & Hn & _ & Hnd & Hx)%sound_entry_parts. apply andb_prop in Hr as [Hr _].
  unfold run_entry, run_wrapper, wrapper_of. cbn [w_body w_call w_ret]. unfold param_kinds, entry_names in *.
  set (ps := ef_cm_params e) in *.
  destruct (body_spec m args [] 0 ps eq_refl Hx Hr Hn Hv) as [Hfine Hwrong]. rewrite app_nil_r in Hfine.
  destruct (binds_ok args 0 ps) eqn:Hb.
  - rewrite Hfine by done. cbn [outcome_bind].
    assert (Henv : env_get (bindings args 0 ps) "args" = None) by (apply env_get_None; by rewrite bindings_names).
    change (imap call_of ps) with (imap (λ j, call_of (0 + j)) ps).
    destruct (calls_spec m args (bindings args 0 ps) 0 ps) as [Hok Hbad].
    { intros j p Hj. apply call_spec; [done|by eapply rust_kinds_lookup|by apply bindings_get|].
      clear -Hb Hj. revert Hb Hj. generalize 0 as i. revert j. induction ps as [|q qs IH]; intros j i Hb Hj; [done|].
      cbn in Hb. apply andb_prop in Hb as [Hq Hqs]. destruct j as [|j]; [injection Hj as ->; by rewrite Nat.add_0_r|].
      rewrite Nat.add_succ_r, <- Nat.add_succ_l. by apply IH. }
    split.
    + intros Ha. rewrite Hok by done. cbn [outcome_bind]. by rewrite accepts_passed.
    + intros Hm Ha. by rewrite Hbad.
  - split; [intros Ha%args_binds_ok; congruence|]. intros Hm _. by rewrite Hwrong.
Qed.

(** The function around the body of a checked wrapper, with the symbol it calls. *)
Definition wrapper_text (e : ExportedFn) (sym_type body : string) : string :=
  fmt [line ["cache_sym! {"];
       line ["    pub static "; sym_static_name (ef_cm_name e); ": "; sym_type; " = "; tpl "b~"; ef_cm_name e; tpl "~;"];
       line ["}"];
       line ["pub fn "; wrap_fn_name (ef_cm_name e); "(args: &[CmTypes]) -> CmTypes {"];
       body; line ["}"]].

Lemma sym_type_rust e : ef_source_lang e = LangRust → rust_only e = true → ∃ t, build_sym_type e = Ret t.
Proof.
  intros Hl [Hr Hret]%andb_prop. unfold build_sym_type. rewrite bool_decide_eq_false_2 by congruence.
  destruct (run_imap_total (λ (_ : nat) p, rust_param_type (cp_kind p)) 0 (ef_cm_params e)) as [ps ->].
  { intros i p Hi. apply (rust_kinds_lookup _ _ _ Hr) in Hi. destruct (cp_kind p); try discriminate; by eexists. }
  destruct (ef_cm_ret e); try discriminate; by eexists.
Qed.

Lemma print_wrapper_total m e callee : rust_only e = true → ∃ t, print_wrapper m (ef_cm_name e) callee (wrapper_of e) = Ret t.
Proof.
  intros [_ Hret]%andb_prop. unfold print_wrapper. cbn [w_ret wrapper_of].
  edestruct (final_ret_rust (ef_cm_ret e)) as [t ->]; [done|]. by eexists.
Qed.

Lemma rust_wrapper_text e sym_type body : ef_source_lang e = LangRust → rust_only e = true →
  build_sym_type e = Ret sym_type →
  print_wrapper Checked (ef_cm_name e) (sym_static_name (ef_cm_name e)) (wrapper_of e) = Ret body →
  render_rust_entry_wrapper e = Ret (wrapper_text e sym_type body).
Proof.
  intros Hl Hr Hs Hb. unfold render_rust_entry_wrapper, build_rust_sym_call. rewrite Hs. cbn [run_bind].
  pose proof (checked_body_text e Hr (sym_static_name (ef_cm_name e)) (wrapper_text e sym_type)) as Ht.
  rewrite Hb in Ht. cbn [run_bind] in Ht. rewrite <- Ht.
  destruct (extractions _ _ _); [|done]. destruct (variadic_binding e); [|done].
  destruct (run_imap _ _ _); [|done]. cbn [run_bind]. destruct (final_ret _ _); [|done]. cbn [run_bind]. f_equal.
  unfold wrapper_text. cbn [fmt]. by rewrite <- !string_app_assoc.
Qed.

Lemma unchecked_wrapper_text e body : rust_only e = true →
  print_wrapper Unchecked (ef_cm_name e) (sym_static_name (ef_cm_name e)) (wrapper_of e) = Ret body →
  render_entry_wrapper_unchecked e = Ret (fmt [unchecked_head e (fixed_params e); body; line ["}"]]).
Proof.
  intros Hr Hb. unfold render_entry_wrapper_unchecked, build_rust_sym_call_unchecked.
  pose proof (unchecked_body_text e Hr (sym_static_name (ef_cm_name e))
    (λ b, fmt [unchecked_head e (fixed_params e); b; line ["}"]])) as Ht.
  rewrite Hb in Ht. cbn [run_bind] in Ht. rewrite <- Ht.
  destruct (extractions_unchecked _); [|done]. destruct (variadic_binding e); [|done].
  destruct (run_imap _ _ _); [|done]. cbn [run_bind]. destruct (final_ret _ _); [|done]. cbn [run_bind]. f_equal.
  cbn [fmt]. by rewrite <- !string_app_assoc.
Qed.

(** C20. For a sound Rust entry the converter renders, without a panic, a wrapper and its
    unchecked twin whose source texts are the texts of one program. Run with checks on any
    arguments, that program gives the kernel the values its parameters ask for, in their
    order, and returns its result as a dynamic value, when every argument is there and of
    the right variant; otherwise it panics. Run without checks it does the
    same on such arguments. *)
Theorem wrapper_spec e kernel (Hlang : ef_source_lang e = LangRust) (Hs : sound_entry e = true)
    (Hk : ∀ vs, returns (ef_cm_ret e) (kernel vs) = true) :
  ∃ sym_type body body_u,
    render_rust_entry_wrapper e = Ret (wrapper_text e sym_type body)
    ∧ render_entry_wrapper_unchecked e = Ret (fmt [unchecked_head e (fixed_params e); body_u; line ["}"]])
    ∧ print_wrapper Checked (ef_cm_name e) (sym_static_name (ef_cm_name e)) (wrapper_of e) = Ret body
    ∧ print_wrapper Unchecked (ef_cm_name e) (sym_static_name (ef_cm_name e)) (wrapper_of e) = Ret body_u
    ∧ ∀ args, let vs := passed args 0 (param_kinds e) in
        (args_ok args 0 (param_kinds e) = true → ∃ c, converted (ef_cm_ret e) (kernel vs) = Fine c
           ∧ run_entry Checked e kernel args = Fine c ∧ run_entry Unchecked e kernel args = Fine c)
        ∧ (args_ok args 0 (param_kinds e) = false → run_entry Checked e kernel args = Panics).
Proof.
  pose proof (sound_entry_parts e Hs) as (Hr & _ & _ & Hn & _).
  destruct (sym_type_rust e Hlang Hr) as [sym_type Hsym].
  destruct (print_wrapper_total Checked e (sym_static_name (ef_cm_name e)) Hr) as [body Hb].
  destruct (print_wrapper_total Unchecked e (sym_static_name (ef_cm_name e)) Hr) as [body_u Hu].
  exists sym_type, body, body_u. split; [by apply rust_wrapper_text|]. split; [by apply unchecked_wrapper_text|].
  split; [done|]. split; [done|]. intros args vs. split; intros Ha.
  - destruct (converted_fine (ef_cm_ret e) (kernel vs) Hn (Hk vs)) as [c Hc]. exists c. split; [done|].
    rewrite <- Hc. split; by apply run_entry_spec.
  - by apply run_entry_spec.
Qed.

(** A kernel of three fixed parameters and a variadic one. *)
Definition demo_entry : ExportedFn :=
  mkExported "kern_cm" "kern"
    [mkParam "data" KCmTypesRef; mkParam "n" (KPrimitive PkUsize); mkParam "name" KStrRef; mkParam "rest" KSliceCmTypes]
    (RPrimitive PkUsize) (Some "Usize") LangRust [] false.

(** It returns the number of the remaining arguments. *)
Definition demo_kernel (vs : list rval) : rval :=
  VPrim PkUsize (CmUsize (match vs !! 3 with Some (VSlice l) => length l | _ => 0 end)).

Lemma demo_kernel_returns vs : returns (ef_cm_ret demo_entry) (demo_kernel vs) = true.
Proof. unfold demo_kernel. by destruct (vs !! 3) as [[]|]. Qed.

Lemma wrapper_spec_witness :
  run_entry Checked demo_entry demo_kernel [CmNone; CmUsize 7; CmString "x"; CmU8 1; CmU8 2] = Fine (CmUsize 2)
  ∧ run_entry Unchecked demo_entry demo_kernel [CmNone; CmUsize 7; CmString "x"; CmU8 1; CmU8 2] = Fine (CmUsize 2)
  ∧ run_entry Checked demo_entry demo_kernel [CmNone; CmU64 7; CmString "x"] = Panics.
Proof.
  destruct (wrapper_spec demo_entry demo_kernel eq_refl eq_refl demo_kernel_returns) as (_ & _ & _ & _ & _ & _ & _ & H).
  destruct (proj1 (H [CmNone; CmUsize 7; CmString "x"; CmU8 1; CmU8 2]) eq_refl) as (c & Hc & H1 & H2).
  vm_compute in Hc. injection Hc as <-. split; [exact H1|]. split; [exact H2|].
  apply (proj2 (H [CmNone; CmU64 7; CmString "x"]) eq_refl).
Defined.

(** ** Entries whose wrappers do not compile *)

(** The value of the 128-bit variants is an [Arc], which no parameter of the symbol takes. *)
Theorem wide_parameter_rejected kernel z :
  run_entry Checked (mkExported "k_cm" "k" [mkParam "x" (KPrimitive PkI128)] RCmTypes None LangRust [] false) kernel [CmI128 z] = Rejected.
Proof. reflexivity. Qed.

(** The temporary of the parameter [a] of type [&str] hides the parameter [a_s]. *)
Theorem temporary_hides_parameter kernel n s :
  run_entry Checked (mkExported "k_cm" "k" [mkParam "a_s" (KPrimitive PkUsize); mkParam "a" KStrRef] RCmTypes None LangRust [] false)
    kernel [CmUsize n; CmString s] = Rejected.
Proof. reflexivity. Qed.

(** A parameter called [args] hides the arguments from the parameters after it. *)
Theorem args_parameter_rejected kernel n s :
  run_entry Checked (mkExported "k_cm" "k" [mkParam "args" (KPrimitive PkUsize); mkParam "b" KStrRef] RCmTypes None LangRust [] false)
    kernel [CmUsize n; CmString s] = Rejected.
Proof. reflexivity. Qed.

(** The parameters after a variadic one are not bound. *)
Theorem parameter_after_variadic_rejected kernel n :
  run_entry Checked (mkExported "k_cm" "k" [mkParam "rest" KSliceCmTypes; mkParam "n" (KPrimitive PkUsize)] RCmTypes None LangRust [] false)
    kernel [CmUsize n; CmUsize n] = Rejected.
Proof. reflexivity. Qed.
