(* ===== verification/Signature.v ===== *)
(** The exported functions of a Rust source ([tomii-converter/src/lib.rs]): how the converter
    reads a signature.

    The syntax trees come from the package [syn]. The types below have the cases and the
    fields that the code distinguishes: a path with its segments, a reference, a slice, and
    every other type. The text of the tokens of an attribute is the class [TokenText]. *)
From S2P Require Import Prelude WorkerRange Values Text Types Exports.
From stdpp Require Import strings.
From Stdlib Require Import Ascii.
Open Scope string_scope.
Open Scope list_scope.
Open Scope nat_scope.

(** ** Syntax *)

Inductive Ty :=
  | TyPath (qself : bool) (segments : list PathSegment)
  | TyReference (mutability : bool) (elem : Ty)
  | TySlice (elem : Ty)
  | TyOther (shape : nat)
with PathSegment := mkSegment (ps_ident : string) (ps_arguments : PathArguments)
with PathArguments :=
  | PaNone
  | PaAngleBracketed (args : list GenericArgument)
  | PaParenthesized
with GenericArgument :=
  | GaType (t : Ty)
  | GaOther.

Definition seg_ident (s : PathSegment) : string := let '(mkSegment i _) := s in i.
Definition seg_arguments (s : PathSegment) : PathArguments := let '(mkSegment _ a) := s in a.

Inductive TokenTree := TtIdent (s : string) | TtOther (s : string).
Inductive Meta := MetaPath | MetaList (tokens : list TokenTree) | MetaNameValue.
Record Attribute := mkAttribute { at_path : list string; at_meta : Meta }.

Inductive Pat := PatIdent (ident : string) | PatOther.
Inductive FnArg := FaReceiver | FaTyped (pat : Pat) (ty : Ty).
Inductive ReturnType := RtDefault | RtType (ty : Ty).

Record ItemFn := mkItemFn {
  if_attrs : list Attribute;
  if_ident : string;
  if_inputs : list FnArg;
  if_output : ReturnType;
}.

(** A module has a body in the file ([inline]) or in another one. *)
Inductive Item := ItFn (f : ItemFn) | ItMod (ident : string) (inline : bool) | ItOther.
Definition File : Type := list Item.

(** [TokenStream::to_string]. *)
Class TokenText := tokens_to_string : list TokenTree → string.

(** ** Types *)

Definition type_path_ident (ty : Ty) : option string :=
  match ty with
  | TyPath false [s] => Some (seg_ident s)
  | TyPath false segments => seg_ident <$> last segments
  | _ => None
  end.

(** [path.segments.len() == 1 && path.segments[0].ident == name] on a path without a
    qualified self. *)
Definition is_single_path (name : string) (ty : Ty) : bool :=
  match ty with TyPath false [s] => String.eqb (seg_ident s) name | _ => false end.

Definition names_cm_types (ty : Ty) : bool :=
  match type_path_ident ty with Some n => String.eqb n "CmTypes" | None => false end.

(** The argument is the type behind the reference. *)
Definition ref_is_str (elem : Ty) : bool := is_single_path "str" elem.
Definition ref_is_cm_types (elem : Ty) : bool := names_cm_types elem.
Definition ref_is_slice_cm_types (elem : Ty) : bool :=
  match elem with TySlice t => names_cm_types t | _ => false end.
Definition ref_is_vec_cm_types (elem : Ty) : bool :=
  match elem with
  | TyPath false [mkSegment "Vec" (PaAngleBracketed [GaType inner])] => names_cm_types inner
  | _ => false
  end.

(** ** Parameters and results of a [_cm] function, read off its signature *)

Definition classify_cm_param (ty : Ty) : CmParamKind :=
  match ty with
  | TyReference _ r =>
      if ref_is_str r then KStrRef
      else if ref_is_cm_types r then KCmTypesRef
      else if ref_is_slice_cm_types r then KSliceCmTypes
      else if ref_is_vec_cm_types r then KVecCmTypes
      else KCmTypesRef
  | TyPath _ _ =>
      let name := default "" (type_path_ident ty) in
      match prim_kind_from_str name with
      | Some pk => KPrimitive pk
      | None => if String.eqb name "String" then KOwnedString
                else if String.eqb name "CmTypes" then KCmTypesRef else KCmTypesRef
      end
  | _ => KCmTypesRef
  end.

Definition classify_cm_return (ret : ReturnType) : CmRet :=
  match ret with
  | RtDefault => RVoid
  | RtType ty =>
      let name := default "" (type_path_ident ty) in
      if String.eqb name "CmTypes" then RCmTypes
      else if String.eqb name "String" then ROwnedString
      else match prim_kind_from_str name with Some pk => RPrimitive pk | None => RCmTypes end
  end.

(** ** The same, inferred from the signature of an exported function *)

Definition infer_cm_param_kind (ty : Ty) : CmParamKind :=
  match ty with
  | TyReference _ r => if ref_is_str r then KStrRef else KCmTypesRef
  | TyPath _ _ =>
      let name := default "" (type_path_ident ty) in
      if is_primitive_ident name || String.eqb name "String" then
        if String.eqb name "String" then KOwnedString
        else match prim_kind_from_str name with Some pk => KPrimitive pk | None => KCmTypesRef end
      else KCmTypesRef
  | _ => KCmTypesRef
  end.

(** The companion that the macro generates returns [CmTypes], whatever the function does. *)
Definition infer_cm_return (ret : ReturnType) : CmRet :=
  match ret with RtDefault => RCmTypes | RtType _ => RCmTypes end.

Definition ret_hint_from_original (ret : ReturnType) : option string :=
  match ret with
  | RtDefault => Some "None"
  | RtType ty =>
      name ← type_path_ident ty;
      match prim_kind_from_str name with
      | Some pk => Some (variant_name pk)
      | None => if String.eqb name "String" then Some "String"
                else if String.eqb name "CmTypes" then None else Some "Any"
      end
  end.

(** ** Attributes *)

(** The last segment of the path is the name. *)
Definition attr_is (name : string) (a : Attribute) : bool :=
  match last (at_path a) with Some s => String.eqb s name | None => false end.

Definition has_attr (attrs : list Attribute) (name : string) : bool := existsb (attr_is name) attrs.

Section attributes.
Context `{TokenText}.

(** [#[tomii_export(...)]] with a word in the text of its tokens. *)
Definition export_mentions (word : string) (a : Attribute) : bool :=
  attr_is "tomii_export" a
  && match at_meta a with MetaList tokens => contains_str word (tokens_to_string tokens) | _ => false end.

Definition has_variadic_export (attrs : list Attribute) : bool := existsb (export_mentions "variadic") attrs.
Definition has_bulk_export (attrs : list Attribute) : bool := existsb (export_mentions "bulk") attrs.

(** ** Functions *)

Definition extract_param_name (arg : FnArg) : option string :=
  match arg with FaTyped (PatIdent i) _ => Some i | _ => None end.
Definition extract_param_type (arg : FnArg) : option Ty :=
  match arg with FaTyped _ ty => Some ty | _ => None end.

Definition extract_params (kind : Ty → CmParamKind) (inputs : list FnArg) : list CmParam :=
  omap (λ arg, name ← extract_param_name arg; ty ← extract_param_type arg; Some (mkParam name (kind ty))) inputs.

(** The last parameter becomes the variadic one. *)
Fixpoint make_last_slice (ps : list CmParam) : list CmParam :=
  match ps with
  | [] => []
  | [p] => [mkParam (cp_name p) KSliceCmTypes]
  | p :: ps' => p :: make_last_slice ps'
  end.

Definition try_extract (func : ItemFn) : option ExportedFn :=
  let no_mangle := has_attr (if_attrs func) "no_mangle" in
  let tomii_export := has_attr (if_attrs func) "tomii_export" in
  let fn_name := if_ident func in
  if negb no_mangle && negb tomii_export then None
  else if no_mangle then
    let registry_key := default fn_name (Values.strip_suffix "_cm" fn_name) in
    let cm_ret := classify_cm_return (if_output func) in
    Some (mkExported fn_name registry_key (extract_params classify_cm_param (if_inputs func)) cm_ret
            (ret_hint_from_cm_ret cm_ret) LangRust [] false)
  else if tomii_export then
    let cm_params := extract_params infer_cm_param_kind (if_inputs func) in
    Some (mkExported (fn_name +:+ "_cm") fn_name
            (if has_variadic_export (if_attrs func) then make_last_slice cm_params else cm_params)
            (infer_cm_return (if_output func)) (ret_hint_from_original (if_output func)) LangRust [] false)
  else None.

(** ** Files *)

Definition file_fns (file : File) : list ItemFn := omap (λ it, match it with ItFn f => Some f | _ => None end) file.

Definition no_mangle_names (file : File) : list string :=
  if_ident <$> filter (λ f, has_attr (if_attrs f) "no_mangle" = true) (file_fns file).
Definition bulk_export_keys (file : File) : list string :=
  if_ident <$> filter (λ f, has_attr (if_attrs f) "tomii_export" && has_bulk_export (if_attrs f) = true) (file_fns file).
Definition tomii_export_cm_names (file : File) : list string :=
  (λ f, if_ident f +:+ "_cm") <$> filter (λ f, has_attr (if_attrs f) "tomii_export" = true) (file_fns file).

Definition set_has_bulk (b : bool) (e : ExportedFn) : ExportedFn :=
  mkExported (ef_cm_name e) (ef_registry_key e) (ef_cm_params e) (ef_cm_ret e) (ef_ret_variant_hint e)
    (ef_source_lang e) (ef_auto_params e) b.

(** Whether an entry has a bulk companion: in the file, and not the companion of another
    exported function, or because the function asks for one. *)
Definition bulk_companion (file : File) (e : ExportedFn) : bool :=
  let bulk_cm_sym := ef_registry_key e +:+ "_bulk_cm" in
  (bool_decide (bulk_cm_sym ∈ no_mangle_names file) && negb (bool_decide (bulk_cm_sym ∈ tomii_export_cm_names file)))
  || bool_decide (ef_registry_key e ∈ bulk_export_keys file).

Definition collect_entries (file : File) : list ExportedFn :=
  (λ e, set_has_bulk (bulk_companion file e) e) <$> omap try_extract (file_fns file).

(** [collect_entries_recursive]. The file of a module is looked for beside the file that
    names it, so that the directory is that of the first file throughout: [modules] is what
    is read and parsed there. [None] when the fuel does not suffice. *)
Definition external_mods (file : File) : list string :=
  omap (λ it, match it with ItMod m false => Some m | _ => None end) file.

Fixpoint collect_entries_recursive (fuel : nat) (modules : string → option File) (file : File) : option (list ExportedFn) :=
  match fuel with
  | 0 => None
  | S fuel' =>
      foldl (λ acc m,
        entries ← acc;
        match modules m with
        | Some ast => more ← collect_entries_recursive fuel' modules ast; Some (entries ++ more)
        | None => Some entries
        end) (Some (collect_entries file)) (external_mods file)
  end.
End attributes.
