(* ===== verification/Companion.v ===== *)
(** The companions that the macro [tomii_export] generates ([tomii-macro/src/lib.rs]): the
    type-erased function [_cm] and the bulk function [_bulk_cm], by their parts: the
    signature, how each parameter is reached, the call, and what becomes of its result. *)
From S2P Require Import Prelude WorkerRange Values Text Types Exports Signature.
From stdpp Require Import strings.
From Stdlib Require Import Ascii.
Open Scope string_scope.
Open Scope list_scope.
Open Scope nat_scope.

(** ** Attributes *)

Definition is_ident (word : string) (t : TokenTree) : bool :=
  match t with TtIdent s => String.eqb s word | TtOther _ => false end.
Definition has_variadic_attr (attr : list TokenTree) : bool := existsb (is_ident "variadic") attr.
Definition has_bulk_attr (attr : list TokenTree) : bool := existsb (is_ident "bulk") attr.

(** ** Classification *)

Definition is_primitive_or_string (ty : Ty) : bool :=
  match ty with
  | TyPath false [s] => is_primitive_ident (seg_ident s) || String.eqb (seg_ident s) "String"
  | _ => false
  end.

Definition vec_element_type (ty : Ty) : option Ty :=
  match ty with TyPath false [mkSegment "Vec" (PaAngleBracketed [GaType elem_ty])] => Some elem_ty | _ => None end.

Inductive ParamKind :=
  | Passthrough
  | SharedRef (ty : Ty)
  | MutRef (ty : Ty)
  | OwnedNonPrim (ty : Ty)
  | Variadic (ty : Ty).

Definition classify (ty : Ty) : ParamKind :=
  match ty with
  | TyReference mutability elem =>
      if ref_is_str elem then Passthrough else if mutability : bool then MutRef elem else SharedRef elem
  | other => if is_primitive_or_string other then Passthrough else OwnedNonPrim other
  end.

Inductive RetKind :=
  | RkVoid
  | RkPrimitive (variant : string)
  | RkStringOwned
  | RkCmTypesDirect
  | RkOther.

Definition classify_return (ty : Ty) : RetKind :=
  match ty with
  | TyPath false [s] =>
      match prim_kind_from_str (seg_ident s) with
      | Some pk => RkPrimitive (variant_name pk)
      | None => if String.eqb (seg_ident s) "String" then RkStringOwned
                else if String.eqb (seg_ident s) "CmTypes" then RkCmTypesDirect else RkOther
      end
  | TyPath false segments =>
      match last segments with
      | Some s => if String.eqb (seg_ident s) "CmTypes" then RkCmTypesDirect else RkOther
      | None => RkOther
      end
  | _ => RkOther
  end.

Definition ret_kind (ret : ReturnType) : RetKind :=
  match ret with RtDefault => RkVoid | RtType ty => classify_return ty end.

(** ** The companion *)

(** The types of its parameters: as declared, [&CmTypes], or [&[CmTypes]]. *)
Inductive CompanionTy := CtOriginal (ty : Ty) | CtCmTypes | CtCmTypesSlice.

(** How a closure reaches the object of a parameter: [with_any], [with_any_mut], or
    [with_any] with a clone. *)
Inductive Access := AcShared (ty : Ty) | AcMut (ty : Ty) | AcClone (ty : Ty).

Definition access_of (k : ParamKind) : option Access :=
  match k with
  | SharedRef ty => Some (AcShared ty)
  | MutRef ty => Some (AcMut ty)
  | OwnedNonPrim ty => Some (AcClone ty)
  | Passthrough | Variadic _ => None
  end.

Record Param := mkMacroParam { mp_name : string; mp_orig_ty : Ty; mp_kind : ParamKind }.

(** [co_variadic]: the variadic parameter, the type of its elements, and whether they are
    taken straight out of the numeric variants; [co_closures], from the outermost one in,
    with the message of a failed access; [co_call], the arguments of the call. *)
Record Companion := mkCompanion {
  co_name : string;
  co_params : list (string * CompanionTy);
  co_variadic : option (string * Ty * bool);
  co_closures : list (string * Access * string);
  co_call : list string;
  co_ret : RetKind;
}.

Definition macro_params (inputs : list FnArg) : list Param :=
  omap (λ arg, match arg with
               | FaTyped (PatIdent i) ty => Some (mkMacroParam i ty (classify ty))
               | _ => None
               end) inputs.

(** The last parameter of a variadic function is a vector. *)
Fixpoint make_last_variadic (ps : list Param) : run (list Param) :=
  match ps with
  | [] => Ret []
  | [p] => match vec_element_type (mp_orig_ty p) with
           | Some elem_ty => Ret [mkMacroParam (mp_name p) (mp_orig_ty p) (Variadic elem_ty)]
           | None => Panic
           end
  | p :: ps' => let! ps'' := make_last_variadic ps' in Ret (p :: ps'')
  end.

Definition companion_ty (p : Param) : CompanionTy :=
  match mp_kind p with Passthrough => CtOriginal (mp_orig_ty p) | Variadic _ => CtCmTypesSlice | _ => CtCmTypes end.

(** The element types of the numeric variants: the primitives but [char]. *)
Definition is_numeric (elem_ty : Ty) : bool :=
  match elem_ty with
  | TyPath false [s] => match prim_kind_from_str (seg_ident s) with Some PkChar | None => false | Some _ => true end
  | _ => false
  end.

Definition variadic_of (ps : list Param) : option (string * Ty * bool) :=
  match list_find (λ p, match mp_kind p with Variadic _ => true | _ => false end = true) ps with
  | Some (_, p) => match mp_kind p with Variadic t => Some (mp_name p, t, is_numeric t) | _ => None end
  | None => None
  end.

Definition closures_of (fn_name : string) (ps : list Param) : list (string * Access * string) :=
  omap (λ p, a ← access_of (mp_kind p); Some (mp_name p, a, fmt [fn_name; ": failed to access "; mp_name p])) ps.

Definition build_companion (func : ItemFn) (variadic : bool) : run Companion :=
  let fn_name := if_ident func in
  let! params := if variadic then make_last_variadic (macro_params (if_inputs func)) else Ret (macro_params (if_inputs func)) in
  Ret (mkCompanion (fn_name +:+ "_cm") ((λ p, (mp_name p, companion_ty p)) <$> params) (variadic_of params)
         (closures_of fn_name params) (mp_name <$> params) (ret_kind (if_output func))).

(** ** The bulk companion *)

(** A parameter with the position of its argument; the index of the instance has none. *)
Record BulkParam := mkBulkParam { bp_param : Param; bp_arg_slot : option nat }.

Definition is_index_param (name : string) : bool :=
  match name with "idx" | "index" | "i" => true | _ => false end.

Fixpoint bulk_params (slot : nat) (ps : list Param) : list BulkParam :=
  match ps with
  | [] => []
  | p :: ps' =>
      if is_index_param (mp_name p) then mkBulkParam p None :: bulk_params slot ps'
      else mkBulkParam p (Some slot) :: bulk_params (S slot) ps'
  end.

(** [bc_extractions]: the primitives and strings taken before the loop, [bc_closures] the
    closures around it, both with the position of their argument; [bc_call], the arguments
    of the call in the loop, where [None] is the index of the instance. *)
Record BulkCompanion := mkBulkCompanion {
  bc_name : string;
  bc_extractions : list (string * Ty * nat);
  bc_closures : list (string * Access * nat * string);
  bc_call : list (option string);
}.

Definition build_bulk_companion (func : ItemFn) : BulkCompanion :=
  let fn_name := if_ident func in
  let params := bulk_params 0 (macro_params (if_inputs func)) in
  mkBulkCompanion (fn_name +:+ "_bulk_cm")
    (omap (λ b, s ← bp_arg_slot b;
                match mp_kind (bp_param b) with
                | Passthrough => Some (mp_name (bp_param b), mp_orig_ty (bp_param b), s)
                | _ => None
                end) params)
    (omap (λ b, s ← bp_arg_slot b; a ← access_of (mp_kind (bp_param b));
                Some (mp_name (bp_param b), a, s, fmt [fn_name; "_bulk_cm: failed to access "; mp_name (bp_param b)])) params)
    ((λ b, match bp_arg_slot b with None => None | Some _ => Some (mp_name (bp_param b)) end) <$> params).

(** The expansion of the attribute: the function itself, its companion, and the bulk one. *)
Definition tomii_export (attr : list TokenTree) (func : ItemFn) : run (ItemFn * Companion * option BulkCompanion) :=
  let variadic := has_variadic_attr attr in
  let bulk := has_bulk_attr attr in
  let! companion := build_companion func variadic in
  Ret (func, companion, if bulk then Some (build_bulk_companion func) else None).
