(* ===== verification/SignatureSpec.v ===== *)
(** The converter and the macro read a signature alike: the symbol that a generated wrapper
    calls has the type of the companion that the macro generates, and the variant the
    registry names for its result is the one the companion returns. Also: where the two
    readings differ, the entries of a file, the walk through its modules, and the positions
    of the arguments of a bulk companion. *)
From S2P Require Import Prelude WorkerRange Values Text Types Tables Exports Signature Companion RustWrapper CWrapper Render WrapSem WrapSpec.
From stdpp Require Import strings.
From Stdlib Require Import Ascii.
Open Scope string_scope.
Open Scope list_scope.
Open Scope nat_scope.

(** ** Types that both read alike *)

(** Not a longer path to a primitive or [String], and not [&mut str]. *)
Definition plain (ty : Ty) : bool :=
  match ty with
  | TyPath false [_] => true
  | TyPath false segments =>
      match last segments with
      | Some s => negb (is_primitive_ident (seg_ident s) || String.eqb (seg_ident s) "String")
      | None => true
      end
  | TyReference mutability elem => negb (ref_is_str elem && mutability)
  | _ => true
  end.

Definition plain_ret (ret : ReturnType) : bool := match ret with RtDefault => true | RtType ty => plain ty end.

(** A parameter that the converter takes for one of kind [k] has the type [t]. *)
Definition kind_matches (k : CmParamKind) (t : CompanionTy) : bool :=
  match k, t with
  | KCmTypesRef, CtCmTypes | KSliceCmTypes, CtCmTypesSlice => true
  | KPrimitive pk, CtOriginal ty => is_single_path (rust_type pk) ty
  | KStrRef, CtOriginal (TyReference false elem) => ref_is_str elem
  | KOwnedString, CtOriginal ty => is_single_path "String" ty
  | _, _ => false
  end.

(** The variant that the companion wraps a result in, when it is the same for all. *)
Definition ret_tag (k : RetKind) : option string :=
  match k with
  | RkVoid => Some "None"
  | RkPrimitive v => Some v
  | RkStringOwned => Some "String"
  | RkCmTypesDirect => None
  | RkOther => Some "Any"
  end.

Lemma long_path_ident s t l : type_path_ident (TyPath false (s :: t :: l)) = seg_ident <$> last (s :: t :: l).
Proof. reflexivity. Qed.

Lemma long_path_plain s t l : plain (TyPath false (s :: t :: l)) = true →
  ∃ n, type_path_ident (TyPath false (s :: t :: l)) = Some n ∧ is_primitive_ident n = false ∧ String.eqb n "String" = false.
Proof.
  rewrite long_path_ident. unfold plain. destruct (last (s :: t :: l)) as [u|] eqn:Hl.
  - intros [? ?]%negb_true_iff%orb_false_iff. by exists (seg_ident u).
  - by apply last_None in Hl.
Qed.

Lemma infer_matches x ty : plain ty = true →
  kind_matches (infer_cm_param_kind ty) (companion_ty (mkMacroParam x ty (classify ty))) = true.
Proof.
  intros Hp. unfold companion_ty. cbn [mp_kind mp_orig_ty]. destruct ty as [[] segments|mutability elem|elem|n]; try reflexivity.
  - destruct segments as [|s [|t l]]; [reflexivity| |].
    + unfold infer_cm_param_kind, classify, is_primitive_or_string. cbn [type_path_ident].
      change (default "" (Some (seg_ident s))) with (seg_ident s). unfold is_primitive_ident.
      destruct (prim_kind_from_str (seg_ident s)) as [pk|] eqn:Hk; cbn [orb].
      * apply prim_kind_from_str_inv in Hk. rewrite Hk. destruct pk; cbn; rewrite Hk; reflexivity.
      * destruct (String.eqb (seg_ident s) "String") eqn:Hs; [exact Hs|reflexivity].
    + destruct (long_path_plain s t l Hp) as (n & Hn & Hprim & Hstr). unfold infer_cm_param_kind. rewrite Hn.
      change (default "" (Some n)) with n. rewrite Hprim, Hstr. reflexivity.
  - unfold infer_cm_param_kind, classify. cbn in Hp. destruct (ref_is_str elem) eqn:Hs; [|by destruct mutability].
    destruct mutability; [done|exact Hs].
Qed.

Lemma hint_matches ret tag : plain_ret ret = true → ret_hint_from_original ret = Some tag → ret_tag (ret_kind ret) = Some tag.
Proof.
  destruct ret as [|ty]; [by intros _ [= <-]|]. cbn [plain_ret ret_hint_from_original ret_kind]. intros Hp.
  destruct ty as [[] segments|m elem|elem|n]; try done. destruct segments as [|s [|t l]]; [done| |].
  - cbn. destruct (prim_kind_from_str (seg_ident s)); [done|]. destruct (String.eqb _ "String"); [done|].
    by destruct (String.eqb _ "CmTypes").
  - destruct (long_path_plain s t l Hp) as (n & Hn & Hprim & Hstr). rewrite Hn. cbn [mbind option_bind].
    unfold is_primitive_ident in Hprim. destruct (prim_kind_from_str n); [done|]. rewrite Hstr.
    rewrite long_path_ident in Hn. unfold classify_return. destruct (last (s :: t :: l)) as [u|]; [|done].
    injection Hn as ->. by destruct (String.eqb n "CmTypes").
Qed.

(** ** The companion of an entry *)

Definition same_param (p : CmParam) (q : Param) : Prop :=
  cp_name p = mp_name q ∧ kind_matches (cp_kind p) (companion_ty q) = true.

Lemma params_match inputs : (∀ arg ty, arg ∈ inputs → extract_param_type arg = Some ty → plain ty = true) →
  Forall2 same_param (extract_params infer_cm_param_kind inputs) (macro_params inputs).
Proof.
  unfold extract_params, macro_params. induction inputs as [|[|[x|] ty] inputs IH]; intros Hp; [constructor|..]; cbn.
  - apply IH. intros arg ty Hin. apply Hp. by right.
  - constructor; [|apply IH; intros arg ty' Hin; apply Hp; by right]. split; [done|].
    apply infer_matches. by eapply (Hp (FaTyped (PatIdent x) ty)); [left|].
  - apply IH. intros arg ty' Hin. apply Hp. by right.
Qed.

Lemma last_matches ps qs qs' : Forall2 same_param ps qs → make_last_variadic qs = Ret qs' → Forall2 same_param (make_last_slice ps) qs'.
Proof.
  intros Hall. revert qs'. induction Hall as [|p q ps qs Hpq Hall IH]; intros qs'; [by intros [= <-]|].
  destruct qs as [|q1 qs], ps as [|p1 ps]; try by inversion Hall.
  - cbn. destruct (vec_element_type _); [|done]. intros [= <-]. constructor; [|done]. split; [apply Hpq|done].
  - change (make_last_variadic (q :: q1 :: qs)) with (let! l := make_last_variadic (q1 :: qs) in Ret (q :: l)).
    intros (l & Hl & [= <-])%run_bind_Ret. change (make_last_slice (p :: p1 :: ps)) with (p :: make_last_slice (p1 :: ps)).
    constructor; [done|]. by apply IH.
Qed.

Lemma inferred_rust ty : rust_kind (infer_cm_param_kind ty) = true ∧ is_variadic (infer_cm_param_kind ty) = false.
Proof. unfold infer_cm_param_kind. repeat case_match; done. Qed.

Lemma inferred_kinds inputs : Forall (λ p, rust_kind (cp_kind p) = true ∧ is_variadic (cp_kind p) = false) (extract_params infer_cm_param_kind inputs).
Proof.
  unfold extract_params. induction inputs as [|[|[x|] ty] inputs IH]; cbn; try done. constructor; [apply inferred_rust|done].
Qed.

Lemma slice_last ps : Forall (λ p, rust_kind (cp_kind p) = true ∧ is_variadic (cp_kind p) = false) ps →
  forallb rust_kind (cp_kind <$> make_last_slice ps) = true ∧ variadic_last (cp_kind <$> make_last_slice ps) = true.
Proof.
  induction 1 as [|p ps [Hr Hv] Hall IH]; [done|]. destruct ps as [|q ps]; [done|].
  change (make_last_slice (p :: q :: ps)) with (p :: make_last_slice (q :: ps)). cbn [fmap list_fmap forallb].
  destruct IH as [IH1 IH2]. rewrite Hr, IH1. split; [done|].
  assert (Hne : ∃ r rs, make_last_slice (q :: ps) = r :: rs) by (destruct ps; cbn; by eexists _, _).
  destruct Hne as (r & rs & Hne). rewrite Hne in *. cbn in *. by rewrite Hv.
Qed.

Lemma plain_last ps : Forall (λ p, rust_kind (cp_kind p) = true ∧ is_variadic (cp_kind p) = false) ps →
  forallb rust_kind (cp_kind <$> ps) = true ∧ variadic_last (cp_kind <$> ps) = true.
Proof.
  induction 1 as [|p ps [Hr Hv] Hall [IH1 IH2]]; [done|]. cbn [fmap list_fmap forallb]. rewrite Hr, IH1. split; [done|].
  destruct ps; [done|]. cbn in *. by rewrite Hv.
Qed.

Section entries.
Context `{TokenText}.

(** The tokens in the parentheses of an attribute. *)
Definition attr_tokens (a : Attribute) : list TokenTree := match at_meta a with MetaList tokens => tokens | _ => [] end.

(** The forms of the attribute: bare, with one of its words, or with both. *)
Definition export_form (attr : list TokenTree) : Prop :=
  attr = [] ∨ ∃ s, s ∈ ["variadic"; "bulk"] ∧ (attr = [TtIdent s] ∨ ∃ s', s' ∈ ["variadic"; "bulk"] ∧ attr = [TtIdent s; TtOther ","; TtIdent s']).

(** How a stream of tokens is printed: an identifier as it is, a list with or without a space before the comma. *)
Record prints_tokens : Prop := {
  pt_nil : tokens_to_string [] = "";
  pt_ident : ∀ s, tokens_to_string [TtIdent s] = s;
  pt_pair : ∀ s s', tokens_to_string [TtIdent s; TtOther ","; TtIdent s'] = s +:+ ", " +:+ s'
                    ∨ tokens_to_string [TtIdent s; TtOther ","; TtIdent s'] = s +:+ " , " +:+ s';
}.

Lemma existsb_filter {A} (f g : A → bool) l : existsb (λ x, f x && g x) l = existsb g (filter (λ x, f x = true) l).
Proof. induction l as [|x l IH]; [done|]. cbn [existsb]. rewrite filter_cons, IH. by destruct (f x). Qed.

(** Both read [variadic] alike in an attribute of one of these forms. *)
Lemma variadic_read attrs a : prints_tokens → filter (λ x, attr_is "tomii_export" x = true) attrs = [a] → at_meta a ≠ MetaNameValue →
  export_form (attr_tokens a) → has_variadic_export attrs = has_variadic_attr (attr_tokens a).
Proof.
  intros [Hn Hi Hp] Hone Hno Hform. unfold has_variadic_export, export_mentions. rewrite existsb_filter, Hone. cbn [existsb]. rewrite orb_false_r.
  unfold attr_tokens in *. destruct (at_meta a) as [|tokens|]; [done| |done].
  destruct Hform as [->|(s & Hs & [->|(s' & Hs' & ->)])]; [by rewrite Hn| |].
  - rewrite Hi. set_unfold in Hs. by destruct Hs as [->|[->|[]]].
  - set_unfold in Hs. set_unfold in Hs'. by destruct (Hp s s') as [-> | ->], Hs as [->|[->|[]]], Hs' as [->|[->|[]]].
Qed.

(** C27. The converter and the macro agree on an exported function: one that is not [no_mangle],
    has one export attribute, bare or with the words [variadic] and [bulk], and whose parameter
    and result types are plain, which excludes longer paths to a primitive or to [String], and
    [&mut str]. If the macro generates a companion, the entry of the converter names it, every
    parameter of the symbol type has the type of the companion's parameter in the same place,
    the entry may be rendered (its kinds are those of Rust entries, and only a last parameter is
    variadic), and a variant registered for the result is the one in which the companion wraps
    it. *)
Theorem companion_has_symbol_type func a co (Htext : prints_tokens)
    (Hexport : filter (λ x, attr_is "tomii_export" x = true) (if_attrs func) = [a]) (Hraw : has_attr (if_attrs func) "no_mangle" = false)
    (Hmeta : at_meta a ≠ MetaNameValue) (Hform : export_form (attr_tokens a))
    (Hplain : ∀ arg ty, arg ∈ if_inputs func → extract_param_type arg = Some ty → plain ty = true)
    (Hret : plain_ret (if_output func) = true)
    (Hco : build_companion func (has_variadic_attr (attr_tokens a)) = Ret co) :
  ∃ e, try_extract func = Some e ∧ ef_registry_key e = if_ident func ∧ ef_source_lang e = LangRust
    ∧ ef_cm_name e = co_name co ∧ ef_cm_ret e = RCmTypes
    ∧ Forall2 (λ p q, cp_name p = q.1 ∧ kind_matches (cp_kind p) q.2 = true) (ef_cm_params e) (co_params co)
    ∧ rust_only e = true ∧ variadic_last (param_kinds e) = true
    ∧ ∀ tag, ef_ret_variant_hint e = Some tag → ret_tag (co_ret co) = Some tag.
Proof.
  assert (Hhas : has_attr (if_attrs func) "tomii_export" = true).
  { unfold has_attr. apply existsb_exists. exists a. assert (Hin : a ∈ filter (λ x, attr_is "tomii_export" x = true) (if_attrs func)) by (rewrite Hexport; left).
    apply list_elem_of_filter in Hin as [? ?]. split; [by apply list_elem_of_In|done]. }
  assert (Hword : has_variadic_export (if_attrs func) = has_variadic_attr (attr_tokens a)).
  by apply variadic_read.
  revert Hword Hco. generalize (attr_tokens a). intros attr Hword Hco.
  unfold try_extract. rewrite Hhas, Hraw. cbn [negb andb]. eexists. split; [reflexivity|].
  cbn [ef_registry_key ef_source_lang ef_cm_name ef_cm_ret ef_cm_params ef_ret_variant_hint].
  unfold build_companion in Hco. rewrite Hword. pose proof (params_match _ Hplain) as Hpm.
  pose proof (inferred_kinds (if_inputs func)) as Hk.
  assert (Hout : infer_cm_return (if_output func) = RCmTypes) by (by destruct (if_output func)).
  apply run_bind_Ret in Hco as (params & Hparams & [= <-]). cbn [co_name co_params co_ret].
  split; [done|]. split; [done|]. split; [done|]. split; [done|].
  assert (Hall : Forall2 same_param
    (if has_variadic_attr attr then make_last_slice (extract_params infer_cm_param_kind (if_inputs func))
     else extract_params infer_cm_param_kind (if_inputs func)) params).
  { destruct (has_variadic_attr attr); [by eapply last_matches|by injection Hparams as <-]. }
  split; [apply Forall2_fmap_r; eapply Forall2_impl; [exact Hall|]; intros p q [? ?]; done|].
  unfold rust_only, param_kinds. cbn [ef_cm_params ef_cm_ret]. rewrite Hout. cbn [rust_ret]. rewrite andb_true_r.
  assert (Hkinds := if has_variadic_attr attr as b return
    (forallb rust_kind (cp_kind <$> (if b then make_last_slice (extract_params infer_cm_param_kind (if_inputs func)) else _)) = true
     ∧ variadic_last (cp_kind <$> (if b then make_last_slice (extract_params infer_cm_param_kind (if_inputs func)) else _)) = true)
    then slice_last _ Hk else plain_last _ Hk).
  destruct Hkinds as [Hk1 Hk2]. split; [exact Hk1|]. split; [exact Hk2|]. intros tag. by apply hint_matches.
Qed.
End entries.

(** ** A function of the plugin *)

(** The tokens of an attribute with a space between them. *)
#[local] Instance spaced_tokens : TokenText :=
  λ ts, match ts with
        | [] => ""
        | t :: ts => let text t := match t with TtIdent s => s | TtOther s => s end in text t +:+ fmt ((λ t, " " +:+ text t) <$> ts)
        end.

Lemma spaced_prints : prints_tokens.
Proof.
  split; [reflexivity| |].
  - intros s. cbn. apply string_app_nil_r.
  - intros s s'. right. cbn. by rewrite string_app_nil_r.
Qed.

Definition single (name : string) : Ty := TyPath false [mkSegment name PaNone].
Definition vec_of (t : Ty) : Ty := TyPath false [mkSegment "Vec" (PaAngleBracketed [GaType t])].

(** [#[tomii_export(variadic)] pub fn write_to_file(path: &str, n: usize, buffers: Vec<Buf>) -> String]. *)
Definition demo_fn : ItemFn :=
  mkItemFn [mkAttribute ["tomii_export"] (MetaList [TtIdent "variadic"])] "write_to_file"
    [FaTyped (PatIdent "path") (TyReference false (single "str")); FaTyped (PatIdent "n") (single "usize");
     FaTyped (PatIdent "buffers") (vec_of (single "Buf"))] (RtType (single "String")).

Definition demo_companion : Companion :=
  match build_companion demo_fn true with Ret co => co | Panic => mkCompanion "" [] None [] [] RkVoid end.

Lemma companion_has_symbol_type_witness :
  ∃ e, try_extract demo_fn = Some e ∧ ef_cm_name e = "write_to_file_cm"
    ∧ Forall2 (λ p q, cp_name p = q.1 ∧ kind_matches (cp_kind p) q.2 = true) (ef_cm_params e) (co_params demo_companion)
    ∧ length (co_params demo_companion) = 3.
Proof.
  destruct (companion_has_symbol_type demo_fn (mkAttribute ["tomii_export"] (MetaList [TtIdent "variadic"])) demo_companion spaced_prints)
    as (e & He & _ & _ & Hn & _ & Hall & _); [reflexivity|reflexivity|discriminate| | |reflexivity|reflexivity|].
  - right. exists "variadic". split; [left|by left].
  - intros arg ty Hin. repeat (apply elem_of_cons in Hin as [->|Hin]; [by intros [= <-]|]). by apply not_elem_of_nil in Hin.
  - exists e. split; [exact He|]. split; [exact Hn|]. split; [exact Hall|reflexivity].
Defined.

(** ** Where the two readings differ *)

(** A longer path to [String] is one to the converter, and any other type to the macro. *)
Definition qualified_string : Ty := TyPath false [mkSegment "std" PaNone; mkSegment "string" PaNone; mkSegment "String" PaNone].

Theorem qualified_string_mismatch x :
  infer_cm_param_kind qualified_string = KOwnedString
  ∧ companion_ty (mkMacroParam x qualified_string (classify qualified_string)) = CtCmTypes
  ∧ ret_hint_from_original (RtType qualified_string) = Some "String"
  ∧ ret_tag (ret_kind (RtType qualified_string)) = Some "Any".
Proof. repeat split. Qed.

(** The converter looks for the word in the text of the attribute, the macro for the
    identifier; so a longer identifier is read differently. *)
Theorem word_in_identifier_mismatch `{TokenText} (Hprint : ∀ s, tokens_to_string [TtIdent s] = s) :
  let a := mkAttribute ["tomii_export"] (MetaList [TtIdent "non_variadic"]) in
  has_variadic_export [a] = true ∧ has_variadic_attr [TtIdent "non_variadic"] = false.
Proof. split; [|reflexivity]. unfold has_variadic_export, export_mentions. cbn [existsb at_meta]. by rewrite Hprint. Qed.

Lemma word_in_identifier_mismatch_witness :
  let _ : TokenText := λ ts, match ts with [TtIdent s] => s | _ => "" end in
  has_variadic_export [mkAttribute ["tomii_export"] (MetaList [TtIdent "non_variadic"])] = true.
Proof. intros inst. apply (@word_in_identifier_mismatch inst). reflexivity. Defined.

(** ** The entries of a file *)

Lemma classified_rust ty : rust_kind (classify_cm_param ty) = true.
Proof. unfold classify_cm_param. repeat case_match; done. Qed.

Lemma classified_kinds inputs : forallb rust_kind (cp_kind <$> extract_params classify_cm_param inputs) = true.
Proof.
  unfold extract_params. induction inputs as [|[|[x|] ty] inputs IH]; cbn; try done. by rewrite classified_rust.
Qed.

Section scan.
Context `{TokenText}.

(** Every entry can be rendered, and the variant it registers is that of its result unless
    the macro wraps the result. *)
Lemma extracted_rust func e : try_extract func = Some e →
  ef_source_lang e = LangRust ∧ rust_only e = true ∧ ef_auto_params e = []
  ∧ (ef_ret_variant_hint e = ret_hint_from_cm_ret (ef_cm_ret e)
     ∨ ef_ret_variant_hint e = ret_hint_from_original (if_output func) ∧ ef_cm_ret e = RCmTypes).
Proof.
  unfold try_extract. destruct (has_attr (if_attrs func) "no_mangle") eqn:Hn; cbn [negb andb].
  - intros [= <-]. split; [done|]. split; [|split; [done|by left]]. unfold rust_only, param_kinds. cbn [ef_cm_params ef_cm_ret].
    rewrite classified_kinds. cbn. unfold classify_cm_return. by repeat case_match.
  - destruct (has_attr (if_attrs func) "tomii_export"); [|done]. intros [= <-]. split; [done|].
    unfold rust_only, param_kinds. cbn [ef_cm_params ef_cm_ret ef_ret_variant_hint ef_auto_params].
    assert (Hout : infer_cm_return (if_output func) = RCmTypes) by (by destruct (if_output func)).
    rewrite Hout. cbn [rust_ret]. rewrite andb_true_r. split; [|split; [done|by right]].
    destruct (has_variadic_export _); [apply slice_last|apply plain_last]; apply inferred_kinds.
Qed.

Lemma collected_rust file e : e ∈ collect_entries file → ef_source_lang e = LangRust ∧ rust_only e = true.
Proof.
  unfold collect_entries. intros (e0 & -> & Hin)%list_elem_of_fmap. apply list_elem_of_omap in Hin as (func & _ & He).
  apply extracted_rust in He as (Hl & Hr & _). done.
Qed.

Lemma render_entry_total e : ef_source_lang e = LangRust → rust_only e = true → ∃ t, render_wrappers_entry e = Ret t.
Proof.
  intros Hl Hr. unfold render_wrappers_entry, render_entry_wrapper. rewrite bool_decide_eq_false_2 by congruence.
  destruct (sym_type_rust e Hl Hr) as [sym_type Hsym].
  destruct (print_wrapper_total Checked e (sym_static_name (ef_cm_name e)) Hr) as [body Hb].
  destruct (print_wrapper_total Unchecked e (sym_static_name (ef_cm_name e)) Hr) as [body_u Hu].
  rewrite (rust_wrapper_text e sym_type body Hl Hr Hsym Hb). cbn [run_bind].
  rewrite (unchecked_wrapper_text e body_u Hr Hu). cbn [run_bind]. destruct (entry_argspec e); by eexists.
Qed.

Lemma render_each_total f entries : (∀ e, e ∈ entries → ∃ t, f e = Ret t) → ∃ t, render_each f entries = Ret t.
Proof.
  intros Hf. unfold render_each. destruct (run_imap_total (λ (_ : nat) e, f e) 0 entries) as [ts ->]; [|by eexists].
  intros i e He. apply Hf. by eapply list_elem_of_lookup_2.
Qed.

(** The wrappers of the functions of a Rust file are rendered without a panic. *)
Theorem collected_render file : ∃ t, render_wrappers (collect_entries file) = Ret t.
Proof.
  unfold render_wrappers. destruct (render_each_total render_wrappers_entry (collect_entries file)) as [t ->]; [|by eexists].
  intros e [Hl Hr]%collected_rust. by apply render_entry_total.
Qed.

(** ** The walk through the modules *)

Lemma scan_unfold fuel modules file : collect_entries_recursive (S fuel) modules file =
  foldl (λ acc m, entries ← acc; match modules m with
          | Some ast => more ← collect_entries_recursive fuel modules ast; Some (entries ++ more)
          | None => Some entries end) (Some (collect_entries file)) (external_mods file).
Proof. reflexivity. Qed.

Lemma scan_step fuel modules mods acc :
  (∀ m f, m ∈ mods → modules m = Some f → ∃ es, collect_entries_recursive fuel modules f = Some es) →
  ∃ es, foldl (λ acc m, entries ← acc; match modules m with
          | Some ast => more ← collect_entries_recursive fuel modules ast; Some (entries ++ more)
          | None => Some entries end) (Some acc) mods = Some (acc ++ es).
Proof.
  revert acc. induction mods as [|m mods IH]; intros acc Hall; cbn [foldl]; [exists []; by rewrite app_nil_r|].
  cbn [mbind option_bind]. destruct (modules m) as [f|] eqn:Hm.
  - destruct (Hall m f) as [es ->]; [left|done|]. cbn [mbind option_bind]. destruct (IH (acc ++ es)) as [es' ->].
    + intros m' f' Hin. apply Hall. by right.
    + exists (es ++ es'). by rewrite (assoc_L (++)).
  - apply IH. intros m' f' Hin. apply Hall. by right.
Qed.

(** The walk ends when the modules a file names are below it in some order; it needs no
    more fuel than the height. The entries of the file come first. *)
Theorem scan_terminates modules (rank : string → nat) n file
    (Hrank : ∀ m f m', modules m = Some f → m' ∈ external_mods f → rank m' < rank m)
    (Hfile : ∀ m, m ∈ external_mods file → rank m < n) :
  ∃ es, collect_entries_recursive (S n) modules file = Some (collect_entries file ++ es).
Proof.
  revert file Hfile. induction n as [|n IH]; intros file Hfile; rewrite scan_unfold; apply scan_step.
  - intros m f Hm _. specialize (Hfile m Hm). lia.
  - intros m f Hm Hf. destruct (IH f) as [es Hes]; [|by eexists]. intros m' Hm'. specialize (Hrank m f m' Hf Hm'). specialize (Hfile m Hm). lia.
Qed.

Lemma scan_none fuel modules mods : foldl (λ acc m, entries ← acc; match modules m with
          | Some ast => more ← collect_entries_recursive fuel modules ast; Some (entries ++ more)
          | None => Some entries end) None mods = None.
Proof. by induction mods. Qed.

(** It never ends when the files of a set always lead to the set: a module is looked for
    beside the file that names it, so that [mod b;] in [a.rs] and [mod a;] in [b.rs] lead
    to each other, though they are the modules [a::b] and [b::a]. *)
Theorem scan_cycle modules (cyclic : File → Prop)
    (Hcycle : ∀ f, cyclic f → ∃ m f', m ∈ external_mods f ∧ modules m = Some f' ∧ cyclic f') file fuel :
  cyclic file → collect_entries_recursive fuel modules file = None.
Proof.
  revert file. induction fuel as [|fuel IH]; intros file Hc; [done|]. rewrite scan_unfold.
  destruct (Hcycle file Hc) as (m & f' & Hm & Hf' & Hc'). apply list_elem_of_split in Hm as (l1 & l2 & ->).
  rewrite foldl_app. destruct (foldl _ _ l1) as [es|]; [|apply scan_none]. cbn [foldl mbind option_bind].
  rewrite Hf', (IH f' Hc'). cbn [mbind option_bind]. apply scan_none.
Qed.
End scan.

Lemma scan_terminates_witness : ∃ es,
  collect_entries_recursive 2 (λ m, if String.eqb m "kernels" then Some [ItFn demo_fn] else None) [ItMod "kernels" false; ItFn demo_fn]
  = Some (collect_entries [ItMod "kernels" false; ItFn demo_fn] ++ es).
Proof.
  apply (scan_terminates _ (λ _, 0) 1).
  - intros m f m'. destruct (String.eqb m "kernels"); [|done]. intros [= <-] Hm. by apply not_elem_of_nil in Hm.
  - intros m _. lia.
Defined.

Lemma scan_cycle_witness fuel :
  collect_entries_recursive fuel (λ m, if String.eqb m "a" then Some [ItMod "b" false] else Some [ItMod "a" false]) [ItMod "b" false] = None.
Proof.
  apply (scan_cycle _ (λ f, f = [ItMod "a" false] ∨ f = [ItMod "b" false])); [|by right].
  intros f [->| ->]; [exists "a", [ItMod "b" false]|exists "b", [ItMod "a" false]]; (split; [left|]); (split; [reflexivity|]); [by right|by left].
Defined.

(** ** The arguments of a bulk companion *)

Definition index_param (p : Param) : bool := is_index_param (mp_name p).

(** Only index parameters follow an index parameter. *)
Fixpoint index_last (ps : list Param) : bool :=
  match ps with [] => true | p :: ps' => if index_param p then forallb index_param ps' else index_last ps' end.

Lemma bulk_all_index k ps j b : forallb index_param ps = true → bulk_params k ps !! j = Some b → bp_arg_slot b = None.
Proof.
  revert k j. induction ps as [|p ps IH]; intros k j; [done|]. cbn. intros [Hp Hps]%andb_prop. unfold index_param in Hp. rewrite Hp.
  destruct j as [|j]; [by intros [= <-]|]. by apply IH.
Qed.

(** A parameter of the bulk companion is read from its own position, as in the wrapper, when
    the index of the instance comes last. *)
Theorem bulk_slots_positions func j b : index_last (macro_params (if_inputs func)) = true →
  bulk_params 0 (macro_params (if_inputs func)) !! j = Some b →
  bp_arg_slot b = if index_param (bp_param b) then None else Some j.
Proof.
  assert (Hgen : ∀ ps k j, index_last ps = true → bulk_params k ps !! j = Some b →
    bp_arg_slot b = if index_param (bp_param b) then None else Some (k + j)).
  { induction ps as [|p ps IH]; intros k i; [done|]. cbn [index_last bulk_params]. fold (index_param p).
    destruct (index_param p) eqn:Hp.
    - intros Hall. destruct i as [|i]; [intros [= <-]; cbn [bp_arg_slot bp_param]; by rewrite Hp|]. cbn. intros Hi.
      rewrite (bulk_all_index _ _ _ _ Hall Hi). destruct (index_param (bp_param b)) eqn:Hb; [done|].
      exfalso. revert Hi Hb. clear -Hall. revert i. generalize k. induction ps as [|q ps IH]; intros k' i; [done|].
      cbn in Hall. apply andb_prop in Hall as [Hq Hall]. cbn. fold (index_param q). rewrite Hq.
      destruct i as [|i]; [by intros [= <-]; cbn; rewrite Hq|]. by apply (IH Hall).
    - intros Hall. destruct i as [|i]; [intros [= <-]; cbn [bp_arg_slot bp_param]; by rewrite Hp, Nat.add_0_r|].
      cbn. intros Hi. by rewrite (IH (S k) i Hall Hi), Nat.add_succ_l, Nat.add_succ_r. }
  intros Hi. by apply (Hgen _ 0).
Qed.

Lemma bulk_slots_positions_witness :
  bp_arg_slot (mkBulkParam (mkMacroParam "grid" (TyReference false (single "Grid")) (SharedRef (single "Grid"))) (Some 0)) = Some 0.
Proof.
  apply (bulk_slots_positions (mkItemFn [] "cell" [FaTyped (PatIdent "grid") (TyReference false (single "Grid")); FaTyped (PatIdent "idx") (single "usize")] RtDefault) 0);
    reflexivity.
Defined.

(** With the index first, the companion looks for the object of the second parameter at the
    first position, where the arguments of the node hold the index. *)
Theorem bulk_index_first_shifts :
  bc_closures (build_bulk_companion (mkItemFn [] "cell" [FaTyped (PatIdent "idx") (single "usize"); FaTyped (PatIdent "grid") (TyReference false (single "Grid"))] RtDefault))
  = [("grid", AcShared (single "Grid"), 0, "cell_bulk_cm: failed to access grid")].
Proof. reflexivity. Qed.
