(* ===== verification/TwinSound.v ===== *)
(** The unchecked wrappers that the converter generates, in the graphs that choose them.

    [Unchecked] shows that the runtime takes the twin of a kernel only for tasks whose
    buffers hold the variants that the registry declares; [WrapSpec], that a generated
    twin does what the checked wrapper does on such arguments. Together: whatever task of
    a node with a twin is run, the twin has no undefined behaviour. *)
From S2P Require Import Prelude Types GraphStruct Graph Buffers NodeCache Tables ResultMap ArgRes Populate Unchecked.
From S2P Require Import Text Exports RustWrapper WrapSem WrapSpec Signature Companion SignatureSpec.
From stdpp Require Import strings.

(** ** The generated registry *)

(** A generated [match]: the arms of the entries that have one, in order. *)
Fixpoint arm_lookup {A} (f : ExportedFn → option A) (entries : list ExportedFn) (name : string) : option A :=
  match entries with
  | [] => None
  | x :: entries' =>
      match f x with
      | Some a => if String.eqb (ef_registry_key x) name then Some a else arm_lookup f entries' name
      | None => arm_lookup f entries' name
      end
  end.

(** The arm of the unchecked twin of an entry; [code] gives the wrapper with a name. *)
Definition unchecked_of (code : string → CmPtr) (e : ExportedFn) : option CmPtr :=
  _ ← entry_argspec e; Some (code (wrap_fn_name (ef_cm_name e) +:+ "_unchecked"%string)).

(** The tables of the registry are those generated for the entries. *)
Definition registered `{FuncReg} (code : string → CmPtr) (entries : list ExportedFn) : Prop :=
  ∀ name, get_func_argspec name = arm_lookup entry_argspec entries name
    ∧ get_func_ret_variant name = arm_lookup entry_ret_variant entries name
    ∧ get_unchecked_func name = arm_lookup (unchecked_of code) entries name.

Lemma arm_lookup_Some {A} (f : ExportedFn → option A) entries name a : arm_lookup f entries name = Some a →
  ∃ x, x ∈ entries ∧ ef_registry_key x = name ∧ f x = Some a.
Proof.
  induction entries as [|x entries IH]; [done|]. cbn. destruct (f x) as [b|] eqn:Hf.
  - destruct (String.eqb _ _) eqn:Hk.
    + intros [= ->]. exists x. split; [left|]. by apply String.eqb_eq in Hk.
    + intros (y & ? & ?)%IH. exists y. split; [by right|done].
  - intros (y & ? & ?)%IH. exists y. split; [by right|done].
Qed.

(** ** Kernels behind wrappers *)

(** The result that a wrapper returns has the variant that is registered for it. *)
Definition hint_kept (x : ExportedFn) (kernel : list rval → rval) : Prop :=
  ∀ vs tag c, ef_ret_variant_hint x = Some tag → converted (ef_cm_ret x) (kernel vs) = Fine c → variant_tag c = tag.

(** What is asked of an entry and its kernel. *)
Definition entry_fit (kernels : string → list rval → rval) (x : ExportedFn) : Prop :=
  match ef_source_lang x with
  | LangRust => sound_entry x = true ∧ (∀ vs, returns (ef_cm_ret x) (kernels (ef_registry_key x) vs) = true)
                ∧ hint_kept x (kernels (ef_registry_key x))
  | LangC => ef_ret_variant_hint x = None
  end.

(** It holds for a symbol whose results are as its signature says, *)
Lemma hint_kept_signature x kernel : ef_ret_variant_hint x = ret_hint_from_cm_ret (ef_cm_ret x) →
  (∀ vs, returns (ef_cm_ret x) (kernel vs) = true) → hint_kept x kernel.
Proof.
  intros Hh Hk vs tag c. rewrite Hh. specialize (Hk vs).
  destruct (ef_cm_ret x) as [| |pk| | | |], (kernel vs) as [pk' v| | | | | | | | |]; try discriminate; cbn.
  - by intros [= <-] [= <-].
  - cbn in Hk. apply andb_prop in Hk as [_ Hk%String.eqb_eq]. intros [= <-]. destruct (is_wide pk); [done|]. by intros [= <-].
  - by intros [= <-] [= <-].
Qed.

(** and for a companion, which wraps the results of its function. *)
Lemma hint_kept_companion x kernel co : ef_cm_ret x = RCmTypes →
  (∀ tag, ef_ret_variant_hint x = Some tag → ret_tag (co_ret co) = Some tag) →
  (∀ vs, ∃ c, kernel vs = VCm c ∧ ∀ tag, ret_tag (co_ret co) = Some tag → variant_tag c = tag) → hint_kept x kernel.
Proof.
  intros Hr Hh Hk vs tag c Htag. destruct (Hk vs) as (c' & -> & Hc'). rewrite Hr. intros [= <-]. by apply Hc', Hh.
Qed.

Lemma run_entry_result m x kernel args c : run_entry m x kernel args = Fine c → ∃ vs, converted (ef_cm_ret x) (kernel vs) = Fine c.
Proof.
  unfold run_entry, run_wrapper. destruct (run_body _ _ _ _) as [env| | |]; [|done..]. cbn [outcome_bind].
  destruct (run_call_exprs _ _ _ _) as [vs| | |]; [|done..]. cbn [outcome_bind]. destruct (accepts_all _ _); [|done].
  intros Hc. by exists vs.
Qed.

(** ** Declared arguments *)

Lemma args_ok_forall args i ks : (∀ j k, ks !! j = Some k → arg_ok args (i + j) k = true) → args_ok args i ks = true.
Proof.
  revert i. induction ks as [|k ks IH]; intros i Hall; [done|]. cbn. apply andb_true_iff. split.
  - rewrite <- (Nat.add_0_r i). by apply Hall.
  - apply IH. intros j k' Hj. rewrite Nat.add_succ_l, <- Nat.add_succ_r. by apply Hall.
Qed.

Lemma param_specs_lookup ps sp j k : param_specs ps = Some sp → (cp_kind <$> ps) !! j = Some k → param_spec k = sp !! j.
Proof.
  revert sp j. induction ps as [|p ps IH]; intros sp j; [done|]. cbn. destruct (param_spec (cp_kind p)) as [s|] eqn:Hs; [|done].
  destruct (param_specs ps) as [sp'|]; [|done]. intros [= <-]. destruct j as [|j]; [by intros [= <-]|]. cbn. by apply IH.
Qed.

Lemma param_specs_length ps sp : param_specs ps = Some sp → length sp = length ps.
Proof.
  revert sp. induction ps as [|p ps IH]; intros sp; [by intros [= <-]|]. cbn. destruct (param_spec _); [|done].
  destruct (param_specs ps); [|done]. intros [= <-]. cbn. by rewrite (IH l).
Qed.

Lemma param_spec_variadic k : param_spec k = Some "..."%string ↔ is_variadic k = true.
Proof. destruct k as [|[]| | | | | | |]; cbn; split; (done || discriminate). Qed.

Lemma variadic_last_lookup ks j k : variadic_last ks = true → ks !! j = Some k → is_variadic k = true → S j = length ks.
Proof.
  revert j. induction ks as [|k1 ks IH]; intros j; [done|]. destruct ks as [|k2 ks].
  - intros _ Hj. by destruct j.
  - change (variadic_last (k1 :: k2 :: ks)) with (negb (is_variadic k1) && variadic_last (k2 :: ks)).
    intros [Hk1%negb_true_iff Hv]%andb_prop. destruct j as [|j]; [intros [= <-]; congruence|].
    cbn [lookup list_lookup]. intros Hj Hk. cbn [length]. f_equal. by apply (IH j).
Qed.

(** Arguments of the declared variants are what the parameters ask for. *)
Lemma declared_args_ok x sp v : entry_argspec x = Some sp → variadic_last (param_kinds x) = true → spec_fixed sp ≤ length v →
  (∀ i tag, i < spec_fixed sp → sp !! i = Some tag → tag ≠ "*"%string → ∃ y, v !! i = Some y ∧ variant_tag y = tag) →
  args_ok v 0 (param_kinds x) = true.
Proof.
  unfold entry_argspec. case_bool_decide as Hl; [done|]. intros Hsp Hv Hlen Htags. apply args_ok_forall. intros j k Hj.
  pose proof (param_specs_lookup _ _ _ _ Hsp Hj) as Hs. pose proof (param_specs_length _ _ Hsp) as Hsl.
  assert (Hlk : length (param_kinds x) = length sp) by (unfold param_kinds; by rewrite length_fmap, Hsl).
  assert (Hjl := lookup_lt_Some _ _ _ Hj). rewrite Nat.add_0_l. destruct (is_variadic k) eqn:Hk.
  - pose proof (variadic_last_lookup _ _ _ Hv Hj Hk) as Hlast. apply param_spec_variadic in Hk as Hdots. rewrite Hs in Hdots.
    assert (Hf : spec_fixed sp = j).
    { unfold spec_fixed. rewrite decide_True; [lia|]. rewrite last_lookup. replace (pred (length sp)) with j by lia. done. }
    destruct k; try discriminate Hk; cbn; apply Nat.leb_le; lia.
  - assert (Hjf : j < spec_fixed sp).
    { unfold spec_fixed. destruct (decide _) as [Hd|_]; [|lia]. destruct (decide (S j = length sp)) as [He|]; [|lia]. exfalso.
      rewrite last_lookup in Hd. replace (pred (length sp)) with j in Hd by lia. rewrite <- Hs in Hd. apply param_spec_variadic in Hd. congruence. }
    destruct k as [|pk| | | | | | |]; try discriminate Hk; try (cbn; apply Nat.ltb_lt; lia).
    + destruct (Htags j (variant_name pk) Hjf) as (y & Hy & Ht); [by rewrite <- Hs|by destruct pk|]. cbn. rewrite Hy. by apply String.eqb_eq.
    + destruct (Htags j "String"%string Hjf) as (y & Hy & Ht); [by rewrite <- Hs|done|]. cbn. rewrite Hy. by destruct y.
    + destruct (Htags j "String"%string Hjf) as (y & Hy & Ht); [by rewrite <- Hs|done|]. cbn. rewrite Hy. by destruct y.
Qed.

(** ** The twin of a node *)

Section twin.
Context `{FuncReg}.
Context (code : string → CmPtr) (entries : list ExportedFn) (kernels : string → list rval → rval).
Context (Hreg : registered code entries) (Hkeys : NoDup (ef_registry_key <$> entries)) (Hfit : ∀ x, x ∈ entries → entry_fit kernels x).

(** Every result that a task reads is what some call of a generated wrapper returned. *)
Definition results_returned (cache : list NodeCacheEntry) (rps : list ResPredCache) (xs : list CmTypes) : Prop :=
  ∀ k rp x, rps !! k = Some rp → xs !! k = Some x →
    if rp_is_dep rp then x = CmNone
    else ∀ pred y, cache !! rp_res_node_id rp = Some pred → y ∈ entries → ef_registry_key y = ce_func_name pred →
           ef_source_lang y = LangRust → ∃ m args, run_entry m y (kernels (ef_registry_key y)) args = Fine x.

Lemma returned_typed cache rps xs : results_returned cache rps xs → results_typed cache rps xs.
Proof.
  intros Hr k rp x Hrp Hx. specialize (Hr k rp x Hrp Hx). destruct (rp_is_dep rp); [done|].
  intros pred tag Hpred Htag. rewrite (proj1 (proj2 (Hreg _))) in Htag. apply arm_lookup_Some in Htag as (y & Hy & Hkey & Hhint).
  specialize (Hfit y Hy). unfold entry_fit, entry_ret_variant in *. destruct (ef_source_lang y) eqn:Hl; [|congruence].
  destruct Hfit as (_ & _ & Hkept). destruct (Hr pred y Hpred Hy Hkey Hl) as (m & args & Hrun).
  apply run_entry_result in Hrun as [vs Hc]. by eapply Hkept.
Qed.

(** One entry has a name. *)
Lemma key_unique x y : x ∈ entries → y ∈ entries → ef_registry_key x = ef_registry_key y → x = y.
Proof using Hkeys.
  intros (i & Hi)%list_elem_of_lookup (j & Hj)%list_elem_of_lookup Hk.
  assert (i = j) as -> by (eapply (NoDup_lookup _ i j); [exact Hkeys|by rewrite list_lookup_fmap, Hi|by rewrite list_lookup_fmap, Hj; cbn; rewrite Hk]). congruence.
Qed.

(** C19. No unchecked twin that the runtime selects has undefined behaviour, in a registry
    generated for entries of different names, where each Rust entry is sound (parameters and
    result of the kinds that wrappers of Rust functions convert, none of 128 bits, only a last
    one variadic, and parameter names that differ and are not that of the wrapper's own), its
    kernel returns results of its declared type, and these have the variant registered for them,
    and C entries register no variant. If the cached arguments of a node are those built for it,
    from objects that exist, and the selection chose a twin for the node, it is the twin of the
    one entry with the name of the node's function. For every task of the node, whatever the
    instance and the slot, whose dependencies each resolve to one stored cell with a value
    returned by the generated wrapper of the predecessor's function, the buffer that the
    argument resolution makes is one on which the twin gives the kernel the arguments and
    returns the value that the checked wrapper returns. *)
Theorem selected_twin_defined disabled cache gb g id node objs c preds rps e
    (Hrec : Forall results_recorded cache) (He : cache !! id = Some e) (Hplain : ce_uses_unchecked e = false)
    (Hobj : ∀ a, a ∈ kept_args true (n_args node) → objects_ok objs a)
    (Hcache : build_arg_cache (n_args node) objs true = Ret (c, preds))
    (Hpreds : build_res_preds g id node (n_args node) true = Ret rps)
    (Hac : ce_arg_cache e = set_res_predecessors rps c) :
  ∃ cache', select_unchecked_wrappers disabled cache gb = Ret cache'
    ∧ ∀ e', cache' !! id = Some e' → ce_uses_unchecked e' = true →
      ∃ x, x ∈ entries ∧ ef_registry_key x = ce_func_name e ∧ ef_source_lang x = LangRust
        ∧ (∀ y, y ∈ entries → ef_registry_key y = ce_func_name e → y = x)
        ∧ ce_func_ptr e' = code (wrap_fn_name (ef_cm_name x) +:+ "_unchecked"%string)
        ∧ ∀ obs fuel ssm workers tbl exec_slot exec_gen ni slot pi buf b t xs,
            Forall2 (res_value obs tbl t ni slot pi) rps xs → results_returned cache rps xs → template_like c buf →
            ∃ v t' r, populate_dynamic_args_into obs fuel ssm tbl exec_slot exec_gen buf (ce_arg_cache e') ni slot pi
                        (match ac_rt_workers_indexes c with [] => 0 | _ => workers end) (b, t) = Ret (Some (v, (false, t')))
              ∧ converted (ef_cm_ret x) (kernels (ef_registry_key x) (passed v 0 (param_kinds x))) = Fine r
              ∧ run_entry Unchecked x (kernels (ef_registry_key x)) v = Fine r
              ∧ run_entry Checked x (kernels (ef_registry_key x)) v = Fine r.
Proof.
  destruct (unchecked_sound disabled cache gb g id node objs c preds rps e) as (cache' & Hsel & _ & Hsound); try done.
  exists cache'. split; [done|]. intros e' He' Hu. destruct (Hsound e' He' Hu) as (Hptr & sp & Hsp & Hbuf).
  rewrite (proj1 (Hreg _)) in Hsp. apply arm_lookup_Some in Hsp as (x & Hx & Hkey & Hspec).
  assert (Hl : ef_source_lang x = LangRust) by (unfold entry_argspec in Hspec; case_bool_decide as Hn; [done|]; by destruct (ef_source_lang x)).
  rewrite (proj2 (proj2 (Hreg _))) in Hptr. apply arm_lookup_Some in Hptr as (y & Hy & Hykey & Hyptr).
  assert (y = x) as -> by (apply key_unique; [done|done|congruence]). unfold unchecked_of in Hyptr. rewrite Hspec in Hyptr. injection Hyptr as Hyptr.
  exists x. split; [done|]. split; [done|]. split; [done|]. split; [intros z Hz Hzk; apply key_unique; [done|done|congruence]|]. split; [done|]. intros obs fuel ssm workers tbl exec_slot exec_gen ni slot pi buf b t xs Hres Hret Htpl.
  destruct (Hbuf obs fuel ssm workers tbl exec_slot exec_gen ni slot pi buf b t xs Hres (returned_typed _ _ _ Hret) Htpl)
    as (v & t' & Hpop & Hlen & Htags).
  specialize (Hfit x Hx). unfold entry_fit in Hfit. rewrite Hl in Hfit. destruct Hfit as (Hs & Hk & _).
  pose proof (sound_entry_parts x Hs) as (_ & Hv & _ & Hn & _).
  pose proof (declared_args_ok x sp v Hspec Hv Hlen Htags) as Hok.
  destruct (converted_fine (ef_cm_ret x) (kernels (ef_registry_key x) (passed v 0 (param_kinds x))) Hn) as [r Hr]; [apply Hk|].
  exists v, t', r. split; [done|]. split; [done|].
  destruct (run_entry_spec Unchecked x (kernels (ef_registry_key x)) v Hs) as [Hrun _]. rewrite (Hrun Hok).
  destruct (run_entry_spec Checked x (kernels (ef_registry_key x)) v Hs) as [Hrun' _]. rewrite (Hrun' Hok). done.
Qed.
End twin.

(** ** The node of [Populate] with a generated kernel *)

(** The nodes of that graph have the empty name as their function:
    [fn kern_cm(i: usize, r: u64, o: &CmTypes, b: u8, w: usize, rest: &[CmTypes]) -> u64]. *)
Definition twin_entry : ExportedFn :=
  mkExported "kern_cm" ""
    [mkParam "i" (KPrimitive PkUsize); mkParam "r" (KPrimitive PkU64); mkParam "o" KCmTypesRef;
     mkParam "b" (KPrimitive PkU8); mkParam "w" (KPrimitive PkUsize); mkParam "rest" KSliceCmTypes]
    (RPrimitive PkU64) (Some "U64"%string) LangRust [] false.
Definition twin_kernels (name : string) (vs : list rval) : rval := VPrim PkU64 (CmU64 5).

Definition twin_code (name : string) : CmPtr := λ _, CmU64 5.

#[local] Instance generated_kernels : FuncReg := {|
  get_func _ := Some (λ _, CmU64 5); get_bulk_func _ := None;
  get_func_argspec := arm_lookup entry_argspec [twin_entry];
  get_func_ret_variant := arm_lookup entry_ret_variant [twin_entry];
  get_unchecked_func := arm_lookup (unchecked_of twin_code) [twin_entry] |}.
#[local] Instance no_affinity_groups : AffinityLookup := λ _, 0.

Definition twin_cache : list NodeCacheEntry :=
  match build_node_cache demo_dep_graph demo_objs false with Ret c => c | Panic => [] end.

Lemma twin_recorded : Forall results_recorded twin_cache.
Proof. unfold twin_cache. set (c := build_node_cache _ _ _). vm_compute in c. subst c. repeat constructor. Qed.

Lemma twin_registered : registered twin_code [twin_entry].
Proof. by intros name. Qed.

Lemma twin_fit x : x ∈ [twin_entry] → entry_fit twin_kernels x.
Proof.
  intros ->%list_elem_of_singleton. split; [reflexivity|]. split; [by intros vs|]. apply hint_kept_signature; [reflexivity|by intros vs].
Qed.

Lemma twin_results : results_returned [twin_entry] twin_kernels twin_cache [demo_rp] [CmU64 5].
Proof.
  intros [|k] rp x Hrp Hx; [|done]. injection Hrp as <-. injection Hx as <-. intros pred y _ ->%list_elem_of_singleton _ _.
  exists Checked, [CmUsize 0; CmU64 1; CmNone; CmU8 1; CmUsize 1]. reflexivity.
Qed.

Lemma selected_twin_defined_witness : ∃ e cache' e', twin_cache !! 1 = Some e
  ∧ select_unchecked_wrappers false twin_cache (empty_table 2) = Ret cache' ∧ cache' !! 1 = Some e' ∧ ce_uses_unchecked e' = true
  ∧ ∃ v t' r, populate_dynamic_args_into (λ _, demo_world) 9 false (empty_table 2) (Some 0) 1 (ac_args demo_cache) (ce_arg_cache e') 3 0 0 6 (false, 0)
                = Ret (Some (v, (false, t')))
    ∧ run_entry Unchecked twin_entry (twin_kernels "") v = Fine r.
Proof.
  destruct (twin_cache !! 1) as [e|] eqn:He; [|vm_compute in He; discriminate He].
  destruct (selected_twin_defined twin_code [twin_entry] twin_kernels twin_registered (NoDup_singleton _) twin_fit false twin_cache (empty_table 2) demo_dep_graph 1
    (demo_node 1 4 demo_args) demo_objs demo_cache (<[0 := [1]]> ∅) [demo_rp] e twin_recorded He) as (cache' & Hsel & Hsound).
  - clear -He. vm_compute in He. injection He as <-. reflexivity.
  - exact demo_objects.
  - reflexivity.
  - reflexivity.
  - clear -He. vm_compute in He. injection He as <-. reflexivity.
  - destruct (cache' !! 1) as [e'|] eqn:He'; [|exfalso; vm_compute in Hsel; injection Hsel as <-; discriminate He'].
    assert (Hu : ce_uses_unchecked e' = true) by (clear -Hsel He'; vm_compute in Hsel; injection Hsel as <-; cbn in He'; injection He' as <-; reflexivity).
    destruct (Hsound e' eq_refl Hu) as (x & Hx & _ & _ & _ & _ & Hrun). apply list_elem_of_singleton in Hx as ->.
    destruct (Hrun (λ _, demo_world) 9 false 6 (empty_table 2) (Some 0) 1%Z 3 0 0 (ac_args demo_cache) false 0 [CmU64 5])
      as (v & t' & r & Hp & _ & Hr & _); [apply demo_values; lia|exact twin_results|split; [done|done]|].
    exists e, cache', e'. split; [done|]. split; [exact Hsel|]. split; [exact He'|]. split; [exact Hu|].
    exists v, t', r. split; [exact Hp|exact Hr].
Defined.
