(* ===== verification/CHeader.v ===== *)
(** The parser of C headers ([tomii-converter/src/c_header.rs]): annotated declarations and
    the entries they become. Sources are ASCII. *)
From S2P Require Import Prelude WorkerRange Values Text Types Exports.
From stdpp Require Import strings.
From Stdlib Require Import Ascii.
Open Scope string_scope.
Open Scope list_scope.
Open Scope nat_scope.

(** ** Annotations *)

Record Annotation := mkAnnotation {
  an_variadic : bool;
  an_out_len : option string;
  an_free_fn : option string;
  an_array_params : list string;
  an_mut_array_params : list string;
}.

Definition Annotation_default : Annotation := mkAnnotation false None None [] [].

(** The body of the loop over the tokens; an unknown token is ignored. *)
Definition annotate (ann : Annotation) (token : string) : Annotation :=
  let token := trim token in
  if String.eqb token "variadic" then
    mkAnnotation true (an_out_len ann) (an_free_fn ann) (an_array_params ann) (an_mut_array_params ann)
  else match Values.strip_prefix "out_len=" token with
  | Some rhs => mkAnnotation (an_variadic ann) (Some (trim rhs)) (an_free_fn ann) (an_array_params ann) (an_mut_array_params ann)
  | None =>
  match Values.strip_prefix "free=" token with
  | Some rhs => mkAnnotation (an_variadic ann) (an_out_len ann) (Some (trim rhs)) (an_array_params ann) (an_mut_array_params ann)
  | None =>
  match Values.strip_suffix ": array" token with
  | Some lhs => mkAnnotation (an_variadic ann) (an_out_len ann) (an_free_fn ann) (an_array_params ann ++ [trim lhs]) (an_mut_array_params ann)
  | None =>
  match Values.strip_suffix ": mut_array" token with
  | Some lhs => mkAnnotation (an_variadic ann) (an_out_len ann) (an_free_fn ann) (an_array_params ann) (an_mut_array_params ann ++ [trim lhs])
  | None => ann
  end end end end.

Definition parse_annotation (attr_body : string) : Annotation :=
  let body := trim attr_body in
  match body with
  | EmptyString => Annotation_default
  | _ => foldl annotate Annotation_default (WorkerRange.split "," body)
  end.

(** ** Declarations *)

Record RawParam := mkRaw { rp_name : string; rp_c_type : string }.

(** A star takes the space before it away. *)
Definition push_char (result : string) (ch : ascii) : string :=
  if Ascii.eqb ch "*" then default result (Values.strip_suffix " " result) +:+ "*"
  else result +:+ String ch EmptyString.

Definition normalise_c_type (raw : string) : string :=
  let s := str_join " " (split_whitespace raw) in
  trim (foldl push_char EmptyString (String.list_ascii_of_string s)).

Definition space_or_star (c : ascii) : bool := Ascii.eqb c " " || Ascii.eqb c "*".

Definition split_c_param (raw : string) : option (string * string) :=
  let raw := trim raw in
  if String.eqb raw "void" || String.eqb raw "" then None
  else match str_rfind space_or_star raw with
  | Some pos =>
      let name := trim (str_drop (pos + 1) raw) in
      let c_type := normalise_c_type (str_take (pos + 1) raw) in
      if String.eqb name "" then None else Some (c_type, name)
  | None => None
  end.

(** The parameters between the parentheses. *)
Definition parse_params (params_str : string) : list RawParam :=
  if String.eqb params_str "" || String.eqb params_str "void" then []
  else omap (λ p, '(c_type, name) ← split_c_param (trim p); Some (mkRaw name c_type)) (WorkerRange.split "," params_str).

(** The result type, the name and the parameters. It panics when a closing parenthesis comes
    before the first opening one and none after it. *)
Definition parse_c_declaration (decl : string) : run (option (string * string * list RawParam)) :=
  let decl := trim (trim_end_matches ";" (trim decl)) in
  match str_find (Ascii.eqb "(") decl with
  | None => Ret None
  | Some open =>
  match str_rfind (Ascii.eqb ")") decl with
  | None => Ret None
  | Some close =>
      let before_paren := trim (str_take open decl) in
      let! inner := str_slice (open + 1) close decl in
      let params_str := trim inner in
      match str_rfind space_or_star before_paren with
      | None => Ret None
      | Some pos =>
          let fn_name := trim (str_drop (pos + 1) before_paren) in
          let ret_type := normalise_c_type (str_take (pos + 1) before_paren) in
          Ret (Some (ret_type, fn_name, parse_params params_str))
      end
  end end.

(** ** Classification *)

Definition normalise_element_type (c_type : string) : string := trim (trim_end_matches "*" c_type).

(** A [match] on string literals: the arm of the first literal that is equal. *)
Fixpoint arm_of {A} (t : string) (arms : list (string * A)) : option A :=
  match arms with [] => None | (u, a) :: arms' => if String.eqb t u then Some a else arm_of t arms' end.

Definition c_param_arms : list (string * CmParamKind) := [
  ("size_t", KPrimitive PkUsize); ("usize", KPrimitive PkUsize);
  ("int", KPrimitive PkI32); ("int32_t", KPrimitive PkI32);
  ("int64_t", KPrimitive PkI64);
  ("uint32_t", KPrimitive PkU32); ("unsigned int", KPrimitive PkU32);
  ("uint64_t", KPrimitive PkU64);
  ("float", KPrimitive PkF32);
  ("double", KPrimitive PkF64);
  ("bool", KPrimitive PkBool); ("_Bool", KPrimitive PkBool);
  ("const char*", KStrRef); ("char const*", KStrRef); ("char*", KStrRef);
  ("void*", KOpaquePtr);
  ("void**", KSliceCmTypes)].

(** [None] is a length that is derived from the variadic pointers before it. *)
Definition classify_c_param (raw : RawParam) (ann : Annotation) (variadic_void_ptr_ptr_seen : bool) : option CmParamKind :=
  let t := rp_c_type raw in
  let name := rp_name raw in
  if bool_decide (name ∈ an_mut_array_params ann) then Some (KMutArrayPtr (normalise_element_type t) (name +:+ "_len"))
  else if bool_decide (name ∈ an_array_params ann) then Some (KArrayPtr (normalise_element_type t) (name +:+ "_len"))
  else if variadic_void_ptr_ptr_seen && (String.eqb t "size_t" || String.eqb t "usize") then None
  else match arm_of t c_param_arms with
  | Some kind => Some kind
  | None => if ends_with "*" t then Some KOpaquePtr else Some (KPrimitive PkI32)
  end.

Definition c_return_arms (ann : Annotation) : list (string * CmRet) := [
  ("void", RVoid);
  ("size_t", RPrimitive PkUsize); ("usize", RPrimitive PkUsize);
  ("int", RPrimitive PkI32); ("int32_t", RPrimitive PkI32);
  ("int64_t", RPrimitive PkI64);
  ("uint32_t", RPrimitive PkU32); ("unsigned int", RPrimitive PkU32);
  ("uint64_t", RPrimitive PkU64);
  ("float", RPrimitive PkF32);
  ("double", RPrimitive PkF64);
  ("bool", RPrimitive PkBool); ("_Bool", RPrimitive PkBool);
  ("char*", RAllocatedString (an_free_fn ann));
  ("void*", match an_out_len ann with
            | Some len_param => RAllocatedArray "void" len_param (an_free_fn ann)
            | None => ROpaquePtr
            end)].

Definition classify_c_return (ret_type : string) (ann : Annotation) : CmRet :=
  match arm_of ret_type (c_return_arms ann) with
  | Some ret => ret
  | None =>
      if ends_with "*" ret_type then
        match an_out_len ann with
        | Some len_param => RAllocatedArray (normalise_element_type ret_type) len_param (an_free_fn ann)
        | None => ROpaquePtr
        end
      else RPrimitive PkI32
  end.

(** ** Entries *)

(** The state of the loop over the parameters: what becomes a parameter, what is derived,
    and whether a [void**] was seen. *)
Record Build := mkBuild { bd_cm_params : list CmParam; bd_auto_params : list string; bd_seen_void_ptr_ptr : bool }.

(** The length that goes with the parameter before. *)
Definition is_companion_len (params : list CmParam) (name : string) : bool :=
  match last params with
  | Some prev => match cp_kind prev with
                 | KArrayPtr _ len_param | KMutArrayPtr _ len_param => String.eqb len_param name
                 | _ => false
                 end
  | None => false
  end.

Definition build_param (ann : Annotation) (b : Build) (raw : RawParam) : Build :=
  if is_companion_len (bd_cm_params b) (rp_name raw) then
    mkBuild (bd_cm_params b) (bd_auto_params b ++ [rp_name raw]) (bd_seen_void_ptr_ptr b)
  else
    let void_ptr_ptr_before := bd_seen_void_ptr_ptr b && an_variadic ann in
    let seen := bd_seen_void_ptr_ptr b || String.eqb (rp_c_type raw) "void**" in
    match classify_c_param raw ann void_ptr_ptr_before with
    | Some kind => mkBuild (bd_cm_params b ++ [mkParam (rp_name raw) kind]) (bd_auto_params b) seen
    | None => mkBuild (bd_cm_params b) (bd_auto_params b ++ [rp_name raw]) seen
    end.

Definition build_params (ann : Annotation) (raws : list RawParam) : Build :=
  foldl (build_param ann) (mkBuild [] [] false) raws.

Definition c_entry (ann : Annotation) (ret_type fn_name : string) (raw_params : list RawParam) : ExportedFn :=
  let b := build_params ann raw_params in
  mkExported fn_name fn_name (bd_cm_params b) (classify_c_return ret_type ann) None LangC (bd_auto_params b) false.

Definition build_entry (decl : string) (ann : Annotation) : run (option ExportedFn) :=
  let! parsed := parse_c_declaration decl in
  Ret ('(ret_type, fn_name, raw_params) ← parsed; Some (c_entry ann ret_type fn_name raw_params)).

(** ** The source *)

(** The annotation of a line: what is between the first parenthesis and the last closing
    one, when the line begins with the marker. *)
Definition annotation_line (l : string) : option string :=
  after_at ← Values.strip_prefix "// @tomii_export" l;
  Some (match Values.strip_prefix "(" (trim after_at) with
        | Some paren_content =>
            match str_rfind (Ascii.eqb ")") paren_content with
            | Some close_pos => str_take close_pos paren_content
            | None => ""
            end
        | None => ""
        end).

(** The lines of a declaration, each with a space behind it, up to the one with a
    semicolon, and the lines after them; empty lines and comments are passed over. *)
Fixpoint decl_lines (decl_buf : string) (ls : list string) : string * list string :=
  match ls with
  | [] => (decl_buf, [])
  | l :: ls' =>
      let next := trim l in
      if String.eqb next "" || starts_with "//" next then decl_lines decl_buf ls'
      else
        let decl_buf' := decl_buf +:+ next +:+ " " in
        if contains_char ";" next then (decl_buf', ls') else decl_lines decl_buf' ls'
  end.

(** The loop over the lines, with a turn for each of them at most. *)
Fixpoint collect_lines (turns : nat) (entries : list ExportedFn) (ls : list string) : run (list ExportedFn) :=
  match turns, ls with
  | S turns', l :: ls' =>
      match annotation_line (trim l) with
      | None => collect_lines turns' entries ls'
      | Some attr_body =>
          let ann := parse_annotation attr_body in
          let '(decl_buf, rest) := decl_lines "" ls' in
          let decl_str := trim decl_buf in
          if String.eqb decl_str "" then collect_lines turns' entries rest
          else
            let! entry := build_entry decl_str ann in
            collect_lines turns' (entries ++ option_list entry) rest
      end
  | _, _ => Ret entries
  end.

Definition collect_c_entries (source : string) : run (list ExportedFn) :=
  let ls := lines source in collect_lines (length ls) [] ls.

(** The examples of the tests of the file. *)
Example combined_annotation :
  parse_annotation "vector: array, free=free_matrix, out_len=n" = mkAnnotation false (Some "n") (Some "free_matrix") ["vector"] [].
Proof. reflexivity. Qed.

Example normalised_types :
  normalise_c_type <$> ["const char *"; "void *"; "void **"; "size_t"] = ["const char*"; "void*"; "void**"; "size_t"].
Proof. reflexivity. Qed.
