(* ===== verification/CHeaderSpec.v ===== *)
(** The parser of C headers against the headers a programmer writes: annotated declarations,
    printed line by line between other lines, are found again with their annotations, types
    and names. *)
From S2P Require Import Prelude WorkerRange Values Text Types Exports CHeader.
From stdpp Require Import strings.
From Stdlib Require Import Ascii.
Open Scope string_scope.
Open Scope list_scope.
Open Scope nat_scope.

(** ** Headers *)

(** An identifier: letters, digits and the underscore. *)
Definition ident_char (c : ascii) : bool := is_alphanumeric c || Ascii.eqb c "_".
Definition ident (s : string) : bool := negb (String.eqb s "") && str_all ident_char s.

(** A type: words before the last one ([const], [unsigned]), the last one, and stars. *)
Record CType := mkCType { ct_quals : list string; ct_base : string; ct_stars : nat }.

Fixpoint stars (n : nat) : string := match n with 0 => EmptyString | S n' => String "*" (stars n') end.

Definition type_tokens (t : CType) : list string := ct_quals t ++ [ct_base t +:+ stars (ct_stars t)].
Definition type_text (t : CType) : string := str_join " " (type_tokens t).

Inductive Attr :=
  | AtVariadic
  | AtOutLen (param : string)
  | AtFree (func : string)
  | AtArray (param : string)
  | AtMutArray (param : string).

Record Decl := mkDecl { d_attrs : list Attr; d_ret : CType; d_name : string; d_params : list (CType * string) }.

(** A line of a header: an annotated declaration, which takes two, or any other line. *)
Inductive HeaderItem := HiDecl (d : Decl) | HiLine (l : string).

Definition attr_text (a : Attr) : string :=
  match a with
  | AtVariadic => "variadic"
  | AtOutLen x => "out_len=" +:+ x
  | AtFree x => "free=" +:+ x
  | AtArray x => x +:+ ": array"
  | AtMutArray x => x +:+ ": mut_array"
  end.

Definition param_text (p : CType * string) : string := type_text p.1 +:+ " " +:+ p.2.

Definition decl_text (d : Decl) : string :=
  type_text (d_ret d) +:+ " " +:+ d_name d +:+ "(" +:+ str_join ", " (param_text <$> d_params d) +:+ ");".

Definition annotation_text (attrs : list Attr) : string :=
  match attrs with
  | [] => "// @tomii_export"
  | _ => "// @tomii_export(" +:+ str_join ", " (attr_text <$> attrs) +:+ ")"
  end.

Definition item_lines (i : HeaderItem) : list string :=
  match i with HiDecl d => [annotation_text (d_attrs d); decl_text d] | HiLine l => [l] end.

Definition header_text (items : list HeaderItem) : string := fmt ((λ l, line [l]) <$> concat (item_lines <$> items)).

(** *** Well-formed headers *)

Definition type_ok (t : CType) : bool := forallb ident (ct_quals t) && ident (ct_base t).
Definition attr_ok (a : Attr) : bool :=
  match a with AtVariadic => true | AtOutLen x | AtFree x | AtArray x | AtMutArray x => ident x end.
Definition decl_ok (d : Decl) : bool :=
  forallb attr_ok (d_attrs d) && type_ok (d_ret d) && ident (d_name d)
  && forallb (λ p, type_ok p.1 && ident p.2) (d_params d).

(** Another line is one without an annotation. *)
Definition item_ok (i : HeaderItem) : Prop :=
  match i with
  | HiDecl d => decl_ok d = true
  | HiLine l => str_all in_line l = true ∧ annotation_line (trim (strip_cr l)) = None
  end.

(** *** What they say *)

Definition apply_attr (ann : Annotation) (a : Attr) : Annotation :=
  match a with
  | AtVariadic => mkAnnotation true (an_out_len ann) (an_free_fn ann) (an_array_params ann) (an_mut_array_params ann)
  | AtOutLen x => mkAnnotation (an_variadic ann) (Some x) (an_free_fn ann) (an_array_params ann) (an_mut_array_params ann)
  | AtFree x => mkAnnotation (an_variadic ann) (an_out_len ann) (Some x) (an_array_params ann) (an_mut_array_params ann)
  | AtArray x => mkAnnotation (an_variadic ann) (an_out_len ann) (an_free_fn ann) (an_array_params ann ++ [x]) (an_mut_array_params ann)
  | AtMutArray x => mkAnnotation (an_variadic ann) (an_out_len ann) (an_free_fn ann) (an_array_params ann) (an_mut_array_params ann ++ [x])
  end.

Definition annotation_of (attrs : list Attr) : Annotation := foldl apply_attr Annotation_default attrs.

Definition raw_params_of (ps : list (CType * string)) : list RawParam := (λ p, mkRaw p.2 (type_text p.1)) <$> ps.

Definition decl_entry (d : Decl) : ExportedFn :=
  c_entry (annotation_of (d_attrs d)) (type_text (d_ret d)) (d_name d) (raw_params_of (d_params d)).

Definition item_entries (i : HeaderItem) : list ExportedFn := match i with HiDecl d => [decl_entry d] | HiLine _ => [] end.

(** ** Characters *)

(** The characters of the grammar that no identifier has. *)
Lemma ident_char_not c d : ident_char c = true → ident_char d = false → Ascii.eqb d c = false.
Proof. intros Hc Hd. destruct (Ascii.eqb d c) eqn:H; [|done]. apply Ascii.eqb_eq in H as ->. congruence. Qed.

Lemma ident_negb d : ident_char d = false → ∀ c, ident_char c = true → negb (Ascii.eqb d c) = true.
Proof. intros Hd c Hc. by rewrite (ident_char_not c d Hc Hd). Qed.

Lemma ident_char_no_space c : ident_char c = true → no_space c = true.
Proof. by destruct c as [[] [] [] [] [] [] [] []]. Qed.

Lemma ident_str s : ident s = true → s ≠ EmptyString ∧ str_all ident_char s = true.
Proof. intros [H1%negb_true_iff%String.eqb_neq H2]%andb_prop. done. Qed.

Lemma ident_none d s : ident_char d = false → str_all ident_char s = true → str_all (λ x, negb (Ascii.eqb d x)) s = true.
Proof. intros Hd. apply str_all_impl. by apply ident_negb. Qed.

Lemma ident_no_space s : str_all ident_char s = true → str_all no_space s = true.
Proof. apply str_all_impl, ident_char_no_space. Qed.

Lemma ident_tight s : ident s = true → tight s.
Proof. intros [_ H]%ident_str. by apply tight_word, ident_no_space. Qed.

Lemma stars_all p n : p "*"%char = true → str_all p (stars n) = true.
Proof. intros Hp. induction n as [|n IH]; cbn; [done|]. by rewrite Hp. Qed.

Lemma join_all p l : p " "%char = true → Forall (λ w, str_all p w = true) l → str_all p (str_join " " l) = true.
Proof.
  intros Hp. induction 1 as [|w l Hw Hl IH]; [done|]. destruct l as [|v l]; [done|].
  change (str_join " " (w :: v :: l)) with (w +:+ " " +:+ str_join " " (v :: l)). rewrite !str_all_app, Hw, IH. cbn. by rewrite Hp.
Qed.

(** A type has none of the other characters of the grammar. *)
Lemma type_text_all p t : type_ok t = true → p " "%char = true → p "*"%char = true →
  (∀ c, ident_char c = true → p c = true) → str_all p (type_text t) = true.
Proof.
  intros [Hq Hb]%andb_prop Hs Hst Hp. apply join_all; [done|]. unfold type_tokens. apply Forall_app. split.
  - apply Forall_forall. intros w Hw. apply list_elem_of_In in Hw. apply (proj1 (forallb_forall _ _) Hq) in Hw.
    apply ident_str in Hw as [_ Hw]. by eapply str_all_impl.
  - constructor; [|done]. rewrite str_all_app, (stars_all p) by done. apply ident_str in Hb as [_ Hb].
    by rewrite (str_all_impl ident_char p).
Qed.

Lemma type_tokens_words t : type_ok t = true → Forall (λ w, w ≠ EmptyString ∧ str_all no_space w = true) (type_tokens t).
Proof.
  intros [Hq Hb]%andb_prop. unfold type_tokens. apply Forall_app. split.
  - apply Forall_forall. intros w Hw. apply list_elem_of_In in Hw. apply (proj1 (forallb_forall _ _) Hq) in Hw.
    apply ident_str in Hw as [? ?]. split; [done|]. by apply ident_no_space.
  - constructor; [|done]. apply ident_str in Hb as [Hne Hb]. split.
    + intros H%string_app_eq_nil. by destruct H.
    + by rewrite str_all_app, ident_no_space, stars_all.
Qed.

Lemma join_snoc l x : str_join " " (l ++ [x]) = fmt ((λ w, w +:+ " ") <$> l) +:+ x.
Proof.
  induction l as [|w l IH]; [done|]. cbn [app fmap list_fmap fmt].
  assert (Hc : ∀ w ys, ys ≠ [] → str_join " " (w :: ys) = w +:+ " " +:+ str_join " " ys) by (intros ? [|]; done).
  rewrite Hc by (by destruct l). rewrite IH. by rewrite <- !string_app_assoc.
Qed.

(** What is before the stars of a type. *)
Definition type_stem (t : CType) : string := fmt ((λ w, w +:+ " ") <$> ct_quals t) +:+ ct_base t.

Lemma type_text_stem t : type_text t = type_stem t +:+ stars (ct_stars t).
Proof. unfold type_text, type_tokens, type_stem. by rewrite join_snoc, string_app_assoc. Qed.

Lemma type_stem_all p t : type_ok t = true → p " "%char = true → (∀ c, ident_char c = true → p c = true) → str_all p (type_stem t) = true.
Proof.
  intros [Hq Hb]%andb_prop Hs Hp. unfold type_stem. rewrite str_all_app. apply andb_true_iff. split.
  - induction (ct_quals t) as [|w l IH]; [done|]. cbn in Hq. apply andb_prop in Hq as [Hw Hq].
    cbn [fmap list_fmap fmt]. rewrite !str_all_app, (IH Hq). apply ident_str in Hw as [_ Hw]. rewrite (str_all_impl ident_char p w) by done. cbn. by rewrite Hs.
  - apply ident_str in Hb as [_ Hb]. by eapply str_all_impl.
Qed.

(** ** Types *)

Definition push_all (r s : string) : string := foldl push_char r (String.list_ascii_of_string s).

Lemma push_all_app r a b : push_all r (a +:+ b) = push_all (push_all r a) b.
Proof. unfold push_all. revert r. induction a as [|c a IH]; intros r; [done|]. cbn. apply IH. Qed.

Lemma push_all_cons r c s : push_all r (String c s) = push_all (push_char r c) s.
Proof. reflexivity. Qed.

Lemma push_all_plain r s : str_all (λ c, negb (Ascii.eqb "*" c)) s = true → push_all r s = r +:+ s.
Proof.
  revert r. induction s as [|c s IH]; intros r; [intros _; by rewrite string_app_nil_r|].
  cbn [str_all]. intros [Hc%negb_true_iff Hs]%andb_prop. rewrite push_all_cons, IH by done.
  unfold push_char. rewrite (Ascii.eqb_sym c), Hc. by rewrite <- string_app_assoc.
Qed.

Lemma strip_space_none r c : Ascii.eqb c " " = false → Values.strip_suffix " " (r +:+ String c EmptyString) = None.
Proof.
  intros Hc. destruct (Values.strip_suffix " " (r +:+ String c EmptyString)) as [x|] eqn:H; [|done]. exfalso.
  apply Values.strip_suffix_app in H. assert (Hl := f_equal String.length H). rewrite !string_length_app in Hl. cbn in Hl.
  assert (He : str_drop (String.length r) (r +:+ String c EmptyString) = str_drop (String.length x) (x +:+ " ")) by (rewrite H; f_equal; lia).
  rewrite !str_drop_app in He. injection He as ->. by rewrite Ascii.eqb_refl in Hc.
Qed.

Lemma push_stars r c n : Ascii.eqb c " " = false → push_all (r +:+ String c EmptyString) (stars n) = r +:+ String c EmptyString +:+ stars n.
Proof.
  revert r c. induction n as [|n IH]; intros r c Hc; [by unfold push_all; cbn|].
  cbn [stars]. rewrite push_all_cons. unfold push_char. rewrite Ascii.eqb_refl, strip_space_none by done.
  change (default ?x None) with x. change "*" with (String "*" EmptyString). rewrite IH by done.
  by rewrite <- !string_app_assoc.
Qed.

(** The last character of an identifier. *)
Lemma ident_snoc s : ident s = true → ∃ r c, s = r +:+ String c EmptyString ∧ ident_char c = true.
Proof.
  intros [Hne Hs]%ident_str. induction s as [|c s IH]; [done|]. cbn in Hs. apply andb_prop in Hs as [Hc Hs].
  destruct s as [|d s]; [by exists EmptyString, c|]. destruct IH as (r & e & He & ?); [done|done|].
  exists (String c r), e. cbn. by rewrite He.
Qed.

Lemma type_stem_snoc t : type_ok t = true → ∃ r c, type_stem t = r +:+ String c EmptyString ∧ ident_char c = true.
Proof.
  intros [_ Hb]%andb_prop. destruct (ident_snoc _ Hb) as (r & c & Hc & ?). unfold type_stem. rewrite Hc.
  exists (fmt ((λ w, w +:+ " ") <$> ct_quals t) +:+ r), c. by rewrite string_app_assoc.
Qed.

Lemma type_text_push t : type_ok t = true → push_all EmptyString (type_text t) = type_text t.
Proof.
  intros Ht. rewrite type_text_stem, push_all_app.
  rewrite (push_all_plain EmptyString (type_stem t)) by (apply type_stem_all; [done|done|]; by apply ident_negb).
  destruct (type_stem_snoc t Ht) as (r & c & -> & Hc). rewrite <- string_app_assoc. cbn [String.append].
  rewrite push_stars; [done|]. rewrite Ascii.eqb_sym. by apply (ident_char_not c " ").
Qed.

Lemma type_text_nonempty t : type_ok t = true → type_text t ≠ EmptyString.
Proof.
  intros Ht. rewrite type_text_stem. destruct (type_stem_snoc t Ht) as (r & c & -> & _). rewrite <- string_app_assoc.
  intros [_ H]%string_app_eq_nil. done.
Qed.

Lemma tight_join l : Forall (λ w, w ≠ EmptyString ∧ str_all no_space w = true) l → tight (str_join " " l).
Proof.
  induction 1 as [|w l [Hne Hw] Hl IH]; [done|]. destruct l as [|v l]; [by apply tight_word|].
  change (str_join " " (w :: v :: l)) with (w +:+ " " +:+ str_join " " (v :: l)).
  destruct (decide (str_join " " (v :: l) = EmptyString)) as [He|He].
  - exfalso. inversion Hl as [|? ? [Hv _] _]. subst. destruct l; [done|]. by apply string_app_eq_nil in He as [? _].
  - apply tight_wrap; try done. by apply tight_word.
Qed.

Lemma type_text_tight t : type_ok t = true → tight (type_text t).
Proof. intros Ht. by apply tight_join, type_tokens_words. Qed.

(** A type with a space behind it is normalised to itself. *)
Lemma normalise_type_text t : type_ok t = true → normalise_c_type (type_text t +:+ " ") = type_text t.
Proof.
  intros Ht. unfold normalise_c_type. unfold type_text at 1. rewrite split_whitespace_join by (auto using type_tokens_words).
  fold (type_text t). fold (push_all EmptyString (type_text t)). rewrite type_text_push by done. by apply trim_tight, type_text_tight.
Qed.

(** ** Declarations *)

(** What comes after the last space is the name, what comes before it the type. *)
Lemma type_name_cut t x : type_ok t = true → ident x = true →
  str_rfind space_or_star (type_text t +:+ " " +:+ x) = Some (String.length (type_text t))
  ∧ str_take (String.length (type_text t) + 1) (type_text t +:+ " " +:+ x) = type_text t +:+ " "
  ∧ str_drop (String.length (type_text t) + 1) (type_text t +:+ " " +:+ x) = x.
Proof.
  intros Ht [_ Hx]%ident_str. split; [|split].
  - apply (str_rfind_app space_or_star (type_text t) " "); [done|]. eapply str_all_impl; [|exact Hx]. intros c Hc.
    unfold space_or_star. rewrite 2!(Ascii.eqb_sym c). by rewrite (ident_char_not c " " Hc), (ident_char_not c "*" Hc).
  - rewrite string_app_assoc. rewrite <- (str_take_app (type_text t +:+ " ") x) at 2. f_equal. by rewrite string_length_app.
  - by rewrite str_drop_plus.
Qed.

Lemma name_line_tight t x : type_ok t = true → ident x = true → tight (type_text t +:+ " " +:+ x).
Proof.
  intros Ht Hx. apply tight_wrap; [by apply type_text_nonempty|by apply ident_str in Hx as [? _]|by apply type_text_tight|by apply ident_tight].
Qed.

Lemma has_space_neq a b s : str_all no_space s = true → a +:+ " " +:+ b ≠ s.
Proof. intros Hs <-. rewrite !str_all_app in Hs. cbn in Hs. by rewrite andb_false_r in Hs. Qed.

Lemma split_param_text p : type_ok p.1 = true → ident p.2 = true → split_c_param (param_text p) = Some (type_text p.1, p.2).
Proof.
  destruct p as [t x]. cbn [fst snd]. intros Ht Hx. unfold split_c_param, param_text. cbn [fst snd].
  rewrite trim_tight by (by apply name_line_tight).
  rewrite !(proj2 (String.eqb_neq _ _)) by (by apply has_space_neq). cbn [orb].
  destruct (type_name_cut t x Ht Hx) as (Hr & Htk & Hd). rewrite Hr, Htk, Hd, normalise_type_text by done.
  rewrite (trim_tight x) by (by apply ident_tight). apply ident_str in Hx as [Hne _]. by rewrite (proj2 (String.eqb_neq _ _)).
Qed.

Lemma params_ok_forall ps : forallb (λ p, type_ok p.1 && ident p.2) ps = true → Forall (λ p, type_ok p.1 = true ∧ ident p.2 = true) ps.
Proof. intros H. apply Forall_forall. intros p Hp%list_elem_of_In. by apply (proj1 (forallb_forall _ _) H), andb_prop in Hp. Qed.

Lemma param_text_all q p : type_ok p.1 = true → ident p.2 = true → q " "%char = true → q "*"%char = true →
  (∀ c, ident_char c = true → q c = true) → str_all q (param_text p) = true.
Proof.
  intros Ht Hx Hs Hst Hq. unfold param_text. rewrite !str_all_app, (type_text_all q) by done. cbn. rewrite Hs.
  apply ident_str in Hx as [_ Hx]. by eapply str_all_impl.
Qed.

Lemma omap_trim (l1 l2 : list string) : trim <$> l1 = trim <$> l2 →
  omap (λ p, '(c_type, name) ← split_c_param (trim p); Some (mkRaw name c_type)) l1
  = omap (λ p, '(c_type, name) ← split_c_param (trim p); Some (mkRaw name c_type)) l2.
Proof.
  revert l2. induction l1 as [|x l1 IH]; intros [|y l2]; try done. cbn. intros [= Hx Hl]. rewrite Hx, (IH l2 Hl). done.
Qed.

Lemma join_params_space ps : ps ≠ [] → ∃ a b, str_join ", " (param_text <$> ps) = a +:+ " " +:+ b.
Proof.
  destruct ps as [|[t x] [|q ps]]; [done| |]; intros _.
  - by exists (type_text t), x.
  - exists (type_text t), (x +:+ ", " +:+ str_join ", " (param_text <$> q :: ps)). cbn [fmap list_fmap]. unfold param_text at 1. cbn [fst snd].
    change (str_join ", " (?a :: param_text q :: ?l)) with (a +:+ ", " +:+ str_join ", " (param_text q :: l)). by rewrite <- !string_app_assoc.
Qed.

Lemma parse_params_text ps : Forall (λ p, type_ok p.1 = true ∧ ident p.2 = true) ps →
  parse_params (str_join ", " (param_text <$> ps)) = raw_params_of ps.
Proof.
  intros Hall. unfold parse_params. destruct (decide (ps = [])) as [->|Hne]; [done|].
  destruct (join_params_space ps Hne) as (a & b & Hab).
  rewrite !(proj2 (String.eqb_neq _ _)) by (rewrite Hab; by apply has_space_neq). cbn [orb].
  rewrite (omap_trim _ (param_text <$> ps)).
  - clear Hab Hne. induction Hall as [|p ps [Ht Hx] Hall IH]; [done|]. cbn.
    rewrite trim_tight by (by apply name_line_tight). rewrite split_param_text by done. cbn. by rewrite IH.
  - apply split_join; [by destruct ps|]. apply Forall_fmap. eapply Forall_impl; [exact Hall|]. intros p [Ht Hx].
    apply param_text_all; try done. by apply ident_negb.
Qed.

Lemma tight_join_params ps : Forall (λ p, type_ok p.1 = true ∧ ident p.2 = true) ps → tight (str_join ", " (param_text <$> ps)).
Proof.
  induction 1 as [|p ps [Ht Hx] Hall IH]; [done|]. destruct ps as [|q ps]; [by apply name_line_tight|]. cbn [fmap list_fmap].
  change (str_join ", " (?a :: param_text q :: ?l)) with (a +:+ ", " +:+ str_join ", " (param_text q :: l)).
  destruct (join_params_space (q :: ps)) as (a & b & Hab); [done|]. cbn [fmap list_fmap] in Hab, IH. apply tight_wrap.
  - unfold param_text. by intros [_ ?]%string_app_eq_nil.
  - rewrite Hab. by intros [_ ?]%string_app_eq_nil.
  - by apply name_line_tight.
  - done.
Qed.

(** The text of a declaration in its three parts. *)
Definition decl_head (d : Decl) : string := type_text (d_ret d) +:+ " " +:+ d_name d.
Definition decl_body (d : Decl) : string := str_join ", " (param_text <$> d_params d).

Lemma decl_text_parts d : decl_text d = (decl_head d +:+ String "(" (decl_body d +:+ ")")) +:+ ";".
Proof.
  unfold decl_text, decl_head, decl_body. rewrite <- !string_app_assoc. cbn [String.append]. by rewrite <- !string_app_assoc.
Qed.

Section decl.
Context (d : Decl) (Hd : decl_ok d = true).

Lemma decl_parts_ok : forallb attr_ok (d_attrs d) = true ∧ type_ok (d_ret d) = true ∧ ident (d_name d) = true
  ∧ Forall (λ p, type_ok p.1 = true ∧ ident p.2 = true) (d_params d).
Proof.
  unfold decl_ok in Hd. apply andb_prop in Hd as [[[H1 H2]%andb_prop H3]%andb_prop H4]. by apply params_ok_forall in H4.
Qed.

Lemma decl_head_tight : tight (decl_head d) ∧ decl_head d ≠ EmptyString.
Proof.
  destruct decl_parts_ok as (_ & Ht & Hx & _). split; [by apply name_line_tight|]. unfold decl_head. by intros [_ ?]%string_app_eq_nil.
Qed.

Lemma decl_head_all q : q " "%char = true → q "*"%char = true → (∀ c, ident_char c = true → q c = true) → str_all q (decl_head d) = true.
Proof. destruct decl_parts_ok as (_ & Ht & Hx & _). by apply (param_text_all q (d_ret d, d_name d)). Qed.

Lemma decl_tight : tight (decl_head d +:+ String "(" (decl_body d +:+ ")")).
Proof.
  destruct decl_head_tight as [H1 H2]. change (String "(" (decl_body d +:+ ")")) with ("(" +:+ decl_body d +:+ ")").
  rewrite (string_app_assoc "("). by apply tight_wrap.
Qed.

Lemma decl_text_tight : tight (decl_text d) ∧ decl_text d ≠ EmptyString.
Proof.
  rewrite decl_text_parts. split; [|by intros [_ ?]%string_app_eq_nil].
  apply tight_app; [|done|apply decl_tight|done]. by intros [_ ?]%string_app_eq_nil.
Qed.

(** A declaration is taken apart into its type, its name and its parameters. *)
Lemma parse_decl_text : parse_c_declaration (decl_text d) = Ret (Some (type_text (d_ret d), d_name d, raw_params_of (d_params d))).
Proof.
  destruct decl_parts_ok as (_ & Ht & Hx & Hps). unfold parse_c_declaration.
  rewrite (trim_tight _ (proj1 decl_text_tight)), decl_text_parts, trim_end_matches_snoc.
  set (text := decl_head d +:+ String "(" (decl_body d +:+ ")")).
  assert (Htext : text = (decl_head d +:+ String "(" (decl_body d)) +:+ ")") by (unfold text; by rewrite <- string_app_assoc).
  rewrite Htext, trim_end_matches_other by done. rewrite <- Htext, (trim_tight text) by apply decl_tight.
  unfold text at 1. rewrite str_find_app by (done || apply decl_head_all; (done || by apply ident_negb)).
  rewrite Htext, str_rfind_app by done. rewrite <- Htext.
  assert (Htake : str_take (String.length (decl_head d)) text = decl_head d) by apply str_take_app. rewrite Htake.
  rewrite (trim_tight (decl_head d)) by apply decl_head_tight.
  unfold str_slice. rewrite string_length_app. cbn [String.length].
  rewrite (proj2 (Nat.ltb_ge _ _)) by lia. unfold text. rewrite str_drop_plus. cbn [str_drop].
  replace (String.length (decl_head d) + S (String.length (decl_body d)) - (String.length (decl_head d) + 1)) with (String.length (decl_body d)) by lia.
  rewrite str_take_app. cbn [run_bind]. rewrite (trim_tight (decl_body d)) by (by apply tight_join_params).
  destruct (type_name_cut _ _ Ht Hx) as (Hr & Htk & Hdr). unfold decl_head. rewrite Hr, Htk, Hdr, normalise_type_text by done.
  rewrite (trim_tight (d_name d)) by (by apply ident_tight). unfold decl_body. by rewrite parse_params_text.
Qed.

Lemma build_decl_entry : build_entry (decl_text d) (annotation_of (d_attrs d)) = Ret (Some (decl_entry d)).
Proof. unfold build_entry. by rewrite parse_decl_text. Qed.
End decl.

(** ** Annotations *)

Lemma prefix_needs c p s : str_all (λ x, negb (Ascii.eqb c x)) s = true → str_all (λ x, negb (Ascii.eqb c x)) p = false →
  Values.strip_prefix p s = None.
Proof.
  intros Hs Hp. destruct (Values.strip_prefix p s) as [r|] eqn:H; [|done]. exfalso.
  apply Values.strip_prefix_app in H as ->. rewrite str_all_app, Hp in Hs. done.
Qed.

Lemma eqb_needs c p s : str_all (λ x, negb (Ascii.eqb c x)) p = true → str_all (λ x, negb (Ascii.eqb c x)) s = false →
  String.eqb s p = false.
Proof. intros Hp Hs. apply String.eqb_neq. intros ->. congruence. Qed.

Lemma colon_text x rest : str_all (λ c, negb (Ascii.eqb ":" c)) (x +:+ String ":" rest) = false.
Proof. rewrite str_all_app. cbn. by rewrite andb_false_r. Qed.

Lemma no_equals x rest : ident x = true → str_all (λ c, negb (Ascii.eqb "=" c)) rest = true →
  str_all (λ c, negb (Ascii.eqb "=" c)) (x +:+ rest) = true.
Proof. intros [_ Hx]%ident_str Hr. rewrite str_all_app, Hr. by rewrite (ident_none "=" x). Qed.

Lemma attr_tight a : attr_ok a = true → tight (attr_text a).
Proof.
  destruct a as [|x|x|x|x]; cbn [attr_ok attr_text]; intros Hx; [done|..].
  all: apply tight_app; try done; try (by apply ident_tight); by apply ident_str in Hx as [? _].
Qed.

Lemma annotate_attr ann a tok : attr_ok a = true → trim tok = attr_text a → annotate ann tok = apply_attr ann a.
Proof.
  intros Ha Htok. unfold annotate. rewrite Htok. destruct a as [|x|x|x|x]; cbn [attr_text attr_ok] in *; [done|..].
  - rewrite (eqb_needs "=") by done. rewrite strip_prefix_concat. by rewrite (trim_tight x) by (by apply ident_tight).
  - rewrite (eqb_needs "=") by done. change (Values.strip_prefix "out_len=" ("free=" +:+ x)) with (@None string). rewrite strip_prefix_concat.
    by rewrite (trim_tight x) by (by apply ident_tight).
  - rewrite (eqb_needs ":") by (done || apply colon_text). rewrite !(prefix_needs "=") by (done || by apply no_equals).
    rewrite strip_suffix_concat. by rewrite (trim_tight x) by (by apply ident_tight).
  - rewrite (eqb_needs ":") by (done || apply colon_text). rewrite !(prefix_needs "=") by (done || by apply no_equals).
    rewrite strip_suffix_concat. destruct (Values.strip_suffix ": array" (x +:+ ": mut_array")) as [r|] eqn:H.
    + exfalso. apply Values.strip_suffix_app in H. assert (Hl := f_equal String.length H). rewrite !string_length_app in Hl. cbn in Hl.
      apply (f_equal (str_drop (String.length r))) in H. rewrite str_drop_app in H.
      replace (String.length r) with (String.length x + 4) in H by lia. rewrite str_drop_plus in H. done.
    + by rewrite (trim_tight x) by (by apply ident_tight).
Qed.

Lemma annotate_all ann attrs toks : forallb attr_ok attrs = true → trim <$> toks = trim <$> (attr_text <$> attrs) →
  foldl annotate ann toks = foldl apply_attr ann attrs.
Proof.
  revert ann toks. induction attrs as [|a attrs IH]; intros ann [|tok toks]; try done.
  cbn [forallb fmap list_fmap foldl]. intros [Ha Hattrs]%andb_prop [= Htok Htoks].
  rewrite (trim_tight (attr_text a)) in Htok by (by apply attr_tight). rewrite (annotate_attr ann a tok Ha Htok). by apply IH.
Qed.

Lemma attr_text_all q a : attr_ok a = true → (∀ c, ident_char c = true → q c = true) → q "="%char = true → q ":"%char = true → q " "%char = true →
  str_all q (attr_text a) = true.
Proof.
  intros Ha Hq He Hc Hs. destruct a as [|x|x|x|x]; cbn [attr_text attr_ok] in *.
  - cbn. by repeat rewrite Hq by done.
  - rewrite str_all_app. apply ident_str in Ha as [_ Ha]. rewrite (str_all_impl ident_char q x) by done. cbn. rewrite He. by repeat rewrite Hq by done.
  - rewrite str_all_app. apply ident_str in Ha as [_ Ha]. rewrite (str_all_impl ident_char q x) by done. cbn. rewrite He. by repeat rewrite Hq by done.
  - rewrite str_all_app. apply ident_str in Ha as [_ Ha]. rewrite (str_all_impl ident_char q x) by done. cbn. rewrite Hc, Hs. by repeat rewrite Hq by done.
  - rewrite str_all_app. apply ident_str in Ha as [_ Ha]. rewrite (str_all_impl ident_char q x) by done. cbn. rewrite Hc, Hs. by repeat rewrite Hq by done.
Qed.

Lemma join_comma_all q l : Forall (λ w, str_all q w = true) l → q ","%char = true → q " "%char = true → str_all q (str_join ", " l) = true.
Proof.
  intros Hl Hc Hs. induction Hl as [|w l Hw Hl IH]; [done|]. destruct l as [|v l]; [done|].
  change (str_join ", " (w :: v :: l)) with (w +:+ ", " +:+ str_join ", " (v :: l)). rewrite !str_all_app, Hw, IH. cbn. by rewrite Hc, Hs.
Qed.

Lemma attrs_tight attrs : forallb attr_ok attrs = true → attrs ≠ [] → tight (str_join ", " (attr_text <$> attrs)) ∧ str_join ", " (attr_text <$> attrs) ≠ EmptyString.
Proof.
  assert (Hne : ∀ a, attr_ok a = true → attr_text a ≠ EmptyString).
  { intros [|x|x|x|x] Ha; cbn [attr_text]; try done; by intros [_ ?]%string_app_eq_nil. }
  induction attrs as [|a attrs IH]; [done|]. cbn [forallb]. intros [Ha Hattrs]%andb_prop _. destruct attrs as [|b attrs].
  - split; [by apply attr_tight|by apply Hne].
  - cbn [fmap list_fmap]. change (str_join ", " (?a :: attr_text b :: ?l)) with (a +:+ ", " +:+ str_join ", " (attr_text b :: l)).
    destruct IH as [IH1 IH2]; [done|done|]. cbn [fmap list_fmap] in IH1, IH2. split; [|by intros [_ ?]%string_app_eq_nil].
    apply tight_wrap; try done; [by apply Hne|by apply attr_tight].
Qed.

(** An annotation is found on its line, and read as it was written. *)
Lemma parse_annotation_text attrs : forallb attr_ok attrs = true →
  ∃ body, annotation_line (trim (annotation_text attrs)) = Some body ∧ parse_annotation body = annotation_of attrs.
Proof.
  intros Ha. destruct attrs as [|a attrs]; [by exists EmptyString|]. destruct (attrs_tight (a :: attrs) Ha) as [Ht Hne]; [done|].
  set (body := str_join ", " (attr_text <$> a :: attrs)) in *. exists body.
  change (annotation_text (a :: attrs)) with ("// @tomii_export(" +:+ body +:+ ")").
  assert (Hwhole : tight ("// @tomii_export(" +:+ body +:+ ")")) by (by apply tight_wrap). rewrite trim_tight by done. split.
  - unfold annotation_line. change ("// @tomii_export(" +:+ body +:+ ")") with ("// @tomii_export" +:+ "(" +:+ body +:+ ")").
    rewrite strip_prefix_concat. cbn [mbind option_bind]. rewrite (trim_tight ("(" +:+ body +:+ ")")) by (by apply tight_wrap).
    rewrite strip_prefix_concat. rewrite (str_rfind_app (Ascii.eqb ")") body ")") by done. by rewrite str_take_app.
  - unfold parse_annotation. rewrite (trim_tight body) by done.
    transitivity (foldl annotate Annotation_default (WorkerRange.split "," body)); [clear -Hne; clearbody body; by destruct body|].
    unfold annotation_of. apply annotate_all; [done|]. apply split_join; [done|]. apply Forall_fmap, Forall_forall.
    intros x Hx%list_elem_of_In. apply (proj1 (forallb_forall _ _) Ha) in Hx. apply attr_text_all; try done. by apply ident_negb.
Qed.

(** ** Lines *)

Lemma trim_end_white s c : is_space c = true → trim_end (s +:+ String c EmptyString) = trim_end s.
Proof. intros Hc. induction s as [|d s IH]; cbn; [by rewrite Hc|]. by rewrite IH. Qed.

Lemma trim_end_length s : String.length (trim_end s) ≤ String.length s.
Proof.
  induction s as [|c s IH]; [done|]. cbn [trim_end]. destruct (trim_end s) as [|d r]; [destruct (is_space c); cbn; lia|]. cbn in *. lia.
Qed.

Lemma strip_cr_tight s : tight s → strip_cr s = s.
Proof.
  intros [_ He]. unfold strip_cr. destruct (Values.strip_suffix (String carriage_return EmptyString) s) as [r|] eqn:H; [|done].
  exfalso. apply Values.strip_suffix_app in H as ->. rewrite trim_end_white in He by done. pose proof (trim_end_length r) as Hl.
  rewrite He, string_length_app in Hl. cbn in Hl. lia.
Qed.

Lemma contains_char_behind c a b : contains_char c (a +:+ String c b) = true.
Proof. induction a as [|d a IH]; cbn; [by rewrite Ascii.eqb_refl|]. by rewrite IH, orb_true_r. Qed.

Section decl_lines.
Context (d : Decl) (Hd : decl_ok d = true).

Lemma decl_text_all q : (∀ c, ident_char c = true → q c = true) →
  forallb q [" "; "*"; "("; ")"; ","; ";"]%char = true → str_all q (decl_text d) = true.
Proof.
  intros Hq Hs. cbn in Hs. rewrite !andb_true_iff in Hs. destruct Hs as (H1 & H2 & H3 & H4 & H5 & H6 & _).
  rewrite decl_text_parts, !str_all_app. rewrite (decl_head_all d Hd q) by done. cbn [str_all]. rewrite str_all_app.
  cbn. rewrite H3, H4, H6. rewrite andb_true_r. cbn. rewrite andb_true_r. apply join_comma_all; [|done|done]. apply Forall_fmap.
  destruct (decl_parts_ok d Hd) as (_ & _ & _ & Hps). eapply Forall_impl; [exact Hps|]. intros p [Ht Hx]. by apply param_text_all.
Qed.

Lemma decl_line_taken rest : decl_lines "" (decl_text d :: rest) = (decl_text d +:+ " ", rest).
Proof.
  destruct (decl_text_tight d Hd) as [Ht Hne]. cbn [decl_lines]. rewrite trim_tight by done.
  rewrite (proj2 (String.eqb_neq _ _)) by done.
  assert (Hslash : starts_with "//" (decl_text d) = false).
  { unfold starts_with. rewrite (prefix_needs "/"); [done| |done]. apply decl_text_all; [by apply ident_negb|done]. }
  rewrite Hslash. cbn [orb].
  assert (Hsemi : contains_char ";" (decl_text d) = true) by (rewrite decl_text_parts; apply contains_char_behind). by rewrite Hsemi.
Qed.
End decl_lines.

Lemma annotation_in_line attrs : forallb attr_ok attrs = true → str_all in_line (annotation_text attrs) = true.
Proof.
  intros Ha. destruct attrs as [|a attrs]; [done|]. change (annotation_text (a :: attrs)) with
    ("// @tomii_export(" +:+ str_join ", " (attr_text <$> a :: attrs) +:+ ")").
  rewrite !str_all_app. rewrite join_comma_all; [done| |done|done]. apply Forall_fmap, Forall_forall.
  intros x Hx%list_elem_of_In. apply (proj1 (forallb_forall _ _) Ha) in Hx. apply attr_text_all; try done.
  intros c Hc. unfold in_line. rewrite Ascii.eqb_sym. by apply (ident_negb newline).
Qed.

Lemma annotation_tight attrs : forallb attr_ok attrs = true → tight (annotation_text attrs).
Proof.
  intros Ha. destruct attrs as [|a attrs]; [done|]. change (annotation_text (a :: attrs)) with
    ("// @tomii_export(" +:+ str_join ", " (attr_text <$> a :: attrs) +:+ ")"). by apply tight_wrap.
Qed.

Lemma item_in_line i : item_ok i → Forall (λ l, str_all in_line l = true) (item_lines i).
Proof.
  destruct i as [d|l]; cbn [item_ok item_lines]; [|by intros [? _]; repeat constructor]. intros Hd.
  constructor; [apply annotation_in_line; by apply decl_parts_ok|]. constructor; [|done]. apply decl_text_all; [done| |done].
  intros c Hc. unfold in_line. rewrite Ascii.eqb_sym. by apply (ident_negb newline).
Qed.

Lemma lines_text ls : Forall (λ l, str_all in_line l = true) ls → lines (fmt ((λ l, line [l]) <$> ls)) = strip_cr <$> ls.
Proof. induction 1 as [|l ls Hl Hls IH]; [done|]. cbn [fmap list_fmap fmt]. by rewrite lines_line, IH. Qed.

Lemma collect_items items : Forall item_ok items → ∀ turns entries, length (concat (item_lines <$> items)) ≤ turns →
  collect_lines turns entries (strip_cr <$> concat (item_lines <$> items)) = Ret (entries ++ concat (item_entries <$> items)).
Proof.
  induction 1 as [|i items Hi Hitems IH]; intros turns entries Hturns.
  - cbn. rewrite app_nil_r. by destruct turns.
  - cbn [fmap list_fmap concat] in *. rewrite length_app in Hturns. destruct i as [d|l]; cbn [item_ok item_lines item_entries] in *.
    + destruct turns as [|turns]; [cbn in Hturns; lia|]. destruct (decl_parts_ok d Hi) as (Ha & _ & _ & _).
      cbn [fmap list_fmap app collect_lines]. rewrite (strip_cr_tight (annotation_text _)) by (by apply annotation_tight).
      destruct (parse_annotation_text (d_attrs d) Ha) as (body & -> & ->).
      destruct (decl_text_tight d Hi) as [Ht Hne]. rewrite (strip_cr_tight (decl_text d)) by done. rewrite decl_line_taken by done.
      rewrite trim_space_after by done. rewrite (proj2 (String.eqb_neq _ _)) by done. rewrite build_decl_entry by done.
      cbn [run_bind option_list]. rewrite IH by (cbn in Hturns; lia). by rewrite <- (assoc_L (++)).
    + destruct Hi as [_ Hl]. destruct turns as [|turns]; [cbn in Hturns; lia|]. cbn [fmap list_fmap app collect_lines]. rewrite Hl.
      rewrite IH by (cbn in Hturns; lia). done.
Qed.

(** C26. The header parser finds what was written. In a header of annotated declarations,
    with any number of other lines between them, each declaration becomes an entry, in the
    order of the header and without a panic: its name, its result and its parameters are
    those declared, qualifiers and stars of the types included, and the attributes of its
    annotation, in any number and order, are the ones it is classified with. *)
Theorem header_roundtrip items (Hitems : Forall item_ok items) :
  collect_c_entries (header_text items) = Ret (concat (item_entries <$> items)).
Proof.
  unfold collect_c_entries, header_text. rewrite lines_text.
  - rewrite length_fmap. by rewrite collect_items.
  - apply Forall_concat, Forall_fmap. eapply Forall_impl; [exact Hitems|]. apply item_in_line.
Qed.

(** *** A header *)

Definition ty_size : CType := mkCType [] "size_t" 0.

Definition demo_header : list HeaderItem :=
  [HiLine "#include <stddef.h>"; HiLine "";
   HiDecl (mkDecl [AtOutLen "n"; AtFree "free_vector"] (mkCType [] "complex_f32" 1) "generate_vector" [(ty_size, "n")]);
   HiLine "void free_vector(void* v);";
   HiDecl (mkDecl [AtMutArray "buffer"] (mkCType [] "void" 0) "compute_fft"
             [(mkCType [] "void" 1, "planner"); (mkCType [] "complex_f32" 1, "buffer"); (ty_size, "buffer_len")]);
   HiDecl (mkDecl [AtVariadic] (mkCType [] "void" 0) "write_to_file"
             [(mkCType ["const"] "char" 1, "path"); (mkCType [] "void" 2, "buffers"); (ty_size, "num_buffers")])].

Lemma header_roundtrip_witness :
  collect_c_entries (header_text demo_header) = Ret [
    mkExported "generate_vector" "generate_vector" [mkParam "n" (KPrimitive PkUsize)]
      (RAllocatedArray "complex_f32" "n" (Some "free_vector")) None LangC [] false;
    mkExported "compute_fft" "compute_fft" [mkParam "planner" KOpaquePtr; mkParam "buffer" (KMutArrayPtr "complex_f32" "buffer_len")]
      RVoid None LangC ["buffer_len"] false;
    mkExported "write_to_file" "write_to_file" [mkParam "path" KStrRef; mkParam "buffers" KSliceCmTypes]
      RVoid None LangC ["num_buffers"] false].
Proof.
  apply (header_roundtrip demo_header). repeat (constructor; [first [reflexivity|split; reflexivity]|]). constructor.
Defined.

(** A closing parenthesis before the opening one makes the parser panic. *)
Theorem reversed_parentheses_panic : collect_c_entries (text ["// @tomii_export"; "void )f( x;"]) = Panic.
Proof. reflexivity. Qed.
