(* ===== verification/CCall.v ===== *)
(** The call of a C function by its generated wrapper against the declaration: the types of
    the symbol, slot by slot, and the expressions passed, for declarations whose arrays and
    variadic pointers have their lengths behind them; what happens for others. *)
From S2P Require Import Prelude WorkerRange Values Text Types Exports RustWrapper CWrapper Render CHeader.
From stdpp Require Import strings.
From Stdlib Require Import Ascii.
Open Scope string_scope.
Open Scope list_scope.
Open Scope nat_scope.

(** ** How values are passed *)

(** On a 64-bit target: a pointer, an integer with its signedness and width, a float, a
    boolean. *)
Inductive Abi := AbiPtr | AbiInt (signed : bool) (bits : nat) | AbiFloat (bits : nat) | AbiBool.

#[export] Instance Abi_eq_dec : EqDecision Abi.
Proof. solve_decision. Defined.

Definition c_abi_arms : list (string * Abi) := [
  ("size_t", AbiInt false 64); ("usize", AbiInt false 64); ("uint64_t", AbiInt false 64); ("unsigned long", AbiInt false 64);
  ("int64_t", AbiInt true 64); ("long", AbiInt true 64);
  ("int", AbiInt true 32); ("int32_t", AbiInt true 32);
  ("uint32_t", AbiInt false 32); ("unsigned int", AbiInt false 32);
  ("int16_t", AbiInt true 16); ("short", AbiInt true 16); ("uint16_t", AbiInt false 16);
  ("int8_t", AbiInt true 8); ("uint8_t", AbiInt false 8); ("unsigned char", AbiInt false 8);
  ("float", AbiFloat 32); ("double", AbiFloat 64); ("bool", AbiBool); ("_Bool", AbiBool)].

Definition c_abi (t : string) : option Abi :=
  match arm_of t c_abi_arms with Some a => Some a | None => if ends_with "*" t then Some AbiPtr else None end.

Definition rust_abi (t : string) : option Abi := arm_of t [
  ("usize", AbiInt false 64); ("u64", AbiInt false 64); ("i64", AbiInt true 64);
  ("i32", AbiInt true 32); ("u32", AbiInt false 32);
  ("f32", AbiFloat 32); ("f64", AbiFloat 64); ("bool", AbiBool);
  ("*mut c_void", AbiPtr); ("*const c_void", AbiPtr); ("*const *mut c_void", AbiPtr); ("*const std::ffi::c_char", AbiPtr)].

(** ** Declarations with their lengths *)

Definition is_array (ann : Annotation) (x : string) : bool :=
  bool_decide (x ∈ an_mut_array_params ann) || bool_decide (x ∈ an_array_params ann).

(** The types that the parser knows, and pointers. *)
Definition supported (t : string) : bool :=
  match arm_of t c_param_arms with Some _ => true | None => ends_with "*" t end.

(** The length [x_len] follows an array [x]; variadic pointers and their count are the last
    two; the other parameters are of supported types. *)
Fixpoint well_annotated (ann : Annotation) (raws : list RawParam) : bool :=
  match raws with
  | [] => true
  | p :: rest =>
      if is_array ann (rp_name p) then
        ends_with "*" (rp_c_type p) && negb (String.eqb (rp_c_type p) "void**")
        && match rest with
           | q :: rest' => String.eqb (rp_name q) (rp_name p +:+ "_len") && String.eqb (rp_c_type q) "size_t" && well_annotated ann rest'
           | [] => false
           end
      else if String.eqb (rp_c_type p) "void**" then
        an_variadic ann && match rest with [q] => String.eqb (rp_c_type q) "size_t" && negb (is_array ann (rp_name q)) | _ => false end
      else supported (rp_c_type p) && well_annotated ann rest
  end.

Definition declared_abi (raws : list RawParam) : list (option Abi) := c_abi ∘ rp_c_type <$> raws.

(** ** The symbol *)

Lemma c_sym_params_app ps qs : c_sym_params (ps ++ qs) =
  let! a := c_sym_params ps in let! b := c_sym_params qs in Ret (a ++ b).
Proof.
  unfold c_sym_params. rewrite foldM_app. destruct (foldM _ [] ps) as [a|]; [|done]. cbn [run_bind].
  assert (Hgen : ∀ l acc, foldM (λ acc p, let! ts := c_param_types (cp_kind p) in Ret (acc ++ ts)) (a ++ acc) l
    = let! b := foldM (λ acc p, let! ts := c_param_types (cp_kind p) in Ret (acc ++ ts)) acc l in Ret (a ++ b)).
  { induction l as [|p l IH]; intros acc; [done|]. cbn [foldM]. destruct (c_param_types (cp_kind p)) as [ts|]; [|done]. cbn [run_bind].
    by rewrite <- (assoc_L (++)), IH. }
  rewrite <- (app_nil_r a) at 1. apply Hgen.
Qed.

Lemma arm_of_Some {A} t (arms : list (string * A)) a : arm_of t arms = Some a → (t, a) ∈ arms.
Proof.
  induction arms as [|[u b] arms IH]; [done|]. cbn. destruct (String.eqb t u) eqn:H.
  - apply String.eqb_eq in H as ->. intros [= ->]. left.
  - intros Ha. right. by apply IH.
Qed.

(** A kind that is passed in one slot, as the type [t] is. *)
Definition one_slot (t : string) (k : CmParamKind) : bool :=
  match c_param_types k with Ret [ty] => bool_decide (rust_abi ty = c_abi t) | _ => false end
  && match k with KArrayPtr _ _ | KMutArrayPtr _ _ | KSliceCmTypes => false | _ => true end.

Lemma param_arms_slots : forallb (λ a, String.eqb a.1 "void**" || one_slot a.1 a.2) c_param_arms = true.
Proof. vm_compute. reflexivity. Qed.

Lemma abi_arms_values : forallb (λ a, negb (ends_with "*" a.1)) c_abi_arms = true.
Proof. reflexivity. Qed.

Lemma c_abi_pointer t : ends_with "*" t = true → c_abi t = Some AbiPtr.
Proof.
  intros Ht. unfold c_abi. destruct (arm_of t c_abi_arms) as [a|] eqn:Ha; [|by rewrite Ht].
  apply arm_of_Some, list_elem_of_In in Ha. apply (proj1 (forallb_forall _ _) abi_arms_values) in Ha. cbn [fst] in Ha. by rewrite Ht in Ha.
Qed.

(** A parameter that is no array, outside variadic mode. *)
Lemma classify_plain p ann : is_array ann (rp_name p) = false → rp_c_type p ≠ "void**" → supported (rp_c_type p) = true →
  ∃ k ty, classify_c_param p ann false = Some k ∧ c_param_types k = Ret [ty] ∧ rust_abi ty = c_abi (rp_c_type p)
    ∧ match k with KArrayPtr _ _ | KMutArrayPtr _ _ | KSliceCmTypes => False | _ => True end.
Proof.
  intros [Hm Ha]%orb_false_iff Hv. unfold classify_c_param, supported. rewrite Hm, Ha. cbn [andb].
  destruct (arm_of (rp_c_type p) c_param_arms) as [k|] eqn:Hk.
  - intros _. exists k. apply arm_of_Some, list_elem_of_In in Hk. apply (proj1 (forallb_forall _ _) param_arms_slots) in Hk.
    cbn [fst snd] in Hk. rewrite (proj2 (String.eqb_neq _ _) Hv) in Hk. cbn [orb] in Hk. apply andb_prop in Hk as [H1 H2].
    destruct (c_param_types k) as [[|ty [|]]|] eqn:Ht; try done. apply bool_decide_eq_true in H1. exists ty.
    do 3 (split; [done|]). by destruct k.
  - intros Hs. rewrite Hs. exists KOpaquePtr, "*mut c_void". do 2 (split; [done|]). split; [|done]. by rewrite c_abi_pointer.
Qed.

(** ** The entry of a declaration *)

Lemma not_companion ps x k name : match k with KArrayPtr _ _ | KMutArrayPtr _ _ => False | _ => True end →
  is_companion_len (ps ++ [mkParam x k]) name = false.
Proof. intros Hk. unfold is_companion_len. rewrite last_snoc. by destruct k. Qed.

Lemma array_kind ann p b : is_array ann (rp_name p) = true →
  ∃ k, classify_c_param p ann b = Some k ∧ (∃ t, c_param_types k = Ret [t; "usize"] ∧ rust_abi t = Some AbiPtr)
    ∧ match k with KArrayPtr _ _ | KMutArrayPtr _ _ => True | _ => False end
    ∧ (∀ ps name, is_companion_len (ps ++ [mkParam (rp_name p) k]) name = String.eqb (rp_name p +:+ "_len") name).
Proof.
  intros Ha. unfold is_array in Ha. unfold classify_c_param, is_companion_len.
  destruct (bool_decide (rp_name p ∈ an_mut_array_params ann)); [|cbn [orb] in Ha; rewrite Ha]; eexists; (split; [reflexivity|]); split.
  - by exists "*mut c_void".
  - split; [done|]. intros ps name. by rewrite last_snoc.
  - by exists "*const c_void".
  - split; [done|]. intros ps name. by rewrite last_snoc.
Qed.

(** What the rest of the parameters adds to the entry: parameters and lengths with the names
    of the declaration, and symbol slots that are those declared. *)
Record extends (raws : list RawParam) (ps0 : list CmParam) (au0 : list string) (b : Build) (ps : list CmParam) (au : list string) : Prop := {
  ex_params : bd_cm_params b = ps0 ++ ps;
  ex_auto : bd_auto_params b = au0 ++ au;
  ex_names : (cp_name <$> ps) ++ au ≡ₚ rp_name <$> raws;
  ex_slots : ∃ tys, c_sym_params ps = Ret tys ∧ rust_abi <$> tys = declared_abi raws;
  ex_slice_last : ∀ j p, ps !! j = Some p → cp_kind p = KSliceCmTypes → S j = length ps;
}.

Lemma extends_nil ps0 au0 seen : extends [] ps0 au0 (mkBuild ps0 au0 seen) [] [].
Proof. constructor; cbn; rewrite ?app_nil_r; try done. by exists []. Qed.

(** One parameter in front of the others. *)
Lemma extends_cons p k ty rest ps0 au0 b ps au : c_param_types k = Ret [ty] → rust_abi ty = c_abi (rp_c_type p) → k ≠ KSliceCmTypes →
  extends rest (ps0 ++ [mkParam (rp_name p) k]) au0 b ps au →
  extends (p :: rest) ps0 au0 b (mkParam (rp_name p) k :: ps) au.
Proof.
  intros Hk Hty Hns [H1 H2 H3 (tys & Ht1 & Ht2) H5]. constructor.
  - by rewrite H1, <- (assoc_L (++)).
  - done.
  - cbn. by rewrite H3.
  - exists (ty :: tys). change (mkParam (rp_name p) k :: ps) with ([mkParam (rp_name p) k] ++ ps). rewrite c_sym_params_app.
    unfold c_sym_params at 1. cbn [foldM cp_kind]. rewrite Hk. cbn [run_bind app]. rewrite Ht1. cbn [run_bind app]. split; [done|].
    change (declared_abi (p :: rest)) with (c_abi (rp_c_type p) :: declared_abi rest).
    change (rust_abi <$> ty :: tys) with (rust_abi ty :: (rust_abi <$> tys)). by rewrite Hty, Ht2.
  - intros [|j] q; cbn; [by intros [= <-]|]. intros Hj Hq. f_equal. by apply (H5 j q).
Qed.

(** An array and its length. *)
Lemma extends_array p q k t rest ps0 au0 b ps au (Hk : c_param_types k = Ret [t; "usize"]) (Hta : rust_abi t = Some AbiPtr) :
  ends_with "*" (rp_c_type p) = true → rp_c_type q = "size_t" → k ≠ KSliceCmTypes →
  extends rest (ps0 ++ [mkParam (rp_name p) k]) (au0 ++ [rp_name q]) b ps au →
  extends (p :: q :: rest) ps0 au0 b (mkParam (rp_name p) k :: ps) (rp_name q :: au).
Proof.
  intros Hp Hq Hns [H1 H2 H3 (tys & Ht1 & Ht2) H5]. constructor.
  - by rewrite H1, <- (assoc_L (++)).
  - by rewrite H2, <- (assoc_L (++)).
  - cbn. f_equiv. by rewrite <- Permutation_middle, H3.
  - exists (t :: "usize" :: tys). change (mkParam (rp_name p) k :: ps) with ([mkParam (rp_name p) k] ++ ps). rewrite c_sym_params_app.
    unfold c_sym_params at 1. cbn [foldM cp_kind]. rewrite Hk. cbn [run_bind app]. rewrite Ht1. cbn [run_bind app]. split; [done|].
    change (declared_abi (p :: q :: rest)) with (c_abi (rp_c_type p) :: c_abi (rp_c_type q) :: declared_abi rest).
    change (rust_abi <$> t :: "usize" :: tys) with (rust_abi t :: rust_abi "usize" :: (rust_abi <$> tys)).
    by rewrite Hta, Ht2, c_abi_pointer, Hq.
  - intros [|j] r; cbn; [by intros [= <-]|]. intros Hj Hr. f_equal. by apply (H5 j r).
Qed.

Lemma build_extends ann raws ps0 au0 : well_annotated ann raws = true → NoDup (rp_name <$> raws) →
  (∀ p, p ∈ raws → is_companion_len ps0 (rp_name p) = false) →
  ∃ ps au, extends raws ps0 au0 (foldl (build_param ann) (mkBuild ps0 au0 false) raws) ps au.
Proof.
  remember (length raws) as n eqn:Hn. revert raws ps0 au0 Hn.
  induction n as [n IH] using lt_wf_ind. intros [|p rest] ps0 au0 Hn Hwell Hnd Hcomp; [eexists _, _; apply extends_nil|].
  cbn [foldl]. unfold build_param at 2. cbn [bd_cm_params bd_auto_params bd_seen_void_ptr_ptr]. rewrite (Hcomp p) by left. cbn [andb orb].
  cbn [well_annotated] in Hwell. cbn [fmap list_fmap] in Hnd. apply NoDup_cons in Hnd as [Hpn Hnd].
  destruct (is_array ann (rp_name p)) eqn:Ha.
  - destruct (array_kind ann p false Ha) as (k & Hk & (t & Ht & Hta) & Hkind & Hck). rewrite Hk. apply andb_prop in Hwell as [[Hstar Hv%negb_true_iff]%andb_prop Hrest].
    destruct rest as [|q rest]; [done|]. apply andb_prop in Hrest as [[Hq%String.eqb_eq Hqt%String.eqb_eq]%andb_prop Hrest].
    rewrite Hv. cbn [foldl]. unfold build_param at 2. cbn [bd_cm_params bd_auto_params bd_seen_void_ptr_ptr]. rewrite Hck, Hq, String.eqb_refl.
    cbn [fmap list_fmap] in Hnd. apply NoDup_cons in Hnd as [Hqn Hnd].
    destruct (IH (length rest)) with (raws := rest) (ps0 := ps0 ++ [mkParam (rp_name p) k]) (au0 := au0 ++ [rp_name q]) as (ps & au & Hex);
      [subst n; cbn; lia|done|done|done| |].
    { intros r Hr. rewrite Hck. apply String.eqb_neq. intros Heq. apply Hqn. rewrite Hq, Heq. by apply list_elem_of_fmap_2. }
    rewrite <- Hq. eexists _, _. eapply extends_array; try done. by intros ->.
  - destruct (String.eqb (rp_c_type p) "void**") eqn:Hv.
    + apply String.eqb_eq in Hv. apply andb_prop in Hwell as [Hvar Hrest]. destruct rest as [|q [|]]; try done.
      apply andb_prop in Hrest as [Hqt Hqa%negb_true_iff]. unfold classify_c_param. apply orb_false_iff in Ha as [-> ->]. rewrite Hv. cbn [andb arm_of c_param_arms String.eqb Ascii.eqb Bool.eqb].
      cbn [foldl]. unfold build_param. cbn [bd_cm_params bd_auto_params bd_seen_void_ptr_ptr]. rewrite not_companion by done.
      unfold classify_c_param. apply orb_false_iff in Hqa as [-> ->]. rewrite Hvar, Hqt. cbn [andb orb].
      apply String.eqb_eq in Hqt. exists [mkParam (rp_name p) KSliceCmTypes], [rp_name q]. constructor; try done.
      * exists ["*const *mut c_void"; "usize"]. split; [done|]. unfold declared_abi. cbn. by rewrite Hv, Hqt.
      * intros [|j] r; [done|]. by destruct j.
    + apply andb_prop in Hwell as [Hs Hrest]. apply String.eqb_neq in Hv.
      destruct (classify_plain p ann Ha Hv Hs) as (k & ty & Hk & Hty & Habi & Hkind). rewrite Hk.
      destruct (IH (length rest)) with (raws := rest) (ps0 := ps0 ++ [mkParam (rp_name p) k]) (au0 := au0) as (ps & au & Hex);
        [subst n; cbn; lia|done|done|done| |].
      { intros r Hr. apply not_companion. by destruct k. }
      eexists _, _. eapply extends_cons; try done. by intros ->.
Qed.

(** ** The expressions passed *)

Definition is_mut_array (p : CmParam) : bool := match cp_kind p with KMutArrayPtr _ _ => true | _ => false end.

(** What the loop over the parameters appends for [p] when [idx] is the next argument. *)
Definition extracts (e : ExportedFn) (idx : nat) (p : CmParam) (x : ParamExtraction) : Prop :=
  ∃ next mp, c_param_step e (mkScan (Z.of_nat idx) [] None) p = Ret (mkScan next [x] mp).

(** The expressions in the call that [render_c_entry_wrapper] writes. *)
Definition c_call_args (s : CScan) : list string :=
  match cs_mut_array_param s with
  | Some (_, p) => match cp_kind p with KMutArrayPtr _ len_param => call_args_for_closure len_param s | _ => [] end
  | None => all_call_args s
  end.

(** The expressions for a parameter fill its slots; those of a mutable array are the array
    and its length. *)
Definition fills (p : CmParam) (tys : list string) (x : ParamExtraction) : Prop :=
  length (pe_call_args x) = length tys ∧ pe_is_mut_array x = is_mut_array p
  ∧ match cp_kind p with
    | KMutArrayPtr _ len => pe_call_args x = ["v.as_mut_ptr() as *mut c_void"; len]
    | _ => True
    end.

Lemma c_param_step_extracts e i s p tys : cp_name p ∉ ef_auto_params e → c_param_types (cp_kind p) = Ret tys → cs_arg_idx s = Z.of_nat i →
  ∃ x next, c_param_step e s p = Ret (mkScan next (cs_extractions s ++ [x])
      (if is_mut_array p then Some (cs_arg_idx s, p) else cs_mut_array_param s))
    ∧ extracts e i p x ∧ fills p tys x ∧ (cp_kind p ≠ KSliceCmTypes → next = as_u64 (Z.of_nat i + 1)).
Proof.
  intros Hn Hty Hi. unfold extracts, c_param_step, fills, is_mut_array, push_extraction. rewrite Hi, bool_decide_eq_false_2 by done.
  destruct (cp_kind p); try discriminate Hty; injection Hty as <-; do 2 eexists; (split; [reflexivity|]);
    (split; [do 2 eexists; reflexivity|]); by repeat split.
Qed.

(** What the loop has after the parameters [qs]. *)
Record scanned (e : ExportedFn) (qs : list CmParam) (s : CScan) : Prop := {
  sc_length : length (cs_extractions s) = length qs;
  sc_each : ∀ j p x, qs !! j = Some p → cs_extractions s !! j = Some x →
    extracts e j p x ∧ ∃ tys, c_param_types (cp_kind p) = Ret tys ∧ fills p tys x;
  sc_slots : ∃ tys, c_sym_params qs = Ret tys ∧ length (all_call_args s) = length tys;
  sc_mut : match cs_mut_array_param s with
           | Some (k, p) => ∃ j, k = Z.of_nat j ∧ qs !! j = Some p ∧ is_mut_array p = true
           | None => has_mut_array s = false
           end;
}.

Lemma scanned_step e qs s p tys : scanned e qs s → cp_name p ∉ ef_auto_params e → c_param_types (cp_kind p) = Ret tys →
  cs_arg_idx s = Z.of_nat (length qs) →
  ∃ s', c_param_step e s p = Ret s' ∧ scanned e (qs ++ [p]) s'
    ∧ (cp_kind p ≠ KSliceCmTypes → cs_arg_idx s' = as_u64 (Z.of_nat (length qs) + 1)).
Proof.
  intros [H1 H2 (ts & H3 & H3') H4] Hn Hty Hi. destruct (c_param_step_extracts e (length qs) s p tys Hn Hty Hi) as (x & next & Hs & Hx & Hf & Hnext).
  eexists. split; [exact Hs|]. split; [|exact Hnext]. constructor; cbn [cs_extractions cs_mut_array_param].
  - rewrite !length_app, H1. done.
  - intros j q y Hj Hy. rewrite lookup_snoc_Some in Hj. rewrite lookup_snoc_Some in Hy.
    destruct Hj as [[? Hj]|[-> <-]], Hy as [[? Hy]|[? <-]]; [by apply H2|lia|lia|]. split; [done|]. by exists tys.
  - exists (ts ++ tys). rewrite c_sym_params_app, H3. unfold c_sym_params at 1. cbn [foldM]. rewrite Hty. split; [done|].
    unfold all_call_args in *. cbn [cs_extractions]. rewrite fmap_app, concat_app. cbn. rewrite app_nil_r, !length_app, H3'. f_equal. apply Hf.
  - destruct (is_mut_array p) eqn:Hm.
    + exists (length qs). rewrite Hi. split; [done|]. split; [by apply list_lookup_middle|done].
    + destruct (cs_mut_array_param s) as [[k q]|].
      * destruct H4 as (j & Hk & Hj & Hq). exists j. split; [done|]. split; [|done]. by apply lookup_app_l_Some.
      * unfold has_mut_array in *. cbn [cs_extractions]. rewrite existsb_app, H4. cbn. destruct Hf as (_ & -> & _). by rewrite Hm.
Qed.

Lemma scan_params e qs ps s tys : scanned e qs s → cs_arg_idx s = Z.of_nat (length qs) →
  (Z.of_nat (length qs + length ps) < two64)%Z →
  (∀ p, p ∈ ps → cp_name p ∉ ef_auto_params e) → c_sym_params ps = Ret tys →
  (∀ j p, ps !! j = Some p → cp_kind p = KSliceCmTypes → S j = length ps) →
  ∃ s', foldM (c_param_step e) s ps = Ret s' ∧ scanned e (qs ++ ps) s'.
Proof.
  revert qs s tys. induction ps as [|p ps IH]; intros qs s tys Hs Hi Hlt Hn Hty Hlast; [exists s; by rewrite app_nil_r|].
  change (p :: ps) with ([p] ++ ps) in Hty. rewrite c_sym_params_app in Hty. unfold c_sym_params in Hty at 1. cbn [foldM] in Hty.
  destruct (c_param_types (cp_kind p)) as [t1|] eqn:Ht1; [|done]. cbn [run_bind app] in Hty.
  destruct (c_sym_params ps) as [t2|] eqn:Ht2; [|done].
  destruct (scanned_step e qs s p t1 Hs) as (s1 & Hs1 & Hok & Hidx); [apply Hn; left|done|done|]. cbn [foldM]. rewrite Hs1. cbn [run_bind].
  destruct ps as [|q ps]; [by exists s1|]. cbn [length] in Hlt.
  replace (qs ++ p :: q :: ps) with ((qs ++ [p]) ++ q :: ps) by (by rewrite <- (assoc_L (++))).
  eapply IH; [done| | | |done|].
  - rewrite Hidx; [|intros Hk; by specialize (Hlast 0 p eq_refl Hk)]. rewrite length_app. cbn [length].
    unfold as_u64. rewrite Z.mod_small; lia.
  - rewrite length_app. cbn [length]. lia.
  - intros r Hr. apply Hn. by right.
  - intros j r Hj Hr. specialize (Hlast (S j) r Hj Hr). cbn in Hlast |- *. lia.
Qed.

(** In the closure every mutable array is passed as the last one: the slots are filled, and
    the expressions are those extracted when there is one such array. *)
Lemma closure_args e qs s len : scanned e qs s → length (call_args_for_closure len s) = length (all_call_args s).
Proof.
  intros [H1 H2 _ _]. unfold call_args_for_closure, all_call_args.
  assert (Hall : Forall (λ x, pe_is_mut_array x = true → length (pe_call_args x) = 2) (cs_extractions s)).
  { apply Forall_lookup_2. intros j x Hx. destruct (lookup_lt_is_Some_2 qs j) as [p Hp]; [rewrite <- H1; by eapply lookup_lt_Some|].
    destruct (H2 j p x Hp Hx) as (_ & ? & _ & _ & -> & Hk). unfold is_mut_array. destruct (cp_kind p); try done. by rewrite Hk. }
  clear -Hall. induction Hall as [|x xs Hx _ IH]; [done|]. cbn. rewrite !length_app, IH. destruct (pe_is_mut_array x); [by rewrite Hx|done].
Qed.

Lemma closure_args_one e qs s k p : scanned e qs s → cs_mut_array_param s = Some (k, p) →
  (∀ i j p q, qs !! i = Some p → qs !! j = Some q → is_mut_array p = true → is_mut_array q = true → i = j) →
  c_call_args s = all_call_args s.
Proof.
  intros [H1 H2 _ H4] Hm Hone. unfold c_call_args. rewrite Hm in H4 |- *. destruct H4 as (j & _ & Hj & Hp).
  destruct (cp_kind p) eqn:Hk; try (unfold is_mut_array in Hp; by rewrite Hk in Hp).
  unfold call_args_for_closure, all_call_args. f_equal. apply list_fmap_ext. intros i x Hx.
  destruct (pe_is_mut_array x) eqn:Hxm; [|done].
  destruct (lookup_lt_is_Some_2 qs i) as [q Hq]; [rewrite <- H1; by eapply lookup_lt_Some|].
  destruct (H2 i q x Hq Hx) as (_ & ? & _ & _ & Hq' & Hargs). rewrite Hxm in Hq'.
  assert (i = j) as -> by (by eapply Hone). assert (q = p) as -> by congruence. by rewrite Hk in Hargs.
Qed.

(** ** The text *)

Definition occurs (u t : string) : Prop := ∃ a b, t = a +:+ u +:+ b.

Lemma occurs_here u b : occurs u (u +:+ b).
Proof. by exists "", b. Qed.

Lemma occurs_l u t x : occurs u t → occurs u (x +:+ t).
Proof. intros (a & b & ->). exists (x +:+ a), b. by rewrite !string_app_assoc. Qed.

Lemma occurs_r u t x : occurs u t → occurs u (t +:+ x).
Proof. intros (a & b & ->). exists a, (b +:+ x). by rewrite !string_app_assoc. Qed.

Lemma occurs_refl u : occurs u u.
Proof. exists "", "". by rewrite string_app_nil_r. Qed.

Lemma occurs_fmt u l x : x ∈ l → occurs u x → occurs u (fmt l).
Proof.
  intros Hx Hu. induction l as [|y l IH]; [by apply not_elem_of_nil in Hx|]. cbn.
  apply elem_of_cons in Hx as [<-|Hx]; [by apply occurs_r | apply occurs_l; by apply IH].
Qed.

Lemma occurs_line u l x : x ∈ l → occurs u x → occurs u (line l).
Proof. intros Hx Hu. unfold line. apply occurs_r. by eapply occurs_fmt. Qed.

(** What the parser yields as a result is one of a C function. *)
Definition c_ret (r : CmRet) : bool := match r with RCmTypes | ROwnedString => false | _ => true end.

Lemma classify_c_return_c ret ann : c_ret (classify_c_return ret ann) = true.
Proof.
  unfold classify_c_return. destruct (arm_of ret (c_return_arms ann)) as [r|] eqn:Hr.
  - apply arm_of_Some in Hr. unfold c_return_arms in Hr.
    repeat (apply elem_of_cons in Hr as [[= _ ->]|Hr]; [by try destruct (an_out_len ann)|]). by apply not_elem_of_nil in Hr.
  - destruct (ends_with "*" ret); [|done]. by destruct (an_out_len ann).
Qed.

Lemma c_ret_type_Ret r : c_ret r = true → ∃ t, c_ret_type r = Ret t.
Proof. destruct r; intros ?; try done; by eexists. Qed.

(** Every form of the call has the expression in it. *)
Lemma c_final_ret_call r call : c_ret r = true → ∃ t, c_final_ret r call = Ret t ∧ occurs call t.
Proof.
  intros Hr. destruct r; try done; eexists; (split; [reflexivity|]).
  - apply occurs_r, occurs_line with call; [set_solver | apply occurs_refl].
  - apply occurs_r, occurs_line with call; [set_solver | apply occurs_refl].
  - apply occurs_r, occurs_line with call; [set_solver | apply occurs_refl].
  - eapply occurs_fmt; [left|]. apply occurs_line with call; [set_solver | apply occurs_refl].
  - eapply occurs_fmt; [left|]. apply occurs_line with call; [set_solver | apply occurs_refl].
Qed.

Definition c_call_expr (e : ExportedFn) (args : list string) : string :=
  fmt ["(*"; sym_static_name (ef_cm_name e); ")("; str_join ", " args; ")"].

Lemma c_closure_call_call e qs s : scanned e qs s → has_mut_array s = true →
  ∃ t, c_closure_call e s = Ret t ∧ occurs (c_call_expr e (c_call_args s)) t.
Proof.
  intros [H1 H2 H3 H4] Hm. unfold c_closure_call, c_call_args. destruct (cs_mut_array_param s) as [[k p]|]; [|by rewrite H4 in Hm].
  destruct H4 as (j & _ & _ & Hp). unfold is_mut_array in Hp. cbn [unwrap run_bind snd]. destruct (cp_kind p); try done.
  eexists. split; [reflexivity|]. eapply occurs_fmt; [right; left|]. eapply occurs_line; [right; left|]. apply occurs_refl.
Qed.

Lemma render_has_call e qs s tys : scanned e qs s → c_extractions e = Ret s → c_sym_params (ef_cm_params e) = Ret tys →
  c_ret (ef_cm_ret e) = true → ∃ t, render_c_entry_wrapper e = Ret t ∧ occurs (c_call_expr e (c_call_args s)) t.
Proof.
  intros Hs He Hty Hr. unfold render_c_entry_wrapper, build_c_sym_type. rewrite Hty. cbn [run_bind].
  destruct (c_ret_type_Ret _ Hr) as (rt & ->). cbn [run_bind]. rewrite He. cbn [run_bind].
  assert (∃ body, (if has_mut_array s then c_closure_call e s
      else c_final_ret (ef_cm_ret e) (c_call_expr e (all_call_args s))) = Ret body ∧ occurs (c_call_expr e (c_call_args s)) body)
    as (body & Hbody & Hocc).
  { destruct (has_mut_array s) eqn:Hm; [by eapply c_closure_call_call|].
    replace (c_call_args s) with (all_call_args s); [by apply c_final_ret_call|]. unfold c_call_args.
    destruct Hs as [H1 H2 _ H4]. destruct (cs_mut_array_param s) as [[k p]|]; [|done]. exfalso. destruct H4 as (j & _ & Hj & Hp).
    destruct (lookup_lt_is_Some_2 (cs_extractions s) j) as [x Hx]; [rewrite H1; by eapply lookup_lt_Some|].
    destruct (H2 j p x Hj Hx) as (_ & ? & _ & _ & Hxm & _). rewrite Hp in Hxm.
    apply Bool.not_true_iff_false in Hm. apply Hm. apply existsb_exists. exists x. split; [|done].
    apply list_elem_of_In. by apply list_elem_of_lookup_2 in Hx. }
  unfold c_call_expr at 1 in Hbody. rewrite Hbody. cbn [run_bind]. eexists. split; [reflexivity|].
  eapply occurs_fmt; [|exact Hocc]. do 6 right. left.
Qed.

(** C25. A C declaration with fewer than 2^64 parameters of different names, in which every
    annotated array is a pointer, other than void**, with its size_t length named after it right behind
    it, a variadic pointer is followed by its size_t count as the last parameter, and every
    other parameter is a pointer or of a type that the parser knows. The parser and the
    generator together give a wrapper whose symbol takes what the C function declares, slot by
    slot (a pointer, an integer of the same width and sign, a float or a boolean), and whose
    call passes as many expressions as the declaration has parameters. Each parameter that is
    not a derived length is extracted from the argument of its own position; and when at most
    one array is mutable, the call passes exactly what was extracted, in order. *)
Theorem c_call_matches_declaration ann ret name raws
    (Hwell : well_annotated ann raws = true) (Hnames : NoDup (rp_name <$> raws)) (Hlen : (Z.of_nat (length raws) < two64)%Z) :
  let e := c_entry ann ret name raws in
  ∃ t s tys, render_c_entry_wrapper e = Ret t ∧ c_extractions e = Ret s
    ∧ c_sym_params (ef_cm_params e) = Ret tys ∧ rust_abi <$> tys = declared_abi raws
    ∧ length (c_call_args s) = length raws ∧ occurs (c_call_expr e (c_call_args s)) t
    ∧ (∀ j p, ef_cm_params e !! j = Some p → ∃ x, cs_extractions s !! j = Some x ∧ extracts e j p x)
    ∧ ((∀ i j p q, ef_cm_params e !! i = Some p → ef_cm_params e !! j = Some q → is_mut_array p = true → is_mut_array q = true → i = j) →
       c_call_args s = all_call_args s).
Proof.
  intros e. destruct (build_extends ann raws [] [] Hwell Hnames) as (ps & au & [Hps Hau Hperm (tys & Hty & Habi) Hslice]); [done|].
  cbn [app] in Hps, Hau. change (bd_cm_params (build_params ann raws) = ps) in Hps. change (bd_auto_params (build_params ann raws) = au) in Hau.
  assert (Hp : ef_cm_params e = ps) by exact Hps. assert (Ha : ef_auto_params e = au) by exact Hau.
  assert (Hr : c_ret (ef_cm_ret e) = true) by apply classify_c_return_c. clearbody e. rewrite Hp. clear Hps Hau.
  assert (Hlens : length ps ≤ length raws).
  { apply Permutation_length in Hperm. rewrite length_app, !length_fmap in Hperm. lia. }
  destruct (scan_params e [] ps (mkScan 0 [] None) tys) as (s & Hs & Hok); [by constructor; try done; exists []|done|cbn; lia| |done|done|].
  { intros p Hin. rewrite Ha. rewrite <- Hperm in Hnames. apply NoDup_app in Hnames as (_ & Hdis & _). apply Hdis. by apply list_elem_of_fmap_2. }
  cbn [app] in Hok. assert (He : c_extractions e = Ret s) by (unfold c_extractions; by rewrite Hp).
  destruct (render_has_call e ps s tys) as (t & Ht & Hocc); [done|done|by rewrite Hp|done|].
  exists t, s, tys. do 4 (split; [done|]). split; [|split; [done|split]].
  - pose proof (sc_slots _ _ _ Hok) as (ts & H3 & H3'). pose proof (sc_mut _ _ _ Hok) as H4. assert (Hlt : length (all_call_args s) = length raws).
    { rewrite H3'. replace ts with tys by congruence. apply (f_equal length) in Habi. unfold declared_abi in Habi. by rewrite !length_fmap in Habi. }
    unfold c_call_args. destruct (cs_mut_array_param s) as [[k p]|]; [|done]. destruct H4 as (j & _ & _ & Hm).
    unfold is_mut_array in Hm. destruct (cp_kind p); try done. by rewrite (closure_args e ps).
  - intros j p Hj. destruct (lookup_lt_is_Some_2 (cs_extractions s) j) as [x Hx].
    { rewrite (sc_length _ _ _ Hok). by eapply lookup_lt_Some. }
    exists x. split; [done|]. by eapply (sc_each _ _ _ Hok).
  - intros Hone. destruct (cs_mut_array_param s) as [[k p]|] eqn:Hm; [by eapply closure_args_one|].
    unfold c_call_args. by rewrite Hm.
Qed.

(** A declaration with an array to be changed, a read one, a number and variadic handles. *)
Definition fold_ann : Annotation := mkAnnotation true None None ["gains"] ["acc"].

Definition fold_params : list RawParam := [
  mkRaw "acc" "float*"; mkRaw "acc_len" "size_t"; mkRaw "gains" "const double*"; mkRaw "gains_len" "size_t";
  mkRaw "scale" "double"; mkRaw "rows" "void**"; mkRaw "count" "size_t"].

Theorem c_call_matches_declaration_witness :
  let e := c_entry fold_ann "void" "fold_rows" fold_params in
  ∃ t s tys, render_c_entry_wrapper e = Ret t ∧ c_extractions e = Ret s
    ∧ c_sym_params (ef_cm_params e) = Ret tys ∧ rust_abi <$> tys = declared_abi fold_params
    ∧ length (c_call_args s) = length fold_params ∧ occurs (c_call_expr e (c_call_args s)) t
    ∧ (∀ j p, ef_cm_params e !! j = Some p → ∃ x, cs_extractions s !! j = Some x ∧ extracts e j p x)
    ∧ ((∀ i j p q, ef_cm_params e !! i = Some p → ef_cm_params e !! j = Some q → is_mut_array p = true → is_mut_array q = true → i = j) →
       c_call_args s = all_call_args s).
Proof.
  apply (c_call_matches_declaration fold_ann "void" "fold_rows" fold_params).
  - reflexivity.
  - apply (bool_decide_unpack _). vm_compute. exact I.
  - vm_compute. reflexivity.
Defined.

(** Its call: the arguments of the function are seven, those of the task four and the
    variadic ones. *)
Example fold_rows_call :
  (let! s := c_extractions (c_entry fold_ann "void" "fold_rows" fold_params) in Ret (c_call_args s)) =
  Ret ["v.as_mut_ptr() as *mut c_void"; "acc_len"; "gains_ptr"; "gains_len"; "scale"; "__handles.as_ptr()"; "__handles.len()"].
Proof. vm_compute. reflexivity. Qed.

(** ** Declarations outside *)

(** The types of the symbol and the expressions of the call, for a declaration. *)
Definition c_slots (ann : Annotation) (raws : list RawParam) : run (list (option Abi) * list string) :=
  let e := c_entry ann "void" "f" raws in
  let! tys := c_sym_params (ef_cm_params e) in
  let! s := c_extractions e in
  Ret (rust_abi <$> tys, c_call_args s).

(** An array without its length: the function declares one parameter, and the wrapper passes
    two. *)
Lemma array_without_length :
  c_slots (mkAnnotation false None None ["xs"] []) [mkRaw "xs" "float*"] =
    Ret ([Some AbiPtr; Some (AbiInt false 64)], ["xs_ptr"; "xs_len"])
  ∧ declared_abi [mkRaw "xs" "float*"] = [Some AbiPtr].
Proof. split; vm_compute; reflexivity. Qed.

(** Without the annotation [variadic] a [void**] still takes all the arguments that are left
    and two slots; the parameter behind it reads the argument of index [usize::MAX] and
    becomes a third slot. *)
Lemma unannotated_handles :
  c_slots Annotation_default [mkRaw "hs" "void**"; mkRaw "n" "size_t"] =
    Ret ([Some AbiPtr; Some (AbiInt false 64); Some (AbiInt false 64)], ["__handles.as_ptr()"; "__handles.len()"; "n"])
  ∧ declared_abi [mkRaw "hs" "void**"; mkRaw "n" "size_t"] = [Some AbiPtr; Some (AbiInt false 64)]
  ∧ (let! s := c_extractions (c_entry Annotation_default "void" "f" [mkRaw "hs" "void**"; mkRaw "n" "size_t"]) in
     Ret (pe_pre_lines <$> last (cs_extractions s))) =
    Ret (Some [tpl "    let n = match args[18446744073709551615] { CmTypes::Usize(x) => x as usize, _ => panic!(~f: expected Usize for n~) };"]).
Proof. split_and!; vm_compute; reflexivity. Qed.

(** Behind the variadic pointers every [size_t] counts as their number and is dropped: of
    the three parameters two are passed. *)
Lemma second_size_dropped :
  c_slots (mkAnnotation true None None [] []) [mkRaw "hs" "void**"; mkRaw "n" "size_t"; mkRaw "stride" "size_t"] =
    Ret ([Some AbiPtr; Some (AbiInt false 64)], ["__handles.as_ptr()"; "__handles.len()"]).
Proof. vm_compute. reflexivity. Qed.

(** Of two mutable arrays the last one is passed for both: the first one is never written. *)
Lemma two_mutable_arrays :
  c_slots (mkAnnotation false None None [] ["a"; "b"])
      [mkRaw "a" "float*"; mkRaw "a_len" "size_t"; mkRaw "b" "float*"; mkRaw "b_len" "size_t"] =
    Ret ([Some AbiPtr; Some (AbiInt false 64); Some AbiPtr; Some (AbiInt false 64)],
         ["v.as_mut_ptr() as *mut c_void"; "b_len"; "v.as_mut_ptr() as *mut c_void"; "b_len"]).
Proof. vm_compute. reflexivity. Qed.

(** The result of a function that changes an array is dropped, whatever its type: the
    wrapper returns [CmTypes::None], though a number is declared. *)
Lemma result_dropped_with_mutable_array :
  let e := c_entry (mkAnnotation false None None [] ["a"]) "int" "f" [mkRaw "a" "float*"; mkRaw "a_len" "size_t"] in
  ef_cm_ret e = RPrimitive PkI32 ∧
  (let! s := c_extractions e in c_closure_call e s) = Ret (text [
    "    args[0].with_any_mut(|v: &mut Vec<f32>| {";
    "        unsafe { (*F_SYM)(v.as_mut_ptr() as *mut c_void, a_len); }";
    "    }).unwrap_or_else(|| panic!(~f: expected Vec<[f32;2]> for a~));";
    "    CmTypes::None"]).
Proof. split; vm_compute; reflexivity. Qed.

(** Numbers of other widths are passed as [i32]: a [long] loses its upper half, a [uint8_t]
    is read as signed. *)
Lemma other_widths :
  c_slots Annotation_default [mkRaw "n" "long"; mkRaw "b" "uint8_t"] =
    Ret ([Some (AbiInt true 32); Some (AbiInt true 32)], ["n"; "b"])
  ∧ declared_abi [mkRaw "n" "long"; mkRaw "b" "uint8_t"] = [Some (AbiInt true 64); Some (AbiInt false 8)].
Proof. split; vm_compute; reflexivity. Qed.

(** An array of bytes is taken from a [Vec<[f32; 2]>]: the function reads the bytes of floats,
    with a length that counts pairs. *)
Lemma bytes_as_floats : c_elem_rust_type "uint8_t" = "[f32; 2]" ∧ c_elem_rust_type "unsigned char" = "[f32; 2]".
Proof. split; reflexivity. Qed.

(** Two functions that share a function to free their results declare its static twice. *)
Definition declares_static (name : string) (t : run string) : bool :=
  match t with Ret t => existsb (λ l, starts_with ("    static " +:+ name +:+ ":") l) (lines t) | Panic => false end.

Lemma shared_free_function :
  let ann := mkAnnotation false (Some "n") (Some "free_vec") [] [] in
  forallb (λ name, declares_static "FREE_VEC_SYM" (render_c_entry_wrapper (c_entry ann "double*" name [mkRaw "n" "size_t"]))) ["sum"; "scan"] = true.
Proof. vm_compute. reflexivity. Qed.
