(* ===== verification/Generate.v ===== *)
(** The generator of wrappers from its input to its output ([generate_from_file] and
    [generate_self_contained_file] of [tomii-converter/src/lib.rs]): the choice of a parser
    by the extension, the entries, the generated texts. Reading and writing files is left
    out: the source is what was read, the results are what is written. *)
From S2P Require Import Prelude WorkerRange Values Text Types Exports RustWrapper CWrapper Render.
From S2P Require Import WrapSem WrapSpec Signature SignatureSpec CHeader CHeaderSpec CCall.
From stdpp Require Import strings.
From Stdlib Require Import Ascii.
Open Scope string_scope.
Open Scope list_scope.
Open Scope nat_scope.

(** The errors of the input. *)
Inductive GenError := CannotParse | UnsupportedExtension (ext : string).

(** [syn::parse_str::<File>]. *)
Class ParseFile := parse_str : string → option File.

Section generate.
Context `{TokenText, ParseFile}.

(** The texts of the files that lie beside the input, by the name of a module. *)
Variable siblings : string → option string.

Definition modules_of (m : string) : option File := src ← siblings m; parse_str src.

(** The entries of the input; [None] when the fuel does not suffice for its modules. *)
Definition entries_of (fuel : nat) (ext source : string) : run (option (GenError + list ExportedFn)) :=
  if String.eqb ext "rs" then
    match parse_str source with
    | None => Ret (Some (inl CannotParse))
    | Some ast => Ret (inr <$> collect_entries_recursive fuel modules_of ast)
    end
  else if String.eqb ext "h" || String.eqb ext "hpp" then
    let! entries := collect_c_entries source in Ret (Some (inr entries))
  else Ret (Some (inl (UnsupportedExtension ext))).

(** What is made of the entries, after an early return with their error. *)
Definition with_entries {A} (entries : option (GenError + list ExportedFn)) (f : list ExportedFn → run A) : run (option (GenError + A)) :=
  match entries with
  | None => Ret None
  | Some (inl err) => Ret (Some (inl err))
  | Some (inr es) => let! a := f es in Ret (Some (inr a))
  end.

(** [wrappers.rs] and [func_reg.rs]. *)
Definition generate_from_file (fuel : nat) (ext source : string) : run (option (GenError + string * string)) :=
  let! entries := entries_of fuel ext source in
  with_entries entries (λ es,
    let! wrappers_code := render_wrappers es in
    Ret (wrappers_code, render_registry es)).

Definition generate_self_contained_file (fuel : nat) (ext source : string) : run (option (GenError + string)) :=
  let! entries := entries_of fuel ext source in with_entries entries render_self_contained.

(** ** Entries are rendered *)

(** An entry of either language: what it has, and what is left to the loop over its kinds. *)
Definition rendered (e : ExportedFn) : Prop :=
  (ef_source_lang e = LangRust ∧ rust_only e = true)
  ∨ (ef_source_lang e = LangC ∧ c_ret (ef_cm_ret e) = true ∧ Forall (λ p, ∃ tys, c_param_types (cp_kind p) = Ret tys) (ef_cm_params e)).

Lemma c_kind_types raw ann b k : classify_c_param raw ann b = Some k → ∃ tys, c_param_types k = Ret tys.
Proof.
  unfold classify_c_param. destruct (bool_decide (rp_name raw ∈ an_mut_array_params ann)); [intros [= <-]; by eexists|].
  destruct (bool_decide (rp_name raw ∈ an_array_params ann)); [intros [= <-]; by eexists|].
  destruct (b && _); [done|]. destruct (arm_of (rp_c_type raw) c_param_arms) as [k'|] eqn:Hk.
  - intros [= ->]. apply arm_of_Some in Hk. unfold c_param_arms in Hk.
    repeat (apply elem_of_cons in Hk as [[= _ ->]|Hk]; [by eexists|]). by apply not_elem_of_nil in Hk.
  - destruct (ends_with "*" _); intros [= <-]; by eexists.
Qed.

Lemma built_kinds ann raws b : Forall (λ p, ∃ tys, c_param_types (cp_kind p) = Ret tys) (bd_cm_params b) →
  Forall (λ p, ∃ tys, c_param_types (cp_kind p) = Ret tys) (bd_cm_params (foldl (build_param ann) b raws)).
Proof.
  revert b. induction raws as [|raw raws IH]; intros b Hb; [done|]. cbn [foldl]. apply IH. unfold build_param.
  destruct (is_companion_len _ _); [done|]. destruct (classify_c_param _ _ _) as [k|] eqn:Hk; [|done].
  apply Forall_app. split; [done|]. apply Forall_singleton. by eapply c_kind_types.
Qed.

Lemma c_entry_rendered ann ret name raws : rendered (c_entry ann ret name raws).
Proof. right. split; [done|]. split; [apply classify_c_return_c|]. by apply built_kinds. Qed.

Lemma collect_lines_rendered turns ls entries es : Forall rendered entries → collect_lines turns entries ls = Ret es → Forall rendered es.
Proof.
  revert ls entries. induction turns as [|turns IH]; intros ls entries Hes; [by intros [= <-]|].
  destruct ls as [|l ls]; [by intros [= <-]|]. cbn [collect_lines]. destruct (annotation_line (trim l)) as [attr|]; [|by apply IH].
  destruct (decl_lines "" ls) as [buf rest]. destruct (String.eqb (trim buf) ""); [by apply IH|].
  unfold build_entry. destruct (parse_c_declaration _) as [[[[ret name] raws]|]|]; cbn [run_bind]; [| |done].
  - apply IH. apply Forall_app. split; [done|]. apply Forall_singleton. apply c_entry_rendered.
  - apply IH. apply Forall_app. by split.
Qed.

Lemma c_sym_params_total ps : Forall (λ p, ∃ tys, c_param_types (cp_kind p) = Ret tys) ps → ∃ tys, c_sym_params ps = Ret tys.
Proof.
  induction 1 as [|p ps [tys Hp] _ [tys' IH]]; [by exists []|]. change (p :: ps) with ([p] ++ ps). rewrite c_sym_params_app.
  unfold c_sym_params at 1. cbn [foldM]. rewrite Hp. cbn [run_bind]. rewrite IH. by eexists.
Qed.

(** The loop over the parameters of a C function ends, and remembers a mutable array. *)
Definition mut_known (s : CScan) : Prop :=
  has_mut_array s = true → ∃ k p, cs_mut_array_param s = Some (k, p) ∧ is_mut_array p = true.

Lemma c_extractions_total e : Forall (λ p, ∃ tys, c_param_types (cp_kind p) = Ret tys) (ef_cm_params e) →
  ∃ s, c_extractions e = Ret s ∧ mut_known s.
Proof.
  intros Hps. unfold c_extractions. apply foldM_inv; [|done]. intros s p Hp Hs. rewrite Forall_forall in Hps. destruct (Hps p Hp) as [tys Hty].
  destruct (decide (cp_name p ∈ ef_auto_params e)) as [Hin|Hout].
  { unfold c_param_step. rewrite bool_decide_eq_true_2 by done. by eexists. }
  unfold c_param_step. rewrite bool_decide_eq_false_2 by done. unfold mut_known, has_mut_array in *.
  destruct (cp_kind p) eqn:Hk; try discriminate Hty; (eexists; split; [reflexivity|]); cbn [cs_extractions cs_mut_array_param push_extraction];
    rewrite existsb_app; cbn [existsb pe_is_mut_array orb]; rewrite ?orb_false_r; try done.
  intros _. eexists _, p. split; [done|]. unfold is_mut_array. by rewrite Hk.
Qed.

Lemma render_c_total e : c_ret (ef_cm_ret e) = true → Forall (λ p, ∃ tys, c_param_types (cp_kind p) = Ret tys) (ef_cm_params e) →
  ∃ t, render_c_entry_wrapper e = Ret t.
Proof.
  intros Hr Hps. unfold render_c_entry_wrapper, build_c_sym_type. destruct (c_sym_params_total _ Hps) as [tys ->]. cbn [run_bind].
  destruct (c_ret_type_Ret _ Hr) as [rt ->]. cbn [run_bind]. destruct (c_extractions_total e Hps) as (s & -> & Hs). cbn [run_bind].
  destruct (has_mut_array s) eqn:Hm.
  - destruct (Hs Hm) as (k & p & Hp & Hmut). unfold c_closure_call. rewrite Hp. cbn [unwrap run_bind snd].
    unfold is_mut_array in Hmut. destruct (cp_kind p); try done. by eexists.
  - destruct (c_final_ret_call (ef_cm_ret e) (fmt ["(*"; sym_static_name (ef_cm_name e); ")("; str_join ", " (all_call_args s); ")"]) Hr) as (t & -> & _).
    by eexists.
Qed.

Lemma render_entry_rendered e : rendered e → ∃ t, render_wrappers_entry e = Ret t.
Proof.
  intros [[Hl Hr]|(Hl & Hr & Hps)]; [by apply render_entry_total|]. unfold render_wrappers_entry, render_entry_wrapper, entry_argspec, is_rust.
  rewrite Hl. destruct (render_c_total e Hr Hps) as [t Ht]. cbn [bool_decide decide]. rewrite bool_decide_eq_true_2 by done. rewrite Ht. cbn [run_bind].
  rewrite bool_decide_eq_true_2 by done. by eexists.
Qed.

Lemma self_contained_total e : ef_source_lang e = LangRust → rust_only e = true → ∃ t, self_contained_entry e = Ret t.
Proof.
  intros Hl Hr. unfold self_contained_entry, render_self_contained_entry_wrapper, render_self_contained_entry_wrapper_unchecked,
    build_direct_rust_call, build_direct_rust_call_unchecked.
  destruct (print_wrapper_total Checked e (ef_cm_name e) Hr) as [body Hb].
  destruct (print_wrapper_total Unchecked e (ef_cm_name e) Hr) as [body_u Hu].
  pose proof (checked_body_text e Hr (ef_cm_name e) (λ b, b)) as Hc. pose proof (unchecked_body_text e Hr (ef_cm_name e) (λ b, b)) as Hcu.
  rewrite Hb in Hc. rewrite Hu in Hcu. cbn [run_bind] in Hc, Hcu.
  destruct (extractions (ef_cm_name e) 0 (ef_cm_params e)); [|done]. cbn [run_bind] in Hc |- *.
  destruct (variadic_binding e); [|done]. cbn [run_bind] in Hc, Hcu |- *.
  destruct (run_imap call_arg 0 (ef_cm_params e)); [|done]. cbn [run_bind] in Hc |- *.
  destruct (final_ret (ef_cm_ret e) _); [|done]. cbn [run_bind] in Hc |- *.
  destruct (entry_argspec e); [|by eexists].
  destruct (extractions_unchecked e); [|done]. cbn [run_bind] in Hcu |- *.
  destruct (run_imap call_arg_unchecked 0 (ef_cm_params e)); [|done]. cbn [run_bind] in Hcu |- *.
  destruct (final_ret (ef_cm_ret e) _) in Hcu |- *; [|done]. by eexists.
Qed.

(** ** From the input to the output *)

Lemma recursive_rendered fuel modules file es : collect_entries_recursive fuel modules file = Some es → Forall rendered es.
Proof.
  revert file es. induction fuel as [|fuel IH]; intros file es; [done|]. rewrite scan_unfold.
  assert (Hfile : Forall rendered (collect_entries file)) by (apply Forall_forall; intros e [Hl Hr]%collected_rust; by left).
  revert Hfile. generalize (collect_entries file) as acc. induction (external_mods file) as [|m mods IHm]; intros acc Hacc; [by intros [= <-]|].
  cbn [foldl mbind option_bind]. destruct (modules m) as [ast|]; [|by apply IHm].
  destruct (collect_entries_recursive fuel modules ast) as [more|] eqn:Hmore; cbn [mbind option_bind]; [|by rewrite scan_none].
  apply IHm. apply Forall_app. split; [done|]. by apply (IH ast).
Qed.

Lemma entries_rendered fuel ext source es : entries_of fuel ext source = Ret (Some (inr es)) → Forall rendered es.
Proof.
  unfold entries_of. destruct (String.eqb ext "rs").
  - destruct (parse_str source) as [ast|]; [|done]. destruct (collect_entries_recursive _ _ _) as [es'|] eqn:Hes; [|done].
    intros [= <-]. by eapply recursive_rendered.
  - destruct (_ || _); [|done]. unfold collect_c_entries. destruct (collect_lines _ _ _) as [es'|] eqn:Hes; [|done].
    intros [= <-]. by eapply collect_lines_rendered.
Qed.

(** Whatever the input, once its entries are known both generators give their texts without
    a panic, and an error is passed on as it is. A Rust input never panics; it is an error
    when it does not parse, and any extension but three is one. *)
Theorem generation_total fuel ext source :
  (∀ es, entries_of fuel ext source = Ret (Some (inr es)) →
     ∃ wrappers_code code, render_wrappers es = Ret wrappers_code
       ∧ generate_from_file fuel ext source = Ret (Some (inr (wrappers_code, render_registry es)))
       ∧ generate_self_contained_file fuel ext source = Ret (Some (inr code)))
  ∧ (∀ err, entries_of fuel ext source = Ret (Some (inl err)) →
       generate_from_file fuel ext source = Ret (Some (inl err)) ∧ generate_self_contained_file fuel ext source = Ret (Some (inl err)))
  ∧ (ext = "rs" → entries_of fuel ext source ≠ Panic ∧
       (entries_of fuel ext source = Ret (Some (inl CannotParse)) ↔ parse_str source = None))
  ∧ (ext ≠ "rs" → ext ≠ "h" → ext ≠ "hpp" → entries_of fuel ext source = Ret (Some (inl (UnsupportedExtension ext)))).
Proof.
  split; [|split; [|split]].
  - intros es Hes. pose proof (entries_rendered _ _ _ _ Hes) as Hall. rewrite Forall_forall in Hall.
    unfold generate_from_file, generate_self_contained_file. rewrite Hes. cbn [run_bind with_entries]. unfold render_wrappers, render_self_contained.
    destruct (render_each_total render_wrappers_entry es) as [body ->]; [intros e He; by apply render_entry_rendered, Hall|].
    destruct (render_each_total self_contained_entry (filter (λ e, is_rust e = true) es)) as [body' ->]; [|do 2 eexists; done].
    intros e [Hl He]%list_elem_of_filter. apply bool_decide_eq_true in Hl.
    destruct (Hall e He) as [[_ Hr]|(Hc & _)]; [by apply self_contained_total | congruence].
  - intros err Herr. unfold generate_from_file, generate_self_contained_file. by rewrite Herr.
  - intros ->. unfold entries_of. cbn [String.eqb Ascii.eqb Bool.eqb]. destruct (parse_str source); [|done]. split; [done|].
    split; [|done]. by destruct (collect_entries_recursive _ _ _).
  - intros H1 H2 H3. unfold entries_of. by rewrite !(proj2 (String.eqb_neq _ _)).
Qed.

(** A header of annotated declarations gives its two files. *)
Theorem header_generated fuel items : Forall item_ok items →
  ∃ wrappers_code, generate_from_file fuel "h" (header_text items) = Ret (Some (inr (wrappers_code, render_registry (concat (item_entries <$> items))))).
Proof.
  intros Hitems. assert (He : entries_of fuel "h" (header_text items) = Ret (Some (inr (concat (item_entries <$> items))))).
  { unfold entries_of. cbn [String.eqb Ascii.eqb Bool.eqb orb]. unfold collect_c_entries, header_text. rewrite lines_text.
    - rewrite length_fmap. by rewrite collect_items.
    - apply Forall_concat, Forall_fmap. eapply Forall_impl; [exact Hitems|]. apply item_in_line. }
  unfold generate_from_file. rewrite He. cbn [run_bind with_entries]. unfold render_wrappers.
  apply entries_rendered in He. rewrite Forall_forall in He.
  destruct (render_each_total render_wrappers_entry (concat (item_entries <$> items))) as [body ->]; [|by eexists].
  intros e Hin. by apply render_entry_rendered, He.
Qed.
End generate.
