(* ===== verification/DynReg.v ===== *)
(** Kernels that a plugin registers when it is loaded ([dynamic_registry.rs], the table of
    [tomii-types/src/lib.rs], the shim of [lib.rs]), and the table that the module generated
    for the plugin ([render_self_contained]) hands over.

    A pointer of the table is null or leads to the cells that may be read from there on;
    reading beyond them, or through null, is undefined behaviour. *)
From S2P Require Import Prelude Types NodeCache Text Exports RustWrapper Render WrapSem.
From stdpp Require Import strings gmap.
From Stdlib Require Import Ascii.
Open Scope string_scope.
Open Scope list_scope.
Open Scope nat_scope.

(** ** The table *)

Inductive Ptr (A : Type) := Null | At (cells : list A).
Arguments Null {A}.
Arguments At {A} cells.

Record ExportArgSpec := mkExportArgSpec { xa_ptr : Ptr ascii; xa_len : nat }.

Record ExportEntry := mkExportEntry {
  xe_name : Ptr ascii; xe_name_len : nat;
  xe_wrap : CmPtr;
  xe_unchecked : option CmPtr;
  xe_bulk : option CmBulkPtr;
  xe_argspec : Ptr ExportArgSpec; xe_argspec_len : nat;
  xe_ret_variant : Ptr ascii; xe_ret_variant_len : nat;
}.

Record ExportTable := mkExportTable { xt_abi_version : Z; xt_entries : Ptr ExportEntry; xt_entries_len : nat }.

Definition TOMII_EXPORT_ABI_VERSION : Z := 1.

(** [*p] and [slice::from_raw_parts]. *)
Definition deref {A} (p : Ptr A) : outcome A := match p with At (a :: _) => Fine a | _ => Undefined end.

Definition from_raw_parts {A} (p : Ptr A) (len : nat) : outcome (list A) :=
  match p with At cells => if len <=? length cells then Fine (take len cells) else Undefined | Null => Undefined end.

(** ** Strings *)

Definition byte_in (lo hi : nat) (c : ascii) : bool := (lo <=? nat_of_ascii c) && (nat_of_ascii c <=? hi).
Definition continuation : ascii → bool := byte_in 128 191.

(** [str::from_utf8]: the well-formed byte sequences of the Unicode standard. *)
Fixpoint utf8 (l : list ascii) : bool :=
  match l with
  | [] => true
  | b :: l1 =>
      if byte_in 0 127 b then utf8 l1
      else match l1 with
      | [] => false
      | b1 :: l2 =>
          if byte_in 194 223 b then continuation b1 && utf8 l2
          else match l2 with
          | [] => false
          | b2 :: l3 =>
              if byte_in 224 239 b then
                byte_in (if byte_in 224 224 b then 160 else 128) (if byte_in 237 237 b then 159 else 191) b1
                && continuation b2 && utf8 l3
              else match l3 with
              | [] => false
              | b3 :: l4 =>
                  byte_in 240 244 b
                  && byte_in (if byte_in 240 240 b then 144 else 128) (if byte_in 244 244 b then 143 else 191) b1
                  && continuation b2 && continuation b3 && utf8 l4
              end
          end
      end
  end.

Definition bytes (s : string) : list ascii := String.list_ascii_of_string s.

(** ** Loading *)

Inductive LoadError :=
  | CannotOpen | NoExportsSymbol | NullTable
  | AbiMismatch (got expected : Z)
  | NullString | InvalidUtf8
  | AlreadyInitialized.

(** The [?] of a result that is computed by reading the table. *)
Definition load_bind {A B} (m : outcome (LoadError + A)) (k : A → outcome (LoadError + B)) : outcome (LoadError + B) :=
  exec! r := m in match r with inl err => Fine (inl err) | inr a => k a end.

Notation "'load!' x ':=' m 'in' k" := (load_bind m (λ x, k))
  (at level 10, x pattern, m at level 100, k at level 200) : tomii_scope.

Definition str_from_raw (ptr : Ptr ascii) (len : nat) : outcome (LoadError + string) :=
  match ptr with
  | Null => Fine (inl NullString)
  | At _ =>
      exec! b := from_raw_parts ptr len in
      Fine (if utf8 b then inr (String.string_of_list_ascii b) else inl InvalidUtf8)
  end.

Record Kernel := mkKernel {
  kn_wrap : CmPtr;
  kn_unchecked : option CmPtr;
  kn_bulk : option CmBulkPtr;
  kn_argspec : option (list string);
  kn_ret_variant : option string;
}.

(** What opening the library of a plugin finds: the table that its symbol returns, if any. *)
Inductive Library := NoLibrary | NoSymbol | Exports (table : Ptr ExportTable).

Fixpoint load_specs (specs : list ExportArgSpec) : outcome (LoadError + list string) :=
  match specs with
  | [] => Fine (inr [])
  | s :: specs' =>
      load! v := str_from_raw (xa_ptr s) (xa_len s) in
      load! vs := load_specs specs' in
      Fine (inr (v :: vs))
  end.

Definition load_argspec (e : ExportEntry) : outcome (LoadError + option (list string)) :=
  match xe_argspec e with
  | Null => Fine (inr None)
  | At _ =>
      exec! specs := from_raw_parts (xe_argspec e) (xe_argspec_len e) in
      load! v := load_specs specs in
      Fine (inr (Some v))
  end.

Definition load_ret_variant (e : ExportEntry) : outcome (LoadError + option string) :=
  match xe_ret_variant e with
  | Null => Fine (inr None)
  | At _ => load! v := str_from_raw (xe_ret_variant e) (xe_ret_variant_len e) in Fine (inr (Some v))
  end.

(** The body of the loop over the entries. *)
Definition load_entry (e : ExportEntry) : outcome (LoadError + string * Kernel) :=
  load! name := str_from_raw (xe_name e) (xe_name_len e) in
  load! argspec := load_argspec e in
  load! ret_variant := load_ret_variant e in
  Fine (inr (name, mkKernel (xe_wrap e) (xe_unchecked e) (xe_bulk e) argspec ret_variant)).

Fixpoint load_entries (map : gmap string Kernel) (entries : list ExportEntry) : outcome (LoadError + gmap string Kernel) :=
  match entries with
  | [] => Fine (inr map)
  | e :: entries' => load! p := load_entry e in load_entries (<[p.1 := p.2]> map) entries'
  end.

Definition table_entries (table : ExportTable) : outcome (list ExportEntry) :=
  match xt_entries table with
  | Null => Fine []
  | At _ => if xt_entries_len table =? 0 then Fine [] else from_raw_parts (xt_entries table) (xt_entries_len table)
  end.

Definition load_table (plugin : Library) (expected_version : Z) : outcome (LoadError + gmap string Kernel) :=
  match plugin with
  | NoLibrary => Fine (inl CannotOpen)
  | NoSymbol => Fine (inl NoExportsSymbol)
  | Exports Null => Fine (inl NullTable)
  | Exports table_ptr =>
      exec! table := deref table_ptr in
      if negb (xt_abi_version table =? expected_version)%Z
      then Fine (inl (AbiMismatch (xt_abi_version table) expected_version))
      else exec! entries := table_entries table in load_entries ∅ entries
  end.

(** The registry is set once. [simulate] is the environment's switch that asks for another
    version. *)
Definition Registry : Type := option (gmap string Kernel).

Definition init (simulate : bool) (plugin : Library) (r : Registry) : outcome (LoadError + Registry) :=
  let expected := if simulate then as_u32 (TOMII_EXPORT_ABI_VERSION + 1) else TOMII_EXPORT_ABI_VERSION in
  load! map := load_table plugin expected in
  match r with Some _ => Fine (inl AlreadyInitialized) | None => Fine (inr (Some map)) end.

Definition is_initialized (r : Registry) : bool := match r with Some _ => true | None => false end.

(** ** Looking kernels up *)

Definition find_kernel (r : Registry) (name : string) : option Kernel := m ← r; m !! name.

Definition dynamic_registry (r : Registry) : FuncReg := {|
  get_func name := kn_wrap <$> find_kernel r name;
  get_bulk_func name := find_kernel r name ≫= kn_bulk;
  get_func_argspec name := find_kernel r name ≫= kn_argspec;
  get_func_ret_variant name := find_kernel r name ≫= kn_ret_variant;
  get_unchecked_func name := find_kernel r name ≫= kn_unchecked |}.

(** The registry of a build without a plugin. *)
Definition no_registry : FuncReg := {|
  get_func _ := None; get_bulk_func _ := None; get_func_argspec _ := None;
  get_func_ret_variant _ := None; get_unchecked_func _ := None |}.
