(* ===== verification/DynRegSpec.v ===== *)
(** The registry that is loaded from a generated module against the registry that is
    generated for a build ([func_reg.rs]): the rows of the table as data and as text, what
    they mean where the wrappers of the module are, and that loading them gives the answers
    of the generated tables. *)
From S2P Require Import Prelude Types NodeCache Text Exports RustWrapper Render WrapSem DynReg.
From S2P Require Import GraphStruct Graph Buffers Tables ResultMap ArgRes Populate Unchecked WrapSpec Signature Companion SignatureSpec TwinSound.
From stdpp Require Import strings gmap.
From Stdlib Require Import Ascii.
Open Scope string_scope.
Open Scope list_scope.
Open Scope nat_scope.

(** ** The rows *)

(** An entry of the table, with the names of the wrappers and of the array it refers to. *)
Record Row := mkRow {
  ro_name : string;
  ro_wrap : string;
  ro_unchecked : option string;
  ro_bulk : option string;
  ro_argspec : option string;
  ro_ret_variant : option string;
}.

Definition row_of (e : ExportedFn) : Row :=
  mkRow (ef_registry_key e) (wrap_fn_name (ef_cm_name e))
    (match entry_argspec e with Some _ => Some (wrap_fn_name (ef_cm_name e) +:+ "_unchecked") | None => None end)
    (if ef_has_bulk_cm e then Some (bulk_wrap_name e) else None)
    (match entry_argspec e with Some _ => Some ("argspec_" +:+ sanitize_ident (ef_registry_key e)) | None => None end)
    (entry_ret_variant e).

Definition some_text (o : option string) : string := match o with Some x => fmt ["Some("; x; ")"] | None => "None" end.
Definition ptr_text (o : option string) : string := match o with Some x => x +:+ ".as_ptr()" | None => "core::ptr::null()" end.
Definition len_text (o : option string) : string := match o with Some x => x +:+ ".len()" | None => "0" end.

Definition print_row (r : Row) : string :=
  let key := quoted (ro_name r) in
  fmt [line ["            ExportEntry {"];
       line ["                name: "; key; ".as_ptr(), name_len: "; key; ".len(),"];
       line ["                wrap: "; ro_wrap r; ","];
       line ["                unchecked: "; some_text (ro_unchecked r); ","];
       line ["                bulk: "; some_text (ro_bulk r); ","];
       line ["                argspec: "; ptr_text (ro_argspec r); ", argspec_len: "; len_text (ro_argspec r); ","];
       line ["                ret_variant: "; ptr_text (quoted <$> ro_ret_variant r); ", ret_variant_len: "; len_text (quoted <$> ro_ret_variant r); ","];
       line ["            },"]].

Lemma row_text e : export_entry e = print_row (row_of e).
Proof.
  unfold export_entry, print_row, row_of, some_text, ptr_text, len_text. cbn [ro_name ro_wrap ro_unchecked ro_bulk ro_argspec ro_ret_variant].
  destruct (entry_argspec e), (ef_has_bulk_cm e), (entry_ret_variant e); cbn [fmap option_fmap option_map fmt]; by rewrite ?string_app_nil_r, <- ?string_app_assoc.
Qed.

(** The arrays that precede the rows: a name and the specifications of the arguments. *)
Definition binding_of (e : ExportedFn) : option (string * list string) :=
  spec ← entry_argspec e; Some ("argspec_" +:+ sanitize_ident (ef_registry_key e), spec).

Definition print_binding (b : string * list string) : string :=
  fmt [line ["        let "; b.1; ": &'static [ExportArgSpec] = Box::leak(Box::new(["];
       fmt ((λ s, line ["            ExportArgSpec { ptr: "; quoted s; ".as_ptr(), len: "; quoted s; ".len() },"]) <$> b.2);
       line ["        ]));"]].

Lemma binding_text e : argspec_table e = match binding_of e with Some b => print_binding b | None => "" end.
Proof. unfold argspec_table, binding_of, print_binding. destruct (entry_argspec e); [|done]. cbn. by rewrite <- ?string_app_assoc. Qed.

(** ** What the module hands over *)

Section module.
Context (code : string → CmPtr) (bulk_code : string → CmBulkPtr).

Definition str_ptr (s : string) : Ptr ascii := At (bytes s).
Definition spec_value (s : string) : ExportArgSpec := mkExportArgSpec (str_ptr s) (length (bytes s)).

(** A later [let] hides an earlier one of the same name. *)
Fixpoint bound (bindings : list (string * list string)) (x : string) : option (list string) :=
  match bindings with
  | [] => None
  | (y, spec) :: bindings' =>
      match bound bindings' x with
      | Some s => Some s
      | None => if String.eqb x y then Some spec else None
      end
  end.

(** A row under the bindings; a name that is not bound does not compile. *)
Definition row_value (bindings : list (string * list string)) (r : Row) : outcome ExportEntry :=
  let entry argspec len :=
    mkExportEntry (str_ptr (ro_name r)) (length (bytes (ro_name r))) (code (ro_wrap r)) (code <$> ro_unchecked r) (bulk_code <$> ro_bulk r)
      argspec len (match ro_ret_variant r with Some v => str_ptr v | None => Null end)
      (match ro_ret_variant r with Some v => length (bytes v) | None => 0 end) in
  match ro_argspec r with
  | None => Fine (entry Null 0)
  | Some x => match bound bindings x with
              | Some spec => Fine (entry (At (spec_value <$> spec)) (length spec))
              | None => Rejected
              end
  end.

Fixpoint row_values (bindings : list (string * list string)) (rows : list Row) : outcome (list ExportEntry) :=
  match rows with
  | [] => Fine []
  | r :: rows' => exec! x := row_value bindings r in exec! xs := row_values bindings rows' in Fine (x :: xs)
  end.

(** [__tomii_exports]. *)
Definition tomii_exports (entries : list ExportedFn) : outcome ExportTable :=
  let rust_entries := filter (λ e, is_rust e = true) entries in
  exec! xs := row_values (omap binding_of rust_entries) (row_of <$> rust_entries) in
  Fine (mkExportTable TOMII_EXPORT_ABI_VERSION (At xs) (length xs)).

(** ** The registry generated for a build *)

#[local] Abbreviation unchecked_of := (TwinSound.unchecked_of code).
Definition bulk_of (e : ExportedFn) : option CmBulkPtr :=
  if ef_has_bulk_cm e && is_rust e then Some (bulk_code (bulk_wrap_name e)) else None.

(** The functions of [func_reg.rs], each a [match] on the name. *)
Record StaticRegistry := mkStatic {
  sr_get_func : string → run (option CmPtr);
  sr_get_bulk_func : string → option CmBulkPtr;
  sr_get_unchecked_func : string → option CmPtr;
  sr_get_func_argspec : string → option (list string);
  sr_get_func_ret_variant : string → option string;
}.

(** [get_func] panics for a name that is in none of its arms, the others have no answer. *)
Definition static_get_func (entries : list ExportedFn) (name : string) : run (option CmPtr) :=
  match arm_lookup (λ e, Some (code (wrap_fn_name (ef_cm_name e)))) entries name with
  | Some f => Ret (Some f)
  | None => Panic
  end.

Definition static_registry (entries : list ExportedFn) : StaticRegistry :=
  mkStatic (static_get_func entries) (arm_lookup bulk_of entries) (arm_lookup unchecked_of entries)
    (arm_lookup entry_argspec entries) (arm_lookup entry_ret_variant entries).

(** ** Reading a generated table *)

(** The kernel of an entry. *)
Definition kernel_of (e : ExportedFn) : Kernel :=
  mkKernel (code (wrap_fn_name (ef_cm_name e))) (unchecked_of e) (bulk_of e) (entry_argspec e) (entry_ret_variant e).

(** The strings of an entry are text. *)
Definition text_entry (e : ExportedFn) : Prop :=
  utf8 (bytes (ef_registry_key e)) = true ∧ ∀ v, entry_ret_variant e = Some v → utf8 (bytes v) = true.

Lemma str_read s : utf8 (bytes s) = true → str_from_raw (str_ptr s) (length (bytes s)) = Fine (inr s).
Proof.
  intros Hs. unfold str_from_raw, str_ptr, from_raw_parts. rewrite Nat.leb_refl, take_ge by done. cbn [outcome_bind]. rewrite Hs.
  unfold bytes. by rewrite String.string_of_list_ascii_of_string.
Qed.

Lemma specs_read specs : Forall (λ s, utf8 (bytes s) = true) specs → load_specs (spec_value <$> specs) = Fine (inr specs).
Proof.
  induction 1 as [|s specs Hs _ IH]; [done|]. cbn [fmap list_fmap load_specs]. cbn [spec_value xa_ptr xa_len]. rewrite str_read by done.
  cbn [load_bind outcome_bind]. by rewrite IH.
Qed.

Lemma spec_texts e spec : entry_argspec e = Some spec → Forall (λ s, utf8 (bytes s) = true) spec.
Proof.
  unfold entry_argspec. case_bool_decide; [done|]. revert spec. induction (ef_cm_params e) as [|p ps IH]; intros spec; cbn [param_specs]; [by intros [= <-]|].
  destruct (param_spec (cp_kind p)) as [s|] eqn:Hp; [|done]. destruct (param_specs ps) as [specs|]; [|done]. intros [= <-].
  constructor; [|by apply IH]. destruct (cp_kind p) as [|pk| | | | | | |]; try discriminate Hp; injection Hp as <-; try reflexivity. by destruct pk.
Qed.

Lemma entry_read bindings e : text_entry e → is_rust e = true →
  (∀ spec, entry_argspec e = Some spec → bound bindings ("argspec_" +:+ sanitize_ident (ef_registry_key e)) = Some spec) →
  ∃ x, row_value bindings (row_of e) = Fine x ∧ load_entry x = Fine (inr (ef_registry_key e, kernel_of e)).
Proof.
  intros [Hk Hv] Hr Hb. unfold row_value, row_of, kernel_of, unchecked_of, bulk_of. cbn [ro_name ro_wrap ro_unchecked ro_bulk ro_argspec ro_ret_variant].
  rewrite Hr, andb_true_r.
  destruct (entry_argspec e) as [spec|] eqn:Hs.
  - rewrite (Hb spec eq_refl). eexists. split; [reflexivity|]. unfold load_entry. cbn [xe_name xe_name_len]. rewrite str_read by done.
    cbn [load_bind outcome_bind]. unfold load_argspec. cbn [xe_argspec xe_argspec_len]. unfold from_raw_parts.
    rewrite length_fmap, Nat.leb_refl, take_ge by (by rewrite length_fmap). cbn [outcome_bind]. rewrite specs_read by (by eapply spec_texts).
    cbn [load_bind outcome_bind]. unfold load_ret_variant. cbn [xe_ret_variant xe_ret_variant_len].
    destruct (entry_ret_variant e) as [v|] eqn:Hret; [|by destruct (ef_has_bulk_cm e)]. unfold str_ptr at 1. cbv beta iota. fold (str_ptr v). rewrite str_read by (by apply Hv).
    by destruct (ef_has_bulk_cm e).
  - eexists. split; [reflexivity|]. unfold load_entry. cbn [xe_name xe_name_len]. rewrite str_read by done.
    cbn [load_bind outcome_bind]. unfold load_argspec. cbn [xe_argspec]. unfold load_ret_variant. cbn [load_bind outcome_bind xe_ret_variant xe_ret_variant_len].
    destruct (entry_ret_variant e) as [v|] eqn:Hret; [|by destruct (ef_has_bulk_cm e)]. unfold str_ptr at 1. cbv beta iota. fold (str_ptr v). rewrite str_read by (by apply Hv).
    by destruct (ef_has_bulk_cm e).
Qed.

(** *** The bindings *)

Lemma argspec_name_inj a b : "argspec_" +:+ a = "argspec_" +:+ b → a = b.
Proof. by intros [= ->]. Qed.

Lemma bound_None es x : (∀ e, e ∈ es → x ≠ "argspec_" +:+ sanitize_ident (ef_registry_key e)) → bound (omap binding_of es) x = None.
Proof.
  induction es as [|e es IH]; intros Hx; [done|]. cbn [omap list_omap]. unfold binding_of at 1. destruct (entry_argspec e); cbn [mbind option_bind].
  - cbn [bound]. rewrite IH by (intros e' He; apply Hx; by right). by rewrite (proj2 (String.eqb_neq _ _)) by (apply Hx; left).
  - apply IH. intros e' He. apply Hx. by right.
Qed.

Lemma bound_binding es e spec : NoDup (sanitize_ident ∘ ef_registry_key <$> es) → e ∈ es → entry_argspec e = Some spec →
  bound (omap binding_of es) ("argspec_" +:+ sanitize_ident (ef_registry_key e)) = Some spec.
Proof.
  induction es as [|x es IH]; intros Hnd He Hs; [by apply not_elem_of_nil in He|]. cbn [fmap list_fmap] in Hnd. apply NoDup_cons in Hnd as [Hx Hnd].
  cbn [omap list_omap]. apply elem_of_cons in He as [<-|He].
  - unfold binding_of at 1. rewrite Hs. cbn [mbind option_bind bound]. rewrite bound_None; [by rewrite String.eqb_refl|].
    intros e' He' Heq%argspec_name_inj. apply Hx. rewrite list_elem_of_fmap. by exists e'.
  - unfold binding_of at 1. destruct (entry_argspec x); cbn [mbind option_bind bound]; by rewrite IH.
Qed.

(** *** The map *)

Definition put_kernel (m : gmap string Kernel) (e : ExportedFn) : gmap string Kernel := <[ef_registry_key e := kernel_of e]> m.

Lemma rows_read bindings es m : (∀ e, e ∈ es → text_entry e ∧ is_rust e = true ∧
    ∀ spec, entry_argspec e = Some spec → bound bindings ("argspec_" +:+ sanitize_ident (ef_registry_key e)) = Some spec) →
  ∃ xs, row_values bindings (row_of <$> es) = Fine xs ∧ load_entries m xs = Fine (inr (foldl put_kernel m es)).
Proof.
  revert m. induction es as [|e es IH]; intros m Hes; [by exists []|]. destruct (Hes e) as (Ht & Hr & Hb); [left|].
  destruct (entry_read bindings e Ht Hr Hb) as (x & Hx & Hload). cbn [fmap list_fmap row_values]. rewrite Hx. cbn [outcome_bind].
  destruct (IH (put_kernel m e)) as (xs & -> & Hxs); [intros e' He'; apply Hes; by right|]. cbn [outcome_bind].
  exists (x :: xs). split; [done|]. cbn [load_entries]. rewrite Hload. exact Hxs.
Qed.

Lemma arm_lookup_fresh {A} (f : ExportedFn → option A) es name : name ∉ ef_registry_key <$> es → arm_lookup f es name = None.
Proof.
  induction es as [|e es IH]; [done|]. cbn [fmap list_fmap]. intros [Hn Hes]%not_elem_of_cons. cbn. rewrite IH by done.
  destruct (f e); [|done]. by rewrite (proj2 (String.eqb_neq _ _)).
Qed.

(** With one entry per name, every table of arms is the lookup of the entry. *)
Lemma arm_lookup_entry {A} (f : ExportedFn → option A) es name : NoDup (ef_registry_key <$> es) →
  arm_lookup f es name = arm_lookup Some es name ≫= f.
Proof.
  induction es as [|e es IH]; [done|]. cbn [fmap list_fmap]. intros [He Hnd]%NoDup_cons. cbn.
  destruct (String.eqb_spec (ef_registry_key e) name) as [<-|Hne]; cbn.
  - destruct (f e); [done|]. by apply arm_lookup_fresh.
  - destruct (f e); by apply IH.
Qed.

Lemma put_lookup es m name : NoDup (ef_registry_key <$> es) →
  foldl put_kernel m es !! name = match arm_lookup Some es name with Some e => Some (kernel_of e) | None => m !! name end.
Proof.
  revert m. induction es as [|e es IH]; intros m; [done|]. cbn [fmap list_fmap]. intros [He Hnd]%NoDup_cons. cbn [foldl arm_lookup].
  rewrite IH by done. unfold put_kernel. destruct (String.eqb_spec (ef_registry_key e) name) as [<-|Hne].
  - rewrite arm_lookup_fresh by done. by rewrite lookup_insert_eq.
  - destruct (arm_lookup Some es name); [done|]. by rewrite lookup_insert_ne.
Qed.

(** C21. A plugin that registers its kernels itself is served like one built in, when the
    registry names of its Rust entries are UTF-8 and stay different when made identifiers, and
    the variants of their results are UTF-8. Where the module generated for the plugin is
    loaded, the table it hands over is read without undefined behaviour and without an error.
    The registry filled from it gives for every name the bulk and the unchecked wrapper, the
    declared arguments and the result that the functions generated for the Rust entries give;
    and it has a function for exactly the names for which the generated [get_func] returns, the
    same one, while for the others it has none and the generated [get_func] panics. A runtime of
    another version refuses the table. *)
Theorem dynamic_registry_is_static entries
    (Htext : ∀ e, e ∈ entries → is_rust e = true → text_entry e)
    (Hkeys : NoDup (sanitize_ident ∘ ef_registry_key <$> filter (λ e, is_rust e = true) entries)) :
  let static := static_registry (filter (λ e, is_rust e = true) entries) in
  ∃ table m, tomii_exports entries = Fine table
    ∧ init false (Exports (At [table])) None = Fine (inr (Some m))
    ∧ init true (Exports (At [table])) None = Fine (inl (AbiMismatch TOMII_EXPORT_ABI_VERSION (as_u32 (TOMII_EXPORT_ABI_VERSION + 1))))
    ∧ ∀ name, let dynamic := dynamic_registry (Some m) in
        sr_get_func static name = match @get_func dynamic name with Some f => Ret (Some f) | None => Panic end
        ∧ @get_bulk_func dynamic name = sr_get_bulk_func static name
        ∧ @get_unchecked_func dynamic name = sr_get_unchecked_func static name
        ∧ @get_func_argspec dynamic name = sr_get_func_argspec static name
        ∧ @get_func_ret_variant dynamic name = sr_get_func_ret_variant static name.
Proof.
  intros static. unfold static, tomii_exports. set (es := filter _ entries) in *.
  assert (Hnd : NoDup (ef_registry_key <$> es)) by (rewrite list_fmap_compose in Hkeys; by apply NoDup_fmap_1 in Hkeys).
  destruct (rows_read (omap binding_of es) es ∅) as (xs & Hxs & Hload).
  { intros e He. unfold es in He. pose proof He as [Hr Hin]%list_elem_of_filter. split; [by apply Htext|]. split; [done|].
    intros spec Hs. by apply bound_binding. }
  rewrite Hxs. cbn [outcome_bind]. eexists _, (foldl put_kernel ∅ es). split; [reflexivity|].
  assert (Hentries : table_entries (mkExportTable TOMII_EXPORT_ABI_VERSION (At xs) (length xs)) = Fine xs).
  { unfold table_entries. cbn [xt_entries xt_entries_len]. destruct xs; [done|]. unfold from_raw_parts. by rewrite Nat.leb_refl, take_ge. }
  split; [|split; [reflexivity|]].
  - unfold init, load_table. cbn [deref outcome_bind xt_abi_version]. rewrite Z.eqb_refl. cbn [negb]. rewrite Hentries. cbn [outcome_bind]. by rewrite Hload.
  - intros name. cbn [get_func get_bulk_func get_unchecked_func get_func_argspec get_func_ret_variant dynamic_registry
      static_registry sr_get_func sr_get_bulk_func sr_get_unchecked_func sr_get_func_argspec sr_get_func_ret_variant].
    unfold static_get_func, find_kernel. cbn [mbind option_bind]. rewrite put_lookup, lookup_empty by done.
    rewrite (arm_lookup_entry (λ e, Some (code _))), (arm_lookup_entry bulk_of), (arm_lookup_entry unchecked_of),
      (arm_lookup_entry entry_argspec), (arm_lookup_entry entry_ret_variant) by done.
    by destruct (arm_lookup Some es name).
Qed.
End module.

(** ** A plugin *)

Definition plugin_entries : list ExportedFn := [
  mkExported "scale_cm" "scale" [mkParam "v" KCmTypesRef; mkParam "k" (KPrimitive PkUsize)] (RPrimitive PkU64) (Some "U64") LangRust [] true;
  mkExported "fold_cm" "fold" [mkParam "rest" KSliceCmTypes] RCmTypes None LangRust [] false].

Definition plugin_code (name : string) : CmPtr := λ _, CmString name.
Definition plugin_bulk (name : string) : CmBulkPtr := λ _ _ _, CmString name.

Lemma dynamic_registry_is_static_witness : ∃ table m, tomii_exports plugin_code plugin_bulk plugin_entries = Fine table
  ∧ init false (Exports (At [table])) None = Fine (inr (Some m))
  ∧ @get_unchecked_func (dynamic_registry (Some m)) "scale" = Some (plugin_code "scale_cm_wrap_unchecked")
  ∧ @get_func_argspec (dynamic_registry (Some m)) "fold" = Some ["..."]
  ∧ @get_bulk_func (dynamic_registry (Some m)) "fold" = None.
Proof.
  destruct (dynamic_registry_is_static plugin_code plugin_bulk plugin_entries) as (table & m & Ht & Hm & _ & Hall).
  - intros e He _. repeat (apply elem_of_cons in He as [->|He]; [split; [reflexivity|by intros v [= <-]]|]). by apply not_elem_of_nil in He.
  - apply (bool_decide_unpack _). vm_compute. exact I.
  - exists table, m. split; [exact Ht|]. split; [exact Hm|]. split; [|split].
    + rewrite (proj1 (proj2 (proj2 (Hall "scale")))). reflexivity.
    + rewrite (proj1 (proj2 (proj2 (proj2 (Hall "fold"))))). reflexivity.
    + rewrite (proj1 (proj2 (Hall "fold"))). reflexivity.
Defined.

(** A registry that is set stays as it is: a second plugin is refused, whatever it exports. *)
Theorem second_plugin_refused simulate plugin m r : init simulate plugin (Some m) = Fine r → ∃ err, r = inl err.
Proof.
  unfold init. destruct (load_table plugin _) as [[err|map]| | |]; cbn [load_bind outcome_bind]; try done; intros [= <-]; by eexists.
Qed.

(** *** Where the registries differ *)

(** A symbol and its name with [_cm] are registered under one name. *)
Definition same_name_entries : list ExportedFn := [
  mkExported "gain" "gain" [mkParam "v" KCmTypesRef] RCmTypes None LangRust [] false;
  mkExported "gain_cm" "gain" [mkParam "v" KCmTypesRef] (RPrimitive PkU64) (Some "U64") LangRust [] false].

Lemma same_name_collected `{TokenText} :
  let no_mangle := mkAttribute ["no_mangle"] MetaPath in
  let v := FaTyped (PatIdent "v") (TyReference false (TyPath false [mkSegment "CmTypes" PaNone])) in
  collect_entries [ItFn (mkItemFn [no_mangle] "gain" [v] (RtType (TyPath false [mkSegment "CmTypes" PaNone])));
                   ItFn (mkItemFn [no_mangle] "gain_cm" [v] (RtType (TyPath false [mkSegment "u64" PaNone])))] = same_name_entries.
Proof. reflexivity. Qed.

(** The generated [match] takes the first function of a name, the loaded map the last; and
    the tables of the [match] mix them: the first function is called, and the result variant
    is that of the second. *)
Theorem same_name_mixed : ∃ table m, tomii_exports plugin_code plugin_bulk same_name_entries = Fine table
  ∧ init false (Exports (At [table])) None = Fine (inr (Some m))
  ∧ @get_func (dynamic_registry (Some m)) "gain" = Some (plugin_code "gain_cm_wrap")
  ∧ sr_get_func (static_registry plugin_code plugin_bulk same_name_entries) "gain" = Ret (Some (plugin_code "gain_wrap"))
  ∧ sr_get_func_ret_variant (static_registry plugin_code plugin_bulk same_name_entries) "gain" = Some "U64".
Proof. do 2 eexists. split; [reflexivity|]. split; [reflexivity|]. repeat split. Qed.

(** For a name that is not registered the generated function panics where the loaded
    registry, the stub and the callers of both have an answer. *)
Theorem unknown_name_panics entries name : name ∉ ef_registry_key <$> entries →
  static_get_func plugin_code entries name = Panic ∧ @get_func (dynamic_registry (Some ∅)) name = None.
Proof. intros Hn. unfold static_get_func. rewrite arm_lookup_fresh by done. done. Qed.
