(* ===== verification/ReceiverSpec.v ===== *)
(** Reception in any interleaving: every datagram of a socket is taken once and in order,
    and becomes a message or is counted; and a handover for which the receivers have
    acknowledged leaves all that is left in the sockets to the other process, which gets
    their descriptors as they were sent. *)
From S2P Require Import Prelude Types GraphStruct Graph Slots Packets Task Resolution Receivers.
From stdpp Require Import strings.
Open Scope nat_scope.
Open Scope list_scope.

(** ** The sockets of the threads *)

(** The pieces of equal length that cover the sockets. *)
Lemma share_of n per s : 0 < per → s < n → s / per * per ≤ s < Nat.min (s / per * per + per) n.
Proof.
  intros Hp Hs. pose proof (Nat.div_mod_eq s per). pose proof (Nat.mod_upper_bound s per ltac:(lia)). split; [lia|].
  apply Nat.min_glb_lt; lia.
Qed.

Lemma div_ceil_covers n r s : 0 < r → s < n → s / div_ceil n r < r.
Proof.
  intros Hr Hs. unfold div_ceil. set (per := (n + r - 1) / r).
  assert (Hper : n ≤ r * per) by (unfold per; pose proof (Nat.div_mod_eq (n + r - 1) r); pose proof (Nat.mod_upper_bound (n + r - 1) r ltac:(lia)); lia).
  apply Nat.Div0.div_lt_upper_bound. lia.
Qed.

(** Every socket is in the range of one thread. *)
Lemma ranges_cover receiver_threads num_sockets ranges s :
  receiver_ranges receiver_threads num_sockets = Ret ranges → s < num_sockets →
  ∃ i r, ranges !! i = Some r ∧ r.1 ≤ s < r.2 ∧ ∀ j q, ranges !! j = Some q → q.1 ≤ s < q.2 → j = i.
Proof.
  unfold receiver_ranges. destruct (num_sockets <=? receiver_threads) eqn:Hle.
  - intros [= <-] Hs. exists s, (s, s + 1). rewrite list_lookup_fmap, lookup_seq_lt by done. split; [done|]. split; [cbn; lia|].
    intros j q Hj Hq. rewrite list_lookup_fmap in Hj. apply fmap_Some in Hj as (k & Hk & ->). apply lookup_seq in Hk as [-> _]. cbn in Hq. lia.
  - destruct (receiver_threads =? 0) eqn:Hz; [done|]. intros [= <-] Hs. apply Nat.eqb_neq in Hz. set (per := div_ceil num_sockets receiver_threads).
    assert (Hper : 0 < per).
    { unfold per, div_ceil. apply Nat.div_str_pos. apply Nat.leb_gt in Hle. lia. }
    pose proof (share_of num_sockets per s Hper Hs) as Hr. pose proof (div_ceil_covers num_sockets receiver_threads s ltac:(lia) Hs) as Hi.
    exists (s / per), (s / per * per, Nat.min (s / per * per + per) num_sockets). rewrite list_lookup_fmap, lookup_seq_lt by done. split; [done|]. split; [done|].
    intros j q Hj Hq. rewrite list_lookup_fmap in Hj. apply fmap_Some in Hj as (k & Hk & ->). apply lookup_seq in Hk as [-> _]. cbn in Hq.
    apply (Nat.div_unique s per j (s - j * per)); lia.
Qed.

(** ** Runs *)

(** The receivers, the listener and what is around them: datagrams arrive, a resolution
    thread empties a channel, a buffer comes back, the sockets are taken over, the run ends. *)
Record RxSystem := mkRxSystem { ry_net : RxNet; ry_receivers : list Receiver; ry_listener : Listener }.

Inductive RxLabel := LEvent (e : RxEvent) | LArrive (socket : nat) (d : Datagram) | LDrain (channel : nat) (ms : list Message) | LInternal.

Section runs.
Context (packet_length recv_pool_size receivers : nat) (decode : option CmPtr) (keeps_raw : Datagram → bool).

Inductive rx_step (sys : RxSystem) : RxLabel → RxSystem → Prop :=
  | StepReceiver i rc err net' rc' e :
      ry_receivers sys !! i = Some rc → receiver_step packet_length decode keeps_raw (ry_net sys) rc err = Ret (net', rc', e) →
      rx_step sys (match e with Some e => LEvent e | None => LInternal end)
        (mkRxSystem net' (<[i := rc']> (ry_receivers sys)) (ry_listener sys))
  | StepListener late ok :
      rx_step sys LInternal
        (mkRxSystem (listener_step receivers (ry_net sys) (ry_listener sys) late ok).1 (ry_receivers sys)
          (listener_step receivers (ry_net sys) (ry_listener sys) late ok).2)
  | StepArrive socket d sockets queue :
      rn_sockets (ry_net sys) = Some sockets → sockets !! socket = Some queue →
      rx_step sys (LArrive socket d)
        (mkRxSystem (set_sockets (ry_net sys) (Some (<[socket := queue ++ [d]]> sockets))) (ry_receivers sys) (ry_listener sys))
  | StepDrain channel ms :
      rn_channels (ry_net sys) !! channel = Some ms →
      rx_step sys (LDrain channel ms)
        (mkRxSystem (set_channels (ry_net sys) (<[channel := []]> (rn_channels (ry_net sys)))) (ry_receivers sys) (ry_listener sys))
  | StepReturn socket buffer queue :
      rn_returns (ry_net sys) !! socket = Some queue → length queue < recv_pool_size → length buffer = packet_length →
      rx_step sys LInternal
        (mkRxSystem (set_returns (ry_net sys) (<[socket := queue ++ [buffer]]> (rn_returns (ry_net sys)))) (ry_receivers sys) (ry_listener sys))
  | StepPublish sockets :
      rn_sockets (ry_net sys) = None → length sockets = length (rn_drop_counters (ry_net sys)) → Forall (eq []) sockets →
      rx_step sys LInternal (mkRxSystem (set_sockets (ry_net sys) (Some sockets)) (ry_receivers sys) (ry_listener sys))
  | StepShutdown :
      rx_step sys LInternal
        (mkRxSystem (set_flags (ry_net sys) true (rn_freeze (ry_net sys)) (rn_frozen (ry_net sys)) (rn_handed_over (ry_net sys)))
          (ry_receivers sys) (ry_listener sys)).

Inductive rx_run (sys : RxSystem) : list RxLabel → RxSystem → Prop :=
  | RunNil : rx_run sys [] sys
  | RunSnoc tr sys1 l sys2 : rx_run sys tr sys1 → rx_step sys1 l sys2 → rx_run sys (tr ++ [l]) sys2.

(** Steps by name, to run a system. *)
Inductive RxAct := ActReceiver (i : nat) (err : option RecvError) | ActListener (late ok : bool) | ActArrive (socket : nat) (d : Datagram) | ActDrain (channel : nat).

Definition perform (sys : RxSystem) (a : RxAct) : option (RxLabel * RxSystem) :=
  match a with
  | ActReceiver i err =>
      rc ← ry_receivers sys !! i;
      match receiver_step packet_length decode keeps_raw (ry_net sys) rc err with
      | Ret (net', rc', e) =>
          Some (match e with Some e => LEvent e | None => LInternal end, mkRxSystem net' (<[i := rc']> (ry_receivers sys)) (ry_listener sys))
      | Panic => None
      end
  | ActListener late ok =>
      let p := listener_step receivers (ry_net sys) (ry_listener sys) late ok in Some (LInternal, mkRxSystem p.1 (ry_receivers sys) p.2)
  | ActArrive socket d =>
      sockets ← rn_sockets (ry_net sys);
      queue ← sockets !! socket;
      Some (LArrive socket d, mkRxSystem (set_sockets (ry_net sys) (Some (<[socket := queue ++ [d]]> sockets))) (ry_receivers sys) (ry_listener sys))
  | ActDrain channel =>
      ms ← rn_channels (ry_net sys) !! channel;
      Some (LDrain channel ms, mkRxSystem (set_channels (ry_net sys) (<[channel := []]> (rn_channels (ry_net sys)))) (ry_receivers sys) (ry_listener sys))
  end.

Definition performs (sys : RxSystem) (acts : list RxAct) : option (list RxLabel * RxSystem) :=
  fold_left (λ o a, '(tr, sys) ← o; '(l, sys') ← perform sys a; Some (tr ++ [l], sys')) acts (Some ([], sys)).

Lemma perform_step sys a l sys' : perform sys a = Some (l, sys') → rx_step sys l sys'.
Proof.
  destruct a as [i err|late ok|socket d|channel]; cbn [perform]; intros H; simplify_option_eq.
  - destruct (receiver_step _ _ _ _ _ _) as [[[net' rc'] e]|] eqn:Hs; [|done]. injection H as <- <-. by eapply StepReceiver.
  - apply StepListener.
  - by eapply StepArrive.
  - by eapply StepDrain.
Qed.

Lemma performs_run sys acts tr sys' : performs sys acts = Some (tr, sys') → rx_run sys tr sys'.
Proof.
  revert tr sys'. induction acts as [|a acts IH] using rev_ind; intros tr sys'; unfold performs in *; [cbn; intros [= <- <-]; constructor|].
  rewrite fold_left_app. cbn [fold_left]. destruct (fold_left _ acts _) as [[tr1 sys1]|] eqn:H1; [|done]. cbn.
  destruct (perform sys1 a) as [[l sys2]|] eqn:H2; [|done]. cbn. intros [= <- <-]. eapply RunSnoc; [by apply IH|by eapply perform_step].
Qed.

(** ** What is read off a run *)

Definition arrived (socket : nat) (tr : list RxLabel) : list Datagram :=
  omap (λ l, match l with LArrive s d => if s =? socket then Some d else None | _ => None end) tr.
Definition taken (socket : nat) (tr : list RxLabel) : list RxEvent :=
  omap (λ l, match l with LEvent e => if ev_socket e =? socket then Some e else None | _ => None end) tr.
Definition sent_on (channel : nat) (tr : list RxLabel) : list Message :=
  omap (λ l, match l with LEvent (mkEvent _ _ (Sent c m)) => if c =? channel then Some m else None | _ => None end) tr.
Definition drained (channel : nat) (tr : list RxLabel) : list Message :=
  concat (omap (λ l, match l with LDrain c ms => if c =? channel then Some ms else None | _ => None end) tr).
Definition is_dropped (e : RxEvent) : bool := match ev_fate e with Dropped => true | _ => false end.
Definition dropped_of (socket : nat) (tr : list RxLabel) : nat := length (List.filter is_dropped (taken socket tr)).

Definition queue_of (net : RxNet) (socket : nat) : list Datagram :=
  match rn_sockets net with Some sockets => default [] (sockets !! socket) | None => [] end.

(** The message of a datagram that is a packet: its bytes, or its value. *)
Definition message_of (core_id socket : nat) (d : Datagram) : Message :=
  let packet := take packet_length d in
  mkRxMessage (match decode with
               | Some dec => mkMessage [] core_id (Some (dec [CmBytes packet]))
               | None => mkMessage packet core_id None
               end) socket.

(** What may happen to a datagram, in a thread. *)
Definition fate_ok (rc : Receiver) (e : RxEvent) : Prop :=
  rc_start rc ≤ ev_socket e < rc_end rc ∧
  match ev_fate e with
  | Sent c m => packet_length ≤ length (ev_datagram e) ∧ c = rc_channel rc ∧ m = message_of (rc_core_id rc) (ev_socket e) (ev_datagram e)
  | Dropped => packet_length ≤ length (ev_datagram e)
  | WrongSize size => length (ev_datagram e) < packet_length ∧ size = length (ev_datagram e)
  end.

(** ** What a poll does *)

Definition full (b : Datagram) : Prop := length b = packet_length.

(** [n] sockets, with a counter and a return channel each, and buffers of the length of
    packets everywhere. *)
Record net_wf (n : nat) (net : RxNet) : Prop := {
  nw_drops : length (rn_drop_counters net) = n;
  nw_returns : length (rn_returns net) = n;
  nw_sockets : ∀ ss, rn_sockets net = Some ss → length ss = n;
  nw_buffers : Forall (Forall full) (rn_returns net);
  nw_room : Forall (λ q, length q ≤ rn_channel_cap net) (rn_channels net);
}.

Record receiver_wf (n channels : nat) (rc : Receiver) : Prop := {
  rw_range : rc_start rc ≤ rc_end rc ≤ n;
  rw_pools : length (rc_pools rc) = rc_end rc - rc_start rc;
  rw_channel : rc_channel rc < channels;
  rw_buffers : Forall (Forall full) (rc_pools rc);
}.

Definition event_at (e : option RxEvent) (socket : nat) : list RxEvent :=
  match e with Some e => if ev_socket e =? socket then [e] else [] | None => [] end.
Definition event_sent (e : option RxEvent) (channel : nat) : list Message :=
  match e with Some (mkEvent _ _ (Sent c m)) => if c =? channel then [m] else [] | _ => [] end.

Definition chan (net : RxNet) (c : nat) : list Message := default [] (rn_channels net !! c).
Definition drops (net : RxNet) (s : nat) : nat := default 0 (rn_drop_counters net !! s).

(** The state of the network after a step of a receiver with an event or none. *)
Record effect (n : nat) (net net' : RxNet) (e : option RxEvent) : Prop := {
  ef_wf : net_wf n net';
  ef_queue : ∀ s, queue_of net s = (ev_datagram <$> event_at e s) ++ queue_of net' s;
  ef_chan : ∀ c, chan net' c = chan net c ++ event_sent e c;
  ef_drops : ∀ s, drops net' s = drops net s + length (List.filter is_dropped (event_at e s));
  ef_channels : length (rn_channels net') = length (rn_channels net);
  ef_cap : rn_channel_cap net' = rn_channel_cap net;
  ef_sockets : is_Some (rn_sockets net) → is_Some (rn_sockets net');
}.

Definition same_thread (rc rc' : Receiver) : Prop :=
  rc_start rc' = rc_start rc ∧ rc_end rc' = rc_end rc ∧ rc_core_id rc' = rc_core_id rc ∧ rc_channel rc' = rc_channel rc.

Lemma effect_refl n net : net_wf n net → effect n net net None.
Proof. intros Hw. constructor; try done; intros k; cbn; by rewrite ?app_nil_r, ?Nat.add_0_r. Qed.

(** The effect speaks of sockets, channels and counters only. *)
Lemma effect_returns n net returns : net_wf n net → length returns = n → Forall (Forall full) returns → effect n net (set_returns net returns) None.
Proof. intros [] Hl Hf. constructor; try done; intros k; cbn; by rewrite ?app_nil_r, ?Nat.add_0_r. Qed.

Lemma effect_trans n net net1 net2 e : effect n net net1 None → effect n net1 net2 e → effect n net net2 e.
Proof.
  intros [A1 A2 A3 A4 A5 A6 A7] [B1 B2 B3 B4 B5 B6 B7]. constructor; try done.
  - intros s. rewrite A2. cbn. apply B2.
  - intros c. rewrite B3, A3. cbn. by rewrite app_nil_r.
  - intros s. rewrite B4, A4. cbn. lia.
  - by rewrite B5.
  - by rewrite B6.
  - intros H. by apply B7, A7.
Qed.

(** Taking the first datagram of a queue, with what follows. *)
Lemma taken_queue net ss socket d queue s : rn_sockets net = Some ss → ss !! socket = Some (d :: queue) →
  queue_of net s = (if socket =? s then [d] else []) ++ queue_of (set_sockets net (Some (<[socket := queue]> ss))) s.
Proof.
  intros Hss Hq. unfold queue_of. cbn [rn_sockets set_sockets]. rewrite Hss. destruct (Nat.eqb_spec socket s) as [->|Hne].
  - rewrite list_lookup_insert_eq by (by eapply lookup_lt_Some). by rewrite Hq.
  - by rewrite list_lookup_insert_ne.
Qed.

Lemma full_recv buffer d : full buffer → recv_into buffer d = (Nat.min (length d) packet_length, take (Nat.min (length d) packet_length) d ++ drop (Nat.min (length d) packet_length) buffer).
Proof. intros Hb. unfold recv_into. by rewrite Hb. Qed.

Lemma full_packet buffer d : full buffer → packet_length ≤ length d → recv_into buffer d = (packet_length, take packet_length d).
Proof.
  intros Hb Hd. rewrite full_recv by done. rewrite Nat.min_r by done. f_equal. rewrite drop_ge by (unfold full in Hb; lia). apply app_nil_r.
Qed.

Lemma decoded_message pool packet : ∃ pool', rx_decoded decode keeps_raw pool packet
    = (match decode with Some _ => [] | None => packet end, (λ dec : CmPtr, dec [CmBytes packet]) <$> decode, pool')
  ∧ (Forall full pool → full packet → Forall full pool').
Proof.
  unfold rx_decoded. destruct decode; [|by exists pool]. destruct (keeps_raw packet); eexists; (split; [reflexivity|]); [done|].
  intros Hp Hf. apply Forall_app. by repeat constructor.
Qed.

Lemma chan_insert net ch q c : ch < length (rn_channels net) →
  default [] (<[ch := q]> (rn_channels net) !! c) = if ch =? c then q else chan net c.
Proof.
  intros Hch. unfold chan. destruct (Nat.eqb_spec ch c) as [->|Hne]; [by rewrite list_lookup_insert_eq|by rewrite list_lookup_insert_ne].
Qed.

Lemma accept_spec n net ss rc socket local_idx pool buffer d queue :
  net_wf n net → receiver_wf n (length (rn_channels net)) rc → rn_sockets net = Some ss → ss !! socket = Some (d :: queue) →
  rc_start rc ≤ socket < rc_end rc → Forall full pool → full buffer →
  ∃ net' pool' e, accept_packet packet_length decode keeps_raw (set_sockets net (Some (<[socket := queue]> ss))) rc socket local_idx pool buffer d
      = Ret (net', set_pool rc local_idx pool', e)
    ∧ Forall full pool' ∧ effect n net net' (Some e) ∧ ev_socket e = socket ∧ fate_ok rc e
    ∧ rn_shutdown net' = rn_shutdown net ∧ rn_freeze net' = rn_freeze net ∧ rn_frozen net' = rn_frozen net ∧ rn_handed_over net' = rn_handed_over net.
Proof.
  intros Hw Hrc Hss Hq Hrange Hpool Hbuf. pose proof Hw as [H1 H2 H3 H4 H5]. destruct Hrc as [Hr Hp Hc Hb].
  assert (Hsock : socket < n) by lia.
  set (net1 := set_sockets net (Some (<[socket := queue]> ss))).
  assert (Hqueue : ∀ s, queue_of net s = (if socket =? s then [d] else []) ++ queue_of net1 s) by (intros s; by apply taken_queue).
  assert (Hl1 : ∀ ss', rn_sockets net1 = Some ss' → length ss' = n) by (intros ss' [= <-]; rewrite length_insert; by apply H3).
  unfold accept_packet. destruct (decide (length d < packet_length)) as [Hshort|Hlong].
  - rewrite full_recv by done. rewrite Nat.min_l by lia. rewrite (proj2 (Nat.eqb_neq _ _)) by lia. cbn [negb].
    eexists _, _, _. split; [reflexivity|]. split; [done|]. split; [|by repeat split; cbn; try lia].
    constructor; try done; intros k; cbn; rewrite ?app_nil_r, ?Nat.add_0_r; try done.
    + rewrite Hqueue. by destruct (socket =? k).
    + destruct (socket =? k); cbn; by rewrite Nat.add_0_r.
  - rewrite full_packet by (done || lia). rewrite Nat.eqb_refl. cbn [negb].
    assert (Hfull : full (take packet_length d)) by (unfold full; rewrite length_take; lia).
    destruct (decoded_message pool (take packet_length d)) as (pool' & -> & Hpool').
    set (msg := mkRxMessage _ socket).
    assert (Hmsg : msg = message_of (rc_core_id rc) socket d) by (unfold msg, message_of; by destruct decode).
    unfold try_send. destruct (lookup_lt_is_Some_2 (rn_channels net) (rc_channel rc) Hc) as [ms Hms].
    change (rn_channels net1) with (rn_channels net). rewrite (vec_get_lookup _ _ _ Hms). cbn [run_bind].
    change (rn_channel_cap net1) with (rn_channel_cap net). destruct (length ms <? rn_channel_cap net) eqn:Hcap.
    + rewrite vec_set_lt by done. cbn [run_bind]. eexists _, _, _. split; [reflexivity|]. split; [by apply Hpool'|].
      split; [|by repeat split; cbn; try lia; rewrite ?Hmsg]. constructor; try done.
      * constructor; try done. cbn. apply Forall_insert; [done|]. rewrite length_app. cbn. apply Nat.ltb_lt in Hcap. lia.
      * intros s. rewrite Hqueue. cbn. by destruct (socket =? s).
      * intros c. unfold chan at 1. cbn [rn_channels set_channels event_sent]. rewrite chan_insert by done.
        destruct (Nat.eqb_spec (rc_channel rc) c) as [<-|]; [unfold chan; by rewrite Hms|by rewrite app_nil_r].
      * intros s. cbn. by destruct (socket =? s); cbn; rewrite Nat.add_0_r.
      * cbn. by rewrite length_insert.
    + cbn [run_bind]. change (rn_drop_counters net1) with (rn_drop_counters net).
      destruct (lookup_lt_is_Some_2 (rn_drop_counters net) socket ltac:(lia)) as [k Hk]. rewrite (vec_get_lookup _ _ _ Hk). cbn [run_bind].
      rewrite vec_set_lt by lia. cbn [run_bind]. eexists _, _, _. split; [reflexivity|]. split; [by apply Hpool'|].
      split; [|by repeat split; cbn; try lia]. constructor; try done.
      * constructor; try done. cbn. by rewrite length_insert.
      * intros s. rewrite Hqueue. cbn. by destruct (socket =? s).
      * intros c. cbn. by rewrite app_nil_r.
      * intros s. unfold drops. cbn [rn_drop_counters set_drops event_at ev_socket]. destruct (Nat.eqb_spec socket s) as [<-|].
        -- rewrite list_lookup_insert_eq by lia. by rewrite Hk.
        -- rewrite list_lookup_insert_ne by done. cbn. by rewrite Nat.add_0_r.
Qed.

(** The flags are not touched by a poll. *)
Definition same_flags (net net' : RxNet) : Prop :=
  rn_shutdown net' = rn_shutdown net ∧ rn_freeze net' = rn_freeze net ∧ rn_frozen net' = rn_frozen net ∧ rn_handed_over net' = rn_handed_over net.

Lemma last_full (pool : list Datagram) : Forall full pool → full (default (fresh_buffer packet_length) (last pool)).
Proof.
  intros Hp. destruct (last pool) as [b|] eqn:Hl; cbn; [|apply length_replicate].
  apply last_Some in Hl as [l ->]. apply Forall_app in Hp as [_ Hb]. by inversion Hb.
Qed.

Lemma removelast_full (pool : list Datagram) : Forall full pool → Forall full (removelast pool).
Proof.
  induction 1 as [|b pool Hb Hp IH]; [done|]. cbn. destruct pool; [constructor|]. by constructor.
Qed.

Lemma poll_spec n net rc socket err ss :
  net_wf n net → receiver_wf n (length (rn_channels net)) rc → rn_sockets net = Some ss → rc_start rc ≤ socket < rc_end rc →
  ∃ net' pool' go_on e, poll_socket packet_length decode keeps_raw net rc socket err = Ret (net', set_pool rc (socket - rc_start rc) pool', go_on, e)
    ∧ Forall full pool' ∧ effect n net net' e ∧ same_flags net net' ∧ (∀ ev, e = Some ev → fate_ok rc ev)
    ∧ (go_on = false → err = Some OtherError).
Proof.
  intros Hw Hrc Hss Hrange. pose proof Hw as [H1 H2 H3 H4 H5]. pose proof Hrc as [Hr Hp Hc Hb]. pose proof (H3 _ Hss) as Hlen.
  unfold poll_socket. rewrite Hss. cbn [unwrap run_bind].
  destruct (lookup_lt_is_Some_2 ss socket ltac:(lia)) as [queue Hq]. rewrite (vec_get_lookup _ _ _ Hq). cbn [run_bind].
  destruct (lookup_lt_is_Some_2 (rn_drop_counters net) socket ltac:(lia)) as [k Hk]. rewrite (vec_get_lookup _ _ _ Hk). cbn [run_bind].
  destruct (lookup_lt_is_Some_2 (rn_returns net) socket ltac:(lia)) as [returned Hret]. rewrite (vec_get_lookup _ _ _ Hret). cbn [run_bind].
  rewrite vec_set_lt by lia. cbn [run_bind].
  destruct (lookup_lt_is_Some_2 (rc_pools rc) (socket - rc_start rc) ltac:(lia)) as [pool Hpool]. rewrite (vec_get_lookup _ _ _ Hpool). cbn [run_bind].
  set (net1 := set_returns net (<[socket := []]> (rn_returns net))).
  assert (He1 : effect n net net1 None).
  { apply effect_returns; [done|by rewrite length_insert|]. by apply Forall_insert. }
  assert (Hall : Forall full (pool ++ returned)) by (apply Forall_app; split; [exact (Forall_lookup_1 _ _ _ _ Hb Hpool)|exact (Forall_lookup_1 _ _ _ _ H4 Hret)]).
  assert (Hquiet : ∀ go_on, (go_on = false → err = Some OtherError) → ∃ net' pool' go_on' e,
    Ret (net1, set_pool rc (socket - rc_start rc) (removelast (pool ++ returned)), go_on, None) =
      Ret (net', set_pool rc (socket - rc_start rc) pool', go_on', e)
    ∧ Forall full pool' ∧ effect n net net' e ∧ same_flags net net' ∧ (∀ ev : RxEvent, e = Some ev → fate_ok rc ev)
    ∧ (go_on' = false → err = Some OtherError)).
  { intros go_on Hgo. eexists _, _, _, _. split; [reflexivity|]. split; [by apply removelast_full|]. do 2 (split; [done|]). by split. }
  destruct err as [[]|]; [by apply Hquiet..|]. destruct queue as [|d queue]; [by apply Hquiet|].
  destruct (accept_spec n net1 ss rc socket (socket - rc_start rc) (removelast (pool ++ returned))
    (default (fresh_buffer packet_length) (last (pool ++ returned))) d queue) as (net' & pool' & e & -> & Hf & He & _ & Hfate & Hflags);
    [apply He1|done|done|done|done|by apply removelast_full|by apply last_full|].
  cbn [run_bind]. eexists _, _, _, _. split; [reflexivity|]. split; [done|]. split; [by eapply effect_trans|]. split; [done|].
  split; [by intros ev [= <-]|done].
Qed.

(** *** A step of a receiver *)

Definition acked (rc : Receiver) : bool := match rc_phase rc with Frozen | Stopped => true | _ => false end.

(** A thread in its loop has its sockets. *)
Definition has_sockets (net : RxNet) (rc : Receiver) : Prop :=
  rc_phase rc = Starting ∨ rc_phase rc = Stopped ∨ is_Some (rn_sockets net).

(** One step: no panic, the effect of its event, and the same thread as before; the count of
    acknowledgements goes up with those who acknowledge. *)
Definition stepped (n : nat) (net : RxNet) (rc : Receiver) (net' : RxNet) (rc' : Receiver) (e : option RxEvent) : Prop :=
  effect n net net' e ∧ receiver_wf n (length (rn_channels net')) rc' ∧ same_thread rc rc' ∧ has_sockets net' rc'
  ∧ (∀ ev, e = Some ev → fate_ok rc ev) ∧ (acked rc = true → acked rc' = true ∧ e = None)
  ∧ rn_shutdown net' = rn_shutdown net ∧ rn_freeze net' = rn_freeze net ∧ rn_handed_over net' = rn_handed_over net
  ∧ rn_frozen net ≤ rn_frozen net'
  ∧ rn_frozen net' + (if acked rc then 1 else 0) ≤ rn_frozen net + (if acked rc' then 1 else 0).

Lemma stepped_phase n net rc ph : net_wf n net → receiver_wf n (length (rn_channels net)) rc → has_sockets net (set_phase rc ph) →
  (acked rc = true → acked (set_phase rc ph) = true) → stepped n net rc net (set_phase rc ph) None.
Proof.
  intros Hw [] Hs Ha. split; [by apply effect_refl|]. split; [done|]. split; [done|]. split; [done|]. split; [done|]. split; [by split; [apply Ha|]|].
  do 4 (split; [done|]). destruct (acked rc); [by rewrite Ha|]. destruct (acked _); lia.
Qed.

Lemma step_spec n net rc err : net_wf n net → receiver_wf n (length (rn_channels net)) rc → has_sockets net rc →
  ∃ net' rc' e, receiver_step packet_length decode keeps_raw net rc err = Ret (net', rc', e) ∧ stepped n net rc net' rc' e.
Proof.
  intros Hw Hrc Hs. unfold receiver_step. unfold has_sockets in Hs.
  assert (Hphase : ∀ ph, (ph = Starting ∨ ph = Stopped ∨ is_Some (rn_sockets net)) →
      (acked rc = true → ph = Frozen ∨ ph = Stopped) →
      ∃ net' rc' e, Ret (net, set_phase rc ph, None) = Ret (net', rc', e) ∧ stepped n net rc net' rc' e).
  { intros ph Hph Ha. eexists _, _, _. split; [reflexivity|]. apply stepped_phase; [done|done|done|].
    intros Hrc'. unfold acked, set_phase. cbn [rc_phase]. by destruct (Ha Hrc') as [-> | ->]. }
  assert (Hloop : ∀ ph, rc_phase rc ≠ Starting → rc_phase rc ≠ Stopped → acked rc = false →
      ∃ net' rc' e, Ret (net, set_phase rc ph, None) = Ret (net', rc', e) ∧ stepped n net rc net' rc' e).
  { intros ph H1 H2 H3. apply Hphase; [|by rewrite H3]. right; right. by destruct Hs as [?|[?|?]]. }
  destruct (rc_phase rc) eqn:Hp.
  - assert (Ha : acked rc = false) by (unfold acked; by rewrite Hp).
    destruct (rn_sockets net) eqn:Hss; [apply Hphase; [right; right; by eexists|by rewrite Ha]|].
    apply Hphase; [destruct (rn_shutdown net); [by right; left|by left]|by rewrite Ha].
  - apply Hloop; [done|done|unfold acked; by rewrite Hp].
  - apply Hloop; [done|done|unfold acked; by rewrite Hp].
  - assert (Ha : acked rc = false) by (unfold acked; by rewrite Hp).
    destruct Hs as [?|[?|[ss Hss]]]; [done|done|]. destruct (_ <=? k) eqn:Hk; [by apply Hloop|].
    apply Nat.leb_gt in Hk. destruct (poll_spec n net rc (rc_start rc + k) err ss Hw Hrc Hss ltac:(lia))
      as (net' & pool' & go_on & e & -> & Hf & He & (F1 & F2 & F3 & F4) & Hfate & _). cbn [run_bind].
    eexists _, _, _. split; [reflexivity|]. split; [done|]. split.
    { destruct Hrc. constructor; try done; cbn; [by rewrite length_insert|by rewrite (ef_channels _ _ _ _ He)|by apply Forall_insert]. }
    split; [done|]. split; [|split; [done|split; [by rewrite Ha|do 3 (split; [done|]); split; [by rewrite F3|]]]].
    + right; right. apply (ef_sockets _ _ _ _ He). by eexists.
    + rewrite Ha, F3. destruct (acked _); lia.
  - assert (Ha : acked rc = false) by (unfold acked; by rewrite Hp). eexists _, _, _. split; [reflexivity|]. split.
    { destruct Hw. constructor; try done; intros; cbn; by rewrite ?app_nil_r, ?Nat.add_0_r. }
    split; [by destruct Hrc|]. split; [done|]. split; [right; right; by destruct Hs as [?|[?|?]]|]. split; [done|].
    split; [by rewrite Ha|]. do 3 (split; [done|]). split; [cbn; lia|]. rewrite Ha. cbn. lia.
  - apply Hphase; [|intros _; destruct (rn_shutdown net); [by right|by left]].
    right; right. by destruct Hs as [?|[?|?]].
  - eexists _, _, _. split; [reflexivity|]. split; [by apply effect_refl|]. split; [done|]. split; [done|]. split; [right; by left|].
    split; [done|]. split; [done|]. by do 4 (split; [done|]).
Qed.

(** ** What holds in every run *)

Definition acks (rs : list Receiver) : nat := length (List.filter acked rs).

Lemma acks_insert rs i rc rc' : rs !! i = Some rc →
  acks (<[i := rc']> rs) + (if acked rc then 1 else 0) = acks rs + (if acked rc' then 1 else 0).
Proof.
  revert i. induction rs as [|r rs IH]; intros [|i] Hi; try done; unfold acks in *; simpl.
  - injection Hi as ->. destruct (acked rc), (acked rc'); cbn; lia.
  - specialize (IH i Hi). destruct (acked r); cbn; lia.
Qed.

Lemma acks_le rs : acks rs ≤ length rs.
Proof. apply List.filter_length_le. Qed.

Lemma acks_all rs : acks rs = length rs → Forall (λ rc, acked rc = true) rs.
Proof.
  induction rs as [|r rs IH]; intros Hl; [constructor|]. unfold acks in *. cbn in Hl. pose proof (acks_le rs) as Hle. unfold acks in Hle.
  destruct (acked r) eqn:Ha; cbn in Hl; [constructor; [done|apply IH; lia]|lia].
Qed.

Record run_inv (n : nat) (sys0 : RxSystem) (tr : list RxLabel) (sys : RxSystem) : Prop := {
  ri_net : net_wf n (ry_net sys);
  ri_receivers : Forall (λ rc, receiver_wf n (length (rn_channels (ry_net sys))) rc ∧ has_sockets (ry_net sys) rc) (ry_receivers sys);
  ri_same : Forall2 same_thread (ry_receivers sys0) (ry_receivers sys);
  ri_taken : ∀ s, arrived s tr = (ev_datagram <$> taken s tr) ++ queue_of (ry_net sys) s;
  ri_sent : ∀ c, sent_on c tr = drained c tr ++ chan (ry_net sys) c;
  ri_drops : ∀ s, drops (ry_net sys) s = dropped_of s tr;
  ri_fates : ∀ e, LEvent e ∈ tr → ∃ i rc, ry_receivers sys0 !! i = Some rc ∧ fate_ok rc e;
  ri_frozen : rn_frozen (ry_net sys) ≤ acks (ry_receivers sys);
  ri_acked : ry_listener sys = Sending true → receivers ≤ rn_frozen (ry_net sys);
}.

Lemma taken_snoc s tr l : taken s (tr ++ [l]) = taken s tr ++ match l with LEvent e => event_at (Some e) s | _ => [] end.
Proof. unfold taken. rewrite omap_app. f_equal. destruct l as [e| | |]; try done. cbn. by destruct (ev_socket e =? s). Qed.

Lemma arrived_snoc s tr l : arrived s (tr ++ [l]) = arrived s tr ++ match l with LArrive s' d => if s' =? s then [d] else [] | _ => [] end.
Proof. unfold arrived. rewrite omap_app. f_equal. destruct l as [|s' d| |]; try done. cbn. by destruct (s' =? s). Qed.

Lemma sent_snoc c tr l : sent_on c (tr ++ [l]) = sent_on c tr ++ match l with LEvent e => event_sent (Some e) c | _ => [] end.
Proof.
  unfold sent_on. rewrite omap_app. f_equal. destruct l as [[s d []]| | |]; try done. cbn. by destruct (_ =? c).
Qed.

Lemma drained_snoc c tr l : drained c (tr ++ [l]) = drained c tr ++ match l with LDrain c' ms => if c' =? c then ms else [] | _ => [] end.
Proof.
  unfold drained. rewrite omap_app, concat_app. f_equal. destruct l as [| |c' ms|]; try done. cbn. destruct (c' =? c); cbn; by rewrite ?app_nil_r.
Qed.

Lemma dropped_snoc s tr l : dropped_of s (tr ++ [l]) = dropped_of s tr + match l with LEvent e => length (List.filter is_dropped (event_at (Some e) s)) | _ => 0 end.
Proof.
  unfold dropped_of. rewrite taken_snoc, List.filter_app, length_app. f_equal. by destruct l.
Qed.

(** The observations of a step of a receiver. *)
Lemma event_taken (e : option RxEvent) s : match match e with Some e => LEvent e | None => LInternal end with LEvent e => event_at (Some e) s | _ => [] end = event_at e s.
Proof. by destruct e. Qed.

Lemma thread_fate rc rc' e : same_thread rc rc' → fate_ok rc' e → fate_ok rc e.
Proof. intros (H1 & H2 & H3 & H4). unfold fate_ok. by rewrite H1, H2, H3, H4. Qed.

Lemma has_sockets_mono net net' rc : (is_Some (rn_sockets net) → is_Some (rn_sockets net')) → has_sockets net rc → has_sockets net' rc.
Proof. intros Hm [?|[?|?]]; [by left|by right; left|right; right; by apply Hm]. Qed.

(** A step that takes nothing and sends nothing keeps the observations. *)
Lemma quiet_inv n sys0 tr sys net' l' (Hi : run_inv n sys0 tr sys) :
  net_wf n net' → length (rn_channels net') = length (rn_channels (ry_net sys)) →
  (is_Some (rn_sockets (ry_net sys)) → is_Some (rn_sockets net')) →
  (∀ s, queue_of net' s = queue_of (ry_net sys) s) → (∀ c, chan net' c = chan (ry_net sys) c) → (∀ s, drops net' s = drops (ry_net sys) s) →
  rn_frozen net' = rn_frozen (ry_net sys) → (l' = Sending true → receivers ≤ rn_frozen (ry_net sys)) →
  run_inv n sys0 (tr ++ [LInternal]) (mkRxSystem net' (ry_receivers sys) l').
Proof.
  intros Hw Hc Hs Hq Hch Hd Hf Hl. destruct Hi as [R1 R2 R3 R4 R5 R6 R7 R8 R9]. constructor; cbn [ry_net ry_receivers ry_listener]; try done.
  - eapply Forall_impl; [exact R2|]. intros rc [Hrc Hhs]. cbv beta. rewrite Hc. split; [done|]. by eapply has_sockets_mono.
  - intros s. rewrite arrived_snoc, taken_snoc, !app_nil_r, Hq. apply R4.
  - intros c. rewrite sent_snoc, drained_snoc, !app_nil_r, Hch. apply R5.
  - intros s. rewrite dropped_snoc, Nat.add_0_r, Hd. apply R6.
  - intros e [He|He%list_elem_of_singleton]%elem_of_app; [by apply R7|done].
  - by rewrite Hf.
  - by rewrite Hf.
Qed.

Lemma receiver_inv n sys0 tr sys i rc err net' rc' e : run_inv n sys0 tr sys → ry_receivers sys !! i = Some rc →
  receiver_step packet_length decode keeps_raw (ry_net sys) rc err = Ret (net', rc', e) →
  run_inv n sys0 (tr ++ [match e with Some e => LEvent e | None => LInternal end])
    (mkRxSystem net' (<[i := rc']> (ry_receivers sys)) (ry_listener sys)).
Proof.
  intros [R1 R2 R3 R4 R5 R6 R7 R8 R9] Hi Hstep. pose proof (Forall_lookup_1 _ _ _ _ R2 Hi) as [Hrc Hhs].
  destruct (step_spec n _ rc err R1 Hrc Hhs) as (net2 & rc2 & e2 & Hs & (He & Hw & Hsame & Hhs' & Hfate & Hack & F1 & F2 & F3 & Fmono & F4)).
  rewrite Hstep in Hs. injection Hs as <- <- <-. destruct He as [E1 E2 E3 E4 E5 E6 E7].
  constructor; cbn [ry_net ry_receivers ry_listener].
  - done.
  - apply Forall_insert; [|done]. eapply Forall_impl; [exact R2|]. intros r [Hr Hh]. cbv beta. rewrite E5. split; [done|]. by eapply has_sockets_mono.
  - rewrite <- (list_insert_id (ry_receivers sys0) i (default rc (ry_receivers sys0 !! i))).
    + apply Forall2_insert; [done|]. destruct (Forall2_lookup_r _ _ _ _ _ R3 Hi) as (r0 & Hr0 & H0). rewrite Hr0. cbn.
      destruct H0 as (A & B & C & D), Hsame as (A' & B' & C' & D'). unfold same_thread. by rewrite A', B', C', D'.
    + destruct (Forall2_lookup_r _ _ _ _ _ R3 Hi) as (r0 & Hr0 & _). by rewrite Hr0.
  - intros s. rewrite arrived_snoc, taken_snoc, event_taken, fmap_app, <- (assoc_L (++)), <- E2.
    replace (match match e with Some e => LEvent e | None => LInternal end with LArrive s' d => if s' =? s then [d] else [] | _ => [] end) with (@nil Datagram) by (by destruct e).
    rewrite app_nil_r. apply R4.
  - intros c. rewrite sent_snoc, drained_snoc, E3, R5.
    destruct e as [ev|]; cbn [event_sent]; by rewrite ?app_nil_r, <- ?(assoc_L (++)).
  - intros s. rewrite E4, R6, dropped_snoc. f_equal. by destruct e.
  - intros ev [Hev|Hev%list_elem_of_singleton]%elem_of_app; [by apply R7|]. destruct e as [e|]; [|done]. injection Hev as ->.
    destruct (Forall2_lookup_r _ _ _ _ _ R3 Hi) as (r0 & Hr0 & H0). exists i, r0. split; [done|].
    eapply thread_fate; [exact H0|]. by apply Hfate.
  - pose proof (acks_insert _ i rc rc' Hi). lia.
  - intros Hl. specialize (R9 Hl).
    lia.
Qed.

Lemma listener_inv n sys0 tr sys late ok : run_inv n sys0 tr sys →
  run_inv n sys0 (tr ++ [LInternal]) (mkRxSystem (listener_step receivers (ry_net sys) (ry_listener sys) late ok).1 (ry_receivers sys)
    (listener_step receivers (ry_net sys) (ry_listener sys) late ok).2).
Proof.
  intros Hi. pose proof Hi as [[N1 N2 N3 N4 N5] _ _ _ _ _ _ _ R9].
  assert (Hflags : ∀ a b c d l', c = rn_frozen (ry_net sys) → (l' = Sending true → receivers ≤ rn_frozen (ry_net sys)) →
    run_inv n sys0 (tr ++ [LInternal]) (mkRxSystem (set_flags (ry_net sys) a b c d) (ry_receivers sys) l')).
  { intros a b c d l' -> Hl. by apply quiet_inv with (sys := sys). }
  assert (Hsame : ∀ l', (l' = Sending true → receivers ≤ rn_frozen (ry_net sys)) →
    run_inv n sys0 (tr ++ [LInternal]) (mkRxSystem (ry_net sys) (ry_receivers sys) l')).
  { intros l' Hl. by apply quiet_inv with (sys := sys). }
  unfold listener_step. destruct (ry_listener sys) eqn:Hl; cbn [fst snd].
  - apply Hsame. by destruct ok.
  - by apply Hflags.
  - destruct (rn_frozen (ry_net sys) <? receivers) eqn:Hf; cbn [fst snd].
    + apply Hsame. by destruct late.
    + apply Hsame. intros _. by apply Nat.ltb_ge in Hf.
  - destruct ok; [by apply Hflags|by apply Hsame].
  - by apply Hsame.
Qed.

Lemma arrive_queue net ss socket d queue s : rn_sockets net = Some ss → ss !! socket = Some queue →
  queue_of (set_sockets net (Some (<[socket := queue ++ [d]]> ss))) s = queue_of net s ++ (if socket =? s then [d] else []).
Proof.
  intros Hss Hq. unfold queue_of. cbn [rn_sockets set_sockets]. rewrite Hss. destruct (Nat.eqb_spec socket s) as [->|Hne].
  - rewrite list_lookup_insert_eq by (by eapply lookup_lt_Some). by rewrite Hq.
  - rewrite list_lookup_insert_ne by done. by rewrite app_nil_r.
Qed.

Lemma arrive_inv n sys0 tr sys socket d ss queue : run_inv n sys0 tr sys → rn_sockets (ry_net sys) = Some ss → ss !! socket = Some queue →
  run_inv n sys0 (tr ++ [LArrive socket d])
    (mkRxSystem (set_sockets (ry_net sys) (Some (<[socket := queue ++ [d]]> ss))) (ry_receivers sys) (ry_listener sys)).
Proof.
  intros [[N1 N2 N3 N4 N5] R2 R3 R4 R5 R6 R7 R8 R9] Hss Hq. constructor; cbn [ry_net ry_receivers ry_listener]; try done.
  - constructor; try done. intros ss' [= <-]. rewrite length_insert. by apply N3.
  - eapply Forall_impl; [exact R2|]. intros rc [Hrc Hh]. split; [done|]. eapply has_sockets_mono; [|exact Hh]. by eexists.
  - intros s. rewrite arrived_snoc, taken_snoc, app_nil_r, R4, (arrive_queue _ _ _ _ _ _ Hss Hq). by rewrite (assoc_L (++)).
  - intros c. rewrite sent_snoc, drained_snoc, !app_nil_r. apply R5.
  - intros s. rewrite dropped_snoc, Nat.add_0_r. apply R6.
  - intros e [He|He%list_elem_of_singleton]%elem_of_app; [by apply R7|done].
Qed.

Lemma drain_inv n sys0 tr sys channel ms : run_inv n sys0 tr sys → rn_channels (ry_net sys) !! channel = Some ms →
  run_inv n sys0 (tr ++ [LDrain channel ms])
    (mkRxSystem (set_channels (ry_net sys) (<[channel := []]> (rn_channels (ry_net sys)))) (ry_receivers sys) (ry_listener sys)).
Proof.
  intros [[N1 N2 N3 N4 N5] R2 R3 R4 R5 R6 R7 R8 R9] Hms. constructor; cbn [ry_net ry_receivers ry_listener]; try done.
  - constructor; try done. cbn. apply Forall_insert; [done|]. cbn. lia.
  - cbn [rn_channels set_channels]. by rewrite length_insert.
  - intros s. rewrite arrived_snoc, taken_snoc, !app_nil_r. apply R4.
  - intros c. rewrite sent_snoc, drained_snoc, app_nil_r, R5. unfold chan at 2. cbn [rn_channels set_channels].
    rewrite chan_insert by (by eapply lookup_lt_Some). destruct (Nat.eqb_spec channel c) as [<-|].
    + unfold chan. rewrite Hms. cbn. by rewrite app_nil_r.
    + by rewrite app_nil_r.
  - intros s. rewrite dropped_snoc, Nat.add_0_r. apply R6.
  - intros e [He|He%list_elem_of_singleton]%elem_of_app; [by apply R7|done].
Qed.

Lemma rx_step_inv n sys0 tr sys l sys' : run_inv n sys0 tr sys → rx_step sys l sys' → run_inv n sys0 (tr ++ [l]) sys'.
Proof.
  intros Hi Hstep. pose proof Hi as [[N1 N2 N3 N4 N5] _ _ _ _ _ _ _ R9]. destruct Hstep as [i rc err net' rc' e Hr Hs|late ok|socket d ss queue Hss Hq|channel ms Hms|socket b queue Hq Hlen Hb|ss Hnone Hl Hempty|].
  - by eapply receiver_inv.
  - by apply listener_inv.
  - by apply arrive_inv.
  - by apply drain_inv.
  - apply quiet_inv with (sys := sys); try done. constructor; try done; cbn; [by rewrite length_insert|].
    apply Forall_insert; [done|]. apply Forall_app. split; [exact (Forall_lookup_1 _ _ _ _ N4 Hq)|by repeat constructor].
  - apply quiet_inv with (sys := sys); try done.
    + constructor; try done. intros ss' [= <-]. by rewrite Hl.
    + intros s. unfold queue_of. cbn [rn_sockets set_sockets]. rewrite Hnone. destruct (ss !! s) as [q|] eqn:Hq; [|done].
      cbn. by rewrite <- (Forall_lookup_1 _ _ _ _ Hempty Hq).
  - by apply quiet_inv with (sys := sys).
Qed.

Lemma rx_run_inv n sys0 tr sys : run_inv n sys0 [] sys0 → rx_run sys0 tr sys → run_inv n sys0 tr sys.
Proof. intros H0. induction 1 as [|tr sys1 l sys2 _ IH Hstep]; [done|]. by eapply rx_step_inv. Qed.
End runs.

(** ** From the set-up on *)

(** The ranges lie within the sockets; a thread whose range ends before it starts panics. *)
Lemma ranges_bound receiver_threads num_sockets ranges i r :
  receiver_ranges receiver_threads num_sockets = Ret ranges → ranges !! i = Some r → r.2 ≤ num_sockets.
Proof.
  unfold receiver_ranges. destruct (num_sockets <=? receiver_threads).
  - intros [= <-] Hr. rewrite list_lookup_fmap in Hr. apply fmap_Some in Hr as (k & Hk & ->). apply lookup_seq in Hk as [-> Hk]. cbn. lia.
  - destruct (receiver_threads =? 0); [done|]. intros [= <-] Hr. rewrite list_lookup_fmap in Hr. apply fmap_Some in Hr as (k & _ & ->). cbn. lia.
Qed.

Lemma shard_of_lt shards i : shard_of shards i < Nat.max shards 1.
Proof.
  destruct shards as [|k]; [cbn; lia|]. unfold shard_of. pose proof (Nat.mod_upper_bound i (S k) ltac:(lia)). lia.
Qed.

Section start.
Context (config : GraphNetworkConfig) (takeover : bool) (shards receiver_threads receiver_offset recv_pool_size : nat).
Context (rx_decode : bool) (keeps_raw : Datagram → bool) (spawned : list (option Receiver)).
#[local] Notation net0 := (network_infrastructure (Some config) takeover shards).
Context (Hspawn : spawn_receiver_threads (Some config) net0 receiver_threads receiver_offset recv_pool_size shards = Ret spawned).
#[local] Notation n := (net_num_sockets config).
#[local] Notation packet_length := (net_packet_length config).
#[local] Notation decode := (receiver_decode config rx_decode).
#[local] Notation sys0 := (mkRxSystem net0 (omap id spawned) Accepting).
#[local] Notation run := (rx_run packet_length recv_pool_size (length spawned) decode keeps_raw).

(** The threads are those of the ranges. *)
Lemma spawned_ranges : ∃ ranges, receiver_ranges receiver_threads n = Ret ranges
  ∧ spawned = imap (spawn_receiver_thread packet_length recv_pool_size receiver_offset shards) ranges.
Proof using Hspawn.
  unfold spawn_receiver_threads in Hspawn. destruct (match rn_sockets net0 with Some s => _ | None => false end); [done|].
  destruct (receiver_ranges receiver_threads n) as [ranges|]; [|done]. cbn [run_bind] in Hspawn. exists ranges. by injection Hspawn as <-.
Qed.

Lemma spawned_wf rc : rc ∈ omap id spawned → receiver_wf packet_length n (Nat.max shards 1) rc ∧ rc_phase rc = Starting.
Proof using Hspawn.
  destruct spawned_ranges as (ranges & Hr & ->). intros (o & Ho & Hrc)%list_elem_of_omap. cbn in Hrc. subst o.
  apply list_elem_of_lookup in Ho as [i Hi]. rewrite list_lookup_imap in Hi. apply fmap_Some in Hi as (r & Hri & Hsp).
  pose proof (ranges_bound _ _ _ _ _ Hr Hri) as Hb. unfold spawn_receiver_thread, start_receiver in Hsp.
  destruct (r.2 <? r.1) eqn:Hlt; [done|]. apply Nat.ltb_ge in Hlt. injection Hsp as ->. split; [|done]. constructor; cbn.
  - lia.
  - by rewrite length_replicate.
  - apply shard_of_lt.
  - apply Forall_replicate, Forall_replicate. apply length_replicate.
Qed.

Lemma reception_start_inv : run_inv packet_length (length spawned) decode n sys0 [] sys0.
Proof using Hspawn.
  assert (Hl : length (rn_channels net0) = Nat.max shards 1) by apply length_replicate.
  constructor; cbn [ry_net ry_receivers ry_listener]; try done.
  - constructor; cbn.
    + apply length_replicate.
    + apply length_replicate.
    + intros ss. destruct takeover; [done|]. intros [= <-]. apply length_replicate.
    + by apply Forall_replicate.
    + apply Forall_replicate. cbn. lia.
  - apply Forall_forall. intros rc [Hw Hp]%spawned_wf. rewrite Hl. split; [done|]. by left.
  - apply Forall2_same_length_lookup_2; [done|]. intros i rc rc' H1 H2. replace rc' with rc by congruence. done.
  - intros s. cbn. unfold queue_of. cbn. destruct takeover; [done|]. destruct (replicate n [] !! s) as [q|] eqn:Hq; [|done].
    by apply lookup_replicate_1 in Hq as [-> _].
  - intros c. cbn. unfold chan. cbn. destruct (replicate (shards `max` 1) [] !! c) as [q|] eqn:Hq; [|done]. by apply lookup_replicate_1 in Hq as [-> _].
  - intros s. unfold drops. cbn. destruct (replicate n 0 !! s) as [k|] eqn:Hk; [|done]. by apply lookup_replicate_1 in Hk as [-> _].
  - intros e He. by apply not_elem_of_nil in He.
  - cbn. lia.
Qed.

(** The threads that panic at their start: those whose share would begin after the last socket. *)
Lemma spawned_lost i : spawned !! i = Some None ↔ receiver_threads < n ∧ i < receiver_threads ∧ n < i * div_ceil n receiver_threads.
Proof using Hspawn.
  destruct spawned_ranges as (ranges & Hr & Heq). rewrite Heq at 1. rewrite list_lookup_imap.
  assert (Hnone : ∀ r, spawn_receiver_thread packet_length recv_pool_size receiver_offset shards i r = None ↔ r.2 < r.1).
  { intros r. unfold spawn_receiver_thread, start_receiver. destruct (Nat.ltb_spec r.2 r.1); split; done || lia. }
  unfold receiver_ranges in Hr. destruct (Nat.leb_spec n receiver_threads) as [Hn|Hn].
  - injection Hr as <-. rewrite list_lookup_fmap. split; [|lia]. intros (r & Hi & Hs)%fmap_Some. apply fmap_Some in Hi as (k & _ & ->).
    symmetry in Hs. apply Hnone in Hs. cbn in Hs. lia.
  - destruct (receiver_threads =? 0); [done|]. injection Hr as <-. rewrite list_lookup_fmap. split.
    + intros (r & Hi & Hs)%fmap_Some. apply fmap_Some in Hi as (k & [-> Hk]%lookup_seq & ->). symmetry in Hs. apply Hnone in Hs. cbn in Hs. lia.
    + intros (_ & Hi & Hlt). rewrite lookup_seq_lt by done. cbn [fmap option_fmap option_map]. f_equal. apply Hnone. cbn. lia.
Qed.

(** C22. Reception loses nothing silently. A thread panics at its start exactly when there are
    fewer threads than sockets and its share would begin after the last socket. However the
    other threads and those around them interleave, no step of a receiver panics; each socket
    belongs to one of these threads; its datagrams are taken in the order of their arrival, and
    those not taken are still in the socket; a datagram that is shorter than a packet is passed
    over, and of every other one the thread sends the message, with the bytes or the decoded
    value of the packet, to its channel, or counts it as dropped; and the messages sent to a
    channel are those received from it and, after them, those still in it, within its capacity. *)
Theorem reception_exact tr sys (Hrun : run sys0 tr sys) :
  (∀ i, spawned !! i = Some None ↔ receiver_threads < n ∧ i < receiver_threads ∧ n < i * div_ceil n receiver_threads)
  ∧ (∀ s, s < n → ∃ rc, Some rc ∈ spawned ∧ rc_start rc ≤ s < rc_end rc ∧ ∀ rc', Some rc' ∈ spawned → rc_start rc' ≤ s < rc_end rc' → rc' = rc)
  ∧ (∀ rc err, rc ∈ ry_receivers sys → ∃ r, receiver_step packet_length decode keeps_raw (ry_net sys) rc err = Ret r)
  ∧ (∀ s, arrived s tr = (ev_datagram <$> taken s tr) ++ queue_of (ry_net sys) s)
  ∧ (∀ e, LEvent e ∈ tr → ∃ rc, Some rc ∈ spawned ∧ fate_ok packet_length decode rc e)
  ∧ (∀ c, sent_on c tr = drained c tr ++ chan (ry_net sys) c)
  ∧ Forall (λ q, length q ≤ rn_channel_cap (ry_net sys)) (rn_channels (ry_net sys))
  ∧ (∀ s, drops (ry_net sys) s = dropped_of s tr).
Proof using Hspawn.
  pose proof (rx_run_inv _ _ _ _ _ n _ _ _ reception_start_inv Hrun) as [R1 R2 R3 R4 R5 R6 R7 R8 R9]. split; [exact spawned_lost|]. split; [|split; [|split; [done|split; [|split; [done|split; [apply R1|done]]]]]].
  - intros s Hs. destruct spawned_ranges as (ranges & Hr & Heq). destruct (ranges_cover _ _ _ s Hr Hs) as (i & r & Hi & Hin & Huniq).
    assert (Hthread : ∀ j q rc, ranges !! j = Some q → spawn_receiver_thread packet_length recv_pool_size receiver_offset shards j q = Some rc →
      rc_start rc = q.1 ∧ rc_end rc = q.2).
    { intros j q rc _. unfold spawn_receiver_thread, start_receiver. destruct (q.2 <? q.1); [done|]. by intros [= <-]. }
    assert (Hall : ∀ rc', Some rc' ∈ spawned → ∃ j q, ranges !! j = Some q ∧ spawn_receiver_thread packet_length recv_pool_size receiver_offset shards j q = Some rc').
    { intros rc' Hrc'. rewrite Heq in Hrc'. apply list_elem_of_lookup in Hrc' as [j Hj]. rewrite list_lookup_imap in Hj. apply fmap_Some in Hj as (q & Hq & Hsp). by exists j, q. }
    destruct (spawn_receiver_thread packet_length recv_pool_size receiver_offset shards i r) as [rc|] eqn:Hsp.
    + exists rc. destruct (Hthread i r rc Hi Hsp) as [-> ->]. split; [|split; [done|]].
      * rewrite Heq. apply list_elem_of_lookup. exists i. rewrite list_lookup_imap, Hi. cbn. by rewrite Hsp.
      * intros rc' (j & q & Hq & Hsp')%Hall Hin'. destruct (Hthread j q rc' Hq Hsp') as [H1 H2]. rewrite H1, H2 in Hin'.
        assert (j = i) as -> by (by eapply Huniq). congruence.
    + unfold spawn_receiver_thread, start_receiver in Hsp. destruct (r.2 <? r.1) eqn:Hlt; [|done]. apply Nat.ltb_lt in Hlt. lia.
  - intros rc err Hrc. rewrite Forall_forall in R2. destruct (R2 rc Hrc) as [Hw Hh].
    destruct (step_spec packet_length decode keeps_raw n _ rc err R1 Hw Hh) as (net' & rc' & e & Hs & _). by eexists.
  - intros e He. destruct (R7 e He) as (i & rc & Hrc & Hf). exists rc. split; [|done].
    apply list_elem_of_lookup_2, list_elem_of_omap in Hrc as (o & Ho & Hid). cbn in Hid. by subst o.
Qed.

Lemma omap_le (l : list (option Receiver)) : length (omap id l) ≤ length l.
Proof. induction l as [|[rc|] l IH]; cbn; lia. Qed.

(** Receivers that have stopped take nothing, whatever else happens. *)
Lemma silent_step tr sys l sys' : run_inv packet_length (length spawned) decode n sys0 tr sys → Forall (λ rc, acked rc = true) (ry_receivers sys) →
  rx_step packet_length recv_pool_size (length spawned) decode keeps_raw sys l sys' →
  Forall (λ rc, acked rc = true) (ry_receivers sys') ∧ ∀ e, l ≠ LEvent e.
Proof.
  intros [R1 R2 _ _ _ _ _ _ _] Hack Hstep. destruct Hstep as [i rc err net' rc' e Hr Hs| | | | | | ]; try done.
  pose proof (Forall_lookup_1 _ _ _ _ R2 Hr) as [Hw Hh].
  destruct (step_spec _ decode keeps_raw _ _ rc err R1 Hw Hh) as (net2 & rc2 & e2 & Hs' & (_ & _ & _ & _ & _ & Ha & _)).
  rewrite Hs in Hs'. injection Hs' as <- <- <-. destruct (Ha (Forall_lookup_1 _ _ _ _ Hack Hr)) as [Hrc' ->].
  split; [by apply Forall_insert|done].
Qed.

Lemma silent_run tr1 sys1 tr2 sys2 : run_inv packet_length (length spawned) decode n sys0 tr1 sys1 → Forall (λ rc, acked rc = true) (ry_receivers sys1) →
  run sys1 tr2 sys2 → run_inv packet_length (length spawned) decode n sys0 (tr1 ++ tr2) sys2 ∧ Forall (λ rc, acked rc = true) (ry_receivers sys2)
    ∧ (∀ e, LEvent e ∉ tr2).
Proof.
  intros Hi Hack Hrun. induction Hrun as [|tr2 sys2 l sys3 _ (IHi & IHa & IHe) Hstep].
  - rewrite app_nil_r. by split; [|split; [|intros e He%not_elem_of_nil]].
  - destruct (silent_step _ _ _ _ IHi IHa Hstep) as [IHa' Hl]. split; [|split; [done|]].
    + rewrite (assoc_L (++)). by eapply rx_step_inv.
    + intros ev [He|He%list_elem_of_singleton]%elem_of_app; [by eapply IHe|]. by apply (Hl ev).
Qed.

Lemma silent_taken tr s : (∀ e, LEvent e ∉ tr) → taken s tr = [].
Proof.
  induction tr as [|l tr IH]; intros Hno; [done|]. assert (IH' : taken s tr = []) by (apply IH; intros e He; apply (Hno e); by right).
  unfold taken in *. destruct l as [e| | |]; try done. exfalso. apply (Hno e). by left.
Qed.

Lemma arrived_app s tr1 tr2 : arrived s (tr1 ++ tr2) = arrived s tr1 ++ arrived s tr2.
Proof. apply omap_app. Qed.
Lemma taken_app s tr1 tr2 : taken s (tr1 ++ tr2) = taken s tr1 ++ taken s tr2.
Proof. apply omap_app. Qed.

(** C24. A handover is exclusive. When the listener goes on to send the sockets because every
    receiver thread has acknowledged, then, however the run goes on, no receiver takes a
    datagram any more: each socket holds what was left in it and, in order, what arrives
    after that, for the process that takes it over. *)
Theorem handover_exclusive tr sys (Hrun : run sys0 tr sys) (Hsending : ry_listener sys = Sending true) tr' sys' (Hrun' : run sys tr' sys') :
  (∀ e, LEvent e ∉ tr') ∧ ∀ s, queue_of (ry_net sys') s = queue_of (ry_net sys) s ++ arrived s tr'.
Proof using Hspawn.
  pose proof (rx_run_inv _ _ _ _ _ n _ _ _ reception_start_inv Hrun) as Hi.
  assert (Hack : Forall (λ rc, acked rc = true) (ry_receivers sys)).
  { apply acks_all. pose proof (ri_acked _ _ _ _ _ _ _ Hi Hsending). pose proof (ri_frozen _ _ _ _ _ _ _ Hi).
    pose proof (acks_le (ry_receivers sys)). pose proof (Forall2_length _ _ _ (ri_same _ _ _ _ _ _ _ Hi)) as Hl. cbn [ry_receivers] in Hl.
    pose proof (omap_le spawned). lia. }
  destruct (silent_run _ _ _ _ Hi Hack Hrun') as (Hi' & _ & Hno). split; [done|]. intros s.
  pose proof (ri_taken _ _ _ _ _ _ _ Hi s) as H1. pose proof (ri_taken _ _ _ _ _ _ _ Hi' s) as H2.
  rewrite arrived_app, taken_app, (silent_taken tr' s Hno), app_nil_r, H1, <- (assoc_L (++)) in H2. by apply app_inv_head in H2.
Qed.
End start.

(** ** Two sockets *)

(** Two sockets for packets of two bytes, with a thread each. *)
Definition two_sockets : GraphNetworkConfig := mkNetConfig Udp 2 2 1 1 "127.0.0.1" 9000 None None None.
Definition two_net : RxNet := network_infrastructure (Some two_sockets) false 2.
Definition two_threads : list (option Receiver) :=
  match spawn_receiver_threads (Some two_sockets) two_net 2 4 1 2 with Ret l => l | Panic => [] end.
Definition two_system : RxSystem := mkRxSystem two_net (omap id two_threads) Accepting.

Lemma two_spawned : spawn_receiver_threads (Some two_sockets) (network_infrastructure (Some two_sockets) false 2) 2 4 1 2 = Ret two_threads.
Proof. reflexivity. Qed.

Definition steps_of (i k : nat) : list RxAct := replicate k (ActReceiver i None).

(** A packet, a short datagram and a longer one arrive at the first socket. *)
Definition two_polls : list RxAct :=
  [ActArrive 0 [1; 2]%Z; ActArrive 0 [3]%Z; ActArrive 0 [4; 5; 6]%Z; ActArrive 1 [7; 8]%Z] ++ steps_of 0 4 ++ steps_of 1 4 ++ [ActDrain 0] ++ steps_of 0 8.

Lemma reception_exact_witness :
  match performs 2 2 None (λ _, false) two_system two_polls with
  | Some (tr, sys) =>
      (∀ s, arrived s tr = (ev_datagram <$> taken s tr) ++ queue_of (ry_net sys) s)
      ∧ ev_fate <$> taken 0 tr = [Sent 0 (mkRxMessage (mkMessage [1; 2]%Z 4 None) 0); WrongSize 1; Sent 0 (mkRxMessage (mkMessage [4; 5]%Z 4 None) 0)]
      ∧ drained 0 tr = [mkRxMessage (mkMessage [1; 2]%Z 4 None) 0]
      ∧ chan (ry_net sys) 1 = [mkRxMessage (mkMessage [7; 8]%Z 5 None) 1]
  | None => False
  end.
Proof.
  assert (Hsome : match performs 2 2 None (λ _, false) two_system two_polls with Some _ => true | None => false end = true) by (vm_compute; reflexivity).
  assert (Hobs : match performs 2 2 None (λ _, false) two_system two_polls with
    | Some (tr, sys) => ev_fate <$> taken 0 tr = [Sent 0 (mkRxMessage (mkMessage [1; 2]%Z 4 None) 0); WrongSize 1; Sent 0 (mkRxMessage (mkMessage [4; 5]%Z 4 None) 0)]
      ∧ drained 0 tr = [mkRxMessage (mkMessage [1; 2]%Z 4 None) 0]
      ∧ chan (ry_net sys) 1 = [mkRxMessage (mkMessage [7; 8]%Z 5 None) 1]
    | None => True end) by (vm_compute; repeat split).
  destruct (performs 2 2 None (λ _, false) two_system two_polls) as [[tr sys]|] eqn:Hrun; [|discriminate Hsome].
  split; [|exact Hobs].
  exact (proj1 (proj2 (proj2 (proj2 (reception_exact two_sockets false 2 2 4 1 false (λ _, false) two_threads two_spawned tr sys (performs_run _ _ _ _ _ _ _ _ _ Hrun)))))).
Defined.

(** The first thread takes a packet, a replacement connects, both threads acknowledge. *)
Definition two_handover : list RxAct :=
  [ActArrive 0 [1; 2]%Z; ActArrive 0 [3; 4]%Z] ++ steps_of 0 4 ++ [ActListener false true; ActListener false true] ++ steps_of 0 4 ++ steps_of 1 4 ++ [ActListener false true].
(** More packets arrive, the threads go on, the sockets are sent. *)
Definition two_after : list RxAct := [ActArrive 0 [5; 6]%Z] ++ steps_of 0 3 ++ [ActListener false true; ActArrive 1 [7; 8]%Z] ++ steps_of 1 3.

Lemma handover_exclusive_witness :
  match performs 2 2 None (λ _, false) two_system two_handover with
  | Some (tr, sys) =>
      match performs 2 2 None (λ _, false) sys two_after with
      | Some (tr', sys') => (∀ s, queue_of (ry_net sys') s = queue_of (ry_net sys) s ++ arrived s tr')
          ∧ ev_datagram <$> taken 0 tr = [[1; 2]%Z] ∧ queue_of (ry_net sys') 0 = [[3; 4]; [5; 6]]%Z ∧ rn_handed_over (ry_net sys') = true
      | None => False
      end
  | None => False
  end.
Proof.
  assert (Hsome : match performs 2 2 None (λ _, false) two_system two_handover with
    | Some (_, sys) => match performs 2 2 None (λ _, false) sys two_after with Some _ => match ry_listener sys with Sending a => a | _ => false end | None => false end
    | None => false end = true) by (vm_compute; reflexivity).
  assert (Hobs : match performs 2 2 None (λ _, false) two_system two_handover with
    | Some (tr, sys) => match performs 2 2 None (λ _, false) sys two_after with
      | Some (_, sys') => ev_datagram <$> taken 0 tr = [[1; 2]%Z] ∧ queue_of (ry_net sys') 0 = [[3; 4]; [5; 6]]%Z ∧ rn_handed_over (ry_net sys') = true
      | None => True end
    | None => True end) by (vm_compute; repeat split).
  destruct (performs 2 2 None (λ _, false) two_system two_handover) as [[tr sys]|] eqn:Hrun; [|discriminate Hsome].
  destruct (performs 2 2 None (λ _, false) sys two_after) as [[tr' sys']|] eqn:Hrun'; [|discriminate Hsome].
  split; [|exact Hobs]. destruct (ry_listener sys) as [| | |[]|] eqn:Hl; try discriminate Hsome.
  exact (proj2 (handover_exclusive two_sockets false 2 2 4 1 false (λ _, false) two_threads two_spawned tr sys (performs_run _ _ _ _ _ _ _ _ _ Hrun) Hl
    tr' sys' (performs_run _ _ _ _ _ _ _ _ _ Hrun'))).
Defined.

(** ** What goes wrong *)

(** Five sockets on four threads: the last range begins after its end. *)
Example share_past_end : receiver_ranges 4 5 = Ret [(0, 2); (2, 4); (4, 5); (6, 5)]
  ∧ spawn_receiver_thread 2 1 0 0 3 (6, 5) = None.
Proof. split; reflexivity. Qed.

Lemma omap_lost (l : list (option Receiver)) : None ∈ l → length (omap id l) < length l.
Proof.
  induction l as [|[rc|] l IH]; cbn; intros Hin; [by apply not_elem_of_nil in Hin| |pose proof (omap_le l); lia].
  apply elem_of_cons in Hin as [?|Hin]; [done|]. specialize (IH Hin). lia.
Qed.

(** With a thread that panicked at its start a handover is never acknowledged: the listener
    sends the sockets when its time is over, whatever the threads do. *)
Theorem lost_thread_unacknowledged config takeover shards receiver_threads receiver_offset recv_pool_size rx_decode keeps_raw spawned
    (Hspawn : spawn_receiver_threads (Some config) (network_infrastructure (Some config) takeover shards) receiver_threads receiver_offset recv_pool_size shards = Ret spawned)
    (Hlost : None ∈ spawned) tr sys
    (Hrun : rx_run (net_packet_length config) recv_pool_size (length spawned) (receiver_decode config rx_decode) keeps_raw
      (mkRxSystem (network_infrastructure (Some config) takeover shards) (omap id spawned) Accepting) tr sys) :
  ry_listener sys ≠ Sending true.
Proof.
  intros Hl. pose proof (rx_run_inv _ _ _ _ _ _ _ _ _ (reception_start_inv config takeover shards receiver_threads receiver_offset recv_pool_size rx_decode spawned Hspawn) Hrun) as Hi.
  pose proof (ri_acked _ _ _ _ _ _ _ Hi Hl). pose proof (ri_frozen _ _ _ _ _ _ _ Hi). pose proof (acks_le (ry_receivers sys)).
  pose proof (Forall2_length _ _ _ (ri_same _ _ _ _ _ _ _ Hi)) as Hlen. cbn [ry_receivers] in Hlen. pose proof (omap_lost _ Hlost). lia.
Qed.

(** A poll that gets no datagram gives up the buffer it took. *)
Theorem idle_poll_loses_buffer packet_length decode keeps_raw net rc socket ss queue k returned pool :
  rn_sockets net = Some ss → ss !! socket = Some queue → rn_drop_counters net !! socket = Some k → rn_returns net !! socket = Some returned →
  rc_pools rc !! (socket - rc_start rc) = Some pool →
  ∃ net' rc', poll_socket packet_length decode keeps_raw net rc socket (Some WouldBlock) = Ret (net', rc', true, None)
    ∧ rc_pools rc' !! (socket - rc_start rc) = Some (removelast (pool ++ returned)) ∧ rn_returns net' !! socket = Some [].
Proof.
  intros Hss Hq Hk Hr Hp. unfold poll_socket. rewrite Hss. cbn [unwrap run_bind]. rewrite (vec_get_lookup _ _ _ Hq). cbn [run_bind].
  rewrite (vec_get_lookup _ _ _ Hk). cbn [run_bind]. rewrite (vec_get_lookup _ _ _ Hr). cbn [run_bind].
  rewrite vec_set_lt by (by eapply lookup_lt_Some). cbn [run_bind]. rewrite (vec_get_lookup _ _ _ Hp). cbn [run_bind].
  eexists _, _. split; [reflexivity|]. cbn. split; apply list_lookup_insert_eq; by eapply lookup_lt_Some.
Qed.

(** A datagram that is longer than a packet passes the check of its size. *)
Theorem oversize_taken packet_length (buffer d : Datagram) : length buffer = packet_length → packet_length < length d →
  recv_into buffer d = (packet_length, take packet_length d).
Proof. intros Hb Hd. apply full_packet; [done|lia]. Qed.

(** ** Descriptors at the other end *)

Lemma le_bytes_roundtrip w : (0 ≤ w < two32)%Z → from_le_bytes (to_le_bytes w) = w.
Proof.
  intros Hw. unfold two32 in Hw. unfold to_le_bytes, from_le_bytes. cbn [fmap list_fmap foldr].
  rewrite Z.pow_0_r, Z.div_1_r. change (256 ^ 1)%Z with 256%Z. change (256 ^ 2)%Z with (256 * 256)%Z. change (256 ^ 3)%Z with (256 * 256 * 256)%Z.
  rewrite <- !Z.div_div by lia. assert (Hlast : (w / 256 / 256 / 256 < 256)%Z) by (rewrite !Z.div_div by lia; apply Z.div_lt_upper_bound; lia).
  assert (Hpos : (0 ≤ w / 256 / 256 / 256)%Z) by (rewrite !Z.div_div by lia; apply Z.div_pos; lia).
  rewrite (Z.mod_small (w / 256 / 256 / 256)) by lia.
  pose proof (Z.div_mod w 256 ltac:(lia)). pose proof (Z.div_mod (w / 256) 256 ltac:(lia)). pose proof (Z.div_mod (w / 256 / 256) 256 ltac:(lia)). lia.
Qed.

Lemma length_le_bytes w : length (to_le_bytes w) = 4.
Proof. done. Qed.

Lemma payload_read (count total : nat) : (Z.of_nat count < two32)%Z → (Z.of_nat total < two32)%Z →
  let payload := to_le_bytes (as_u32 (Z.of_nat count)) ++ to_le_bytes (as_u32 (Z.of_nat total)) in
  length payload = 8 ∧ Z.to_nat (from_le_bytes (take 4 payload)) = count ∧ Z.to_nat (from_le_bytes (drop 4 payload)) = total.
Proof.
  intros Hc Ht payload. unfold payload. rewrite !as_u32_small by lia. split; [done|].
  change 4 with (length (to_le_bytes (Z.of_nat count))). rewrite take_app_length, drop_app_length, !le_bytes_roundtrip by lia. split; apply Nat2Z.id.
Qed.

(** The chunks are the descriptors, none is empty or too long. *)
Lemma chunks_spec fuel size fds : 0 < size → length fds ≤ fuel →
  concat (slice_chunks fuel size fds) = fds ∧ Forall (λ c, 0 < length c ≤ size) (slice_chunks fuel size fds).
Proof.
  intros Hs. revert fds. induction fuel as [|fuel IH]; intros fds Hf; [by destruct fds; cbn in *; [|lia]|].
  destruct fds as [|fd fds]; [done|]. cbn [slice_chunks]. destruct (IH (drop size (fd :: fds))) as [Hc Hall].
  { rewrite length_drop. cbn in *. lia. }
  cbn [concat]. rewrite Hc, take_drop. split; [done|]. constructor; [|done]. rewrite length_take. cbn. lia.
Qed.

Lemma recv_chunks (total : nat) chunks out rest : (Z.of_nat total < two32)%Z → Forall (λ c, 0 < length c ≤ FDS_PER_MSG) chunks →
  length out + length (concat chunks) = total → chunks ≠ [] →
  recv_fds (((λ c, send_chunk c (as_u32 (Z.of_nat total))) <$> chunks) ++ rest) out = Some (out ++ concat chunks, rest).
Proof.
  intros Ht. revert out. induction chunks as [|c chunks IH]; [done|]. intros out Hall Hlen _. apply Forall_cons in Hall as [[Hc1 Hc2] Hall].
  cbn [concat] in Hlen. rewrite length_app in Hlen. cbn [fmap list_fmap app recv_fds send_chunk fm_payload].
  destruct (payload_read (length c) total) as (H8 & Hcount & Htotal); [lia|done|]. rewrite H8, Hcount, Htotal.
  rewrite Nat.eqb_refl. cbn [negb]. rewrite (proj2 (Nat.ltb_lt 0 (length c)) Hc1). unfold control_fds. cbn [fm_fds]. rewrite (take_ge c) by done.
  destruct chunks as [|c' chunks].
  - cbn in Hlen |- *. rewrite (proj2 (Nat.leb_le _ _)) by (rewrite length_app; lia). by rewrite app_nil_r.
  - apply Forall_cons in Hall as [Hc' Hall]. rewrite (proj2 (Nat.leb_gt _ _)).
    + rewrite IH; [cbn [concat]; by rewrite <- !app_assoc|by constructor|rewrite length_app; lia|done].
    + cbn [concat] in Hlen. rewrite length_app in *. lia.
Qed.

(** The other process gets the descriptors that were sent, in order, and leaves what follows
    in the stream. *)
Theorem descriptors_handed_over fds rest : (Z.of_nat (length fds) < two32)%Z → recv_fds (send_fds fds ++ rest) [] = Some (fds, rest).
Proof.
  intros Hlen. unfold send_fds. destruct fds as [|fd fds]; [done|].
  destruct (chunks_spec (length (fd :: fds)) FDS_PER_MSG (fd :: fds)) as [Hc Hall]; [unfold FDS_PER_MSG; lia|done|].
  rewrite recv_chunks; [by rewrite Hc|done|done|by rewrite Hc|by cbn].
Qed.
