(* ===== verification/Held.v ===== *)
(** Objects behind dynamic values ([Any], [AnyHeld], [VecAny] of [tomii-types/src/lib.rs]):
    the calls that borrow them, by their accesses to the lock of an object.

    An object is a value with its type. A lock lets in readers or one writer, as the
    documentation of [RwLock] says; a call that is not let in waits. [AnyHeld] reads without the lock: a reference to an object while
    another thread holds it for writing is undefined behaviour. Freeing is left out. *)
From S2P Require Import Prelude Types.
From stdpp Require Import strings.
Open Scope nat_scope.
Open Scope list_scope.

Section held.
(** The types of objects, with their values. *)
Context {TypeId : Type} `{!EqDecision TypeId} (value : TypeId → Type).

(** [Box<dyn Any>]. *)
Record Dyn := mkDyn { dy_type : TypeId; dy_value : value dy_type }.

Definition downcast_ref (T : TypeId) (d : Dyn) : option (value T) :=
  match decide (dy_type d = T) with
  | left e => Some (eq_rect (dy_type d) value (dy_value d) T e)
  | right _ => None
  end.

(** ** Accesses *)

Inductive Acc :=
  | RdLock (addr : nat) | RdUnlock (addr : nat)
  | WrLock (addr : nat) | WrUnlock (addr : nat) (d : Dyn)
  | RawBegin (addr : nat) | RawEnd (addr : nat)
  | NewAny (d : Dyn) | NewVec (ds : list Dyn) | ReadVec (addr : nat).

Definition resp (a : Acc) : Type :=
  match a with
  | RdLock _ | WrLock _ | RawBegin _ => Dyn
  | NewAny _ | NewVec _ => nat
  | ReadVec _ => list Dyn
  | _ => unit
  end.

(** A computation of a thread, by its accesses. *)
Inductive Code (R : Type) : Type :=
  | Done (r : R)
  | Step (a : Acc) (k : resp a → Code R).
Arguments Done {R} r.
Arguments Step {R} a k.

Fixpoint code_bind {A B} (c : Code A) (f : A → Code B) : Code B :=
  match c with
  | Done a => f a
  | Step a k => Step a (λ x, code_bind (k x) f)
  end.

(** *** Constructors *)

Definition from_bytes (bytes : list Z) : CmTypes := CmBytes bytes.

Definition from_any (T : TypeId) (x : value T) : Code CmTypes := Step (NewAny (mkDyn T x)) (λ addr : nat, Done (CmAny addr)).

Definition from_any_vec (T : TypeId) (vec : list (value T)) : Code CmTypes := Step (NewVec (mkDyn T <$> vec)) (λ addr : nat, Done (CmVecAny addr)).

(** *** Borrows *)

(** Under the lock for reading, and without it. *)
Definition read_locked {R} (addr : nat) (T : TypeId) (f : value T → Code R) : Code (option R) :=
  Step (RdLock addr) (λ d : Dyn,
    match downcast_ref T d with
    | Some x => code_bind (f x) (λ r, Step (RdUnlock addr) (λ _, Done (Some r)))
    | None => Step (RdUnlock addr) (λ _, Done None)
    end).

(** [AnyHeldData::downcast_ref]. *)
Definition read_raw {R} (addr : nat) (T : TypeId) (f : value T → Code R) : Code (option R) :=
  Step (RawBegin addr) (λ d : Dyn,
    match downcast_ref T d with
    | Some x => code_bind (f x) (λ r, Step (RawEnd addr) (λ _, Done (Some r)))
    | None => Step (RawEnd addr) (λ _, Done None)
    end).

Definition with_any {R} (v : CmTypes) (T : TypeId) (f : value T → Code R) : Code (option R) :=
  match v with
  | CmAny addr => read_locked addr T f
  | CmAnyHeld addr => read_raw addr T f
  | _ => Done None
  end.

(** The closure gives its result and what it leaves in the object. *)
Definition write_locked {R} (addr : nat) (T : TypeId) (f : value T → Code (R * value T)) : Code (option R) :=
  Step (WrLock addr) (λ d : Dyn,
    match downcast_ref T d with
    | Some x => code_bind (f x) (λ p, Step (WrUnlock addr (mkDyn T p.2)) (λ _, Done (Some p.1)))
    | None => Step (WrUnlock addr d) (λ _, Done None)
    end).

Definition with_any_mut {R} (v : CmTypes) (T : TypeId) (f : value T → Code (R * value T)) : Code (option R) :=
  match v with
  | CmAny addr | CmAnyHeld addr => write_locked addr T f
  | _ => Done None
  end.

(** [T] is the type of byte vectors. *)
Definition with_bytes {R} (T : TypeId) (bytes_of : value T → list Z) (v : CmTypes) (f : list Z → Code R) : Code (option R) :=
  match v with
  | CmBytes bytes => code_bind (f bytes) (λ r, Done (Some r))
  | CmAny addr => read_locked addr T (λ x, f (bytes_of x))
  | _ => Done None
  end.

(** A pointer into the object, by its address; the lock is only for the check of the type. *)
Definition as_mut_ptr (v : CmTypes) (T : TypeId) : Code (option nat) :=
  match v with
  | CmAny addr => Step (RdLock addr) (λ d : Dyn, Step (RdUnlock addr) (λ _, Done ((λ _, addr) <$> downcast_ref T d)))
  | _ => Done None
  end.

Definition as_vec_any (v : CmTypes) (T : TypeId) : Code (option (list (value T))) :=
  match v with
  | CmVecAny addr => Step (ReadVec addr) (λ ds : list Dyn, Done (mapM (downcast_ref T) ds))
  | _ => Done None
  end.

Definition vec_any_len (v : CmTypes) : Code (option nat) :=
  match v with
  | CmVecAny addr => Step (ReadVec addr) (λ ds : list Dyn, Done (Some (length ds)))
  | _ => Done None
  end.

(** ** The objects *)

(** An object with its lock: the readers, the writer, and those that read without it. A
    vector of objects is never written. *)
Record Cell := mkCell { ce_value : Dyn; ce_readers : nat; ce_writer : bool; ce_raw : nat }.
Record Heap := mkHeap { hp_any : list Cell; hp_vec : list (list Dyn) }.

Definition new_cell (d : Dyn) : Cell := mkCell d 0 false 0.

Inductive Answer (A : Type) := Granted (a : A) (h : Heap) | Blocked | Race.
Arguments Granted {A} a h.
Arguments Blocked {A}.
Arguments Race {A}.

Definition put_cell (h : Heap) (addr : nat) (c : Cell) : Heap := mkHeap (<[addr := c]> (hp_any h)) (hp_vec h).

(** An access to an object; a value keeps its object alive, so that one is there. *)
Definition at_cell {A} (h : Heap) (addr : nat) (f : Cell → Answer A) : Answer A :=
  match hp_any h !! addr with Some c => f c | None => Blocked end.

Definition access (h : Heap) (a : Acc) : Answer (resp a) :=
  match a with
  | RdLock addr => at_cell h addr (λ c,
      if ce_writer c then Blocked
      else Granted (ce_value c) (put_cell h addr (mkCell (ce_value c) (ce_readers c + 1) false (ce_raw c))))
  | RdUnlock addr => at_cell h addr (λ c,
      Granted tt (put_cell h addr (mkCell (ce_value c) (ce_readers c - 1) (ce_writer c) (ce_raw c))))
  | WrLock addr => at_cell h addr (λ c,
      if ce_writer c || negb (ce_readers c =? 0) then Blocked
      else if negb (ce_raw c =? 0) then Race
      else Granted (ce_value c) (put_cell h addr (mkCell (ce_value c) 0 true 0)))
  | WrUnlock addr d => at_cell h addr (λ c, Granted tt (put_cell h addr (mkCell d (ce_readers c) false (ce_raw c))))
  | RawBegin addr => at_cell h addr (λ c,
      if ce_writer c then Race
      else Granted (ce_value c) (put_cell h addr (mkCell (ce_value c) (ce_readers c) false (ce_raw c + 1))))
  | RawEnd addr => at_cell h addr (λ c,
      Granted tt (put_cell h addr (mkCell (ce_value c) (ce_readers c) (ce_writer c) (ce_raw c - 1))))
  | NewAny d => Granted (length (hp_any h)) (mkHeap (hp_any h ++ [new_cell d]) (hp_vec h))
  | NewVec ds => Granted (length (hp_vec h)) (mkHeap (hp_any h) (hp_vec h ++ [ds]))
  | ReadVec addr => match hp_vec h !! addr with Some ds => Granted ds h | None => Blocked end
  end.

(** ** Threads *)

Section threads.
Context {R : Type}.

Record Sys := mkSys { sy_heap : Heap; sy_threads : list (Code R) }.

Definition thread_step (s : Sys) (i : nat) : option Sys :=
  match sy_threads s !! i with
  | Some (Step a k) =>
      match access (sy_heap s) a with
      | Granted r h => Some (mkSys h (<[i := k r]> (sy_threads s)))
      | _ => None
      end
  | _ => None
  end.

Definition sys_step (s s' : Sys) : Prop := ∃ i, thread_step s i = Some s'.

Definition thread_races (s : Sys) (i : nat) : bool :=
  match sy_threads s !! i with
  | Some (Step a _) => match access (sy_heap s) a with Race => true | _ => false end
  | _ => false
  end.

(** A schedule of threads. *)
Fixpoint schedule (s : Sys) (turns : list nat) : option Sys :=
  match turns with
  | [] => Some s
  | i :: turns' => s' ← thread_step s i; schedule s' turns'
  end.

Lemma schedule_steps turns s s' : schedule s turns = Some s' → nsteps sys_step (length turns) s s'.
Proof.
  revert s. induction turns as [|i turns IH]; intros s; cbn; [intros [= ->]; constructor|].
  destruct (thread_step s i) as [s1|] eqn:Hs; [|done]. cbn. intros Hrun. econstructor; [by exists i|by apply IH].
Qed.
End threads.
End held.

Arguments Done {TypeId value R} r.
Arguments Step {TypeId value R} a k.
Arguments Granted {TypeId value A} a h.
Arguments Blocked {TypeId value A}.
Arguments Race {TypeId value A}.
Arguments RdLock {TypeId value} addr.
Arguments RdUnlock {TypeId value} addr.
Arguments WrLock {TypeId value} addr.
Arguments WrUnlock {TypeId value} addr d.
Arguments RawBegin {TypeId value} addr.
Arguments RawEnd {TypeId value} addr.
Arguments mkDyn {TypeId value} dy_type dy_value.
Arguments dy_type {TypeId value} d.
Arguments dy_value {TypeId value} d.
Arguments mkSys {TypeId value R} sy_heap sy_threads.
Arguments sy_heap {TypeId value R} s.
Arguments sy_threads {TypeId value R} s.
Arguments mkHeap {TypeId value} hp_any hp_vec.
Arguments hp_any {TypeId value} h.
Arguments hp_vec {TypeId value} h.
Arguments mkCell {TypeId value} ce_value ce_readers ce_writer ce_raw.
Arguments ce_value {TypeId value} c.
Arguments ce_readers {TypeId value} c.
Arguments ce_writer {TypeId value} c.
Arguments ce_raw {TypeId value} c.
