(* ===== verification/HeldSpec.v ===== *)
(** Concurrent borrows of objects behave as if they were made one after the other, as long
    as no object that is read without its lock is written; and where they do not. *)
From S2P Require Import Prelude Types Held.
From stdpp Require Import strings.
Open Scope nat_scope.
Open Scope list_scope.

Lemma count_insert {A} (f : A → bool) l i x y : l !! i = Some x →
  length (List.filter f (<[i := y]> l)) + Nat.b2n (f x) = length (List.filter f l) + Nat.b2n (f y).
Proof.
  revert i. induction l as [|z l IH]; intros [|i] Hi; try done; simpl.
  - injection Hi as ->. destruct (f x), (f y); cbn; lia.
  - specialize (IH i Hi). destruct (f z); cbn; lia.
Qed.

Lemma count_pos {A} (f : A → bool) l i x : l !! i = Some x → f x = true → 0 < length (List.filter f l).
Proof.
  intros Hi Hf. assert (Hin : x ∈ List.filter f l).
  { apply list_elem_of_In, List.filter_In. split; [|done]. apply list_elem_of_In. by eapply list_elem_of_lookup_2. }
  destruct (List.filter f l); [by apply not_elem_of_nil in Hin|cbn; lia].
Qed.

Lemma count_found {A} (f : A → bool) l : 0 < length (List.filter f l) → ∃ i x, l !! i = Some x ∧ f x = true.
Proof.
  destruct (List.filter f l) as [|x l'] eqn:Hl; [cbn; lia|]. intros _.
  assert (Hin : In x (List.filter f l)) by (rewrite Hl; by left). apply List.filter_In in Hin as [Hin Hf].
  apply list_elem_of_In, list_elem_of_lookup in Hin as [i Hi]. by exists i, x.
Qed.

Lemma first_unique {A B} (l : list (A * B)) a b b' : NoDup l.*1 → (a, b) ∈ l → (a, b') ∈ l → b = b'.
Proof.
  intros Hnd [i Hi]%list_elem_of_lookup [j Hj]%list_elem_of_lookup. assert (i = j) as <-; [|congruence].
  eapply NoDup_lookup; [exact Hnd|..]; rewrite list_lookup_fmap; [by rewrite Hi|by rewrite Hj].
Qed.

Section serial.
Context {TypeId : Type} `{!EqDecision TypeId} {value : TypeId → Type} {R : Type}.
#[local] Abbreviation Dyn := (Dyn value).

(** ** One borrow *)

(** A borrow of an object, with what the closure does: [Bread] by [with_any], [Bwrite] by
    [with_any_mut]. *)
Inductive Borrow :=
  | Bread (raw : bool) (addr : nat) (T : TypeId) (f : value T → R)
  | Bwrite (held : bool) (addr : nat) (T : TypeId) (f : value T → R * value T).

Definition object_value (held : bool) (addr : nat) : CmTypes := if held then CmAnyHeld addr else CmAny addr.

Definition code_of (t : Borrow) : Code value (option R) :=
  match t with
  | Bread raw addr T f => with_any value (object_value raw addr) T (λ x, Done (f x))
  | Bwrite held addr T f => with_any_mut value (object_value held addr) T (λ x, Done (f x))
  end.

Definition obj (t : Borrow) : nat := match t with Bread _ a _ _ | Bwrite _ a _ _ => a end.
Definition is_raw (t : Borrow) : bool := match t with Bread raw _ _ _ => raw | _ => false end.
Definition is_write (t : Borrow) : bool := match t with Bwrite _ _ _ _ => true | _ => false end.

(** What a borrow gives, and leaves, when it has the object for itself. *)
Definition outcome_of (t : Borrow) (d : Dyn) : option R * Dyn :=
  match t with
  | Bread _ _ T f => (f <$> downcast_ref value T d, d)
  | Bwrite _ _ T f =>
      match downcast_ref value T d with
      | Some x => (Some (f x).1, mkDyn T (f x).2)
      | None => (None, d)
      end
  end.

(** Borrows one after the other: the results by position, and the objects in the end. *)
Definition serial_step (ts : list Borrow) (s : list (nat * option R) * list Dyn) (i : nat) : list (nat * option R) * list Dyn :=
  match ts !! i with
  | Some t =>
      match s.2 !! obj t with
      | Some d => let p := outcome_of t d in (s.1 ++ [(i, p.1)], <[obj t := p.2]> s.2)
      | None => s
      end
  | None => s
  end.
Definition serial (ts : list Borrow) (objs : list Dyn) (order : list nat) : list (nat * option R) * list Dyn :=
  fold_left (serial_step ts) order ([], objs).

Lemma serial_snoc ts objs order i : serial ts objs (order ++ [i]) = serial_step ts (serial ts objs order) i.
Proof. unfold serial. by rewrite fold_left_app. Qed.

(** ** Where a borrow is *)

Inductive Stage := Before | Reading (r : option R) | Writing (d : Dyn) (r : option R) | After (r : option R).

Definition code_at (t : Borrow) (st : Stage) : Code value (option R) :=
  match st with
  | Before => code_of t
  | Reading r => Step (if is_raw t then RawEnd (obj t) else RdUnlock (obj t)) (λ _, Done r)
  | Writing d r => Step (WrUnlock (obj t) d) (λ _, Done r)
  | After r => Done r
  end.

Definition reading_at (a : nat) (p : Borrow * Stage) : bool :=
  match p.2 with Reading _ => (obj p.1 =? a) && negb (is_raw p.1) | _ => false end.
Definition raw_at (a : nat) (p : Borrow * Stage) : bool :=
  match p.2 with Reading _ => (obj p.1 =? a) && is_raw p.1 | _ => false end.
Definition writing_at (a : nat) (p : Borrow * Stage) : bool :=
  match p.2 with Writing _ _ => obj p.1 =? a | _ => false end.

Definition stage_weight (st : Stage) : nat := match st with Before => 2 | After _ => 0 | _ => 1 end.

(** The first step of a borrow: in, or not. *)
Definition let_in (t : Borrow) (c : Cell value) : option (Cell value) :=
  if is_write t then
    if ce_writer c || negb (ce_readers c =? 0) || negb (ce_raw c =? 0) then None else Some (mkCell (ce_value c) 0 true 0)
  else if ce_writer c then None
  else if is_raw t then Some (mkCell (ce_value c) (ce_readers c) false (ce_raw c + 1))
  else Some (mkCell (ce_value c) (ce_readers c + 1) false (ce_raw c)).

Definition stage_in (t : Borrow) (d : Dyn) : Stage :=
  if is_write t then Writing (outcome_of t d).2 (outcome_of t d).1 else Reading (outcome_of t d).1.

Lemma start_step h (cs : list (Code value (option R))) i t c : cs !! i = Some (code_of t) → hp_any h !! obj t = Some c →
  thread_step value (mkSys h cs) i =
    match let_in t c with
    | Some c' => Some (mkSys (put_cell value h (obj t) c') (<[i := code_at t (stage_in t (ce_value c))]> cs))
    | None => None
    end.
Proof.
  intros Hi Hc. unfold thread_step. cbn [sy_threads sy_heap]. rewrite Hi. unfold let_in, stage_in.
  destruct t as [[] addr T f|[] addr T f]; cbn in *; unfold at_cell; rewrite Hc; destruct (ce_writer c); cbn; try done.
  1, 2: by destruct (downcast_ref value T (ce_value c)).
  all: destruct (ce_readers c =? 0); cbn; [|done]; destruct (ce_raw c =? 0); cbn; [|done].
  all: by destruct (downcast_ref value T (ce_value c)).
Qed.

Lemma start_races h (cs : list (Code value (option R))) i t c : cs !! i = Some (code_of t) → hp_any h !! obj t = Some c →
  thread_races value (mkSys h cs) i =
    if is_write t then negb (ce_writer c) && (ce_readers c =? 0) && negb (ce_raw c =? 0) else is_raw t && ce_writer c.
Proof.
  intros Hi Hc. unfold thread_races. cbn [sy_threads sy_heap]. rewrite Hi.
  destruct t as [[] addr T f|[] addr T f]; cbn in *; unfold at_cell; rewrite Hc; destruct (ce_writer c); cbn; try done.
  all: destruct (ce_readers c =? 0); cbn; [|done]; by destruct (ce_raw c =? 0).
Qed.

(** The step that ends a borrow. *)
Definition let_out (t : Borrow) (st : Stage) (c : Cell value) : Cell value :=
  match st with
  | Writing d _ => mkCell d (ce_readers c) false (ce_raw c)
  | _ => if is_raw t then mkCell (ce_value c) (ce_readers c) (ce_writer c) (ce_raw c - 1)
         else mkCell (ce_value c) (ce_readers c - 1) (ce_writer c) (ce_raw c)
  end.

Lemma end_step h (cs : list (Code value (option R))) i t st r c : cs !! i = Some (code_at t st) → hp_any h !! obj t = Some c →
  (st = Reading r ∨ ∃ d, st = Writing d r) →
  thread_step value (mkSys h cs) i = Some (mkSys (put_cell value h (obj t) (let_out t st c)) (<[i := Done r]> cs)).
Proof.
  intros Hi Hc [->|[d ->]]; unfold thread_step; cbn [sy_threads sy_heap]; rewrite Hi; cbn; unfold at_cell; [destruct (is_raw t); cbn; unfold at_cell|]; by rewrite Hc.
Qed.

Lemma end_races h (cs : list (Code value (option R))) i t st r : cs !! i = Some (code_at t st) →
  (st = Reading r ∨ ∃ d, st = Writing d r) → thread_races value (mkSys h cs) i = false.
Proof.
  intros Hi [->|[d ->]]; unfold thread_races; cbn [sy_threads sy_heap]; rewrite Hi; cbn; unfold at_cell; [destruct (is_raw t); cbn; unfold at_cell|]; by destruct (hp_any h !! obj t).
Qed.

(** ** Every interleaving *)

Section threads.
Context (ts : list Borrow) (objs0 : list Dyn).
Context (Hobj : ∀ t, t ∈ ts → obj t < length objs0).
Context (Hraw : ∀ t t', t ∈ ts → t' ∈ ts → is_raw t = true → is_write t' = true → obj t ≠ obj t').

Definition count (P : Borrow * Stage → bool) (sts : list Stage) : nat := length (List.filter P (zip ts sts)).
Definition cell_of (sts : list Stage) (a : nat) (d : Dyn) : Cell value :=
  mkCell d (count (reading_at a) sts) (0 <? count (writing_at a) sts) (count (raw_at a) sts).

(** A borrow has its place in the order, with its result, once it reads or is over. *)
Definition stage_ok (results : list (nat * option R)) (order : list nat) (i : nat) (st : Stage) : Prop :=
  match st with Before | Writing _ _ => i ∉ order | Reading r | After r => (i, r) ∈ results end.

Record inv (n : nat) (s : Sys value) (sts : list Stage) (order : list nat) : Prop := {
  iv_length : length sts = length ts;
  iv_threads : sy_threads s = zip_with code_at ts sts;
  iv_order : NoDup order;
  iv_range : Forall (λ i, i < length ts) order;
  iv_names : (serial ts objs0 order).1.*1 = order;
  iv_objs : length (serial ts objs0 order).2 = length objs0;
  iv_cells : hp_any (sy_heap s) = imap (cell_of sts) (serial ts objs0 order).2;
  iv_stage : ∀ i st, sts !! i = Some st → stage_ok (serial ts objs0 order).1 order i st;
  iv_writing : ∀ i t d r, ts !! i = Some t → sts !! i = Some (Writing d r) →
    is_write t = true ∧ ∃ d0, (serial ts objs0 order).2 !! obj t = Some d0 ∧ outcome_of t d0 = (r, d);
  iv_reading : ∀ i t r, ts !! i = Some t → sts !! i = Some (Reading r) → is_write t = false;
  iv_excl : ∀ a, count (writing_at a) sts ≤ 1 ∧ (0 < count (writing_at a) sts → count (reading_at a) sts = 0);
  iv_steps : n + sum_list (stage_weight <$> sts) = 2 * length ts;
}.

Lemma count_update P sts i t st st' : ts !! i = Some t → sts !! i = Some st →
  count P (<[i := st']> sts) + Nat.b2n (P (t, st)) = count P sts + Nat.b2n (P (t, st')).
Proof.
  intros Ht Hst. unfold count. replace (zip ts (<[i := st']> sts)) with (<[i := (t, st')]> (zip ts sts)).
  - apply count_insert. rewrite lookup_zip_with, Ht. cbn. by rewrite Hst.
  - pose proof (insert_zip_with pair ts sts i t st') as H. by rewrite (list_insert_id ts i t Ht) in H.
Qed.

Lemma weight_update sts i st st' : sts !! i = Some st →
  sum_list (stage_weight <$> <[i := st']> sts) + stage_weight st = sum_list (stage_weight <$> sts) + stage_weight st'.
Proof.
  revert i. induction sts as [|x sts IH]; intros [|i] Hi; try done; rewrite list_fmap_insert in *; cbn.
  - injection Hi as ->. lia.
  - specialize (IH i Hi). rewrite list_fmap_insert in IH. rewrite <- !Nat.add_assoc. f_equal. exact IH.
Qed.

Lemma other_cell sts i t st st' a d : ts !! i = Some t → sts !! i = Some st → a ≠ obj t → cell_of (<[i := st']> sts) a d = cell_of sts a d.
Proof.
  intros Ht Hst Ha. unfold cell_of.
  assert (Hno : ∀ st0, reading_at a (t, st0) = false ∧ raw_at a (t, st0) = false ∧ writing_at a (t, st0) = false).
  { intros st0. unfold reading_at, raw_at, writing_at. cbn. rewrite (proj2 (Nat.eqb_neq _ _)) by done. by destruct st0. }
  pose proof (count_update (reading_at a) _ _ _ _ st' Ht Hst) as C1. pose proof (count_update (raw_at a) _ _ _ _ st' Ht Hst) as C2.
  pose proof (count_update (writing_at a) _ _ _ _ st' Ht Hst) as C3.
  destruct (Hno st) as (H1 & H2 & H3), (Hno st') as (H4 & H5 & H6). rewrite H1, H4 in C1. rewrite H2, H5 in C2. rewrite H3, H6 in C3. cbn in C1, C2, C3. f_equal; [lia|f_equal; lia|lia].
Qed.

(** The cells after a step of one borrow, on its object. *)
Lemma cells_update sts objs i t st st' d d' c' : ts !! i = Some t → sts !! i = Some st → objs !! obj t = Some d →
  cell_of (<[i := st']> sts) (obj t) d' = c' →
  imap (cell_of (<[i := st']> sts)) (<[obj t := d']> objs) = <[obj t := c']> (imap (cell_of sts) objs).
Proof.
  intros Ht Hst Hd Hc. apply list_eq. intros a. rewrite list_lookup_imap. destruct (decide (a = obj t)) as [->|Ha].
  - rewrite !list_lookup_insert_eq; [by rewrite <- Hc|rewrite length_imap|]; by eapply lookup_lt_Some.
  - rewrite !list_lookup_insert_ne by done. rewrite list_lookup_imap. destruct (objs !! a); [|done]. cbn. f_equal. by eapply other_cell.
Qed.

(** Borrows without the lock are not beside one for writing. *)
Lemma raw_excl sts order n s a : inv n s sts order → 0 < count (raw_at a) sts → count (writing_at a) sts = 0.
Proof.
  intros Hi Hr. destruct (count (writing_at a) sts) eqn:Hw; [done|]. exfalso.
  destruct (count_found _ _ Hr) as (i & [t st] & Hi1 & Ht). destruct (count_found (writing_at a) (zip ts sts)) as (j & [t' st'] & Hj & Ht'); [unfold count in Hw; lia|].
  rewrite lookup_zip_Some in Hi1, Hj. destruct Hi1 as [Hti Hsi], Hj as [Htj Hsj].
  destruct st as [|r| |]; try done. destruct st' as [| |d r'|]; try done. cbn in Ht, Ht'. apply andb_true_iff in Ht as [Ha Hraw'].
  apply Nat.eqb_eq in Ha, Ht'. destruct (iv_writing _ _ _ _ Hi _ _ _ _ Htj Hsj) as [Hw' _].
  apply (Hraw t t'); [by eapply list_elem_of_lookup_2|by eapply list_elem_of_lookup_2|done|done|congruence].
Qed.

Lemma serial_next order i t d : ts !! i = Some t → (serial ts objs0 order).2 !! obj t = Some d →
  serial ts objs0 (order ++ [i]) = ((serial ts objs0 order).1 ++ [(i, (outcome_of t d).1)], <[obj t := (outcome_of t d).2]> (serial ts objs0 order).2).
Proof. intros Ht Hd. rewrite serial_snoc. unfold serial_step. by rewrite Ht, Hd. Qed.

(** *** The parts of the invariant that a step of one borrow changes *)

Definition excl (sts : list Stage) (a : nat) : Prop :=
  count (writing_at a) sts ≤ 1 ∧ (0 < count (writing_at a) sts → count (reading_at a) sts = 0).

Lemma excl_update sts i t st st' : ts !! i = Some t → sts !! i = Some st → (∀ a, excl sts a) → excl (<[i := st']> sts) (obj t) →
  ∀ a, excl (<[i := st']> sts) a.
Proof.
  intros Ht Hst Hall Hobj' a. destruct (decide (a = obj t)) as [->|Ha]; [done|].
  assert (Hd : ∀ d, cell_of (<[i := st']> sts) a d = cell_of sts a d) by (intros d; by eapply other_cell).
  assert (Hno : ∀ st0, reading_at a (t, st0) = false ∧ writing_at a (t, st0) = false).
  { intros st0. unfold reading_at, writing_at. cbn. rewrite (proj2 (Nat.eqb_neq _ _)) by done. by destruct st0. }
  pose proof (count_update (reading_at a) _ _ _ _ st' Ht Hst) as C1. pose proof (count_update (writing_at a) _ _ _ _ st' Ht Hst) as C2.
  destruct (Hno st) as (H1 & H2), (Hno st') as (H3 & H4). rewrite H1, H3 in C1. rewrite H2, H4 in C2. cbn in C1, C2.
  specialize (Hall a). unfold excl in *. lia.
Qed.

(** What is known of the object of a borrow. *)
Lemma object_known n s sts order i t : inv n s sts order → ts !! i = Some t →
  ∃ d, (serial ts objs0 order).2 !! obj t = Some d ∧ hp_any (sy_heap s) !! obj t = Some (cell_of sts (obj t) d).
Proof.
  intros Hi Ht. destruct (lookup_lt_is_Some_2 (serial ts objs0 order).2 (obj t)) as [d Hd].
  { rewrite (iv_objs _ _ _ _ Hi). apply Hobj. by eapply list_elem_of_lookup_2. }
  exists d. split; [done|]. rewrite (iv_cells _ _ _ _ Hi), list_lookup_imap, Hd. done.
Qed.

Lemma threads_update n s sts order i t st' : inv n s sts order → ts !! i = Some t →
  <[i := code_at t st']> (sy_threads s) = zip_with code_at ts (<[i := st']> sts).
Proof.
  intros Hi Ht. rewrite (iv_threads _ _ _ _ Hi). pose proof (insert_zip_with code_at ts sts i t st') as H. by rewrite (list_insert_id ts i t Ht) in H.
Qed.

Lemma steps_update n s sts order i st st' : inv n s sts order → sts !! i = Some st → stage_weight st = S (stage_weight st') →
  S n + sum_list (stage_weight <$> <[i := st']> sts) = 2 * length ts.
Proof. intros Hi Hst Hw. pose proof (iv_steps _ _ _ _ Hi). pose proof (weight_update sts i st st' Hst). lia. Qed.

(** Two borrows do not write one object. *)
Lemma writing_other n s sts order i j t t' d r d' r' : inv n s sts order → ts !! i = Some t → sts !! i = Some (Writing d r) →
  ts !! j = Some t' → sts !! j = Some (Writing d' r') → j ≠ i → obj t' ≠ obj t.
Proof.
  intros Hi Ht Hst Ht' Hst' Hne Heq. destruct (iv_excl _ _ _ _ Hi (obj t)) as [Hle _].
  pose proof (count_update (writing_at (obj t)) sts i t _ (After r) Ht Hst) as C. cbn in C. rewrite Nat.eqb_refl in C. cbn in C.
  assert (Hpos : 0 < count (writing_at (obj t)) (<[i := After r]> sts)).
  { unfold count. eapply (count_pos _ _ j (t', Writing d' r')); [|cbn; by rewrite Heq, Nat.eqb_refl].
    rewrite lookup_zip_with, Ht'. cbn. by rewrite list_lookup_insert_ne, Hst'. }
  lia.
Qed.

(** A borrow that is put at the end of the order. *)
Lemma order_snoc order i : NoDup order → Forall (λ i, i < length ts) order → i ∉ order → i < length ts →
  NoDup (order ++ [i]) ∧ Forall (λ i, i < length ts) (order ++ [i]).
Proof.
  intros Hnd Hr Hi Hlt. split; [|apply Forall_app; by repeat constructor].
  apply NoDup_app. split; [done|]. split; [|apply NoDup_singleton]. by intros x Hx ->%list_elem_of_singleton.
Qed.

Lemma stage_snoc results (sts : list Stage) i st' r order :
  (∀ j st, sts !! j = Some st → stage_ok results order j st) → (st' = Reading r ∨ st' = After r) →
  ∀ j st, <[i := st']> sts !! j = Some st → stage_ok (results ++ [(i, r)]) (order ++ [i]) j st.
Proof.
  intros Hall Hst' j st Hj. destruct (decide (j = i)) as [->|Hne].
  - rewrite list_lookup_insert_eq in Hj by (rewrite <- (length_insert sts i st'); by eapply lookup_lt_Some). injection Hj as <-.
    destruct Hst' as [-> | ->]; apply elem_of_app; right; by apply list_elem_of_singleton.
  - rewrite list_lookup_insert_ne in Hj by done. specialize (Hall j st Hj).
    destruct st; cbn in *; [|apply elem_of_app; by left| |apply elem_of_app; by left]; (intros [Hin|Hin%list_elem_of_singleton]%elem_of_app; [by apply Hall|done]).
Qed.

Lemma stage_same results (sts : list Stage) i st' order : (∀ j st, sts !! j = Some st → stage_ok results order j st) → stage_ok results order i st' →
  ∀ j st, <[i := st']> sts !! j = Some st → stage_ok results order j st.
Proof.
  intros Hall Hst' j st Hj. destruct (decide (j = i)) as [->|Hne].
  - rewrite list_lookup_insert_eq in Hj by (rewrite <- (length_insert sts i st'); by eapply lookup_lt_Some). by injection Hj as <-.
  - rewrite list_lookup_insert_ne in Hj by done. by apply Hall.
Qed.

Lemma update_length n s sts order i st' : inv n s sts order → length (<[i := st']> sts) = length ts.
Proof. intros Hi. by rewrite length_insert, (iv_length _ _ _ _ Hi). Qed.

(** *** The four steps *)

(** A borrow for reading begins: it has its place in the order. *)
Lemma read_in n h cs sts order i t d st' : inv n (mkSys h cs) sts order → ts !! i = Some t → sts !! i = Some Before → is_write t = false →
  (serial ts objs0 order).2 !! obj t = Some d → st' = Reading (outcome_of t d).1 → count (writing_at (obj t)) sts = 0 →
  inv (S n) (mkSys (put_cell value h (obj t) (cell_of (<[i := st']> sts) (obj t) d)) (<[i := code_at t st']> cs)) (<[i := st']> sts) (order ++ [i]).
Proof.
  intros Hi Ht Hst Hread Hd Hst' Hnw. pose proof (serial_next order i t d Ht Hd) as Hser.
  assert (Hsame : (outcome_of t d).2 = d) by (by destruct t). rewrite Hsame, (list_insert_id _ _ _ Hd) in Hser.
  destruct (order_snoc order i (iv_order _ _ _ _ Hi) (iv_range _ _ _ _ Hi) (iv_stage _ _ _ _ Hi i _ Hst)) as [Ho Hr]; [by eapply lookup_lt_Some|].
  constructor; rewrite ?Hser; cbn [fst snd sy_threads sy_heap hp_any put_cell]; try done.
  - by eapply update_length.
  - exact (threads_update _ _ _ _ _ _ _ Hi Ht).
  - rewrite fmap_app, (iv_names _ _ _ _ Hi). done.
  - by apply (iv_objs _ _ _ _ Hi).
  - rewrite (iv_cells _ _ _ _ Hi : hp_any h = _). rewrite <- (list_insert_id _ _ _ Hd) at 2. symmetry. by eapply cells_update.
  - apply stage_snoc; [apply (iv_stage _ _ _ _ Hi)|by left].
  - intros j t' d' r' Ht' [(_ & [=] & _)|[_ Hj]]%list_lookup_insert_Some; [congruence|]. by apply (iv_writing _ _ _ _ Hi j).
  - intros j t' r' Ht' [(<- & _ & _)|[_ Hj]]%list_lookup_insert_Some; [congruence|]. by eapply (iv_reading _ _ _ _ Hi).
  - apply (excl_update _ _ _ _ _ Ht Hst (iv_excl _ _ _ _ Hi)).
    pose proof (count_update (writing_at (obj t)) sts i t _ st' Ht Hst) as C. subst st'. cbn in C. unfold excl. lia.
  - eapply steps_update; [done|done|by subst st'].
Qed.

(** A borrow for writing begins. *)
Lemma write_in n h cs sts order i t d st' : inv n (mkSys h cs) sts order → ts !! i = Some t → sts !! i = Some Before → is_write t = true →
  (serial ts objs0 order).2 !! obj t = Some d → st' = Writing (outcome_of t d).2 (outcome_of t d).1 →
  count (writing_at (obj t)) sts = 0 → count (reading_at (obj t)) sts = 0 →
  inv (S n) (mkSys (put_cell value h (obj t) (cell_of (<[i := st']> sts) (obj t) d)) (<[i := code_at t st']> cs)) (<[i := st']> sts) order.
Proof.
  intros Hi Ht Hst Hwrite Hd Hst' Hnw Hnr. pose proof Hi as [I1 I2 I3 I4 I5 I6 I7 I8 I9 I10 I11 I12].
  constructor; cbn [fst snd sy_threads sy_heap hp_any put_cell]; try done.
  - by eapply update_length.
  - exact (threads_update _ _ _ _ _ _ _ Hi Ht).
  - rewrite (I7 : hp_any h = _). rewrite <- (list_insert_id _ _ _ Hd) at 2. symmetry. by eapply cells_update.
  - apply stage_same; [done|]. subst st'. by apply (I8 i _ Hst).
  - intros j t' d' r' Ht' [(<- & Heq & _)|[_ Hj]]%list_lookup_insert_Some; [|by apply (I9 j)].
    rewrite Ht in Ht'. injection Ht' as <-. split; [done|]. exists d. split; [done|]. rewrite Hst' in Heq. injection Heq as <- <-. by destruct (outcome_of t d).
  - intros j t' r' Ht' [(<- & Heq & _)|[_ Hj]]%list_lookup_insert_Some; [congruence|by eapply I10].
  - apply (excl_update _ _ _ _ _ Ht Hst I11).
    pose proof (count_update (writing_at (obj t)) sts i t _ st' Ht Hst) as C. pose proof (count_update (reading_at (obj t)) sts i t _ st' Ht Hst) as C'.
    subst st'. cbn in C, C'. rewrite Nat.eqb_refl in C. cbn in C. unfold excl. lia.
  - eapply steps_update; [done|done|by subst st'].
Qed.

(** A borrow for reading ends. *)
Lemma read_out n h cs sts order i t d r st' : inv n (mkSys h cs) sts order → ts !! i = Some t → sts !! i = Some (Reading r) →
  (serial ts objs0 order).2 !! obj t = Some d → st' = After r →
  inv (S n) (mkSys (put_cell value h (obj t) (cell_of (<[i := st']> sts) (obj t) d)) (<[i := code_at t st']> cs)) (<[i := st']> sts) order.
Proof.
  intros Hi Ht Hst Hd Hst'. pose proof Hi as [I1 I2 I3 I4 I5 I6 I7 I8 I9 I10 I11 I12].
  constructor; cbn [fst snd sy_threads sy_heap hp_any put_cell]; try done.
  - by eapply update_length.
  - exact (threads_update _ _ _ _ _ _ _ Hi Ht).
  - rewrite (I7 : hp_any h = _). rewrite <- (list_insert_id _ _ _ Hd) at 2. symmetry. by eapply cells_update.
  - apply stage_same; [done|]. subst st'. by apply (I8 i _ Hst).
  - intros j t' d' r' Ht' [(<- & Heq & _)|[_ Hj]]%list_lookup_insert_Some; [congruence|by apply (I9 j)].
  - intros j t' r' Ht' [(<- & Heq & _)|[_ Hj]]%list_lookup_insert_Some; [congruence|by eapply I10].
  - apply (excl_update _ _ _ _ _ Ht Hst I11).
    pose proof (count_update (writing_at (obj t)) sts i t _ st' Ht Hst) as C. pose proof (count_update (reading_at (obj t)) sts i t _ st' Ht Hst) as C'.
    specialize (I11 (obj t)). subst st'. cbn in C, C'. unfold excl. lia.
  - eapply steps_update; [done|done|by subst st'].
Qed.

(** A borrow for writing ends, and has its place. *)
Lemma write_out n h cs sts order i t d d' r st' : inv n (mkSys h cs) sts order → ts !! i = Some t → sts !! i = Some (Writing d' r) →
  (serial ts objs0 order).2 !! obj t = Some d → st' = After r →
  inv (S n) (mkSys (put_cell value h (obj t) (cell_of (<[i := st']> sts) (obj t) d')) (<[i := code_at t st']> cs)) (<[i := st']> sts) (order ++ [i]).
Proof.
  intros Hi Ht Hst Hd Hst'. pose proof Hi as [I1 I2 I3 I4 I5 I6 I7 I8 I9 I10 I11 I12].
  destruct (I9 i t d' r Ht Hst) as (Hwrite & d0 & Hd0 & Hout). assert (d0 = d) as -> by congruence.
  pose proof (serial_next order i t d Ht Hd) as Hser. rewrite Hout in Hser. cbn [fst snd] in Hser.
  destruct (order_snoc order i I3 I4 (I8 i _ Hst)) as [Ho Hr]; [by eapply lookup_lt_Some|].
  constructor; rewrite ?Hser; cbn [fst snd sy_threads sy_heap hp_any put_cell]; try done.
  - by eapply update_length.
  - exact (threads_update _ _ _ _ _ _ _ Hi Ht).
  - rewrite fmap_app, I5. done.
  - by rewrite length_insert.
  - rewrite (I7 : hp_any h = _). symmetry. by eapply cells_update.
  - apply stage_snoc; [done|by right].
  - intros j t' d1 r' Ht' [(<- & Heq & _)|[Hne Hj]]%list_lookup_insert_Some; [congruence|].
    destruct (I9 j t' d1 r' Ht' Hj) as (Hw' & d2 & Hd2 & Hout'). split; [done|]. exists d2. split; [|done].
    rewrite list_lookup_insert_ne; [done|]. symmetry. eapply writing_other; [exact Hi|exact Ht|exact Hst|exact Ht'|exact Hj|done].
  - intros j t' r' Ht' [(<- & Heq & _)|[_ Hj]]%list_lookup_insert_Some; [congruence|by eapply I10].
  - apply (excl_update _ _ _ _ _ Ht Hst I11).
    pose proof (count_update (writing_at (obj t)) sts i t _ st' Ht Hst) as C. pose proof (count_update (reading_at (obj t)) sts i t _ st' Ht Hst) as C'.
    specialize (I11 (obj t)). subst st'. cbn in C, C'. rewrite Nat.eqb_refl in C. cbn in C. unfold excl. lia.
  - eapply steps_update; [done|done|by subst st'].
Qed.

(** *** Steps, races and progress *)

(** The cell after a borrow was let in counts it. *)
Lemma let_in_cell sts i t d c' : ts !! i = Some t → sts !! i = Some Before → let_in t (cell_of sts (obj t) d) = Some c' →
  c' = cell_of (<[i := stage_in t d]> sts) (obj t) d ∧ count (writing_at (obj t)) sts = 0
  ∧ (is_write t = true → count (reading_at (obj t)) sts = 0).
Proof.
  intros Ht Hst.
  pose proof (count_update (writing_at (obj t)) sts i t _ (stage_in t d) Ht Hst) as C1.
  pose proof (count_update (reading_at (obj t)) sts i t _ (stage_in t d) Ht Hst) as C2.
  pose proof (count_update (raw_at (obj t)) sts i t _ (stage_in t d) Ht Hst) as C3.
  unfold let_in, cell_of, stage_in in *. cbn [ce_writer ce_readers ce_raw ce_value].
  destruct (Nat.ltb_spec 0 (count (writing_at (obj t)) sts)) as [|Hnw]; [by destruct (is_write t)|]. cbn [orb].
  destruct (is_write t) eqn:Hw; cbn in C1, C2, C3; rewrite Nat.eqb_refl in *; cbn in C1, C2, C3.
  - destruct (Nat.eqb_spec (count (reading_at (obj t)) sts) 0); [|done]. destruct (Nat.eqb_spec (count (raw_at (obj t)) sts) 0); [|done].
    assert (Hf : (0 <? count (writing_at (obj t)) (<[i := Writing (outcome_of t d).2 (outcome_of t d).1]> sts)) = true) by (apply Nat.ltb_lt; lia).
    cbn [negb orb]. rewrite Hf. intros [= <-]. split; [f_equal; lia|lia].
  - assert (Hf : (0 <? count (writing_at (obj t)) (<[i := Reading (outcome_of t d).1]> sts)) = false) by (apply Nat.ltb_ge; lia). rewrite Hf.
    destruct (is_raw t); cbn in C2, C3; intros [= <-]; (split; [f_equal; lia|split; [lia|done]]).
Qed.

(** And after it was let out, no longer. *)
Lemma let_out_cell sts i t st d r : ts !! i = Some t → sts !! i = Some st → excl sts (obj t) → (∀ r, st = Reading r → is_write t = false) →
  (st = Reading r ∨ ∃ d', st = Writing d' r) →
  let_out t st (cell_of sts (obj t) d) = cell_of (<[i := After r]> sts) (obj t) (match st with Writing d' _ => d' | _ => d end).
Proof.
  intros Ht Hst [He1 He2] Hread Hcase.
  pose proof (count_update (writing_at (obj t)) sts i t _ (After r) Ht Hst) as C1. pose proof (count_update (reading_at (obj t)) sts i t _ (After r) Ht Hst) as C2.
  pose proof (count_update (raw_at (obj t)) sts i t _ (After r) Ht Hst) as C3.
  destruct Hcase as [->|[d' ->]]; cbn in C1, C2, C3 |- *; rewrite Nat.eqb_refl in *; unfold cell_of.
  - assert (Hw : count (writing_at (obj t)) (<[i := After r]> sts) = count (writing_at (obj t)) sts) by lia. rewrite Hw.
    destruct (is_raw t); cbn in C2, C3 |- *; f_equal; lia.
  - assert (Hf : (0 <? count (writing_at (obj t)) (<[i := After r]> sts)) = false) by (apply Nat.ltb_ge; cbn in C1; lia). rewrite Hf.
    cbn in C1, C2, C3 |- *. f_equal; lia.
Qed.

Lemma thread_at n s sts order i c : inv n s sts order → sy_threads s !! i = Some c →
  ∃ t st, ts !! i = Some t ∧ sts !! i = Some st ∧ c = code_at t st.
Proof.
  intros Hi Hc. rewrite (iv_threads _ _ _ _ Hi) in Hc. rewrite lookup_zip_with in Hc.
  destruct (ts !! i) as [t|] eqn:Ht; [|done]. cbn in Hc. destruct (sts !! i) as [st|] eqn:Hst; [|done]. cbn in Hc. injection Hc as <-. by exists t, st.
Qed.

Lemma inv_step n s sts order s' : inv n s sts order → sys_step value s s' → ∃ sts' order', inv (S n) s' sts' order'.
Proof.
  intros Hi [i Hs]. destruct s as [h cs]. pose proof Hs as Hs0. unfold thread_step in Hs0. cbn [sy_threads sy_heap] in Hs0.
  destruct (cs !! i) as [c|] eqn:Hc; [|done]. destruct (thread_at _ _ _ _ _ _ Hi Hc) as (t & st & Ht & Hst & ->).
  destruct (object_known _ _ _ _ _ _ Hi Ht) as (d & Hd & Hcell). cbn [sy_heap] in Hcell. clear Hs0.
  assert (Hend : ∀ r, (st = Reading r ∨ ∃ d', st = Writing d' r) →
    s' = mkSys (put_cell value h (obj t) (cell_of (<[i := After r]> sts) (obj t) (match st with Writing d' _ => d' | _ => d end))) (<[i := code_at t (After r)]> cs)).
  { intros r Hr. rewrite (end_step h cs i t st r _ Hc Hcell Hr) in Hs. injection Hs as <-. f_equal. f_equal. apply let_out_cell; try done.
    - by apply (iv_excl _ _ _ _ Hi).
    - intros r' ->. by eapply (iv_reading _ _ _ _ Hi). }
  destruct st as [|r|d' r|r].
  - rewrite (start_step h cs i t _ Hc Hcell) in Hs. destruct (let_in t (cell_of sts (obj t) d)) as [c'|] eqn:Hin; [|done]. injection Hs as <-.
    destruct (let_in_cell _ _ _ _ _ Ht Hst Hin) as (-> & Hnw & Hnr). change (ce_value (cell_of sts (obj t) d)) with d.
    destruct (is_write t) eqn:Hw.
    + eexists _, _. apply (write_in n h cs sts order i t d (stage_in t d) Hi Ht Hst Hw Hd); [unfold stage_in; by rewrite Hw|done|by apply Hnr].
    + eexists _, _. apply (read_in n h cs sts order i t d (stage_in t d) Hi Ht Hst Hw Hd); [unfold stage_in; by rewrite Hw|done].
  - rewrite (Hend r) by (by left). eexists _, _. by eapply (read_out n h cs sts order i t d r (After r) Hi Ht Hst Hd).
  - rewrite (Hend r) by (right; by eexists). eexists _, _. by eapply (write_out n h cs sts order i t d d' r (After r) Hi Ht Hst Hd).
  - unfold thread_step in Hs. cbn [sy_threads] in Hs. by rewrite Hc in Hs.
Qed.

Lemma inv_no_race n s sts order i : inv n s sts order → thread_races value s i = false.
Proof.
  intros Hi. destruct (sy_threads s !! i) as [c|] eqn:Hc; [|unfold thread_races; by rewrite Hc].
  destruct (thread_at _ _ _ _ _ _ Hi Hc) as (t & st & Ht & Hst & ->). destruct s as [h cs]. cbn [sy_threads] in Hc.
  destruct (object_known _ _ _ _ _ _ Hi Ht) as (d & Hd & Hcell). cbn [sy_heap] in Hcell.
  destruct st as [|r|d' r|r]; [|eapply end_races; [done|by left]|eapply end_races; [done|right; by eexists]|unfold thread_races; cbn [sy_threads]; by rewrite Hc].
  rewrite (start_races h cs i t _ Hc Hcell). unfold cell_of. cbn [ce_writer ce_readers ce_raw].
  pose proof (list_elem_of_lookup_2 _ _ _ Ht) as Hin. destruct (is_write t) eqn:Hw.
  - destruct (Nat.eqb_spec (count (raw_at (obj t)) sts) 0) as [|Hraw0]; [by rewrite andb_false_r|]. exfalso.
    destruct (count_found (raw_at (obj t)) (zip ts sts)) as (j & [t' st'] & Hj & Hat); [unfold count in Hraw0; lia|].
    apply lookup_zip_Some in Hj as [Htj _]. unfold raw_at in Hat. cbn in Hat. destruct st'; try done. apply andb_true_iff in Hat as [Ha Hr].
    apply Nat.eqb_eq in Ha. by apply (Hraw t' t (list_elem_of_lookup_2 _ _ _ Htj) Hin Hr Hw).
  - destruct (is_raw t) eqn:Hr; [|done]. cbn [andb]. destruct (count (writing_at (obj t)) sts) eqn:Hcw; [done|]. exfalso.
    destruct (count_found (writing_at (obj t)) (zip ts sts)) as (j & [t' st'] & Hj & Hat); [unfold count in Hcw; lia|].
    apply lookup_zip_Some in Hj as [Htj Hstj]. unfold writing_at in Hat. cbn in Hat. destruct st' as [| |d' r'|]; try done. apply Nat.eqb_eq in Hat.
    destruct (iv_writing _ _ _ _ Hi _ _ _ _ Htj Hstj) as [Hw' _]. by apply (Hraw t t' Hin (list_elem_of_lookup_2 _ _ _ Htj) Hr Hw').
Qed.

Lemma count_zero P sts : (∀ t st, st ∈ sts → P (t, st) = false) → count P sts = 0.
Proof.
  intros Hno. destruct (count P sts) eqn:Hc; [done|]. destruct (count_found P (zip ts sts)) as (i & [t st] & Hi & Hp); [unfold count in Hc; lia|].
  apply lookup_zip_Some in Hi as [_ Hst]. rewrite Hno in Hp; [done|by eapply list_elem_of_lookup_2].
Qed.

(** Without a borrow in progress every lock is free. *)
Lemma idle_cell sts a d : (∀ st, st ∈ sts → stage_weight st ≠ 1) → cell_of sts a d = new_cell value d.
Proof.
  intros Hidle. unfold cell_of. rewrite !count_zero; [done|..]; intros t st Hin; specialize (Hidle st Hin); by destruct st.
Qed.

Lemma inv_progress n s sts order i c : inv n s sts order → sy_threads s !! i = Some c → (∀ r, c ≠ Done r) → ∃ s', sys_step value s s'.
Proof.
  intros Hi Hc Hnd. destruct s as [h cs]. destruct (decide (Exists (λ st, stage_weight st = 1) sts)) as [Hex|Hno].
  - apply Exists_exists in Hex as (st & [j Hj]%list_elem_of_lookup & Hw).
    destruct (lookup_lt_is_Some_2 ts j) as [t Ht]; [rewrite <- (iv_length _ _ _ _ Hi); by eapply lookup_lt_Some|].
    assert (Hcj : cs !! j = Some (code_at t st)) by (rewrite (iv_threads _ _ _ _ Hi : cs = _), lookup_zip_with, Ht; cbn; by rewrite Hj).
    destruct (object_known _ _ _ _ _ _ Hi Ht) as (d & _ & Hcell).
    assert (Hr : ∃ r, st = Reading r ∨ ∃ d', st = Writing d' r) by (destruct st as [|r|d' r|]; try done; exists r; [by left|right; by eexists]).
    destruct Hr as [r Hr]. eexists. exists j. exact (end_step h cs j t st r _ Hcj Hcell Hr).
  - rewrite <- Forall_Exists_neg, Forall_forall in Hno. destruct (thread_at _ _ _ _ _ _ Hi Hc) as (t & st & Ht & Hst & ->).
    specialize (Hno st (list_elem_of_lookup_2 _ _ _ Hst)) as Hw. destruct st as [| | |r]; try done; [|by destruct (Hnd r)].
    destruct (object_known _ _ _ _ _ _ Hi Ht) as (d & _ & Hcell). rewrite idle_cell in Hcell by done.
    pose proof (start_step h cs i t _ Hc Hcell) as Hs. unfold let_in in Hs. cbn in Hs.
    destruct (is_write t); [by eexists; exists i|]. by destruct (is_raw t); eexists; exists i.
Qed.

Lemma weight_before k : sum_list (stage_weight <$> replicate k Before) = 2 * k.
Proof. rewrite fmap_replicate, sum_list_replicate. cbn. lia. Qed.

(** The objects unlocked, and every thread before its borrow. *)
Definition start (vecs : list (list Dyn)) : Sys value := mkSys (mkHeap (new_cell value <$> objs0) vecs) (code_of <$> ts).

Lemma before_inv vecs : inv 0 (start vecs) (replicate (length ts) Before) [].
Proof.
  assert (Hidle : ∀ st, st ∈ replicate (length ts) Before → stage_weight st ≠ 1) by (by intros st [-> _]%elem_of_replicate).
  constructor; cbn; try done.
  - apply length_replicate.
  - apply list_eq. intros i. rewrite list_lookup_fmap, lookup_zip_with. destruct (ts !! i) as [t|] eqn:Ht; [|done].
    cbn. by rewrite lookup_replicate_2 by (by eapply lookup_lt_Some).
  - constructor.
  - apply list_eq. intros a. rewrite list_lookup_fmap, list_lookup_imap. destruct (objs0 !! a); [|done]. cbn. by rewrite idle_cell.
  - intros i st [-> _]%lookup_replicate_1. apply not_elem_of_nil.
  - intros i t d r _ [[=] _]%lookup_replicate_1.
  - intros i t r _ [[=] _]%lookup_replicate_1.
  - intros a. split; rewrite !count_zero; try lia; intros t st [-> _]%elem_of_replicate; done.
  - rewrite weight_before. lia.
Qed.

Lemma run_inv n m s0 s sts order : inv n s0 sts order → nsteps (sys_step value) m s0 s → ∃ sts' order', inv (m + n) s sts' order'.
Proof.
  intros Hi Hrun. revert n sts order Hi. induction Hrun as [s|m s0 s1 s2 Hstep _ IH]; intros n sts order Hi; [by exists sts, order|].
  destruct (inv_step _ _ _ _ _ Hi Hstep) as (sts1 & order1 & Hi1). destruct (IH _ _ _ Hi1) as (sts2 & order2 & Hi2).
  exists sts2, order2. by replace (S m + n) with (m + S n) by lia.
Qed.

(** C23. Threads that each make one borrow of one object that exists, by [with_any] or
    [with_any_mut], with a closure that only computes: it borrows nothing itself and returns. No
    object that is read without its lock is written. Then in any interleaving no two references
    to an object exist of which one is for writing, a thread that is not through is let in or
    another one is, and all are through after two steps each; and then there is an order of the
    borrows such that every result and every object is what the borrows give when they are made
    one after the other in this order, and all locks are free. *)
Theorem borrows_serial vecs n s (Hrun : nsteps (sys_step value) n (start vecs) s) :
  (∀ i, thread_races value s i = false)
  ∧ n ≤ 2 * length ts
  ∧ (∀ i c, sy_threads s !! i = Some c → (∀ r, c ≠ Done r) → ∃ s', sys_step value s s')
  ∧ ((∀ i c, sy_threads s !! i = Some c → ∃ r, c = Done r) →
      ∃ order, order ≡ₚ seq 0 (length ts)
        ∧ hp_any (sy_heap s) = new_cell value <$> (serial ts objs0 order).2
        ∧ (serial ts objs0 order).1.*1 = order
        ∧ ∀ i r, (i, r) ∈ (serial ts objs0 order).1 → sy_threads s !! i = Some (Done r)).
Proof using Hobj Hraw.
  destruct (run_inv _ _ _ _ _ _ (before_inv vecs) Hrun) as (sts & order & Hi). rewrite Nat.add_0_r in Hi.
  split; [intros i; by eapply inv_no_race|]. split; [pose proof (iv_steps _ _ _ _ Hi); lia|]. split; [intros i c; by eapply inv_progress|].
  intros Hdone. assert (Hafter : ∀ i st, sts !! i = Some st → ∃ r, st = After r).
  { intros i st Hst. destruct (lookup_lt_is_Some_2 ts i) as [t Ht]; [rewrite <- (iv_length _ _ _ _ Hi); by eapply lookup_lt_Some|].
    destruct (Hdone i (code_at t st)) as [r Hr]; [rewrite (iv_threads _ _ _ _ Hi), lookup_zip_with, Ht; cbn; by rewrite Hst|].
    destruct st as [| | |r']; [by destruct t as [[]|[]]|done|done|by exists r']. }
  exists order. split; [|split; [|split; [apply Hi|]]].
  - apply NoDup_Permutation; [apply Hi|apply NoDup_seq|]. intros i. rewrite elem_of_seq. pose proof (iv_range _ _ _ _ Hi) as Hr. rewrite Forall_forall in Hr.
    split; [intros Hin; specialize (Hr i Hin); lia|]. intros [_ Hlt]. destruct (lookup_lt_is_Some_2 sts i) as [st Hst]; [rewrite (iv_length _ _ _ _ Hi); lia|].
    destruct (Hafter i st Hst) as [r ->]. pose proof (iv_stage _ _ _ _ Hi i _ Hst) as Hin. cbn in Hin.
    rewrite <- (iv_names _ _ _ _ Hi). apply list_elem_of_fmap. by exists (i, r).
  - rewrite (iv_cells _ _ _ _ Hi). apply list_eq. intros a. rewrite list_lookup_imap, list_lookup_fmap. destruct (_ !! a) as [d|]; [|done]. cbn. f_equal.
    apply idle_cell. intros st [i Hst]%list_elem_of_lookup. by destruct (Hafter i st Hst) as [r ->].
  - intros i r Hir. assert (Hin : i ∈ order) by (rewrite <- (iv_names _ _ _ _ Hi); apply list_elem_of_fmap; by exists (i, r)).
    pose proof (iv_range _ _ _ _ Hi) as Hr. rewrite Forall_forall in Hr. specialize (Hr i Hin). cbn in Hr.
    destruct (lookup_lt_is_Some_2 ts i Hr) as [t Ht]. destruct (lookup_lt_is_Some_2 sts i) as [st Hst]; [by rewrite (iv_length _ _ _ _ Hi)|].
    destruct (Hafter i st Hst) as [r' ->]. pose proof (iv_stage _ _ _ _ Hi i _ Hst) as Hir'. cbn in Hir'.
    assert (r' = r) as ->.
    { pose proof (iv_order _ _ _ _ Hi) as Hnd. rewrite <- (iv_names _ _ _ _ Hi) in Hnd. by eapply first_unique. }
    rewrite (iv_threads _ _ _ _ Hi), lookup_zip_with, Ht. cbn. by rewrite Hst.
Qed.
End threads.
End serial.

(** ** Two objects *)

(** A counter and a list of numbers. *)
Definition kinds (T : bool) : Type := if T then nat else list Z.
Definition two_objects : list (Dyn kinds) := [mkDyn (true : bool) (3 : kinds true); mkDyn (false : bool) ([1; 2]%Z : kinds false)].
Definition counter_up : @Borrow bool kinds nat := Bwrite false 0 true (λ x : nat, (x, x + 1)).
Definition counter_twice : @Borrow bool kinds nat := Bwrite true 0 true (λ x : nat, (x, 2 * x)).
Definition list_len (raw : bool) : @Borrow bool kinds nat := Bread raw 1 false (λ l : list Z, length l).
Definition three_borrows : list (@Borrow bool kinds nat) := [counter_up; counter_twice; list_len true].

(** The list is read without its lock while the counter is written twice. *)
Lemma borrows_serial_witness :
  match schedule kinds (start three_borrows two_objects []) [2; 1; 2; 1; 0; 0] with
  | Some s => ∃ order, order ≡ₚ seq 0 3 ∧ hp_any (sy_heap s) = new_cell kinds <$> (serial three_borrows two_objects order).2
      ∧ sy_threads s = [Done (Some 6); Done (Some 3); Done (Some 2)]
  | None => False
  end.
Proof.
  destruct (schedule kinds (start three_borrows two_objects []) [2; 1; 2; 1; 0; 0]) as [s|] eqn:Hs; [|vm_compute in Hs; discriminate Hs].
  destruct (borrows_serial three_borrows two_objects) with (vecs := @nil (list (Dyn kinds))) (n := 6) (s := s) as (_ & _ & _ & Hall).
  - intros t Ht. repeat (apply elem_of_cons in Ht as [->|Ht]; [cbn; lia|]). by apply not_elem_of_nil in Ht.
  - intros t t' Ht Ht' Hr Hw. repeat (apply elem_of_cons in Ht as [->|Ht]; [try discriminate Hr|]); [|by apply not_elem_of_nil in Ht].
    repeat (apply elem_of_cons in Ht' as [->|Ht']; [try discriminate Hw; cbn; lia|]). by apply not_elem_of_nil in Ht'.
  - exact (schedule_steps kinds _ _ _ Hs).
  - assert (Hthreads : sy_threads s = [Done (Some 6); Done (Some 3); Done (Some 2)]) by (vm_compute in Hs; injection Hs as <-; reflexivity).
    destruct Hall as (order & Hp & Hobjs & _ & _).
    + intros i c Hc. rewrite Hthreads in Hc. destruct i as [|[|[|i]]]; cbn in Hc; try discriminate Hc; injection Hc as <-; by eexists.
    + exists order. by split; [|split].
Defined.

(** ** Where borrows are not serial *)

(** Two tasks of a node in bulk, of which one reads an object and the other writes it: the
    reader is inside when the writer is let in. *)
Theorem held_reader_races (f : nat → nat) (g : nat → nat * nat) :
  let ts : list (@Borrow bool kinds nat) := [Bread true 0 true f; Bwrite true 0 true g] in
  ∃ s, schedule kinds (start ts two_objects []) [0] = Some s ∧ thread_races kinds s 1 = true.
Proof. eexists. split; reflexivity. Qed.

(** With the lock the writer waits. *)
Theorem locked_reader_waits (f : nat → nat) (g : nat → nat * nat) :
  let ts : list (@Borrow bool kinds nat) := [Bread false 0 true f; Bwrite true 0 true g] in
  ∃ s, schedule kinds (start ts two_objects []) [0] = Some s ∧ thread_races kinds s 1 = false ∧ thread_step kinds s 1 = None.
Proof. eexists. split; [reflexivity|]. split; reflexivity. Qed.

(** One object given for [&mut T] and for [&T]: the companion waits for itself. In bulk it
    has both references. *)
Definition both_references (v : CmTypes) : Code kinds (option (option nat)) :=
  with_any_mut kinds v true (λ x : nat, code_bind kinds (with_any kinds v true (λ y : nat, Done (x + y))) (λ r, Done (r, x))).

Theorem same_object_twice :
  (∃ s, schedule kinds (mkSys (mkHeap (new_cell kinds <$> two_objects) []) [both_references (CmAny 0)]) [0] = Some s
    ∧ thread_step kinds s 0 = None ∧ thread_races kinds s 0 = false ∧ ∀ r, sy_threads s !! 0 ≠ Some (Done r))
  ∧ ∃ s, schedule kinds (mkSys (mkHeap (new_cell kinds <$> two_objects) []) [both_references (CmAnyHeld 0)]) [0] = Some s
    ∧ thread_races kinds s 0 = true.
Proof. split; eexists; (split; [reflexivity|]); [|reflexivity]. split; [reflexivity|]. by split. Qed.

(** Two objects of one type, borrowed in opposite orders by two tasks: neither goes on. *)
Definition both_written (v w : CmTypes) : Code kinds (option (option nat)) :=
  with_any_mut kinds v true (λ x : nat, code_bind kinds (with_any_mut kinds w true (λ y : nat, Done (x, y + x))) (λ r, Done (r, x))).

Theorem opposite_orders_wait :
  ∃ s, schedule kinds (mkSys (mkHeap (new_cell kinds <$> [mkDyn (true : bool) (1 : kinds true); mkDyn true 2]) [])
      [both_written (CmAny 0) (CmAny 1); both_written (CmAny 1) (CmAny 0)]) [0; 1] = Some s
    ∧ thread_step kinds s 0 = None ∧ thread_step kinds s 1 = None ∧ ∀ i r, sy_threads s !! i ≠ Some (Done r).
Proof. eexists. split; [reflexivity|]. split; [reflexivity|]. split; [reflexivity|]. by intros [|[|i]] r. Qed.

(** What a task gets from an object as [Any] it does not get in bulk, as [AnyHeld]. *)
Theorem held_bytes_unreadable {R} addr (f : list Z → Code kinds R) :
  with_bytes kinds false (λ l : list Z, l) (CmAnyHeld addr) f = Done None ∧ as_mut_ptr kinds (CmAnyHeld addr) false = Done None.
Proof. done. Qed.
